(* ===== verification/_CoqProject ===== *)
-Q . S2P
Prelude.v
Weight.v
FloatWeight.v
Properties.v
SymbolTable.v
Fst.v
VectorFst.v
Mutation.v
VectorSound.v
MutableFst.v
Rational.v
RationalLang.v
RationalProps.v
RationalSpec.v
UnionFind.v
IntervalSet.v
Heap.v
Partition.v
PartitionSplit.v
ArcMap.v
ArcMapSpec.v
Dfs.v
Tarjan.v
Scc.v
Renumber.v
Connect.v
Condense.v
TestProperties.v
StateSort.v
TopSort.v
StateMap.v
Reverse.v
ReverseSpec.v
ArcSort.v
Queue.v
AutoQueue.v
ShortestDistance.v
Relaxation.v
DistanceSpec.v
ReverseDistance.v
PathTree.v
ShortestPath.v
PathSpec.v
Matcher.v
ComposeFilter.v
Compose.v
Product.v
ComposeSpec.v
Minimize.v
Hopcroft.v
Cyclic.v
CyclicSpec.v
Merge.v
Unique.v
Acyclic.v
MinimizeSpec.v
