(* ===== verification/Prelude.v ===== *)
(** * OpenFst: a model of its core and what it computes

OpenFst is a C++ library of weighted finite-state transducers.  A machine has
states [0 .. n-1], a start state or none, a final weight for each state and for
each state a list of arcs with an input label, an output label (0 is epsilon), a
weight and a target.  Weights form a semiring that is a template parameter.
Algorithms read machines through the abstract class [Fst], change them through
[MutableFst], and all of them keep a 64-bit word of property bits: facts about
the machine that are known to hold or not to hold, on which other algorithms
rely instead of looking.  This development models that core from the headers
under src/openfst/lib and proves what its operations do; wrong property bits are
the bugs the library is prone to, so every operation here is also proved to
leave true bits.

** Conventions

State numbers, labels and sizes are [Z]; property words are [Z] with [Z.land],
[Z.lor] and [u64_not], and counters of type [size_t] wrap at 64 bits.  A
[std::vector] is a list, read by [l.[i]] and written by [l.[i <- x]]; both are
[None] out of range, which is undefined behaviour in C++, so that an equation
[op x = Some y] also says that [op x] never leaves a vector.  Loops over a range
are [foldM] over the list of its items, other loops take fuel; each has a
theorem that the fuel its caller passes is enough.  A class is a record and a
method a function that returns the new record.  Templates over the weight are
sections over the classes [WeightOps] (the operations), [WeightEq] (equality)
and [TimesMonoid] (the laws of Times, on members only).  Virtual calls on
mutable machines go through the class [MutableFst] of MutableFst.v, and
algorithms are proved against its laws [MutableFstLaws], which [VectorFst]
satisfies.  Names are those of the source; where a name would clash it carries
its class ([Scc_InitState], [UF_Union]).

Messages to the log are not modelled.  [FSTERROR] (util.h) is a message that ends
the program if the flag fst_error_fatal is on, which is its default, and is nothing
more if it is off.  The definitions are those of a program with the flag off: an
operation goes on after the message, mostly by setting the error bit.  What the
theorems say of errors (a wrong order in [StateSort], arguments that [Compose]
refuses, weights that do not do) holds for that setting; with the flag on these runs
end there, and everything that is said of other runs holds for both.

** Files

- Prelude: vectors, machine words, loop rules, lemmas on lists.
- Weight (weight.h, arc.h): the weight interface as type classes, [NaturalLess],
  [Power], [Adder], and arcs.  FloatWeight (float-weight.h): the limits, and
  the tropical and min-max weights on SpecFloat floats.
- Properties (properties.h, properties.cc): every bit and every function that
  computes the bits of a result.
- SymbolTable (symbol-table.h, symbol-table.cc): the table with its dense part
  and its hash map, check sums, [CompatSymbols].
- Fst (fst.h): the record of what algorithms read; edges, paths, the relation
  [accepts f x y w], and [Holds f t], the meaning of each property bit.
  [Sound p f] says that the bits of the word [p] are true of [f].
- VectorFst (vector-fst.h, mutable-fst.h): states with their epsilon counters,
  every mutation with its update of the bits, in-place deletion of states,
  copying.  Mutation: the mutations on [Fst] and their effect on the bits.
  VectorSound: VectorFst implements them.  MutableFst: the interface.
- Rational (rational.h, union.h, concat.h, closure.h), RationalLang,
  RationalProps, RationalSpec: [Union], [Concat] in both directions, [Closure].
- UnionFind (union-find.h), IntervalSet (interval-set.h), Heap (heap.h): the
  containers, each against its abstract value (an equivalence relation, a set of
  points, a finite map).
- ArcMap (arc-map.h, invert.h, project.h), ArcMapSpec: in-place mapping of arcs
  and final weights for any mapper and final action, the mappers, [Invert],
  [Project].
- Dfs (dfs-visit.h, arcfilter.h): the visit with its explicit stack for any
  visitor, and a rule [visitor_rule] for what a visitor computes.  Tarjan: the
  algorithm of [SccVisitor] on functions, with its invariant.  Scc
  (cc-visitors.h): the class on its vectors follows it.
- Renumber: machines with some states of another in a new order.  Connect and
  Condense (connect.h).  TestProperties (test-properties.h, impl-to-fst.h):
  computing bits.  StateSort (statesort.h), TopSort (topsort.h).
- StateMap (state-map.h), ArcSort (arcsort.h): mapping the arcs of one state at a
  time, in place and to another machine; sorting arcs.
- Reverse (reverse.h), ReverseSpec: turning arcs round, with or without a new
  initial state.
- Queue, AutoQueue (queue.h): the queue disciplines, each a bag of states; the
  queue of strongly connected components and the automatic choice of a queue.
- ShortestDistance (shortest-distance.h): the generic algorithm.  Relaxation:
  what relaxing arcs in any order computes, on functions.  DistanceSpec: the
  algorithm follows it.  ReverseDistance: the distances to the final states, on the
  reversed machine, and the weight of a machine of any kind.
- PathTree: trees of parents that relaxing arcs leaves, on functions.
  ShortestPath (shortest-path.h): the search for one path with its parents, and
  the walk back that builds the path.  PathSpec: it follows the trees.
- Partition (partition.h): classes of elements as linked lists, with the counters
  of a split.  PartitionSplit: what a split does to the classes.
- Minimize (minimize.h): Hopcroft's refinement over the reversed machine, the
  refinement of acyclic machines by height, merging, [AcceptorMinimize].
  Hopcroft: traces, the machine as a function of state and label, and the argument
  of Hopcroft's algorithm on functions.  Cyclic, CyclicSpec: the cyclic minimizer
  follows it.  Merge: merging the states of a class, [MergeStates].  Unique: taking
  out equal arcs.  Acyclic: heights and their refinement.  MinimizeSpec: the whole.
- Matcher (matcher.h): the class of matchers with its laws, sorted matchers and
  hash matchers.  ComposeFilter (compose-filter.h, filter-state.h): the class of
  composition filters with its laws, and the filters.  Compose (compose.h,
  state-table.h, bi-table.h): composition over any matchers and filter.  Product:
  what a composition is, as a machine.  ComposeSpec: the algorithm makes one.

** What is proved

- C1 to C5: any sequence of mutations of a [VectorFst] keeps its bits true and
  its epsilon counters exact, implements the abstract mutations, and never
  leaves a vector; copies are faithful.
- C6 to C9: the rational operations accept the union, concatenation and closure
  of the languages, with true bits.
- C10 to C17: union-find, interval sets, the heap and partitions implement their
  abstract values on every operation.
- C18 to C21: arc mapping; inversion (also that it undoes itself), projection.
- C22: a visit with [SccVisitor] ends and computes strongly connected components
  in topological order, accessibility, coaccessibility and the bits.
- C23, C24: [Connect] leaves exactly the useful states and the same language;
  [Condense] builds the acyclic machine of the components.
- C25, C26: [ComputeProperties] is right about every property it is asked for,
  and [Properties] with a test keeps the stored bits true and answers.
- C27: [Reverse] accepts the reversed strings with the reversed weights.
- C28, C29: [AcceptorMinimize] keeps the language of a deterministic acceptor
  without weights and leaves the fewest states, where arcs are sorted or there is no
  cycle; the classes of the cyclic minimizer are those of the states that accept the
  same.
- C30, C31: [StateSort] renumbers in place; [TopSort] decides acyclicity and
  sorts.  C32: [ArcSort] sorts the arcs of every state.
- C33: the automatic choice of a queue keeps the promises of a queue.  C34, C35:
  shortest distance ends and sums up the paths to each state, whatever the queue;
  the weight of a machine sums up what it accepts.  C36: the distances on the reversed
  machine sum up what is accepted from each state.  C37: [ShortestPath] for one path
  leaves an accepted pair of strings with the least weight.
- C38: matchers return what matches, in order and each once.  C39: the filters
  leave exactly one way along two paths, two of them at least one.  C40: [Compose]
  ends with the composition of the languages and true bits, or refuses its
  arguments.  Languages are relations: how often a pair is accepted is C39.

** Fuel

[visit_tree] gets [tree_fuel], the number of arcs plus two for each state plus
two, and [visit_forest] the number of states plus two (Dfs.[DfsVisit_ok]);
[sort_cycle] the number of states plus one; [find_root] of union-find, [Heapify]
and [sift_up] of the heap and [normalize_loop] of interval sets the size of
their vectors.  [distance_loop] gets as many visits as the caller of the theorem
likes from [max_visits] on: states times words of arcs, since every visit but the
last of a state follows an improvement that takes one more word into account.
[find_matches] gets the number of arcs plus one, and [expand_states] the product of
the numbers of states and of the values of the filter state, which bounds the
number of triples.
The loop of the shortest path gets as many visits as shortest distance
([path_visits]), and the walk back the number of parents plus one.  The iterator of a
class and [move_states] get the number of elements of the partition, [split_arcs] the
number of arcs that are left on the queue, [Cyclic_Compute] the number of states: each
class is enqueued once when it is made, and classes are not empty.
The theorems about these operations say that they return.

** Hypotheses

[TimesMonoid] asks for the semiring laws of Times on members; rounding makes
them false for float addition in general, so that theorems on languages are
instantiated at the min-max weight, where they hold.  [known_states] relates the
result of [NumStatesIfKnown] to the bit kExpanded.  Operations that begin with a
depth-first visit assume that a machine with states has a start state: without
one Connect, TopSort and ComputeProperties do what the examples
[Connect_no_start], [TopSort_no_start] and [ComputeProperties_no_start] show.
Shortest distance assumes an idempotent right semiring, a test for convergence
that is equality, and that no cycle improves a path, which holds where weights are
bounded by [One] and on acyclic machines.
A shortest path assumes the path property besides.  Reversal assumes that
reversing weights keeps members, [Zero] and [One], and turns products round.  [std::sort] is any
function that permutes and sorts ([sorts]), [std::priority_queue] any that takes off
an element that no other is worse than ([takes_top]); stable sorting and taking the
first one are instances.  Minimization assumes that the reversed machine's states fit into
a state number and that [Hash] tells [Zero] from [One].  Merging relies on sorted
arcs or acyclic machines for the least number of states; examples in Minimize show
what happens without.
Composition assumes commutative weights without zero divisors, and that no arc has
the label [kNoLabel] on the sides that meet: it is how matchers and filters mark a
side that stays.

** Not modelled

Delayed (on-demand) machines and their caches compute the same results lazily
and are left out, except that a delayed composition is expanded the way a copy of
it expands it.  So are operations built on delayed machines: replacement,
determinization and what needs it (several shortest paths, disambiguation,
minimization of transducers).  Weights whose laws hold only up to rounding (log,
real) or that are built from others are left out because the theorems on languages ask
for exact laws on members.  Epsilon removal, pushing, pruning, relabelling, look-ahead
composition, comparison of machines and the queue-driven visit are algorithms of the
same kind as those modelled that this development does not reach; nothing here depends
on them.  Reading and writing of files, memory-mapped storage, registries, the scripting
layer, command line tools, Python bindings and extensions move data or forward
calls. *)
From stdpp Require Export base tactics numbers list list_numbers sets gmap strings sorting.
From Stdlib Require Export ZArith Lia Sorting.Sorted.
#[global] Open Scope Z_scope.

(** * Generic definitions and lemmas shared by the components *)

(** ** C++ vectors indexed by signed or unsigned integers

A [std::vector] is a list.  An access outside its range is undefined behaviour
in C++; it is the value [None] here, and so is everything that depends on it. *)

Declare Scope openfst_scope.
Delimit Scope openfst_scope with ofst.
#[global] Open Scope openfst_scope.

Definition vget {A} (l : list A) (i : Z) : option A :=
  if decide (0 ≤ i) then l !! Z.to_nat i else None.

Definition vset {A} (l : list A) (i : Z) (x : A) : option (list A) :=
  if decide (0 ≤ i < Z.of_nat (length l)) then Some (<[Z.to_nat i := x]> l) else None.

(** [v.resize(n, x)]: truncates, or extends with copies of [x]. *)
Definition vresize {A} (n : Z) (x : A) (l : list A) : list A := resize (Z.to_nat n) x l.

Definition zlen {A} (l : list A) : Z := Z.of_nat (length l).

Notation "l .[ i ]" := (vget l i) (at level 1, left associativity, format "l .[ i ]") : openfst_scope.
Notation "l .[ i <- x ]" := (vset l i x) (at level 1, left associativity, format "l .[ i  <-  x ]") : openfst_scope.

Lemma vget_Some {A} (l : list A) i x :
  l.[i] = Some x ↔ 0 ≤ i ∧ l !! Z.to_nat i = Some x.
Proof. unfold vget. case_decide; naive_solver. Qed.

Lemma vget_nat {A} (l : list A) (n : nat) : l.[Z.of_nat n] = l !! n.
Proof. unfold vget. rewrite decide_True by lia. by rewrite Nat2Z.id. Qed.

Lemma vget_range {A} (l : list A) i x : l.[i] = Some x → 0 ≤ i < zlen l.
Proof.
  intros [? ?%lookup_lt_Some]%vget_Some. unfold zlen. lia.
Qed.

Lemma vget_is_Some {A} (l : list A) i : is_Some (l.[i]) ↔ 0 ≤ i < zlen l.
Proof.
  split; [intros [x Hx]; by eapply vget_range|].
  intros ?. unfold vget. rewrite decide_True by lia.
  apply lookup_lt_is_Some. unfold zlen in *. lia.
Qed.

Lemma vget_in_range {A} (l : list A) i : 0 ≤ i < zlen l → ∃ x, l.[i] = Some x.
Proof. intros ?. by apply vget_is_Some. Qed.

Lemma vget_None {A} (l : list A) i : l.[i] = None ↔ i < 0 ∨ zlen l ≤ i.
Proof.
  rewrite eq_None_not_Some, vget_is_Some. unfold zlen. lia.
Qed.

Lemma vget_elem_of {A} (l : list A) i x : l.[i] = Some x → x ∈ l.
Proof. intros [_ ?%list_elem_of_lookup_2]%vget_Some. done. Qed.

Lemma elem_of_vget {A} (l : list A) x : x ∈ l → ∃ i, l.[i] = Some x.
Proof.
  intros [n ?]%list_elem_of_lookup. exists (Z.of_nat n). by rewrite vget_nat.
Qed.

Lemma vget_cons_S {A} (x : A) l i : 0 ≤ i → (x :: l).[i + 1] = l.[i].
Proof. intros Hi. unfold vget. rewrite !decide_True by lia. by replace (Z.to_nat (i + 1)) with (S (Z.to_nat i)) by lia. Qed.

Lemma vget_app {A} (l k : list A) i :
  (l ++ k).[i] = if decide (i < zlen l) then l.[i] else k.[i - zlen l].
Proof.
  unfold zlen. case_decide as Hi.
  - unfold vget. case_decide; [|done]. apply lookup_app_l. lia.
  - unfold vget. rewrite !decide_True by lia.
    rewrite lookup_app_r by lia. f_equal. lia.
Qed.

Lemma vget_app_l {A} (l k : list A) i x : l.[i] = Some x → (l ++ k).[i] = Some x.
Proof.
  intros H. rewrite vget_app. pose proof (vget_range _ _ _ H).
  rewrite decide_True by lia. done.
Qed.

Lemma vget_fmap {A B} (f : A → B) (l : list A) i : (f <$> l).[i] = f <$> l.[i].
Proof. unfold vget. case_decide; [by rewrite list_lookup_fmap|done]. Qed.

Lemma zlen_app {A} (l k : list A) : zlen (l ++ k) = zlen l + zlen k.
Proof. unfold zlen. rewrite length_app. lia. Qed.

Lemma zlen_fmap {A B} (f : A → B) (l : list A) : zlen (f <$> l) = zlen l.
Proof. unfold zlen. by rewrite length_fmap. Qed.

Lemma zlen_cons {A} (x : A) l : zlen (x :: l) = 1 + zlen l.
Proof. unfold zlen. simpl. lia. Qed.

Lemma zlen_nil {A} : zlen (@nil A) = 0.
Proof. done. Qed.

Lemma zlen_nonneg {A} (l : list A) : 0 ≤ zlen l.
Proof. unfold zlen. lia. Qed.

Lemma zlen_insert {A} (l : list A) i x : zlen (<[i:=x]> l) = zlen l.
Proof. unfold zlen. by rewrite length_insert. Qed.

Lemma vset_Some {A} (l l' : list A) i x :
  l.[i <- x] = Some l' ↔ 0 ≤ i < zlen l ∧ l' = <[Z.to_nat i := x]> l.
Proof. unfold vset, zlen. case_decide; naive_solver. Qed.

Lemma vset_is_Some {A} (l : list A) i x :
  0 ≤ i < zlen l → l.[i <- x] = Some (<[Z.to_nat i := x]> l).
Proof. intros. by apply vset_Some. Qed.

Lemma vset_len {A} (l l' : list A) i x : l.[i <- x] = Some l' → zlen l' = zlen l.
Proof. intros [_ ->]%vset_Some. apply zlen_insert. Qed.

Lemma vget_insert {A} (l : list A) i j x :
  0 ≤ i < zlen l →
  (<[Z.to_nat i := x]> l).[j] = if decide (i = j) then Some x else l.[j].
Proof.
  intros Hi. unfold zlen in Hi. unfold vget. case_decide.
  - case_decide as Hij.
    + subst. apply list_lookup_insert_eq. lia.
    + apply list_lookup_insert_ne. lia.
  - by rewrite decide_False by lia.
Qed.

Lemma vget_vset {A} (l l' : list A) i j x :
  l.[i <- x] = Some l' → l'.[j] = if decide (i = j) then Some x else l.[j].
Proof. intros [? ->]%vset_Some. by apply vget_insert. Qed.

Lemma vget_vset_eq {A} (l l' : list A) i x : l.[i <- x] = Some l' → l'.[i] = Some x.
Proof. intros H. rewrite (vget_vset _ _ _ _ _ H). by rewrite decide_True. Qed.

Lemma vget_vset_ne {A} (l l' : list A) i j x :
  l.[i <- x] = Some l' → i ≠ j → l'.[j] = l.[j].
Proof. intros H ?. rewrite (vget_vset _ _ _ _ _ H). by rewrite decide_False. Qed.

Lemma vec_eq {A} (l k : list A) : (∀ i, 0 ≤ i → l.[i] = k.[i]) → l = k.
Proof.
  intros H. apply list_eq. intros n. specialize (H (Z.of_nat n) ltac:(lia)).
  by rewrite !vget_nat in H.
Qed.

(** A vector that was made long enough for index [s]. *)
Definition vextend {A} (s : Z) (x : A) (l : list A) : list A :=
  if zlen l <=? s then vresize (s + 1) x l else l.

Lemma vextend_len {A} s (x : A) l : zlen (vextend s x l) = Z.max (zlen l) (s + 1).
Proof.
  unfold vextend. pose proof (zlen_nonneg l). destruct (Z.leb_spec (zlen l) s); [|lia].
  unfold vresize, zlen in *. rewrite length_resize. lia.
Qed.

Lemma vextend_get {A} s (x : A) l i :
  (vextend s x l).[i] = if decide (zlen l ≤ i ≤ s) then Some x else l.[i].
Proof.
  unfold vextend. pose proof (zlen_nonneg l). destruct (Z.leb_spec (zlen l) s).
  2:{ by rewrite decide_False by lia. }
  case_decide as Hi.
  - apply vget_Some. split; [lia|]. unfold vresize, zlen in *. apply lookup_resize_new; lia.
  - destruct (decide (0 ≤ i < zlen l)) as [Hin|Hout].
    + destruct (vget_in_range l i Hin) as [y Hy]. rewrite Hy. apply vget_Some in Hy as [? Hy].
      apply vget_Some. split; [lia|]. unfold vresize, zlen in *. rewrite lookup_resize; [done|lia..].
    + rewrite (proj2 (vget_None l i)) by lia. apply vget_None. unfold vresize, zlen in *. rewrite length_resize. lia.
Qed.

Lemma vextend_old {A} s (x : A) l i y : l.[i] = Some y → (vextend s x l).[i] = Some y.
Proof. intros Hi. pose proof (vget_range _ _ _ Hi). rewrite vextend_get. by rewrite decide_False by lia. Qed.

(** ** Loops that may hit undefined behaviour *)

Fixpoint foldM {A B} (f : B → A → option B) (l : list A) (b : B) : option B :=
  match l with
  | [] => Some b
  | x :: l => b' ← f b x; foldM f l b'
  end.

Lemma foldM_app {A B} (f : B → A → option B) l k b :
  foldM f (l ++ k) b = (b' ← foldM f l b; foldM f k b').
Proof.
  revert b. induction l as [|x l IH]; intros b; simpl; [done|].
  destruct (f b x); simpl; auto.
Qed.

(** The loop rule: [I] holds of the items consumed so far and of the state. *)
Lemma foldM_ind {A B} (f : B → A → option B) (I : list A → B → Prop) l b b' :
  I [] b →
  (∀ done x todo c c', l = done ++ x :: todo → I done c → f c x = Some c' → I (done ++ [x]) c') →
  foldM f l b = Some b' →
  I l b'.
Proof.
  intros Hb Hstep Hf.
  cut (∀ todo done c, l = done ++ todo → I done c → foldM f todo c = Some b' → I l b').
  { intros H. by eapply (H l [] b). }
  induction todo as [|x todo IH]; intros done c Hl Hc; simpl.
  - intros [= <-]. by rewrite app_nil_r in Hl; subst.
  - intros (c' & Hc' & ?)%bind_Some.
    eapply (IH (done ++ [x]) c'); [by rewrite <-app_assoc| |done].
    eapply Hstep; eauto.
Qed.

(** And the rule for totality. *)
Lemma foldM_total {A B} (f : B → A → option B) (I : list A → B → Prop) l b :
  I [] b →
  (∀ done x todo c, l = done ++ x :: todo → I done c → ∃ c', f c x = Some c' ∧ I (done ++ [x]) c') →
  ∃ b', foldM f l b = Some b' ∧ I l b'.
Proof.
  intros Hb Hstep.
  cut (∀ todo done c, l = done ++ todo → I done c → ∃ b', foldM f todo c = Some b' ∧ I l b').
  { intros H. by eapply (H l [] b). }
  induction todo as [|x todo IH]; intros done c Hl Hc; simpl.
  - exists c. by rewrite app_nil_r in Hl; subst.
  - destruct (Hstep done x todo c Hl Hc) as (c' & -> & ?). simpl.
    apply (IH (done ++ [x])); [by rewrite <-app_assoc|done].
Qed.

(** ** Machine integers *)

Definition u64 (x : Z) : Z := x mod 2^64.
Definition u64_max : Z := 0xffffffffffffffff.
(** [~x] on [uint64_t]. *)
Definition u64_not (x : Z) : Z := Z.lxor x u64_max.
(** [++n] and [--n] on [size_t]. *)
Definition size_inc (n : Z) : Z := u64 (n + 1).
Definition size_dec (n : Z) : Z := u64 (n - 1).

(** A C++ condition [if (p & m)]. *)
Definition has (p m : Z) : bool := negb (Z.land p m =? 0).

Lemma u64_max_ones : u64_max = Z.ones 64.
Proof. done. Qed.

Lemma u64_not_spec x i : 0 ≤ i < 64 → Z.testbit (u64_not x) i = negb (Z.testbit x i).
Proof.
  intros. unfold u64_not. rewrite Z.lxor_spec, u64_max_ones, Z.ones_spec_low by lia.
  by destruct (Z.testbit x i).
Qed.

Lemma land_pow2 p k : 0 ≤ k → Z.land p (2^k) = if Z.testbit p k then 2^k else 0.
Proof.
  intros Hk. apply Z.bits_inj'. intros i Hi.
  rewrite Z.land_spec, Z.pow2_bits_eqb by done.
  destruct (Z.eqb_spec k i) as [->|].
  - destruct (Z.testbit p i); simpl; [|by rewrite Z.bits_0].
    by rewrite Z.pow2_bits_true by done.
  - rewrite andb_false_r. destruct (Z.testbit p k); [|by rewrite Z.bits_0].
    by rewrite Z.pow2_bits_false.
Qed.

(** A single-bit mask tests that bit. *)
Lemma has_bit p m k : 0 ≤ k → m = 2^k → has p m = Z.testbit p k.
Proof.
  intros Hk ->. unfold has. rewrite land_pow2 by done.
  destruct (Z.testbit p k); [|done].
  destruct (Z.eqb_spec (2^k) 0); [|done]. pose proof (Z.pow_pos_nonneg 2 k). lia.
Qed.

Lemma if_same {A} (b : bool) (x : A) : (if b then x else x) = x.
Proof. by destruct b. Qed.

Lemma has_sym p m : has p m = has m p.
Proof. unfold has. by rewrite Z.land_comm. Qed.

Lemma testbit_if (b : bool) x y i :
  Z.testbit (if b then x else y) i = if b then Z.testbit x i else Z.testbit y i.
Proof. by destruct b. Qed.

Lemma size_dec_inc n : 0 ≤ n < 2^64 → size_dec (size_inc n) = n.
Proof.
  intros. unfold size_dec, size_inc, u64. rewrite Zminus_mod_idemp_l.
  rewrite Z.mod_small; lia.
Qed.

Lemma size_dec_small n : 0 < n < 2^64 → size_dec n = n - 1.
Proof. intros. unfold size_dec, u64. rewrite Z.mod_small; lia. Qed.

Lemma size_inc_small n : 0 ≤ n < 2^64 - 1 → size_inc n = n + 1.
Proof. intros. unfold size_inc, u64. rewrite Z.mod_small; lia. Qed.

(** ** Lists *)

Lemma Sorted_app_l {A} (R : relation A) l k : Sorted R (l ++ k) → Sorted R l.
Proof.
  induction l as [|x l IH]; intros Hs; simpl in *; [constructor|].
  apply Sorted_inv in Hs as [Hs Hr]. constructor; [by apply IH|].
  destruct l; simpl in *; constructor. by inversion Hr.
Qed.

Lemma Sorted_app_r {A} (R : relation A) l k : Sorted R (l ++ k) → Sorted R k.
Proof. induction l as [|x l IH]; [done|]. intros [? _]%Sorted_inv. auto. Qed.

Lemma Sorted_snoc {A} (R : relation A) l x :
  Sorted R l → (∀ y, last l = Some y → R y x) → Sorted R (l ++ [x]).
Proof.
  induction l as [|z l IH]; intros Hs Hl; simpl.
  - repeat constructor.
  - apply Sorted_inv in Hs as [Hs Hr]. constructor.
    + apply IH; [done|]. intros y Hy. apply Hl. destruct l; [done|]. by simpl in *.
    + destruct l as [|w l]; simpl; constructor; [by apply Hl|by inversion Hr].
Qed.

Lemma Sorted_snoc_last {A} (R : relation A) l x y :
  Sorted R (l ++ [x]) → last l = Some y → R y x.
Proof.
  induction l as [|z l IH]; [done|]. intros [Hs Hr]%Sorted_inv Hy.
  destruct l as [|w l]; simpl in *; [|by apply IH].
  injection Hy as ->. by inversion Hr.
Qed.

Lemma elem_of_snoc {A} (l : list A) x y : y ∈ l ++ [x] ↔ y ∈ l ∨ y = x.
Proof. rewrite elem_of_app, list_elem_of_singleton. done. Qed.

Lemma Sorted_le_strongly (l : list Z) : Sorted Z.le l → StronglySorted Z.le l.
Proof. apply Sorted_StronglySorted. intros x y z. lia. Qed.

Lemma StronglySorted_sublist {A} (R : relation A) l k :
  sublist l k → StronglySorted R k → StronglySorted R l.
Proof.
  induction 1 as [|x l k Hs IH|x l k Hs IH]; intros Hk; [constructor| |].
  - apply StronglySorted_inv in Hk as [Hk Hx]. constructor; [by apply IH|].
    rewrite Forall_forall in *. intros y Hy. apply Hx. by eapply sublist_subseteq.
  - apply StronglySorted_inv in Hk as [Hk _]. by apply IH.
Qed.

Lemma Sorted_le_sublist (l k : list Z) : sublist l k → Sorted Z.le k → Sorted Z.le l.
Proof.
  intros Hs Hk. apply StronglySorted_Sorted. by eapply StronglySorted_sublist, Sorted_le_strongly.
Qed.

Lemma elem_of_insert_inv {A} (l : list A) i x y : y ∈ <[i:=x]> l → y = x ∨ y ∈ l.
Proof.
  intros [j Hj]%list_elem_of_lookup. destruct (decide (i = j)) as [->|].
  - left. apply lookup_lt_Some in Hj as Hlt. rewrite length_insert in Hlt.
    rewrite list_lookup_insert_eq in Hj by done. by injection Hj.
  - right. rewrite list_lookup_insert_ne in Hj by done. by eapply list_elem_of_lookup_2.
Qed.

(** Prefixes of the index list of a counting loop. *)
Lemma seqZ_snoc x : 0 ≤ x → seqZ 0 x ++ [x] = seqZ 0 (x + 1).
Proof. intros. by rewrite (seqZ_app 0 x 1) by lia. Qed.

Lemma seqZ_split n done x todo :
  seqZ 0 n = done ++ x :: todo → done = seqZ 0 x ∧ 0 ≤ x < n.
Proof.
  intros Hs. assert (seqZ 0 n !! length done = Some x) as Hx.
  { rewrite Hs, lookup_app_r, Nat.sub_diag by lia. done. }
  apply lookup_seqZ in Hx as [-> Hx]. split; [|lia].
  revert Hs. set (m := 0 + Z.of_nat (length done)).
  replace n with (m + (n - m)) by lia. rewrite seqZ_app by lia. intros Hs.
  apply app_inj_1 in Hs as [-> _]; [done|]. rewrite length_seqZ. lia.
Qed.

Lemma StronglySorted_seqZ m n : StronglySorted Z.lt (seqZ m n).
Proof.
  destruct (decide (n ≤ 0)); [rewrite seqZ_nil by lia; constructor|].
  replace n with (Z.of_nat (Z.to_nat n)) by lia. generalize (Z.to_nat n). intros k.
  revert m. induction k as [|k IH]; intros m; [constructor|].
  rewrite seqZ_cons by lia. replace (Z.pred (Z.of_nat (S k))) with (Z.of_nat k) by lia.
  constructor; [apply IH|]. apply Forall_forall. intros x Hx%elem_of_seqZ. lia.
Qed.

Lemma zlen_seqZ m n : zlen (seqZ m n) = Z.max 0 n.
Proof. unfold zlen. rewrite length_seqZ. lia. Qed.

(** The last and the first step of a transitive closure. *)
Lemma tc_last {A} (R : relation A) x y : tc R x y → ∃ u, rtc R x u ∧ R u y.
Proof.
  induction 1 as [x y He|x u y He _ (w & Hw & ?)]; [by exists x|].
  exists w. split; [by eapply rtc_l|done].
Qed.

Lemma tc_first {A} (R : relation A) x y : tc R x y → ∃ u, R x u ∧ rtc R u y.
Proof.
  intros Hs. inversion Hs as [x' y' He|x' u y' He Hr]; subst; [by exists y|].
  exists u. split; [done|by apply tc_rtc].
Qed.

Lemma filter_all {A} (P : A → Prop) `{∀ x, Decision (P x)} (l : list A) :
  (∀ x, x ∈ l → P x) → filter P l = l.
Proof.
  induction l as [|x l IH]; intros Hl; [done|]. rewrite filter_cons_True by (apply Hl; left).
  f_equal. apply IH. intros y Hy. apply Hl. by right.
Qed.

(** [std::max_element]: [None] is the end of the range. *)
Definition max_element (l : list Z) : option Z :=
  match l with [] => None | x :: l => Some (foldl Z.max x l) end.

Lemma max_element_spec (l : list Z) m : max_element l = Some m → m ∈ l ∧ ∀ z, z ∈ l → z ≤ m.
Proof.
  destruct l as [|x0 l]; [done|]. intros [= <-]. revert x0.
  induction l as [|y l IH]; intros x0; simpl.
  - split; [left|]. intros z ->%list_elem_of_singleton. lia.
  - destruct (IH (Z.max x0 y)) as [Hin Hle]. split.
    + apply elem_of_cons in Hin as [->|?]; [|by right; right]. rewrite !elem_of_cons.
      destruct (Z.max_spec x0 y) as [[_ ->]|[_ ->]]; auto.
    + intros z Hx. assert (Z.max x0 y ≤ foldl Z.max (Z.max x0 y) l) as Hm by (apply Hle; left).
      apply elem_of_cons in Hx as [->|[->|Hx]%elem_of_cons]; [lia..|]. apply Hle. by right.
Qed.

(** The position of an element in a list. *)
Definition index_of (l : list Z) (x : Z) : option Z := (λ p, Z.of_nat p.1) <$> list_find (x =.) l.

Lemma index_of_Some l x i : NoDup l → index_of l x = Some i ↔ l.[i] = Some x.
Proof.
  intros Hnd. unfold index_of. rewrite fmap_Some. split.
  - intros ([n y] & (Hn & -> & _)%list_find_Some & ->). by rewrite vget_nat.
  - intros [Hi Hx]%vget_Some. exists (Z.to_nat i, x). simpl. split; [|lia].
    apply list_find_Some. split_and!; [done..|].
    intros j y Hj Hlt ->. assert (j = Z.to_nat i) by by eapply NoDup_lookup. lia.
Qed.

Lemma index_of_None l x : index_of l x = None ↔ x ∉ l.
Proof.
  unfold index_of. rewrite fmap_None, list_find_None, Forall_forall. naive_solver.
Qed.

(** Splits on the integer comparisons of the hypotheses. *)
Ltac zcases :=
  repeat match goal with
  | H : context [?x =? ?y] |- _ => destruct (Z.eqb_spec x y)
  | H : context [?x <=? ?y] |- _ => destruct (Z.leb_spec x y)
  | H : context [?x <? ?y] |- _ => destruct (Z.ltb_spec x y)
  | H : context [?x >? ?y] |- _ => rewrite (Z.gtb_ltb x y) in H
  | H : context [?x >=? ?y] |- _ => rewrite (Z.geb_leb x y) in H
  end; cbn [andb orb negb] in *.
