(* ===== verification/Weight.v ===== *)
(** Weights and arcs: the interface every weight class offers
(openfst/lib/weight.h), the semiring laws a weight promises to the algorithms,
as type classes that the weight files discharge and the algorithm files assume,
the generic code of weight.h ([Power], [Adder], [NaturalLess]) and the arc of
openfst/lib/arc.h.

C++'s [operator==] on a weight is a boolean function, not equality (for floats
[NaN != NaN] and [-0 == 0]); [≡] below is the equivalence it generates. *)
From S2P Require Import Prelude.

Definition kLeftSemiring : Z := 0x1.
Definition kRightSemiring : Z := 0x2.
Definition kSemiring : Z := Z.lor kLeftSemiring kRightSemiring.
Definition kCommutative : Z := 0x4.
Definition kIdempotent : Z := 0x8.
Definition kPath : Z := 0x10.

(* weight.h:162-166 DivideType *)
Inductive DivideType := DIVIDE_LEFT | DIVIDE_RIGHT | DIVIDE_ANY.

#[export] Instance DivideType_eq_dec : EqDecision DivideType.
Proof. solve_decision. Defined.

(** * The operations of a weight class *)

(* weight.h:39-67 Weight *)
Class WeightOps (W : Type) := {
  Zero : W;
  One : W;
  NoWeight : W;
  Plus : W → W → W;
  Times : W → W → W;
  weqb : W → W → bool;  (* operator== *)
  Member : W → bool;
}.

Abbreviation wneqb x y := (negb (weqb x y)).

Section equality.
Context `{WeightOps W}.

#[global] Instance weight_equiv : Equiv W := λ a b, a = b ∨ weqb a b = true.

Lemma weight_equiv_weqb (a b : W) : weqb a b = true → a ≡ b.
Proof. by right. Qed.
End equality.

(** * What a weight class promises *)

(** [operator==] is symmetric and transitive, and reflexive on set members. *)
Class WeightEq (W : Type) `{WeightOps W} := {
  weqb_sym : ∀ a b : W, weqb a b = true → weqb b a = true;
  weqb_trans : ∀ a b c : W, weqb a b = true → weqb b c = true → weqb a c = true;
  weqb_member_refl : ∀ a : W, Member a = true → weqb a a = true;
  weqb_member : ∀ a b : W, weqb a b = true → Member a = Member b;
  Zero_member : Member (Zero : W) = true;
  One_member : Member (One : W) = true;
}.

(** [Times] with [One] is a monoid on the set members. *)
Class TimesMonoid (W : Type) `{WeightEq W} := {
  Times_proper : Proper ((≡) ==> (≡) ==> (≡)) (Times : W → W → W);
  Times_member : ∀ a b : W, Member a = true → Member b = true → Member (Times a b) = true;
  Times_assoc : ∀ a b c : W, Member a = true → Member b = true → Member c = true →
    Times a (Times b c) ≡ Times (Times a b) c;
  Times_One_l : ∀ a : W, Member a = true → Times One a ≡ a;
  Times_One_r : ∀ a : W, Member a = true → Times a One ≡ a;
}.
#[export] Existing Instance Times_proper.

(** [Plus] with [Zero] is a commutative monoid on the set members. *)
Class PlusMonoid (W : Type) `{WeightEq W} := {
  Plus_proper : Proper ((≡) ==> (≡) ==> (≡)) (Plus : W → W → W);
  Plus_member : ∀ a b : W, Member a = true → Member b = true → Member (Plus a b) = true;
  Plus_assoc : ∀ a b c : W, Member a = true → Member b = true → Member c = true →
    Plus a (Plus b c) ≡ Plus (Plus a b) c;
  Plus_comm : ∀ a b : W, Member a = true → Member b = true → Plus a b ≡ Plus b a;
  Plus_Zero_l : ∀ a : W, Member a = true → Plus Zero a ≡ a;
}.
#[export] Existing Instance Plus_proper.

(** [kLeftSemiring] and [kRightSemiring]: the two distributive laws; in both
cases [Zero] annihilates. *)
Class LeftSemiring (W : Type) `{WeightEq W} := {
  left_plus :: PlusMonoid W;
  left_times :: TimesMonoid W;
  Times_Plus_l : ∀ a b c : W, Member a = true → Member b = true → Member c = true →
    Times c (Plus a b) ≡ Plus (Times c a) (Times c b);
  Times_Zero_l : ∀ a : W, Member a = true → Times Zero a ≡ Zero;
  Times_Zero_r : ∀ a : W, Member a = true → Times a Zero ≡ Zero;
}.

Class RightSemiring (W : Type) `{WeightEq W} := {
  right_plus :: PlusMonoid W;
  right_times :: TimesMonoid W;
  Times_Plus_r : ∀ a b c : W, Member a = true → Member b = true → Member c = true →
    Times (Plus a b) c ≡ Plus (Times a c) (Times b c);
  Times_Zero_l' : ∀ a : W, Member a = true → Times Zero a ≡ Zero;
  Times_Zero_r' : ∀ a : W, Member a = true → Times a Zero ≡ Zero;
}.

(** [kCommutative], [kIdempotent] and [kPath]. *)
Class CommutativeWeight (W : Type) `{WeightEq W} :=
  Times_comm : ∀ a b : W, Member a = true → Member b = true → Times a b ≡ Times b a.
Class IdempotentWeight (W : Type) `{WeightEq W} :=
  Plus_idemp : ∀ a : W, Member a = true → Plus a a ≡ a.
Class PathWeight (W : Type) `{WeightEq W} :=
  Plus_path : ∀ a b : W, Member a = true → Member b = true → Plus a b ≡ a ∨ Plus a b ≡ b.

Section equality_facts.
Context `{WeightEq W}.

#[global] Instance weight_equivalence : Equivalence (≡@{W}).
Proof.
  split.
  - by left.
  - intros a b [->|?]; [by left|right; by apply weqb_sym].
  - intros a b c [->|?] [->|?]; [by left|by right|by right|right; by eapply weqb_trans].
Qed.

#[global] Instance weqb_proper : Proper ((≡) ==> (≡) ==> eq) (weqb : W → W → bool).
Proof.
  intros a a' Ha b b' Hb. apply eq_bool_prop_intro. split; intros Hab%Is_true_true;
    apply Is_true_true.
  - destruct Ha as [<-|Ha], Hb as [<-|Hb]; eauto using weqb_sym, weqb_trans.
  - destruct Ha as [->|Ha], Hb as [->|Hb]; eauto using weqb_sym, weqb_trans.
Qed.

#[global] Instance Member_proper : Proper ((≡) ==> eq) (Member : W → bool).
Proof. intros a a' [->|?]; [done|by apply weqb_member]. Qed.

Lemma weqb_equiv (a b : W) : Member a = true → weqb a b = true ↔ a ≡ b.
Proof.
  intros Ha. split; [by right|intros [<-|]]; [by apply weqb_member_refl|done].
Qed.

Lemma weqb_Zero_refl : weqb (Zero : W) Zero = true.
Proof. apply weqb_member_refl, Zero_member. Qed.

Lemma weqb_One_refl : weqb (One : W) One = true.
Proof. apply weqb_member_refl, One_member. Qed.
End equality_facts.

Create HintDb weight.
#[export] Hint Resolve Zero_member One_member Times_member Plus_member
  weqb_Zero_refl weqb_One_refl : weight.

(** * Generic code of weight.h *)

Section generic.
Context `{WeightOps W}.

(* weight.h:189-197 NaturalLess *)
Definition NaturalLess (w1 w2 : W) : bool := wneqb w1 w2 && weqb (Plus w1 w2) w1.

(* weight.h:201-206 Power *)
Fixpoint Power_loop (weight result : W) (n : nat) : W :=
  match n with
  | O => result
  | S n => Power_loop weight (Times result weight) n
  end.
(* weight.h:201-206 Power *)
Definition Power (weight : W) (n : Z) : W := Power_loop weight One (Z.to_nat n).

(* weight.h:209-227 Adder *)
Record Adder := { sum_ : W }.
(* weight.h:212-212 Adder *)
Definition Adder_new : Adder := {| sum_ := Zero |}.
(* weight.h:216-219 Add *)
Definition Adder_Add (a : Adder) (w : W) : Adder * W :=
  let s := Plus (sum_ a) w in ({| sum_ := s |}, s).
(* weight.h:221-221 Sum *)
Definition Adder_Sum (a : Adder) : W := sum_ a.
(* weight.h:223-223 Reset *)
Definition Adder_Reset (a : Adder) (w : W) : Adder := {| sum_ := w |}.
End generic.

(** * Arcs *)

(* arc.h:48-67 ArcTpl *)
Record Arc (W : Type) := MkArc {
  ilabel : Z;
  olabel : Z;
  weight : W;
  nextstate : Z;
}.
Arguments MkArc {_} _ _ _ _.
Arguments ilabel {_} _.
Arguments olabel {_} _.
Arguments weight {_} _.
Arguments nextstate {_} _.

(* arc.h:69-71 ArcTpl *)
Definition ArcOne `{WeightOps W} (il ol next : Z) : Arc W := MkArc il ol One next.

Definition set_nextstate {W} (t : Z) (a : Arc W) : Arc W :=
  MkArc (ilabel a) (olabel a) (weight a) t.

(* fst.h:202-202 kNoLabel *)
Definition kNoLabel : Z := -1.
(* fst.h:203-203 kNoStateId *)
Definition kNoStateId : Z := -1.

(** * Facts on the generic code *)

Section power_facts.
Context `{TimesMonoid W}.

Fixpoint Times_n (w : W) (n : nat) : W :=
  match n with O => One | S n => Times (Times_n w n) w end.

Lemma Times_n_member w n : Member w = true → Member (Times_n w n) = true.
Proof. induction n; simpl; eauto with weight. Qed.

Lemma Power_loop_spec w r n :
  Member w = true → Member r = true → Power_loop w r n ≡ Times r (Times_n w n).
Proof.
  intros Hw. revert r. induction n as [|n IH]; intros r Hr; simpl.
  - by rewrite Times_One_r.
  - rewrite IH by eauto with weight. 
    assert (Times w (Times_n w n) ≡ Times (Times_n w n) w) as Hc.
    { clear IH r Hr. induction n as [|n IH]; simpl.
      - by rewrite Times_One_r, Times_One_l.
      - rewrite Times_assoc, IH by eauto using Times_n_member. done. }
    rewrite <-Times_assoc by eauto using Times_n_member. by rewrite Hc.
Qed.
End power_facts.
