(* ===== verification/FloatWeight.v ===== *)
(** The weights over floating-point numbers (openfst/lib/float-weight.h):
[FloatWeightTpl], the tropical semiring [TropicalWeightTpl] and the min-max
semiring [MinMaxWeightTpl].  A float is a datum of the Standard Library's
specification of IEEE 754 ([spec_float]), the template argument [T] its
precision and exponent range; [float] is binary32.

Comparison of floats is reduced to the order of a triple of integers ([rank]),
from which the laws of min and max follow for both weight classes.  Rounding
makes [TropicalWeightTpl]'s [Times] non-associative, so the tropical class is
shown to be an idempotent commutative [Plus] monoid with the path property and a
commutative [Times] with identity and annihilator, no more; the min-max class is
a full commutative path semiring. *)
From S2P Require Import Prelude Weight.
From Stdlib Require Export Floats.SpecFloat.
Local Open Scope Z_scope.

(** * Numbers *)

(* float-weight.h:53-55 PosInfinity *)
Definition PosInfinity : spec_float := S754_infinity false.
(* float-weight.h:57-57 NegInfinity *)
Definition NegInfinity : spec_float := S754_infinity true.
(* float-weight.h:59-59 NumberBad *)
Definition NumberBad : spec_float := S754_nan.

#[export] Instance spec_float_eq_dec : EqDecision spec_float.
Proof. solve_decision. Defined.

(** C++'s [==], [<] and [>=] on floats, false whenever an operand is NaN. *)
Definition feq (x y : spec_float) : bool := SFeqb x y.
Definition flt (x y : spec_float) : bool := SFltb x y.
Definition fge (x y : spec_float) : bool := SFleb y x.

(* float-weight.h:66-91 IsNan *)
Definition IsNan (value : spec_float) : bool := negb (feq value value).
(* float-weight.h:96-109 IsGreaterThanNegInf *)
Definition IsGreaterThanNegInf (val : spec_float) : bool := flt NegInfinity val.

(** ** The order of the numbers *)

Definition rank (x : spec_float) : Z * Z * Z :=
  match x with
  | S754_infinity true => (-2, 0, 0)
  | S754_finite true m e => (-1, - e, - Z.pos m)
  | S754_zero _ => (0, 0, 0)
  | S754_finite false m e => (1, e, Z.pos m)
  | S754_infinity false => (2, 0, 0)
  | S754_nan => (3, 0, 0)
  end.

Definition rank_lt (p q : Z * Z * Z) : Prop :=
  p.1.1 < q.1.1 ∨ (p.1.1 = q.1.1 ∧ (p.1.2 < q.1.2 ∨ (p.1.2 = q.1.2 ∧ p.2 < q.2))).

Lemma rank_total p q : rank_lt p q ∨ p = q ∨ rank_lt q p.
Proof.
  destruct p as [[a b] c], q as [[a' b'] c']. unfold rank_lt. simpl.
  destruct (decide (a = a')), (decide (b = b')), (decide (c = c')); subst; naive_solver lia.
Qed.

Lemma rank_lt_irrefl p : ¬ rank_lt p p.
Proof. unfold rank_lt. lia. Qed.

Lemma rank_lt_trans p q r : rank_lt p q → rank_lt q r → rank_lt p r.
Proof. unfold rank_lt. lia. Qed.

Lemma SFcompare_rank x y :
  x ≠ S754_nan → y ≠ S754_nan →
  ∃ c, SFcompare x y = Some c ∧
    match c with
    | Eq => rank x = rank y
    | Lt => rank_lt (rank x) (rank y)
    | Gt => rank_lt (rank y) (rank x)
    end.
Proof.
  intros Hx Hy. unfold rank_lt.
  destruct x as [[]|[]| |[] m e], y as [[]|[]| |[] m' e']; try done; simpl;
    try (eexists; split; [reflexivity|]; simpl; lia || done).
  all: destruct (Z.compare_spec e e'); simpl; try (eexists; split; [reflexivity|]; simpl; lia).
  all: change (Pos.compare_cont Eq m m') with (Pos.compare m m');
    destruct (Pos.compare_spec m m'); simpl; (eexists; split; [reflexivity|]; simpl);
    subst; done || lia.
Qed.

Lemma feq_spec x y : feq x y = true ↔ x ≠ S754_nan ∧ y ≠ S754_nan ∧ rank x = rank y.
Proof.
  unfold feq, SFeqb. split.
  - intros He. assert (x ≠ S754_nan) as Hx by (by intros ->).
    assert (y ≠ S754_nan) as Hy by (intros ->; by destruct x as [| | |]).
    destruct (SFcompare_rank x y Hx Hy) as (c & Hc & Hr). rewrite Hc in He.
    by destruct c.
  - intros (Hx & Hy & He). destruct (SFcompare_rank x y Hx Hy) as (c & -> & Hr).
    destruct c; [done| |]; rewrite He in Hr; by apply rank_lt_irrefl in Hr.
Qed.

Lemma flt_spec x y : flt x y = true ↔ x ≠ S754_nan ∧ y ≠ S754_nan ∧ rank_lt (rank x) (rank y).
Proof.
  unfold flt, SFltb. split.
  - intros He. assert (x ≠ S754_nan) as Hx by (by intros ->).
    assert (y ≠ S754_nan) as Hy by (intros ->; by destruct x as [| | |]).
    destruct (SFcompare_rank x y Hx Hy) as (c & Hc & Hr). rewrite Hc in He.
    by destruct c.
  - intros (Hx & Hy & Hl). destruct (SFcompare_rank x y Hx Hy) as (c & -> & Hr).
    destruct c; [|done|].
    + rewrite Hr in Hl. by apply rank_lt_irrefl in Hl.
    + by apply (rank_lt_trans _ _ _ Hl), rank_lt_irrefl in Hr.
Qed.

Lemma fge_spec x y : x ≠ S754_nan → y ≠ S754_nan → fge x y = negb (flt x y).
Proof.
  intros Hx Hy. unfold fge, SFleb, flt, SFltb.
  destruct (SFcompare_rank x y Hx Hy) as (c & -> & Hr).
  destruct (SFcompare_rank y x Hy Hx) as (c' & -> & Hr').
  destruct c, c'; simpl; try done; exfalso;
    try (rewrite Hr in Hr'; by apply rank_lt_irrefl in Hr');
    try (rewrite Hr' in Hr; by apply rank_lt_irrefl in Hr);
    by apply (rank_lt_trans _ _ _ Hr), rank_lt_irrefl in Hr'.
Qed.

Lemma IsNan_spec x : IsNan x = false ↔ x ≠ S754_nan.
Proof.
  unfold IsNan. rewrite negb_false_iff, feq_spec. naive_solver.
Qed.

Lemma IsGreaterThanNegInf_spec x :
  IsGreaterThanNegInf x = true ↔ x ≠ S754_nan ∧ x ≠ S754_infinity true.
Proof.
  unfold IsGreaterThanNegInf. rewrite flt_spec. unfold rank_lt.
  destruct x as [[]|[]| |[]]; simpl; naive_solver lia.
Qed.

(** The smaller, or larger, of two numbers, by a test that prefers the first. *)
Definition fmin (x y : spec_float) : spec_float := if flt x y then x else y.
Definition fmax (x y : spec_float) : spec_float := if fge x y then x else y.

Lemma flt_false x y :
  x ≠ S754_nan → y ≠ S754_nan → flt x y = false ↔ ¬ rank_lt (rank x) (rank y).
Proof. intros Hx Hy. rewrite <-not_true_iff_false, flt_spec. naive_solver. Qed.

Lemma rank_eq p q : ¬ rank_lt p q → ¬ rank_lt q p → p = q.
Proof. destruct (rank_total p q) as [|[|]]; naive_solver. Qed.

Lemma rank_eq_inv p q : p = q → ¬ rank_lt p q ∧ ¬ rank_lt q p.
Proof. intros ->. split; apply rank_lt_irrefl. Qed.

(** Decides a goal on [fmin], [fmax] and ranks of numbers that are not NaN. *)
Ltac number_order :=
  unfold fmin, fmax in *; rewrite ?fge_spec by done;
  repeat match goal with
  | |- context [flt ?x ?y] =>
      lazymatch x with context [if _ then _ else _] => fail | _ => idtac end;
      lazymatch y with context [if _ then _ else _] => fail | _ => idtac end;
      let E := fresh "E" in destruct (flt x y) eqn:E;
      [apply flt_spec in E as (_ & _ & E)|apply flt_false in E; [|done..]]
  end; simpl;
  repeat match goal with
  | |- ?p = ?q => lazymatch type of p with (Z * Z * Z)%type => apply rank_eq end
  end;
  repeat match goal with
  | H : context [rank ?x] |- _ => generalize dependent (rank x); intros
  | |- context [rank ?x] => generalize dependent (rank x); intros
  end;
  unfold rank_lt in *; try lia.

Section min_max.
Implicit Types x y z : spec_float.

Lemma fmin_not_nan x y : x ≠ S754_nan → y ≠ S754_nan → fmin x y ≠ S754_nan.
Proof. unfold fmin. by destruct (flt x y). Qed.
Lemma fmax_not_nan x y : x ≠ S754_nan → y ≠ S754_nan → fmax x y ≠ S754_nan.
Proof. unfold fmax. by destruct (fge x y). Qed.

Lemma fmin_cases x y : fmin x y = x ∨ fmin x y = y.
Proof. unfold fmin. destruct (flt x y); auto. Qed.
Lemma fmax_cases x y : fmax x y = x ∨ fmax x y = y.
Proof. unfold fmax. destruct (fge x y); auto. Qed.

(** The order facts that characterise them. *)
Lemma fmin_rank x y :
  x ≠ S754_nan → y ≠ S754_nan →
  ¬ rank_lt (rank x) (rank (fmin x y)) ∧ ¬ rank_lt (rank y) (rank (fmin x y)).
Proof. intros Hx Hy. split; number_order. Qed.

Lemma fmax_rank x y :
  x ≠ S754_nan → y ≠ S754_nan →
  ¬ rank_lt (rank (fmax x y)) (rank x) ∧ ¬ rank_lt (rank (fmax x y)) (rank y).
Proof. intros Hx Hy. split; number_order. Qed.
End min_max.

(** Names the minima and maxima of a goal, innermost first, by what they are. *)
Ltac min_max_facts :=
  repeat match goal with
  | |- context [fmin ?x ?y] =>
      lazymatch x with context [fmin _ _] => fail | context [fmax _ _] => fail | _ => idtac end;
      lazymatch y with context [fmin _ _] => fail | context [fmax _ _] => fail | _ => idtac end;
      let H := fresh in let K := fresh in let N := fresh in
      pose proof (fmin_rank x y ltac:(done) ltac:(done)) as H;
      pose proof (fmin_cases x y) as K;
      pose proof (fmin_not_nan x y ltac:(done) ltac:(done)) as N;
      generalize dependent (fmin x y); intros
  | |- context [fmax ?x ?y] =>
      lazymatch x with context [fmin _ _] => fail | context [fmax _ _] => fail | _ => idtac end;
      lazymatch y with context [fmin _ _] => fail | context [fmax _ _] => fail | _ => idtac end;
      let H := fresh in let K := fresh in let N := fresh in
      pose proof (fmax_rank x y ltac:(done) ltac:(done)) as H;
      pose proof (fmax_cases x y) as K;
      pose proof (fmax_not_nan x y ltac:(done) ltac:(done)) as N;
      generalize dependent (fmax x y); intros
  end.
Ltac min_max_laws :=
  intros; min_max_facts; apply rank_eq;
  repeat match goal with H : rank _ = rank _ |- _ => apply rank_eq_inv in H end;
  repeat match goal with H : _ ∨ _ |- _ => destruct H; subst end;
  unfold rank_lt in *; lia.

Section min_max_laws.
Implicit Types x y z : spec_float.

Lemma fmin_assoc x y z :
  x ≠ S754_nan → y ≠ S754_nan → z ≠ S754_nan →
  rank (fmin x (fmin y z)) = rank (fmin (fmin x y) z).
Proof. min_max_laws. Qed.

Lemma fmin_comm x y : x ≠ S754_nan → y ≠ S754_nan → rank (fmin x y) = rank (fmin y x).
Proof. min_max_laws. Qed.

Lemma fmax_assoc x y z :
  x ≠ S754_nan → y ≠ S754_nan → z ≠ S754_nan →
  rank (fmax x (fmax y z)) = rank (fmax (fmax x y) z).
Proof. min_max_laws. Qed.

Lemma fmax_comm x y : x ≠ S754_nan → y ≠ S754_nan → rank (fmax x y) = rank (fmax y x).
Proof. min_max_laws. Qed.

Lemma fmax_fmin x y z :
  x ≠ S754_nan → y ≠ S754_nan → z ≠ S754_nan →
  rank (fmax z (fmin x y)) = rank (fmin (fmax z x) (fmax z y)).
Proof. min_max_laws. Qed.

Lemma fmin_proper x x' y y' :
  x ≠ S754_nan → y ≠ S754_nan → x' ≠ S754_nan → y' ≠ S754_nan →
  rank x = rank x' → rank y = rank y' → rank (fmin x y) = rank (fmin x' y').
Proof. min_max_laws. Qed.

Lemma fmax_proper x x' y y' :
  x ≠ S754_nan → y ≠ S754_nan → x' ≠ S754_nan → y' ≠ S754_nan →
  rank x = rank x' → rank y = rank y' → rank (fmax x y) = rank (fmax x' y').
Proof. min_max_laws. Qed.
End min_max_laws.

(** * The weight classes *)

(** The parameters are the template argument: precision and exponent range. *)
(* float-weight.h:243-299 TropicalWeightTpl *)
Record TropicalWeightTpl (prec emax : Z) := Tropical { tropical_value : spec_float }.
(* float-weight.h:804-851 MinMaxWeightTpl *)
Record MinMaxWeightTpl (prec emax : Z) := MinMax { minmax_value : spec_float }.
Arguments Tropical {_ _} _.
Arguments tropical_value {_ _} _.
Arguments MinMax {_ _} _.
Arguments minmax_value {_ _} _.

Section tropical.
Context {prec emax : Z}.
Notation T := (TropicalWeightTpl prec emax).
Implicit Types w : T.

(* float-weight.h:256-258 Zero *)
Definition TropicalZero : T := Tropical PosInfinity.
(* float-weight.h:260-262 One *)
Definition TropicalOne : T := Tropical (S754_zero false).
(* float-weight.h:264-266 NoWeight *)
Definition TropicalNoWeight : T := Tropical NumberBad.
(* float-weight.h:274-283 Member *)
Definition TropicalMember w : bool := IsGreaterThanNegInf (tropical_value w).
(* float-weight.h:305-310 Plus *)
Definition TropicalPlus w1 w2 : T :=
  if negb (TropicalMember w1) || negb (TropicalMember w2) then TropicalNoWeight
  else if flt (tropical_value w1) (tropical_value w2) then w1 else w2.
(* float-weight.h:313-335 Times *)
Definition TropicalTimes w1 w2 : T :=
  Tropical (SFadd prec emax (tropical_value w1) (tropical_value w2)).
(* float-weight.h:338-367 Divide *)
Definition TropicalDivide w1 w2 (typ : DivideType) : T :=
  if TropicalMember w2
  then Tropical (SFsub prec emax (tropical_value w1) (tropical_value w2)) else TropicalNoWeight.

(* float-weight.h:171-181 operator== *)
#[global] Instance tropical_ops : WeightOps T := {|
  Zero := TropicalZero;
  One := TropicalOne;
  NoWeight := TropicalNoWeight;
  Plus := TropicalPlus;
  Times := TropicalTimes;
  weqb w1 w2 := feq (tropical_value w1) (tropical_value w2);
  Member := TropicalMember;
|}.
End tropical.

Section minmax.
Context {prec emax : Z}.
Notation M := (MinMaxWeightTpl prec emax).
Implicit Types w : M.

(* float-weight.h:817-819 Zero *)
Definition MinMaxZero : M := MinMax PosInfinity.
(* float-weight.h:821-823 One *)
Definition MinMaxOne : M := MinMax NegInfinity.
(* float-weight.h:825-827 NoWeight *)
Definition MinMaxNoWeight : M := MinMax NumberBad.
(* float-weight.h:835-836 Member *)
Definition MinMaxMember w : bool := negb (IsNan (minmax_value w)).
(* float-weight.h:857-863 Plus *)
Definition MinMaxPlus w1 w2 : M :=
  if negb (MinMaxMember w1) || negb (MinMaxMember w2) then MinMaxNoWeight
  else if flt (minmax_value w1) (minmax_value w2) then w1 else w2.
(* float-weight.h:866-872 Times *)
Definition MinMaxTimes w1 w2 : M :=
  if negb (MinMaxMember w1) || negb (MinMaxMember w2) then MinMaxNoWeight
  else if fge (minmax_value w1) (minmax_value w2) then w1 else w2.
(* float-weight.h:875-880 Divide *)
Definition MinMaxDivide w1 w2 (typ : DivideType) : M :=
  if fge (minmax_value w1) (minmax_value w2) then w1 else MinMaxNoWeight.
(* float-weight.h:882-889 NaturalLess *)
Definition MinMaxNaturalLess w1 w2 : bool := flt (minmax_value w1) (minmax_value w2).

(* float-weight.h:171-181 operator== *)
#[global] Instance minmax_ops : WeightOps M := {|
  Zero := MinMaxZero;
  One := MinMaxOne;
  NoWeight := MinMaxNoWeight;
  Plus := MinMaxPlus;
  Times := MinMaxTimes;
  weqb w1 w2 := feq (minmax_value w1) (minmax_value w2);
  Member := MinMaxMember;
|}.
End minmax.

(* float-weight.h:302-302 TropicalWeight *)
Abbreviation TropicalWeight := (TropicalWeightTpl 24 128).
(* float-weight.h:854-854 MinMaxWeight *)
Abbreviation MinMaxWeight := (MinMaxWeightTpl 24 128).

(** * The laws *)

Lemma feq_sym x y : feq x y = true → feq y x = true.
Proof. rewrite !feq_spec. naive_solver. Qed.

Lemma feq_trans x y z : feq x y = true → feq y z = true → feq x z = true.
Proof. rewrite !feq_spec. intros (?&?&->) (?&?&->). done. Qed.

Section minmax_laws.
Context {prec emax : Z}.
Notation M := (MinMaxWeightTpl prec emax).
Implicit Types w : M.

Lemma MinMaxMember_spec w : MinMaxMember w = true ↔ minmax_value w ≠ S754_nan.
Proof. unfold MinMaxMember. by rewrite negb_true_iff, IsNan_spec. Qed.

#[global] Instance minmax_eq : WeightEq M.
Proof.
  split; simpl.
  - intros. by apply feq_sym.
  - intros. by eapply feq_trans.
  - intros w ?%MinMaxMember_spec. by apply feq_spec.
  - intros w v (Hw & Hv & _)%feq_spec.
    by rewrite (proj2 (MinMaxMember_spec w)), (proj2 (MinMaxMember_spec v)).
  - done.
  - done.
Qed.

Lemma minmax_equiv w v :
  minmax_value w ≠ S754_nan → minmax_value v ≠ S754_nan →
  rank (minmax_value w) = rank (minmax_value v) → w ≡ v.
Proof. intros. right. by apply feq_spec. Qed.

Lemma minmax_equiv_inv w v :
  w ≡ v → w = v ∨
  (minmax_value w ≠ S754_nan ∧ minmax_value v ≠ S754_nan ∧
   rank (minmax_value w) = rank (minmax_value v)).
Proof. intros [|?%feq_spec]; auto. Qed.

Lemma MinMaxPlus_member w v :
  MinMaxMember w = true → MinMaxMember v = true →
  minmax_value (MinMaxPlus w v) = fmin (minmax_value w) (minmax_value v).
Proof. unfold MinMaxPlus, fmin. intros -> ->. simpl. by destruct (flt _ _). Qed.

Lemma MinMaxTimes_member w v :
  MinMaxMember w = true → MinMaxMember v = true →
  minmax_value (MinMaxTimes w v) = fmax (minmax_value w) (minmax_value v).
Proof. unfold MinMaxTimes, fmax. intros -> ->. simpl. by destruct (fge _ _). Qed.

Lemma MinMaxPlus_closed w v :
  MinMaxMember w = true → MinMaxMember v = true → MinMaxMember (MinMaxPlus w v) = true.
Proof.
  intros Hw Hv. apply MinMaxMember_spec. rewrite MinMaxPlus_member by done.
  apply fmin_not_nan; by apply MinMaxMember_spec.
Qed.

Lemma MinMaxTimes_closed w v :
  MinMaxMember w = true → MinMaxMember v = true → MinMaxMember (MinMaxTimes w v) = true.
Proof.
  intros Hw Hv. apply MinMaxMember_spec. rewrite MinMaxTimes_member by done.
  apply fmax_not_nan; by apply MinMaxMember_spec.
Qed.

(** A law of members follows from the law of minima and maxima. *)
Ltac minmax_law lem :=
  intros; apply minmax_equiv;
  repeat first
    [ rewrite MinMaxPlus_member by eauto using MinMaxPlus_closed, MinMaxTimes_closed
    | rewrite MinMaxTimes_member by eauto using MinMaxPlus_closed, MinMaxTimes_closed ];
  repeat match goal with H : MinMaxMember _ = true |- _ => apply MinMaxMember_spec in H end;
  first [by apply lem | by eauto using fmin_not_nan, fmax_not_nan].

(** Both operations respect [operator==], on non-members too. *)
Lemma MinMax_proper (op : M → M → M) (f : spec_float → spec_float → spec_float) :
  (∀ w v, MinMaxMember w = true → MinMaxMember v = true →
    minmax_value (op w v) = f (minmax_value w) (minmax_value v)) →
  (∀ w v, negb (MinMaxMember w) || negb (MinMaxMember v) = true → op w v = MinMaxNoWeight) →
  (∀ x y, x ≠ S754_nan → y ≠ S754_nan → f x y ≠ S754_nan) →
  (∀ x x' y y', x ≠ S754_nan → y ≠ S754_nan → x' ≠ S754_nan → y' ≠ S754_nan →
    rank x = rank x' → rank y = rank y' → rank (f x y) = rank (f x' y')) →
  Proper ((≡) ==> (≡) ==> (≡)) op.
Proof.
  intros Hop Hno Hnan Hrank w w' Hw v v' Hv.
  pose proof (Member_proper _ _ Hw) as Mw. pose proof (Member_proper _ _ Hv) as Mv. simpl in Mw, Mv.
  destruct (MinMaxMember w) eqn:Ew; [|left; rewrite !Hno; rewrite <-?Mw, ?Ew; done].
  destruct (MinMaxMember v) eqn:Ev;
    [|left; rewrite !Hno; rewrite <-?Mw, <-?Mv, ?Ew, ?Ev; done].
  symmetry in Mw, Mv.
  assert (∀ u : M, MinMaxMember u = true → minmax_value u ≠ S754_nan) as Hm
    by (intros u; apply MinMaxMember_spec).
  apply minmax_equiv; rewrite !Hop by done; auto.
  apply Hrank; auto.
  - apply minmax_equiv_inv in Hw as [->|(_ & _ & ?)]; done.
  - apply minmax_equiv_inv in Hv as [->|(_ & _ & ?)]; done.
Qed.

#[global] Instance minmax_plus : PlusMonoid M.
Proof.
  split; simpl.
  - apply (MinMax_proper _ fmin); [apply MinMaxPlus_member| |apply fmin_not_nan|apply fmin_proper].
    intros w v. unfold MinMaxPlus. by intros ->.
  - apply MinMaxPlus_closed.
  - minmax_law fmin_assoc.
  - minmax_law fmin_comm.
  - intros w Hw. left. unfold MinMaxPlus. rewrite Hw. simpl.
    destruct (flt PosInfinity (minmax_value w)) eqn:E; [|done].
    apply flt_spec in E as (_ & Hn & Hr). exfalso. revert Hr.
    destruct w as [[[]|[]| |[]]]; unfold rank_lt; simpl in *; naive_solver lia.
Qed.

#[global] Instance minmax_times : TimesMonoid M.
Proof.
  assert (∀ w, MinMaxMember w = true → minmax_value w ≠ S754_infinity true →
    flt NegInfinity (minmax_value w) = true ∧ flt (minmax_value w) NegInfinity = false) as Hneg.
  { intros w Hw%MinMaxMember_spec Hi. rewrite flt_false, flt_spec by done. unfold rank_lt.
    destruct w as [[[]|[]| |[]]]; simpl in *; naive_solver lia. }
  split; simpl.
  - apply (MinMax_proper _ fmax); [apply MinMaxTimes_member| |apply fmax_not_nan|apply fmax_proper].
    intros w v. unfold MinMaxTimes. by intros ->.
  - apply MinMaxTimes_closed.
  - minmax_law fmax_assoc.
  - intros w Hw. left. unfold MinMaxTimes. rewrite Hw. simpl.
    rewrite fge_spec by (done || by apply MinMaxMember_spec).
    destruct w as [x]. destruct (decide (x = S754_infinity true)) as [->|Hi]; [done|].
    by rewrite (proj1 (Hneg _ Hw Hi)).
  - intros w Hw. left. unfold MinMaxTimes. rewrite Hw. simpl.
    rewrite fge_spec by (done || by apply MinMaxMember_spec).
    destruct w as [x]. destruct (decide (x = S754_infinity true)) as [->|Hi]; [done|].
    by rewrite (proj2 (Hneg _ Hw Hi)).
Qed.

#[global] Instance minmax_commutative : CommutativeWeight M.
Proof. unfold CommutativeWeight. simpl. minmax_law fmax_comm. Qed.

Lemma minmax_distributes (a b c : M) :
  MinMaxMember a = true → MinMaxMember b = true → MinMaxMember c = true →
  Times c (Plus a b) ≡ Plus (Times c a) (Times c b).
Proof. simpl. minmax_law fmax_fmin. Qed.

Lemma minmax_annihilates (a : M) : MinMaxMember a = true → Times Zero a ≡ Zero.
Proof.
  simpl. intros Ha. apply minmax_equiv; rewrite ?MinMaxTimes_member by done; try done.
  - apply fmax_not_nan; [done|by apply MinMaxMember_spec].
  - apply MinMaxMember_spec in Ha. unfold fmax. rewrite fge_spec by done.
    destruct (flt _ _) eqn:E; [|done]. apply flt_spec in E as (_ & _ & Hr). exfalso. revert Hr.
    destruct a as [[[]|[]| |[]]]; unfold rank_lt; simpl in *; naive_solver lia.
Qed.

#[global] Instance minmax_left : LeftSemiring M.
Proof.
  split; [apply _|apply _| | |].
  - apply minmax_distributes.
  - apply minmax_annihilates.
  - intros a Ha. rewrite Times_comm by done. by apply minmax_annihilates.
Qed.

#[global] Instance minmax_right : RightSemiring M.
Proof.
  split; [apply _|apply _| | |].
  - intros a b c Ha Hb Hc. rewrite (Times_comm (Plus a b) c), (Times_comm a c), (Times_comm b c)
      by (done || by apply Plus_member).
    by apply minmax_distributes.
  - apply minmax_annihilates.
  - intros a Ha. rewrite Times_comm by done. by apply minmax_annihilates.
Qed.

#[global] Instance minmax_idempotent : IdempotentWeight M.
Proof.
  intros w Hw. left. simpl in *. unfold MinMaxPlus. rewrite Hw. simpl. by destruct (flt _ _).
Qed.

#[global] Instance minmax_path : PathWeight M.
Proof.
  intros w v Hw Hv. simpl in *. unfold MinMaxPlus. rewrite Hw, Hv. simpl.
  destruct (flt _ _); [left|right]; by left.
Qed.
End minmax_laws.

Section tropical_laws.
Context {prec emax : Z}.
Notation T := (TropicalWeightTpl prec emax).
Implicit Types w : T.

Lemma TropicalMember_spec w :
  TropicalMember w = true ↔ tropical_value w ≠ S754_nan ∧ tropical_value w ≠ S754_infinity true.
Proof. apply IsGreaterThanNegInf_spec. Qed.

#[global] Instance tropical_eq : WeightEq T.
Proof.
  split; simpl.
  - intros. by apply feq_sym.
  - intros. by eapply feq_trans.
  - intros w [? _]%TropicalMember_spec. by apply feq_spec.
  - intros w v (Hw & Hv & Hr)%feq_spec. apply eq_true_iff_eq. rewrite !TropicalMember_spec.
    destruct w as [[[]|[]| |[]]], v as [[[]|[]| |[]]]; simpl in *; naive_solver.
  - done.
  - done.
Qed.

Lemma TropicalPlus_member w v :
  TropicalMember w = true → TropicalMember v = true →
  tropical_value (TropicalPlus w v) = fmin (tropical_value w) (tropical_value v).
Proof. unfold TropicalPlus, fmin. intros -> ->. simpl. by destruct (flt _ _). Qed.

Lemma TropicalPlus_cases w v :
  TropicalMember w = true → TropicalMember v = true →
  TropicalPlus w v = w ∨ TropicalPlus w v = v.
Proof. unfold TropicalPlus. intros -> ->. simpl. destruct (flt _ _); auto. Qed.

Lemma TropicalPlus_closed w v :
  TropicalMember w = true → TropicalMember v = true → TropicalMember (TropicalPlus w v) = true.
Proof. intros Hw Hv. destruct (TropicalPlus_cases w v Hw Hv) as [-> | ->]; done. Qed.

Lemma tropical_equiv w v :
  TropicalMember w = true → TropicalMember v = true →
  rank (tropical_value w) = rank (tropical_value v) → w ≡ v.
Proof. intros [? _]%TropicalMember_spec [? _]%TropicalMember_spec ?. right. by apply feq_spec. Qed.

Ltac tropical_law lem :=
  intros; apply tropical_equiv; [by eauto using TropicalPlus_closed..|];
  repeat rewrite TropicalPlus_member by eauto using TropicalPlus_closed;
  repeat match goal with H : TropicalMember _ = true |- _ =>
    apply TropicalMember_spec in H as [? _] end;
  by apply lem.

Lemma tropical_equiv_inv w v : w ≡ v → w = v ∨
  ∃ s s', w = Tropical (S754_zero s) ∧ v = Tropical (S754_zero s').
Proof.
  intros [|(Hw & Hv & Hr)%feq_spec]; [by left|]. destruct w as [x], v as [y]. simpl in *.
  destruct x as [s|s| |s m e], y as [s'|s'| |s' m' e']; try done; simpl in *;
    try (destruct s; simplify_eq); try (destruct s'; simplify_eq); eauto 6;
    left; f_equal; f_equal; lia.
Qed.

#[global] Instance tropical_plus : PlusMonoid T.
Proof.
  split; simpl.
  - intros w w' Hw v v' Hv.
    pose proof (Member_proper _ _ Hw) as Mw. pose proof (Member_proper _ _ Hv) as Mv. simpl in Mw, Mv.
    destruct (TropicalMember w) eqn:Ew; [|left; unfold TropicalPlus; by rewrite Ew, <-Mw].
    destruct (TropicalMember v) eqn:Ev;
      [|left; unfold TropicalPlus; by rewrite Ev, <-Mv, !orb_true_r].
    symmetry in Mw, Mv. apply tropical_equiv; [by apply TropicalPlus_closed..|].
    rewrite !TropicalPlus_member by done.
    apply tropical_equiv_inv in Hw, Hv.
    repeat match goal with H : TropicalMember _ = true |- _ =>
      apply TropicalMember_spec in H as [? _] end.
    apply fmin_proper; try done.
    + by destruct Hw as [->|(?&?&->&->)].
    + by destruct Hv as [->|(?&?&->&->)].
  - apply TropicalPlus_closed.
  - tropical_law fmin_assoc.
  - tropical_law fmin_comm.
  - intros w Hw. left. unfold TropicalPlus. rewrite Hw. simpl.
    destruct (flt PosInfinity (tropical_value w)) eqn:E; [|done].
    apply flt_spec in E as (_ & Hn & Hr). exfalso. revert Hr.
    destruct w as [[[]|[]| |[]]]; unfold rank_lt; simpl in *; naive_solver lia.
Qed.

#[global] Instance tropical_idempotent : IdempotentWeight T.
Proof.
  intros w Hw. left. simpl in *. unfold TropicalPlus. rewrite Hw. simpl. by destruct (flt _ _).
Qed.

#[global] Instance tropical_path : PathWeight T.
Proof.
  intros w v Hw Hv. destruct (TropicalPlus_cases w v Hw Hv) as [E|E]; simpl; rewrite E;
    [by left; left|by right; left].
Qed.

Lemma SFadd_comm x y : SFadd prec emax x y = SFadd prec emax y x.
Proof.
  destruct x as [[]|[]| |s m e], y as [[]|[]| |s' m' e']; try done. simpl.
  by rewrite (Z.min_comm e' e), Z.add_comm.
Qed.

#[global] Instance tropical_commutative : CommutativeWeight T.
Proof. intros w v _ _. left. simpl. unfold TropicalTimes. by rewrite SFadd_comm. Qed.

Lemma tropical_times_One w : TropicalMember w = true → Times w One ≡ w.
Proof.
  intros Hw. destruct w as [[[]|[]| |s m e]]; try by left. by right.
Qed.

Lemma tropical_times_Zero w : TropicalMember w = true → Times w Zero ≡ Zero.
Proof. intros Hw. by destruct w as [[[]|[]| |s m e]]; left. Qed.

#[global] Instance tropical_times_proper : Proper ((≡) ==> (≡) ==> (≡)) (Times : T → T → T).
Proof.
  intros w w' Hw v v' Hv. apply tropical_equiv_inv in Hw, Hv. simpl. unfold TropicalTimes.
  destruct Hw as [->|([]&[]&->&->)], Hv as [->|([]&[]&->&->)]; try by left.
  all: try (destruct v' as [[[]|[]| |]]; simpl; (by left) || (by right)).
  all: try (destruct w' as [[[]|[]| |]]; simpl; (by left) || (by right)).
  all: by right.
Qed.
End tropical_laws.
