(* ===== verification/Properties.v ===== *)
(** The property bits of an FST and the functions that compute the bits of an
operation's result (openfst/lib/properties.h and properties.cc), transcribed
bit for bit: a [uint64_t] is a [Z], [|] and [&] are [Z.lor] and [Z.land].  What
a bit means is in [Fst]; that the functions are sound is proved where the
operations are.  Here: the closed facts on masks (the positive and negative
bits partition the trinary ones), [KnownProperties] and [CompatProperties]. *)
From S2P Require Import Prelude Weight.

Notation "x ||| y" := (Z.lor x y) (at level 50, left associativity) : openfst_scope.
Notation "x &&& y" := (Z.land x y) (at level 40, left associativity) : openfst_scope.

(** * Property bits *)

(* properties.h:46-46 kExpanded *)
Definition kExpanded : Z := 0x0000000000000001.
(* properties.h:49-49 kMutable *)
Definition kMutable : Z := 0x0000000000000002.
(* properties.h:52-52 kError *)
Definition kError : Z := 0x0000000000000004.
(* properties.h:64-64 kAcceptor *)
Definition kAcceptor : Z := 0x0000000000010000.
(* properties.h:66-66 kNotAcceptor *)
Definition kNotAcceptor : Z := 0x0000000000020000.
(* properties.h:69-69 kIDeterministic *)
Definition kIDeterministic : Z := 0x0000000000040000.
(* properties.h:71-71 kNonIDeterministic *)
Definition kNonIDeterministic : Z := 0x0000000000080000.
(* properties.h:74-74 kODeterministic *)
Definition kODeterministic : Z := 0x0000000000100000.
(* properties.h:76-76 kNonODeterministic *)
Definition kNonODeterministic : Z := 0x0000000000200000.
(* properties.h:79-79 kEpsilons *)
Definition kEpsilons : Z := 0x0000000000400000.
(* properties.h:81-81 kNoEpsilons *)
Definition kNoEpsilons : Z := 0x0000000000800000.
(* properties.h:84-84 kIEpsilons *)
Definition kIEpsilons : Z := 0x0000000001000000.
(* properties.h:86-86 kNoIEpsilons *)
Definition kNoIEpsilons : Z := 0x0000000002000000.
(* properties.h:89-89 kOEpsilons *)
Definition kOEpsilons : Z := 0x0000000004000000.
(* properties.h:91-91 kNoOEpsilons *)
Definition kNoOEpsilons : Z := 0x0000000008000000.
(* properties.h:94-94 kILabelSorted *)
Definition kILabelSorted : Z := 0x0000000010000000.
(* properties.h:96-96 kNotILabelSorted *)
Definition kNotILabelSorted : Z := 0x0000000020000000.
(* properties.h:99-99 kOLabelSorted *)
Definition kOLabelSorted : Z := 0x0000000040000000.
(* properties.h:101-101 kNotOLabelSorted *)
Definition kNotOLabelSorted : Z := 0x0000000080000000.
(* properties.h:104-104 kWeighted *)
Definition kWeighted : Z := 0x0000000100000000.
(* properties.h:106-106 kUnweighted *)
Definition kUnweighted : Z := 0x0000000200000000.
(* properties.h:109-109 kCyclic *)
Definition kCyclic : Z := 0x0000000400000000.
(* properties.h:111-111 kAcyclic *)
Definition kAcyclic : Z := 0x0000000800000000.
(* properties.h:114-114 kInitialCyclic *)
Definition kInitialCyclic : Z := 0x0000001000000000.
(* properties.h:116-116 kInitialAcyclic *)
Definition kInitialAcyclic : Z := 0x0000002000000000.
(* properties.h:119-119 kTopSorted *)
Definition kTopSorted : Z := 0x0000004000000000.
(* properties.h:121-121 kNotTopSorted *)
Definition kNotTopSorted : Z := 0x0000008000000000.
(* properties.h:124-124 kAccessible *)
Definition kAccessible : Z := 0x0000010000000000.
(* properties.h:126-126 kNotAccessible *)
Definition kNotAccessible : Z := 0x0000020000000000.
(* properties.h:129-129 kCoAccessible *)
Definition kCoAccessible : Z := 0x0000040000000000.
(* properties.h:131-131 kNotCoAccessible *)
Definition kNotCoAccessible : Z := 0x0000080000000000.
(* properties.h:136-136 kString *)
Definition kString : Z := 0x0000100000000000.
(* properties.h:139-139 kNotString *)
Definition kNotString : Z := 0x0000200000000000.
(* properties.h:142-142 kWeightedCycles *)
Definition kWeightedCycles : Z := 0x0000400000000000.
(* properties.h:145-145 kUnweightedCycles *)
Definition kUnweightedCycles : Z := 0x0000800000000000.
(* properties.h:150-154 kNullProperties *)
Definition kNullProperties : Z :=
  kAcceptor ||| kIDeterministic ||| kODeterministic ||| kNoEpsilons ||| kNoIEpsilons |||
  kNoOEpsilons ||| kILabelSorted ||| kOLabelSorted ||| kUnweighted ||| kAcyclic |||
  kInitialAcyclic ||| kTopSorted ||| kAccessible ||| kCoAccessible ||| kString |||
  kUnweightedCycles.
(* properties.h:157-160 kCompiledStringProperties *)
Definition kCompiledStringProperties : Z :=
  kAcceptor ||| kString ||| kUnweighted ||| kIDeterministic ||| kODeterministic |||
  kILabelSorted ||| kOLabelSorted ||| kAcyclic ||| kInitialAcyclic ||| kUnweightedCycles
  ||| kTopSorted ||| kAccessible ||| kCoAccessible.
(* properties.h:163-171 kCopyProperties *)
Definition kCopyProperties : Z :=
  kError ||| kAcceptor ||| kNotAcceptor ||| kIDeterministic ||| kNonIDeterministic |||
  kODeterministic ||| kNonODeterministic ||| kEpsilons ||| kNoEpsilons ||| kIEpsilons |||
  kNoIEpsilons ||| kOEpsilons ||| kNoOEpsilons ||| kILabelSorted ||| kNotILabelSorted |||
  kOLabelSorted ||| kNotOLabelSorted ||| kWeighted ||| kUnweighted ||| kCyclic |||
  kAcyclic ||| kInitialCyclic ||| kInitialAcyclic ||| kTopSorted ||| kNotTopSorted |||
  kAccessible ||| kNotAccessible ||| kCoAccessible ||| kNotCoAccessible ||| kString |||
  kNotString ||| kWeightedCycles ||| kUnweightedCycles.
(* properties.h:174-182 kIntrinsicProperties *)
Definition kIntrinsicProperties : Z :=
  kExpanded ||| kMutable ||| kAcceptor ||| kNotAcceptor ||| kIDeterministic |||
  kNonIDeterministic ||| kODeterministic ||| kNonODeterministic ||| kEpsilons |||
  kNoEpsilons ||| kIEpsilons ||| kNoIEpsilons ||| kOEpsilons ||| kNoOEpsilons |||
  kILabelSorted ||| kNotILabelSorted ||| kOLabelSorted ||| kNotOLabelSorted ||| kWeighted
  ||| kUnweighted ||| kCyclic ||| kAcyclic ||| kInitialCyclic ||| kInitialAcyclic |||
  kTopSorted ||| kNotTopSorted ||| kAccessible ||| kNotAccessible ||| kCoAccessible |||
  kNotCoAccessible ||| kString ||| kNotString ||| kWeightedCycles ||| kUnweightedCycles.
(* properties.h:185-185 kExtrinsicProperties *)
Definition kExtrinsicProperties : Z := kError.
(* properties.h:188-194 kSetStartProperties *)
Definition kSetStartProperties : Z :=
  kExpanded ||| kMutable ||| kError ||| kAcceptor ||| kNotAcceptor ||| kIDeterministic |||
  kNonIDeterministic ||| kODeterministic ||| kNonODeterministic ||| kEpsilons |||
  kNoEpsilons ||| kIEpsilons ||| kNoIEpsilons ||| kOEpsilons ||| kNoOEpsilons |||
  kILabelSorted ||| kNotILabelSorted ||| kOLabelSorted ||| kNotOLabelSorted ||| kWeighted
  ||| kUnweighted ||| kCyclic ||| kAcyclic ||| kTopSorted ||| kNotTopSorted |||
  kCoAccessible ||| kNotCoAccessible ||| kWeightedCycles ||| kUnweightedCycles.
(* properties.h:197-204 kSetFinalProperties *)
Definition kSetFinalProperties : Z :=
  kExpanded ||| kMutable ||| kError ||| kAcceptor ||| kNotAcceptor ||| kIDeterministic |||
  kNonIDeterministic ||| kODeterministic ||| kNonODeterministic ||| kEpsilons |||
  kNoEpsilons ||| kIEpsilons ||| kNoIEpsilons ||| kOEpsilons ||| kNoOEpsilons |||
  kILabelSorted ||| kNotILabelSorted ||| kOLabelSorted ||| kNotOLabelSorted ||| kCyclic
  ||| kAcyclic ||| kInitialCyclic ||| kInitialAcyclic ||| kTopSorted ||| kNotTopSorted |||
  kAccessible ||| kNotAccessible ||| kWeightedCycles ||| kUnweightedCycles.
(* properties.h:207-214 kAddStateProperties *)
Definition kAddStateProperties : Z :=
  kExpanded ||| kMutable ||| kError ||| kAcceptor ||| kNotAcceptor ||| kIDeterministic |||
  kNonIDeterministic ||| kODeterministic ||| kNonODeterministic ||| kEpsilons |||
  kNoEpsilons ||| kIEpsilons ||| kNoIEpsilons ||| kOEpsilons ||| kNoOEpsilons |||
  kILabelSorted ||| kNotILabelSorted ||| kOLabelSorted ||| kNotOLabelSorted ||| kWeighted
  ||| kUnweighted ||| kCyclic ||| kAcyclic ||| kInitialCyclic ||| kInitialAcyclic |||
  kTopSorted ||| kNotTopSorted ||| kNotAccessible ||| kNotCoAccessible ||| kNotString |||
  kWeightedCycles ||| kUnweightedCycles.
(* properties.h:217-221 kAddArcProperties *)
Definition kAddArcProperties : Z :=
  kExpanded ||| kMutable ||| kError ||| kNotAcceptor ||| kNonIDeterministic |||
  kNonODeterministic ||| kEpsilons ||| kIEpsilons ||| kOEpsilons ||| kNotILabelSorted |||
  kNotOLabelSorted ||| kWeighted ||| kCyclic ||| kInitialCyclic ||| kNotTopSorted |||
  kAccessible ||| kCoAccessible ||| kWeightedCycles.
(* properties.h:224-224 kSetArcProperties *)
Definition kSetArcProperties : Z := kExpanded ||| kMutable ||| kError.
(* properties.h:227-231 kDeleteStatesProperties *)
Definition kDeleteStatesProperties : Z :=
  kExpanded ||| kMutable ||| kError ||| kAcceptor ||| kIDeterministic ||| kODeterministic
  ||| kNoEpsilons ||| kNoIEpsilons ||| kNoOEpsilons ||| kILabelSorted ||| kOLabelSorted
  ||| kUnweighted ||| kAcyclic ||| kInitialAcyclic ||| kTopSorted ||| kUnweightedCycles.
(* properties.h:234-238 kDeleteArcsProperties *)
Definition kDeleteArcsProperties : Z :=
  kExpanded ||| kMutable ||| kError ||| kAcceptor ||| kIDeterministic ||| kODeterministic
  ||| kNoEpsilons ||| kNoIEpsilons ||| kNoOEpsilons ||| kILabelSorted ||| kOLabelSorted
  ||| kUnweighted ||| kAcyclic ||| kInitialAcyclic ||| kTopSorted ||| kNotAccessible |||
  kNotCoAccessible ||| kUnweightedCycles.
(* properties.h:241-248 kStateSortProperties *)
Definition kStateSortProperties : Z :=
  kExpanded ||| kMutable ||| kError ||| kAcceptor ||| kNotAcceptor ||| kIDeterministic |||
  kNonIDeterministic ||| kODeterministic ||| kNonODeterministic ||| kEpsilons |||
  kNoEpsilons ||| kIEpsilons ||| kNoIEpsilons ||| kOEpsilons ||| kNoOEpsilons |||
  kILabelSorted ||| kNotILabelSorted ||| kOLabelSorted ||| kNotOLabelSorted ||| kWeighted
  ||| kUnweighted ||| kCyclic ||| kAcyclic ||| kInitialCyclic ||| kInitialAcyclic |||
  kAccessible ||| kNotAccessible ||| kCoAccessible ||| kNotCoAccessible |||
  kWeightedCycles ||| kUnweightedCycles.
(* properties.h:251-258 kArcSortProperties *)
Definition kArcSortProperties : Z :=
  kExpanded ||| kMutable ||| kError ||| kAcceptor ||| kNotAcceptor ||| kIDeterministic |||
  kNonIDeterministic ||| kODeterministic ||| kNonODeterministic ||| kEpsilons |||
  kNoEpsilons ||| kIEpsilons ||| kNoIEpsilons ||| kOEpsilons ||| kNoOEpsilons |||
  kWeighted ||| kUnweighted ||| kCyclic ||| kAcyclic ||| kInitialCyclic |||
  kInitialAcyclic ||| kTopSorted ||| kNotTopSorted ||| kAccessible ||| kNotAccessible |||
  kCoAccessible ||| kNotCoAccessible ||| kString ||| kNotString ||| kWeightedCycles |||
  kUnweightedCycles.
(* properties.h:261-267 kILabelInvariantProperties *)
Definition kILabelInvariantProperties : Z :=
  kExpanded ||| kMutable ||| kError ||| kODeterministic ||| kNonODeterministic |||
  kOEpsilons ||| kNoOEpsilons ||| kOLabelSorted ||| kNotOLabelSorted ||| kWeighted |||
  kUnweighted ||| kCyclic ||| kAcyclic ||| kInitialCyclic ||| kInitialAcyclic |||
  kTopSorted ||| kNotTopSorted ||| kAccessible ||| kNotAccessible ||| kCoAccessible |||
  kNotCoAccessible ||| kString ||| kNotString ||| kWeightedCycles ||| kUnweightedCycles.
(* properties.h:270-276 kOLabelInvariantProperties *)
Definition kOLabelInvariantProperties : Z :=
  kExpanded ||| kMutable ||| kError ||| kIDeterministic ||| kNonIDeterministic |||
  kIEpsilons ||| kNoIEpsilons ||| kILabelSorted ||| kNotILabelSorted ||| kWeighted |||
  kUnweighted ||| kCyclic ||| kAcyclic ||| kInitialCyclic ||| kInitialAcyclic |||
  kTopSorted ||| kNotTopSorted ||| kAccessible ||| kNotAccessible ||| kCoAccessible |||
  kNotCoAccessible ||| kString ||| kNotString ||| kWeightedCycles ||| kUnweightedCycles.
(* properties.h:280-287 kWeightInvariantProperties *)
Definition kWeightInvariantProperties : Z :=
  kExpanded ||| kMutable ||| kError ||| kAcceptor ||| kNotAcceptor ||| kIDeterministic |||
  kNonIDeterministic ||| kODeterministic ||| kNonODeterministic ||| kEpsilons |||
  kNoEpsilons ||| kIEpsilons ||| kNoIEpsilons ||| kOEpsilons ||| kNoOEpsilons |||
  kILabelSorted ||| kNotILabelSorted ||| kOLabelSorted ||| kNotOLabelSorted ||| kCyclic
  ||| kAcyclic ||| kInitialCyclic ||| kInitialAcyclic ||| kTopSorted ||| kNotTopSorted |||
  kAccessible ||| kNotAccessible ||| kCoAccessible ||| kNotCoAccessible ||| kString |||
  kNotString.
(* properties.h:291-297 kAddSuperFinalProperties *)
Definition kAddSuperFinalProperties : Z :=
  kExpanded ||| kMutable ||| kError ||| kAcceptor ||| kNotAcceptor ||| kNonIDeterministic
  ||| kNonODeterministic ||| kEpsilons ||| kIEpsilons ||| kOEpsilons ||| kNotILabelSorted
  ||| kNotOLabelSorted ||| kWeighted ||| kUnweighted ||| kCyclic ||| kAcyclic |||
  kInitialCyclic ||| kInitialAcyclic ||| kNotTopSorted ||| kNotAccessible |||
  kCoAccessible ||| kNotCoAccessible ||| kNotString ||| kWeightedCycles |||
  kUnweightedCycles.
(* properties.h:301-307 kRmSuperFinalProperties *)
Definition kRmSuperFinalProperties : Z :=
  kExpanded ||| kMutable ||| kError ||| kAcceptor ||| kNotAcceptor ||| kIDeterministic |||
  kODeterministic ||| kNoEpsilons ||| kNoIEpsilons ||| kNoOEpsilons ||| kILabelSorted |||
  kOLabelSorted ||| kWeighted ||| kUnweighted ||| kCyclic ||| kAcyclic ||| kInitialCyclic
  ||| kInitialAcyclic ||| kTopSorted ||| kAccessible ||| kCoAccessible |||
  kNotCoAccessible ||| kString ||| kWeightedCycles ||| kUnweightedCycles.
(* properties.h:310-310 kBinaryProperties *)
Definition kBinaryProperties : Z := 0x0000000000000007.
(* properties.h:313-313 kTrinaryProperties *)
Definition kTrinaryProperties : Z := 0x0000ffffffff0000.
(* properties.h:318-319 kPosTrinaryProperties *)
Definition kPosTrinaryProperties : Z := kTrinaryProperties &&& 0x5555555555555555.
(* properties.h:322-323 kNegTrinaryProperties *)
Definition kNegTrinaryProperties : Z := kTrinaryProperties &&& 0xaaaaaaaaaaaaaaaa.
(* properties.h:326-327 kFstProperties *)
Definition kFstProperties : Z := kBinaryProperties ||| kTrinaryProperties.

(** * Property functions for mutations *)

(* properties.h:396-402 SetStartProperties *)
Definition SetStartProperties (inprops : Z) : Z :=
  let outprops := inprops &&& kSetStartProperties in
  if has inprops kAcyclic then outprops ||| kInitialAcyclic else outprops.

(* properties.h:404-406 AddStateProperties *)
Definition AddStateProperties (inprops : Z) : Z := inprops &&& kAddStateProperties.

(* properties.h:408-410 DeleteStatesProperties *)
Definition DeleteStatesProperties (inprops : Z) : Z := inprops &&& kDeleteStatesProperties.

(* properties.h:412-415 DeleteAllStatesProperties *)
Definition DeleteAllStatesProperties (inprops staticprops : Z) : Z :=
  let outprops := inprops &&& kError in
  outprops ||| kNullProperties ||| staticprops.

(* properties.h:417-419 DeleteArcsProperties *)
Definition DeleteArcsProperties (inprops : Z) : Z := inprops &&& kDeleteArcsProperties.

Section mutations.
Context `{WeightOps W}.

(* properties.h:423-437 SetFinalProperties *)
Definition SetFinalProperties (inprops : Z) (old_weight new_weight : W) : Z :=
  let outprops := inprops in
  let outprops :=
    if wneqb old_weight Zero && wneqb old_weight One
    then outprops &&& u64_not kWeighted else outprops in
  let outprops :=
    if wneqb new_weight Zero && wneqb new_weight One
    then (outprops ||| kWeighted) &&& u64_not kUnweighted else outprops in
  outprops &&& (kSetFinalProperties ||| kWeighted ||| kUnweighted).

(* properties.h:445-493 AddArcProperties *)
Definition AddArcProperties (inprops s : Z) (arc : Arc W) (prev_arc : option (Arc W)) : Z :=
  let outprops := inprops in
  let outprops :=
    if negb (ilabel arc =? olabel arc)
    then (outprops ||| kNotAcceptor) &&& u64_not kAcceptor else outprops in
  let outprops :=
    if ilabel arc =? 0 then
      let outprops := (outprops ||| kIEpsilons) &&& u64_not kNoIEpsilons in
      if olabel arc =? 0
      then (outprops ||| kEpsilons) &&& u64_not kNoEpsilons else outprops
    else outprops in
  let outprops :=
    if olabel arc =? 0
    then (outprops ||| kOEpsilons) &&& u64_not kNoOEpsilons else outprops in
  let outprops :=
    match prev_arc with
    | Some prev_arc =>
        let outprops :=
          if ilabel prev_arc >? ilabel arc
          then (outprops ||| kNotILabelSorted) &&& u64_not kILabelSorted else outprops in
        if olabel prev_arc >? olabel arc
        then (outprops ||| kNotOLabelSorted) &&& u64_not kOLabelSorted else outprops
    | None => outprops
    end in
  let outprops :=
    if wneqb (weight arc) Zero && wneqb (weight arc) One
    then (outprops ||| kWeighted) &&& u64_not kUnweighted else outprops in
  let outprops :=
    if nextstate arc <=? s
    then (outprops ||| kNotTopSorted) &&& u64_not kTopSorted else outprops in
  let outprops := outprops &&&
    (kAddArcProperties ||| kAcceptor ||| kNoEpsilons ||| kNoIEpsilons |||
     kNoOEpsilons ||| kILabelSorted ||| kOLabelSorted ||| kUnweighted |||
     kTopSorted) in
  if has outprops kTopSorted then outprops ||| (kAcyclic ||| kInitialAcyclic) else outprops.
End mutations.

(** * Known and compatible properties *)

(* properties.h:500-504 KnownProperties *)
Definition KnownProperties (props : Z) : Z :=
  kBinaryProperties ||| (props &&& kTrinaryProperties) |||
  u64 (Z.shiftl (props &&& kPosTrinaryProperties) 1) |||
  Z.shiftr (props &&& kNegTrinaryProperties) 1.

(* properties.h:507-526 CompatProperties *)
Definition CompatProperties (props1 props2 : Z) : bool :=
  let known_props1 := KnownProperties props1 in
  let known_props2 := KnownProperties props2 in
  let known_props := known_props1 &&& known_props2 in
  let incompat_props := Z.lxor (props1 &&& known_props) (props2 &&& known_props) in
  incompat_props =? 0.

(** * Property functions for operations *)

(* properties.cc:39-58 ClosureProperties *)
Definition ClosureProperties (inprops : Z) (star delayed : bool) : Z :=
  let outprops := (kError ||| kAcceptor ||| kUnweighted ||| kAccessible) &&& inprops in
  let outprops :=
    if has inprops kUnweighted then outprops ||| kUnweightedCycles else outprops in
  let outprops :=
    if negb delayed then
      outprops |||
      ((kExpanded ||| kMutable ||| kCoAccessible ||| kNotTopSorted ||| kNotString) &&& inprops)
    else outprops in
  if negb delayed || has inprops kAccessible then
    let outprops := outprops |||
      ((kNotAcceptor ||| kNonIDeterministic ||| kNonODeterministic |||
        kNotILabelSorted ||| kNotOLabelSorted ||| kWeighted |||
        kWeightedCycles ||| kNotAccessible ||| kNotCoAccessible) &&& inprops) in
    if has inprops kWeighted && has inprops kAccessible && has inprops kCoAccessible
    then outprops ||| kWeightedCycles else outprops
  else outprops.

(* properties.cc:61-71 ComplementProperties *)
Definition ComplementProperties (inprops : Z) : Z :=
  let outprops := kAcceptor ||| kUnweighted ||| kUnweightedCycles ||| kNoEpsilons |||
                  kNoIEpsilons ||| kNoOEpsilons ||| kIDeterministic |||
                  kODeterministic ||| kAccessible in
  let outprops := outprops |||
    ((kError ||| kILabelSorted ||| kOLabelSorted ||| kInitialCyclic) &&& inprops) in
  if has inprops kAccessible
  then outprops ||| (kNotILabelSorted ||| kNotOLabelSorted ||| kCyclic) else outprops.

(* properties.cc:74-93 ComposeProperties *)
Definition ComposeProperties (inprops1 inprops2 : Z) : Z :=
  let outprops := kError &&& (inprops1 ||| inprops2) in
  if has inprops1 kAcceptor && has inprops2 kAcceptor then
    let outprops := outprops ||| (kAcceptor ||| kAccessible) in
    let outprops := outprops |||
      ((kNoEpsilons ||| kNoIEpsilons ||| kNoOEpsilons ||| kAcyclic ||| kInitialAcyclic)
       &&& inprops1 &&& inprops2) in
    if has (kNoIEpsilons &&& inprops1) inprops2
    then outprops ||| ((kIDeterministic ||| kODeterministic) &&& inprops1 &&& inprops2)
    else outprops
  else
    let outprops := outprops ||| kAccessible in
    let outprops := outprops |||
      ((kAcceptor ||| kNoIEpsilons ||| kAcyclic ||| kInitialAcyclic)
       &&& inprops1 &&& inprops2) in
    if has (kNoIEpsilons &&& inprops1) inprops2
    then outprops ||| (kIDeterministic &&& inprops1 &&& inprops2)
    else outprops.

(* properties.cc:96-128 ConcatProperties *)
Definition ConcatProperties (inprops1 inprops2 : Z) (delayed : bool) : Z :=
  let outprops := (kAcceptor ||| kUnweighted ||| kUnweightedCycles ||| kAcyclic)
                  &&& inprops1 &&& inprops2 in
  let outprops := outprops ||| (kError &&& (inprops1 ||| inprops2)) in
  let empty1 := delayed in
  let empty2 := delayed in
  let outprops :=
    if negb delayed then
      let outprops := outprops |||
        ((kExpanded ||| kMutable ||| kNotTopSorted ||| kNotString) &&& inprops1) in
      outprops ||| ((kNotTopSorted ||| kNotString) &&& inprops2)
    else outprops in
  let outprops :=
    if negb empty1 then outprops ||| ((kInitialAcyclic ||| kInitialCyclic) &&& inprops1)
    else outprops in
  let outprops :=
    if negb delayed || has inprops1 kAccessible then
      outprops |||
      ((kNotAcceptor ||| kNonIDeterministic ||| kNonODeterministic |||
        kEpsilons ||| kIEpsilons ||| kOEpsilons ||| kNotILabelSorted |||
        kNotOLabelSorted ||| kWeighted ||| kWeightedCycles ||| kCyclic |||
        kNotAccessible ||| kNotCoAccessible) &&& inprops1)
    else outprops in
  if (inprops1 &&& (kAccessible ||| kCoAccessible) =? kAccessible ||| kCoAccessible)
     && negb empty1 then
    let outprops := outprops ||| (kAccessible &&& inprops2) in
    let outprops :=
      if negb empty2 then outprops ||| (kCoAccessible &&& inprops2) else outprops in
    if negb delayed || has inprops2 kAccessible then
      outprops |||
      ((kNotAcceptor ||| kNonIDeterministic ||| kNonODeterministic |||
        kEpsilons ||| kIEpsilons ||| kOEpsilons ||| kNotILabelSorted |||
        kNotOLabelSorted ||| kWeighted ||| kWeightedCycles ||| kCyclic |||
        kNotAccessible ||| kNotCoAccessible) &&& inprops2)
    else outprops
  else outprops.

(* properties.cc:131-153 DeterminizeProperties *)
Definition DeterminizeProperties (inprops : Z)
    (has_subsequential_label distinct_psubsequential_labels : bool) : Z :=
  let outprops := kAccessible in
  let outprops :=
    if has kAcceptor inprops ||
       (has kNoIEpsilons inprops && distinct_psubsequential_labels) ||
       (has_subsequential_label && distinct_psubsequential_labels)
    then outprops ||| kIDeterministic else outprops in
  let outprops := outprops |||
    ((kError ||| kAcceptor ||| kAcyclic ||| kInitialAcyclic ||| kCoAccessible |||
      kString) &&& inprops) in
  let outprops :=
    if has inprops kNoIEpsilons && distinct_psubsequential_labels
    then outprops ||| (kNoEpsilons &&& inprops) else outprops in
  let outprops :=
    if has inprops kAccessible
    then outprops ||| ((kIEpsilons ||| kOEpsilons ||| kCyclic) &&& inprops) else outprops in
  let outprops :=
    if has inprops kAcceptor
    then outprops ||| ((kNoIEpsilons ||| kNoOEpsilons) &&& inprops) else outprops in
  if has inprops kNoIEpsilons && has_subsequential_label
  then outprops ||| kNoIEpsilons else outprops.

(* properties.cc:156-167 FactorWeightProperties *)
Definition FactorWeightProperties (inprops : Z) : Z :=
  let outprops := (kExpanded ||| kMutable ||| kError ||| kAcceptor ||| kAcyclic |||
                   kAccessible ||| kCoAccessible) &&& inprops in
  if has inprops kAccessible then
    outprops |||
    ((kNotAcceptor ||| kNonIDeterministic ||| kNonODeterministic |||
      kEpsilons ||| kIEpsilons ||| kOEpsilons ||| kCyclic |||
      kNotILabelSorted ||| kNotOLabelSorted) &&& inprops)
  else outprops.

(* properties.cc:170-193 InvertProperties *)
Definition InvertProperties (inprops : Z) : Z :=
  let outprops :=
    (kExpanded ||| kMutable ||| kError ||| kAcceptor ||| kNotAcceptor |||
     kEpsilons ||| kNoEpsilons ||| kWeighted ||| kUnweighted |||
     kWeightedCycles ||| kUnweightedCycles ||| kCyclic ||| kAcyclic |||
     kInitialCyclic ||| kInitialAcyclic ||| kTopSorted |||
     kNotTopSorted ||| kAccessible ||| kNotAccessible |||
     kCoAccessible ||| kNotCoAccessible ||| kString ||| kNotString) &&& inprops in
  let outprops := if has kIDeterministic inprops then outprops ||| kODeterministic else outprops in
  let outprops := if has kNonIDeterministic inprops then outprops ||| kNonODeterministic else outprops in
  let outprops := if has kODeterministic inprops then outprops ||| kIDeterministic else outprops in
  let outprops := if has kNonODeterministic inprops then outprops ||| kNonIDeterministic else outprops in
  let outprops := if has kIEpsilons inprops then outprops ||| kOEpsilons else outprops in
  let outprops := if has kNoIEpsilons inprops then outprops ||| kNoOEpsilons else outprops in
  let outprops := if has kOEpsilons inprops then outprops ||| kIEpsilons else outprops in
  let outprops := if has kNoOEpsilons inprops then outprops ||| kNoIEpsilons else outprops in
  let outprops := if has kILabelSorted inprops then outprops ||| kOLabelSorted else outprops in
  let outprops := if has kNotILabelSorted inprops then outprops ||| kNotOLabelSorted else outprops in
  let outprops := if has kOLabelSorted inprops then outprops ||| kILabelSorted else outprops in
  if has kNotOLabelSorted inprops then outprops ||| kNotILabelSorted else outprops.

(* properties.cc:196-232 ProjectProperties *)
Definition ProjectProperties (inprops : Z) (project_input : bool) : Z :=
  let outprops := kAcceptor in
  let outprops := outprops |||
    ((kExpanded ||| kMutable ||| kError ||| kWeighted ||| kUnweighted |||
      kWeightedCycles ||| kUnweightedCycles ||| kCyclic ||| kAcyclic |||
      kInitialCyclic ||| kInitialAcyclic ||| kTopSorted ||| kNotTopSorted |||
      kAccessible ||| kNotAccessible ||| kCoAccessible ||| kNotCoAccessible |||
      kString ||| kNotString) &&& inprops) in
  if project_input then
    let outprops := outprops |||
      ((kIDeterministic ||| kNonIDeterministic ||| kIEpsilons |||
        kNoIEpsilons ||| kILabelSorted ||| kNotILabelSorted) &&& inprops) in
    let outprops := if has kIDeterministic inprops then outprops ||| kODeterministic else outprops in
    let outprops := if has kNonIDeterministic inprops then outprops ||| kNonODeterministic else outprops in
    let outprops := if has kIEpsilons inprops then outprops ||| (kOEpsilons ||| kEpsilons) else outprops in
    let outprops := if has kNoIEpsilons inprops then outprops ||| (kNoOEpsilons ||| kNoEpsilons) else outprops in
    let outprops := if has kILabelSorted inprops then outprops ||| kOLabelSorted else outprops in
    if has kNotILabelSorted inprops then outprops ||| kNotOLabelSorted else outprops
  else
    let outprops := outprops |||
      ((kODeterministic ||| kNonODeterministic ||| kOEpsilons |||
        kNoOEpsilons ||| kOLabelSorted ||| kNotOLabelSorted) &&& inprops) in
    let outprops := if has kODeterministic inprops then outprops ||| kIDeterministic else outprops in
    let outprops := if has kNonODeterministic inprops then outprops ||| kNonIDeterministic else outprops in
    let outprops := if has kOEpsilons inprops then outprops ||| (kIEpsilons ||| kEpsilons) else outprops in
    let outprops := if has kNoOEpsilons inprops then outprops ||| (kNoIEpsilons ||| kNoEpsilons) else outprops in
    let outprops := if has kOLabelSorted inprops then outprops ||| kILabelSorted else outprops in
    if has kNotOLabelSorted inprops then outprops ||| kNotILabelSorted else outprops.

(* properties.cc:235-249 RandGenProperties *)
Definition RandGenProperties (inprops : Z) (weighted : bool) : Z :=
  let outprops := kAcyclic ||| kInitialAcyclic ||| kAccessible ||| kUnweightedCycles in
  let outprops := outprops ||| (inprops &&& kError) in
  if weighted then
    let outprops := outprops ||| kTopSorted in
    outprops |||
    ((kAcceptor ||| kNoEpsilons ||| kNoIEpsilons ||| kNoOEpsilons |||
      kIDeterministic ||| kODeterministic ||| kILabelSorted ||| kOLabelSorted) &&& inprops)
  else
    let outprops := outprops ||| kUnweighted in
    outprops ||| ((kAcceptor ||| kILabelSorted ||| kOLabelSorted) &&& inprops).

(** The loops of [ReplaceProperties] over the component FSTs' properties; the
last one carries the index that is compared with [root]. *)

(* properties.cc:268-278 ReplaceProperties *)
Fixpoint ReplaceProperties_some (replace_transducer : bool) (inprops : list Z)
    (props : Z) (string : bool) : Z * bool :=
  match inprops with
  | [] => (props, string)
  | inprop :: inprops =>
      let props := if replace_transducer then props ||| (kNotAcceptor &&& inprop) else props in
      let props := props |||
        ((kNonIDeterministic ||| kNonODeterministic ||| kEpsilons |||
          kIEpsilons ||| kOEpsilons ||| kWeighted ||| kWeightedCycles |||
          kCyclic ||| kNotTopSorted ||| kNotString) &&& inprop) in
      ReplaceProperties_some replace_transducer inprops props
        (if negb (has inprop kString) then false else string)
  end.

(* properties.cc:281-293 ReplaceProperties *)
Fixpoint ReplaceProperties_all (root : Z) (inprops : list Z) (i : Z)
    (acceptor ideterministic no_iepsilons acyclic unweighted : bool) :
    bool * bool * bool * bool * bool :=
  match inprops with
  | [] => (acceptor, ideterministic, no_iepsilons, acyclic, unweighted)
  | p :: inprops =>
      let acceptor := if negb (has p kAcceptor) then false else acceptor in
      let ideterministic := if negb (has p kIDeterministic) then false else ideterministic in
      let no_iepsilons := if negb (has p kNoIEpsilons) then false else no_iepsilons in
      let acyclic := if negb (has p kAcyclic) then false else acyclic in
      let unweighted := if negb (has p kUnweighted) then false else unweighted in
      let ideterministic :=
        if negb (i =? root) && negb (has p kNoIEpsilons) then false else ideterministic in
      ReplaceProperties_all root inprops (i + 1)
        acceptor ideterministic no_iepsilons acyclic unweighted
  end.

(* properties.cc:252-324 ReplaceProperties *)
Definition ReplaceProperties (inprops : list Z) (root : Z)
    (epsilon_on_call epsilon_on_return out_epsilon_on_call out_epsilon_on_return
     replace_transducer no_empty_fsts all_ilabel_sorted all_olabel_sorted
     all_negative_or_dense : bool) : option Z :=
  match inprops with
  | [] => Some kNullProperties
  | _ =>
      root_props ← inprops.[root];
      let outprops := foldl (λ outprops inprop, outprops ||| (kError &&& inprop)) 0 inprops in
      let access_props := if no_empty_fsts then kAccessible ||| kCoAccessible else 0 in
      let access_props :=
        foldl (λ access_props inprop,
          access_props &&& (inprop &&& (kAccessible ||| kCoAccessible))) access_props inprops in
      let outprops :=
        if access_props =? kAccessible ||| kCoAccessible then
          let outprops := outprops ||| access_props in
          let outprops :=
            if has root_props kInitialCyclic then outprops ||| kInitialCyclic else outprops in
          let '(props, string) := ReplaceProperties_some replace_transducer inprops 0 true in
          let outprops := outprops ||| props in
          if string : bool then outprops ||| kString else outprops
        else outprops in
      let '(acceptor, ideterministic, no_iepsilons, acyclic, unweighted) :=
        ReplaceProperties_all root inprops 0 (negb replace_transducer)
          (negb epsilon_on_call && epsilon_on_return)
          (negb epsilon_on_call && negb epsilon_on_return) true true in
      let outprops := if acceptor : bool then outprops ||| kAcceptor else outprops in
      let outprops := if ideterministic : bool then outprops ||| kIDeterministic else outprops in
      let outprops := if no_iepsilons : bool then outprops ||| kNoIEpsilons else outprops in
      let outprops := if acyclic : bool then outprops ||| kAcyclic else outprops in
      let outprops := if unweighted : bool then outprops ||| kUnweighted else outprops in
      let outprops :=
        if has root_props kInitialAcyclic then outprops ||| kInitialAcyclic else outprops in
      let outprops :=
        if all_ilabel_sorted && epsilon_on_return &&
           (negb epsilon_on_call || all_negative_or_dense)
        then outprops ||| kILabelSorted else outprops in
      Some (if all_olabel_sorted && out_epsilon_on_return &&
               (negb out_epsilon_on_call || all_negative_or_dense)
            then outprops ||| kOLabelSorted else outprops)
  end.

(* properties.cc:327-335 RelabelProperties *)
Definition RelabelProperties (inprops : Z) : Z :=
  let outprops :=
    kExpanded ||| kMutable ||| kError ||| kWeighted ||| kUnweighted |||
    kWeightedCycles ||| kUnweightedCycles ||| kCyclic ||| kAcyclic |||
    kInitialCyclic ||| kInitialAcyclic ||| kTopSorted ||| kNotTopSorted |||
    kAccessible ||| kNotAccessible ||| kCoAccessible ||| kNotCoAccessible |||
    kString ||| kNotString in
  outprops &&& inprops.

(* properties.cc:338-345 ReverseProperties *)
Definition ReverseProperties (inprops : Z) (has_superinitial : bool) : Z :=
  let outprops :=
    (kExpanded ||| kMutable ||| kError ||| kAcceptor ||| kNotAcceptor |||
     kEpsilons ||| kIEpsilons ||| kOEpsilons ||| kUnweighted ||| kCyclic |||
     kAcyclic ||| kWeightedCycles ||| kUnweightedCycles) &&& inprops in
  if has_superinitial then outprops ||| (kWeighted &&& inprops) else outprops.

(* properties.cc:348-356 ReweightProperties *)
Definition ReweightProperties (inprops : Z) (added_start_epsilon : bool) : Z :=
  let outprops := inprops &&& kWeightInvariantProperties in
  let outprops := outprops &&& u64_not kCoAccessible in
  if added_start_epsilon then
    let outprops := outprops &&&
      u64_not (kNoEpsilons ||| kNoIEpsilons ||| kNoOEpsilons ||| kInitialCyclic) in
    outprops ||| (kEpsilons ||| kIEpsilons ||| kOEpsilons ||| kInitialAcyclic)
  else outprops.

(* properties.cc:359-369 RmEpsilonProperties *)
Definition RmEpsilonProperties (inprops : Z) (delayed : bool) : Z :=
  let outprops := kNoEpsilons in
  let outprops := outprops |||
    ((kError ||| kAcceptor ||| kAcyclic ||| kInitialAcyclic) &&& inprops) in
  let outprops :=
    if has inprops kAcceptor then outprops ||| (kNoIEpsilons ||| kNoOEpsilons) else outprops in
  let outprops :=
    if negb delayed then
      let outprops := outprops ||| (kExpanded ||| kMutable) in
      outprops ||| (kTopSorted &&& inprops)
    else outprops in
  if negb delayed || has inprops kAccessible
  then outprops ||| (kNotAcceptor &&& inprops) else outprops.

(* properties.cc:374-379 ShortestPathProperties *)
Definition ShortestPathProperties (props : Z) (tree : bool) : Z :=
  let outprops := props ||| kAcyclic ||| kInitialAcyclic ||| kAccessible ||| kUnweightedCycles in
  if negb tree then outprops ||| kCoAccessible else outprops.

(* properties.cc:382-391 SynchronizeProperties *)
Definition SynchronizeProperties (inprops : Z) : Z :=
  let outprops :=
    (kError ||| kAcceptor ||| kAcyclic ||| kAccessible ||| kCoAccessible |||
     kUnweighted ||| kUnweightedCycles) &&& inprops in
  if has inprops kAccessible then
    outprops ||| ((kCyclic ||| kNotCoAccessible ||| kWeighted ||| kWeightedCycles) &&& inprops)
  else outprops.

(* properties.cc:394-426 UnionProperties *)
Definition UnionProperties (inprops1 inprops2 : Z) (delayed : bool) : Z :=
  let outprops :=
    (kAcceptor ||| kUnweighted ||| kUnweightedCycles ||| kAcyclic ||| kAccessible)
    &&& inprops1 &&& inprops2 in
  let outprops := outprops ||| (kError &&& (inprops1 ||| inprops2)) in
  let outprops := outprops ||| kInitialAcyclic in
  let empty1 := delayed in
  let empty2 := delayed in
  let outprops :=
    if negb delayed then
      let outprops := outprops ||| ((kExpanded ||| kMutable ||| kNotTopSorted) &&& inprops1) in
      outprops ||| (kNotTopSorted &&& inprops2)
    else outprops in
  let outprops :=
    if negb empty1 && negb empty2 then
      let outprops := outprops ||| (kEpsilons ||| kIEpsilons ||| kOEpsilons) in
      outprops ||| (kCoAccessible &&& inprops1 &&& inprops2)
    else outprops in
  let outprops :=
    if negb delayed || has inprops1 kAccessible then
      outprops |||
      ((kNotAcceptor ||| kNonIDeterministic ||| kNonODeterministic ||| kEpsilons |||
        kIEpsilons ||| kOEpsilons ||| kNotILabelSorted ||| kNotOLabelSorted |||
        kWeighted ||| kWeightedCycles ||| kCyclic ||| kNotAccessible) &&& inprops1)
    else outprops in
  if negb delayed || has inprops2 kAccessible then
    outprops |||
    ((kNotAcceptor ||| kNonIDeterministic ||| kNonODeterministic |||
      kEpsilons ||| kIEpsilons ||| kOEpsilons ||| kNotILabelSorted |||
      kNotOLabelSorted ||| kWeighted ||| kWeightedCycles ||| kCyclic |||
      kNotAccessible ||| kNotCoAccessible) &&& inprops2)
  else outprops.
