(* ===== verification/SymbolTable.v ===== *)
(** Symbol tables (openfst/lib/symbol-table.h and symbol-table.cc) and the
check-sum they compare by (openfst/compat/checksummer.h): the open-addressing
hash table [DenseSymbolMap], the bidirectional map [SymbolTableImpl] and
[CompatSymbols].  The hash function (absl::Hash) is a parameter.  An access out
of a vector's range and a probe that never ends are [None]. *)
From S2P Require Import Prelude.
From stdpp Require Import pretty sorting.
Local Open Scope Z_scope.

(** * CheckSummer *)

(* checksummer.h:45-45 kCheckSumLength *)
Definition kCheckSumLength : Z := 32.

(* checksummer.h:27-48 CheckSummer *)
Record CheckSummer := { count_ : Z; check_sum_ : list Z }.

(* checksummer.h:29-29 CheckSummer *)
Definition CheckSummer_new : CheckSummer :=
  {| count_ := 0; check_sum_ := replicate (Z.to_nat kCheckSumLength) 0 |}.

(** The bytes of a string, as unsigned values. *)
Definition bytes_of (s : string) : list Z :=
  (λ a, Z.of_N (Ascii.N_of_ascii a)) <$> String.list_ascii_of_string s.

(* checksummer.h:36-40 Update *)
Definition CheckSummer_Update (c : CheckSummer) (data : string) : CheckSummer :=
  foldl (λ c b,
    let i := Z.to_nat (count_ c mod kCheckSumLength) in
    {| count_ := count_ c + 1;
       check_sum_ := alter (λ x, Z.lxor x b) i (check_sum_ c) |}) c (bytes_of data).

(* checksummer.h:42-42 Digest *)
Definition CheckSummer_Digest (c : CheckSummer) : list Z := check_sum_ c.

(** * DenseSymbolMap *)

(* symbol-table.h:59-59 kNoSymbol *)
Definition kNoSymbol : Z := -1.
(* symbol-table.h:87-87 kEmptyBucket *)
Definition kEmptyBucket : Z := -1.

(* symbol-table.h:70-100 DenseSymbolMap *)
Record DenseSymbolMap := {
  symbols_ : list string;
  buckets_ : list Z;
  hash_mask_ : Z;
}.

(* symbol-table.cc:66-69 DenseSymbolMap *)
Definition DenseSymbolMap_new : DenseSymbolMap :=
  {| symbols_ := []; buckets_ := replicate 16 kEmptyBucket; hash_mask_ := 15 |}.

(* symbol-table.h:78-78 Size *)
Definition DSM_Size (m : DenseSymbolMap) : Z := zlen (symbols_ m).

(* symbol-table.h:80-80 GetSymbol *)
Definition DSM_GetSymbol (m : DenseSymbolMap) (idx : Z) : option string := (symbols_ m).[idx].

Section dense_symbol_map.
Variable str_hash_ : string → Z.

(* symbol-table.h:92-94 GetHash *)
Definition GetHash (hash_mask : Z) (key : string) : Z := Z.land (str_hash_ key) hash_mask.

(** The probing loop shared by [InsertOrFind] and [Find]: where it stops, and
the value of the matching symbol there, if it stopped at one. *)

(* symbol-table.cc:77-81 InsertOrFind *)
Fixpoint DSM_probe (fuel : nat) (m : DenseSymbolMap) (key : string) (idx : Z)
    : option (Z * option Z) :=
  match fuel with
  | O => None
  | S fuel =>
      stored_value ← (buckets_ m).[idx];
      if stored_value =? kEmptyBucket then Some (idx, None)
      else
        sym ← (symbols_ m).[stored_value];
        if String.eqb sym key then Some (idx, Some stored_value)
        else DSM_probe fuel m key (Z.land (idx + 1) (hash_mask_ m))
  end.

(* symbol-table.cc:104-106 Rehash *)
Fixpoint DSM_free_slot (fuel : nat) (buckets : list Z) (mask idx : Z) : option Z :=
  match fuel with
  | O => None
  | S fuel =>
      b ← buckets.[idx];
      if b =? kEmptyBucket then Some idx
      else DSM_free_slot fuel buckets mask (Z.land (idx + 1) mask)
  end.

(* symbol-table.cc:98-109 Rehash *)
Definition DSM_Rehash (m : DenseSymbolMap) (num_buckets : Z) : option DenseSymbolMap :=
  let mask := num_buckets - 1 in
  let empty := replicate (Z.to_nat num_buckets) kEmptyBucket in
  buckets ← foldM (λ buckets '(i, sym),
      idx ← DSM_free_slot (S (length buckets)) buckets mask (GetHash mask sym);
      buckets.[idx <- i])
    (imap (λ i sym, (Z.of_nat i, sym)) (symbols_ m)) empty;
  Some {| symbols_ := symbols_ m; buckets_ := buckets; hash_mask_ := mask |}.

(** [Size() >= 0.75 * buckets_.size()]; both sides are exact in [float] below 2^24. *)

(* symbol-table.cc:71-86 InsertOrFind *)
Definition DSM_InsertOrFind (m : DenseSymbolMap) (key : string)
    : option (DenseSymbolMap * Z * bool) :=
  m ← (if 4 * DSM_Size m >=? 3 * zlen (buckets_ m)
       then DSM_Rehash m (zlen (buckets_ m) * 2) else Some m);
  '(idx, found) ← DSM_probe (S (length (buckets_ m))) m key (GetHash (hash_mask_ m) key);
  match found with
  | Some stored_value => Some (m, stored_value, false)
  | None =>
      let next := DSM_Size m in
      buckets ← (buckets_ m).[idx <- next];
      Some ({| symbols_ := symbols_ m ++ [key]; buckets_ := buckets;
               hash_mask_ := hash_mask_ m |}, next, true)
  end.

(* symbol-table.cc:88-96 Find *)
Definition DSM_Find (m : DenseSymbolMap) (key : string) : option Z :=
  '(idx, found) ← DSM_probe (S (length (buckets_ m))) m key (GetHash (hash_mask_ m) key);
  match found with
  | Some stored_value => Some stored_value
  | None => (buckets_ m).[idx]
  end.

(* symbol-table.cc:111-114 RemoveSymbol *)
Definition DSM_RemoveSymbol (m : DenseSymbolMap) (idx : Z) : option DenseSymbolMap :=
  if decide (0 ≤ idx < DSM_Size m) then
    DSM_Rehash {| symbols_ := delete (Z.to_nat idx) (symbols_ m);
                  buckets_ := buckets_ m; hash_mask_ := hash_mask_ m |}
      (zlen (buckets_ m))
  else None.
End dense_symbol_map.

(** * SymbolTableImpl *)

(* symbol-table.h:184-297 SymbolTableImpl *)
Record SymbolTableImpl := {
  name_ : string;
  available_key_ : Z;
  dense_key_limit_ : Z;
  st_symbols_ : DenseSymbolMap;
  idx_key_ : list Z;
  key_map_ : gmap Z Z;
}.

(* symbol-table.h:186-190 SymbolTableImpl *)
Definition SymbolTableImpl_new (name : string) : SymbolTableImpl :=
  {| name_ := name; available_key_ := 0; dense_key_limit_ := 0;
     st_symbols_ := DenseSymbolMap_new; idx_key_ := []; key_map_ := ∅ |}.

(* symbol-table.h:243-250 GetNthKey *)
Definition GetNthKey (t : SymbolTableImpl) (pos : Z) : option Z :=
  if (pos <? 0) || (pos >=? DSM_Size (st_symbols_ t)) then Some kNoSymbol
  else if pos <? dense_key_limit_ t then Some pos
  else (idx_key_ t).[pos - dense_key_limit_ t].

(* symbol-table.cc:217-226 Find *)
Definition FindKey (t : SymbolTableImpl) (key : Z) : string :=
  match (if (key <? 0) || (key >=? dense_key_limit_ t) then key_map_ t !! key else Some key) with
  | None => ""
  | Some idx =>
      if (idx <? 0) || (idx >=? DSM_Size (st_symbols_ t)) then ""
      else default "" (DSM_GetSymbol (st_symbols_ t) idx)
  end.

Section symbol_table_impl.
Variable str_hash_ : string → Z.

(* symbol-table.h:237-241 Find *)
Definition FindSymbol (t : SymbolTableImpl) (symbol : string) : option Z :=
  idx ← DSM_Find str_hash_ (st_symbols_ t) symbol;
  if (idx =? kNoSymbol) || (idx <? dense_key_limit_ t) then Some idx
  else (idx_key_ t).[idx - dense_key_limit_ t].

(* symbol-table.cc:228-249 AddSymbol *)
Definition AddSymbol (t : SymbolTableImpl) (symbol : string) (key : Z)
    : option (SymbolTableImpl * Z) :=
  if key =? kNoSymbol then Some (t, key) else
  '(m, insert_key, inserted) ← DSM_InsertOrFind str_hash_ (st_symbols_ t) symbol;
  let t := {| name_ := name_ t; available_key_ := available_key_ t;
              dense_key_limit_ := dense_key_limit_ t; st_symbols_ := m;
              idx_key_ := idx_key_ t; key_map_ := key_map_ t |} in
  if negb inserted then
    key_already ← GetNthKey t insert_key;
    Some (t, key_already)
  else
    let dense := (key + 1 =? DSM_Size m) && (key =? dense_key_limit_ t) in
    Some ({| name_ := name_ t;
             available_key_ := if key >=? available_key_ t then key + 1 else available_key_ t;
             dense_key_limit_ := if dense then dense_key_limit_ t + 1 else dense_key_limit_ t;
             st_symbols_ := m;
             idx_key_ := if dense then idx_key_ t else idx_key_ t ++ [key];
             key_map_ := if dense then key_map_ t else <[key := DSM_Size m - 1]> (key_map_ t) |},
          key).

(* symbol-table.h:207-209 AddSymbol *)
Definition AddSymbol_auto (t : SymbolTableImpl) (symbol : string) : option (SymbolTableImpl * Z) :=
  AddSymbol t symbol (available_key_ t).
End symbol_table_impl.

(** The items of [key_map_] in the order of the btree: by key. *)
Definition key_map_items (m : gmap Z Z) : list (Z * Z) :=
  omap (λ k, pair k <$> m !! k) (merge_sort Z.le (map_to_list m).*1).

(* symbol-table.cc:202-213 MaybeRecomputeCheckSum *)
Definition LabeledCheckSum (t : SymbolTableImpl) : list Z :=
  let sum := CheckSummer_new in
  let entry (sym : option string) (key : Z) : string :=
    String.append (default "" sym) (String.append (String (Ascii.ascii_of_nat 9) "") (pretty key)) in
  let sum := foldl (λ sum i,
      CheckSummer_Update sum (entry (DSM_GetSymbol (st_symbols_ t) i) i))
    sum (seqZ 0 (dense_key_limit_ t)) in
  let sum := foldl (λ sum '(key, idx),
      if key <? dense_key_limit_ t then sum
      else CheckSummer_Update sum (entry (DSM_GetSymbol (st_symbols_ t) idx) key))
    sum (key_map_items (key_map_ t)) in
  CheckSummer_Digest sum.

(** [fst_compat_symbols] is a command-line flag. *)

(* symbol-table.cc:416-431 CompatSymbols *)
Definition CompatSymbols (fst_compat_symbols : bool) (syms1 syms2 : option SymbolTableImpl) : bool :=
  if negb fst_compat_symbols then true else
  match syms1, syms2 with
  | Some syms1, Some syms2 =>
      if decide (LabeledCheckSum syms1 = LabeledCheckSum syms2) then true else false
  | _, _ => true
  end.

Lemma CompatSymbols_None_l flag syms : CompatSymbols flag None syms = true.
Proof. by destruct flag. Qed.

Lemma CompatSymbols_refl flag syms : CompatSymbols flag syms syms = true.
Proof. destruct flag, syms; unfold CompatSymbols; simpl; try done. by case_decide. Qed.
