(* ===== verification/Fst.v ===== *)
(** What an FST is to the algorithms that read one (the interface [Fst] of
openfst/lib/fst.h), and what it means: its edges, its paths and the weighted
string pairs it accepts, and the meaning of each property bit of properties.h.
An implementation is viewed through this record; [Sound] says that its stored
property bits are true of it. *)
From S2P Require Import Prelude Weight Properties SymbolTable.
From Stdlib Require Import Sorting.Sorted.
Local Open Scope Z_scope.

(** * The interface *)

(** The state iterator enumerates [0 .. NumStates - 1] and the arc iterator of
a state the list [Arcs]; outside the states there are no arcs and the final
weight is [Zero]. *)

(* fst.h:225-254 Fst *)
Record Fst (W : Type) := {
  Start : Z;
  NumStates : Z;
  Final : Z → W;
  Arcs : Z → list (Arc W);
  FstProperties : Z;
  InputSymbols : option SymbolTableImpl;
  OutputSymbols : option SymbolTableImpl;
}.
Arguments Start {_} _.
Arguments NumStates {_} _.
Arguments Final {_} _ _.
Arguments Arcs {_} _ _.
Arguments FstProperties {_} _.
Arguments InputSymbols {_} _.
Arguments OutputSymbols {_} _.

(** * Meaning of the property bits *)

(** The trinary properties; property number [n] has its positive bit at
[16 + 2 n] and its negative bit next to it. *)
Inductive trinary :=
  | Acceptor | IDeterministic | ODeterministic | Epsilons | IEpsilons | OEpsilons
  | ILabelSorted | OLabelSorted | Weighted | Cyclic | InitialCyclic | TopSorted
  | Accessible | CoAccessible | StringFst | WeightedCycles.

#[export] Instance trinary_eq_dec : EqDecision trinary.
Proof. solve_decision. Defined.

Definition trinary_index (t : trinary) : Z :=
  match t with
  | Acceptor => 0 | IDeterministic => 1 | ODeterministic => 2 | Epsilons => 3
  | IEpsilons => 4 | OEpsilons => 5 | ILabelSorted => 6 | OLabelSorted => 7
  | Weighted => 8 | Cyclic => 9 | InitialCyclic => 10 | TopSorted => 11
  | Accessible => 12 | CoAccessible => 13 | StringFst => 14 | WeightedCycles => 15
  end.

Definition pos_bit (t : trinary) : Z := 16 + 2 * trinary_index t.
Definition neg_bit (t : trinary) : Z := 17 + 2 * trinary_index t.

Section semantics.
Context `{WeightOps W}.
Implicit Types (f : Fst W) (a : Arc W).

Definition valid f (s : Z) : Prop := 0 ≤ s < NumStates f.

Definition edge f (s t : Z) : Prop := valid f s ∧ ∃ a, a ∈ Arcs f s ∧ nextstate a = t.

(** Weights that count as non-trivial. *)
Definition nontrivial (w : W) : bool := wneqb w Zero && wneqb w One.

Definition all_arcs f (P : Z → Arc W → Prop) : Prop :=
  ∀ s a, valid f s → a ∈ Arcs f s → P s a.
Definition some_arc f (P : Z → Arc W → Prop) : Prop :=
  ∃ s a, valid f s ∧ a ∈ Arcs f s ∧ P s a.
Definition is_final f (s : Z) : Prop := valid f s ∧ weqb (Final f s) Zero = false.

Definition Holds f (t : trinary) : Prop :=
  match t with
  | Acceptor => all_arcs f (λ _ a, ilabel a = olabel a)
  | IDeterministic => ∀ s, valid f s → NoDup (ilabel <$> Arcs f s)
  | ODeterministic => ∀ s, valid f s → NoDup (olabel <$> Arcs f s)
  | Epsilons => some_arc f (λ _ a, ilabel a = 0 ∧ olabel a = 0)
  | IEpsilons => some_arc f (λ _ a, ilabel a = 0)
  | OEpsilons => some_arc f (λ _ a, olabel a = 0)
  | ILabelSorted => ∀ s, valid f s → Sorted Z.le (ilabel <$> Arcs f s)
  | OLabelSorted => ∀ s, valid f s → Sorted Z.le (olabel <$> Arcs f s)
  | Weighted =>
      some_arc f (λ _ a, nontrivial (weight a) = true) ∨
      ∃ s, valid f s ∧ nontrivial (Final f s) = true
  | Cyclic => ∃ s, tc (edge f) s s
  | InitialCyclic => tc (edge f) (Start f) (Start f)
  | TopSorted => all_arcs f (λ s a, s < nextstate a)
  | Accessible => ∀ s, valid f s → rtc (edge f) (Start f) s
  | CoAccessible => ∀ s, valid f s → ∃ t, rtc (edge f) s t ∧ is_final f t
  | StringFst =>
      0 < NumStates f →
      Start f = 0 ∧ is_final f (NumStates f - 1) ∧ Arcs f (NumStates f - 1) = [] ∧
      ∀ s, 0 ≤ s < NumStates f - 1 →
        ¬ is_final f s ∧ ∃ a, Arcs f s = [a] ∧ nextstate a = s + 1
  | WeightedCycles =>
      some_arc f (λ s a, nontrivial (weight a) = true ∧ rtc (edge f) (nextstate a) s)
  end.

(** The bits of [props] are true of [f]: a set positive bit means the property
holds, a set negative bit that it does not. *)
Definition Sound (props : Z) f : Prop :=
  ∀ t, (Z.testbit props (pos_bit t) = true → Holds f t) ∧
       (Z.testbit props (neg_bit t) = true → ¬ Holds f t).

Definition SoundFst f : Prop := Sound (FstProperties f) f.

(** A state from which a final one can be reached. *)
Definition coaccessible f (s : Z) : Prop := ∃ t, rtc (edge f) s t ∧ is_final f t.

(** Every transition leads to a state, and so does the start if there is one. *)
Definition wf_arcs f : Prop := all_arcs f (λ _ a, valid f (nextstate a)).
Definition wf_start f : Prop := Start f = kNoStateId ∨ valid f (Start f).
Definition WellFormed f : Prop := 0 ≤ NumStates f ∧ wf_arcs f ∧ wf_start f.

(** * Paths and accepted strings *)

Inductive path f : Z → list (Arc W) → Z → Prop :=
  | path_nil s : valid f s → path f s [] s
  | path_cons s a p t :
      valid f s → a ∈ Arcs f s → path f (nextstate a) p t → path f s (a :: p) t.

(** The label sequence of a path, epsilons dropped. *)
Definition labels (l : list Z) : list Z := filter (λ x, x ≠ 0) l.
Definition istring (p : list (Arc W)) : list Z := labels (ilabel <$> p).
Definition ostring (p : list (Arc W)) : list Z := labels (olabel <$> p).

(** The weight of a path that ends with final weight [w]. *)
Definition path_weight (p : list (Arc W)) (w : W) : W :=
  foldr (λ a w, Times (weight a) w) w p.

(** [f] maps [x] to [y] with weight [w], from state [s], on a successful path. *)
Definition accepts_from f (s : Z) (x y : list Z) (w : W) : Prop :=
  ∃ p t, path f s p t ∧ is_final f t ∧ istring p = x ∧ ostring p = y ∧
         path_weight p (Final f t) ≡ w.
Definition accepts f (x y : list Z) (w : W) : Prop := accepts_from f (Start f) x y w.

(** Every weight of [f] is a member of the weight set. *)
Definition member_weights f : Prop :=
  all_arcs f (λ _ a, Member (weight a) = true) ∧
  ∀ s, valid f s → Member (Final f s) = true.
End semantics.

(** * Equality of machines *)

(** Two machines an algorithm cannot tell apart (properties and symbol tables
aside): an equivalence, which the meaning of the property bits respects. *)
Section machine_equality.
Context `{WeightOps W}.
Implicit Types (f g : Fst W).

#[global] Instance fst_equiv : Equiv (Fst W) := λ f g,
  Start f = Start g ∧ NumStates f = NumStates g ∧
  (∀ s, Final f s = Final g s) ∧ (∀ s, Arcs f s = Arcs g s).

#[global] Instance fst_equivalence : Equivalence (≡@{Fst W}).
Proof.
  split.
  - by intros f.
  - intros f g (?&?&?&?). repeat split; auto.
  - intros f g h (?&?&Hf&Ha) (?&?&Hf'&Ha'). repeat split; [congruence..| |];
      intros s; [by rewrite Hf|by rewrite Ha].
Qed.

#[global] Instance valid_proper : Proper ((≡) ==> eq ==> iff) (valid (W:=W)).
Proof. intros f g (_&Hn&_&_) s ? <-. unfold valid. by rewrite Hn. Qed.

#[global] Instance edge_proper : Proper ((≡) ==> eq ==> eq ==> iff) (edge (W:=W)).
Proof.
  intros f g Hfg s ? <- t ? <-. pose proof Hfg as (_&_&_&Ha).
  unfold edge. rewrite Ha. by rewrite (valid_proper f g Hfg s s eq_refl).
Qed.

#[global] Instance is_final_proper : Proper ((≡) ==> eq ==> iff) (is_final (W:=W)).
Proof.
  intros f g Hfg s ? <-. pose proof Hfg as (_&_&Hf&_).
  unfold is_final. rewrite Hf. by rewrite (valid_proper f g Hfg s s eq_refl).
Qed.

Lemma Holds_equiv f g t : f ≡ g → Holds f t → Holds g t.
Proof.
  intros Hfg Hh.
  assert (∀ s t, rtc (edge f) s t → rtc (edge g) s t) as Hr.
  { intros s u. induction 1; [done|]. eapply rtc_l; [by rewrite <-Hfg|done]. }
  assert (∀ s t, tc (edge f) s t → tc (edge g) s t) as Ht.
  { intros s u. induction 1; [apply tc_once|eapply tc_l; [|done]]; by rewrite <-Hfg. }
  pose proof Hfg as (HS & HN & HF & HA).
  destruct t; simpl in *; unfold all_arcs, some_arc in *.
  all: try (intros s; rewrite <-HA; intros Hv; apply Hh; by rewrite Hfg).
  all: try (intros s a; rewrite <-HA; intros Hv; apply Hh; by rewrite Hfg).
  all: try (destruct Hh as (s & a & Hv & Ha & Hp); exists s, a;
    rewrite <-HA; split; [by rewrite <-Hfg|split; [done|by naive_solver]]).
  - destruct Hh as [(s & a & Hv & ? & ?)|(s & Hv & ?)]; [left; exists s, a|right; exists s];
      rewrite <-?HA, <-?HF; split_and?; try done; by rewrite <-Hfg.
  - destruct Hh as (s & ?). eauto.
  - rewrite <-HS. eauto.
  - intros s Hv. rewrite <-HS. apply Hr, Hh. by rewrite Hfg.
  - intros s Hv. rewrite <-Hfg in Hv. destruct (Hh s Hv) as (u & ? & ?).
    exists u. split; [eauto|by rewrite <-Hfg].
  - rewrite <-HN, <-HS, <-HA. intros Hpos. destruct (Hh Hpos) as (? & ? & ? & Hrest).
    split_and!; [done|by rewrite <-Hfg|done|].
    intros s Hs. destruct (Hrest s Hs) as (Hnf & a & ? & ?).
    split; [by rewrite <-Hfg|]. exists a. by rewrite <-HA.
Qed.

#[global] Instance Holds_proper : Proper ((≡) ==> eq ==> iff) (Holds (W:=W)).
Proof. intros f g Hfg t ? <-. split; by apply Holds_equiv. Qed.

#[global] Instance Sound_proper : Proper (eq ==> (≡) ==> iff) (Sound (W:=W)).
Proof.
  intros p ? <- f g Hfg. unfold Sound. split; intros Hs t; destruct (Hs t) as [? ?];
    [rewrite <-Hfg|rewrite Hfg]; done.
Qed.

#[global] Instance WellFormed_proper : Proper ((≡) ==> iff) (WellFormed (W:=W)).
Proof.
  intros f g Hfg. pose proof Hfg as (HS & HN & _ & HA).
  assert (∀ s, valid f s ↔ valid g s) as Hv by (intros s; unfold valid; by rewrite HN).
  unfold WellFormed, wf_arcs, wf_start, all_arcs. rewrite HS, HN.
  setoid_rewrite Hv. setoid_rewrite HA. done.
Qed.

(** States that do not exist have no arcs and are not final. *)
Definition tight f : Prop := ∀ s, ¬ valid f s → Final f s = Zero ∧ Arcs f s = [].

Lemma tight_arcs f s a : tight f → a ∈ Arcs f s → valid f s.
Proof.
  intros Ht Ha. destruct (decide (0 ≤ s < NumStates f)) as [|Hn]; [done|].
  destruct (Ht s Hn) as [_ He]. rewrite He in Ha. by apply not_elem_of_nil in Ha.
Qed.
End machine_equality.

(** * Facts on edges, paths and their weights *)

Section path_facts.
Context `{WeightOps W}.
Implicit Types (f g : Fst W).

Lemma path_app f s p t q u : path f s p t → path f t q u → path f s (p ++ q) u.
Proof. induction 1; [done|]. intros. simpl. econstructor; eauto. Qed.

Lemma path_app_inv f s p q u :
  path f s (p ++ q) u → ∃ t, path f s p t ∧ path f t q u.
Proof.
  revert s. induction p as [|a p IH]; intros s Hp; simpl in *.
  - exists s. split; [|done]. constructor. by inversion Hp.
  - inversion Hp as [|? ? ? ? Hs Ha Hq]; subst.
    apply IH in Hq as (t & ? & ?). exists t. split; [by constructor|done].
Qed.

Lemma path_valid_l f s p t : path f s p t → valid f s.
Proof. by destruct 1. Qed.

Lemma path_valid_r f s p t : path f s p t → valid f t.
Proof. by induction 1. Qed.

Lemma path_snoc f s p t a :
  path f s p t → a ∈ Arcs f t → valid f (nextstate a) → path f s (p ++ [a]) (nextstate a).
Proof.
  intros Hp Ha Hv. eapply path_app; [done|]. econstructor; [by eapply path_valid_r|done|].
  by constructor.
Qed.

Lemma path_rtc f s p t : path f s p t → rtc (edge f) s t.
Proof.
  induction 1 as [|s a p t ? ? ? IH]; [done|]. eapply rtc_l; [|done].
  split; [done|]. by exists a.
Qed.

Lemma rtc_path f s t : rtc (edge f) s t → valid f t → ∃ p, path f s p t.
Proof.
  intros Hr Ht. induction Hr as [s|s u t [Hs (a & Ha & <-)] Hr IH].
  - exists []. by constructor.
  - destruct IH as [p Hp]; [done|]. exists (a :: p). by constructor.
Qed.

Lemma coaccessible_valid f s : coaccessible f s → valid f s.
Proof. intros (t & Hr & Ht). inversion Hr as [|? ? ? [? _]]; subst; [apply Ht|done]. Qed.

Lemma istring_app (p q : list (Arc W)) : istring (p ++ q) = istring p ++ istring q.
Proof. unfold istring, labels. by rewrite fmap_app, filter_app. Qed.

Lemma ostring_app (p q : list (Arc W)) : ostring (p ++ q) = ostring p ++ ostring q.
Proof. unfold ostring, labels. by rewrite fmap_app, filter_app. Qed.

(** Edges of a machine that has at least the transitions of another. *)
Lemma rtc_edge_mono f g s t : (∀ s t, edge f s t → edge g s t) → rtc (edge f) s t → rtc (edge g) s t.
Proof. intros Hsub. induction 1; eauto using rtc_l, rtc_refl. Qed.

Lemma tc_edge_mono f g s t : (∀ s t, edge f s t → edge g s t) → tc (edge f) s t → tc (edge g) s t.
Proof. intros Hsub. induction 1; eauto using tc_l, tc_once. Qed.
End path_facts.

Section weight_facts.
Context `{TimesMonoid W}.
Implicit Types (f g : Fst W).

#[global] Instance path_weight_proper p : Proper ((≡) ==> (≡)) (path_weight (W:=W) p).
Proof. intros w w' Hw. induction p as [|a p IH]; simpl; [done|]. by rewrite IH. Qed.

Lemma path_weight_app (p q : list (Arc W)) w :
  path_weight (p ++ q) w = path_weight p (path_weight q w).
Proof. unfold path_weight. by rewrite foldr_app. Qed.

Lemma path_weight_member (p : list (Arc W)) w :
  Forall (λ a, Member (weight a) = true) p → Member w = true →
  Member (path_weight p w) = true.
Proof. intros Hp Hw. induction Hp; simpl; eauto with weight. Qed.

(** The weight of a path factors out of the weight it ends with. *)
Lemma path_weight_Times (p : list (Arc W)) v w :
  Forall (λ a, Member (weight a) = true) p → Member v = true → Member w = true →
  path_weight p (Times v w) ≡ Times (path_weight p v) w.
Proof.
  intros Hp Hv Hw. induction Hp as [|a p Ha Hp IH]; simpl; [done|].
  rewrite IH. apply Times_assoc; eauto using path_weight_member.
Qed.

Lemma path_member f s p t :
  all_arcs f (λ _ a, Member (weight a) = true) → path f s p t →
  Forall (λ a, Member (weight a) = true) p.
Proof. intros Hm. induction 1; constructor; eauto. Qed.

#[global] Instance accepts_from_proper f s x y :
  Proper ((≡) ==> iff) (accepts_from (W:=W) f s x y).
Proof.
  intros w w' Hw. unfold accepts_from. split; intros (p & t & ? & ? & ? & ? & Hp);
    exists p, t; rewrite Hp; auto.
Qed.
End weight_facts.

(** * Checking a concrete machine *)

Section checks.
Context `{WeightOps W}.
Implicit Types (f : Fst W).

Definition all_arcsb f (P : Arc W → bool) : bool :=
  forallb (λ s, forallb P (Arcs f s)) (seqZ 0 (NumStates f)).

Lemma all_arcsb_spec f P : all_arcsb f P = true → all_arcs f (λ _ a, P a = true).
Proof.
  intros Hf s a Hs Ha. unfold all_arcsb in Hf. rewrite forallb_forall in Hf.
  specialize (Hf s). rewrite <-list_elem_of_In, elem_of_seqZ in Hf.
  assert (forallb P (Arcs f s) = true) as Hl by (apply Hf; unfold valid in Hs; lia).
  rewrite forallb_forall in Hl. apply Hl. by apply list_elem_of_In.
Qed.

Definition validb f (s : Z) : bool := (0 <=? s) && (s <? NumStates f).

Lemma validb_spec f s : validb f s = true ↔ valid f s.
Proof. unfold validb, valid. rewrite andb_true_iff. lia. Qed.

Definition well_formedb f : bool :=
  (0 <=? NumStates f) && all_arcsb f (λ a, validb f (nextstate a)) &&
  ((Start f =? kNoStateId) || validb f (Start f)).

Lemma well_formedb_spec f : well_formedb f = true → WellFormed f.
Proof.
  unfold well_formedb. rewrite !andb_true_iff, orb_true_iff, Z.eqb_eq, validb_spec.
  intros [[Hn Ha] Hs]. refine (conj _ (conj _ Hs)); [lia|].
  intros s a Hv Hin. apply validb_spec. by apply (all_arcsb_spec f _ Ha s a).
Qed.

Definition member_weightsb f : bool :=
  all_arcsb f (λ a, Member (weight a)) && forallb (λ s, Member (Final f s)) (seqZ 0 (NumStates f)).

Lemma member_weightsb_spec f : member_weightsb f = true → member_weights f.
Proof.
  unfold member_weightsb. rewrite andb_true_iff. intros [Ha Hf]. split.
  - intros s a Hv Hin. by apply (all_arcsb_spec f _ Ha s a).
  - intros s Hs. rewrite forallb_forall in Hf. apply Hf. rewrite <-list_elem_of_In, elem_of_seqZ.
    unfold valid in Hs. lia.
Qed.
End checks.
