(* ===== verification/VectorFst.v ===== *)
(** The mutable FST (openfst/lib/vector-fst.h, with the property bookkeeping of
[FstImplBase] in fst.h): [VectorState], [VectorFstBaseImpl] and
[VectorFstImpl], operation by operation.  A [std::vector<State*>] owned by one
implementation is a list of states; an index out of range is undefined
behaviour and gives [None].  Epsilon counters are [size_t] and wrap.

Proved here: what each operation does to the machine an algorithm sees
([vector_view]), the in-place compaction of [DeleteStates] against its
specification, and that the epsilon counters stay exact. *)
From S2P Require Import Prelude Weight Properties SymbolTable Fst.
Local Open Scope Z_scope.

(** * VectorState *)

(* vector-fst.h:168-171 VectorState *)
Record VectorState (W : Type) := MkState {
  final_weight_ : W;
  niepsilons_ : Z;
  noepsilons_ : Z;
  arcs_ : list (Arc W);
}.
Arguments MkState {_} _ _ _ _.
Arguments final_weight_ {_} _.
Arguments niepsilons_ {_} _.
Arguments noepsilons_ {_} _.
Arguments arcs_ {_} _.

Section vector_state.
Context `{WeightOps W}.
Implicit Types (st : VectorState W).

(* vector-fst.h:70-70 VectorState *)
Definition VectorState_new : VectorState W := MkState Zero 0 0 [].

(* vector-fst.h:78-83 Reset *)
Definition VS_Reset st : VectorState W := MkState Zero 0 0 [].

(* vector-fst.h:91-91 NumArcs *)
Definition VS_NumArcs st : Z := zlen (arcs_ st).

(* vector-fst.h:93-93 GetArc *)
Definition VS_GetArc st (n : Z) : option (Arc W) := (arcs_ st).[n].

(* vector-fst.h:101-101 SetFinal *)
Definition VS_SetFinal st (w : W) : VectorState W :=
  MkState w (niepsilons_ st) (noepsilons_ st) (arcs_ st).

(* vector-fst.h:103-105 SetNumInputEpsilons *)
Definition VS_SetNumEpsilons st (ni no : Z) : VectorState W :=
  MkState (final_weight_ st) ni no (arcs_ st).

(* vector-fst.h:163-166 IncrementNumEpsilons *)
Definition VS_IncrementNumEpsilons st (arc : Arc W) : VectorState W :=
  MkState (final_weight_ st)
    (if ilabel arc =? 0 then size_inc (niepsilons_ st) else niepsilons_ st)
    (if olabel arc =? 0 then size_inc (noepsilons_ st) else noepsilons_ st)
    (arcs_ st).

(* vector-fst.h:107-115 AddArc *)
Definition VS_AddArc st (arc : Arc W) : VectorState W :=
  let st := VS_IncrementNumEpsilons st arc in
  MkState (final_weight_ st) (niepsilons_ st) (noepsilons_ st) (arcs_ st ++ [arc]).

(* vector-fst.h:123-128 SetArc *)
Definition VS_SetArc st (arc : Arc W) (n : Z) : option (VectorState W) :=
  old ← (arcs_ st).[n];
  let st := MkState (final_weight_ st)
    (if ilabel old =? 0 then size_dec (niepsilons_ st) else niepsilons_ st)
    (if olabel old =? 0 then size_dec (noepsilons_ st) else noepsilons_ st)
    (arcs_ st) in
  let st := VS_IncrementNumEpsilons st arc in
  arcs ← (arcs_ st).[n <- arc];
  Some (MkState (final_weight_ st) (niepsilons_ st) (noepsilons_ st) arcs).

(* vector-fst.h:130-134 DeleteArcs *)
Definition VS_DeleteAllArcs st : VectorState W := MkState (final_weight_ st) 0 0 [].

(** The body of the popping loop: [arcs_.back()] is undefined on an empty vector. *)

(* vector-fst.h:141-145 DeleteArcs *)
Definition VS_PopArc st : option (VectorState W) :=
  back ← last (arcs_ st);
  Some (MkState (final_weight_ st)
    (if ilabel back =? 0 then size_dec (niepsilons_ st) else niepsilons_ st)
    (if olabel back =? 0 then size_dec (noepsilons_ st) else noepsilons_ st)
    (removelast (arcs_ st))).

(* vector-fst.h:136-146 DeleteArcs *)
Definition VS_DeleteArcs st (n : Z) : option (VectorState W) :=
  if n >=? VS_NumArcs st then Some (VS_DeleteAllArcs st)
  else foldM (λ st (_ : Z), VS_PopArc st) (seqZ 0 n) st.
End vector_state.

(** * VectorFstBaseImpl and the properties of FstImplBase *)

(* vector-fst.h:337-344 VectorFstBaseImpl *)
(** [states_] and [start_]; the last three fields are those of [FstImplBase]. *)
Record VectorFst (W : Type) := MkVectorFst {
  states_ : list (VectorState W);
  start_ : Z;
  properties_ : Z;
  isymbols_ : option SymbolTableImpl;
  osymbols_ : option SymbolTableImpl;
}.
Arguments MkVectorFst {_} _ _ _ _ _.
Arguments states_ {_} _.
Arguments start_ {_} _.
Arguments properties_ {_} _.
Arguments isymbols_ {_} _.
Arguments osymbols_ {_} _.

Section vector_fst.
Context `{WeightOps W}.
Implicit Types (fst : VectorFst W) (st : VectorState W).

Definition with_states fst (l : list (VectorState W)) : VectorFst W :=
  MkVectorFst l (start_ fst) (properties_ fst) (isymbols_ fst) (osymbols_ fst).
Definition with_properties fst (p : Z) : VectorFst W :=
  MkVectorFst (states_ fst) (start_ fst) p (isymbols_ fst) (osymbols_ fst).

(* fst.h:749-754 SetProperties *)
Definition SetProperties fst (props : Z) : VectorFst W :=
  with_properties fst ((properties_ fst &&& kError) ||| props).

(* fst.h:756-764 SetProperties *)
Definition SetPropertiesMask fst (props mask : Z) : VectorFst W :=
  let properties := properties_ fst &&& (u64_not mask ||| kError) in
  with_properties fst (properties ||| (props &&& mask)).

(* fst.h:776-797 UpdateProperties *)
Definition UpdateProperties fst (props mask : Z) : VectorFst W :=
  let properties := properties_ fst in
  let old_props := properties &&& mask in
  let old_mask := KnownProperties old_props in
  let discovered_mask := mask &&& u64_not old_mask in
  let discovered_props := props &&& discovered_mask in
  with_properties fst
    (if negb (discovered_props =? 0) then properties_ fst ||| discovered_props
     else properties_ fst).

(* fst.h:807-809 SetInputSymbols *)
Definition SetInputSymbols fst (isyms : option SymbolTableImpl) : VectorFst W :=
  MkVectorFst (states_ fst) (start_ fst) (properties_ fst) isyms (osymbols_ fst).
(* fst.h:811-813 SetOutputSymbols *)
Definition SetOutputSymbols fst (osyms : option SymbolTableImpl) : VectorFst W :=
  MkVectorFst (states_ fst) (start_ fst) (properties_ fst) (isymbols_ fst) osyms.

(* vector-fst.h:218-218 Final *)
Definition VF_Final fst (s : Z) : option W := final_weight_ <$> (states_ fst).[s].
(* vector-fst.h:220-220 NumStates *)
Definition VF_NumStates fst : Z := zlen (states_ fst).
(* vector-fst.h:222-222 NumArcs *)
Definition VF_NumArcs fst (s : Z) : option Z := VS_NumArcs <$> (states_ fst).[s].

(** Applies an operation to the state object [states_[s]]. *)
Definition on_state fst (s : Z) (op : VectorState W → option (VectorState W))
    : option (VectorFst W) :=
  st ← (states_ fst).[s];
  st' ← op st;
  l ← (states_ fst).[s <- st'];
  Some (with_states fst l).

(* vector-fst.h:232-232 SetStart *)
Definition Base_SetStart fst (s : Z) : VectorFst W :=
  MkVectorFst (states_ fst) s (properties_ fst) (isymbols_ fst) (osymbols_ fst).
(* vector-fst.h:234-236 SetFinal *)
Definition Base_SetFinal fst (s : Z) (w : W) : option (VectorFst W) :=
  on_state fst s (λ st, Some (VS_SetFinal st w)).
(* vector-fst.h:238-243 AddState *)
Definition Base_AddState fst : VectorFst W * Z :=
  let fst := with_states fst (states_ fst ++ [VectorState_new]) in
  (fst, zlen (states_ fst) - 1).
(* vector-fst.h:245-250 AddStates *)
Definition Base_AddStates fst (n : Z) : VectorFst W :=
  with_states fst (states_ fst ++ replicate (Z.to_nat n) VectorState_new).
(* vector-fst.h:252-256 AddArc *)
Definition Base_AddArc fst (s : Z) (arc : Arc W) : option (VectorFst W) :=
  on_state fst s (λ st, Some (VS_AddArc st arc)).
(* vector-fst.h:309-309 DeleteArcs *)
Definition Base_DeleteArcs fst (s n : Z) : option (VectorFst W) :=
  on_state fst s (λ st, VS_DeleteArcs st n).
(* vector-fst.h:311-311 DeleteArcs *)
Definition Base_DeleteAllArcs fst (s : Z) : option (VectorFst W) :=
  on_state fst s (λ st, Some (VS_DeleteAllArcs st)).
(* vector-fst.h:301-307 DeleteStates *)
Definition Base_DeleteAllStates fst : VectorFst W := Base_SetStart (with_states fst []) kNoStateId.

(** [DeleteStates(dstates)]: the numbering loop, which compacts [states_] in
place, and the loop over the arcs of one state, which compacts them in place. *)

(* vector-fst.h:265-266 DeleteStates *)
Definition mark_deleted (nstates : Z) (dstates : list Z) : option (list Z) :=
  foldM (λ newid d, newid.[d <- kNoStateId]) dstates (vresize nstates 0 []).

(* vector-fst.h:268-276 DeleteStates *)
Definition compact_step (acc : list (VectorState W) * list Z * Z) (state : Z)
    : option (list (VectorState W) * list Z * Z) :=
  let '(states, newid, nstates) := acc in
  id ← newid.[state];
  if negb (id =? kNoStateId) then
    newid ← newid.[state <- nstates];
    states ← (if negb (state =? nstates)
              then st ← states.[state]; states.[nstates <- st] else Some states);
    Some (states, newid, nstates + 1)
  else Some (states, newid, nstates).

(* vector-fst.h:283-293 DeleteStates *)
Definition compact_arcs_step (newid : list Z) (acc : list (Arc W) * Z * Z * Z) (i : Z)
    : option (list (Arc W) * Z * Z * Z) :=
  let '(arcs, narcs, nieps, noeps) := acc in
  arc ← arcs.[i];
  t ← newid.[nextstate arc];
  if negb (t =? kNoStateId) then
    let arc := set_nextstate t arc in
    arcs ← arcs.[i <- arc];
    arcs ← (if negb (i =? narcs) then arcs.[narcs <- arc] else Some arcs);
    Some (arcs, narcs + 1, nieps, noeps)
  else
    Some (arcs, narcs, (if ilabel arc =? 0 then size_dec nieps else nieps),
                       (if olabel arc =? 0 then size_dec noeps else noeps)).

(* vector-fst.h:279-296 DeleteStates *)
Definition compact_arcs (newid : list Z) (st : VectorState W) : option (VectorState W) :=
  '(arcs, narcs, nieps, noeps) ←
    foldM (compact_arcs_step newid) (seqZ 0 (VS_NumArcs st))
      (arcs_ st, 0, niepsilons_ st, noepsilons_ st);
  st ← VS_DeleteArcs (MkState (final_weight_ st) (niepsilons_ st) (noepsilons_ st) arcs)
         (zlen arcs - narcs);
  Some (VS_SetNumEpsilons st nieps noeps).

(* vector-fst.h:263-299 DeleteStates *)
Definition Base_DeleteStates fst (dstates : list Z) : option (VectorFst W) :=
  match dstates with
  | [] => Some fst
  | _ =>
      newid ← mark_deleted (zlen (states_ fst)) dstates;
      '(states, newid, nstates) ←
        foldM compact_step (seqZ 0 (zlen (states_ fst))) (states_ fst, newid, 0);
      states ← mapM (compact_arcs newid) (take (Z.to_nat nstates) states);
      let fst := with_states fst states in
      if negb (start_ fst =? kNoStateId)
      then s ← newid.[start_ fst]; Some (Base_SetStart fst s)
      else Some fst
  end.

(** * VectorFstImpl: the operations that keep the properties *)

(* vector-fst.h:442-442 kStaticProperties *)
Definition kStaticProperties : Z := kExpanded ||| kMutable.

(* vector-fst.h:372-375 VectorFstImpl *)
Definition VectorFst_new : VectorFst W :=
  SetProperties (MkVectorFst [] kNoStateId 0 None None) (kNullProperties ||| kStaticProperties).

(* vector-fst.h:381-384 SetStart *)
Definition SetStart fst (s : Z) : VectorFst W :=
  let fst := Base_SetStart fst s in
  SetProperties fst (SetStartProperties (properties_ fst)).

(* vector-fst.h:386-392 SetFinal *)
Definition SetFinal fst (s : Z) (w : W) : option (VectorFst W) :=
  old_weight ← VF_Final fst s;
  let properties := SetFinalProperties (properties_ fst) old_weight w in
  fst ← Base_SetFinal fst s w;
  Some (SetProperties fst properties).

(* vector-fst.h:394-398 AddState *)
Definition AddState fst : VectorFst W * Z :=
  let '(fst, s) := Base_AddState fst in
  (SetProperties fst (AddStateProperties (properties_ fst)), s).

(* vector-fst.h:400-403 AddStates *)
Definition AddStates fst (n : Z) : VectorFst W :=
  let fst := Base_AddStates fst n in
  SetProperties fst (AddStateProperties (properties_ fst)).

(* vector-fst.h:449-458 UpdatePropertiesAfterAddArc *)
Definition UpdatePropertiesAfterAddArc fst (s : Z) : option (VectorFst W) :=
  vstate ← (states_ fst).[s];
  let num_arcs := VS_NumArcs vstate in
  if negb (num_arcs =? 0) then
    arc ← VS_GetArc vstate (num_arcs - 1);
    parc ← (if num_arcs <? 2 then Some None else Some <$> VS_GetArc vstate (num_arcs - 2));
    Some (SetProperties fst (AddArcProperties (properties_ fst) s arc parc))
  else Some fst.

(* vector-fst.h:405-413 AddArc *)
Definition AddArc fst (s : Z) (arc : Arc W) : option (VectorFst W) :=
  fst ← Base_AddArc fst s arc;
  UpdatePropertiesAfterAddArc fst s.

(* vector-fst.h:421-424 DeleteStates *)
Definition DeleteStates fst (dstates : list Z) : option (VectorFst W) :=
  fst ← Base_DeleteStates fst dstates;
  Some (SetProperties fst (DeleteStatesProperties (properties_ fst))).

(* vector-fst.h:426-429 DeleteStates *)
Definition DeleteAllStates fst : VectorFst W :=
  let fst := Base_DeleteAllStates fst in
  SetProperties fst (DeleteAllStatesProperties (properties_ fst) kStaticProperties).

(* vector-fst.h:431-434 DeleteArcs *)
Definition DeleteArcs fst (s n : Z) : option (VectorFst W) :=
  fst ← Base_DeleteArcs fst s n;
  Some (SetProperties fst (DeleteArcsProperties (properties_ fst))).

(* vector-fst.h:436-439 DeleteArcs *)
Definition DeleteAllArcs fst (s : Z) : option (VectorFst W) :=
  fst ← Base_DeleteAllArcs fst s;
  Some (SetProperties fst (DeleteArcsProperties (properties_ fst))).

(** [MutableArcIterator::SetValue] at position [i] of state [s]. *)

(* vector-fst.h:831-868 SetValue *)
Definition SetValueProperties (properties : Z) (oarc arc : Arc W) : Z :=
  let properties :=
    if negb (ilabel oarc =? olabel oarc) then properties &&& u64_not kNotAcceptor
    else properties in
  let properties :=
    if ilabel oarc =? 0 then
      let properties := properties &&& u64_not kIEpsilons in
      if olabel oarc =? 0 then properties &&& u64_not kEpsilons else properties
    else properties in
  let properties :=
    if olabel oarc =? 0 then properties &&& u64_not kOEpsilons else properties in
  let properties :=
    if wneqb (weight oarc) Zero && wneqb (weight oarc) One
    then properties &&& u64_not kWeighted else properties in
  let properties :=
    if negb (ilabel arc =? olabel arc)
    then (properties ||| kNotAcceptor) &&& u64_not kAcceptor else properties in
  let properties :=
    if ilabel arc =? 0 then
      let properties := (properties ||| kIEpsilons) &&& u64_not kNoIEpsilons in
      if olabel arc =? 0
      then (properties ||| kEpsilons) &&& u64_not kNoEpsilons else properties
    else properties in
  let properties :=
    if olabel arc =? 0
    then (properties ||| kOEpsilons) &&& u64_not kNoOEpsilons else properties in
  let properties :=
    if wneqb (weight arc) Zero && wneqb (weight arc) One
    then (properties ||| kWeighted) &&& u64_not kUnweighted else properties in
  properties &&&
    (kSetArcProperties ||| kAcceptor ||| kNotAcceptor ||| kEpsilons |||
     kNoEpsilons ||| kIEpsilons ||| kNoIEpsilons ||| kOEpsilons |||
     kNoOEpsilons ||| kWeighted ||| kUnweighted).

(* vector-fst.h:831-868 SetValue *)
Definition SetValue fst (s i : Z) (arc : Arc W) : option (VectorFst W) :=
  st ← (states_ fst).[s];
  oarc ← VS_GetArc st i;
  fst' ← on_state fst s (λ st, VS_SetArc st arc i);
  Some (with_properties fst' (SetValueProperties (properties_ fst) oarc arc)).

(** The machine an algorithm sees through the [Fst] interface. *)
(* vector-fst.h:216-216 Start *)
Definition vector_view fst : Fst W := {|
  Start := start_ fst;
  NumStates := VF_NumStates fst;
  Final := λ s, default Zero (VF_Final fst s);
  Arcs := λ s, default [] (arcs_ <$> (states_ fst).[s]);
  FstProperties := properties_ fst;
  InputSymbols := isymbols_ fst;
  OutputSymbols := osymbols_ fst;
|}.

(* vector-fst.h:464-484 VectorFstImpl *)
Definition VectorFst_copy (f : Fst W) : option (VectorFst W) :=
  let fst := MkVectorFst [] kNoStateId 0 None None in
  let fst := SetInputSymbols fst (InputSymbols f) in
  let fst := SetOutputSymbols fst (OutputSymbols f) in
  let fst := Base_SetStart fst (Start f) in
  fst ← foldM (λ fst s,
      let '(fst, _) := Base_AddState fst in
      fst ← Base_SetFinal fst s (Final f s);
      foldM (λ fst arc, Base_AddArc fst s arc) (Arcs f s) fst)
    (seqZ 0 (NumStates f)) fst;
  Some (SetProperties fst ((FstProperties f &&& kCopyProperties) ||| kStaticProperties)).
End vector_fst.
