(* ===== verification/Mutation.v ===== *)
(** Soundness of the property bits under mutation. *)
From S2P Require Import Prelude Weight Properties SymbolTable Fst VectorFst.
From Stdlib Require Import Sorting.Sorted.
Local Open Scope Z_scope.

(** * Evaluating property bits *)

Ltac bit_const :=
  repeat match goal with
  | |- context [pos_bit ?t] =>
      let k := eval vm_compute in (pos_bit t) in change (pos_bit t) with k
  | |- context [neg_bit ?t] =>
      let k := eval vm_compute in (neg_bit t) in change (neg_bit t) with k
  end.

(** Names the intermediate values of a property function. *)
Ltac name_lets :=
  repeat match goal with
  | |- context C [let x := ?e in @?b x] =>
      let y := fresh "props" in
      pose (y := e);
      let t := eval cbv beta in (b y) in
      let g := context C [t] in
      change g
  end.

(** Rewrites [Z.testbit e k] for a property expression [e] and a numeral [k]
down to the bits of the variables in [e], last stage first. *)
Ltac bit_step :=
  match goal with
  | |- context [Z.testbit (Z.lor ?a ?b) ?k] => rewrite (Z.lor_spec a b k)
  | |- context [Z.testbit (Z.land ?a ?b) ?k] => rewrite (Z.land_spec a b k)
  | |- context [Z.testbit (u64_not ?a) ?k] => rewrite (u64_not_spec a k) by lia
  | |- context [Z.testbit (if ?b then ?x else ?y) ?k] => rewrite (testbit_if b x y k)
  | |- context [Z.testbit ?c ?k] =>
      is_const c; let v := eval vm_compute in (Z.testbit c k) in change (Z.testbit c k) with v
  | |- context [has ?p ?m] =>
      is_const m; let k := eval vm_compute in (Z.log2 m) in
      rewrite (has_bit p m k) by (reflexivity || lia)
  | |- context [has ?m ?p] => is_const m; rewrite (has_sym m p)
  | |- context [(?b && true)%bool] => rewrite (andb_true_r b)
  | |- context [(?b && false)%bool] => rewrite (andb_false_r b)
  | |- context [(?b || true)%bool] => rewrite (orb_true_r b)
  | |- context [(?b || false)%bool] => rewrite (orb_false_r b)
  | |- context [if ?b then ?x else ?x] => rewrite (if_same b x)
  | |- context [Z.testbit ?y ?k] => is_var y; unfold y
  end; cbn [andb orb negb].
Ltac bits :=
  bit_const; name_lets;
  repeat match goal with props := _ : bool |- _ => subst props; cbn [andb orb negb] end;
  repeat bit_step;
  repeat match goal with props := _ : Z |- _ => clear props end.

(** For a goal [Sound (F p ..) g] from [Hs : Sound p f]: one goal per bit that
the result may have, with the bit's condition and the facts on [f]. *)
Ltac sound_cases Hs :=
  let t := fresh "t" in
  intros t;
  let Hp := fresh "Hp" in let Hn := fresh "Hn" in
  destruct (Hs t) as [Hp Hn];
  destruct t; revert Hp Hn; bits; intros Hp Hn; (split; [clear Hn|clear Hp]); intros Hbit;
  try discriminate Hbit;
  try first [specialize (Hp Hbit) | specialize (Hn Hbit)].

(** * Properties that only depend on the arcs *)

Section arc_inclusion.
Context `{WeightEq W}.
Implicit Types (f g : Fst W).

Definition arc_in f (s : Z) (a : Arc W) : Prop := valid f s ∧ a ∈ Arcs f s.
Definition arcs_incl f g : Prop := ∀ s a, arc_in f s a → arc_in g s a.
Definition arcs_same f g : Prop := ∀ s a, arc_in f s a ↔ arc_in g s a.

(** Properties that more arcs can only make true, or only make false. *)
Definition arc_monotone (t : trinary) : bool :=
  match t with Epsilons | IEpsilons | OEpsilons | Cyclic | WeightedCycles => true | _ => false end.
Definition arc_antitone (t : trinary) : bool :=
  match t with Acceptor | TopSorted => true | _ => false end.

(** Properties of the arc list of each state. *)
Definition state_property (t : trinary) : option (list (Arc W) → Prop) :=
  match t with
  | IDeterministic => Some (λ l, NoDup (ilabel <$> l))
  | ODeterministic => Some (λ l, NoDup (olabel <$> l))
  | ILabelSorted => Some (λ l, Sorted Z.le (ilabel <$> l))
  | OLabelSorted => Some (λ l, Sorted Z.le (olabel <$> l))
  | _ => None
  end.

Lemma arcs_same_sym f g : arcs_same f g → arcs_same g f.
Proof. intros Hs s a. by rewrite (Hs s a). Qed.

Lemma arcs_same_incl f g : arcs_same f g → arcs_incl f g.
Proof. intros Hs s a. by rewrite (Hs s a). Qed.

Lemma arcs_incl_edge f g s t : arcs_incl f g → edge f s t → edge g s t.
Proof.
  intros Hi (Hv & a & Ha & <-). destruct (Hi s a (conj Hv Ha)) as [? ?].
  split; [done|by exists a].
Qed.

Lemma arcs_incl_rtc f g s t : arcs_incl f g → rtc (edge f) s t → rtc (edge g) s t.
Proof. intros Hi. apply rtc_edge_mono. intros. by eapply arcs_incl_edge. Qed.

Lemma arcs_incl_tc f g s t : arcs_incl f g → tc (edge f) s t → tc (edge g) s t.
Proof. intros Hi. apply tc_edge_mono. intros. by eapply arcs_incl_edge. Qed.

Lemma holds_monotone f g t : arc_monotone t = true → arcs_incl f g → Holds f t → Holds g t.
Proof.
  intros Ht Hi Hh. destruct t; try discriminate Ht; simpl in *;
    try (destruct Hh as (s & a & Hv & Ha & Hr);
         destruct (Hi s a (conj Hv Ha)) as [? ?]; exists s, a; split; [done|split; [done|]]);
    try done.
  - destruct Hh as (s & ?). exists s. by eapply arcs_incl_tc.
  - destruct Hr. split; [done|by eapply arcs_incl_rtc].
Qed.

Lemma holds_antitone f g t : arc_antitone t = true → arcs_incl g f → Holds f t → Holds g t.
Proof.
  intros Ht Hi Hh. destruct t; try discriminate Ht; simpl in *;
    intros s a Hv Ha; destruct (Hi s a (conj Hv Ha)); by apply (Hh s a).
Qed.

Lemma holds_same f g t :
  arc_monotone t || arc_antitone t = true → arcs_same f g → Holds f t → Holds g t.
Proof.
  intros [Ht|Ht]%orb_true_iff Hs; [apply holds_monotone|apply holds_antitone];
    auto using arcs_same_incl, arcs_same_sym.
Qed.

Lemma holds_state f t P : state_property t = Some P → Holds f t ↔ ∀ s, valid f s → P (Arcs f s).
Proof. by destruct t; intros [= <-]. Qed.

Lemma state_property_nil t P : state_property t = Some P → P [].
Proof. destruct t; intros [= <-]; simpl; constructor. Qed.

(** A contiguous part of a state's arcs inherits them. *)
Lemma state_property_app t P l k : state_property t = Some P → P (l ++ k) → P l ∧ P k.
Proof.
  destruct t; intros [= <-]; rewrite fmap_app; intros Hp;
    try (apply NoDup_app in Hp; naive_solver);
    (split; [|by eapply Sorted_app_r]); by eapply Sorted_app_l.
Qed.

Lemma initial_cyclic_mono f g :
  Start f = Start g → arcs_incl f g → Holds f InitialCyclic → Holds g InitialCyclic.
Proof. simpl. intros <- Hi. by apply arcs_incl_tc. Qed.
End arc_inclusion.

(** * Abstract mutations

What each mutation means on the machine, and that the property function the
implementation calls for it keeps the bits true. *)

Section abstract_mutations.
Context `{WeightEq W}.
Implicit Types (f g : Fst W).

Definition abs_add_states f (n : Z) : Fst W :=
  Build_Fst W (Start f) (NumStates f + n) (Final f) (Arcs f)
    (FstProperties f) (InputSymbols f) (OutputSymbols f).
Definition abs_set_start f (s : Z) : Fst W :=
  Build_Fst W s (NumStates f) (Final f) (Arcs f)
    (FstProperties f) (InputSymbols f) (OutputSymbols f).
Definition abs_set_final f (s : Z) (w : W) : Fst W :=
  Build_Fst W (Start f) (NumStates f) (λ x, if decide (x = s) then w else Final f x) (Arcs f)
    (FstProperties f) (InputSymbols f) (OutputSymbols f).
Definition abs_set_arcs f (s : Z) (l : list (Arc W)) : Fst W :=
  Build_Fst W (Start f) (NumStates f) (Final f) (λ x, if decide (x = s) then l else Arcs f x)
    (FstProperties f) (InputSymbols f) (OutputSymbols f).

Lemma nontrivial_Zero : nontrivial (Zero : W) = false.
Proof. unfold nontrivial. by rewrite weqb_Zero_refl. Qed.

Lemma nontrivial_One : nontrivial (One : W) = false.
Proof. unfold nontrivial. by rewrite weqb_One_refl, andb_false_r. Qed.

Lemma not_impl (P Q : Prop) : ¬ P → (Q → P) → ¬ Q.
Proof. tauto. Qed.

Ltac by_same E :=
  (eapply holds_same; [|exact E|eassumption]; reflexivity) ||
  (let Hx := fresh in eapply not_impl; [eassumption|]; intros Hx;
   eapply holds_same; [|apply arcs_same_sym, E|exact Hx]; reflexivity).

(** ** Adding states *)

Lemma abs_add_states_same f n : tight f → 0 ≤ n → arcs_same f (abs_add_states f n).
Proof.
  intros Ht Hn s a. unfold arc_in, valid. simpl. split; intros [Hv Ha].
  - split; [lia|done].
  - split; [by eapply (tight_arcs f s a)|done].
Qed.

Lemma abs_add_states_state f n t (P : list (Arc W) → Prop) :
  tight f → 0 ≤ n → state_property t = Some P → Holds f t ↔ Holds (abs_add_states f n) t.
Proof.
  intros Ht Hn HP. rewrite !(holds_state _ _ P) by done. split; intros Hh s Hv.
  - destruct (decide (0 ≤ s < NumStates f)) as [|Hs]; [by apply Hh|].
    destruct (Ht s Hs) as [_ He]. simpl. rewrite He. by eapply state_property_nil.
  - apply Hh. unfold valid in *. simpl. lia.
Qed.

Lemma abs_add_states_weighted f n :
  tight f → 0 ≤ n → Holds f Weighted ↔ Holds (abs_add_states f n) Weighted.
Proof.
  intros Ht Hn. pose proof (abs_add_states_same f n Ht Hn) as Hs. simpl. unfold some_arc.
  split; (intros [(s & a & Hv & Ha & Hw)|(s & Hv & Hw)];
    [left; exists s, a; apply (conj Hv), Hs in Ha as [? ?]; done|right; exists s]).
  - split; [unfold valid in *; simpl; lia|done].
  - destruct (decide (0 ≤ s < NumStates f)) as [|Hn']; [done|].
    destruct (Ht s Hn') as [He _]. simpl in Hw. by rewrite He, nontrivial_Zero in Hw.
Qed.

Lemma abs_add_states_sound f p n :
  tight f → 0 ≤ n → Sound p f → Sound (AddStateProperties p) (abs_add_states f n).
Proof.
  intros Ht Hn Hs. pose proof (abs_add_states_same f n Ht Hn) as E.
  pose proof (λ t P, abs_add_states_state f n t P Ht Hn) as Est.
  pose proof (abs_add_states_weighted f n Ht Hn) as Ew.
  cbv beta delta [AddStateProperties]. sound_cases Hs; try by_same E;
    try (rewrite <-Est by reflexivity; done); try (rewrite <-Ew; done).
  - eapply initial_cyclic_mono; [|apply arcs_same_incl, E|]; done.
  - eapply not_impl; [done|].
    apply initial_cyclic_mono; [done|apply arcs_same_incl, arcs_same_sym, E].
  - eapply not_impl; [done|]. intros Hacc s Hv.
    eapply arcs_incl_rtc; [apply arcs_same_incl, arcs_same_sym, E|].
    apply Hacc. unfold valid in *. simpl. lia.
  - eapply not_impl; [done|]. intros Hco s Hv.
    destruct (Hco s) as (u & Hr & Hu & Hf); [unfold valid in *; simpl; lia|].
    exists u. split; [eapply arcs_incl_rtc; [apply arcs_same_incl, arcs_same_sym, E|done]|].
    destruct (decide (0 ≤ u < NumStates f)) as [|Hn']; [done|].
    destruct (Ht u Hn') as [He _]. simpl in Hf. by rewrite He, weqb_Zero_refl in Hf.
  - eapply not_impl; [done|]. intros Hstr.
    destruct (decide (n = 0)) as [->|Hn1].
    + eapply (Holds_equiv (abs_add_states f 0)); [|done].
      repeat split; simpl; try done. apply Z.add_0_r.
    + intros Hpos. destruct Hstr as (_ & [_ Hf] & _); simpl in *; [lia|].
      destruct (Ht (NumStates f + n - 1)) as [He _]; [unfold valid; lia|].
      by rewrite He, weqb_Zero_refl in Hf.
Qed.

(** ** Setting the start state and a final weight *)

Lemma abs_set_start_same f s : arcs_same f (abs_set_start f s).
Proof. intros u a. done. Qed.

Lemma rtc_set_start f s u v : rtc (edge f) u v ↔ rtc (edge (abs_set_start f s)) u v.
Proof. split; apply arcs_incl_rtc; by intros ?. Qed.

Lemma abs_set_start_sound f p s :
  Sound p f → Sound (SetStartProperties p) (abs_set_start f s).
Proof.
  intros Hs. pose proof (abs_set_start_same f s) as E.
  pose proof (proj2 (Hs Cyclic)) as Hac. revert Hac. bits. intros Hac.
  cbv beta delta [SetStartProperties]. sound_cases Hs; try by_same E; try done.
  intros Hc. destruct (Z.testbit p 35); [|done]. apply (Hac eq_refl). by exists s.
Qed.

Lemma abs_set_final_same f s w : arcs_same f (abs_set_final f s w).
Proof. intros u a. done. Qed.

Lemma abs_set_final_weighted f s w :
  nontrivial (Final f s) = false → Holds f Weighted → Holds (abs_set_final f s w) Weighted.
Proof.
  intros Hw [?|(u & Hv & Hu)]; [by left|]. right. exists u. split; [done|]. simpl.
  case_decide; [congruence|done].
Qed.

Lemma abs_set_final_unweighted f s w :
  nontrivial w = false → Holds (abs_set_final f s w) Weighted → Holds f Weighted.
Proof.
  intros Hw [?|(u & Hv & Hu)]; [by left|]. right. exists u. split; [done|]. simpl in Hu.
  case_decide; [congruence|done].
Qed.

Lemma abs_set_final_sound f p s w :
  valid f s → Sound p f →
  Sound (SetFinalProperties p (Final f s) w) (abs_set_final f s w).
Proof.
  intros Hv Hs. pose proof (abs_set_final_same f s w) as E.
  cbv beta delta [SetFinalProperties]. fold (nontrivial (Final f s)) (nontrivial w).
  sound_cases Hs; try by_same E; try done.
  - destruct (nontrivial w) eqn:Hw; simpl in Hbit.
    + right. exists s. split; [done|]. simpl. by rewrite decide_True.
    + destruct (nontrivial (Final f s)) eqn:Hold; [done|].
      by apply abs_set_final_weighted, Hp.
  - destruct (nontrivial w) eqn:Hw; simpl in Hbit; [done|].
    intros Hx. by eapply Hn, abs_set_final_unweighted.
Qed.

(** ** Adding an arc *)

Lemma tc_top_sorted f s t : Holds f TopSorted → tc (edge f) s t → s < t.
Proof.
  intros Ht. induction 1 as [s t (Hv & a & Ha & <-)|s u t (Hv & a & Ha & <-) _ IH].
  - by apply (Ht s a).
  - pose proof (Ht s a Hv Ha). simpl in *. lia.
Qed.

Lemma top_sorted_acyclic f : Holds f TopSorted → ¬ Holds f Cyclic.
Proof. intros Ht (s & Hc). pose proof (tc_top_sorted f s s Ht Hc). lia. Qed.

Lemma top_sorted_initial_acyclic f : Holds f TopSorted → ¬ Holds f InitialCyclic.
Proof. intros Ht Hc. apply (top_sorted_acyclic f Ht). by eexists. Qed.

Definition abs_add_arc f (s : Z) (a : Arc W) : Fst W := abs_set_arcs f s (Arcs f s ++ [a]).

Section add_arc.
Context (f : Fst W) (s : Z) (a : Arc W) (Hv : valid f s).
Notation g := (abs_add_arc f s a).

Lemma add_arc_in u b : arc_in g u b ↔ arc_in f u b ∨ (u = s ∧ b = a).
Proof using Hv.
  unfold arc_in, valid. simpl. case_decide as Hu.
  - subst u. rewrite elem_of_snoc. unfold valid in Hv. tauto.
  - naive_solver.
Qed.

Lemma add_arc_incl : arcs_incl f g.
Proof using Hv. intros u b Hb. apply add_arc_in. by left. Qed.

Lemma add_arc_some P :
  some_arc g P ↔ some_arc f P ∨ P s a.
Proof using Hv.
  unfold some_arc. split.
  - intros (u & b & Hb & Hb' & HP).
    destruct (proj1 (add_arc_in u b) (conj Hb Hb')) as [[? ?]|[-> ->]]; eauto 8.
  - intros [(u & b & Hb & Hb' & HP)|HP].
    + exists u, b. destruct (add_arc_incl u b (conj Hb Hb')). eauto.
    + exists s, a. destruct (proj2 (add_arc_in s a)); eauto.
Qed.

Lemma add_arc_all P : all_arcs g P ↔ all_arcs f P ∧ P s a.
Proof using Hv.
  unfold all_arcs. split.
  - intros Hall. split.
    + intros u b Hb Hb'. destruct (add_arc_incl u b (conj Hb Hb')). eauto.
    + destruct (proj2 (add_arc_in s a)); eauto.
  - intros [Hall HP] u b Hb Hb'.
    destruct (proj1 (add_arc_in u b) (conj Hb Hb')) as [[? ?]|[-> ->]]; eauto.
Qed.

Lemma add_arc_state t (P : list (Arc W) → Prop) :
  state_property t = Some P → Holds g t → Holds f t.
Proof.
  intros HP. rewrite !(holds_state _ _ P) by done. intros Hh u Hu.
  specialize (Hh u Hu). simpl in Hh. case_decide as Hd; [|done]. subst.
  by eapply (state_property_app t P) in Hh as [? ?].
Qed.

Lemma add_arc_sorted (lab : Arc W → Z) :
  (∀ b, last (Arcs f s) = Some b → lab b ≤ lab a) →
  (∀ u, valid f u → Sorted Z.le (lab <$> Arcs f u)) →
  ∀ u, valid g u → Sorted Z.le (lab <$> Arcs g u).
Proof.
  intros Hl Hs u Hu. simpl. case_decide; [subst|by apply Hs].
  rewrite fmap_app. apply Sorted_snoc; [by apply Hs|].
  intros y. rewrite fmap_last. intros (b & Hb & ->)%fmap_Some. auto.
Qed.

Lemma add_arc_unsorted (lab : Arc W → Z) b :
  last (Arcs f s) = Some b →
  (∀ u, valid g u → Sorted Z.le (lab <$> Arcs g u)) → lab b ≤ lab a.
Proof using Hv.
  intros Hl Hs. specialize (Hs s Hv). simpl in Hs. rewrite decide_True in Hs by done.
  rewrite fmap_app in Hs. eapply Sorted_snoc_last; [done|].
  by rewrite fmap_last, Hl.
Qed.

Lemma add_arc_top_sorted : s < nextstate a → Holds f TopSorted → Holds g TopSorted.
Proof using Hv. intros. by apply add_arc_all. Qed.

Lemma add_arc_accessible : Holds f Accessible → Holds g Accessible.
Proof using Hv. intros Ha u Hu. apply (arcs_incl_rtc f); [apply add_arc_incl|by apply Ha]. Qed.

Lemma add_arc_coaccessible : Holds f CoAccessible → Holds g CoAccessible.
Proof using Hv.
  intros Ha u Hu. destruct (Ha u Hu) as (v & Hr & Hf). exists v.
  split; [by apply (arcs_incl_rtc f); [apply add_arc_incl|]|done].
Qed.

Lemma add_arc_weighted :
  Holds g Weighted ↔ Holds f Weighted ∨ nontrivial (weight a) = true.
Proof using Hv. simpl. rewrite add_arc_some. unfold is_final. simpl. tauto. Qed.
End add_arc.

Lemma abs_add_arc_sound f p s a :
  valid f s → Sound p f →
  Sound (AddArcProperties p s a (last (Arcs f s))) (abs_add_arc f s a).
Proof.
  intros Hv Hs. pose proof (add_arc_incl f s a Hv) as E.
  pose proof (λ t P, add_arc_state f s a t P) as Est.
  pose proof (proj1 (Hs TopSorted)) as Htop. revert Htop. bits. intros Htop.
  cbv beta delta [AddArcProperties]. fold (nontrivial (weight a)).
  destruct (last (Arcs f s)) as [prev|] eqn:Hlast; sound_cases Hs.
  all: zcases; try discriminate Hbit; try specialize (Hp Hbit); try specialize (Hn Hbit).
  all: try (eapply holds_monotone; [|exact E|exact Hp]; reflexivity).
  all: try (intros Hg; apply Hn; eapply holds_antitone; [|exact E|exact Hg]; reflexivity).
  all: try (intros Hg; apply Hn; eapply Est; [|exact Hg]; reflexivity).
  all: try (eapply initial_cyclic_mono; [|exact E|exact Hp]; reflexivity).
  all: try (by eapply add_arc_accessible); try (by eapply add_arc_coaccessible).
  all: try (intros Hg; apply (add_arc_all f s a Hv) in Hg as [? Hx]; first [done|lia]).
  all: try (intros Hg; apply (add_arc_some f s a Hv) in Hg as [?|Hx]; first [done|lia|by apply Hn]).
  all: try (apply (add_arc_all f s a Hv); split; [exact Hp|first [done|lia]]).
  all: try (apply (add_arc_some f s a Hv); right; split; done).
  all: try (apply (add_arc_some f s a Hv); right; done).
  all: try (apply (add_arc_some f s a Hv); left; done).
  all: try (first [refine (add_arc_sorted f s a ilabel _ Hp) | refine (add_arc_sorted f s a olabel _ Hp)];
            rewrite Hlast; intros ? [=]; subst; lia).
  all: try (intros Hg; first [pose proof (add_arc_unsorted f s a Hv ilabel prev Hlast Hg)
                             |pose proof (add_arc_unsorted f s a Hv olabel prev Hlast Hg)]; lia).
  all: try (destruct (Z.testbit p 38); [|discriminate Hbit];
            first [apply top_sorted_acyclic|apply top_sorted_initial_acyclic];
            apply add_arc_top_sorted; [done|lia|by apply Htop]).
  all: rewrite add_arc_weighted by done;
       destruct (nontrivial (weight a)); auto; try discriminate Hbit.
  all: intros [?|[=]]; by apply Hn.
Qed.

(** ** Deleting arcs and states *)

Lemma abs_delete_arcs_sound f p s l k :
  Arcs f s = l ++ k → Sound p f →
  Sound (DeleteArcsProperties p) (abs_set_arcs f s l).
Proof.
  intros Hl Hs.
  assert (arcs_incl (abs_set_arcs f s l) f) as E.
  { intros u a [Hv Ha]. split; [done|]. simpl in Ha. case_decide; [subst|done].
    rewrite Hl. apply elem_of_app. by left. }
  assert (∀ t (P : list (Arc W) → Prop), state_property t = Some P → Holds f t → Holds (abs_set_arcs f s l) t) as Est.
  { intros t P HP. rewrite !(holds_state _ _ P) by done. intros Hh u Hu. simpl.
    case_decide; [subst|by apply Hh]. specialize (Hh s Hu). rewrite Hl in Hh.
    by apply (state_property_app t P) in Hh as [? ?]. }
  cbv beta delta [DeleteArcsProperties]. sound_cases Hs.
  all: try (eapply holds_antitone; [|exact E|exact Hp]; reflexivity).
  all: try (intros Hg; apply Hn; eapply holds_monotone; [|exact E|exact Hg]; reflexivity).
  all: try (eapply Est; [|exact Hp]; reflexivity).
  - intros [(u & a & Hu & Ha & Hw)|?]; apply Hn; [left|by right].
    destruct (E u a (conj Hu Ha)). by exists u, a.
  - intros Hg. apply Hn. by eapply initial_cyclic_mono; [|exact E|].
  - intros Hg. apply Hn. intros u Hu. by eapply arcs_incl_rtc, Hg.
  - intros Hg. apply Hn. intros u Hu. destruct (Hg u Hu) as (v & Hr & Hf).
    exists v. split; [by eapply arcs_incl_rtc|done].
Qed.

(** The machine without states. *)
Lemma abs_empty_sound f p q :
  NumStates f = 0 → Z.land q kTrinaryProperties = 0 →
  Sound (DeleteAllStatesProperties p q) f.
Proof.
  intros Hn Hq.
  assert (∀ s, ¬ valid f s) as Hv by (unfold valid; lia).
  assert (∀ s t, ¬ edge f s t) as He by (intros s t [? _]; by eapply Hv).
  assert (∀ s t, ¬ tc (edge f) s t) as Ht by (intros s t; destruct 1; by eapply He).
  assert (∀ t, Z.testbit q (pos_bit t) = false ∧ Z.testbit q (neg_bit t) = false) as Hqb.
  { intros t. assert (∀ k, Z.testbit kTrinaryProperties k = true → Z.testbit q k = false) as Hk.
    { intros k Hk. assert (Z.testbit (q &&& kTrinaryProperties) k = false) as Hx
        by (rewrite Hq; apply Z.bits_0).
      rewrite Z.land_spec, Hk, andb_true_r in Hx. done. }
    split; apply Hk; by destruct t. }
  cbv beta delta [DeleteAllStatesProperties].
  intros t. destruct (Hqb t) as [Hq1 Hq2]. destruct t; revert Hq1 Hq2; bits; intros Hq1 Hq2;
    rewrite ?Hq1, ?Hq2; cbn [orb]; split; intros Hbit; try discriminate Hbit; clear Hbit;
    simpl; try (intros s Hs; exfalso; by eapply Hv); try (intros s a Hs; exfalso; by eapply Hv);
    try (intros (s & a & Hs & _); by eapply Hv).
  - intros [(s & a & Hs & _)|(s & Hs & _)]; by eapply Hv.
  - intros (s & Hs). by eapply Ht.
  - by apply Ht.
  - lia.
Qed.

(** Keeping the states [kept], renumbered in their order; arcs to other states
go. *)
Definition renumber_arc (kept : list Z) (a : Arc W) : option (Arc W) :=
  (λ t, set_nextstate t a) <$> index_of kept (nextstate a).
Definition abs_keep_states f (kept : list Z) : Fst W :=
  Build_Fst W (default kNoStateId (index_of kept (Start f))) (zlen kept)
    (λ i, default Zero (Final f <$> kept.[i]))
    (λ i, default [] (omap (renumber_arc kept) ∘ Arcs f <$> kept.[i]))
    (FstProperties f) (InputSymbols f) (OutputSymbols f).

Lemma kept_NoDup kept : StronglySorted Z.lt kept → NoDup kept.
Proof.
  intros Hkept. induction Hkept as [|x l Hl IH Hx]; constructor; [|by apply IH].
  intros Hin. rewrite Forall_forall in Hx. apply Hx in Hin. lia.
Qed.

Lemma kept_mono kept i j s t : StronglySorted Z.lt kept →
  kept.[i] = Some s → kept.[j] = Some t → s < t → i < j.
Proof.
  intros Hkept [Hi Hs]%vget_Some [Hj Ht]%vget_Some Hst.
  destruct (decide (i < j)) as [|Hn]; [done|]. exfalso.
  assert (t ≤ s); [|lia].
  destruct (decide (i = j)) as [->|]; [naive_solver lia|].
  rewrite <-(take_drop (Z.to_nat i) kept) in Hkept.
  eapply Z.lt_le_incl, StronglySorted_app_1_elem_of; [exact Hkept| |].
  - apply list_elem_of_lookup. exists (Z.to_nat j). rewrite lookup_take_lt by lia. done.
  - apply list_elem_of_lookup. exists 0%nat. rewrite lookup_drop. by rewrite Nat.add_0_r.
Qed.

Section keep_states.
Context (f : Fst W) (kept : list Z).
Context (Hnd : NoDup kept) (Hvalid : Forall (valid f) kept).
Notation g := (abs_keep_states f kept).

Lemma kept_state i : valid g i → ∃ s, kept.[i] = Some s ∧ valid f s.
Proof using Hvalid.
  intros Hi. destruct (vget_in_range kept i Hi) as [s Hs]. exists s. split; [done|].
  eapply (Forall_forall (valid f) kept); [done|by eapply vget_elem_of].
Qed.

Lemma keep_arc_in i b :
  arc_in g i b → ∃ s a, kept.[i] = Some s ∧ arc_in f s a ∧
    kept.[nextstate b] = Some (nextstate a) ∧ b = set_nextstate (nextstate b) a.
Proof using Hnd Hvalid.
  intros [Hi Hb]. destruct (kept_state i Hi) as (s & Hs & Hv). simpl in Hb.
  rewrite Hs in Hb. simpl in Hb. apply list_elem_of_omap in Hb as (a & Ha & Hr).
  unfold renumber_arc in Hr. apply fmap_Some in Hr as (t & Ht & ->).
  apply index_of_Some in Ht; [|done]. exists s, a. done.
Qed.

Lemma keep_edge i j : edge g i j →
  ∃ s t, kept.[i] = Some s ∧ kept.[j] = Some t ∧ edge f s t.
Proof using Hnd Hvalid.
  intros (Hi & b & Hb & <-). destruct (keep_arc_in i b (conj Hi Hb)) as (s & a & ? & [? ?] & ? & ?).
  exists s, (nextstate a). split_and!; [done..|]. split; [done|by exists a].
Qed.

Lemma keep_tc i j : tc (edge g) i j →
  ∃ s t, kept.[i] = Some s ∧ kept.[j] = Some t ∧ tc (edge f) s t.
Proof using Hnd Hvalid.
  induction 1 as [i j Hij|i u j Hiu _ (s & t & Hs & Ht & IH)].
  - destruct (keep_edge i j Hij) as (s & t & ? & ? & ?). exists s, t. eauto using tc_once.
  - destruct (keep_edge i u Hiu) as (s' & t' & ? & ? & ?).
    exists s', t. simplify_eq. split_and!; [done..|]. by eapply tc_l.
Qed.

Lemma keep_rtc i j s : rtc (edge g) i j → kept.[i] = Some s →
  ∃ t, kept.[j] = Some t ∧ rtc (edge f) s t.
Proof using Hnd Hvalid.
  intros Hr. revert s. induction Hr as [i|i u j Hiu _ IH]; intros s Hs; [eauto using rtc_refl|].
  destruct (keep_edge i u Hiu) as (s' & t' & ? & ? & ?). simplify_eq.
  destruct (IH t') as (t & ? & ?); [done|]. eauto using rtc_l.
Qed.

Lemma keep_labels (lab : Arc W → Z) l :
  (∀ t a, lab (set_nextstate t a) = lab a) →
  sublist (lab <$> omap (renumber_arc kept) l) (lab <$> l).
Proof.
  intros Hl. induction l as [|a l IH]; simpl; [constructor|].
  unfold renumber_arc at 1. destruct (index_of kept (nextstate a)); simpl.
  - rewrite Hl. by constructor.
  - by constructor.
Qed.
Lemma keep_wf : WellFormed g.
Proof using Hnd Hvalid.
  split; [apply zlen_nonneg|]. split.
  - intros i b Hi Hb. destruct (keep_arc_in i b (conj Hi Hb)) as (?&?&_&_&Hr&_). by eapply vget_range.
  - unfold wf_start. simpl. destruct (index_of kept (Start f)) as [i|] eqn:Hi; [right|by left].
    apply index_of_Some in Hi; [by eapply vget_range|done].
Qed.
End keep_states.

Lemma abs_keep_states_sound f p kept :
  StronglySorted Z.lt kept → Forall (valid f) kept → Sound p f →
  Sound (DeleteStatesProperties p) (abs_keep_states f kept).
Proof.
  intros Hk Hv Hs.
  pose proof (kept_NoDup kept Hk) as Hkd.
  pose proof (keep_arc_in f kept Hkd Hv) as Hin.
  assert (∀ t (P : list (Arc W) → Prop) (lab : Arc W → Z),
    state_property t = Some P → (∀ t a, lab (set_nextstate t a) = lab a) →
    (∀ l k, sublist (lab <$> l) (lab <$> k) → P k → P l) →
    Holds f t → Holds (abs_keep_states f kept) t) as Est.
  { intros t P lab HP Hlab Hmono. rewrite !(holds_state _ _ P) by done. intros Hh i Hi.
    destruct (kept_state f kept Hv i Hi) as (s & Hs' & ?). simpl. rewrite Hs'. simpl.
    eapply Hmono; [by apply keep_labels|by apply Hh]. }
  assert (∀ Q : Arc W → Prop, (∀ t a, Q (set_nextstate t a) → Q a) →
    some_arc (abs_keep_states f kept) (λ _, Q) → some_arc f (λ _, Q)) as Hsome.
  { intros Q HQ (i & b & Hi & Hb & Hq). destruct (Hin i b (conj Hi Hb)) as (s & a & ? & [? ?] & ? & Hba).
    exists s, a. split_and!; [done..|]. eapply HQ. by rewrite <-Hba. }
  cbv beta delta [DeleteStatesProperties]. sound_cases Hs.
  - intros i b Hi Hb. destruct (Hin i b (conj Hi Hb)) as (s & a & ? & [? ?] & ? & ->). by apply (Hp s a).
  - eapply (Est _ _ ilabel); [done|done|simpl; intros l k Hsub Hnd; by eapply sublist_NoDup|done].
  - eapply (Est _ _ olabel); [done|done|simpl; intros l k Hsub Hnd; by eapply sublist_NoDup|done].
  - intros Hg. simpl in Hg. apply Hn. revert Hg. by apply Hsome.
  - intros Hg. simpl in Hg. apply Hn. revert Hg. by apply Hsome.
  - intros Hg. simpl in Hg. apply Hn. revert Hg. by apply Hsome.
  - eapply (Est _ _ ilabel); [done|done|simpl; intros l k Hsub Hnd; by eapply Sorted_le_sublist|done].
  - eapply (Est _ _ olabel); [done|done|simpl; intros l k Hsub Hnd; by eapply Sorted_le_sublist|done].
  - intros [Hg|(i & Hi & Hw)]; apply Hn; [left; revert Hg; by apply Hsome|right].
    destruct (kept_state f kept Hv i Hi) as (s & Hs' & ?). exists s. split; [done|].
    simpl in Hw. by rewrite Hs' in Hw.
  - intros (i & Hc). apply Hn. destruct (keep_tc f kept Hkd Hv i i Hc) as (s & t & ? & ? & ?).
    simplify_eq. by exists s.
  - intros Hc. apply Hn. simpl in Hc.
    destruct (keep_tc f kept Hkd Hv _ _ Hc) as (s & t & Hs1 & Ht1 & Htc). simplify_eq.
    destruct (index_of kept (Start f)) as [i|] eqn:Hi; simpl in *; [|done].
    apply index_of_Some in Hi; [|by apply kept_NoDup]. by simplify_eq.
  - intros i b Hi Hb. destruct (Hin i b (conj Hi Hb)) as (s & a & ? & [? ?] & ? & ->).
    eapply kept_mono; [done..|]. by apply (Hp s a).
  - intros (i & b & Hi & Hb & Hw & Hr).
    destruct (Hin i b (conj Hi Hb)) as (s & a & ? & [? ?] & Hna & Hba).
    apply Hn. exists s, a. split_and!; [done..|by rewrite Hba in Hw|].
    destruct (keep_rtc f kept Hkd Hv _ _ _ Hr Hna) as (t & ? & ?). by simplify_eq.
Qed.
End abstract_mutations.
