(* ===== verification/VectorSound.v ===== *)
(** Correctness of the mutable FST of VectorFst.v: what each operation does to
the machine seen through the [Fst] interface (a refinement of the abstract
mutations of Mutation.v), the in-place compaction of [DeleteStates] against its
specification, the epsilon counters, and the invariant that ties them: after
any sequence of mutations the stored property bits are true. *)
From S2P Require Import Prelude Weight FloatWeight Properties SymbolTable Fst VectorFst Mutation.
Local Open Scope Z_scope.

Section counters.
Context `{WeightOps W}.
Implicit Types (st : VectorState W) (a : Arc W) (l : list (Arc W)).

(** * Epsilon counters *)

Definition count_zero (lab : Arc W → Z) l : Z := zlen (filter (λ a, lab a = 0) l).
Definition counters_exact st : Prop :=
  niepsilons_ st = u64 (count_zero ilabel (arcs_ st)) ∧
  noepsilons_ st = u64 (count_zero olabel (arcs_ st)).

Lemma count_zero_nil lab : count_zero lab [] = 0.
Proof. done. Qed.

Lemma count_zero_app lab l k : count_zero lab (l ++ k) = count_zero lab l + count_zero lab k.
Proof. unfold count_zero. by rewrite filter_app, zlen_app. Qed.

Lemma count_zero_cons lab a l :
  count_zero lab (a :: l) = (if lab a =? 0 then 1 else 0) + count_zero lab l.
Proof.
  unfold count_zero. rewrite filter_cons. destruct (Z.eqb_spec (lab a) 0);
    [rewrite decide_True by done; apply zlen_cons|by rewrite decide_False by done].
Qed.

Lemma size_inc_u64 n : size_inc (u64 n) = u64 (n + 1).
Proof. unfold size_inc, u64. by rewrite Zplus_mod_idemp_l. Qed.

Lemma size_dec_u64 n : size_dec (u64 n) = u64 (n - 1).
Proof. unfold size_dec, u64. by rewrite Zminus_mod_idemp_l. Qed.

(** The counter after one more, or one fewer, arc. *)
Lemma counter_inc lab l a :
  (if lab a =? 0 then size_inc (u64 (count_zero lab l)) else u64 (count_zero lab l)) =
  u64 (count_zero lab (l ++ [a])).
Proof.
  rewrite count_zero_app, count_zero_cons, count_zero_nil, Z.add_0_r.
  destruct (lab a =? 0); [apply size_inc_u64|by rewrite Z.add_0_r].
Qed.

Lemma counter_dec lab l a k :
  (if lab a =? 0 then size_dec (u64 (count_zero lab (l ++ a :: k)))
   else u64 (count_zero lab (l ++ a :: k))) = u64 (count_zero lab (l ++ k)).
Proof.
  rewrite !count_zero_app, count_zero_cons.
  destruct (lab a =? 0); [rewrite size_dec_u64|]; f_equal; lia.
Qed.

Lemma VS_AddArc_counters st a : counters_exact st → counters_exact (VS_AddArc st a).
Proof.
  intros [Hi Ho]. unfold counters_exact, VS_AddArc, VS_IncrementNumEpsilons. simpl.
  by rewrite Hi, Ho, !counter_inc.
Qed.

Lemma VS_PopArc_spec st st' :
  VS_PopArc st = Some st' →
  ∃ a, arcs_ st = arcs_ st' ++ [a] ∧ final_weight_ st' = final_weight_ st ∧
       (counters_exact st → counters_exact st').
Proof.
  unfold VS_PopArc. intros (a & Ha & [= <-])%bind_Some.
  apply last_Some in Ha as [l Hl]. exists a. simpl.
  rewrite Hl, removelast_last. split_and!; [done..|].
  unfold counters_exact. simpl. rewrite Hl. intros [-> ->].
  by rewrite !counter_dec, !app_nil_r.
Qed.

Lemma VS_PopArc_total st : arcs_ st ≠ [] → is_Some (VS_PopArc st).
Proof.
  intros Hne. unfold VS_PopArc. destruct (last (arcs_ st)) eqn:Hl; [by eexists|].
  by apply last_None in Hl.
Qed.

(** [DeleteArcs(n)] drops the last [n] arcs. *)
Lemma VS_DeleteArcs_spec st n st' :
  VS_DeleteArcs st n = Some st' →
  arcs_ st' = take (Z.to_nat (VS_NumArcs st - Z.max 0 n)) (arcs_ st) ∧
  final_weight_ st' = final_weight_ st ∧
  (counters_exact st → counters_exact st').
Proof.
  unfold VS_DeleteArcs, VS_NumArcs. rewrite Z.geb_leb.
  destruct (Z.leb_spec (zlen (arcs_ st)) n) as [Hn|Hn].
  - intros [= <-]. simpl. pose proof (zlen_nonneg (arcs_ st)).
    replace (Z.to_nat _) with 0%nat by lia. split_and!; [done..|]. intros _. by split.
  - intros Hf. eapply (foldM_ind _ (λ done st', 
      arcs_ st' = take (Z.to_nat (zlen (arcs_ st) - zlen done)) (arcs_ st) ∧
      final_weight_ st' = final_weight_ st ∧
      (counters_exact st → counters_exact st'))) in Hf.
    + by rewrite zlen_seqZ in Hf.
    + rewrite zlen_nil, Z.sub_0_r. unfold zlen. rewrite Nat2Z.id, take_ge by lia. done.
    + intros done x todo c c' [-> Hx]%seqZ_split (Ha & Hf' & Hc) Hp.
      apply VS_PopArc_spec in Hp as (a & Hp & Hf'' & Hc').
      split_and!; [|congruence|auto].
      rewrite seqZ_snoc by lia. rewrite zlen_seqZ in *. unfold zlen in *.
      rewrite Hp in Ha. rewrite <-(take_app_length (arcs_ c') [a]), Ha, take_take.
      apply (f_equal length) in Ha. rewrite length_app, length_take in Ha. simpl in Ha.
      f_equal. lia.
Qed.

Lemma VS_DeleteArcs_total st n : is_Some (VS_DeleteArcs st n).
Proof.
  unfold VS_DeleteArcs, VS_NumArcs. rewrite Z.geb_leb. destruct (Z.leb_spec (zlen (arcs_ st)) n); [done|].
  destruct (foldM_total (λ st (_ : Z), VS_PopArc st)
    (λ done st', zlen (arcs_ st') = zlen (arcs_ st) - zlen done) (seqZ 0 n) st)
    as (st' & -> & _); [rewrite zlen_nil; lia| |done].
  intros done x todo c [-> Hx]%seqZ_split Hc.
  rewrite seqZ_snoc, zlen_seqZ by lia. rewrite zlen_seqZ in Hc.
  destruct (VS_PopArc_total c) as [c' Hc'].
  { intros He. rewrite He, zlen_nil in Hc. lia. }
  exists c'. split; [done|]. apply VS_PopArc_spec in Hc' as (a & Ha & _).
  rewrite Ha, zlen_app, zlen_cons, zlen_nil in Hc. lia.
Qed.

Lemma VS_SetArc_spec st a i st' :
  VS_SetArc st a i = Some st' →
  ∃ l b k, arcs_ st = l ++ b :: k ∧ zlen l = i ∧ arcs_ st' = l ++ a :: k ∧
    final_weight_ st' = final_weight_ st ∧ (counters_exact st → counters_exact st').
Proof.
  unfold VS_SetArc, VS_IncrementNumEpsilons. simpl.
  intros (b & Hb & (arcs & Ha & [= <-])%bind_Some)%bind_Some. simpl.
  apply vset_Some in Ha as [Hi ->]. apply vget_Some in Hb as [_ Hb].
  exists (take (Z.to_nat i) (arcs_ st)), b, (drop (S (Z.to_nat i)) (arcs_ st)).
  assert (arcs_ st = take (Z.to_nat i) (arcs_ st) ++ b :: drop (S (Z.to_nat i)) (arcs_ st)) as Hsp
    by (by rewrite take_drop_middle).
  assert (<[Z.to_nat i:=a]> (arcs_ st) = take (Z.to_nat i) (arcs_ st) ++ a :: drop (S (Z.to_nat i)) (arcs_ st)) as Hsp'
    by (apply insert_take_drop; unfold zlen in Hi; lia).
  split_and!; [done| |done|done|].
  - unfold zlen in *. rewrite length_take. lia.
  - unfold counters_exact. simpl. intros [-> ->]. rewrite Hsp'.
    generalize dependent (drop (S (Z.to_nat i)) (arcs_ st)). intros k Hsp Hsp'.
    generalize dependent (take (Z.to_nat i) (arcs_ st)). intros l Hsp Hsp'.
    rewrite !Hsp, !counter_dec, !counter_inc. split; apply (f_equal u64);
      rewrite !count_zero_app, !count_zero_cons, count_zero_nil; lia.
Qed.
End counters.

(** * The in-place compactions of [DeleteStates] *)

Section compaction.
Context `{WeightOps W}.
Implicit Types (st : VectorState W) (a : Arc W) (l : list (Arc W)).

(** The arc loop: what it writes at the front is the list of the kept arcs. *)
Definition renumber (newid : list Z) a : option (Arc W) :=
  t ← newid.[nextstate a]; if t =? kNoStateId then None else Some (set_nextstate t a).

Lemma omap_snoc {A B} (f : A → option B) (l : list A) x :
  omap f (l ++ [x]) = omap f l ++ match f x with Some y => [y] | None => [] end.
Proof. rewrite omap_app. simpl. by destruct (f x). Qed.

Lemma take_snoc_vget {A} (l : list A) i x :
  l.[i] = Some x → take (Z.to_nat (i + 1)) l = take (Z.to_nat i) l ++ [x].
Proof.
  intros [Hi Hx]%vget_Some. rewrite Z2Nat.inj_add by lia.
  rewrite Nat.add_1_r. by apply take_S_r.
Qed.

Lemma length_omap_le {A B} (f : A → option B) (l : list A) : (length (omap f l) ≤ length l)%nat.
Proof. induction l as [|x l IH]; [done|]. cbn. destruct (f x); cbn; [by apply le_n_S|by apply le_S]. Qed.

Lemma length_omap_take {A B} (f : A → option B) (l : list A) n :
  0 ≤ n → zlen (omap f (take (Z.to_nat n) l)) ≤ n.
Proof.
  intros Hn. pose proof (length_omap_le f (take (Z.to_nat n) l)) as Hl.
  rewrite length_take in Hl. unfold zlen. lia.
Qed.

(** The loop invariant after [i] arcs of [l0]. *)
Definition arcs_loop (newid : list Z) l0 (i : Z) (acc : list (Arc W) * Z * Z * Z) : Prop :=
  let '(arcs, narcs, nieps, noeps) := acc in
  let out := omap (renumber newid) (take (Z.to_nat i) l0) in
  zlen arcs = zlen l0 ∧ narcs = zlen out ∧
  (∀ j, 0 ≤ j < narcs → arcs.[j] = out.[j]) ∧
  (∀ j, i ≤ j → arcs.[j] = l0.[j]) ∧
  nieps = u64 (count_zero ilabel (out ++ drop (Z.to_nat i) l0)) ∧
  noeps = u64 (count_zero olabel (out ++ drop (Z.to_nat i) l0)).

Lemma drop_vget {A} (l : list A) i x :
  l.[i] = Some x → drop (Z.to_nat i) l = x :: drop (Z.to_nat (i + 1)) l.
Proof.
  intros [Hi Hx]%vget_Some. rewrite Z2Nat.inj_add by lia. rewrite Nat.add_1_r.
  by apply drop_S.
Qed.

Lemma count_zero_set lab t a out k :
  (∀ a, lab (set_nextstate t a) = lab a) →
  count_zero lab ((out ++ [set_nextstate t a]) ++ k) = count_zero lab (out ++ a :: k).
Proof.
  intros Hl. rewrite !count_zero_app, !count_zero_cons, count_zero_nil, Hl. lia.
Qed.

Lemma compact_arcs_step_loop newid l0 i acc acc' :
  0 ≤ i → arcs_loop newid l0 i acc → compact_arcs_step newid acc i = Some acc' →
  arcs_loop newid l0 (i + 1) acc'.
Proof.
  destruct acc as [[[arcs narcs] nieps] noeps].
  intros Hi (Hlen & Hna & Hout & Hrest & -> & ->) (a & Ha & Hs)%bind_Some.
  rewrite Hrest in Ha by lia. apply bind_Some in Hs as (t & Ht & Hs).
  pose proof (length_omap_take (renumber newid) l0 i Hi) as Hle.
  set (out := omap (renumber newid) (take (Z.to_nat i) l0)) in *.
  rewrite (drop_vget _ _ _ Ha) in Hs.
  assert (omap (renumber newid) (take (Z.to_nat (i + 1)) l0) =
    out ++ if t =? kNoStateId then [] else [set_nextstate t a]) as Hout'.
  { rewrite (take_snoc_vget _ _ _ Ha), omap_snoc. unfold renumber at 2. rewrite Ht. simpl.
    by destruct (t =? kNoStateId). }
  destruct (Z.eqb_spec t kNoStateId) as [->|Hne]; simpl in Hs.
  - injection Hs as <-. unfold arcs_loop. rewrite Hout', app_nil_r.
    split_and!; try done; [intros j ?; apply Hrest; lia|by rewrite counter_dec..].
  - apply bind_Some in Hs as (arcs1 & H1 & (arcs2 & H2 & [= <-])%bind_Some).
    assert (∀ j, arcs2.[j] = if decide (j = narcs) then Some (set_nextstate t a)
                             else if decide (j = i) then arcs1.[j] else arcs.[j]) as Hget.
    { intros j. destruct (Z.eqb_spec i narcs) as [->|Hin]; simpl in H2.
      - injection H2 as <-. rewrite (vget_vset _ _ _ j _ H1).
        repeat case_decide; congruence.
      - rewrite (vget_vset _ _ _ j _ H2), (vget_vset _ _ _ j _ H1).
        repeat case_decide; congruence. }
    assert (zlen arcs2 = zlen arcs) as Hlen2.
    { apply vset_len in H1. destruct (negb _); [apply vset_len in H2; lia|].
      injection H2 as <-. done. }
    unfold arcs_loop. rewrite Hout', zlen_app, zlen_cons, zlen_nil.
    split_and!; [lia|lia| | |by rewrite count_zero_set..].
    + intros j Hj. rewrite Hget, vget_app. case_decide as Hjn.
      * subst j. rewrite decide_False, Hna, Z.sub_diag by lia. done.
      * rewrite !decide_False, decide_True by lia. apply Hout. lia.
    + intros j Hj. rewrite Hget, !decide_False by lia. apply Hrest. lia.
Qed.

Lemma compact_arcs_spec newid st st' :
  counters_exact st → compact_arcs newid st = Some st' →
  arcs_ st' = omap (renumber newid) (arcs_ st) ∧
  final_weight_ st' = final_weight_ st ∧ counters_exact st'.
Proof.
  intros [Hci Hco] Hc. unfold compact_arcs in Hc.
  apply bind_Some in Hc as ([[[arcs narcs] nieps] noeps] & Hf & (st1 & Hd & [= <-])%bind_Some).
  eapply (foldM_ind _ (λ done acc, arcs_loop newid (arcs_ st) (zlen done) acc)) in Hf;
    [| |intros done x todo c c' [-> Hx]%seqZ_split Hc Hs].
  - unfold VS_NumArcs in Hf. rewrite zlen_seqZ, Z.max_r in Hf by apply zlen_nonneg.
    unfold zlen in Hf at 1. destruct Hf as (Hlen & Hna & Hout & _ & -> & ->).
    rewrite Nat2Z.id, take_ge, drop_ge, ?app_nil_r in * by lia.
    apply VS_DeleteArcs_spec in Hd as (Ha & Hfw & _). simpl in *.
    assert (arcs_ st1 = omap (renumber newid) (arcs_ st)) as Harcs.
    { rewrite Ha. unfold VS_NumArcs. simpl.
      pose proof (length_omap_le (renumber newid) (arcs_ st)) as Hle.
      apply vec_eq. intros j Hj. unfold zlen in *.
      destruct (decide (j < narcs)).
      - rewrite <-Hout by lia. unfold vget. rewrite !decide_True by lia.
        apply lookup_take_lt. lia.
      - rewrite (proj2 (vget_None _ _)), (proj2 (vget_None _ _)); [done|..];
          unfold zlen; rewrite ?length_take; lia. }
    unfold counters_exact. simpl. rewrite Harcs. done.
  - simpl. rewrite drop_0. split_and!; try done. intros j ?. lia.
  - rewrite zlen_app, zlen_seqZ, Z.max_r by lia. change (zlen [x]) with 1.
    rewrite zlen_seqZ, Z.max_r in Hc by lia. eapply compact_arcs_step_loop; [lia|done..].
Qed.
End compaction.

(** The numbering loop. *)
Section state_compaction.
Context `{WeightEq W}.
Implicit Types (fst : VectorFst W) (st : VectorState W).

(** The states that stay, in their order. *)
Definition kept_states (n : Z) (dstates : list Z) : list Z :=
  filter (λ s, s ∉ dstates) (seqZ 0 n).

Lemma kept_states_sorted n ds : StronglySorted Z.lt (kept_states n ds).
Proof.
  apply (StronglySorted_sublist _ _ (seqZ 0 n)); [apply sublist_filter|].
  apply StronglySorted_seqZ.
Qed.

Lemma elem_of_kept_states n ds s : s ∈ kept_states n ds ↔ 0 ≤ s < n ∧ s ∉ ds.
Proof. unfold kept_states. rewrite list_elem_of_filter, elem_of_seqZ. naive_solver lia. Qed.

Lemma kept_states_snoc k ds :
  0 ≤ k → kept_states (k + 1) ds = kept_states k ds ++ if decide (k ∈ ds) then [] else [k].
Proof.
  intros Hk. unfold kept_states. rewrite <-seqZ_snoc, filter_app by done. f_equal.
  simpl. rewrite filter_cons, filter_nil. repeat case_decide; naive_solver.
Qed.

Lemma kept_states_le k ds : 0 ≤ k → zlen (kept_states k ds) ≤ k.
Proof.
  intros Hk. unfold kept_states, zlen.
  pose proof (length_filter (λ s, s ∉ ds) (seqZ 0 k)) as Hl.
  rewrite length_seqZ in Hl. lia.
Qed.

Lemma index_of_snoc l x y :
  x ∉ l → index_of (l ++ [x]) y = if decide (y = x) then Some (zlen l) else index_of l y.
Proof.
  intros Hx. unfold index_of. case_decide as Hy.
  - subst. rewrite list_find_app_r; [|].
    + simpl. rewrite decide_True by done. simpl. f_equal; unfold zlen; lia.
    + apply list_find_None, Forall_forall. naive_solver.
  - destruct (list_find (y =.) l) as [[n z]|] eqn:Hf.
    + by erewrite list_find_app_l.
    + rewrite list_find_app_r by done. simpl. by rewrite decide_False.
Qed.

Lemma mark_deleted_spec n ds newid :
  0 ≤ n → mark_deleted n ds = Some newid →
  zlen newid = n ∧
  ∀ i, 0 ≤ i < n → newid.[i] = Some (if decide (i ∈ ds) then kNoStateId else 0).
Proof.
  intros Hn Hm. unfold mark_deleted in Hm.
  eapply (foldM_ind _ (λ done newid, zlen newid = n ∧ ∀ i, 0 ≤ i < n →
    newid.[i] = Some (if decide (i ∈ done) then kNoStateId else 0))) in Hm; [done| |].
  - unfold vresize, zlen. rewrite length_resize. split; [lia|]. intros i Hi.
    rewrite decide_False by apply not_elem_of_nil. unfold vget.
    rewrite decide_True by lia. by rewrite lookup_resize_new by (simpl; lia).
  - intros done d todo c c' _ [Hl Hc] Hs. rewrite (vset_len _ _ _ _ Hs). split; [done|].
    intros i Hi. rewrite (vget_vset _ _ _ i _ Hs). case_decide; [subst|].
    + rewrite decide_True; [done|]. apply elem_of_snoc. by right.
    + rewrite Hc by done. f_equal.
      destruct (decide (i ∈ done)) as [Hd|Hd].
      * rewrite decide_True; [done|]. apply elem_of_snoc. by left.
      * rewrite decide_False; [done|]. rewrite elem_of_snoc. naive_solver.
Qed.

(** The loop invariant after [k] states. *)
Definition states_loop (orig : list (VectorState W)) (ds : list Z) (k : Z)
    (acc : list (VectorState W) * list Z * Z) : Prop :=
  let '(states, newid, nstates) := acc in
  let kept := kept_states k ds in
  zlen states = zlen orig ∧ zlen newid = zlen orig ∧ nstates = zlen kept ∧
  (∀ j, 0 ≤ j < nstates → states.[j] = kept.[j] ≫= λ s, orig.[s]) ∧
  (∀ j, k ≤ j → states.[j] = orig.[j]) ∧
  (∀ j, 0 ≤ j < k → newid.[j] = Some (default kNoStateId (index_of kept j))) ∧
  (∀ j, k ≤ j < zlen orig → newid.[j] = Some (if decide (j ∈ ds) then kNoStateId else 0)).

Lemma compact_step_loop orig ds k acc acc' :
  0 ≤ k < zlen orig → states_loop orig ds k acc → compact_step acc k = Some acc' →
  states_loop orig ds (k + 1) acc'.
Proof.
  destruct acc as [[states newid] nstates].
  intros Hk (Hls & Hln & Hns & Hout & Hrest & Hid & Hid') (id & Hi & Hs)%bind_Some.
  rewrite Hid' in Hi by lia. injection Hi as <-.
  pose proof (kept_states_le k ds) as Hle. unfold states_loop. rewrite kept_states_snoc by lia.
  assert (k ∉ kept_states k ds) as Hnk by (rewrite elem_of_kept_states; lia).
  destruct (decide (k ∈ ds)) as [Hd|Hd]; simpl in Hs.
  - injection Hs as <-. rewrite app_nil_r. split_and!; try done.
    + intros j ?. apply Hrest. lia.
    + intros j ?. destruct (decide (j = k)) as [->|]; [|apply Hid; lia].
      rewrite Hid', decide_True by (done || lia).
      by rewrite (proj2 (index_of_None _ _)).
    + intros j ?. apply Hid'. lia.
  - apply bind_Some in Hs as (newid' & Hn & (states' & Hst & [= <-])%bind_Some).
    assert (zlen states' = zlen states ∧ ∀ j, states'.[j] =
      if decide (j = nstates) then orig.[k] else states.[j]) as [Hls' Hget].
    { destruct (Z.eqb_spec k nstates) as [->|]; simpl in Hst.
      - injection Hst as <-. split; [done|]. intros j. case_decide; [|done]. subst j.
        apply Hrest. lia.
      - apply bind_Some in Hst as (st & Hgk & Hst). split; [by eapply vset_len|].
        intros j. rewrite (vget_vset _ _ _ j _ Hst). rewrite Hrest in Hgk by lia.
        repeat case_decide; congruence. }
    apply vset_len in Hn as Hln'. rewrite zlen_app. change (zlen [k]) with 1.
    split_and!; [lia|lia|lia|..]; intros j Hj.
    + rewrite Hget, vget_app. case_decide as Hjn.
      * subst j. rewrite decide_False, Hns, Z.sub_diag by lia. done.
      * rewrite decide_True by lia. apply Hout. lia.
    + rewrite Hget, decide_False by lia. apply Hrest. lia.
    + rewrite (vget_vset _ _ _ j _ Hn), index_of_snoc by done.
      destruct (decide (k = j)) as [->|]; [by rewrite decide_True, Hns by done|].
      rewrite decide_False by done. apply Hid. lia.
    + rewrite (vget_vset _ _ _ j _ Hn), decide_False by lia. apply Hid'. lia.
Qed.

Lemma compact_states_spec orig ds newid acc :
  mark_deleted (zlen orig) ds = Some newid →
  foldM compact_step (seqZ 0 (zlen orig)) (orig, newid, 0) = Some acc →
  states_loop orig ds (zlen orig) acc.
Proof.
  intros [Hlen Hid]%mark_deleted_spec Hf; [|apply zlen_nonneg].
  eapply (foldM_ind _ (λ done acc, states_loop orig ds (zlen done) acc)) in Hf.
  - by rewrite zlen_seqZ, Z.max_r in Hf by apply zlen_nonneg.
  - change (zlen (@nil Z)) with 0. unfold states_loop. change (kept_states 0 ds) with (@nil Z).
    split_and!; try done; intros j ?; lia.
  - intros done x todo c c' [-> Hx]%seqZ_split Hc Hs.
    rewrite zlen_app, zlen_seqZ, Z.max_r by lia. change (zlen [x]) with 1.
    rewrite zlen_seqZ, Z.max_r in Hc by lia. by eapply compact_step_loop.
Qed.

(** Afterwards the front of [states] holds the kept states. *)
Lemma states_loop_take orig ds states newid nstates i s st :
  states_loop orig ds (zlen orig) (states, newid, nstates) →
  (kept_states (zlen orig) ds).[i] = Some s →
  take (Z.to_nat nstates) states !! Z.to_nat i = Some st → orig.[s] = Some st.
Proof.
  intros (_ & _ & Hns & Hout & _) Hi Ht. pose proof (vget_range _ _ _ Hi) as Hir.
  rewrite lookup_take_lt in Ht by lia.
  assert (states.[i] = Some st) as Hsi by (apply vget_Some; split; [lia|done]).
  rewrite Hout, Hi in Hsi by lia. done.
Qed.

Lemma states_loop_len orig ds states newid nstates :
  states_loop orig ds (zlen orig) (states, newid, nstates) →
  zlen (take (Z.to_nat nstates) states) = zlen (kept_states (zlen orig) ds).
Proof.
  intros (Hls & _ & -> & _).
  pose proof (kept_states_le (zlen orig) ds (zlen_nonneg _)) as Hle.
  unfold zlen in *. rewrite length_take. lia.
Qed.
End state_compaction.

(** * Overwriting an arc *)

Section set_value.
Context `{WeightEq W}.
Context (f : Fst W) (s : Z) (l k : list (Arc W)) (b a : Arc W).
Context (Hv : valid f s) (Hl : Arcs f s = l ++ b :: k).
Notation g := (abs_set_arcs f s (l ++ a :: k)).

Lemma set_value_in u c : arc_in g u c → arc_in f u c ∨ (u = s ∧ c = a).
Proof using Hl.
  unfold arc_in, valid. simpl. case_decide; [subst|tauto].
  rewrite Hl, !elem_of_app, !elem_of_cons. tauto.
Qed.

Lemma set_value_other u c : arc_in f u c → arc_in g u c ∨ (u = s ∧ c = b).
Proof using Hl.
  unfold arc_in, valid. simpl. case_decide; [subst|tauto].
  rewrite Hl, !elem_of_app, !elem_of_cons. tauto.
Qed.

Lemma set_value_new : arc_in g s a.
Proof using Hv.
  split; [done|]. simpl. rewrite decide_True by done. apply elem_of_app. right. left.
Qed.

(** Some arc, when the new arc is one or the old one was not. *)
Lemma set_value_some_l (P : Arc W → Prop) :
  some_arc g (λ _, P) → some_arc f (λ _, P) ∨ P a.
Proof using Hl.
  intros (u & c & Hu & Hc & HP).
  destruct (set_value_in u c (conj Hu Hc)) as [[? ?]|[-> ->]]; [left; by exists u, c|by right].
Qed.

Lemma set_value_some_r (P : Arc W → Prop) :
  some_arc f (λ _, P) → ¬ P b → some_arc g (λ _, P).
Proof using Hl.
  intros (u & c & Hu & Hc & HP) Hb.
  destruct (set_value_other u c (conj Hu Hc)) as [[? ?]|[-> ->]]; [by exists u, c|done].
Qed.

Lemma set_value_some_new (P : Arc W → Prop) : P a → some_arc g (λ _, P).
Proof using Hv. intros HP. destruct set_value_new. by exists s, a. Qed.

Lemma set_value_acceptor : Holds f Acceptor → ilabel a = olabel a → Holds g Acceptor.
Proof using Hl.
  intros Hf Ha u c Hu Hc. destruct (set_value_in u c (conj Hu Hc)) as [[? ?]|[-> ->]]; [|done].
  by apply (Hf u c).
Qed.

Lemma set_value_not_acceptor : ilabel b = olabel b → Holds g Acceptor → Holds f Acceptor.
Proof using Hl.
  intros Hb Hg u c Hu Hc. destruct (set_value_other u c (conj Hu Hc)) as [[? ?]|[-> ->]]; [|done].
  by apply (Hg u c).
Qed.

Lemma set_value_weighted :
  nontrivial (weight b) = false → Holds f Weighted → Holds g Weighted.
Proof using Hl.
  intros Hb [Hs|Hf]; [left|by right]. apply set_value_some_r; [done|]. by rewrite Hb.
Qed.

Lemma set_value_unweighted :
  nontrivial (weight a) = false → Holds g Weighted → Holds f Weighted.
Proof using Hl.
  intros Ha [Hs|Hf]; [left|by right]. apply set_value_some_l in Hs as [?|?]; [done|congruence].
Qed.

Lemma abs_set_value_sound p : Sound p f → Sound (SetValueProperties p b a) g.
Proof using Hl Hv.
  intros Hs. cbv beta delta [SetValueProperties].
  fold (nontrivial (weight a)) (nontrivial (weight b)). sound_cases Hs.
  all: zcases; try discriminate Hbit; try specialize (Hp Hbit); try specialize (Hn Hbit).
  all: try (by apply set_value_acceptor).
  all: try (by intros ?%set_value_not_acceptor).
  all: try (intros Hg; pose proof set_value_new as [? ?]; naive_solver).
  all: try (by apply set_value_some_new).
  all: try (apply set_value_some_r; [exact Hp|tauto]).
  all: try (intros [?|?]%set_value_some_l; tauto).
  all: destruct (nontrivial (weight a)) eqn:Ha, (nontrivial (weight b)) eqn:Hb;
    try discriminate Hbit; cbn in Hbit.
  all: try (left; by apply set_value_some_new).
  all: try (apply set_value_weighted; by auto).
  all: try (intros Hg; apply Hn; [done|]; by apply set_value_unweighted).
Qed.
End set_value.

(** * Refinement: what the operations do to the machine *)

(** The mutations of [MutableFst]. *)
Inductive mutation (W : Type) :=
  | MSetStart (s : Z)
  | MSetFinal (s : Z) (w : W)
  | MAddState
  | MAddStates (n : Z)
  | MAddArc (s : Z) (a : Arc W)
  | MDeleteStates (dstates : list Z)
  | MDeleteAllStates
  | MDeleteArcs (s n : Z)
  | MDeleteAllArcs (s : Z)
  | MSetValue (s i : Z) (a : Arc W).
Arguments MSetStart {_} _.
Arguments MSetFinal {_} _ _.
Arguments MAddState {_}.
Arguments MAddStates {_} _.
Arguments MAddArc {_} _ _.
Arguments MDeleteStates {_} _.
Arguments MDeleteAllStates {_}.
Arguments MDeleteArcs {_} _ _.
Arguments MDeleteAllArcs {_} _.
Arguments MSetValue {_} _ _ _.

Section refinement.
Context `{WeightEq W}.
Implicit Types (fst : VectorFst W) (st : VectorState W) (f g : Fst W) (m : mutation W).

(** The implementation's step, and the step of the specification. *)
Definition mutate fst m : option (VectorFst W) :=
  match m with
  | MSetStart s => Some (SetStart fst s)
  | MSetFinal s w => SetFinal fst s w
  | MAddState => Some (AddState fst).1
  | MAddStates n => Some (AddStates fst n)
  | MAddArc s a => AddArc fst s a
  | MDeleteStates ds => DeleteStates fst ds
  | MDeleteAllStates => Some (DeleteAllStates fst)
  | MDeleteArcs s n => DeleteArcs fst s n
  | MDeleteAllArcs s => DeleteAllArcs fst s
  | MSetValue s i a => SetValue fst s i a
  end.

Definition abs_mutate f m : Fst W :=
  match m with
  | MSetStart s => abs_set_start f s
  | MSetFinal s w => abs_set_final f s w
  | MAddState => abs_add_states f 1
  | MAddStates n => abs_add_states f (Z.max 0 n)
  | MAddArc s a => abs_add_arc f s a
  | MDeleteStates [] => f
  | MDeleteStates ds => abs_keep_states f (kept_states (NumStates f) ds)
  | MDeleteAllStates => abs_keep_states f []
  | MDeleteArcs s n =>
      abs_set_arcs f s (take (Z.to_nat (zlen (Arcs f s) - Z.max 0 n)) (Arcs f s))
  | MDeleteAllArcs s => abs_set_arcs f s []
  | MSetValue s i a => abs_set_arcs f s (<[Z.to_nat i := a]> (Arcs f s))
  end.

Lemma vector_view_tight fst : tight (vector_view fst).
Proof.
  intros s Hs. simpl. unfold VF_Final.
  assert ((states_ fst).[s] = None) as ->; [|done].
  apply vget_None. unfold valid in Hs. simpl in Hs. unfold VF_NumStates in Hs. lia.
Qed.

Lemma on_state_spec fst s op fst' :
  on_state fst s op = Some fst' →
  ∃ st st', (states_ fst).[s] = Some st ∧ op st = Some st' ∧
    fst' = with_states fst (states_ fst') ∧ zlen (states_ fst') = zlen (states_ fst) ∧
    ∀ j, (states_ fst').[j] = if decide (j = s) then Some st' else (states_ fst).[j].
Proof.
  unfold on_state. intros (st & Hst & (st' & Hop & (l & Hl & [= <-])%bind_Some)%bind_Some)%bind_Some.
  exists st, st'. simpl. split_and!; [done..|by eapply vset_len|].
  intros j. rewrite (vget_vset _ _ _ j _ Hl). repeat case_decide; congruence.
Qed.

Lemma on_state_total fst s op :
  0 ≤ s < zlen (states_ fst) → (∀ st, is_Some (op st)) → is_Some (on_state fst s op).
Proof.
  intros Hs Hop. unfold on_state. destruct (vget_in_range _ _ Hs) as [st ->]. simpl.
  destruct (Hop st) as [st' ->]. simpl. rewrite vset_is_Some by done. simpl. by eexists.
Qed.

(** What an operation on one state object means for the machine. *)
Lemma on_state_arcs fst s op fst' st l :
  on_state fst s op = Some fst' → (states_ fst).[s] = Some st →
  (∀ st', op st = Some st' → arcs_ st' = l ∧ final_weight_ st' = final_weight_ st) →
  valid (vector_view fst) s ∧ Arcs (vector_view fst) s = arcs_ st ∧
  vector_view fst' ≡ abs_set_arcs (vector_view fst) s l.
Proof.
  intros Ho Hst Hop. destruct (on_state_spec _ _ _ _ Ho) as (st0 & st' & Hst0 & Hop' & He & Hlen & Hget).
  simplify_eq. destruct (Hop _ Hop') as [Ha Hf]. split_and!.
  - by eapply vget_range.
  - simpl. by rewrite Hst.
  - repeat split; simpl.
    + by rewrite He.
    + done.
    + intros j. unfold VF_Final. rewrite Hget. case_decide; [subst j|done].
      rewrite Hst. simpl. congruence.
    + intros j. rewrite Hget. case_decide; simpl; congruence.
Qed.

Lemma on_state_final fst s w fst' :
  on_state fst s (λ st, Some (VS_SetFinal st w)) = Some fst' →
  valid (vector_view fst) s ∧ vector_view fst' ≡ abs_set_final (vector_view fst) s w.
Proof.
  intros Ho. destruct (on_state_spec _ _ _ _ Ho) as (st & st' & Hst & [= <-] & He & Hlen & Hget).
  split; [by eapply vget_range|]. repeat split; simpl.
  - by rewrite He.
  - done.
  - intros j. unfold VF_Final. rewrite Hget. by case_decide.
  - intros j. rewrite Hget. case_decide; [subst|done]. by rewrite Hst.
Qed.

Lemma view_with_properties fst p : vector_view (with_properties fst p) ≡ vector_view fst.
Proof. by repeat split. Qed.

Lemma view_SetProperties fst p : vector_view (SetProperties fst p) ≡ vector_view fst.
Proof. by repeat split. Qed.

Lemma Base_AddStates_view fst n :
  vector_view (Base_AddStates fst n) ≡ abs_add_states (vector_view fst) (Z.max 0 n).
Proof.
  assert (∀ (j : Z), (states_ fst ++ replicate (Z.to_nat n) VectorState_new).[j] =
    if decide (j < zlen (states_ fst)) then (states_ fst).[j]
    else if decide (j < zlen (states_ fst) + Z.max 0 n) then Some VectorState_new else None) as Hget.
  { intros j. rewrite vget_app. case_decide; [done|].
    unfold vget. rewrite decide_True by lia. case_decide.
    - apply lookup_replicate_2. lia.
    - apply lookup_replicate_None. lia. }
  repeat split; simpl.
  - unfold VF_NumStates. simpl. rewrite zlen_app. f_equal.
    unfold zlen. rewrite length_replicate. lia.
  - intros s. unfold VF_Final. simpl. rewrite Hget. case_decide; [done|].
    rewrite (proj2 (vget_None (states_ fst) s)) by lia. by case_decide.
  - intros s. rewrite Hget. case_decide; [done|].
    rewrite (proj2 (vget_None (states_ fst) s)) by lia. by case_decide.
Qed.

Definition all_counters fst : Prop := Forall counters_exact (states_ fst).

Lemma renumber_kept newid kept n (a : Arc W) :
  zlen newid = n → (∀ s, s ∈ kept → 0 ≤ s < n) → NoDup kept →
  (∀ j, 0 ≤ j < n → newid.[j] = Some (default kNoStateId (index_of kept j))) →
  renumber newid a = renumber_arc kept a.
Proof.
  intros Hl Hk Hnd Hid. unfold renumber, renumber_arc.
  destruct (decide (0 ≤ nextstate a < n)) as [Hn|Hn].
  - rewrite Hid by done. simpl. destruct (index_of kept (nextstate a)) as [t|] eqn:Ht; simpl; [|done].
    apply index_of_Some, vget_range in Ht; [|done].
    destruct (Z.eqb_spec t kNoStateId); [unfold kNoStateId in *; lia|done].
  - rewrite (proj2 (vget_None newid _)) by lia. simpl.
    rewrite (proj2 (index_of_None _ _)); [done|]. intros ?%Hk. lia.
Qed.

(** What the two loops and the start state together compute. *)
Lemma Base_DeleteStates_spec fst ds fst' :
  ds ≠ [] → all_counters fst → Base_DeleteStates fst ds = Some fst' →
  let kept := kept_states (zlen (states_ fst)) ds in
  fst' = Base_SetStart (with_states fst (states_ fst')) (default kNoStateId (index_of kept (start_ fst))) ∧
  zlen (states_ fst') = zlen kept ∧ all_counters fst' ∧
  ∀ i s, kept.[i] = Some s → ∃ st st', (states_ fst).[s] = Some st ∧
    (states_ fst').[i] = Some st' ∧ final_weight_ st' = final_weight_ st ∧
    arcs_ st' = omap (renumber_arc kept) (arcs_ st).
Proof.
  intros Hne Hcnt Hd kept. unfold Base_DeleteStates in Hd. destruct ds as [|d ds]; [done|].
  set (dstates := d :: ds) in *.
  apply bind_Some in Hd as (newid0 & Hm & ([[states newid] nstates] & Hf & Hd)%bind_Some).
  apply bind_Some in Hd as (states' & Hstates%mapM_Some & Hstart).
  pose proof (compact_states_spec _ _ _ _ Hm Hf) as Hloop.
  pose proof Hloop as (_ & Hln & _ & _ & _ & Hid & _).
  assert (∀ s, s ∈ kept → 0 ≤ s < zlen (states_ fst)) as Hkin
    by (intros s Hs%elem_of_kept_states; naive_solver).
  assert (fst' = Base_SetStart (with_states fst states') (default kNoStateId (index_of kept (start_ fst)))) as ->.
  { simpl in Hstart. destruct (Z.eqb_spec (start_ fst) kNoStateId) as [He|He]; simpl in Hstart.
    - injection Hstart as <-. rewrite (proj2 (index_of_None _ _)); [by destruct fst; simpl in *; subst|].
      intros ?%Hkin. unfold kNoStateId in *. lia.
    - apply bind_Some in Hstart as (t & Ht & [= <-]).
      rewrite Hid in Ht by (apply vget_range in Ht; lia). by injection Ht as <-. }
  assert (zlen states' = zlen kept) as Hlen'.
  { transitivity (zlen (take (Z.to_nat nstates) states)); [|by eapply states_loop_len]. unfold zlen. by rewrite (Forall2_length _ _ _ Hstates). }
  assert (∀ i s, kept.[i] = Some s → ∃ st st', (states_ fst).[s] = Some st ∧
    states'.[i] = Some st' ∧ counters_exact st' ∧ final_weight_ st' = final_weight_ st ∧
    arcs_ st' = omap (renumber_arc kept) (arcs_ st)) as Hget.
  { intros i s Hi. destruct (vget_in_range states' i) as [st' Hst'];
      [rewrite Hlen'; by eapply vget_range|].
    apply vget_Some in Hst' as Hst0. destruct Hst0 as [_ Hst0].
    destruct (Forall2_lookup_r _ _ _ _ _ Hstates Hst0) as (st & Hst & Hca).
    eapply states_loop_take in Hst; [|done..].
    apply compact_arcs_spec in Hca as (Ha & ? & ?);
      [|eapply Forall_forall; [exact Hcnt|by eapply vget_elem_of]].
    exists st, st'. split_and!; [done..|]. rewrite Ha. apply list_omap_ext, Forall_Forall2_diag, Forall_forall. intros a _.
    apply (renumber_kept _ _ (zlen (states_ fst))); [done|done|apply kept_NoDup, kept_states_sorted|done]. }
  simpl. split_and!; [done|done| |].
  - apply Forall_forall. intros st' (i & Hi)%elem_of_vget. simpl in Hi.
    destruct (vget_in_range kept i) as [s Hs]; [apply vget_range in Hi; lia|].
    destruct (Hget i s Hs) as (st & st'' & ? & ? & ? & _). by simplify_eq.
  - intros i s Hi. destruct (Hget i s Hi) as (st & st' & ? & ? & _ & ? & ?). by exists st, st'.
Qed.

Lemma Base_DeleteStates_view fst ds fst' :
  all_counters fst → Base_DeleteStates fst ds = Some fst' →
  vector_view fst' ≡ abs_mutate (vector_view fst) (MDeleteStates ds) ∧ all_counters fst'.
Proof.
  intros Hc Hd. destruct ds as [|d ds]; [by injection Hd as <-|].
  apply Base_DeleteStates_spec in Hd as (-> & Hlen & Hc' & Hget); [|done..].
  split; [|done]. set (kept := kept_states _ _) in *. simpl in Hlen, Hget. repeat split; simpl.
  - done.
  - intros i. unfold VF_Final. simpl. change (kept_states (VF_NumStates fst) (d :: ds)) with kept. destruct (kept.[i]) as [s|] eqn:Hi.
    + destruct (Hget i s Hi) as (st & st' & Hst & Hst' & Hf & _).
      rewrite Hst'. simpl. by rewrite Hst, Hf.
    + rewrite (proj2 (vget_None _ i)); [done|]. apply vget_None in Hi. lia.
  - intros i. change (kept_states (VF_NumStates fst) (d :: ds)) with kept. destruct (kept.[i]) as [s|] eqn:Hi.
    + destruct (Hget i s Hi) as (st & st' & Hst & Hst' & _ & Ha).
      rewrite Hst'. simpl. by rewrite Hst, Ha.
    + rewrite (proj2 (vget_None _ i)); [done|]. apply vget_None in Hi. lia.
Qed.

Lemma UpdatePropertiesAfterAddArc_spec fst s st l a :
  (states_ fst).[s] = Some st → arcs_ st = l ++ [a] →
  UpdatePropertiesAfterAddArc fst s =
    Some (SetProperties fst (AddArcProperties (properties_ fst) s a (last l))).
Proof.
  intros Hst Hl. unfold UpdatePropertiesAfterAddArc, VS_NumArcs, VS_GetArc.
  rewrite Hst. simpl. rewrite Hl, zlen_app. change (zlen [a]) with 1.
  pose proof (zlen_nonneg l).
  destruct (Z.eqb_spec (zlen l + 1) 0); [lia|]. simpl.
  assert ((l ++ [a]).[zlen l + 1 - 1] = Some a) as ->.
  { rewrite vget_app, decide_False by lia. by replace (zlen l + 1 - 1 - zlen l) with 0 by lia. }
  simpl.
  destruct (Z.ltb_spec (zlen l + 1) 2) as [Hl2|Hl2]; simpl.
  - destruct l; [done|]. unfold zlen in *. simpl in *. lia.
  - rewrite vget_app, decide_True by lia.
    replace (l.[zlen l + 1 - 2]) with (last l); [destruct (last l) eqn:Hla; [done|]|].
    + apply last_None in Hla as ->. unfold zlen in *. simpl in *. lia.
    + rewrite last_lookup. unfold vget. rewrite decide_True by lia. f_equal. unfold zlen. lia.
Qed.

Lemma on_state_counters fst s op fst' :
  all_counters fst → on_state fst s op = Some fst' →
  (∀ st st', op st = Some st' → counters_exact st → counters_exact st') →
  all_counters fst'.
Proof.
  intros Hc Ho Hop. destruct (on_state_spec _ _ _ _ Ho) as (st & st' & Hst & Hop' & _ & _ & Hget).
  apply Forall_forall. intros x (i & Hi)%elem_of_vget. rewrite Hget in Hi.
  unfold all_counters in Hc. rewrite Forall_forall in Hc.
  case_decide; simplify_eq; [eapply Hop; [done|]|]; by eapply Hc, vget_elem_of.
Qed.

(** ** One operation *)

Lemma SetFinal_inv fst s w fst' :
  SetFinal fst s w = Some fst' →
  ∃ fst1, on_state fst s (λ st, Some (VS_SetFinal st w)) = Some fst1 ∧
    valid (vector_view fst) s ∧
    fst' = SetProperties fst1 (SetFinalProperties (properties_ fst) (Final (vector_view fst) s) w).
Proof.
  unfold SetFinal, VF_Final. intros (old & Hold & (fst1 & H1 & [= <-])%bind_Some)%bind_Some.
  exists fst1. split_and!; [done|by eapply on_state_final|]. simpl. unfold VF_Final. by rewrite Hold.
Qed.

Lemma AddArc_inv fst s a fst' :
  AddArc fst s a = Some fst' →
  ∃ fst1, on_state fst s (λ st, Some (VS_AddArc st a)) = Some fst1 ∧
    valid (vector_view fst) s ∧ vector_view fst1 ≡ abs_add_arc (vector_view fst) s a ∧
    fst' = SetProperties fst1 (AddArcProperties (properties_ fst) s a (last (Arcs (vector_view fst) s))).
Proof.
  unfold AddArc, Base_AddArc. intros (fst1 & H1 & Hu)%bind_Some. exists fst1.
  destruct (on_state_spec _ _ _ _ H1) as (st & st' & Hst & [= <-] & He & _ & Hget).
  destruct (on_state_arcs fst s _ fst1 st (arcs_ st ++ [a]) H1 Hst) as (Hv & Ha & Hview).
  { by intros st' [= <-]. }
  split_and!; [done..| |].
  - rewrite Hview. unfold abs_add_arc. by rewrite Ha.
  - rewrite (UpdatePropertiesAfterAddArc_spec fst1 s (VS_AddArc st a) (arcs_ st) a) in Hu;
      [|by rewrite Hget, decide_True|done].
    injection Hu as <-. simpl. rewrite Hst. simpl. by rewrite He at 2.
Qed.

Lemma DeleteArcs_inv fst s n fst' :
  DeleteArcs fst s n = Some fst' →
  ∃ fst1, on_state fst s (λ st, VS_DeleteArcs st n) = Some fst1 ∧
    valid (vector_view fst) s ∧ vector_view fst1 ≡ abs_mutate (vector_view fst) (MDeleteArcs s n) ∧
    fst' = SetProperties fst1 (DeleteArcsProperties (properties_ fst)).
Proof.
  unfold DeleteArcs, Base_DeleteArcs. intros (fst1 & H1 & [= <-])%bind_Some. exists fst1.
  destruct (on_state_spec _ _ _ _ H1) as (st & st' & Hst & Hop & He & _ & _).
  destruct (on_state_arcs fst s _ fst1 st (arcs_ st') H1 Hst) as (Hv & Ha & Hview).
  { intros st1 H1'. simplify_eq. split; [done|]. by eapply VS_DeleteArcs_spec. }
  apply VS_DeleteArcs_spec in Hop as (Htake & _).
  split_and!; [done..| |by rewrite He].
  rewrite Hview. simpl. by rewrite Hst, Htake.
Qed.

Lemma DeleteAllArcs_inv fst s fst' :
  DeleteAllArcs fst s = Some fst' →
  ∃ fst1, on_state fst s (λ st, Some (VS_DeleteAllArcs st)) = Some fst1 ∧
    valid (vector_view fst) s ∧ vector_view fst1 ≡ abs_mutate (vector_view fst) (MDeleteAllArcs s) ∧
    fst' = SetProperties fst1 (DeleteArcsProperties (properties_ fst)).
Proof.
  unfold DeleteAllArcs, Base_DeleteAllArcs. intros (fst1 & H1 & [= <-])%bind_Some. exists fst1.
  destruct (on_state_spec _ _ _ _ H1) as (st & st' & Hst & Hop & He & _ & _).
  destruct (on_state_arcs fst s _ fst1 st [] H1 Hst) as (Hv & Ha & Hview).
  { by intros st1 [= <-]. }
  split_and!; [done..|by rewrite He].
Qed.

Lemma SetValue_inv fst s i a fst' :
  SetValue fst s i a = Some fst' →
  ∃ fst1 l b k, on_state fst s (λ st, VS_SetArc st a i) = Some fst1 ∧
    valid (vector_view fst) s ∧ Arcs (vector_view fst) s = l ++ b :: k ∧ zlen l = i ∧
    vector_view fst1 ≡ abs_set_arcs (vector_view fst) s (l ++ a :: k) ∧
    fst' = with_properties fst1 (SetValueProperties (properties_ fst) b a).
Proof.
  unfold SetValue, VS_GetArc.
  intros (st & Hst & (b' & Hb & (fst1 & H1 & [= <-])%bind_Some)%bind_Some)%bind_Some.
  destruct (on_state_spec _ _ _ _ H1) as (st0 & st' & Hst0 & Hop & He & _ & _).
  assert (st0 = st) as -> by congruence.
  destruct (VS_SetArc_spec _ _ _ _ Hop) as (l & b & k & Hl & Hi & Hl' & Hf & _).
  destruct (on_state_arcs fst s _ fst1 st (l ++ a :: k) H1 Hst) as (Hv & Ha & Hview).
  { intros st1 H1'. by simplify_eq. }
  assert (b' = b) as ->.
  { rewrite Hl, vget_app, decide_False, Hi, Z.sub_diag in Hb by lia. by injection Hb. }
  exists fst1, l, b, k. split_and!; try done. by rewrite Ha.
Qed.

Lemma Sound_SetProperties fst f p : Sound p f → Sound (properties_ (SetProperties fst p)) f.
Proof.
  intros Hs t. destruct (Hs t) as [Hp Hn]. simpl. destruct t; revert Hp Hn; bits; intros Hp Hn; done.
Qed.

(** Every operation refines its specification and keeps the counters and the
truth of the property bits. *)
Lemma mutate_spec fst m fst' :
  all_counters fst → mutate fst m = Some fst' →
  vector_view fst' ≡ abs_mutate (vector_view fst) m ∧ all_counters fst' ∧
  (SoundFst (vector_view fst) → SoundFst (vector_view fst')).
Proof.
  intros Hc Hm. pose proof (vector_view_tight fst) as Ht. unfold SoundFst. simpl.
  destruct m as [s|s w| |n|s a|ds| |s n|s|s i a]; simpl in Hm.
  - injection Hm as <-.
    assert (vector_view (SetStart fst s) ≡ abs_set_start (vector_view fst) s) as Hview by by repeat split.
    rewrite Hview. split_and!; [done|done|]. intros Hs. by apply Sound_SetProperties, abs_set_start_sound.
  - destruct (SetFinal_inv _ _ _ _ Hm) as (fst1 & H1 & Hv & ->).
    pose proof (on_state_final _ _ _ _ H1) as [_ Hview].
    rewrite view_SetProperties, Hview. split_and!; [done| |].
    + by eapply (on_state_counters _ _ _ _ Hc H1); intros st st' [= <-].
    + intros Hs. by apply Sound_SetProperties, abs_set_final_sound.
  - injection Hm as <-.
    change (AddState fst).1 with
      (SetProperties (Base_AddStates fst 1) (AddStateProperties (properties_ fst))).
    rewrite view_SetProperties, (Base_AddStates_view fst 1).
    split_and!; [done| |].
    + apply Forall_app. split; [done|]. by repeat constructor.
    + intros Hs. by apply Sound_SetProperties, (abs_add_states_sound _ _ 1).
  - injection Hm as <-.
    unfold AddStates. rewrite view_SetProperties, (Base_AddStates_view fst n).
    split_and!; [done| |].
    + apply Forall_app. split; [done|]. by apply Forall_replicate.
    + intros Hs. apply Sound_SetProperties, abs_add_states_sound; [done|lia|done].
  - destruct (AddArc_inv _ _ _ _ Hm) as (fst1 & H1 & Hv & Hview & ->).
    rewrite view_SetProperties, Hview. split_and!; [done| |].
    + eapply (on_state_counters _ _ _ _ Hc H1). intros st st' [= <-]. apply VS_AddArc_counters.
    + intros Hs. by apply Sound_SetProperties, abs_add_arc_sound.
  - unfold DeleteStates in Hm. apply bind_Some in Hm as (fst1 & H1 & [= <-]).
    destruct (Base_DeleteStates_view _ _ _ Hc H1) as [Hview Hc'].
    rewrite view_SetProperties, Hview. split_and!; [done|done|].
    assert (properties_ fst1 = properties_ fst) as ->.
    { destruct ds; [by injection H1 as ->|].
      by apply Base_DeleteStates_spec in H1 as (-> & _). }
    intros Hs. apply Sound_SetProperties. destruct ds as [|d ds]; simpl.
    + cbv beta delta [DeleteStatesProperties]. sound_cases Hs; done.
    + apply abs_keep_states_sound; [apply kept_states_sorted| |done].
      apply Forall_forall. intros s [? _]%elem_of_kept_states. done.
  - injection Hm as <-. unfold DeleteAllStates. rewrite view_SetProperties. split_and!.
    + assert (∀ (A : Type) i, (@nil A).[i] = None) as Hnil
        by (intros A i; apply vget_None; unfold zlen; simpl; lia).
      repeat split; simpl; intros i; [unfold VF_Final; simpl|]; by rewrite !Hnil.
    + constructor.
    + intros _. by apply Sound_SetProperties, abs_empty_sound.
  - destruct (DeleteArcs_inv _ _ _ _ Hm) as (fst1 & H1 & Hv & Hview & ->).
    rewrite view_SetProperties, Hview. split_and!; [done| |].
    + eapply (on_state_counters _ _ _ _ Hc H1). intros st st' Hd. by eapply VS_DeleteArcs_spec.
    + intros Hs. apply Sound_SetProperties. eapply abs_delete_arcs_sound; [|done]. by rewrite take_drop.
  - destruct (DeleteAllArcs_inv _ _ _ Hm) as (fst1 & H1 & Hv & Hview & ->).
    rewrite view_SetProperties, Hview. split_and!; [done| |].
    + eapply (on_state_counters _ _ _ _ Hc H1). by intros st st' [= <-].
    + intros Hs. apply Sound_SetProperties. by eapply (abs_delete_arcs_sound _ _ _ []).
  - destruct (SetValue_inv _ _ _ _ _ Hm) as (fst1 & l & b & k & H1 & Hv & Hl & Hi & Hview & ->).
    rewrite view_with_properties, Hview. split_and!.
    + simpl in *. rewrite Hl. unfold zlen in Hi. rewrite <-Hi, Nat2Z.id.
      rewrite insert_app_r_alt, Nat.sub_diag by lia. done.
    + eapply (on_state_counters _ _ _ _ Hc H1). intros st st' Ho. destruct (VS_SetArc_spec _ _ _ _ Ho) as (?&?&?&?&?&?&?&?). done.
    + intros Hs. by apply abs_set_value_sound.
Qed.
End refinement.

(** * Safety: no operation goes out of range *)

Section safety.
Context `{WeightEq W}.
Implicit Types (fst : VectorFst W) (st : VectorState W) (f g : Fst W) (m : mutation W).

(** What a caller may pass: states that exist, arcs to states that exist, arc
positions in range, counts that are not negative. *)
Definition mutation_ok f m : Prop :=
  match m with
  | MSetStart s => s = kNoStateId ∨ valid f s
  | MSetFinal s _ | MDeleteArcs s _ | MDeleteAllArcs s => valid f s
  | MAddState | MDeleteAllStates => True
  | MAddStates n => 0 ≤ n
  | MAddArc s a => valid f s ∧ valid f (nextstate a)
  | MDeleteStates ds => Forall (valid f) ds
  | MSetValue s i a => valid f s ∧ 0 ≤ i < zlen (Arcs f s) ∧ valid f (nextstate a)
  end.

Lemma mark_deleted_total n ds :
  0 ≤ n → Forall (λ d, 0 ≤ d < n) ds → is_Some (mark_deleted n ds).
Proof.
  intros Hn Hd. destruct (foldM_total (λ newid d, newid.[d <- kNoStateId])
    (λ _ l, zlen l = n) ds (vresize n 0 [])) as (l & Hl & _).
  - unfold zlen, vresize. rewrite length_resize. lia.
  - intros done d todo c -> Hc. apply Forall_app in Hd as [_ Hd]. apply Forall_cons in Hd as [Hd _].
    eexists. rewrite vset_is_Some by lia. split; [done|]. by rewrite zlen_insert.
  - by exists l.
Qed.

Lemma compact_states_total orig ds newid :
  mark_deleted (zlen orig) ds = Some newid →
  is_Some (foldM (compact_step (W:=W)) (seqZ 0 (zlen orig)) (orig, newid, 0)).
Proof.
  intros Hm. pose proof (mark_deleted_spec _ _ _ (zlen_nonneg orig) Hm) as [Hlen Hid].
  destruct (foldM_total (compact_step (W:=W)) (λ done acc, states_loop orig ds (zlen done) acc)
    (seqZ 0 (zlen orig)) (orig, newid, 0)) as (acc & Hacc & _); [| |by exists acc].
  - change (zlen (@nil Z)) with 0. unfold states_loop. change (kept_states 0 ds) with (@nil Z).
    split_and!; try done; intros j ?; lia.
  - intros done x todo c [-> Hx]%seqZ_split Hc.
    rewrite zlen_app, zlen_seqZ, Z.max_r by lia. change (zlen [x]) with 1.
    rewrite zlen_seqZ, Z.max_r in Hc by lia.
    cut (is_Some (compact_step c x)).
    { intros [c' Hc']. exists c'. split; [done|]. by eapply compact_step_loop. }
    destruct c as [[states ids] nstates].
    pose proof (kept_states_le x ds) as Hle.
    destruct Hc as (Hls & Hln & Hns & _ & Hrest & _ & Hid'). unfold compact_step.
    rewrite Hid' by lia. simpl. destruct (negb _); [|done].
    rewrite vset_is_Some by lia. simpl.
    destruct (negb (x =? nstates)); [|done].
    destruct (vget_in_range states x) as [st ->]; [lia|]. simpl.
    rewrite vset_is_Some by (pose proof (zlen_nonneg (kept_states x ds)); lia). done.
Qed.

Lemma compact_arcs_total newid st :
  Forall (λ a, 0 ≤ nextstate a < zlen newid) (arcs_ st) → is_Some (compact_arcs newid st).
Proof.
  intros Ha. unfold compact_arcs, VS_NumArcs.
  destruct (foldM_total (compact_arcs_step newid) (λ done '(arcs, narcs, _, _),
      zlen arcs = zlen (arcs_ st) ∧ 0 ≤ narcs ≤ zlen done ∧ ∀ j, zlen done ≤ j → arcs.[j] = (arcs_ st).[j])
    (seqZ 0 (zlen (arcs_ st))) (arcs_ st, 0, niepsilons_ st, noepsilons_ st))
    as ([[[arcs narcs] ni] no] & -> & _); [done| |].
  - intros done x todo [[[arcs narcs] ni] no] [-> Hx]%seqZ_split (Hlen & Hn & Hrest).
    rewrite zlen_app, zlen_seqZ, Z.max_r by lia. change (zlen [x]) with 1.
    rewrite zlen_seqZ, Z.max_r in Hn, Hrest by lia.
    unfold compact_arcs_step. destruct (vget_in_range arcs x) as [a Hga]; [lia|].
    rewrite Hga. rewrite Hrest in Hga by lia. simpl.
    destruct (vget_in_range newid (nextstate a)) as [t ->].
    { rewrite Forall_forall in Ha. by eapply Ha, vget_elem_of. }
    simpl. destruct (negb (t =? kNoStateId)).
    + rewrite vset_is_Some by lia. simpl. destruct (negb (x =? narcs)).
      * rewrite vset_is_Some by (rewrite zlen_insert; lia). eexists. split; [done|]. cbv beta iota.
        rewrite !zlen_insert. split_and!; [done|lia..|]. intros j ?.
        rewrite !vget_insert, !decide_False by (rewrite ?zlen_insert; lia). apply Hrest. lia.
      * eexists. split; [done|]. cbv beta iota. rewrite !zlen_insert. split_and!; [done|lia..|]. intros j ?.
        rewrite vget_insert, decide_False by lia. apply Hrest. lia.
    + eexists. split; [done|]. cbv beta iota. split_and!; [done|lia..|]. intros j ?. apply Hrest. lia.
  - simpl. destruct (VS_DeleteArcs_total (MkState (final_weight_ st) (niepsilons_ st) (noepsilons_ st) arcs)
      (zlen arcs - narcs)) as [st' ->]. done.
Qed.

Lemma Base_DeleteStates_total fst ds :
  WellFormed (vector_view fst) → Forall (valid (vector_view fst)) ds →
  is_Some (Base_DeleteStates fst ds).
Proof.
  intros (_ & Hwa & Hws) Hds. destruct ds as [|d ds]; [by eexists|].
  unfold Base_DeleteStates. set (dstates := d :: ds) in *.
  destruct (mark_deleted_total (zlen (states_ fst)) dstates (zlen_nonneg _) Hds) as [newid0 Hm].
  destruct (compact_states_total (states_ fst) dstates newid0 Hm) as [[[states newid] nstates] Hf].
  pose proof (compact_states_spec _ _ _ _ Hm Hf) as Hloop.
  pose proof Hloop as (_ & Hln & _). rewrite Hm. simpl. rewrite Hf. simpl.
  assert (is_Some (mapM (compact_arcs newid) (take (Z.to_nat nstates) states))) as [states' ->].
  { apply mapM_is_Some_2, Forall_forall. intros st (i & Hi)%list_elem_of_lookup.
    apply compact_arcs_total, Forall_forall. intros a Ha. rewrite Hln.
    rewrite <-(Nat2Z.id i) in Hi.
    destruct (vget_in_range (kept_states (zlen (states_ fst)) dstates) (Z.of_nat i)) as [s Hs].
    { rewrite <-(states_loop_len _ _ _ _ _ Hloop). apply lookup_lt_Some in Hi. unfold zlen. lia. }
    pose proof (states_loop_take _ _ _ _ _ _ _ _ Hloop Hs Hi) as Hst.
    apply (Hwa s a); [by eapply vget_range|]. simpl. by rewrite Hst. }
  simpl. destruct (Z.eqb_spec (start_ fst) kNoStateId) as [|Hne]; simpl; [done|].
  destruct (vget_in_range newid (start_ fst)) as [t ->]; [|done].
  rewrite Hln. by destruct Hws.
Qed.

Lemma abs_mutate_wf f m :
  WellFormed f → tight f → mutation_ok f m → WellFormed (abs_mutate f m).
Proof.
  intros (Hn & Ha & Hs) Ht Hm.
  assert (∀ ds, WellFormed (abs_keep_states f (kept_states (NumStates f) ds))) as Hkeep.
  { intros ds. apply keep_wf; [apply kept_NoDup, kept_states_sorted|].
    apply Forall_forall. by intros s [? _]%elem_of_kept_states. }
  destruct m as [s|s w| |n|s a|ds| |s n|s|s i a]; simpl in Hm |- *.
  - done.
  - done.
  - refine (conj _ (conj _ _)); simpl; [lia| |].
    + intros s a Hv Hin. apply (Ha s a) in Hin; [unfold valid in *; simpl in *; lia|].
      by eapply tight_arcs.
    + destruct Hs; [by left|right]. unfold valid in *. simpl. lia.
  - refine (conj _ (conj _ _)); simpl; [lia| |].
    + intros s a Hv Hin. apply (Ha s a) in Hin; [unfold valid in *; simpl in *; lia|].
      by eapply tight_arcs.
    + destruct Hs; [by left|right]. unfold valid in *. simpl. lia.
  - refine (conj _ (conj _ _)); simpl; [done| |done]. apply add_arc_all; naive_solver.
  - destruct ds; [done|apply Hkeep].
  - refine (conj _ (conj _ _)); simpl; [done| |by left]. intros i b [Hi1 Hi2]. simpl in Hi2.
    unfold zlen in Hi2. simpl in Hi2. lia.
  - refine (conj _ (conj _ _)); simpl; [done| |done]. intros u b Hu. simpl. case_decide; [subst|by apply Ha].
    intros Hb. apply (Ha s b Hm). by eapply subseteq_take.
  - refine (conj _ (conj _ _)); simpl; [done| |done]. intros u b Hu. simpl. case_decide; [|by apply Ha].
    intros []%not_elem_of_nil.
  - refine (conj _ (conj _ _)); simpl; [done| |done]. intros u b Hu. simpl. case_decide; [subst|by apply Ha].
    intros Hb%elem_of_insert_inv. destruct Hb as [->|Hb]; [naive_solver|]. apply (Ha s b); [naive_solver|done].
Qed.

Lemma mutate_total fst m :
  WellFormed (vector_view fst) → mutation_ok (vector_view fst) m → is_Some (mutate fst m).
Proof.
  intros Hwf Hm. destruct m as [s|s w| |n|s a|ds| |s n|s|s i a]; simpl in Hm |- *; try by eexists.
  - destruct (on_state_total fst s (λ st, Some (VS_SetFinal st w)) Hm) as [fst1 H1]; [done|].
    unfold SetFinal, VF_Final, Base_SetFinal. destruct (vget_in_range _ _ Hm) as [st ->].
    simpl. by rewrite H1.
  - destruct (on_state_total fst s (λ st, Some (VS_AddArc st a)) (proj1 Hm)) as [fst1 H1]; [done|].
    unfold AddArc, Base_AddArc. rewrite H1. simpl.
    destruct (on_state_spec _ _ _ _ H1) as (st & st' & Hst & [= <-] & He & _ & Hget).
    by erewrite (UpdatePropertiesAfterAddArc_spec fst1 s (VS_AddArc st a));
      [|by rewrite Hget, decide_True|].
  - unfold DeleteStates. destruct (Base_DeleteStates_total fst ds Hwf Hm) as [fst1 ->]. done.
  - destruct (on_state_total fst s (λ st', VS_DeleteArcs st' n) Hm) as [fst1 H1]; [intros st; apply VS_DeleteArcs_total|].
    unfold DeleteArcs, Base_DeleteArcs. by rewrite H1.
  - destruct (on_state_total fst s (λ st, Some (VS_DeleteAllArcs st)) Hm) as [fst1 H1]; [done|].
    unfold DeleteAllArcs, Base_DeleteAllArcs. by rewrite H1.
  - destruct Hm as (Hs & Hi & _). simpl in Hi. unfold SetValue, VS_GetArc, on_state.
    destruct (vget_in_range _ _ Hs) as [st Hst]. rewrite Hst in Hi. rewrite Hst. simpl in *.
    destruct (vget_in_range _ _ Hi) as [b Hb]. unfold VS_SetArc.
    rewrite Hb. simpl. rewrite vset_is_Some by done. simpl. by rewrite vset_is_Some by done.
Qed.
End safety.

(** * Histories of mutations *)

Section histories.
Context `{WeightEq W}.
Implicit Types (fst : VectorFst W) (st : VectorState W) (f g : Fst W) (m : mutation W).

(** An implementation built by mutations from the empty one. *)
Inductive built : VectorFst W → Prop :=
  | built_new : built VectorFst_new
  | built_mutate fst m fst' : built fst → mutate fst m = Some fst' → built fst'.

(** The same, by mutations that a caller may make. *)
Inductive built_ok : VectorFst W → Prop :=
  | built_ok_new : built_ok VectorFst_new
  | built_ok_mutate fst m fst' :
      built_ok fst → mutation_ok (vector_view fst) m → mutate fst m = Some fst' → built_ok fst'.

Lemma built_ok_built fst : built_ok fst → built fst.
Proof. induction 1; [constructor|by econstructor]. Qed.

Lemma built_invariant fst : built fst → all_counters fst ∧ SoundFst (vector_view fst).
Proof.
  induction 1 as [|fst m fst' _ [Hc Hs] Hm].
  - split; [constructor|]. by apply (abs_empty_sound _ 0 kStaticProperties).
  - apply mutate_spec in Hm as (? & ? & ?); auto.
Qed.

Lemma built_ok_wf fst : built_ok fst → WellFormed (vector_view fst).
Proof.
  induction 1 as [|fst m fst' Hb IH Hok Hm].
  - refine (conj _ (conj _ _)); [done| |by left]. intros s a Hs. unfold valid in Hs.
    change (NumStates _) with 0 in Hs. lia.
  - apply built_ok_built, built_invariant in Hb as [Hc _].
    apply mutate_spec in Hm as (Hview & _); [|done]. rewrite Hview.
    apply abs_mutate_wf; [done|apply vector_view_tight|done].
Qed.

Lemma built_run ms fst fst' : built fst → foldM mutate ms fst = Some fst' → built fst'.
Proof.
  revert fst. induction ms as [|m ms IH]; intros fst Hb; simpl.
  - by intros [= <-].
  - intros (fst1 & H1 & ?)%bind_Some. eapply IH; [|done]. by econstructor.
Qed.
Lemma built_history ms : built (default VectorFst_new (foldM mutate ms VectorFst_new)).
Proof.
  destruct (foldM mutate ms VectorFst_new) as [fst|] eqn:Hr; simpl; [|constructor].
  eapply built_run; [constructor|done].
Qed.
End histories.

(** * Copying a machine *)

Section copying.
Context `{WeightEq W}.
Implicit Types (fst : VectorFst W) (st : VectorState W) (f g : Fst W).

(** The state object the copy has for state [s]. *)
Definition copy_state f (s : Z) : VectorState W :=
  foldl VS_AddArc (VS_SetFinal VectorState_new (Final f s)) (Arcs f s).

Lemma foldl_VS_AddArc l st :
  arcs_ (foldl VS_AddArc st l) = arcs_ st ++ l ∧
  final_weight_ (foldl VS_AddArc st l) = final_weight_ st ∧
  (counters_exact st → counters_exact (foldl VS_AddArc st l)).
Proof.
  revert st. induction l as [|a l IH]; intros st; simpl; [by rewrite app_nil_r|].
  destruct (IH (VS_AddArc st a)) as (-> & -> & Hc). simpl. rewrite <-app_assoc.
  split_and!; [done..|]. intros ?. by apply Hc, VS_AddArc_counters.
Qed.

Lemma copy_state_spec f s :
  arcs_ (copy_state f s) = Arcs f s ∧ final_weight_ (copy_state f s) = Final f s ∧
  counters_exact (copy_state f s).
Proof.
  unfold copy_state.
  destruct (foldl_VS_AddArc (Arcs f s) (VS_SetFinal VectorState_new (Final f s))) as (-> & -> & Hc).
  split_and!; [done..|]. by apply Hc.
Qed.

Lemma on_state_last fst l st op :
  states_ fst = l ++ [st] →
  on_state fst (zlen l) op = (λ st', with_states fst (l ++ [st'])) <$> op st.
Proof.
  intros Hl. unfold on_state. rewrite Hl, vget_app, decide_False, Z.sub_diag by lia. simpl.
  destruct (op st) as [st'|]; simpl; [|done].
  rewrite vset_is_Some by (rewrite zlen_app; change (zlen [st]) with 1; pose proof (zlen_nonneg l); lia).
  simpl. do 2 f_equal. unfold zlen. rewrite Nat2Z.id. rewrite insert_app_r_alt, Nat.sub_diag by done. done.
Qed.

Lemma copy_arcs fst l st arcs :
  states_ fst = l ++ [st] →
  foldM (λ fst arc, Base_AddArc fst (zlen l) arc) arcs fst =
    Some (with_states fst (l ++ [foldl VS_AddArc st arcs])).
Proof.
  revert fst st. induction arcs as [|a arcs IH]; intros fst st Hl; simpl.
  - f_equal. destruct fst; simpl in *. by rewrite <-Hl.
  - change (Base_AddArc fst (zlen l) a) with (on_state fst (zlen l) (λ st, Some (VS_AddArc st a))).
    rewrite (on_state_last _ _ _ _ Hl). simpl. by rewrite (IH _ (VS_AddArc st a)).
Qed.

Lemma copy_state_step f fst l s :
  states_ fst = l → zlen l = s →
  (let '(fst, _) := Base_AddState fst in
   fst ← Base_SetFinal fst s (Final f s);
   foldM (λ fst arc, Base_AddArc fst s arc) (Arcs f s) fst) =
  Some (with_states fst (l ++ [copy_state f s])).
Proof.
  intros Hl Hs. unfold Base_AddState, Base_SetFinal. rewrite Hl. subst s.
  rewrite (on_state_last _ l VectorState_new) by done. cbn [fmap option_fmap option_map mbind option_bind].
  by rewrite (copy_arcs _ l (VS_SetFinal VectorState_new (Final f (zlen l)))).
Qed.

Lemma VectorFst_copy_eq f :
  VectorFst_copy f = Some (MkVectorFst (copy_state f <$> seqZ 0 (NumStates f)) (Start f)
    (FstProperties f &&& kCopyProperties ||| kStaticProperties) (InputSymbols f) (OutputSymbols f)).
Proof.
  unfold VectorFst_copy. set (fst0 := Base_SetStart _ _).
  destruct (foldM_total (λ fst s, let '(fst, _) := Base_AddState fst in
      fst ← Base_SetFinal fst s (Final f s);
      foldM (λ fst arc, Base_AddArc fst s arc) (Arcs f s) fst)
    (λ done fst, fst = with_states fst0 (copy_state f <$> done)) (seqZ 0 (NumStates f)) fst0)
    as (fst & -> & ->); [done| |done].
  intros done s todo fst [-> Hs]%seqZ_split ->. eexists. split; [|reflexivity].
  rewrite fmap_app. apply (copy_state_step f (with_states fst0 (copy_state f <$> seqZ 0 s))); [done|].
  rewrite zlen_fmap, zlen_seqZ. lia.
Qed.

Lemma copy_view f c :
  0 ≤ NumStates f → tight f → VectorFst_copy f = Some c → vector_view c ≡ f.
Proof.
  intros Hn Ht Hc. rewrite VectorFst_copy_eq in Hc. injection Hc as <-.
  assert (∀ s, (copy_state f <$> seqZ 0 (NumStates f)).[s] =
    if decide (valid f s) then Some (copy_state f s) else None) as Hget.
  { intros s. rewrite vget_fmap. case_decide as Hs.
    - unfold vget. rewrite decide_True by apply Hs.
      rewrite lookup_seqZ_lt by (unfold valid in Hs; lia). simpl. f_equal. f_equal.
      unfold valid in Hs. lia.
    - rewrite (proj2 (vget_None _ _)); [done|]. rewrite zlen_seqZ. unfold valid in Hs. lia. }
  repeat split; simpl.
  - unfold VF_NumStates. simpl. rewrite zlen_fmap, zlen_seqZ. lia.
  - intros s. unfold VF_Final. simpl. rewrite Hget. case_decide as Hs; simpl.
    + by destruct (copy_state_spec f s) as (_ & -> & _).
    + by destruct (Ht s Hs) as [-> _].
  - intros s. rewrite Hget. case_decide as Hs; simpl.
    + by destruct (copy_state_spec f s) as (-> & _ & _).
    + by destruct (Ht s Hs) as [_ ->].
Qed.

Lemma copy_counters f c : VectorFst_copy f = Some c → all_counters c.
Proof.
  rewrite VectorFst_copy_eq. intros [= <-]. apply Forall_fmap, Forall_forall. intros s _.
  by destruct (copy_state_spec f s) as (_ & _ & ?).
Qed.

Lemma Sound_copy f g p : Sound p f → f ≡ g → Sound (p &&& kCopyProperties ||| kStaticProperties) g.
Proof.
  intros Hs Hfg. rewrite <-Hfg. intros t. destruct (Hs t) as [Hp Hn].
  destruct t; revert Hp Hn; bits; done.
Qed.
End copying.

(** * The theorems *)

Section theorems.
Context `{WeightEq W}.
Implicit Types (fst : VectorFst W) (st : VectorState W) (f g : Fst W) (m : mutation W).

(** C1: Stored properties are true.  Whatever sequence of mutations (start
and final weights, states, arcs, their deletion, arcs overwritten through a
mutable arc iterator) has built an FST from the empty one, every positive
property bit it stores holds of the machine it has become, and every negative
bit's property does not. *)
Theorem mutations_sound fst : built fst → SoundFst (vector_view fst).
Proof. intros Hb. by apply built_invariant in Hb as [_ Hs]. Qed.

(** C2: Refinement.  An operation of the implementation that returns has done
to the machine what its specification says: in particular [DeleteStates],
which compacts the state vector and every arc vector in place, leaves the kept
states renumbered in their order, without the arcs to deleted states. *)
Theorem mutate_refines fst m fst' :
  built fst → mutate fst m = Some fst' →
  vector_view fst' ≡ abs_mutate (vector_view fst) m.
Proof. intros [Hc _]%built_invariant Hm. by apply mutate_spec in Hm as (? & _). Qed.

(** C3: Safety.  On an FST built by well-formed calls, a well-formed call
accesses no vector out of range, so it returns; and the machine stays well
formed (its start and all transitions lead to states). *)
Theorem mutate_safe fst m :
  built_ok fst → mutation_ok (vector_view fst) m →
  ∃ fst', mutate fst m = Some fst' ∧ WellFormed (vector_view fst').
Proof.
  intros Hb Hm. destruct (mutate_total fst m (built_ok_wf fst Hb) Hm) as [fst' Hf].
  exists fst'. split; [done|]. apply built_ok_wf. by econstructor.
Qed.

(** C4: Epsilon counters.  The counts a state reports are the numbers of its
arcs with an epsilon on each side, after any sequence of mutations, as long
as the state has fewer than 2^64 arcs. *)
Theorem epsilon_counters_exact fst s st :
  built fst → (states_ fst).[s] = Some st → zlen (arcs_ st) < 2^64 →
  niepsilons_ st = count_zero ilabel (arcs_ st) ∧
  noepsilons_ st = count_zero olabel (arcs_ st).
Proof.
  intros [Hc _]%built_invariant Hs Hlen.
  assert (counters_exact st) as [-> ->].
  { eapply Forall_forall; [exact Hc|]. by eapply vget_elem_of. }
  assert (∀ lab, 0 ≤ count_zero lab (arcs_ st) ≤ zlen (arcs_ st)) as Hle.
  { intros lab. unfold count_zero, zlen. pose proof (length_filter (λ a, lab a = 0) (arcs_ st)). lia. }
  unfold u64. split; apply Z.mod_small; pose proof (Hle ilabel); pose proof (Hle olabel); lia.
Qed.

(** C5: Copying.  Constructing an FST from any machine (whose iterators
enumerate its states once) terminates with the same machine: start, states,
final weights, arcs in order, symbol tables; exact epsilon counters; and true
property bits if the source's were true. *)
Theorem copy_faithful f :
  0 ≤ NumStates f → tight f →
  ∃ c, VectorFst_copy f = Some c ∧ vector_view c ≡ f ∧
    InputSymbols (vector_view c) = InputSymbols f ∧
    OutputSymbols (vector_view c) = OutputSymbols f ∧ all_counters c ∧
    (SoundFst f → SoundFst (vector_view c)).
Proof.
  intros Hn Ht. eexists. split; [apply VectorFst_copy_eq|].
  pose proof (copy_view f _ Hn Ht (VectorFst_copy_eq f)) as Hv.
  split_and!; [done|done|done|by apply (copy_counters f), VectorFst_copy_eq|].
  intros Hs. by eapply Sound_copy.
Qed.
End theorems.

(** * Instances *)

Section witnesses.
Local Notation T := TropicalWeight.
Definition ten : T := Tropical (S754_finite false 10 0).
Definition history : list (mutation T) :=
  [MAddStates 3; MSetStart 1; MAddArc 0 (MkArc 1 0 ten 1); MAddArc 1 (MkArc 0 2 ten 2);
   MAddArc 1 (MkArc 3 3 One 0); MSetFinal 2 ten; MSetValue 1 0 (MkArc 0 0 One 2);
   MDeleteStates [0]].
Definition history_end : VectorFst T := default VectorFst_new (foldM mutate history VectorFst_new).

Lemma history_built : built history_end.
Proof. apply (built_run history VectorFst_new); [constructor|by vm_compute]. Qed.

Lemma mutations_sound_witness :
  foldM mutate history VectorFst_new = Some history_end ∧ SoundFst (vector_view history_end).
Proof. split; [by vm_compute|apply (mutations_sound history_end history_built)]. Defined.

Lemma mutate_refines_witness :
  ∃ fst', mutate history_end (MDeleteStates [1]) = Some fst' ∧
    vector_view fst' ≡ abs_mutate (vector_view history_end) (MDeleteStates [1]).
Proof.
  eexists. split; [by vm_compute|].
  apply (mutate_refines history_end); [apply history_built|by vm_compute].
Defined.

Lemma mutate_safe_witness :
  ∃ fst', mutate (AddState (AddState VectorFst_new).1).1 (MAddArc 0 (MkArc 1 1 ten 1)) = Some fst' ∧
    WellFormed (vector_view (W:=T) fst').
Proof.
  apply mutate_safe.
  - apply (built_ok_mutate (AddState VectorFst_new).1 MAddState); [|done|done].
    by apply (built_ok_mutate VectorFst_new MAddState); [constructor|done|].
  - repeat split; vm_compute; done.
Defined.

Lemma epsilon_counters_exact_witness :
  ∃ st, (states_ history_end).[0] = Some st ∧ niepsilons_ st = 1 ∧ noepsilons_ st = 1.
Proof.
  eexists. split; [by vm_compute|].
  apply (epsilon_counters_exact history_end 0); [apply history_built|by vm_compute..].
Defined.

Lemma copy_faithful_witness :
  ∃ c, VectorFst_copy (vector_view history_end) = Some c ∧
    vector_view c ≡ vector_view history_end ∧ all_counters c.
Proof.
  destruct (copy_faithful (vector_view history_end)) as (c & Hc & Hv & _ & _ & Hn & _).
  - by vm_compute.
  - apply vector_view_tight.
  - by exists c.
Defined.
End witnesses.
