(* ===== verification/MutableFst.v ===== *)
(** The interface [MutableFst] (openfst/lib/mutable-fst.h) as the algorithms
use it: a type class of the operations, and what an implementation promises of
each of them, on the machine seen through the [Fst] interface and on the stored
property bits.  Algorithms are proved against the promises; [VectorFst] keeps
them. *)
From S2P Require Import Prelude Weight Properties SymbolTable Fst VectorFst Mutation VectorSound.
Local Open Scope Z_scope.

(* mutable-fst.h:57-125 MutableFst *)
Class MutableFst (W F : Type) `{WeightOps W} := {
  view : F → Fst W;
  mSetStart : F → Z → F;
  mSetFinal : F → Z → W → option F;
  mAddState : F → F * Z;
  mAddArc : F → Z → Arc W → option F;
  mDeleteStates : F → list Z → option F;
  mDeleteAllStates : F → F;
  mDeleteAllArcs : F → Z → option F;
  mSetValue : F → Z → Z → Arc W → option F;  (* MutableArcIterator::SetValue *)
  mSetProperties : F → Z → Z → F;
  mSetInputSymbols : F → option SymbolTableImpl → F;
  mSetOutputSymbols : F → option SymbolTableImpl → F;
}.

(** The stored bits of [mask], as [Properties(mask, false)] returns them. *)
Definition mProperties `{MutableFst W F} (x : F) (mask : Z) : Z :=
  FstProperties (view x) &&& mask.

(** A mutation took [x] to [x'], whose machine is [g]: symbol tables stay, a
raised error stays raised, and true property bits stay true. *)
Record steps_to `{MutableFst W F} (x x' : F) (g : Fst W) : Prop := {
  steps_view : view x' ≡ g;
  steps_isymbols : InputSymbols (view x') = InputSymbols (view x);
  steps_osymbols : OutputSymbols (view x') = OutputSymbols (view x);
  steps_error : has (FstProperties (view x)) kError = true →
    has (FstProperties (view x')) kError = true;
  steps_sound : SoundFst (view x) → SoundFst (view x');
}.

Class MutableFstLaws (W F : Type) `{WeightEq W} `{!MutableFst W F} := {
  (** the representation invariant, which every mutation keeps *)
  minv : F → Prop;
  view_tight : ∀ x : F, tight (view x);
  view_nonneg : ∀ x : F, 0 ≤ NumStates (view x);
  mSetStart_steps : ∀ x s, minv x → minv (mSetStart x s) ∧
    steps_to x (mSetStart x s) (abs_set_start (view x) s);
  mSetFinal_steps : ∀ x s w, minv x → valid (view x) s →
    ∃ x', mSetFinal x s w = Some x' ∧ minv x' ∧ steps_to x x' (abs_set_final (view x) s w);
  mAddState_steps : ∀ x, minv x →
    ∃ x', mAddState x = (x', NumStates (view x)) ∧ minv x' ∧
      steps_to x x' (abs_add_states (view x) 1);
  mAddArc_steps : ∀ x s a, minv x → valid (view x) s →
    ∃ x', mAddArc x s a = Some x' ∧ minv x' ∧ steps_to x x' (abs_add_arc (view x) s a);
  mDeleteStates_steps : ∀ x ds, minv x → WellFormed (view x) → Forall (valid (view x)) ds →
    ∃ x', mDeleteStates x ds = Some x' ∧ minv x' ∧
      steps_to x x' (abs_mutate (view x) (MDeleteStates ds));
  mDeleteAllStates_steps : ∀ x, minv x → minv (mDeleteAllStates x) ∧
    steps_to x (mDeleteAllStates x) (abs_keep_states (view x) []);
  mDeleteAllArcs_steps : ∀ x s, minv x → valid (view x) s →
    ∃ x', mDeleteAllArcs x s = Some x' ∧ minv x' ∧ steps_to x x' (abs_set_arcs (view x) s []);
  mSetValue_steps : ∀ x s i a, minv x → valid (view x) s → 0 ≤ i < zlen (Arcs (view x) s) →
    ∃ x', mSetValue x s i a = Some x' ∧ minv x' ∧
      steps_to x x' (abs_set_arcs (view x) s (<[Z.to_nat i := a]> (Arcs (view x) s)));
  mSetProperties_minv : ∀ x p m, minv x → minv (mSetProperties x p m);
  mSetProperties_view : ∀ x p m, view (mSetProperties x p m) ≡ view x;
  mSetProperties_symbols : ∀ x p m,
    InputSymbols (view (mSetProperties x p m)) = InputSymbols (view x) ∧
    OutputSymbols (view (mSetProperties x p m)) = OutputSymbols (view x);
  mSetProperties_bits : ∀ x p m, FstProperties (view (mSetProperties x p m)) =
    (FstProperties (view x) &&& (u64_not m ||| kError)) ||| (p &&& m);
  mSetInputSymbols_minv : ∀ x t, minv x → minv (mSetInputSymbols x t);
  mSetInputSymbols_view : ∀ x t, view (mSetInputSymbols x t) ≡ view x;
  mSetInputSymbols_rest : ∀ x t, InputSymbols (view (mSetInputSymbols x t)) = t ∧
    OutputSymbols (view (mSetInputSymbols x t)) = OutputSymbols (view x) ∧
    FstProperties (view (mSetInputSymbols x t)) = FstProperties (view x);
  mSetOutputSymbols_minv : ∀ x t, minv x → minv (mSetOutputSymbols x t);
  mSetOutputSymbols_view : ∀ x t, view (mSetOutputSymbols x t) ≡ view x;
  mSetOutputSymbols_rest : ∀ x t, InputSymbols (view (mSetOutputSymbols x t)) = InputSymbols (view x) ∧
    OutputSymbols (view (mSetOutputSymbols x t)) = t ∧
    FstProperties (view (mSetOutputSymbols x t)) = FstProperties (view x);
}.

(** * The vector implementation *)

#[export] Instance vector_mutable `{WeightOps W} : MutableFst W (VectorFst W) := {|
  view := vector_view;
  mSetStart := SetStart;
  mSetFinal := SetFinal;
  mAddState := AddState;
  mAddArc := AddArc;
  mDeleteStates := DeleteStates;
  mDeleteAllStates := DeleteAllStates;
  mDeleteAllArcs := DeleteAllArcs;
  mSetValue := SetValue;
  mSetProperties := SetPropertiesMask;
  mSetInputSymbols := SetInputSymbols;
  mSetOutputSymbols := SetOutputSymbols;
|}.

Section vector_laws.
Context `{WeightEq W}.
Implicit Types (fst : VectorFst W) (m : mutation W).

(** Everything but the bits and the states is the same. *)
Definition same_rest fst fst' : Prop :=
  isymbols_ fst' = isymbols_ fst ∧ osymbols_ fst' = osymbols_ fst.

Lemma on_state_rest fst s op fst' :
  on_state fst s op = Some fst' → same_rest fst fst' ∧ properties_ fst' = properties_ fst.
Proof. intros (st & st' & _ & _ & -> & _)%on_state_spec. done. Qed.

Lemma error_bit p : has p kError = Z.testbit p 2.
Proof. by rewrite (has_bit p kError 2). Qed.

Lemma SetProperties_error fst fst' p :
  properties_ fst' = properties_ fst →
  has (properties_ fst) kError = true → has (properties_ (SetProperties fst' p)) kError = true.
Proof.
  intros Hp. rewrite !error_bit.
  change (properties_ (SetProperties fst' p)) with (properties_ fst' &&& kError ||| p).
  rewrite Hp. bits. by intros ->.
Qed.

Lemma Base_DeleteStates_rest fst ds fst' :
  all_counters fst → Base_DeleteStates fst ds = Some fst' →
  same_rest fst fst' ∧ properties_ fst' = properties_ fst.
Proof.
  intros Hc Hd. destruct ds as [|d ds]; [by injection Hd as <-|].
  by apply Base_DeleteStates_spec in Hd as (-> & _).
Qed.

Lemma mutate_rest fst m fst' :
  all_counters fst → mutate fst m = Some fst' →
  same_rest fst fst' ∧ (has (properties_ fst) kError = true → has (properties_ fst') kError = true).
Proof.
  intros Hc Hm. destruct m as [s|s w| |n|s a|ds| |s n|s|s i a]; simpl in Hm.
  - injection Hm as <-. split; [done|]. by apply SetProperties_error.
  - destruct (SetFinal_inv _ _ _ _ Hm) as (fst1 & [? ?]%on_state_rest & _ & ->).
    split; [done|by apply SetProperties_error].
  - injection Hm as <-. split; [done|]. by apply SetProperties_error.
  - injection Hm as <-. split; [done|]. by apply SetProperties_error.
  - destruct (AddArc_inv _ _ _ _ Hm) as (fst1 & [? ?]%on_state_rest & _ & _ & ->).
    split; [done|by apply SetProperties_error].
  - unfold DeleteStates in Hm. apply bind_Some in Hm as (fst1 & H1 & [= <-]).
    destruct (Base_DeleteStates_rest _ _ _ Hc H1). split; [done|by apply SetProperties_error].
  - injection Hm as <-. split; [done|]. by apply SetProperties_error.
  - destruct (DeleteArcs_inv _ _ _ _ Hm) as (fst1 & [? ?]%on_state_rest & _ & _ & ->).
    split; [done|by apply SetProperties_error].
  - destruct (DeleteAllArcs_inv _ _ _ Hm) as (fst1 & [? ?]%on_state_rest & _ & _ & ->).
    split; [done|by apply SetProperties_error].
  - destruct (SetValue_inv _ _ _ _ _ Hm) as (fst1 & l & b & k & [? ?]%on_state_rest & _ & _ & _ & _ & ->).
    split; [done|]. rewrite !error_bit. cbn [properties_ with_properties].
    cbv beta delta [SetValueProperties]. bits. by intros ->.
Qed.

Lemma mutate_steps fst m fst' :
  all_counters fst → mutate fst m = Some fst' →
  all_counters fst' ∧ steps_to fst fst' (abs_mutate (vector_view fst) m).
Proof.
  intros Hc Hm. destruct (mutate_rest _ _ _ Hc Hm) as [[? ?] ?].
  destruct (mutate_spec _ _ _ Hc Hm) as (? & ? & ?). split; [done|]. by constructor.
Qed.

Lemma mutate_steps_total fst m :
  all_counters fst → is_Some (mutate fst m) →
  ∃ fst', mutate fst m = Some fst' ∧ all_counters fst' ∧
    steps_to fst fst' (abs_mutate (vector_view fst) m).
Proof. intros Hc [fst' Hm]. exists fst'. split; [done|]. by apply mutate_steps. Qed.

#[export] Instance vector_mutable_laws : MutableFstLaws W (VectorFst W).
Proof.
  refine {| minv := all_counters : VectorFst W → Prop |}.
  - apply vector_view_tight.
  - intros x. apply zlen_nonneg.
  - intros x s Hx. by apply (mutate_steps x (MSetStart s)).
  - intros x s w Hx Hs. apply (mutate_steps_total x (MSetFinal s w) Hx).
    simpl. unfold SetFinal, VF_Final, Base_SetFinal.
    destruct (on_state_total x s (λ st, Some (VS_SetFinal st w)) Hs) as [x1 H1]; [done|].
    destruct (vget_in_range _ _ Hs) as [st ->]. simpl. by rewrite H1.
  - intros x Hx. exists (AddState x).1. split.
    + change (((AddState x).1, zlen (states_ x ++ [VectorState_new]) - 1) = ((AddState x).1, zlen (states_ x))).
      f_equal. rewrite zlen_app. change (zlen [VectorState_new]) with 1. lia.
    + by apply (mutate_steps x MAddState).
  - intros x s a Hx Hs. apply (mutate_steps_total x (MAddArc s a) Hx).
    simpl. unfold AddArc, Base_AddArc.
    destruct (on_state_total x s (λ st, Some (VS_AddArc st a)) Hs) as [x1 H1]; [done|].
    rewrite H1. simpl.
    destruct (on_state_spec _ _ _ _ H1) as (st & st' & Hst & [= <-] & He & _ & Hget).
    by erewrite (UpdatePropertiesAfterAddArc_spec x1 s (VS_AddArc st a));
      [|by rewrite Hget, decide_True|].
  - intros x ds Hx Hwf Hds. apply (mutate_steps_total x (MDeleteStates ds) Hx).
    by apply mutate_total.
  - intros x Hx. by apply (mutate_steps x MDeleteAllStates).
  - intros x s Hx Hs. apply (mutate_steps_total x (MDeleteAllArcs s) Hx).
    simpl. unfold DeleteAllArcs, Base_DeleteAllArcs.
    destruct (on_state_total x s (λ st, Some (VS_DeleteAllArcs st)) Hs) as [x1 H1]; [done|].
    by rewrite H1.
  - intros x s i a Hx Hs Hi. apply (mutate_steps_total x (MSetValue s i a) Hx).
    destruct (vget_in_range _ _ Hs) as [st Hst]. simpl in Hi |- *. rewrite Hst in Hi. simpl in Hi.
    unfold SetValue, VS_GetArc. rewrite Hst. simpl.
    destruct (vget_in_range _ _ Hi) as [oarc Ho]. rewrite Ho. simpl.
    unfold on_state. rewrite Hst. simpl. unfold VS_SetArc, VS_IncrementNumEpsilons. rewrite Ho. simpl.
    rewrite (vset_is_Some (arcs_ st)) by done. simpl. rewrite vset_is_Some by done. by eexists.
  - done.
  - by repeat split.
  - done.
  - done.
  - done.
  - by repeat split.
  - done.
  - done.
  - by repeat split.
  - done.
Defined.
End vector_laws.
