(* ===== verification/Rational.v ===== *)
(** The rational operations that modify a [MutableFst]: [Union] (union.h), both
versions of [Concat] (concat.h) and [Closure] (closure.h), written against the
interface of MutableFst.v.  The two arguments are distinct objects.

Proved here: each operation terminates without error on well-formed machines
and what machine it leaves, as a base machine on the same states plus a set of
extra epsilon arcs.  RationalLang.v derives the languages from that, and
RationalProps.v the truth of the property bits. *)
From S2P Require Import Prelude Weight Properties SymbolTable Fst VectorFst Mutation VectorSound MutableFst.
Local Open Scope Z_scope.

(* rational.h:42-45 ClosureType *)
Inductive ClosureType := CLOSURE_STAR | CLOSURE_PLUS.

(** [arc.nextstate += n]. *)
Definition shift_arc {W} (n : Z) (a : Arc W) : Arc W := set_nextstate (nextstate a + n) a.

Section operations.
Context `{MutableFst W F}.
(** The flag [--fst_compat_symbols].  Tables that do not match are an [FSTERROR]: the
flag [--fst_error_fatal] is off here, so that the operations go on from there. *)
Context (fst_compat_symbols : bool).
Implicit Types (x : F) (f : Fst W).

Definition compat_tables (f g : Fst W) : bool :=
  CompatSymbols fst_compat_symbols (InputSymbols f) (InputSymbols g) &&
  CompatSymbols fst_compat_symbols (OutputSymbols f) (OutputSymbols g).

(** The loop over the arcs of a state, and the loop over the states, that append
a machine to the one being modified. *)

(* union.h:80-84 Union *)
Definition append_arcs (x : F) (s1 numstates1 : Z) (arcs : list (Arc W)) : option F :=
  foldM (λ x arc, mAddArc x s1 (shift_arc numstates1 arc)) arcs x.

(* union.h:75-85 Union *)
Definition append_states (x : F) (fst2 : Fst W) (numstates1 : Z) : option F :=
  foldM (λ x s2,
      let '(x, s1) := mAddState x in
      x ← mSetFinal x s1 (Final fst2 s2);
      append_arcs x s1 numstates1 (Arcs fst2 s2))
    (seqZ 0 (NumStates fst2)) x.

(* union.h:52-105 Union *)
Definition Union (fst1 : F) (fst2 : Fst W) : option F :=
  if negb (compat_tables (view fst1) fst2) then Some (mSetProperties fst1 kError kError) else
  let numstates1 := NumStates (view fst1) in
  let initial_acyclic1 := mProperties fst1 kInitialAcyclic =? kInitialAcyclic in
  let props1 := mProperties fst1 kFstProperties in
  let props2 := FstProperties fst2 &&& kFstProperties in
  let start2 := Start fst2 in
  if start2 =? kNoStateId then
    Some (if has props2 kError then mSetProperties fst1 kError kError else fst1)
  else
  fst1 ← append_states fst1 fst2 numstates1;
  let start1 := Start (view fst1) in
  if start1 =? kNoStateId then
    let fst1 := mSetStart fst1 (start2 + numstates1) in
    Some (if numstates1 =? 0
          then mSetProperties fst1 (props2 ||| (props1 &&& kError)) kCopyProperties
          else if has props2 kError then mSetProperties fst1 kError kError else fst1)
  else
  fst1 ← (if initial_acyclic1 then mAddArc fst1 start1 (ArcOne 0 0 (start2 + numstates1))
          else
            let '(fst1, nstart1) := mAddState fst1 in
            let fst1 := mSetStart fst1 nstart1 in
            fst1 ← mAddArc fst1 nstart1 (ArcOne 0 0 start1);
            mAddArc fst1 nstart1 (ArcOne 0 0 (start2 + numstates1)));
  Some (mSetProperties fst1 (UnionProperties props1 props2 false) kFstProperties).

(** The loop that moves final weights of the first machine to epsilon arcs. *)

(* concat.h:85-93 Concat *)
Definition connect_finals (x : F) (start2 numstates1 : Z) : option F :=
  foldM (λ x s1,
      let weight := Final (view x) s1 in
      if wneqb weight Zero then
        x ← mSetFinal x s1 Zero;
        if negb (start2 =? kNoStateId)
        then mAddArc x s1 (MkArc 0 0 weight (start2 + numstates1)) else Some x
      else Some x)
    (seqZ 0 numstates1) x.

(* concat.h:51-99 Concat *)
Definition Concat (fst1 : F) (fst2 : Fst W) : option F :=
  if negb (compat_tables (view fst1) fst2) then Some (mSetProperties fst1 kError kError) else
  let props1 := mProperties fst1 kFstProperties in
  let props2 := FstProperties fst2 &&& kFstProperties in
  let start1 := Start (view fst1) in
  if start1 =? kNoStateId then
    Some (if has props2 kError then mSetProperties fst1 kError kError else fst1)
  else
  let numstates1 := NumStates (view fst1) in
  fst1 ← append_states fst1 fst2 numstates1;
  let start2 := Start fst2 in
  fst1 ← connect_finals fst1 start2 numstates1;
  Some (if negb (start2 =? kNoStateId)
        then mSetProperties fst1 (ConcatProperties props1 props2 false) kFstProperties
        else if has props2 kError then mSetProperties fst1 kError kError else fst1).

(* concat.h:141-156 Concat *)
Definition prepend_states (fst2 : F) (fst1 : Fst W) (start2 numstates2 : Z) : option F :=
  foldM (λ x s1,
      let '(x, s2) := mAddState x in
      let weight := Final fst1 s1 in
      x ← (if wneqb weight Zero then mAddArc x s2 (MkArc 0 0 weight start2) else Some x);
      append_arcs x s2 numstates2 (Arcs fst1 s1))
    (seqZ 0 (NumStates fst1)) fst2.

(* concat.h:119-166 Concat *)
Definition Concat_front (fst1 : Fst W) (fst2 : F) : option F :=
  if negb (compat_tables fst1 (view fst2)) then Some (mSetProperties fst2 kError kError) else
  let props1 := FstProperties fst1 &&& kFstProperties in
  let props2 := mProperties fst2 kFstProperties in
  let start2 := Start (view fst2) in
  if start2 =? kNoStateId then
    Some (if has props1 kError then mSetProperties fst2 kError kError else fst2)
  else
  let numstates2 := NumStates (view fst2) in
  fst2 ← prepend_states fst2 fst1 start2 numstates2;
  let start1 := Start fst1 in
  if negb (start1 =? kNoStateId) then
    let fst2 := mSetStart fst2 (start1 + numstates2) in
    Some (mSetProperties fst2 (ConcatProperties props1 props2 false) kFstProperties)
  else if has props1 kError then Some (mSetProperties fst2 kError kError)
  else let '(fst2, s) := mAddState fst2 in Some (mSetStart fst2 s).

(* closure.h:49-56 Closure *)
Definition close_finals (x : F) (start : Z) : option F :=
  foldM (λ x s,
      let weight := Final (view x) s in
      if wneqb weight Zero then mAddArc x s (MkArc 0 0 weight start) else Some x)
    (seqZ 0 (NumStates (view x))) x.

(* closure.h:45-66 Closure *)
Definition Closure (fst : F) (closure_type : ClosureType) : option F :=
  let props := mProperties fst kFstProperties in
  let start := Start (view fst) in
  let star := match closure_type with CLOSURE_STAR => true | CLOSURE_PLUS => false end in
  fst ← (if negb (start =? kNoStateId) then close_finals fst start else Some fst);
  fst ← (if star then
           let '(fst, nstart) := mAddState fst in
           let fst := mSetStart fst nstart in
           fst ← mSetFinal fst nstart One;
           if negb (start =? kNoStateId)
           then mAddArc fst nstart (ArcOne 0 0 start) else Some fst
         else Some fst);
  Some (mSetProperties fst (ClosureProperties props star false) kFstProperties).
End operations.

(** * What the loops compute *)

Section abstract_append.
Context `{WeightOps W}.
Implicit Types (f g : Fst W).

(** The states of [f] and after them the first [k] of [g]. *)
Definition abs_append f g (k : Z) : Fst W :=
  let n := NumStates f in
  Build_Fst W (Start f) (n + k)
    (λ s, if decide (s < n) then Final f s
          else if decide (s < n + k) then Final g (s - n) else Zero)
    (λ s, if decide (s < n) then Arcs f s
          else if decide (s < n + k) then shift_arc n <$> Arcs g (s - n) else [])
    (FstProperties f) (InputSymbols f) (OutputSymbols f).

Definition abs_add_arcs f (s : Z) (l : list (Arc W)) : Fst W := abs_set_arcs f s (Arcs f s ++ l).

#[global] Instance abs_add_states_proper n : Proper ((≡) ==> (≡)) (λ f : Fst W, abs_add_states f n).
Proof. intros f g (HS & HN & HF & HA). repeat split; simpl; [done|by rewrite HN|done|done]. Qed.

#[global] Instance abs_set_start_proper s : Proper ((≡) ==> (≡)) (λ f : Fst W, abs_set_start f s).
Proof. intros f g (HS & HN & HF & HA). by repeat split. Qed.

#[global] Instance abs_set_final_proper s w : Proper ((≡) ==> (≡)) (λ f : Fst W, abs_set_final f s w).
Proof. intros f g (HS & HN & HF & HA). repeat split; simpl; try done. intros u. by rewrite HF. Qed.

#[global] Instance abs_add_arcs_proper s l : Proper ((≡) ==> (≡)) (λ f : Fst W, abs_add_arcs f s l).
Proof. intros f g (HS & HN & HF & HA). repeat split; simpl; try done. intros u. by rewrite !HA. Qed.

#[global] Instance abs_add_arc_proper s a : Proper ((≡) ==> (≡)) (λ f : Fst W, abs_add_arc f s a).
Proof. intros f g (HS & HN & HF & HA). repeat split; simpl; try done. intros u. by rewrite !HA. Qed.

Lemma abs_append_0 f g : tight f → abs_append f g 0 ≡ f.
Proof.
  intros Ht. repeat split; simpl; [lia|..]; intros s; rewrite Z.add_0_r;
    case_decide; try done; (destruct (Ht s) as [HF HA]; [unfold valid; lia|by rewrite ?HF, ?HA]).
Qed.

Lemma abs_append_S f g k :
  0 ≤ NumStates f → 0 ≤ k →
  abs_add_arcs (abs_set_final (abs_add_states (abs_append f g k) 1) (NumStates f + k) (Final g k))
    (NumStates f + k) (shift_arc (NumStates f) <$> Arcs g k) ≡ abs_append f g (k + 1).
Proof.
  intros Hn Hk. repeat split; simpl; [lia|..]; intros s.
  - destruct (decide (s = NumStates f + k)) as [->|].
    + rewrite !decide_False, decide_True by lia. f_equal. lia.
    + repeat case_decide; try done; lia.
  - destruct (decide (s = NumStates f + k)) as [->|].
    + rewrite !decide_False, decide_True by lia. simpl.
      by replace (NumStates f + k - NumStates f) with k by lia.
    + repeat case_decide; try done; lia.
Qed.

Lemma abs_add_arcs_nil f s : abs_add_arcs f s [] ≡ f.
Proof.
  repeat split; simpl; try done. intros u. case_decide; [|done]. subst. by rewrite app_nil_r.
Qed.

Lemma abs_add_arcs_cons f s a l :
  abs_add_arcs (abs_add_arc f s a) s l ≡ abs_add_arcs f s (a :: l).
Proof.
  repeat split; simpl; try done. intros u. case_decide; [|done].
  rewrite decide_True by done. by rewrite <-app_assoc.
Qed.
End abstract_append.

(** * Sequences of mutations *)

Section evolution.
Context `{MutableFstLaws W F}.
Implicit Types (x y : F) (f g : Fst W).

(** [x] was mutated to [y], whose machine is [g]. *)
Definition evolves x y g : Prop := minv y ∧ steps_to x y g.

Lemma evolves_refl x : minv x → evolves x x (view x).
Proof. intros Hx. split; [done|]. by constructor. Qed.

Lemma evolves_trans x y z g (op : Fst W → Fst W) :
  evolves x y g → evolves y z (op (view y)) → Proper ((≡) ==> (≡)) op → evolves x z (op g).
Proof.
  intros [Hy [Hv Hi Ho He Hs]] [Hz [Hv' Hi' Ho' He' Hs']] Hop. split; [done|].
  constructor; [|by rewrite Hi'|by rewrite Ho'|auto..].
  rewrite Hv'. by apply Hop.
Qed.

Lemma evolves_equiv x y f g : evolves x y f → f ≡ g → evolves x y g.
Proof. intros [Hy [Hv Hi Ho He Hs]] Hfg. split; [done|]. constructor; try done. by rewrite Hv. Qed.

Lemma evolves_valid x y g s : evolves x y g → valid g s → valid (view y) s.
Proof. intros [_ [Hv _ _ _ _]] Hs. by rewrite Hv. Qed.

Lemma evolves_add_state x y g :
  evolves x y g → ∃ z, mAddState y = (z, NumStates g) ∧ evolves x z (abs_add_states g 1).
Proof.
  intros Hxy. pose proof Hxy as [Hy [Hv _ _ _ _]].
  destruct (mAddState_steps y Hy) as (z & Hz & Hiz & Hs). exists z. rewrite Hz.
  pose proof Hv as (_ & <- & _). split; [done|].
  by eapply (evolves_trans x y z g (λ f, abs_add_states f 1)); [|split|apply _].
Qed.

Lemma evolves_set_start x y g s : evolves x y g → evolves x (mSetStart y s) (abs_set_start g s).
Proof.
  intros Hxy. pose proof Hxy as [Hy _]. destruct (mSetStart_steps y s Hy).
  by eapply (evolves_trans x y _ g (λ f, abs_set_start f s)); [|split|apply _].
Qed.

Lemma evolves_set_final x y g s w :
  evolves x y g → valid g s → ∃ z, mSetFinal y s w = Some z ∧ evolves x z (abs_set_final g s w).
Proof.
  intros Hxy Hs. pose proof Hxy as [Hy _].
  destruct (mSetFinal_steps y s w Hy) as (z & Hz & ? & ?); [by eapply evolves_valid|].
  exists z. split; [done|].
  by eapply (evolves_trans x y z g (λ f, abs_set_final f s w)); [|split|apply _].
Qed.

Lemma evolves_add_arc x y g s a :
  evolves x y g → valid g s → ∃ z, mAddArc y s a = Some z ∧ evolves x z (abs_add_arc g s a).
Proof.
  intros Hxy Hs. pose proof Hxy as [Hy _].
  destruct (mAddArc_steps y s a Hy) as (z & Hz & ? & ?); [by eapply evolves_valid|].
  exists z. split; [done|].
  by eapply (evolves_trans x y z g (λ f, abs_add_arc f s a)); [|split|apply _].
Qed.

Lemma append_arcs_evolves x y g s n l :
  evolves x y g → valid g s →
  ∃ z, append_arcs y s n l = Some z ∧ evolves x z (abs_add_arcs g s (shift_arc n <$> l)).
Proof.
  unfold append_arcs. revert y g. induction l as [|a l IH]; intros y g Hxy Hs; simpl.
  - exists y. split; [done|]. eapply evolves_equiv; [done|]. by rewrite abs_add_arcs_nil.
  - destruct (evolves_add_arc x y g s (shift_arc n a) Hxy Hs) as (y' & -> & Hy'). simpl.
    destruct (IH y' _ Hy') as (z & Hz & Hxz); [done|].
    exists z. split; [done|]. eapply evolves_equiv; [done|]. apply abs_add_arcs_cons.
Qed.

Lemma append_states_evolves x (fst2 : Fst W) :
  minv x → 0 ≤ NumStates fst2 →
  ∃ y, append_states x fst2 (NumStates (view x)) = Some y ∧
    evolves x y (abs_append (view x) fst2 (NumStates fst2)).
Proof.
  intros Hx Hn. unfold append_states. pose proof (view_nonneg x) as Hn0.
  destruct (foldM_total (λ y s2,
      let '(y, s1) := mAddState y in
      y ← mSetFinal y s1 (Final fst2 s2);
      append_arcs y s1 (NumStates (view x)) (Arcs fst2 s2))
    (λ done y, evolves x y (abs_append (view x) fst2 (zlen done))) (seqZ 0 (NumStates fst2)) x)
    as (y & Hy & Hxy).
  - eapply evolves_equiv; [by apply evolves_refl|]. symmetry. apply abs_append_0, view_tight.
  - intros done k todo y [-> Hk]%seqZ_split Hxy.
    rewrite zlen_app, zlen_seqZ, Z.max_r by lia. change (zlen [k]) with 1.
    rewrite zlen_seqZ, Z.max_r in Hxy by lia.
    destruct (evolves_add_state x y _ Hxy) as (y1 & -> & Hy1).
    change (NumStates (abs_append (view x) fst2 k)) with (NumStates (view x) + k).
    destruct (evolves_set_final x y1 _ (NumStates (view x) + k) (Final fst2 k) Hy1) as (y2 & -> & Hy2).
    { unfold valid. simpl. lia. }
    simpl. destruct (append_arcs_evolves x y2 _ (NumStates (view x) + k) (NumStates (view x))
      (Arcs fst2 k) Hy2) as (y3 & -> & Hy3).
    { unfold valid. simpl. lia. }
    exists y3. split; [done|]. eapply evolves_equiv; [done|]. by apply abs_append_S; lia.
  - exists y. split; [done|]. by rewrite zlen_seqZ, Z.max_r in Hxy by done.
Qed.
End evolution.

(** The effect of the loops over final states: an epsilon arc to [t], if any,
with the final weight; which is kept or removed. *)
Section connect.
Context `{MutableFstLaws W F}.
Implicit Types (x y : F) (f g : Fst W).

Definition final_arc (t : option Z) (w : W) : list (Arc W) :=
  match t with Some t => [MkArc 0 0 w t] | None => [] end.

Definition abs_connect (keep : bool) f (t : option Z) (k : Z) : Fst W :=
  Build_Fst W (Start f) (NumStates f)
    (λ s, if decide (0 ≤ s < k) then if wneqb (Final f s) Zero && negb keep then Zero else Final f s
          else Final f s)
    (λ s, if decide (0 ≤ s < k) then if wneqb (Final f s) Zero
                                     then Arcs f s ++ final_arc t (Final f s) else Arcs f s
          else Arcs f s)
    (FstProperties f) (InputSymbols f) (OutputSymbols f).

Lemma abs_connect_0 keep f t : abs_connect keep f t 0 ≡ f.
Proof. repeat split; simpl; try done; intros s; by rewrite decide_False by lia. Qed.

(** One more state, that is or is not final. *)
Lemma abs_connect_skip keep f t k :
  0 ≤ k → wneqb (Final f k) Zero = false → abs_connect keep f t k ≡ abs_connect keep f t (k + 1).
Proof.
  intros Hk Hw. repeat split; simpl; try done; intros s;
    (destruct (decide (s = k)) as [->|];
      [rewrite decide_False, decide_True by lia; by rewrite Hw
      |repeat case_decide; done || lia]).
Qed.

Lemma abs_connect_drop f t k :
  0 ≤ k → wneqb (Final f k) Zero = true →
  abs_add_arcs (abs_set_final (abs_connect false f t k) k Zero) k (final_arc t (Final f k))
    ≡ abs_connect false f t (k + 1).
Proof.
  intros Hk Hw. repeat split; simpl; try done; intros s;
    (destruct (decide (s = k)) as [->|];
      [rewrite ?decide_False, ?(decide_True (P := 0 ≤ k < k + 1)) by lia; by rewrite Hw
      |repeat case_decide; done || lia]).
Qed.

Lemma abs_connect_keep f t k :
  0 ≤ k → wneqb (Final f k) Zero = true →
  abs_add_arcs (abs_connect true f t k) k (final_arc t (Final f k)) ≡ abs_connect true f t (k + 1).
Proof.
  intros Hk Hw. repeat split; simpl; try done; intros s;
    (destruct (decide (s = k)) as [->|];
      [rewrite ?decide_False, ?(decide_True (P := 0 ≤ k < k + 1)) by lia; by rewrite Hw
      |repeat case_decide; done || lia]).
Qed.

Lemma evolves_final_arc x y g s t w :
  evolves x y g → valid g s →
  ∃ z, match t with Some t => mAddArc y s (MkArc 0 0 w t) | None => Some y end = Some z ∧
    evolves x z (abs_add_arcs g s (final_arc t w)).
Proof.
  intros Hxy Hs. destruct t as [t|].
  - by apply evolves_add_arc.
  - exists y. split; [done|]. eapply evolves_equiv; [done|]. symmetry. apply abs_add_arcs_nil.
Qed.

(** The target of the final arcs in [Concat]. *)
Definition concat_target (start2 n : Z) : option Z :=
  if start2 =? kNoStateId then None else Some (start2 + n).

Lemma connect_finals_evolves x y g start2 n :
  evolves x y g → 0 ≤ n ≤ NumStates g →
  ∃ z, connect_finals y start2 n = Some z ∧
    evolves x z (abs_connect false g (concat_target start2 n) n).
Proof.
  intros Hxy Hn. unfold connect_finals.
  destruct (foldM_total (λ x s1,
      let weight := Final (view x) s1 in
      if wneqb weight Zero then
        x ← mSetFinal x s1 Zero;
        if negb (start2 =? kNoStateId) then mAddArc x s1 (MkArc 0 0 weight (start2 + n)) else Some x
      else Some x)
    (λ done z, evolves x z (abs_connect false g (concat_target start2 n) (zlen done)))
    (seqZ 0 n) y) as (z & Hz & Hxz).
  - eapply evolves_equiv; [done|]. symmetry. apply abs_connect_0.
  - intros done k todo z [-> Hk]%seqZ_split Hxz.
    rewrite zlen_app, zlen_seqZ, Z.max_r by lia. change (zlen [k]) with 1.
    rewrite zlen_seqZ, Z.max_r in Hxz by lia.
    assert (Final (view z) k = Final g k) as ->.
    { destruct Hxz as [_ [(_ & _ & -> & _) _ _ _ _]]. simpl. by rewrite decide_False by lia. }
    cbv zeta. destruct (wneqb (Final g k) Zero) eqn:Hw.
    + destruct (evolves_set_final x z _ k Zero Hxz) as (z1 & -> & Hz1); [unfold valid; simpl; lia|].
      simpl. destruct (evolves_final_arc x z1 _ k (concat_target start2 n) (Final g k) Hz1)
        as (z2 & Hz2 & Hxz2); [unfold valid; simpl; lia|].
      exists z2. split.
      * rewrite <-Hz2. unfold concat_target. by destruct (start2 =? kNoStateId).
      * eapply evolves_equiv; [done|]. by apply abs_connect_drop; [lia|].
    + exists z. split; [done|]. eapply evolves_equiv; [done|]. by apply abs_connect_skip; [lia|].
  - exists z. split; [done|]. by rewrite zlen_seqZ, Z.max_r in Hxz by lia.
Qed.

Lemma close_finals_evolves x y g start :
  evolves x y g → 0 ≤ NumStates g →
  ∃ z, close_finals y start = Some z ∧
    evolves x z (abs_connect true g (Some start) (NumStates g)).
Proof.
  intros Hxy Hn. unfold close_finals.
  assert (NumStates (view y) = NumStates g) as -> by by destruct Hxy as [_ [(_ & -> & _) _ _ _ _]].
  destruct (foldM_total (λ x s,
      let weight := Final (view x) s in
      if wneqb weight Zero then mAddArc x s (MkArc 0 0 weight start) else Some x)
    (λ done z, evolves x z (abs_connect true g (Some start) (zlen done)))
    (seqZ 0 (NumStates g)) y) as (z & Hz & Hxz).
  - eapply evolves_equiv; [done|]. symmetry. apply abs_connect_0.
  - intros done k todo z [-> Hk]%seqZ_split Hxz.
    rewrite zlen_app, zlen_seqZ, Z.max_r by lia. change (zlen [k]) with 1.
    rewrite zlen_seqZ, Z.max_r in Hxz by lia.
    assert (Final (view z) k = Final g k) as ->.
    { destruct Hxz as [_ [(_ & _ & -> & _) _ _ _ _]]. simpl. by rewrite decide_False by lia. }
    cbv zeta. destruct (wneqb (Final g k) Zero) eqn:Hw.
    + destruct (evolves_final_arc x z _ k (Some start) (Final g k) Hxz)
        as (z2 & Hz2 & Hxz2); [unfold valid; simpl; lia|].
      exists z2. split; [done|]. eapply evolves_equiv; [done|]. by apply abs_connect_keep; [lia|].
    + exists z. split; [done|]. eapply evolves_equiv; [done|]. by apply abs_connect_skip; [lia|].
  - exists z. split; [done|]. by rewrite zlen_seqZ, Z.max_r in Hxz by lia.
Qed.
End connect.

(** The effect of the loop of the second version of [Concat]. *)
Section prepend.
Context `{MutableFstLaws W F}.
Implicit Types (x y : F) (f g : Fst W).

(** The arcs of a state of the machine put in front. *)
Definition prepend_arcs (n t : Z) g (s : Z) : list (Arc W) :=
  (if wneqb (Final g s) Zero then [MkArc 0 0 (Final g s) t] else []) ++ (shift_arc n <$> Arcs g s).

Definition abs_prepend f g (t k : Z) : Fst W :=
  let n := NumStates f in
  Build_Fst W (Start f) (n + k)
    (λ s, if decide (s < n) then Final f s else Zero)
    (λ s, if decide (s < n) then Arcs f s
          else if decide (s < n + k) then prepend_arcs n t g (s - n) else [])
    (FstProperties f) (InputSymbols f) (OutputSymbols f).

Lemma abs_prepend_0 f g t : tight f → abs_prepend f g t 0 ≡ f.
Proof.
  intros Ht. repeat split; simpl; [lia|..]; intros s; rewrite ?Z.add_0_r;
    repeat case_decide; try done; (destruct (Ht s) as [HF HA]; [unfold valid; lia|by rewrite ?HF, ?HA]).
Qed.

Lemma abs_prepend_S f g t k :
  0 ≤ NumStates f → 0 ≤ k →
  abs_add_arcs (abs_add_states (abs_prepend f g t k) 1) (NumStates f + k)
    (prepend_arcs (NumStates f) t g k) ≡ abs_prepend f g t (k + 1).
Proof.
  intros Hn Hk. repeat split; simpl; [lia|]; intros s.
  destruct (decide (s = NumStates f + k)) as [->|].
  - rewrite !decide_False, decide_True by lia. simpl.
    by replace (NumStates f + k - NumStates f) with k by lia.
  - repeat case_decide; try done; lia.
Qed.

Lemma abs_add_arcs_app f s l k :
  abs_add_arcs (abs_add_arcs f s l) s k ≡ abs_add_arcs f s (l ++ k).
Proof.
  repeat split; simpl; try done. intros u. case_decide; [|done].
  rewrite decide_True by done. by rewrite <-app_assoc.
Qed.

Lemma prepend_states_evolves x (fst1 : Fst W) t :
  minv x → 0 ≤ NumStates fst1 →
  ∃ y, prepend_states x fst1 t (NumStates (view x)) = Some y ∧
    evolves x y (abs_prepend (view x) fst1 t (NumStates fst1)).
Proof.
  intros Hx Hn. unfold prepend_states. pose proof (view_nonneg x) as Hn0.
  destruct (foldM_total (λ y s1,
      let '(y, s2) := mAddState y in
      let weight := Final fst1 s1 in
      y ← (if wneqb weight Zero then mAddArc y s2 (MkArc 0 0 weight t) else Some y);
      append_arcs y s2 (NumStates (view x)) (Arcs fst1 s1))
    (λ done y, evolves x y (abs_prepend (view x) fst1 t (zlen done))) (seqZ 0 (NumStates fst1)) x)
    as (y & Hy & Hxy).
  - eapply evolves_equiv; [by apply evolves_refl|]. symmetry. apply abs_prepend_0, view_tight.
  - intros done k todo y [-> Hk]%seqZ_split Hxy.
    rewrite zlen_app, zlen_seqZ, Z.max_r by lia. change (zlen [k]) with 1.
    rewrite zlen_seqZ, Z.max_r in Hxy by lia.
    destruct (evolves_add_state x y _ Hxy) as (y1 & -> & Hy1).
    change (NumStates (abs_prepend (view x) fst1 t k)) with (NumStates (view x) + k).
    set (s2 := NumStates (view x) + k) in *. cbv zeta.
    assert (valid (abs_add_states (abs_prepend (view x) fst1 t k) 1) s2) as Hv
      by (unfold valid; simpl; lia).
    destruct (evolves_final_arc x y1 _ s2 (if wneqb (Final fst1 k) Zero then Some t else None)
      (Final fst1 k) Hy1 Hv) as (y2 & Hy2 & Hxy2).
    assert ((if wneqb (Final fst1 k) Zero then mAddArc y1 s2 (MkArc 0 0 (Final fst1 k) t)
             else Some y1) = Some y2) as ->.
    { rewrite <-Hy2. by destruct (wneqb (Final fst1 k) Zero). }
    simpl. destruct (append_arcs_evolves x y2 _ s2 (NumStates (view x)) (Arcs fst1 k) Hxy2)
      as (y3 & -> & Hy3); [done|].
    exists y3. split; [done|]. eapply evolves_equiv; [done|].
    rewrite abs_add_arcs_app, <-abs_prepend_S by lia. unfold prepend_arcs.
    by destruct (wneqb (Final fst1 k) Zero).
  - exists y. split; [done|]. by rewrite zlen_seqZ, Z.max_r in Hxy by done.
Qed.
End prepend.

(** * The results of the operations *)

Section results.
Context `{MutableFstLaws W F}.
Context (fst_compat_symbols : bool).
Implicit Types (x y : F) (f g : Fst W).

(** Bits that hold of [g] after [SetProperties(p, kFstProperties)]. *)
Lemma steps_view_start x y g : evolves x y g → Start (view y) = Start g.
Proof. by intros [_ [(-> & _) _ _ _ _]]. Qed.

Lemma evolves_sound x y g : evolves x y g → SoundFst (view x) → Sound (FstProperties (view y)) g.
Proof.
  intros [_ [Hv _ _ _ Hs]] Hx. rewrite <-Hv. by apply Hs.
Qed.

Definition abs_union f g (initial_acyclic : bool) : Fst W :=
  let n := NumStates f in
  let h := abs_append f g (NumStates g) in
  if initial_acyclic then abs_add_arc h (Start f) (ArcOne 0 0 (Start g + n))
  else
    let s := n + NumStates g in
    abs_add_arc (abs_add_arc (abs_set_start (abs_add_states h 1) s) s (ArcOne 0 0 (Start f)))
      s (ArcOne 0 0 (Start g + n)).

Lemma Union_result x g :
  minv x → WellFormed (view x) → 0 ≤ NumStates g → valid g (Start g) →
  valid (view x) (Start (view x)) → compat_tables fst_compat_symbols (view x) g = true →
  ∃ y, Union fst_compat_symbols x g =
      Some (mSetProperties y (UnionProperties (mProperties x kFstProperties)
        (FstProperties g &&& kFstProperties) false) kFstProperties) ∧
    evolves x y (abs_union (view x) g (mProperties x kInitialAcyclic =? kInitialAcyclic)).
Proof.
  intros Hx Hwf Hn Hsg Hsf Hc. unfold Union. rewrite Hc. simpl.
  assert (∀ f, valid f (Start f) → Start f =? kNoStateId = false) as Hstart.
  { intros f Hv. apply Z.eqb_neq. unfold kNoStateId, valid in *. lia. }
  rewrite Hstart by done.
  destruct (append_states_evolves x g Hx Hn) as (y & -> & Hxy). simpl.
  rewrite (steps_view_start x y _ Hxy). simpl. rewrite Hstart by done.
  unfold abs_union. destruct (mProperties x kInitialAcyclic =? kInitialAcyclic).
  - destruct (evolves_add_arc x y _ (Start (view x)) (ArcOne 0 0 (Start g + NumStates (view x))) Hxy)
      as (z & -> & Hz); [unfold valid in *; simpl; lia|]. by exists z.
  - destruct (evolves_add_state x y _ Hxy) as (y1 & -> & Hy1). simpl in *.
    apply (evolves_set_start x y1 _ (NumStates (view x) + NumStates g)) in Hy1.
    destruct (evolves_add_arc x _ _ (NumStates (view x) + NumStates g) (ArcOne 0 0 (Start (view x))) Hy1)
      as (y2 & -> & Hy2); [unfold valid in *; simpl; lia|]. simpl.
    destruct (evolves_add_arc x _ _ (NumStates (view x) + NumStates g)
      (ArcOne 0 0 (Start g + NumStates (view x))) Hy2)
      as (y3 & -> & Hy3); [unfold valid in *; simpl; lia|]. by exists y3.
Qed.

Definition abs_concat f g : Fst W :=
  abs_connect false (abs_append f g (NumStates g))
    (concat_target (Start g) (NumStates f)) (NumStates f).

Lemma Concat_result x g :
  minv x → 0 ≤ NumStates g → valid g (Start g) → Start (view x) ≠ kNoStateId →
  compat_tables fst_compat_symbols (view x) g = true →
  ∃ y, Concat fst_compat_symbols x g =
      Some (mSetProperties y (ConcatProperties (mProperties x kFstProperties)
        (FstProperties g &&& kFstProperties) false) kFstProperties) ∧
    evolves x y (abs_concat (view x) g).
Proof.
  intros Hx Hn Hsg Hsf Hc. unfold Concat. rewrite Hc. simpl.
  rewrite (proj2 (Z.eqb_neq _ _) Hsf).
  destruct (append_states_evolves x g Hx Hn) as (y & -> & Hxy). simpl.
  pose proof (view_nonneg x).
  destruct (connect_finals_evolves x y _ (Start g) (NumStates (view x)) Hxy) as (z & -> & Hz);
    [simpl; lia|]. simpl.
  destruct (Z.eqb_spec (Start g) kNoStateId); [unfold kNoStateId, valid in *; lia|].
  by exists z.
Qed.

(** The second version: [f] is put in front of [x]. *)
Definition abs_concat_front f g : Fst W :=
  abs_set_start (abs_prepend g f (Start g) (NumStates f)) (Start f + NumStates g).

Lemma Concat_front_result f x :
  minv x → 0 ≤ NumStates f → valid f (Start f) → Start (view x) ≠ kNoStateId →
  compat_tables fst_compat_symbols f (view x) = true →
  ∃ y, Concat_front fst_compat_symbols f x =
      Some (mSetProperties y (ConcatProperties (FstProperties f &&& kFstProperties)
        (mProperties x kFstProperties) false) kFstProperties) ∧
    evolves x y (abs_concat_front f (view x)).
Proof.
  intros Hx Hn Hsf Hsx Hc. unfold Concat_front. rewrite Hc. simpl.
  rewrite (proj2 (Z.eqb_neq _ _) Hsx).
  destruct (prepend_states_evolves x f (Start (view x)) Hx Hn) as (y & -> & Hxy). simpl.
  destruct (Z.eqb_spec (Start f) kNoStateId); [unfold kNoStateId, valid in *; lia|]. simpl.
  eexists. split; [done|]. by apply evolves_set_start.
Qed.

Definition abs_closure f (star : bool) : Fst W :=
  let h := abs_connect true f (Some (Start f)) (NumStates f) in
  let s := NumStates f in
  if star then
    abs_add_arc (abs_set_final (abs_set_start (abs_add_states h 1) s) s One) s
      (ArcOne 0 0 (Start f))
  else h.

Lemma Closure_result x (t : ClosureType) :
  minv x → valid (view x) (Start (view x)) →
  ∃ y, Closure x t =
      Some (mSetProperties y (ClosureProperties (mProperties x kFstProperties)
        (match t with CLOSURE_STAR => true | CLOSURE_PLUS => false end) false) kFstProperties) ∧
    evolves x y (abs_closure (view x) (match t with CLOSURE_STAR => true | CLOSURE_PLUS => false end)).
Proof.
  intros Hx Hs. unfold Closure.
  destruct (Z.eqb_spec (Start (view x)) kNoStateId); [unfold kNoStateId, valid in *; lia|]. simpl.
  destruct (close_finals_evolves x x _ (Start (view x)) (evolves_refl x Hx) (view_nonneg x))
    as (y & -> & Hxy). simpl.
  destruct t; [|by exists y].
  destruct (evolves_add_state x y _ Hxy) as (y1 & -> & Hy1). simpl in *.
  apply (evolves_set_start x y1 _ (NumStates (view x))) in Hy1. simpl in *.
  pose proof (view_nonneg x).
  destruct (evolves_set_final x _ _ (NumStates (view x)) One Hy1) as (y2 & -> & Hy2);
    [unfold valid; simpl; lia|]. simpl.
  destruct (evolves_add_arc x _ _ (NumStates (view x)) (ArcOne 0 0 (Start (view x))) Hy2)
    as (y3 & -> & Hy3); [unfold valid; simpl; lia|]. by exists y3.
Qed.
End results.
