(* ===== verification/RationalLang.v ===== *)
(** The languages of the rational operations of Rational.v: union, concatenation
(both versions) and closure accept exactly the weighted string pairs their
documentation says.  The machines are taken apart as copies of the operands
([embeds]) joined by extra epsilon arcs ([extends]). *)
From S2P Require Import Prelude Weight FloatWeight Properties SymbolTable Fst VectorFst Mutation.
From S2P Require Import VectorSound MutableFst Rational.
Local Open Scope Z_scope.

(** * Machines inside machines *)

Section embedding.
Context `{WeightOps W}.
Implicit Types (f g h : Fst W).

(** [h] has a copy of [g] at its states [o], [o + 1] ..., with no arcs added. *)
Definition embeds (o : Z) g h : Prop :=
  ∀ s, valid g s → valid h (o + s) ∧ Arcs h (o + s) = shift_arc o <$> Arcs g s.

(** [h] has the states of [base] and its arcs and those of [X]. *)
Record extends base h (X : Z → Arc W → Prop) : Prop := {
  extends_states : ∀ s, valid h s ↔ valid base s;
  extends_arcs : ∀ s a, valid base s → a ∈ Arcs h s ↔ a ∈ Arcs base s ∨ X s a;
}.

Lemma shift_arc_0 (a : Arc W) : shift_arc 0 a = a.
Proof. destruct a. unfold shift_arc, set_nextstate. simpl. f_equal. lia. Qed.

Lemma shift_arcs_0 (l : list (Arc W)) : shift_arc 0 <$> l = l.
Proof. rewrite <-(list_fmap_id l) at 2. apply list_fmap_ext. intros. apply shift_arc_0. Qed.

Lemma istring_shift o (p : list (Arc W)) : istring (shift_arc o <$> p) = istring p.
Proof. unfold istring. by rewrite <-list_fmap_compose. Qed.

Lemma ostring_shift o (p : list (Arc W)) : ostring (shift_arc o <$> p) = ostring p.
Proof. unfold ostring. by rewrite <-list_fmap_compose. Qed.

Lemma path_weight_shift o (p : list (Arc W)) w : path_weight (shift_arc o <$> p) w = path_weight p w.
Proof. induction p as [|a p IH]; simpl; [done|by f_equal]. Qed.

Lemma embeds_path o g h s p t :
  embeds o g h → path g s p t → path h (o + s) (shift_arc o <$> p) (o + t).
Proof.
  intros He. induction 1 as [s Hs|s a p t Hs Ha Hp IH]; destruct (He s Hs) as [Hv Harcs].
  - by constructor.
  - simpl. constructor; [done| |].
    + rewrite Harcs. apply list_elem_of_fmap. by exists a.
    + simpl. by rewrite Z.add_comm.
Qed.

Lemma embeds_path_inv o g h s p t :
  embeds o g h → wf_arcs g → valid g s → path h (o + s) p t →
  ∃ q u, p = shift_arc o <$> q ∧ t = o + u ∧ path g s q u.
Proof.
  intros He Hwf Hs Hp. remember (o + s) as s' eqn:Hs'. revert s Hs Hs'.
  induction Hp as [s' Hv|s' b p t Hv Hb Hp IH]; intros s Hs ->; destruct (He s Hs) as [_ Harcs].
  - exists [], s. split_and!; [done..|]. by constructor.
  - rewrite Harcs in Hb. apply list_elem_of_fmap in Hb as (a & -> & Ha).
    pose proof (Hwf s a Hs Ha) as Hna.
    destruct (IH (nextstate a) Hna) as (q & u & -> & -> & Hq); [simpl; lia|].
    exists (a :: q), u. split_and!; [done..|]. by constructor.
Qed.

Lemma embeds_rtc o g h s t : embeds o g h → rtc (edge g) s t → rtc (edge h) (o + s) (o + t).
Proof.
  intros He. induction 1 as [|s u t (Hs & a & Ha & <-) _ IH]; [done|].
  eapply rtc_l; [|done]. destruct (He s Hs) as [Hv Harcs]. split; [done|].
  exists (shift_arc o a). split; [|simpl; lia]. rewrite Harcs. apply list_elem_of_fmap. by exists a.
Qed.

Lemma extends_path base h X s p t : extends base h X → path base s p t → path h s p t.
Proof.
  intros [Hv Ha]. induction 1; constructor; try (by apply Hv); [|done]. apply Ha; auto.
Qed.

Lemma extends_split base h X s p t :
  extends base h X → path h s p t →
  path base s p t ∨
  ∃ p1 a p2 u, p = p1 ++ a :: p2 ∧ path base s p1 u ∧ X u a ∧ path h (nextstate a) p2 t.
Proof.
  intros [Hv Ha]. induction 1 as [s Hs|s a p t Hs Hin Hp IH].
  - left. constructor. by apply Hv.
  - apply Hv in Hs as Hs'. apply Ha in Hin as [Hin|Hx]; [|right|done].
    + destruct IH as [IH|(p1 & b & p2 & u & -> & Hp1 & Hx & Hp2)].
      * left. by constructor.
      * right. exists (a :: p1), b, p2, u. split_and!; [done| |done|done]. by constructor.
    + exists [], a, p, s. split_and!; [done| |done|done]. by constructor.
Qed.
End embedding.

Section append.
Context `{WeightOps W}.
Implicit Types (f g h : Fst W).

Lemma append_embeds_l f g m : 0 ≤ m → embeds 0 f (abs_append f g m).
Proof.
  intros Hm s Hs. unfold valid in *. simpl. rewrite decide_True, shift_arcs_0 by lia.
  split; [lia|done].
Qed.

Lemma append_embeds_r f g : 0 ≤ NumStates f → embeds (NumStates f) g (abs_append f g (NumStates g)).
Proof.
  intros Hn s Hs. unfold valid in *. simpl. rewrite decide_False, decide_True by lia.
  split; [lia|]. do 2 f_equal. lia.
Qed.

Lemma eps_strings a (p q : list (Arc W)) :
  ilabel a = 0 → olabel a = 0 →
  istring (p ++ a :: q) = istring p ++ istring q ∧ ostring (p ++ a :: q) = ostring p ++ ostring q.
Proof.
  intros Hi Ho. rewrite istring_app, ostring_app. unfold istring, ostring, labels.
  rewrite !fmap_cons, Hi, Ho. by rewrite !filter_cons, !decide_False by (intros ?; done).
Qed.
End append.

(** * Concatenation *)

Section concat_language.
Context `{TimesMonoid W}.
Implicit Types (f g h : Fst W).

(** The pairs of the concatenation of two machines. *)
Definition concat_accepts f g (x y : list Z) (w : W) : Prop :=
  ∃ x1 x2 y1 y2 w1 w2, x = x1 ++ x2 ∧ y = y1 ++ y2 ∧
    accepts f x1 y1 w1 ∧ accepts g x2 y2 w2 ∧ w ≡ Times w1 w2.

(** [h] is [f] at offset [o] joined to [g] at offset [o'] through the final
weights of [f]. *)
Record joined f g h (o o' : Z) (base : Fst W) : Prop := {
  joined_base : embeds o f base;
  joined_g : embeds o' g h;
  joined_extends : extends base h (λ s a, ∃ u, s = o + u ∧ is_final f u ∧
    a = MkArc 0 0 (Final f u) (o' + Start g));
  joined_f_final : ∀ u, valid f u → ¬ is_final h (o + u);
  joined_g_final : ∀ v, valid g v → Final h (o' + v) = Final g v;
  joined_start : Start h = o + Start f;
}.

Lemma accepts_member f x y w :
  member_weights f → accepts f x y w → ∃ w', w' ≡ w ∧ Member w' = true.
Proof.
  intros [Ha Hf] (p & t & Hp & [Ht _] & _ & _ & Hw). exists (path_weight p (Final f t)).
  split; [done|]. apply path_weight_member; [by eapply path_member|by apply Hf].
Qed.

Lemma joined_language f g h o o' base :
  joined f g h o o' base → wf_arcs f → wf_arcs g → valid f (Start f) → valid g (Start g) →
  member_weights f → member_weights g →
  ∀ x y w, accepts h x y w ↔ concat_accepts f g x y w.
Proof.
  intros [Hbase Hg Hext Hff Hgf Hst] Hwf Hwg Hsf Hsg [Mf Mff] [Mg Mgf] x y w. split.
  - intros (p & t & Hp & Hfin & <- & <- & Hw). rewrite Hst in Hp.
    apply (extends_split base h _ _ _ _ Hext) in Hp as [Hp|(p1 & a & p2 & u & -> & Hp1 & Hx & Hp2)].
    + destruct (embeds_path_inv _ _ _ _ _ _ Hbase Hwf Hsf Hp) as (q & u & -> & -> & Hq).
      exfalso. apply (Hff u); [by eapply path_valid_r|done].
    + destruct (embeds_path_inv _ _ _ _ _ _ Hbase Hwf Hsf Hp1) as (q1 & u1 & -> & -> & Hq1).
      destruct Hx as (u' & Hu & Hfu & ->). assert (u' = u1) as -> by lia. simpl in Hp2.
      destruct (embeds_path_inv _ _ _ _ _ _ Hg Hwg Hsg Hp2) as (q2 & v & -> & -> & Hq2).
      assert (valid g v) as Hv by by eapply path_valid_r.
      destruct (eps_strings (MkArc 0 0 (Final f u1) (o' + Start g)) (shift_arc o <$> q1)
        (shift_arc o' <$> q2)) as [-> ->]; [done..|].
      rewrite !istring_shift, !ostring_shift. rewrite Hgf in Hw by done.
      exists (istring q1), (istring q2), (ostring q1), (ostring q2),
        (path_weight q1 (Final f u1)), (path_weight q2 (Final g v)).
      split_and!; [done|done| | |].
      * by exists q1, u1.
      * exists q2, v. split_and!; try done. split; [done|].
        destruct Hfin as [_ Hfin]. by rewrite Hgf in Hfin.
      * rewrite <-Hw, path_weight_app. simpl. rewrite !path_weight_shift. symmetry.
        rewrite path_weight_Times; [done|exact (path_member f _ _ _ Mf Hq1)|apply Mff, Hfu|].
        apply path_weight_member; [exact (path_member g _ _ _ Mg Hq2)|by apply Mgf].
  - intros (x1 & x2 & y1 & y2 & w1 & w2 & -> & -> & (q1 & u & Hq1 & Hfu & <- & <- & Hw1)
      & (q2 & v & Hq2 & Hfv & <- & <- & Hw2) & Hw).
    assert (valid g v) as Hv by by eapply path_valid_r.
    exists ((shift_arc o <$> q1) ++ MkArc 0 0 (Final f u) (o' + Start g) :: (shift_arc o' <$> q2)), (o' + v).
    destruct (eps_strings (MkArc 0 0 (Final f u) (o' + Start g)) (shift_arc o <$> q1)
      (shift_arc o' <$> q2)) as [-> ->]; [done..|].
    rewrite !istring_shift, !ostring_shift. split_and!; [|split|done|done|].
    + rewrite Hst. eapply path_app.
      * eapply extends_path; [done|]. by apply (embeds_path o f base).
      * assert (valid base (o + u)) as Hbu by (apply Hbase; by eapply path_valid_r).
        constructor; [by apply Hext| |by apply (embeds_path o' g h)].
        apply Hext; [done|]. right. exists u. done.
    + by apply Hg.
    + rewrite Hgf by done. by destruct Hfv.
    + rewrite Hgf by done. rewrite path_weight_app. simpl. rewrite !path_weight_shift, Hw, <-Hw1, <-Hw2.
      rewrite path_weight_Times; [done|exact (path_member f _ _ _ Mf Hq1)|apply Mff, Hfu|].
      apply path_weight_member; [exact (path_member g _ _ _ Mg Hq2)|by apply Mgf].
Qed.

Lemma abs_concat_joined f g :
  0 ≤ NumStates f → 0 ≤ NumStates g → valid g (Start g) →
  joined f g (abs_concat f g) 0 (NumStates f) (abs_append f g (NumStates g)).
Proof.
  intros Hn Hm Hsg. unfold abs_concat, concat_target.
  destruct (Z.eqb_spec (Start g) kNoStateId); [unfold kNoStateId, valid in *; lia|].
  assert (∀ s, 0 ≤ s < NumStates f → Arcs (abs_append f g (NumStates g)) s = Arcs f s ∧
    Final (abs_append f g (NumStates g)) s = Final f s) as Hl.
  { intros s Hs. simpl. by rewrite !decide_True by lia. }
  split.
  - by apply append_embeds_l.
  - intros s Hs. destruct (append_embeds_r f g Hn s Hs) as [Hv Ha]. split; [done|].
    rewrite <-Ha. simpl. by rewrite (decide_False (P := 0 ≤ NumStates f + s < _)) by (unfold valid in Hs; lia).
  - split; [done|]. intros s a Hs. unfold is_final, valid in *. cbn [abs_connect Arcs NumStates] in *.
    case_decide as Hd.
    + destruct (Hl s Hd) as [-> ->]. destruct (weqb (Final f s) Zero) eqn:Hw; simpl.
      * split; [by left|]. intros [?|(u & -> & [_ Hu] & _)]; [done|].
        change (0 + u) with u in Hw. congruence.
      * rewrite elem_of_app, list_elem_of_singleton, Z.add_comm. split.
        -- intros [?| ->]; [by left|right]. by exists s.
        -- intros [?|(u & -> & _ & ->)]; auto.
    + split; [by left|]. intros [?|(u & -> & [? _] & _)]; [done|lia].
  - intros u Hu [_ Hfin]. revert Hfin. cbn [abs_connect Final]. unfold valid in Hu.
    rewrite decide_True by lia. destruct (Hl (0 + u)) as [_ ->]; [lia|].
    destruct (weqb (Final f (0 + u)) Zero) eqn:Hw; simpl; [by rewrite Hw|].
    by rewrite weqb_Zero_refl.
  - intros v Hv. unfold valid in Hv. simpl. rewrite decide_False, decide_False, decide_True by lia.
    f_equal. lia.
  - done.
Qed.

Lemma abs_concat_front_joined f g :
  0 ≤ NumStates f → 0 ≤ NumStates g →
  joined f g (abs_concat_front f g) (NumStates g) 0
    (abs_append g (Build_Fst W (Start f) (NumStates f) (λ _, Zero) (Arcs f) 0 None None) (NumStates f)).
Proof.
  intros Hn Hm. split.
  - intros s Hs. by apply (append_embeds_r g (Build_Fst W (Start f) (NumStates f) (λ _, Zero) (Arcs f) 0 None None)).
  - intros s Hs. unfold valid in *. simpl. rewrite decide_True, shift_arcs_0 by lia. split; [lia|done].
  - split; [done|]. intros s a Hs. unfold valid, is_final in *. simpl in *. case_decide.
    + split; [by left|]. intros [?|(u & -> & [? _] & _)]; [done|unfold valid in *; lia].
    + rewrite !decide_True by lia. unfold prepend_arcs. rewrite elem_of_app.
      destruct (weqb (Final f (s - NumStates g)) Zero) eqn:Hw; simpl.
      * split; [intros [[]%not_elem_of_nil|?]; by left|]. intros [?|(u & -> & [_ Hu] & _)]; [by right|].
        replace (NumStates g + u - NumStates g) with u in Hw by lia. congruence.
      * rewrite list_elem_of_singleton. split.
        -- intros [->|?]; [right|by left]. exists (s - NumStates g). unfold valid.
           split_and!; [lia..|done|done].
        -- intros [?|(u & -> & _ & ->)]; [by right|left].
           by replace (NumStates g + u - NumStates g) with u by lia.
  - intros u Hu [_ Hfin]. revert Hfin. unfold valid in Hu. simpl. rewrite decide_False by lia.
    by rewrite weqb_Zero_refl.
  - intros v Hv. unfold valid in Hv. simpl. by rewrite decide_True by lia.
  - simpl. lia.
Qed.
End concat_language.

(** * Union *)

Section union_language.
Context `{TimesMonoid W}.
Implicit Types (f g h : Fst W).

(** A copy accepts what the original does. *)
Lemma embeds_accepts o g h s x y w :
  embeds o g h → (∀ v, valid g v → Final h (o + v) = Final g v) → wf_arcs g → valid g s →
  accepts_from h (o + s) x y w ↔ accepts_from g s x y w.
Proof.
  intros He Hf Hwf Hs. split.
  - intros (p & t & Hp & Hfin & <- & <- & Hw).
    destruct (embeds_path_inv _ _ _ _ _ _ He Hwf Hs Hp) as (q & u & -> & -> & Hq).
    assert (valid g u) as Hu by by eapply path_valid_r.
    rewrite Hf, path_weight_shift in Hw by done.
    exists q, u. rewrite istring_shift, ostring_shift. split_and!; try done.
    destruct Hfin as [_ Hfin]. by rewrite Hf in Hfin.
  - intros (q & u & Hq & [Hu Hfin] & <- & <- & Hw).
    exists (shift_arc o <$> q), (o + u). rewrite istring_shift, ostring_shift, path_weight_shift, Hf by done.
    split_and!; try done; [by apply (embeds_path o g)|].
    split; [by apply He|by rewrite Hf].
Qed.

(** An epsilon arc of weight [One] passes on what its target accepts. *)
Lemma eps_weight f p t (a : Arc W) :
  member_weights f → path f (nextstate a) p t → valid f t → weight a = One →
  path_weight (a :: p) (Final f t) ≡ path_weight p (Final f t).
Proof.
  intros [Ma Mf] Hp Ht Ha. simpl. rewrite Ha. apply Times_One_l.
  apply path_weight_member; [by eapply path_member|by apply Mf].
Qed.

Lemma accepts_from_eps h s t x y w :
  member_weights h → valid h s → ArcOne 0 0 t ∈ Arcs h s →
  accepts_from h t x y w → accepts_from h s x y w.
Proof.
  intros Hm Hs Ha (p & u & Hp & [Hu Hf] & <- & <- & Hw).
  exists (ArcOne 0 0 t :: p), u. split_and!; [by constructor|done| | |].
  - by apply (eps_strings (ArcOne 0 0 t) [] p).
  - by apply (eps_strings (ArcOne 0 0 t) [] p).
  - by rewrite (eps_weight h p u (ArcOne 0 0 t)).
Qed.

Lemma accepts_from_eps_inv h p u t :
  member_weights h → path h t p u → is_final h u →
  accepts_from h t (istring (ArcOne 0 0 t :: p)) (ostring (ArcOne 0 0 t :: p))
    (path_weight (ArcOne 0 0 t :: p) (Final h u)).
Proof.
  intros Hm Hp Hu. exists p, u. split_and!; [done|done| | |].
  - symmetry. by apply (eps_strings (ArcOne 0 0 t) [] p).
  - symmetry. by apply (eps_strings (ArcOne 0 0 t) [] p).
  - symmetry. apply (eps_weight h p u (ArcOne 0 0 t)); [done|done|by destruct Hu|done].
Qed.

Lemma append_final_l f g m u : valid f u → 0 ≤ m → Final (abs_append f g m) (0 + u) = Final f u.
Proof. intros Hu Hm. unfold valid in Hu. simpl. by rewrite decide_True by lia. Qed.

Lemma append_final_r f g v :
  0 ≤ NumStates f → valid g v → Final (abs_append f g (NumStates g)) (NumStates f + v) = Final g v.
Proof.
  intros Hn Hv. unfold valid in Hv. simpl. rewrite decide_False, decide_True by lia. f_equal. lia.
Qed.

Lemma append_members f g :
  0 ≤ NumStates f → 0 ≤ NumStates g → member_weights f → member_weights g →
  member_weights (abs_append f g (NumStates g)).
Proof.
  intros Hn Hm [Mf Mff] [Mg Mgf]. split.
  - intros s a Hs Ha. unfold valid in Hs. simpl in *. case_decide; [apply (Mf s a); [unfold valid; lia|done]|].
    rewrite decide_True in Ha by lia. apply list_elem_of_fmap in Ha as (b & -> & Hb).
    apply (Mg (s - NumStates f) b); [unfold valid; lia|done].
  - intros s Hs. unfold valid in Hs. simpl in *. case_decide; [apply Mff; unfold valid; lia|].
    rewrite decide_True by lia. apply Mgf. unfold valid. lia.
Qed.

Lemma add_arc_members f s a :
  member_weights f → Member (weight a) = true → member_weights (abs_add_arc f s a).
Proof.
  intros [Mf Mff] Ha. split; [|done]. intros u b Hu Hb. simpl in Hb. case_decide; [|by apply (Mf u b)].
  apply elem_of_snoc in Hb as [Hb| ->]; [|done]. subst. by apply (Mf s b).
Qed.

Lemma union_members f g b :
  WellFormed f → WellFormed g → member_weights f → member_weights g →
  member_weights (abs_union f g b).
Proof.
  intros (Hn & _) (Hm & _) Mf Mg. pose proof (append_members f g Hn Hm Mf Mg) as [Ma Ms].
  unfold abs_union. destruct b; repeat (apply add_arc_members; [|apply One_member]); [done|].
  split.
  - intros s a Hs Ha. unfold valid in Hs. simpl in *. apply (Ma s a); [|done].
    destruct (decide (s < NumStates f + NumStates g)); [unfold valid; simpl; lia|].
    rewrite !decide_False in Ha by lia. by apply not_elem_of_nil in Ha.
  - intros s Hs. unfold valid in Hs. simpl in *.
    assert (s < NumStates f + NumStates g ∨ ¬ s < NumStates f + NumStates g) as [Hlt|] by lia;
      [apply Ms; unfold valid; simpl; lia|].
    rewrite !decide_False by lia. apply Zero_member.
Qed.

(** The copies in the union. *)
Lemma union_embeds_r f g b :
  WellFormed f → valid f (Start f) → embeds (NumStates f) g (abs_union f g b).
Proof.
  intros (Hn & _) Hsf s Hs. destruct (append_embeds_r f g Hn s Hs) as [Hv Ha].
  unfold valid in *. rewrite <-Ha. destruct b; simpl in *; rewrite ?decide_False by lia; split; done || lia.
Qed.

Lemma union_embeds_l f g :
  WellFormed f → WellFormed g → embeds 0 f (abs_union f g false).
Proof.
  intros (Hn & _) (Hm & _) s Hs. destruct (append_embeds_l f g (NumStates g) Hm s Hs) as [Hv Ha].
  unfold valid in *. rewrite <-Ha. simpl in *. rewrite !(decide_False (P := s = _)) by lia.
  split; done || lia.
Qed.

Lemma union_final_l f g b u :
  WellFormed f → WellFormed g → valid f u → Final (abs_union f g b) (0 + u) = Final f u.
Proof.
  intros (Hn & _) (Hm & _) Hu. rewrite <-(append_final_l f g (NumStates g) u Hu Hm).
  by destruct b.
Qed.

Lemma union_final_r f g b v :
  WellFormed f → valid g v → Final (abs_union f g b) (NumStates f + v) = Final g v.
Proof. intros (Hn & _) Hv. rewrite <-(append_final_r f g v Hn Hv). by destruct b. Qed.

Lemma union_extends f g :
  extends (abs_append f g (NumStates g)) (abs_union f g true)
    (λ s a, s = Start f ∧ a = ArcOne 0 0 (Start g + NumStates f)).
Proof.
  split; [done|]. intros s a _. simpl.
  destruct (decide (s = Start f)) as [->|]; [rewrite elem_of_snoc|]; naive_solver.
Qed.

(** With an initially acyclic first machine the epsilon arc leaves from its start. *)
Lemma union_start_acyclic f g x y w :
  WellFormed f → WellFormed g → valid f (Start f) → valid g (Start g) →
  member_weights f → member_weights g → ¬ tc (edge f) (Start f) (Start f) →
  accepts (abs_union f g true) x y w → accepts f x y w ∨ accepts g x y w.
Proof.
  intros Wf Wg Hsf Hsg Mf Mg Hac (p & t & Hp & Hfin & Hx & Hy & Hw).
  pose proof Wf as (Hn & Hwf & _). pose proof Wg as (Hm & Hwg & _).
  pose proof (union_extends f g) as Hext.
  destruct (extends_split _ _ _ _ _ _ Hext Hp) as [Hp'|(p1 & a & p2 & u & -> & Hp1 & [-> ->] & Hp2)].
  - left. apply (embeds_accepts 0 f (abs_append f g (NumStates g))); try done.
    + by apply append_embeds_l.
    + intros v Hv. by apply append_final_l.
    + by exists p, t.
  - right. assert (p1 = []) as ->.
    { destruct (embeds_path_inv 0 f _ (Start f) _ _ (append_embeds_l f g (NumStates g) Hm) Hwf Hsf Hp1)
        as (q & v & -> & Hv & Hq). assert (v = Start f) as -> by lia.
      inversion Hq as [|s b q' v' Hs Hb Hq']; subst; [done|]. exfalso. apply Hac.
      apply (tc_rtc_r _ (nextstate b)); [|by eapply path_rtc].
      apply tc_once. split; [done|by exists b]. }
    cbn [nextstate ArcOne] in Hp2. rewrite <-Hx, <-Hy, <-Hw.
    apply (embeds_accepts (NumStates f) g (abs_union f g true)); try done.
    + by apply union_embeds_r.
    + intros v Hv. by apply union_final_r.
    + rewrite (Z.add_comm (NumStates f)).
      by apply accepts_from_eps_inv; [apply union_members|..].
Qed.

Lemma union_new_start f g x y w :
  WellFormed f → WellFormed g → valid f (Start f) → valid g (Start g) →
  member_weights f → member_weights g →
  accepts (abs_union f g false) x y w → accepts f x y w ∨ accepts g x y w.
Proof.
  intros Wf Wg Hsf Hsg Mf Mg (p & t & Hp & Hfin & Hx & Hy & Hw).
  pose proof Wf as (Hn & Hwf & _). pose proof Wg as (Hm & Hwg & _).
  set (h := abs_union f g false) in *.
  assert (Arcs h (Start h) = [ArcOne 0 0 (Start f); ArcOne 0 0 (Start g + NumStates f)]) as Harcs.
  { unfold h, abs_union. cbn [abs_add_arc abs_set_arcs abs_set_start Arcs Start].
    rewrite !decide_True by done. simpl. by rewrite !decide_False by lia. }
  inversion Hp as [s Hs|s a q t' Hs Ha Hq]; subst.
  - exfalso. destruct Hfin as [_ Hfin]. revert Hfin. unfold h. simpl.
    rewrite !decide_False by lia. by rewrite weqb_Zero_refl.
  - rewrite Harcs in Ha. rewrite <-Hw. pose proof (union_members f g false Wf Wg Mf Mg) as Mh.
    apply elem_of_cons in Ha as [->|[->|[]%not_elem_of_nil]%elem_of_cons].
    + left. apply (embeds_accepts 0 f h (Start f)); [by apply union_embeds_l| |done|done|].
      { intros v Hv. by apply union_final_l. }
      by apply accepts_from_eps_inv.
    + right. apply (embeds_accepts (NumStates f) g h (Start g)); [by apply union_embeds_r| |done|done|].
      { intros v Hv. by apply union_final_r. }
      rewrite (Z.add_comm _ (Start g)). by apply accepts_from_eps_inv.
Qed.

Lemma union_language f g b x y w :
  WellFormed f → WellFormed g → valid f (Start f) → valid g (Start g) →
  member_weights f → member_weights g → (b = true → ¬ tc (edge f) (Start f) (Start f)) →
  accepts (abs_union f g b) x y w ↔ accepts f x y w ∨ accepts g x y w.
Proof.
  intros Wf Wg Hsf Hsg Mf Mg Hac.
  pose proof Wf as (Hn & Hwf & _). pose proof Wg as (Hm & Hwg & _).
  pose proof (union_members f g b Wf Wg Mf Mg) as Mh. split.
  - destruct b; [by apply union_start_acyclic; auto|by apply union_new_start].
  - intros [Ha|Ha].
    + destruct b.
      * destruct Ha as (p & t & Hp & Hfin & <- & <- & Hw). exists p, t.
        assert (valid f t) as Ht by by eapply path_valid_r.
        assert (Final (abs_union f g true) t = Final f t) as E by by apply (union_final_l f g true t).
        split_and!; [|split|done|done|by rewrite E].
        -- eapply extends_path; [apply union_extends|].
           apply (embeds_path 0 f (abs_append f g (NumStates g)) (Start f) p t) in Hp;
             [by rewrite shift_arcs_0 in Hp|by apply append_embeds_l].
        -- unfold valid in *. simpl. lia.
        -- rewrite E. by destruct Hfin.
      * apply (accepts_from_eps _ _ (0 + Start f)); [done| | |].
        -- unfold valid. simpl. lia.
        -- simpl. rewrite !decide_True by done. rewrite !elem_of_app. left. right. left.
        -- apply (embeds_accepts 0 f); try done; [by apply union_embeds_l|].
           intros v Hv. by apply union_final_l.
    + apply (accepts_from_eps _ _ (NumStates f + Start g)); [done| | |].
      * destruct b; unfold valid in *; simpl; lia.
      * rewrite (Z.add_comm _ (Start g)). destruct b; simpl; rewrite !decide_True by done;
          apply elem_of_app; right; left.
      * apply (embeds_accepts (NumStates f) g); try done; [by apply union_embeds_r|].
        intros v Hv. by apply union_final_r.
Qed.
End union_language.

(** * Closure *)

Section closure_language.
Context `{TimesMonoid W}.
Implicit Types (f g h : Fst W).

(** One or more accepted pairs in sequence. *)
Inductive plus_accepts f : list Z → list Z → W → Prop :=
  | plus_once x y w : accepts f x y w → plus_accepts f x y w
  | plus_more x1 y1 w1 x2 y2 w2 w :
      accepts f x1 y1 w1 → plus_accepts f x2 y2 w2 → w ≡ Times w1 w2 →
      plus_accepts f (x1 ++ x2) (y1 ++ y2) w.

Lemma plus_accepts_equiv f x y w w' : plus_accepts f x y w → w ≡ w' → plus_accepts f x y w'.
Proof.
  intros Hp Hw. destruct Hp as [x y w Ha|x1 y1 w1 x2 y2 w2 w Ha Hp Hw2].
  - apply plus_once. unfold accepts in *. by rewrite <-Hw.
  - eapply plus_more; [done|done|]. by rewrite <-Hw.
Qed.

Lemma plus_extends f :
  extends f (abs_connect true f (Some (Start f)) (NumStates f))
    (λ s a, is_final f s ∧ a = MkArc 0 0 (Final f s) (Start f)).
Proof.
  split; [done|]. intros s a Hs. unfold is_final, valid in *. simpl. rewrite decide_True by done.
  destruct (weqb (Final f s) Zero) eqn:Hw; simpl.
  - naive_solver.
  - rewrite elem_of_app, list_elem_of_singleton. naive_solver.
Qed.

Lemma plus_final f s : Final (abs_connect true f (Some (Start f)) (NumStates f)) s = Final f s.
Proof. simpl. case_decide; [|done]. by rewrite andb_false_r. Qed.

Lemma plus_path_member f s p t :
  member_weights f → path (abs_closure f false) s p t → Forall (λ a, Member (weight a) = true) p.
Proof.
  intros [Ma Mf] Hp. eapply path_member; [|done]. intros u a Hu Ha.
  apply (plus_extends f) in Ha as [Ha|[[Hv _] ->]]; [by apply (Ma u a)|by apply Mf|done].
Qed.

Lemma plus_language f x y w :
  WellFormed f → member_weights f →
  accepts (abs_closure f false) x y w ↔ plus_accepts f x y w.
Proof.
  intros Wf [Ma Mf]. pose proof (plus_extends f) as Hext. unfold abs_closure. split.
  - intros (p & t & Hp & Hfin & Hx & Hy & Hw). rewrite plus_final in Hw.
    assert (is_final f t) as Hft by (unfold is_final in *; by rewrite plus_final in Hfin).
    clear Hfin. revert x y w Hx Hy Hw Hp. induction (well_founded_ltof _ (length (A:=Arc W)) p) as [p _ IH].
    intros x y w Hx Hy Hw Hp.
    destruct (extends_split _ _ _ _ _ _ Hext Hp) as [Hp'|(p1 & a & p2 & u & -> & Hp1 & [Hu ->] & Hp2)].
    + apply plus_once. by exists p, t.
    + destruct (eps_strings (MkArc 0 0 (Final f u) (Start f)) p1 p2) as [Hi Ho]; [done..|].
      rewrite Hi in Hx. rewrite Ho in Hy. subst x y.
      eapply (plus_more f _ _ (path_weight p1 (Final f u))); [|eapply (IH p2)|].
      * by exists p1, u.
      * unfold ltof. rewrite length_app. simpl. lia.
      * done.
      * done.
      * done.
      * done.
      * rewrite <-Hw, path_weight_app. simpl.
        rewrite path_weight_Times; [done|by eapply path_member|apply Mf, Hu|].
        apply path_weight_member; [|by apply Mf, Hft].
        by eapply (plus_path_member f).
  - induction 1 as [x y w (p & t & Hp & [Ht Hft] & Hx & Hy & Hw)
      |x1 y1 w1 x2 y2 w2 w (p1 & u & Hp1 & Hfu & <- & <- & Hw1) _ (p2 & t & Hp2 & [Ht Hft] & <- & <- & Hw2) Hw].
    + exists p, t. unfold is_final. rewrite plus_final. split_and!; try done.
      by eapply extends_path.
    + exists (p1 ++ MkArc 0 0 (Final f u) (Start f) :: p2), t.
      destruct (eps_strings (MkArc 0 0 (Final f u) (Start f)) p1 p2) as [-> ->]; [done..|].
      split_and!; [|done|done|done|].
      * eapply path_app; [by eapply extends_path|]. pose proof (path_valid_r _ _ _ _ Hp1) as Hu.
        constructor; [done| |done]. apply Hext; [done|by right].
      * rewrite plus_final in Hw2. rewrite plus_final, path_weight_app. simpl. rewrite Hw, <-Hw1, <-Hw2.
        rewrite path_weight_Times; [done|by eapply path_member|apply Mf, Hfu|].
        apply path_weight_member; [by eapply (plus_path_member f)|].
        by apply Mf.
Qed.

(** The closure with the empty string: a new start state in front. *)
Lemma star_embeds f : 0 ≤ NumStates f → embeds 0 (abs_closure f false) (abs_closure f true).
Proof.
  intros Hn s [Hs1 Hs2]. cbn [abs_closure abs_connect NumStates] in Hs2.
  rewrite shift_arcs_0. split; [unfold valid; simpl; lia|].
  unfold abs_closure. cbn [abs_add_arc abs_set_arcs abs_set_final abs_set_start abs_add_states Arcs].
  rewrite decide_False by lia. by replace (0 + s) with s by lia.
Qed.

Lemma star_final f v :
  valid (abs_closure f false) v → Final (abs_closure f true) (0 + v) = Final (abs_closure f false) v.
Proof.
  intros [Hs1 Hs2]. cbn [abs_closure abs_connect NumStates] in Hs2.
  unfold abs_closure. cbn [abs_add_arc abs_set_arcs abs_set_final abs_set_start abs_add_states Final].
  rewrite decide_False by lia. by replace (0 + v) with v by lia.
Qed.

Lemma star_start f :
  tight f →
  Arcs (abs_closure f true) (NumStates f) = [ArcOne 0 0 (Start f)] ∧
  Final (abs_closure f true) (NumStates f) = One.
Proof.
  intros Ht. unfold abs_closure.
  cbn [abs_add_arc abs_set_arcs abs_set_final abs_set_start abs_add_states Arcs Final].
  rewrite !decide_True by done. cbn [abs_connect Arcs]. rewrite decide_False by lia.
  destruct (Ht (NumStates f)) as [_ ->]; [unfold valid; lia|done].
Qed.

Lemma plus_members f : member_weights f → member_weights (abs_closure f false).
Proof.
  intros [Ma Mf]. split.
  - intros s a Hv Ha. apply (plus_extends f) in Ha as [Ha|[[Hs _] ->]]; [by apply (Ma s a)|by apply Mf|done].
  - intros s Hs. change (Member (Final (abs_connect true f (Some (Start f)) (NumStates f)) s) = true).
    rewrite plus_final. by apply Mf.
Qed.

Lemma star_members f :
  0 ≤ NumStates f → tight f → member_weights f → member_weights (abs_closure f true).
Proof.
  intros Hn Ht Hm. destruct (plus_members f Hm) as [Ma Mf]. destruct (star_start f Ht) as [Ha Hf].
  assert (∀ s, valid (abs_closure f true) s → s = NumStates f ∨ valid (abs_closure f false) s) as Hv.
  { intros s Hs. unfold valid in *. simpl in *. lia. }
  split.
  - intros s a [->|Hs]%Hv Hin.
    + rewrite Ha in Hin. apply list_elem_of_singleton in Hin as ->. apply One_member.
    + destruct (star_embeds f Hn s Hs) as [_ E]. rewrite shift_arcs_0 in E.
      apply (Ma s a Hs). by rewrite <-E.
  - intros s [->|Hs]%Hv; [rewrite Hf; apply One_member|].
    rewrite <-(Z.add_0_l s), (star_final f s Hs). by apply Mf.
Qed.

Lemma star_language f x y w :
  WellFormed f → tight f → valid f (Start f) → member_weights f → weqb (One : W) Zero = false →
  accepts (abs_closure f true) x y w ↔ (x = [] ∧ y = [] ∧ w ≡ One) ∨ plus_accepts f x y w.
Proof.
  intros Wf Ht Hs Hm H10. rewrite <-plus_language by done. pose proof Wf as (Hn & Hwf & _).
  pose proof (star_members f Hn Ht Hm) as Mh. destruct (star_start f Ht) as [Ha Hf].
  set (h := abs_closure f true) in *. set (g := abs_closure f false).
  assert (wf_arcs g) as Hwg.
  { intros s a Hv Hin. apply (plus_extends f) in Hin as [Hin|[_ ->]]; [by apply (Hwf s a)|done|done]. }
  assert (∀ x y w, accepts_from h (0 + Start f) x y w ↔ accepts_from g (Start f) x y w) as Hemb.
  { intros. apply embeds_accepts; [by apply star_embeds|by apply star_final|done|done]. }
  assert (valid h (NumStates f)) as Hv by (unfold valid; simpl; lia).
  unfold accepts. change (Start h) with (NumStates f). change (Start g) with (Start f). split.
  - intros (p & t & Hp & Hfin & <- & <- & Hw).
    inversion Hp as [s' Hs'|s' a q t' Hs' Hin Hq]; subst.
    + left. split_and!; [done..|]. rewrite <-Hw. change (Final h (NumStates f) ≡ One). by rewrite Hf.
    + rewrite Ha in Hin. apply list_elem_of_singleton in Hin as ->.
      right. apply Hemb. rewrite <-Hw. by apply accepts_from_eps_inv.
  - intros [(-> & -> & Hw)|Hg].
    + exists [], (NumStates f). split_and!; [by constructor| |done|done|change (Final h (NumStates f) ≡ w); by rewrite Hf, Hw].
      split; [done|by rewrite Hf].
    + apply (accepts_from_eps h _ (0 + Start f)); [done|done| |by apply Hemb].
      rewrite Ha. left.
Qed.
End closure_language.
