(* ===== verification/RationalProps.v ===== *)
(** The property bits [Union], [Concat] and [Closure] store are true of the
machine they leave, if those of the operands were: the functions
[UnionProperties], [ConcatProperties] and [ClosureProperties] of properties.cc
against the machines of Rational.v. *)
From S2P Require Import Prelude Weight FloatWeight Properties SymbolTable Fst VectorFst Mutation.
From S2P Require Import VectorSound MutableFst Rational RationalLang.
From Stdlib Require Import Sorting.Sorted.
Local Open Scope Z_scope.

(** * Two machines side by side, with extra arcs *)

Section parts.
Context `{WeightEq W}.
Implicit Types (f g h : Fst W).

(** [h] is made of a copy of [f] at [o1], one of [g] at [o2], new states [N] and
extra arcs [X], epsilon arcs that lead to the start of a copy. *)
Record parts f g h (o1 o2 : Z) (N : Z → Prop) (X : Z → Arc W → Prop) : Prop := {
  parts_l : ∀ s, valid f s → valid h (o1 + s) ∧ sublist (shift_arc o1 <$> Arcs f s) (Arcs h (o1 + s));
  parts_r : ∀ s, valid g s → valid h (o2 + s) ∧ sublist (shift_arc o2 <$> Arcs g s) (Arcs h (o2 + s));
  parts_arc : ∀ s a, arc_in h s a →
    (∃ u b, s = o1 + u ∧ arc_in f u b ∧ a = shift_arc o1 b) ∨
    (∃ u b, s = o2 + u ∧ arc_in g u b ∧ a = shift_arc o2 b) ∨ X s a;
  parts_X : ∀ s a, X s a → arc_in h s a;
  parts_state : ∀ s, valid h s → (∃ u, s = o1 + u ∧ valid f u) ∨ (∃ u, s = o2 + u ∧ valid g u) ∨ N s;
  parts_disjoint : ∀ u v, valid f u → valid g v → o1 + u ≠ o2 + v;
  parts_new : ∀ s, N s → valid h s ∧ (∀ u, valid f u → s ≠ o1 + u) ∧ (∀ v, valid g v → s ≠ o2 + v);
  parts_X_eps : ∀ s a, X s a → ilabel a = 0 ∧ olabel a = 0;
  parts_X_to : ∀ s a, X s a →
    (nextstate a = o1 + Start f ∧ valid f (Start f)) ∨ (nextstate a = o2 + Start g ∧ valid g (Start g));
  parts_wf_l : wf_arcs f;
  parts_wf_r : wf_arcs g;
}.

Lemma parts_swap f g h o1 o2 N X : parts f g h o1 o2 N X → parts g f h o2 o1 N X.
Proof.
  intros [L R A XI S D Nw E T Wl Wr]. split; try done.
  - intros s a Ha. destruct (A s a Ha) as [?|[?|?]]; auto.
  - intros s Hs. destruct (S s Hs) as [?|[?|?]]; auto.
  - intros u v Hu Hv He. by apply (D v u).
  - intros s Hs. destruct (Nw s Hs) as (? & ? & ?). auto.
  - intros s a Ha. destruct (T s a Ha) as [?|?]; auto.
Qed.

Section facts.
Context (f g h : Fst W) (o1 o2 : Z) (N : Z → Prop) (X : Z → Arc W → Prop).
Context (P : parts f g h o1 o2 N X).

Lemma parts_arc_l u b : arc_in f u b → arc_in h (o1 + u) (shift_arc o1 b).
Proof using P.
  intros [Hu Hb]. destruct (parts_l _ _ _ _ _ _ _ P u Hu) as [Hv Hs]. split; [done|].
  eapply sublist_subseteq; [done|]. apply list_elem_of_fmap. by exists b.
Qed.

(** Some arc of the first copy, or all arcs. *)
Lemma parts_some (Q : Z → Z → W → Prop) :
  some_arc f (λ _ a, Q (ilabel a) (olabel a) (weight a)) →
  some_arc h (λ _ a, Q (ilabel a) (olabel a) (weight a)).
Proof using P.
  intros (u & b & Hu & Hb & HQ). destruct (parts_arc_l u b (conj Hu Hb)) as [Hv Ha].
  by exists (o1 + u), (shift_arc o1 b).
Qed.

Lemma parts_all (Q : Z → Z → W → Prop) :
  all_arcs h (λ _ a, Q (ilabel a) (olabel a) (weight a)) →
  all_arcs f (λ _ a, Q (ilabel a) (olabel a) (weight a)).
Proof using P.
  intros Hall u b Hu Hb. destruct (parts_arc_l u b (conj Hu Hb)) as [Hv Ha].
  by apply (Hall _ _ Hv Ha).
Qed.

Lemma parts_state_prop t (R : list (Arc W) → Prop) :
  state_property t = Some R → Holds h t → Holds f t.
Proof using P.
  intros HR. rewrite !(holds_state _ _ R) by done. intros Hh u Hu.
  destruct (parts_l _ _ _ _ _ _ _ P u Hu) as [Hv Hs]. specialize (Hh _ Hv).
  assert (∀ lab : Arc W → Z, (∀ a, lab (shift_arc o1 a) = lab a) →
    sublist (lab <$> Arcs f u) (lab <$> Arcs h (o1 + u))) as Hsub.
  { intros lab Hlab. replace (lab <$> Arcs f u) with (lab <$> (shift_arc o1 <$> Arcs f u)).
    - by apply fmap_sublist.
    - rewrite <-list_fmap_compose. apply list_fmap_ext. intros; apply Hlab. }
  destruct t; try discriminate HR; injection HR as <-;
    [eapply sublist_NoDup; [exact Hh|by apply Hsub]
    |eapply sublist_NoDup; [exact Hh|by apply Hsub]
    |eapply Sorted_le_sublist; [by apply Hsub|exact Hh]
    |eapply Sorted_le_sublist; [by apply Hsub|exact Hh]].
Qed.

Lemma parts_edge u v : edge f u v → edge h (o1 + u) (o1 + v).
Proof using P.
  intros (Hu & b & Hb & <-). destruct (parts_arc_l u b (conj Hu Hb)) as [Hv Ha].
  split; [done|]. exists (shift_arc o1 b). split; [done|]. simpl. lia.
Qed.

Lemma parts_rtc u v : rtc (edge f) u v → rtc (edge h) (o1 + u) (o1 + v).
Proof using P. induction 1; [done|]. eapply rtc_l; [by apply parts_edge|done]. Qed.

Lemma parts_tc u v : tc (edge f) u v → tc (edge h) (o1 + u) (o1 + v).
Proof using P.
  induction 1; [by apply tc_once, parts_edge|]. eapply tc_l; [by apply parts_edge|done].
Qed.

Lemma parts_cyclic : Holds f Cyclic → Holds h Cyclic.
Proof using P. intros (s & Hs). exists (o1 + s). by apply parts_tc. Qed.

Lemma parts_weighted_cycles : Holds f WeightedCycles → Holds h WeightedCycles.
Proof using P.
  intros (u & b & Hu & Hb & Hw & Hr). destruct (parts_arc_l u b (conj Hu Hb)) as [Hv Ha].
  exists (o1 + u), (shift_arc o1 b). split_and!; [done..|]. simpl. rewrite (Z.add_comm (nextstate b)).
  by apply parts_rtc.
Qed.

Lemma parts_top_sorted : Holds h TopSorted → Holds f TopSorted.
Proof using P.
  intros Ht u b Hu Hb. destruct (parts_arc_l u b (conj Hu Hb)) as [Hv Ha].
  pose proof (Ht _ _ Hv Ha) as Hlt. simpl in Hlt. lia.
Qed.

Lemma valid_next u b : arc_in f u b → valid f (nextstate b).
Proof using P. intros [Hu Hb]. by apply (parts_wf_l _ _ _ _ _ _ _ P u b). Qed.

(** A state of the first copy is reached from inside it, or from its start. *)
Lemma parts_enter s t u :
  rtc (edge h) s t → t = o1 + u → valid f u →
  (∃ v, s = o1 + v ∧ valid f v ∧ rtc (edge f) v u) ∨ rtc (edge f) (Start f) u.
Proof using P.
  intros Hr. revert u. pattern t. revert t Hr.
  apply (rtc_ind_r _ s); [|intros t' t Hr (Hv & a & Ha & Hna) IH]; intros u -> Hu.
  - left. by exists u.
  - destruct (parts_arc _ _ _ _ _ _ _ P t' a (conj Hv Ha)) as
      [(u' & b & -> & Hb & ->)|[(v & b & -> & Hb & ->)|Hx]].
    + assert (nextstate b = u) as Hnb by (simpl in Hna; lia).
      assert (edge f u' u) as Hedge by (destruct Hb; split; [done|by exists b]).
      destruct (IH u' eq_refl (proj1 Hb)) as [(v & ? & ? & ?)|?];
        [left; exists v; split_and!; [done..|by eapply rtc_r]|right; by eapply rtc_r].
    + exfalso. apply (parts_disjoint _ _ _ _ _ _ _ P u (nextstate b)); [done| |simpl in Hna; lia].
      destruct Hb as [Hv' Hb]. by apply (parts_wf_r _ _ _ _ _ _ _ P v b).
    + destruct (parts_X_to _ _ _ _ _ _ _ P _ _ Hx) as [[Hto Hs]|[Hto Hs]].
      * right. assert (Start f = u) as -> by lia. done.
      * exfalso. by apply (parts_disjoint _ _ _ _ _ _ _ P u (Start g) Hu Hs); lia.
Qed.

(** A walk from the first copy stays in it, or leaves by an extra arc. *)
Lemma parts_leave v t :
  valid f v → rtc (edge h) (o1 + v) t →
  (∃ u, t = o1 + u ∧ valid f u ∧ rtc (edge f) v u) ∨
  (∃ u a, valid f u ∧ rtc (edge f) v u ∧ X (o1 + u) a ∧ rtc (edge h) (nextstate a) t).
Proof using P.
  intros Hv Hr. remember (o1 + v) as s eqn:Hs. revert v Hv Hs.
  induction Hr as [s|s t' t (Hvs & a & Ha & Hna) Hr IH]; intros v Hv ->.
  - left. by exists v.
  - destruct (parts_arc _ _ _ _ _ _ _ P _ a (conj Hvs Ha)) as
      [(u' & b & Hu' & Hb & ->)|[(w & b & Hw & [Hvw Hb] & ->)|Hx]].
    + assert (u' = v) as -> by lia. pose proof (valid_next v b Hb) as Hnb.
      assert (edge f v (nextstate b)) as Hedge by (destruct Hb; split; [done|by exists b]).
      destruct (IH (nextstate b) Hnb) as [(u & ? & ? & ?)|(u & c & ? & ? & ? & ?)]; [simpl in Hna; lia| |].
      * left. exists u. split_and!; [done..|by eapply rtc_l].
      * right. exists u, c. split_and!; [done|by eapply rtc_l|done..].
    + exfalso. by apply (parts_disjoint _ _ _ _ _ _ _ P v w Hv Hvw).
    + right. exists v, a. subst t'. split_and!; done.
Qed.
(** The properties a copy inherits from the whole, and passes on to it. *)
Definition inherited (t : trinary) : bool :=
  match t with
  | Acceptor | IDeterministic | ODeterministic | ILabelSorted | OLabelSorted | TopSorted => true
  | _ => false
  end.
Definition passed_on (t : trinary) : bool :=
  match t with Epsilons | IEpsilons | OEpsilons | Cyclic | WeightedCycles => true | _ => false end.

Lemma parts_inherited t : inherited t = true → Holds h t → Holds f t.
Proof using P.
  intros Ht. destruct t; try discriminate Ht;
    first [by eapply parts_state_prop|apply (parts_all (λ i o _, i = o))|apply parts_top_sorted].
Qed.

Lemma parts_passed_on t : passed_on t = true → Holds f t → Holds h t.
Proof using P.
  intros Ht. destruct t; try discriminate Ht;
    first [apply (parts_some (λ i o _, i = 0 ∧ o = 0))|apply (parts_some (λ i _ _, i = 0))
          |apply (parts_some (λ _ o _, o = 0))|apply parts_cyclic|apply parts_weighted_cycles].
Qed.

Lemma parts_acceptor : Holds f Acceptor → Holds g Acceptor → Holds h Acceptor.
Proof using P.
  intros Hf Hg s a Hs Ha. destruct (parts_arc _ _ _ _ _ _ _ P s a (conj Hs Ha)) as
    [(u & b & _ & [Hu Hb] & ->)|[(u & b & _ & [Hu Hb] & ->)|Hx]].
  - by apply (Hf u b).
  - by apply (Hg u b).
  - by destruct (parts_X_eps _ _ _ _ _ _ _ P s a Hx) as [-> ->].
Qed.

Lemma parts_epsilons s a t :
  X s a → t = Epsilons ∨ t = IEpsilons ∨ t = OEpsilons → Holds h t.
Proof using P.
  intros Hx Ht. destruct (parts_X _ _ _ _ _ _ _ P s a Hx) as [Hs Ha].
  destruct (parts_X_eps _ _ _ _ _ _ _ P s a Hx) as [? ?].
  destruct Ht as [->|[-> | ->]]; exists s, a; auto.
Qed.

(** An arc weight that counts, of a copy or of an extra arc. *)
Lemma parts_arc_weight :
  some_arc h (λ _ a, nontrivial (weight a) = true) ↔
  some_arc f (λ _ a, nontrivial (weight a) = true) ∨
  some_arc g (λ _ a, nontrivial (weight a) = true) ∨
  ∃ s a, X s a ∧ nontrivial (weight a) = true.
Proof using P.
  split.
  - intros (s & a & Hs & Ha & Hw). destruct (parts_arc _ _ _ _ _ _ _ P s a (conj Hs Ha)) as
      [(u & b & _ & [Hu Hb] & ->)|[(u & b & _ & [Hu Hb] & ->)|Hx]];
      [left; by exists u, b|right; left; by exists u, b|right; right; by exists s, a].
  - intros [(u & b & Hu & Hb & Hw)|[(u & b & Hu & Hb & Hw)|(s & a & Hx & Hw)]].
    + destruct (parts_arc_l u b (conj Hu Hb)) as [Hv Ha]. by exists (o1 + u), (shift_arc o1 b).
    + destruct (parts_r _ _ _ _ _ _ _ P u Hu) as [Hv Hsub].
      exists (o2 + u), (shift_arc o2 b). split_and!; [done| |done].
      eapply sublist_subseteq; [done|]. apply list_elem_of_fmap. by exists b.
    + destruct (parts_X _ _ _ _ _ _ _ P s a Hx) as [Hs Ha]. by exists s, a.
Qed.

(** An unreachable state of a copy stays unreachable. *)
Lemma parts_not_accessible :
  (∀ v, valid f v → Start h = o1 + v → v = Start f) → ¬ Holds f Accessible → ¬ Holds h Accessible.
Proof using P.
  intros Hst Hn Hh. apply Hn. intros u Hu.
  destruct (parts_l _ _ _ _ _ _ _ P u Hu) as [Hv _].
  destruct (parts_enter (Start h) (o1 + u) u (Hh _ Hv) eq_refl Hu) as [(v & He & Hvv & Hr)|?]; [|done].
  by rewrite <-(Hst v Hvv He).
Qed.
End facts.

(** ** When the extra arcs lead forward, from [N] and the first copy to the second *)

Section forward.
Context (f g h : Fst W) (o1 o2 : Z) (N : Z → Prop) (X : Z → Arc W → Prop).
Context (P : parts f g h o1 o2 N X).
Context (Hfwd : ∀ s a, X s a → N s ∨
  ((∃ u, valid f u ∧ s = o1 + u) ∧ nextstate a = o2 + Start g ∧ valid g (Start g))).

Lemma forward_second v t :
  valid g v → rtc (edge h) (o2 + v) t → ∃ u, t = o2 + u ∧ valid g u ∧ rtc (edge g) v u.
Proof using P Hfwd.
  intros Hv Hr.
  destruct (parts_leave _ _ _ _ _ _ _ (parts_swap _ _ _ _ _ _ _ P) v t Hv Hr)
    as [?|(u & a & Hu & _ & Hx & _)]; [done|].
  destruct (Hfwd _ _ Hx) as [Hn|[(w & Hw & He) _]].
  - by destruct (parts_new _ _ _ _ _ _ _ P _ Hn) as (_ & _ & Hn'); edestruct Hn'.
  - by destruct (parts_disjoint _ _ _ _ _ _ _ P w u Hw Hu).
Qed.

Lemma forward_first v t :
  valid f v → rtc (edge h) (o1 + v) t →
  (∃ u, t = o1 + u ∧ valid f u ∧ rtc (edge f) v u) ∨ (∃ u, t = o2 + u ∧ valid g u).
Proof using P Hfwd.
  intros Hv Hr. destruct (parts_leave _ _ _ _ _ _ _ P v t Hv Hr)
    as [?|(u & a & Hu & _ & Hx & Hr')]; [by left|]. clear Hr. rename Hr' into Hr.
  destruct (Hfwd _ _ Hx) as [Hn|[_ [Hto Hs]]].
  - destruct (parts_new _ _ _ _ _ _ _ P _ Hn) as (_ & Hn' & _). by edestruct Hn'.
  - rewrite Hto in Hr. apply forward_second in Hr as (w & ? & ? & _); [right; by exists w|done].
Qed.

(** A walk that comes back to its first arc's origin stays in one copy. *)
Lemma forward_return s a :
  arc_in h s a → rtc (edge h) (nextstate a) s →
  (∃ u b, s = o1 + u ∧ arc_in f u b ∧ a = shift_arc o1 b ∧ rtc (edge f) (nextstate b) u) ∨
  (∃ u b, s = o2 + u ∧ arc_in g u b ∧ a = shift_arc o2 b ∧ rtc (edge g) (nextstate b) u).
Proof using P Hfwd.
  intros Ha Hr.
  assert (∀ u v, valid f u → valid g v → o1 + u ≠ o2 + v) as Hd by apply (parts_disjoint _ _ _ _ _ _ _ P).
  destruct (parts_arc _ _ _ _ _ _ _ P s a Ha) as
    [(u & b & -> & Hb & ->)|[(u & b & -> & Hb & ->)|Hx]].
  - left. exists u, b. split_and!; [done..|]. simpl in Hr. rewrite Z.add_comm in Hr.
    assert (valid f (nextstate b)) as Hn by (destruct Hb as [Hu Hb]; by apply (parts_wf_l _ _ _ _ _ _ _ P u b)).
    destruct (forward_first _ _ Hn Hr) as [(w & Hw & _ & ?)|(w & Hw & Hvw)].
    + by assert (w = u) as -> by lia.
    + exfalso. by apply (Hd u w); [destruct Hb| |].
  - right. exists u, b. split_and!; [done..|]. simpl in Hr. rewrite Z.add_comm in Hr.
    assert (valid g (nextstate b)) as Hn by (destruct Hb as [Hu Hb]; by apply (parts_wf_r _ _ _ _ _ _ _ P u b)).
    destruct (forward_second _ _ Hn Hr) as (w & Hw & _ & ?). by assert (w = u) as -> by lia.
  - exfalso. destruct (Hfwd _ _ Hx) as [Hn|[(u & Hu & ->) [Hto Hs]]].
    + destruct (parts_new _ _ _ _ _ _ _ P _ Hn) as (_ & Hn1 & Hn2).
      destruct (parts_X_to _ _ _ _ _ _ _ P _ _ Hx) as [[Hto Hs]|[Hto Hs]]; rewrite Hto in Hr.
      * destruct (forward_first _ _ Hs Hr) as [(w & ? & ? & _)|(w & ? & ?)];
          [by eapply Hn1|by eapply Hn2].
      * destruct (forward_second _ _ Hs Hr) as (w & ? & ? & _). by eapply Hn2.
    + rewrite Hto in Hr. destruct (forward_second _ _ Hs Hr) as (w & Hw & Hvw & _). by apply (Hd u w).
Qed.

Lemma forward_cyclic : Holds h Cyclic → Holds f Cyclic ∨ Holds g Cyclic.
Proof using P Hfwd.
  intros (s & Hs). apply tc_first in Hs as (t & (Hv & a & Ha & <-) & Hr).
  destruct (forward_return s a (conj Hv Ha) Hr) as
    [(u & b & _ & [Hu Hb] & _ & Hr')|(u & b & _ & [Hu Hb] & _ & Hr')]; [left|right]; exists u;
    (eapply tc_rtc_r; [apply tc_once|done]; split; [done|by exists b]).
Qed.

Lemma forward_weighted_cycles : Holds h WeightedCycles → Holds f WeightedCycles ∨ Holds g WeightedCycles.
Proof using P Hfwd.
  intros (s & a & Hv & Ha & Hw & Hr).
  destruct (forward_return s a (conj Hv Ha) Hr) as
    [(u & b & _ & [Hu Hb] & -> & Hr')|(u & b & _ & [Hu Hb] & -> & Hr')]; [left|right]; by exists u, b.
Qed.
End forward.
End parts.

(** For a goal [Sound (F p1 p2) h] from [Sound p1 f] and [Sound p2 g]. *)
Ltac sound_cases2 Hs1 Hs2 :=
  let t := fresh "t" in
  intros t;
  let Hp1 := fresh "Hp1" in let Hn1 := fresh "Hn1" in
  let Hp2 := fresh "Hp2" in let Hn2 := fresh "Hn2" in
  destruct (Hs1 t) as [Hp1 Hn1]; destruct (Hs2 t) as [Hp2 Hn2];
  destruct t; revert Hp1 Hn1 Hp2 Hn2; bits; intros Hp1 Hn1 Hp2 Hn2;
  (split; [clear Hn1 Hn2|clear Hp1 Hp2]); intros Hbit;
  try discriminate Hbit;
  repeat match goal with
  | H : (_ && _)%bool = true |- _ => apply andb_true_iff in H as [? ?]
  | H : (_ || _)%bool = true |- _ => apply orb_true_iff in H as [H|H]
  end;
  repeat match goal with
  | H : (?x = true) → _, K : (?x = true) |- _ => specialize (H K)
  end.

(** The goals that one copy decides. *)
Ltac parts_goals P P' :=
  try lazymatch goal with
  | |- ¬ Holds _ ?t =>
      let Hh := fresh in intros Hh;
      match goal with
      | Hn : ¬ Holds _ t |- _ => exact (Hn (parts_inherited _ _ _ _ _ _ _ P t eq_refl Hh))
      | Hn : ¬ Holds _ t |- _ => exact (Hn (parts_inherited _ _ _ _ _ _ _ P' t eq_refl Hh))
      end
  | |- Holds _ ?t =>
      match goal with
      | Hp : Holds _ t |- _ => exact (parts_passed_on _ _ _ _ _ _ _ P t eq_refl Hp)
      | Hp : Holds _ t |- _ => exact (parts_passed_on _ _ _ _ _ _ _ P' t eq_refl Hp)
      end
  end.

Section union.
Context `{WeightEq W}.
Implicit Types (f g h : Fst W).

Definition union_N f g (b : bool) (s : Z) : Prop := b = false ∧ s = NumStates f + NumStates g.
Definition union_X f g (b : bool) (s : Z) (a : Arc W) : Prop :=
  if b then s = Start f ∧ a = ArcOne 0 0 (Start g + NumStates f)
  else s = NumStates f + NumStates g ∧
    (a = ArcOne 0 0 (Start f) ∨ a = ArcOne 0 0 (Start g + NumStates f)).

Lemma add_arc_elem f s b u a : a ∈ Arcs (abs_add_arc f s b) u ↔ a ∈ Arcs f u ∨ (u = s ∧ a = b).
Proof. simpl. case_decide; [subst; rewrite elem_of_snoc|]; naive_solver. Qed.

Lemma union_arcs f g b s a :
  WellFormed f → WellFormed g → valid f (Start f) →
  a ∈ Arcs (abs_union f g b) s ↔ a ∈ Arcs (abs_append f g (NumStates g)) s ∨ union_X f g b s a.
Proof.
  intros _ _ Hs. unfold abs_union, union_X. destruct b; rewrite !add_arc_elem; [naive_solver|].
  cbn [abs_set_start abs_add_states Arcs]. naive_solver.
Qed.

Lemma append_arc f g s a :
  arc_in (abs_append f g (NumStates g)) s a →
  (∃ u b, s = 0 + u ∧ arc_in f u b ∧ a = shift_arc 0 b) ∨
  (∃ u b, s = NumStates f + u ∧ arc_in g u b ∧ a = shift_arc (NumStates f) b).
Proof.
  intros [Hv Ha]. unfold valid in Hv. simpl in *. case_decide as Hs.
  - left. exists s, a. rewrite shift_arc_0. split_and!; [lia|split; [unfold valid; lia|done]|done].
  - rewrite decide_True in Ha by lia. apply list_elem_of_fmap in Ha as (b & -> & Hb).
    right. exists (s - NumStates f), b. split_and!; [lia|split; [unfold valid; lia|done]|done].
Qed.

Lemma union_parts f g b :
  WellFormed f → WellFormed g → valid f (Start f) → valid g (Start g) →
  parts f g (abs_union f g b) 0 (NumStates f) (union_N f g b) (union_X f g b).
Proof.
  intros Wf Wg Hsf Hsg. pose proof Wf as (Hn & Wa & _). pose proof Wg as (Hm & Wb & _).
  assert (∀ s, valid f s → valid (abs_union f g b) s) as Hv1 by (intros s; unfold valid; destruct b; simpl; lia).
  split; try done.
  - intros s Hs. rewrite Z.add_0_l. split; [by apply (Hv1 s)|]. rewrite shift_arcs_0. unfold valid in Hs.
    destruct b; simpl; repeat case_decide; try lia; try done; subst; apply sublist_inserts_r; reflexivity.
  - intros s Hs. destruct (union_embeds_r f g b Wf Hsf s Hs) as [Hv ->]. done.
  - intros s a [Hv Ha]. apply union_arcs in Ha as [Ha|?]; [|by auto|done..].
    assert (valid (abs_append f g (NumStates g)) s) as Hv'.
    { unfold valid in *. destruct b; simpl in *; [done|].
      destruct (decide (s < NumStates f + NumStates g)); [lia|].
      rewrite !decide_False in Ha by lia. by apply not_elem_of_nil in Ha. }
    destruct (append_arc f g s a (conj Hv' Ha)) as [?|?]; auto.
  - intros s a Hx. split.
    + unfold union_X, valid in *. destruct b; simpl; naive_solver lia.
    + apply union_arcs; auto.
  - intros s Hs. unfold union_N, valid in *. destruct b; simpl in Hs.
    + destruct (decide (s < NumStates f)); [left; exists s; lia|right; left; exists (s - NumStates f); lia].
    + destruct (decide (s < NumStates f)); [left; exists s; lia|].
      destruct (decide (s < NumStates f + NumStates g));
        [right; left; exists (s - NumStates f); lia|right; right; split; [done|lia]].
  - intros u v. unfold valid. lia.
  - intros s [-> ->]. split_and!; unfold valid in *; simpl; intros; lia.
  - intros s a Hx. unfold union_X in Hx. destruct b; naive_solver.
  - intros s a Hx. unfold union_X in Hx.
    destruct b; [destruct Hx as (-> & ->)|destruct Hx as (-> & [-> | ->])]; simpl;
      [right|left|right]; split; try done; lia.
Qed.

Lemma union_forward f g b s a :
  valid f (Start f) → valid g (Start g) → union_X f g b s a →
  union_N f g b s ∨
  ((∃ u, valid f u ∧ s = 0 + u) ∧ nextstate a = NumStates f + Start g ∧ valid g (Start g)).
Proof.
  intros Hsf Hsg Hx. unfold union_X, union_N in *. destruct b.
  - destruct Hx as [-> ->]. right. split_and!; [by exists (Start f)|simpl; lia|done].
  - destruct Hx as [-> _]. by left.
Qed.

Lemma union_start f g b :
  Start (abs_union f g b) = if b then Start f else NumStates f + NumStates g.
Proof. by destruct b. Qed.

Lemma union_final f g b s :
  WellFormed f → WellFormed g → valid (abs_union f g b) s →
  (∃ u, valid f u ∧ s = 0 + u ∧ Final (abs_union f g b) s = Final f u) ∨
  (∃ v, valid g v ∧ s = NumStates f + v ∧ Final (abs_union f g b) s = Final g v) ∨
  (union_N f g b s ∧ Final (abs_union f g b) s = Zero).
Proof.
  intros Wf Wg Hs. pose proof Wf as (Hn & _). pose proof Wg as (Hm & _).
  destruct (decide (s < NumStates f)); [left|right].
  - exists s. assert (valid f s) as Hv by (destruct b; unfold valid in *; simpl in *; lia).
    split_and!; [done|lia|]. by apply (union_final_l f g b s).
  - destruct (decide (s < NumStates f + NumStates g)); [left|right].
    + exists (s - NumStates f). assert (valid g (s - NumStates f)) as Hv by (unfold valid in *; lia).
      split_and!; [done|lia|]. rewrite <-(union_final_r f g b) by done. f_equal. lia.
    + destruct b; unfold union_N, valid in *; simpl in *; [lia|].
      rewrite !decide_False by lia. split; [split; [done|lia]|done].
Qed.

Lemma union_reach f g b :
  WellFormed f → WellFormed g → valid f (Start f) → valid g (Start g) →
  let h := abs_union f g b in
  rtc (edge h) (Start h) (0 + Start f) ∧ rtc (edge h) (Start h) (NumStates f + Start g).
Proof.
  intros Wf Wg Hsf Hsg h. pose proof (union_parts f g b Wf Wg Hsf Hsg) as P.
  assert (∀ s a, union_X f g b s a → edge h s (nextstate a)) as HX.
  { intros s a Hx. destruct (parts_X _ _ _ _ _ _ _ P s a Hx) as [? ?]. split; [done|by exists a]. }
  unfold h. rewrite union_start. destruct b.
  - split; [done|]. apply rtc_once. rewrite Z.add_comm. by apply (HX (Start f) (ArcOne 0 0 (Start g + NumStates f))).
  - split; apply rtc_once.
    + rewrite Z.add_0_l. apply (HX _ (ArcOne 0 0 (Start f))). simpl. auto.
    + rewrite (Z.add_comm _ (Start g)). apply (HX _ (ArcOne 0 0 (Start g + NumStates f))). simpl. auto.
Qed.

Lemma union_weighted f g b :
  WellFormed f → WellFormed g → valid f (Start f) → valid g (Start g) →
  Holds (abs_union f g b) Weighted ↔ Holds f Weighted ∨ Holds g Weighted.
Proof.
  intros Wf Wg Hsf Hsg. pose proof (union_parts f g b Wf Wg Hsf Hsg) as P.
  cbn [Holds]. rewrite (parts_arc_weight _ _ _ _ _ _ _ P).
  assert (∀ s a, union_X f g b s a → nontrivial (weight a) = false) as Hx.
  { intros s a Ha. assert (weight a = One) as ->; [unfold union_X in Ha; destruct b; naive_solver|].
    apply nontrivial_One. }
  split.
  - intros [[?|[?|(s & a & Ha & Hw)]]|(s & Hs & Hw)]; [by left; left|by right; left| |].
    + by rewrite (Hx s a Ha) in Hw.
    + destruct (union_final f g b s Wf Wg Hs) as [(u & Hu & _ & E)|[(v & Hv & _ & E)|[_ E]]];
        rewrite E in Hw; [left; right; by exists u|right; right; by exists v|].
      by rewrite nontrivial_Zero in Hw.
  - intros [[?|(u & Hu & Hw)]|[?|(v & Hv & Hw)]]; [by left; left| |by left; right; left|]; right.
    + exists (0 + u). rewrite union_final_l by done. split; [by apply (parts_l _ _ _ _ _ _ _ P)|done].
    + exists (NumStates f + v). rewrite union_final_r by done. split; [by apply (parts_r _ _ _ _ _ _ _ P)|done].
Qed.

Lemma union_coaccessible f g b :
  WellFormed f → WellFormed g → valid f (Start f) → valid g (Start g) →
  (Holds f CoAccessible → Holds g CoAccessible → Holds (abs_union f g b) CoAccessible) ∧
  (Holds (abs_union f g b) CoAccessible → Holds g CoAccessible).
Proof.
  intros Wf Wg Hsf Hsg. pose proof (union_parts f g b Wf Wg Hsf Hsg) as P.
  pose proof (parts_swap _ _ _ _ _ _ _ P) as P'. split.
  - intros Hf Hg.
    assert (∀ u, valid f u → ∃ t, rtc (edge (abs_union f g b)) (0 + u) t ∧ is_final (abs_union f g b) t) as H1.
    { intros u Hu. destruct (Hf u Hu) as (t & Hr & [Ht Hft]). exists (0 + t).
      split; [by apply (parts_rtc _ _ _ _ _ _ _ P)|]. split; [by apply (parts_l _ _ _ _ _ _ _ P)|].
      by rewrite union_final_l. }
    intros s Hs. destruct (parts_state _ _ _ _ _ _ _ P s Hs) as [(u & -> & Hu)|[(v & -> & Hv)|[-> ->]]].
    + by apply H1.
    + destruct (Hg v Hv) as (t & Hr & [Ht Hft]). exists (NumStates f + t).
      split; [by apply (parts_rtc _ _ _ _ _ _ _ P')|]. split; [by apply (parts_r _ _ _ _ _ _ _ P)|].
      by rewrite union_final_r.
    + destruct (H1 (Start f) Hsf) as (t & Hr & Ht). exists t. split; [|done].
      etrans; [|done]. by destruct (union_reach f g false Wf Wg Hsf Hsg).
  - intros Hh v Hv. destruct (parts_r _ _ _ _ _ _ _ P v Hv) as [Hs _].
    destruct (Hh _ Hs) as (t & Hr & [Ht Hft]).
    destruct (forward_second _ _ _ _ _ _ _ P (λ s a, union_forward f g b s a Hsf Hsg) v t Hv Hr)
      as (u & -> & Hu & Hru). exists u. split; [done|split; [done|]]. by rewrite union_final_r in Hft.
Qed.

Lemma union_sound f g b p1 p2 :
  WellFormed f → WellFormed g → valid f (Start f) → valid g (Start g) →
  (b = true → ¬ Holds f InitialCyclic) → Sound p1 f → Sound p2 g →
  Sound (UnionProperties p1 p2 false) (abs_union f g b).
Proof.
  intros Wf Wg Hsf Hsg Hac Hs1 Hs2. pose proof (union_parts f g b Wf Wg Hsf Hsg) as P.
  pose proof (parts_swap _ _ _ _ _ _ _ P) as P'.
  pose proof (λ s a, union_forward f g b s a Hsf Hsg) as Hf.
  assert (∃ s a, union_X f g b s a) as (sx & ax & Hx).
  { unfold union_X. destruct b; naive_solver. }
  destruct (union_coaccessible f g b Wf Wg Hsf Hsg) as [Hco Hco'].
  destruct (union_reach f g b Wf Wg Hsf Hsg) as [Hr1 Hr2].
  pose proof (union_start f g b) as Hst.
  cbv beta delta [UnionProperties]. sound_cases2 Hs1 Hs2.
  all: parts_goals P P'.
  all: try (by apply (parts_epsilons _ _ _ _ _ _ _ P sx ax); auto).
  all: try (apply union_weighted; by auto).
  - by apply (parts_acceptor _ _ _ _ _ _ _ P).
  - intros [?|?]%union_weighted; done.
  - by intros [?|?]%(forward_cyclic _ _ _ _ _ _ _ P Hf).
  - intros Hc. destruct b.
    + destruct (parts_l _ _ _ _ _ _ _ P _ Hsf) as [Hv _]. apply Hac; [done|].
      apply tc_first in Hc as (t & (_ & a & Ha & <-) & Hr). rewrite Hst in Ha, Hr.
      destruct (forward_return _ _ _ _ _ _ _ P Hf (Start f) a (conj Hv Ha) Hr) as
        [(u & c & He & [Hu Hc] & _ & Hr')|(u & c & He & [Hu Hc] & _ & Hr')].
      * assert (u = Start f) as -> by lia.
        eapply tc_rtc_r; [apply tc_once|done]. split; [done|by exists c].
      * unfold valid in *. lia.
    + apply tc_first in Hc as (t & (Hv & a & Ha & <-) & Hr). rewrite Hst in Hv, Ha, Hr.
      destruct (forward_return _ _ _ _ _ _ _ P Hf _ a (conj Hv Ha) Hr) as
        [(u & c & He & [Hu Hc] & _ & Hr')|(u & c & He & [Hu Hc] & _ & Hr')]; unfold valid in *; lia.
  - intros s Hs. destruct (parts_state _ _ _ _ _ _ _ P s Hs) as [(u & -> & Hu)|[(v & -> & Hv)|[-> ->]]].
    + etrans; [exact Hr1|]. by apply (parts_rtc _ _ _ _ _ _ _ P), Hp1.
    + etrans; [exact Hr2|]. by apply (parts_rtc _ _ _ _ _ _ _ P'), Hp2.
    + by rewrite Hst.
  - apply (parts_not_accessible _ _ _ _ _ _ _ P); [|done]. intros v Hv He. rewrite Hst in He.
    destruct b; unfold valid in *; lia.
  - apply (parts_not_accessible _ _ _ _ _ _ _ P'); [|done]. intros v Hv He. rewrite Hst in He.
    destruct b; unfold valid in *; lia.
  - exact (Hco Hp1 Hp2).
  - intros Hh. exact (Hn2 (Hco' Hh)).
  - by intros [?|?]%(forward_weighted_cycles _ _ _ _ _ _ _ P Hf).
Qed.
End union.

Section concat.
Context `{WeightEq W}.
Implicit Types (f g h : Fst W).

Lemma mask_bits p m k : (p &&& m =? m) = true → Z.testbit m k = true → Z.testbit p k = true.
Proof.
  intros He%Z.eqb_eq Hk. rewrite <-He, Z.land_spec in Hk. by apply andb_true_iff in Hk as [? _].
Qed.

Definition concat_X f g (o1 o2 : Z) (s : Z) (a : Arc W) : Prop :=
  ∃ u, s = o1 + u ∧ is_final f u ∧ a = MkArc 0 0 (Final f u) (o2 + Start g).

Section concat_parts.
Context (f g h : Fst W) (o1 o2 : Z).
Context (P : parts f g h o1 o2 (λ _, False) (concat_X f g o1 o2)).
Context (Hff : ∀ u, valid f u → ¬ is_final h (o1 + u) ∧ nontrivial (Final h (o1 + u)) = false).
Context (Hgf : ∀ v, valid g v → Final h (o2 + v) = Final g v).
Context (Hst : Start h = o1 + Start f).
Context (Hsf : valid f (Start f)) (Hsg : valid g (Start g)).

Lemma concat_forward s a : concat_X f g o1 o2 s a → False ∨
  ((∃ u, valid f u ∧ s = o1 + u) ∧ nextstate a = o2 + Start g ∧ valid g (Start g)).
Proof using Hsg.
  intros (u & -> & [Hu _] & ->). right. split_and!; [by exists u|done|done].
Qed.

Lemma concat_arc u : is_final f u → edge h (o1 + u) (o2 + Start g).
Proof using P.
  intros Hu. destruct (parts_X _ _ _ _ _ _ _ P (o1 + u) (MkArc 0 0 (Final f u) (o2 + Start g)))
    as [Hv Ha]; [by exists u|]. split; [done|]. by eexists.
Qed.

Lemma concat_weighted : Holds h Weighted ↔ Holds f Weighted ∨ Holds g Weighted.
Proof using P Hff Hgf.
  cbn [Holds]. rewrite (parts_arc_weight _ _ _ _ _ _ _ P). split.
  - intros [[?|[?|(s & a & (u & -> & [Hu _] & ->) & Hw)]]|(s & Hs & Hw)];
      [by left; left|by right; left|left; right; by exists u|].
    destruct (parts_state _ _ _ _ _ _ _ P s Hs) as [(u & -> & Hu)|[(v & -> & Hv)|[]]].
    + destruct (Hff u Hu) as [_ E]. by rewrite E in Hw.
    + rewrite Hgf in Hw by done. right; right. by exists v.
  - intros [[?|(u & Hu & Hw)]|[?|(v & Hv & Hw)]].
    + by left; left.
    + left; right; right. exists (o1 + u), (MkArc 0 0 (Final f u) (o2 + Start g)). split; [|done].
      exists u. split_and!; [done|split; [done|]|done].
      unfold nontrivial in Hw. by destruct (weqb (Final f u) Zero).
    + by left; right; left.
    + right. exists (o2 + v). rewrite Hgf by done. split; [by apply (parts_r _ _ _ _ _ _ _ P)|done].
Qed.

Lemma concat_accessible :
  Holds f Accessible → Holds f CoAccessible → Holds g Accessible → Holds h Accessible.
Proof using P Hst Hsf.
  intros Hf Hc Hg. pose proof (parts_swap _ _ _ _ _ _ _ P) as P'.
  assert (∀ u, valid f u → rtc (edge h) (Start h) (o1 + u)) as H1.
  { intros u Hu. rewrite Hst. by apply (parts_rtc _ _ _ _ _ _ _ P), Hf. }
  intros s Hs. destruct (parts_state _ _ _ _ _ _ _ P s Hs) as [(u & -> & Hu)|[(v & -> & Hv)|[]]].
  - by apply H1.
  - destruct (Hc (Start f) Hsf) as (t & Hr & Ht).
    etrans; [apply (H1 t), Ht|]. eapply rtc_l; [by apply concat_arc|].
    by apply (parts_rtc _ _ _ _ _ _ _ P'), Hg.
Qed.

Lemma concat_coaccessible :
  Holds f CoAccessible → Holds g CoAccessible → Holds h CoAccessible.
Proof using P Hgf Hsg.
  intros Hf Hg. pose proof (parts_swap _ _ _ _ _ _ _ P) as P'.
  assert (∀ v, valid g v → ∃ t, rtc (edge h) (o2 + v) t ∧ is_final h t) as H2.
  { intros v Hv. destruct (Hg v Hv) as (t & Hr & [Ht Hft]). exists (o2 + t).
    split; [by apply (parts_rtc _ _ _ _ _ _ _ P')|].
    split; [by apply (parts_r _ _ _ _ _ _ _ P)|by rewrite Hgf]. }
  intros s Hs. destruct (parts_state _ _ _ _ _ _ _ P s Hs) as [(u & -> & Hu)|[(v & -> & Hv)|[]]].
  - destruct (Hf u Hu) as (t & Hr & Ht). destruct (H2 _ Hsg) as (t2 & Hr2 & Ht2).
    exists t2. split; [|done]. etrans; [by apply (parts_rtc _ _ _ _ _ _ _ P)|].
    eapply rtc_l; [by apply concat_arc|done].
  - by apply H2.
Qed.

Lemma concat_coaccessible_l : Holds h CoAccessible → Holds f CoAccessible.
Proof using P Hff.
  intros Hh u Hu. destruct (parts_l _ _ _ _ _ _ _ P u Hu) as [Hv _].
  destruct (Hh _ Hv) as (t & Hr & Ht).
  destruct (parts_leave _ _ _ _ _ _ _ P u t Hu Hr) as [(w & -> & Hw & _)|(w & a & Hw & Hrw & Hx & _)].
  - by destruct (Hff w Hw).
  - destruct Hx as (w' & He & Hf & _). exists w. split; [done|]. by assert (w = w') as -> by lia.
Qed.

Lemma concat_coaccessible_r : Holds h CoAccessible → Holds g CoAccessible.
Proof using P Hgf Hsg.
  intros Hh v Hv. destruct (parts_r _ _ _ _ _ _ _ P v Hv) as [Hs _].
  destruct (Hh _ Hs) as (t & Hr & [Ht Hft]).
  destruct (forward_second _ _ _ _ _ _ _ P concat_forward v t Hv Hr) as (u & -> & Hu & Hru).
  exists u. split; [done|split; [done|]]. by rewrite Hgf in Hft.
Qed.

Lemma concat_initial_cyclic : Holds h InitialCyclic ↔ Holds f InitialCyclic.
Proof using P Hst Hsf Hsg.
  cbn [Holds]. rewrite Hst. split.
  - intros Hc. apply tc_first in Hc as (t & (Hv & a & Ha & <-) & Hr).
    destruct (forward_return _ _ _ _ _ _ _ P concat_forward _ a (conj Hv Ha) Hr) as
      [(u & c & He & [Hu Hc] & _ & Hr')|(u & c & He & [Hu Hc] & _ & Hr')].
    + assert (u = Start f) as -> by lia. eapply tc_rtc_r; [apply tc_once|done].
      split; [done|by exists c].
    + by destruct (parts_disjoint _ _ _ _ _ _ _ P (Start f) u).
  - apply (parts_tc _ _ _ _ _ _ _ P).
Qed.

Lemma concat_parts_sound p1 p2 :
  (Holds h StringFst → Holds f StringFst ∧ Holds g StringFst) →
  Sound p1 f → Sound p2 g → Sound (ConcatProperties p1 p2 false) h.
Proof using P Hff Hgf Hst Hsf Hsg.
  intros Hstr Hs1 Hs2. pose proof (parts_swap _ _ _ _ _ _ _ P) as P'.
  pose proof concat_weighted as Hw. pose proof concat_accessible as Hac.
  pose proof concat_coaccessible as Hco. pose proof concat_initial_cyclic as Hi.
  assert ((p1 &&& (kAccessible ||| kCoAccessible) =? kAccessible ||| kCoAccessible) = true →
    Holds f Accessible ∧ Holds f CoAccessible) as Htrim.
  { intros Hb. split; [apply (Hs1 Accessible)|apply (Hs1 CoAccessible)]; by eapply mask_bits. }
  cbv beta delta [ConcatProperties]. sound_cases2 Hs1 Hs2.
  all: try (destruct (p1 &&& (kAccessible ||| kCoAccessible) =? kAccessible ||| kCoAccessible);
    [destruct (Htrim eq_refl) as [Ht1 Ht2]|]; cbn [andb orb negb] in Hbit).
  all: repeat match goal with
    | H : (_ && _)%bool = true |- _ => apply andb_true_iff in H as [? ?]
    | H : (_ || _)%bool = true |- _ => apply orb_true_iff in H as [H|H]
    end; try discriminate Hbit;
    repeat match goal with
    | H : (?x = true) → _, K : (?x = true) |- _ => specialize (H K)
    end.
  all: parts_goals P P'.
  all: try (by apply (parts_acceptor _ _ _ _ _ _ _ P)).
  all: try (by apply Hac). all: try (by apply Hco). all: try (by apply Hi).
  all: try (intros Hh; by apply Hi in Hh).
  all: try (apply Hw; by auto).
  all: try (intros Hh; by apply Hw in Hh as [?|?]).
  all: try (intros Hh; by apply Hstr in Hh as [? ?]).
  all: try (intros Hh; by apply concat_coaccessible_l in Hh).
  all: try (intros Hh; by apply concat_coaccessible_r in Hh).
  all: try (intros Hh; by apply (forward_cyclic _ _ _ _ _ _ _ P concat_forward) in Hh as [?|?]).
  all: try (intros Hh; by apply (forward_weighted_cycles _ _ _ _ _ _ _ P concat_forward) in Hh as [?|?]).
  all: try (revert Hn1; apply (parts_not_accessible _ _ _ _ _ _ _ P); intros v _; lia).
  all: revert Hn2; apply (parts_not_accessible _ _ _ _ _ _ _ P'); intros v Hv He;
    by destruct (parts_disjoint _ _ _ _ _ _ _ P (Start f) v Hsf Hv); lia.
Qed.
End concat_parts.

(** ** The two versions of [Concat] *)

Lemma joined_parts f g h o o' base N :
  joined f g h o o' base → WellFormed f → WellFormed g → valid g (Start g) →
  (∀ s, valid h s → (∃ u, s = o + u ∧ valid f u) ∨ (∃ u, s = o' + u ∧ valid g u)) →
  (∀ u v, valid f u → valid g v → o + u ≠ o' + v) → (∀ s, ¬ N s) →
  (∀ u, valid f u → sublist (shift_arc o <$> Arcs f u) (Arcs h (o + u))) →
  parts f g h o o' N (concat_X f g o o').
Proof.
  intros [Hbase Hg Hext Hff Hgf Hst] Wf Wg Hsg Hstate Hd HN Hsub.
  pose proof Wf as (_ & Wa & _). pose proof Wg as (_ & Wb & _). split; try done.
  - intros s Hs. destruct (Hbase s Hs) as [Hv _]. split; [by apply Hext|by apply Hsub].
  - intros s Hs. destruct (Hg s Hs) as [Hv ->]. done.
  - intros s a [Hs Ha]. destruct (Hstate s Hs) as [(u & -> & Hu)|(u & -> & Hu)].
    + destruct (Hbase u Hu) as [Hv Harcs]. apply Hext in Ha as [Ha|Hx]; [|by auto|done].
      rewrite Harcs in Ha. apply list_elem_of_fmap in Ha as (b & -> & Hb).
      left. by exists u, b.
    + destruct (Hg u Hu) as [Hv Harcs]. rewrite Harcs in Ha.
      apply list_elem_of_fmap in Ha as (b & -> & Hb). right; left. by exists u, b.
  - intros s a (u & -> & Hfu & ->). destruct (Hbase u) as [Hv _]; [by destruct Hfu|].
    split; [by apply Hext|]. apply Hext; [done|]. right. by exists u.
  - intros s Hs. destruct (Hstate s Hs); auto.
  - intros s Hs. by destruct (HN s).
  - by intros s a (u & -> & _ & ->).
  - intros s a (u & -> & _ & ->). by right.
Qed.

Lemma abs_concat_parts f g :
  WellFormed f → WellFormed g → valid g (Start g) →
  parts f g (abs_concat f g) 0 (NumStates f) (λ _, False) (concat_X f g 0 (NumStates f)).
Proof.
  intros Wf Wg Hsg. pose proof Wf as (Hn & _). pose proof Wg as (Hm & _).
  eapply joined_parts; [by apply abs_concat_joined|done|done|done| | |intros ? []|].
  - intros s [Hs1 Hs2]. simpl in Hs2. unfold valid.
    destruct (decide (s < NumStates f)); [left; exists s; lia|right; exists (s - NumStates f); lia].
  - unfold valid. lia.
  - intros u Hu. rewrite Z.add_0_l, shift_arcs_0. unfold valid in Hu. simpl.
    rewrite decide_True, !(decide_True (P := u < NumStates f)) by lia.
    destruct (wneqb _ _); [apply sublist_inserts_r|]; reflexivity.
Qed.

Lemma abs_concat_front_parts f g :
  WellFormed f → WellFormed g → valid g (Start g) →
  parts f g (abs_concat_front f g) (NumStates g) 0 (λ _, False) (concat_X f g (NumStates g) 0).
Proof.
  intros Wf Wg Hsg. pose proof Wf as (Hn & _). pose proof Wg as (Hm & _).
  eapply joined_parts; [by apply abs_concat_front_joined|done|done|done| | |intros ? []|].
  - intros s [Hs1 Hs2]. simpl in Hs2. unfold valid.
    destruct (decide (s < NumStates g)); [right; exists s; lia|left; exists (s - NumStates g); lia].
  - unfold valid. lia.
  - intros u Hu. unfold valid in Hu. simpl. rewrite decide_False, decide_True by lia.
    replace (NumStates g + u - NumStates g) with u by lia. unfold prepend_arcs.
    apply sublist_inserts_l. reflexivity.
Qed.

(** [h] is a string only if both machines are. *)
Lemma abs_concat_string f g :
  WellFormed f → WellFormed g → valid f (Start f) → valid g (Start g) →
  Holds (abs_concat f g) StringFst → Holds f StringFst ∧ Holds g StringFst.
Proof.
  intros (Hn & Wa & _) (Hm & _) Hsf Hsg Hh.
  pose proof (abs_concat_joined f g Hn Hm Hsg) as [Hbase Hg Hext _ Hgf Hst].
  set (h := abs_concat f g) in *.
  assert (NumStates h = NumStates f + NumStates g) as HN by done.
  destruct Hh as (Hs0 & [Hlv Hlf] & Hla & Hmid); [rewrite HN; unfold valid in *; lia|].
  rewrite HN in *.
  assert (∀ u, valid f u → ∃ a, Arcs h u = [a] ∧ nextstate a = u + 1) as Hone.
  { intros u Hu. apply Hmid. unfold valid in *. lia. }
  assert (∀ u a, valid f u → (a ∈ Arcs h u ↔ a ∈ Arcs f u ∨
    (is_final f u ∧ a = MkArc 0 0 (Final f u) (NumStates f + Start g)))) as Hin.
  { intros u a Hu. assert (valid (abs_append f g (NumStates g)) u) as Hv by (unfold valid in *; simpl; lia).
    destruct (Hbase u Hu) as [_ HA]. rewrite Z.add_0_l, shift_arcs_0 in HA.
    destruct Hext as [_ Hext]. rewrite (Hext u a Hv), HA. split.
    - intros [?|(u' & -> & ? & ->)]; [by left|by right].
    - intros [?|[? ->]]; [by left|right]. by exists u. }
  assert (∀ u, valid f u → is_final f u → u = NumStates f - 1 ∧ Start g = 0) as Hfin.
  { intros u Hu Hf. destruct (Hone u Hu) as (a & HA & Ha).
    assert (MkArc 0 0 (Final f u) (NumStates f + Start g) ∈ Arcs h u) as Hx by (apply Hin; auto).
    rewrite HA in Hx. apply list_elem_of_singleton in Hx as <-. simpl in Ha.
    unfold valid in *. lia. }
  assert (is_final f (NumStates f - 1)) as Hfl.
  { assert (valid f (NumStates f - 1)) as Hv by (unfold valid in *; lia).
    destruct (Hone _ Hv) as (a & HA & Ha).
    assert (a ∈ Arcs h (NumStates f - 1)) as Hx by (rewrite HA; by apply list_elem_of_singleton).
    apply Hin in Hx as [Hx|[? _]]; [|done|done]. specialize (Wa _ _ Hv Hx). unfold valid in Wa. lia. }
  split.
  - intros _. split_and!; [done|done| |].
    + assert (valid f (NumStates f - 1)) as Hv by by destruct Hfl.
      destruct (Arcs f (NumStates f - 1)) as [|a l] eqn:HA; [done|exfalso].
      destruct (Hone _ Hv) as (b & HB & Hb).
      assert (a ∈ Arcs h (NumStates f - 1)) as Hx.
      { apply Hin; [done|]. left. rewrite HA. left. }
      rewrite HB in Hx. apply list_elem_of_singleton in Hx as ->.
      assert (valid f (nextstate b)) as Hvb by (apply (Wa _ _ Hv); rewrite HA; left).
      unfold valid in Hvb. lia.
    + intros s Hs. assert (valid f s) as Hv by (unfold valid in *; lia).
      assert (¬ is_final f s) as Hns by (intros Hf; destruct (Hfin s Hv Hf); lia).
      split; [done|]. destruct (Hone s Hv) as (a & HA & Ha). exists a. split; [|done].
      enough (Arcs h s = Arcs f s) as <- by done.
      unfold h, abs_concat. cbn [abs_connect Arcs abs_append Final].
      rewrite decide_True, decide_True, decide_True by (unfold valid in *; lia).
      destruct (weqb (Final f s) Zero) eqn:Hw; [done|]. by destruct Hns.
  - intros _. destruct (Hfin (NumStates f - 1)) as [_ Hg0]; [by destruct Hfl|done|].
    assert (∀ v, valid g v → Arcs h (NumStates f + v) = shift_arc (NumStates f) <$> Arcs g v) as HA.
    { intros v Hv. by destruct (Hg v Hv) as [_ <-]. }
    assert (valid g (NumStates g - 1)) as Hvl by (unfold valid in *; lia).
    replace (NumStates f + NumStates g - 1) with (NumStates f + (NumStates g - 1)) in * by lia.
    split_and!; [done| | |].
    + split; [done|]. by rewrite <-Hgf.
    + rewrite HA in Hla by done. by apply fmap_nil_inv in Hla.
    + intros s Hs. assert (valid g s) as Hv by (unfold valid; lia).
      destruct (Hmid (NumStates f + s)) as (Hnf & a & Harc & Ha); [lia|]. rewrite HA in Harc by done.
      split.
      * intros [_ Hf]. apply Hnf. split; [unfold valid in *; lia|]. by rewrite Hgf.
      * destruct (Arcs g s) as [|b [|c l]]; try discriminate Harc. injection Harc as <-. exists b. split; [done|]. simpl in Ha. lia.
Qed.

Lemma concat_sound f g p1 p2 :
  WellFormed f → WellFormed g → valid f (Start f) → valid g (Start g) →
  Sound p1 f → Sound p2 g → Sound (ConcatProperties p1 p2 false) (abs_concat f g).
Proof.
  intros Wf Wg Hsf Hsg. pose proof Wf as (Hn & _). pose proof Wg as (Hm & _).
  pose proof (abs_concat_joined f g Hn Hm Hsg) as [_ _ _ Hff Hgf Hst].
  eapply concat_parts_sound; [by apply abs_concat_parts| |done|done|done|done|by apply abs_concat_string].
  intros u Hu. split; [by apply Hff|]. specialize (Hff u Hu).
  destruct (nontrivial (Final (abs_concat f g) (0 + u))) eqn:E; [|done].
  destruct Hff. split; [unfold valid in *; simpl; lia|]. unfold nontrivial in E.
  by destruct (weqb (Final (abs_concat f g) (0 + u)) Zero).
Qed.

Lemma concat_front_sound f g p1 p2 :
  WellFormed f → WellFormed g → valid f (Start f) → valid g (Start g) →
  Sound p1 f → Sound p2 g → Sound (ConcatProperties p1 p2 false) (abs_concat_front f g).
Proof.
  intros Wf Wg Hsf Hsg. pose proof Wf as (Hn & _). pose proof Wg as (Hm & _).
  pose proof (abs_concat_front_joined f g Hn Hm) as [_ _ _ Hff Hgf Hst].
  eapply concat_parts_sound; [by apply abs_concat_front_parts| |done|done|done|done|].
  - intros u Hu. split; [by apply Hff|]. specialize (Hff u Hu).
    destruct (nontrivial (Final (abs_concat_front f g) (NumStates g + u))) eqn:E; [|done].
    destruct Hff. split; [unfold valid in *; simpl; lia|]. unfold nontrivial in E.
    by destruct (weqb (Final (abs_concat_front f g) (NumStates g + u)) Zero).
  - intros Hh. destruct Hh as [Hst0 _]; unfold valid in *; simpl in *; lia.
Qed.
End concat.

(** * Closure *)

Section closure.
Context `{WeightEq W}.
Implicit Types (f g h : Fst W).

(** A machine without states: the second part of a closure. *)
Definition no_states : Fst W := Build_Fst W kNoStateId 0 (λ _, Zero) (λ _, []) 0 None None.

Definition closure_N f (star : bool) (s : Z) : Prop := star = true ∧ s = NumStates f.
Definition closure_X f (star : bool) (s : Z) (a : Arc W) : Prop :=
  (is_final f s ∧ a = MkArc 0 0 (Final f s) (Start f)) ∨
  (star = true ∧ s = NumStates f ∧ a = ArcOne 0 0 (Start f)).

Lemma plus_arc f s a : valid f s →
  a ∈ Arcs (abs_closure f false) s ↔
  a ∈ Arcs f s ∨ (is_final f s ∧ a = MkArc 0 0 (Final f s) (Start f)).
Proof.
  intros Hs. unfold is_final, valid in *. simpl. rewrite decide_True by done.
  destruct (weqb (Final f s) Zero) eqn:Hw; simpl; [naive_solver|].
  rewrite elem_of_app, list_elem_of_singleton. naive_solver.
Qed.

Lemma star_arc f s a : tight f → valid (abs_closure f true) s →
  a ∈ Arcs (abs_closure f true) s ↔ (valid f s ∧ a ∈ Arcs f s) ∨ closure_X f true s a.
Proof.
  intros Ht Hs. unfold closure_X. destruct (decide (s = NumStates f)) as [->|Hne].
  - destruct (star_start f Ht) as [-> _]. rewrite list_elem_of_singleton.
    unfold is_final, valid. split; [naive_solver|]. intros [[? _]|[[[? _] _]|(_ & _ & ->)]]; [lia..|done].
  - assert (valid f s) as Hv by (unfold valid in *; simpl in Hs; lia).
    assert (Arcs (abs_closure f true) s = Arcs (abs_closure f false) s) as ->
      by (simpl; by rewrite decide_False by done).
    rewrite plus_arc by done. naive_solver.
Qed.

Lemma closure_arc f star s a : 0 ≤ NumStates f → tight f →
  arc_in (abs_closure f star) s a ↔ arc_in f s a ∨ closure_X f star s a.
Proof.
  intros Hn Ht. unfold arc_in. destruct star.
  - split.
    + intros [Hs Ha]. by apply star_arc in Ha.
    + intros Hx. assert (valid (abs_closure f true) s) as Hv
        by (unfold closure_X, is_final, valid in *; simpl; destruct Hx as [[? _]|[[[? _] _]|(_ & -> & _)]]; lia).
      split; [done|]. by apply star_arc.
  - split.
    + intros [Hs Ha]. apply plus_arc in Ha as [?|?]; unfold closure_X; auto.
    + intros [[Hs Ha]|[[[Hs Hf] ->]|[? _]]]; [| |done]; (split; [done|]); apply plus_arc; auto.
      right. repeat split; try done; apply Hs.
Qed.

Lemma closure_final f star u : valid f u → Final (abs_closure f star) u = Final f u.
Proof.
  intros Hu. destruct star; simpl; [rewrite decide_False by (unfold valid in *; lia)|];
    rewrite andb_false_r; by case_match.
Qed.

Lemma closure_sublist f star u : valid f u → sublist (Arcs f u) (Arcs (abs_closure f star) u).
Proof.
  intros Hu. unfold valid in Hu. destruct star; simpl; [rewrite decide_False by lia|];
    (rewrite decide_True by lia; destruct (wneqb _ _); [apply sublist_inserts_r|]; reflexivity).
Qed.

Lemma closure_parts f star :
  WellFormed f → tight f → valid f (Start f) →
  parts f no_states (abs_closure f star) 0 (NumStates f) (closure_N f star) (closure_X f star).
Proof.
  intros (Hn & Wa & _) Ht Hs.
  assert (∀ u, valid f u → valid (abs_closure f star) u) as Hv.
  { intros u. unfold valid. destruct star; simpl; lia. }
  assert (∀ u, ¬ valid no_states u) as Hno by (intros u; unfold valid; simpl; lia).
  split.
  - intros u Hu. rewrite Z.add_0_l, shift_arcs_0. split; [by apply Hv|by apply closure_sublist].
  - intros u Hu. by destruct (Hno u).
  - intros s a Ha. apply closure_arc in Ha as [?|?]; [|by auto|done..].
    left. exists s, a. by rewrite shift_arc_0.
  - intros s a Hx. apply closure_arc; auto.
  - intros s Hvs. unfold closure_N, valid in *. destruct star; simpl in Hvs.
    + destruct (decide (s = NumStates f)); [by auto|]. left. exists s. lia.
    + left. by exists s.
  - intros u v _ Hu. by destruct (Hno v).
  - intros s [-> ->]. split_and!; [unfold valid; simpl; lia|unfold valid; intros; lia|].
    intros v Hu. by destruct (Hno v).
  - by intros s a [[_ ->]|(_ & _ & ->)].
  - intros s a [[_ ->]|(_ & _ & ->)]; by left.
  - done.
  - intros s a Hu. by destruct (Hno s).
Qed.

Lemma closure_weighted f star :
  WellFormed f → tight f → valid f (Start f) →
  Holds (abs_closure f star) Weighted ↔ Holds f Weighted.
Proof.
  intros Wf Ht Hs. pose proof (closure_parts f star Wf Ht Hs) as P.
  cbn [Holds]. rewrite (parts_arc_weight _ _ _ _ _ _ _ P). split.
  - intros [[?|[(v & a & Hv & _)|(s & a & [[[Hu _] ->]|(_ & _ & ->)] & Hw)]]|(s & Hvs & Hw)].
    + by left.
    + unfold valid in Hv; simpl in Hv; lia.
    + right. by exists s.
    + simpl in Hw. by rewrite nontrivial_One in Hw.
    + destruct (parts_state _ _ _ _ _ _ _ P s Hvs) as [(u & -> & Hu)|[(v & _ & Hv)|[-> ->]]].
      * right. exists u. by rewrite <-(closure_final f star u).
      * unfold valid in Hv; simpl in Hv; lia.
      * destruct (star_start f Ht) as [_ E]. rewrite E in Hw. by rewrite nontrivial_One in Hw.
  - intros [?|(u & Hu & Hw)]; [by left; left|]. right. exists u. rewrite closure_final by done.
    split; [by apply (parts_l _ _ _ _ _ _ _ P u)|done].
Qed.

Lemma closure_back f star u :
  WellFormed f → tight f → valid f (Start f) →
  is_final f u → edge (abs_closure f star) u (Start f).
Proof.
  intros Wf Ht Hs Hu. pose proof (closure_parts f star Wf Ht Hs) as P.
  destruct (parts_X _ _ _ _ _ _ _ P u (MkArc 0 0 (Final f u) (Start f))) as [Hv Ha]; [by left|].
  split; [done|]. by eexists.
Qed.

(** In a trim machine every arc lies on a cycle through the start state. *)
Lemma closure_weighted_cycles f star :
  WellFormed f → tight f → valid f (Start f) →
  Holds f Weighted → Holds f Accessible → Holds f CoAccessible →
  Holds (abs_closure f star) WeightedCycles.
Proof.
  intros Wf Ht Hs Hw Hac Hco. pose proof (closure_parts f star Wf Ht Hs) as P.
  pose proof Wf as (_ & Wa & _).
  assert (∀ u, valid f u → rtc (edge (abs_closure f star)) (Start f) u) as Hacc.
  { intros u Hu. rewrite <-(Z.add_0_l u), <-(Z.add_0_l (Start f)).
    by apply (parts_rtc _ _ _ _ _ _ _ P), Hac. }
  destruct Hw as [(u & a & Hu & Ha & Hw)|(u & Hu & Hw)].
  - destruct (parts_arc_l _ _ _ _ _ _ _ P u a (conj Hu Ha)) as [Hv Hin].
    rewrite shift_arc_0 in Hin. exists (0 + u), a. split_and!; [done|done|done|].
    destruct (Hco (nextstate a)) as (t & Hr & Hf); [by apply (Wa u a)|].
    apply (parts_rtc _ _ _ _ _ _ _ P) in Hr. etrans; [exact Hr|].
    eapply rtc_l; [|by apply Hacc]. by apply closure_back.
  - assert (is_final f u) as Hf.
    { split; [done|]. unfold nontrivial in Hw. by destruct (weqb (Final f u) Zero). }
    destruct (parts_X _ _ _ _ _ _ _ P u (MkArc 0 0 (Final f u) (Start f))) as [Hv Ha]; [by left|].
    exists u, (MkArc 0 0 (Final f u) (Start f)). split_and!; [done|done|done|]. by apply Hacc.
Qed.

Lemma closure_accessible f star :
  WellFormed f → tight f → valid f (Start f) →
  (Holds f Accessible → Holds (abs_closure f star) Accessible) ∧
  (¬ Holds f Accessible → ¬ Holds (abs_closure f star) Accessible).
Proof.
  intros Wf Ht Hs. pose proof (closure_parts f star Wf Ht Hs) as P. split.
  - assert (rtc (edge (abs_closure f star)) (Start (abs_closure f star)) (0 + Start f)) as Hst.
    { destruct star; [|done]. apply rtc_once.
      destruct (parts_X _ _ _ _ _ _ _ P (NumStates f) (ArcOne 0 0 (Start f))) as [Hv Ha]; [by right|].
      split; [done|]. by eexists. }
    intros Hac s Hvs. destruct (parts_state _ _ _ _ _ _ _ P s Hvs) as [(u & -> & Hu)|[(v & _ & Hv)|[-> ->]]].
    + etrans; [exact Hst|]. by apply (parts_rtc _ _ _ _ _ _ _ P), Hac.
    + unfold valid in Hv; simpl in Hv; lia.
    + done.
  - apply (parts_not_accessible _ _ _ _ _ _ _ P). intros v Hv.
    destruct star; simpl; [unfold valid in Hv|]; lia.
Qed.

Lemma closure_coaccessible f star :
  WellFormed f → tight f → valid f (Start f) →
  (Holds f CoAccessible → Holds (abs_closure f star) CoAccessible) ∧
  (¬ Holds f CoAccessible → ¬ Holds (abs_closure f star) CoAccessible).
Proof.
  intros Wf Ht Hs. pose proof (closure_parts f star Wf Ht Hs) as P. split.
  - intros Hco.
    assert (∀ u, valid f u → ∃ t, rtc (edge (abs_closure f star)) (0 + u) t ∧
      is_final (abs_closure f star) t) as H1.
    { intros u Hu. destruct (Hco u Hu) as (t & Hr & [Hvt Hft]). exists (0 + t).
      split; [by apply (parts_rtc _ _ _ _ _ _ _ P)|].
      split; [by apply (parts_l _ _ _ _ _ _ _ P)|]. by rewrite Z.add_0_l, closure_final. }
    intros s Hvs. destruct (parts_state _ _ _ _ _ _ _ P s Hvs) as [(u & -> & Hu)|[(v & _ & Hv)|[-> ->]]].
    + by apply H1.
    + unfold valid in Hv; simpl in Hv; lia.
    + destruct (parts_X _ _ _ _ _ _ _ P (NumStates f) (ArcOne 0 0 (Start f))) as [Hv Ha]; [by right|].
      destruct (H1 (Start f) Hs) as (t & Hr & Hft). exists t. split; [|done].
      eapply rtc_l; [|exact Hr]. split; [done|]. by eexists.
  - intros Hn Hh. apply Hn. intros u Hu. destruct (parts_l _ _ _ _ _ _ _ P u Hu) as [Hv _].
    destruct (Hh _ Hv) as (t & Hr & Hvt & Hft).
    destruct (parts_leave _ _ _ _ _ _ _ P u t Hu Hr) as [(w & -> & Hw & Hrw)|(w & a & Hw & Hrw & Hx & _)].
    + exists w. split; [done|]. split; [done|]. by rewrite Z.add_0_l, closure_final in Hft.
    + exists w. split; [done|]. rewrite Z.add_0_l in Hx.
      destruct Hx as [[? _]|(_ & -> & _)]; [done|]. unfold valid in Hw. lia.
Qed.

Lemma closure_not_string f star :
  WellFormed f → tight f → valid f (Start f) → ¬ Holds (abs_closure f star) StringFst.
Proof.
  intros Wf Ht Hs Hh. pose proof Wf as (Hn & _). destruct star.
  - destruct Hh as [Hz _]; unfold valid in *; simpl in *; lia.
  - destruct Hh as (_ & Hf & HA & _); [unfold valid in *; simpl; lia|].
    assert (is_final f (NumStates (abs_closure f false) - 1)) as Hff.
    { destruct Hf as [Hv Hf]. split; [done|]. by rewrite closure_final in Hf. }
    destruct (closure_back f false _ Wf Ht Hs Hff) as (_ & a & Ha & _).
    rewrite HA in Ha. by apply not_elem_of_nil in Ha.
Qed.

Lemma closure_sound f star p :
  WellFormed f → tight f → valid f (Start f) → Sound p f →
  Sound (ClosureProperties p star false) (abs_closure f star).
Proof.
  intros Wf Ht Hs Hp. pose proof (closure_parts f star Wf Ht Hs) as P.
  pose proof (closure_weighted f star Wf Ht Hs) as Hw.
  destruct (closure_accessible f star Wf Ht Hs) as [Hac Hnac].
  destruct (closure_coaccessible f star Wf Ht Hs) as [Hco Hnco].
  pose proof (λ i o, closure_weighted_cycles f star Wf Ht Hs i o) as Hwc.
  pose proof (Hp Accessible) as [Ha _]. pose proof (Hp CoAccessible) as [Hc _].
  pose proof (Hp Weighted) as [Hwp Hwn].
  intros t. destruct (Hp t) as [Hp1 Hn1]. revert Hp1 Hn1 Ha Hc Hwp Hwn.
  cbv beta delta [ClosureProperties].
  destruct t; bits; intros Hp1 Hn1 Ha Hc Hwp Hwn; (split; intros Hbit; try discriminate Hbit).
  all: try match goal with
    | |- ¬ Holds _ ?t =>
        intros Hh; exact (Hn1 Hbit (parts_inherited _ _ _ _ _ _ _ P t eq_refl Hh))
    end.
  all: try (by apply Hw, Hp1); try (intros Hh; by apply Hn1, Hw).
  all: try (by apply Hac, Hp1); try (by apply Hnac, Hn1).
  all: try (by apply Hco, Hp1); try (by apply Hnco, Hn1).
  all: try (by apply closure_not_string).
  - apply (parts_acceptor _ _ _ _ _ _ _ P); [by apply Hp1|].
    intros s a Hv. unfold valid in Hv. simpl in Hv. lia.
  - destruct (Z.testbit p 32); [|by apply (parts_passed_on _ _ _ _ _ _ _ P WeightedCycles eq_refl), Hp1].
    destruct (Z.testbit p 40); [|by apply (parts_passed_on _ _ _ _ _ _ _ P WeightedCycles eq_refl), Hp1].
    destruct (Z.testbit p 42); [|by apply (parts_passed_on _ _ _ _ _ _ _ P WeightedCycles eq_refl), Hp1].
    by apply Hwc; [apply Hwp|apply Ha|apply Hc].
  - destruct (Z.testbit p 33); [|discriminate Hbit]. intros (s & a & Hs' & Hin & Hwa & _).
    apply Hwn; [done|]. apply Hw. left. by exists s, a.
Qed.
End closure.
