(* ===== verification/RationalSpec.v ===== *)
(** What [Union], [Concat] and [Closure] promise, whatever implements
[MutableFst]: on well-formed machines with true property bits they return, the
machine they leave is well formed and accepts the union, the concatenation or
the closure of what the operands accepted, its property bits are true, and an
error of an operand is passed on.  Machines without a start state, which take
their own branches in the code, are included. *)
From S2P Require Import Prelude Weight FloatWeight Properties SymbolTable Fst VectorFst Mutation.
From S2P Require Import VectorSound MutableFst Rational RationalLang RationalProps.
Local Open Scope Z_scope.

(** * Equal machines, machines without a start *)

Section facts.
Context `{WeightEq W}.
Implicit Types (f g h : Fst W).

Lemma path_equiv f g s p t : f ≡ g → path f s p t → path g s p t.
Proof.
  intros Hfg. pose proof Hfg as (_ & _ & _ & HA).
  induction 1; [constructor; by rewrite <-Hfg|].
  constructor; [by rewrite <-Hfg|by rewrite <-HA|done].
Qed.

#[export] Instance accepts_machine_proper :
  Proper ((≡) ==> eq ==> eq ==> eq ==> iff) (accepts (W:=W)).
Proof.
  assert (∀ f g x y w, f ≡ g → accepts f x y w → accepts g x y w) as Hd.
  { intros f g x y w Hfg (p & t & Hp & Hf & Hx & Hy & Hw). pose proof Hfg as (HS & _ & HF & _).
    exists p, t. rewrite <-HS, <-HF. split_and!; [by eapply path_equiv|by rewrite <-Hfg|done..]. }
  intros f g Hfg x ? <- y ? <- w ? <-. by split; apply Hd.
Qed.

#[export] Instance member_weights_proper : Proper ((≡) ==> iff) (member_weights (W:=W)).
Proof.
  assert (∀ f g, f ≡ g → member_weights f → member_weights g) as Hd.
  { intros f g Hfg [Ha Hf]. pose proof Hfg as (_ & _ & HF & HA). split.
    - intros s a Hs Hin. rewrite <-HA in Hin. apply (Ha s a); [by rewrite Hfg|done].
    - intros s Hs. rewrite <-HF. apply Hf. by rewrite Hfg. }
  intros f g Hfg. by split; apply Hd.
Qed.

Lemma SoundFst_equiv f g : f ≡ g → Sound (FstProperties f) g → SoundFst f.
Proof. unfold SoundFst. generalize (FstProperties f). intros p Hfg. by rewrite Hfg. Qed.

Lemma start_invalid f : Start f = kNoStateId → ¬ valid f (Start f).
Proof. intros ->. unfold valid, kNoStateId. lia. Qed.

Lemma accepts_no_start f x y w : Start f = kNoStateId → ¬ accepts f x y w.
Proof.
  intros Hs (p & t & Hp & _). apply (start_invalid f Hs). by eapply path_valid_l.
Qed.

Lemma start_valid f : WellFormed f → Start f ≠ kNoStateId → valid f (Start f).
Proof. intros (_ & _ & [?|?]); [done|done]. Qed.

(** ** Well-formedness *)

Lemma parts_wf f g h o1 o2 N X : parts f g h o1 o2 N X → wf_arcs h.
Proof.
  intros P s a Hs Ha. destruct (parts_arc _ _ _ _ _ _ _ P s a (conj Hs Ha)) as
    [(u & b & -> & [Hu Hb] & ->)|[(u & b & -> & [Hu Hb] & ->)|Hx]]; simpl.
  - rewrite Z.add_comm. apply (parts_l _ _ _ _ _ _ _ P). by apply (parts_wf_l _ _ _ _ _ _ _ P u b).
  - rewrite Z.add_comm. apply (parts_r _ _ _ _ _ _ _ P). by apply (parts_wf_r _ _ _ _ _ _ _ P u b).
  - destruct (parts_X_to _ _ _ _ _ _ _ P s a Hx) as [[-> Hv]|[-> Hv]].
    + by apply (parts_l _ _ _ _ _ _ _ P).
    + by apply (parts_r _ _ _ _ _ _ _ P).
Qed.

Lemma union_wf f g b :
  WellFormed f → WellFormed g → valid f (Start f) → valid g (Start g) → WellFormed (abs_union f g b).
Proof.
  intros Wf Wg Hsf Hsg. pose proof (union_parts f g b Wf Wg Hsf Hsg) as P.
  refine (conj _ (conj (parts_wf _ _ _ _ _ _ _ P) (or_intror _))); unfold valid in *;
    destruct b; simpl; lia.
Qed.

Lemma concat_wf f g :
  WellFormed f → WellFormed g → valid f (Start f) → valid g (Start g) → WellFormed (abs_concat f g).
Proof.
  intros Wf Wg Hsf Hsg. pose proof (abs_concat_parts f g Wf Wg Hsg) as P.
  refine (conj _ (conj (parts_wf _ _ _ _ _ _ _ P) (or_intror _))); unfold valid in *; simpl; lia.
Qed.

Lemma concat_front_wf f g :
  WellFormed f → WellFormed g → valid f (Start f) → valid g (Start g) →
  WellFormed (abs_concat_front f g).
Proof.
  intros Wf Wg Hsf Hsg. pose proof (abs_concat_front_parts f g Wf Wg Hsg) as P.
  refine (conj _ (conj (parts_wf _ _ _ _ _ _ _ P) (or_intror _))); unfold valid in *; simpl; lia.
Qed.

Lemma closure_wf f star :
  WellFormed f → tight f → valid f (Start f) → WellFormed (abs_closure f star).
Proof.
  intros Wf Ht Hs. pose proof (closure_parts f star Wf Ht Hs) as P.
  refine (conj _ (conj (parts_wf _ _ _ _ _ _ _ P) (or_intror _))); unfold valid in *;
    destruct star; simpl; lia.
Qed.
End facts.

(** * What an operation leaves *)

Section operations.
Context `{TM : TimesMonoid W} {F : Type} `{!MutableFst W F} `{!MutableFstLaws W F}.
Context (fst_compat_symbols : bool).
Implicit Types (x y : F) (f g : Fst W).

(** [y] is well formed, its bits are true, it accepts [lang], and has the error
bit if [err]. *)
Record leaves y (err : bool) (lang : list Z → list Z → W → Prop) : Prop := {
  leaves_inv : minv y;
  leaves_wf : WellFormed (view y);
  leaves_sound : SoundFst (view y);
  leaves_error : err = true → has (FstProperties (view y)) kError = true;
  leaves_lang : ∀ a b w, accepts (view y) a b w ↔ lang a b w;
}.

(** The masks under which an operation stores the bits of its result. *)
Definition full_mask (m : Z) : Prop := m = kFstProperties ∨ m = kCopyProperties.

Lemma stored_bits y p m t :
  full_mask m →
  Z.testbit (FstProperties (view (mSetProperties y p m))) (pos_bit t) = Z.testbit p (pos_bit t) ∧
  Z.testbit (FstProperties (view (mSetProperties y p m))) (neg_bit t) = Z.testbit p (neg_bit t).
Proof.
  intros [-> | ->]; rewrite mSetProperties_bits; destruct t; bits; by destruct (Z.testbit _ _).
Qed.

Lemma stored_error y p m :
  has m kError = true →
  has (FstProperties (view (mSetProperties y p m))) kError =
  (has (FstProperties (view y)) kError || has p kError)%bool.
Proof.
  rewrite mSetProperties_bits, !error_bit. bits. intros ->. by destruct (Z.testbit _ _), (Z.testbit p 2).
Qed.

(** The last step of an operation: the bits of the result are stored. *)
Lemma leaves_stored x y p m g err lang :
  full_mask m → evolves x y g → WellFormed g → Sound p g →
  (err = true → has (FstProperties (view x)) kError = true ∨ has p kError = true) →
  (∀ a b w, accepts g a b w ↔ lang a b w) →
  leaves (mSetProperties y p m) err lang.
Proof.
  intros Hm [Hy [Hv _ _ He _]] Hwf Hs Herr Hl.
  assert (view (mSetProperties y p m) ≡ g) as Hvg by by rewrite mSetProperties_view.
  split.
  - by apply mSetProperties_minv.
  - by rewrite Hvg.
  - apply (SoundFst_equiv _ _ Hvg). intros t. destruct (stored_bits y p m t Hm) as [-> ->]. apply Hs.
  - intros Ht. rewrite stored_error by (by destruct Hm as [-> | ->]). apply orb_true_iff.
    destruct (Herr Ht) as [?|?]; [left; by apply He|by right].
  - intros a b w. rewrite Hvg. apply Hl.
Qed.

(** Setting the error bit changes nothing else. *)
Lemma error_view y : view (mSetProperties y kError kError) ≡ view y.
Proof. apply mSetProperties_view. Qed.

Lemma error_sound y : SoundFst (view y) → SoundFst (view (mSetProperties y kError kError)).
Proof.
  intros Hs. apply (SoundFst_equiv _ _ (error_view y)). rewrite mSetProperties_bits.
  intros t. specialize (Hs t). revert Hs. destruct t; bits; by rewrite ?andb_true_r, ?orb_false_r.
Qed.

Lemma leaves_error_if x y g p (b : bool) err lang :
  evolves x y g → SoundFst (view x) → WellFormed g →
  (err = true → has (FstProperties (view x)) kError = true ∨ b = true) →
  (∀ a b w, accepts g a b w ↔ lang a b w) →
  p = (if b then mSetProperties y kError kError else y) →
  leaves p err lang.
Proof.
  intros [Hy [Hv _ _ He Hs]] Hsx Hwf Herr Hl ->.
  assert (view (if b then mSetProperties y kError kError else y) ≡ g) as Hvg.
  { destruct b; [|done]. by rewrite error_view. }
  split.
  - destruct b; [by apply mSetProperties_minv|done].
  - by rewrite Hvg.
  - destruct b; [apply error_sound|]; auto.
  - intros Ht. destruct b.
    + rewrite stored_error by done. apply orb_true_r.
    + destruct (Herr Ht); [by apply He|done].
  - intros a c w. rewrite Hvg. apply Hl.
Qed.

(** The bits the operations read of their operands. *)
Lemma mProperties_sound y : SoundFst (view y) → Sound (mProperties y kFstProperties) (view y).
Proof.
  intros Hs t. specialize (Hs t). revert Hs. unfold mProperties.
  destruct t; bits; by rewrite ?andb_true_r.
Qed.

Lemma FstProperties_sound g : SoundFst g → Sound (FstProperties g &&& kFstProperties) g.
Proof. intros Hs t. specialize (Hs t). revert Hs. destruct t; bits; by rewrite ?andb_true_r. Qed.

Lemma masked_error p : has (p &&& kFstProperties) kError = has p kError.
Proof. rewrite !error_bit. by bits. Qed.

Lemma append_nothing f g :
  NumStates f = 0 → tight f → tight g → abs_set_start (abs_append f g (NumStates g)) (Start g + 0) ≡ g.
Proof.
  intros Hn Hf Hg. repeat split; simpl; [lia|lia|..]; intros s; rewrite Hn.
  - destruct (decide (s < 0)).
    + destruct (Hf s) as [-> _]; [unfold valid; lia|]. destruct (Hg s) as [-> _]; [unfold valid; lia|done].
    + rewrite Z.sub_0_r. case_decide; [done|]. destruct (Hg s) as [-> _]; [unfold valid; lia|done].
  - destruct (decide (s < 0)).
    + destruct (Hf s) as [_ ->]; [unfold valid; lia|]. destruct (Hg s) as [_ ->]; [unfold valid; lia|done].
    + rewrite Z.sub_0_r, shift_arcs_0. case_decide; [done|].
      destruct (Hg s) as [_ ->]; [unfold valid; lia|done].
Qed.

(** A machine without a start state, and one behind it. *)
Lemma append_wf f g : WellFormed f → WellFormed g → WellFormed (abs_append f g (NumStates g)).
Proof.
  intros (Hn & Wa & Ws) (Hm & Wb & _). refine (conj _ (conj _ _)).
  - simpl. lia.
  - intros s a Hs Ha. destruct (append_arc f g s a (conj Hs Ha)) as
      [(u & b & _ & [Hu Hb] & ->)|(u & b & _ & [Hu Hb] & ->)];
      [specialize (Wa u b Hu Hb)|specialize (Wb u b Hu Hb)]; unfold valid in *; simpl; lia.
  - destruct Ws as [?|?]; [by left|right]. unfold valid in *; simpl; lia.
Qed.

Lemma append_start_wf f g :
  WellFormed f → WellFormed g → valid g (Start g) →
  WellFormed (abs_set_start (abs_append f g (NumStates g)) (Start g + NumStates f)).
Proof.
  intros Wf Wg Hs. pose proof Wf as (Hn & _). destruct (append_wf f g Wf Wg) as (Hm & Wa & _).
  refine (conj Hm (conj Wa (or_intror _))). unfold valid in *. simpl. lia.
Qed.

Lemma copied_sound g p :
  SoundFst g → Sound ((FstProperties g &&& kFstProperties) ||| (p &&& kError)) g.
Proof. intros Hs t. specialize (Hs t). revert Hs. destruct t; by bits. Qed.

Lemma append_second_language f g a b w :
  WellFormed f → WellFormed g → valid g (Start g) →
  accepts (abs_set_start (abs_append f g (NumStates g)) (Start g + NumStates f)) a b w ↔ accepts g a b w.
Proof.
  intros (Hn & _) (_ & Wb & _) Hs. unfold accepts. simpl. rewrite Z.add_comm.
  apply (embeds_accepts (NumStates f) g); [by apply append_embeds_r| |done|done].
  intros v Hv. by apply append_final_r.
Qed.

(** ** Union *)

Lemma append_evolves x g y :
  minv x → 0 ≤ NumStates g →
  append_states x g (NumStates (view x)) = Some y →
  evolves x y (abs_append (view x) g (NumStates g)).
Proof.
  intros Hx Hn Hy. destruct (append_states_evolves x g Hx Hn) as (y' & Hy' & ?).
  rewrite Hy in Hy'. by injection Hy' as ->.
Qed.

Lemma initial_acyclic_sound y :
  SoundFst (view y) → (mProperties y kInitialAcyclic =? kInitialAcyclic) = true →
  ¬ Holds (view y) InitialCyclic.
Proof.
  intros Hs Hb. apply (Hs InitialCyclic). unfold mProperties in Hb.
  eapply mask_bits; [exact Hb|reflexivity].
Qed.

(** C6: Union.  [Union(&fst1, fst2)] on well-formed machines with true property
bits returns; the machine left accepts a pair of strings with a weight if and
only if one of the operands did, whatever branch the code takes (an operand
without a start state, an initial acyclic start that is reused, a new start
state), it is well formed, its property bits are true and an error of an
operand is passed on. *)
Theorem union_correct x g :
  minv x → WellFormed (view x) → WellFormed g → tight g → SoundFst (view x) → SoundFst g →
  member_weights (view x) → member_weights g →
  compat_tables fst_compat_symbols (view x) g = true →
  ∃ y, Union fst_compat_symbols x g = Some y ∧
    leaves y (has (FstProperties (view x)) kError || has (FstProperties g) kError)
      (λ a b w, accepts (view x) a b w ∨ accepts g a b w).
Proof.
  intros Hx Wx Wg Tg Sx Sg Mx Mg Hc. pose proof Wg as (Hn & _).
  destruct (decide (Start g = kNoStateId)) as [Hg|Hg].
  - unfold Union. rewrite Hc. simpl. rewrite (proj2 (Z.eqb_eq _ _) Hg). eexists. split; [done|].
    eapply (leaves_error_if x x); [by apply evolves_refl|done|done| | |done].
    + intros [?|?]%orb_true_iff; [by left|right; by rewrite masked_error].
    + intros a b w. pose proof (accepts_no_start g a b w Hg). naive_solver.
  - pose proof (start_valid g Wg Hg) as Hsg.
    destruct (decide (Start (view x) = kNoStateId)) as [Hs|Hs].
    + unfold Union. rewrite Hc. simpl. rewrite (proj2 (Z.eqb_neq _ _) Hg).
      destruct (append_states_evolves x g Hx Hn) as (y & -> & Hxy). simpl.
      rewrite (steps_view_start x y _ Hxy). simpl. rewrite (proj2 (Z.eqb_eq _ _) Hs).
      apply (evolves_set_start x y _ (Start g + NumStates (view x))) in Hxy.
      eexists. split; [done|].
      assert (∀ a b w, accepts g a b w ↔ accepts (view x) a b w ∨ accepts g a b w) as Hl.
      { intros a b w. pose proof (accepts_no_start _ a b w Hs). naive_solver. }
      destruct (Z.eqb_spec (NumStates (view x)) 0) as [Hz|Hz].
      * eapply (leaves_stored x _ _ _ g); [by right| |done| | |exact Hl].
        -- eapply evolves_equiv; [exact Hxy|]. rewrite Hz. apply append_nothing; [done| |done].
           apply view_tight.
        -- by apply copied_sound.
        -- intros [?|He]%orb_true_iff; [by left|right]. revert He. rewrite !error_bit. bits.
           intros ->. done.
      * eapply (leaves_error_if x _ _ _ (has (FstProperties g &&& kFstProperties) kError));
          [exact Hxy|done| | | |done].
        -- apply append_start_wf; [done|done|done].
        -- intros [?|?]%orb_true_iff; [by left|right; by rewrite masked_error].
        -- intros a b w. rewrite <-Hl. by apply append_second_language.
    + pose proof (start_valid _ Wx Hs) as Hsx.
      destruct (Union_result fst_compat_symbols x g Hx Wx Hn Hsg Hsx Hc) as (y & Hy & Hxy).
      eexists. split; [exact Hy|].
      assert ((mProperties x kInitialAcyclic =? kInitialAcyclic) = true →
        ¬ Holds (view x) InitialCyclic) as Hac by by apply initial_acyclic_sound.
      eapply leaves_stored; [by left|exact Hxy| | | |].
      * by apply union_wf.
      * apply union_sound; try done; [by apply mProperties_sound|by apply FstProperties_sound].
      * intros He. right. revert He. unfold mProperties. cbv beta delta [UnionProperties].
        rewrite !error_bit. bits. by destruct (Z.testbit _ 2), (Z.testbit _ 2).
      * intros a b w. by apply union_language.
Qed.

(** ** Concatenation *)

Lemma concat_nothing_l f g a b w : Start f = kNoStateId → ¬ concat_accepts f g a b w.
Proof.
  intros Hs (x1 & x2 & y1 & y2 & w1 & w2 & _ & _ & Ha & _). by apply (accepts_no_start f x1 y1 w1).
Qed.

Lemma concat_nothing_r f g a b w : Start g = kNoStateId → ¬ concat_accepts f g a b w.
Proof.
  intros Hs (x1 & x2 & y1 & y2 & w1 & w2 & _ & _ & _ & Ha & _). by apply (accepts_no_start g x2 y2 w2).
Qed.

Lemma concat_error p1 p2 :
  (has p1 kError || has p2 kError)%bool = true →
  has (ConcatProperties (p1 &&& kFstProperties) (p2 &&& kFstProperties) false) kError = true.
Proof.
  cbv beta delta [ConcatProperties]. rewrite !error_bit. bits.
  by destruct (Z.testbit p1 2), (Z.testbit p2 2).
Qed.

(** The first machine without its final weights accepts nothing. *)
Definition abs_unfinal f g : Fst W := abs_connect false (abs_append f g (NumStates g)) None (NumStates f).

Lemma unfinal_arcs f g s : Arcs (abs_unfinal f g) s = Arcs (abs_append f g (NumStates g)) s.
Proof.
  unfold abs_unfinal. cbn [abs_connect Arcs final_arc]. rewrite app_nil_r.
  case_decide; [|done]. by destruct (wneqb _ _).
Qed.

Lemma unfinal_wf f g : WellFormed f → WellFormed g → WellFormed (abs_unfinal f g).
Proof.
  intros Wf Wg. destruct (append_wf f g Wf Wg) as (Hn & Wa & Ws). refine (conj Hn (conj _ Ws)).
  intros s a Hs. rewrite unfinal_arcs. by apply (Wa s a).
Qed.

Lemma unfinal_accepts f g a b w :
  WellFormed f → 0 ≤ NumStates g → valid f (Start f) → ¬ accepts (abs_unfinal f g) a b w.
Proof.
  intros (Hn & Wa & _) Hm Hs (p & t & Hp & [_ Hf] & _).
  assert (embeds 0 f (abs_unfinal f g)) as Hemb.
  { intros s Hv. destruct (append_embeds_l f g (NumStates g) Hm s Hv) as [? <-].
    split; [done|apply unfinal_arcs]. }
  destruct (embeds_path_inv 0 f _ (Start f) p t Hemb Wa Hs Hp) as (q & u & _ & -> & Hq).
  pose proof (path_valid_r _ _ _ _ Hq) as [? ?]. revert Hf.
  unfold abs_unfinal. cbn [abs_connect Final]. rewrite decide_True by lia.
  rewrite (append_final_l f g (NumStates g) u) by done.
  destruct (weqb (Final f u) Zero) eqn:Hw; cbn [negb andb]; [by rewrite Hw|]. by rewrite weqb_Zero_refl.
Qed.

(** C7: Concatenation.  [Concat(&fst1, fst2)] returns, and the machine left
accepts exactly the concatenations of a pair accepted by the first operand and
one accepted by the second, with the product of their weights: none if an
operand has no start state.  It is well formed, its property bits are true and
an error of an operand is passed on. *)
Theorem concat_correct x g :
  minv x → WellFormed (view x) → WellFormed g → SoundFst (view x) → SoundFst g →
  member_weights (view x) → member_weights g →
  compat_tables fst_compat_symbols (view x) g = true →
  ∃ y, Concat fst_compat_symbols x g = Some y ∧
    leaves y (has (FstProperties (view x)) kError || has (FstProperties g) kError)
      (concat_accepts (view x) g).
Proof.
  intros Hx Wx Wg Sx Sg Mx Mg Hc. pose proof Wg as (Hm & Wb & _). pose proof Wx as (Hn & Wa & _).
  destruct (decide (Start (view x) = kNoStateId)) as [Hs|Hs];
    [|pose proof (start_valid _ Wx Hs) as Hsx; destruct (decide (Start g = kNoStateId)) as [Hg|Hg]].
  - unfold Concat. rewrite Hc. simpl. rewrite (proj2 (Z.eqb_eq _ _) Hs). eexists. split; [done|].
    eapply (leaves_error_if x x); [by apply evolves_refl|done|done| | |done].
    + intros [?|?]%orb_true_iff; [by left|right; by rewrite masked_error].
    + intros a b w. pose proof (accepts_no_start _ a b w Hs).
      pose proof (concat_nothing_l _ g a b w Hs). naive_solver.
  - unfold Concat. rewrite Hc. simpl. rewrite (proj2 (Z.eqb_neq _ _) Hs).
    destruct (append_states_evolves x g Hx Hm) as (y & -> & Hxy). simpl.
    destruct (connect_finals_evolves x y _ (Start g) (NumStates (view x)) Hxy) as (z & -> & Hz);
      [simpl; lia|]. simpl.
    unfold concat_target in Hz. rewrite (proj2 (Z.eqb_eq _ _) Hg) in Hz |- *. eexists. split; [done|].
    eapply (leaves_error_if x _ _ _ (has (FstProperties g &&& kFstProperties) kError));
      [exact Hz|done|by apply unfinal_wf| | |done].
    + intros [?|?]%orb_true_iff; [by left|right; by rewrite masked_error].
    + intros a b w. pose proof (unfinal_accepts (view x) g a b w Wx Hm Hsx).
      pose proof (concat_nothing_r (view x) g a b w Hg). unfold abs_unfinal in *. naive_solver.
  - pose proof (start_valid _ Wg Hg) as Hsg.
    destruct (Concat_result fst_compat_symbols x g Hx Hm Hsg Hs Hc) as (y & Hy & Hxy).
    eexists. split; [exact Hy|].
    eapply leaves_stored; [by left|exact Hxy|by apply concat_wf| | |].
    + apply concat_sound; try done; [by apply mProperties_sound|by apply FstProperties_sound].
    + intros He. right. revert He. unfold mProperties. apply concat_error.
    + eapply joined_language; try done. by apply abs_concat_joined.
Qed.

(** The first machine in front of the second, with a start state that has no arcs. *)
Definition abs_prepend_idle f g : Fst W :=
  abs_set_start (abs_add_states (abs_prepend g f (Start g) (NumStates f)) 1) (NumStates g + NumStates f).

Lemma prepend_idle_wf f g :
  WellFormed f → WellFormed g → valid g (Start g) → WellFormed (abs_prepend_idle f g).
Proof.
  intros (Hn & Wa & _) (Hm & Wb & _) Hs. refine (conj _ (conj _ (or_intror _))).
  - simpl. lia.
  - intros s a [Hs1 Hs2] Ha. cbn [abs_prepend_idle abs_set_start abs_add_states abs_prepend Arcs NumStates] in *.
    unfold valid in *. simpl.
    case_decide; [specialize (Wb s a ltac:(unfold valid; lia) Ha); unfold valid in Wb; lia|].
    case_decide; [|by apply not_elem_of_nil in Ha].
    apply elem_of_app in Ha as [Ha|Ha].
    + destruct (wneqb _ _); [|by apply not_elem_of_nil in Ha].
      apply list_elem_of_singleton in Ha as ->. simpl. lia.
    + apply list_elem_of_fmap in Ha as (b & -> & Hb).
      specialize (Wa (s - NumStates g) b ltac:(unfold valid; lia) Hb). unfold valid in Wa. simpl. lia.
  - unfold valid. simpl. lia.
Qed.

Lemma prepend_idle_accepts f g a b w :
  0 ≤ NumStates f → 0 ≤ NumStates g → ¬ accepts (abs_prepend_idle f g) a b w.
Proof.
  intros Hn Hm (p & t & Hp & [_ Hf] & _). unfold abs_prepend_idle in *.
  cbn [abs_set_start abs_add_states Start Final] in *.
  inversion Hp as [s Hs|s c q u Hs Hc Hq]; subst.
  - revert Hf. cbn [abs_prepend Final]. rewrite decide_False by lia. by rewrite weqb_Zero_refl.
  - revert Hc. cbn [abs_set_start abs_add_states abs_prepend Arcs].
    rewrite !decide_False by lia. by intros ?%not_elem_of_nil.
Qed.

(** C8: Concatenation in front.  [Concat(fst1, &fst2)], which prepends the first
machine to the second one, leaves a machine with the same language as the other
version does, well formed and with true property bits; only the language left
by a first operand that is in error and has no start state is not promised. *)
Theorem concat_front_correct f x :
  minv x → WellFormed f → WellFormed (view x) → SoundFst f → SoundFst (view x) →
  member_weights f → member_weights (view x) →
  compat_tables fst_compat_symbols f (view x) = true →
  (Start f = kNoStateId → has (FstProperties f) kError = false) →
  ∃ y, Concat_front fst_compat_symbols f x = Some y ∧
    leaves y (has (FstProperties f) kError || has (FstProperties (view x)) kError)
      (concat_accepts f (view x)).
Proof.
  intros Hx Wf Wx Sf Sx Mf Mx Hc Hne. pose proof Wf as (Hn & Wa & _). pose proof Wx as (Hm & Wb & _).
  destruct (decide (Start (view x) = kNoStateId)) as [Hs|Hs];
    [|pose proof (start_valid _ Wx Hs) as Hsx; destruct (decide (Start f = kNoStateId)) as [Hf|Hf]].
  - unfold Concat_front. rewrite Hc. simpl. rewrite (proj2 (Z.eqb_eq _ _) Hs). eexists. split; [done|].
    eapply (leaves_error_if x x); [by apply evolves_refl|done|done| | |done].
    + intros [?|?]%orb_true_iff; [right; by rewrite masked_error|by left].
    + intros a b w. pose proof (accepts_no_start _ a b w Hs).
      pose proof (concat_nothing_r f _ a b w Hs). naive_solver.
  - unfold Concat_front. rewrite Hc. simpl. rewrite (proj2 (Z.eqb_neq _ _) Hs).
    destruct (prepend_states_evolves x f (Start (view x)) Hx Hn) as (y & -> & Hxy). simpl.
    rewrite (proj2 (Z.eqb_eq _ _) Hf). simpl. rewrite masked_error, Hne by done.
    destruct (evolves_add_state x y _ Hxy) as (z & -> & Hz).
    apply (evolves_set_start x z _ (NumStates (view x) + NumStates f)) in Hz.
    eexists. split; [done|].
    eapply (leaves_error_if x _ _ _ false); [exact Hz|done| | | |done].
    + by apply prepend_idle_wf.
    + pose proof (Hne Hf) as E. intros [?|?]%orb_true_iff; [congruence|by left].
    + intros a b w. pose proof (prepend_idle_accepts f (view x) a b w Hn Hm).
      pose proof (concat_nothing_l f (view x) a b w Hf). unfold abs_prepend_idle in *. naive_solver.
  - pose proof (start_valid _ Wf Hf) as Hsf.
    destruct (Concat_front_result fst_compat_symbols f x Hx Hn Hsf Hs Hc) as (y & Hy & Hxy).
    eexists. split; [exact Hy|].
    eapply leaves_stored; [by left|exact Hxy|by apply concat_front_wf| | |].
    + apply concat_front_sound; try done; [by apply FstProperties_sound|by apply mProperties_sound].
    + intros He. right. revert He. unfold mProperties. apply concat_error.
    + eapply joined_language; try done. by apply abs_concat_front_joined.
Qed.

(** ** Closure *)

Definition is_star (t : ClosureType) : bool :=
  match t with CLOSURE_STAR => true | CLOSURE_PLUS => false end.

Definition closure_accepts (t : ClosureType) f (a b : list Z) (w : W) : Prop :=
  (t = CLOSURE_STAR ∧ a = [] ∧ b = [] ∧ w ≡ One) ∨ plus_accepts f a b w.

Lemma plus_nothing f a b w : Start f = kNoStateId → ¬ plus_accepts f a b w.
Proof.
  intros Hs [x y v Ha|x1 y1 w1 x2 y2 w2 v Ha _ _]; by eapply accepts_no_start.
Qed.

(** A machine without a start state, closed. *)
Definition abs_closure_idle f (star : bool) : Fst W :=
  if star then abs_set_final (abs_set_start (abs_add_states f 1) (NumStates f)) (NumStates f) One else f.

Lemma closure_idle_evolves x t :
  minv x → Start (view x) = kNoStateId →
  ∃ y, Closure x t = Some (mSetProperties y
      (ClosureProperties (mProperties x kFstProperties) (is_star t) false) kFstProperties) ∧
    evolves x y (abs_closure_idle (view x) (is_star t)).
Proof.
  intros Hx Hs. unfold Closure. rewrite (proj2 (Z.eqb_eq _ _) Hs). simpl.
  destruct t; simpl; [|eexists; split; [done|by apply evolves_refl]].
  destruct (evolves_add_state x x _ (evolves_refl x Hx)) as (y1 & -> & Hy1).
  apply (evolves_set_start x y1 _ (NumStates (view x))) in Hy1. simpl in *.
  pose proof (view_nonneg x).
  destruct (evolves_set_final x _ _ (NumStates (view x)) One Hy1) as (y2 & -> & Hy2);
    [unfold valid; simpl; lia|]. simpl. by exists y2.
Qed.

Lemma closure_idle_parts f star :
  WellFormed f → tight f →
  parts f no_states (abs_closure_idle f star) 0 (NumStates f) (closure_N f star) (λ _ _, False).
Proof.
  intros (Hn & Wa & _) Ht. assert (∀ u, ¬ valid no_states u) as Hno by (intros u; unfold valid; simpl; lia).
  assert (∀ s, Arcs (abs_closure_idle f star) s = Arcs f s) as HA by by destruct star.
  assert (∀ s, valid f s → valid (abs_closure_idle f star) s) as Hv
    by (intros s; unfold valid; destruct star; simpl; lia).
  split; try done.
  - intros s Hs. rewrite Z.add_0_l, shift_arcs_0, HA. split; [by apply Hv|done].
  - intros s Hs. by destruct (Hno s).
  - intros s a [_ Ha]. rewrite HA in Ha. left. exists s, a. rewrite shift_arc_0.
    split; [done|split; [|done]]. split; [by eapply tight_arcs|done].
  - intros s Hvs. unfold closure_N, valid in *. destruct star; simpl in Hvs.
    + destruct (decide (s = NumStates f)); [by auto|]. left. exists s. lia.
    + left. by exists s.
  - intros u v _ Hu. by destruct (Hno v).
  - intros s [-> ->]. split_and!; [unfold valid; simpl; lia|unfold valid; intros; lia|].
    intros v Hu. by destruct (Hno v).
  - intros s a Hu. by destruct (Hno s).
Qed.

Lemma closure_idle_final f star s : valid f s → Final (abs_closure_idle f star) s = Final f s.
Proof. destruct star; [|done]. intros Hs. simpl. rewrite decide_False; [done|unfold valid in *; lia]. Qed.

Lemma closure_idle_weighted f star :
  WellFormed f → tight f → Holds (abs_closure_idle f star) Weighted ↔ Holds f Weighted.
Proof.
  intros Wf Ht. pose proof (closure_idle_parts f star Wf Ht) as P.
  cbn [Holds]. rewrite (parts_arc_weight _ _ _ _ _ _ _ P). split.
  - intros [[?|[(v & a & Hv & _)|(s & a & [] & _)]]|(s & Hvs & Hw)]; [by left|unfold valid in Hv; simpl in Hv; lia|].
    destruct (parts_state _ _ _ _ _ _ _ P s Hvs) as [(u & -> & Hu)|[(v & _ & Hv)|[-> ->]]].
    + right. exists u. rewrite Z.add_0_l, closure_idle_final in Hw by done. done.
    + unfold valid in Hv; simpl in Hv; lia.
    + simpl in Hw. rewrite decide_True in Hw by done. by rewrite nontrivial_One in Hw.
  - intros [?|(u & Hu & Hw)]; [by left; left|]. right. exists u. rewrite closure_idle_final by done.
    split; [by apply (parts_l _ _ _ _ _ _ _ P u)|done].
Qed.

Lemma no_start_accessible f : WellFormed f → Start f = kNoStateId → Holds f Accessible → NumStates f = 0.
Proof.
  intros (Hn & _) Hs Ha. destruct (decide (NumStates f = 0)) as [|Hne]; [done|].
  assert (valid f 0) as Hv by (unfold valid; lia). specialize (Ha 0 Hv). rewrite Hs in Ha.
  apply rtc_inv in Ha as [Ha|(y & [[? _] _] & _)]; [discriminate Ha|unfold kNoStateId in *; lia].
Qed.

Lemma closure_idle_accessible f star :
  WellFormed f → tight f → Start f = kNoStateId →
  (Holds f Accessible → Holds (abs_closure_idle f star) Accessible) ∧
  (¬ Holds f Accessible → ¬ Holds (abs_closure_idle f star) Accessible).
Proof.
  intros Wf Ht Hs. pose proof (closure_idle_parts f star Wf Ht) as P. split.
  - intros Ha s Hv. pose proof (no_start_accessible f Wf Hs Ha) as Hz. destruct star; [|by apply Ha].
    assert (s = NumStates f) as -> by (unfold valid in Hv; simpl in Hv; lia). done.
  - apply (parts_not_accessible _ _ _ _ _ _ _ P). intros v Hv.
    destruct star; simpl; [unfold valid in Hv|]; lia.
Qed.

Lemma closure_idle_coaccessible f star :
  WellFormed f → tight f → weqb (One : W) Zero = false →
  (Holds f CoAccessible → Holds (abs_closure_idle f star) CoAccessible) ∧
  (¬ Holds f CoAccessible → ¬ Holds (abs_closure_idle f star) CoAccessible).
Proof.
  intros Wf Ht H10. pose proof (closure_idle_parts f star Wf Ht) as P. split.
  - intros Hco s Hvs. destruct (parts_state _ _ _ _ _ _ _ P s Hvs) as [(u & -> & Hu)|[(v & _ & Hv)|[-> ->]]].
    + destruct (Hco u Hu) as (t & Hr & [Hvt Hft]). exists (0 + t).
      split; [by apply (parts_rtc _ _ _ _ _ _ _ P)|].
      split; [by apply (parts_l _ _ _ _ _ _ _ P)|]. by rewrite Z.add_0_l, closure_idle_final.
    + unfold valid in Hv; simpl in Hv; lia.
    + exists (NumStates f). split; [done|]. split; [done|]. simpl. by rewrite decide_True by done.
  - intros Hn Hh. apply Hn. intros u Hu. destruct (parts_l _ _ _ _ _ _ _ P u Hu) as [Hv _].
    destruct (Hh _ Hv) as (t & Hr & Hvt & Hft).
    destruct (parts_leave _ _ _ _ _ _ _ P u t Hu Hr) as [(w & -> & Hw & Hrw)|(w & a & _ & _ & [] & _)].
    exists w. split; [done|]. split; [done|]. by rewrite Z.add_0_l, closure_idle_final in Hft.
Qed.

Lemma closure_idle_string f star :
  WellFormed f → Start f = kNoStateId → ¬ Holds f StringFst → ¬ Holds (abs_closure_idle f star) StringFst.
Proof.
  intros (Hn & _) Hs Hnf Hh. destruct star; [|done]. apply Hnf. intros Hpos.
  destruct Hh as [Hst _]; simpl in *; lia.
Qed.

Lemma closure_idle_sound f star p :
  WellFormed f → tight f → Start f = kNoStateId → weqb (One : W) Zero = false → Sound p f →
  Sound (ClosureProperties p star false) (abs_closure_idle f star).
Proof.
  intros Wf Ht Hs H10 Hp. pose proof (closure_idle_parts f star Wf Ht) as P.
  pose proof (closure_idle_weighted f star Wf Ht) as Hw.
  destruct (closure_idle_accessible f star Wf Ht Hs) as [Hac Hnac].
  destruct (closure_idle_coaccessible f star Wf Ht H10) as [Hco Hnco].
  pose proof (closure_idle_string f star Wf Hs) as Hstr.
  pose proof (Hp Accessible) as [Ha _]. pose proof (Hp Weighted) as [Hwp Hwn].
  intros t. destruct (Hp t) as [Hp1 Hn1]. revert Hp1 Hn1 Ha Hwp Hwn.
  cbv beta delta [ClosureProperties].
  destruct t; bits; intros Hp1 Hn1 Ha Hwp Hwn; (split; intros Hbit; try discriminate Hbit).
  all: try match goal with
    | |- ¬ Holds _ ?t =>
        intros Hh; exact (Hn1 Hbit (parts_inherited _ _ _ _ _ _ _ P t eq_refl Hh))
    end.
  all: try (by apply Hw, Hp1); try (intros Hh; by apply Hn1, Hw).
  all: try (by apply Hac, Hp1); try (by apply Hnac, Hn1).
  all: try (by apply Hco, Hp1); try (by apply Hnco, Hn1).
  all: try (by apply Hstr, Hn1).
  - apply (parts_acceptor _ _ _ _ _ _ _ P); [by apply Hp1|].
    intros s a Hv. unfold valid in Hv. simpl in Hv. lia.
  - destruct (Z.testbit p 40);
      [|destruct (Z.testbit p 32); apply (parts_passed_on _ _ _ _ _ _ _ P WeightedCycles eq_refl);
        apply Hp1; by destruct (Z.testbit p 46)].
    pose proof (no_start_accessible f Wf Hs (Ha eq_refl)) as Hz.
    destruct (Z.testbit p 32) eqn:Ew;
      [|by apply (parts_passed_on _ _ _ _ _ _ _ P WeightedCycles eq_refl), Hp1].
    destruct (Hwp eq_refl) as [(s & a & Hv & _)|(s & Hv & _)]; unfold valid in Hv; lia.
  - destruct (Z.testbit p 33); [|discriminate Hbit]. intros (s & a & Hs' & Hin & Hwa & _).
    apply Hwn; [done|]. apply Hw. left. by exists s, a.
Qed.

Lemma closure_idle_wf f star : WellFormed f → tight f → WellFormed (abs_closure_idle f star).
Proof.
  intros Wf Ht. pose proof (closure_idle_parts f star Wf Ht) as P. pose proof Wf as (Hn & _ & Hs).
  refine (conj _ (conj (parts_wf _ _ _ _ _ _ _ P) _)); destruct star; simpl; [lia|lia| |done].
  right. unfold valid. simpl. lia.
Qed.

Lemma closure_idle_language f t a b w :
  WellFormed f → tight f → Start f = kNoStateId → weqb (One : W) Zero = false →
  accepts (abs_closure_idle f (is_star t)) a b w ↔ closure_accepts t f a b w.
Proof.
  intros (Hn & _) Ht Hs H10. unfold closure_accepts. pose proof (plus_nothing f a b w Hs) as Hno.
  destruct t; simpl.
  - assert (valid (abs_closure_idle f true) (NumStates f)) as Hv by (unfold valid; simpl; lia).
    destruct (Ht (NumStates f)) as [_ HA]; [unfold valid; lia|].
    split; [intros (p & u & Hp & Hf & <- & <- & Hw); left|intros [(_ & -> & -> & Hw)|?]; [|done]].
    + simpl in Hp. inversion Hp as [s Hvs|s c q v Hvs Hc Hq]; subst.
      * revert Hw. simpl. rewrite decide_True by done. intros Hw. split_and!; [done..|]. by rewrite <-Hw.
      * revert Hc. simpl. rewrite HA. by intros ?%not_elem_of_nil.
    + exists [], (NumStates f). split_and!; [by constructor| |done|done|]; simpl.
      * split; [done|]. simpl. by rewrite decide_True by done.
      * rewrite decide_True by done. by rewrite Hw.
  - pose proof (accepts_no_start f a b w Hs). naive_solver.
Qed.

Lemma closure_error p star :
  has p kError = true → has (ClosureProperties (p &&& kFstProperties) star false) kError = true.
Proof. cbv beta delta [ClosureProperties]. rewrite !error_bit. bits. by intros ->. Qed.

(** C9: Closure.  [Closure(&fst, type)] returns; the machine left accepts the
sequences of one or more accepted pairs with the products of their weights,
and for [CLOSURE_STAR] also the empty pair with weight [One], whether or not
there was a start state.  It is well formed, its property bits are true and
the error bit stays. *)
Theorem closure_correct x t :
  minv x → WellFormed (view x) → SoundFst (view x) → member_weights (view x) →
  weqb (One : W) Zero = false →
  ∃ y, Closure x t = Some y ∧
    leaves y (has (FstProperties (view x)) kError) (closure_accepts t (view x)).
Proof.
  intros Hx Wx Sx Mx H10. pose proof (view_tight x) as Tx.
  destruct (decide (Start (view x) = kNoStateId)) as [Hs|Hs].
  - destruct (closure_idle_evolves x t Hx Hs) as (y & Hy & Hxy). eexists. split; [exact Hy|].
    eapply leaves_stored; [by left|exact Hxy|by apply closure_idle_wf| | |].
    + apply closure_idle_sound; try done. by apply mProperties_sound.
    + intros He. right. by apply closure_error.
    + intros a b w. by apply closure_idle_language.
  - pose proof (start_valid _ Wx Hs) as Hsx.
    destruct (Closure_result x t Hx Hsx) as (y & Hy & Hxy). eexists. split; [exact Hy|].
    eapply leaves_stored; [by left|exact Hxy|by apply closure_wf| | |].
    + apply closure_sound; try done. by apply mProperties_sound.
    + intros He. right. by apply closure_error.
    + intros a b w. unfold closure_accepts. destruct t.
      * rewrite star_language by done. naive_solver.
      * rewrite plus_language by done. naive_solver.
Qed.
End operations.

(** * Instances *)

Section witnesses.
Local Notation M := MinMaxWeight.
Definition four : M := MinMax (S754_finite false 4 0).

(** A machine with one arc, built by the operations. *)
Definition one_arc (i o : Z) (w : M) : VectorFst M :=
  default VectorFst_new (foldM mutate
    [MAddStates 2; MSetStart 0; MAddArc 0 (MkArc i o w 1); MSetFinal 1 One] VectorFst_new).

Lemma one_arc_ready i o w :
  w = four ∨ w = One →
  minv (one_arc i o w) ∧ WellFormed (vector_view (one_arc i o w)) ∧
  SoundFst (vector_view (one_arc i o w)) ∧ member_weights (vector_view (one_arc i o w)).
Proof.
  intros Hw.
  assert (built (one_arc i o w)) as [Hc Hs]%built_invariant.
  { by apply (built_run [MAddStates 2; MSetStart 0; MAddArc 0 (MkArc i o w 1); MSetFinal 1 One]
      VectorFst_new); [constructor|]. }
  split_and!; [done|by apply well_formedb_spec|done|].
  apply member_weightsb_spec. clear Hc Hs. destruct Hw as [-> | ->]; by vm_compute.
Qed.

Lemma union_correct_witness :
  ∃ y, Union true (one_arc 1 2 four) (vector_view (one_arc 3 4 One)) = Some y ∧
    leaves y false (λ a b w, accepts (vector_view (one_arc 1 2 four)) a b w ∨
                             accepts (vector_view (one_arc 3 4 One)) a b w).
Proof.
  destruct (one_arc_ready 1 2 four (or_introl eq_refl)) as (H1 & H2 & H3 & H4).
  destruct (one_arc_ready 3 4 One (or_intror eq_refl)) as (H5 & H6 & H7 & H8).
  exact (union_correct true _ _ H1 H2 H6 (vector_view_tight _) H3 H7 H4 H8 eq_refl).
Defined.

Lemma concat_correct_witness :
  ∃ y, Concat true (one_arc 1 2 four) (vector_view (one_arc 3 4 One)) = Some y ∧
    leaves y false (concat_accepts (vector_view (one_arc 1 2 four)) (vector_view (one_arc 3 4 One))).
Proof.
  destruct (one_arc_ready 1 2 four (or_introl eq_refl)) as (H1 & H2 & H3 & H4).
  destruct (one_arc_ready 3 4 One (or_intror eq_refl)) as (H5 & H6 & H7 & H8).
  exact (concat_correct true _ _ H1 H2 H6 H3 H7 H4 H8 eq_refl).
Defined.

Lemma concat_front_correct_witness :
  ∃ y, Concat_front true (vector_view (one_arc 1 2 four)) (one_arc 3 4 One) = Some y ∧
    leaves y false (concat_accepts (vector_view (one_arc 1 2 four)) (vector_view (one_arc 3 4 One))).
Proof.
  destruct (one_arc_ready 1 2 four (or_introl eq_refl)) as (H1 & H2 & H3 & H4).
  destruct (one_arc_ready 3 4 One (or_intror eq_refl)) as (H5 & H6 & H7 & H8).
  exact (concat_front_correct true _ _ H5 H2 H6 H3 H7 H4 H8 eq_refl (λ _, eq_refl)).
Defined.

Lemma closure_correct_witness :
  ∃ y, Closure (one_arc 1 2 four) CLOSURE_STAR = Some y ∧
    leaves y false (closure_accepts CLOSURE_STAR (vector_view (one_arc 1 2 four))).
Proof.
  destruct (one_arc_ready 1 2 four (or_introl eq_refl)) as (H1 & H2 & H3 & H4).
  exact (closure_correct _ CLOSURE_STAR H1 H2 H3 H4 eq_refl).
Defined.
End witnesses.
