(* ===== verification/UnionFind.v ===== *)
(** The disjoint-set forest of openfst/lib/union-find.h, with path compression
and union by rank, refined to the equivalence relation it represents.  An
access outside a vector is [None]; so is a loop that runs out of its fuel, the
number of elements, which is proved not to happen. *)
From S2P Require Import Prelude.
Local Open Scope Z_scope.

(* union-find.h:98-100 UnionFind *)
Record UnionFind := MkUnionFind { parent_ : list Z; rank_ : list Z; fail_ : Z }.

(** [item >= parent_.size()], the comparison of a signed integer with a [size_t]. *)
Definition past_end (item : Z) (parent : list Z) : bool := (item <? 0) || (zlen parent <=? item).

(* union-find.h:35-35 UnionFind *)
Definition UnionFind_new (max fail : Z) : UnionFind :=
  MkUnionFind (replicate (Z.to_nat max) fail) (replicate (Z.to_nat max) 0) fail.

(* union-find.h:43-46 FindSet *)
Fixpoint find_root (fuel : nat) (parent : list Z) (root : Z) : option Z :=
  match fuel with
  | O => None
  | S fuel =>
      p ← parent.[root];
      if negb (root =? p) then find_root fuel parent p else Some root
  end.

(* union-find.h:47-51 FindSet *)
Fixpoint compress (fuel : nat) (parent : list Z) (item root : Z) : option (list Z) :=
  match fuel with
  | O => None
  | S fuel =>
      p ← parent.[item];
      if negb (item =? p) then
        parent ← parent.[item <- root];
        compress fuel parent p root
      else Some parent
  end.

Section operations.
Implicit Types (u : UnionFind).

(* union-find.h:39-53 FindSet *)
Definition FindSet u (item : Z) : option (UnionFind * Z) :=
  if past_end item (parent_ u) || (item =? fail_ u) then Some (u, fail_ u) else
  p ← (parent_ u).[item];
  if p =? fail_ u then Some (u, fail_ u) else
  root ← find_root (length (parent_ u)) (parent_ u) item;
  parent ← compress (length (parent_ u)) (parent_ u) item root;
  Some (MkUnionFind parent (rank_ u) (fail_ u), root).

(* union-find.h:83-93 Link *)
Definition Link u (x y : Z) : option UnionFind :=
  if x =? y then Some u else
  rx ← (rank_ u).[x];
  ry ← (rank_ u).[y];
  if rx >? ry then
    parent ← (parent_ u).[y <- x];
    Some (MkUnionFind parent (rank_ u) (fail_ u))
  else
    parent ← (parent_ u).[x <- y];
    rank ← (if rx =? ry then (rank_ u).[y <- ry + 1] else Some (rank_ u));
    Some (MkUnionFind parent rank (fail_ u)).

(** The arguments of [Link] are evaluated from left to right here; C++ leaves
the order open, and [FindSet_represents] shows that it does not matter. *)

(* union-find.h:56-56 Union *)
Definition UF_Union u (x y : Z) : option UnionFind :=
  '(u, rx) ← FindSet u x;
  '(u, ry) ← FindSet u y;
  Link u rx ry.

(* union-find.h:60-69 MakeSet *)
Definition MakeSet u (item : Z) : option (UnionFind * Z) :=
  let nitem := if item >? 0 then 2 * item else 2 in
  let u :=
    if past_end item (parent_ u) then
      MkUnionFind (vresize nitem (fail_ u) (parent_ u)) (vresize nitem 0 (rank_ u)) (fail_ u)
    else u in
  parent ← (parent_ u).[item <- item];
  Some (MkUnionFind parent (rank_ u) (fail_ u), item).

(* union-find.h:72-76 MakeAllSet *)
Definition MakeAllSet u (max : Z) : UnionFind :=
  MkUnionFind (seqZ 0 max) (replicate (Z.to_nat max) 0) (fail_ u).
End operations.

(** * Forests *)

(** [i] was initialised, with parent [p]. *)
Definition parent_of (fail : Z) (parent : list Z) (i p : Z) : Prop :=
  parent.[i] = Some p ∧ p ≠ fail ∧ i ≠ fail.

Definition made fail (parent : list Z) (i : Z) : Prop := ∃ p, parent_of fail parent i p.

Record forest (u : UnionFind) : Prop := {
  forest_len : zlen (rank_ u) = zlen (parent_ u);
  forest_parent : ∀ i p, parent_of (fail_ u) (parent_ u) i p → made (fail_ u) (parent_ u) p;
  forest_rank : ∀ i p, parent_of (fail_ u) (parent_ u) i p → i ≠ p →
    ∃ ri rp, (rank_ u).[i] = Some ri ∧ (rank_ u).[p] = Some rp ∧ ri < rp;
}.

Inductive root_of (fail : Z) (parent : list Z) : Z → Z → Prop :=
  | root_here i : parent_of fail parent i i → root_of fail parent i i
  | root_up i p r : parent_of fail parent i p → i ≠ p → root_of fail parent p r →
      root_of fail parent i r.

Section forests.
Implicit Types (u : UnionFind).

Lemma parent_of_fun fail parent i p q :
  parent_of fail parent i p → parent_of fail parent i q → p = q.
Proof. intros [? _] [? _]. congruence. Qed.

Lemma root_of_fun fail parent i r s : root_of fail parent i r → root_of fail parent i s → r = s.
Proof.
  intros Hr. revert s. induction Hr as [i Hi|i p r Hp Hne Hr IH]; intros s Hs;
    inversion Hs as [j Hj|j q s' Hq Hne' Hs']; subst.
  - done.
  - by rewrite (parent_of_fun _ _ _ _ _ Hi Hq) in Hne'.
  - by rewrite (parent_of_fun _ _ _ _ _ Hp Hj) in Hne.
  - apply IH. by rewrite (parent_of_fun _ _ _ _ _ Hp Hq).
Qed.

Lemma root_of_root fail parent i r : root_of fail parent i r → root_of fail parent r r.
Proof. induction 1; [by constructor|done]. Qed.

Lemma root_of_made fail parent i r : root_of fail parent i r → made fail parent i.
Proof. intros [j Hj|j p s Hj _ _]; by eexists. Qed.

Lemma root_self fail parent r s : root_of fail parent r s → parent.[r] = Some r → s = r.
Proof.
  intros [i Hi|i p t [Hp _] Hne _] Hr; [done|]. congruence.
Qed.

(** The elements of higher rank: one less at each step up. *)
Definition above (rank : list Z) (i : Z) : nat :=
  length (filter (λ r, default 0 (rank.[i]) < r) rank).

Lemma above_lt (rank : list Z) i p ri rp :
  rank.[i] = Some ri → rank.[p] = Some rp → ri < rp → (above rank p < above rank i)%nat.
Proof.
  intros Hi Hp Hlt. unfold above. rewrite Hi, Hp. simpl.
  assert (rp ∈ filter (λ r, ri < r) rank) as Hin.
  { apply list_elem_of_filter. split; [done|]. by eapply vget_elem_of. }
  assert (filter (λ r, rp < r) rank = filter (λ r, rp < r) (filter (λ r, ri < r) rank)) as ->.
  { clear -Hlt. induction rank as [|r rank IH]; [done|]. rewrite !filter_cons.
    destruct (decide (rp < r)), (decide (ri < r)); try lia; rewrite ?filter_cons;
      [rewrite decide_True by done; by f_equal|rewrite decide_False by done; done|done]. }
  apply length_filter_lt with rp; [done|lia].
Qed.

Lemma above_bound (rank : list Z) i : 0 ≤ i < zlen rank → (above rank i < length rank)%nat.
Proof.
  intros Hi. destruct (vget_in_range rank i Hi) as [r Hr]. unfold above. rewrite Hr. simpl.
  apply length_filter_lt with r; [by eapply vget_elem_of|lia].
Qed.

Lemma forest_above u i p :
  forest u → parent_of (fail_ u) (parent_ u) i p → i ≠ p → (above (rank_ u) p < above (rank_ u) i)%nat.
Proof.
  intros Hf Hp Hne. destruct (forest_rank u Hf i p Hp Hne) as (ri & rp & Hi & Hrp & Hlt).
  by eapply above_lt.
Qed.

Lemma made_above u i :
  forest u → made (fail_ u) (parent_ u) i → (above (rank_ u) i < length (parent_ u))%nat.
Proof.
  intros Hf (p & [Hp%vget_range _]). pose proof (forest_len u Hf) as Hl.
  assert (length (parent_ u) = length (rank_ u)) as -> by (unfold zlen in Hl; lia).
  apply above_bound. by rewrite Hl.
Qed.

(** Every initialised element has a root, and the loop finds it. *)
Lemma find_root_spec u i fuel :
  forest u → made (fail_ u) (parent_ u) i → (above (rank_ u) i < fuel)%nat →
  ∃ r, find_root fuel (parent_ u) i = Some r ∧ root_of (fail_ u) (parent_ u) i r.
Proof.
  intros Hf. revert i. induction fuel as [|fuel IH]; intros i (p & Hp) Hfuel; [lia|].
  simpl. pose proof Hp as (-> & _ & _). simpl. destruct (Z.eqb_spec i p) as [<-|Hne]; simpl.
  - exists i. split; [done|by constructor].
  - destruct (IH p) as (r & Hr & Hroot).
    + by eapply forest_parent.
    + pose proof (forest_above u i p Hf Hp Hne). lia.
    + exists r. split; [done|]. by econstructor.
Qed.

Lemma root_rank u i r :
  forest u → root_of (fail_ u) (parent_ u) i r → i ≠ r →
  ∃ ri rr, (rank_ u).[i] = Some ri ∧ (rank_ u).[r] = Some rr ∧ ri < rr.
Proof.
  intros Hf. induction 1 as [i Hi|i p r Hp Hne Hr IH]; intros Hir; [done|].
  destruct (forest_rank u Hf i p Hp Hne) as (ri & rp & Hi & Hrp & Hlt).
  destruct (decide (p = r)) as [<-|Hpr]; [by exists ri, rp|].
  destruct (IH Hpr) as (rp' & rr & Hp' & Hr' & ?). rewrite Hrp in Hp'. injection Hp' as <-.
  exists ri, rr. split_and!; [done..|lia].
Qed.

(** Pointing an element at its root changes neither the forest nor the roots. *)
Lemma shortcut u i p r parent :
  forest u → parent_of (fail_ u) (parent_ u) i p → i ≠ p →
  root_of (fail_ u) (parent_ u) i r → (parent_ u).[i <- r] = Some parent →
  forest (MkUnionFind parent (rank_ u) (fail_ u)) ∧
  (∀ x s, root_of (fail_ u) parent x s ↔ root_of (fail_ u) (parent_ u) x s).
Proof.
  intros Hf Hp Hne Hr Hset.
  assert (i ≠ r) as Hir.
  { intros ->. inversion Hr as [j Hj|j q s Hq Hnq Hs]; subst.
    - destruct Hne. by eapply parent_of_fun.
    - pose proof (root_of_root _ _ _ _ Hs) as Hrr. destruct Hp as [Hp _].
      assert (parent_of (fail_ u) (parent_ u) r r) as [Hr1 _]; [|congruence].
      inversion Hrr as [? ?|? q' ? Hq' Hne' Hq'']; subst; [done|].
      exfalso. destruct (root_rank u q r Hf Hs) as (a & b & Ha & Hb & Hlt).
      { intros ->. done. }
      destruct (forest_rank u Hf r q Hq Hnq) as (c & d & Hc & Hd & Hlt'). simplify_eq. lia. }
  assert (parent_of (fail_ u) (parent_ u) r r) as Hrr.
  { pose proof (root_of_root _ _ _ _ Hr) as Hx. inversion Hx as [? ?|? q ? Hq Hnq Hs]; subst; [done|].
    destruct (root_rank u q r Hf Hs) as (a & b & Ha & Hb & Hlt); [by intros ->|].
    destruct (forest_rank u Hf r q Hq Hnq) as (c & d & Hc & Hd & Hlt'). simplify_eq. lia. }
  assert (∀ x y, parent_of (fail_ u) parent x y ↔
    (x = i ∧ y = r) ∨ (x ≠ i ∧ parent_of (fail_ u) (parent_ u) x y)) as Hpar.
  { intros x y. unfold parent_of. rewrite (vget_vset _ _ _ _ _ Hset).
    destruct Hp as (_ & _ & Hif). destruct Hrr as (_ & Hrf & _).
    case_decide; subst; naive_solver. }
  assert (∀ x, made (fail_ u) parent x ↔ made (fail_ u) (parent_ u) x) as Hmade.
  { intros x. unfold made. split.
    - intros (y & [[-> _]|[_ ?]]%Hpar); [by exists p|by exists y].
    - intros (y & Hy). destruct (decide (x = i)) as [->|]; [exists r|exists y]; apply Hpar; auto. }
  split.
  - split; simpl.
    + rewrite (vset_len _ _ _ _ Hset). by apply forest_len.
    + intros x y [[-> ->]|[_ Hxy]]%Hpar; apply Hmade; [by exists r|by eapply forest_parent].
    + intros x y [[-> ->]|[_ Hxy]]%Hpar Hxy'; [by apply root_rank|by apply forest_rank].
  - intros x s. split.
    + induction 1 as [j [[-> ->]|[_ Hj]]%Hpar|j q s [[-> ->]|[_ Hq]]%Hpar Hjq Hs IH]; [done|by constructor| |].
      * assert (s = r) as ->; [|done]. eapply root_of_fun; [done|]. by constructor.
      * by econstructor.
    + induction 1 as [j Hj|j q s Hq Hjq Hs IH].
      * constructor. apply Hpar. right. split; [|done].
        intros ->. by rewrite (parent_of_fun _ _ _ _ _ Hp Hj) in Hne.
      * destruct (decide (j = i)) as [->|Hji].
        -- assert (s = r) as ->.
           { eapply root_of_fun; [|exact Hr]. by econstructor. }
           apply (root_up _ _ i r r); [apply Hpar; auto|done|]. constructor. apply Hpar. auto.
        -- apply (root_up _ _ j q s); [apply Hpar; auto|done|done].
Qed.

Lemma compress_spec u i r fuel :
  forest u → root_of (fail_ u) (parent_ u) i r → (above (rank_ u) i < fuel)%nat →
  ∃ parent, compress fuel (parent_ u) i r = Some parent ∧
    forest (MkUnionFind parent (rank_ u) (fail_ u)) ∧
    (∀ x s, root_of (fail_ u) parent x s ↔ root_of (fail_ u) (parent_ u) x s).
Proof.
  revert u i. induction fuel as [|fuel IH]; intros u i Hf Hr Hfuel; [lia|]. simpl.
  destruct (root_of_made _ _ _ _ Hr) as (p & Hp). pose proof Hp as (Hget & _ & _). rewrite Hget. simpl.
  destruct (Z.eqb_spec i p) as [<-|Hne]; simpl.
  - exists (parent_ u). by destruct u.
  - rewrite (vset_is_Some _ _ _ (vget_range _ _ _ Hget)). simpl.
    set (parent := <[Z.to_nat i:=r]> (parent_ u)) in *.
    assert ((parent_ u).[i <- r] = Some parent) as Hset by (apply vset_is_Some; by eapply vget_range).
    destruct (shortcut u i p r parent Hf Hp Hne Hr Hset) as [Hf' Hroots].
    assert (root_of (fail_ u) (parent_ u) p r) as Hpr.
    { inversion Hr as [j Hj|j q s Hq Hnq Hs]; subst.
      - by rewrite (parent_of_fun _ _ _ _ _ Hp Hj) in Hne.
      - by rewrite (parent_of_fun _ _ _ _ _ Hp Hq). }
    destruct (IH (MkUnionFind parent (rank_ u) (fail_ u)) p Hf') as (parent' & Hc & Hf'' & Hroots').
    + simpl. by apply Hroots.
    + simpl. pose proof (forest_above u i p Hf Hp Hne). lia.
    + exists parent'. split; [done|]. split; [done|]. intros x s. by rewrite Hroots', <-Hroots.
Qed.
End forests.

(** * The equivalence relation a forest represents *)

Definition represents (u : UnionFind) (E : Z → Z → Prop) : Prop :=
  forest u ∧ ∀ a b, E a b ↔ ∃ r, root_of (fail_ u) (parent_ u) a r ∧ root_of (fail_ u) (parent_ u) b r.

Section refinement.
Implicit Types (u : UnionFind) (E : Z → Z → Prop).

Lemma made_root u x : forest u → made (fail_ u) (parent_ u) x →
  ∃ r, root_of (fail_ u) (parent_ u) x r.
Proof.
  intros Hf Hx. destruct (find_root_spec u x _ Hf Hx (made_above u x Hf Hx)) as (r & _ & Hr). by exists r.
Qed.

Lemma represents_made u E x : represents u E → E x x ↔ made (fail_ u) (parent_ u) x.
Proof.
  intros [Hf HE]. rewrite HE. split.
  - intros (r & Hr & _). by eapply root_of_made.
  - intros Hx. destruct (made_root u x Hf Hx) as [r Hr]. by exists r.
Qed.

Lemma represents_refl u E x y : represents u E → E x y → E x x ∧ E y y.
Proof. intros [_ HE] Hxy. apply HE in Hxy as (r & Hx & Hy). split; apply HE; by exists r. Qed.

Lemma represents_ext u E E' : represents u E → (∀ a b, E a b ↔ E' a b) → represents u E'.
Proof. intros [Hf HE] Hext. split; [done|]. intros a b. by rewrite <-Hext. Qed.

(** What [FindSet] returns. *)
Definition found u E (x r : Z) : Prop :=
  (¬ E x x ∧ r = fail_ u) ∨ (E x r ∧ root_of (fail_ u) (parent_ u) x r ∧ r ≠ fail_ u).

Lemma FindSet_represents u E x :
  represents u E →
  ∃ u' r, FindSet u x = Some (u', r) ∧ represents u' E ∧ found u' E x r ∧ fail_ u' = fail_ u ∧
    rank_ u' = rank_ u ∧
    ∀ a s, root_of (fail_ u) (parent_ u') a s ↔ root_of (fail_ u) (parent_ u) a s.
Proof.
  intros Hrep. pose proof Hrep as [Hf HE].
  assert (made (fail_ u) (parent_ u) x ∨
    ((past_end x (parent_ u) || (x =? fail_ u)) = true ∨ (parent_ u).[x] = Some (fail_ u)) ∧
    ¬ made (fail_ u) (parent_ u) x) as [Hm|[Hcase Hm]].
  { unfold past_end. destruct (decide (0 ≤ x < zlen (parent_ u))) as [Hx|Hx].
    - destruct (vget_in_range _ _ Hx) as [p Hp]. destruct (decide (x = fail_ u)) as [->|Hxf].
      + right. split; [left; rewrite Z.eqb_refl; by rewrite orb_true_r|].
        intros (q & _ & _ & ?). done.
      + destruct (decide (p = fail_ u)) as [->|Hpf]; [right|left; by exists p].
        split; [by right|]. intros (q & Hq & Hqf & _). congruence.
    - right. split; [left; destruct (Z.ltb_spec x 0), (Z.leb_spec (zlen (parent_ u)) x); simpl; lia|].
      intros (q & Hq%vget_range & _). lia. }
  - destruct Hm as (p & Hp). pose proof Hp as (Hget & Hpf & Hxf). unfold FindSet.
    assert (past_end x (parent_ u) || (x =? fail_ u) = false) as ->.
    { unfold past_end. pose proof (vget_range _ _ _ Hget).
      destruct (Z.ltb_spec x 0), (Z.leb_spec (zlen (parent_ u)) x), (Z.eqb_spec x (fail_ u)); simpl; done || lia. }
    rewrite Hget. simpl. rewrite (proj2 (Z.eqb_neq _ _) Hpf).
    assert (made (fail_ u) (parent_ u) x) as Hm by by exists p.
    pose proof (made_above u x Hf Hm) as Habove.
    destruct (find_root_spec u x _ Hf Hm Habove) as (r & -> & Hr). simpl.
    destruct (compress_spec u x r _ Hf Hr Habove) as (parent & -> & Hf' & Hroots). simpl.
    eexists _, r. split; [done|]. split; [|split_and!; try done].
    + split; [done|]. intros a b. rewrite HE. simpl. setoid_rewrite Hroots. done.
    + right. simpl. split_and!; [|by apply Hroots|].
      * apply HE. exists r. split; [done|]. by eapply root_of_root.
      * apply root_of_root, root_of_made in Hr. by destruct Hr as (? & _ & _ & ?).
  - exists u, (fail_ u). split.
    + unfold FindSet. destruct (past_end x (parent_ u) || (x =? fail_ u)) eqn:Hc; [done|].
      destruct Hcase as [?| ->]; [done|]. simpl. by rewrite Z.eqb_refl.
    + split_and!; try done. left. split; [|done]. by rewrite (represents_made u E x Hrep).
Qed.

(** [merge E x y]: the classes of [x] and [y] made one. *)
Definition merge E (x y a b : Z) : Prop := E a b ∨ (E a x ∧ E y b) ∨ (E a y ∧ E x b).

(** Linking the root [x] under the root [y]. *)
Lemma link_roots fail parent parent' x y a r :
  parent_of fail parent x x → parent_of fail parent y y → x ≠ y → parent.[x <- y] = Some parent' →
  root_of fail parent' a r ↔
  (root_of fail parent a r ∧ r ≠ x) ∨ (root_of fail parent a x ∧ r = y).
Proof.
  intros Hx Hy Hne Hset.
  assert (∀ i p, parent_of fail parent' i p ↔ (i = x ∧ p = y) ∨ (i ≠ x ∧ parent_of fail parent i p)) as Hpar.
  { intros i p. unfold parent_of. rewrite (vget_vset _ _ _ _ _ Hset).
    destruct Hx as (_ & ? & _), Hy as (_ & ? & _). case_decide; subst; naive_solver. }
  split.
  - induction 1 as [i [[-> ->]|[Hix Hi]]%Hpar|i p r [[-> ->]|[Hix Hp]]%Hpar Hip Hr IH].
    + done.
    + left. split; [by constructor|done].
    + right. split; [by constructor|].
      destruct IH as [[Hs _]|[Hs _]]; [|].
      * destruct Hy as [Hy _]. by eapply root_self.
      * exfalso. apply Hne. destruct Hy as [Hy _]. by eapply root_self.
    + destruct IH as [[Hs ?]|[Hs ->]]; [left|right]; (split; [by econstructor|done]).
  - assert (root_of fail parent' y y) as Hyy by (constructor; apply Hpar; auto).
    assert (∀ s, root_of fail parent a s →
      (s ≠ x → root_of fail parent' a s) ∧ (s = x → root_of fail parent' a y)) as Hlift.
    { intros s. induction 1 as [i Hi|i p s Hp Hip Hs [IH1 IH2]].
      - split; [intros ?; constructor; apply Hpar; auto|].
        intros ->. apply (root_up _ _ x y y); [apply Hpar; auto|done|done].
      - assert (i ≠ x) as Hix by (intros ->; apply Hip; by eapply parent_of_fun).
        split; intros ?; eapply (root_up _ _ i p); auto; apply Hpar; auto. }
    intros [[Hr Hrx]|[Hr ->]]; [by apply (Hlift r)|by apply (Hlift x)].
Qed.

(** Equal roots after the link: the merged relation. *)
Lemma link_merge fail parent parent' x y E :
  parent_of fail parent x x → parent_of fail parent y y → x ≠ y → parent.[x <- y] = Some parent' →
  (∀ a b, E a b ↔ ∃ r, root_of fail parent a r ∧ root_of fail parent b r) →
  ∀ a b, merge E x y a b ↔ ∃ r, root_of fail parent' a r ∧ root_of fail parent' b r.
Proof.
  intros Hx Hy Hne Hset HE a b. unfold merge. rewrite !HE.
  pose proof (λ a r, link_roots fail parent parent' x y a r Hx Hy Hne Hset) as HL.
  assert (root_of fail parent x x) as Hxx by by constructor.
  assert (root_of fail parent y y) as Hyy by by constructor.
  assert (∀ a z, root_of fail parent z z → (∃ r, root_of fail parent a r ∧ root_of fail parent z r) →
    root_of fail parent a z) as Hto.
  { intros c z Hz (r & Hc & Hr). by rewrite (root_of_fun _ _ _ _ _ Hz Hr). }
  setoid_rewrite HL. split.
  - intros [(r & Ha & Hb)|[[Ha Hb]|[Ha Hb]]].
    + destruct (decide (r = x)) as [->|]; [exists y; auto|exists r; auto].
    + apply Hto in Ha; [|done]. exists y. split; [by right|left]. split; [|done].
      apply Hto; [done|]. destruct Hb as (r & ? & ?). by exists r.
    + apply Hto in Ha; [|done]. exists y. split; [left; split; [done|done]|right]. split; [|done].
      apply Hto; [done|]. destruct Hb as (r & ? & ?). by exists r.
  - intros (r & [[Ha Hr]|[Ha ->]] & [[Hb Hr']|[Hb Hr']]).
    + left. by exists r.
    + subst. right; right. split; [by exists y|by exists x].
    + right; left. split; [by exists x|by exists y].
    + left. by exists x.
Qed.

Lemma link_forest u x y parent' rank' ry ry' :
  forest u → parent_of (fail_ u) (parent_ u) x x → parent_of (fail_ u) (parent_ u) y y → x ≠ y →
  (parent_ u).[x <- y] = Some parent' → zlen rank' = zlen (rank_ u) →
  (rank_ u).[y] = Some ry → rank'.[y] = Some ry' → ry ≤ ry' →
  (∃ rx, (rank_ u).[x] = Some rx ∧ rx < ry') → (∀ i, i ≠ y → rank'.[i] = (rank_ u).[i]) →
  forest (MkUnionFind parent' rank' (fail_ u)).
Proof.
  intros Hf Hx Hy Hne Hset Hlen Hry Hry' Hle (rx & Hrx & Hlt) Hother.
  assert (∀ i p, parent_of (fail_ u) parent' i p ↔
    (i = x ∧ p = y) ∨ (i ≠ x ∧ parent_of (fail_ u) (parent_ u) i p)) as Hpar.
  { intros i p. unfold parent_of. rewrite (vget_vset _ _ _ _ _ Hset).
    destruct Hx as (_ & ? & _), Hy as (_ & ? & _). case_decide; subst; naive_solver. }
  assert (∀ x, made (fail_ u) (parent_ u) x → made (fail_ u) parent' x) as Hmade.
  { intros i (p & Hp). destruct (decide (i = x)) as [->|]; [exists y|exists p]; apply Hpar; auto. }
  split; simpl.
  - rewrite Hlen, (vset_len _ _ _ _ Hset). by apply forest_len.
  - intros i p [[-> ->]|[_ Hp]]%Hpar; apply Hmade; [by exists y|by eapply forest_parent].
  - intros i p [[-> ->]|[Hix Hp]]%Hpar Hip.
    + exists rx, ry'. by rewrite Hother by done.
    + destruct (forest_rank u Hf i p Hp Hip) as (ri & rp & Hi & Hrp & Hlt').
      assert (i ≠ y) as Hiy by (intros ->; apply Hip; by eapply parent_of_fun).
      rewrite Hother by done. destruct (decide (p = y)) as [->|].
      * exists ri, ry'. simplify_eq. split_and!; [done..|lia].
      * rewrite Hother by done. by exists ri, rp.
Qed.

Lemma merge_sym E x y a b : merge E x y a b ↔ merge E y x a b.
Proof. unfold merge. naive_solver. Qed.

(** Roots that stand for [x] and [y]. *)
Lemma Link_represents u E x y rx ry :
  represents u E → E x x → E y y →
  root_of (fail_ u) (parent_ u) x rx → root_of (fail_ u) (parent_ u) y ry →
  ∃ u', Link u rx ry = Some u' ∧ represents u' (merge E x y) ∧ fail_ u' = fail_ u.
Proof.
  intros [Hf HE] Hxx Hyy Hx Hy.
  assert (∀ z r, root_of (fail_ u) (parent_ u) z r → parent_of (fail_ u) (parent_ u) r r) as Hself.
  { intros z r Hr. pose proof (root_of_root _ _ _ _ Hr) as Hrr.
    destruct (root_of_made _ _ _ _ Hrr) as (p & Hp).
    destruct (decide (p = r)) as [->|Hpr]; [done|]. exfalso.
    destruct (forest_rank u Hf r p Hp (not_eq_sym Hpr)) as (a & b & Ha & Hb & Hlt).
    inversion Hrr as [i Hi|i q s Hq Hnq Hs]; subst; [by rewrite (parent_of_fun _ _ _ _ _ Hp Hi) in Hpr|].
    rewrite (parent_of_fun _ _ _ _ _ Hq Hp) in Hs.
    destruct (root_rank u p r Hf Hs Hpr) as (c & d & Hc & Hd & ?). simplify_eq. lia. }
  pose proof (Hself _ _ Hx) as Hrx. pose proof (Hself _ _ Hy) as Hry.
  assert (∀ a z r, root_of (fail_ u) (parent_ u) z r → E a z ↔ E a r) as Hclass.
  { intros a z r Hr. rewrite !HE. pose proof (root_of_root _ _ _ _ Hr) as Hrr. split.
    - intros (s & Ha & Hs). rewrite <-(root_of_fun _ _ _ _ _ Hr Hs) in Ha. by exists r.
    - intros (s & Ha & Hs). rewrite <-(root_of_fun _ _ _ _ _ Hrr Hs) in Ha. by exists r. }
  assert (∀ a b, E a b → E b a) as Hsym by (intros a b; rewrite !HE; naive_solver).
  assert (∀ a b, merge E x y a b ↔ merge E rx ry a b) as Hmerge.
  { intros a b. unfold merge. rewrite (Hclass a x rx Hx), (Hclass a y ry Hy).
    pose proof (Hclass b x rx Hx). pose proof (Hclass b y ry Hy). naive_solver. }
  unfold Link. destruct (Z.eqb_spec rx ry) as [<-|Hne].
  - exists u. split; [done|]. split; [|done]. apply (represents_ext _ E); [by split|].
    intros a b. rewrite Hmerge. unfold merge. split; [by auto|].
    assert (E a rx → E rx b → E a b) as Htrans.
    { rewrite !HE. intros (s & Ha & Hs) (s' & Hs' & Hb).
      rewrite (root_of_fun _ _ _ _ _ Hs Hs') in Ha. by exists s'. }
    naive_solver.
  - assert (∀ r, parent_of (fail_ u) (parent_ u) r r → 0 ≤ r < zlen (parent_ u)) as Hrange.
    { intros r [Hr _]. by eapply vget_range. }
    pose proof (forest_len u Hf) as Hlen.
    destruct (vget_in_range (rank_ u) rx) as [kx Hkx]; [rewrite Hlen; by apply Hrange|].
    destruct (vget_in_range (rank_ u) ry) as [ky Hky]; [rewrite Hlen; by apply Hrange|].
    rewrite Hkx, Hky. simpl. rewrite Z.gtb_ltb. destruct (Z.ltb_spec ky kx) as [Hlt|Hle].
    + pose proof (vset_is_Some (parent_ u) ry rx (Hrange _ Hry)) as Hset. rewrite Hset. simpl.
      eexists. split; [done|]. split; [|done]. split.
      * eapply (link_forest u ry rx _ _ kx kx); eauto using not_eq_sym; done || lia.
      * intros a b. rewrite Hmerge, merge_sym. by eapply (link_merge _ _ _ ry rx); eauto.
    + pose proof (vset_is_Some (parent_ u) rx ry (Hrange _ Hrx)) as Hset. rewrite Hset. simpl.
      destruct (Z.eqb_spec kx ky) as [<-|Hkne].
      * assert (0 ≤ ry < zlen (rank_ u)) as Hr by (rewrite Hlen; by apply Hrange).
        pose proof (vset_is_Some (rank_ u) ry (kx + 1) Hr) as Hset'. rewrite Hset'. simpl.
        eexists. split; [done|]. split; [|done]. split.
        -- apply (link_forest u rx ry _ _ kx (kx + 1)); try done.
           ++ by rewrite (vset_len _ _ _ _ Hset').
           ++ by rewrite (vget_vset_eq _ _ _ _ Hset').
           ++ lia.
           ++ exists kx. split; [done|lia].
           ++ intros i Hi. by rewrite (vget_vset_ne _ _ _ _ _ Hset').
        -- intros a b. rewrite Hmerge. by eapply (link_merge _ _ _ rx ry); eauto.
      * simpl. eexists. split; [done|]. split; [|done]. split.
        -- apply (link_forest u rx ry _ _ ky ky); try done. exists kx. split; [done|lia].
        -- intros a b. rewrite Hmerge. by eapply (link_merge _ _ _ rx ry); eauto.
Qed.

Lemma represents_sym u E a b : represents u E → E a b → E b a.
Proof. intros [_ HE]. rewrite !HE. naive_solver. Qed.

Lemma represents_trans u E a b c : represents u E → E a b → E b c → E a c.
Proof.
  intros [_ HE]. rewrite !HE. intros (r & Ha & Hb) (s & Hb' & Hc).
  rewrite (root_of_fun _ _ _ _ _ Hb Hb') in Ha. by exists s.
Qed.

Lemma UF_Union_represents u E x y :
  represents u E → E x x → E y y →
  ∃ u', UF_Union u x y = Some u' ∧ represents u' (merge E x y) ∧ fail_ u' = fail_ u.
Proof.
  intros Hu Hx Hy. unfold UF_Union.
  destruct (FindSet_represents u E x Hu) as (u1 & rx & -> & Hu1 & Hfx & Hf1 & _ & _). simpl.
  destruct (FindSet_represents u1 E y Hu1) as (u2 & ry & -> & Hu2 & Hfy & Hf2 & _ & Hroots). simpl.
  destruct Hfx as [[? _]|(_ & Hrx & _)]; [done|]. destruct Hfy as [[? _]|(_ & Hry & _)]; [done|].
  destruct (Link_represents u2 E x y rx ry Hu2 Hx Hy) as (u' & -> & Hu' & Hf').
  - rewrite Hf2. by apply Hroots.
  - done.
  - exists u'. split; [done|]. split; [done|]. congruence.
Qed.

(** ** New elements *)

Lemma vget_vresize {A} n (x : A) (l : list A) i :
  zlen l ≤ n → (vresize n x l).[i] =
    if decide (i < zlen l) then l.[i] else if decide (i < n) then Some x else None.
Proof.
  intros Hn. unfold vresize. rewrite resize_ge by (unfold zlen in Hn; lia).
  rewrite vget_app. case_decide; [done|]. unfold zlen in *. unfold vget. rewrite decide_True by lia.
  case_decide; [rewrite lookup_replicate_2 by lia; done|]. apply lookup_ge_None_2.
  rewrite length_replicate. lia.
Qed.

Lemma zlen_vresize {A} n (x : A) (l : list A) : 0 ≤ n → zlen (vresize n x l) = n.
Proof. intros Hn. unfold zlen, vresize. rewrite length_resize. lia. Qed.

(** A longer vector of uninitialised elements changes nothing. *)
Lemma grow_represents u E n :
  represents u E → zlen (parent_ u) ≤ n →
  represents (MkUnionFind (vresize n (fail_ u) (parent_ u)) (vresize n 0 (rank_ u)) (fail_ u)) E.
Proof.
  intros [Hf HE] Hn. pose proof (zlen_nonneg (parent_ u)) as Hn0.
  pose proof (forest_len u Hf) as Hlen.
  assert (∀ i p, parent_of (fail_ u) (vresize n (fail_ u) (parent_ u)) i p ↔
    parent_of (fail_ u) (parent_ u) i p) as Hpar.
  { intros i p. unfold parent_of. rewrite vget_vresize by done. split.
    - intros (Hg & ? & ?). repeat case_decide; simplify_eq; done.
    - intros (Hg & ? & ?). rewrite decide_True; [done|]. apply vget_range in Hg. lia. }
  assert (∀ a r, root_of (fail_ u) (vresize n (fail_ u) (parent_ u)) a r ↔
    root_of (fail_ u) (parent_ u) a r) as Hroot.
  { intros a r. split; induction 1 as [i Hi|i p r Hp Hip _ IH];
      [constructor; by apply Hpar|econstructor; [by apply Hpar|done..]|
       constructor; by apply Hpar|econstructor; [by apply Hpar|done..]]. }
  split; [split|]; simpl.
  - rewrite !zlen_vresize by lia. done.
  - intros i p [q Hq]%Hpar%(forest_parent u Hf). exists q. by apply Hpar.
  - intros i p Hp%Hpar Hip. destruct (forest_rank u Hf i p Hp Hip) as (ri & rp & Hi & Hrp & ?).
    exists ri, rp. rewrite !vget_vresize by lia.
    pose proof (vget_range _ _ _ Hi). pose proof (vget_range _ _ _ Hrp). rewrite !decide_True by lia. done.
  - intros a b. rewrite HE. setoid_rewrite Hroot. done.
Qed.

Lemma set_represents u E x parent :
  represents u E → x ≠ fail_ u → ¬ E x x → (parent_ u).[x <- x] = Some parent →
  represents (MkUnionFind parent (rank_ u) (fail_ u)) (λ a b, E a b ∨ (a = x ∧ b = x)).
Proof.
  intros Hu Hxf Hnx Hset. pose proof Hu as [Hf HE]. rewrite (represents_made u E x Hu) in Hnx.
  assert (∀ i p, parent_of (fail_ u) parent i p ↔
    (i = x ∧ p = x) ∨ parent_of (fail_ u) (parent_ u) i p) as Hpar.
  { intros i p. unfold parent_of. rewrite (vget_vset _ _ _ _ _ Hset). case_decide as Hi.
    - subst. split; [intros ([= ->] & _); auto|]. intros [[_ ->]|Hp]; [done|]. destruct Hnx. by exists p.
    - naive_solver. }
  assert (∀ a r, root_of (fail_ u) parent a r ↔
    (a = x ∧ r = x) ∨ root_of (fail_ u) (parent_ u) a r) as Hroot.
  { intros a r. split.
    - induction 1 as [i [?|Hi]%Hpar|i p r [[-> ->]|Hp]%Hpar Hip _ IH]; [by left| |done|].
      + right. by constructor.
      + destruct IH as [[-> ->]|?]; [|right; by econstructor].
        destruct Hnx. by eapply forest_parent.
    - intros [[-> ->]|Hr]; [constructor; apply Hpar; auto|].
      induction Hr as [i Hi|i p r Hp Hip _ IH]; [constructor; apply Hpar; auto|].
      econstructor; [apply Hpar; by right|done..]. }
  split; [split|]; simpl.
  - rewrite (vset_len _ _ _ _ Hset). by apply forest_len.
  - intros i p [[-> ->]|Hp]%Hpar; [exists x; apply Hpar; auto|].
    destruct (forest_parent u Hf i p Hp) as [q Hq]. exists q. apply Hpar. auto.
  - intros i p [[-> ->]|Hp]%Hpar Hip; [done|by apply (forest_rank u Hf)].
  - intros a b. rewrite HE. setoid_rewrite Hroot. split.
    + intros [(r & ? & ?)|[-> ->]]; [exists r; auto|exists x; auto].
    + intros (r & [[-> ->]|Ha] & [[-> Hr]|Hb]); [by right| | |left; by exists r].
      * destruct Hnx. apply root_of_root in Hb. by eapply root_of_made.
      * subst. destruct Hnx. apply root_of_root in Ha. by eapply root_of_made.
Qed.

(** New sets.  [MakeSet] of an element that was not initialised makes it a
class of its own and leaves the other classes, growing the vectors if it is
past their end. *)
Theorem MakeSet_correct u E x :
  represents u E → 0 ≤ x → x ≠ fail_ u → ¬ E x x →
  ∃ u', MakeSet u x = Some (u', x) ∧ represents u' (λ a b, E a b ∨ (a = x ∧ b = x)) ∧
    fail_ u' = fail_ u.
Proof.
  intros Hu Hx Hxf Hnx. unfold MakeSet. set (v := if past_end x (parent_ u) then _ else u).
  assert (represents v E ∧ fail_ v = fail_ u ∧ x < zlen (parent_ v)) as (Hv & Hfv & Hlt).
  { subst v. unfold past_end. destruct (Z.ltb_spec x 0); [lia|]. simpl.
    destruct (Z.leb_spec (zlen (parent_ u)) x) as [Hge|]; [|done].
    pose proof (zlen_nonneg (parent_ u)). rewrite Z.gtb_ltb.
    destruct (Z.ltb_spec 0 x); cbn [parent_ fail_]; rewrite zlen_vresize by lia;
      (split; [apply grow_represents; [done|lia]|split; [done|lia]]). }
  pose proof (vset_is_Some (parent_ v) x x (conj Hx Hlt)) as Hset. rewrite Hset. simpl.
  eexists. split; [done|]. split; [|done]. apply set_represents; [done|by rewrite Hfv|done|done].
Qed.

Lemma MakeAllSet_represents u n :
  (∀ i, 0 ≤ i < n → i ≠ fail_ u) → represents (MakeAllSet u n) (λ a b, a = b ∧ 0 ≤ a < n).
Proof.
  intros Hn.
  assert (∀ i p, parent_of (fail_ u) (seqZ 0 n) i p ↔ i = p ∧ 0 ≤ i < n) as Hpar.
  { intros i p. unfold parent_of. split.
    - intros ([Hi Hg]%vget_Some & _). apply lookup_seqZ in Hg. lia.
    - intros [<- Hi]. split_and!; [|by apply Hn..]. apply vget_Some. split; [lia|].
      apply lookup_seqZ. lia. }
  split; [split|]; simpl.
  - unfold zlen. rewrite length_replicate, length_seqZ. done.
  - intros i p [<- Hi]%Hpar. exists i. by apply Hpar.
  - intros i p [<- _]%Hpar. done.
  - intros a b. split.
    + intros [<- Ha]. exists a. split; constructor; by apply Hpar.
    + assert (∀ c r, root_of (fail_ u) (seqZ 0 n) c r → c = r ∧ 0 ≤ c < n) as Hr.
      { induction 1 as [i [_ Hi]%Hpar|i p r [<- _]%Hpar Hip _ _]; done. }
      intros (r & [-> ?]%Hr & [-> _]%Hr). done.
Qed.

(** Find.  [FindSet] terminates on every argument; path compression leaves
the relation the forest represents; an element that was never made gives
[fail_], the others a representative of their class, and two of them have the
same representative if and only if they are related. *)
Theorem FindSet_correct u E x :
  represents u E →
  ∃ u' r, FindSet u x = Some (u', r) ∧ represents u' E ∧ fail_ u' = fail_ u ∧
    (¬ E x x → r = fail_ u) ∧
    (E x x → E x r ∧ ∀ y u'' s, E y y → FindSet u' y = Some (u'', s) → (r = s ↔ E x y)).
Proof.
  intros Hu. destruct (FindSet_represents u E x Hu) as (u' & r & Hr & Hu' & Hfound & Hf & _ & _).
  exists u', r. split_and!; [done|done|done|..].
  - intros Hx. destruct Hfound as [[_ ->]|(Hxr & _)]; [done|]. by destruct (represents_refl u E x r Hu Hxr).
  - intros Hx. destruct Hfound as [[? _]|(Hxr & Hroot & _)]; [done|]. split; [done|].
    intros y u'' s Hy Hs. destruct (FindSet_represents u' E y Hu')
      as (v & s' & Hs' & Hv & Hfound' & Hfv & _ & Hroots). rewrite Hs in Hs'. injection Hs' as <- <-.
    destruct Hfound' as [[? _]|(Hys & Hroot' & _)]; [done|]. split.
    + intros <-. eapply represents_trans; [done|exact Hxr|]. by eapply represents_sym.
    + intros Hxy. apply (proj2 Hu') in Hxy as (q & Hq1 & Hq2).
      rewrite Hfv in Hroot'. apply Hroots in Hroot'.
      by rewrite (root_of_fun _ _ _ _ _ Hroot Hq1), (root_of_fun _ _ _ _ _ Hroot' Hq2).
Qed.

(** The equivalence closure of a list of pairs. *)
Definition joined_by (ps : list (Z * Z)) : Z → Z → Prop := rtsc (λ a b, (a, b) ∈ ps).

Lemma joined_snoc ps x y a b :
  joined_by (ps ++ [(x, y)]) a b ↔ merge (joined_by ps) x y a b.
Proof.
  assert (∀ c d, joined_by ps c d → joined_by ps d c) as Hsym by (intros c d ?; by symmetry).
  unfold joined_by. split.
  - induction 1 as [c|c d e Hcd Hde IH]; [left; reflexivity|].
    assert (merge (joined_by ps) x y c d) as Hm.
    { destruct Hcd as [[Hin|[= -> ->]]%elem_of_snoc|[Hin|[= -> ->]]%elem_of_snoc].
      - left. apply rtc_once. by left.
      - right; left. split; reflexivity.
      - left. apply rtc_once. by right.
      - right; right. split; reflexivity. }
    unfold merge, joined_by in *.
    assert (∀ p q r, rtsc (λ a b, (a, b) ∈ ps) p q → rtsc (λ a b, (a, b) ∈ ps) q r →
      rtsc (λ a b, (a, b) ∈ ps) p r) as Htr by (intros p q r ? ?; by etrans).
    naive_solver.
  - assert (∀ c d, joined_by ps c d → rtsc (λ a b, (a, b) ∈ ps ++ [(x, y)]) c d) as Hmono.
    { intros c d. unfold joined_by. induction 1 as [c|c d e Hcd _ IH]; [reflexivity|].
      eapply rtc_l; [|exact IH]. destruct Hcd; [left|right]; apply elem_of_snoc; auto. }
    assert (rtsc (λ a b, (a, b) ∈ ps ++ [(x, y)]) x y) as Hxy.
    { apply rtc_once. left. apply elem_of_snoc. auto. }
    intros [Hab|[[Ha Hb]|[Ha Hb]]]; [by apply Hmono| |].
    + etrans; [by apply Hmono|]. etrans; [exact Hxy|by apply Hmono].
    + etrans; [by apply Hmono|]. etrans; [by symmetry|by apply Hmono].
Qed.

(** C10: Components.  After [MakeAllSet(n)] and any sequence of unions of
elements below [n], each of which returns, two elements have the same
representative if and only if the pairs joined connect them. *)
Theorem components_correct fail n ps :
  (∀ i, 0 ≤ i < n → i ≠ fail) → Forall (λ p, 0 ≤ p.1 < n ∧ 0 ≤ p.2 < n) ps →
  ∃ u, foldM (λ u p, UF_Union u p.1 p.2) ps (MakeAllSet (UnionFind_new 0 fail) n) = Some u ∧
    ∀ x y, 0 ≤ x < n → 0 ≤ y < n →
    ∃ u1 r u2 s, FindSet u x = Some (u1, r) ∧ FindSet u1 y = Some (u2, s) ∧
      (r = s ↔ joined_by ps x y).
Proof.
  intros Hfail Hps. set (u0 := MakeAllSet (UnionFind_new 0 fail) n).
  destruct (foldM_total (λ u p, UF_Union u p.1 p.2)
    (λ qs u, represents u (λ a b, joined_by qs a b ∧ 0 ≤ a < n ∧ 0 ≤ b < n)) ps u0) as (u & Hu & Hrep).
  - eapply represents_ext; [by apply MakeAllSet_represents|]. intros a b. simpl. split.
    + intros [-> Hb]. split; [reflexivity|done].
    + intros (Hab & Ha & _). split; [|done].
      inversion Hab as [|? c ? [Hin|Hin] _]; [done|..]; by apply not_elem_of_nil in Hin.
  - intros done [x y] todo u -> Hu.
    apply Forall_app in Hps as [_ [[Hx Hy] _]%Forall_cons]. simpl in Hx, Hy.
    destruct (UF_Union_represents u _ x y Hu) as (u' & Hu' & Hrep & _);
      [split; [reflexivity|done]|split; [reflexivity|done]|].
    exists u'. split; [done|]. eapply represents_ext; [exact Hrep|].
    intros a b. rewrite joined_snoc. unfold merge. naive_solver.
  - exists u. split; [done|]. intros x y Hx Hy.
    destruct (FindSet_correct u _ x Hrep) as (u1 & r & Hr & Hu1 & _ & _ & Hx1).
    destruct (FindSet_represents u1 _ y Hu1) as (u2 & s & Hs & _).
    exists u1, r, u2, s. split_and!; [done|done|].
    destruct Hx1 as [_ Hx1]; [split; [reflexivity|done]|].
    rewrite (Hx1 y u2 s); [naive_solver|split; [reflexivity|done]|done].
Qed.
End refinement.

(** * Instances *)

Definition three : UnionFind := MakeAllSet (UnionFind_new 0 (-1)) 3.

Lemma three_represents : represents three (λ a b, a = b ∧ 0 ≤ a < 3).
Proof. apply MakeAllSet_represents. simpl. lia. Qed.

Lemma FindSet_correct_witness :
  FindSet three 2 = Some (three, 2) ∧
  ∃ u' r, FindSet three 2 = Some (u', r) ∧ represents u' (λ a b, a = b ∧ 0 ≤ a < 3).
Proof.
  split; [by vm_compute|].
  destruct (FindSet_correct three _ 2 three_represents) as (u' & r & H1 & H2 & _). by exists u', r.
Defined.

(** Elements 0, 2 and 3 end in one class, found by path compression from 3. *)
Lemma components_correct_witness :
  ∃ u, foldM (λ u p, UF_Union u p.1 p.2) [(0, 2); (3, 2)]
    (MakeAllSet (UnionFind_new 0 (-1)) 5) = Some u ∧
    snd <$> FindSet u 0 = snd <$> FindSet u 3 ∧
    ∃ u1 r u2 s, FindSet u 0 = Some (u1, r) ∧ FindSet u1 1 = Some (u2, s) ∧
      (r = s ↔ joined_by [(0, 2); (3, 2)] 0 1).
Proof.
  destruct (components_correct (-1) 5 [(0, 2); (3, 2)]) as (u & Hu & Hxy).
  - intros. lia.
  - repeat constructor; simpl; lia.
  - exists u. split; [done|]. split.
    + revert Hu. vm_compute. by intros [= <-].
    + apply Hxy; lia.
Defined.

Lemma MakeSet_correct_witness :
  ∃ u', MakeSet three 7 = Some (u', 7) ∧ FindSet u' 7 = Some (u', 7) ∧
    represents u' (λ a b, (a = b ∧ 0 ≤ a < 3) ∨ (a = 7 ∧ b = 7)).
Proof.
  destruct (MakeSet_correct three _ 7 three_represents) as (u' & H1 & H2 & _).
  - lia.
  - done.
  - lia.
  - exists u'. split; [done|]. split; [|done]. revert H1. vm_compute. by intros [= <-].
Defined.
