(* ===== verification/IntervalSet.v ===== *)
(** Sets of integers as vectors of half-open intervals
(openfst/lib/interval-set.h): normal form, and that every operation computes
the set operation it names on normalized sets.  Complements and differences do
so only for sets of non-negative points: [Complement_negative] is a set for
which the code's result is not within the bounds its comment promises. *)
From S2P Require Import Prelude.
Local Open Scope Z_scope.

(* interval-set.h:36-42 IntInterval *)
Record IntInterval := MkInterval { begin : Z; end_ : Z }.

#[export] Instance interval_eq_dec : EqDecision IntInterval.
Proof. solve_decision. Defined.

(* interval-set.h:44-46 operator< *)
Definition interval_lt (i j : IntInterval) : bool :=
  (begin i <? begin j) || ((begin i =? begin j) && (end_ i >? end_ j)).

(** The vector and the count of [VectorIntervalStore]. *)

(* interval-set.h:77-94 VectorIntervalStore *)
Record IntervalSet := MkSet { intervals_ : list IntInterval; count_ : Z }.

(* interval-set.h:82-84 VectorIntervalStore *)
Definition IntervalSet_new (intervals : list IntInterval) : IntervalSet := MkSet intervals (-1).

(* interval-set.h:96-99 Clear *)
Definition IS_Clear (s : IntervalSet) : IntervalSet := MkSet [] 0.

(* interval-set.h:145-145 Size *)
Definition IS_Size (s : IntervalSet) : Z := zlen (intervals_ s).

(* interval-set.h:153-157 Union *)
Definition IS_Union (s iset : IntervalSet) : IntervalSet :=
  MkSet (intervals_ s ++ intervals_ iset) (count_ s).

(** [std::lower_bound]: the number of leading intervals below the argument, in
a vector sorted by [interval_lt]. *)
Fixpoint lower_bound (l : list IntInterval) (v : IntInterval) : nat :=
  match l with
  | [] => 0
  | i :: l => if interval_lt i v then S (lower_bound l v) else 0
  end.

(* interval-set.h:160-165 Member *)
Definition IS_Member (s : IntervalSet) (value : Z) : bool :=
  match lower_bound (intervals_ s) (MkInterval value value) with
  | O => false
  | S lb => match intervals_ s !! lb with Some i => end_ i >? value | None => false end
  end.

(* interval-set.h:168-172 operator== *)
Definition IS_eqb (s iset : IntervalSet) : bool :=
  (IS_Size s =? IS_Size iset) &&
  forallb (λ p, (begin p.1 =? begin p.2) && (end_ p.1 =? end_ p.2))
    (zip (intervals_ s) (intervals_ iset)).

(* interval-set.h:181-184 Singleton *)
Definition IS_Singleton (s : IntervalSet) : bool :=
  (IS_Size s =? 1) &&
  match intervals_ s with i :: _ => begin i + 1 =? end_ i | [] => false end.

(** ** Normalize *)

(** [std::sort]: the order is total, so the sorted vector is determined. *)
Definition interval_le (i j : IntInterval) : Prop := interval_lt j i = false.
#[export] Instance interval_le_dec : RelDecision interval_le.
Proof. intros i j. unfold interval_le. apply _. Defined.

(* interval-set.h:239-244 Normalize *)
Fixpoint absorb (inti : IntInterval) (rest : list IntInterval) : IntInterval * list IntInterval :=
  match rest with
  | intj :: rest' =>
      if begin intj >? end_ inti then (inti, rest)
      else absorb (if end_ intj >? end_ inti then MkInterval (begin inti) (end_ intj) else inti) rest'
  | [] => (inti, [])
  end.

(** The outer loop on the intervals from [i] on; the slots it writes, below
[size], are before those. *)

(* interval-set.h:236-247 Normalize *)
Fixpoint normalize_loop (fuel : nat) (rest : list IntInterval) : list IntInterval * Z :=
  match fuel with
  | O => ([], 0)
  | S fuel =>
      match rest with
      | [] => ([], 0)
      | inti :: rest =>
          if begin inti =? end_ inti then normalize_loop fuel rest
          else
            let '(inti, rest) := absorb inti rest in
            let '(out, count) := normalize_loop fuel rest in
            (inti :: out, end_ inti - begin inti + count)
      end
  end.

(* interval-set.h:231-250 Normalize *)
Definition Normalize (s : IntervalSet) : IntervalSet :=
  let intervals := merge_sort interval_le (intervals_ s) in
  let '(out, count) := normalize_loop (length intervals) intervals in
  MkSet out count.

(** ** Operations on normalized sets *)

(* interval-set.h:262-277 Intersect *)
Fixpoint intersect_loop (l1 : list IntInterval) : list IntInterval → list IntInterval * Z :=
  fix go (l2 : list IntInterval) : list IntInterval * Z :=
    match l1, l2 with
    | it1 :: l1', it2 :: l2' =>
        if end_ it1 <=? begin it2 then intersect_loop l1' l2
        else if end_ it2 <=? begin it1 then go l2'
        else
          let o := MkInterval (Z.max (begin it1) (begin it2)) (Z.min (end_ it1) (end_ it2)) in
          let '(out, count) :=
            if end_ it1 <? end_ it2 then intersect_loop l1' l2 else go l2' in
          (o :: out, end_ o - begin o + count)
    | _, _ => ([], 0)
    end.

(* interval-set.h:255-279 Intersect *)
Definition Intersect (s iset : IntervalSet) : IntervalSet :=
  let '(out, count) := intersect_loop (intervals_ s) (intervals_ iset) in MkSet out count.

(* interval-set.h:289-303 Complement *)
Fixpoint complement_loop (interval_begin maxval : Z) (l : list IntInterval) : list IntInterval * Z :=
  match l with
  | current_interval :: l =>
      let interval_end := Z.min (begin current_interval) maxval in
      let '(out, count) := complement_loop (end_ current_interval) maxval l in
      if interval_begin <? interval_end
      then (MkInterval interval_begin interval_end :: out, interval_end - interval_begin + count)
      else (out, count)
  | [] =>
      if interval_begin <? maxval
      then ([MkInterval interval_begin maxval], maxval - interval_begin) else ([], 0)
  end.

(* interval-set.h:284-305 Complement *)
Definition Complement (s : IntervalSet) (maxval : Z) : IntervalSet :=
  let '(out, count) := complement_loop 0 maxval (intervals_ s) in MkSet out count.

(* interval-set.h:310-320 Difference *)
Definition Difference (s iset : IntervalSet) : IntervalSet :=
  match last (intervals_ s) with
  | None => MkSet [] 0
  | Some i => Intersect s (Complement iset (end_ i))
  end.

(* interval-set.h:328-337 Overlaps *)
Fixpoint overlaps_loop (l1 : list IntInterval) : list IntInterval → bool :=
  fix go (l2 : list IntInterval) : bool :=
    match l1, l2 with
    | it1 :: l1', it2 :: l2' =>
        if end_ it1 <=? begin it2 then overlaps_loop l1' l2
        else if end_ it2 <=? begin it1 then go l2'
        else true
    | _, _ => false
    end.

(* interval-set.h:325-338 Overlaps *)
Definition Overlaps (s iset : IntervalSet) : bool := overlaps_loop (intervals_ s) (intervals_ iset).

(** The flags after an iteration, which returns if all are set; the last branch
sets them all. *)

(* interval-set.h:350-378 StrictlyOverlaps *)
Fixpoint strictly_loop (l1 : list IntInterval) : list IntInterval → bool → bool → bool → bool :=
  fix go (l2 : list IntInterval) (only1 only2 overlap : bool) : bool :=
    match l1, l2 with
    | it1 :: l1', it2 :: l2' =>
        if end_ it1 <=? begin it2 then
          if only2 && overlap then true else strictly_loop l1' l2 true only2 overlap
        else if end_ it2 <=? begin it1 then
          if only1 && overlap then true else go l2' only1 true overlap
        else if (begin it2 =? begin it1) && (end_ it2 =? end_ it1) then
          if only1 && only2 then true else strictly_loop l1' l2' only1 only2 true
        else if (begin it2 <=? begin it1) && (end_ it2 >=? end_ it1) then
          if only1 then true else strictly_loop l1' l2 only1 true true
        else if (begin it1 <=? begin it2) && (end_ it1 >=? end_ it2) then
          if only2 then true else go l2' true only2 true
        else true
    | _, _ =>
        let only1 := match l1 with [] => only1 | _ => true end in
        let only2 := match l2 with [] => only2 | _ => true end in
        only1 && only2 && overlap
    end.

(* interval-set.h:343-379 StrictlyOverlaps *)
Definition StrictlyOverlaps (s iset : IntervalSet) : bool :=
  strictly_loop (intervals_ s) (intervals_ iset) false false false.

(* interval-set.h:388-401 Contains *)
Fixpoint contains_loop (l1 : list IntInterval) : list IntInterval → bool :=
  fix go (l2 : list IntInterval) : bool :=
    match l1, l2 with
    | it1 :: l1', it2 :: l2' =>
        if end_ it1 <=? begin it2 then contains_loop l1' l2
        else if (begin it2 <? begin it1) || (end_ it2 >? end_ it1) then false
        else if end_ it2 =? end_ it1 then contains_loop l1' l2'
        else go l2'
    | _, [] => true
    | [], _ :: _ => false
    end.

(* interval-set.h:384-402 Contains *)
Definition Contains (s iset : IntervalSet) : bool :=
  if count_ iset >? count_ s then false else contains_loop (intervals_ s) (intervals_ iset).

(** * Points and normal form *)

Definition within (p : Z) (i : IntInterval) : Prop := begin i ≤ p < end_ i.
Definition inset (p : Z) (l : list IntInterval) : Prop := Exists (within p) l.

(** Non-empty intervals in order with gaps between them, the first above [lo]. *)
Fixpoint norm_from (lo : Z) (l : list IntInterval) : Prop :=
  match l with
  | [] => True
  | i :: l => lo < begin i ∧ begin i < end_ i ∧ norm_from (end_ i) l
  end.
Definition normal (l : list IntInterval) : Prop := ∃ lo, norm_from lo l.

Fixpoint points (l : list IntInterval) : list Z :=
  match l with [] => [] | i :: l => seqZ (begin i) (end_ i - begin i) ++ points l end.

(** A set that [Normalize] or one of the operations returned. *)
Definition Normalized (s : IntervalSet) : Prop :=
  normal (intervals_ s) ∧ count_ s = zlen (points (intervals_ s)).

Section facts.
Implicit Types (l : list IntInterval) (i : IntInterval) (p lo : Z).

Lemma inset_cons p i l : inset p (i :: l) ↔ begin i ≤ p < end_ i ∨ inset p l.
Proof. unfold inset. rewrite Exists_cons. done. Qed.

Lemma inset_nil p : ¬ inset p [].
Proof. by intros ?%Exists_nil. Qed.

Lemma inset_app p l k : inset p (l ++ k) ↔ inset p l ∨ inset p k.
Proof. apply Exists_app. Qed.

Lemma inset_points p l : p ∈ points l ↔ inset p l.
Proof.
  induction l as [|i l IH]; simpl.
  - split; [by intros ?%not_elem_of_nil|by intros ?%inset_nil].
  - rewrite elem_of_app, elem_of_seqZ, inset_cons, IH. split; intros [?|?]; auto; left; lia.
Qed.

Lemma norm_weaken lo lo' l : lo' ≤ lo → norm_from lo l → norm_from lo' l.
Proof. destruct l as [|i l]; simpl; [done|]. intros ? (? & ? & ?). split_and!; [lia|done..]. Qed.

Lemma norm_above lo l p : norm_from lo l → inset p l → lo < p.
Proof.
  revert lo. induction l as [|i l IH]; intros lo; simpl; [by intros _ ?%inset_nil|].
  intros (? & ? & Hl) [?|Hp]%inset_cons; [lia|]. pose proof (IH _ Hl Hp). lia.
Qed.

Lemma norm_inset_nonempty lo l : norm_from lo l → l ≠ [] → ∃ p, inset p l.
Proof.
  destruct l as [|i l]; [done|]. intros (? & ? & _) _. exists (begin i). apply inset_cons. left. lia.
Qed.

Lemma points_NoDup lo l : norm_from lo l → NoDup (points l).
Proof.
  revert lo. induction l as [|i l IH]; intros lo; simpl; [constructor|].
  intros (? & ? & Hl). apply NoDup_app. split_and!; [apply NoDup_seqZ| |by eapply IH].
  intros p Hp%elem_of_seqZ Hq%inset_points. pose proof (norm_above _ _ _ Hl Hq). lia.
Qed.

Lemma zlen_points_cons i l : begin i ≤ end_ i → zlen (points (i :: l)) = end_ i - begin i + zlen (points l).
Proof. intros. simpl. rewrite zlen_app, zlen_seqZ. lia. Qed.

(** The normal form of a set is unique. *)
Lemma normal_unique lo lo' l l' :
  norm_from lo l → norm_from lo' l' → (∀ p, inset p l ↔ inset p l') → l = l'.
Proof.
  revert lo lo' l'. induction l as [|i l IH]; intros lo lo' l' Hl Hl' Heq.
  - destruct l' as [|j l']; [done|]. destruct (norm_inset_nonempty _ _ Hl') as [p Hp]; [done|].
    by apply Heq, inset_nil in Hp.
  - destruct l' as [|j l'].
    { destruct (norm_inset_nonempty _ _ Hl) as [p Hp]; [done|]. by apply Heq, inset_nil in Hp. }
    destruct Hl as (H1 & H2 & Hl), Hl' as (H1' & H2' & Hl'). setoid_rewrite inset_cons in Heq.
    pose proof (λ p, norm_above _ _ p Hl) as Ha. pose proof (λ p, norm_above _ _ p Hl') as Ha'.
    assert (begin i = begin j) as Hb.
    { destruct (proj1 (Heq (begin i))) as [?|?%Ha']; [left; lia| |];
        (destruct (proj2 (Heq (begin j))) as [?|?%Ha]; [left; lia|lia|lia]). }
    assert (end_ i = end_ j) as He.
    { destruct (Z.lt_trichotomy (end_ i) (end_ j)) as [Hlt|[?|Hlt]]; [exfalso|done|exfalso].
      - destruct (proj2 (Heq (end_ i))) as [?|?%Ha]; [left; lia|lia|lia].
      - destruct (proj1 (Heq (end_ j))) as [?|?%Ha']; [left; lia|lia|lia]. }
    assert (i = j) as -> by (destruct i, j; simpl in *; congruence).
    f_equal. eapply IH; [exact Hl|exact Hl'|]. intros p. destruct (Heq p) as [Hto Hfrom]. split; intros Hp.
    + pose proof (Ha p Hp). destruct Hto as [?|?]; [by right|lia|done].
    + pose proof (Ha' p Hp). destruct Hfrom as [?|?]; [by right|lia|done].
Qed.
End facts.

(** * Normalize *)

Section normalize.
Implicit Types (l rest : list IntInterval) (i : IntInterval) (p lo : Z).

Definition valid_interval i : Prop := begin i ≤ end_ i.
Definition by_begin (i j : IntInterval) : Prop := begin i ≤ begin j.

Lemma absorb_spec rest inti :
  valid_interval inti → Forall valid_interval rest → StronglySorted by_begin (inti :: rest) →
  ∃ inti' rest', absorb inti rest = (inti', rest') ∧
    begin inti' = begin inti ∧ end_ inti ≤ end_ inti' ∧
    (length rest' ≤ length rest)%nat ∧ Forall valid_interval rest' ∧ StronglySorted by_begin rest' ∧
    Forall (λ j, end_ inti' < begin j) rest' ∧
    ∀ p, within p inti' ∨ inset p rest' ↔ within p inti ∨ inset p rest.
Proof.
  revert inti. induction rest as [|intj rest IH]; intros inti Hi Hv Hs.
  - exists inti, []. simpl. split_and!; done || constructor.
  - apply Forall_cons in Hv as [Hj Hv]. pose proof Hs as [Hs' Hb]%StronglySorted_inv.
    apply Forall_cons in Hb as [Hij Hb]. apply StronglySorted_inv in Hs' as [Hs' Hbj].
    unfold valid_interval, by_begin in *. simpl. rewrite !Z.gtb_ltb.
    destruct (Z.ltb_spec (end_ inti) (begin intj)).
    + exists inti, (intj :: rest). split_and!; try done.
      * constructor; done.
      * by constructor.
      * constructor; [done|]. eapply Forall_impl; [exact Hbj|]. simpl. intros k ?. lia.
    + set (m := if end_ inti <? end_ intj then _ else inti).
      assert (begin m = begin inti ∧ end_ m = Z.max (end_ inti) (end_ intj)) as [Hm1 Hm2].
      { subst m. destruct (Z.ltb_spec (end_ inti) (end_ intj)); simpl; lia. }
      destruct (IH m) as (inti' & rest' & -> & H1 & H2 & H3 & H4 & H5 & H6 & H7).
      * lia.
      * done.
      * constructor; [done|]. eapply Forall_impl; [exact Hb|]. intros k ?. unfold by_begin in *. lia.
      * exists inti', rest'. split_and!; try done; [lia..|].
        intros p. rewrite H7, inset_cons. unfold within. rewrite Hm1, Hm2.
        destruct (decide (inset p rest)); [tauto|]. intuition lia.
Qed.

Lemma normalize_loop_spec fuel rest lo :
  (length rest ≤ fuel)%nat → Forall valid_interval rest → StronglySorted by_begin rest →
  Forall (λ j, lo < begin j) rest →
  ∃ out, normalize_loop fuel rest = (out, zlen (points out)) ∧ norm_from lo out ∧
    ∀ p, inset p out ↔ inset p rest.
Proof.
  revert rest lo. induction fuel as [|fuel IH]; intros rest lo Hf Hv Hs Hlo.
  { destruct rest; [|simpl in Hf; lia]. by exists []. }
  destruct rest as [|inti rest]; [by exists []|]. simpl in *.
  apply Forall_cons in Hv as [Hi Hv]. apply Forall_cons in Hlo as [Hli Hlo].
  destruct (Z.eqb_spec (begin inti) (end_ inti)) as [He|He].
  - apply StronglySorted_inv in Hs as [Hs _].
    destruct (IH rest lo) as (out & Hout & Hn & Hp); [lia|done..|]. exists out.
    split_and!; [done..|]. intros p. rewrite Hp, inset_cons. intuition lia.
  - destruct (absorb_spec rest inti Hi Hv Hs) as (i' & rest' & -> & H1 & H2 & H3 & H4 & H5 & H6 & H7).
    unfold valid_interval in Hi.
    destruct (IH rest' (end_ i')) as (out & -> & Hn & Hp); [lia|done..|].
    exists (i' :: out). split_and!.
    + rewrite zlen_points_cons by lia. done.
    + simpl. split_and!; [lia|lia|done].
    + intros p. rewrite inset_cons, Hp. specialize (H7 p). unfold within in H7. rewrite H7, inset_cons. done.
Qed.

#[local] Instance interval_le_total : Total interval_le.
Proof.
  intros i j. unfold interval_le, interval_lt. rewrite !Z.gtb_ltb.
  destruct (Z.ltb_spec (begin i) (begin j)), (Z.ltb_spec (begin j) (begin i)),
    (Z.eqb_spec (begin i) (begin j)), (Z.eqb_spec (begin j) (begin i)),
    (Z.ltb_spec (end_ i) (end_ j)), (Z.ltb_spec (end_ j) (end_ i)); simpl; auto; lia.
Qed.

Lemma interval_le_begin i j : interval_le i j → by_begin i j.
Proof.
  unfold interval_le, interval_lt, by_begin. intros [Hlt _]%orb_false_iff.
  destruct (Z.ltb_spec (begin j) (begin i)); [done|lia].
Qed.

Lemma sorted_by_begin l : StronglySorted by_begin (merge_sort interval_le l).
Proof.
  apply Sorted_StronglySorted; [intros i j k; unfold by_begin; lia|].
  pose proof (Sorted_merge_sort interval_le l) as Hs. induction Hs as [|i k Hs IH Hr]; constructor; [done|].
  destruct Hr; constructor. by apply interval_le_begin.
Qed.

Lemma inset_perm p l k : l ≡ₚ k → inset p l ↔ inset p k.
Proof. unfold inset. rewrite !Exists_exists. intros Hp. by setoid_rewrite Hp. Qed.

Lemma lower_than_all l : ∃ lo, Forall (λ j, lo < begin j) l.
Proof.
  induction l as [|i l [lo IH]]; [by exists 0|]. exists (Z.min lo (begin i - 1)).
  constructor; [lia|]. eapply Forall_impl; [exact IH|]. simpl. intros j ?. lia.
Qed.

(** C11: Normal form.  [Normalize] sorts and merges any intervals into the
unique normal form (non-empty intervals in order with gaps between them) of the
same set of points, and sets the count to the number of points. *)
Theorem Normalize_correct (s : IntervalSet) :
  Forall valid_interval (intervals_ s) →
  Normalized (Normalize s) ∧
  (∀ p, inset p (intervals_ (Normalize s)) ↔ inset p (intervals_ s)) ∧
  (∀ l, normal l → (∀ p, inset p l ↔ inset p (intervals_ s)) → l = intervals_ (Normalize s)).
Proof.
  intros Hv. unfold Normalize. set (l := merge_sort interval_le (intervals_ s)).
  assert (l ≡ₚ intervals_ s) as Hperm by apply merge_sort_Permutation.
  destruct (lower_than_all l) as [lo Hlo].
  destruct (normalize_loop_spec (length l) l lo) as (out & -> & Hn & Hp); [done| | |done|].
  - by rewrite Hperm.
  - apply sorted_by_begin.
  - assert (∀ p, inset p out ↔ inset p (intervals_ s)) as Hp'.
    { intros p. rewrite Hp. by apply inset_perm. }
    split_and!; [by split; [exists lo|]|done|].
    intros k [lo' Hk] Heq. eapply normal_unique; [done..|]. intros p. by rewrite Heq, Hp'.
Qed.
End normalize.

(** * Operations on normalized sets *)

Section operations.
Implicit Types (l : list IntInterval) (i : IntInterval) (p lo : Z).

Lemma lower_bound_above lo l p : norm_from lo l → p ≤ lo → lower_bound l (MkInterval p p) = 0%nat.
Proof.
  destruct l as [|i l]; [done|]. simpl. intros (? & ? & _) Hp. unfold interval_lt. simpl.
  destruct (Z.ltb_spec (begin i) p), (Z.eqb_spec (begin i) p); simpl; done || lia.
Qed.

Lemma Member_loop lo l p :
  norm_from lo l →
  match lower_bound l (MkInterval p p) with
  | O => false
  | S lb => match l !! lb with Some i => end_ i >? p | None => false end
  end = true ↔ inset p l.
Proof.
  revert lo. induction l as [|i l IH]; intros lo; simpl; [split; [done|by intros ?%inset_nil]|].
  intros (Hlo & Hi & Hl). rewrite inset_cons.
  assert (interval_lt i (MkInterval p p) = bool_decide (begin i ≤ p)) as ->.
  { unfold interval_lt. simpl. rewrite Z.gtb_ltb. case_bool_decide;
      destruct (Z.ltb_spec (begin i) p), (Z.eqb_spec (begin i) p), (Z.ltb_spec p (end_ i)); simpl; done || lia. }
  case_bool_decide as Hb.
  - specialize (IH _ Hl). destruct (lower_bound l (MkInterval p p)) as [|lb] eqn:El.
    + simpl. rewrite Z.gtb_ltb, Z.ltb_lt. split; [intros ?; left; lia|].
      intros [?|Hp]; [lia|]. pose proof (norm_above _ _ _ Hl Hp). by apply IH in Hp.
    + simpl. rewrite IH. split; [by right|].
      intros [?|?]; [|done]. by rewrite (lower_bound_above _ _ _ Hl) in El by lia.
  - split; [done|]. intros [?|Hp]; [lia|]. pose proof (norm_above _ _ _ Hl Hp). lia.
Qed.

Lemma intersect_cons i1 l1 i2 l2 :
  intersect_loop (i1 :: l1) (i2 :: l2) =
    if end_ i1 <=? begin i2 then intersect_loop l1 (i2 :: l2)
    else if end_ i2 <=? begin i1 then intersect_loop (i1 :: l1) l2
    else
      let o := MkInterval (Z.max (begin i1) (begin i2)) (Z.min (end_ i1) (end_ i2)) in
      let '(out, count) :=
        if end_ i1 <? end_ i2 then intersect_loop l1 (i2 :: l2) else intersect_loop (i1 :: l1) l2 in
      (o :: out, end_ o - begin o + count).
Proof. done. Qed.

Lemma intersect_spec lo1 lo2 l1 l2 :
  norm_from lo1 l1 → norm_from lo2 l2 →
  ∃ out, intersect_loop l1 l2 = (out, zlen (points out)) ∧ norm_from (Z.max lo1 lo2) out ∧
    ∀ p, inset p out ↔ inset p l1 ∧ inset p l2.
Proof.
  revert lo1 lo2 l2. induction l1 as [|i1 l1 IH1]; intros lo1 lo2 l2 H1 H2.
  { exists []. destruct l2; (split_and!; [done..|]); intros p; (split; [by intros ?%inset_nil|];
      intros [?%inset_nil _]; done). }
  revert lo2 H2. induction l2 as [|i2 l2 IH2]; intros lo2 H2.
  { exists []. split_and!; [done..|]. intros p. split; [by intros ?%inset_nil|].
    by intros [_ ?%inset_nil]. }
  pose proof H1 as (Hl1 & Hi1 & Hn1). pose proof H2 as (Hl2 & Hi2 & Hn2).
  pose proof (λ p, norm_above _ _ p Hn1) as Ha1. pose proof (λ p, norm_above _ _ p Hn2) as Ha2.
  rewrite intersect_cons. destruct (Z.leb_spec (end_ i1) (begin i2)); [|destruct (Z.leb_spec (end_ i2) (begin i1))].
  - destruct (IH1 _ _ (i2 :: l2) Hn1 H2) as (out & -> & Hn & Hp). exists out.
    split_and!; [done|eapply norm_weaken; [|exact Hn]; lia|].
    intros p. rewrite Hp, !inset_cons. specialize (Ha2 p). intuition lia.
  - destruct (IH2 (end_ i2) Hn2) as (out & Hout & Hn & Hp). exists out.
    split_and!; [exact Hout|eapply norm_weaken; [|exact Hn]; lia|].
    intros p. rewrite Hp, !inset_cons. specialize (Ha1 p). intuition lia.
  - cbv zeta. destruct (Z.ltb_spec (end_ i1) (end_ i2)).
    + destruct (IH1 _ _ (i2 :: l2) Hn1 H2) as (out & -> & Hn & Hp). eexists. split; [|split].
      * rewrite <-zlen_points_cons by (simpl; lia). done.
      * simpl. split_and!; [lia|lia|]. eapply norm_weaken; [|exact Hn]. lia.
      * intros p. rewrite inset_cons, Hp, !inset_cons. simpl. specialize (Ha1 p). specialize (Ha2 p).
        intuition lia.
    + destruct (IH2 (end_ i2) Hn2) as (out & Hout & Hn & Hp). eexists. split; [|split].
      * rewrite Hout, <-zlen_points_cons by (simpl; lia). done.
      * simpl. split_and!; [lia|lia|]. eapply norm_weaken; [|exact Hn]. lia.
      * intros p. rewrite inset_cons, Hp, !inset_cons. simpl. specialize (Ha1 p). specialize (Ha2 p).
        intuition lia.
Qed.

Lemma complement_spec b maxval l :
  norm_from (b - 1) l →
  ∃ out, complement_loop b maxval l = (out, zlen (points out)) ∧ norm_from (b - 1) out ∧
    ∀ p, inset p out ↔ b ≤ p < maxval ∧ ¬ inset p l.
Proof.
  revert b. induction l as [|i l IH]; intros b Hl; simpl.
  - destruct (Z.ltb_spec b maxval) as [Hb|Hb].
    + eexists. split; [|split; [|]].
      * f_equal. rewrite zlen_points_cons by (simpl; lia). change (zlen (points [])) with 0. simpl. lia.
      * simpl. lia.
      * intros p. rewrite inset_cons. simpl. pose proof (inset_nil p). intuition lia.
    + exists []. split_and!; [done..|]. intros p. pose proof (inset_nil p). intuition lia.
  - destruct Hl as (Hb & Hi & Hl). pose proof (λ p, norm_above _ _ p Hl) as Ha.
    destruct (IH (end_ i)) as (out & -> & Hn & Hp); [eapply norm_weaken; [|exact Hl]; lia|].
    destruct (Z.ltb_spec b (Z.min (begin i) maxval)) as [Hlt|Hge].
    + eexists. split; [|split].
      * f_equal. rewrite zlen_points_cons by (simpl; lia). done.
      * simpl. split_and!; [lia|lia|]. eapply norm_weaken; [|exact Hn]. lia.
      * intros p. rewrite !inset_cons, Hp. simpl. specialize (Ha p).
        destruct (decide (p < end_ i)); intuition lia.
    + exists out. split_and!; [done|eapply norm_weaken; [|exact Hn]; lia|].
      intros p. rewrite Hp, inset_cons. specialize (Ha p). intuition lia.
Qed.

(** From a set that may have negative points. *)
Lemma complement_0 lo maxval l :
  norm_from lo l →
  ∃ out, complement_loop 0 maxval l = (out, zlen (points out)) ∧ normal out ∧
    (∀ p, 0 ≤ p → inset p out ↔ p < maxval ∧ ¬ inset p l) ∧
    ((∀ p, inset p l → 0 ≤ p) → ∀ p, inset p out → 0 ≤ p).
Proof.
  intros Hl. destruct l as [|i l].
  - destruct (complement_spec 0 maxval []) as (out & Hout & Hn & Hp); [done|]. exists out.
    split_and!; [done|by eexists|intros p ?; rewrite Hp; intuition lia|intros _ p; rewrite Hp; lia].
  - destruct Hl as (Hlo & Hi & Hl). destruct (decide (0 ≤ begin i)).
    + destruct (complement_spec 0 maxval (i :: l)) as (out & Hout & Hn & Hp); [simpl; split_and!; [lia|done..]|].
      exists out.
      split_and!; [done|by eexists|intros p ?; rewrite Hp; intuition lia|intros _ p; rewrite Hp; lia].
    + destruct (complement_spec (end_ i) maxval l) as (out & Hout & Hn & Hp);
        [eapply norm_weaken; [|exact Hl]; lia|].
      exists out. split_and!; [|by eexists| |].
      * simpl. rewrite Hout. destruct (Z.ltb_spec 0 (Z.min (begin i) maxval)); [lia|done].
      * intros p ?. pose proof (norm_above _ _ p Hl). rewrite Hp, inset_cons. intuition lia.
      * intros Hpos. specialize (Hpos (begin i)). rewrite inset_cons in Hpos. intuition lia.
Qed.

Lemma overlaps_cons i1 l1 i2 l2 :
  overlaps_loop (i1 :: l1) (i2 :: l2) =
    if end_ i1 <=? begin i2 then overlaps_loop l1 (i2 :: l2)
    else if end_ i2 <=? begin i1 then overlaps_loop (i1 :: l1) l2 else true.
Proof. done. Qed.

Lemma overlaps_spec lo1 lo2 l1 l2 :
  norm_from lo1 l1 → norm_from lo2 l2 →
  overlaps_loop l1 l2 = true ↔ ∃ p, inset p l1 ∧ inset p l2.
Proof.
  revert lo1 lo2 l2. induction l1 as [|i1 l1 IH1]; intros lo1 lo2 l2 H1 H2.
  { split; [by destruct l2|]. by intros (p & ?%inset_nil & _). }
  revert lo2 H2. induction l2 as [|i2 l2 IH2]; intros lo2 H2.
  { split; [done|]. by intros (p & _ & ?%inset_nil). }
  pose proof H1 as (Hl1 & Hi1 & Hn1). pose proof H2 as (Hl2 & Hi2 & Hn2).
  pose proof (λ p, norm_above _ _ p Hn1) as Ha1. pose proof (λ p, norm_above _ _ p Hn2) as Ha2.
  rewrite overlaps_cons.
  destruct (Z.leb_spec (end_ i1) (begin i2)); [|destruct (Z.leb_spec (end_ i2) (begin i1))].
  - rewrite (IH1 _ _ (i2 :: l2) Hn1 H2). f_equiv. intros p. rewrite !inset_cons.
    specialize (Ha2 p). intuition lia.
  - rewrite (IH2 _ Hn2). f_equiv. intros p. rewrite !inset_cons. specialize (Ha1 p). intuition lia.
  - split; [intros _|done]. exists (Z.max (begin i1) (begin i2)). rewrite !inset_cons. split; left; lia.
Qed.

Lemma contains_cons i1 l1 i2 l2 :
  contains_loop (i1 :: l1) (i2 :: l2) =
    if end_ i1 <=? begin i2 then contains_loop l1 (i2 :: l2)
    else if (begin i2 <? begin i1) || (end_ i2 >? end_ i1) then false
    else if end_ i2 =? end_ i1 then contains_loop l1 l2
    else contains_loop (i1 :: l1) l2.
Proof. done. Qed.

Lemma contains_spec lo1 lo2 l1 l2 :
  norm_from lo1 l1 → norm_from lo2 l2 →
  contains_loop l1 l2 = true ↔ ∀ p, inset p l2 → inset p l1.
Proof.
  revert lo1 lo2 l2. induction l1 as [|i1 l1 IH1]; intros lo1 lo2 l2 H1 H2.
  { destruct l2 as [|i2 l2]; simpl; [by split|]. split; [done|]. intros Hp.
    destruct (norm_inset_nonempty _ _ H2) as [p ?%Hp%inset_nil]; done. }
  revert lo2 H2. induction l2 as [|i2 l2 IH2]; intros lo2 H2.
  { split; [|done]. by intros _ p ?%inset_nil. }
  pose proof H1 as (Hl1 & Hi1 & Hn1). pose proof H2 as (Hl2 & Hi2 & Hn2).
  pose proof (λ p, norm_above _ _ p Hn1) as Ha1. pose proof (λ p, norm_above _ _ p Hn2) as Ha2.
  rewrite contains_cons, Z.gtb_ltb.
  destruct (Z.leb_spec (end_ i1) (begin i2)).
  { rewrite (IH1 _ _ (i2 :: l2) Hn1 H2). split; intros Hp p Hin; specialize (Hp p Hin);
      [rewrite inset_cons; by right|].
    rewrite inset_cons in Hin, Hp. specialize (Ha2 p). intuition lia. }
  destruct (Z.ltb_spec (begin i2) (begin i1)); simpl.
  { split; [done|]. intros Hp. specialize (Hp (begin i2)). specialize (Ha1 (begin i2)).
    rewrite !inset_cons in Hp. destruct Hp as [?|?%Ha1]; [left; lia|lia|lia]. }
  destruct (Z.ltb_spec (end_ i1) (end_ i2)); simpl.
  { split; [done|]. intros Hp. specialize (Hp (end_ i1)). specialize (Ha1 (end_ i1)).
    rewrite !inset_cons in Hp. destruct Hp as [?|?%Ha1]; [left; lia|lia|lia]. }
  destruct (Z.eqb_spec (end_ i2) (end_ i1)).
  - rewrite (IH1 _ _ l2 Hn1 Hn2). split; intros Hp p Hin; specialize (Hp p).
    + rewrite inset_cons in Hin |- *. intuition lia.
    + rewrite !inset_cons in Hp. specialize (Ha2 p Hin). destruct Hp as [?|?]; [by right|lia|done].
  - rewrite (IH2 _ Hn2). split; intros Hp p Hin; specialize (Hp p); rewrite !inset_cons in *.
    + intuition lia.
    + by apply Hp; right.
Qed.

Lemma strictly_cons i1 l1 i2 l2 only1 only2 overlap :
  strictly_loop (i1 :: l1) (i2 :: l2) only1 only2 overlap =
    if end_ i1 <=? begin i2 then
      if only2 && overlap then true else strictly_loop l1 (i2 :: l2) true only2 overlap
    else if end_ i2 <=? begin i1 then
      if only1 && overlap then true else strictly_loop (i1 :: l1) l2 only1 true overlap
    else if (begin i2 =? begin i1) && (end_ i2 =? end_ i1) then
      if only1 && only2 then true else strictly_loop l1 l2 only1 only2 true
    else if (begin i2 <=? begin i1) && (end_ i2 >=? end_ i1) then
      if only1 then true else strictly_loop l1 (i2 :: l2) only1 true true
    else if (begin i1 <=? begin i2) && (end_ i1 >=? end_ i2) then
      if only2 then true else strictly_loop (i1 :: l1) l2 true only2 true
    else true.
Proof. done. Qed.

(** The three kinds of points the flags record. *)
Definition only_in l1 l2 : Prop := ∃ p, inset p l1 ∧ ¬ inset p l2.
Definition in_both l1 l2 : Prop := ∃ p, inset p l1 ∧ inset p l2.

Definition flags_spec l1 l2 (only1 only2 overlap : bool) : Prop :=
  (only1 = true ∨ only_in l1 l2) ∧ (only2 = true ∨ only_in l2 l1) ∧ (overlap = true ∨ in_both l1 l2).

(** What one iteration may do to the flags and to the rest of the vectors. *)
Lemma flags_step l1 l2 l1' l2' (o1 o2 ov o1' o2' ov' : bool) :
  (o1' = true ∧ only_in l1 l2 ∨ o1' = o1 ∧ (only_in l1 l2 ↔ only_in l1' l2')) →
  (o2' = true ∧ only_in l2 l1 ∨ o2' = o2 ∧ (only_in l2 l1 ↔ only_in l2' l1')) →
  (ov' = true ∧ in_both l1 l2 ∨ ov' = ov ∧ (in_both l1 l2 ↔ in_both l1' l2')) →
  flags_spec l1' l2' o1' o2' ov' ↔ flags_spec l1 l2 o1 o2 ov.
Proof.
  unfold flags_spec. intros [[-> H1]|[-> H1]] [[-> H2]|[-> H2]] [[-> H3]|[-> H3]];
    rewrite ?H1, ?H2, ?H3; tauto.
Qed.

Lemma flags_all l1 l2 : flags_spec l1 l2 true true true.
Proof. unfold flags_spec. tauto. Qed.

(** Decides a goal on the points of two sets, given what bounds their tails. *)
#[local] Ltac point q :=
  repeat match goal with
  | H : ∀ p, _ → _ < p |- _ => specialize (H q)
  | H : ∀ p, _ ∨ ¬ _ |- _ => specialize (H q)
  | H : ∀ p, inset p _ ↔ _ |- _ => rewrite ?H; clear H
  end;
  intuition lia.

Lemma strictly_spec lo1 lo2 l1 l2 only1 only2 overlap :
  norm_from lo1 l1 → norm_from lo2 l2 →
  strictly_loop l1 l2 only1 only2 overlap = true ↔ flags_spec l1 l2 only1 only2 overlap.
Proof.
  revert lo1 lo2 l2 only1 only2 overlap.
  induction l1 as [|i1 l1 IH1]; intros lo1 lo2 l2 only1 only2 overlap H1 H2.
  { unfold flags_spec, only_in, in_both. pose proof inset_nil as Hn. destruct l2 as [|i2 l2]; simpl.
    - destruct only1, only2, overlap; simpl; naive_solver.
    - assert (∃ p, inset p (i2 :: l2)) by by apply (norm_inset_nonempty lo2).
      destruct only1, only2, overlap; simpl; naive_solver. }
  revert lo2 only1 only2 overlap H2. induction l2 as [|i2 l2 IH2]; intros lo2 only1 only2 overlap H2.
  { unfold flags_spec, only_in, in_both. pose proof inset_nil as Hn. simpl.
    assert (∃ p, inset p (i1 :: l1)) by by apply (norm_inset_nonempty lo1).
    destruct only1, only2, overlap; simpl; naive_solver. }
  pose proof H1 as (Hl1 & Hi1 & Hn1). pose proof H2 as (Hl2 & Hi2 & Hn2).
  pose proof (λ p, norm_above _ _ p Hn1) as Ha1. pose proof (λ p, norm_above _ _ p Hn2) as Ha2.
  specialize (IH2 (end_ i2)). rewrite strictly_cons.
  assert (∀ p, inset p (i1 :: l1) ↔ within p i1 ∨ inset p l1) as E1 by (intros; apply inset_cons).
  assert (∀ p, inset p (i2 :: l2) ↔ within p i2 ∨ inset p l2) as E2 by (intros; apply inset_cons).
  unfold within in *.
  assert (∀ p, inset p l1 ∨ ¬ inset p l1) as D1 by (intros; destruct (decide (inset p l1)); auto).
  assert (∀ p, inset p l2 ∨ ¬ inset p l2) as D2 by (intros; destruct (decide (inset p l2)); auto).
  assert (∀ k1 k2 o1 o2 ov (b : bool) (r : bool),
    (flags_spec k1 k2 o1 o2 ov ↔ flags_spec (i1 :: l1) (i2 :: l2) only1 only2 overlap) →
    (r = true ↔ flags_spec k1 k2 o1 o2 ov) → (b = true → o1 && o2 && ov = true) →
    (if b then true else r) = true ↔ flags_spec (i1 :: l1) (i2 :: l2) only1 only2 overlap) as Hstep.
  { intros k1 k2 o1 o2 ov b r Hf Hr Hb. destruct b; [|by rewrite Hr].
    split; [intros _; apply Hf|done]. destruct o1, o2, ov; try (by specialize (Hb eq_refl)).
    apply flags_all. }
  destruct (Z.leb_spec (end_ i1) (begin i2)) as [Hc|Hc].
  { eapply (Hstep l1 (i2 :: l2) true only2 overlap); [|by eapply IH1|by destruct only2, overlap].
    apply flags_step; [left; split; [done|]; exists (begin i1)|right; split; [done|]; unfold only_in; f_equiv; intros p
        |right; split; [done|]; unfold in_both; f_equiv; intros p].
    all: try (point (begin i1)).
    all: point p. }
  destruct (Z.leb_spec (end_ i2) (begin i1)) as [Hd|Hd].
  { eapply (Hstep (i1 :: l1) l2 only1 true overlap); [|by eapply IH2|by destruct only1, overlap].
    apply flags_step; [right; split; [done|]; unfold only_in; f_equiv; intros p
      |left; split; [done|]; exists (begin i2)|right; split; [done|]; unfold in_both; f_equiv; intros p].
    2: point (begin i2).
    all: point p. }
  destruct (Z.eqb_spec (begin i2) (begin i1)) as [Hb|Hb], (Z.eqb_spec (end_ i2) (end_ i1)) as [He|He]; cbn [andb].
  { eapply (Hstep l1 l2 only1 only2 true); [|by eapply IH1|by destruct only1, only2].
    apply flags_step; [right; split; [done|]; unfold only_in; f_equiv; intros p
      |right; split; [done|]; unfold only_in; f_equiv; intros p|left; split; [done|]; exists (begin i1)].
    3: point (begin i1).
    all: point p. }
  all: rewrite !Z.geb_leb.
  all: destruct (Z.leb_spec (begin i2) (begin i1)), (Z.leb_spec (end_ i1) (end_ i2)); try lia; cbn [andb].
  all: try (eapply (Hstep l1 (i2 :: l2) only1 true true); [|by eapply IH1|by destruct only1];
    apply flags_step; [right; split; [done|]; unfold only_in; f_equiv; intros p; point p
      |left; split; [done|]|left; split; [done|]; exists (begin i1); point (begin i1)];
    (exists (begin i2); point (begin i2)) || (exists (end_ i1); point (end_ i1))).
  all: destruct (Z.leb_spec (begin i1) (begin i2)), (Z.leb_spec (end_ i2) (end_ i1)); try lia; cbn [andb].
  all: try (eapply (Hstep (i1 :: l1) l2 true only2 true); [|by eapply IH2|by destruct only2];
    apply flags_step; [left; split; [done|]|right; split; [done|]; unfold only_in; f_equiv; intros p; point p
      |left; split; [done|]; exists (begin i2); point (begin i2)];
    (exists (begin i1); point (begin i1)) || (exists (end_ i2); point (end_ i2))).
  - split; [intros _|done]. unfold flags_spec. split_and!; right.
    + exists (end_ i2). point (end_ i2).
    + exists (begin i2). point (begin i2).
    + exists (begin i1). point (begin i1).
  - split; [intros _|done]. unfold flags_spec. split_and!; right.
    + exists (begin i1). point (begin i1).
    + exists (end_ i1). point (end_ i1).
    + exists (begin i2). point (begin i2).
Qed.

Lemma Intersect_points s t :
  Normalized s → Normalized t →
  Normalized (Intersect s t) ∧
  ∀ p, inset p (intervals_ (Intersect s t)) ↔ inset p (intervals_ s) ∧ inset p (intervals_ t).
Proof.
  intros [[lo1 H1] _] [[lo2 H2] _]. unfold Intersect.
  destruct (intersect_spec lo1 lo2 _ _ H1 H2) as (out & -> & Hn & Hp).
  split; [|done]. by split; [eexists|].
Qed.

Lemma Complement_points s maxval :
  Normalized s →
  Normalized (Complement s maxval) ∧
  (∀ p, 0 ≤ p → inset p (intervals_ (Complement s maxval)) ↔ p < maxval ∧ ¬ inset p (intervals_ s)) ∧
  ((∀ p, inset p (intervals_ s) → 0 ≤ p) → ∀ p, inset p (intervals_ (Complement s maxval)) → 0 ≤ p).
Proof.
  intros [[lo H1] _]. unfold Complement.
  destruct (complement_0 lo maxval _ H1) as (out & -> & Hn & Hp). by split.
Qed.

Lemma last_end lo l i :
  norm_from lo l → last l = Some i → lo < end_ i ∧ ∀ p, inset p l → p < end_ i.
Proof.
  revert lo. induction l as [|j l IH]; intros lo; [done|]. intros (? & ? & Hl) Hlast.
  destruct l as [|k l].
  - injection Hlast as ->. split; [lia|]. intros p [?|?%inset_nil]%inset_cons; [lia|done].
  - destruct (IH _ Hl Hlast) as [? Hp]. split; [lia|].
    intros p [?|?]%inset_cons; [lia|by apply Hp].
Qed.

(** C12: Set operations.  On normalized sets, [Intersect], [Complement] and
[Difference] return normalized sets with exact counts: the intersection; the
points of [0, maxval) outside the set, if it has no negative points; the
difference, if the set that is subtracted from has none. *)
Theorem set_operations_correct (s t : IntervalSet) (maxval : Z) :
  Normalized s → Normalized t → (∀ p, inset p (intervals_ s) → 0 ≤ p) →
  Normalized (Intersect s t) ∧ Normalized (Complement s maxval) ∧ Normalized (Difference s t) ∧
  ∀ p,
    (inset p (intervals_ (Intersect s t)) ↔ inset p (intervals_ s) ∧ inset p (intervals_ t)) ∧
    (inset p (intervals_ (Complement s maxval)) ↔ 0 ≤ p < maxval ∧ ¬ inset p (intervals_ s)) ∧
    (inset p (intervals_ (Difference s t)) ↔ inset p (intervals_ s) ∧ ¬ inset p (intervals_ t)).
Proof.
  intros Hs Ht Hpos. destruct (Intersect_points s t Hs Ht) as [Hi Hip].
  destruct (Complement_points s maxval Hs) as (Hc & Hcp & Hcpos). specialize (Hcpos Hpos).
  assert (Normalized (Difference s t) ∧ ∀ p, inset p (intervals_ (Difference s t)) ↔
    inset p (intervals_ s) ∧ ¬ inset p (intervals_ t)) as [Hd Hdp].
  { unfold Difference. destruct (last (intervals_ s)) as [i|] eqn:El.
    - destruct (Complement_points t (end_ i) Ht) as (Hct & Hctp & _).
      destruct (Intersect_points s _ Hs Hct) as [Hsc Hscp]. split; [done|]. intros p. rewrite Hscp.
      destruct Hs as [[lo Hn] _]. split.
      + intros [Hp Hp']. specialize (Hpos p Hp). apply Hctp in Hp' as [_ ?]; done.
      + intros [Hp Hp']. specialize (Hpos p Hp). split; [done|]. apply Hctp; [done|].
        split; [by eapply (last_end lo)|done].
    - apply last_None in El. rewrite El. split.
      + split; [by exists 0|done].
      + intros p. pose proof (inset_nil p). tauto. }
  split_and!; [done..|]. intros p. split_and!; [apply Hip| |apply Hdp].
  split; [intros Hp; specialize (Hcpos p Hp)|intros [[Hp ?] ?]].
  - apply Hcp in Hp as [? ?]; [|done]. split; [lia|done].
  - apply Hcp; [lia|]. split; [lia|done].
Qed.

Lemma eqb_spec l k :
  (zlen l =? zlen k) && forallb (λ q, (begin q.1 =? begin q.2) && (end_ q.1 =? end_ q.2)) (zip l k) = true
    ↔ l = k.
Proof.
  split.
  - intros [Hlen Hall]%andb_true_iff. apply Z.eqb_eq in Hlen. revert k Hlen Hall.
    induction l as [|i l IH]; intros [|j k]; rewrite ?zlen_cons; unfold zlen; simpl; try lia; [done|].
    intros Hlen [[Hb He]%andb_true_iff Hall]%andb_true_iff. apply Z.eqb_eq in Hb, He.
    f_equal; [destruct i, j; simpl in *; congruence|]. apply IH; [unfold zlen; lia|done].
  - intros <-. rewrite Z.eqb_refl. simpl. induction l as [|i l IH]; simpl; [done|].
    by rewrite !Z.eqb_refl, IH.
Qed.

(** C13: Set predicates.  On normalized sets membership, equality, overlap,
strict overlap (each set has a point the other lacks and they share one) and
inclusion are decided as defined, on every path through the two vectors. *)
Theorem set_predicates_correct (s t : IntervalSet) :
  Normalized s → Normalized t →
  (∀ p, IS_Member s p = true ↔ inset p (intervals_ s)) ∧
  (IS_eqb s t = true ↔ ∀ p, inset p (intervals_ s) ↔ inset p (intervals_ t)) ∧
  (Overlaps s t = true ↔ in_both (intervals_ s) (intervals_ t)) ∧
  (StrictlyOverlaps s t = true ↔ only_in (intervals_ s) (intervals_ t) ∧
     only_in (intervals_ t) (intervals_ s) ∧ in_both (intervals_ s) (intervals_ t)) ∧
  (Contains s t = true ↔ ∀ p, inset p (intervals_ t) → inset p (intervals_ s)).
Proof.
  intros [[lo1 H1] Hc1] [[lo2 H2] Hc2]. split_and!.
  - intros p. unfold IS_Member. by eapply Member_loop.
  - unfold IS_eqb, IS_Size. rewrite eqb_spec. split; [by intros ->|]. intros Hp. by eapply normal_unique.
  - by eapply overlaps_spec.
  - unfold StrictlyOverlaps. rewrite (strictly_spec lo1 lo2) by done. unfold flags_spec. intuition done.
  - unfold Contains. rewrite Hc1, Hc2, Z.gtb_ltb.
    destruct (Z.ltb_spec (zlen (points (intervals_ s))) (zlen (points (intervals_ t)))) as [Hlt|];
      [|by eapply contains_spec].
    split; [done|]. intros Hsub.
    assert (length (points (intervals_ t)) ≤ length (points (intervals_ s)))%nat; [|unfold zlen in Hlt; lia].
    apply submseteq_length, NoDup_submseteq; [by eapply points_NoDup|].
    intros p. rewrite !inset_points. apply Hsub.
Qed.
End operations.

(** * Instances *)

Definition raw : IntervalSet := IntervalSet_new [MkInterval 6 8; MkInterval 1 3; MkInterval 3 4; MkInterval 5 5].
Definition sample : IntervalSet := MkSet [MkInterval 1 4; MkInterval 6 8] 5.
Definition other : IntervalSet := MkSet [MkInterval 2 7] 5.

Lemma sample_normalized : Normalized sample.
Proof. split; [exists 0; simpl; lia|done]. Qed.

Lemma other_normalized : Normalized other.
Proof. split; [exists 0; simpl; lia|done]. Qed.

Lemma Normalize_correct_witness : Normalize raw = sample ∧ Normalized (Normalize raw).
Proof.
  split; [by vm_compute|]. apply Normalize_correct.
  repeat constructor; unfold valid_interval; simpl; lia.
Defined.

Lemma set_operations_correct_witness :
  Difference sample other = MkSet [MkInterval 1 2; MkInterval 7 8] 2 ∧
  Normalized (Difference sample other) ∧
  ∀ p, inset p (intervals_ (Difference sample other)) ↔
    inset p (intervals_ sample) ∧ ¬ inset p (intervals_ other).
Proof.
  split; [by vm_compute|].
  destruct (set_operations_correct sample other 0 sample_normalized other_normalized)
    as (_ & _ & Hn & Hp).
  - intros p. simpl. rewrite !inset_cons. simpl. pose proof (inset_nil p). intuition lia.
  - split; [done|]. intros p. apply Hp.
Defined.

Lemma set_predicates_correct_witness :
  StrictlyOverlaps sample other = true ∧ only_in (intervals_ sample) (intervals_ other).
Proof.
  destruct (set_predicates_correct sample other sample_normalized other_normalized)
    as (_ & _ & _ & Hs & _).
  assert (StrictlyOverlaps sample other = true) as E by by vm_compute.
  split; [done|]. by apply Hs.
Defined.

(** The complement in [0, 4) of a set of negative points has a negative point. *)
Lemma Complement_negative :
  intervals_ (Complement (MkSet [MkInterval (-5) (-3)] 2) 4) = [MkInterval (-3) 4].
Proof. done. Qed.
