(* ===== verification/Heap.v ===== *)
(** The binary heap with keys of openfst/lib/heap.h.  Values are indexed by
the key that [Insert] returns, through the vector [pos_]; keys are reused after
[Pop].  The heap is refined to the finite map from its live keys to their
values.  An access outside a vector is [None], and so is a loop that runs out
of its fuel, the size of the heap, which is proved not to happen. *)
From S2P Require Import Prelude.
Local Open Scope Z_scope.

(* heap.h:186-188 Heap *)
Record Heap (V : Type) := MkHeap { pos_ : list Z; elements_ : list (V * Z); size_ : Z }.
Arguments MkHeap {_} _ _ _.
Arguments pos_ {_} _.
Arguments elements_ {_} _.
Arguments size_ {_} _.

(* heap.h:124-126 Left *)
Definition Left (i : Z) : Z := 2 * (i + 1) - 1.
(* heap.h:129-131 Right *)
Definition Right (i : Z) : Z := 2 * (i + 1).
(* heap.h:134-136 Parent *)
Definition Parent (i : Z) : Z := Z.quot (i - 1) 2.

Section operations.
Context {V : Type} (comp_ : V → V → bool).
Implicit Types (h : Heap V) (value : V) (i : Z).

(* heap.h:52-52 Heap *)
Definition Heap_new : Heap V := MkHeap [] [] 0.

(** [elements_[i].value]. *)
Definition value_at h i : option V := fst <$> (elements_ h).[i].

(* heap.h:144-149 Swap *)
Definition Swap h (j k : Z) : option (Heap V) :=
  if j =? k then Some h else
  ej ← (elements_ h).[j];
  ek ← (elements_ h).[k];
  pos ← (pos_ h).[ej.2 <- k];
  pos ← pos.[ek.2 <- j];
  elements ← (elements_ h).[j <- ek];
  elements ← elements.[k <- ej];
  Some (MkHeap pos elements (size_ h)).

(** The choice of [largest] in [Heapify]. *)

(* heap.h:154-160 Heapify *)
Definition largest_of h i : option Z :=
  let l := Left i in
  let r := Right i in
  largest ← (if l <? size_ h
             then vl ← value_at h l; vi ← value_at h i; Some (if comp_ vl vi then l else i)
             else Some i);
  if r <? size_ h
  then vr ← value_at h r; vm ← value_at h largest; Some (if comp_ vr vm then r else largest)
  else Some largest.

(* heap.h:152-168 Heapify *)
Fixpoint Heapify (fuel : nat) h i : option (Heap V) :=
  match fuel with
  | O => None
  | S fuel =>
      largest ← largest_of h i;
      if negb (largest =? i) then
        h ← Swap h i largest;
        Heapify fuel h largest
      else Some h
  end.

(** The private [Insert], which moves the element at [i] up. *)

(* heap.h:171-178 Insert *)
Fixpoint sift_up (fuel : nat) h value i : option (Heap V * Z) :=
  match fuel with
  | O => None
  | S fuel =>
      up ← (if i >? 0 then vp ← value_at h (Parent i); Some (negb (comp_ vp value)) else Some false);
      if up : bool then
        h ← Swap h i (Parent i);
        sift_up fuel h value (Parent i)
      else
        e ← (elements_ h).[i];
        Some (h, e.2)
  end.

Definition fuel_of h : nat := S (Z.to_nat (size_ h)).

(* heap.h:55-65 Insert *)
Definition Insert h value : option (Heap V * Z) :=
  h ← (if size_ h <? zlen (elements_ h) then
         e ← (elements_ h).[size_ h];
         elements ← (elements_ h).[size_ h <- (value, e.2)];
         pos ← (pos_ h).[e.2 <- size_ h];
         Some (MkHeap pos elements (size_ h))
       else Some (MkHeap (pos_ h ++ [size_ h]) (elements_ h ++ [(value, size_ h)]) (size_ h)));
  let h := MkHeap (pos_ h) (elements_ h) (size_ h + 1) in
  sift_up (fuel_of h) h value (size_ h - 1).

(* heap.h:71-80 Update *)
Definition Update h (key : Z) value : option (Heap V) :=
  i ← (pos_ h).[key];
  vp ← value_at h (Parent i);
  let is_better := comp_ value vp in
  e ← (elements_ h).[i];
  elements ← (elements_ h).[i <- (value, e.2)];
  let h := MkHeap (pos_ h) elements (size_ h) in
  if is_better then fst <$> sift_up (fuel_of h) h value i else Heapify (fuel_of h) h i.

(* heap.h:94-97 Top *)
Definition Top h : option V := if size_ h =? 0 then None else value_at h 0.

(* heap.h:83-90 Pop *)
Definition Pop h : option (Heap V * V) :=
  top ← Top h;
  h ← Swap h 0 (size_ h - 1);
  let h := MkHeap (pos_ h) (elements_ h) (size_ h - 1) in
  h ← Heapify (fuel_of h) h 0;
  Some (h, top).

(* heap.h:100-103 Get *)
Definition Get h (key : Z) : option V := i ← (pos_ h).[key]; value_at h i.

(* heap.h:106-106 Empty *)
Definition Heap_Empty h : bool := size_ h =? 0.

(* heap.h:108-108 Clear *)
Definition Heap_Clear h : Heap V := MkHeap (pos_ h) (elements_ h) 0.
End operations.

(** * The representation *)

Section representation.
Context {V : Type}.
Implicit Types (h : Heap V) (v : V) (i j k : Z).

(** [pos_] inverts the keys of the elements, live or not. *)
Record indexed h : Prop := {
  indexed_size : 0 ≤ size_ h ≤ zlen (elements_ h);
  indexed_len : zlen (pos_ h) = zlen (elements_ h);
  indexed_pos : ∀ i v k, (elements_ h).[i] = Some (v, k) → (pos_ h).[k] = Some i;
}.

(** The key [k] is in the heap, with value [v]. *)
Definition live h (k : Z) v : Prop := ∃ i, 0 ≤ i < size_ h ∧ (elements_ h).[i] = Some (v, k).

Lemma live_fun h k v w : indexed h → live h k v → live h k w → v = w.
Proof.
  intros Hh (i & _ & Hi) (j & _ & Hj). pose proof (indexed_pos h Hh _ _ _ Hi).
  pose proof (indexed_pos h Hh _ _ _ Hj). assert (i = j) as -> by congruence. congruence.
Qed.

Definition swapped (j k i : Z) : Z := if decide (i = j) then k else if decide (i = k) then j else i.

Lemma swapped_invol j k i : swapped j k (swapped j k i) = i.
Proof. unfold swapped. repeat case_decide; congruence. Qed.

Lemma vget_swap {A} (l l1 l2 : list A) j k (x y : A) i :
  l.[j] = Some x → l.[k] = Some y → l.[j <- y] = Some l1 → l1.[k <- x] = Some l2 →
  l2.[i] = l.[swapped j k i].
Proof.
  intros Hj Hk H1 H2. rewrite (vget_vset _ _ _ _ _ H2). unfold swapped.
  case_decide as E; [subst|rewrite (vget_vset _ _ _ _ _ H1)]; repeat case_decide; congruence.
Qed.

Lemma Swap_spec h j k :
  indexed h → 0 ≤ j < zlen (elements_ h) → 0 ≤ k < zlen (elements_ h) →
  ∃ h', Swap h j k = Some h' ∧ indexed h' ∧ size_ h' = size_ h ∧
    zlen (elements_ h') = zlen (elements_ h) ∧
    ∀ i, (elements_ h').[i] = (elements_ h).[swapped j k i].
Proof.
  intros Hh Hj Hk. unfold Swap. destruct (Z.eqb_spec j k) as [<-|Hne].
  { exists h. split_and!; [done..|]. intros i. f_equal. unfold swapped. by repeat case_decide. }
  destruct (vget_in_range _ _ Hj) as [[vj kj] Ej]. destruct (vget_in_range _ _ Hk) as [[vk kk] Ek].
  rewrite Ej, Ek. simpl.
  pose proof (indexed_pos h Hh _ _ _ Ej) as Pj. pose proof (indexed_pos h Hh _ _ _ Ek) as Pk.
  assert (∃ p1, (pos_ h).[kj <- k] = Some p1) as [p1 H1] by (eexists; apply vset_is_Some; by eapply vget_range).
  rewrite H1. simpl.
  assert (∃ p2, p1.[kk <- j] = Some p2) as [p2 H2].
  { eexists. apply vset_is_Some. rewrite (vset_len _ _ _ _ H1). by eapply vget_range. }
  rewrite H2. simpl.
  assert (∃ e1, (elements_ h).[j <- (vk, kk)] = Some e1) as [e1 H3] by (eexists; by apply vset_is_Some).
  rewrite H3. simpl.
  assert (∃ e2, e1.[k <- (vj, kj)] = Some e2) as [e2 H4].
  { eexists. apply vset_is_Some. by rewrite (vset_len _ _ _ _ H3). }
  rewrite H4. simpl. eexists. split; [done|].
  pose proof (λ i, vget_swap _ _ _ _ _ _ _ i Ej Ek H3 H4) as Hsw.
  assert (zlen e2 = zlen (elements_ h)) as Hlen
    by by rewrite (vset_len _ _ _ _ H4), (vset_len _ _ _ _ H3).
  split; [split|split_and!; done]; simpl.
  - rewrite Hlen. apply Hh.
  - rewrite (vset_len _ _ _ _ H2), (vset_len _ _ _ _ H1), Hlen. apply Hh.
  - intros i v q. rewrite Hsw. intros Hi. pose proof (indexed_pos h Hh _ _ _ Hi) as Hq.
    rewrite (vget_vset _ _ _ _ _ H2), (vget_vset _ _ _ _ _ H1). unfold swapped in *.
    repeat case_decide; subst; congruence.
Qed.

Lemma Swap_live h h' j k a v :
  indexed h → 0 ≤ j < size_ h → 0 ≤ k < size_ h → size_ h' = size_ h →
  (∀ i, (elements_ h').[i] = (elements_ h).[swapped j k i]) → live h' a v ↔ live h a v.
Proof.
  intros Hh Hj Hk Hsz Hel. unfold live. rewrite Hsz. setoid_rewrite Hel.
  assert (∀ i, 0 ≤ i < size_ h → 0 ≤ swapped j k i < size_ h) as Hr
    by (intros i; unfold swapped; repeat case_decide; lia).
  split; intros (i & Hi & Hv); exists (swapped j k i).
  - split; [by apply Hr|done].
  - split; [by apply Hr|]. by rewrite swapped_invol.
Qed.
End representation.

(** * The order *)

Section order.
Context {V : Type} (comp_ : V → V → bool).
(** The comparison is a strict weak order: "not better" is a total preorder. *)
Context (comp_asym : ∀ a b, comp_ a b = true → comp_ b a = false).
Context (comp_trans : ∀ a b c, comp_ b a = false → comp_ c b = false → comp_ c a = false).
Implicit Types (h : Heap V) (v : V) (i j k : Z).

Lemma Parent_spec i : 0 < i → 2 * Parent i + 1 ≤ i ≤ 2 * Parent i + 2.
Proof.
  intros Hi. unfold Parent. rewrite Z.quot_div_nonneg by lia.
  pose proof (Z.div_mod (i - 1) 2). pose proof (Z.mod_pos_bound (i - 1) 2). lia.
Qed.

Lemma Parent_child i c : 0 ≤ i → 0 < c → Parent c = i ↔ c = Left i ∨ c = Right i.
Proof. intros ? ?. pose proof (Parent_spec c). unfold Left, Right. lia. Qed.

(** The values at [i] and [j] are in order. *)
Definition ordered h i j : Prop :=
  ∀ v w, value_at h i = Some v → value_at h j = Some w → comp_ w v = false.

Definition heap_order h : Prop := ∀ j, 0 < j < size_ h → ordered h (Parent j) j.

(** Everything is in order but the element at [i], above or below. *)
Definition skips h i : Prop :=
  ∀ c, 0 < i → 0 < c < size_ h → Parent c = i → ordered h (Parent i) c.
Definition up_inv h i : Prop :=
  (∀ j, 0 < j < size_ h → j ≠ i → ordered h (Parent j) j) ∧ skips h i.
Definition down_inv h i : Prop :=
  (∀ j, 0 < j < size_ h → Parent j ≠ i → ordered h (Parent j) j) ∧ skips h i.

Lemma value_in_range h i : indexed h → 0 ≤ i < size_ h → ∃ v k, (elements_ h).[i] = Some (v, k).
Proof.
  intros Hh Hi. pose proof (indexed_size h Hh).
  destruct (vget_in_range (elements_ h) i) as [[v k] ?]; [lia|]. by exists v, k.
Qed.

Lemma value_at_Some h i v k : (elements_ h).[i] = Some (v, k) → value_at h i = Some v.
Proof. unfold value_at. by intros ->. Qed.

(** The values of a heap whose elements were swapped. *)
Lemma value_at_swap h h' j k i :
  (∀ i, (elements_ h').[i] = (elements_ h).[swapped j k i]) →
  value_at h' i = value_at h (swapped j k i).
Proof. unfold value_at. by intros ->. Qed.

Lemma ordered_trans h i j k v :
  value_at h j = Some v → ordered h i j → ordered h j k → ordered h i k.
Proof. intros Hj Hij Hjk a c Ha Hc. eapply comp_trans; [by apply Hij|by apply Hjk]. Qed.

Lemma ordered_values h h' a b a' b' :
  value_at h' a' = value_at h a → value_at h' b' = value_at h b → ordered h a b → ordered h' a' b'.
Proof. unfold ordered. by intros -> ->. Qed.

Definition same_content h h' : Prop :=
  indexed h' ∧ size_ h' = size_ h ∧ zlen (elements_ h') = zlen (elements_ h) ∧
  ∀ k v, live h' k v ↔ live h k v.

Lemma sift_up_spec fuel h value i k :
  indexed h → 0 ≤ i < size_ h → (elements_ h).[i] = Some (value, k) → up_inv h i →
  (Z.to_nat i < fuel)%nat →
  ∃ h', sift_up comp_ fuel h value i = Some (h', k) ∧ same_content h h' ∧ heap_order h'.
Proof.
  revert h i. induction fuel as [|fuel IH]; intros h i Hh Hi Hv [Hup Hskip] Hfuel; [lia|].
  pose proof (indexed_size h Hh) as Hsz. simpl. rewrite Z.gtb_ltb.
  destruct (Z.ltb_spec 0 i) as [Hpos|Hz]; cbn [mbind option_bind].
  2:{ rewrite Hv. exists h. split_and!; [done|by split_and!|].
      intros j Hj. apply Hup; lia. }
  pose proof (Parent_spec i Hpos) as Hp.
  destruct (value_in_range h (Parent i) Hh) as (vp & kp & Hvp); [lia|].
  rewrite (value_at_Some _ _ _ _ Hvp). cbn [mbind option_bind].
  destruct (comp_ vp value) eqn:Hc; cbn [negb].
  { rewrite Hv. exists h. split_and!; [done|by split_and!|].
    intros j Hj. destruct (decide (j = i)) as [->|]; [|by apply Hup].
    intros a b Ha Hb. rewrite (value_at_Some _ _ _ _ Hvp) in Ha.
    rewrite (value_at_Some _ _ _ _ Hv) in Hb. simplify_eq. by apply comp_asym. }
  destruct (Swap_spec h i (Parent i) Hh) as (h1 & -> & Hh1 & Hsz1 & Hlen1 & Hel); [lia..|].
  cbn [mbind option_bind].
  assert (∀ a v, live h1 a v ↔ live h a v) as Hlive by (intros; apply (Swap_live h h1 i (Parent i)); [done|lia|lia|done|done]).
  pose proof (λ j, value_at_swap h h1 i (Parent i) j Hel) as Hval.
  assert (ordered h i (Parent i)) as Hrev.
  { intros a b Ha Hb. rewrite (value_at_Some _ _ _ _ Hvp) in Hb.
    rewrite (value_at_Some _ _ _ _ Hv) in Ha. by simplify_eq. }
  destruct (IH h1 (Parent i)) as (h' & Hs & (? & ? & ? & Hl) & Ho); [done|lia| | |lia|].
  - rewrite Hel. unfold swapped. rewrite decide_False, decide_True by lia. done.
  - assert (∀ j, j ≠ i → j ≠ Parent i → value_at h1 j = value_at h j) as Hoth.
    { intros j ? ?. rewrite Hval. unfold swapped. by rewrite !decide_False. }
    assert (value_at h1 i = value_at h (Parent i)) as Hvi.
    { rewrite Hval. unfold swapped. by rewrite decide_True. }
    assert (value_at h1 (Parent i) = value_at h i) as Hvpi.
    { rewrite Hval. unfold swapped. by rewrite decide_False, decide_True by lia. }
    assert (value_at h (Parent i) = Some vp) as Hsome by by eapply value_at_Some.
    split; [intros j Hj Hjp|intros c Hp0 Hc0 Hcp; pose proof (Parent_spec (Parent i) Hp0)].
    + pose proof (Parent_spec j ltac:(lia)).
      destruct (decide (j = i)) as [->|Hji]; [by apply (ordered_values h h1 i (Parent i))|].
      destruct (decide (Parent j = i)) as [Hji'|Hji'].
      { apply (ordered_values h h1 (Parent i) j); [by rewrite Hji'|by apply Hoth|].
        apply Hskip; done || lia. }
      destruct (decide (Parent j = Parent i)) as [Hpp|Hpp].
      { rewrite Hpp. apply (ordered_values h h1 i j); [done|by apply Hoth|].
        eapply ordered_trans; [exact Hsome|exact Hrev|]. rewrite <-Hpp. apply Hup; done || lia. }
      apply (ordered_values h h1 (Parent j) j); [by apply Hoth|by apply Hoth|]. apply Hup; done || lia.
    + assert (ordered h (Parent (Parent i)) (Parent i)) as Hpp by (apply Hup; lia).
      assert (value_at h1 (Parent (Parent i)) = value_at h (Parent (Parent i))) as Hvpp by (apply Hoth; lia).
      destruct (decide (c = i)) as [->|Hci]; [by apply (ordered_values h h1 (Parent (Parent i)) (Parent i))|].
      apply (ordered_values h h1 (Parent (Parent i)) c); [done| |].
      { pose proof (Parent_spec c). apply Hoth; lia. }
      eapply ordered_trans; [exact Hsome|exact Hpp|]. rewrite <-Hcp. apply Hup; lia.
  - exists h'. split; [done|]. split; [|done]. split_and!; [done|congruence|congruence|].
    intros a v. by rewrite Hl.
Qed.

Lemma ordered_refl h i : ordered h i i.
Proof.
  intros a b Ha Hb. rewrite Ha in Hb. injection Hb as <-.
  destruct (comp_ a a) eqn:E; [|done]. pose proof (comp_asym a a E). congruence.
Qed.

Lemma ordered_cases h i j v w :
  value_at h i = Some v → value_at h j = Some w →
  (comp_ w v = true → ordered h j i) ∧ (comp_ w v = false → ordered h i j).
Proof.
  intros Hv Hw. split; intros Hc a b Ha Hb; simplify_eq; [by apply comp_asym|done].
Qed.

Lemma largest_spec h i :
  indexed h → 0 ≤ i < size_ h →
  ∃ m, largest_of comp_ h i = Some m ∧ (m = i ∨ m = Left i ∨ m = Right i) ∧ m < size_ h ∧
    ordered h m i ∧ (Left i < size_ h → ordered h m (Left i)) ∧
    (Right i < size_ h → ordered h m (Right i)).
Proof.
  intros Hh Hi. unfold largest_of. destruct (value_in_range h i Hh Hi) as (vi & ki & Evi).
  apply value_at_Some in Evi.
  assert (∃ m vm, (if Left i <? size_ h
      then vl ← value_at h (Left i); vi ← value_at h i; Some (if comp_ vl vi then Left i else i)
      else Some i) = Some m ∧ value_at h m = Some vm ∧ (m = i ∨ m = Left i) ∧ m < size_ h ∧
      ordered h m i ∧ (Left i < size_ h → ordered h m (Left i))) as (m & vm & -> & Hvm & Hm & Hlt & H1 & H2).
  { destruct (Z.ltb_spec (Left i) (size_ h)).
    - destruct (value_in_range h (Left i) Hh) as (vl & kl & Evl); [unfold Left in *; lia|].
      apply value_at_Some in Evl. rewrite Evl, Evi. cbn [mbind option_bind].
      destruct (ordered_cases h i (Left i) vi vl Evi Evl) as [Ht Hf].
      destruct (comp_ vl vi); eexists _, _; (split; [done|]; split; [eassumption|]);
        split_and!; auto using ordered_refl; lia.
    - exists i, vi. split_and!; auto using ordered_refl; lia. }
  cbn [mbind option_bind]. destruct (Z.ltb_spec (Right i) (size_ h)).
  - destruct (value_in_range h (Right i) Hh) as (vr & kr & Evr); [unfold Right in *; lia|].
    apply value_at_Some in Evr. rewrite Evr, Hvm. cbn [mbind option_bind].
    destruct (ordered_cases h m (Right i) vm vr Hvm Evr) as [Ht Hf]. destruct (comp_ vr vm).
    + exists (Right i). specialize (Ht eq_refl).
      split_and!; eauto using ordered_refl, ordered_trans.
    + exists m. specialize (Hf eq_refl). split_and!; eauto. naive_solver.
  - exists m. split_and!; auto; [naive_solver|lia].
Qed.

Lemma Heapify_spec fuel h i :
  indexed h → 0 ≤ i < size_ h → down_inv h i → (Z.to_nat (size_ h - i) < fuel)%nat →
  ∃ h', Heapify comp_ fuel h i = Some h' ∧ same_content h h' ∧ heap_order h'.
Proof.
  revert h i. induction fuel as [|fuel IH]; intros h i Hh Hi [Hdown Hskip] Hfuel; [lia|].
  pose proof (indexed_size h Hh) as Hsz. simpl.
  destruct (largest_spec h i Hh Hi) as (m & -> & Hm & Hlt & Hmi & Hml & Hmr). cbn [mbind option_bind].
  assert (∀ c, 0 < c < size_ h → Parent c = i → ordered h m c) as Hchild.
  { intros c Hc Hpc. rewrite Parent_child in Hpc by lia.
    destruct Hpc as [-> | ->]; [apply Hml|apply Hmr]; lia. }
  destruct (Z.eqb_spec m i) as [->|Hne]; cbn [negb].
  { exists h. split_and!; [done|by split_and!|]. intros j Hj.
    destruct (decide (Parent j = i)) as [<-|]; [by apply Hchild|by apply Hdown]. }
  assert (0 < m ∧ Parent m = i ∧ i < m) as (Hm0 & Hpm & Him).
  { assert (i < m) by (unfold Left, Right in Hm; lia).
    split_and!; [lia| |lia]. apply Parent_child; [lia|lia|]. naive_solver. }
  destruct (Swap_spec h i m Hh) as (h1 & -> & Hh1 & Hsz1 & Hlen1 & Hel); [lia..|].
  cbn [mbind option_bind].
  assert (∀ a v, live h1 a v ↔ live h a v) as Hlive
    by (intros; apply (Swap_live h h1 i m); [done|lia|lia|done|done]).
  pose proof (λ j, value_at_swap h h1 i m j Hel) as Hval.
  destruct (IH h1 m) as (h' & Hs & (? & ? & ? & Hl) & Ho); [done|lia| |lia|].
  - assert (∀ j, j ≠ i → j ≠ m → value_at h1 j = value_at h j) as Hoth.
    { intros j ? ?. rewrite Hval. unfold swapped. by rewrite !decide_False. }
    assert (value_at h1 i = value_at h m) as Hvi by (rewrite Hval; unfold swapped; by rewrite decide_True).
    assert (value_at h1 m = value_at h i) as Hvm
      by (rewrite Hval; unfold swapped; by rewrite decide_False, decide_True by done).
    split; [intros j Hj Hjm|intros c _ Hc Hcm].
    + pose proof (Parent_spec j ltac:(lia)).
      destruct (decide (Parent j = i)) as [Hji|Hji].
      { rewrite Hji. destruct (decide (j = m)) as [->|].
        - by apply (ordered_values h h1 m i).
        - apply (ordered_values h h1 m j); [done|apply Hoth; lia|by apply Hchild; lia]. }
      destruct (decide (j = i)) as [->|].
      { apply (ordered_values h h1 (Parent i) m); [apply Hoth; lia|done|].
        apply Hskip; done || lia. }
      apply (ordered_values h h1 (Parent j) j); [by apply Hoth|apply Hoth; [done|congruence]|].
      apply Hdown; done || lia.
    + rewrite Hpm. pose proof (Parent_spec c ltac:(lia)).
      apply (ordered_values h h1 m c); [done|apply Hoth; lia|]. rewrite <-Hcm. apply Hdown; lia.
  - exists h'. split; [done|]. split; [|done]. split_and!; [done|congruence|congruence|].
    intros a v. by rewrite Hl.
Qed.

(** The root is the least value. *)
Lemma root_least h i : indexed h → heap_order h → 0 ≤ i < size_ h → ordered h 0 i.
Proof.
  intros Hh Ho. induction (Z.lt_wf 0 i) as [i _ IH]. intros Hi.
  destruct (decide (i = 0)) as [->|]; [apply ordered_refl|].
  pose proof (Parent_spec i ltac:(lia)).
  destruct (value_in_range h (Parent i) Hh) as (v & k & Hv); [lia|].
  eapply ordered_trans; [by eapply value_at_Some|apply IH; lia|apply Ho; lia].
Qed.

(** The map from the keys in the heap to their values. *)
Definition represents h (m : gmap Z V) : Prop :=
  indexed h ∧ heap_order h ∧ ∀ k v, m !! k = Some v ↔ live h k v.

Lemma same_content_represents h h' m :
  (∀ k v, m !! k = Some v ↔ live h k v) → same_content h h' → heap_order h' → represents h' m.
Proof. intros Hm (? & _ & _ & Hl) Ho. split_and!; [done|done|]. intros k v. by rewrite Hl. Qed.

(** The state of [Insert] before the new element moves up. *)
Lemma insert_place h v :
  indexed h →
  ∃ h1 k, (if size_ h <? zlen (elements_ h) then
         e ← (elements_ h).[size_ h];
         elements ← (elements_ h).[size_ h <- (v, e.2)];
         pos ← (pos_ h).[e.2 <- size_ h];
         Some (MkHeap pos elements (size_ h))
       else Some (MkHeap (pos_ h ++ [size_ h]) (elements_ h ++ [(v, size_ h)]) (size_ h))) = Some h1 ∧
    size_ h1 = size_ h ∧ indexed (MkHeap (pos_ h1) (elements_ h1) (size_ h + 1)) ∧
    (elements_ h1).[size_ h] = Some (v, k) ∧ (∀ w, ¬ live h k w) ∧
    ∀ i, 0 ≤ i < size_ h → (elements_ h1).[i] = (elements_ h).[i].
Proof.
  intros Hh. pose proof (indexed_size h Hh) as Hsz. pose proof (indexed_len h Hh) as Hlen.
  destruct (Z.ltb_spec (size_ h) (zlen (elements_ h))) as [Hlt|Hge].
  - destruct (vget_in_range (elements_ h) (size_ h)) as [[w k] Hk]; [lia|]. rewrite Hk.
    pose proof (indexed_pos h Hh _ _ _ Hk) as Hpos.
    assert (∃ el, (elements_ h).[size_ h <- (v, k)] = Some el) as [el Hel] by (eexists; apply vset_is_Some; lia).
    assert ((pos_ h).[k <- size_ h] = Some (<[Z.to_nat k := size_ h]> (pos_ h))) as Hp
      by (apply vset_is_Some; by eapply vget_range).
    cbn [mbind option_bind snd]. rewrite Hel. cbn [mbind option_bind]. rewrite Hp. cbn [mbind option_bind].
    eexists _, k. split; [done|]. cbn [pos_ elements_ size_].
    split_and!; [done| |by eapply vget_vset_eq| |].
    + split; cbn [pos_ elements_ size_].
      * rewrite (vset_len _ _ _ _ Hel). lia.
      * by rewrite zlen_insert, (vset_len _ _ _ _ Hel).
      * intros i x q. rewrite (vget_vset _ _ _ _ _ Hp), (vget_vset _ _ _ _ _ Hel).
        destruct (decide (size_ h = i)) as [<-|].
        -- intros [= _ <-]. by rewrite decide_True.
        -- intros Hi. pose proof (indexed_pos h Hh _ _ _ Hi). case_decide; congruence.
    + intros x (i & Hi & Hx). pose proof (indexed_pos h Hh _ _ _ Hx). simplify_eq. lia.
    + intros i Hi. rewrite (vget_vset _ _ _ _ _ Hel). by rewrite decide_False by lia.
  - assert (size_ h = zlen (elements_ h)) as E by lia.
    eexists _, (size_ h). split; [done|]. cbn [pos_ elements_ size_].
    assert (∀ {A} (l : list A) x, zlen l = size_ h → (l ++ [x]).[size_ h] = Some x) as Hlast.
    { intros A l x Hl. rewrite vget_app, decide_False, Hl, Z.sub_diag by lia. done. }
    split_and!; [done| |by apply Hlast| |].
    + split; cbn [pos_ elements_ size_].
      * rewrite zlen_app. change (zlen [(v, size_ h)]) with 1. lia.
      * rewrite !zlen_app. change (zlen [(v, size_ h)]) with 1. change (zlen [size_ h]) with 1. lia.
      * intros i x q. rewrite vget_app. case_decide as Hi.
        -- intros Hx. apply vget_app_l. by eapply indexed_pos.
        -- intros Hx. assert (i = size_ h) as ->.
           { apply vget_range in Hx. change (zlen [(v, size_ h)]) with 1 in Hx. lia. }
           rewrite E, Z.sub_diag in Hx. injection Hx as _ <-. rewrite <-E. apply Hlast. lia.
    + intros x (i & Hi & Hx). pose proof (indexed_pos h Hh _ _ _ Hx) as Hp%vget_range. lia.
    + intros i Hi. rewrite vget_app. by rewrite decide_True by lia.
Qed.

(** The keys in use once the new element has its place. *)
Lemma inserted_live h h1 k v :
  let h2 := MkHeap (pos_ h1) (elements_ h1) (size_ h + 1) in
  indexed h → (elements_ h1).[size_ h] = Some (v, k) → (∀ w, ¬ live h k w) →
  (∀ i, 0 ≤ i < size_ h → (elements_ h1).[i] = (elements_ h).[i]) →
  ∀ q w, live h2 q w ↔ (q = k ∧ w = v) ∨ (q ≠ k ∧ live h q w).
Proof.
  intros h2 Hh Hk Hfresh Hsame q w. pose proof (indexed_size h Hh). unfold live. simpl. split.
  - intros (i & Hi & Hw). destruct (decide (i = size_ h)) as [->|].
    + left. rewrite Hk in Hw. by injection Hw as -> ->.
    + assert (live h q w) as Hl by (exists i; split; [lia|by rewrite <-Hsame by lia]).
      right. split; [intros ->; by apply (Hfresh w)|done].
  - intros [[-> ->]|[Hne (i & Hi & Hw)]]; [exists (size_ h); split; [lia|done]|].
    exists i. split; [lia|]. by rewrite Hsame.
Qed.

(** C14: Insertion.  [Insert] returns a key that was not in use, and the heap
then maps that key to the value and the other keys as before; no access is out
of range and the loop ends. *)
Theorem Insert_correct h m v :
  represents h m →
  ∃ h' k, Insert comp_ h v = Some (h', k) ∧ m !! k = None ∧ represents h' (<[k:=v]> m).
Proof.
  intros (Hh & Ho & Hm). unfold Insert.
  destruct (insert_place h v Hh) as (h1 & k & -> & Hsz1 & Hh1 & Hk & Hfresh & Hsame).
  cbn [mbind option_bind]. pose proof (indexed_size h Hh).
  replace (size_ (MkHeap (pos_ h1) (elements_ h1) (size_ h1 + 1)) - 1) with (size_ h) by (simpl; lia).
  rewrite Hsz1. set (h2 := MkHeap (pos_ h1) (elements_ h1) (size_ h + 1)) in *.
  assert (∀ i, 0 ≤ i < size_ h → value_at h2 i = value_at h i) as Hval
    by (intros i Hi; unfold value_at; simpl; by rewrite Hsame).
  destruct (sift_up_spec (fuel_of h2) h2 v (size_ h) k) as (h' & Hs & Hc & Ho'); [done|simpl; lia|done| | |].
  - split; [|intros c ? Hc Hpc; simpl in Hc; pose proof (Parent_spec c ltac:(lia)); lia].
    intros j Hj Hne. simpl in Hj. pose proof (Parent_spec j ltac:(lia)).
    apply (ordered_values h h2 (Parent j) j); [apply Hval; lia|apply Hval; lia|]. apply Ho. lia.
  - unfold fuel_of. simpl. lia.
  - exists h', k. split; [done|].
    assert (m !! k = None) as Hnone.
    { apply eq_None_not_Some. intros [w Hw%Hm]. by apply (Hfresh w). }
    split; [done|]. eapply same_content_represents; [|exact Hc|exact Ho'].
    intros q w. pose proof (inserted_live h h1 k v Hh Hk Hfresh Hsame q w) as El.
    cbv zeta in El. fold h2 in El. rewrite El, lookup_insert_Some, Hm. naive_solver.
Qed.

(** Writing a new value for the key at position [i]. *)
Lemma set_element h (m : gmap Z V) i old k v el :
  indexed h → (∀ q w, m !! q = Some w ↔ live h q w) → 0 ≤ i < size_ h →
  (elements_ h).[i] = Some (old, k) → (elements_ h).[i <- (v, k)] = Some el →
  let h1 := MkHeap (pos_ h) el (size_ h) in
  indexed h1 ∧ value_at h1 i = Some v ∧ (∀ j, j ≠ i → value_at h1 j = value_at h j) ∧
  ∀ q w, <[k:=v]> m !! q = Some w ↔ live h1 q w.
Proof.
  intros Hh Hm Hi Hel Hset h1. pose proof (indexed_pos h Hh _ _ _ Hel) as Hpos. pose proof (indexed_size h Hh) as Hsz.
  assert (indexed h1) as Hh1.
  { split; simpl.
    - by rewrite (vset_len _ _ _ _ Hset).
    - rewrite (vset_len _ _ _ _ Hset). by apply Hh.
    - intros j x q. rewrite (vget_vset _ _ _ _ _ Hset).
      destruct (decide (i = j)) as [<-|]; [intros [= _ <-]; done|by apply Hh]. }
  assert (value_at h1 i = Some v) as Hv1.
  { unfold value_at. simpl. by rewrite (vget_vset_eq _ _ _ _ Hset). }
  assert (∀ j, j ≠ i → value_at h1 j = value_at h j) as Hother.
  { intros j Hj. unfold value_at. simpl. by rewrite (vget_vset_ne _ _ _ _ _ Hset). }
  assert (∀ q w, <[k:=v]> m !! q = Some w ↔ live h1 q w) as Hm1.
  { intros q w. rewrite lookup_insert_Some. unfold live. simpl. split.
    - intros [[<- <-]|[Hne (j & Hj & Hw)%Hm]].
      + exists i. split; [done|]. by eapply vget_vset_eq.
      + exists j. split; [done|]. rewrite (vget_vset_ne _ _ _ _ _ Hset); [done|]. intros ->. rewrite Hel in Hw. congruence.
    - intros (j & Hj & Hw). rewrite (vget_vset _ _ _ _ _ Hset) in Hw. case_decide; [left; by simplify_eq|].
      right. split; [|apply Hm; by exists j]. intros <-.
      pose proof (indexed_pos h Hh _ _ _ Hw). congruence. }
  done.
Qed.

(** C15: Update.  [Update] of a key in the heap gives it the new value, better
or worse than the old one, and restores the heap order. *)
Theorem Update_correct h m k v :
  represents h m → is_Some (m !! k) →
  ∃ h', Update comp_ h k v = Some h' ∧ represents h' (<[k:=v]> m).
Proof.
  intros (Hh & Ho & Hm) [old Hold]. apply Hm in Hold as (i & Hi & Hel).
  pose proof (indexed_pos h Hh _ _ _ Hel) as Hpos. pose proof (indexed_size h Hh) as Hsz.
  unfold Update. rewrite Hpos. cbn [mbind option_bind].
  assert (0 ≤ Parent i ≤ i) as HPi.
  { destruct (decide (i = 0)) as [->|]; [by vm_compute|]. pose proof (Parent_spec i ltac:(lia)). lia. }
  destruct (value_in_range h (Parent i) Hh) as (vp & kp & Hvp); [lia|].
  rewrite (value_at_Some _ _ _ _ Hvp), Hel. cbn [mbind option_bind snd].
  assert (∃ el, (elements_ h).[i <- (v, k)] = Some el) as [el Hset] by (eexists; apply vset_is_Some; lia).
  rewrite Hset. cbn [mbind option_bind]. set (h1 := MkHeap (pos_ h) el (size_ h)).
  destruct (set_element h m i old k v el Hh Hm Hi Hel Hset) as (Hh1 & Hv1 & Hother & Hm1). fold h1 in Hh1, Hv1, Hother, Hm1.
  assert (∀ c, 0 < c < size_ h → Parent c = i → 0 < i → ordered h (Parent i) c) as Hacross.
  { intros c Hc <- Hp. destruct (value_in_range h (Parent c) Hh) as (x & q & Hx); [lia|].
    eapply ordered_trans; [by eapply value_at_Some|apply Ho; lia|apply Ho; lia]. }
  assert (skips h1 i) as Hskip.
  { intros c Hp Hc Hpc. simpl in Hc. pose proof (Parent_spec i Hp). pose proof (Parent_spec c ltac:(lia)).
    apply (ordered_values h h1 (Parent i) c); [apply Hother; lia|apply Hother; lia|by apply Hacross]. }
  destruct (comp_ v vp) eqn:Hc.
  - destruct (sift_up_spec (fuel_of h1) h1 v i k) as (h' & -> & Hcont & Ho'); [done|done| | |simpl; unfold fuel_of; simpl; lia|].
    { simpl. by eapply vget_vset_eq. }
    { split; [|done]. intros j Hj Hne. simpl in Hj. pose proof (Parent_spec j ltac:(lia)).
      destruct (decide (Parent j = i)) as [Hji|]; [|by apply (ordered_values h h1 (Parent j) j); [apply Hother|apply Hother|apply Ho]].
      rewrite Hji. intros a b Ha Hb. rewrite Hv1 in Ha. injection Ha as <-. rewrite Hother in Hb by done.
      apply comp_asym in Hc. eapply comp_trans; [exact Hc|].
      destruct (decide (0 < i)) as [Hp|]; [apply (Hacross j); done || by eapply value_at_Some|].
      assert (i = 0) as -> by lia. apply (Ho j); [done| |done]. rewrite Hji. by eapply value_at_Some. }
    exists h'. split; [done|]. by eapply same_content_represents.
  - destruct (Heapify_spec (fuel_of h1) h1 i) as (h' & -> & Hcont & Ho'); [done|done| |unfold fuel_of; simpl; lia|].
    { split; [|done]. intros j Hj Hne. simpl in Hj. pose proof (Parent_spec j ltac:(lia)).
      destruct (decide (j = i)) as [->|]; [|by apply (ordered_values h h1 (Parent j) j); [apply Hother|apply Hother|apply Ho]].
      intros a b Ha Hb. rewrite Hv1 in Hb. injection Hb as <-. rewrite Hother in Ha by lia.
      rewrite (value_at_Some _ _ _ _ Hvp) in Ha. by injection Ha as <-. }
    exists h'. split; [done|]. by eapply same_content_represents.
Qed.

(** The keys in use once the first element changed places with the last one,
which is cut off. *)
Lemma popped_live h h1 k v :
  let h2 := MkHeap (pos_ h1) (elements_ h1) (size_ h1 - 1) in
  indexed h → size_ h1 = size_ h → size_ h ≠ 0 → (elements_ h).[0] = Some (v, k) →
  (∀ i, (elements_ h1).[i] = (elements_ h).[swapped 0 (size_ h - 1) i]) →
  ∀ q w, live h2 q w ↔ q ≠ k ∧ live h q w.
Proof.
  intros h2 Hh Hsz1 Hne Hk Hel q w. pose proof (indexed_size h Hh) as Hsz.
  unfold live. simpl. setoid_rewrite Hel. unfold swapped. split.
  - intros (i & Hi & Hw). destruct (decide (i = 0)) as [->|].
    + split; [|exists (size_ h - 1); split; [lia|done]]. intros ->.
      pose proof (indexed_pos h Hh _ _ _ Hw). pose proof (indexed_pos h Hh _ _ _ Hk).
      assert (size_ h - 1 = 0) by congruence. lia.
    + rewrite decide_False in Hw by lia. split; [|exists i; split; [lia|done]]. intros ->.
      pose proof (indexed_pos h Hh _ _ _ Hw). pose proof (indexed_pos h Hh _ _ _ Hk). congruence.
  - intros [Hq (i & Hi & Hw)]. destruct (decide (i = size_ h - 1)) as [->|].
    + exists 0. assert (size_ h ≠ 1).
      { intros E. rewrite E in Hw. change (1 - 1) with 0 in Hw. congruence. }
      split; [lia|]. by rewrite decide_True.
    + exists i. assert (i ≠ 0) by (intros ->; congruence). split; [lia|]. by rewrite !decide_False.
Qed.

(** C16: Extraction.  [Pop] of a non-empty heap returns a value that no other
value is better than, and takes one key with that value out of the map. *)
Theorem Pop_correct h m :
  represents h m → size_ h ≠ 0 →
  ∃ h' v k, Pop comp_ h = Some (h', v) ∧ m !! k = Some v ∧ represents h' (delete k m) ∧
    ∀ q w, m !! q = Some w → comp_ w v = false.
Proof.
  intros (Hh & Ho & Hm) Hne. pose proof (indexed_size h Hh) as Hsz.
  destruct (value_in_range h 0 Hh) as (v & k & Hk); [lia|]. pose proof (value_at_Some _ _ _ _ Hk) as Hv.
  unfold Pop, Top. rewrite (proj2 (Z.eqb_neq _ _) Hne), Hv. cbn [mbind option_bind].
  destruct (Swap_spec h 0 (size_ h - 1) Hh) as (h1 & -> & Hh1 & Hsz1 & Hlen1 & Hel); [lia..|].
  cbn [mbind option_bind]. set (h2 := MkHeap (pos_ h1) (elements_ h1) (size_ h1 - 1)).
  assert (indexed h2) as Hh2.
  { split; simpl; [lia|by apply Hh1|by apply Hh1]. }
  assert (∀ q w, delete k m !! q = Some w ↔ live h2 q w) as Hm2.
  { intros q w. pose proof (popped_live h h1 k v Hh Hsz1 Hne Hk Hel q w) as El.
    cbv zeta in El. fold h2 in El. rewrite El, lookup_delete_Some, Hm. naive_solver. }
  assert (∀ i, 0 < i → i < size_ h - 1 → value_at h2 i = value_at h i) as Hval.
  { intros i H1 H2. unfold value_at. simpl. rewrite Hel. unfold swapped. by rewrite !decide_False by lia. }
  assert (∃ h', Heapify comp_ (fuel_of h2) h2 0 = Some h' ∧ same_content h2 h' ∧ heap_order h')
    as (h' & -> & Hcont & Ho').
  { destruct (decide (size_ h = 1)) as [E|].
    - exists h2. assert (size_ h2 = 0) as E2 by (simpl; lia).
      split_and!; [|by split_and!|intros j Hj; lia].
      unfold fuel_of. rewrite E2. simpl. unfold largest_of. rewrite E2.
      by vm_compute (Left 0 <? 0); vm_compute (Right 0 <? 0).
    - apply Heapify_spec; [done|simpl; lia| |unfold fuel_of; simpl; lia].
      split; [|by intros c ?]. intros j Hj Hp. simpl in Hj. pose proof (Parent_spec j ltac:(lia)).
      apply (ordered_values h h2 (Parent j) j); [apply Hval; lia|apply Hval; lia|]. apply Ho. lia. }
  cbn [mbind option_bind]. exists h', v, k. split_and!; [done| | |].
  - apply Hm. exists 0. split; [lia|done].
  - by eapply same_content_represents.
  - intros q w (i & Hi & Hw)%Hm. by apply (root_least h i); [|done|lia| |eapply value_at_Some].
Qed.

Lemma Get_correct h m k v : represents h m → m !! k = Some v → Get h k = Some v.
Proof.
  intros (Hh & _ & Hm) (i & _ & Hi)%Hm. unfold Get.
  rewrite (indexed_pos h Hh _ _ _ Hi). simpl. by eapply value_at_Some.
Qed.

Lemma Heap_new_represents : represents Heap_new ∅.
Proof.
  split_and!.
  - split; simpl; [done|done|]. intros i v k Hv. by apply vget_range in Hv; change (zlen (@nil (V * Z))) with 0 in Hv; lia.
  - intros j Hj. simpl in Hj. lia.
  - intros k v. rewrite lookup_empty. split; [done|]. intros (i & Hi & _). simpl in Hi. lia.
Qed.

End order.

(** * The contents, whatever the comparison *)

Section content.
Context {V : Type} (comp_ : V → V → bool).
Implicit Types (h : Heap V) (v : V) (i j k : Z).

Lemma same_content_swap h h1 h' j k :
  indexed h → 0 ≤ j < size_ h → 0 ≤ k < size_ h → size_ h1 = size_ h → zlen (elements_ h1) = zlen (elements_ h) →
  (∀ i, (elements_ h1).[i] = (elements_ h).[swapped j k i]) → same_content h1 h' → same_content h h'.
Proof.
  intros Hh Hj Hk Hsz Hlen Hel (? & ? & ? & Hl). split_and!; [done|congruence|congruence|].
  intros a v. rewrite Hl. by apply (Swap_live h h1 j k).
Qed.

Lemma sift_up_content fuel h value i k :
  indexed h → 0 ≤ i < size_ h → (elements_ h).[i] = Some (value, k) → (Z.to_nat i < fuel)%nat →
  ∃ h', sift_up comp_ fuel h value i = Some (h', k) ∧ same_content h h'.
Proof.
  revert h i. induction fuel as [|fuel IH]; intros h i Hh Hi Hv Hfuel; [lia|].
  pose proof (indexed_size h Hh) as Hsz. simpl. rewrite Z.gtb_ltb.
  destruct (Z.ltb_spec 0 i) as [Hpos|Hz]; cbn [mbind option_bind].
  2:{ rewrite Hv. exists h. by split_and!. }
  pose proof (Parent_spec i Hpos) as Hp.
  destruct (value_in_range h (Parent i) Hh) as (vp & kp & Hvp); [lia|].
  rewrite (value_at_Some _ _ _ _ Hvp). cbn [mbind option_bind].
  destruct (comp_ vp value); cbn [negb]; [rewrite Hv; exists h; by split_and!|].
  destruct (Swap_spec h i (Parent i) Hh) as (h1 & -> & Hh1 & Hsz1 & Hlen1 & Hel); [lia..|].
  cbn [mbind option_bind]. destruct (IH h1 (Parent i)) as (h' & Hs & Hc); [done|lia| |lia|].
  - rewrite Hel. unfold swapped. by rewrite decide_False, decide_True by lia.
  - exists h'. split; [done|]. by apply (same_content_swap h h1 h' i (Parent i)); [done|lia|lia|..].
Qed.

Lemma largest_range h i :
  indexed h → 0 ≤ i < size_ h →
  ∃ m, largest_of comp_ h i = Some m ∧ (m = i ∨ m = Left i ∨ m = Right i) ∧ m < size_ h.
Proof.
  intros Hh Hi. unfold largest_of. destruct (value_in_range h i Hh Hi) as (vi & ki & Evi%value_at_Some).
  assert (∃ m, (if Left i <? size_ h
      then vl ← value_at h (Left i); vi ← value_at h i; Some (if comp_ vl vi then Left i else i)
      else Some i) = Some m ∧ (m = i ∨ m = Left i) ∧ m < size_ h) as (m & -> & Hm & Hlt).
  { destruct (Z.ltb_spec (Left i) (size_ h)); [|exists i; split_and!; auto; lia].
    destruct (value_in_range h (Left i) Hh) as (vl & kl & Evl%value_at_Some); [unfold Left in *; lia|].
    rewrite Evl, Evi. cbn [mbind option_bind]. eexists. split; [done|]. destruct (comp_ vl vi); auto with lia. }
  cbn [mbind option_bind]. destruct (Z.ltb_spec (Right i) (size_ h)); [|exists m; naive_solver].
  destruct (value_in_range h (Right i) Hh) as (vr & kr & Evr%value_at_Some); [unfold Right in *; lia|].
  destruct (value_in_range h m Hh) as (vm & km & Evm%value_at_Some); [unfold Left in *; lia|].
  rewrite Evr, Evm. cbn [mbind option_bind]. eexists. split; [done|]. destruct (comp_ vr vm); naive_solver.
Qed.

Lemma Heapify_content fuel h i :
  indexed h → 0 ≤ i < size_ h → (Z.to_nat (size_ h - i) < fuel)%nat →
  ∃ h', Heapify comp_ fuel h i = Some h' ∧ same_content h h'.
Proof.
  revert h i. induction fuel as [|fuel IH]; intros h i Hh Hi Hfuel; [lia|].
  pose proof (indexed_size h Hh) as Hsz. simpl.
  destruct (largest_range h i Hh Hi) as (m & -> & Hm & Hlt). cbn [mbind option_bind].
  destruct (Z.eqb_spec m i) as [->|Hne]; cbn [negb]; [exists h; by split_and!|].
  assert (i < m) by (unfold Left, Right in Hm; lia).
  destruct (Swap_spec h i m Hh) as (h1 & -> & Hh1 & Hsz1 & Hlen1 & Hel); [lia..|].
  cbn [mbind option_bind]. destruct (IH h1 m) as (h' & Hs & Hc); [done|lia|lia|].
  exists h'. split; [done|]. by apply (same_content_swap h h1 h' i m); [done|lia|lia|..].
Qed.

Lemma Insert_content h v :
  indexed h → ∃ h' k, Insert comp_ h v = Some (h', k) ∧ indexed h' ∧ 0 ≤ k ∧ (∀ w, ¬ live h k w) ∧
    ∀ q w, live h' q w ↔ (q = k ∧ w = v) ∨ (q ≠ k ∧ live h q w).
Proof.
  intros Hh. unfold Insert.
  destruct (insert_place h v Hh) as (h1 & k & -> & Hsz1 & Hh1 & Hk & Hfresh & Hsame).
  cbn [mbind option_bind]. pose proof (indexed_size h Hh).
  replace (size_ (MkHeap (pos_ h1) (elements_ h1) (size_ h1 + 1)) - 1) with (size_ h) by (simpl; lia).
  rewrite Hsz1. set (h2 := MkHeap (pos_ h1) (elements_ h1) (size_ h + 1)) in *.
  destruct (sift_up_content (fuel_of h2) h2 v (size_ h) k) as (h' & Hs & Hi & _ & _ & Hl);
    [done|simpl; lia|done|unfold fuel_of; simpl; lia|].
  exists h', k. split_and!; [done..| |done|].
  - pose proof (indexed_pos h2 Hh1 _ _ _ Hk) as Hr%vget_range. lia.
  - intros q w. rewrite Hl. by apply inserted_live.
Qed.

Lemma Pop_content h :
  indexed h → size_ h ≠ 0 →
  ∃ h' v k, Top h = Some v ∧ Pop comp_ h = Some (h', v) ∧ live h k v ∧ indexed h' ∧
    ∀ q w, live h' q w ↔ q ≠ k ∧ live h q w.
Proof.
  intros Hh Hne. pose proof (indexed_size h Hh) as Hsz.
  destruct (value_in_range h 0 Hh) as (v & k & Hk); [lia|].
  assert (Top h = Some v) as Ht.
  { unfold Top. rewrite (proj2 (Z.eqb_neq _ _) Hne). by apply (value_at_Some _ _ _ _ Hk). }
  unfold Pop. rewrite Ht. cbn [mbind option_bind].
  destruct (Swap_spec h 0 (size_ h - 1) Hh) as (h1 & -> & Hh1 & Hsz1 & Hlen1 & Hel); [lia..|].
  cbn [mbind option_bind]. pose proof (popped_live h h1 k v Hh Hsz1 Hne Hk Hel) as Hl2. cbv zeta in Hl2.
  set (h2 := MkHeap (pos_ h1) (elements_ h1) (size_ h1 - 1)) in *.
  assert (indexed h2) as Hh2 by (split; simpl; [lia|by apply Hh1|by apply Hh1]).
  assert (∃ h', Heapify comp_ (fuel_of h2) h2 0 = Some h' ∧ same_content h2 h') as (h' & -> & Hi & _ & _ & Hl).
  { destruct (decide (size_ h = 1)) as [E|].
    - exists h2. assert (size_ h2 = 0) as E2 by (simpl; lia). split; [|by split_and!].
      unfold fuel_of. rewrite E2. simpl. unfold largest_of. rewrite E2.
      by vm_compute (Left 0 <? 0); vm_compute (Right 0 <? 0).
    - apply Heapify_content; [done|simpl; lia|unfold fuel_of; simpl; lia]. }
  cbn [mbind option_bind]. exists h', v, k. split_and!; [done|done|by exists 0; split; [lia|]|done|].
  intros q w. by rewrite Hl.
Qed.

Lemma Update_content h k v old :
  indexed h → live h k old →
  ∃ h', Update comp_ h k v = Some h' ∧ indexed h' ∧
    ∀ q w, live h' q w ↔ (q = k ∧ w = v) ∨ (q ≠ k ∧ live h q w).
Proof.
  intros Hh (i & Hi & Hel). pose proof (indexed_pos h Hh _ _ _ Hel) as Hpos. pose proof (indexed_size h Hh) as Hsz.
  unfold Update. rewrite Hpos. cbn [mbind option_bind].
  assert (0 ≤ Parent i ≤ i) as HPi.
  { destruct (decide (i = 0)) as [->|]; [by vm_compute|]. pose proof (Parent_spec i ltac:(lia)). lia. }
  destruct (value_in_range h (Parent i) Hh) as (vp & kp & Hvp); [lia|].
  rewrite (value_at_Some _ _ _ _ Hvp), Hel. cbn [mbind option_bind snd].
  assert (∃ el, (elements_ h).[i <- (v, k)] = Some el) as [el Hset] by (eexists; apply vset_is_Some; lia).
  rewrite Hset. cbn [mbind option_bind]. set (h1 := MkHeap (pos_ h) el (size_ h)).
  assert (indexed h1) as Hh1.
  { split; simpl; [by rewrite (vset_len _ _ _ _ Hset)|rewrite (vset_len _ _ _ _ Hset); by apply Hh|].
    intros j x q. rewrite (vget_vset _ _ _ _ _ Hset). case_decide; [subst; by intros [= _ <-]|by apply Hh]. }
  assert (∀ q w, live h1 q w ↔ (q = k ∧ w = v) ∨ (q ≠ k ∧ live h q w)) as Hl1.
  { intros q w. unfold live. simpl. split.
    - intros (j & Hj & Hw). rewrite (vget_vset _ _ _ _ _ Hset) in Hw. case_decide as E; [left; by simplify_eq|].
      right. split; [|by exists j]. intros ->. pose proof (indexed_pos h Hh _ _ _ Hw). congruence.
    - intros [[-> ->]|[Hne (j & Hj & Hw)]]; [exists i; split; [done|]; by eapply vget_vset_eq|].
      exists j. split; [done|]. rewrite (vget_vset_ne _ _ _ _ _ Hset); [done|]. intros ->. congruence. }
  assert (∃ h', (if comp_ v vp then fst <$> sift_up comp_ (fuel_of h1) h1 v i else Heapify comp_ (fuel_of h1) h1 i) = Some h' ∧
    same_content h1 h') as (h' & -> & Hi' & _ & _ & Hl).
  { destruct (comp_ v vp).
    - destruct (sift_up_content (fuel_of h1) h1 v i k) as (h' & -> & ?);
        [done|done|simpl; by eapply vget_vset_eq|unfold fuel_of; simpl; lia|by exists h'].
    - apply Heapify_content; [done|done|unfold fuel_of; simpl; lia]. }
  exists h'. split_and!; [done..|]. intros q w. by rewrite Hl.
Qed.
End content.

(** * Instances *)

Definition sample : Heap Z := MkHeap [0; 1; 2] [(2, 0); (7, 1); (4, 2)] 3.

Lemma ltb_asym (a b : Z) : (a <? b) = true → (b <? a) = false.
Proof. rewrite Z.ltb_lt, Z.ltb_ge. lia. Qed.

Lemma ltb_trans (a b c : Z) : (b <? a) = false → (c <? b) = false → (c <? a) = false.
Proof. rewrite !Z.ltb_ge. lia. Qed.

Lemma sample_get i v k :
  (elements_ sample).[i] = Some (v, k) ↔ (i = 0 ∧ v = 2 ∧ k = 0) ∨ (i = 1 ∧ v = 7 ∧ k = 1) ∨ (i = 2 ∧ v = 4 ∧ k = 2).
Proof.
  split.
  - intros Hi. pose proof (vget_range _ _ _ Hi) as Hr. change (zlen _) with 3 in Hr.
    assert (i = 0 ∨ i = 1 ∨ i = 2) as [-> |[-> | ->]] by lia; injection Hi as <- <-; lia.
  - by intros [(-> & -> & ->)|[(-> & -> & ->)|(-> & -> & ->)]].
Qed.

Lemma sample_represents : represents Z.ltb sample (<[0:=2]> (<[1:=7]> (<[2:=4]> ∅))).
Proof.
  split_and!.
  - split; [by vm_compute|by vm_compute|]. by intros i v k [(-> & -> & ->)|[(-> & -> & ->)|(-> & -> & ->)]]%sample_get.
  - intros j Hj a b Ha Hb. simpl in Hj. assert (j = 1 ∨ j = 2) as [-> | ->] by lia;
      injection Ha as <-; injection Hb as <-; done.
  - intros k v. unfold live. setoid_rewrite sample_get. rewrite !lookup_insert_Some, lookup_empty. simpl.
    split; [intros Hk|naive_solver lia].
    destruct Hk as [[<- <-]|[? [[<- <-]|[? [[<- <-]|[_ ?]]]]]]; [exists 0|exists 1|exists 2|done]; lia.
Qed.

Lemma Insert_correct_witness :
  ∃ h' k, Insert Z.ltb sample 1 = Some (h', k) ∧ k = 3 ∧ Top h' = Some 1 ∧
    represents Z.ltb h' (<[k:=1]> (<[0:=2]> (<[1:=7]> (<[2:=4]> ∅)))).
Proof.
  destruct (Insert_correct Z.ltb ltb_asym ltb_trans _ _ 1 sample_represents) as (h' & k & Hi & _ & Hr).
  exists h', k. split; [done|]. split; [|split; [|done]]; revert Hi; vm_compute; by intros [= <- <-].
Defined.

Lemma Update_correct_witness :
  ∃ h', Update Z.ltb sample 1 0 = Some h' ∧ Top h' = Some 0 ∧
    represents Z.ltb h' (<[1:=0]> (<[0:=2]> (<[1:=7]> (<[2:=4]> ∅)))).
Proof.
  destruct (Update_correct Z.ltb ltb_asym ltb_trans _ _ 1 0 sample_represents) as (h' & Hi & Hr).
  - by exists 7.
  - exists h'. split; [done|]. split; [|done]. revert Hi. vm_compute. by intros [= <-].
Defined.

Lemma Pop_correct_witness :
  ∃ h' v, Pop Z.ltb sample = Some (h', v) ∧ v = 2 ∧ Top h' = Some 4.
Proof.
  destruct (Pop_correct Z.ltb ltb_asym ltb_trans _ _ sample_represents) as (h' & v & k & Hp & _ & _ & _).
  - done.
  - exists h', v. split; [done|]. revert Hp. vm_compute. by intros [= <- <-].
Defined.
