(* ===== verification/Partition.v ===== *)
(** Partitions for state minimization (openfst/lib/partition.h): classes of elements
as doubly linked lists through one array, each class cut in a [yes] and a [no]
part, and the split of all classes along the parts.  Proved here: what a partition
is ([partitioned]), and that adding, moving and marking an element keep it one,
whatever their order.  The split is proved in PartitionSplit.v. *)
From stdpp Require Import functions.
From S2P Require Import Prelude.
Local Open Scope Z_scope.

(* partition.h:199-211 Element *)
Record Element := MkElement { class_id : Z; yes : Z; next_element : Z; prev_element : Z }.
(* partition.h:214-224 Class *)
Record Class_ := MkClass { size_ : Z; yes_size : Z; no_head : Z; yes_head : Z }.
(* partition.h:215-215 Class *)
Definition Class_new : Class_ := MkClass 0 0 (-1) (-1).

(* partition.h:277-287 Partition *)
Record Partition := MkPartition {
  elements_ : list Element;
  classes_ : list Class_;
  visited_classes_ : list Z;
  yes_counter_ : Z;
}.

Implicit Types (P : Partition) (e c : Z) (els : list Element) (cs : list Class_).

Definition set_next (n : Z) (x : Element) : Element := MkElement (class_id x) (yes x) n (prev_element x).
Definition set_prev (p : Z) (x : Element) : Element := MkElement (class_id x) (yes x) (next_element x) p.
Definition with_elements els P : Partition := MkPartition els (classes_ P) (visited_classes_ P) (yes_counter_ P).

(** What is resized is filled with zeros. *)

(* partition.h:72-82 Initialize *)
Definition Initialize P (num_elements : Z) : Partition :=
  MkPartition (vresize num_elements (MkElement 0 0 0 0) (elements_ P)) [] (visited_classes_ P) 1.

(* partition.h:84-89 AddClass *)
Definition AddClass P : Partition * Z :=
  (MkPartition (elements_ P) (classes_ P ++ [Class_new]) (visited_classes_ P) (yes_counter_ P), zlen (classes_ P)).

(* partition.h:91-94 AllocateClasses *)
Definition AllocateClasses P (num_classes : Z) : Partition :=
  MkPartition (elements_ P) (classes_ P ++ replicate (Z.to_nat num_classes) Class_new) (visited_classes_ P) (yes_counter_ P).

(* partition.h:96-114 Add *)
Definition Add P e c : option Partition :=
  this_element ← (elements_ P).[e];
  this_class ← (classes_ P).[c];
  let head := no_head this_class in
  els ← (if 0 <=? head then x ← (elements_ P).[head]; (elements_ P).[head <- set_prev e x] else Some (elements_ P));
  cs ← (classes_ P).[c <- MkClass (size_ this_class + 1) (yes_size this_class) e (yes_head this_class)];
  els ← els.[e <- MkElement c 0 head (-1)];
  Some (MkPartition els cs (visited_classes_ P) (yes_counter_ P)).

(** An element leaves the [no] list whose head is [head]. *)

(* partition.h:123-133 Move *)
Definition excise els (head e : Z) : option (list Element * Z) :=
  x ← els.[e];
  '(els, head) ← (if 0 <=? prev_element x then
      p ← els.[prev_element x];
      els ← els.[prev_element x <- set_next (next_element x) p];
      Some (els, head)
    else Some (els, next_element x));
  x ← els.[e];
  els ← (if 0 <=? next_element x then
      n ← els.[next_element x];
      els.[next_element x <- set_prev (prev_element x) n]
    else Some els);
  Some (els, head).

(* partition.h:116-136 Move *)
Definition Move P e c : option Partition :=
  element ← (elements_ P).[e];
  old_class ← (classes_ P).[class_id element];
  '(els, head) ← excise (elements_ P) (no_head old_class) e;
  cs ← (classes_ P).[class_id element <- MkClass (size_ old_class - 1) (yes_size old_class) head (yes_head old_class)];
  Add (MkPartition els cs (visited_classes_ P) (yes_counter_ P)) e c.

(* partition.h:138-168 SplitOn *)
Definition SplitOn P e : option Partition :=
  element ← (elements_ P).[e];
  if yes element =? yes_counter_ P then Some P else
  let c := class_id element in
  this_class ← (classes_ P).[c];
  '(els, head) ← excise (elements_ P) (no_head this_class) e;
  '(els, visited) ← (if 0 <=? yes_head this_class then
      x ← els.[yes_head this_class];
      els ← els.[yes_head this_class <- set_prev e x];
      Some (els, visited_classes_ P)
    else Some (els, visited_classes_ P ++ [c]));
  x ← els.[e];
  els ← els.[e <- MkElement (class_id x) (yes_counter_ P) (yes_head this_class) (-1)];
  cs ← (classes_ P).[c <- MkClass (size_ this_class) (yes_size this_class + 1) head e];
  Some (MkPartition els cs visited (yes_counter_ P)).

(* partition.h:269-272 SplitRefine *)
Fixpoint rename_class (fuel : nat) els (e new_class_id : Z) : option (list Element) :=
  if e <? 0 then Some els else
  match fuel with
  | O => None
  | S fuel =>
      x ← els.[e];
      els ← els.[e <- MkElement new_class_id (yes x) (next_element x) (prev_element x)];
      rename_class fuel els (next_element x) new_class_id
  end.

(** The new class, or -1. *)

(* partition.h:226-275 SplitRefine *)
Definition SplitRefine P c : option (Partition * Z) :=
  this_class ← (classes_ P).[c];
  let no_size := size_ this_class - yes_size this_class in
  if no_size =? 0 then
    cs ← (classes_ P).[c <- MkClass (size_ this_class) 0 (yes_head this_class) (-1)];
    Some (MkPartition (elements_ P) cs (visited_classes_ P) (yes_counter_ P), -1)
  else
    let new_class_id := zlen (classes_ P) in
    let '(old_class, new_class) :=
      if no_size <? yes_size this_class then
        (MkClass (yes_size this_class) 0 (yes_head this_class) (-1), MkClass no_size 0 (no_head this_class) (-1))
      else
        (MkClass no_size 0 (no_head this_class) (-1), MkClass (yes_size this_class) 0 (yes_head this_class) (-1)) in
    cs ← (classes_ P ++ [Class_new]).[c <- old_class];
    cs ← cs.[new_class_id <- new_class];
    els ← rename_class (length (elements_ P)) (elements_ P) (no_head new_class) new_class_id;
    Some (MkPartition els cs (visited_classes_ P) (yes_counter_ P), new_class_id).

(** Splits all visited classes; [enqueue] is there if the queue is.  The counter is a
signed integer of at most [max]: to pass it is undefined. *)

(* partition.h:170-187 FinalizeSplit *)
Definition FinalizeSplit {Q} (max : Z) (enqueue : option (Q → Z → option Q)) P (queue : Q) : option (Partition * Q) :=
  '(P, queue) ← foldM (λ '(P, queue) visited_class,
      '(P, new_class) ← SplitRefine P visited_class;
      match enqueue with
      | Some enqueue => if negb (new_class =? -1) then queue ← enqueue queue new_class; Some (P, queue) else Some (P, queue)
      | None => Some (P, queue)
      end) (visited_classes_ P) (P, queue);
  if max <=? yes_counter_ P then None else
  Some (MkPartition (elements_ P) (classes_ P) [] (yes_counter_ P + 1), queue).

(* partition.h:189-189 ClassId *)
Definition ClassId P e : option Z := x ← (elements_ P).[e]; Some (class_id x).
(* partition.h:191-191 ClassSize *)
Definition ClassSize P c : option Z := x ← (classes_ P).[c]; Some (size_ x).
(* partition.h:193-193 NumClasses *)
Definition NumClasses P : Z := zlen (classes_ P).

(** An iterator is the element that it stands on. *)

(* partition.h:297-300 PartitionIterator *)
Definition PartitionIterator P c : option Z := x ← (classes_ P).[c]; Some (no_head x).
(* partition.h:302-302 Done *)
Definition PI_Done (element_id : Z) : bool := element_id <? 0.
(* partition.h:306-306 Next *)
Definition PI_Next P (element_id : Z) : option Z := x ← (elements_ P).[element_id]; Some (next_element x).

(** The elements that an iterator runs over. *)
Fixpoint iterate (fuel : nat) P (element_id : Z) : option (list Z) :=
  if PI_Done element_id then Some [] else
  match fuel with
  | O => None
  | S fuel => n ← PI_Next P element_id; l ← iterate fuel P n; Some (element_id :: l)
  end.

(** * Doubly linked lists through an array *)

Section lists.
Implicit Types (l k : list Z) (x y : Element).

(** The elements [l], from [head] to [tail], where [prev] comes before. *)
Fixpoint segment els c (prev head : Z) l (tail : Z) : Prop :=
  match l with
  | [] => head = tail
  | e :: l => head = e ∧ ∃ x, els.[e] = Some x ∧ class_id x = c ∧ prev_element x = prev ∧ segment els c e (next_element x) l tail
  end.

Definition linked els c (head : Z) l : Prop := segment els c (-1) head l (-1).

Lemma segment_app els c prev head l k tail :
  segment els c prev head (l ++ k) tail ↔ ∃ m, segment els c prev head l m ∧ segment els c (default prev (last l)) m k tail.
Proof.
  revert prev head. induction l as [|e l IH]; intros prev head; [simpl; naive_solver|].
  assert (default prev (last (e :: l)) = default e (last l)) as -> by by destruct l using rev_ind; rewrite ?app_comm_cons, ?last_snoc.
  simpl. setoid_rewrite IH. naive_solver.
Qed.

(** Only the class and the two links of its elements matter. *)
Definition link x : Z * Z * Z := (class_id x, next_element x, prev_element x).

Lemma segment_frame els els' c prev head l tail :
  (∀ i, i ∈ l → link <$> els'.[i] = link <$> els.[i]) → segment els c prev head l tail → segment els' c prev head l tail.
Proof.
  revert prev head. induction l as [|e l IH]; intros prev head Hf; simpl; [done|]. intros (-> & x & Hx & Hc & Hp & Hs).
  split; [done|]. specialize (Hf e ltac:(left)) as He. rewrite Hx in He. apply fmap_Some in He as (y & Hy & [= ]).
  exists y. split_and!; [done|congruence..|]. rewrite <-H1. apply IH; [|done]. intros i Hi. apply Hf. by right.
Qed.

Lemma segment_get els c prev head l tail e :
  segment els c prev head l tail → e ∈ l → ∃ x, els.[e] = Some x ∧ class_id x = c.
Proof.
  revert prev head. induction l as [|a l IH]; intros prev head; simpl; [by intros _ ?%not_elem_of_nil|].
  intros (-> & x & Hx & Hc & _ & Hs) [->|Hin]%elem_of_cons; [by exists x|]. by eapply IH.
Qed.

Lemma segment_nonneg els c prev head l tail : segment els c prev head l tail → ∀ e, e ∈ l → 0 ≤ e.
Proof. intros Hs e He. destruct (segment_get _ _ _ _ _ _ _ Hs He) as (x & Hx%vget_range & _). lia. Qed.

Lemma linked_head els c head l : linked els c head l → head = default (-1) (hd_error l).
Proof. destruct l; simpl; [done|]. by intros [-> _]. Qed.

(** Writing the link at one end. *)
Lemma segment_set_next els els' c prev head l e x (tail tail' : Z) :
  segment els c prev head (l ++ [e]) tail → e ∉ l → els.[e] = Some x → els.[e <- set_next tail' x] = Some els' →
  segment els' c prev head (l ++ [e]) tail'.
Proof.
  intros (m & Hl & -> & y & Hy & Hc & Hp & Ht)%segment_app He Hx Hset. apply segment_app. exists e.
  assert (y = x) as -> by congruence. split.
  - eapply segment_frame; [|done]. intros i Hi. by rewrite (vget_vset_ne _ _ _ _ _ Hset) by (by intros ->).
  - split; [done|]. exists (set_next tail' x). by rewrite (vget_vset_eq _ _ _ _ Hset).
Qed.

Lemma segment_set_prev els els' c (prev prev' head : Z) l e x (tail : Z) :
  segment els c prev head (e :: l) tail → e ∉ l → els.[e] = Some x → els.[e <- set_prev prev' x] = Some els' →
  segment els' c prev' head (e :: l) tail.
Proof.
  intros (-> & y & Hy & Hc & Hp & Ht) He Hx Hset. assert (y = x) as -> by congruence. split; [done|].
  exists (set_prev prev' x). rewrite (vget_vset_eq _ _ _ _ Hset). split_and!; [done..|].
  eapply segment_frame; [|done]. intros i Hi. by rewrite (vget_vset_ne _ _ _ _ _ Hset) by (by intros ->).
Qed.

(** ** Taking an element out *)

(** Nothing but links of [l] differs. *)
Definition relinked l els els' : Prop :=
  (∀ i, i ∉ l → els'.[i] = els.[i]) ∧
  (∀ i, (λ x, (class_id x, yes x)) <$> els'.[i] = (λ x, (class_id x, yes x)) <$> els.[i]).

Lemma relinked_refl l els : relinked l els els.
Proof. by split. Qed.

Lemma relinked_set l els els' e x y :
  els.[e] = Some x → class_id y = class_id x → yes y = yes x → els.[e <- y] = Some els' → e ∈ l → relinked l els els'.
Proof.
  intros Hx Hc Hy Hset He. split; intros i.
  - intros Hi. apply (vget_vset_ne _ _ _ _ _ Hset). by intros ->.
  - rewrite (vget_vset _ _ _ i _ Hset). case_decide as Hi; [|done]. subst i. rewrite Hx. simpl. by rewrite Hc, Hy.
Qed.

Lemma relinked_trans l els1 els2 els3 : relinked l els1 els2 → relinked l els2 els3 → relinked l els1 els3.
Proof. intros [H1 H2] [H3 H4]. split; intros i; [intros Hi; by rewrite H3, H1|by rewrite H4, H2]. Qed.

Lemma excise_linked els c head l k e :
  linked els c head (l ++ e :: k) → NoDup (l ++ e :: k) →
  ∃ els' head', excise els head e = Some (els', head') ∧ linked els' c head' (l ++ k) ∧ relinked (l ++ k) els els'.
Proof.
  intros Hs Hnd. pose proof (segment_nonneg _ _ _ _ _ _ Hs) as Hpos.
  apply segment_app in Hs as (m & Hl & -> & x & Hx & Hc & Hp & Hk).
  apply NoDup_app in Hnd as (Hndl & Hlk & [Hek Hndk]%NoDup_cons).
  assert (e ∉ l) as Hel by (intros He; apply (Hlk e He); left).
  unfold excise. rewrite Hx. cbn [mbind option_bind].
  assert (∃ els1 head1, (if 0 <=? prev_element x then
      p ← els.[prev_element x];
      els ← els.[prev_element x <- set_next (next_element x) p];
      Some (els, head)
    else Some (els, next_element x)) = Some (els1, head1) ∧ segment els1 c (-1) head1 l (next_element x) ∧ relinked l els els1)
    as (els1 & head1 & -> & Hl1 & Hr1).
  { destruct l as [|p l _] using rev_ind.
    - simpl in Hp, Hl. rewrite Hp. simpl. exists els, (next_element x). split_and!; [done|done|apply relinked_refl].
    - rewrite last_snoc in Hp. simpl in Hp. subst.
      rewrite (proj2 (Z.leb_le 0 (prev_element x))) by (apply Hpos; set_solver).
      destruct (segment_get _ _ _ _ _ _ (prev_element x) Hl) as (y & Hy & _); [set_solver|]. rewrite Hy. cbn [mbind option_bind].
      rewrite vset_is_Some by by eapply vget_range. cbn [mbind option_bind]. eexists _, head. split; [done|].
      assert (els.[prev_element x <- set_next (next_element x) y] = Some (<[Z.to_nat (prev_element x) := set_next (next_element x) y]> els)) as Hset
        by (apply vset_is_Some; by eapply vget_range).
      split; [|apply (relinked_set _ _ _ _ _ (set_next (next_element x) y) Hy eq_refl eq_refl Hset); set_solver].
      eapply segment_set_next; [done| |done|done]. apply NoDup_app in Hndl as (_ & Hn & _). intros Hin. apply (Hn _ Hin). left. }
  cbn [mbind option_bind]. assert (els1.[e] = Some x) as Hx1 by by rewrite (proj1 Hr1). rewrite Hx1. cbn [mbind option_bind].
  assert (∀ i, i ∈ k → i ∉ l) as Hkl by (intros i Hi Hil; apply (Hlk i Hil); by right).
  assert (segment els1 c e (next_element x) k (-1)) as Hk1.
  { eapply segment_frame; [|done]. intros i Hi. by rewrite (proj1 Hr1) by by apply Hkl. }
  assert (∃ els2, (if 0 <=? next_element x then
      n ← els1.[next_element x];
      els1.[next_element x <- set_prev (prev_element x) n]
    else Some els1) = Some els2 ∧ segment els2 c (prev_element x) (next_element x) k (-1) ∧ relinked k els1 els2) as (els2 & -> & Hk2 & Hr2).
  { destruct k as [|n k].
    - simpl in Hk1. rewrite Hk1. simpl. exists els1. split_and!; [done|done|apply relinked_refl].
    - pose proof Hk1 as [En _]. rewrite (proj2 (Z.leb_le 0 (next_element x))) by (rewrite En; apply Hpos; set_solver). rewrite En in *.
      destruct (segment_get _ _ _ _ _ _ n Hk1) as (y & Hy & _); [left|]. rewrite Hy. cbn [mbind option_bind].
      assert (els1.[n <- set_prev (prev_element x) y] = Some (<[Z.to_nat n := set_prev (prev_element x) y]> els1)) as Hset
        by (apply vset_is_Some; by eapply vget_range).
      eexists. split; [done|]. apply NoDup_cons in Hndk as [Hn _].
      split; [by eapply segment_set_prev|apply (relinked_set _ _ _ _ _ (set_prev (prev_element x) y) Hy eq_refl eq_refl Hset); left]. }
  cbn [mbind option_bind]. exists els2, head1. split; [done|]. split.
  - apply segment_app. exists (next_element x). rewrite <-Hp. split; [|done].
    eapply segment_frame; [|done]. intros i Hi. rewrite (proj1 Hr2); [done|]. intros Hik. by apply (Hkl i Hik).
  - eapply relinked_trans.
    + destruct Hr1 as [Ha Hb]. split; [|done]. intros i Hi. apply Ha. set_solver.
    + destruct Hr2 as [Ha Hb]. split; [|done]. intros i Hi. apply Ha. set_solver.
Qed.

(** ** Putting an element in front *)

Lemma push_linked els c head l e (v : Z) :
  linked els c head l → NoDup l → e ∉ l → is_Some (els.[e]) →
  ∃ els1 els2, (if 0 <=? head then x ← els.[head]; els.[head <- set_prev e x] else Some els) = Some els1 ∧
    relinked l els els1 ∧ els1.[e <- MkElement c v head (-1)] = Some els2 ∧ linked els2 c e (e :: l) ∧
    (∀ i, i ≠ e → (λ x, (class_id x, yes x)) <$> els2.[i] = (λ x, (class_id x, yes x)) <$> els.[i]) ∧
    (∀ i, i ≠ e → i ∉ l → els2.[i] = els.[i]).
Proof.
  intros Hs Hnd He [z Hz].
  assert (∃ els1, (if 0 <=? head then x ← els.[head]; els.[head <- set_prev e x] else Some els) = Some els1 ∧
    segment els1 c e head l (-1) ∧ relinked l els els1) as (els1 & -> & Hs1 & Hr).
  { destruct l as [|n l].
    - simpl in Hs. rewrite Hs. simpl. exists els. split_and!; [done|done|apply relinked_refl].
    - pose proof Hs as [-> (x & Hx & _)]. rewrite (proj2 (Z.leb_le 0 n)) by (apply vget_range in Hx; lia). rewrite Hx. cbn [mbind option_bind].
      assert (els.[n <- set_prev e x] = Some (<[Z.to_nat n := set_prev e x]> els)) as Hset by (apply vset_is_Some; by eapply vget_range).
      eexists. split; [done|]. split; [|apply (relinked_set _ els _ _ x (set_prev e x) Hx eq_refl eq_refl Hset); left].
      apply NoDup_cons in Hnd as [Hn _]. by eapply segment_set_prev. }
  pose proof Hr as [Hr1 Hr2].
  assert (els1.[e] = Some z) as Hz1 by by rewrite Hr1.
  assert (els1.[e <- MkElement c v head (-1)] = Some (<[Z.to_nat e := MkElement c v head (-1)]> els1)) as Hset
    by (apply vset_is_Some; by eapply vget_range).
  eexists els1, _. split_and!; [done|done|done| | |].
  - split; [done|]. exists (MkElement c v head (-1)). rewrite (vget_vset_eq _ _ _ _ Hset). split_and!; [done..|].
    eapply segment_frame; [|done]. intros i Hi. by rewrite (vget_vset_ne _ _ _ _ _ Hset) by (by intros ->).
  - intros i Hi. rewrite (vget_vset_ne _ _ _ _ _ Hset) by done. apply Hr2.
  - intros i Hi Hil. rewrite (vget_vset_ne _ _ _ _ _ Hset) by done. by apply Hr1.
Qed.
End lists.

(** * What a partition is *)

(** [nl] and [yl] are the two lists of each class. *)
Record core els cs (nl yl : Z → list Z) : Prop := {
  core_no : ∀ c x, cs.[c] = Some x → linked els c (no_head x) (nl c);
  core_yes : ∀ c x, cs.[c] = Some x → linked els c (yes_head x) (yl c);
  core_size : ∀ c x, cs.[c] = Some x → size_ x = zlen (nl c) + zlen (yl c);
  core_yes_size : ∀ c x, cs.[c] = Some x → yes_size x = zlen (yl c);
  core_out : ∀ c, cs.[c] = None → nl c = [] ∧ yl c = [];
  core_nodup : ∀ c, NoDup (nl c ++ yl c);
}.

Record marked P (nl yl : Z → list Z) : Prop := {
  marked_no : ∀ c e x, e ∈ nl c → (elements_ P).[e] = Some x → yes x < yes_counter_ P;
  marked_yes : ∀ c e x, e ∈ yl c → (elements_ P).[e] = Some x → yes x = yes_counter_ P;
  marked_visited : ∀ c, c ∈ visited_classes_ P ↔ yl c ≠ [];
  marked_once : NoDup (visited_classes_ P);
  marked_counter : 0 < yes_counter_ P;
}.

(** The elements in [cls] are in the classes that it gives, those in [Y] have been
marked since the last split. *)
Definition partitioned P (cls : gmap Z Z) (Y : gset Z) : Prop :=
  ∃ nl yl, core (elements_ P) (classes_ P) nl yl ∧ marked P nl yl ∧
    (∀ c e, e ∈ nl c ↔ cls !! e = Some c ∧ e ∉ Y) ∧ (∀ c e, e ∈ yl c ↔ cls !! e = Some c ∧ e ∈ Y).

Section core.
Context els cs (nl yl : Z → list Z) (Hcore : core els cs nl yl).

Lemma core_class c e : e ∈ nl c ++ yl c → ∃ x, els.[e] = Some x ∧ class_id x = c ∧ is_Some (cs.[c]).
Proof using Hcore.
  intros He. destruct (cs.[c]) as [x|] eqn:Hx.
  - apply elem_of_app in He as [He|He].
    + destruct (segment_get _ _ _ _ _ _ _ (core_no _ _ _ _ Hcore c x Hx) He) as (y & ? & ?). eauto.
    + destruct (segment_get _ _ _ _ _ _ _ (core_yes _ _ _ _ Hcore c x Hx) He) as (y & ? & ?). eauto.
  - destruct (core_out _ _ _ _ Hcore c Hx) as [E1 E2]. rewrite E1, E2 in He. by apply not_elem_of_nil in He.
Qed.

Lemma core_unique c c' e : e ∈ nl c ++ yl c → e ∈ nl c' ++ yl c' → c = c'.
Proof using Hcore. intros (x & Hx & <- & _)%core_class (y & Hy & <- & _)%core_class. congruence. Qed.
End core.

Lemma partitioned_class P cls Y e c : partitioned P cls Y → cls !! e = Some c →
  ∃ x, (elements_ P).[e] = Some x ∧ class_id x = c ∧ is_Some ((classes_ P).[c]).
Proof.
  intros (nl & yl & Hc & _ & Hn & Hy) He. eapply core_class; [done|]. apply elem_of_app.
  destruct (decide (e ∈ Y)); [right; by apply Hy|left; by apply Hn].
Qed.

(** ** Changing one class *)

Lemma core_update els els' cs cs' (nl yl : Z → list Z) c x l k :
  core els cs nl yl → cs.[c <- x] = Some cs' →
  (∀ c' i, c' ≠ c → i ∈ nl c' ++ yl c' → link <$> els'.[i] = link <$> els.[i]) →
  linked els' c (no_head x) l → linked els' c (yes_head x) k →
  size_ x = zlen l + zlen k → yes_size x = zlen k → NoDup (l ++ k) →
  core els' cs' (<[c := l]> nl) (<[c := k]> yl).
Proof.
  intros [Hn Hy Hs Hys Ho Hnd] Hset Hf Hl Hk Hsx Hysx Hlk.
  assert (∀ c' y, cs'.[c'] = Some y → c' = c ∧ y = x ∨ c' ≠ c ∧ cs.[c'] = Some y) as Hget.
  { intros c' y. rewrite (vget_vset _ _ _ c' _ Hset). case_decide; [|naive_solver]. intros [= <-]. by left. }
  split.
  - intros c' y [[-> ->]|[Hne Hc]]%Hget; [by rewrite fn_lookup_insert|]. rewrite fn_lookup_insert_ne by done.
    eapply segment_frame; [|by apply Hn]. intros i Hi. apply (Hf c'); [done|]. apply elem_of_app. by left.
  - intros c' y [[-> ->]|[Hne Hc]]%Hget; [by rewrite fn_lookup_insert|]. rewrite fn_lookup_insert_ne by done.
    eapply segment_frame; [|by apply Hy]. intros i Hi. apply (Hf c'); [done|]. apply elem_of_app. by right.
  - intros c' y [[-> ->]|[Hne Hc]]%Hget; [by rewrite !fn_lookup_insert|]. rewrite !fn_lookup_insert_ne by done. by apply Hs.
  - intros c' y [[-> ->]|[Hne Hc]]%Hget; [by rewrite !fn_lookup_insert|]. rewrite !fn_lookup_insert_ne by done. by apply Hys.
  - intros c'. rewrite (vget_vset _ _ _ c' _ Hset). case_decide as Hne; [done|]. rewrite !fn_lookup_insert_ne by done. apply Ho.
  - intros c'. destruct (decide (c' = c)) as [->|Hne]; [by rewrite !fn_lookup_insert|]. by rewrite !fn_lookup_insert_ne.
Qed.

(** What a change of the lists of class [c] leaves alone. *)
Lemma other_links els els' cs (nl yl : Z → list Z) c (l : list Z) :
  core els cs nl yl → (∀ i, i ∈ l → i ∈ nl c ++ yl c) → (∀ i, i ∉ l → els'.[i] = els.[i]) →
  ∀ c' i, c' ≠ c → i ∈ nl c' ++ yl c' → link <$> els'.[i] = link <$> els.[i].
Proof.
  intros Hc Hl Hf c' i Hne Hi. rewrite Hf; [done|]. intros Hil. apply Hne. eapply core_unique; [exact Hc|exact Hi|by apply Hl].
Qed.

Lemma same_marks els els' i x' :
  (λ x, (class_id x, yes x)) <$> els'.[i] = (λ x, (class_id x, yes x)) <$> els.[i] → els'.[i] = Some x' →
  ∃ x, els.[i] = Some x ∧ class_id x = class_id x' ∧ yes x = yes x'.
Proof. intros E Hx. rewrite Hx in E. symmetry in E. apply fmap_Some in E as (x & Hx' & [= E1 E2]). by exists x. Qed.

(** ** Adding and moving an element *)

Lemma Add_ok P cls Y e c :
  partitioned P cls Y → cls !! e = None → e ∉ Y → 0 ≤ e < zlen (elements_ P) → 0 ≤ c < NumClasses P →
  ∃ P', Add P e c = Some P' ∧ partitioned P' (<[e := c]> cls) Y ∧ NumClasses P' = NumClasses P ∧
    zlen (elements_ P') = zlen (elements_ P) ∧ yes_counter_ P' = yes_counter_ P.
Proof.
  intros (nl & yl & Hcore & Hmark & Hn & Hy) He HeY Hel Hcl.
  destruct (vget_in_range (elements_ P) e Hel) as [x Hx]. destruct (vget_in_range (classes_ P) c Hcl) as [cx Hcx].
  assert (∀ c', e ∉ nl c' ++ yl c') as Hout.
  { intros c' [Hin|Hin]%elem_of_app; [apply Hn in Hin|apply Hy in Hin]; destruct Hin; congruence. }
  pose proof (core_nodup _ _ _ _ Hcore c) as Hnd. apply NoDup_app in Hnd as Hnd'. destruct Hnd' as (Hndn & Hny & Hndy).
  destruct (push_linked (elements_ P) c (no_head cx) (nl c) e 0) as (els1 & els2 & E1 & Hr & E2 & Hl & Hsame & Hfr);
    [by apply Hcore|done|intros Hin; apply (Hout c), elem_of_app; by left|by exists x|].
  unfold Add. rewrite Hx, Hcx. cbn [mbind option_bind]. cbv zeta. rewrite E1. cbn [mbind option_bind].
  set (cx' := MkClass _ _ _ _). pose proof (vset_is_Some (classes_ P) c cx' Hcl) as Hset. rewrite Hset. cbn [mbind option_bind].
  rewrite E2. cbn [mbind option_bind]. eexists. split; [done|]. cbn [NumClasses elements_ yes_counter_].
  split; [|split_and!; [by apply zlen_insert| |done]].
  2:{ rewrite (vset_len _ _ _ _ E2). destruct (0 <=? no_head cx); [|by injection E1 as <-].
      apply bind_Some in E1 as (y & _ & E1). by apply vset_len in E1. }
  exists (<[c := e :: nl c]> nl), (<[c := yl c]> yl). split_and!.
  - eapply core_update; [done|exact Hset| |exact Hl| | | |].
    + intros c' i Hne Hi. rewrite Hfr; [done|intros ->; by apply (Hout c')|].
      intros Hin. apply Hne. eapply core_unique; [exact Hcore|exact Hi|apply elem_of_app; by left].
    + eapply segment_frame; [|exact (core_yes _ _ _ _ Hcore c cx Hcx)]. intros i Hi. rewrite Hfr; [done|intros ->; apply (Hout c), elem_of_app; by right|].
      intros Hin. by apply (Hny i).
    + cbn. rewrite (core_size _ _ _ _ Hcore c cx Hcx), zlen_cons. lia.
    + cbn. apply (core_yes_size _ _ _ _ Hcore c cx Hcx).
    + simpl. constructor; [apply Hout|exact Hnd].
  - destruct Hmark as [M1 M2 M3 M4 M5]. split; cbn [elements_ yes_counter_ visited_classes_]; try done.
    + intros c' a y Ha Hy'. destruct (decide (a = e)) as [->|Hne].
      * rewrite (vget_vset_eq _ _ _ _ E2) in Hy'. injection Hy' as <-. done.
      * destruct (same_marks _ _ _ _ (Hsame a Hne) Hy') as (z & Hz & _ & <-). apply (M1 c' a); [|done].
        destruct (decide (c' = c)) as [->|]; [|by rewrite fn_lookup_insert_ne in Ha].
        rewrite fn_lookup_insert in Ha. by apply elem_of_cons in Ha as [?|?].
    + intros c' a y Ha Hy'. assert (a ∈ yl c') as Ha'.
      { destruct (decide (c' = c)) as [->|]; [by rewrite fn_lookup_insert in Ha|by rewrite fn_lookup_insert_ne in Ha]. }
      assert (a ≠ e) as Hne by (intros ->; apply (Hout c'), elem_of_app; by right).
      destruct (same_marks _ _ _ _ (Hsame a Hne) Hy') as (z & Hz & _ & <-). by apply (M2 c' a).
    + intros c'. rewrite M3. destruct (decide (c' = c)) as [->|]; [by rewrite fn_lookup_insert|by rewrite fn_lookup_insert_ne].
  - intros c' a. destruct (decide (a = e)) as [->|Hae].
    + rewrite lookup_insert_eq. destruct (decide (c' = c)) as [->|Hc']; [rewrite fn_lookup_insert; split; [done|by left]|].
      rewrite fn_lookup_insert_ne by done. split; [intros Hin; exfalso; apply (Hout c'), elem_of_app; by left|].
      intros [[= E] _]. congruence.
    + rewrite lookup_insert_ne by done. rewrite <-Hn. destruct (decide (c' = c)) as [->|Hc'].
      * rewrite fn_lookup_insert, elem_of_cons. naive_solver.
      * by rewrite fn_lookup_insert_ne.
  - intros c' a. assert (a ∈ (<[c:=yl c]> yl) c' ↔ a ∈ yl c') as ->.
    { destruct (decide (c' = c)) as [->|]; [by rewrite fn_lookup_insert|by rewrite fn_lookup_insert_ne]. }
    rewrite Hy. destruct (decide (a = e)) as [->|Hae]; [naive_solver|]. by rewrite lookup_insert_ne.
Qed.

(** An element of a [no] list, in its class. *)
Lemma unmarked_elem P (cls : gmap Z Z) (Y : gset Z) (nl yl : Z → list Z) e c :
  core (elements_ P) (classes_ P) nl yl → (∀ c e, e ∈ nl c ↔ cls !! e = Some c ∧ e ∉ Y) → cls !! e = Some c → e ∉ Y →
  ∃ x cx l k, (elements_ P).[e] = Some x ∧ class_id x = c ∧ (classes_ P).[c] = Some cx ∧ nl c = l ++ e :: k ∧
    NoDup ((l ++ e :: k) ++ yl c) ∧ ∃ els head, excise (elements_ P) (no_head cx) e = Some (els, head) ∧ linked els c head (l ++ k) ∧
    relinked (l ++ k) (elements_ P) els.
Proof.
  intros Hcore Hn He HeY. assert (e ∈ nl c) as Hin by by apply Hn.
  destruct (core_class _ _ _ _ Hcore c e) as (x & Hx & Hc & cx & Hcx); [apply elem_of_app; by left|].
  pose proof (core_no _ _ _ _ Hcore c cx Hcx) as Hl. pose proof (core_nodup _ _ _ _ Hcore c) as Hnd.
  apply list_elem_of_split in Hin as (l & k & E). rewrite E in Hl, Hnd. exists x, cx, l, k. split_and!; [done..|].
  apply excise_linked; [done|]. by apply NoDup_app in Hnd as [? _].
Qed.

Lemma zlen_same {A B} (f : A → B) (l k : list A) : (∀ i, f <$> l.[i] = f <$> k.[i]) → zlen l = zlen k.
Proof.
  intros Hf. destruct (Z.lt_trichotomy (zlen l) (zlen k)) as [Hlt|[?|Hlt]]; [|done|]; exfalso; pose proof (zlen_nonneg l); pose proof (zlen_nonneg k).
  - specialize (Hf (zlen l)). destruct (vget_in_range k (zlen l)) as [x Hx]; [lia|].
    rewrite Hx, (proj2 (vget_None l _)) in Hf by lia. done.
  - specialize (Hf (zlen k)). destruct (vget_in_range l (zlen k)) as [x Hx]; [lia|].
    rewrite Hx, (proj2 (vget_None k _)) in Hf by lia. done.
Qed.

Lemma Move_ok P cls Y e c0 c :
  partitioned P cls Y → cls !! e = Some c0 → e ∉ Y → 0 ≤ c < NumClasses P →
  ∃ P', Move P e c = Some P' ∧ partitioned P' (<[e := c]> cls) Y ∧ NumClasses P' = NumClasses P ∧
    zlen (elements_ P') = zlen (elements_ P) ∧ yes_counter_ P' = yes_counter_ P.
Proof.
  intros (nl & yl & Hcore & Hmark & Hn & Hy) He HeY Hcl.
  destruct (unmarked_elem P cls Y nl yl e c0 Hcore Hn He HeY) as (x & cx & l & k & Hx & Hxc & Hcx & El & Hnd & els & head & Ex & Hl & Hr1 & Hr2).
  unfold Move. rewrite Hx. cbn [mbind option_bind]. rewrite Hxc, Hcx. cbn [mbind option_bind]. rewrite Ex. cbn [mbind option_bind].
  set (cx' := MkClass _ _ _ _). pose proof (vget_range _ _ _ Hcx) as Hr. pose proof (vset_is_Some (classes_ P) c0 cx' Hr) as Hset.
  rewrite Hset. cbn [mbind option_bind]. set (P1 := MkPartition _ _ _ _).
  assert (∀ i, i ∈ l ++ k → i ∈ nl c0 ++ yl c0) as Hsub by (intros i; rewrite El; set_solver).
  assert (zlen els = zlen (elements_ P)) as Hlen by by eapply zlen_same.
  rewrite <-app_assoc in Hnd. apply NoDup_app in Hnd as (Hndl & Hd1 & Hnd). cbn in Hnd. apply NoDup_cons in Hnd as [Hek Hnd].
  apply NoDup_app in Hnd as (Hndk & Hd2 & Hndy).
  assert (e ∉ l ++ k ++ yl c0) as Hout by (rewrite elem_of_app; intros [Hin|Hin]; [apply (Hd1 e Hin); set_solver|done]).
  assert (NoDup ((l ++ k) ++ yl c0)) as Hnd'.
  { rewrite <-app_assoc. apply NoDup_app. split_and!; [done|intros i Hi Hi'; apply (Hd1 i Hi); set_solver|]. by apply NoDup_app. }
  assert (partitioned P1 (delete e cls) Y) as HP1.
  { exists (<[c0 := l ++ k]> nl), (<[c0 := yl c0]> yl). split_and!.
    - eapply core_update; [exact Hcore|exact Hset|by eapply other_links|exact Hl| | | |done].
      + eapply segment_frame; [|exact (core_yes _ _ _ _ Hcore c0 cx Hcx)]. intros i Hi. rewrite Hr1; [done|].
        intros Hin. rewrite (NoDup_app (l ++ k)) in Hnd'. by apply (proj1 (proj2 Hnd') i).
      + cbn. rewrite (core_size _ _ _ _ Hcore c0 cx Hcx), El, !zlen_app, zlen_cons. lia.
      + cbn. apply (core_yes_size _ _ _ _ Hcore c0 cx Hcx).
    - destruct Hmark as [M1 M2 M3 M4 M5]. split; cbn [P1 elements_ yes_counter_ visited_classes_]; try done.
      + intros c' a y Ha Hy'. destruct (same_marks _ _ _ _ (Hr2 a) Hy') as (z & Hz & _ & <-). apply (M1 c' a); [|done].
        destruct (decide (c' = c0)) as [->|]; [|by rewrite fn_lookup_insert_ne in Ha].
        rewrite fn_lookup_insert in Ha. rewrite El. set_solver.
      + intros c' a y Ha Hy'. destruct (same_marks _ _ _ _ (Hr2 a) Hy') as (z & Hz & _ & <-). apply (M2 c' a); [|done].
        destruct (decide (c' = c0)) as [->|]; [by rewrite fn_lookup_insert in Ha|by rewrite fn_lookup_insert_ne in Ha].
      + intros c'. rewrite M3. destruct (decide (c' = c0)) as [->|]; [by rewrite fn_lookup_insert|by rewrite fn_lookup_insert_ne].
    - intros c' a. destruct (decide (a = e)) as [->|Hae].
      + rewrite lookup_delete_eq. split; [|by intros [? _]]. destruct (decide (c' = c0)) as [->|Hc'].
        * rewrite fn_lookup_insert. set_solver.
        * rewrite fn_lookup_insert_ne by done. intros [? _]%Hn. congruence.
      + rewrite lookup_delete_ne by done. rewrite <-Hn. destruct (decide (c' = c0)) as [->|Hc'].
        * rewrite fn_lookup_insert, El. set_solver.
        * by rewrite fn_lookup_insert_ne.
    - intros c' a. assert (a ∈ (<[c0:=yl c0]> yl) c' ↔ a ∈ yl c') as ->.
      { destruct (decide (c' = c0)) as [->|]; [by rewrite fn_lookup_insert|by rewrite fn_lookup_insert_ne]. }
      rewrite Hy. destruct (decide (a = e)) as [->|Hae]; [naive_solver|]. by rewrite lookup_delete_ne. }
  assert (NumClasses P1 = NumClasses P) as HP1n by (by apply vset_len in Hset).
  destruct (Add_ok P1 (delete e cls) Y e c HP1) as (P' & E' & HP' & N1 & N2 & N3); [apply lookup_delete_eq|done| |by rewrite HP1n|].
  { cbn. rewrite Hlen. by eapply vget_range. }
  exists P'. split_and!; [done| |congruence|cbn in N2; congruence|done]. by rewrite insert_delete_eq in HP'.
Qed.

(** ** Marking an element *)

Lemma SplitOn_ok P cls Y e c :
  partitioned P cls Y → cls !! e = Some c →
  ∃ P', SplitOn P e = Some P' ∧ partitioned P' cls ({[e]} ∪ Y) ∧ NumClasses P' = NumClasses P ∧
    zlen (elements_ P') = zlen (elements_ P) ∧ yes_counter_ P' = yes_counter_ P.
Proof.
  intros HP He. pose proof HP as (nl & yl & Hcore & Hmark & Hn & Hy). destruct (decide (e ∈ Y)) as [HeY|HeY].
  { destruct (partitioned_class _ _ _ _ _ HP He) as (x & Hx & _). exists P. unfold SplitOn. rewrite Hx. cbn [mbind option_bind].
    rewrite (marked_yes _ _ _ Hmark c e x) by (done || by apply Hy). rewrite Z.eqb_refl.
    assert ({[e]} ∪ Y = Y) as -> by set_solver. done. }
  destruct (unmarked_elem P cls Y nl yl e c Hcore Hn He HeY) as (x & cx & l & k & Hx & Hxc & Hcx & El & Hnd & els & head & Ex & Hl & Hr1 & Hr2).
  assert (yes x < yes_counter_ P) as Hlt by (apply (marked_no _ _ _ Hmark c e x); [|done]; rewrite El; set_solver).
  unfold SplitOn. rewrite Hx. cbn [mbind option_bind]. rewrite (proj2 (Z.eqb_neq _ _)) by lia. cbv zeta. rewrite Hxc, Hcx.
  cbn [mbind option_bind]. rewrite Ex. cbn [mbind option_bind].
  pose proof (vget_range _ _ _ Hcx) as Hr. pose proof (core_yes _ _ _ _ Hcore c cx Hcx) as Hyl.
  assert (∀ i, i ∈ l ++ k → i ∈ nl c ++ yl c) as Hsub by (intros i; rewrite El; set_solver).
  assert (zlen els = zlen (elements_ P)) as Hlen by by eapply zlen_same.
  rewrite <-app_assoc in Hnd. apply NoDup_app in Hnd as (Hndl & Hd1 & Hnd). cbn in Hnd. apply NoDup_cons in Hnd as [Hek Hnd].
  apply NoDup_app in Hnd as (Hndk & Hd2 & Hndy).
  assert (e ∉ l ++ k ++ yl c) as Hout by (rewrite elem_of_app; intros [Hin|Hin]; [apply (Hd1 e Hin); set_solver|done]).
  assert (∀ i, i ∈ yl c → i ∉ l ++ k) as Hyout.
  { intros i Hi [Hil|Hik]%elem_of_app; [apply (Hd1 i Hil); set_solver|by apply (Hd2 i Hik)]. }
  assert (els.[e] = Some x) as Hx1 by (rewrite Hr1; [done|set_solver]).
  destruct (push_linked els c (yes_head cx) (yl c) e (yes_counter_ P)) as (els1 & els2 & E1 & Hq & E2 & Hl2 & Hsame & Hfr);
    [|done|set_solver|by exists x|].
  { eapply segment_frame; [|exact Hyl]. intros i Hi. by rewrite Hr1 by by apply Hyout. }
  assert ((if 0 <=? yes_head cx then x ← els.[yes_head cx]; els ← els.[yes_head cx <- set_prev e x]; Some (els, visited_classes_ P)
    else Some (els, visited_classes_ P ++ [c])) = Some (els1, if 0 <=? yes_head cx then visited_classes_ P else visited_classes_ P ++ [c])) as ->.
  { destruct (0 <=? yes_head cx); [|by injection E1 as <-]. destruct (els.[yes_head cx]) as [y|]; [|done]. cbn [mbind option_bind] in *.
    by rewrite E1. }
  cbn [mbind option_bind]. assert (els1.[e] = Some x) as Hx2 by (rewrite (proj1 Hq); [done|set_solver]).
  rewrite Hx2. cbn [mbind option_bind]. rewrite Hxc, E2. cbn [mbind option_bind].
  set (cx' := MkClass _ _ _ _). pose proof (vset_is_Some (classes_ P) c cx' Hr) as Hset. rewrite Hset. cbn [mbind option_bind].
  eexists. split; [done|]. cbn [NumClasses elements_ classes_ yes_counter_].
  split; [|split_and!; [by apply zlen_insert| |done]].
  2:{ rewrite (vset_len _ _ _ _ E2), <-Hlen. by eapply zlen_same, Hq. }
  assert (∀ i, i ≠ e → i ∉ l ++ k → i ∉ yl c → els2.[i] = (elements_ P).[i]) as Hfr2.
  { intros i H1 H2 H3. rewrite Hfr by done. by apply Hr1. }
  assert (∀ i x', i ≠ e → els2.[i] = Some x' → ∃ z, (elements_ P).[i] = Some z ∧ yes z = yes x') as Hmk.
  { intros i x' Hi Hx'. destruct (same_marks _ _ _ _ (Hsame i Hi) Hx') as (z & Hz & _ & <-).
    destruct (same_marks _ _ _ _ (Hr2 i) Hz) as (z' & Hz' & _ & <-). by exists z'. }
  exists (<[c := l ++ k]> nl), (<[c := e :: yl c]> yl). split_and!.
  - eapply core_update; [exact Hcore|exact Hset| | |exact Hl2| | |].
    + intros c' i Hne Hi. assert (i ∉ nl c ++ yl c) as Hni.
      { intros Hi'. apply Hne. by eapply core_unique. }
      rewrite Hfr2; [done|..]; [intros ->|intros ?|intros ?]; apply Hni; rewrite El; set_solver.
    + eapply segment_frame; [|exact Hl]. intros i Hi. rewrite Hfr; [done|intros ->; set_solver|]. intros Hiy. by apply (Hyout i).
    + cbn. rewrite (core_size _ _ _ _ Hcore c cx Hcx), El, !zlen_app, !zlen_cons. lia.
    + cbn. rewrite (core_yes_size _ _ _ _ Hcore c cx Hcx), zlen_cons. lia.
    + rewrite <-app_assoc. apply NoDup_app. split_and!; [done| |].
      * intros i Hi [Hi'|[->|Hi']%elem_of_cons]%elem_of_app; [apply (Hd1 i Hi); set_solver|set_solver|apply (Hd1 i Hi); set_solver].
      * apply NoDup_app. split_and!; [done| |constructor; [set_solver|done]].
        intros i Hi [->|Hi']%elem_of_cons; [set_solver|by apply (Hd2 i Hi)].
  - destruct Hmark as [M1 M2 M3 M4 M5]. split; cbn [elements_ yes_counter_ visited_classes_]; try done.
    + intros c' a y Ha Hy'. assert (a ≠ e ∧ a ∈ nl c') as [Hae Ha'].
      { destruct (decide (c' = c)) as [->|Hc']; [rewrite fn_lookup_insert in Ha|rewrite fn_lookup_insert_ne in Ha by done].
        - split; [intros ->; set_solver|rewrite El; set_solver].
        - split; [|done]. intros ->. apply Hn in Ha as [? _]. congruence. }
      destruct (Hmk a y Hae Hy') as (z & Hz & <-). by apply (M1 c' a).
    + intros c' a y Ha Hy'. destruct (decide (a = e)) as [->|Hae].
      { rewrite (vget_vset_eq _ _ _ _ E2) in Hy'. by injection Hy' as <-. }
      destruct (Hmk a y Hae Hy') as (z & Hz & <-). apply (M2 c' a); [|done].
      destruct (decide (c' = c)) as [->|Hc']; [rewrite fn_lookup_insert in Ha; set_solver|by rewrite fn_lookup_insert_ne in Ha].
    + intros c'. pose proof (linked_head _ _ _ _ Hyl) as Hh.
      assert ((0 <=? yes_head cx) = bool_decide (yl c ≠ [])) as ->.
      { rewrite Hh. destruct (yl c) as [|a r] eqn:Ey; [done|]. simpl. apply Z.leb_le.
        eapply segment_nonneg; [exact Hyl|left]. }
      destruct (decide (c' = c)) as [->|Hc'].
      * rewrite fn_lookup_insert. case_bool_decide as Hne; [split; [done|]; intros _; by apply M3|]. set_solver.
      * rewrite fn_lookup_insert_ne by done. pose proof (M3 c'). case_bool_decide; set_solver.
    + pose proof (linked_head _ _ _ _ Hyl) as Hh. destruct (Z.leb_spec 0 (yes_head cx)) as [|Hneg]; [done|].
      apply NoDup_app. split_and!; [done| |apply NoDup_singleton]. intros c' Hc' ->%list_elem_of_singleton.
      apply M3 in Hc'. destruct (yl c) as [|a r] eqn:Ey; [done|]. simpl in Hh.
      pose proof (segment_nonneg _ _ _ _ _ _ Hyl a ltac:(left)). lia.
  - intros c' a. destruct (decide (c' = c)) as [->|Hc'].
    + rewrite fn_lookup_insert. transitivity (a ∈ nl c ∧ a ≠ e); [|rewrite Hn; set_solver]. rewrite El. set_solver.
    + rewrite fn_lookup_insert_ne by done. rewrite Hn. split; intros [? ?]; (split; [done|]); [|set_solver].
      intros [->%elem_of_singleton|?]%elem_of_union; [congruence|done].
  - intros c' a. destruct (decide (c' = c)) as [->|Hc'].
    + rewrite fn_lookup_insert, elem_of_cons, Hy. set_solver.
    + rewrite fn_lookup_insert_ne by done. rewrite Hy. split; intros [? ?]; (split; [done|]); [set_solver|].
      assert (a ≠ e) by congruence. set_solver.
Qed.
