(* ===== verification/PartitionSplit.v ===== *)
(** The split of a partition (openfst/lib/partition.h, [SplitRefine] and
[FinalizeSplit]), from a new partition on: it keeps together exactly the elements that
were together before and lie on the same side, and the smaller parts get the new
numbers, in the order of the queue.  And what a client sees of a partition. *)
From stdpp Require Import functions.
From S2P Require Import Prelude Partition.
Local Open Scope Z_scope.

Implicit Types (P : Partition) (e c : Z) (els : list Element) (cs : list Class_).

(** * Splitting *)

Lemma rename_segment (m : Z) l : ∀ els c prev head fuel,
  segment els c prev head l (-1) → NoDup l → (length l ≤ fuel)%nat →
  ∃ els', rename_class fuel els head m = Some els' ∧ segment els' m prev head l (-1) ∧
    (∀ i, i ∉ l → els'.[i] = els.[i]) ∧ (∀ i, yes <$> els'.[i] = yes <$> els.[i]).
Proof.
  induction l as [|e l IH]; intros els c prev head fuel Hs Hnd Hfuel; simpl in *.
  { subst head. exists els. by destruct fuel. }
  destruct Hs as (-> & x & Hx & Hc & Hp & Hs). apply NoDup_cons in Hnd as [He Hnd].
  destruct fuel as [|fuel]; [lia|]. cbn [rename_class]. pose proof (vget_range _ _ _ Hx) as Hr.
  rewrite (proj2 (Z.ltb_ge e 0)) by lia. rewrite Hx. cbn [mbind option_bind].
  set (y := MkElement _ _ _ _). pose proof (vset_is_Some els e y Hr) as Hset. rewrite Hset. cbn [mbind option_bind].
  destruct (IH (<[Z.to_nat e := y]> els) c e (next_element x) fuel) as (els' & -> & Hs' & Hf & Hyes); [|done|lia|].
  { eapply segment_frame; [|done]. intros i Hi. by rewrite (vget_vset_ne _ _ _ _ _ Hset) by (by intros ->). }
  exists els'. split; [done|]. split; [|split].
  - split; [done|]. exists y. rewrite Hf by done. by rewrite (vget_vset_eq _ _ _ _ Hset).
  - intros i [Hi Hil]%not_elem_of_cons. rewrite Hf by done. by apply (vget_vset_ne _ _ _ _ _ Hset).
  - intros i. rewrite Hyes, (vget_vset _ _ _ i _ Hset). case_decide as Hi; [|done]. subst i. by rewrite Hx.
Qed.

Lemma linked_length els c head l : linked els c head l → NoDup l → (length l ≤ length els)%nat.
Proof.
  intros Hs Hnd. assert (l ⊆+ seqZ 0 (zlen els)) as Hsub%submseteq_length.
  { apply NoDup_submseteq; [done|]. intros e He. destruct (segment_get _ _ _ _ _ _ _ Hs He) as (x & Hx%vget_range & _).
    apply elem_of_seqZ. lia. }
  rewrite length_seqZ in Hsub. unfold zlen in Hsub. lia.
Qed.

(** What [SplitRefine] keeps, before the marks are reset. *)
Record refinable P (cls : gmap Z Z) (Y : gset Z) (nl yl : Z → list Z) : Prop := {
  ref_core : core (elements_ P) (classes_ P) nl yl;
  ref_no : ∀ c e, e ∈ nl c ↔ cls !! e = Some c ∧ e ∉ Y;
  ref_yes : ∀ c e, e ∈ yl c ↔ cls !! e = Some c ∧ e ∈ Y;
}.

Record same_frame P P' : Prop := {
  frame_yes : ∀ i, yes <$> (elements_ P').[i] = yes <$> (elements_ P).[i];
  frame_visited : visited_classes_ P' = visited_classes_ P;
  frame_counter : yes_counter_ P' = yes_counter_ P;
}.

Lemma same_frame_trans P1 P2 P3 : same_frame P1 P2 → same_frame P2 P3 → same_frame P1 P3.
Proof. intros [A1 A2 A3] [B1 B2 B3]. split; [intros i; by rewrite B1|by rewrite B2|by rewrite B3]. Qed.

Lemma core_allocate els cs (nl yl : Z → list Z) n :
  core els cs nl yl → core els (cs ++ replicate n Class_new) nl yl.
Proof.
  intros [Hn Hy Hs Hys Ho Hnd].
  assert (∀ c x, (cs ++ replicate n Class_new).[c] = Some x → cs.[c] = Some x ∨ x = Class_new ∧ nl c = [] ∧ yl c = []) as Hget.
  { intros c x. rewrite vget_app. case_decide as Hc; [by left|]. intros Hx. right.
    split; [by apply vget_elem_of, elem_of_replicate_inv in Hx|]. apply Ho, vget_None. lia. }
  split; try done.
  - intros c x [?|(-> & E & _)]%Hget; [by apply Hn|]. by rewrite E.
  - intros c x [?|(-> & _ & E)]%Hget; [by apply Hy|]. by rewrite E.
  - intros c x [?|(-> & E & E')]%Hget; [by apply Hs|]. by rewrite E, E'.
  - intros c x [?|(-> & _ & E)]%Hget; [by apply Hys|]. by rewrite E.
  - intros c Hc. apply Ho. apply vget_None. apply vget_None in Hc. rewrite zlen_app in Hc.
    pose proof (zlen_nonneg (replicate n Class_new)). lia.
Qed.

(** A class all of whose elements are marked. *)
Lemma SplitRefine_all P cls Y nl yl c :
  refinable P cls Y nl yl → is_Some ((classes_ P).[c]) → nl c = [] →
  ∃ P', SplitRefine P c = Some (P', -1) ∧ refinable P' cls (filter (λ e, cls !! e ≠ Some c) Y) (<[c := yl c]> nl) (<[c := []]> yl) ∧
    same_frame P P' ∧ NumClasses P' = NumClasses P ∧ (∀ c', c' ≠ c → (classes_ P').[c'] = (classes_ P).[c']).
Proof.
  intros [Hcore Hn Hy] [cx Hcx] Hnil. unfold SplitRefine. rewrite Hcx. cbn [mbind option_bind]. cbv zeta.
  pose proof (core_size _ _ _ _ Hcore c cx Hcx) as Hs. pose proof (core_yes_size _ _ _ _ Hcore c cx Hcx) as Hys.
  rewrite Hnil, zlen_nil in Hs. rewrite (proj2 (Z.eqb_eq _ 0)) by lia.
  set (cx' := MkClass _ _ _ _). pose proof (vset_is_Some (classes_ P) c cx' (vget_range _ _ _ Hcx)) as Hset. rewrite Hset.
  cbn [mbind option_bind]. eexists. split; [done|]. split_and!; [|by split|by apply zlen_insert|].
  - split; cbn [elements_ classes_].
    + eapply core_update; [exact Hcore|exact Hset|done|exact (core_yes _ _ _ _ Hcore c cx Hcx)|done|cbn; rewrite zlen_nil; lia|done|].
      rewrite app_nil_r. pose proof (core_nodup _ _ _ _ Hcore c) as Hnd. by apply NoDup_app in Hnd as (_ & _ & ?).
    + intros c' e. rewrite elem_of_filter. destruct (decide (c' = c)) as [->|Hc'].
      * rewrite fn_lookup_insert, Hy. split; [naive_solver|]. intros [He Hno]. split; [done|].
        destruct (decide (e ∈ Y)); [done|]. assert (e ∈ nl c) as Hin by by apply Hn. rewrite Hnil in Hin. by apply not_elem_of_nil in Hin.
      * rewrite fn_lookup_insert_ne by done. rewrite Hn. naive_solver.
    + intros c' e. rewrite elem_of_filter. destruct (decide (c' = c)) as [->|Hc'].
      * rewrite fn_lookup_insert. split; [by intros ?%not_elem_of_nil|naive_solver].
      * rewrite fn_lookup_insert_ne by done. rewrite Hy. naive_solver.
  - intros c' Hc'. by apply (vget_vset_ne _ _ _ _ _ Hset).
Qed.

Definition assign (l : list Z) (m : Z) (cls : gmap Z Z) : gmap Z Z := foldr (λ e, <[e := m]>) cls l.

Lemma assign_lookup l m cls e : assign l m cls !! e = if decide (e ∈ l) then Some m else cls !! e.
Proof.
  induction l as [|a l IH]; simpl; [destruct (decide (e ∈ [])) as [He|]; [by apply not_elem_of_nil in He|done]|].
  destruct (decide (e = a)) as [->|Hne].
  - rewrite lookup_insert_eq. destruct (decide (a ∈ a :: l)) as [|Ha]; [done|]. destruct Ha. left.
  - rewrite lookup_insert_ne, IH by done. destruct (decide (e ∈ l)), (decide (e ∈ a :: l)); set_solver.
Qed.

(** A class with elements of both kinds: the fewer ones become a new class. *)
Lemma SplitRefine_cut P cls Y nl yl c :
  refinable P cls Y nl yl → is_Some ((classes_ P).[c]) → nl c ≠ [] → yl c ≠ [] →
  let m := NumClasses P in
  let small := if zlen (nl c) <? zlen (yl c) then nl c else yl c in
  let large := if zlen (nl c) <? zlen (yl c) then yl c else nl c in
  ∃ P', SplitRefine P c = Some (P', m) ∧
    refinable P' (assign small m cls) (filter (λ e, cls !! e ≠ Some c) Y)
      (<[m := small]> (<[c := large]> nl)) (<[m := []]> (<[c := []]> yl)) ∧
    same_frame P P' ∧ NumClasses P' = m + 1 ∧ (∀ c', c' ≠ c → c' ≠ m → (classes_ P').[c'] = (classes_ P).[c']) ∧
    ClassSize P' m = Some (zlen small) ∧ ClassSize P' c = Some (zlen large).
Proof.
  intros [Hcore Hn Hy] [cx Hcx] Hnn Hyn m small large. assert (m = zlen (classes_ P)) as Em by done. pose proof (vget_range _ _ _ Hcx) as Hr.
  pose proof (core_size _ _ _ _ Hcore c cx Hcx) as Hs. pose proof (core_yes_size _ _ _ _ Hcore c cx Hcx) as Hys.
  assert (∀ l : list Z, l ≠ [] → 0 < zlen l) as Hpos by (intros [|a l] Hl; [done|]; rewrite zlen_cons; pose proof (zlen_nonneg l); lia).
  unfold SplitRefine. rewrite Hcx. cbn [mbind option_bind]. cbv zeta.
  assert (size_ cx - yes_size cx = zlen (nl c)) as -> by lia. rewrite Hys.
  rewrite (proj2 (Z.eqb_neq _ 0)) by (pose proof (Hpos _ Hnn); lia).
  set (hs := if zlen (nl c) <? zlen (yl c) then no_head cx else yes_head cx).
  set (hl := if zlen (nl c) <? zlen (yl c) then yes_head cx else no_head cx).
  assert ((if zlen (nl c) <? zlen (yl c)
    then (MkClass (zlen (yl c)) 0 (yes_head cx) (-1), MkClass (zlen (nl c)) 0 (no_head cx) (-1))
    else (MkClass (zlen (nl c)) 0 (no_head cx) (-1), MkClass (zlen (yl c)) 0 (yes_head cx) (-1))) =
    (MkClass (zlen large) 0 hl (-1), MkClass (zlen small) 0 hs (-1))) as ->.
  { unfold large, small, hl, hs. by destruct (_ <? _). }
  assert (linked (elements_ P) c hs small) as Hsl.
  { unfold hs, small. destruct (_ <? _); [exact (core_no _ _ _ _ Hcore c cx Hcx)|exact (core_yes _ _ _ _ Hcore c cx Hcx)]. }
  assert (linked (elements_ P) c hl large) as Hll.
  { unfold hl, large. destruct (_ <? _); [exact (core_yes _ _ _ _ Hcore c cx Hcx)|exact (core_no _ _ _ _ Hcore c cx Hcx)]. }
  assert (∀ e, e ∈ small ↔ e ∈ nl c ++ yl c ∧ e ∉ large) as Hsm.
  { pose proof (core_nodup _ _ _ _ Hcore c) as Hnd. apply NoDup_app in Hnd as (_ & Hd & _).
    intros e. rewrite elem_of_app. specialize (Hd e). unfold small, large. destruct (_ <? _); naive_solver. }
  assert (∀ e, e ∈ large → e ∈ nl c ++ yl c) as Hla.
  { intros e. rewrite elem_of_app. unfold large. destruct (_ <? _); naive_solver. }
  assert (NoDup small ∧ NoDup large) as [Hnds Hndl].
  { pose proof (core_nodup _ _ _ _ Hcore c) as Hnd. apply NoDup_app in Hnd as (? & _ & ?). unfold small, large. by destruct (_ <? _). }
  pose proof (core_allocate _ _ _ _ 1 Hcore) as Hcore1. cbn [replicate] in Hcore1.
  assert (zlen (classes_ P ++ [Class_new]) = m + 1) as Hlen by (rewrite zlen_app; done).
  assert (0 ≤ c < zlen (classes_ P ++ [Class_new])) as Hr1 by lia.
  pose proof (vset_is_Some _ c (MkClass (zlen large) 0 hl (-1)) Hr1) as Hset1. rewrite Hset1. cbn [mbind option_bind].
  set (cs1 := <[Z.to_nat c := _]> _) in *. pose proof (vset_len _ _ _ _ Hset1) as Hlen1.
  assert (0 ≤ m < zlen cs1) as Hr2 by lia.
  pose proof (vset_is_Some _ m (MkClass (zlen small) 0 hs (-1)) Hr2) as Hset2. change (zlen (classes_ P)) with m. rewrite Hset2. cbn [mbind option_bind].
  set (cs2 := <[Z.to_nat m := _]> _) in *. cbn [no_head].
  destruct (rename_segment m small (elements_ P) c (-1) hs (length (elements_ P)) Hsl Hnds) as (els' & -> & Hsl' & Hf & Hyes); [by eapply linked_length|].
  cbn [mbind option_bind]. eexists. split; [done|].
  assert (m ≠ c) as Hmc by lia.
  assert (core (elements_ P) cs1 (<[c := large]> nl) (<[c := []]> yl)) as Hcore2.
  { eapply core_update; [exact Hcore1|exact Hset1|done|exact Hll|done|change (zlen large = zlen large + 0); lia|done|by rewrite app_nil_r]. }
  assert ((classes_ P).[m] = None) as Hm by (apply vget_None; lia).
  destruct (core_out _ _ _ _ Hcore m Hm) as [Em1 Em2].
  split_and!; cbn [ClassSize classes_ NumClasses].
  - split; cbn [elements_ classes_].
    + eapply core_update; [exact Hcore2|exact Hset2| |exact Hsl'|done|change (zlen small = zlen small + 0); lia|done|by rewrite app_nil_r].
      intros c' i Hne Hi. rewrite Hf; [done|]. intros Hin. apply Hsm in Hin as [Hin Hnl].
      destruct (decide (c' = c)) as [->|Hc']; [rewrite !fn_lookup_insert, app_nil_r in Hi; done|].
      rewrite !fn_lookup_insert_ne in Hi by done. apply Hc'. by eapply (core_unique _ _ _ _ Hcore).
    + intros c' e. rewrite assign_lookup, elem_of_filter. destruct (decide (c' = m)) as [->|Hcm].
      * rewrite fn_lookup_insert. split.
        -- intros He. rewrite decide_True by done. split; [done|]. apply Hsm in He as [[He|He]%elem_of_app _]; [apply Hn in He|apply Hy in He]; naive_solver.
        -- case_decide; [done|]. intros [He _]. exfalso. assert (e ∈ nl m ++ yl m) as Hin.
           { apply elem_of_app. destruct (decide (e ∈ Y)); [right; by apply Hy|left; by apply Hn]. }
           rewrite Em1, Em2 in Hin. by apply not_elem_of_nil in Hin.
      * rewrite fn_lookup_insert_ne by done. destruct (decide (c' = c)) as [->|Hc'].
        -- rewrite fn_lookup_insert. split.
           ++ intros He. rewrite decide_False by (rewrite Hsm; naive_solver).
              apply Hla, elem_of_app in He as [He|He]; [apply Hn in He|apply Hy in He]; naive_solver.
           ++ case_decide as Hes; [naive_solver|]. intros [He _]. destruct (decide (e ∈ large)) as [|Hel]; [done|].
              destruct Hes. apply Hsm. split; [|done]. apply elem_of_app. destruct (decide (e ∈ Y)); [right; by apply Hy|left; by apply Hn].
        -- rewrite fn_lookup_insert_ne, Hn by done. case_decide as Hes; [|naive_solver].
           apply Hsm in Hes as [[He|He]%elem_of_app _]; [apply Hn in He|apply Hy in He]; naive_solver.
    + intros c' e. rewrite assign_lookup, elem_of_filter. destruct (decide (c' = m)) as [->|Hcm].
      * rewrite fn_lookup_insert. split; [by intros ?%not_elem_of_nil|]. case_decide as Hes.
        -- apply Hsm in Hes as [[He|He]%elem_of_app _]; [apply Hn in He|apply Hy in He]; naive_solver.
        -- intros [He [_ HeY]]. assert (e ∈ yl m) as Hin by by apply Hy. by rewrite Em2 in Hin.
      * rewrite fn_lookup_insert_ne by done. destruct (decide (c' = c)) as [->|Hc'].
        -- rewrite fn_lookup_insert. split; [by intros ?%not_elem_of_nil|]. case_decide; naive_solver.
        -- rewrite fn_lookup_insert_ne, Hy by done. case_decide as Hes; [|naive_solver].
           apply Hsm in Hes as [[He|He]%elem_of_app _]; [apply Hn in He|apply Hy in He]; naive_solver.
  - split; [exact Hyes|done..].
  - change (zlen cs2 = m + 1). rewrite (vset_len _ _ _ _ Hset2). by rewrite Hlen1.
  - intros c' Hc' Hm'. change (cs2.[c'] = (classes_ P).[c']). rewrite (vget_vset_ne _ _ _ _ _ Hset2), (vget_vset_ne _ _ _ _ _ Hset1) by done.
    rewrite vget_app. case_decide as Hlt; [done|]. 
    rewrite (proj2 (vget_None (classes_ P) c')) by lia. apply vget_None. change (zlen [Class_new]) with 1. lia.
  - unfold ClassSize. change ((x ← cs2.[m]; Some (size_ x)) = Some (zlen small)). by rewrite (vget_vset_eq _ _ _ _ Hset2).
  - unfold ClassSize. change ((x ← cs2.[c]; Some (size_ x)) = Some (zlen large)).
    rewrite (vget_vset_ne _ _ _ _ _ Hset2), (vget_vset_eq _ _ _ _ Hset1) by done. done.
Qed.

(** The new classes are put in the queue in the order of their numbers. *)
Definition enqueue_all {Q} (enqueue : option (Q → Z → option Q)) (ids : list Z) (queue : Q) : option Q :=
  match enqueue with Some enqueue => foldM enqueue ids queue | None => Some queue end.

Definition split_step {Q} (enqueue : option (Q → Z → option Q)) : Partition * Q → Z → option (Partition * Q) :=
  λ '(P, queue) visited_class,
    '(P, new_class) ← SplitRefine P visited_class;
    match enqueue with
    | Some enqueue => if negb (new_class =? -1) then queue ← enqueue queue new_class; Some (P, queue) else Some (P, queue)
    | None => Some (P, queue)
    end.

(** [cls'] cuts each class of [vs] along [Y]; the smaller parts got new numbers. *)
Record cut (vs : list Z) P (cls : gmap Z Z) (Y : gset Z) P' (cls' : gmap Z Z) : Prop := {
  cut_dom : ∀ e, is_Some (cls' !! e) ↔ is_Some (cls !! e);
  cut_same : ∀ e e', is_Some (cls !! e) → is_Some (cls !! e') →
    cls' !! e = cls' !! e' ↔ cls !! e = cls !! e' ∧ (e ∈ Y ↔ e' ∈ Y);
  cut_old : ∀ e c, cls' !! e = Some c → c < NumClasses P → cls !! e = Some c;
  cut_new : ∀ k, NumClasses P ≤ k < NumClasses P' → ∃ c n n', c ∈ vs ∧
    (∀ e, cls' !! e = Some k → cls !! e = Some c) ∧ ClassSize P' k = Some n ∧ ClassSize P' c = Some n' ∧ 0 < n ≤ n';
  cut_rest : ∀ c, c < NumClasses P → c ∉ vs → (classes_ P').[c] = (classes_ P).[c];
  cut_more : NumClasses P ≤ NumClasses P';
  cut_frame : same_frame P P';
}.

Lemma cut_nil P cls (Y : gset Z) : (∀ e, is_Some (cls !! e) → e ∉ Y) → cut [] P cls Y P cls.
Proof.
  intros HY. split; try done; [|lia].
  intros e e' He He'. pose proof (HY e He). pose proof (HY e' He'). tauto.
Qed.

(** One class more: [cls1] differs from [cls] at most on class [c]. *)
Lemma cut_cons c vs P cls Y P1 cls1 P' cls' :
  cut [c] P cls (filter (λ e, cls !! e = Some c) Y) P1 cls1 →
  cut vs P1 cls1 (filter (λ e, cls !! e ≠ Some c) Y) P' cls' →
  c ∉ vs → (∀ c', c' ∈ c :: vs → c' < NumClasses P) → cut (c :: vs) P cls Y P' cls'.
Proof.
  intros [D1 S1 O1 N1 R1 M1 F1] [D2 S2 O2 N2 R2 M2 F2] Hc Hvs. split.
  - intros e. by rewrite D2, D1.
  - intros e e' He He'. rewrite S2, S1 by (done || by apply D1). rewrite !elem_of_filter.
    destruct (decide (cls !! e = cls !! e')) as [E|]; [|tauto]. rewrite E.
    destruct (decide (cls !! e' = Some c)); tauto.
  - intros e k Hk Hlt. apply O1; [|done]. apply O2; [done|lia].
  - intros k Hk. destruct (decide (k < NumClasses P1)) as [Hlt|Hge].
    + destruct (N1 k ltac:(lia)) as (c1 & n & n' & ->%list_elem_of_singleton & Hin & Hn & Hn' & Hle).
      exists c, n, n'. split; [left|]. split_and!; [| | |lia..].
      * intros e He. apply Hin, O2; [done|lia].
      * unfold ClassSize in *. rewrite R2; [done|lia|]. intros Hkv. assert (k < NumClasses P) by (apply Hvs; by right). lia.
      * unfold ClassSize in *. rewrite R2; [done| |done]. assert (c < NumClasses P) by (apply Hvs; left). lia.
    + destruct (N2 k ltac:(lia)) as (c1 & n & n' & Hc1 & Hin & Hrest). exists c1, n, n'. split; [by right|]. split; [|done].
      intros e He. apply O1; [by apply Hin|]. apply Hvs. by right.
  - intros c' Hlt [Hne Hnv]%not_elem_of_cons. rewrite R2 by (done || lia). apply R1; [done|]. by intros ->%list_elem_of_singleton.
  - lia.
  - by eapply same_frame_trans.
Qed.

Lemma class_range els cs (nl yl : Z → list Z) c : core els cs nl yl → nl c ++ yl c ≠ [] → 0 ≤ c < zlen cs.
Proof.
  intros Hcore Hne. destruct (nl c ++ yl c) as [|e l] eqn:E; [done|].
  destruct (core_class _ _ _ _ Hcore c e) as (x & _ & _ & Hc); [rewrite E; left|]. by apply vget_is_Some.
Qed.

Lemma refinable_class P cls Y nl yl e c : refinable P cls Y nl yl → cls !! e = Some c → 0 ≤ c < NumClasses P.
Proof.
  intros [Hc Hn Hy] He. eapply class_range; [exact Hc|]. assert (e ∈ nl c ++ yl c) as Hin; [|intros E; rewrite E in Hin; by apply not_elem_of_nil in Hin].
  apply elem_of_app. destruct (decide (e ∈ Y)); [right; by apply Hy|left; by apply Hn].
Qed.

(** Renaming the elements of [c] on one side tells the two sides apart. *)
Lemma side_split (cls : gmap Z Z) (Y : gset Z) (small : list Z) c (m : Z) (b : bool) e e' :
  (∀ a, a ∈ small ↔ cls !! a = Some c ∧ bool_decide (a ∈ Y) = b) → (∀ a, cls !! a ≠ Some m) →
  (if decide (e ∈ small) then Some m else cls !! e) = (if decide (e' ∈ small) then Some m else cls !! e') ↔
  cls !! e = cls !! e' ∧ (cls !! e = Some c ∧ e ∈ Y ↔ cls !! e' = Some c ∧ e' ∈ Y).
Proof.
  intros Hb Hm. pose proof (Hb e) as B1. pose proof (Hb e') as B2. pose proof (Hm e) as M1. pose proof (Hm e') as M2.
  rewrite <-(bool_decide_spec (e ∈ Y)), <-(bool_decide_spec (e' ∈ Y)).
  generalize dependent (bool_decide (e ∈ Y)). generalize dependent (bool_decide (e' ∈ Y)). intros b2 B2 b1 B1.
  destruct (decide (e ∈ small)) as [H1|H1], (decide (e' ∈ small)) as [H2|H2].
  - apply B1 in H1 as [-> ->]. apply B2 in H2 as [-> ->]. tauto.
  - apply B1 in H1 as [E1 ->]. split; [intros E; by rewrite E in M2|]. intros [E [F G]]. destruct H2. apply B2.
    rewrite E1 in *. split; [done|]. destruct b, b2; try done; [by destruct F|by destruct G].
  - apply B2 in H2 as [E2 ->]. split; [intros E; by rewrite <-E in M1|]. intros [E [F G]]. destruct H1. apply B1.
    rewrite E, E2 in *. split; [done|]. destruct b, b1; try done; [by destruct G|by destruct F].
  - split; [|by intros [? _]]. intros E. split; [done|]. rewrite E in *.
    destruct (decide (cls !! e' = Some c)) as [Ec|Ec]; [|tauto].
    assert (b1 ≠ b) by (intros ->; by apply H1, B1). assert (b2 ≠ b) by (intros ->; by apply H2, B2). by destruct b, b1, b2.
Qed.

(** One step of the loop. *)
Lemma SplitRefine_ok P cls Y nl yl c :
  refinable P cls Y nl yl → yl c ≠ [] →
  ∃ P1 r cls1 nl1 yl1, SplitRefine P c = Some (P1, r) ∧
    cut [c] P cls (filter (λ e, cls !! e = Some c) Y) P1 cls1 ∧
    refinable P1 cls1 (filter (λ e, cls !! e ≠ Some c) Y) nl1 yl1 ∧
    (∀ e, cls !! e ≠ Some c → cls1 !! e = cls !! e) ∧
    (∀ c', yl1 c' ≠ [] ↔ c' ≠ c ∧ yl c' ≠ []) ∧
    (r = -1 ∧ NumClasses P1 = NumClasses P ∨ r = NumClasses P ∧ NumClasses P1 = NumClasses P + 1).
Proof.
  intros Href Hyc. pose proof Href as [Hcore Hn Hy].
  assert (0 ≤ c < NumClasses P) as Hr by (eapply class_range; [exact Hcore|]; intros [_ ?]%app_eq_nil; done).
  assert (is_Some ((classes_ P).[c])) as Hcs by by apply vget_is_Some.
  destruct (decide (nl c = [])) as [Hnil|Hnn].
  - destruct (SplitRefine_all P cls Y nl yl c Href Hcs Hnil) as (P1 & E & Href1 & Hf & HN & Hrest).
    exists P1, (-1), cls, (<[c := yl c]> nl), (<[c := []]> yl). split; [done|]. split; [|split; [done|split; [done|split; [|by left]]]].
    + split; try done; [|lia| |lia].
      * intros e e' He He'. rewrite !elem_of_filter. split; [|tauto]. intros E'. split; [done|]. rewrite E'.
        destruct (decide (cls !! e' = Some c)) as [Ec|]; [|tauto].
        assert (∀ a, cls !! a = Some c → a ∈ Y) as Hall.
        { intros a Ha. destruct (decide (a ∈ Y)); [done|]. assert (a ∈ nl c) as Hin by by apply Hn. rewrite Hnil in Hin. by apply not_elem_of_nil in Hin. }
        assert (e ∈ Y ∧ e' ∈ Y) as [? ?] by (split; apply Hall; congruence). by split.
      * intros c' _ Hc'. apply Hrest. intros ->. apply Hc'. left.
    + intros c'. destruct (decide (c' = c)) as [->|]; [rewrite fn_lookup_insert; naive_solver|]. rewrite fn_lookup_insert_ne by done. naive_solver.
  - destruct (SplitRefine_cut P cls Y nl yl c Href Hcs Hnn Hyc) as (P1 & E & Href1 & Hf & HN & Hrest & Hs1 & Hs2).
    set (m := NumClasses P) in *. set (small := if zlen (nl c) <? zlen (yl c) then nl c else yl c) in *.
    set (large := if zlen (nl c) <? zlen (yl c) then yl c else nl c) in *.
    assert (∃ b, ∀ e, e ∈ small ↔ cls !! e = Some c ∧ bool_decide (e ∈ Y) = b) as [b Hb].
    { unfold small. destruct (_ <? _); [exists false|exists true]; intros e; rewrite ?Hn, ?Hy, ?bool_decide_eq_false, ?bool_decide_eq_true; done. }
    exists P1, m, (assign small m cls), (<[m := small]> (<[c := large]> nl)), (<[m := []]> (<[c := []]> yl)).
    assert (∀ e, cls !! e ≠ Some m) as Hm by (intros e He; pose proof (refinable_class _ _ _ _ _ _ _ Href He); unfold m in *; lia).
    assert (0 < zlen small ≤ zlen large) as Hsz.
    { assert (∀ l : list Z, l ≠ [] → 0 < zlen l) as Hpos by (intros [|a l] Hl; [done|]; rewrite zlen_cons; pose proof (zlen_nonneg l); lia).
      pose proof (Hpos _ Hnn). pose proof (Hpos _ Hyc). unfold small, large. destruct (Z.ltb_spec (zlen (nl c)) (zlen (yl c))); lia. }
    split; [done|]. split; [|split; [done|split; [|split; [|by right]]]].
    + split; try done; [..|lia].
      * intros e. rewrite assign_lookup. case_decide as He; [|done]. apply Hb in He as [-> _]. by split; eexists.
      * intros e e' He He'. rewrite !assign_lookup, !elem_of_filter. by apply side_split with b.
      * intros e k. rewrite assign_lookup. case_decide; [|done]. intros [= <-]. fold m. lia.
      * intros k Hk. exists c, (zlen small), (zlen large). split; [left|]. assert (k = m) as -> by (unfold m in *; lia). split_and!; [|done|done|lia..].
        intros e. rewrite assign_lookup. case_decide as He; [|by intros ?%Hm]. by apply Hb in He as [-> _].
      * intros c' Hlt Hc'. apply Hrest; [intros ->; apply Hc'; left|]. unfold m. lia.
    + intros e He. rewrite assign_lookup. case_decide as Hs; [|done]. by apply Hb in Hs as [? _].
    + intros c'. destruct (decide (c' = m)) as [->|].
      * rewrite fn_lookup_insert. split; [done|]. intros [_ Hym]. exfalso.
        assert (0 ≤ m < zlen (classes_ P)) as Hmr by (eapply class_range; [exact Hcore|]; intros [_ ?]%app_eq_nil; done).
        unfold m, NumClasses in Hmr. lia.
      * rewrite fn_lookup_insert_ne by done. destruct (decide (c' = c)) as [->|]; [rewrite fn_lookup_insert; naive_solver|].
        rewrite fn_lookup_insert_ne by done. naive_solver.
Qed.

Lemma split_step_queue {Q} (enqueue : option (Q → Z → option Q)) P P1 c r (q : Q) :
  SplitRefine P c = Some (P1, r) →
  r = -1 ∧ NumClasses P1 = NumClasses P ∨ r = NumClasses P ∧ NumClasses P1 = NumClasses P + 1 →
  split_step enqueue (P, q) c = (q' ← enqueue_all enqueue (seqZ (NumClasses P) (NumClasses P1 - NumClasses P)) q; Some (P1, q')).
Proof.
  intros E Hr. unfold split_step. rewrite E. cbn [mbind option_bind]. pose proof (zlen_nonneg (classes_ P)) as Hpos.
  change (zlen (classes_ P)) with (NumClasses P) in Hpos.
  destruct Hr as [[-> ->]|[-> ->]].
  - rewrite Z.sub_diag. by destruct enqueue.
  - rewrite (proj2 (Z.eqb_neq _ _)) by lia. assert (NumClasses P + 1 - NumClasses P = 1) as -> by lia.
    rewrite seqZ_cons by lia. destruct enqueue as [f|]; simpl; [|done]. by destruct (f q (NumClasses P)).
Qed.

Lemma enqueue_all_app {Q} (enqueue : option (Q → Z → option Q)) l k (q : Q) :
  enqueue_all enqueue (l ++ k) q = (q ← enqueue_all enqueue l q; enqueue_all enqueue k q).
Proof. destruct enqueue; [apply foldM_app|done]. Qed.

(** The loop over the visited classes, for any queue. *)
Lemma split_loop vs : ∀ P (cls : gmap Z Z) (Y : gset Z) (nl yl : Z → list Z),
  refinable P cls Y nl yl → NoDup vs → (∀ c, c ∈ vs ↔ yl c ≠ []) →
  ∃ P' cls' nl', cut vs P cls Y P' cls' ∧ core (elements_ P') (classes_ P') nl' (λ _, []) ∧
    (∀ c e, e ∈ nl' c ↔ cls' !! e = Some c) ∧
    ∀ Q (enqueue : option (Q → Z → option Q)) (q : Q), foldM (split_step enqueue) vs (P, q) =
      (q' ← enqueue_all enqueue (seqZ (NumClasses P) (NumClasses P' - NumClasses P)) q; Some (P', q')).
Proof.
  induction vs as [|c vs IH]; intros P cls Y nl yl Href Hnd Hvs.
  - assert (∀ c, yl c = []) as Hyl.
    { intros c. destruct (decide (yl c = [])) as [|Hne]; [done|]. apply Hvs in Hne. by apply not_elem_of_nil in Hne. }
    destruct Href as [Hcore Hn Hy].
    assert (∀ e, is_Some (cls !! e) → e ∉ Y) as HY.
    { intros e [c Hc] HeY. assert (e ∈ yl c) as Hin by by apply Hy. rewrite Hyl in Hin. by apply not_elem_of_nil in Hin. }
    exists P, cls, nl. split; [by apply cut_nil|]. split; [|split].
    + destruct Hcore as [A1 A2 A3 A4 A5 A6]. split; [done|..].
      * intros c x Hx. rewrite <-(Hyl c). by apply A2.
      * intros c x Hx. rewrite <-(Hyl c). by apply A3.
      * intros c x Hx. rewrite <-(Hyl c). by apply A4.
      * intros c Hc. split; [by apply A5|done].
      * intros c. rewrite <-(Hyl c). apply A6.
    + intros c e. rewrite Hn. split; [by intros [? _]|]. intros He. split; [done|]. apply HY. by eexists.
    + intros Q enqueue q. rewrite Z.sub_diag. by destruct enqueue.
  - apply NoDup_cons in Hnd as [Hc Hnd]. assert (yl c ≠ []) as Hyc by (apply Hvs; left).
    destruct (SplitRefine_ok P cls Y nl yl c Href Hyc) as (P1 & r & cls1 & nl1 & yl1 & E & Hcut1 & Href1 & _ & Hyl1 & Hr).
    destruct (IH P1 cls1 _ nl1 yl1 Href1 Hnd) as (P' & cls' & nl' & Hcut & Hcore & Hn' & Hrun).
    { intros c'. rewrite Hyl1, <-Hvs, elem_of_cons. split; [|naive_solver]. intros Hin. split; [by intros ->|by right]. }
    exists P', cls', nl'. split; [|split; [done|split; [done|]]].
    + eapply cut_cons; [done..|]. intros c' Hc'%Hvs. eapply class_range; [apply Href|]. by intros [_ ?]%app_eq_nil.
    + intros Q enqueue q. cbn [foldM]. rewrite (split_step_queue enqueue P P1 c r q E Hr).
      pose proof (cut_more _ _ _ _ _ _ Hcut) as Hm1. pose proof (cut_more _ _ _ _ _ _ Hcut1) as Hm2.
      assert (NumClasses P' - NumClasses P = (NumClasses P1 - NumClasses P) + (NumClasses P' - NumClasses P1)) as -> by lia.
      rewrite seqZ_app, enqueue_all_app by lia. assert (NumClasses P + (NumClasses P1 - NumClasses P) = NumClasses P1) as -> by lia.
      destruct (enqueue_all enqueue (seqZ (NumClasses P) _) q) as [q1|]; [|done]. cbn [mbind option_bind]. apply Hrun.
Qed.

(** [cls'] cuts each class of [cls] along [Y], and gives the smaller part a new number. *)
Record cut_along P (cls : gmap Z Z) (Y : gset Z) P' (cls' : gmap Z Z) : Prop := {
  along_dom : ∀ e, is_Some (cls' !! e) ↔ is_Some (cls !! e);
  along_same : ∀ e e', is_Some (cls !! e) → is_Some (cls !! e') →
    cls' !! e = cls' !! e' ↔ cls !! e = cls !! e' ∧ (e ∈ Y ↔ e' ∈ Y);
  along_old : ∀ e c, cls' !! e = Some c → c < NumClasses P → cls !! e = Some c;
  along_new : ∀ k, NumClasses P ≤ k < NumClasses P' → ∃ c n n',
    (∀ e, cls' !! e = Some k → cls !! e = Some c) ∧ ClassSize P' k = Some n ∧ ClassSize P' c = Some n' ∧ 0 < n ≤ n';
}.

Lemma FinalizeSplit_ok (max : Z) P cls Y :
  partitioned P cls Y → yes_counter_ P < max →
  ∃ P' cls', partitioned P' cls' ∅ ∧ cut_along P cls Y P' cls' ∧
    NumClasses P ≤ NumClasses P' ∧ zlen (elements_ P') = zlen (elements_ P) ∧ yes_counter_ P' = yes_counter_ P + 1 ∧
    ∀ Q (enqueue : option (Q → Z → option Q)) (q : Q), FinalizeSplit max enqueue P q =
      (q' ← enqueue_all enqueue (seqZ (NumClasses P) (NumClasses P' - NumClasses P)) q; Some (P', q')).
Proof.
  intros (nl & yl & Hcore & Hmark & Hn & Hy) Hmax.
  destruct (split_loop (visited_classes_ P) P cls Y nl yl) as (P' & cls' & nl' & [C1 C2 C3 C4 _ C6 C7] & Hcore' & Hn' & Hrun);
    [done|apply Hmark|apply Hmark|]. destruct C7 as [F1 F2 F3].
  exists (MkPartition (elements_ P') (classes_ P') [] (yes_counter_ P' + 1)), cls'.
  split_and!; [| |done|by eapply zlen_same|cbn; by rewrite F3|].
  - exists nl', (λ _, []). split_and!; [done| | |].
    + split; cbn [elements_ yes_counter_ visited_classes_].
      * intros c e x He Hx. rewrite F3. pose proof (F1 e) as Hye. rewrite Hx in Hye. cbn in Hye. symmetry in Hye.
        apply fmap_Some in Hye as (z & Hz & Hzy). rewrite Hzy.
        assert (is_Some (cls !! e)) as [c' Hc'] by (apply C1; exists c; by apply Hn').
        destruct (decide (e ∈ Y)).
        -- rewrite (marked_yes _ _ _ Hmark c' e z); [lia| |done]. by apply Hy.
        -- assert (yes z < yes_counter_ P); [|lia]. eapply (marked_no _ _ _ Hmark c' e); [|done]. by apply Hn.
      * by intros c e x ?%not_elem_of_nil.
      * intros c. split; [by intros ?%not_elem_of_nil|done].
      * constructor.
      * rewrite F3. pose proof (marked_counter _ _ _ Hmark). lia.
    + intros c e. rewrite Hn'. set_solver.
    + intros c e. split; [by intros ?%not_elem_of_nil|set_solver].
  - split; [done..|]. intros k Hk. destruct (C4 k Hk) as (c & n & n' & _ & Hrest). by exists c, n, n'.
  - intros Q enqueue q. unfold FinalizeSplit. change (foldM _ (visited_classes_ P) (P, q)) with (foldM (split_step enqueue) (visited_classes_ P) (P, q)).
    rewrite Hrun. change (NumClasses (MkPartition (elements_ P') (classes_ P') [] (yes_counter_ P' + 1))) with (NumClasses P').
    destruct (enqueue_all enqueue _ q) as [q1|]; [|done]. cbn [mbind option_bind].
    by rewrite (proj2 (Z.leb_gt _ _)) by lia.
Qed.

(** * From the start to the end *)

Lemma Initialize_ok P n k :
  visited_classes_ P = [] → 0 ≤ n → 0 ≤ k →
  partitioned (AllocateClasses (Initialize P n) k) ∅ ∅ ∧
  NumClasses (AllocateClasses (Initialize P n) k) = k ∧ zlen (elements_ (AllocateClasses (Initialize P n) k)) = n ∧
  yes_counter_ (AllocateClasses (Initialize P n) k) = 1.
Proof.
  intros Hv Hn Hk. split_and!; [|unfold NumClasses, zlen; simpl; rewrite length_replicate; lia|cbn; unfold vresize, zlen; rewrite length_resize; lia|done].
  exists (λ _, []), (λ _, []). split_and!.
  - split; simpl; try done; try (intros c x Hx; apply vget_elem_of, elem_of_replicate_inv in Hx; by subst x).
    intros c. constructor.
  - split; simpl; rewrite ?Hv; try done; try (by intros c e x ?%not_elem_of_nil); [|constructor].
    intros c. split; [by intros ?%not_elem_of_nil|done].
  - intros c e. split; [by intros ?%not_elem_of_nil|by intros [? _]].
  - intros c e. split; [by intros ?%not_elem_of_nil|by intros [? _]].
Qed.

Lemma AddClass_ok P cls Y :
  partitioned P cls Y → let (P', c) := AddClass P in
  c = NumClasses P ∧ partitioned P' cls Y ∧ NumClasses P' = NumClasses P + 1 ∧
  zlen (elements_ P') = zlen (elements_ P) ∧ yes_counter_ P' = yes_counter_ P.
Proof.
  intros (nl & yl & Hcore & Hmark & Hn & Hy). simpl. split_and!; [done| |unfold NumClasses; simpl; by rewrite zlen_app|done|done].
  exists nl, yl. split_and!; [|by destruct Hmark; split|done|done]. by apply (core_allocate _ _ _ _ 1).
Qed.

(** Putting elements in classes, one after the other. *)
Definition add_all (l : list (Z * Z)) P : option Partition := foldM (λ P '(e, c), Add P e c) l P.

Lemma add_all_ok (l : list (Z * Z)) P cls :
  partitioned P cls ∅ → NoDup l.*1 →
  (∀ e c, (e, c) ∈ l → cls !! e = None ∧ 0 ≤ e < zlen (elements_ P) ∧ 0 ≤ c < NumClasses P) →
  ∃ P', add_all l P = Some P' ∧ partitioned P' (list_to_map l ∪ cls) ∅ ∧ NumClasses P' = NumClasses P ∧
    zlen (elements_ P') = zlen (elements_ P) ∧ yes_counter_ P' = yes_counter_ P.
Proof.
  revert P cls. induction l as [|[e c] l IH]; intros P cls HP Hnd Hin.
  - exists P. simpl. by rewrite (left_id_L ∅ (∪)).
  - simpl in Hnd. apply NoDup_cons in Hnd as [He Hnd]. destruct (Hin e c) as (Hnone & Her & Hcr); [left|].
    destruct (Add_ok P cls ∅ e c) as (P1 & E1 & HP1 & N1 & Z1 & C1); [done..|].
    destruct (IH P1 (<[e := c]> cls)) as (P2 & E2 & HP2 & N2 & Z2 & C2); [done..| |].
    { intros e' c' Hin'. rewrite N1, Z1. destruct (Hin e' c') as (? & ? & ?); [by right|]. rewrite lookup_insert_ne; [done|].
      intros ->. apply He. apply list_elem_of_fmap. by exists (e', c'). }
    exists P2. unfold add_all in *. cbn [foldM]. rewrite E1. cbn [mbind option_bind]. split_and!; [done| |congruence..].
    assert (list_to_map ((e, c) :: l) ∪ cls = list_to_map l ∪ <[e := c]> cls) as ->; [|done].
    simpl. rewrite <-insert_union_l, insert_union_r; [done|]. by apply not_elem_of_list_to_map_1.
Qed.

(** An iterator runs over the elements of the class, each once. *)
Lemma iterate_segment P c (l : list Z) : ∀ (prev head : Z) (fuel : nat),
  segment (elements_ P) c prev head l (-1) → (length l ≤ fuel)%nat → iterate fuel P head = Some l.
Proof.
  induction l as [|e l IH]; intros prev head fuel Hs Hf; simpl in *; [subst head; by destruct fuel|].
  pose proof (segment_nonneg _ _ _ _ (e :: l) (-1) Hs e ltac:(left)) as He.
  destruct Hs as (-> & x & Hx & _ & _ & Hs). destruct fuel as [|fuel]; [lia|]. cbn [iterate].
  unfold PI_Done. rewrite (proj2 (Z.ltb_ge e 0)) by done. unfold PI_Next. rewrite Hx. cbn [mbind option_bind].
  rewrite (IH e); [done..|lia].
Qed.

Lemma partitioned_view P cls :
  partitioned P cls ∅ →
  (∀ e c, cls !! e = Some c → ClassId P e = Some c ∧ 0 ≤ c < NumClasses P) ∧
  (∀ c, 0 ≤ c < NumClasses P → ∃ head l, PartitionIterator P c = Some head ∧ iterate (length (elements_ P)) P head = Some l ∧
    NoDup l ∧ (∀ e, e ∈ l ↔ cls !! e = Some c) ∧ ClassSize P c = Some (zlen l)).
Proof.
  intros HP. pose proof HP as (nl & yl & Hcore & Hmark & Hn & Hy). split.
  - intros e c He. destruct (partitioned_class _ _ _ _ _ HP He) as (x & Hx & Hc & Hr). unfold ClassId. rewrite Hx. cbn.
    rewrite Hc. split; [done|]. by apply vget_is_Some in Hr.
  - intros c Hc. destruct (vget_in_range (classes_ P) c Hc) as [x Hx]. unfold PartitionIterator, ClassSize. rewrite Hx. cbn [mbind option_bind].
    assert (yl c = []) as Eyl.
    { destruct (yl c) as [|a r] eqn:E; [done|]. assert (a ∈ yl c) as Ha by (rewrite E; left). apply Hy in Ha. set_solver. }
    pose proof (core_no _ _ _ _ Hcore c x Hx) as Hl. pose proof (core_nodup _ _ _ _ Hcore c) as Hnd. rewrite Eyl, app_nil_r in Hnd.
    exists (no_head x), (nl c). split_and!; [done| |done| |].
    + eapply iterate_segment; [exact Hl|]. by eapply linked_length.
    + intros e. rewrite Hn. set_solver.
    + rewrite (core_size _ _ _ _ Hcore c x Hx), Eyl, zlen_nil. f_equal. lia.
Qed.

(** The size of a class, also while elements are marked. *)
Lemma partitioned_size P cls Y e c : partitioned P cls Y → cls !! e = Some c →
  ∃ n, ClassSize P c = Some n ∧ (1 < n ↔ ∃ e', e' ≠ e ∧ cls !! e' = Some c).
Proof.
  intros HP He. pose proof HP as (nl & yl & Hcore & _ & Hn & Hy).
  destruct (partitioned_class _ _ _ _ _ HP He) as (_ & _ & _ & x & Hx). unfold ClassSize. rewrite Hx. eexists. split; [done|].
  rewrite (core_size _ _ _ _ Hcore c x Hx), <-zlen_app. pose proof (core_nodup _ _ _ _ Hcore c) as Hnd.
  assert (∀ a, a ∈ nl c ++ yl c ↔ cls !! a = Some c) as Hin.
  { intros a. rewrite elem_of_app, Hn, Hy. destruct (decide (a ∈ Y)); tauto. }
  revert Hnd Hin. generalize (nl c ++ yl c) as l. intros l Hnd Hin. split.
  - intros Hl. destruct l as [|a [|b l]]; [done|done|]. destruct (decide (a = e)) as [->|Hne].
    + exists b. apply NoDup_cons in Hnd as [Hnd _]. split; [intros ->; apply Hnd; left|]. apply Hin. right. left.
    + exists a. split; [done|]. apply Hin. left.
  - intros (e' & Hne & He'). apply Hin in He, He'. destruct l as [|a [|b l]].
    + by apply not_elem_of_nil in He.
    + apply list_elem_of_singleton in He, He'. congruence.
    + rewrite !zlen_cons. pose proof (zlen_nonneg l). lia.
Qed.

Lemma SplitOn_all (l : list Z) P cls Y :
  partitioned P cls Y → (∀ e, e ∈ l → is_Some (cls !! e)) →
  ∃ P', foldM SplitOn l P = Some P' ∧ partitioned P' cls (list_to_set l ∪ Y) ∧ NumClasses P' = NumClasses P ∧
    zlen (elements_ P') = zlen (elements_ P) ∧ yes_counter_ P' = yes_counter_ P.
Proof.
  revert P Y. induction l as [|e l IH]; intros P Y HP Hl.
  - exists P. simpl. by rewrite (left_id_L ∅ (∪)).
  - destruct (Hl e ltac:(left)) as [c He]. destruct (SplitOn_ok P cls Y e c HP He) as (P1 & E1 & HP1 & N1 & Z1 & C1).
    destruct (IH P1 ({[e]} ∪ Y) HP1) as (P2 & E2 & HP2 & N2 & Z2 & C2); [intros e' ?; apply Hl; by right|].
    exists P2. cbn [foldM]. rewrite E1. cbn [mbind option_bind]. split_and!; [done| |congruence..].
    assert (list_to_set (e :: l) ∪ Y = list_to_set l ∪ ({[e]} ∪ Y)) as ->; [set_solver|done].
Qed.

(** C17: A split.  Where [SplitOn] is called on the elements of [l], in any order and
any number of times, and then [FinalizeSplit], the classes are cut along [l]: two
elements are in one class afterwards if and only if they were before and [l] has both
or neither.  Where a class is cut the new number is the smaller part's (so a part that
keeps a number has at least as many elements), the elements of the old number come
from the class of that number, and the queue gets the new numbers in order.  No access
is out of range, and the result is a partition that can be split again. *)
Theorem split_correct (max : Z) P (cls : gmap Z Z) (l : list Z) :
  partitioned P cls ∅ → (∀ e, e ∈ l → is_Some (cls !! e)) → yes_counter_ P < max →
  ∃ P1 P2 cls', foldM SplitOn l P = Some P1 ∧ partitioned P2 cls' ∅ ∧
    (∀ Q (enqueue : option (Q → Z → option Q)) (q : Q), FinalizeSplit max enqueue P1 q =
      (q' ← enqueue_all enqueue (seqZ (NumClasses P) (NumClasses P2 - NumClasses P)) q; Some (P2, q'))) ∧
    (∀ e, is_Some (cls' !! e) ↔ is_Some (cls !! e)) ∧
    (∀ e e', is_Some (cls !! e) → is_Some (cls !! e') → ClassId P2 e = ClassId P2 e' ↔ ClassId P e = ClassId P e' ∧ (e ∈ l ↔ e' ∈ l)) ∧
    (∀ e c, ClassId P2 e = Some c → is_Some (cls !! e) → c < NumClasses P → ClassId P e = Some c) ∧
    (∀ k, NumClasses P ≤ k < NumClasses P2 → ∃ c n n', (∀ e, cls' !! e = Some k → ClassId P e = Some c) ∧
      ClassSize P2 k = Some n ∧ ClassSize P2 c = Some n' ∧ 0 < n ≤ n').
Proof.
  intros HP Hl Hmax. destruct (SplitOn_all l P cls ∅ HP Hl) as (P1 & E1 & HP1 & N1 & _ & C1). rewrite (right_id_L ∅ (∪)) in HP1.
  destruct (FinalizeSplit_ok max P1 cls (list_to_set l) HP1) as (P2 & cls' & HP2 & [A1 A2 A3 A4] & _ & _ & _ & Hrun); [lia|].
  rewrite N1 in *. pose proof (proj1 (partitioned_view P cls HP)) as V. pose proof (proj1 (partitioned_view P2 cls' HP2)) as V2.
  assert (∀ e, is_Some (cls !! e) → ClassId P e = cls !! e) as Hv.
  { intros e [c Hc]. rewrite Hc. by apply V. }
  assert (∀ e, is_Some (cls !! e) → ClassId P2 e = cls' !! e) as Hv2.
  { intros e [c Hc]%A1. rewrite Hc. by apply V2. }
  exists P1, P2, cls'. split_and!; [done..| | |].
  - intros e e' He He'. rewrite !Hv, !Hv2, A2 by done. by rewrite !elem_of_list_to_set.
  - intros e c. intros Hc He Hlt. rewrite Hv2 in Hc by done. rewrite Hv by done. by apply A3.
  - intros k Hk. destruct (A4 k Hk) as (c & n & n' & Hin & Hrest). exists c, n, n'. split; [|done].
    intros e He%Hin. rewrite Hv; [done|by eexists].
Qed.

(** Five elements, three in class 0 and two in class 1; the split is on 3, 1, 4 and 1 again. *)
Definition some_partition : Partition := AllocateClasses (Initialize (MkPartition [] [] [] 0) 5) 2.
Definition some_classes : list (Z * Z) := [(0, 0); (1, 0); (2, 0); (3, 1); (4, 1)].

Example split_runs :
  (P ← add_all some_classes some_partition; P ← foldM SplitOn [3; 1; 4; 1] P;
   '(P, q) ← FinalizeSplit 100 (Some (λ (q : list Z) c, Some (q ++ [c]))) P [];
   Some (q, ClassId P <$> [0; 1; 2; 3; 4], visited_classes_ P)) =
  Some ([2], [Some 0; Some 2; Some 0; Some 1; Some 1], []).
Proof. vm_compute. reflexivity. Qed.

Lemma split_correct_witness :
  ∃ P P1 P2 cls', add_all some_classes some_partition = Some P ∧ foldM SplitOn [3; 1; 4; 1] P = Some P1 ∧ partitioned P2 cls' ∅ ∧
    (ClassId P2 0 = ClassId P2 1 ↔ ClassId P 0 = ClassId P 1 ∧ (0 ∈ [3; 1; 4; 1] ↔ 1 ∈ [3; 1; 4; 1])).
Proof.
  destruct (Initialize_ok (MkPartition [] [] [] 0) 5 2) as (H0 & HN & HZ & HC); [done..|]. fold some_partition in H0, HN, HZ, HC.
  destruct (add_all_ok some_classes some_partition ∅ H0) as (P & E & HP & _ & _ & HCP).
  - simpl. repeat constructor; rewrite ?elem_of_cons; intros ?; repeat (destruct_or!; try done); by eapply not_elem_of_nil.
  - intros e c Hin. rewrite HN, HZ. unfold some_classes in Hin. rewrite !elem_of_cons in Hin.
    destruct_or!; simplify_eq; try (split; [done|lia]). by apply not_elem_of_nil in Hin.
  - destruct (split_correct 100 P (list_to_map some_classes ∪ ∅) [3; 1; 4; 1] HP) as (P1 & P2 & cls' & E1 & HP2 & _ & _ & Hsame & _).
    + intros e He. apply list_elem_of_In in He. simpl in He. rewrite (right_id_L ∅ (∪)). destruct He as [<-|[<-|[<-|[<-|[]]]]]; by eexists.
    + lia.
    + exists P, P1, P2, cls'. split_and!; [done..|]. apply Hsame; rewrite (right_id_L ∅ (∪)); by eexists.
Defined.
