(* ===== verification/ArcMap.v ===== *)
(** Mapping the arcs of a machine (openfst/lib/arc-map.h): the version of
[ArcMap] that modifies its argument, with the three ways to treat final
weights, and the one that writes to another machine; the mappers of arc-map.h
that only use the operations every weight has, and those of invert.h and
project.h.  Proved here: what machine the in-place version leaves, for any
mapper and final action.  ArcMapSpec.v has what the mappers do to languages and
property bits. *)
From S2P Require Import Prelude Weight Properties SymbolTable Fst VectorFst Mutation VectorSound MutableFst.
From S2P Require Import Rational.
Local Open Scope Z_scope.

(* arc-map.h:51-64 MapFinalAction *)
Inductive MapFinalAction := MAP_NO_SUPERFINAL | MAP_ALLOW_SUPERFINAL | MAP_REQUIRE_SUPERFINAL.

(* arc-map.h:67-75 MapSymbolsAction *)
Inductive MapSymbolsAction := MAP_CLEAR_SYMBOLS | MAP_COPY_SYMBOLS | MAP_NOOP_SYMBOLS.

(** A mapper without state of its own. *)

(* arc-map.h:94-118 ArcMapper *)
Record ArcMapper (W : Type) := {
  map_arc : Arc W → Arc W;
  FinalAction : MapFinalAction;
  InputSymbolsAction : MapSymbolsAction;
  OutputSymbolsAction : MapSymbolsAction;
  MapProperties : Z → Z;
}.
Arguments map_arc {_} _ _.
Arguments FinalAction {_} _.
Arguments InputSymbolsAction {_} _.
Arguments OutputSymbolsAction {_} _.
Arguments MapProperties {_} _ _.

(** A condition on labels: [ilabel != 0 || olabel != 0]. *)
Definition labelled {W} (a : Arc W) : bool := negb (ilabel a =? 0) || negb (olabel a =? 0).

Section operations.
Context `{MutableFst W F}.
Implicit Types (x : F) (m : ArcMapper W) (f : Fst W).

(** The mapper is passed final weights as arcs of this form. *)

(* arc-map.h:163-163 ArcMap *)
Definition mapped_final m (w : W) : Arc W := map_arc m (MkArc 0 0 w kNoStateId).

(* arc-map.h:157-161 ArcMap *)
Definition map_arcs m x (state : Z) : option F :=
  foldM (λ x i, arc ← (Arcs (view x) state).[i]; mSetValue x state i (map_arc m arc))
    (seqZ 0 (zlen (Arcs (view x) state))) x.

(* arc-map.h:162-206 ArcMap *)
Definition map_final m x (superfinal state : Z) : option (F * Z) :=
  let fa := mapped_final m (Final (view x) state) in
  match FinalAction m with
  | MAP_NO_SUPERFINAL =>
      let x := if labelled fa then mSetProperties x kError kError else x in
      x ← mSetFinal x state (weight fa);
      Some (x, superfinal)
  | MAP_ALLOW_SUPERFINAL =>
      if negb (state =? superfinal) then
        if labelled fa then
          '(x, superfinal) ← (if superfinal =? kNoStateId then
                                let '(x, s) := mAddState x in
                                x ← mSetFinal x s One;
                                Some (x, s)
                              else Some (x, superfinal));
          x ← mAddArc x state (set_nextstate superfinal fa);
          x ← mSetFinal x state Zero;
          Some (x, superfinal)
        else x ← mSetFinal x state (weight fa); Some (x, superfinal)
      else Some (x, superfinal)
  | MAP_REQUIRE_SUPERFINAL =>
      if negb (state =? superfinal) then
        x ← (if labelled fa || wneqb (weight fa) Zero
             then mAddArc x state (MkArc (ilabel fa) (olabel fa) (weight fa) superfinal)
             else Some x);
        x ← mSetFinal x state Zero;
        Some (x, superfinal)
      else Some (x, superfinal)
  end.

(* arc-map.h:154-207 ArcMap *)
Definition map_states m x (superfinal : Z) : option (F * Z) :=
  foldM (λ '(x, superfinal) state, x ← map_arcs m x state; map_final m x superfinal state)
    (seqZ 0 (NumStates (view x))) (x, superfinal).

(* arc-map.h:136-209 ArcMap *)
Definition ArcMap x m : option F :=
  let x := match InputSymbolsAction m with MAP_CLEAR_SYMBOLS => mSetInputSymbols x None | _ => x end in
  let x := match OutputSymbolsAction m with MAP_CLEAR_SYMBOLS => mSetOutputSymbols x None | _ => x end in
  if Start (view x) =? kNoStateId then Some x else
  let props := mProperties x kFstProperties in
  '(x, superfinal) ←
    match FinalAction m with
    | MAP_REQUIRE_SUPERFINAL =>
        let '(x, s) := mAddState x in
        x ← mSetFinal x s One;
        Some (x, s)
    | _ => Some (x, kNoStateId)
    end;
  '(x, _) ← map_states m x superfinal;
  Some (mSetProperties x (MapProperties m props) kFstProperties).
End operations.

(** * Mappers *)

Section mappers.
Context `{WeightOps W}.
Implicit Types (a arc : Arc W).

(* arc-map.h:797-815 IdentityArcMapper *)
Definition IdentityArcMapper : ArcMapper W := {|
  map_arc arc := arc;
  FinalAction := MAP_NO_SUPERFINAL;
  InputSymbolsAction := MAP_COPY_SYMBOLS;
  OutputSymbolsAction := MAP_COPY_SYMBOLS;
  MapProperties props := props;
|}.

(* arc-map.h:819-841 InputEpsilonMapper *)
Definition InputEpsilonMapper : ArcMapper W := {|
  map_arc arc := MkArc 0 (olabel arc) (weight arc) (nextstate arc);
  FinalAction := MAP_NO_SUPERFINAL;
  InputSymbolsAction := MAP_CLEAR_SYMBOLS;
  OutputSymbolsAction := MAP_COPY_SYMBOLS;
  MapProperties props := (props &&& kSetArcProperties) ||| kIEpsilons ||| kILabelSorted;
|}.

(* arc-map.h:845-867 OutputEpsilonMapper *)
Definition OutputEpsilonMapper : ArcMapper W := {|
  map_arc arc := MkArc (ilabel arc) 0 (weight arc) (nextstate arc);
  FinalAction := MAP_NO_SUPERFINAL;
  InputSymbolsAction := MAP_COPY_SYMBOLS;
  OutputSymbolsAction := MAP_CLEAR_SYMBOLS;
  MapProperties props := (props &&& kSetArcProperties) ||| kOEpsilons ||| kOLabelSorted;
|}.

(* arc-map.h:872-915 SuperFinalMapper *)
Definition SuperFinalMapper (final_label : Z) : ArcMapper W := {|
  map_arc arc :=
    if (nextstate arc =? kNoStateId) && wneqb (weight arc) Zero
    then MkArc final_label final_label (weight arc) kNoStateId else arc;
  FinalAction := MAP_REQUIRE_SUPERFINAL;
  InputSymbolsAction := MAP_COPY_SYMBOLS;
  OutputSymbolsAction := MAP_COPY_SYMBOLS;
  MapProperties props :=
    if final_label =? 0 then props &&& kAddSuperFinalProperties
    else props &&& kAddSuperFinalProperties &&& kILabelInvariantProperties &&&
         kOLabelInvariantProperties;
|}.

(** The mappers that only change weights. *)
Definition weight_mapper (map : W → W) (props : Z → Z) : ArcMapper W := {|
  map_arc arc := MkArc (ilabel arc) (olabel arc) (map (weight arc)) (nextstate arc);
  FinalAction := MAP_NO_SUPERFINAL;
  InputSymbolsAction := MAP_COPY_SYMBOLS;
  OutputSymbolsAction := MAP_COPY_SYMBOLS;
  MapProperties := props;
|}.

(* arc-map.h:1212-1242 PlusMapper *)
Definition PlusMapper (w : W) : ArcMapper W :=
  weight_mapper (λ v, if weqb v Zero then v else Plus v w) (λ props, props &&& kWeightInvariantProperties).

(* arc-map.h:1246-1276 TimesMapper *)
Definition TimesMapper (w : W) : ArcMapper W :=
  weight_mapper (λ v, if weqb v Zero then v else Times v w) (λ props, props &&& kWeightInvariantProperties).

(* arc-map.h:1284-1313 PowerMapper *)
Definition PowerMapper (power : Z) : ArcMapper W :=
  weight_mapper (λ v, Power v power) (λ props, props &&& kWeightInvariantProperties).

(* arc-map.h:1346-1373 RmWeightMapper *)
Definition RmWeightMapper : ArcMapper W :=
  weight_mapper (λ v, if wneqb v Zero then One else Zero)
    (λ props, (props &&& kWeightInvariantProperties) ||| kUnweighted).

(* invert.h:37-58 InvertMapper *)
Definition InvertMapper : ArcMapper W := {|
  map_arc arc := MkArc (olabel arc) (ilabel arc) (weight arc) (nextstate arc);
  FinalAction := MAP_NO_SUPERFINAL;
  InputSymbolsAction := MAP_CLEAR_SYMBOLS;
  OutputSymbolsAction := MAP_CLEAR_SYMBOLS;
  MapProperties := InvertProperties;
|}.
End mappers.

(* project.h:34-34 ProjectType *)
Inductive ProjectType := INPUT | OUTPUT.

Definition is_input (t : ProjectType) : bool := match t with INPUT => true | OUTPUT => false end.

(* project.h:42-74 ProjectMapper *)
Definition ProjectMapper {W} (project_type : ProjectType) : ArcMapper W := {|
  map_arc arc :=
    let label := match project_type with INPUT => ilabel arc | OUTPUT => olabel arc end in
    MkArc label label (weight arc) (nextstate arc);
  FinalAction := MAP_NO_SUPERFINAL;
  InputSymbolsAction := match project_type with INPUT => MAP_COPY_SYMBOLS | OUTPUT => MAP_CLEAR_SYMBOLS end;
  OutputSymbolsAction := match project_type with OUTPUT => MAP_COPY_SYMBOLS | INPUT => MAP_CLEAR_SYMBOLS end;
  MapProperties props := ProjectProperties props (is_input project_type);
|}.

Section algorithms.
Context `{MutableFst W F}.

(* invert.h:82-90 Invert *)
Definition Invert (x : F) : option F :=
  let input := InputSymbols (view x) in
  let output := OutputSymbols (view x) in
  x ← ArcMap x InvertMapper;
  Some (mSetOutputSymbols (mSetInputSymbols x output) input).

(* project.h:101-111 Project *)
Definition Project (x : F) (project_type : ProjectType) : option F :=
  x ← ArcMap x (ProjectMapper project_type);
  Some (match project_type with
        | INPUT => mSetOutputSymbols x (InputSymbols (view x))
        | OUTPUT => mSetInputSymbols x (OutputSymbols (view x))
        end).
End algorithms.

(** * What the loops compute *)

Section abstract_map.
Context `{WeightOps W}.
Implicit Types (f g : Fst W) (m : ArcMapper W).

(** Whether a state with final weight [w] gets an arc to the superfinal state. *)
Definition needs m (w : W) : bool :=
  match FinalAction m with
  | MAP_NO_SUPERFINAL => false
  | MAP_ALLOW_SUPERFINAL => labelled (mapped_final m w)
  | MAP_REQUIRE_SUPERFINAL => labelled (mapped_final m w) || wneqb (weight (mapped_final m w)) Zero
  end.

Definition new_final m (w : W) : W :=
  match FinalAction m with
  | MAP_NO_SUPERFINAL => weight (mapped_final m w)
  | MAP_ALLOW_SUPERFINAL => if labelled (mapped_final m w) then Zero else weight (mapped_final m w)
  | MAP_REQUIRE_SUPERFINAL => Zero
  end.

Definition super_arcs m (n : Z) (w : W) : list (Arc W) :=
  if needs m w then [set_nextstate n (mapped_final m w)] else [].

(** Whether the superfinal state exists after [k] states. *)
Definition added m f (k : Z) : bool :=
  match FinalAction m with
  | MAP_NO_SUPERFINAL => false
  | MAP_ALLOW_SUPERFINAL => existsb (λ s, needs m (Final f s)) (seqZ 0 k)
  | MAP_REQUIRE_SUPERFINAL => true
  end.

(** The machine after the first [k] states were mapped. *)
Definition abs_map m f (k : Z) : Fst W :=
  let n := NumStates f in
  Build_Fst W (Start f) (if added m f k then n + 1 else n)
    (λ s, if decide (0 ≤ s < k) then new_final m (Final f s)
          else if decide (s = n ∧ added m f k = true) then One else Final f s)
    (λ s, if decide (0 ≤ s < k) then (map_arc m <$> Arcs f s) ++ super_arcs m n (Final f s)
          else Arcs f s)
    (FstProperties f) (InputSymbols f) (OutputSymbols f).

(** All of it. *)
Definition abs_arc_map m f : Fst W := abs_map m f (NumStates f).

Lemma added_S m f k :
  0 ≤ k → added m f (k + 1) = (added m f k || needs m (Final f k))%bool.
Proof.
  intros Hk. unfold added, needs. destruct (FinalAction m); [done| |done].
  rewrite <-seqZ_snoc by done. rewrite existsb_app. simpl. by rewrite orb_false_r.
Qed.

#[global] Instance abs_set_arcs_proper s l : Proper ((≡) ==> (≡)) (λ f : Fst W, abs_set_arcs f s l).
Proof. intros f g (HS & HN & HF & HA). repeat split; simpl; try done. intros u. by rewrite !HA. Qed.
End abstract_map.

Section map_loops.
Context `{MutableFstLaws W F}.
Implicit Types (x y : F) (f g : Fst W) (m : ArcMapper W).

Lemma evolves_set_value x y g s i a :
  evolves x y g → valid g s → 0 ≤ i < zlen (Arcs g s) →
  ∃ z, mSetValue y s i a = Some z ∧
    evolves x z (abs_set_arcs g s (<[Z.to_nat i := a]> (Arcs g s))).
Proof.
  intros Hxy Hs Hi. pose proof Hxy as [Hy [Hv _ _ _ _]]. pose proof Hv as (_ & _ & _ & HA).
  destruct (mSetValue_steps y s i a Hy) as (z & Hz & ? & ?);
    [by eapply evolves_valid|by rewrite HA|].
  exists z. split; [done|]. rewrite HA in *.
  by eapply (evolves_trans x y z g (λ f, abs_set_arcs f s (<[Z.to_nat i := a]> (Arcs g s)))); [|split|apply _].
Qed.

Lemma evolves_arcs x y g s : evolves x y g → Arcs (view y) s = Arcs g s.
Proof. by intros [_ [(_ & _ & _ & HA) _ _ _ _]]. Qed.

Lemma evolves_final x y g s : evolves x y g → Final (view y) s = Final g s.
Proof. by intros [_ [(_ & _ & HF & _) _ _ _ _]]. Qed.

Lemma abs_set_arcs_twice g s l k : abs_set_arcs (abs_set_arcs g s l) s k ≡ abs_set_arcs g s k.
Proof. repeat split; simpl; try done. intros u. by case_decide. Qed.

Lemma abs_set_arcs_same g s : abs_set_arcs g s (Arcs g s) ≡ g.
Proof. repeat split; simpl; try done. intros u. case_decide; [by subst|done]. Qed.

Lemma map_arcs_evolves x y g m s :
  evolves x y g → valid g s →
  ∃ z, map_arcs m y s = Some z ∧ evolves x z (abs_set_arcs g s (map_arc m <$> Arcs g s)).
Proof.
  intros Hxy Hs. unfold map_arcs. rewrite (evolves_arcs x y g s Hxy). set (l := Arcs g s).
  destruct (foldM_total (λ z i, arc ← (Arcs (view z) s).[i]; mSetValue z s i (map_arc m arc))
    (λ done z, evolves x z (abs_set_arcs g s
      ((map_arc m <$> take (length done) l) ++ drop (length done) l))) (seqZ 0 (zlen l)) y)
    as (z & Hz & Hxz).
  - eapply evolves_equiv; [done|]. simpl. rewrite drop_0.
    symmetry. apply abs_set_arcs_same.
  - intros done i todo z [-> Hi]%seqZ_split Hxz. rewrite length_app, length_seqZ in *.
    rewrite (evolves_arcs x z _ s Hxz). cbn [abs_set_arcs Arcs]. rewrite decide_True by done.
    destruct (vget_in_range l i) as [a Ha]; [lia|].
    pose proof Ha as [_ Hla]%vget_Some.
    assert (drop (Z.to_nat i) l = a :: drop (S (Z.to_nat i)) l) as Hdrop by by apply drop_S.
    assert (zlen (map_arc m <$> take (Z.to_nat i) l) = i) as Hlen.
    { rewrite zlen_fmap. unfold zlen in *. rewrite length_take. lia. }
    rewrite vget_app, decide_False, Hlen, Z.sub_diag, Hdrop by lia. cbn [vget].
    change ((a :: drop (S (Z.to_nat i)) l).[0]) with (Some a). cbn [mbind option_bind].
    destruct (evolves_set_value x z _ s i (map_arc m a) Hxz) as (z' & -> & Hz').
    + done.
    + cbn [abs_set_arcs Arcs]. rewrite decide_True by done.
      rewrite zlen_app, Hlen, Hdrop, zlen_cons. pose proof (zlen_nonneg (drop (S (Z.to_nat i)) l)). lia.
    + exists z'. split; [done|]. eapply evolves_equiv; [exact Hz'|]. rewrite abs_set_arcs_twice.
      cbn [abs_set_arcs Arcs]. rewrite decide_True by done. rewrite Hdrop.
      replace (Z.to_nat i + length [i])%nat with (S (Z.to_nat i)) by (simpl; lia).
      rewrite insert_app_r_alt by (unfold zlen in Hlen; lia).
      replace (Z.to_nat i - length (map_arc m <$> take (Z.to_nat i) l))%nat with 0%nat by (unfold zlen in Hlen; lia).
      simpl. rewrite (take_S_r l (Z.to_nat i) a) by done. rewrite fmap_app, <-app_assoc. done.
  - exists z. split; [done|]. eapply evolves_equiv; [exact Hxz|].
    rewrite length_seqZ. unfold zlen. rewrite Nat2Z.id, drop_ge, take_ge, app_nil_r by lia. done.
Qed.

(** Raising the error bit leaves everything else. *)
Lemma evolves_error x y g : evolves x y g → evolves x (mSetProperties y kError kError) g.
Proof.
  intros [Hy [Hv Hi Ho He Hs]]. split; [by apply mSetProperties_minv|].
  destruct (mSetProperties_symbols y kError kError) as [Ei Eo].
  split; [by rewrite mSetProperties_view|by rewrite Ei|by rewrite Eo|..].
  - intros _. rewrite mSetProperties_bits, error_bit. by bits.
  - intros Hx. specialize (Hs Hx). intros t. rewrite mSetProperties_bits, mSetProperties_view.
    specialize (Hs t). revert Hs. destruct t; bits; by rewrite ?andb_true_r, ?orb_false_r.
Qed.

(** The superfinal state that [map_final] knows after [k] states. *)
Definition superfinal_of m f (k : Z) : Z := if added m f k then NumStates f else kNoStateId.

Lemma added_needs m f k : FinalAction m = MAP_ALLOW_SUPERFINAL → 0 ≤ k →
  added m f (k + 1) = (added m f k || labelled (mapped_final m (Final f k)))%bool.
Proof. intros Hm Hk. rewrite added_S by done. unfold needs. by rewrite Hm. Qed.

(** The machine between the two loops over one state. *)
Definition abs_half m f (k : Z) : Fst W := abs_set_arcs (abs_map m f k) k (map_arc m <$> Arcs f k).

Lemma abs_half_final m f k : 0 ≤ k < NumStates f → Final (abs_half m f k) k = Final f k.
Proof. intros Hk. simpl. by rewrite !decide_False by lia. Qed.

Lemma abs_half_valid m f k : 0 ≤ k < NumStates f → valid (abs_half m f k) k.
Proof. intros Hk. unfold valid. simpl. destruct (added m f k); lia. Qed.

Lemma map_final_plain m f k w :
  0 ≤ k < NumStates f → w = new_final m (Final f k) → super_arcs m (NumStates f) (Final f k) = [] →
  added m f (k + 1) = added m f k →
  abs_set_final (abs_half m f k) k w ≡ abs_map m f (k + 1).
Proof.
  intros Hk -> Hs Ha. repeat split; simpl; rewrite ?Ha; [done|..]; intros u.
  - destruct (decide (u = k)) as [->|]; [by rewrite decide_True by lia|].
    repeat case_decide; try done; lia.
  - destruct (decide (u = k)) as [->|]; [by rewrite decide_True, Hs, app_nil_r by lia|].
    repeat case_decide; try done; lia.
Qed.

Lemma map_final_super m f k a h :
  0 ≤ k < NumStates f → new_final m (Final f k) = Zero →
  super_arcs m (NumStates f) (Final f k) = [a] → added m f (k + 1) = true →
  h ≡ (if added m f k then abs_half m f k
       else abs_set_final (abs_add_states (abs_half m f k) 1) (NumStates f) One) →
  abs_set_final (abs_add_arc h k a) k Zero ≡ abs_map m f (k + 1).
Proof.
  intros Hk Hw Hs Ha (HS & HN & HF & HA).
  repeat split; simpl; rewrite ?Ha; [rewrite ?HS, ?HN; destruct (added m f k) eqn:E; simpl; by rewrite ?E..| |]; intros u.
  - destruct (decide (u = k)) as [->|]; [by rewrite decide_True, Hw by lia|]. rewrite HF.
    destruct (added m f k) eqn:E; simpl; rewrite ?E; repeat case_decide; try done; try lia.
  - destruct (decide (u = k)) as [->|].
    + rewrite decide_True, Hs, HA by lia. destruct (added m f k); simpl; by rewrite !decide_True by done.
    + rewrite HA. destruct (added m f k); simpl; repeat case_decide; try done; lia.
Qed.

Lemma superfinal_of_if m f k : superfinal_of m f k = if added m f k then NumStates f else kNoStateId.
Proof. done. Qed.

Lemma map_final_no x z m f k :
  FinalAction m = MAP_NO_SUPERFINAL → 0 ≤ k < NumStates f → evolves x z (abs_half m f k) →
  ∃ z', map_final m z (superfinal_of m f k) k = Some (z', superfinal_of m f (k + 1)) ∧
    evolves x z' (abs_map m f (k + 1)).
Proof.
  intros Hm Hk Hz. pose proof (abs_half_valid m f k Hk) as Hv.
  unfold map_final. rewrite (evolves_final x z _ k Hz), abs_half_final, Hm by done. cbv zeta.
  pose proof (superfinal_of_if m f) as Hsf.
  set (z1 := if labelled _ then _ else _).
  assert (evolves x z1 (abs_half m f k)) as Hz1 by (subst z1; case_match; [by apply evolves_error|done]).
  destruct (evolves_set_final x z1 _ k (weight (mapped_final m (Final f k))) Hz1 Hv) as (z2 & -> & Hz2).
  assert (∀ s, added m f s = false) as Ha by (intros s; unfold added; by rewrite Hm).
  exists z2. split; [simpl; by rewrite !Hsf, !Ha|]. eapply evolves_equiv; [done|].
  apply map_final_plain; unfold new_final, super_arcs, needs; rewrite ?Hm, ?Ha; done.
Qed.

Lemma map_final_allow x z m f k :
  FinalAction m = MAP_ALLOW_SUPERFINAL → 0 ≤ k < NumStates f → evolves x z (abs_half m f k) →
  ∃ z', map_final m z (superfinal_of m f k) k = Some (z', superfinal_of m f (k + 1)) ∧
    evolves x z' (abs_map m f (k + 1)).
Proof.
  intros Hm Hk Hz. pose proof (abs_half_valid m f k Hk) as Hv.
  unfold map_final. rewrite (evolves_final x z _ k Hz), abs_half_final, Hm by done. cbv zeta.
  pose proof (superfinal_of_if m f) as Hsf.
  pose proof (added_needs m f k Hm ltac:(lia)) as Ha.
  destruct (Z.eqb_spec k (superfinal_of m f k)) as [Hks|_].
  { exfalso. rewrite Hsf in Hks. unfold kNoStateId in Hks. destruct (added m f k); lia. }
  simpl. destruct (labelled (mapped_final m (Final f k))) eqn:Hl; rewrite ?orb_true_r, ?orb_false_r in Ha.
  + set (step := if superfinal_of m f k =? kNoStateId then _ else _).
    assert (∃ z1, step = Some (z1, NumStates f) ∧
      evolves x z1 (if added m f k then abs_half m f k
        else abs_set_final (abs_add_states (abs_half m f k) 1) (NumStates f) One)) as (z1 & -> & Hz1).
    { subst step. rewrite Hsf. destruct (added m f k) eqn:E.
      - destruct (Z.eqb_spec (NumStates f) kNoStateId); [unfold kNoStateId in *; lia|]. by exists z.
      - simpl. destruct (evolves_add_state x z _ Hz) as (z1 & -> & Hz1).
        assert (NumStates (abs_half m f k) = NumStates f) as -> by (simpl; by rewrite E).
        destruct (evolves_set_final x z1 _ (NumStates f) One Hz1) as (z2 & -> & Hz2);
          [unfold valid; simpl; rewrite E; lia|]. by exists z2. }
    simpl. set (h := if added m f k then _ else _) in *.
    assert (valid h k) as Hvh by (subst h; destruct (added m f k); unfold valid in *; simpl in *; lia).
    destruct (evolves_add_arc x z1 h k (set_nextstate (NumStates f) (mapped_final m (Final f k))) Hz1 Hvh)
      as (z2 & -> & Hz2). simpl.
    destruct (evolves_set_final x z2 _ k Zero Hz2) as (z3 & -> & Hz3); [done|]. simpl.
    exists z3. split; [by rewrite Hsf, Ha|]. eapply evolves_equiv; [done|].
    eapply map_final_super; unfold new_final, super_arcs, needs; rewrite ?Hm, ?Hl; done.
  + destruct (evolves_set_final x z _ k (weight (mapped_final m (Final f k))) Hz Hv) as (z2 & -> & Hz2).
    exists z2. split; [simpl; by rewrite !Hsf, Ha|]. eapply evolves_equiv; [done|].
    apply map_final_plain; unfold new_final, super_arcs, needs; rewrite ?Hm, ?Hl; done.
Qed.

Lemma map_final_require x z m f k :
  FinalAction m = MAP_REQUIRE_SUPERFINAL → 0 ≤ k < NumStates f → evolves x z (abs_half m f k) →
  ∃ z', map_final m z (superfinal_of m f k) k = Some (z', superfinal_of m f (k + 1)) ∧
    evolves x z' (abs_map m f (k + 1)).
Proof.
  intros Hm Hk Hz. pose proof (abs_half_valid m f k Hk) as Hv.
  unfold map_final. rewrite (evolves_final x z _ k Hz), abs_half_final, Hm by done. cbv zeta.
  pose proof (superfinal_of_if m f) as Hsf.
  assert (∀ s, added m f s = true) as Ha by (intros s; unfold added; by rewrite Hm).
  rewrite !Hsf, !Ha. destruct (Z.eqb_spec k (NumStates f)); [lia|]. simpl.
  destruct (labelled _ || wneqb _ _) eqn:Hl.
  + destruct (evolves_add_arc x z _ k (set_nextstate (NumStates f) (mapped_final m (Final f k))) Hz Hv)
      as (z1 & Hz1 & Hxz1). unfold set_nextstate in Hz1 at 1. rewrite Hz1. simpl.
    destruct (evolves_set_final x z1 _ k Zero Hxz1) as (z2 & -> & Hz2); [done|]. simpl.
    exists z2. split; [done|]. eapply evolves_equiv; [done|].
    eapply map_final_super; unfold new_final, super_arcs, needs; rewrite ?Hm, ?Hl, ?Ha; done.
  + simpl. destruct (evolves_set_final x z _ k Zero Hz Hv) as (z2 & -> & Hz2). simpl.
    exists z2. split; [done|]. eapply evolves_equiv; [done|].
    apply map_final_plain; unfold new_final, super_arcs, needs; rewrite ?Hm, ?Hl, ?Ha; done.
Qed.

Lemma map_final_evolves x z m f k :
  0 ≤ k < NumStates f → evolves x z (abs_half m f k) →
  ∃ z', map_final m z (superfinal_of m f k) k = Some (z', superfinal_of m f (k + 1)) ∧
    evolves x z' (abs_map m f (k + 1)).
Proof.
  destruct (FinalAction m) eqn:Hm; [by apply map_final_no|by apply map_final_allow|by apply map_final_require].
Qed.

(** One pass over the states that were there at the start. *)
Lemma map_states_evolves x z m f :
  0 ≤ NumStates f → evolves x z (abs_map m f 0) →
  NumStates (view z) = NumStates f ∨ (FinalAction m = MAP_REQUIRE_SUPERFINAL ∧
    NumStates (view z) = NumStates f + 1 ∧ Arcs f (NumStates f) = []) →
  ∃ z' s, map_states m z (superfinal_of m f 0) = Some (z', s) ∧ evolves x z' (abs_arc_map m f).
Proof.
  intros Hn Hz Hlen. unfold map_states.
  set (body := λ '(x0, superfinal) state, x1 ← map_arcs m x0 state; map_final m x1 superfinal state).
  assert (∃ z', foldM body (seqZ 0 (NumStates f)) (z, superfinal_of m f 0)
      = Some (z', superfinal_of m f (NumStates f)) ∧ evolves x z' (abs_arc_map m f)) as (z' & Hfold & Hz').
  { destruct (foldM_total body (λ done '(z, s), s = superfinal_of m f (zlen done) ∧
        evolves x z (abs_map m f (zlen done))) (seqZ 0 (NumStates f)) (z, superfinal_of m f 0))
      as ([z' s] & Hz' & Hs & Hxz'); [done| |].
    - intros done k todo [y s] [-> Hk]%seqZ_split [-> Hy].
      rewrite zlen_app, zlen_seqZ, Z.max_r in * by lia. change (zlen [k]) with 1.
      destruct (map_arcs_evolves x y _ m k Hy) as (y1 & Hy1 & Hxy1);
        [unfold valid; simpl; destruct (added m f k); lia|].
      destruct (map_final_evolves x y1 m f k Hk) as (y2 & Hy2 & Hxy2).
      { eapply evolves_equiv; [done|]. simpl. by rewrite decide_False by lia. }
      exists (y2, superfinal_of m f (k + 1)). split; [|done]. simpl. rewrite Hy1. simpl. done.
    - exists z'. rewrite zlen_seqZ, Z.max_r in * by done. rewrite Hz', Hs. done. }
  destruct Hlen as [->|(Hm & -> & Hnil)]; [by eauto|].
  rewrite <-seqZ_snoc, foldM_app, Hfold by done. cbn [mbind option_bind foldM]. simpl.
  destruct (map_arcs_evolves x z' _ m (NumStates f) Hz') as (z1 & -> & Hz1).
  { unfold valid. simpl. unfold added. rewrite Hm. lia. }
  cbn [mbind option_bind]. unfold map_final, superfinal_of, added. rewrite Hm, Z.eqb_refl. simpl.
  exists z1, (NumStates f). split; [done|]. eapply evolves_equiv; [exact Hz1|]. simpl.
  rewrite decide_False by lia. rewrite Hnil. simpl.
  etrans; [|apply (abs_set_arcs_same _ (NumStates f))]. repeat split; simpl; try done.
  intros u. case_decide as Hu; [|done]. by rewrite decide_False by lia.
Qed.

(** What [ArcMap] does to the symbol tables first. *)
Definition cleared m x : F :=
  let x := match InputSymbolsAction m with MAP_CLEAR_SYMBOLS => mSetInputSymbols x None | _ => x end in
  match OutputSymbolsAction m with MAP_CLEAR_SYMBOLS => mSetOutputSymbols x None | _ => x end.

Lemma cleared_spec m x :
  minv x → minv (cleared m x) ∧ view (cleared m x) ≡ view x ∧
    FstProperties (view (cleared m x)) = FstProperties (view x) ∧
    InputSymbols (view (cleared m x)) =
      match InputSymbolsAction m with MAP_CLEAR_SYMBOLS => None | _ => InputSymbols (view x) end ∧
    OutputSymbols (view (cleared m x)) =
      match OutputSymbolsAction m with MAP_CLEAR_SYMBOLS => None | _ => OutputSymbols (view x) end.
Proof.
  intros Hx. unfold cleared.
  set (x1 := match InputSymbolsAction m with MAP_CLEAR_SYMBOLS => mSetInputSymbols x None | _ => x end).
  assert (minv x1 ∧ view x1 ≡ view x ∧ FstProperties (view x1) = FstProperties (view x) ∧
    InputSymbols (view x1) =
      match InputSymbolsAction m with MAP_CLEAR_SYMBOLS => None | _ => InputSymbols (view x) end ∧
    OutputSymbols (view x1) = OutputSymbols (view x)) as (? & Hv1 & Hp1 & Hi1 & Ho1).
  { subst x1. destruct (mSetInputSymbols_rest x None) as (? & ? & ?).
    destruct (InputSymbolsAction m); [|done..].
    split; [by apply mSetInputSymbols_minv|]. split; [apply mSetInputSymbols_view|done]. }
  destruct (mSetOutputSymbols_rest x1 None) as (Hi & Ho & Hp).
  destruct (OutputSymbolsAction m); [|done..].
  split; [by apply mSetOutputSymbols_minv|]. rewrite Hp, Hi, Ho. split; [|done].
  etrans; [apply mSetOutputSymbols_view|done].
Qed.

Lemma ArcMap_cleared x m :
  Start (view (cleared m x)) = kNoStateId → ArcMap x m = Some (cleared m x).
Proof. intros Hs. unfold ArcMap. fold (cleared m x). by rewrite Hs. Qed.

Lemma ArcMap_result x m :
  minv x → Start (view x) ≠ kNoStateId →
  ∃ y, ArcMap x m = Some (mSetProperties y (MapProperties m (mProperties x kFstProperties)) kFstProperties) ∧
    evolves (cleared m x) y (abs_arc_map m (view (cleared m x))).
Proof.
  intros Hx Hs. destruct (cleared_spec m x Hx) as (Hc & Hv & Hp & _). unfold ArcMap. fold (cleared m x).
  assert (mProperties (cleared m x) kFstProperties = mProperties x kFstProperties) as ->
    by (unfold mProperties; by rewrite Hp).
  set (c := cleared m x) in *. destruct Hv as (HS & _).
  rewrite (proj2 (Z.eqb_neq (Start (view c)) kNoStateId)) by by rewrite HS.
  pose proof (view_nonneg c) as Hn. pose proof (view_tight c) as Ht.
  assert (added m (view c) 0 = match FinalAction m with MAP_REQUIRE_SUPERFINAL => true | _ => false end)
    as Ha by (unfold added; by destruct (FinalAction m)).
  assert (FinalAction m ≠ MAP_REQUIRE_SUPERFINAL → evolves c c (abs_map m (view c) 0)) as Hzero.
  { intros Hm. eapply evolves_equiv; [by apply evolves_refl|].
    repeat split; simpl; try intros u; rewrite ?Ha; destruct (FinalAction m); try done;
      repeat case_decide; try done; try lia; by destruct_and?. }
  assert (∃ z, match FinalAction m with
      | MAP_REQUIRE_SUPERFINAL =>
          let '(x, s) := mAddState c in x ← mSetFinal x s One; Some (x, s)
      | _ => Some (c, kNoStateId) end = Some (z, superfinal_of m (view c) 0) ∧
      evolves c z (abs_map m (view c) 0)) as (z & -> & Hz).
  { unfold superfinal_of. rewrite Ha. destruct (FinalAction m) eqn:Hm.
    - exists c. split; [done|]. by apply Hzero.
    - exists c. split; [done|]. by apply Hzero.
    - destruct (evolves_add_state c c _ (evolves_refl c Hc)) as (z1 & -> & Hz1).
      destruct (evolves_set_final c z1 _ (NumStates (view c)) One Hz1) as (z2 & -> & Hz2);
        [unfold valid; simpl; lia|]. exists z2. split; [done|]. eapply evolves_equiv; [done|].
      repeat split; simpl; rewrite ?Ha; try done; intros u; repeat case_decide; try done; try lia;
        naive_solver. }
  destruct (map_states_evolves c z m (view c) Hn Hz) as (z' & s & Hz' & Hxz').
  { destruct Hz as [_ [(_ & -> & _) _ _ _ _]]. simpl. rewrite Ha.
    destruct (FinalAction m); [by left..|]. right. split; [done|]. split; [done|].
    apply Ht. unfold valid. lia. }
  cbn [mbind option_bind]. rewrite Hz'. simpl. by exists z'.
Qed.
End map_loops.
