(* ===== verification/ArcMapSpec.v ===== *)
(** What the mappers of arc-map.h, invert.h and project.h do to machines:
the accepted language, well-formedness, the symbol tables, and the truth of the
property bits they store.  The maps that keep the shape of a machine (every arc
replaced in place, final weights zero as before) share one treatment, the
record [mapped]. *)
From S2P Require Import Prelude Weight FloatWeight Properties SymbolTable Fst VectorFst Mutation.
From S2P Require Import VectorSound MutableFst Rational RationalLang RationalProps RationalSpec ArcMap.
From Stdlib Require Import Sorting.Sorted.
Local Open Scope Z_scope.

(** * Maps that keep the shape *)

Section mapped.
Context `{WeightEq W}.
Implicit Types (f g : Fst W) (r : Arc W → Arc W).

(** [g] is [f] with its arcs replaced by [r]. *)
Record mapped r f g : Prop := {
  mapped_next : ∀ a, nextstate (r a) = nextstate a;
  mapped_start : Start g = Start f;
  mapped_states : NumStates g = NumStates f;
  mapped_arcs : ∀ s, valid f s → Arcs g s = r <$> Arcs f s;
  mapped_is_final : ∀ s, is_final g s ↔ is_final f s;
}.

Section facts.
Context (r : Arc W → Arc W) (f g : Fst W) (M : mapped r f g).

Lemma mapped_valid s : valid g s ↔ valid f s.
Proof using M. unfold valid. by rewrite (mapped_states _ _ _ M). Qed.

Lemma mapped_arc_in s b : arc_in g s b ↔ ∃ a, arc_in f s a ∧ b = r a.
Proof using M.
  unfold arc_in. rewrite mapped_valid. split.
  - intros [Hs Hb]. rewrite (mapped_arcs _ _ _ M) in Hb by done.
    apply list_elem_of_fmap in Hb as (a & -> & Ha). by exists a.
  - intros (a & [Hs Ha] & ->). split; [done|]. rewrite (mapped_arcs _ _ _ M) by done.
    by apply list_elem_of_fmap_2.
Qed.

Lemma mapped_all_arcs (P Q : Z → Arc W → Prop) :
  (∀ s a, Q s (r a) ↔ P s a) → all_arcs g Q ↔ all_arcs f P.
Proof using M.
  intros HPQ. split.
  - intros Hq s a Hs Ha. apply HPQ. destruct (proj2 (mapped_arc_in s (r a))) as [? ?];
      [by exists a|]. by apply Hq.
  - intros Hp s b Hs Hb. destruct (proj1 (mapped_arc_in s b)) as (a & [? ?] & ->); [done|].
    apply HPQ. by apply Hp.
Qed.

Lemma mapped_some_arc (P Q : Z → Arc W → Prop) :
  (∀ s a, Q s (r a) ↔ P s a) → some_arc g Q ↔ some_arc f P.
Proof using M.
  intros HPQ. split.
  - intros (s & b & Hs & Hb & Hq). destruct (proj1 (mapped_arc_in s b)) as (a & [? ?] & ->); [done|].
    exists s, a. by rewrite <-HPQ.
  - intros (s & a & Hs & Ha & Hp). destruct (proj2 (mapped_arc_in s (r a))) as [? ?]; [by exists a|].
    exists s, (r a). by rewrite HPQ.
Qed.

Lemma mapped_edge s t : edge g s t ↔ edge f s t.
Proof using M.
  split.
  - intros (Hs & b & Hb & <-). destruct (proj1 (mapped_arc_in s b)) as (a & [? ?] & ->); [done|].
    split; [done|]. exists a. by rewrite (mapped_next _ _ _ M).
  - intros (Hs & a & Ha & <-). destruct (proj2 (mapped_arc_in s (r a))) as [? ?]; [by exists a|].
    split; [done|]. exists (r a). by rewrite (mapped_next _ _ _ M).
Qed.

Lemma mapped_rtc s t : rtc (edge g) s t ↔ rtc (edge f) s t.
Proof using M. by split; apply rtc_edge_mono; intros ??; apply mapped_edge. Qed.

Lemma mapped_tc s t : tc (edge g) s t ↔ tc (edge f) s t.
Proof using M. by split; apply tc_edge_mono; intros ??; apply mapped_edge. Qed.

Lemma mapped_states_forall (P Q : Z → Prop) :
  (∀ s, valid f s → Q s ↔ P s) → (∀ s, valid g s → Q s) ↔ (∀ s, valid f s → P s).
Proof using M.
  intros HPQ. split; intros Hh s Hs.
  - apply HPQ; [done|]. by apply Hh, mapped_valid.
  - apply mapped_valid in Hs. by apply HPQ, Hh.
Qed.

(** Properties of the graph and its final states. *)
Definition structural (t : trinary) : bool :=
  match t with
  | Cyclic | InitialCyclic | TopSorted | Accessible | CoAccessible | StringFst => true
  | _ => false
  end.

Lemma mapped_string : Holds g StringFst ↔ Holds f StringFst.
Proof using M.
  destruct M as [Hn HS HN HA HF]. cbn [Holds]. rewrite HN, HS.
  assert (0 < NumStates f →
    (Arcs g (NumStates f - 1) = [] ↔ Arcs f (NumStates f - 1) = [])) as Hlast.
  { intros ?. rewrite HA by (unfold valid; lia). split; [apply fmap_nil_inv|by intros ->]. }
  assert (∀ s, 0 ≤ s < NumStates f - 1 →
    (∃ a, Arcs g s = [a] ∧ nextstate a = s + 1) ↔ ∃ a, Arcs f s = [a] ∧ nextstate a = s + 1) as Hone.
  { intros s Hs. rewrite HA by (unfold valid; lia). split.
    - intros (b & Hb & Hnb). destruct (Arcs f s) as [|a [|]]; simplify_eq/=.
      exists a. by rewrite Hn in Hnb.
    - intros (a & -> & Ha). exists (r a). by rewrite Hn. }
  split; intros Hh Hp; destruct (Hh Hp) as (? & ? & ? & Hr);
    (split; [done|]); (split; [by apply HF|]); (split; [by apply Hlast|]); intros s Hs;
    destruct (Hr s Hs) as [? ?]; rewrite HF in *; (split; [done|]); by apply Hone.
Qed.

Lemma mapped_structural t : structural t = true → Holds g t ↔ Holds f t.
Proof using M.
  intros Ht. destruct t; try discriminate Ht; [..|by apply mapped_string]; cbn [Holds].
  - by setoid_rewrite mapped_tc.
  - rewrite (mapped_start _ _ _ M). apply mapped_tc.
  - apply mapped_all_arcs. intros s a. by rewrite (mapped_next _ _ _ M).
  - apply mapped_states_forall. intros s _. by rewrite (mapped_start _ _ _ M), mapped_rtc.
  - apply mapped_states_forall. intros s _. setoid_rewrite mapped_rtc.
    by setoid_rewrite (mapped_is_final _ _ _ M).
Qed.

(** A property of the sequence of labels that leave each state. *)
Lemma mapped_labels (l l' : Arc W → Z) (P : list Z → Prop) :
  (∀ a, l' (r a) = l a) →
  (∀ s, valid g s → P (l' <$> Arcs g s)) ↔ (∀ s, valid f s → P (l <$> Arcs f s)).
Proof using M.
  intros Hl. apply mapped_states_forall. intros s Hs. rewrite (mapped_arcs _ _ _ M) by done.
  rewrite <-list_fmap_compose. by rewrite (list_fmap_ext (l' ∘ r) l) by (intros; apply Hl).
Qed.

Lemma mapped_wf : WellFormed f → WellFormed g.
Proof using M.
  intros (Hn & Ha & Hs). unfold WellFormed, wf_start. rewrite (mapped_states _ _ _ M), (mapped_start _ _ _ M), mapped_valid.
  split; [done|]. split; [|done]. unfold wf_arcs. eapply mapped_all_arcs; [|exact Ha].
  intros s a. simpl. by rewrite mapped_valid, (mapped_next _ _ _ M).
Qed.

Lemma mapped_path s p t : path g s p t ↔ ∃ q, path f s q t ∧ p = r <$> q.
Proof using M.
  split.
  - induction 1 as [s Hs|s b p t Hs Hb _ (q & Hq & ->)].
    + exists []. split; [|done]. constructor. by apply mapped_valid.
    + destruct (proj1 (mapped_arc_in s b)) as (a & [? ?] & ->); [done|].
      exists (a :: q). split; [|done]. rewrite (mapped_next _ _ _ M) in Hq. by constructor.
  - intros (q & Hq & ->). induction Hq as [s Hs|s a q t Hs Ha _ IH]; simpl.
    + constructor. by apply mapped_valid.
    + destruct (proj2 (mapped_arc_in s (r a))) as [? ?]; [by exists a|].
      constructor; [done..|]. by rewrite (mapped_next _ _ _ M).
Qed.

Lemma mapped_accepts x y w :
  accepts g x y w ↔ ∃ q t, path f (Start f) q t ∧ is_final f t ∧
    istring (r <$> q) = x ∧ ostring (r <$> q) = y ∧ path_weight (r <$> q) (Final g t) ≡ w.
Proof using M.
  unfold accepts, accepts_from. rewrite (mapped_start _ _ _ M). setoid_rewrite mapped_path.
  setoid_rewrite (mapped_is_final _ _ _ M). naive_solver.
Qed.
End facts.

(** ** Maps that keep all weights *)

Definition keeps_weights r f g : Prop :=
  (∀ a, weight (r a) = weight a) ∧ ∀ s, Final g s = Final f s.

Lemma keeps_weighted r f g : mapped r f g → keeps_weights r f g → Holds g Weighted ↔ Holds f Weighted.
Proof.
  intros M [Hw HF]. cbn [Holds].
  rewrite (mapped_some_arc r f g M (λ _ a, nontrivial (weight a) = true)) by (intros; by rewrite Hw).
  apply or_iff_compat_l. by setoid_rewrite HF; setoid_rewrite (mapped_valid _ _ _ M).
Qed.

Lemma keeps_weighted_cycles r f g :
  mapped r f g → keeps_weights r f g → Holds g WeightedCycles ↔ Holds f WeightedCycles.
Proof.
  intros M [Hw _]. cbn [Holds]. apply (mapped_some_arc r f g M).
  intros s a. by rewrite Hw, (mapped_next _ _ _ M), (mapped_rtc _ _ _ M).
Qed.

Lemma keeps_path_weight r f g q w :
  keeps_weights r f g → path_weight (r <$> q) w = path_weight q w.
Proof. intros [Hw _]. unfold path_weight. induction q as [|a q IH]; csimpl; [done|]. by rewrite Hw, IH. Qed.

Lemma keeps_accepts r f g x y w :
  mapped r f g → keeps_weights r f g →
  accepts g x y w ↔ ∃ q t, path f (Start f) q t ∧ is_final f t ∧
    istring (r <$> q) = x ∧ ostring (r <$> q) = y ∧ path_weight q (Final f t) ≡ w.
Proof.
  intros M K. rewrite (mapped_accepts r f g M). destruct K as [Hw HF].
  setoid_rewrite HF. by setoid_rewrite (keeps_path_weight r f g _ _ (conj Hw HF)).
Qed.

(** ** What the loop of [ArcMap] leaves without a superfinal state *)

Lemma abs_arc_map_mapped m f :
  FinalAction m = MAP_NO_SUPERFINAL → (∀ a, nextstate (map_arc m a) = nextstate a) →
  (∀ s, valid f s → weqb (weight (mapped_final m (Final f s))) Zero = weqb (Final f s) Zero) →
  mapped (map_arc m) f (abs_arc_map m f).
Proof.
  intros Hm Hn Hf.
  assert (added m f (NumStates f) = false) as Ha by (unfold added; by rewrite Hm).
  assert (∀ w, super_arcs m (NumStates f) w = []) as Hs by (intros; unfold super_arcs, needs; by rewrite Hm).
  assert (∀ w, new_final m w = weight (mapped_final m w)) as Hw by (intros; unfold new_final; by rewrite Hm).
  split; try done.
  - simpl. by rewrite Ha.
  - intros s Hs'. simpl. by rewrite decide_True, Hs, app_nil_r by done.
  - intros s. unfold is_final, valid. simpl. rewrite Ha. case_decide as Hd; [|by rewrite decide_False by naive_solver].
    rewrite Hw, Hf by done. done.
Qed.

Lemma abs_arc_map_final m f s :
  FinalAction m = MAP_NO_SUPERFINAL → (∀ w, weight (mapped_final m w) = w) →
  Final (abs_arc_map m f) s = Final f s.
Proof.
  intros Hm Hw. simpl. unfold new_final, added. rewrite Hm, Hw.
  case_decide; [done|]. by rewrite decide_False by naive_solver.
Qed.
End mapped.

(** * Invert *)

Section invert.
Context `{WeightEq W}.
Implicit Types (f g : Fst W).

Definition swap (t : trinary) : trinary :=
  match t with
  | IDeterministic => ODeterministic | ODeterministic => IDeterministic
  | IEpsilons => OEpsilons | OEpsilons => IEpsilons
  | ILabelSorted => OLabelSorted | OLabelSorted => ILabelSorted
  | t => t
  end.

Lemma InvertProperties_bits p t :
  Z.testbit (InvertProperties p) (pos_bit t) = Z.testbit p (pos_bit (swap t)) ∧
  Z.testbit (InvertProperties p) (neg_bit t) = Z.testbit p (neg_bit (swap t)).
Proof. destruct t; cbn [swap]; cbv beta delta [InvertProperties]; bits; split; by repeat case_match. Qed.

Lemma InvertProperties_error p : has (InvertProperties p) kError = has p kError.
Proof. rewrite !error_bit. cbv beta delta [InvertProperties]. by bits. Qed.

Lemma invert_mapped f : mapped (map_arc InvertMapper) f (abs_arc_map InvertMapper f).
Proof. by apply abs_arc_map_mapped. Qed.

Lemma invert_keeps f : keeps_weights (map_arc InvertMapper) f (abs_arc_map InvertMapper f).
Proof. split; [done|]. intros s. by apply abs_arc_map_final. Qed.

Lemma invert_holds f t : Holds (abs_arc_map InvertMapper f) t ↔ Holds f (swap t).
Proof.
  pose proof (invert_mapped f) as M. pose proof (invert_keeps f) as K.
  destruct (structural t) eqn:Ht.
  { rewrite (mapped_structural _ _ _ M) by done. by destruct t. }
  destruct t; try discriminate Ht; cbn [swap].
  - apply (mapped_all_arcs _ _ _ M). intros s a. simpl. by split.
  - by apply (mapped_labels _ _ _ M olabel ilabel).
  - by apply (mapped_labels _ _ _ M ilabel olabel).
  - apply (mapped_some_arc _ _ _ M). intros s a. simpl. tauto.
  - by apply (mapped_some_arc _ _ _ M).
  - by apply (mapped_some_arc _ _ _ M).
  - by apply (mapped_labels _ _ _ M olabel ilabel (Sorted Z.le)).
  - by apply (mapped_labels _ _ _ M ilabel olabel (Sorted Z.le)).
  - by eapply keeps_weighted.
  - by eapply keeps_weighted_cycles.
Qed.

Lemma invert_sound f p : Sound p f → Sound (InvertProperties p) (abs_arc_map InvertMapper f).
Proof.
  intros Hs t. destruct (InvertProperties_bits p t) as [-> ->]. rewrite invert_holds. apply Hs.
Qed.

Lemma invert_accepts f x y w : accepts (abs_arc_map InvertMapper f) x y w ↔ accepts f y x w.
Proof.
  rewrite (keeps_accepts _ _ _ x y w (invert_mapped f) (invert_keeps f)).
  assert (∀ q : list (Arc W), istring (map_arc InvertMapper <$> q) = ostring q ∧
    ostring (map_arc InvertMapper <$> q) = istring q) as Hq.
  { intros q. unfold istring, ostring. by rewrite <-!list_fmap_compose. }
  split.
  - intros (q & t & ? & ? & <- & <- & ?). destruct (Hq q) as [-> ->]. by exists q, t.
  - intros (q & t & ? & ? & <- & <- & ?). destruct (Hq q). by exists q, t.
Qed.

Lemma invert_abs_proper f g : f ≡ g → abs_arc_map InvertMapper f ≡ abs_arc_map InvertMapper g.
Proof.
  intros (E1 & E2 & E3 & E4). repeat split; simpl; rewrite ?E2; try done; intros s; by rewrite ?E3, ?E4.
Qed.

Lemma invert_abs_twice f : abs_arc_map InvertMapper (abs_arc_map InvertMapper f) ≡ f.
Proof.
  repeat split; intros s.
  - by rewrite !abs_arc_map_final.
  - destruct (decide (0 ≤ s < NumStates f)) as [Hs|Hs].
    + rewrite (mapped_arcs _ _ _ (invert_mapped _)), (mapped_arcs _ _ _ (invert_mapped f)) by done.
      rewrite <-list_fmap_compose. rewrite <-(list_fmap_id (Arcs f s)) at 2.
      apply list_fmap_ext. by intros _ [] _.
    + cbn [abs_arc_map abs_map Arcs]. by rewrite !decide_False by done.
Qed.
End invert.

(** * Projection *)

Section project.
Context `{WeightEq W}.
Implicit Types (f g : Fst W) (b : ProjectType).

(** The label that projection keeps, and the property of the operand that a
property of the projection comes from. *)
Definition side b : Arc W → Z := match b with INPUT => ilabel | OUTPUT => olabel end.

Definition project_of b (t : trinary) : trinary :=
  match t, b with
  | IDeterministic, OUTPUT | ODeterministic, OUTPUT => ODeterministic
  | IDeterministic, INPUT | ODeterministic, INPUT => IDeterministic
  | Epsilons, INPUT | IEpsilons, INPUT | OEpsilons, INPUT => IEpsilons
  | Epsilons, OUTPUT | IEpsilons, OUTPUT | OEpsilons, OUTPUT => OEpsilons
  | ILabelSorted, INPUT | OLabelSorted, INPUT => ILabelSorted
  | ILabelSorted, OUTPUT | OLabelSorted, OUTPUT => OLabelSorted
  | t, _ => t
  end.

Lemma ProjectProperties_bits p b t :
  t ≠ Acceptor →
  Z.testbit (ProjectProperties p (is_input b)) (pos_bit t) = Z.testbit p (pos_bit (project_of b t)) ∧
  Z.testbit (ProjectProperties p (is_input b)) (neg_bit t) = Z.testbit p (neg_bit (project_of b t)).
Proof.
  intros Ht. destruct b; cbn [is_input]; destruct t; try done; cbn [project_of];
    cbv beta delta [ProjectProperties]; bits; split; by repeat case_match.
Qed.

Lemma ProjectProperties_acceptor p b :
  Z.testbit (ProjectProperties p (is_input b)) (neg_bit Acceptor) = false.
Proof. destruct b; cbn [is_input]; cbv beta delta [ProjectProperties]; by bits. Qed.

Lemma ProjectProperties_error p b : has (ProjectProperties p (is_input b)) kError = has p kError.
Proof. rewrite !error_bit. destruct b; cbn [is_input]; cbv beta delta [ProjectProperties]; by bits. Qed.

Lemma project_mapped b f : mapped (map_arc (ProjectMapper b)) f (abs_arc_map (ProjectMapper b) f).
Proof. by apply abs_arc_map_mapped. Qed.

Lemma project_keeps b f : keeps_weights (map_arc (ProjectMapper b)) f (abs_arc_map (ProjectMapper b) f).
Proof. split; [done|]. intros s. by apply abs_arc_map_final. Qed.

Lemma project_ilabel b (a : Arc W) : ilabel (map_arc (ProjectMapper b) a) = side b a.
Proof. by destruct b. Qed.

Lemma project_olabel b (a : Arc W) : olabel (map_arc (ProjectMapper b) a) = side b a.
Proof. by destruct b. Qed.

Lemma project_acceptor b f : Holds (abs_arc_map (ProjectMapper b) f) Acceptor.
Proof.
  apply (mapped_all_arcs _ _ _ (project_mapped b f) (λ _ _, True)); [|done].
  intros s a. by rewrite project_ilabel, project_olabel.
Qed.

Lemma project_holds b f t :
  t ≠ Acceptor → Holds (abs_arc_map (ProjectMapper b) f) t ↔ Holds f (project_of b t).
Proof.
  intros Hac. pose proof (project_mapped b f) as M. pose proof (project_keeps b f) as K.
  destruct (structural t) eqn:Ht.
  { rewrite (mapped_structural _ _ _ M) by done. by destruct t. }
  pose proof (project_ilabel b) as Hi. pose proof (project_olabel b) as Ho.
  destruct t; try done; cbn [Holds].
  - rewrite (mapped_labels _ _ _ M (side b) ilabel NoDup Hi). by destruct b.
  - rewrite (mapped_labels _ _ _ M (side b) olabel NoDup Ho). by destruct b.
  - rewrite (mapped_some_arc _ _ _ M (λ _ a, side b a = 0)); [by destruct b|].
    intros s a. rewrite Hi, Ho. tauto.
  - rewrite (mapped_some_arc _ _ _ M (λ _ a, side b a = 0)); [by destruct b|].
    intros s a. by rewrite Hi.
  - rewrite (mapped_some_arc _ _ _ M (λ _ a, side b a = 0)); [by destruct b|].
    intros s a. by rewrite Ho.
  - rewrite (mapped_labels _ _ _ M (side b) ilabel (Sorted Z.le) Hi). by destruct b.
  - rewrite (mapped_labels _ _ _ M (side b) olabel (Sorted Z.le) Ho). by destruct b.
  - rewrite (keeps_weighted _ _ _ M K). by destruct b.
  - rewrite (keeps_weighted_cycles _ _ _ M K). by destruct b.
Qed.

Lemma project_sound b f p :
  Sound p f → Sound (ProjectProperties p (is_input b)) (abs_arc_map (ProjectMapper b) f).
Proof.
  intros Hs t. destruct (decide (t = Acceptor)) as [->|Ht].
  - split; [intros _; apply project_acceptor|]. by rewrite ProjectProperties_acceptor.
  - destruct (ProjectProperties_bits p b t Ht) as [-> ->]. rewrite project_holds by done. apply Hs.
Qed.

(** The strings of one side, with the weights of the pairs they are in. *)
Definition project_accepts b f (x y : list Z) (w : W) : Prop :=
  x = y ∧ ∃ z, match b with INPUT => accepts f x z w | OUTPUT => accepts f z x w end.

Lemma project_lang b f x y w :
  accepts (abs_arc_map (ProjectMapper b) f) x y w ↔ project_accepts b f x y w.
Proof.
  rewrite (keeps_accepts _ _ _ x y w (project_mapped b f) (project_keeps b f)).
  assert (∀ q : list (Arc W), let r := map_arc (ProjectMapper b) in
    istring (r <$> q) = labels (side b <$> q) ∧ ostring (r <$> q) = labels (side b <$> q)) as Hq.
  { intros q. unfold istring, ostring. rewrite <-!list_fmap_compose. by destruct b. }
  split.
  - intros (q & t & ? & ? & <- & <- & ?). destruct (Hq q) as [-> ->]. split; [done|].
    destruct b; [exists (ostring q)|exists (istring q)]; by exists q, t.
  - intros (-> & z & Hz). destruct b, Hz as (q & t & ? & ? & <- & <- & ?);
      exists q, t; by destruct (Hq q).
Qed.
End project.

(** * The algorithms *)

Section algorithms.
Context `{MutableFstLaws W F}.
Implicit Types (x y : F) (f g : Fst W) (m : ArcMapper W).

Lemma cleared_wf m x : minv x → WellFormed (view x) → WellFormed (view (cleared m x)).
Proof. intros Hx Hwf. destruct (cleared_spec m x Hx) as (_ & Hv & _). by rewrite Hv. Qed.

Lemma cleared_sound m x : minv x → SoundFst (view x) → SoundFst (view (cleared m x)).
Proof.
  intros Hx Hs. destruct (cleared_spec m x Hx) as (_ & Hv & Hp & _).
  apply (SoundFst_equiv _ _ Hv). rewrite Hp. exact Hs.
Qed.

(** [y] is [x] mapped by [m], and holds the property bits [p]; its tables are
those of [x] unless the mapper clears them. *)
Record mapped_to m x y : Prop := {
  mapped_to_inv : minv y;
  mapped_to_view : view y ≡ abs_arc_map m (view (cleared m x));
  mapped_to_isymbols : InputSymbols (view y) =
    match InputSymbolsAction m with MAP_CLEAR_SYMBOLS => None | _ => InputSymbols (view x) end;
  mapped_to_osymbols : OutputSymbols (view y) =
    match OutputSymbolsAction m with MAP_CLEAR_SYMBOLS => None | _ => OutputSymbols (view x) end;
  mapped_to_bits : ∀ t,
    let p := MapProperties m (mProperties x kFstProperties) in
    Z.testbit (FstProperties (view y)) (pos_bit t) = Z.testbit p (pos_bit t) ∧
    Z.testbit (FstProperties (view y)) (neg_bit t) = Z.testbit p (neg_bit t);
  mapped_to_error :
    has (FstProperties (view x)) kError = true → has (FstProperties (view y)) kError = true;
}.

Lemma ArcMap_mapped_to x m :
  minv x → Start (view x) ≠ kNoStateId → ∃ y, ArcMap x m = Some y ∧ mapped_to m x y.
Proof.
  intros Hx Hs. destruct (ArcMap_result x m Hx Hs) as (y & Hy & [Hi [Hv HI HO He _]]).
  destruct (cleared_spec m x Hx) as (_ & _ & Hp & Hci & Hco).
  set (p := MapProperties m _) in *. destruct (mSetProperties_symbols y p kFstProperties) as [Ei Eo].
  eexists. split; [exact Hy|]. split.
  - by apply mSetProperties_minv.
  - by rewrite mSetProperties_view.
  - by rewrite Ei, HI, Hci.
  - by rewrite Eo, HO, Hco.
  - intros t. apply stored_bits. by left.
  - intros Hx'. rewrite stored_error, He by (by rewrite ?Hp). done.
Qed.

(** Without a start state only the symbol tables change. *)
Lemma ArcMap_idle x m :
  minv x → Start (view x) = kNoStateId → ArcMap x m = Some (cleared m x).
Proof.
  intros Hx Hs. apply ArcMap_cleared. destruct (cleared_spec m x Hx) as (_ & [-> _] & _). done.
Qed.

(** From the machine and the bits to what a caller sees. *)
Lemma mapped_leaves m x y (lang : list Z → list Z → W → Prop) :
  mapped_to m x y →
  WellFormed (abs_arc_map m (view (cleared m x))) →
  Sound (MapProperties m (mProperties x kFstProperties)) (abs_arc_map m (view (cleared m x))) →
  (∀ a b w, accepts (abs_arc_map m (view (cleared m x))) a b w ↔ lang a b w) →
  leaves y (has (FstProperties (view x)) kError) lang.
Proof.
  intros [Hi Hv _ _ Hb He] Hwf Hs Hl. split; [done|by rewrite Hv| |done|].
  - apply (SoundFst_equiv _ _ Hv). intros t. destruct (Hb t) as [-> ->]. apply Hs.
  - intros a b w. rewrite Hv. apply Hl.
Qed.

Lemma idle_leaves m x (lang : list Z → list Z → W → Prop) :
  minv x → WellFormed (view x) → SoundFst (view x) → Start (view x) = kNoStateId →
  (∀ a b w, ¬ lang a b w) →
  leaves (cleared m x) (has (FstProperties (view x)) kError) lang.
Proof.
  intros Hx Hwf Hs Hst Hl. destruct (cleared_spec m x Hx) as (Hc & Hv & Hp & _).
  split; [done|by apply cleared_wf|by apply cleared_sound|by rewrite Hp|].
  intros a b w. split; [|intros []%Hl]. intros []%accepts_no_start. by rewrite (proj1 Hv).
Qed.

Lemma cleared_bits m x :
  minv x → SoundFst (view x) → Sound (mProperties x kFstProperties) (view (cleared m x)).
Proof.
  intros Hx Hs. destruct (cleared_spec m x Hx) as (_ & Hv & _). rewrite Hv. by apply mProperties_sound.
Qed.
End algorithms.

(** * Adding a superfinal state *)

Section super_final.
Context `{TM : TimesMonoid W}.
Context (f : Fst W) (label : Z) (Hwf : WellFormed f) (Hstart : valid f (Start f)).
Implicit Types (p q : list (Arc W)).

Notation m := (SuperFinalMapper label).
Notation n := (NumStates f).
Notation g := (abs_arc_map m f).

(** The arc that carries the final weight [w]. *)
Definition super_arc (w : W) : Arc W := MkArc label label w n.

Definition super_of (w : W) : list (Arc W) := if weqb w Zero then [] else [super_arc w].

Lemma super_states : NumStates g = n + 1.
Proof. done. Qed.

Lemma super_pos : 0 < n.
Proof. unfold valid in Hstart. lia. Qed.

Lemma super_valid s : valid g s ↔ valid f s ∨ s = n.
Proof. pose proof super_pos. unfold valid. rewrite super_states. lia. Qed.

Lemma super_plain_arc s a : arc_in f s a → map_arc m a = a.
Proof.
  intros [Hs Ha]. destruct Hwf as (_ & Hn & _). specialize (Hn s a Hs Ha). simpl in *.
  destruct (Z.eqb_spec (nextstate a) kNoStateId); [|done]. unfold valid, kNoStateId in *. lia.
Qed.

Lemma super_arcs_of w : super_arcs m n w = super_of w.
Proof.
  unfold super_arcs, needs, super_of, super_arc, mapped_final, labelled. simpl.
  destruct (weqb w Zero) eqn:Hw; simpl; rewrite ?Hw; simpl; [done|]. by rewrite orb_true_r.
Qed.

Lemma super_old_arcs s : valid f s → Arcs g s = Arcs f s ++ super_of (Final f s).
Proof.
  intros Hs. cbn [abs_arc_map abs_map Arcs]. rewrite decide_True, super_arcs_of by done. f_equal.
  rewrite <-(list_fmap_id (Arcs f s)) at 2. apply list_fmap_ext. intros i a Ha.
  eapply super_plain_arc. split; [exact Hs|]. by eapply list_elem_of_lookup_2.
Qed.

Lemma super_last_arcs : tight f → Arcs g n = [].
Proof.
  intros Ht. cbn [abs_arc_map abs_map Arcs]. rewrite decide_False by lia.
  apply Ht. unfold valid. lia.
Qed.

Lemma super_old_final s : valid f s → Final g s = Zero.
Proof. intros Hs. cbn [abs_arc_map abs_map Final]. by rewrite decide_True. Qed.

Lemma super_last_final : Final g n = One.
Proof. cbn [abs_arc_map abs_map Final]. by rewrite decide_False, decide_True by (split || lia; done || lia). Qed.

Context (Htight : tight f) (Hone : weqb (One : W) Zero = false).

(** The arcs of the result: the old ones, and those to the new state. *)
Lemma super_arc_in s b :
  arc_in g s b ↔ arc_in f s b ∨ (is_final f s ∧ b = super_arc (Final f s)).
Proof.
  unfold arc_in, is_final. rewrite super_valid. split.
  - intros [[Hs|Hs] Hb]; [|subst s; by rewrite (super_last_arcs Htight) in Hb; apply not_elem_of_nil in Hb].
    rewrite super_old_arcs in Hb by done. apply elem_of_app in Hb as [Hb|Hb]; [by left|right].
    unfold super_of in Hb. destruct (weqb (Final f s) Zero); [by apply not_elem_of_nil in Hb|].
    by apply list_elem_of_singleton in Hb.
  - intros [[Hs Hb]|[[Hs Hf] ->]]; (split; [by left|]); rewrite super_old_arcs by done;
      apply elem_of_app; [by left|right]. unfold super_of. rewrite Hf. by apply list_elem_of_singleton.
Qed.

Lemma super_is_final s : is_final g s ↔ s = n.
Proof.
  unfold is_final. rewrite super_valid. split.
  - intros [[Hs|?] Hf]; [|done]. by rewrite super_old_final, weqb_Zero_refl in Hf.
  - intros ->. split; [by right|]. by rewrite super_last_final.
Qed.

Lemma super_incl : arcs_incl f g.
Proof. intros s a Ha. apply super_arc_in. by left. Qed.

Lemma super_edge s t : edge g s t ↔ edge f s t ∨ (is_final f s ∧ t = n).
Proof.
  split.
  - intros (Hs & b & Hb & <-). apply (conj Hs), super_arc_in in Hb as [[? ?]|[? ->]].
    + left. split; [done|]. by exists b.
    + by right.
  - intros [He|[Hf ->]]; [by eapply arcs_incl_edge, He; apply super_incl|].
    destruct (proj2 (super_arc_in s (super_arc (Final f s)))) as [? ?]; [by right|].
    split; [done|]. by exists (super_arc (Final f s)).
Qed.

Lemma super_edge_old s t : edge f s t → valid f t.
Proof. intros (Hs & a & Ha & <-). by apply (proj1 (proj2 Hwf) s a). Qed.

Lemma super_rtc_new s : rtc (edge g) n s → s = n.
Proof.
  intros Hr. inversion Hr as [|x u y He _]; [done|]. exfalso.
  apply super_edge in He as [[He _]|[[He _] _]]; unfold valid in He; lia.
Qed.

Lemma super_rtc_old s t : t ≠ n → rtc (edge g) s t → rtc (edge f) s t.
Proof.
  intros Ht. induction 1 as [|s u t He Hr IH]; [constructor|].
  apply super_edge in He as [He|[_ ->]]; [|by apply super_rtc_new in Hr].
  by econstructor; [|apply IH].
Qed.

Lemma super_tc s t : t ≠ n → tc (edge g) s t → tc (edge f) s t.
Proof.
  intros Ht Hst.
  induction Hst as [s t He|s u t He Hr IH].
  - apply super_edge in He as [He|[_ ->]]; [by constructor|done].
  - apply super_edge in He as [He|[_ ->]].
    + eapply tc_l; [exact He|by apply IH].
    + exfalso. apply Ht. by apply super_rtc_new, tc_rtc.
Qed.

Lemma super_cycle s : tc (edge g) s s ↔ tc (edge f) s s.
Proof.
  split; [|apply arcs_incl_tc, super_incl]. intros Hc. destruct (decide (s = n)) as [->|]; [|by apply super_tc].
  exfalso. inversion Hc as [x y He|x u y He _];
    apply super_edge in He as [[He _]|[[He _] _]]; unfold valid in He; lia.
Qed.

Lemma super_wf : WellFormed g.
Proof.
  pose proof super_pos. refine (conj _ (conj _ (or_intror _))).
  - rewrite super_states. lia.
  - intros s a Hs Ha. apply super_valid. apply (conj Hs), super_arc_in in Ha as [[? ?]|[? ->]]; [|by right].
    left. by apply (proj1 (proj2 Hwf) s a).
  - apply super_valid. by left.
Qed.

(** ** Its property bits *)

Lemma super_state t (P : list (Arc W) → Prop) : state_property t = Some P → Holds g t → Holds f t.
Proof.
  intros HP. rewrite !(holds_state _ _ P) by done. intros Hh s Hs.
  assert (P (Arcs g s)) as Hg by (apply Hh, super_valid; by left).
  rewrite super_old_arcs in Hg by done. by apply (state_property_app _ _ _ _ HP) in Hg as [? _].
Qed.

Lemma super_weighted : Holds g Weighted ↔ Holds f Weighted.
Proof.
  cbn [Holds]. split.
  - intros [(s & a & Hs & Ha & Hw)|(s & Hs & Hw)].
    + apply (conj Hs), super_arc_in in Ha as [[? ?]|[[Hv _] ->]]; [left; by exists s, a|right; by exists s].
    + apply super_valid in Hs as [Hs| ->]; [by rewrite super_old_final, nontrivial_Zero in Hw|].
      by rewrite super_last_final, nontrivial_One in Hw.
  - intros [(s & a & Hs & Ha & Hw)|(s & Hs & Hw)]; left.
    + destruct (super_incl s a) as [? ?]; [done|]. by exists s, a.
    + destruct (proj2 (super_arc_in s (super_arc (Final f s)))) as [? ?]; [|by exists s, (super_arc (Final f s))].
      right. split; [|done]. split; [done|]. unfold nontrivial in Hw.
      apply andb_true_iff in Hw as [Hw _]. by apply negb_true_iff in Hw.
Qed.

Lemma super_weighted_cycles : Holds g WeightedCycles → Holds f WeightedCycles.
Proof.
  intros (s & a & Hs & Ha & Hw & Hr). apply (conj Hs), super_arc_in in Ha as [[Hv Ha]|[[Hv _] ->]].
  - exists s, a. split_and!; [done..|]. apply super_rtc_old; [unfold valid in Hv; lia|done].
  - exfalso. apply super_rtc_new in Hr. unfold valid in Hv. lia.
Qed.

Lemma super_accessible : Holds g Accessible → Holds f Accessible.
Proof.
  cbn [Holds]. intros Hh s Hs. apply super_rtc_old; [unfold valid in Hs; lia|].
  change (Start f) with (Start g). apply Hh, super_valid. by left.
Qed.

Lemma super_coaccessible : Holds g CoAccessible ↔ Holds f CoAccessible.
Proof.
  cbn [Holds]. split; intros Hh s Hs.
  - destruct (Hh s) as (t & Hr & ->%super_is_final); [apply super_valid; by left|].
    apply rtc_inv_r in Hr as [->|(u & Hr & He)]; [unfold valid in Hs; lia|].
    apply super_edge in He as [He|[Hf _]].
    + apply super_edge_old in He. unfold valid in He. lia.
    + exists u. split; [|done]. apply super_rtc_old; [|done]. destruct Hf as [Hf _]. unfold valid in Hf. lia.
  - exists n. rewrite super_is_final. split; [|done]. apply super_valid in Hs as [Hs| ->]; [|constructor].
    destruct (Hh s Hs) as (t & Hr & Hf). eapply rtc_r; [by eapply arcs_incl_rtc, Hr; apply super_incl|].
    apply super_edge. by right.
Qed.

Lemma super_string : Holds g StringFst → Holds f StringFst.
Proof.
  cbn [Holds]. rewrite super_states. pose proof super_pos as Hpos. intros Hg _.
  destruct Hg as (Hst & _ & _ & Hs); [lia|]. replace (n + 1 - 1) with n in Hs by lia.
  assert (∀ s, valid f s → (∃ a, Arcs f s ++ super_of (Final f s) = [a] ∧ nextstate a = s + 1)) as Hone'.
  { intros s Hv. destruct (Hs s) as [_ (a & Ha & Hn)]; [done|]. exists a. by rewrite <-super_old_arcs. }
  assert (∀ s a, valid f s → Arcs f s = [a] → valid f (nextstate a)) as Hnext.
  { intros s a Hv Ha. apply (proj1 (proj2 Hwf) s a); [done|]. rewrite Ha. by left. }
  split; [exact Hst|]. unfold super_of in Hone'. split_and!.
  - assert (valid f (n - 1)) as Hv by (unfold valid; lia). split; [done|].
    destruct (Hone' _ Hv) as (a & Ha & Hn). destruct (weqb (Final f (n - 1)) Zero); [|done].
    rewrite app_nil_r in Ha. apply (Hnext _ _ Hv) in Ha. unfold valid in Ha. lia.
  - assert (valid f (n - 1)) as Hv by (unfold valid; lia).
    destruct (Hone' _ Hv) as (a & Ha & Hn). destruct (Arcs f (n - 1)) as [|b [|]] eqn:Hb; [done| |done].
    simplify_eq/=. apply (Hnext _ _ Hv) in Hb. unfold valid in Hb. lia.
  - intros s Hv. assert (valid f s) as Hv' by (unfold valid; lia).
    destruct (Hone' _ Hv') as (a & Ha & Hn). unfold is_final.
    destruct (weqb (Final f s) Zero) eqn:Hw.
    + rewrite app_nil_r in Ha. split; [by intros [_ ?]|by exists a].
    + exfalso. destruct (Arcs f s) as [|b [|]]; simplify_eq/=. lia.
Qed.

Lemma super_acceptor : Holds f Acceptor → Holds g Acceptor.
Proof.
  intros Hh s a Hs Ha. apply (conj Hs), super_arc_in in Ha as [[? ?]|[_ ->]]; [by apply (Hh s)|done].
Qed.

Lemma super_sound (p : Z) : Sound p f → Sound (p &&& kAddSuperFinalProperties) g.
Proof.
  intros Hs. pose proof super_incl as Hi. sound_cases Hs.
  all: try (by apply super_acceptor).
  all: try (by eapply holds_monotone; [|exact Hi|]).
  all: try (by intros Hg; apply Hn; eapply holds_antitone; [|exact Hi|]).
  all: try (by intros Hg; apply Hn; eapply super_state; [reflexivity|]).
  all: try (by rewrite ?super_weighted, ?super_coaccessible).
  all: try (by intros Hg; apply Hn; auto using super_weighted_cycles, super_accessible, super_string).
  all: cbn [Holds] in *; try (by setoid_rewrite super_cycle).
  all: try (change (Start g) with (Start f); by rewrite super_cycle).
Qed.

Lemma sound_mask (p mask : Z) (h : Fst W) : Sound p h → Sound (p &&& mask) h.
Proof.
  intros Hs t. destruct (Hs t) as [Hp Hn]. rewrite !Z.land_spec.
  split; intros [? _]%andb_true_iff; auto.
Qed.

(** ** Its language *)

Lemma super_path_old s p t : path f s p t → path g s p t.
Proof.
  induction 1 as [s Hs|s a p t Hs Ha _ IH].
  - constructor. apply super_valid. by left.
  - destruct (super_incl s a) as [? ?]; [done|]. by constructor.
Qed.

Lemma super_path s p :
  path g s p n → s ≠ n →
  ∃ q t, path f s q t ∧ is_final f t ∧ p = q ++ [super_arc (Final f t)].
Proof.
  intros Hp. remember n as u eqn:Hu. induction Hp as [s Hs|s a p t Hs Ha Hp IH]; intros Hsn; [done|].
  apply (conj Hs), super_arc_in in Ha as [[Hv Ha]|[Hf ->]].
  - destruct IH as (q & t' & Hq & Hf & ->); [done| |].
    + intros Hn. pose proof (proj1 (proj2 Hwf) s a Hv Ha) as Hv'. simpl in Hv'. unfold valid in Hv'. lia.
    + exists (a :: q), t'. split; [by constructor|]. done.
  - exists [], s. split; [constructor; apply Hf|]. split; [done|]. f_equal.
    cbn [super_arc nextstate] in Hp. subst t. by inversion Hp as [|? b ? ? ? Hb]; [|rewrite (super_last_arcs Htight) in Hb; apply not_elem_of_nil in Hb].
Qed.

Lemma super_path_weight q (w : W) :
  Member w = true → path_weight (q ++ [super_arc w]) One ≡ path_weight q w.
Proof.
  intros Hw. rewrite path_weight_app. apply path_weight_proper. apply (Times_One_r w Hw).
Qed.

(** The strings of [f], each with the label of the superfinal arc at the end. *)
Definition extended (x y : list Z) (w : W) : Prop :=
  ∃ x' y', x = x' ++ labels [label] ∧ y = y' ++ labels [label] ∧ accepts f x' y' w.

Lemma super_accepts x y w : member_weights f → accepts g x y w ↔ extended x y w.
Proof.
  intros [Hma Hmf]. pose proof super_pos as Hpos. split.
  - intros (p & t & Hp & ->%super_is_final & <- & <- & Hw). rewrite super_last_final in Hw.
    destruct (super_path _ _ Hp) as (q & t & Hq & Hf & ->); [unfold valid in Hstart; simpl in *; lia|].
    exists (istring q), (ostring q). rewrite istring_app, ostring_app. split_and!; [done..|].
    exists q, t. split_and!; [done..|]. rewrite <-Hw. symmetry. apply super_path_weight, Hmf, Hf.
  - intros (x' & y' & -> & -> & q & t & Hq & Hf & <- & <- & Hw).
    exists (q ++ [super_arc (Final f t)]), n. rewrite super_is_final, super_last_final, istring_app, ostring_app.
    split_and!; [|done..|].
    + eapply path_app; [by apply super_path_old|].
      destruct (proj2 (super_arc_in t (super_arc (Final f t)))) as [? ?]; [by right|].
      constructor; [done..|]. constructor. apply super_valid. by right.
    + rewrite <-Hw. apply super_path_weight, Hmf, Hf.
Qed.
End super_final.

(** * Changing weights *)

Section weights.
Context `{TM : TimesMonoid W}.
Implicit Types (f g : Fst W) (map : W → W).

(** [map] keeps weights that are not zero so, and zero weights. *)
Definition zero_faithful map : Prop := ∀ w, Member w = true → weqb (map w) Zero = weqb w Zero.

Lemma weights_mapped map props f :
  zero_faithful map → member_weights f →
  mapped (map_arc (weight_mapper map props)) f (abs_arc_map (weight_mapper map props) f).
Proof. intros Hz [_ Hf]. apply abs_arc_map_mapped; [done..|]. intros s Hs. by apply Hz, Hf. Qed.

Lemma weights_holds map props f t :
  zero_faithful map → member_weights f → t ≠ Weighted → t ≠ WeightedCycles →
  Holds (abs_arc_map (weight_mapper map props) f) t ↔ Holds f t.
Proof.
  intros Hz Hm Ht1 Ht2. pose proof (weights_mapped map props f Hz Hm) as M.
  destruct (structural t) eqn:Ht; [by apply (mapped_structural _ _ _ M)|].
  destruct t; try done.
  - by apply (mapped_all_arcs _ _ _ M).
  - by apply (mapped_labels _ _ _ M ilabel ilabel).
  - by apply (mapped_labels _ _ _ M olabel olabel).
  - by apply (mapped_some_arc _ _ _ M).
  - by apply (mapped_some_arc _ _ _ M).
  - by apply (mapped_some_arc _ _ _ M).
  - by apply (mapped_labels _ _ _ M ilabel ilabel (Sorted Z.le)).
  - by apply (mapped_labels _ _ _ M olabel olabel (Sorted Z.le)).
Qed.

Lemma weights_sound map props f (p : Z) :
  zero_faithful map → member_weights f → Sound p f →
  Sound (p &&& kWeightInvariantProperties) (abs_arc_map (weight_mapper map props) f).
Proof.
  intros Hz Hm Hs t.
  destruct (decide (t = Weighted)) as [->|]; [by bits|].
  destruct (decide (t = WeightedCycles)) as [->|]; [by bits|].
  rewrite weights_holds by done. by apply sound_mask.
Qed.

Lemma rm_weight_faithful : weqb (One : W) Zero = false → zero_faithful (λ v, if wneqb v Zero then One else Zero).
Proof. intros H1 w Hw. destruct (weqb w Zero); [apply weqb_Zero_refl|done]. Qed.

Lemma rm_weight_unweighted f : ¬ Holds (abs_arc_map RmWeightMapper f) Weighted.
Proof.
  assert (∀ w : W, nontrivial (if wneqb w Zero then One else Zero) = false) as Ht.
  { intros w. destruct (weqb w Zero); [apply nontrivial_Zero|apply nontrivial_One]. }
  intros [(s & a & Hs & Ha & Hw)|(s & Hs & Hw)]; unfold valid in Hs; simpl in *.
  - rewrite decide_True in Ha by done. apply elem_of_app in Ha as [Ha|Ha]; [|by apply not_elem_of_nil in Ha].
    apply list_elem_of_fmap in Ha as (b & -> & _). simpl in Hw. by rewrite Ht in Hw.
  - rewrite decide_True in Hw by done. unfold new_final in Hw. simpl in Hw. by rewrite Ht in Hw.
Qed.

Lemma rm_weight_sound f (p : Z) :
  weqb (One : W) Zero = false → member_weights f → Sound p f →
  Sound (MapProperties (RmWeightMapper (W:=W)) p) (abs_arc_map RmWeightMapper f).
Proof.
  intros H1 Hm Hs t. pose proof (weights_sound _ (MapProperties RmWeightMapper) f p (rm_weight_faithful H1) Hm Hs t) as Ht.
  simpl. rewrite !Z.lor_spec. destruct (decide (t = Weighted)) as [->|Ht'].
  - split; [by bits|]. intros _. apply rm_weight_unweighted.
  - revert Ht. destruct t; try done; bits; done.
Qed.

(** The pairs of strings on successful paths, those through a zero arc with weight zero. *)
Definition support f (x y : list Z) (w : W) : Prop :=
  ∃ q t, path f (Start f) q t ∧ is_final f t ∧ istring q = x ∧ ostring q = y ∧
    w ≡ (if forallb (λ a, wneqb (weight a) Zero) q then One else Zero).

Lemma rm_weight_mapped f :
  weqb (One : W) Zero = false → member_weights f →
  mapped (map_arc RmWeightMapper) f (abs_arc_map RmWeightMapper f).
Proof. intros H1 Hm. by apply weights_mapped; [apply rm_weight_faithful|]. Qed.

Lemma rm_weight_accepts f x y w :
  (∀ a : W, Member a = true → Times a Zero ≡ Zero) → (∀ a : W, Member a = true → Times Zero a ≡ Zero) →
  weqb (One : W) Zero = false → member_weights f →
  accepts (abs_arc_map RmWeightMapper f) x y w ↔ support f x y w.
Proof.
  intros Hr Hl H1 Hm. rewrite (mapped_accepts _ _ _ (rm_weight_mapped f H1 Hm)).
  assert (∀ (q : list (Arc W)), path_weight (map_arc RmWeightMapper <$> q) One
    ≡ (if forallb (λ a, wneqb (weight a) Zero) q then One else Zero)) as Hq.
  { induction q as [|a q IH]; csimpl; [done|]. unfold path_weight in IH |- *. csimpl. rewrite IH.
    destruct (weqb (weight a) Zero), (forallb _ q); simpl;
      [apply Hl, One_member|apply Hl, Zero_member|apply Times_One_l, One_member|apply Hr, One_member]. }
  assert (∀ t, is_final f t → Final (abs_arc_map RmWeightMapper f) t = One) as Hf.
  { intros t [Hv Ht]. simpl. rewrite decide_True by done. unfold new_final. simpl. by rewrite Ht. }
  assert (∀ q : list (Arc W), istring (map_arc RmWeightMapper <$> q) = istring q ∧
    ostring (map_arc RmWeightMapper <$> q) = ostring q) as Hs.
  { intros q. unfold istring, ostring. by rewrite <-!list_fmap_compose. }
  split; intros (q & t & Hp & Ht & <- & <- & Hw); exists q, t; destruct (Hs q) as [E1 E2].
  - rewrite Hf, Hq in Hw by done. by rewrite E1, E2.
  - rewrite Hf, Hq by done. by rewrite E1, E2.
Qed.
End weights.

(** * Results *)

Section results.
Context `{TM : TimesMonoid W} {F : Type} `{!MutableFst W F} `{!MutableFstLaws W F}.
Implicit Types (x y : F) (m : ArcMapper W).

(** C18: [ArcMap], for any mapper and any way to treat final weights.  It
returns; without a start state only symbol tables that the mapper clears change;
otherwise every state has its arcs mapped in place, its final weight mapped, or
moved to an arc to the one superfinal state the mapper asks for, and the bits
stored are those of the mapper. *)
Theorem ArcMap_refines x m :
  minv x →
  ∃ y, ArcMap x m = Some y ∧
    if decide (Start (view x) = kNoStateId) then y = cleared m x else mapped_to m x y.
Proof.
  intros Hx. destruct (decide (Start (view x) = kNoStateId)) as [Hs|Hs].
  - exists (cleared m x). split; [by apply ArcMap_idle|done].
  - by apply ArcMap_mapped_to.
Qed.

(** The shared part of [Invert] and [Project]. *)
Lemma ArcMap_leaves x m (lang : list Z → list Z → W → Prop) :
  minv x → WellFormed (view x) → SoundFst (view x) →
  (∀ f, WellFormed f → WellFormed (abs_arc_map m f)) →
  (∀ f p, Sound p f → Sound (MapProperties m p) (abs_arc_map m f)) →
  (Start (view x) ≠ kNoStateId → ∀ a b w, accepts (abs_arc_map m (view (cleared m x))) a b w ↔ lang a b w) →
  (Start (view x) = kNoStateId → ∀ a b w, ¬ lang a b w) →
  ∃ y, ArcMap x m = Some y ∧ leaves y (has (FstProperties (view x)) kError) lang.
Proof.
  intros Hx Hwf Hs Hmw Hms Hl Hn. destruct (decide (Start (view x) = kNoStateId)) as [Hst|Hst].
  - exists (cleared m x). split; [by apply ArcMap_idle|]. apply idle_leaves; auto.
  - destruct (ArcMap_mapped_to x m Hx Hst) as (y & Hy & Hm). exists y. split; [done|].
    eapply mapped_leaves; [done|by apply Hmw, cleared_wf| |by apply Hl].
    by apply Hms, cleared_bits.
Qed.

(** A machine [x] whose symbol tables are set again. *)
Lemma same_leaves y z err lang :
  leaves y err lang → minv z → view z ≡ view y → FstProperties (view z) = FstProperties (view y) →
  leaves z err lang.
Proof.
  intros [Hi Hwf Hs He Hl] Hz Hv Hp. split; [done|by rewrite Hv| |by rewrite Hp|].
  - apply (SoundFst_equiv _ _ Hv). rewrite Hp. exact Hs.
  - intros a b w. rewrite Hv. apply Hl.
Qed.

Lemma input_symbols_leaves y err lang s : leaves y err lang → leaves (mSetInputSymbols y s) err lang.
Proof.
  intros Hl. destruct (mSetInputSymbols_rest y s) as (_ & _ & Hp).
  eapply same_leaves; [done| |apply mSetInputSymbols_view|done]. apply mSetInputSymbols_minv, (leaves_inv _ _ _ Hl).
Qed.

Lemma output_symbols_leaves y err lang s : leaves y err lang → leaves (mSetOutputSymbols y s) err lang.
Proof.
  intros Hl. destruct (mSetOutputSymbols_rest y s) as (_ & _ & Hp).
  eapply same_leaves; [done| |apply mSetOutputSymbols_view|done]. apply mSetOutputSymbols_minv, (leaves_inv _ _ _ Hl).
Qed.

Lemma symbols_set y s t :
  InputSymbols (view (mSetOutputSymbols (mSetInputSymbols y s) t)) = s ∧
  OutputSymbols (view (mSetOutputSymbols (mSetInputSymbols y s) t)) = t.
Proof.
  destruct (mSetInputSymbols_rest y s) as (H1 & _).
  destruct (mSetOutputSymbols_rest (mSetInputSymbols y s) t) as (-> & -> & _). done.
Qed.

Lemma Invert_leaves x :
  minv x → WellFormed (view x) → SoundFst (view x) →
  ∃ y, ArcMap x InvertMapper = Some y ∧
    leaves y (has (FstProperties (view x)) kError) (λ a b w, accepts (view x) b a w).
Proof.
  intros Hx Hwf Hs. destruct (cleared_spec InvertMapper x Hx) as (_ & Hv & _).
  apply ArcMap_leaves; try done.
  - intros f. apply (mapped_wf _ _ _ (invert_mapped f)).
  - intros f p. apply invert_sound.
  - intros _ a b w. rewrite invert_accepts. by rewrite Hv.
  - intros Hst a b w. by apply accepts_no_start.
Qed.

(** C19: [Invert] on a well-formed machine with true bits returns a well-formed
machine that accepts [(a, b)] with the weight with which [(b, a)] was accepted,
whose bits are true, with the symbol tables exchanged and a raised error kept. *)
Theorem Invert_correct x :
  minv x → WellFormed (view x) → SoundFst (view x) →
  ∃ y, Invert x = Some y ∧
    leaves y (has (FstProperties (view x)) kError) (λ a b w, accepts (view x) b a w) ∧
    InputSymbols (view y) = OutputSymbols (view x) ∧ OutputSymbols (view y) = InputSymbols (view x).
Proof.
  intros Hx Hwf Hs. destruct (Invert_leaves x Hx Hwf Hs) as (y & Hy & Hl).
  unfold Invert. rewrite Hy. eexists. split; [done|]. split; [by apply output_symbols_leaves, input_symbols_leaves|apply symbols_set].
Qed.

(** The machine after [Invert]. *)
Lemma Invert_view x :
  minv x → ∃ y, Invert x = Some y ∧ minv y ∧
    view y ≡ (if Start (view x) =? kNoStateId then view x else abs_arc_map InvertMapper (view x)) ∧
    InputSymbols (view y) = OutputSymbols (view x) ∧ OutputSymbols (view y) = InputSymbols (view x).
Proof.
  intros Hx. destruct (cleared_spec InvertMapper x Hx) as (Hc & Hv & _).
  assert (∃ z, ArcMap x InvertMapper = Some z ∧ minv z ∧
    view z ≡ (if Start (view x) =? kNoStateId then view x else abs_arc_map InvertMapper (view x)))
    as (z & Hz & Hzi & Hzv).
  { destruct (Z.eqb_spec (Start (view x)) kNoStateId).
    - exists (cleared InvertMapper x). split; [by apply ArcMap_idle|done].
    - destruct (ArcMap_mapped_to x InvertMapper Hx) as (z & Hz & [? Hzv _ _ _ _]); [done|].
      exists z. split_and!; [done..|]. rewrite Hzv. by apply invert_abs_proper. }
  unfold Invert. rewrite Hz. eexists. split; [done|].
  split; [by apply mSetOutputSymbols_minv, mSetInputSymbols_minv|]. split; [|apply symbols_set].
  etrans; [apply mSetOutputSymbols_view|]. etrans; [apply mSetInputSymbols_view|done].
Qed.

(** C20: [Invert] twice is the identity, on machines and on symbol tables. *)
Theorem Invert_involutive x :
  minv x → ∃ y z, Invert x = Some y ∧ Invert y = Some z ∧ view z ≡ view x ∧
    InputSymbols (view z) = InputSymbols (view x) ∧ OutputSymbols (view z) = OutputSymbols (view x).
Proof.
  intros Hx. destruct (Invert_view x Hx) as (y & Hy & Hyi & Hyv & Ey1 & Ey2).
  destruct (Invert_view y Hyi) as (z & Hz & _ & Hzv & Ez1 & Ez2).
  exists y, z. split_and!; [done..| |congruence|congruence].
  assert (Start (view y) = Start (view x)) as Hst.
  { destruct Hyv as [-> _]. by destruct (Start (view x) =? kNoStateId). }
  rewrite Hst in Hzv. destruct (Start (view x) =? kNoStateId); [by rewrite Hzv|].
  rewrite Hzv. etrans; [by apply invert_abs_proper|]. apply invert_abs_twice.
Qed.

(** C21: [Project] on a well-formed machine with true bits returns a well-formed
acceptor of the strings of the side that is kept, with their weights; its bits
are true, both symbol tables are those of that side, a raised error is kept. *)
Theorem Project_correct x b :
  minv x → WellFormed (view x) → SoundFst (view x) →
  ∃ y, Project x b = Some y ∧
    leaves y (has (FstProperties (view x)) kError) (project_accepts b (view x)) ∧
    (let t := match b with INPUT => InputSymbols (view x) | OUTPUT => OutputSymbols (view x) end in
     InputSymbols (view y) = t ∧ OutputSymbols (view y) = t).
Proof.
  intros Hx Hwf Hs. destruct (cleared_spec (ProjectMapper b) x Hx) as (Hc & Hv & Hp & Hci & Hco).
  destruct (ArcMap_leaves x (ProjectMapper b) (project_accepts b (view x))) as (y & Hy & Hl); try done.
  - intros f. apply (mapped_wf _ _ _ (project_mapped b f)).
  - intros f p. apply project_sound.
  - intros _ a c w. rewrite project_lang. unfold project_accepts. destruct b; by setoid_rewrite Hv.
  - intros Hst a c w (_ & z & Hz). destruct b; by eapply accepts_no_start.
  - assert (InputSymbols (view y) =
        match b with INPUT => InputSymbols (view x) | OUTPUT => None end ∧
      OutputSymbols (view y) = match b with OUTPUT => OutputSymbols (view x) | INPUT => None end) as [Ei Eo].
    { destruct (decide (Start (view x) = kNoStateId)) as [Hst|Hst].
      - rewrite ArcMap_idle in Hy by done. injection Hy as <-. rewrite Hci, Hco. by destruct b.
      - destruct (ArcMap_mapped_to x (ProjectMapper b) Hx Hst) as (y' & Hy' & Hm).
        rewrite Hy in Hy'. injection Hy' as <-. destruct Hm as [_ _ -> -> _ _]. by destruct b. }
    unfold Project. rewrite Hy. eexists. split; [done|].
    destruct b; (split; [by apply output_symbols_leaves || by apply input_symbols_leaves|]).
    + simpl. destruct (mSetOutputSymbols_rest y (InputSymbols (view y))) as (-> & -> & _). by rewrite Ei.
    + simpl. destruct (mSetInputSymbols_rest y (OutputSymbols (view y))) as (-> & -> & _). by rewrite Eo.
Qed.

(** [ArcMap] with [SuperFinalMapper].  On a well-formed machine with a
start state, member weights and true bits it returns a well-formed machine with
true bits in which one state is final, with weight [One], and has no arcs; it
accepts the strings of the operand with the final label appended, with the same
weights. *)
Theorem SuperFinal_correct x (label : Z) :
  minv x → WellFormed (view x) → SoundFst (view x) → member_weights (view x) →
  Start (view x) ≠ kNoStateId → weqb (One : W) Zero = false →
  ∃ y, ArcMap x (SuperFinalMapper label) = Some y ∧
    leaves y (has (FstProperties (view x)) kError) (extended (view x) label) ∧
    ∃ n, valid (view y) n ∧ Final (view y) n = One ∧ Arcs (view y) n = [] ∧
      ∀ s, is_final (view y) s ↔ s = n.
Proof.
  intros Hx Hwf Hs Hm Hst H1. destruct (cleared_spec (SuperFinalMapper label) x Hx) as (Hc & Hv & Hp & _).
  change (cleared (SuperFinalMapper label) x) with x in *.
  pose proof (start_valid _ Hwf Hst) as Hvs. pose proof (view_tight x) as Ht.
  destruct (ArcMap_mapped_to x (SuperFinalMapper label) Hx Hst) as (y & Hy & My).
  exists y. split; [done|]. split.
  - eapply mapped_leaves; [done|by apply super_wf| |].
    + apply (mProperties_sound x), (super_sound _ label Hwf Hvs Ht H1) in Hs. simpl.
      destruct (label =? 0); [exact Hs|]. by do 2 apply sound_mask.
    + intros a b w. by apply super_accepts.
  - destruct My as [_ Hvy _ _ _ _]. change (cleared (SuperFinalMapper label) x) with x in Hvy.
    exists (NumStates (view x)). split_and!.
    + rewrite Hvy. apply super_valid; [done|]. by right.
    + destruct Hvy as (_ & _ & -> & _). apply super_last_final.
    + destruct Hvy as (_ & _ & _ & ->). by apply super_last_arcs.
    + intros s. rewrite Hvy. by apply super_is_final.
Qed.

(** [ArcMap] with a mapper that only changes weights, as [PlusMapper],
[TimesMapper] and [PowerMapper] do: if the map takes zero to zero and no other
member of the weight set to zero, the result is well formed with true bits, and
every bit that does not depend on weights is that of the operand. *)
Theorem weight_mapper_correct x (map : W → W) :
  minv x → WellFormed (view x) → SoundFst (view x) → member_weights (view x) → zero_faithful map →
  ∃ y, ArcMap x (weight_mapper map (λ props, props &&& kWeightInvariantProperties)) = Some y ∧
    minv y ∧ WellFormed (view y) ∧ SoundFst (view y) ∧
    ∀ t, t ≠ Weighted → t ≠ WeightedCycles → Holds (view y) t ↔ Holds (view x) t.
Proof.
  intros Hx Hwf Hs Hm Hz. set (m := weight_mapper map _).
  destruct (decide (Start (view x) = kNoStateId)) as [Hst|Hst].
  { exists x. by rewrite ArcMap_idle. }
  destruct (ArcMap_mapped_to x m Hx Hst) as (y & Hy & [Hi Hv _ _ Hb _]).
  change (cleared m x) with x in Hv. exists y. split_and!; [done..| | |].
  - rewrite Hv. eapply mapped_wf; [by apply weights_mapped|done].
  - apply (SoundFst_equiv _ _ Hv). intros t. destruct (Hb t) as [-> ->].
    apply weights_sound; [done..|]. by apply mProperties_sound.
  - intros t ??. rewrite Hv. by apply weights_holds.
Qed.

(** [ArcMap] with [RmWeightMapper], in a weight set where zero annihilates:
the result is well formed, unweighted, its bits are true, and it accepts the
pairs of strings of the operand with weight [One], those on a path with a zero
arc with weight zero. *)
Theorem RmWeight_correct x :
  minv x → WellFormed (view x) → SoundFst (view x) → member_weights (view x) →
  weqb (One : W) Zero = false → (∀ a : W, Member a = true → Times a Zero ≡ Zero ∧ Times Zero a ≡ Zero) →
  ∃ y, ArcMap x RmWeightMapper = Some y ∧
    leaves y (has (FstProperties (view x)) kError) (support (view x)) ∧
    (Start (view x) ≠ kNoStateId → ¬ Holds (view y) Weighted).
Proof.
  intros Hx Hwf Hs Hm H1 Hz. change (view x) with (view (cleared RmWeightMapper x)) at 2.
  destruct (decide (Start (view x) = kNoStateId)) as [Hst|Hst].
  { exists x. split; [by apply ArcMap_idle|]. split; [|done].
    apply (idle_leaves RmWeightMapper x); try done.
    intros a b w (q & t & Hq & _). apply path_valid_l in Hq. by apply (start_invalid _ Hst). }
  destruct (ArcMap_mapped_to x RmWeightMapper Hx Hst) as (y & Hy & My).
  exists y. split; [done|]. split.
  - eapply mapped_leaves; [done|..]; change (cleared RmWeightMapper x) with x.
    + eapply mapped_wf; [by apply rm_weight_mapped|done].
    + apply rm_weight_sound; [done..|]. by apply mProperties_sound.
    + intros a b w. apply rm_weight_accepts; [|..|done|done]; intros v Hv; by apply Hz.
  - intros _. destruct My as [_ Hv _ _ _ _]. rewrite Hv. apply rm_weight_unweighted.
Qed.
End results.

(** * Instances *)

Section witnesses.
Notation fst := (one_arc 1 2 four).

Lemma ArcMap_refines_witness :
  ∃ y, ArcMap fst (SuperFinalMapper 3) = Some y ∧ mapped_to (SuperFinalMapper 3) fst y.
Proof.
  destruct (one_arc_ready 1 2 four (or_introl eq_refl)) as (H1 & H2 & H3 & H4).
  exact (ArcMap_refines fst (SuperFinalMapper 3) H1).
Defined.

Lemma Invert_correct_witness :
  ∃ y, Invert fst = Some y ∧ leaves y false (λ a b w, accepts (vector_view fst) b a w) ∧
    InputSymbols (view y) = None ∧ OutputSymbols (view y) = None.
Proof.
  destruct (one_arc_ready 1 2 four (or_introl eq_refl)) as (H1 & H2 & H3 & H4).
  exact (Invert_correct fst H1 H2 H3).
Defined.

Lemma Invert_involutive_witness :
  ∃ y z, Invert fst = Some y ∧ Invert y = Some z ∧ view z ≡ vector_view fst ∧
    InputSymbols (view z) = None ∧ OutputSymbols (view z) = None.
Proof.
  destruct (one_arc_ready 1 2 four (or_introl eq_refl)) as (H1 & H2 & H3 & H4).
  exact (Invert_involutive fst H1).
Defined.

Lemma Project_correct_witness :
  ∃ y, Project fst OUTPUT = Some y ∧ leaves y false (project_accepts OUTPUT (vector_view fst)) ∧
    InputSymbols (view y) = None ∧ OutputSymbols (view y) = None.
Proof.
  destruct (one_arc_ready 1 2 four (or_introl eq_refl)) as (H1 & H2 & H3 & H4).
  exact (Project_correct fst OUTPUT H1 H2 H3).
Defined.

Lemma SuperFinal_correct_witness :
  ∃ y, ArcMap fst (SuperFinalMapper 3) = Some y ∧
    leaves y false (extended (vector_view fst) 3) ∧
    ∃ n, valid (view y) n ∧ Final (view y) n = One ∧ Arcs (view y) n = [] ∧
      ∀ s, is_final (view y) s ↔ s = n.
Proof.
  destruct (one_arc_ready 1 2 four (or_introl eq_refl)) as (H1 & H2 & H3 & H4).
  exact (SuperFinal_correct fst 3 H1 H2 H3 H4 ltac:(by vm_compute) eq_refl).
Defined.

Lemma weight_mapper_correct_witness :
  ∃ y, ArcMap fst (TimesMapper One) = Some y ∧ minv y ∧ WellFormed (view y) ∧ SoundFst (view y) ∧
    ∀ t, t ≠ Weighted → t ≠ WeightedCycles → Holds (view y) t ↔ Holds (vector_view fst) t.
Proof.
  destruct (one_arc_ready 1 2 four (or_introl eq_refl)) as (H1 & H2 & H3 & H4).
  refine (weight_mapper_correct fst _ H1 H2 H3 H4 _).
  intros w Hw. cbv beta. destruct (weqb w Zero) eqn:E; [exact E|]. by rewrite (Times_One_r w Hw).
Defined.

Lemma RmWeight_correct_witness :
  ∃ y, ArcMap fst RmWeightMapper = Some y ∧ leaves y false (support (vector_view fst)) ∧
    ((0 : Z) ≠ kNoStateId → ¬ Holds (view y) Weighted).
Proof.
  destruct (one_arc_ready 1 2 four (or_introl eq_refl)) as (H1 & H2 & H3 & H4).
  refine (RmWeight_correct fst H1 H2 H3 H4 eq_refl _).
  intros a Ha. split; [by apply Times_Zero_r|by apply Times_Zero_l].
Defined.
End witnesses.
