(* ===== verification/Dfs.v ===== *)
(** Depth-first visits (openfst/lib/dfs-visit.h): the loop with its explicit
stack of states and arc positions, for any visitor and arc filter, on machines
whose number of states is known and on machines that are discovered while they
are visited.  Proved here: the visit ends, and a rule for what a visitor
computes: an invariant of the visit and the visitor that every event keeps holds
at the end, where no state is grey and, unless the visitor stopped the visit,
every state was finished. *)
From S2P Require Import Prelude Weight Properties SymbolTable Fst.
Local Open Scope Z_scope.

(* dfs-visit.h:122-126 StateColor *)
Inductive StateColor := kWhite | kGrey | kBlack.

#[export] Instance StateColor_eq_dec : EqDecision StateColor.
Proof. solve_decision. Defined.

(** The actions of a visit; a [bool] result asks whether to go on. *)

(* dfs-visit.h:46-70 Visitor *)
Record Visitor (W V : Type) := {
  InitVisit : Fst W → V → V;
  InitState : V → Z → Z → option (V * bool);
  TreeArc : V → Z → Arc W → option (V * bool);
  BackArc : V → Z → Arc W → option (V * bool);
  ForwardOrCrossArc : V → Z → Arc W → option (V * bool);
  FinishState : V → Z → Z → option (Arc W) → option V;
  FinishVisit : V → option V;
}.
Arguments InitVisit {_ _} _ _ _.
Arguments InitState {_ _} _ _ _ _.
Arguments TreeArc {_ _} _ _ _ _.
Arguments BackArc {_ _} _ _ _ _.
Arguments ForwardOrCrossArc {_ _} _ _ _ _.
Arguments FinishState {_ _} _ _ _ _ _.
Arguments FinishVisit {_ _} _ _.

(* arcfilter.h:30-33 AnyArcFilter *)
Definition AnyArcFilter {W} (arc : Arc W) : bool := true.

(* arcfilter.h:37-42 EpsilonArcFilter *)
Definition EpsilonArcFilter {W} (arc : Arc W) : bool := (ilabel arc =? 0) && (olabel arc =? 0).

(* arcfilter.h:46-49 InputEpsilonArcFilter *)
Definition InputEpsilonArcFilter {W} (arc : Arc W) : bool := ilabel arc =? 0.

(* arcfilter.h:53-56 OutputEpsilonArcFilter *)
Definition OutputEpsilonArcFilter {W} (arc : Arc W) : bool := olabel arc =? 0.

(** The local variables of [DfsVisit]: the stack holds a state and the position
of its arc iterator, the top first; the state iterator is what it has left. *)

(* dfs-visit.h:79-98 DfsState *)
Record Dfs := MkDfs {
  state_color : list StateColor;
  nstates : Z;
  state_stack : list (Z * Z);
  siter : list Z;
  dfs : bool;
}.

(* dfs-visit.h:145-148 DfsVisit *)
Definition grow (s : Z) (d : Dfs) : Dfs :=
  if zlen (state_color d) <=? s
  then MkDfs (vresize (s + 1) kWhite (state_color d)) (s + 1) (state_stack d) (siter d) (dfs d)
  else d.

Definition with_stack (st : list (Z * Z)) (go : bool) (d : Dfs) : Dfs :=
  MkDfs (state_color d) (nstates d) st (siter d) go.

Section visit.
Context `{WeightOps W} {V : Type}.
Context (fst : Fst W) (vis : Visitor W V) (filter : Arc W → bool).
Implicit Types (d : Dfs) (v : V).

(* dfs-visit.h:143-192 DfsVisit *)
Definition visit_step (root : Z) d v : option (Dfs * V) :=
  match state_stack d with
  | [] => None
  | (s, i) :: rest =>
      let d := grow s d in
      if negb (dfs d) || (zlen (Arcs fst s) <=? i) then
        color ← (state_color d).[s <- kBlack];
        match rest with
        | (p, j) :: rest' =>
            arc ← (Arcs fst p).[j];
            v ← FinishState vis v s p (Some arc);
            Some (MkDfs color (nstates d) ((p, j + 1) :: rest') (siter d) (dfs d), v)
        | [] =>
            v ← FinishState vis v s kNoStateId None;
            Some (MkDfs color (nstates d) [] (siter d) (dfs d), v)
        end
      else
        arc ← (Arcs fst s).[i];
        let d := grow (nextstate arc) d in
        if negb (filter arc) then Some (with_stack ((s, i + 1) :: rest) (dfs d) d, v) else
        next_color ← (state_color d).[nextstate arc];
        match next_color with
        | kWhite =>
            '(v, go) ← TreeArc vis v s arc;
            if negb go then Some (with_stack ((s, i) :: rest) false d, v) else
            color ← (state_color d).[nextstate arc <- kGrey];
            '(v, go) ← InitState vis v (nextstate arc) root;
            Some (MkDfs color (nstates d) ((nextstate arc, 0) :: (s, i) :: rest) (siter d) go, v)
        | kGrey =>
            '(v, go) ← BackArc vis v s arc;
            Some (with_stack ((s, i + 1) :: rest) go d, v)
        | kBlack =>
            '(v, go) ← ForwardOrCrossArc vis v s arc;
            Some (with_stack ((s, i + 1) :: rest) go d, v)
        end
  end.

(* dfs-visit.h:142-193 DfsVisit *)
Fixpoint visit_tree (fuel : nat) (root : Z) d v : option (Dfs * V) :=
  match state_stack d with
  | [] => Some (d, v)
  | _ => match fuel with
         | O => None
         | S fuel => '(d, v) ← visit_step root d v; visit_tree fuel root d v
         end
  end.

(** The first white state from [root] on, or the size of the vector. *)

(* dfs-visit.h:196-198 DfsVisit *)
Fixpoint first_white (colors : list StateColor) (root : Z) : Z :=
  match colors with
  | [] => root
  | c :: colors => if decide (c = kWhite) then root else first_white colors (root + 1)
  end.

(* dfs-visit.h:201-207 DfsVisit *)
Fixpoint find_state (states : list Z) (n : Z) : list Z :=
  match states with
  | [] => []
  | s :: states' => if s =? n then states else find_state states' n
  end.

(* dfs-visit.h:195-208 DfsVisit *)
Definition next_root (expanded : bool) (start root : Z) d : Dfs * Z :=
  let r := if root =? start then 0 else root + 1 in
  let root := first_white (drop (Z.to_nat r) (state_color d)) r in
  if negb expanded && (root =? nstates d) then
    let left := find_state (siter d) (nstates d) in
    match left with
    | [] => (MkDfs (state_color d) (nstates d) (state_stack d) [] (dfs d), root)
    | _ => (MkDfs (state_color d ++ [kWhite]) (nstates d + 1) (state_stack d) left (dfs d), root)
    end
  else (d, root).

(* dfs-visit.h:138-209 DfsVisit *)
Fixpoint visit_forest (fuel tree_fuel : nat) (expanded access_only : bool) (start root : Z) d v :
    option (Dfs * V) :=
  if negb (dfs d && (root <? nstates d)) then Some (d, v) else
  match fuel with
  | O => None
  | S fuel =>
      color ← (state_color d).[root <- kGrey];
      '(v, go) ← InitState vis v root root;
      '(d, v) ← visit_tree tree_fuel root (MkDfs color (nstates d) [(root, 0)] (siter d) go) v;
      if access_only then Some (d, v) else
      let '(d, root) := next_root expanded start root d in
      visit_forest fuel tree_fuel expanded access_only start root d v
  end.

(** The sum of [g] over a list. *)
Definition zsum (g : Z → Z) (l : list Z) : Z := foldr (λ s acc, g s + acc) 0 l.

(** Enough steps for one tree: every arc is looked at once, every state is
entered and left once, and the visit may be stopped once. *)
Definition tree_fuel : nat :=
  Z.to_nat (zsum (λ s, zlen (Arcs fst s) + 2) (seqZ 0 (NumStates fst)) + 2).

(** [known] is the result of [NumStatesIfKnown]. *)

(* dfs-visit.h:110-211 DfsVisit *)
Definition DfsVisit (known : option Z) (access_only : bool) v : option V :=
  let v := InitVisit vis fst v in
  let start := Start fst in
  if start =? kNoStateId then FinishVisit vis v else
  let n := default (start + 1) known in
  let expanded := has (FstProperties fst) kExpanded in
  let d := MkDfs (replicate (Z.to_nat n) kWhite) n [] (seqZ 0 (NumStates fst)) true in
  '(_, v) ← visit_forest (S (S (Z.to_nat (NumStates fst)))) tree_fuel expanded access_only start start d v;
  FinishVisit vis v.
End visit.

(** * The state of a visit, abstractly *)

Section sums.

Lemma zsum_nonneg (g : Z → Z) l : (∀ s, s ∈ l → 0 ≤ g s) → 0 ≤ zsum g l.
Proof.
  induction l as [|x l IH]; simpl; intros Hg; [lia|].
  pose proof (Hg x ltac:(left)). assert (0 ≤ zsum g l); [|lia]. apply IH. intros s Hs. apply Hg. by right.
Qed.

Lemma zsum_ext (g h : Z → Z) l : (∀ s, s ∈ l → g s = h s) → zsum g l = zsum h l.
Proof.
  induction l as [|x l IH]; simpl; intros Hg; [done|].
  rewrite (Hg x) by left. f_equal. apply IH. intros s Hs. apply Hg. by right.
Qed.

Lemma zsum_mono (g h : Z → Z) l : (∀ s, s ∈ l → g s ≤ h s) → zsum g l ≤ zsum h l.
Proof.
  induction l as [|x l IH]; simpl; intros Hg; [lia|].
  pose proof (Hg x ltac:(left)). assert (zsum g l ≤ zsum h l); [|lia]. apply IH. intros s Hs. apply Hg. by right.
Qed.

Lemma zsum_change (g h : Z → Z) l t :
  NoDup l → t ∈ l → (∀ s, s ≠ t → g s = h s) → zsum g l - g t = zsum h l - h t.
Proof.
  induction l as [|x l IH]; intros Hnd Ht Hg; [by apply not_elem_of_nil in Ht|].
  apply NoDup_cons in Hnd as [Hx Hnd]. simpl. apply elem_of_cons in Ht as [->|Ht].
  - assert (zsum g l = zsum h l); [|lia]. apply zsum_ext. intros s Hs. apply Hg. by intros ->.
  - specialize (IH Hnd Ht Hg). rewrite (Hg x); [lia|]. by intros ->.
Qed.
End sums.

Section abstract_visit.
Context `{WeightOps W}.
Context (fst : Fst W) (filter : Arc W → bool).
Implicit Types (B : gset Z) (st : list (Z * Z)).

(** [B] holds the finished states, [st] is the stack; the other states are
white. *)
Definition seen B st (s : Z) : Prop := s ∈ B ∨ s ∈ st.*1.

#[export] Instance seen_dec B st s : Decision (seen B st s).
Proof. unfold seen. apply _. Defined.

(** The arcs the visit follows. *)
Definition visit_arc (s : Z) (a : Arc W) : Prop := a ∈ Arcs fst s ∧ filter a = true.

(** Each state on the stack is the target of the current arc of the one below. *)
Fixpoint chained st : Prop :=
  match st with
  | (t, _) :: ((s, i) :: _) as rest =>
      (∃ a, (Arcs fst s).[i] = Some a ∧ filter a = true ∧ nextstate a = t) ∧ chained rest
  | _ => True
  end.

Record visit_inv (root : Z) B st (go : bool) : Prop := {
  inv_black_valid : ∀ s, s ∈ B → valid fst s;
  inv_stack_valid : ∀ s i, (s, i) ∈ st → valid fst s ∧ 0 ≤ i ≤ zlen (Arcs fst s);
  inv_nodup : NoDup st.*1;
  inv_disjoint : ∀ s, s ∈ B → s ∉ st.*1;
  inv_bottom : ∀ s, last st.*1 = Some s → s = root;
  inv_chained : chained st;
  inv_done : ∀ s i k a, (s, i) ∈ st → k < i → (Arcs fst s).[k] = Some a → filter a = true →
    seen B st (nextstate a);
  inv_closed : go = true → ∀ s a, s ∈ B → visit_arc s a → seen B st (nextstate a);
}.

Lemma visit_inv_start root go : visit_inv root ∅ [] go.
Proof. split; simpl; try done; try (intros; set_solver). constructor. Qed.

Lemma visit_inv_root root r B go : visit_inv root B [] go → visit_inv r B [] go.
Proof. intros []. by split. Qed.

(** The potential that every step lowers. *)
Definition potential B st (go : bool) : Z :=
  zsum (λ s, if decide (seen B st s) then 0 else zlen (Arcs fst s) + 2) (seqZ 0 (NumStates fst)) +
  foldr (λ '(s, i) acc, zlen (Arcs fst s) - i + 1 + acc) 0 st + (if go then 1 else 0).

(** Advancing the top arc iterator, and taking the top state off. *)
Definition next_arc st : list (Z * Z) := match st with [] => [] | (s, i) :: rest => (s, i + 1) :: rest end.

Lemma next_arc_states st : (next_arc st).*1 = st.*1.
Proof. by destruct st as [|[s i] st]. Qed.

Lemma next_arc_seen B st s : seen B (next_arc st) s ↔ seen B st s.
Proof. unfold seen. by rewrite next_arc_states. Qed.

Lemma chained_next st : chained st → chained (next_arc st).
Proof. by destruct st as [|[s i] [|[t j] st]]. Qed.

Lemma potential_nonneg root B st go : visit_inv root B st go → 0 ≤ potential B st go.
Proof.
  intros Hi. unfold potential.
  assert (0 ≤ foldr (λ '(s, i) acc, zlen (Arcs fst s) - i + 1 + acc) 0 st).
  { pose proof (inv_stack_valid _ _ _ _ Hi) as Hv. clear Hi.
    induction st as [|[s i] st IH]; simpl; [lia|]. destruct (Hv s i) as [_ ?]; [left|].
    assert (0 ≤ foldr (λ '(s, i) acc, zlen (Arcs fst s) - i + 1 + acc) 0 st); [|lia].
    apply IH. intros s' i' Hs. apply Hv. by right. }
  assert (0 ≤ zsum (λ s, if decide (seen B st s) then 0 else zlen (Arcs fst s) + 2) (seqZ 0 (NumStates fst)));
    [|destruct go; lia].
  apply zsum_nonneg. intros s _. pose proof (zlen_nonneg (Arcs fst s)). case_decide; lia.
Qed.

(** ** The steps keep the invariant *)

Section steps.
Context (root : Z) (B : gset Z) (s i : Z) (rest : list (Z * Z)).
Notation st := ((s, i) :: rest).

Lemma inv_top_valid go : visit_inv root B st go → valid fst s ∧ 0 ≤ i ≤ zlen (Arcs fst s).
Proof. intros Hi. apply (inv_stack_valid _ _ _ _ Hi). left. Qed.

(** An arc to a state that was seen, or that the filter skips. *)
Lemma inv_next go go' a :
  visit_inv root B st go → (go' = true → go = true) → (Arcs fst s).[i] = Some a →
  (filter a = true → seen B st (nextstate a)) → visit_inv root B ((s, i + 1) :: rest) go'.
Proof.
  intros Hi Hgo Ha Hseen. pose proof (vget_range _ _ _ Ha).
  split; [apply (inv_black_valid _ _ _ _ Hi)| |apply (inv_nodup _ _ _ _ Hi)
    |apply (inv_disjoint _ _ _ _ Hi)|apply (inv_bottom _ _ _ _ Hi)| | |].
  - intros t j [[= -> ->]|Ht]%elem_of_cons; [split; [by apply (inv_top_valid go)|lia]|].
    apply (inv_stack_valid _ _ _ _ Hi). by right.
  - apply (chained_next st), (inv_chained _ _ _ _ Hi).
  - intros t j k b Ht Hk Hb Hf. apply (next_arc_seen B st).
    apply elem_of_cons in Ht as [[= -> ->]|Ht].
    + destruct (decide (k = i)) as [->|]; [rewrite Ha in Hb; injection Hb as <-; by apply Hseen|].
      eapply (inv_done _ _ _ _ Hi s i k); [left|lia|done..].
    + eapply (inv_done _ _ _ _ Hi t j k); [by right|done..].
  - intros Hg t b Ht Hb. apply (next_arc_seen B st). by apply (inv_closed _ _ _ _ Hi (Hgo Hg) t b).
Qed.

(** Stopping the visit. *)
Lemma inv_stop go : visit_inv root B st go → visit_inv root B st false.
Proof. intros []. by split. Qed.

(** Entering a white state. *)
Lemma inv_discover go a :
  visit_inv root B st true → (Arcs fst s).[i] = Some a → filter a = true →
  ¬ seen B st (nextstate a) → valid fst (nextstate a) →
  visit_inv root B ((nextstate a, 0) :: st) go.
Proof.
  intros Hi Ha Hf Hw Hv.
  assert (∀ t, seen B st t → seen B ((nextstate a, 0) :: st) t) as Hmono.
  { intros t [?|?]; [by left|]. right. by right. }
  split; [apply (inv_black_valid _ _ _ _ Hi)|..].
  - intros t j [[= -> ->]|Ht]%elem_of_cons; [split; [done|]|by apply (inv_stack_valid _ _ _ _ Hi)].
    pose proof (zlen_nonneg (Arcs fst (nextstate a))). lia.
  - apply NoDup_cons. split; [|apply (inv_nodup _ _ _ _ Hi)]. intros ?. apply Hw. by right.
  - intros t Ht [->|Hin]%elem_of_cons; [apply Hw; by left|]. by apply (inv_disjoint _ _ _ _ Hi) in Hin.
  - intros t Ht. apply (inv_bottom _ _ _ _ Hi). exact Ht.
  - split; [by exists a|apply (inv_chained _ _ _ _ Hi)].
  - intros t j k b [[= -> ->]|Ht]%elem_of_cons Hk Hb Hfb.
    + apply vget_range in Hb. lia.
    + apply Hmono. by eapply (inv_done _ _ _ _ Hi).
  - intros _ t b Ht Hb. apply Hmono. by apply (inv_closed _ _ _ _ Hi eq_refl t).
Qed.

(** Taking the top state off, and leaving it. *)
Lemma inv_leave go :
  visit_inv root B st go → (go = true → i = zlen (Arcs fst s)) → visit_inv root ({[s]} ∪ B) rest go.
Proof.
  intros Hi Hgo.
  pose proof (inv_nodup _ _ _ _ Hi) as [Hs Hnd]%NoDup_cons.
  assert (∀ t, seen B st t → seen ({[s]} ∪ B) rest t) as Hmono.
  { intros t [?|[->|?]%elem_of_cons]; [left; set_solver|left; set_solver|by right]. }
  split; [| |done| |..].
  - intros t [->%elem_of_singleton|Ht]%elem_of_union; [by apply (inv_top_valid go)|].
    by apply (inv_black_valid _ _ _ _ Hi).
  - intros t j Ht. apply (inv_stack_valid _ _ _ _ Hi). by right.
  - intros t [->%elem_of_singleton|Ht]%elem_of_union; [done|].
    intros Hin. apply (inv_disjoint _ _ _ _ Hi t Ht). by right.
  - intros t Ht. apply (inv_bottom _ _ _ _ Hi). by destruct rest as [|[p k] rest'].
  - pose proof (inv_chained _ _ _ _ Hi) as Hc. by destruct rest as [|[p k] rest']; [|destruct Hc].
  - intros t j k a Ht Hk Ha Hf. apply Hmono. eapply (inv_done _ _ _ _ Hi t j k); [by right|done..].
  - intros Hg t a Ht [Ha Hf]. apply Hmono. apply elem_of_union in Ht as [->%elem_of_singleton|Ht].
    + apply elem_of_vget in Ha as (k & Hk). pose proof (vget_range _ _ _ Hk).
      eapply (inv_done _ _ _ _ Hi s i k); [left|rewrite (Hgo Hg); lia|done..].
    + by apply (inv_closed _ _ _ _ Hi Hg t a).
Qed.
End steps.

Lemma inv_finish root B s i rest go :
  visit_inv root B ((s, i) :: rest) go → (go = true → i = zlen (Arcs fst s)) →
  visit_inv root ({[s]} ∪ B) (next_arc rest) go.
Proof.
  intros Hi Hgo. pose proof (inv_leave root B s i rest go Hi Hgo) as Hl.
  pose proof (inv_chained _ _ _ _ Hi) as Hc. destruct rest as [|[p j] r]; [done|].
  destruct Hc as [(a & Ha & _ & <-) _]. apply (inv_next root _ p j r go go a Hl); [done..|].
  intros _. left. set_solver.
Qed.
End abstract_visit.

Section potentials.
Context `{WeightOps W}.
Context (fst : Fst W) (filter : Arc W → bool).
Implicit Types (B : gset Z) (st : list (Z * Z)).
Notation pot := (potential fst).

Lemma potential_next B s i rest go : pot B ((s, i + 1) :: rest) go < pot B ((s, i) :: rest) true.
Proof.
  unfold potential. cbn [foldr].
  rewrite (zsum_ext _ (λ u, if decide (seen B ((s, i) :: rest) u) then 0 else zlen (Arcs fst u) + 2)).
  - destruct go; lia.
  - intros u _. apply decide_ext. unfold seen. simpl. tauto.
Qed.

Lemma potential_stop B st : pot B st false < pot B st true.
Proof. unfold potential. lia. Qed.

Lemma potential_discover B st t go :
  valid fst t → ¬ seen B st t → pot B ((t, 0) :: st) go < pot B st true.
Proof.
  intros Ht Hw. unfold potential. cbn [foldr].
  set (g := λ s, if decide (seen B st s) then 0 else zlen (Arcs fst s) + 2).
  set (h := λ s, if decide (seen B ((t, 0) :: st) s) then 0 else zlen (Arcs fst s) + 2).
  pose proof (zsum_change g h (seqZ 0 (NumStates fst)) t) as Hgh.
  assert (g t = zlen (Arcs fst t) + 2) as Hg by (unfold g; by rewrite decide_False).
  assert (h t = 0) as Hh by (unfold h; rewrite decide_True; [done|right; left]).
  rewrite Hg, Hh in Hgh. assert (zsum g (seqZ 0 (NumStates fst)) - (zlen (Arcs fst t) + 2) =
    zsum h (seqZ 0 (NumStates fst)) - 0); [|destruct go; lia].
  apply Hgh; [apply NoDup_seqZ|by apply elem_of_seqZ|].
  intros s Hs. apply decide_ext. unfold seen. simpl. rewrite elem_of_cons. naive_solver.
Qed.

Lemma potential_finish B s i rest go :
  i ≤ zlen (Arcs fst s) → pot ({[s]} ∪ B) (next_arc rest) go < pot B ((s, i) :: rest) go.
Proof.
  intros Hi. unfold potential. cbn [foldr].
  rewrite (zsum_ext _ (λ u, if decide (seen B ((s, i) :: rest) u) then 0 else zlen (Arcs fst u) + 2)).
  - destruct rest as [|[p j] rest]; simpl; lia.
  - intros u _. apply decide_ext. rewrite next_arc_seen. unfold seen. simpl. set_solver.
Qed.

Lemma tree_fuel_enough root B r go :
  visit_inv fst filter root B [(r, 0)] go → pot B [(r, 0)] go < Z.of_nat (tree_fuel fst).
Proof.
  intros Hi. unfold tree_fuel, potential. cbn [foldr].
  set (h := λ s, if decide (seen B [(r, 0)] s) then 0 else zlen (Arcs fst s) + 2).
  set (g := λ s, zlen (Arcs fst s) + 2).
  destruct (inv_stack_valid _ _ _ _ _ _ Hi r 0) as [Hr _]; [left|].
  assert (zsum h (seqZ 0 (NumStates fst)) + g r ≤ zsum g (seqZ 0 (NumStates fst))) as Hle.
  { pose proof (zsum_change (λ s, if decide (s = r) then 0 else g s) g (seqZ 0 (NumStates fst)) r) as Hc.
    cbv beta in Hc. rewrite decide_True in Hc by done.
    assert (zsum h (seqZ 0 (NumStates fst)) ≤
      zsum (λ s, if decide (s = r) then 0 else g s) (seqZ 0 (NumStates fst))).
    { apply zsum_mono. intros s _. unfold h, g. pose proof (zlen_nonneg (Arcs fst s)).
      destruct (decide (s = r)) as [->|].
      - by rewrite decide_True by (right; left).
      - case_decide; lia. }
    specialize (Hc (NoDup_seqZ _ _)).
    assert (r ∈ seqZ 0 (NumStates fst)) as Hin by by apply elem_of_seqZ.
    specialize (Hc Hin). assert (∀ s, s ≠ r → (if decide (s = r) then 0 else g s) = g s) as Hne
      by (intros s Hs; by rewrite decide_False).
    specialize (Hc Hne). lia. }
  assert (g r = zlen (Arcs fst r) + 2) as Hg by done. pose proof (zlen_nonneg (Arcs fst r)).
  assert (0 ≤ zsum h (seqZ 0 (NumStates fst))).
  { apply zsum_nonneg. intros s _. unfold h. pose proof (zlen_nonneg (Arcs fst s)). case_decide; lia. }
  destruct go; lia.
Qed.
End potentials.

(** * The rule for visitors *)

Section rule.
Context `{WeightOps W} {V : Type}.
Context (fst : Fst W) (vis : Visitor W V) (filter : Arc W → bool).
Implicit Types (B : gset Z) (st : list (Z * Z)) (d : Dfs) (v : V).

Definition color_of d s : StateColor := default kWhite ((state_color d).[s]).

(** The color vector stands for the finished states and the stack. *)
Record reps d B : Prop := {
  reps_len : zlen (state_color d) = nstates d;
  reps_le : nstates d ≤ NumStates fst;
  reps_color : ∀ s, color_of d s =
    if decide (s ∈ B) then kBlack else if decide (s ∈ (state_stack d).*1) then kGrey else kWhite;
}.

Lemma grow_reps d B s :
  reps d B → valid fst s →
  reps (grow s d) B ∧ (∃ c, (state_color (grow s d)).[s] = Some c ∧ c = color_of d s) ∧
  state_stack (grow s d) = state_stack d ∧ siter (grow s d) = siter d ∧ dfs (grow s d) = dfs d ∧
  nstates d ≤ nstates (grow s d).
Proof.
  intros [Hl Hle Hc] [Hs1 Hs2]. unfold grow. destruct (Z.leb_spec (zlen (state_color d)) s) as [Hlt|Hlt].
  - set (cs := vresize (s + 1) kWhite (state_color d)).
    assert (∀ t, default kWhite (cs.[t]) = color_of d t) as Ht.
    { intros t. unfold color_of, cs, vresize, vget. case_decide as Ht; [|done].
      destruct (decide (Z.to_nat t < length (state_color d))%nat) as [Hin|Hin].
      - unfold zlen in Hlt. by rewrite lookup_resize by lia.
      - rewrite (lookup_ge_None_2 (state_color d)) by lia.
        destruct (decide (Z.to_nat t < Z.to_nat (s + 1))%nat).
        + by rewrite lookup_resize_new by lia.
        + by rewrite lookup_resize_old by lia. }
    assert (zlen cs = s + 1) as Hcs by (unfold cs, vresize, zlen; rewrite length_resize; lia).
    split_and!; try done; [|cbn [state_color]|simpl; lia].
    + split; [done|simpl; lia|]. intros t. rewrite <-Hc. apply Ht.
    + destruct (vget_in_range cs s) as [c Hc']; [lia|]. exists c. split; [done|]. by rewrite <-Ht, Hc'.
  - split_and!; try done. destruct (vget_in_range (state_color d) s) as [c Hc']; [lia|].
    exists c. split; [done|]. unfold color_of. by rewrite Hc'.
Qed.

(** Painting a state. *)
Lemma paint_reps d B s c n st it go cs :
  reps d B → (state_color d).[s <- c] = Some cs →
  ∀ B', (∀ t, t ≠ s → (t ∈ B' ↔ t ∈ B) ∧ (t ∈ st.*1 ↔ t ∈ (state_stack d).*1)) →
  c = (if decide (s ∈ B') then kBlack else if decide (s ∈ st.*1) then kGrey else kWhite) →
  n = nstates d → reps (MkDfs cs n st it go) B'.
Proof.
  intros [Hl Hle Hc] Hcs B' Hrest -> ->. split; [cbn; by rewrite (vset_len _ _ _ _ Hcs)|done|].
  intros t. unfold color_of. cbn [state_color state_stack]. rewrite (vget_vset _ _ _ _ _ Hcs).
  destruct (decide (s = t)) as [->|Ht]; [done|]. fold (color_of d t). rewrite Hc.
  destruct (Hrest t ltac:(done)) as [E1 E2]. by rewrite (decide_ext _ _ _ _ E1), (decide_ext _ _ _ _ E2).
Qed.

(** The state below the top of the stack, and its current arc. *)
Definition parent_of st : Z := match st with [] => kNoStateId | (p, _) :: _ => p end.
Definition parent_arc st : option (Arc W) := match st with [] => None | (p, j) :: _ => (Arcs fst p).[j] end.

Context (v0 : V) (I : Z → gset Z → list (Z * Z) → bool → V → Prop).

(** What a visitor has to keep: [I root B st go v]. *)
Record visitor_rule : Prop := {
  rule_first : valid fst (Start fst) →
    ∃ v go, InitState vis (InitVisit vis fst v0) (Start fst) (Start fst) = Some (v, go) ∧
      I (Start fst) ∅ [(Start fst, 0)] go v;
  rule_next root r B v :
    visit_inv fst filter root B [] true → I root B [] true v →
    Start fst ∈ B → valid fst r → r ∉ B →
    ∃ v' go, InitState vis v r r = Some (v', go) ∧ I r B [(r, 0)] go v';
  rule_tree root B s i rest a v :
    visit_inv fst filter root B ((s, i) :: rest) true → I root B ((s, i) :: rest) true v →
    (Arcs fst s).[i] = Some a → filter a = true → ¬ seen B ((s, i) :: rest) (nextstate a) →
    ∃ v1 go1, TreeArc vis v s a = Some (v1, go1) ∧
      if go1 then ∃ v2 go2, InitState vis v1 (nextstate a) root = Some (v2, go2) ∧
        I root B ((nextstate a, 0) :: (s, i) :: rest) go2 v2
      else I root B ((s, i) :: rest) false v1;
  rule_back root B s i rest a v :
    visit_inv fst filter root B ((s, i) :: rest) true → I root B ((s, i) :: rest) true v →
    (Arcs fst s).[i] = Some a → filter a = true → nextstate a ∈ ((s, i) :: rest).*1 →
    ∃ v' go, BackArc vis v s a = Some (v', go) ∧ I root B ((s, i + 1) :: rest) go v';
  rule_cross root B s i rest a v :
    visit_inv fst filter root B ((s, i) :: rest) true → I root B ((s, i) :: rest) true v →
    (Arcs fst s).[i] = Some a → filter a = true → nextstate a ∈ B →
    ∃ v' go, ForwardOrCrossArc vis v s a = Some (v', go) ∧ I root B ((s, i + 1) :: rest) go v';
  rule_skip root B s i rest a v :
    visit_inv fst filter root B ((s, i) :: rest) true → I root B ((s, i) :: rest) true v →
    (Arcs fst s).[i] = Some a → filter a = false → I root B ((s, i + 1) :: rest) true v;
  rule_finish root B s i rest go v :
    visit_inv fst filter root B ((s, i) :: rest) go → I root B ((s, i) :: rest) go v →
    (go = true → i = zlen (Arcs fst s)) →
    ∃ v', FinishState vis v s (parent_of rest) (parent_arc rest) = Some v' ∧
      I root ({[s]} ∪ B) (next_arc rest) go v';
}.

Context (R : visitor_rule) (Hwf : WellFormed fst).

(** Where a visit stands. *)
Definition visiting root B st go d v : Prop :=
  reps d B ∧ state_stack d = st ∧ dfs d = go ∧ visit_inv fst filter root B st go ∧ I root B st go v.

(** One step goes well: the visit stands somewhere else, with a lower potential. *)
Definition steps_well root B st go d v : Prop :=
  ∃ d' v' B' st' go', visit_step fst vis filter root d v = Some (d', v') ∧
    visiting root B' st' go' d' v' ∧ siter d' = siter d ∧ nstates d ≤ nstates d' ∧
    potential fst B' st' go' < potential fst B st go ∧ (∀ t, seen B st t → seen B' st' t).

Lemma visit_step_finish root B s i rest go d v :
  visiting root B ((s, i) :: rest) go d v → (negb go || (zlen (Arcs fst s) <=? i))%bool = true →
  steps_well root B ((s, i) :: rest) go d v.
Proof using R Hwf.
  intros (Hr & Hst & Hgo & Hi & HI) Hend. unfold steps_well, visit_step. rewrite Hst.
  destruct (inv_stack_valid _ _ _ _ _ _ Hi s i) as [Hs His]; [left|].
  destruct (grow_reps d B s Hr Hs) as (Hr1 & (c & Hc & Hcc) & Hst1 & Hit1 & Hgo1 & Hn1).
  set (d1 := grow s d) in *. rewrite Hgo1, Hgo, Hend.
  assert (go = true → i = zlen (Arcs fst s)) as Hfin.
  { intros ->. simpl in Hend. apply Z.leb_le in Hend. lia. }
  rewrite vset_is_Some by (by eapply vget_range). cbn [mbind option_bind].
  destruct (rule_finish R root B s i rest go v Hi HI Hfin) as (v' & Hv' & HI').
  pose proof (inv_nodup _ _ _ _ _ _ Hi) as [Hns _]%NoDup_cons.
  pose proof (inv_finish fst filter root B s i rest go Hi Hfin) as Hi'.
  set (cs := <[Z.to_nat s:=kBlack]> (state_color d1)).
  assert (reps (MkDfs cs (nstates d1) (next_arc rest) (siter d1) go) ({[s]} ∪ B)) as Hr'.
  { eapply paint_reps; [exact Hr1|apply vset_is_Some; by eapply vget_range| | |done].
    - intros t Ht. rewrite Hst1, Hst, next_arc_states. simpl. rewrite elem_of_cons. set_solver.
    - by rewrite decide_True by set_solver. }
  exists (MkDfs cs (nstates d1) (next_arc rest) (siter d1) go), v', ({[s]} ∪ B), (next_arc rest), go.
  split; [|split; [split_and!; done|split; [done|split; [done|]]]].
  + destruct rest as [|[p j] rest]; simpl in Hv' |- *; [by rewrite Hv'|].
    pose proof (inv_chained _ _ _ _ _ _ Hi) as [(a & Ha & _) _]. rewrite Ha in Hv' |- *. simpl. by rewrite Hv'.
  + split; [apply potential_finish; lia|]. intros t. rewrite next_arc_seen. unfold seen. simpl. set_solver.
Qed.

Lemma visit_step_arc root B s i rest d v :
  visiting root B ((s, i) :: rest) true d v → i < zlen (Arcs fst s) →
  steps_well root B ((s, i) :: rest) true d v.
Proof using R Hwf.
  intros (Hr & Hst & Hgo & Hi & HI) Hlt. unfold steps_well, visit_step. rewrite Hst.
  destruct (inv_stack_valid _ _ _ _ _ _ Hi s i) as [Hs His]; [left|].
  destruct (grow_reps d B s Hr Hs) as (Hr1 & (c & Hc & Hcc) & Hst1 & Hit1 & Hgo1 & Hn1).
  set (d1 := grow s d) in *. rewrite Hgo1, Hgo, (proj2 (Z.leb_gt _ _) Hlt). simpl negb. cbn [orb].
  destruct (vget_in_range (Arcs fst s) i) as [a Ha]; [lia|]. rewrite Ha. cbn [mbind option_bind].
  assert (valid fst (nextstate a)) as Hva.
  { apply (proj1 (proj2 Hwf) s a); [done|]. by eapply vget_elem_of. }
  destruct (grow_reps d1 B (nextstate a) Hr1 Hva) as (Hr2 & (c2 & Hc2 & Hcc2) & Hst2 & Hit2 & Hgo2 & Hn2).
  set (d2 := grow (nextstate a) d1) in *.
  assert (∀ st' go', st'.*1 = ((s, i) :: rest).*1 → reps (with_stack st' go' d2) B) as Hkeep.
  { intros st' go' Hst'. destruct Hr2 as [E1 E2 E3]. split; [done..|]. intros t.
    change (color_of (with_stack st' go' d2) t) with (color_of d2 t). rewrite E3. simpl.
    by rewrite Hst', Hst2, Hst1, Hst. }
  assert (∀ v' go', (filter a = true → seen B ((s, i) :: rest) (nextstate a)) →
    I root B ((s, i + 1) :: rest) go' v' →
    visiting root B ((s, i + 1) :: rest) go' (with_stack ((s, i + 1) :: rest) go' d2) v') as Hadv.
  { intros v' go' Hsn HI'. split_and!; [by apply Hkeep|done|done| |done].
    by eapply (inv_next fst filter root B s i rest true go' a). }
  destruct (filter a) eqn:Hf; simpl.
  2:{ eexists _, v, B, ((s, i + 1) :: rest), true. rewrite Hgo2, Hgo1, Hgo.
      split; [done|]. split; [apply Hadv; [done|by eapply (rule_skip R)]|].
      simpl. rewrite Hit2, Hit1. split_and!; [done|lia|apply potential_next|by intros t; rewrite <-next_arc_seen]. }
  rewrite Hc2. cbn [mbind option_bind].
  rewrite Hcc2, (reps_color _ _ Hr1), Hst1, Hst.
  destruct (decide (nextstate a ∈ B)) as [Hb|Hb].
  { destruct (rule_cross R root B s i rest a v Hi HI Ha Hf Hb) as (v' & go' & -> & HI').
    eexists _, v', B, ((s, i + 1) :: rest), go'. split; [done|].
    split; [apply Hadv; [intros _; by left|done]|].
    simpl. rewrite Hit2, Hit1. split_and!; [done|lia|apply potential_next|by intros t; rewrite <-next_arc_seen]. }
  destruct (decide (nextstate a ∈ ((s, i) :: rest).*1)) as [Hg|Hg].
  { destruct (rule_back R root B s i rest a v Hi HI Ha Hf Hg) as (v' & go' & -> & HI').
    eexists _, v', B, ((s, i + 1) :: rest), go'. split; [done|].
    split; [apply Hadv; [intros _; by right|done]|].
    simpl. rewrite Hit2, Hit1. split_and!; [done|lia|apply potential_next|by intros t; rewrite <-next_arc_seen]. }
  assert (¬ seen B ((s, i) :: rest) (nextstate a)) as Hw by by intros [?|?].
  destruct (rule_tree R root B s i rest a v Hi HI Ha Hf Hw) as (v1 & go1 & -> & HI1). simpl.
  destruct go1; simpl.
  2:{ eexists _, v1, B, ((s, i) :: rest), false. split; [done|]. split.
      - split_and!; [by apply Hkeep|done|done|by eapply inv_stop|done].
      - simpl. rewrite Hit2, Hit1. split_and!; [done|lia|apply potential_stop|done]. }
  rewrite vset_is_Some by (by eapply vget_range). simpl.
  destruct HI1 as (v2 & go2 & -> & HI2). simpl.
  eexists _, v2, B, ((nextstate a, 0) :: (s, i) :: rest), go2. split; [done|]. split.
  + split_and!; [|done|done|by eapply inv_discover|done].
    eapply paint_reps; [exact Hr2|apply vset_is_Some; by eapply vget_range| | |done].
    * intros t Ht. rewrite Hst2, Hst1, Hst. simpl. rewrite !elem_of_cons. naive_solver.
    * rewrite decide_False by done. rewrite decide_True by left. done.
  + simpl. rewrite Hit2, Hit1. split_and!; [done|lia|by apply potential_discover|].
    intros t [?|?]; [by left|]. right. by right.
Qed.

Lemma visit_step_ok root B s i rest go d v :
  visiting root B ((s, i) :: rest) go d v → steps_well root B ((s, i) :: rest) go d v.
Proof using R Hwf.
  intros Hv. destruct (negb go || (zlen (Arcs fst s) <=? i))%bool eqn:Hend; [by apply visit_step_finish|].
  apply orb_false_iff in Hend as [->%negb_false_iff Hlt%Z.leb_gt]. by apply visit_step_arc.
Qed.

Lemma visit_tree_ok fuel root B st go d v :
  visiting root B st go d v → potential fst B st go < Z.of_nat fuel →
  ∃ d' v' B' go', visit_tree fst vis filter fuel root d v = Some (d', v') ∧
    visiting root B' [] go' d' v' ∧ siter d' = siter d ∧ nstates d ≤ nstates d' ∧
    ∀ t, seen B st t → t ∈ B'.
Proof using R Hwf.
  revert B st go d v. induction fuel as [|fuel IH]; intros B st go d v Hv Hf.
  { pose proof (potential_nonneg _ _ _ _ _ _ (proj1 (proj2 (proj2 (proj2 Hv))))). lia. }
  destruct st as [|[s i] rest].
  { exists d, v, B, go. pose proof Hv as (_ & Hst & _). simpl. rewrite Hst. split_and!; [done..|lia|].
    by intros t [?|?%not_elem_of_nil]. }
  destruct (visit_step_ok root B s i rest go d v Hv) as (d1 & v1 & B1 & st1 & go1 & Hstep & Hv1 & Hit1 & Hn1 & Hp1 & Hs1).
  destruct (IH B1 st1 go1 d1 v1 Hv1) as (d2 & v2 & B2 & go2 & Ht & Hv2 & Hit2 & Hn2 & Hs2); [lia|].
  exists d2, v2, B2, go2. simpl. pose proof Hv as (_ & -> & _). rewrite Hstep. simpl.
  split_and!; [done..|congruence|lia|auto].
Qed.

(** ** The search for the next root *)

Lemma first_white_spec cs r :
  let r' := first_white cs r in
  r ≤ r' ≤ r + zlen cs ∧ (∀ s, r ≤ s < r' → cs.[s - r] ≠ Some kWhite) ∧
  (r' < r + zlen cs → cs.[r' - r] = Some kWhite).
Proof.
  revert r. induction cs as [|c cs IH]; intros r; simpl.
  - rewrite zlen_nil. split_and!; intros; lia.
  - rewrite zlen_cons. pose proof (zlen_nonneg cs). destruct (decide (c = kWhite)) as [->|Hc].
    + split_and!; try lia. intros _. by rewrite Z.sub_diag.
    + destruct (IH (r + 1)) as (Hr & Hn & Hw). set (r' := first_white cs (r + 1)) in *.
      assert (∀ s, r < s → (c :: cs).[s - r] = cs.[s - (r + 1)]) as Hs.
      { intros s Hs. unfold vget. rewrite !decide_True by lia.
        replace (Z.to_nat (s - r)) with (S (Z.to_nat (s - (r + 1)))) by lia. done. }
      split_and!; [lia|lia| |].
      * intros s Hsr. destruct (decide (s = r)) as [->|]; [rewrite Z.sub_diag; intros [= ->]; done|].
        rewrite Hs by lia. apply Hn. lia.
      * intros Hlt. rewrite Hs by lia. apply Hw. lia.
Qed.

Lemma find_state_spec k n N :
  k ≤ n → find_state (seqZ k (N - k)) n = if decide (n < N) then seqZ n (N - n) else [].
Proof.
  intros Hk. remember (Z.to_nat (N - k)) as m eqn:Hm. revert k Hk Hm.
  induction m as [|m IH]; intros k Hk Hm.
  - rewrite seqZ_nil by lia. simpl. by rewrite decide_False by lia.
  - rewrite seqZ_cons by lia. simpl. destruct (Z.eqb_spec k n) as [->|].
    + rewrite decide_True by lia. by rewrite <-seqZ_cons by lia.
    + replace (Z.succ k) with (k + 1) by lia. replace (Z.pred (N - k)) with (N - (k + 1)) by lia.
      apply IH; lia.
Qed.

Context (expanded : bool).

(** What is left of the state iterator. *)
Definition siter_ok d : Prop :=
  if expanded then nstates d = NumStates fst
  else ∃ k, 0 ≤ k ≤ nstates d ∧ siter d = seqZ k (NumStates fst - k).

(** [root] is the next root, or all states are known and finished. *)
Definition at_root B d root : Prop :=
  0 ≤ root ≤ nstates d ∧ (∀ s, 0 ≤ s < root → s ∈ B) ∧
  (root < nstates d → root ∉ B) ∧ (root = nstates d → nstates d = NumStates fst).

Lemma next_root_ok B d root :
  reps d B → state_stack d = [] → siter_ok d → Start fst ∈ B →
  let r := if root =? Start fst then 0 else root + 1 in
  0 ≤ r ≤ nstates d → (∀ s, 0 ≤ s < r → s ∈ B) →
  ∃ d' root', next_root expanded (Start fst) root d = (d', root') ∧ reps d' B ∧ state_stack d' = [] ∧
    dfs d' = dfs d ∧ siter_ok d' ∧ at_root B d' root' ∧ r ≤ root'.
Proof using.
  intros Hr Hst Hit HB r Hrr Hbelow. unfold next_root. fold r.
  destruct (first_white_spec (drop (Z.to_nat r) (state_color d)) r) as (Hw1 & Hw2 & Hw3).
  set (root' := first_white _ r) in *.
  assert (zlen (drop (Z.to_nat r) (state_color d)) = nstates d - r) as Hlen.
  { rewrite <-(reps_len _ _ Hr). unfold zlen. rewrite length_drop. pose proof (reps_len _ _ Hr) as Hl. unfold zlen in Hl. lia. }
  rewrite Hlen in *.
  assert (∀ s, r ≤ s → (drop (Z.to_nat r) (state_color d)).[s - r] = (state_color d).[s]) as Hdrop.
  { intros s Hs. unfold vget. rewrite !decide_True by lia. rewrite lookup_drop. f_equal. lia. }
  assert (∀ s, 0 ≤ s < nstates d → ((state_color d).[s] = Some kWhite ↔ s ∉ B)) as Hcol.
  { intros s Hs. rewrite <-(reps_len _ _ Hr) in Hs. destruct (vget_in_range _ _ Hs) as [c Hc].
    pose proof (reps_color _ _ Hr s) as Hcs. unfold color_of in Hcs. rewrite Hc, Hst in Hcs. change (default kWhite (Some c)) with c in Hcs. rewrite Hc.
    split; [intros [= ->] Hin|intros Hn].
    - by rewrite decide_True in Hcs.
    - rewrite decide_False in Hcs by done. rewrite decide_False in Hcs by (apply not_elem_of_nil). by rewrite Hcs. }
  assert (∀ s, 0 ≤ s < root' → s ∈ B) as Hall.
  { intros s Hs. destruct (decide (s < r)); [apply Hbelow; lia|].
    destruct (decide (s ∈ B)) as [|HsB]; [done|]. exfalso. apply (Hw2 s); [lia|].
    rewrite Hdrop by lia. apply Hcol; [lia|done]. }
  assert (root' < nstates d → root' ∉ B) as Hnew.
  { intros Hlt. apply Hcol; [lia|]. rewrite <-Hdrop by lia. apply Hw3. lia. }
  destruct (negb expanded && (root' =? nstates d))%bool eqn:He.
  - apply andb_true_iff in He as [Hex%negb_true_iff Hrn%Z.eqb_eq]. unfold siter_ok in *. rewrite Hex in *.
    destruct Hit as (k & Hk & Hsi). rewrite Hsi, find_state_spec by lia.
    pose proof (reps_le _ _ Hr). case_decide as Hlt.
    + rewrite seqZ_cons by lia. eexists _, root'. split; [done|].
      assert (∀ s, color_of (MkDfs (state_color d ++ [kWhite]) (nstates d + 1) (state_stack d)
        (nstates d :: seqZ (Z.succ (nstates d)) (Z.pred (NumStates fst - nstates d))) (dfs d)) s = color_of d s) as Hc.
      { intros s. unfold color_of. cbn [state_color]. rewrite vget_app, (reps_len _ _ Hr). case_decide as Hs; [done|].
        rewrite (proj2 (vget_None (state_color d) s)) by (rewrite (reps_len _ _ Hr); lia).
        destruct (decide (s = nstates d)) as [->|]; [by rewrite Z.sub_diag|].
        by rewrite (proj2 (vget_None [kWhite] _)) by (change (zlen [kWhite]) with 1; lia). }
      split_and!; [|done|done| |unfold at_root; simpl; split_and!; try done; try lia|lia].
      * split; [simpl; rewrite zlen_app, (reps_len _ _ Hr); done|simpl; lia|].
        intros s. rewrite Hc. apply (reps_color _ _ Hr).
      * exists (nstates d). simpl. split; [lia|]. symmetry. apply seqZ_cons. lia.
      * intros _ Hin. pose proof (reps_color _ _ Hr root') as Hcr. rewrite decide_True in Hcr by done.
        unfold color_of in Hcr. rewrite (proj2 (vget_None (state_color d) root')) in Hcr; [done|].
        rewrite (reps_len _ _ Hr). lia.
    + eexists _, root'. split; [done|]. split_and!; [|done|done| |unfold at_root; simpl; split_and!; try done; try lia|lia].
      * destruct Hr as [E1 E2 E3]. by split.
      * exists (NumStates fst). simpl. split; [lia|]. by rewrite seqZ_nil by lia.
  - exists d, root'. split; [done|]. split_and!; try done; [|lia].
    unfold at_root. split_and!; try done; [lia..|]. intros Hrn. rewrite Hrn, Z.eqb_refl, andb_true_r in He.
    apply negb_false_iff in He. unfold siter_ok in Hit. by rewrite He in Hit.
Qed.

(** ** Trees and forests *)

(** Between trees. *)
Definition between root B go d v : Prop := visiting root B [] go d v ∧ siter_ok d.

Lemma visit_one_tree r0 root B d v v1 go1 :
  reps d B → state_stack d = [] → siter_ok d → visit_inv fst filter r0 B [] true →
  root ∉ B → 0 ≤ root < nstates d → I root B [(root, 0)] go1 v1 →
  ∃ cs d' v' B' go', (state_color d).[root <- kGrey] = Some cs ∧
    visit_tree fst vis filter (tree_fuel fst) root (MkDfs cs (nstates d) [(root, 0)] (siter d) go1) v1
      = Some (d', v') ∧
    between root B' go' d' v' ∧ root ∈ B' ∧ (∀ s, s ∈ B → s ∈ B') ∧ nstates d ≤ nstates d'.
Proof using R Hwf.
  intros Hr Hst Hit Hi HrB Hrange HI. pose proof (reps_le _ _ Hr).
  assert (valid fst root) as Hv by (unfold valid; lia).
  exists (<[Z.to_nat root := kGrey]> (state_color d)).
  assert ((state_color d).[root <- kGrey] = Some (<[Z.to_nat root := kGrey]> (state_color d))) as Hcs.
  { apply vset_is_Some. by rewrite (reps_len _ _ Hr). }
  set (cs := <[Z.to_nat root := kGrey]> (state_color d)) in *.
  assert (visiting root B [(root, 0)] go1 (MkDfs cs (nstates d) [(root, 0)] (siter d) go1) v1) as Hvis.
  { split_and!; [|done|done| |done].
    - eapply paint_reps; [exact Hr|exact Hcs| | |done].
      + intros t Ht. rewrite Hst. simpl. rewrite list_elem_of_singleton. split; [done|].
        split; [done|intros []%not_elem_of_nil].
      + rewrite decide_False by done. by rewrite decide_True by left.
    - destruct Hi as [E1 E2 E3 E4 E5 E6 E7 E8]. split; simpl.
      + done.
      + intros s i [= -> ->]%list_elem_of_singleton. pose proof (zlen_nonneg (Arcs fst root)). split; [done|lia].
      + apply NoDup_singleton.
      + intros s Hs ->%list_elem_of_singleton. done.
      + by intros s [= ->].
      + done.
      + intros s i k a [= -> ->]%list_elem_of_singleton Hk Ha%vget_range. lia.
      + intros _ s a Hs Ha. destruct (E8 eq_refl s a Hs Ha) as [?|[]%not_elem_of_nil]. by left. }
  destruct (visit_tree_ok (tree_fuel fst) root B _ _ _ _ Hvis) as (d' & v' & B' & go' & Ht & Hv' & Hsi & Hn & Hs).
  { eapply tree_fuel_enough. apply Hvis. }
  exists d', v', B', go'. split_and!; [done..| | |by intros s Hs'; apply Hs; left|done].
  - split; [done|]. unfold siter_ok in *. simpl in Hsi, Hn. destruct Hv' as (Hr' & _).
    pose proof (reps_le _ _ Hr'). destruct expanded; [lia|]. destruct Hit as (k & ? & Hk). exists k. rewrite Hsi.
    split; [lia|done].
  - apply Hs. right. left.
Qed.

Lemma visit_forest_ok fuel r0 root B go d v :
  between r0 B go d v → Start fst ∈ B → at_root B d root → NumStates fst - root < Z.of_nat fuel →
  ∃ d' v' B' r' go', visit_forest fst vis filter fuel (tree_fuel fst) expanded false (Start fst) root d v
      = Some (d', v') ∧
    visiting r' B' [] go' d' v' ∧ Start fst ∈ B' ∧ (go' = true → ∀ s, valid fst s → s ∈ B').
Proof using R Hwf.
  revert r0 root B go d v.
  induction fuel as [|fuel IH]; intros r0 root B go d v [Hv Hit] HB Har Hfuel; pose proof Har as (Hroot & Hbelow & Hnew & Hlast);
    pose proof Hv as (Hr & Hst & Hgo & Hi & HI); pose proof (reps_le _ _ Hr).
  { simpl. rewrite (proj2 (Z.ltb_ge root (nstates d))), andb_false_r by lia. lia. }
  simpl. rewrite Hgo. destruct go; simpl.
  2:{ exists d, v, B, r0, false. done. }
  destruct (Z.ltb_spec root (nstates d)) as [Hlt|Hge]; simpl.
  2:{ exists d, v, B, r0, true. split_and!; [done..|]. intros _ s [? ?]. apply Hbelow. lia. }
  destruct (rule_next R r0 root B v Hi HI HB) as (v1 & go1 & Hv1 & HI1); [unfold valid; lia|by apply Hnew|].
  destruct (visit_one_tree r0 root B d v v1 go1 Hr Hst Hit Hi (Hnew Hlt) (conj (proj1 Hroot) Hlt) HI1)
    as (cs & d2 & v2 & B2 & go2 & -> & Ht & [Hv2 Hit2] & HrB & Hsub & Hn). simpl. rewrite Hv1. simpl. rewrite Ht. simpl.
  destruct (next_root_ok B2 d2 root (proj1 Hv2) (proj1 (proj2 Hv2)) Hit2 (Hsub _ HB)) as
    (d3 & root' & -> & Hr3 & Hst3 & Hgo3 & Hit3 & Har3 & Hle).
  { case_match; lia. }
  { case_match eqn:E; [lia|]. intros s Hs. destruct (decide (s = root)) as [->|]; [done|]. apply Hsub, Hbelow. lia. }
  assert (root ≠ Start fst) as Hne by (intros ->; by apply Hnew).
  rewrite (proj2 (Z.eqb_neq _ _) Hne) in Hle.
  destruct Hv2 as (_ & _ & Hgo2 & Hi2 & HI2).
  apply (IH root root' B2 go2 d3 v2); [|by apply Hsub|done|lia].
  split; [|done]. split_and!; [done..|congruence|done|done].
Qed.
End rule.

Section result.
Context `{WeightOps W} {V : Type}.
Context (fst : Fst W) (vis : Visitor W V) (filter : Arc W → bool) (v0 : V).
Context (I : Z → gset Z → list (Z * Z) → bool → V → Prop).
Context (R : visitor_rule fst vis filter v0 I) (Hwf : WellFormed fst) (Hstart : valid fst (Start fst)).

(** What [NumStatesIfKnown] and the bit [kExpanded] promise each other. *)
Definition known_states (known : option Z) : Prop :=
  known = Some (NumStates fst) ∨ (known = None ∧ has (FstProperties fst) kExpanded = false).

Lemma DfsVisit_ok known (access_only : bool) :
  known_states known →
  ∃ v root B go, DfsVisit fst vis filter known access_only v0 = FinishVisit vis v ∧
    visit_inv fst filter root B [] go ∧ I root B [] go v ∧ Start fst ∈ B ∧
    (access_only = true → root = Start fst) ∧
    (go = true → access_only = false → ∀ s, valid fst s → s ∈ B).
Proof using R Hwf Hstart.
  intros Hk. unfold DfsVisit.
  rewrite (proj2 (Z.eqb_neq (Start fst) kNoStateId)) by (unfold valid, kNoStateId in *; lia).
  set (n := default (Start fst + 1) known).
  assert (Start fst < n ≤ NumStates fst) as Hn.
  { subst n. unfold valid in Hstart. destruct Hk as [-> |[-> _]]; simpl; lia. }
  set (expanded := has (FstProperties fst) kExpanded).
  set (d := MkDfs _ n [] _ true).
  assert (reps fst d ∅) as Hr.
  { split; [|simpl; lia|].
    - simpl. unfold zlen. rewrite length_replicate. unfold valid in Hstart. lia.
    - intros s. rewrite decide_False by set_solver. rewrite decide_False by (apply not_elem_of_nil).
      unfold color_of. destruct ((state_color d).[s]) as [c|] eqn:Hc; [|done].
      apply vget_Some in Hc as [_ Hc]. by apply lookup_replicate_1 in Hc as [-> _]. }
  assert (siter_ok fst expanded d) as Hit.
  { unfold siter_ok. destruct expanded eqn:He.
    - destruct Hk as [Hk|[_ Hk]]; [simpl; subst n; by rewrite Hk|]. subst expanded. congruence.
    - exists 0. unfold valid in Hstart. simpl. rewrite Z.sub_0_r. split; [lia|done]. }
  pose proof (visit_inv_start fst filter (Start fst) true) as Hi.
  destruct (rule_first fst vis filter v0 I R Hstart) as (v1 & go1 & Hv1 & HI1).
  remember (S (Z.to_nat (NumStates fst))) as fuel eqn:Hfuel.
  cbn [visit_forest]. rewrite (proj2 (Z.ltb_lt _ _) (proj1 Hn) : (Start fst <? nstates d) = true). cbn [dfs d andb negb].
  destruct (visit_one_tree fst vis filter v0 I R Hwf expanded (Start fst) (Start fst) ∅ d v1 v1 go1)
    as (cs & d2 & v2 & B2 & go2 & -> & Ht & [Hv2 Hit2] & HrB & Hsub & Hn2); try done.
  { unfold valid in Hstart. simpl. lia. }
  cbn [mbind option_bind]. rewrite Hv1. cbn [mbind option_bind]. change (siter d) with (siter d).
  rewrite Ht. cbn [mbind option_bind]. destruct access_only.
  { destruct Hv2 as (_ & _ & _ & Hi2 & HI2). exists v2, (Start fst), B2, go2. done. }
  destruct (next_root_ok fst expanded B2 d2 (Start fst) (proj1 Hv2) (proj1 (proj2 Hv2)) Hit2 HrB)
    as (d3 & root' & -> & Hr3 & Hst3 & Hgo3 & Hit3 & Har3 & Hle).
  { rewrite Z.eqb_refl. pose proof (reps_len _ _ _ (proj1 Hv2)) as Hl. rewrite <-Hl. split; [lia|apply zlen_nonneg]. }
  { rewrite Z.eqb_refl. lia. }
  rewrite Z.eqb_refl in Hle.
  destruct Hv2 as (_ & _ & Hgo2 & Hi2 & HI2).
  destruct (visit_forest_ok fst vis filter v0 I R Hwf expanded fuel (Start fst)
    root' B2 go2 d3 v2) as (d4 & v4 & B4 & r4 & go4 & -> & (_ & _ & _ & Hi4 & HI4) & HB4 & Hall); [|done|done| |].
  { split; [|done]. split_and!; [done..|congruence|done|done]. }
  { unfold valid in Hstart. lia. }
  exists v4, r4, B4, go4. split_and!; [done..|]. intros ? _. by apply Hall.
Qed.
End result.
