(* ===== verification/Tarjan.v ===== *)
(** Tarjan's algorithm for strongly connected components, as the class
[SccVisitor] (openfst/lib/cc-visitors.h) runs it on the events of a depth-first
visit, on total functions instead of vectors: its steps, the invariant that
relates them to reachability, and what it computes.  Scc.v has the class itself
and that it follows these steps. *)
From S2P Require Import Prelude Weight Properties SymbolTable Fst Dfs.
From Stdlib Require Import Sorting.Sorted.
Local Open Scope Z_scope.

Definition upd {A} (f : Z → A) (s : Z) (x : A) : Z → A := λ t, if decide (t = s) then x else f t.

Lemma upd_eq {A} (f : Z → A) s x : upd f s x s = x.
Proof. unfold upd. by rewrite decide_True. Qed.

Lemma upd_ne {A} (f : Z → A) s x t : t ≠ s → upd f s x t = f t.
Proof. intros ?. unfold upd. by rewrite decide_False. Qed.

(** The state: discovery numbers, low links, coaccessibility, accessibility and
component numbers, the stack of open components (top first), how many states
were discovered and components closed, and whether a cycle, a cycle through the
start, an inaccessible and a dead state were met. *)
Record tarjan := MkT {
  t_df : Z → Z; t_low : Z → Z; t_co : Z → bool; t_acc : Z → bool; t_num : Z → Z;
  t_stack : list Z; t_count : Z; t_sccs : Z;
  t_cyc : bool; t_icyc : bool; t_nacc : bool; t_nco : bool;
}.

Definition t_init : tarjan :=
  MkT (λ _, -1) (λ _, -1) (λ _, false) (λ _, false) (λ _, -1) [] 0 0 false false false false.

Definition t_discover (T : tarjan) (s : Z) (from_start : bool) : tarjan :=
  MkT (upd (t_df T) s (t_count T)) (upd (t_low T) s (t_count T)) (t_co T) (upd (t_acc T) s from_start)
    (t_num T) (s :: t_stack T) (t_count T + 1) (t_sccs T)
    (t_cyc T) (t_icyc T) (t_nacc T || negb from_start) (t_nco T).

Definition t_back (T : tarjan) (s t : Z) (to_start : bool) : tarjan :=
  MkT (t_df T) (upd (t_low T) s (if t_df T t <? t_low T s then t_df T t else t_low T s))
    (upd (t_co T) s (t_co T t || t_co T s)) (t_acc T) (t_num T) (t_stack T) (t_count T) (t_sccs T)
    true (t_icyc T || to_start) (t_nacc T) (t_nco T).

Definition t_cross (T : tarjan) (s t : Z) : tarjan :=
  MkT (t_df T)
    (upd (t_low T) s (if (t_df T t <? t_df T s) && bool_decide (t ∈ t_stack T) && (t_df T t <? t_low T s)
                      then t_df T t else t_low T s))
    (upd (t_co T) s (t_co T t || t_co T s)) (t_acc T) (t_num T) (t_stack T) (t_count T) (t_sccs T)
    (t_cyc T) (t_icyc T) (t_nacc T) (t_nco T).

Definition t_final (T : tarjan) (s : Z) (final : bool) : tarjan :=
  MkT (t_df T) (t_low T) (upd (t_co T) s (final || t_co T s)) (t_acc T) (t_num T) (t_stack T) (t_count T)
    (t_sccs T) (t_cyc T) (t_icyc T) (t_nacc T) (t_nco T).

(** Closing the component [seg] on top of the stack. *)
Definition t_pop (T : tarjan) (seg rest : list Z) : tarjan :=
  let co := existsb (t_co T) seg in
  MkT (t_df T) (t_low T) (λ t, if decide (t ∈ seg) then co || t_co T t else t_co T t) (t_acc T)
    (λ t, if decide (t ∈ seg) then t_sccs T else t_num T t) rest (t_count T) (t_sccs T + 1)
    (t_cyc T) (t_icyc T) (t_nacc T) (t_nco T || negb co).

Definition t_parent (T : tarjan) (s p : Z) : tarjan :=
  MkT (t_df T) (upd (t_low T) p (if t_low T s <? t_low T p then t_low T s else t_low T p))
    (upd (t_co T) p (t_co T s || t_co T p)) (t_acc T) (t_num T) (t_stack T) (t_count T) (t_sccs T)
    (t_cyc T) (t_icyc T) (t_nacc T) (t_nco T).

(** The part of the stack down to [s], and the rest. *)
Fixpoint split_at (s : Z) (l : list Z) : list Z * list Z :=
  match l with
  | [] => ([], [])
  | x :: l => if x =? s then ([x], l) else let '(seg, rest) := split_at s l in (x :: seg, rest)
  end.

Definition t_close (T : tarjan) (s : Z) : tarjan :=
  if t_df T s =? t_low T s then let '(seg, rest) := split_at s (t_stack T) in t_pop T seg rest else T.

Definition t_finish (T : tarjan) (s p : Z) (final : bool) : tarjan :=
  let T := t_close (t_final T s final) s in
  if p =? kNoStateId then T else t_parent T s p.

Lemma split_at_spec s l : s ∈ l → ∃ l1 l2, split_at s l = (l1 ++ [s], l2) ∧ l = (l1 ++ [s]) ++ l2.
Proof.
  induction l as [|x l IH]; intros Hs; [by apply not_elem_of_nil in Hs|]. simpl.
  destruct (Z.eqb_spec x s) as [->|Hne]; [by exists [], l|].
  apply elem_of_cons in Hs as [->|Hs]; [done|]. destruct (IH Hs) as (l1 & l2 & -> & ->).
  by exists (x :: l1), l2.
Qed.

Section invariant.
Context `{WeightEq W}.
Context (fst : Fst W) (Hwf : WellFormed fst).
Implicit Types (B : gset Z) (st : list (Z * Z)) (T : tarjan).

Notation reach := (rtc (edge fst)).
Notation start := (Start fst).

Notation coaccessible := (coaccessible fst).

(** States whose component is closed. *)
Definition popped B st T (s : Z) : Prop := seen B st s ∧ s ∉ t_stack T.

(** The arcs of grey states that were looked at. *)
Definition looked st (s t : Z) : Prop :=
  ∃ i k a, (s, i) ∈ st ∧ k < i ∧ (Arcs fst s).[k] = Some a ∧ nextstate a = t.

(** The grey state that a state of the stack hangs from. *)
Definition owner st T (g y : Z) : Prop :=
  g ∈ st.*1 ∧ t_df T g ≤ t_df T y ∧ ∀ g', g' ∈ st.*1 → t_df T g' ≤ t_df T y → t_df T g' ≤ t_df T g.

Record stack_inv B st T : Prop := {
  k_seen : ∀ t, t ∈ t_stack T → seen B st t;
  k_grey : st.*1 `sublist_of` t_stack T;
  k_sorted : StronglySorted (λ x y, t_df T y < t_df T x) (t_stack T);
  k_df : ∀ t, seen B st t → 0 ≤ t_df T t < t_count T;
  k_inj : ∀ t u, seen B st t → seen B st u → t_df T t = t_df T u → t = u;
  k_count : 0 ≤ t_count T;
  k_old_black : ∀ g y u, g ∈ st.*1 → y ∈ B → t_df T y < t_df T g → edge fst y u → t_df T u < t_df T g;
  k_old_grey : ∀ g h u, g ∈ st.*1 → looked st h u → t_df T h < t_df T g → t_df T u < t_df T g;
}.

Record reach_inv B st T : Prop := {
  r_down : ∀ x y, x ∈ st.*1 → y ∈ t_stack T → t_df T x ≤ t_df T y → reach x y;
  r_up : ∀ y, y ∈ t_stack T → ∃ x, x ∈ st.*1 ∧ t_df T x ≤ t_df T y ∧ reach y x;
}.

Record low_inv B st T : Prop := {
  l_le : ∀ g, g ∈ st.*1 → t_low T g ≤ t_df T g;
  l_sound : ∀ g, g ∈ st.*1 → ∃ t, t ∈ t_stack T ∧ t_df T t = t_low T g ∧ reach g t;
  l_black : ∀ g y t, y ∈ t_stack T → y ∈ B → owner st T g y → edge fst y t → t ∈ t_stack T →
    t_low T g ≤ t_df T t;
  l_grey : ∀ g t, looked st g t → t ∈ t_stack T → t_low T g ≤ t_df T t;
}.

Record scc_inv B st T : Prop := {
  p_closed : ∀ s t, popped B st T s → edge fst s t → popped B st T t;
  p_range : ∀ s, popped B st T s → 0 ≤ t_num T s < t_sccs T;
  p_eq : ∀ s t, popped B st T s → popped B st T t → t_num T s = t_num T t ↔ reach s t ∧ reach t s;
  p_topo : ∀ s t, popped B st T s → edge fst s t → t_num T t ≤ t_num T s;
  p_onto : ∀ c, 0 ≤ c < t_sccs T → ∃ s, popped B st T s ∧ t_num T s = c;
  p_sccs : 0 ≤ t_sccs T;
}.

Record co_inv B st T : Prop := {
  c_sound : ∀ s, t_co T s = true → coaccessible s;
  c_popped : ∀ s, popped B st T s → coaccessible s → t_co T s = true;
  c_final : ∀ y, y ∈ t_stack T → y ∈ B → is_final fst y → t_co T y = true;
  c_black : ∀ y t, y ∈ t_stack T → y ∈ B → edge fst y t → popped B st T t → t_co T t = true → t_co T y = true;
  c_grey : ∀ g t, looked st g t → popped B st T t → t_co T t = true → t_co T g = true;
  c_flag : t_nco T = true ↔ ∃ s, popped B st T s ∧ ¬ coaccessible s;
}.

Record acc_inv (root : Z) B st T : Prop := {
  a_exact : ∀ t, seen B st t → t_acc T t = true ↔ reach start t;
  a_first : root = start → ∀ t, seen B st t → reach start t;
  a_later : root ≠ start → ∀ t, reach start t → t ∈ B;
  a_flag : t_nacc T = true ↔ ∃ t, seen B st t ∧ ¬ reach start t;
}.

Record cyc_inv B st T : Prop := {
  y_sound : t_cyc T = true → ∃ s, tc (edge fst) s s;
  y_low : t_cyc T = false → ∀ g, g ∈ st.*1 → t_low T g = t_df T g;
  y_stack : t_cyc T = false → t_stack T = st.*1;
  y_single : t_cyc T = false → ∀ s t, popped B st T s → popped B st T t → reach s t → reach t s → s = t;
  y_black : t_cyc T = false → ∀ s, s ∈ B → ¬ edge fst s s;
  y_grey : t_cyc T = false → ∀ g, ¬ looked st g g;
  y_start : t_icyc T = true → tc (edge fst) start start;
  y_start_black : t_icyc T = false → ∀ s, s ∈ B → reach start s → ¬ edge fst s start;
  y_start_grey : t_icyc T = false → ∀ g, reach start g → ¬ looked st g start;
}.

Record tarjan_inv (root : Z) B st T : Prop := {
  inv_stack : stack_inv B st T;
  inv_reach : reach_inv B st T;
  inv_low : low_inv B st T;
  inv_scc : scc_inv B st T;
  inv_co : co_inv B st T;
  inv_acc : acc_inv root B st T;
  inv_cyc : cyc_inv B st T;
}.

Notation visit := (visit_inv fst AnyArcFilter).

(** ** Facts *)

Lemma edge_seen root B st s t : visit root B st true → s ∈ B → edge fst s t → seen B st t.
Proof.
  intros Hv Hs (_ & a & Ha & <-). by apply (inv_closed _ _ _ _ _ _ Hv eq_refl s a).
Qed.

Lemma reach_valid s t : valid fst s → reach s t → valid fst t.
Proof.
  intros Hs. induction 1 as [|s u t (Hv & a & Ha & <-) _ IH]; [done|].
  apply IH. by apply (proj1 (proj2 Hwf) s a).
Qed.

Lemma looked_edge root B st g t : visit root B st true → looked st g t → edge fst g t.
Proof.
  intros Hv (i & k & a & Hin & _ & Ha & <-).
  destruct (inv_stack_valid _ _ _ _ _ _ Hv g i Hin) as [? _]. split; [done|].
  exists a. split; [by eapply vget_elem_of|done].
Qed.

Lemma looked_grey st g t : looked st g t → g ∈ st.*1.
Proof. intros (i & k & a & Hin & _). by apply (list_elem_of_fmap_2 Datatypes.fst _ (g, i)). Qed.

(** Advancing the top iterator looks at one more arc. *)
Lemma looked_next s i rest a g t :
  NoDup ((s, i) :: rest).*1 → (Arcs fst s).[i] = Some a →
  looked ((s, i + 1) :: rest) g t ↔ looked ((s, i) :: rest) g t ∨ (g = s ∧ t = nextstate a).
Proof.
  intros Hnd Ha. split.
  - intros (j & k & b & [[= -> ->]|Hin]%elem_of_cons & Hk & Hb & <-).
    + destruct (decide (k = i)) as [->|]; [right; split; [done|]; congruence|].
      left. exists i, k, b. split_and!; [left|lia|done..].
    + left. exists j, k, b. split_and!; [by right|lia|done..].
  - intros [(j & k & b & [[= -> ->]|Hin]%elem_of_cons & Hk & Hb & <-)|[-> ->]].
    + exists (i + 1), k, b. split_and!; [left|lia|done..].
    + exists j, k, b. split_and!; [by right|lia|done..].
    + exists (i + 1), i, a. split_and!; [left|lia|done..].
Qed.

Lemma looked_new t st g u : looked ((t, 0) :: st) g u ↔ looked st g u.
Proof.
  split; intros (i & k & b & Hin & Hk & Hb & <-); exists i, k, b; split_and!; try done; [|by right].
  apply elem_of_cons in Hin as [[= -> ->]|?]; [|done]. apply vget_range in Hb. lia.
Qed.

Lemma looked_seen root B st g t : visit root B st true → looked st g t → seen B st t.
Proof.
  intros Hv (i & k & a & Hin & Hk & Ha & <-). by eapply (inv_done _ _ _ _ _ _ Hv g i k).
Qed.

Lemma seen_new B t i st u : seen B ((t, i) :: st) u ↔ u = t ∨ seen B st u.
Proof. unfold seen. simpl. rewrite elem_of_cons. tauto. Qed.

Lemma grey_new t i st u : u ∈ ((t, i) :: st).*1 ↔ u = t ∨ u ∈ st.*1.
Proof. simpl. apply elem_of_cons. Qed.

Lemma seen_next B s i rest u : seen B ((s, i + 1) :: rest) u ↔ seen B ((s, i) :: rest) u.
Proof. done. Qed.

Lemma sublist_sorted {A} (R : relation A) (l k : list A) :
  l `sublist_of` k → StronglySorted R k → StronglySorted R l.
Proof.
  induction 1 as [|x l k Hlk IH|x l k Hlk IH]; intros Hs; [done| |].
  - apply StronglySorted_inv in Hs as [Hs Hx]. constructor; [auto|].
    rewrite Forall_forall in Hx |- *. intros y Hy. apply Hx.
    exact (sublist_subseteq _ _ Hlk y Hy).
  - apply StronglySorted_inv in Hs as [Hs _]. auto.
Qed.

Section on_stack.
Context (B : gset Z) (st : list (Z * Z)) (T : tarjan) (HS : stack_inv B st T).

Lemma grey_open g : g ∈ st.*1 → g ∈ t_stack T.
Proof. intros Hg. exact (sublist_subseteq _ _ (k_grey _ _ _ HS) g Hg). Qed.

Lemma grey_sorted : StronglySorted (λ x y, t_df T y < t_df T x) st.*1.
Proof. eapply sublist_sorted; [apply (k_grey _ _ _ HS)|apply (k_sorted _ _ _ HS)]. Qed.

Lemma popped_not_open s : popped B st T s → s ∉ t_stack T.
Proof. by intros [_ ?]. Qed.

Lemma open_black y : y ∈ t_stack T → y ∉ st.*1 → y ∈ B.
Proof. intros Hy Hn. by destruct (k_seen _ _ _ HS y Hy). Qed.

Lemma popped_black s : popped B st T s → s ∈ B.
Proof. intros [[?|Hs] Hn]; [done|]. by apply grey_open in Hs. Qed.
End on_stack.

Lemma top_greatest B s i rest T x :
  stack_inv B ((s, i) :: rest) T → x ∈ ((s, i) :: rest).*1 → t_df T x ≤ t_df T s.
Proof.
  intros HS Hx. pose proof (grey_sorted _ _ _ HS) as Hs. simpl in Hs, Hx.
  apply StronglySorted_inv in Hs as [_ Hs]. rewrite Forall_forall in Hs.
  apply elem_of_cons in Hx as [->|Hx]; [lia|]. apply Hs in Hx. lia.
Qed.

Lemma below_top B s i rest T x :
  stack_inv B ((s, i) :: rest) T → x ∈ rest.*1 → t_df T x < t_df T s.
Proof.
  intros HS Hx. pose proof (grey_sorted _ _ _ HS) as Hs. simpl in Hs.
  apply StronglySorted_inv in Hs as [_ Hs]. rewrite Forall_forall in Hs. by apply Hs.
Qed.

(** ** Entering a state *)

Section discover.
Context (root : Z) (B : gset Z) (st : list (Z * Z)) (T : tarjan) (t : Z).
Context (Hv : visit root B st true) (Ht : ¬ seen B st t).
(** It is a root, or an arc of the top state leads to it. *)
Context (Htop : (st = [] ∧ t = root) ∨ ∃ s i rest, st = (s, i) :: rest ∧ edge fst s t).
Notation T' := (t_discover T t (root =? start)).
Notation st' := ((t, 0) :: st).

Section with_stack.
Context (HS : stack_inv B st T).

Lemma discover_df u : u ≠ t → t_df T' u = t_df T u.
Proof. apply upd_ne. Qed.

Lemma discover_df_new : t_df T' t = t_count T.
Proof. apply upd_eq. Qed.

Lemma not_new u : seen B st u → u ≠ t.
Proof. by intros Hu ->. Qed.

Lemma open_not_new u : u ∈ t_stack T → u ≠ t.
Proof. intros Hu. by apply not_new, (k_seen _ _ _ HS). Qed.

Lemma discover_popped u : popped B st' T' u ↔ popped B st T u.
Proof.
  unfold popped. rewrite seen_new. simpl. rewrite not_elem_of_cons. split.
  - intros [[?|?] [? ?]]; done.
  - intros [Hu ?]. split; [by right|]. split; [by apply not_new|done].
Qed.

Lemma discover_stack : stack_inv B st' T'.
Proof.
  split.
  - intros u [->|Hu]%elem_of_cons; apply seen_new; [by left|right; by apply (k_seen _ _ _ HS)].
  - simpl. apply sublist_skip, (k_grey _ _ _ HS).
  - simpl. constructor.
    + pose proof (k_sorted _ _ _ HS) as Hs.
      assert (∀ u, u ∈ t_stack T → u ≠ t) as Hne by apply open_not_new.
      induction Hs as [|x l Hs IH Hx]; constructor.
      * apply IH. intros u Hu. apply Hne. by right.
      * rewrite Forall_forall in Hx |- *. intros y Hy. specialize (Hx y Hy).
        by rewrite !upd_ne by (apply Hne; (by left) || by right).
    + apply Forall_forall. intros y Hy. rewrite upd_eq, upd_ne by by apply open_not_new.
      by apply (k_df _ _ _ HS), (k_seen _ _ _ HS).
  - intros u Hu. pose proof (k_count _ _ _ HS). change (t_count T') with (t_count T + 1).
    apply seen_new in Hu as [->|Hu]; [rewrite discover_df_new; lia|].
    rewrite discover_df by by apply not_new. pose proof (k_df _ _ _ HS u Hu). lia.
  - intros u w Hu Hw. apply seen_new in Hu as [->|Hu]; apply seen_new in Hw as [->|Hw]; try done;
      rewrite ?discover_df_new, ?discover_df by by apply not_new.
    + pose proof (k_df _ _ _ HS w Hw). lia.
    + pose proof (k_df _ _ _ HS u Hu). lia.
    + by apply (k_inj _ _ _ HS).
  - pose proof (k_count _ _ _ HS). simpl. lia.
  - intros g y u Hg Hy Hlt He. assert (seen B st u) as Hu by by eapply edge_seen.
    assert (y ≠ t) by (apply not_new; by left).
    rewrite (discover_df u) by by apply not_new. rewrite (discover_df y) in Hlt by done.
    apply grey_new in Hg as [->|Hg].
    + rewrite discover_df_new. by apply (k_df _ _ _ HS).
    + assert (g ≠ t) by (apply not_new; by right). rewrite discover_df in Hlt |- * by done.
      by eapply (k_old_black _ _ _ HS).
  - intros g h u Hg Hlk Hlt. apply looked_new in Hlk. assert (seen B st u) as Hu by by eapply looked_seen.
    assert (h ≠ t) by (apply not_new; right; by eapply looked_grey).
    rewrite (discover_df u) by by apply not_new. rewrite (discover_df h) in Hlt by done.
    apply grey_new in Hg as [->|Hg].
    + rewrite discover_df_new. by apply (k_df _ _ _ HS).
    + assert (g ≠ t) by (apply not_new; by right). rewrite discover_df in Hlt |- * by done.
      by eapply (k_old_grey _ _ _ HS).
Qed.

Lemma discover_reach : reach_inv B st T → reach_inv B st' T'.
Proof.
  intros [Hd Hu]. split.
  - intros x y Hx Hy Hle. apply elem_of_cons in Hy as [->|Hy].
    + apply grey_new in Hx as [->|Hx]; [constructor|].
      destruct Htop as [[-> _]|(s & i & rest & -> & He)]; [by apply not_elem_of_nil in Hx|].
      eapply rtc_r; [|exact He]. apply Hd; [done| |by eapply top_greatest].
      apply (grey_open _ _ _ HS). left.
    + assert (y ≠ t) by by apply open_not_new. rewrite (discover_df y) in Hle by done.
      apply grey_new in Hx as [->|Hx].
      * rewrite discover_df_new in Hle. pose proof (k_df _ _ _ HS y (k_seen _ _ _ HS y Hy)). lia.
      * rewrite discover_df in Hle by (apply not_new; by right). by apply Hd.
  - intros y Hy. apply elem_of_cons in Hy as [->|Hy].
    + exists t. split; [left|]. split; [lia|constructor].
    + destruct (Hu y Hy) as (x & Hx & Hle & Hr). exists x. split; [by right|].
      rewrite !discover_df; [done|by apply open_not_new|apply not_new; by right].
Qed.

Lemma discover_low : low_inv B st T → low_inv B st' T'.
Proof.
  intros [H1 H2 H3 H4].
  assert (∀ g, g ∈ st.*1 → g ≠ t) as Hgt by (intros g Hg; apply not_new; by right).
  assert (∀ g, g ≠ t → t_low T' g = t_low T g) as Hlow by (intros g Hg; by apply upd_ne).
  assert (∀ u, u ∈ t_stack T' → seen B st u → u ∈ t_stack T) as Hin.
  { intros u [->|?]%elem_of_cons ?; [|done]. by destruct (Ht). }
  split.
  - intros g [->|Hg]%grey_new; [simpl; rewrite !upd_eq; lia|].
    rewrite Hlow, discover_df by by apply Hgt. by apply H1.
  - intros g [->|Hg]%grey_new.
    + exists t. split; [left|]. simpl. rewrite !upd_eq. split; [done|constructor].
    + destruct (H2 g Hg) as (u & Hu & Hdf & Hr). exists u. split; [by right|].
      rewrite Hlow, discover_df; [done|by apply open_not_new|by apply Hgt].
  - intros g y u Hy Hyb (Hg & Hle & Hmax) He Hu.
    assert (seen B st u) as Hsu by by eapply edge_seen.
    assert (y ∈ t_stack T) as Hy' by (apply Hin; [done|by left]). specialize (Hin u Hu Hsu).
    rewrite (discover_df y) in Hle, Hmax by by apply open_not_new.
    apply grey_new in Hg as [->|Hg].
    { rewrite discover_df_new in Hle. pose proof (k_df _ _ _ HS y (k_seen _ _ _ HS y Hy')). lia. }
    rewrite (discover_df g) in Hle, Hmax by by apply Hgt.
    rewrite Hlow, discover_df by first [by apply open_not_new|by apply Hgt].
    apply (H3 g y u); try done. split; [done|]. split; [done|]. intros g' Hg' Hle'.
    specialize (Hmax g' ltac:(by right)). rewrite discover_df in Hmax by by apply Hgt. by apply Hmax.
  - intros g u Hlk Hu. apply looked_new in Hlk. assert (seen B st u) as Hsu by by eapply looked_seen.
    rewrite Hlow, discover_df; [apply H4; [done|by apply Hin]|by apply not_new|].
    apply Hgt. by eapply looked_grey.
Qed.

Lemma discover_scc : scc_inv B st T → scc_inv B st' T'.
Proof.
  intros [H1 H2 H3 H4 H5 H6]. split; try done.
  - intros s u. rewrite !discover_popped. apply H1.
  - intros s. rewrite !discover_popped. apply H2.
  - intros s u. rewrite !discover_popped. apply H3.
  - intros s u. rewrite !discover_popped. apply H4.
  - intros c Hc. destruct (H5 c Hc) as (s & Hs & <-). exists s. by rewrite discover_popped.
Qed.

Lemma discover_co : co_inv B st T → co_inv B st' T'.
Proof.
  intros [H1 H2 H3 H4 H5 H6].
  assert (∀ y, y ∈ t_stack T' → y ∈ B → y ∈ t_stack T) as Hin.
  { intros y [->|?]%elem_of_cons ?; [|done]. destruct Ht. by left. }
  split; try done.
  - intros s. rewrite discover_popped. apply H2.
  - intros y Hy Hb. by apply H3; [apply Hin|].
  - intros y u Hy Hb He. rewrite discover_popped. apply H4; [by apply Hin|done..].
  - intros g u Hlk. rewrite discover_popped. apply H5. by eapply looked_new.
  - simpl. rewrite H6. by setoid_rewrite discover_popped.
Qed.

Lemma discover_from_start : acc_inv root B st T → (root =? start) = true ↔ reach start t.
Proof.
  intros [H1 H2 H3 _]. rewrite Z.eqb_eq. split.
  - intros Hr. destruct Htop as [[_ ->]|(s & i & rest & Hst & He)]; [by rewrite Hr|].
    eapply rtc_r; [|exact He]. apply H2; [done|]. right. rewrite Hst. left.
  - intros Hr. destruct (decide (root = start)) as [|Hne]; [done|]. exfalso. apply Ht. left. by apply H3.
Qed.

Lemma discover_acc : acc_inv root B st T → acc_inv root B st' T'.
Proof.
  intros HA. pose proof (discover_from_start HA) as Hs. destruct HA as [H1 H2 H3 H4]. split.
  - intros u Hu. apply seen_new in Hu as [->|Hu]; simpl; [by rewrite upd_eq|].
    rewrite upd_ne by by apply not_new. by apply H1.
  - intros Hr u Hu. apply seen_new in Hu as [->|Hu]; [|by apply H2]. apply Hs. by apply Z.eqb_eq.
  - done.
  - simpl. rewrite orb_true_iff, H4. split.
    + intros [(u & Hu & Hn)|Hn%negb_true_iff]; [exists u; split; [apply seen_new; by right|done]|].
      exists t. split; [apply seen_new; by left|]. intros Hr%Hs. congruence.
    + intros (u & Hu & Hn). apply seen_new in Hu as [->|Hu]; [right|left; by exists u].
      apply negb_true_iff. destruct (root =? start); [|done]. destruct Hn. by apply Hs.
Qed.

Lemma discover_cyc : cyc_inv B st T → cyc_inv B st' T'.
Proof.
  intros [H1 H2 H3 H4 H5 H6 H7 H8 H9]. split; try done.
  - intros Hc g Hg. apply grey_new in Hg as [->|Hg]; simpl; [by rewrite !upd_eq|].
    rewrite !upd_ne by (apply not_new; by right). by apply H2.
  - intros Hc. simpl. by rewrite H3.
  - intros Hc s u. rewrite !discover_popped. by apply H4.
  - intros Hc g Hlk. by apply looked_new, H6 in Hlk.
  - intros Hc g Hr Hlk. by apply looked_new, H9 in Hlk.
Qed.
End with_stack.

Lemma discover_inv : tarjan_inv root B st T → tarjan_inv root B st' T'.
Proof.
  intros []. split; [by apply discover_stack|by apply discover_reach|by apply discover_low|by apply discover_scc
    |by apply discover_co|by apply discover_acc|by apply discover_cyc].
Qed.
End discover.

(** ** Looking at an arc to a state that was seen *)

Section look.
Context (root : Z) (B : gset Z) (s i : Z) (rest : list (Z * Z)) (T : tarjan) (a : Arc W).
Notation st := ((s, i) :: rest).
Notation st' := ((s, i + 1) :: rest).
Notation t := (nextstate a).
Context (Hv : visit root B st true) (Ha : (Arcs fst s).[i] = Some a).
Context (x : Z) (c ic : bool).

Definition t_look : tarjan :=
  MkT (t_df T) (upd (t_low T) s x) (upd (t_co T) s (t_co T t || t_co T s)) (t_acc T) (t_num T)
    (t_stack T) (t_count T) (t_sccs T) c ic (t_nacc T) (t_nco T).
Notation T' := t_look.

Context (Hx : x ≤ t_low T s).
Context (Hx_sound : x = t_low T s ∨ (t ∈ t_stack T ∧ x = t_df T t)).
Context (Hx_bound : t ∈ t_stack T → x ≤ t_df T t).

Lemma look_edge : edge fst s t.
Proof.
  destruct (inv_stack_valid _ _ _ _ _ _ Hv s i) as [? _]; [left|].
  split; [done|]. exists a. split; [by eapply vget_elem_of|done].
Qed.

Lemma look_looked g u : looked st' g u ↔ looked st g u ∨ (g = s ∧ u = t).
Proof. apply looked_next; [apply (inv_nodup _ _ _ _ _ _ Hv)|done]. Qed.

Lemma look_low g : t_low T' g ≤ t_low T g.
Proof. simpl. unfold upd. case_decide; [by subst|lia]. Qed.

Lemma look_co g : t_co T g = true → t_co T' g = true.
Proof using. simpl. unfold upd. case_decide; [subst; intros ->; apply orb_true_r|done]. Qed.

Lemma look_stack : stack_inv B st T → stack_inv B st' T'.
Proof.
  intros HS. pose proof HS as [H1 H2 H3 H4 H5 H6 H7 H8]. split; try done.
  intros g h u Hg Hlk Hlt. apply look_looked in Hlk as [Hlk|[-> ->]]; [by eapply H8|].
  pose proof (top_greatest _ _ _ _ _ _ HS Hg). simpl in *. lia.
Qed.

Lemma look_reach : reach_inv B st T → reach_inv B st' T'.
Proof using. intros [H1 H2]. by split. Qed.

Lemma look_low_inv : low_inv B st T → low_inv B st' T'.
Proof.
  intros [H1 H2 H3 H4]. split.
  - intros g Hg. pose proof (look_low g). pose proof (H1 g Hg). simpl in *. lia.
  - intros g Hg. simpl. unfold upd. case_decide as Hgs; [subst g|by apply H2].
    destruct Hx_sound as [->|[Hin ->]]; [by apply H2|]. exists t. split; [done|]. split; [done|].
    apply rtc_once, look_edge.
  - intros g y u Hy Hyb Ho He Hu. pose proof (look_low g). pose proof (H3 g y u Hy Hyb Ho He Hu). simpl in *. lia.
  - intros g u Hlk Hu. apply look_looked in Hlk as [Hlk|[-> ->]].
    + pose proof (look_low g). pose proof (H4 g u Hlk Hu). simpl in *. lia.
    + simpl. rewrite upd_eq. by apply Hx_bound.
Qed.

Lemma look_scc : scc_inv B st T → scc_inv B st' T'.
Proof using. intros []. by split. Qed.

Lemma look_co_inv : stack_inv B st T → co_inv B st T → co_inv B st' T'.
Proof.
  intros HS [H1 H2 H3 H4 H5 H6].
  assert (s ∈ t_stack T) as Hs by (apply (grey_open _ _ _ HS); left).
  assert (∀ u, popped B st T u → t_co T' u = t_co T u) as Hpop.
  { intros u Hu. apply upd_ne. intros ->. by destruct Hu. }
  split; try done.
  - intros u. simpl. unfold upd. case_decide as Hu; [subst u|by apply H1].
    intros [Hc|Hc]%orb_true_iff; [|by apply H1]. destruct (H1 t Hc) as (f & Hr & Hf).
    exists f. split; [|done]. eapply rtc_l; [apply look_edge|done].
  - intros u Hu Hc. rewrite Hpop by done. by apply H2.
  - intros y Hy Hb Hf. by apply look_co, H3.
  - intros y u Hy Hb He Hu Hc. rewrite Hpop in Hc by done. by eapply look_co, H4.
  - intros g u Hlk Hu Hc. rewrite Hpop in Hc by done. apply look_looked in Hlk as [Hlk|[-> ->]].
    + by eapply look_co, H5.
    + simpl. rewrite upd_eq. by rewrite Hc.
Qed.

Lemma look_acc : acc_inv root B st T → acc_inv root B st' T'.
Proof using. intros []. by split. Qed.

(** A cycle flag may be raised; if not, the arc must not close a cycle. *)
Context (Hc : c = t_cyc T ∨ (c = true ∧ ∃ u, tc (edge fst) u u)).
Context (Hc_no : c = false → x = t_low T s ∧ s ≠ t).
Context (Hic : ic = t_icyc T ∨ (ic = true ∧ tc (edge fst) start start)).
Context (Hic_no : ic = false → reach start s → t ≠ start).

Lemma look_cyc : cyc_inv B st T → cyc_inv B st' T'.
Proof.
  intros [H1 H2 H3 H4 H5 H6 H7 H8 H9].
  assert (c = false → t_cyc T = false) as Hcf by (intros ->; by destruct Hc as [->|[? _]]).
  assert (ic = false → t_icyc T = false) as Hicf by (intros ->; by destruct Hic as [->|[? _]]).
  split; simpl.
  - intros ->. destruct Hc as [E|[_ ?]]; [by apply H1|done].
  - intros Hf g Hg. unfold upd. case_decide as Hgs; [subst g|by apply H2; [apply Hcf|]].
    destruct (Hc_no Hf) as [-> _]. by apply H2; [apply Hcf|].
  - intros Hf. by apply H3, Hcf.
  - intros Hf. apply H4, Hcf, Hf.
  - intros Hf. apply H5, Hcf, Hf.
  - intros Hf g Hlk. apply look_looked in Hlk as [Hlk|[-> Hst]]; [by eapply H6; [apply Hcf|]|].
    by apply (Hc_no Hf).
  - intros ->. destruct Hic as [E|[_ ?]]; [by apply H7|done].
  - intros Hf. apply H8, Hicf, Hf.
  - intros Hf g Hr Hlk. apply look_looked in Hlk as [Hlk|[-> Hst]]; [by eapply H9; [apply Hicf| |]|].
    by apply (Hic_no Hf).
Qed.

Lemma look_inv : tarjan_inv root B st T → tarjan_inv root B st' T'.
Proof.
  intros []. split; [by apply look_stack|by apply look_reach|by apply look_low_inv|by apply look_scc
    |by apply look_co_inv|by apply look_acc|by apply look_cyc].
Qed.
End look.

Lemma bottom_in root B s i rest go : visit root B ((s, i) :: rest) go → root ∈ ((s, i) :: rest).*1.
Proof.
  intros Hv. destruct (last ((s, i) :: rest).*1) as [u|] eqn:Hl; [|by apply last_None in Hl].
  rewrite <-(inv_bottom _ _ _ _ _ _ Hv u Hl). by apply last_Some_elem_of.
Qed.

(** A finished start was a root, and what it reaches is finished. *)
Lemma no_arc_to_start root B s i rest T :
  visit root B ((s, i) :: rest) true → acc_inv root B ((s, i) :: rest) T → start ∈ B → ¬ reach start s.
Proof.
  intros Hv [_ _ H3 _] HB Hr. pose proof (inv_disjoint _ _ _ _ _ _ Hv) as Hd.
  destruct (decide (root = start)) as [E|E].
  - apply (Hd start HB). rewrite <-E. by eapply bottom_in.
  - apply (Hd s); [by apply H3|]. left.
Qed.

Section arcs.
Context (root : Z) (B : gset Z) (s i : Z) (rest : list (Z * Z)) (T : tarjan) (a : Arc W).
Notation st := ((s, i) :: rest).
Notation t := (nextstate a).
Context (Hv : visit root B st true) (Ha : (Arcs fst s).[i] = Some a) (HT : tarjan_inv root B st T).

Lemma back_inv : t ∈ st.*1 → tarjan_inv root B ((s, i + 1) :: rest) (t_back T s t (t =? start)).
Proof.
  intros Ht. pose proof HT as [HS HR _ _ _ _ _].
  assert (s ∈ t_stack T) as Hs by (apply (grey_open _ _ _ HS); left).
  assert (t ∈ t_stack T) as Htk by by apply (grey_open _ _ _ HS).
  assert (edge fst s t) as He by by eapply look_edge.
  assert (reach t s) as Hr by (apply (r_down _ _ _ HR); [done..|by eapply top_greatest]).
  apply (look_inv root B s i rest T a Hv Ha
    (if t_df T t <? t_low T s then t_df T t else t_low T s) true (t_icyc T || (t =? start))).
  - destruct (Z.ltb_spec (t_df T t) (t_low T s)); lia.
  - destruct (t_df T t <? t_low T s); [by right|by left].
  - intros _. destruct (Z.ltb_spec (t_df T t) (t_low T s)); lia.
  - right. split; [done|]. exists s. eapply tc_rtc_r; [by constructor|done].
  - done.
  - destruct (Z.eqb_spec t start) as [E|E]; [|left; by rewrite orb_false_r]. right.
    rewrite orb_true_r. split; [done|]. eapply tc_rtc_l; [|by constructor; rewrite <-E]. by rewrite <-E.
  - intros [_ Hn%Z.eqb_neq]%orb_false_iff _. done.
  - exact HT.
Qed.

Lemma cross_inv : t ∈ B → tarjan_inv root B ((s, i + 1) :: rest) (t_cross T s t).
Proof.
  intros Ht. pose proof HT as [HS _ HL _ _ HA HC].
  assert (s ∉ B) as HsB by (intros Hs; apply (inv_disjoint _ _ _ _ _ _ Hv s Hs); left).
  assert (t_low T s ≤ t_df T s) as Hls by (apply (l_le _ _ _ HL); left).
  apply (look_inv root B s i rest T a Hv Ha
    (if (t_df T t <? t_df T s) && bool_decide (t ∈ t_stack T) && (t_df T t <? t_low T s)
     then t_df T t else t_low T s) (t_cyc T) (t_icyc T)).
  - destruct (Z.ltb_spec (t_df T t) (t_low T s)); rewrite ?andb_false_r; [|lia]. destruct (_ && _); lia.
  - case_match eqn:E; [|by left]. right. apply andb_true_iff in E as [[_ E]%andb_true_iff _].
    by apply bool_decide_eq_true in E.
  - intros Hin. rewrite (bool_decide_eq_true_2 _ Hin), andb_true_r.
    destruct (Z.ltb_spec (t_df T t) (t_df T s)), (Z.ltb_spec (t_df T t) (t_low T s)); simpl; lia.
  - by left.
  - intros Hf. split; [|intros E; apply HsB; by rewrite E].
    rewrite bool_decide_eq_false_2, andb_false_r; [done|].
    rewrite (y_stack _ _ _ HC Hf). by apply (inv_disjoint _ _ _ _ _ _ Hv).
  - by left.
  - intros Hf Hr E. eapply no_arc_to_start; [exact Hv|exact HA|by rewrite <-E|done].
  - exact HT.
Qed.
End arcs.

(** ** Leaving a state *)

Section finish.
Context (root : Z) (B : gset Z) (s i : Z) (rest : list (Z * Z)).
Notation st := ((s, i) :: rest).
Notation B' := ({[s]} ∪ B).
Context (Hv : visit root B st true) (Hend : i = zlen (Arcs fst s)).

Lemma finish_looked u : edge fst s u → looked st s u.
Proof.
  intros (_ & a & Ha & <-). apply elem_of_vget in Ha as (k & Hk).
  pose proof (vget_range _ _ _ Hk). exists i, k, a. split_and!; [left|lia|done..].
Qed.

Lemma finish_seen u : seen B' rest u ↔ seen B st u.
Proof. unfold seen. simpl. rewrite elem_of_cons. set_solver. Qed.

Lemma looked_rest g u : looked rest g u → looked st g u ∧ g ≠ s.
Proof.
  intros Hl. split.
  - destruct Hl as (j & k & a & Hin & ?). exists j, k, a. split; [by right|done].
  - intros ->. apply looked_grey in Hl. by pose proof (inv_nodup _ _ _ _ _ _ Hv) as [? _]%NoDup_cons.
Qed.

Lemma rest_not_top g : g ∈ rest.*1 → g ≠ s.
Proof. intros Hg ->. by pose proof (inv_nodup _ _ _ _ _ _ Hv) as [? _]%NoDup_cons. Qed.

(** The start is on top only when nothing is below. *)
Lemma start_on_top T : acc_inv root B st T → s = start → rest = [].
Proof.
  intros HA Hs. destruct rest as [|[p j] r] eqn:Hr; [done|]. exfalso.
  pose proof (inv_nodup _ _ _ _ _ _ Hv) as [Hnd _]%NoDup_cons.
  destruct (decide (root = start)) as [E|E].
  - apply Hnd. rewrite Hs, <-E. simpl. destruct (last ((p, j) :: r).*1) as [u|] eqn:Hl; [|by apply last_None in Hl].
    rewrite <-(inv_bottom _ _ _ _ _ _ Hv u).
    + by apply last_Some_elem_of in Hl.
    + rewrite <-Hl. done.
  - apply (inv_disjoint _ _ _ _ _ _ Hv s).
    + rewrite Hs. by apply (a_later _ _ _ _ HA E).
    + left.
Qed.

Lemma final_inv T (fin : bool) :
  (fin = true ↔ is_final fst s) → tarjan_inv root B st T → tarjan_inv root B st (t_final T s fin).
Proof.
  intros Hfin [HS HR HL HP HC HA HY]. split; [by destruct HS|by destruct HR|by destruct HL|by destruct HP| |by destruct HA|by destruct HY].
  destruct HC as [H1 H2 H3 H4 H5 H6].
  assert (s ∈ t_stack T) as Hs by (apply (grey_open _ _ _ HS); left).
  set (T1 := t_final T s fin).
  assert (∀ u, popped B st T u → t_co T1 u = t_co T u) as Hpop.
  { intros u Hu. apply upd_ne. intros ->. by destruct Hu. }
  assert (∀ u, t_co T u = true → t_co T1 u = true) as Hmono.
  { intros u Hu. simpl. unfold upd. case_decide; [subst; rewrite Hu; apply orb_true_r|done]. }
  split; try done.
  - intros u. simpl. unfold upd. case_decide as Hu; [subst u|by apply H1].
    intros [Hc|Hc]%orb_true_iff; [|by apply H1]. exists s. split; [constructor|by apply Hfin].
  - intros u Hu Hc. rewrite Hpop by done. by apply H2.
  - intros y Hy Hb Hf. by apply Hmono, H3.
  - intros y u Hy Hb He Hu Hc. rewrite Hpop in Hc by done. by eapply Hmono, H4.
  - intros g u Hlk Hu Hc. rewrite Hpop in Hc by done. by eapply Hmono, H5.
Qed.

Context (T : tarjan) (HT : tarjan_inv root B st T) (Hfin : is_final fst s → t_co T s = true).

Let HS : stack_inv B st T := inv_stack _ _ _ _ HT.
Let HR : reach_inv B st T := inv_reach _ _ _ _ HT.
Let HL : low_inv B st T := inv_low _ _ _ _ HT.
Let HP : scc_inv B st T := inv_scc _ _ _ _ HT.
Let HC : co_inv B st T := inv_co _ _ _ _ HT.
Let HA : acc_inv root B st T := inv_acc _ _ _ _ HT.
Let HY : cyc_inv B st T := inv_cyc _ _ _ _ HT.

Lemma top_open : s ∈ t_stack T.
Proof. apply (grey_open _ _ _ HS). left. Qed.

Lemma finish_old_grey g h u :
  g ∈ rest.*1 → looked rest h u → t_df T h < t_df T g → t_df T u < t_df T g.
Proof.
  intros Hg Hlk Hlt. apply looked_rest in Hlk as [Hlk _].
  eapply (k_old_grey _ _ _ HS); [|exact Hlk|done]. by right.
Qed.

Lemma finish_old_black g y u :
  g ∈ rest.*1 → y ∈ B' → t_df T y < t_df T g → edge fst y u → t_df T u < t_df T g.
Proof.
  intros Hg Hy Hlt He. apply elem_of_union in Hy as [->%elem_of_singleton|Hy].
  - pose proof (below_top _ _ _ _ _ g HS Hg). lia.
  - eapply (k_old_black _ _ _ HS); [by right|done..].
Qed.

Lemma finish_acc T' : t_acc T' = t_acc T → t_nacc T' = t_nacc T → acc_inv root B' rest T'.
Proof.
  intros E1 E2. destruct HA as [H1 H2 H3 H4]. split.
  - intros u Hu%finish_seen. rewrite E1. by apply H1.
  - intros Hr u Hu%finish_seen. by apply H2.
  - intros Hr u Hu. apply elem_of_union_r. by apply H3.
  - rewrite E2, H4. by setoid_rewrite finish_seen.
Qed.

(** *** The component goes on *)

Section stay.
Context (Hlow : t_low T s < t_df T s).

Lemma stay_parent : ∃ p j r, rest = (p, j) :: r.
Proof.
  destruct (l_sound _ _ _ HL s) as (t & Ht & Hdf & _); [left|].
  destruct (r_up _ _ _ HR t Ht) as (x & Hx & Hle & _).
  destruct rest as [|[p j] r]; [|by eauto]. apply list_elem_of_singleton in Hx as ->. simpl in *. lia.
Qed.

Context (p j : Z) (r : list (Z * Z)) (Hrest : rest = (p, j) :: r).
Notation T' := (t_parent T s p).
Notation st' := (next_arc rest).

Lemma stay_edge : edge fst p s.
Proof.
  pose proof (inv_chained _ _ _ _ _ _ Hv) as Hc. rewrite Hrest in Hc. destruct Hc as [(a & Ha & _ & Hn) _].
  destruct (inv_stack_valid _ _ _ _ _ _ Hv p j) as [? _]; [rewrite Hrest; right; left|].
  split; [done|]. exists a. split; [by eapply vget_elem_of|done].
Qed.

Lemma parent_grey : p ∈ rest.*1.
Proof. rewrite Hrest. left. Qed.

Lemma stay_ne : p ≠ s.
Proof. apply rest_not_top, parent_grey. Qed.

Lemma stay_grey g : g ∈ st'.*1 ↔ g ∈ rest.*1.
Proof. by rewrite next_arc_states. Qed.

Lemma stay_seen u : seen B' st' u ↔ seen B st u.
Proof. by rewrite next_arc_seen, finish_seen. Qed.

Lemma stay_looked g u : looked st' g u → looked rest g u ∨ (g = p ∧ u = s).
Proof.
  pose proof (inv_nodup _ _ _ _ _ _ Hv) as [_ Hnd]%NoDup_cons.
  pose proof (inv_chained _ _ _ _ _ _ Hv) as Hc. rewrite Hrest in *. destruct Hc as [(a & Ha & _ & <-) _].
  simpl. intros Hlk. by apply (looked_next p j r a) in Hlk.
Qed.

Lemma stay_low g : t_low T' g ≤ t_low T g.
Proof. simpl. unfold upd. case_decide; [subst|lia]. destruct (Z.ltb_spec (t_low T s) (t_low T p)); lia. Qed.

Lemma stay_low_parent : t_low T' p ≤ t_low T s.
Proof. simpl. rewrite upd_eq. destruct (Z.ltb_spec (t_low T s) (t_low T p)); lia. Qed.

Lemma stay_co g : t_co T g = true → t_co T' g = true.
Proof. simpl. unfold upd. case_decide; [subst; intros ->; apply orb_true_r|done]. Qed.

Lemma parent_greatest g : g ∈ rest.*1 → t_df T g ≤ t_df T p.
Proof.
  intros Hg. pose proof (grey_sorted _ _ _ HS) as Hs. rewrite Hrest in Hs, Hg. simpl in Hs, Hg.
  apply StronglySorted_inv in Hs as [Hs _]. apply StronglySorted_inv in Hs as [_ Hs].
  rewrite Forall_forall in Hs. apply elem_of_cons in Hg as [->|Hg]; [lia|]. apply Hs in Hg. lia.
Qed.

Lemma stay_stack : stack_inv B' st' T'.
Proof.
  split.
  - intros u Hu. apply stay_seen. by apply (k_seen _ _ _ HS).
  - rewrite next_arc_states. pose proof (k_grey _ _ _ HS) as Hg. etrans; [|exact Hg]. simpl. by apply sublist_cons.
  - apply (k_sorted _ _ _ HS).
  - intros u Hu%stay_seen. by apply (k_df _ _ _ HS).
  - intros u w Hu%stay_seen Hw%stay_seen. by apply (k_inj _ _ _ HS).
  - apply (k_count _ _ _ HS).
  - intros g y u Hg%stay_grey. by apply finish_old_black.
  - intros g h u Hg%stay_grey Hlk Hlt. apply stay_looked in Hlk as [Hlk|[-> ->]]; [by eapply finish_old_grey|].
    pose proof (parent_greatest g Hg). simpl in Hlt. lia.
Qed.

Lemma stay_reach : reach_inv B' st' T'.
Proof.
  split.
  - intros x y Hx%stay_grey Hy Hle. apply (r_down _ _ _ HR); [by right|done..].
  - intros y Hy. destruct (r_up _ _ _ HR y Hy) as (x & Hx & Hle & Hr). setoid_rewrite stay_grey.
    apply grey_new in Hx as [->|Hx]; [|by exists x].
    destruct (l_sound _ _ _ HL s) as (t & Ht & Hdf & Hst); [left|].
    destruct (r_up _ _ _ HR t Ht) as (x & Hx & Hle' & Hr'). exists x.
    apply grey_new in Hx as [->|Hx]; [lia|]. split; [done|]. simpl in *. split; [lia|].
    by etrans; [exact Hr|etrans].
Qed.

Lemma stay_low_inv : low_inv B' st' T'.
Proof.
  split.
  - intros g Hg%stay_grey. pose proof (stay_low g). pose proof (l_le _ _ _ HL g ltac:(by right)). simpl in *. lia.
  - intros g Hg%stay_grey. simpl. unfold upd. case_decide as Hgp; [subst g|apply (l_sound _ _ _ HL); by right].
    destruct (t_low T s <? t_low T p); [|apply (l_sound _ _ _ HL); by right].
    destruct (l_sound _ _ _ HL s) as (t & Ht & Hdf & Hst); [left|]. exists t. split; [done|]. split; [done|].
    eapply rtc_l; [apply stay_edge|done].
  - intros g y u Hy Hyb (Hg%stay_grey & Hle & Hmax) He Hu.
    assert (t_df T s ≤ t_df T y → y ∈ B ∨ y = s → g = p) as Hgp.
    { intros Hsy _. apply (k_inj _ _ _ HS); [right; by right|right; right; apply parent_grey|].
      pose proof (parent_greatest g Hg). pose proof (Hmax p ltac:(apply stay_grey, parent_grey)) as Hp.
      pose proof (below_top _ _ _ _ _ p HS parent_grey). simpl in *. lia. }
    apply elem_of_union in Hyb as [->%elem_of_singleton|Hyb].
    + rewrite (Hgp ltac:(simpl; lia) ltac:(by right)). pose proof stay_low_parent.
      pose proof (l_grey _ _ _ HL s u (finish_looked u He) Hu). simpl in *. lia.
    + destruct (decide (t_df T s ≤ t_df T y)) as [Hsy|Hsy].
      * rewrite (Hgp Hsy ltac:(by left)). pose proof stay_low_parent.
        assert (owner st T s y) as Ho.
        { split; [left|]. split; [done|]. intros g' Hg' _. by eapply top_greatest. }
        pose proof (l_black _ _ _ HL s y u Hy Hyb Ho He Hu). simpl in *. lia.
      * assert (owner st T g y) as Ho.
        { split; [by right|]. split; [done|]. intros g' Hg' Hle'. apply grey_new in Hg' as [->|Hg']; [lia|].
          apply Hmax; [by apply stay_grey|done]. }
        pose proof (l_black _ _ _ HL g y u Hy Hyb Ho He Hu). pose proof (stay_low g). simpl in *. lia.
  - intros g u Hlk Hu. apply stay_looked in Hlk as [Hlk|[-> ->]].
    + apply looked_rest in Hlk as [Hlk _]. pose proof (l_grey _ _ _ HL g u Hlk Hu). pose proof (stay_low g). simpl in *. lia.
    + pose proof stay_low_parent. simpl in *. lia.
Qed.

Lemma stay_popped u : popped B' st' T' u ↔ popped B st T u.
Proof. unfold popped. by rewrite stay_seen. Qed.

Lemma stay_scc : scc_inv B' st' T'.
Proof.
  destruct HP as [H1 H2 H3 H4 H5 H6]. split; try done.
  - intros x y. rewrite !stay_popped. apply H1.
  - intros x. rewrite !stay_popped. apply H2.
  - intros x y. rewrite !stay_popped. apply H3.
  - intros x y. rewrite !stay_popped. apply H4.
  - intros c Hc. destruct (H5 c Hc) as (x & Hx & <-). exists x. by rewrite stay_popped.
Qed.

Lemma stay_co_inv : co_inv B' st' T'.
Proof.
  destruct HC as [H1 H2 H3 H4 H5 H6].
  assert (∀ u, popped B st T u → t_co T' u = t_co T u) as Hpop.
  { intros u Hu. apply upd_ne. intros ->. destruct Hu as [_ []]. apply (grey_open _ _ _ HS). right. apply parent_grey. }
  split.
  - intros u. simpl. unfold upd. case_decide as Hu; [subst u|by apply H1].
    intros [Hc|Hc]%orb_true_iff; [|by apply H1]. destruct (H1 s Hc) as (f & Hr & Hf). exists f.
    split; [|done]. eapply rtc_l; [apply stay_edge|done].
  - intros u Hu%stay_popped Hc. rewrite Hpop by done. by apply H2.
  - intros y Hy Hb Hf. apply stay_co. apply elem_of_union in Hb as [->%elem_of_singleton|Hb]; [by apply Hfin|by apply H3].
  - intros y u Hy Hb He Hu%stay_popped Hc. rewrite Hpop in Hc by done. apply stay_co.
    apply elem_of_union in Hb as [->%elem_of_singleton|Hb]; [|by eapply H4].
    by eapply H5; [apply finish_looked| |].
  - intros g u Hlk Hu%stay_popped Hc. rewrite Hpop in Hc by done. apply stay_co.
    apply stay_looked in Hlk as [Hlk|[-> ->]]; [apply looked_rest in Hlk as [Hlk _]; by eapply H5|].
    destruct Hu as [_ []]. apply top_open.
  - change (t_nco T') with (t_nco T). rewrite H6. by setoid_rewrite stay_popped.
Qed.

Lemma stay_cyc : cyc_inv B' st' T'.
Proof.
  destruct HY as [H1 H2 H3 H4 H5 H6 H7 H8 H9].
  assert (t_cyc T = true) as Hc.
  { destruct (t_cyc T) eqn:E; [done|]. rewrite (H2 eq_refl s ltac:(left)) in Hlow. lia. }
  split; simpl; try done; try (rewrite Hc; done).
  - intros Hf x Hx Hr He. apply elem_of_union in Hx as [->%elem_of_singleton|Hx]; [|by eapply H8].
    by apply (H9 Hf s Hr), finish_looked.
  - intros Hf g Hr Hlk. apply stay_looked in Hlk as [Hlk|[-> E]].
    + apply looked_rest in Hlk as [Hlk _]. by apply (H9 Hf g Hr).
    + pose proof (start_on_top T HA (eq_sym E)) as Hn. by rewrite Hrest in Hn.
Qed.

Lemma stay_inv : tarjan_inv root B' st' T'.
Proof.
  split; [apply stay_stack|apply stay_reach|apply stay_low_inv|apply stay_scc|apply stay_co_inv| |apply stay_cyc].
  destruct (finish_acc T' eq_refl eq_refl) as [E1 E2 E3 E4]. split.
  - intros u Hu. rewrite next_arc_seen in Hu. by apply E1.
  - intros Hr u Hu. rewrite next_arc_seen in Hu. by apply E2.
  - done.
  - rewrite E4. by setoid_rewrite next_arc_seen.
Qed.
End stay.

(** *** The component is closed *)

Section pop.
Context (Hlow : t_low T s = t_df T s) (l1 Kr : list Z) (Hk : t_stack T = (l1 ++ [s]) ++ Kr).
Notation seg := (l1 ++ [s]).
Notation T' := (t_pop T seg Kr).

Lemma pop_sorted x y : x ∈ seg → y ∈ Kr → t_df T y < t_df T x.
Proof.
  intros Hx Hy. pose proof (k_sorted _ _ _ HS) as Hs. rewrite Hk in Hs. clear -Hs Hx Hy.
  induction seg as [|z l IH]; [by apply not_elem_of_nil in Hx|]. simpl in Hs.
  apply StronglySorted_inv in Hs as [Hs Hz]. apply elem_of_cons in Hx as [->|Hx]; [|by apply IH].
  rewrite Forall_forall in Hz. apply Hz, elem_of_app. by right.
Qed.

Lemma pop_above x : x ∈ seg → t_df T s ≤ t_df T x.
Proof.
  intros Hx. pose proof (k_sorted _ _ _ HS) as Hs. rewrite Hk in Hs. clear -Hs Hx.
  apply elem_of_app in Hx as [Hx|Hx%list_elem_of_singleton]; [|subst; lia]. rewrite <-app_assoc in Hs.
  induction l1 as [|z l IH]; [by apply not_elem_of_nil in Hx|]. simpl in Hs.
  apply StronglySorted_inv in Hs as [Hs Hz]. apply elem_of_cons in Hx as [->|Hx]; [|by apply IH].
  rewrite Forall_forall in Hz. apply Z.lt_le_incl, Hz, elem_of_app. right. left.
Qed.

Lemma seg_open x : x ∈ seg → x ∈ t_stack T.
Proof. intros Hx. rewrite Hk. apply elem_of_app. by left. Qed.

Lemma seg_top : s ∈ seg.
Proof. apply elem_of_app. right. left. Qed.

Lemma seg_in x : x ∈ t_stack T → x ∈ seg ↔ t_df T s ≤ t_df T x.
Proof.
  intros Hx. split; [apply pop_above|]. intros Hle. rewrite Hk in Hx. apply elem_of_app in Hx as [?|Hx]; [done|].
  pose proof (pop_sorted s x seg_top Hx). lia.
Qed.

Lemma rest_open x : x ∈ Kr ↔ x ∈ t_stack T ∧ x ∉ seg.
Proof.
  rewrite Hk, elem_of_app. split; [|intros [[?|?] ?]; done].
  intros Hx. split; [by right|]. intros Hs. pose proof (pop_sorted x x Hs Hx). lia.
Qed.

Lemma pop_popped u : popped B' rest T' u ↔ popped B st T u ∨ u ∈ seg.
Proof.
  unfold popped. rewrite finish_seen. simpl. rewrite rest_open. split.
  - intros [Hu Hn]. destruct (decide (u ∈ seg)); [by right|]. left. naive_solver.
  - intros [[Hu Hn]|Hs]; [naive_solver|]. split; [by apply (k_seen _ _ _ HS), seg_open|]. by intros [_ ?].
Qed.

Lemma popped_not_seg u : popped B st T u → u ∉ seg.
Proof. intros [_ Hn] Hs. by apply Hn, seg_open. Qed.

(** The closed component is closed under arcs, up to components closed before. *)
Lemma seg_closed y u : y ∈ seg → edge fst y u → u ∈ seg ∨ popped B st T u.
Proof.
  intros Hy He. destruct (decide (y = s)) as [->|Hne].
  - pose proof (finish_looked u He) as Hlk. destruct (decide (u ∈ t_stack T)) as [Hu|Hu].
    + left. apply seg_in; [done|]. rewrite <-Hlow. by apply (l_grey _ _ _ HL).
    + right. split; [by eapply looked_seen|done].
  - assert (y ∈ B) as Hyb.
    { apply (open_black B st T HS); [by apply seg_open|]. intros Hg.
      pose proof (top_greatest _ _ _ _ _ _ HS Hg). pose proof (pop_above y Hy).
      apply Hne, (k_inj _ _ _ HS); [by right|right; left|simpl in *; lia]. }
    destruct (decide (u ∈ t_stack T)) as [Hu|Hu].
    + left. apply seg_in; [done|]. rewrite <-Hlow. eapply (l_black _ _ _ HL s y); try done; [by apply seg_open|].
      split; [left|]. split; [by apply pop_above|]. intros g Hg _. by eapply top_greatest.
    + right. split; [by eapply edge_seen|done].
Qed.

Lemma popped_reach u w : popped B st T u → reach u w → popped B st T w.
Proof. intros Hu. induction 1 as [|u v w He _ IH]; [done|]. apply IH. by eapply (p_closed _ _ _ HP). Qed.

Lemma seg_reach y u : y ∈ seg → reach y u → u ∈ seg ∨ popped B st T u.
Proof.
  intros Hy Hr. induction Hr as [|y v u He Hr IH]; [by left|].
  destruct (seg_closed y v Hy He) as [Hv'|Hp]; [by apply IH|]. right. by eapply popped_reach.
Qed.

Lemma seg_to_top y : y ∈ seg → reach y s.
Proof.
  intros Hy. destruct (r_up _ _ _ HR y (seg_open y Hy)) as (x & Hx & _ & Hr).
  assert (x ∈ t_stack T) as Hxk by by apply (grey_open _ _ _ HS).
  destruct (seg_reach y x Hy Hr) as [Hxs|[_ Hn]]; [|done].
  assert (x = s) as ->; [|done]. apply (k_inj _ _ _ HS); [by right|right; left|].
  pose proof (top_greatest _ _ _ _ _ _ HS Hx). pose proof (pop_above x Hxs). simpl in *. lia.
Qed.

Lemma top_to_seg y : y ∈ seg → reach s y.
Proof. intros Hy. apply (r_down _ _ _ HR); [left|by apply seg_open|by apply pop_above]. Qed.

Lemma seg_mutual x y : x ∈ seg → y ∈ seg → reach x y.
Proof. intros Hx Hy. etrans; [by apply seg_to_top|by apply top_to_seg]. Qed.

(** ** What is left of the stack *)

Lemma rest_grey : rest.*1 `sublist_of` Kr.
Proof.
  pose proof (k_grey _ _ _ HS) as Hg. rewrite Hk in Hg. simpl in Hg. rewrite <-app_assoc in Hg.
  assert (s ∉ l1) as Hs.
  { intros Hs. pose proof (k_sorted _ _ _ HS) as Hso. rewrite Hk, <-app_assoc in Hso. clear -Hs Hso.
    induction l1 as [|z l IH]; [by apply not_elem_of_nil in Hs|]. simpl in Hso.
    apply StronglySorted_inv in Hso as [Hso Hz]. apply elem_of_cons in Hs as [->|Hs]; [|by apply IH].
    rewrite Forall_forall in Hz. specialize (Hz z). assert (z ∈ l ++ [z] ++ Kr) as Hin; [|specialize (Hz Hin); lia].
    apply elem_of_app. right. left. }
  clear -Hg Hs. induction l1 as [|z l IH]; simpl in Hg.
  - apply sublist_cons_r in Hg as [Hg|(l' & [= <-] & Hg)]; [|done]. etrans; [|exact Hg]. by apply sublist_cons.
  - apply not_elem_of_cons in Hs as [Hz Hs]. apply IH; [|done].
    apply sublist_cons_r in Hg as [Hg|(l' & [= -> _] & _)]; [done|]. done.
Qed.

Lemma rest_kept x : x ∈ Kr → x ∈ t_stack T ∧ t_df T x < t_df T s.
Proof. intros Hx. split; [by apply rest_open|]. by apply (pop_sorted s x seg_top). Qed.

Lemma low_kept x : x ∈ t_stack T → t_df T x < t_df T s → x ∈ Kr.
Proof. intros Hx Hlt. apply rest_open. split; [done|]. intros Hs%pop_above. lia. Qed.

Lemma pop_stack : stack_inv B' rest T'.
Proof.
  split.
  - intros u Hu. apply finish_seen, (k_seen _ _ _ HS). by apply rest_kept.
  - apply rest_grey.
  - pose proof (k_sorted _ _ _ HS) as Hs. rewrite Hk in Hs. eapply sublist_sorted; [|exact Hs].
    by apply sublist_inserts_l.
  - intros u Hu%finish_seen. by apply (k_df _ _ _ HS).
  - intros u w Hu%finish_seen Hw%finish_seen. by apply (k_inj _ _ _ HS).
  - apply (k_count _ _ _ HS).
  - intros g y u. apply finish_old_black.
  - intros g h u. apply finish_old_grey.
Qed.

Lemma pop_reach : reach_inv B' rest T'.
Proof.
  split.
  - intros x y Hx Hy Hle. apply (r_down _ _ _ HR); [by right|by apply rest_kept|done].
  - intros y Hy. apply rest_kept in Hy as [Hy Hlt]. destruct (r_up _ _ _ HR y Hy) as (x & Hx & Hle & Hr).
    exists x. split; [|done]. apply grey_new in Hx as [->|Hx]; [lia|done].
Qed.

Lemma pop_low : low_inv B' rest T'.
Proof.
  split.
  - intros g Hg. apply (l_le _ _ _ HL). by right.
  - intros g Hg. destruct (l_sound _ _ _ HL g) as (t & Ht & Hdf & Hr); [by right|].
    exists t. split; [|done]. apply low_kept; [done|].
    pose proof (l_le _ _ _ HL g ltac:(by right)). pose proof (below_top _ _ _ _ _ g HS Hg). lia.
  - intros g y u Hy Hyb (Hg & Hle & Hmax) He Hu. apply rest_kept in Hy as [Hy Hlt]. apply rest_kept in Hu as [Hu _].
    apply elem_of_union in Hyb as [->%elem_of_singleton|Hyb]; [lia|].
    apply (l_black _ _ _ HL g y u); try done. split; [by right|]. split; [done|].
    intros g' Hg' Hle'. apply grey_new in Hg' as [->|Hg']; [lia|by apply Hmax].
  - intros g u Hlk Hu. apply looked_rest in Hlk as [Hlk _]. apply rest_kept in Hu as [Hu _]. by apply (l_grey _ _ _ HL).
Qed.

Lemma pop_num_seg x : x ∈ seg → t_num T' x = t_sccs T.
Proof. intros Hx. simpl. by rewrite decide_True. Qed.

Lemma pop_num_old x : popped B st T x → t_num T' x = t_num T x.
Proof. intros Hx%popped_not_seg. simpl. by rewrite decide_False. Qed.

Lemma pop_scc : scc_inv B' rest T'.
Proof.
  pose proof HP as [H1 H2 H3 H4 H5 H6].
  assert (∀ x y, popped B st T x → y ∈ seg → ¬ reach x y) as Hno.
  { intros x y Hx Hy Hr. pose proof (popped_reach x y Hx Hr) as [_ Hn]. by apply Hn, seg_open. }
  split.
  - intros x y Hx%pop_popped He. apply pop_popped. destruct Hx as [Hx|Hx]; [left; by eapply H1|].
    destruct (seg_closed x y Hx He); [by right|by left].
  - intros x Hx%pop_popped. change (t_sccs T') with (t_sccs T + 1).
    destruct Hx as [Hx|Hx]; [rewrite pop_num_old by done; specialize (H2 x Hx)|rewrite pop_num_seg by done]; lia.
  - intros x y Hx%pop_popped Hy%pop_popped.
    destruct Hx as [Hx|Hx], Hy as [Hy|Hy].
    + rewrite !pop_num_old by done. by apply H3.
    + rewrite (pop_num_old x), (pop_num_seg y) by done. pose proof (H2 x Hx).
      split; [lia|]. intros [Hr _]. by destruct (Hno x y Hx Hy).
    + rewrite (pop_num_seg x), (pop_num_old y) by done. pose proof (H2 y Hy).
      split; [lia|]. intros [_ Hr]. by destruct (Hno y x Hy Hx).
    + rewrite !pop_num_seg by done. split; [|done]. intros _. split; by apply seg_mutual.
  - intros x y Hx%pop_popped He. destruct Hx as [Hx|Hx].
    + rewrite !pop_num_old by (done || by eapply H1). by apply H4.
    + rewrite (pop_num_seg x) by done. destruct (seg_closed x y Hx He) as [Hy|Hy].
      * by rewrite pop_num_seg.
      * rewrite pop_num_old by done. pose proof (H2 y Hy). lia.
  - intros c Hc. change (t_sccs T') with (t_sccs T + 1) in Hc. destruct (decide (c = t_sccs T)) as [->|].
    + exists s. rewrite pop_popped, pop_num_seg by apply seg_top. split; [right; apply seg_top|done].
    + destruct (H5 c) as (x & Hx & <-); [lia|]. exists x. rewrite pop_popped, pop_num_old by done.
      split; [by left|done].
  - simpl. lia.
Qed.

(** The component is coaccessible if and only if one of its states is marked. *)
Lemma seg_marked y : y ∈ seg → coaccessible y → existsb (t_co T) seg = true.
Proof.
  intros Hy (f & Hr & Hf).
  assert (∃ z, z ∈ seg ∧ t_co T z = true) as (z & Hz & Hc).
  { induction Hr as [y|y v f He Hr IH].
    - exists y. split; [done|]. destruct (decide (y = s)) as [->|Hne]; [by apply Hfin|].
      apply (c_final _ _ _ HC); [by apply seg_open| |done].
      apply (open_black B st T HS); [by apply seg_open|]. intros Hg.
      pose proof (top_greatest _ _ _ _ _ _ HS Hg). pose proof (pop_above y Hy).
      apply Hne, (k_inj _ _ _ HS); [by right|right; left|simpl in *; lia].
    - destruct (seg_closed y v Hy He) as [Hv'|Hp]; [by apply IH|].
      assert (t_co T v = true) as Hcv by (apply (c_popped _ _ _ HC); [done|by exists f]).
      exists y. split; [done|]. destruct (decide (y = s)) as [->|Hne].
      + by apply (c_grey _ _ _ HC s v (finish_looked v He)).
      + apply (c_black _ _ _ HC y v); try done; [by apply seg_open|].
        apply (open_black B st T HS); [by apply seg_open|]. intros Hg.
        pose proof (top_greatest _ _ _ _ _ _ HS Hg). pose proof (pop_above y Hy).
        apply Hne, (k_inj _ _ _ HS); [by right|right; left|simpl in *; lia]. }
  apply existsb_exists. exists z. split; [by apply list_elem_of_In|done].
Qed.

Lemma marked_seg y : y ∈ seg → existsb (t_co T) seg = true → coaccessible y.
Proof.
  intros Hy (z & Hz%list_elem_of_In & Hc)%existsb_exists. destruct (c_sound _ _ _ HC z Hc) as (f & Hr & Hf).
  exists f. split; [|done]. etrans; [by apply (seg_mutual y z)|done].
Qed.

Lemma pop_co_out x : x ∉ seg → t_co T' x = t_co T x.
Proof. intros Hx. simpl. by rewrite decide_False. Qed.

Lemma pop_co_in x : x ∈ seg → t_co T' x = (existsb (t_co T) seg || t_co T x)%bool.
Proof. intros Hx. simpl. by rewrite decide_True. Qed.

Lemma pop_co : co_inv B' rest T'.
Proof.
  split.
  - intros x Hc. destruct (decide (x ∈ seg)) as [Hx|Hx].
    + rewrite pop_co_in in Hc by done. apply orb_true_iff in Hc as [Hc|Hc]; [by apply marked_seg|by apply (c_sound _ _ _ HC)].
    + rewrite pop_co_out in Hc by done. by apply (c_sound _ _ _ HC).
  - intros x Hx%pop_popped Hc. destruct Hx as [Hx|Hx].
    + rewrite pop_co_out by by apply popped_not_seg. by apply (c_popped _ _ _ HC).
    + rewrite pop_co_in by done. by rewrite (seg_marked x Hx Hc).
  - intros y Hy Hyb Hf. apply rest_kept in Hy as Hy'. destruct Hy' as [Hyk Hlt].
    rewrite pop_co_out by by apply rest_open.
    apply elem_of_union in Hyb as [->%elem_of_singleton|Hyb]; [lia|]. by apply (c_final _ _ _ HC).
  - intros y u Hy Hyb He Hu Hc. apply rest_kept in Hy as Hy'. destruct Hy' as [Hyk Hlt].
    rewrite pop_co_out by by apply rest_open.
    apply elem_of_union in Hyb as [->%elem_of_singleton|Hyb]; [lia|].
    apply pop_popped in Hu as [Hu|Hu].
    + rewrite pop_co_out in Hc by by apply popped_not_seg. by apply (c_black _ _ _ HC y u).
    + exfalso. pose proof (k_old_black _ _ _ HS s y u ltac:(left) Hyb Hlt He). apply pop_above in Hu. lia.
  - intros g u Hlk Hu Hc. apply looked_grey in Hlk as Hg. apply looked_rest in Hlk as [Hlk _].
    pose proof (below_top _ _ _ _ _ g HS Hg) as Hlt.
    rewrite pop_co_out by (intros ?%pop_above; lia).
    apply pop_popped in Hu as [Hu|Hu].
    + rewrite pop_co_out in Hc by by apply popped_not_seg. by apply (c_grey _ _ _ HC g u).
    + exfalso. pose proof (k_old_grey _ _ _ HS s g u ltac:(left) Hlk Hlt). apply pop_above in Hu. lia.
  - change (t_nco T') with (t_nco T || negb (existsb (t_co T) seg))%bool.
    rewrite orb_true_iff, (c_flag _ _ _ HC), negb_true_iff. setoid_rewrite pop_popped. split.
    + intros [(x & Hx & Hn)|Hn]; [exists x; split; [by left|done]|]. exists s. split; [right; apply seg_top|].
      intros Hc. apply (seg_marked s seg_top) in Hc. congruence.
    + intros (x & [Hx|Hx] & Hn); [left; by exists x|right]. destruct (existsb _ _) eqn:E; [|done].
      by apply (marked_seg x Hx) in E.
Qed.

Lemma pop_cyc : cyc_inv B' rest T'.
Proof.
  pose proof HY as [H1 H2 H3 H4 H5 H6 H7 H8 H9].
  assert (t_cyc T = false → l1 = [] ∧ Kr = rest.*1) as Hone.
  { intros Hc. pose proof (H3 Hc) as E. rewrite Hk in E. simpl in E.
    destruct l1 as [|z l]; simplify_eq/=; [done|]. exfalso.
    pose proof (k_sorted _ _ _ HS) as Hs. rewrite Hk in Hs. simpl in Hs.
    apply StronglySorted_inv in Hs as [_ Hs]. rewrite Forall_forall in Hs.
    assert (s ∈ (l ++ [s]) ++ Kr) as Hin by (rewrite !elem_of_app; left; right; left).
    specialize (Hs s Hin). lia. }
  split; try done.
  - intros Hc g Hg. apply H2; [done|by right].
  - intros Hc. by apply Hone.
  - intros Hc x y Hx%pop_popped Hy%pop_popped Hxy Hyx. destruct (Hone Hc) as [E _].
    assert (∀ z, z ∈ seg → z = s) as Hs by (rewrite E; by intros z ->%list_elem_of_singleton).
    destruct Hx as [Hx|Hx], Hy as [Hy|Hy].
    + by apply H4.
    + pose proof (popped_reach x y Hx Hxy) as [_ Hn]. by destruct Hn; apply seg_open.
    + pose proof (popped_reach y x Hy Hyx) as [_ Hn]. by destruct Hn; apply seg_open.
    + by rewrite (Hs x Hx), (Hs y Hy).
  - intros Hc x Hx He. apply elem_of_union in Hx as [->%elem_of_singleton|Hx]; [|by eapply H5].
    by apply (H6 Hc s), finish_looked.
  - intros Hc g Hlk. apply looked_rest in Hlk as [Hlk _]. by eapply H6.
  - intros Hc x Hx Hr He. apply elem_of_union in Hx as [->%elem_of_singleton|Hx]; [|by eapply H8].
    by apply (H9 Hc s Hr), finish_looked.
  - intros Hc g Hr Hlk. apply looked_rest in Hlk as [Hlk _]. by apply (H9 Hc g Hr).
Qed.

Lemma pop_inv : tarjan_inv root B' rest T'.
Proof.
  split; [apply pop_stack|apply pop_reach|apply pop_low|apply pop_scc|apply pop_co| |apply pop_cyc].
  by apply finish_acc.
Qed.
End pop.

(** After the component is closed, its last state is looked at from the state below. *)
Lemma pop_parent_inv l1 Kr p j r :
  t_low T s = t_df T s → t_stack T = (l1 ++ [s]) ++ Kr → rest = (p, j) :: r →
  tarjan_inv root B' (next_arc rest) (t_parent (t_pop T (l1 ++ [s]) Kr) s p).
Proof.
  intros Hlow Hk Hrest. pose proof (pop_inv Hlow l1 Kr Hk) as Hpop.
  pose proof (inv_leave fst AnyArcFilter root B s i rest true Hv (λ _, Hend)) as Hl.
  pose proof (inv_chained _ _ _ _ _ _ Hv) as Hc. rewrite Hrest in Hc. destruct Hc as [(a & Ha & _ & Hn) _].
  assert (p ∈ rest.*1) as Hp by (rewrite Hrest; left).
  pose proof (below_top _ _ _ _ _ p HS Hp) as Hlt. pose proof (l_le _ _ _ HL p ltac:(by right)) as Hle.
  set (T1 := t_pop T (l1 ++ [s]) Kr) in *.
  assert (t_parent T1 s p = t_look p T1 a (t_low T1 p) (t_cyc T1) (t_icyc T1)) as ->.
  { unfold t_parent, t_look. rewrite Hn. rewrite (proj2 (Z.ltb_ge (t_low T1 s) (t_low T1 p))); [done|].
    simpl. lia. }
  assert (s ∉ Kr) as Hns.
  { intros Hin. destruct (proj1 (rest_open l1 Kr Hk s) Hin) as [_ Hs]. apply Hs, seg_top. }
  assert (p ≠ s) as Hps by by apply rest_not_top.
  assert (s ≠ start) as Hst by (intros E; pose proof (start_on_top T HA E); congruence).
  rewrite Hrest in Hl, Hpop |- *. apply (look_inv root B' p j r T1 a Hl Ha); rewrite ?Hn; try done; by left.
Qed.

Lemma close_inv :
  t_df T s = t_low T s → rest = [] → tarjan_inv root B' rest (t_close T s).
Proof.
  intros Hlow _. unfold t_close. rewrite Hlow, Z.eqb_refl.
  destruct (split_at_spec s (t_stack T) top_open) as (l1 & l2 & -> & Hk). by apply pop_inv.
Qed.

Lemma finish_parent_inv :
  (∀ p, p ∈ rest.*1 → p ≠ kNoStateId) →
  tarjan_inv root B' (next_arc rest)
    (if parent_of rest =? kNoStateId then t_close T s else t_parent (t_close T s) s (parent_of rest)).
Proof.
  intros Hne. destruct (decide (t_df T s = t_low T s)) as [Hlow|Hlow].
  - destruct (decide (rest = [])) as [Hr|Hr].
    { assert (parent_of rest = kNoStateId) as -> by by rewrite Hr.
      assert (next_arc rest = rest) as -> by by rewrite Hr. by apply close_inv. }
    assert (∃ p j r, rest = (p, j) :: r) as (p & j & r & Hpj) by (destruct rest as [|[]]; [done|eauto]).
    assert (parent_of rest = p) as -> by by rewrite Hpj.
    rewrite (proj2 (Z.eqb_neq p kNoStateId)) by (apply Hne; rewrite Hpj; left).
    unfold t_close. rewrite Hlow, Z.eqb_refl.
    destruct (split_at_spec s (t_stack T) top_open) as (l1 & l2 & -> & Hk). by eapply pop_parent_inv.
  - assert (t_low T s < t_df T s) as Hlt.
    { pose proof (l_le _ _ _ HL s ltac:(left)). lia. }
    unfold t_close. rewrite (proj2 (Z.eqb_neq _ _) Hlow).
    destruct (stay_parent Hlt) as (p & j & r & Hr). assert (parent_of rest = p) as -> by by rewrite Hr.
    rewrite (proj2 (Z.eqb_neq p kNoStateId)) by (apply Hne; rewrite Hr; left). by eapply stay_inv.
Qed.
End finish.

Lemma finish_inv root B s i rest T (fin : bool) :
  visit root B ((s, i) :: rest) true → i = zlen (Arcs fst s) → tarjan_inv root B ((s, i) :: rest) T →
  (fin = true ↔ is_final fst s) →
  tarjan_inv root ({[s]} ∪ B) (next_arc rest) (t_finish T s (parent_of rest) fin).
Proof.
  intros Hv Hend HT Hfin. unfold t_finish. apply (finish_parent_inv root B s i rest Hv Hend).
  - by apply final_inv.
  - intros Hf. simpl. rewrite upd_eq. apply Hfin in Hf as ->. done.
  - intros p Hp. apply list_elem_of_fmap in Hp as ([q j] & -> & Hin).
    destruct (inv_stack_valid _ _ _ _ _ _ Hv q j) as [[? ?] _]; [by right|]. unfold kNoStateId. simpl. lia.
Qed.

(** ** A new tree *)

Lemma init_inv : tarjan_inv start ∅ [] t_init.
Proof.
  assert (∀ u, ¬ seen ∅ [] u) as Hs by (intros u [?|?%not_elem_of_nil]; set_solver).
  assert (∀ u, ¬ popped ∅ [] t_init u) as Hp by by intros u [?%Hs _].
  assert (∀ u : Z, u ∉ (∅ : gset Z)) as He by set_solver.
  assert (∀ u : Z, u ∉ ([] : list Z)) as Hn by (intros u; apply not_elem_of_nil).
  assert (∀ g u, ¬ looked [] g u) as Hl by by intros g u ?%looked_grey%Hn.
  split; split; simpl; try done; try (intros; exfalso; match goal with
    | Hx : _ ∈ [] |- _ => by apply Hn in Hx
    | Hx : seen _ _ _ |- _ => by apply Hs in Hx
    | Hx : popped _ _ _ _ |- _ => by apply Hp in Hx
    end).
  - constructor.
  - lia.
  - split; [done|]. intros (u & Hu & _). by destruct (Hp u).
  - split; [done|]. intros (u & Hu & _). by destruct (Hs u).
Qed.

Lemma new_root_inv r0 r B T :
  visit r0 B [] true → start ∈ B → r ∉ B → tarjan_inv r0 B [] T → tarjan_inv r B [] T.
Proof.
  intros Hv HB Hr [HS HR HL HP HC [H1 H2 H3 H4] HY]. split; try done. split; try done.
  - intros E. by rewrite E in Hr.
  - intros _. apply rtc_ind_r; [done|]. intros y z _ He IH.
    by pose proof (edge_seen _ _ _ _ _ Hv IH He) as [?|?%not_elem_of_nil].
Qed.

(** ** At the end of the visit *)

Section done.
Context (root : Z) (B : gset Z) (T : tarjan) (HT : tarjan_inv root B [] T).
Context (Hall : ∀ s, valid fst s → s ∈ B) (Hblack : ∀ s, s ∈ B → valid fst s).

Lemma done_popped s : popped B [] T s ↔ valid fst s.
Proof.
  unfold popped, seen. split; [intros [[?|?%not_elem_of_nil] _]; [auto|done]|].
  intros Hs. split; [left; auto|]. intros Hk.
  by destruct (r_up _ _ _ (inv_reach _ _ _ _ HT) s Hk) as (x & ?%not_elem_of_nil & _).
Qed.

Lemma done_components s t :
  valid fst s → valid fst t → t_num T s = t_num T t ↔ reach s t ∧ reach t s.
Proof. intros Hs Ht. by apply (p_eq _ _ _ (inv_scc _ _ _ _ HT)); apply done_popped. Qed.

Lemma done_coaccessible s : valid fst s → t_co T s = true ↔ coaccessible s.
Proof.
  intros Hs. split; [apply (c_sound _ _ _ (inv_co _ _ _ _ HT))|].
  by apply (c_popped _ _ _ (inv_co _ _ _ _ HT)), done_popped.
Qed.

Lemma done_accessible s : valid fst s → t_acc T s = true ↔ reach start s.
Proof. intros Hs. apply (a_exact _ _ _ _ (inv_acc _ _ _ _ HT)). left. auto. Qed.

Lemma edge_valid_r s t : edge fst s t → valid fst t.
Proof. intros (Hs & a & Ha & <-). by apply (proj1 (proj2 Hwf) s a). Qed.

Lemma done_cyclic : t_cyc T = true ↔ Holds fst Cyclic.
Proof.
  destruct (inv_cyc _ _ _ _ HT) as [H1 _ _ H4 H5 _ _ _ _]. split; [exact H1|]. intros (s & Hs).
  destruct (t_cyc T); [done|]. exfalso.
  destruct (tc_first _ _ _ Hs) as (u & He & Hr).
  pose proof (proj1 He) as Hvs. pose proof (edge_valid_r s u He) as Hvu.
  assert (s = u) as <-.
  { apply (H4 eq_refl); [by apply done_popped..|by apply rtc_once|done]. }
  by apply (H5 eq_refl s (Hall s Hvs)).
Qed.

Lemma done_initial_cyclic : t_icyc T = true ↔ Holds fst InitialCyclic.
Proof.
  destruct (inv_cyc _ _ _ _ HT) as [_ _ _ _ _ _ H7 H8 _]. split; [exact H7|]. cbn [Holds]. intros Hs.
  destruct (t_icyc T); [done|]. exfalso.
  assert (∃ u, reach start u ∧ edge fst u start) as (u & Hr & He).
  { by apply tc_last. }
  by apply (H8 eq_refl u (Hall u (proj1 He)) Hr).
Qed.

Lemma done_not_accessible : t_nacc T = true ↔ ¬ Holds fst Accessible.
Proof.
  rewrite (a_flag _ _ _ _ (inv_acc _ _ _ _ HT)). cbn [Holds]. split.
  - intros (t & [Ht|?%not_elem_of_nil] & Hn) Hh; [|done]. by apply Hn, Hh, Hblack.
  - intros Hh. destruct (t_nacc T) eqn:E; [by apply (a_flag _ _ _ _ (inv_acc _ _ _ _ HT))|].
    destruct Hh. intros s Hs. destruct (t_acc T s) eqn:Ea; [by apply done_accessible|].
    assert (t_nacc T = true) as E'; [|congruence]. apply (a_flag _ _ _ _ (inv_acc _ _ _ _ HT)).
    exists s. split; [left; auto|]. intros Hr%(done_accessible s Hs). congruence.
Qed.

Lemma done_not_coaccessible : t_nco T = true ↔ ¬ Holds fst CoAccessible.
Proof.
  rewrite (c_flag _ _ _ (inv_co _ _ _ _ HT)). cbn [Holds]. split.
  - intros (s & Hs%done_popped & Hn) Hh. by apply Hn, Hh.
  - intros Hh. destruct (t_nco T) eqn:E; [by apply (c_flag _ _ _ (inv_co _ _ _ _ HT))|].
    destruct Hh. intros s Hs. destruct (t_co T s) eqn:Ec; [by apply done_coaccessible|].
    assert (t_nco T = true) as E'; [|congruence]. apply (c_flag _ _ _ (inv_co _ _ _ _ HT)).
    exists s. split; [by apply done_popped|]. intros Hr%(done_coaccessible s Hs). congruence.
Qed.
End done.
End invariant.
