(* ===== verification/Scc.v ===== *)
(** The class [SccVisitor] (openfst/lib/cc-visitors.h) on its vectors: strongly
connected components, accessible and coaccessible states and the property bits
that follow, in one depth-first visit.  Proved here: it follows the steps of
Tarjan.v, so that a visit of a well-formed machine with a start state computes
all of them; no access to a vector is out of range. *)
From S2P Require Import Prelude Weight FloatWeight Properties SymbolTable Fst VectorFst Mutation.
From S2P Require Import Dfs Tarjan.
Local Open Scope Z_scope.

(** [scc_] and [access_] are [None] for null pointers; without a vector for it
coaccessibility is kept in the visitor all the same.  The top of [scc_stack_]
comes first. *)

(* cc-visitors.h:169-184 SccVisitor *)
Record SccVisitor (W : Type) := MkScc {
  scc_ : option (list Z);
  access_ : option (list bool);
  coaccess_ : list bool;
  props_ : Z;
  fst_ : Fst W;
  start_ : Z;
  nstates_ : Z;
  nscc_ : Z;
  dfnumber_ : list Z;
  lowlink_ : list Z;
  onstack_ : list bool;
  scc_stack_ : list Z;
}.
Arguments MkScc {_} _ _ _ _ _ _ _ _ _ _ _ _.
Arguments scc_ {_} _.
Arguments access_ {_} _.
Arguments coaccess_ {_} _.
Arguments props_ {_} _.
Arguments fst_ {_} _.
Arguments start_ {_} _.
Arguments nstates_ {_} _.
Arguments nscc_ {_} _.
Arguments dfnumber_ {_} _.
Arguments lowlink_ {_} _.
Arguments onstack_ {_} _.
Arguments scc_stack_ {_} _.

(** A store through a pointer that may be null. *)
Definition store {A} (p : option (list A)) (i : Z) (x : A) : option (option (list A)) :=
  match p with None => Some None | Some l => l ← l.[i <- x]; Some (Some l) end.

(** [if (b) l[i] = x;] *)
Definition store_if {A} (b : bool) (l : list A) (i : Z) (x : A) : option (list A) :=
  if b then l.[i <- x] else Some l.

Section scc.
Context `{WeightOps W}.
Implicit Types (v : SccVisitor W) (arc : Arc W).

(* cc-visitors.h:122-126 SccVisitor *)
Definition SccVisitor_new (scc : option (list Z)) (access : option (list bool)) (coaccess : list bool)
    (props : Z) (fst : Fst W) : SccVisitor W :=
  MkScc scc access coaccess props fst kNoStateId 0 0 [] [] [] [].

(* cc-visitors.h:187-206 InitVisit *)
Definition Scc_InitVisit (fst : Fst W) v : SccVisitor W :=
  let props := props_ v ||| (kAcyclic ||| kInitialAcyclic ||| kAccessible ||| kCoAccessible) in
  let props := props &&& u64_not (kCyclic ||| kInitialCyclic ||| kNotAccessible ||| kNotCoAccessible) in
  MkScc ((λ _, []) <$> scc_ v) ((λ _, []) <$> access_ v) [] props fst (Start fst) 0 0 [] [] [] [].

(* cc-visitors.h:211-218 InitState *)
Definition scc_resize v (s : Z) : SccVisitor W :=
  if zlen (dfnumber_ v) <=? s
  then MkScc (vresize (s + 1) (-1) <$> scc_ v) (vresize (s + 1) false <$> access_ v)
         (vresize (s + 1) false (coaccess_ v)) (props_ v) (fst_ v) (start_ v) (nstates_ v) (nscc_ v)
         (vresize (s + 1) (-1) (dfnumber_ v)) (vresize (s + 1) (-1) (lowlink_ v))
         (vresize (s + 1) false (onstack_ v)) (scc_stack_ v)
  else v.

(* cc-visitors.h:209-231 InitState *)
Definition Scc_InitState v (s root : Z) : option (SccVisitor W * bool) :=
  let stack := s :: scc_stack_ v in
  let v := scc_resize v s in
  dfnumber ← (dfnumber_ v).[s <- nstates_ v];
  lowlink ← (lowlink_ v).[s <- nstates_ v];
  onstack ← (onstack_ v).[s <- true];
  access ← store (access_ v) s (root =? start_ v);
  let props := if root =? start_ v then props_ v
               else (props_ v ||| kNotAccessible) &&& u64_not kAccessible in
  Some (MkScc (scc_ v) access (coaccess_ v) props (fst_ v) (start_ v) (nstates_ v + 1) (nscc_ v)
          dfnumber lowlink onstack stack, true).

(* cc-visitors.h:132-132 TreeArc *)
Definition Scc_TreeArc v (s : Z) arc : option (SccVisitor W * bool) := Some (v, true).

(* cc-visitors.h:134-145 BackArc *)
Definition Scc_BackArc v (s : Z) arc : option (SccVisitor W * bool) :=
  let t := nextstate arc in
  dt ← (dfnumber_ v).[t];
  ls ← (lowlink_ v).[s];
  lowlink ← store_if (dt <? ls) (lowlink_ v) s dt;
  ct ← (coaccess_ v).[t];
  coaccess ← store_if ct (coaccess_ v) s true;
  let props := (props_ v ||| kCyclic) &&& u64_not kAcyclic in
  let props := if t =? start_ v then (props ||| kInitialCyclic) &&& u64_not kInitialAcyclic else props in
  Some (MkScc (scc_ v) (access_ v) coaccess props (fst_ v) (start_ v) (nstates_ v) (nscc_ v)
          (dfnumber_ v) lowlink (onstack_ v) (scc_stack_ v), true).

(* cc-visitors.h:147-156 ForwardOrCrossArc *)
Definition Scc_ForwardOrCrossArc v (s : Z) arc : option (SccVisitor W * bool) :=
  let t := nextstate arc in
  dt ← (dfnumber_ v).[t];
  ds ← (dfnumber_ v).[s];
  on ← (onstack_ v).[t];
  ls ← (lowlink_ v).[s];
  lowlink ← store_if ((dt <? ds) && on && (dt <? ls)) (lowlink_ v) s dt;
  ct ← (coaccess_ v).[t];
  coaccess ← store_if ct (coaccess_ v) s true;
  Some (MkScc (scc_ v) (access_ v) coaccess (props_ v) (fst_ v) (start_ v) (nstates_ v) (nscc_ v)
          (dfnumber_ v) lowlink (onstack_ v) (scc_stack_ v), true).

(** Whether a state of the component on top of the stack is coaccessible. *)

(* cc-visitors.h:237-243 FinishState *)
Fixpoint scan_scc (coaccess : list bool) (s : Z) (stack : list Z) (scc_coaccess : bool) : option bool :=
  match stack with
  | [] => None
  | t :: stack =>
      c ← coaccess.[t];
      let scc_coaccess := scc_coaccess || c in
      if s =? t then Some scc_coaccess else scan_scc coaccess s stack scc_coaccess
  end.

(** Taking it off the stack. *)

(* cc-visitors.h:244-250 FinishState *)
Fixpoint pop_scc (s nscc : Z) (scc_coaccess : bool) (stack : list Z)
    (scc : option (list Z)) (coaccess onstack : list bool) :
    option (list Z * option (list Z) * list bool * list bool) :=
  match stack with
  | [] => None
  | t :: stack =>
      scc ← store scc t nscc;
      coaccess ← store_if scc_coaccess coaccess t true;
      onstack ← onstack.[t <- false];
      if s =? t then Some (stack, scc, coaccess, onstack)
      else pop_scc s nscc scc_coaccess stack scc coaccess onstack
  end.

(* cc-visitors.h:236-256 FinishState *)
Definition close_scc v (s : Z) : option (SccVisitor W) :=
  scc_coaccess ← scan_scc (coaccess_ v) s (scc_stack_ v) false;
  '(stack, scc, coaccess, onstack) ←
    pop_scc s (nscc_ v) scc_coaccess (scc_stack_ v) (scc_ v) (coaccess_ v) (onstack_ v);
  let props := if negb scc_coaccess then (props_ v ||| kNotCoAccessible) &&& u64_not kCoAccessible
               else props_ v in
  Some (MkScc scc (access_ v) coaccess props (fst_ v) (start_ v) (nstates_ v) (nscc_ v + 1)
          (dfnumber_ v) (lowlink_ v) onstack stack).

(* cc-visitors.h:234-261 FinishState *)
Definition Scc_FinishState v (s p : Z) (_ : option (Arc W)) : option (SccVisitor W) :=
  coaccess ← store_if (wneqb (Final (fst_ v) s) Zero) (coaccess_ v) s true;
  let v := MkScc (scc_ v) (access_ v) coaccess (props_ v) (fst_ v) (start_ v) (nstates_ v) (nscc_ v)
             (dfnumber_ v) (lowlink_ v) (onstack_ v) (scc_stack_ v) in
  ds ← (dfnumber_ v).[s];
  ls ← (lowlink_ v).[s];
  v ← (if ds =? ls then close_scc v s else Some v);
  if negb (p =? kNoStateId) then
    cs ← (coaccess_ v).[s];
    coaccess ← store_if cs (coaccess_ v) p true;
    ls ← (lowlink_ v).[s];
    lp ← (lowlink_ v).[p];
    lowlink ← store_if (ls <? lp) (lowlink_ v) p ls;
    Some (MkScc (scc_ v) (access_ v) coaccess (props_ v) (fst_ v) (start_ v) (nstates_ v) (nscc_ v)
            (dfnumber_ v) lowlink (onstack_ v) (scc_stack_ v))
  else Some v.

(* cc-visitors.h:160-167 FinishVisit *)
Definition Scc_FinishVisit v : option (SccVisitor W) :=
  Some (MkScc ((λ scc : list Z, (λ s, nscc_ v - 1 - s) <$> scc) <$> scc_ v) (access_ v) (coaccess_ v) (props_ v) (fst_ v)
          (start_ v) (nstates_ v) (nscc_ v) (dfnumber_ v) (lowlink_ v) (onstack_ v) (scc_stack_ v)).

(* cc-visitors.h:110-184 SccVisitor *)
Definition scc_visitor : Visitor W (SccVisitor W) := {|
  InitVisit := Scc_InitVisit;
  InitState := Scc_InitState;
  TreeArc := Scc_TreeArc;
  BackArc := Scc_BackArc;
  ForwardOrCrossArc := Scc_ForwardOrCrossArc;
  FinishState := Scc_FinishState;
  FinishVisit := Scc_FinishVisit;
|}.
End scc.

(** * Vectors that stand for functions *)

Section vectors.
Context {A : Type} (d : A).
Implicit Types (l : list A) (f : Z → A).

(** [l] holds [f] below [n], and [f] is the value of new elements from there on. *)
Definition holds l (n : Z) f : Prop :=
  zlen l = n ∧ ∀ t, 0 ≤ t → if decide (t < n) then l.[t] = Some (f t) else f t = d.

Lemma holds_get l n f t : holds l n f → 0 ≤ t < n → l.[t] = Some (f t).
Proof. intros [_ Hl] Ht. specialize (Hl t ltac:(lia)). by rewrite decide_True in Hl by lia. Qed.

Lemma holds_ext l n f g : holds l n f → (∀ t, 0 ≤ t → f t = g t) → holds l n g.
Proof. intros [Hn Hl] Hfg. split; [done|]. intros t Ht. rewrite <-Hfg by done. by apply Hl. Qed.

Lemma holds_set l n f s x :
  holds l n f → 0 ≤ s < n → ∃ l', l.[s <- x] = Some l' ∧ holds l' n (upd f s x).
Proof.
  intros [Hn Hl] Hs. assert (l.[s <- x] = Some (<[Z.to_nat s := x]> l)) as E by (apply vset_is_Some; lia).
  eexists. split; [exact E|]. split; [by rewrite (vset_len _ _ _ _ E)|].
  intros t Ht. specialize (Hl t Ht). unfold upd. case_decide as Htn.
  - rewrite (vget_vset _ _ _ _ _ E). destruct (decide (t = s)) as [->|].
    + by rewrite decide_True.
    + by rewrite decide_False by done.
  - by rewrite decide_False by lia.
Qed.

Lemma holds_set_if (b : bool) l n f s x :
  holds l n f → 0 ≤ s < n →
  ∃ l', store_if b l s x = Some l' ∧ holds l' n (upd f s (if b then x else f s)).
Proof.
  intros Hl Hs. destruct b; simpl; [by apply holds_set|]. exists l. split; [done|].
  eapply holds_ext; [done|]. intros t _. unfold upd. by case_decide; subst.
Qed.

Lemma holds_nil f : (∀ t, f t = d) → holds [] 0 f.
Proof. intros Hf. split; [done|]. intros t Ht. by rewrite decide_False by lia. Qed.

Lemma holds_resize l n f m : holds l n f → n ≤ m → holds (vresize m d l) m f.
Proof.
  intros [Hn Hl] Hm. pose proof (zlen_nonneg l). split; [unfold vresize, zlen; rewrite length_resize; lia|].
  intros t Ht. specialize (Hl t Ht). destruct (decide (t < m)) as [Htm|Htm].
  - unfold vresize, vget in *. rewrite decide_True by lia. unfold zlen in Hn. destruct (decide (t < n)) as [Htn|Htn].
    + rewrite decide_True in Hl by lia. by rewrite lookup_resize by lia.
    + by rewrite lookup_resize_new, Hl by lia.
  - by rewrite decide_False in Hl by lia.
Qed.

(** A vector behind a pointer that may be null. *)
Definition holds_opt (p : option (list A)) (n : Z) f : Prop :=
  match p with None => True | Some l => holds l n f end.

Lemma holds_store p n f s x :
  holds_opt p n f → 0 ≤ s < n →
  ∃ p', store p s x = Some p' ∧ holds_opt p' n (upd f s x) ∧ (is_Some p' ↔ is_Some p).
Proof.
  destruct p as [l|]; simpl; [|intros _ _; by exists None]. intros Hl Hs.
  destruct (holds_set l n f s x Hl Hs) as (l' & -> & Hl'). exists (Some l'). split; [done|]. split; [done|].
  split; by eexists.
Qed.

Lemma holds_opt_resize p n f m : holds_opt p n f → n ≤ m → holds_opt (vresize m d <$> p) m f.
Proof. destruct p as [l|]; [apply holds_resize|intros; exact I]. Qed.

Lemma holds_opt_ext p n f g : holds_opt p n f → (∀ t, 0 ≤ t → f t = g t) → holds_opt p n g.
Proof. destruct p as [l|]; [apply holds_ext|intros; exact I]. Qed.
End vectors.

(** * The class follows the steps *)

Section refinement.
Context `{WeightEq W}.
Context (fst : Fst W) (Hwf : WellFormed fst).
Context (p0 : Z) (has_scc has_access : bool).
Implicit Types (v : SccVisitor W) (T : tarjan) (B : gset Z) (st : list (Z * Z)).

Definition scc_mask : Z :=
  kCyclic ||| kAcyclic ||| kInitialCyclic ||| kInitialAcyclic ||| kAccessible ||| kNotAccessible |||
  kCoAccessible ||| kNotCoAccessible.

(** A property and its two bits. *)
Definition flag (p : Z) (t : trinary) (b : bool) : Prop :=
  Z.testbit p (pos_bit t) = b ∧ Z.testbit p (neg_bit t) = negb b.

Record flags (p : Z) (cyc icyc nacc nco : bool) : Prop := {
  flag_cyclic : flag p Cyclic cyc;
  flag_initial : flag p InitialCyclic icyc;
  flag_accessible : flag p Accessible (negb nacc);
  flag_coaccessible : flag p CoAccessible (negb nco);
  flag_other : ∀ i, 0 ≤ i < 64 → Z.testbit scc_mask i = false → Z.testbit p i = Z.testbit p0 i;
}.

Record follows v T (n : Z) : Prop := {
  f_len : n ≤ NumStates fst;
  f_scc : holds_opt (-1) (scc_ v) n (t_num T);
  f_scc_ptr : is_Some (scc_ v) ↔ has_scc = true;
  f_access : holds_opt false (access_ v) n (t_acc T);
  f_access_ptr : is_Some (access_ v) ↔ has_access = true;
  f_coaccess : holds false (coaccess_ v) n (t_co T);
  f_df : holds (-1) (dfnumber_ v) n (t_df T);
  f_low : holds (-1) (lowlink_ v) n (t_low T);
  f_onstack : holds false (onstack_ v) n (λ t, bool_decide (t ∈ t_stack T));
  f_stack : scc_stack_ v = t_stack T;
  f_nstates : nstates_ v = t_count T;
  f_nscc : nscc_ v = t_sccs T;
  f_fst : fst_ v = fst;
  f_start : start_ v = Start fst;
  f_flags : flags (props_ v) (t_cyc T) (t_icyc T) (t_nacc T) (t_nco T);
}.

(** The invariant of the visit. *)
Definition scc_rule_inv (root : Z) B st (go : bool) v : Prop :=
  go = true ∧ ∃ T n, tarjan_inv fst root B st T ∧ follows v T n ∧ ∀ t, seen B st t → 0 ≤ t < n.

(** Masks that set and clear flags. *)
#[local] Ltac other_bits Hm :=
  unfold scc_mask in Hm; rewrite !Z.lor_spec in Hm;
  repeat match goal with
  | |- context [Z.testbit (_ ||| _) ?i] => rewrite Z.lor_spec
  | |- context [Z.testbit (_ &&& _) ?i] => rewrite Z.land_spec
  | |- context [Z.testbit (u64_not _) ?i] => rewrite u64_not_spec by done
  end;
  repeat match type of Hm with (_ || _)%bool = false => apply orb_false_iff in Hm as [Hm ?] end;
  repeat match goal with E : Z.testbit _ _ = false |- _ => rewrite E; clear E end;
  rewrite ?orb_false_r, ?andb_true_r.

Lemma flags_init p :
  (∀ i, 0 ≤ i < 64 → Z.testbit p i = Z.testbit p0 i) →
  flags ((p ||| (kAcyclic ||| kInitialAcyclic ||| kAccessible ||| kCoAccessible)) &&&
         u64_not (kCyclic ||| kInitialCyclic ||| kNotAccessible ||| kNotCoAccessible)) false false false false.
Proof.
  intros Hp. split; [split; by bits..|]. intros i Hi Hm. other_bits Hm. simpl. by rewrite orb_false_r, andb_true_r, Hp || rewrite Hp.
Qed.

Lemma flags_cyclic p c i na nc :
  flags p c i na nc → flags ((p ||| kCyclic) &&& u64_not kAcyclic) true i na nc.
Proof.
  intros [[H1 H1'] [H2 H2'] [H3 H3'] [H4 H4'] H5]. split; [split; revert H1 H1' H2 H2' H3 H3' H4 H4'; by bits..|].
  intros k Hk Hm. specialize (H5 k Hk Hm). by other_bits Hm.
Qed.

Lemma flags_initial p c i na nc :
  flags p c i na nc → flags ((p ||| kInitialCyclic) &&& u64_not kInitialAcyclic) c true na nc.
Proof.
  intros [[H1 H1'] [H2 H2'] [H3 H3'] [H4 H4'] H5]. split; [split; revert H1 H1' H2 H2' H3 H3' H4 H4'; by bits..|].
  intros k Hk Hm. specialize (H5 k Hk Hm). by other_bits Hm.
Qed.

Lemma flags_accessible p c i na nc :
  flags p c i na nc → flags ((p ||| kNotAccessible) &&& u64_not kAccessible) c i true nc.
Proof.
  intros [[H1 H1'] [H2 H2'] [H3 H3'] [H4 H4'] H5]. split; [split; revert H1 H1' H2 H2' H3 H3' H4 H4'; by bits..|].
  intros k Hk Hm. specialize (H5 k Hk Hm). by other_bits Hm.
Qed.

Lemma flags_coaccessible p c i na nc :
  flags p c i na nc → flags ((p ||| kNotCoAccessible) &&& u64_not kCoAccessible) c i na true.
Proof.
  intros [[H1 H1'] [H2 H2'] [H3 H3'] [H4 H4'] H5]. split; [split; revert H1 H1' H2 H2' H3 H3' H4 H4'; by bits..|].
  intros k Hk Hm. specialize (H5 k Hk Hm). by other_bits Hm.
Qed.

(** ** The events *)

Lemma resize_follows v T n s :
  follows v T n → valid fst s →
  ∃ m, follows (scc_resize v s) T m ∧ n ≤ m ∧ s < m ∧ scc_stack_ (scc_resize v s) = scc_stack_ v.
Proof.
  intros Hf [Hs1 Hs2]. pose proof Hf as [H1 H2 H3 H4 H5 H6 H7 H8 H9 H10 H11 H12 H13 H14 H15]. unfold scc_resize.
  pose proof (proj1 H7) as Hlen. rewrite Hlen. destruct (Z.leb_spec n s) as [Hle|Hlt]; [|by exists n].
  exists (s + 1). split_and!; [|lia|lia|done].
  split; simpl; try done; try (by apply (holds_resize _ _ n); [|lia]);
    try (by apply (holds_opt_resize _ _ n); [|lia]); [lia|by rewrite fmap_is_Some..].
Qed.

Lemma discover_follows v T n s root :
  follows v T n → valid fst s → s ∉ t_stack T →
  ∃ v' m, Scc_InitState v s root = Some (v', true) ∧
    follows v' (t_discover T s (root =? Start fst)) m ∧ n ≤ m ∧ s < m.
Proof.
  intros Hf Hv Hns. destruct (resize_follows v T n s Hf Hv) as (m & Hf' & Hnm & Hsm & Hst).
  unfold Scc_InitState. set (v1 := scc_resize v s) in *. destruct Hv as [Hs _].
  pose proof Hf' as [H1 H2 H3 H4 H5 H6 H7 H8 H9 H10 H11 H12 H13 H14 H15]. rewrite H11, H14.
  destruct (holds_set _ _ _ _ s (t_count T) H7 (conj Hs Hsm)) as (l1 & -> & Hl1).
  destruct (holds_set _ _ _ _ s (t_count T) H8 (conj Hs Hsm)) as (l2 & -> & Hl2).
  destruct (holds_set _ _ _ _ s true H9 (conj Hs Hsm)) as (l3 & -> & Hl3).
  destruct (holds_store _ _ _ _ s (root =? Start fst) H4 (conj Hs Hsm)) as (p & -> & Hp & Hpp).
  eexists _, m. split; [done|]. split; [|done]. split; simpl; try done.
  - by rewrite Hpp.
  - eapply holds_ext; [exact Hl3|]. intros t _. unfold upd. simpl. case_decide as Ht; [subst t|].
    + symmetry. apply bool_decide_eq_true. left.
    + apply bool_decide_ext. rewrite elem_of_cons. naive_solver.
  - by rewrite <-Hst, H10.
  - rewrite orb_comm. destruct (root =? Start fst); simpl; [done|]. by eapply flags_accessible.
Qed.

(** Coaccessibility is passed on along the arc from [s] to [t]. *)
Lemma pass_coaccess v T n s t :
  follows v T n → 0 ≤ s < n → 0 ≤ t < n →
  ∃ ct co, (coaccess_ v).[t] = Some ct ∧ store_if ct (coaccess_ v) s true = Some co ∧
    holds false co n (upd (t_co T) s (t_co T t || t_co T s)).
Proof.
  intros Hf Hs Ht. exists (t_co T t). pose proof (f_coaccess _ _ _ Hf) as H6.
  destruct (holds_set_if _ (t_co T t) _ _ _ s true H6 Hs) as (co & Hco & Hh). exists co.
  split; [by eapply holds_get|]. split; [done|]. eapply holds_ext; [done|].
  intros u _. unfold upd. case_decide; [|done]. by destruct (t_co T t).
Qed.

Lemma back_follows v T n s a :
  follows v T n → 0 ≤ s < n → 0 ≤ nextstate a < n →
  ∃ v', Scc_BackArc v s a = Some (v', true) ∧
    follows v' (t_back T s (nextstate a) (nextstate a =? Start fst)) n.
Proof.
  intros Hf Hs Ht. pose proof Hf as [H1 H2 H3 H4 H5 H6 H7 H8 H9 H10 H11 H12 H13 H14 H15].
  unfold Scc_BackArc. rewrite (holds_get _ _ _ _ _ H7 Ht), (holds_get _ _ _ _ _ H8 Hs). cbn [mbind option_bind].
  set (t := nextstate a) in *.
  destruct (holds_set_if _ (t_df T t <? t_low T s) _ _ _ s (t_df T t) H8 Hs) as (l & -> & Hl).
  destruct (pass_coaccess v T n s t Hf Hs Ht) as (ct & co & -> & Hco & Hch). cbn [mbind option_bind]. rewrite Hco.
  cbn [mbind option_bind]. rewrite H14. eexists. split; [done|]. split; simpl; try done.
  apply flags_cyclic in H15. destruct (t =? Start fst); rewrite ?orb_true_r, ?orb_false_r; [by eapply flags_initial|done].
Qed.

Lemma cross_follows v T n s a :
  follows v T n → 0 ≤ s < n → 0 ≤ nextstate a < n →
  ∃ v', Scc_ForwardOrCrossArc v s a = Some (v', true) ∧ follows v' (t_cross T s (nextstate a)) n.
Proof.
  intros Hf Hs Ht. pose proof Hf as [H1 H2 H3 H4 H5 H6 H7 H8 H9 H10 H11 H12 H13 H14 H15].
  unfold Scc_ForwardOrCrossArc. set (t := nextstate a) in *.
  rewrite (holds_get _ _ _ _ _ H7 Ht), (holds_get _ _ _ _ _ H7 Hs), (holds_get _ _ _ _ _ H9 Ht),
    (holds_get _ _ _ _ _ H8 Hs). cbn [mbind option_bind].
  set (b := (t_df T t <? t_df T s) && bool_decide (t ∈ t_stack T) && (t_df T t <? t_low T s)).
  destruct (holds_set_if _ b _ _ _ s (t_df T t) H8 Hs) as (l & -> & Hl).
  destruct (pass_coaccess v T n s t Hf Hs Ht) as (ct & co & -> & Hco & Hch). cbn [mbind option_bind]. rewrite Hco.
  eexists. split; [done|]. by split.
Qed.

(** ** Closing a component *)

Lemma scan_scc_ok co n f s l acc :
  holds false co n f → (∀ t, t ∈ l → 0 ≤ t < n) → s ∈ l →
  scan_scc co s l acc = Some (acc || existsb f (split_at s l).1).
Proof.
  intros Hco. revert acc. induction l as [|t l IH]; intros acc Hl Hs; [by apply not_elem_of_nil in Hs|]. simpl.
  rewrite (holds_get _ _ _ _ _ Hco) by (apply Hl; left). simpl. rewrite (Z.eqb_sym t s).
  destruct (Z.eqb_spec s t) as [->|Hne]; simpl; [by rewrite orb_false_r|].
  apply elem_of_cons in Hs as [->|Hs]; [done|]. rewrite IH by (done || (intros; apply Hl; by right)).
  destruct (split_at s l) as [seg rest]. simpl. by rewrite orb_assoc.
Qed.

Lemma pop_scc_ok s k b l scc co on n f g h :
  holds_opt (-1) scc n f → holds false co n g → holds false on n h →
  (∀ t, t ∈ l → 0 ≤ t < n) → s ∈ l →
  ∃ scc' co' on', pop_scc s k b l scc co on = Some ((split_at s l).2, scc', co', on') ∧
    holds_opt (-1) scc' n (λ t, if decide (t ∈ (split_at s l).1) then k else f t) ∧
    (is_Some scc' ↔ is_Some scc) ∧
    holds false co' n (λ t, if decide (t ∈ (split_at s l).1) then b || g t else g t) ∧
    holds false on' n (λ t, if decide (t ∈ (split_at s l).1) then false else h t).
Proof.
  revert scc co on f g h. induction l as [|t l IH]; intros scc co on f g h Hf Hg Hh Hl Hs;
    [by apply not_elem_of_nil in Hs|]. simpl. assert (0 ≤ t < n) as Ht by (apply Hl; left).
  destruct (holds_store _ _ _ _ t k Hf Ht) as (scc1 & -> & Hf1 & Hp1).
  destruct (holds_set_if _ b _ _ _ t true Hg Ht) as (co1 & -> & Hg1).
  destruct (holds_set _ _ _ _ t false Hh Ht) as (on1 & -> & Hh1). simpl. rewrite (Z.eqb_sym t s).
  destruct (Z.eqb_spec s t) as [->|Hne].
  - exists scc1, co1, on1. split; [done|]. split_and!; [|done|..].
    + eapply holds_opt_ext; [done|]. intros u _. unfold upd. apply decide_ext. simpl. by rewrite list_elem_of_singleton.
    + eapply holds_ext; [done|]. intros u _. unfold upd. simpl.
      destruct (decide (u = t)) as [->|]; [rewrite decide_True by left; by destruct b|].
      by rewrite decide_False by by rewrite list_elem_of_singleton.
    + eapply holds_ext; [done|]. intros u _. unfold upd. apply decide_ext. simpl. by rewrite list_elem_of_singleton.
  - apply elem_of_cons in Hs as [->|Hs]; [done|].
    destruct (IH scc1 co1 on1 _ _ _ Hf1 Hg1 Hh1) as (scc2 & co2 & on2 & -> & Hf2 & Hp2 & Hg2 & Hh2);
      [intros; apply Hl; by right|done|].
    destruct (split_at s l) as [seg rest] eqn:E. simpl in *. exists scc2, co2, on2. split; [done|].
    split_and!; [|by rewrite Hp2|..].
    + eapply holds_opt_ext; [done|]. intros u _. unfold upd. simpl. 
      destruct (decide (u ∈ seg)); [by rewrite decide_True by by right|].
      apply decide_ext. rewrite elem_of_cons. naive_solver.
    + eapply holds_ext; [done|]. intros u _. unfold upd. simpl.
      destruct (decide (u = t)) as [->|].
      * rewrite (decide_True (P := t ∈ t :: seg)) by left. destruct (decide (t ∈ seg)), b; simpl; by rewrite ?orb_true_r.
      * apply decide_ext. rewrite elem_of_cons. naive_solver.
    + eapply holds_ext; [done|]. intros u _. unfold upd. simpl.
      destruct (decide (u ∈ seg)); [by rewrite decide_True by by right|].
      apply decide_ext. rewrite elem_of_cons. naive_solver.
Qed.

Lemma close_follows v T n s :
  follows v T n → s ∈ t_stack T → (∀ t, t ∈ t_stack T → 0 ≤ t < n) → NoDup (t_stack T) →
  ∃ v', close_scc v s = Some v' ∧
    follows v' (let '(seg, rest) := split_at s (t_stack T) in t_pop T seg rest) n.
Proof.
  intros Hf Hs Hr Hnd. pose proof Hf as [H1 H2 H3 H4 H5 H6 H7 H8 H9 H10 H11 H12 H13 H14 H15].
  unfold close_scc. rewrite H10, (scan_scc_ok _ n (t_co T)) by done. cbn [mbind option_bind].
  remember (false || existsb (t_co T) (split_at s (t_stack T)).1)%bool as b eqn:Hb.
  destruct (pop_scc_ok s (nscc_ v) b (t_stack T) _ _ _ n _ _ _ H2 H6 H9 Hr Hs)
    as (scc & co & on & -> & Hscc & Hpp & Hco & Hon). cbn [mbind option_bind].
  destruct (split_at_spec s (t_stack T) Hs) as (l1 & l2 & E & Hk). rewrite E in *. cbn [Datatypes.fst Datatypes.snd] in *.
  simpl in Hb. subst b. eexists. split; [done|]. split; simpl; try done.
  - eapply holds_opt_ext; [done|]. intros u _. simpl. by rewrite H12.
  - by rewrite Hpp.
  - eapply holds_ext; [exact Hon|]. intros u _. simpl. rewrite Hk in Hnd |- *.
    apply NoDup_app in Hnd as (_ & Hd & _). case_decide as Hu.
    + symmetry. apply bool_decide_eq_false. by apply Hd.
    + apply bool_decide_ext. rewrite elem_of_app. naive_solver.
  - by rewrite H12.
  - destruct (existsb _ _); simpl; [by rewrite orb_false_r|]. rewrite orb_true_r. by eapply flags_coaccessible.
Qed.

Lemma finish_follows v T n s p a :
  follows v T n → s ∈ t_stack T → (∀ t, t ∈ t_stack T → 0 ≤ t < n) → NoDup (t_stack T) →
  (p = kNoStateId ∨ 0 ≤ p < n) →
  ∃ v', Scc_FinishState v s p a = Some v' ∧
    follows v' (t_finish T s p (wneqb (Final fst s) Zero)) n.
Proof.
  intros Hf Hs Hr Hnd Hp. pose proof Hf as [H1 H2 H3 H4 H5 H6 H7 H8 H9 H10 H11 H12 H13 H14 H15].
  unfold Scc_FinishState. rewrite H13. pose proof (Hr s Hs) as Hsn.
  destruct (holds_set_if _ (wneqb (Final fst s) Zero) _ _ _ s true H6 Hsn) as (co & -> & Hco).
  cbn [mbind option_bind dfnumber_ lowlink_].
  rewrite (holds_get _ _ _ _ _ H7 Hsn), (holds_get _ _ _ _ _ H8 Hsn). cbn [mbind option_bind].
  set (v1 := MkScc _ _ _ _ _ _ _ _ _ _ _ _). set (T1 := t_final T s (wneqb (Final fst s) Zero)).
  assert (follows v1 T1 n) as Hf1.
  { by split. }
  assert (∃ v2, (if t_df T s =? t_low T s then close_scc v1 s else Some v1) = Some v2 ∧
    follows v2 (t_close T1 s) n) as (v2 & -> & Hf2).
  { unfold t_close. simpl. destruct (t_df T s =? t_low T s); [|by exists v1].
    destruct (close_follows v1 T1 n s Hf1 Hs Hr Hnd) as (v2 & ? & ?). by exists v2. }
  cbn [mbind option_bind]. unfold t_finish. fold T1. destruct (Z.eqb_spec p kNoStateId) as [->|Hne]; simpl; [by exists v2|].
  destruct Hp as [?|Hp]; [done|].
  pose proof Hf2 as [G1 G2 G3 G4 G5 G6 G7 G8 G9 G10 G11 G12 G13 G14 G15].
  destruct (pass_coaccess v2 _ n p s Hf2 Hp Hsn) as (cs & co2 & -> & Hcs & Hco2). cbn [mbind option_bind].
  rewrite Hcs. cbn [mbind option_bind].
  rewrite (holds_get _ _ _ _ _ G8 Hsn), (holds_get _ _ _ _ _ G8 Hp). cbn [mbind option_bind].
  destruct (holds_set_if _ (t_low (t_close T1 s) s <? t_low (t_close T1 s) p) _ _ _ p
    (t_low (t_close T1 s) s) G8 Hp) as (l & -> & Hl). cbn [mbind option_bind].
  eexists. split; [done|]. by split.
Qed.

(** * The visit *)

Lemma open_nodup B st T : stack_inv fst B st T → NoDup (t_stack T).
Proof.
  intros HS. pose proof (k_sorted _ _ _ _ HS) as Hs. induction Hs as [|x l _ IH Hx]; constructor; [|done].
  rewrite Forall_forall in Hx. intros Hin%Hx. lia.
Qed.

Notation rule v0 := (visitor_rule fst scc_visitor AnyArcFilter v0 scc_rule_inv).

Lemma start_follows v0 :
  props_ v0 = p0 → (is_Some (scc_ v0) ↔ has_scc = true) → (is_Some (access_ v0) ↔ has_access = true) →
  follows (Scc_InitVisit fst v0) t_init 0.
Proof.
  intros Hp Hs Ha. destruct Hwf as [? _]. split; simpl; try done; try (by apply holds_nil);
    try (by destruct (scc_ v0); [apply holds_nil|]); try (by destruct (access_ v0); [apply holds_nil|]);
    rewrite ?fmap_is_Some; try done. apply flags_init. by rewrite Hp.
Qed.

Lemma scc_rule v0 :
  props_ v0 = p0 → (is_Some (scc_ v0) ↔ has_scc = true) → (is_Some (access_ v0) ↔ has_access = true) →
  rule v0.
Proof.
  intros Hp Hs Ha.
  split.
  - intros Hst. destruct (discover_follows _ _ _ (Start fst) (Start fst) (start_follows v0 Hp Hs Ha) Hst)
      as (v & m & Hv & Hf & _ & Hm); [apply not_elem_of_nil|].
    exists v, true. split; [done|]. split; [done|]. exists (t_discover t_init (Start fst) (Start fst =? Start fst)), m.
    split; [|split; [done|]].
    + apply discover_inv; [apply visit_inv_start|by intros [[]%not_elem_of_empty|?%not_elem_of_nil]|by left|by apply init_inv].
    + intros t [[]%not_elem_of_empty|Ht%list_elem_of_singleton]. subst t. destruct Hst. simpl. lia.
  - intros root r B v Hv (_ & T & n & HT & Hf & Hn) HB Hr HrB.
    assert (¬ seen B [] r) as Hns by by intros [?|?%not_elem_of_nil].
    destruct (discover_follows v T n r r Hf Hr) as (v' & m & Hv' & Hf' & Hnm & Hm).
    { intros Hin. apply Hns. by apply (k_seen _ _ _ _ (inv_stack _ _ _ _ _ HT)). }
    exists v', true. split; [done|]. split; [done|]. exists (t_discover T r (r =? Start fst)), m.
    split; [|split; [done|]].
    + apply discover_inv; [by eapply visit_inv_root|done|by left|by eapply new_root_inv].
    + intros t Ht. apply seen_new in Ht as [->|Ht]; [destruct Hr; lia|specialize (Hn t Ht); lia].
  - intros root B s i rest a v Hv (_ & T & n & HT & Hf & Hn) Ha' _ Hns. exists v, true. split; [done|].
    assert (edge fst s (nextstate a)) as He by by eapply look_edge.
    assert (valid fst (nextstate a)) as Hva by by eapply edge_valid_r.
    destruct (discover_follows v T n (nextstate a) root Hf Hva) as (v' & m & Hv' & Hf' & Hnm & Hm).
    { intros Hin. apply Hns. by apply (k_seen _ _ _ _ (inv_stack _ _ _ _ _ HT)). }
    exists v', true. split; [done|]. split; [done|]. exists (t_discover T (nextstate a) (root =? Start fst)), m.
    split; [|split; [done|]].
    + apply discover_inv; [done|done| |done]. right. by exists s, i, rest.
    + intros t Ht. apply seen_new in Ht as [->|Ht]; [destruct Hva; lia|specialize (Hn t Ht); lia].
  - intros root B s i rest a v Hv (_ & T & n & HT & Hf & Hn) Ha' _ Hin.
    destruct (back_follows v T n s a Hf) as (v' & Hv' & Hf'); [apply Hn; right; left|apply Hn; by right|].
    exists v', true. split; [done|]. split; [done|]. eexists _, n. split; [by apply back_inv|]. split; [done|]. apply Hn.
  - intros root B s i rest a v Hv (_ & T & n & HT & Hf & Hn) Ha' _ Hin.
    destruct (cross_follows v T n s a Hf) as (v' & Hv' & Hf'); [apply Hn; right; left|apply Hn; by left|].
    exists v', true. split; [done|]. split; [done|]. eexists _, n. split; [by apply cross_inv|]. split; [done|]. apply Hn.
  - done.
  - intros root B s i rest go v Hv (-> & T & n & HT & Hf & Hn) Hend.
    pose proof (inv_stack _ _ _ _ _ HT) as HS.
    destruct (finish_follows v T n s (parent_of rest) (parent_arc fst rest) Hf) as (v' & Hv' & Hf').
    + by apply (top_open fst root B s i rest T HT).
    + intros t Ht. by apply Hn, (k_seen _ _ _ _ HS).
    + by eapply open_nodup.
    + destruct rest as [|[p j] r]; [by left|right]. apply Hn. right. right. left.
    + exists v'. split; [done|]. split; [done|]. eexists _, n. split; [apply (finish_inv fst Hwf root B s i rest T (wneqb (Final fst s) Zero) Hv (Hend eq_refl) HT)|].
      * unfold is_final. rewrite negb_true_iff. destruct (inv_stack_valid _ _ _ _ _ _ Hv s i) as [? _]; [left|]. naive_solver.
      * split; [done|]. intros t Ht. apply Hn. rewrite next_arc_seen in Ht. by apply (finish_seen fst Hwf root B s i rest Hv (Hend eq_refl)).
Qed.
End refinement.

(** * Results *)

Section results.
Context `{WeightEq W}.
Implicit Types (f : Fst W).

(** The vectors that a visit of [f] leaves, and the bits it computed from [p0]. *)
Record scc_result f (p0 : Z) (v : SccVisitor W) : Prop := {
  result_scc : ∀ scc, scc_ v = Some scc →
    zlen scc = NumStates f ∧
    (∀ s t x y, scc.[s] = Some x → scc.[t] = Some y → x = y ↔ rtc (edge f) s t ∧ rtc (edge f) t s) ∧
    (∀ s t x y, edge f s t → scc.[s] = Some x → scc.[t] = Some y → x ≤ y) ∧
    (∀ s x, scc.[s] = Some x → 0 ≤ x < nscc_ v) ∧
    (∀ x, 0 ≤ x < nscc_ v → ∃ s, scc.[s] = Some x);
  result_access : ∀ access, access_ v = Some access →
    zlen access = NumStates f ∧ ∀ s b, access.[s] = Some b → b = true ↔ rtc (edge f) (Start f) s;
  result_coaccess : zlen (coaccess_ v) = NumStates f ∧
    ∀ s b, (coaccess_ v).[s] = Some b → b = true ↔ coaccessible f s;
  result_bits : ∀ t, t ∈ [Cyclic; InitialCyclic; Accessible; CoAccessible] →
    (Z.testbit (props_ v) (pos_bit t) = true ↔ Holds f t) ∧
    (Z.testbit (props_ v) (neg_bit t) = true ↔ ¬ Holds f t);
  result_other : ∀ i, 0 ≤ i < 64 → Z.testbit scc_mask i = false →
    Z.testbit (props_ v) i = Z.testbit p0 i;
}.

Lemma flag_iff p t b (P : Prop) :
  flag p t b → (b = true ↔ P) →
  (Z.testbit p (pos_bit t) = true ↔ P) ∧ (Z.testbit p (neg_bit t) = true ↔ ¬ P).
Proof. intros [-> ->] HP. split; [done|]. rewrite negb_true_iff, <-HP. by destruct b. Qed.

Lemma not_flag_iff p t b (P : Prop) :
  flag p t (negb b) → Decision P → (b = true ↔ ¬ P) →
  (Z.testbit p (pos_bit t) = true ↔ P) ∧ (Z.testbit p (neg_bit t) = true ↔ ¬ P).
Proof.
  intros [-> ->] HD HP. rewrite negb_involutive, HP, negb_true_iff. split; [|done].
  destruct b; [|]; destruct (decide P); naive_solver.
Qed.

(** Everything a finished visit knows. *)
Lemma scc_done f p0 hs ha B root v v' :
  WellFormed f → scc_rule_inv f p0 hs ha root B [] true v → (∀ s, s ∈ B → valid f s) →
  (∀ s, valid f s → s ∈ B) → Scc_FinishVisit v = Some v' → scc_result f p0 v'.
Proof.
  intros Hwf (_ & T & n & HT & Hf & Hn) HBv HvB [= <-].
  pose proof Hf as [H1 H2 H3 H4 H5 H6 H7 H8 H9 H10 H11 H12 H13 H14 H15].
  assert (n = NumStates f) as ->.
  { destruct Hwf as [? _]. destruct (decide (NumStates f = 0)) as [E|E].
    - pose proof (proj1 H7). pose proof (zlen_nonneg (dfnumber_ v)). lia.
    - destruct (Hn (NumStates f - 1)); [left; apply HvB; unfold valid; lia|lia]. }
  assert (∀ {A} (d : A) l g s x, holds d l (NumStates f) g → l.[s] = Some x → valid f s ∧ x = g s) as Hget.
  { intros A d l g s x Hh Hs. pose proof (vget_range _ _ _ Hs) as Hr. rewrite (proj1 Hh) in Hr.
    split; [done|]. rewrite (holds_get _ _ _ _ _ Hh Hr) in Hs. by injection Hs. }
  pose proof (inv_scc _ _ _ _ _ HT) as HP.
  split; simpl.
  - intros scc Hscc. destruct (scc_ v) as [l|]; [|done]. injection Hscc as <-.
    assert (∀ s x, ((λ s, nscc_ v - 1 - s) <$> l).[s] = Some x → valid f s ∧ x = t_sccs T - 1 - t_num T s) as Hl.
    { intros s x Hs. rewrite vget_fmap in Hs. destruct (l.[s]) as [y|] eqn:Hy; [|done]. injection Hs as <-.
      destruct (Hget _ _ _ _ _ _ H2 Hy) as [? ->]. by rewrite H12. }
    split_and!.
    + rewrite zlen_fmap. apply H2.
    + intros s t x y [Hs ->]%Hl [Ht ->]%Hl. rewrite <-(done_components f root B T HT HvB HBv s t Hs Ht). lia.
    + intros s t x y He [Hs ->]%Hl [Ht ->]%Hl.
      pose proof (p_topo _ _ _ _ HP s t (proj2 (done_popped f root B T HT HvB HBv s) Hs) He). lia.
    + intros s x [Hs ->]%Hl. rewrite H12.
      pose proof (p_range _ _ _ _ HP s (proj2 (done_popped f root B T HT HvB HBv s) Hs)). lia.
    + intros x Hx. rewrite H12 in Hx. destruct (p_onto _ _ _ _ HP (t_sccs T - 1 - x)) as (s & Hs & Hx'); [lia|].
      apply (done_popped f root B T HT HvB HBv) in Hs. exists s. rewrite vget_fmap, (holds_get _ _ _ _ _ H2 Hs).
      simpl. f_equal. rewrite H12. lia.
  - intros access Ha. rewrite Ha in H4. split; [apply H4|]. intros s b Hs.
    destruct (Hget _ _ _ _ _ _ H4 Hs) as [Hv ->]. by eapply done_accessible.
  - split; [apply H6|]. intros s b Hs. destruct (Hget _ _ _ _ _ _ H6 Hs) as [Hv ->]. by eapply done_coaccessible.
  - destruct H15 as [F1 F2 F3 F4 _]. intros t Ht. repeat (apply elem_of_cons in Ht as [->|Ht]); [..|by apply not_elem_of_nil in Ht].
    + eapply flag_iff; [done|]. by eapply done_cyclic.
    + eapply flag_iff; [done|]. by eapply done_initial_cyclic.
    + pose proof (done_not_accessible f root B T HT HvB HBv) as Hna. eapply not_flag_iff; [done| |done].
      destruct (t_nacc T) eqn:E; [right; by apply Hna|left].
      intros s Hs. destruct (t_acc T s) eqn:Ea; [by eapply done_accessible|].
      assert (false = true); [|done]. apply Hna. intros Hh.
      pose proof (proj2 (done_accessible f root B T HT HvB s Hs) (Hh s Hs)). congruence.
    + pose proof (done_not_coaccessible f root B T HT HvB HBv) as Hna. eapply not_flag_iff; [done| |done].
      destruct (t_nco T) eqn:E; [right; by apply Hna|left].
      intros s Hs. destruct (t_co T s) eqn:Ea; [by eapply done_coaccessible|].
      assert (false = true); [|done]. apply Hna. intros Hh.
      pose proof (proj2 (done_coaccessible f root B T HT HvB HBv s Hs) (Hh s Hs)). congruence.
  - apply H15.
Qed.
End results.

Section correctness.
Context `{WeightEq W}.
Implicit Types (f : Fst W).

(** A visit ends and computes [scc_result], in the vectors it was given. *)
Lemma scc_visit f known scc access coaccess p0 g :
  WellFormed f → valid f (Start f) → known_states f known →
  ∃ v, DfsVisit f scc_visitor AnyArcFilter known false (SccVisitor_new scc access coaccess p0 g) = Some v ∧
    scc_result f p0 v ∧ (is_Some (scc_ v) ↔ is_Some scc) ∧ (is_Some (access_ v) ↔ is_Some access).
Proof.
  intros Hwf Hst Hk.
  set (v0 := SccVisitor_new scc access coaccess p0 g).
  pose (hs := bool_decide (is_Some scc)). pose (ha := bool_decide (is_Some access)).
  assert (is_Some scc ↔ hs = true) as Hs by (symmetry; apply bool_decide_eq_true).
  assert (is_Some access ↔ ha = true) as Ha by (symmetry; apply bool_decide_eq_true).
  pose proof (scc_rule f Hwf p0 hs ha v0 eq_refl Hs Ha) as R.
  destruct (DfsVisit_ok f scc_visitor AnyArcFilter v0 _ R Hwf Hst known false Hk)
    as (v & root & B & go & -> & Hi & HI & _ & _ & Hall).
  pose proof HI as (-> & T & n & _ & Hf & _).
  eexists. split; [done|]. split_and!.
  - eapply scc_done; [done|exact HI|apply Hi|by apply Hall|done].
  - simpl. rewrite fmap_is_Some, Hs. apply Hf.
  - simpl. rewrite Ha. apply Hf.
Qed.

(** C22: On a well-formed machine with a start state a depth-first visit with a
[SccVisitor] ends without an access out of range, whatever was in its vectors.
Two states have the same number in [scc] exactly if each reaches the other; the
numbers are those below [nscc], each of them used, and no arc leads to a lower
one, so that they order the components topologically.  [access] holds the states
the start reaches, [coaccess] those that reach a final state, and the bits of
[props] for cyclicity (also through the start), accessibility and
coaccessibility are all known and true, while the others stay. *)
Theorem SccVisitor_correct f known scc access coaccess p0 g :
  WellFormed f → valid f (Start f) → known_states f known →
  ∃ v, DfsVisit f scc_visitor AnyArcFilter known false
         (SccVisitor_new (Some scc) (Some access) coaccess p0 g) = Some v ∧
    scc_result f p0 v ∧ is_Some (scc_ v) ∧ is_Some (access_ v).
Proof.
  intros Hwf Hst Hk.
  destruct (scc_visit f known (Some scc) (Some access) coaccess p0 g Hwf Hst Hk) as (v & ? & ? & Hs & Ha).
  exists v. rewrite Hs, Ha. split_and!; eauto.
Qed.
End correctness.

(** * A witness *)

Section witnesses.
Local Notation M := MinMaxWeight.

(** [0 -> 1 <-> 2 -> 3], state 2 final. *)
Definition loop_fst : Fst M := {|
  Start := 0; NumStates := 4;
  Final := λ s, if s =? 2 then One else Zero;
  Arcs := λ s, match s with
    | 0 => [MkArc 1 1 One 1]
    | 1 => [MkArc 2 0 One 2]
    | 2 => [MkArc 0 3 One 1; MkArc 4 4 One 3]
    | _ => [] end;
  FstProperties := kExpanded; InputSymbols := None; OutputSymbols := None |}.

Lemma loop_fst_wf : WellFormed loop_fst.
Proof.
  split; [simpl; lia|]. split; [|by right].
  intros s a Hs Ha. assert (s = 0 ∨ s = 1 ∨ s = 2 ∨ s = 3) as Hc by (unfold valid in Hs; simpl in Hs; lia).
  destruct Hc as [->|[->|[->| ->]]]; simpl in Ha; set_unfold; unfold valid; simpl;
    destruct_or?; subst; simpl; lia.
Qed.

Lemma SccVisitor_correct_witness :
  ∃ v, DfsVisit loop_fst scc_visitor AnyArcFilter (Some 4) false
         (SccVisitor_new (Some [7]) (Some []) [true] kFstProperties loop_fst) = Some v ∧
    scc_result loop_fst kFstProperties v ∧ is_Some (scc_ v) ∧ is_Some (access_ v).
Proof.
  apply (SccVisitor_correct loop_fst (Some 4) [7] [] [true] kFstProperties loop_fst);
    [apply loop_fst_wf|by split|by left].
Defined.

Example loop_fst_scc :
  (v ← DfsVisit loop_fst scc_visitor AnyArcFilter (Some 4) false
         (SccVisitor_new (Some [7]) (Some []) [true] 0 loop_fst);
   Some (scc_ v, access_ v, coaccess_ v, has (props_ v) kCyclic, has (props_ v) kNotCoAccessible)) =
  Some (Some [0; 1; 1; 2], Some [true; true; true; true], [true; true; true; false], true, true).
Proof. by vm_compute. Qed.
End witnesses.
