(* ===== verification/Renumber.v ===== *)
(** Machines with some of the states of another, renumbered
([abs_keep_states f kept], where [kept] lists the old number of each new state):
their edges, reachability, paths and accepted strings.  [DeleteStates] leaves
such a machine with the states in their order, [StateSort] one with all of them
in a new order. *)
From S2P Require Import Prelude Weight Properties SymbolTable Fst VectorFst Mutation.
Local Open Scope Z_scope.

(** Arcs with the same labels and weight. *)
Section labels.
Context `{WeightOps W}.
Implicit Types (a b : Arc W) (p q : list (Arc W)).

Definition same_labels a b : Prop :=
  ilabel a = ilabel b ∧ olabel a = olabel b ∧ weight a = weight b.

Lemma same_labels_next t a : same_labels (set_nextstate t a) a.
Proof. done. Qed.

Lemma same_labels_strings p q :
  Forall2 same_labels p q →
  istring p = istring q ∧ ostring p = ostring q ∧ ∀ w, path_weight p w = path_weight q w.
Proof.
  unfold istring, ostring. intros Hpq. assert (ilabel <$> p = ilabel <$> q ∧ olabel <$> p = olabel <$> q ∧
    ∀ w, path_weight p w = path_weight q w) as (-> & -> & ?); [|done].
  induction Hpq as [|a b p q (Hi & Ho & Hw) _ (IHi & IHo & IHw)]; [done|]. csimpl.
  split_and!; [by f_equal..|]. intros w. by rewrite Hw, IHw.
Qed.
End labels.

Section renumber.
Context `{WeightOps W}.
Context (f : Fst W) (kept : list Z) (Hnd : NoDup kept) (Hvalid : Forall (valid f) kept).
Notation g := (abs_keep_states f kept).

Lemma kept_valid i s : kept.[i] = Some s → valid f s ∧ valid g i.
Proof using Hvalid.
  intros Hs. split; [|by eapply vget_range].
  eapply (Forall_forall (valid f) kept); [done|by eapply vget_elem_of].
Qed.

Lemma kept_inj i j s : kept.[i] = Some s → kept.[j] = Some s → i = j.
Proof using Hnd.
  intros Hi%(index_of_Some _ _ _ Hnd) Hj%(index_of_Some _ _ _ Hnd). congruence.
Qed.

Lemma kept_arcs i s : kept.[i] = Some s → Arcs g i = omap (renumber_arc kept) (Arcs f s).
Proof using. intros Hs. simpl. by rewrite Hs. Qed.

Lemma kept_final i s : kept.[i] = Some s → Final g i = Final f s.
Proof using. intros Hs. simpl. by rewrite Hs. Qed.

Lemma kept_is_final i s : kept.[i] = Some s → is_final g i ↔ is_final f s.
Proof using Hvalid.
  intros Hs. unfold is_final. rewrite (kept_final i s Hs). destruct (kept_valid i s Hs). naive_solver.
Qed.

Lemma keep_arc i j s a :
  kept.[i] = Some s → a ∈ Arcs f s → kept.[j] = Some (nextstate a) →
  set_nextstate j a ∈ Arcs g i.
Proof using Hnd.
  intros Hs Ha Hj. rewrite (kept_arcs i s Hs). apply list_elem_of_omap. exists a. split; [done|].
  unfold renumber_arc. by rewrite (proj2 (index_of_Some _ _ _ Hnd) Hj).
Qed.

Lemma keep_edge_iff i j s t : kept.[i] = Some s → kept.[j] = Some t → edge g i j ↔ edge f s t.
Proof using Hnd Hvalid.
  intros Hs Ht. split.
  - intros (s' & t' & ? & ? & ?)%(keep_edge f kept Hnd Hvalid). by simplify_eq.
  - intros (Hv & a & Ha & <-). split; [by eapply kept_valid|].
    exists (set_nextstate j a). split; [by eapply keep_arc|done].
Qed.

Lemma keep_rtc_lift i s t :
  rtc (edge f) s t → (∀ u, rtc (edge f) s u → rtc (edge f) u t → u ∈ kept) →
  kept.[i] = Some s → ∃ j, kept.[j] = Some t ∧ rtc (edge g) i j.
Proof using Hnd Hvalid.
  intros Hr. revert i. induction Hr as [s|s u t He Hr IH]; intros i Hk Hs; [by exists i|].
  destruct (elem_of_vget kept u) as [j Hj]; [apply Hk; [by apply rtc_once|done]|].
  destruct (IH j) as (k & ? & ?); [|done|].
  - intros v ? ?. apply Hk; [by eapply rtc_l|done].
  - exists k. split; [done|]. eapply rtc_l; [|done]. by eapply keep_edge_iff.
Qed.

(** Paths of the new machine, and the paths of the old one that stay. *)
Lemma keep_path_inv i q j :
  path g i q j → ∃ s t p, kept.[i] = Some s ∧ kept.[j] = Some t ∧ path f s p t ∧ Forall2 same_labels q p.
Proof using Hnd Hvalid.
  induction 1 as [i Hi|i b q j Hi Hb _ (s & t & p & Hs & Ht & Hp & Hq)].
  - destruct (kept_state f kept Hvalid i Hi) as (s & Hs & ?). exists s, s, []. split_and!; [done..|by constructor|constructor].
  - destruct (keep_arc_in f kept Hnd Hvalid i b (conj Hi Hb)) as (s' & a & Hs' & [? ?] & Hn & ->).
    simplify_eq. exists s', t, (a :: p). split_and!; [done..|by constructor|].
    constructor; [apply same_labels_next|done].
Qed.

Lemma keep_path s p t i :
  path f s p t → (∀ u, rtc (edge f) s u → rtc (edge f) u t → u ∈ kept) → kept.[i] = Some s →
  ∃ j q, kept.[j] = Some t ∧ path g i q j ∧ Forall2 same_labels q p.
Proof using Hnd Hvalid.
  intros Hp. revert i. induction Hp as [s Hv|s a p t Hv Ha Hp IH]; intros i Hk Hs.
  - exists i, []. split_and!; [done|constructor; by eapply kept_valid|constructor].
  - assert (edge f s (nextstate a)) as He by (split; [done|by exists a]).
    destruct (elem_of_vget kept (nextstate a)) as [k Hk'].
    { apply Hk; [by apply rtc_once|by eapply path_rtc]. }
    destruct (IH k) as (j & q & Hj & Hq & Hl); [|done|].
    { intros v ? ?. apply Hk; [by eapply rtc_l|done]. }
    exists j, (set_nextstate k a :: q). split; [done|]. split.
    + econstructor; [by eapply kept_valid|by eapply keep_arc|done].
    + constructor; [apply same_labels_next|done].
Qed.

(** When every state on a successful path stays, so does every accepted pair. *)
Lemma keep_accepts x y w :
  (∀ s, rtc (edge f) (Start f) s → coaccessible f s → s ∈ kept) →
  accepts g x y w ↔ accepts f x y w.
Proof using Hnd Hvalid.
  intros Huse. split.
  - intros (q & j & Hq & Hf & <- & <- & Hw).
    destruct (keep_path_inv _ q j Hq) as (s & t & p & Hs & Ht & Hp & Hl).
    destruct (same_labels_strings q p Hl) as (-> & -> & Hpw).
    assert (s = Start f) as ->.
    { simpl in Hs. destruct (index_of kept (Start f)) as [i|] eqn:Hi; [|done]. simpl in Hs.
      apply index_of_Some in Hi; [|done]. congruence. }
    exists p, t. rewrite <-Hpw, <-(kept_final j t Ht). split_and!; [done| |done..].
    by apply (kept_is_final j t Ht).
  - intros (p & t & Hp & Hf & <- & <- & Hw).
    assert (∀ u, rtc (edge f) (Start f) u → rtc (edge f) u t → u ∈ kept) as Hk.
    { intros u Hu Hut. apply Huse; [done|by exists t]. }
    destruct (elem_of_vget kept (Start f)) as [i Hi]; [apply Hk; [done|by eapply path_rtc]|].
    destruct (keep_path _ p t i Hp Hk Hi) as (j & q & Hj & Hq & Hl).
    destruct (same_labels_strings q p Hl) as (<- & <- & Hpw).
    exists q, j. rewrite Hpw, (kept_final j t Hj). split_and!; [|by apply (kept_is_final j t Hj)|done..].
    simpl. by rewrite (proj2 (index_of_Some _ _ _ Hnd) Hi).
Qed.

(** A machine with the states on successful paths only is trim. *)
Lemma keep_trim :
  (∀ s, s ∈ kept ↔ rtc (edge f) (Start f) s ∧ coaccessible f s) →
  Holds g Accessible ∧ Holds g CoAccessible.
Proof using Hnd Hvalid.
  intros Huse. split; intros i Hi; destruct (kept_state f kept Hvalid i Hi) as (s & Hs & Hv);
    destruct (proj1 (Huse s) (vget_elem_of _ _ _ Hs)) as (Hr & t & Hrt & Hf).
  - assert (∀ u, rtc (edge f) (Start f) u → rtc (edge f) u s → u ∈ kept) as Hk.
    { intros u Hu Hus. apply Huse. split; [done|]. exists t. split; [by etrans|done]. }
    destruct (elem_of_vget kept (Start f)) as [j Hj]; [by apply Hk|].
    destruct (keep_rtc_lift j (Start f) s Hr Hk Hj) as (i' & Hi' & Hr').
    rewrite (kept_inj i i' s) by done. simpl.
    by rewrite (proj2 (index_of_Some _ _ _ Hnd) Hj).
  - destruct (keep_rtc_lift i s t Hrt) as (j & Hj & Hr'); [|done|].
    + intros u Hu Hut. apply Huse. split; [by etrans|]. by exists t.
    + exists j. split; [done|]. by apply (kept_is_final j t).
Qed.
End renumber.

(** Keeping all states. *)
Lemma keep_all `{WeightOps W} (f : Fst W) :
  tight f → WellFormed f → abs_keep_states f (seqZ 0 (NumStates f)) ≡ f.
Proof.
  intros Ht (Hn & Ha & Hs).
  assert (∀ s, valid f s → (seqZ 0 (NumStates f)).[s] = Some s) as Hget.
  { intros s [Hs1 Hs2]. apply vget_Some. split; [done|]. apply lookup_seqZ. lia. }
  assert (∀ s, ¬ valid f s → (seqZ 0 (NumStates f)).[s] = None) as Hout.
  { intros s Hv. apply vget_None. rewrite zlen_seqZ. unfold valid in Hv. lia. }
  pose proof (NoDup_seqZ 0 (NumStates f)) as Hnd.
  split_and!; simpl.
  - destruct Hs as [Hs|Hs]; [|by rewrite (proj2 (index_of_Some _ _ _ Hnd) (Hget _ Hs))].
    rewrite (proj2 (index_of_None _ _)); [done|]. rewrite Hs, elem_of_seqZ. unfold kNoStateId. lia.
  - rewrite zlen_seqZ. lia.
  - intros s. destruct (decide (0 ≤ s < NumStates f)) as [Hv|Hv]; [by rewrite (Hget s Hv)|].
    rewrite (Hout s Hv). simpl. by destruct (Ht s Hv) as [-> _].
  - intros s. destruct (decide (0 ≤ s < NumStates f)) as [Hv|Hv].
    + rewrite (Hget s Hv). simpl. specialize (Ha s). revert Ha.
      induction (Arcs f s) as [|a l IH]; intros Ha; [done|]. simpl. unfold renumber_arc at 1.
      rewrite (proj2 (index_of_Some _ _ _ Hnd) (Hget _ (Ha a Hv ltac:(left)))). simpl. f_equal; [by destruct a|].
      apply IH. intros b _ Hb. apply Ha; [done|by right].
    + rewrite (Hout s Hv). simpl. by destruct (Ht s Hv) as [_ ->].
Qed.
