(* ===== verification/Connect.v ===== *)
(** Trimming (openfst/lib/connect.h): [Connect] takes away the states that are
on no successful path.  Proved here: it does, the machine that is left accepts
what it accepted and its property bits are true; and what happens to a machine
with states but without a start. *)
From S2P Require Import Prelude Weight FloatWeight Properties SymbolTable Fst VectorFst Mutation VectorSound.
From S2P Require Import MutableFst Rational RationalLang RationalSpec Dfs Tarjan Scc Renumber.
From Stdlib Require Import Sorting.Sorted.
Local Open Scope Z_scope.

(** The states from [s] on that are not both accessible and coaccessible. *)

(* connect.h:52-56 Connect *)
Fixpoint dead_states (access coaccess : list bool) (s : Z) : option (list Z) :=
  match access with
  | [] => Some []
  | a :: access =>
      useful ← (if a then coaccess.[s] else Some false);
      dstates ← dead_states access coaccess (s + 1);
      Some (if negb useful then s :: dstates else dstates)
  end.

(* connect.h:45-59 Connect *)
Definition Connect `{MutableFst W F} (fst : F) : option F :=
  v ← DfsVisit (view fst) scc_visitor AnyArcFilter (Some (NumStates (view fst))) false
        (SccVisitor_new None (Some []) [] 0 (view fst));
  access ← access_ v;
  dstates ← dead_states access (coaccess_ v) 0;
  fst ← mDeleteStates fst dstates;
  Some (mSetProperties fst (kAccessible ||| kCoAccessible) (kAccessible ||| kCoAccessible)).

Lemma dead_states_spec access coaccess s :
  zlen coaccess = s + zlen access → 0 ≤ s →
  ∃ l, dead_states access coaccess s = Some l ∧
    ∀ t, t ∈ l ↔ s ≤ t < s + zlen access ∧ ¬ (access.[t - s] = Some true ∧ coaccess.[t] = Some true).
Proof.
  revert s. induction access as [|a access IH]; intros s Hn Hs.
  - exists []. split; [done|]. intros t. rewrite elem_of_nil, zlen_nil. lia.
  - rewrite zlen_cons in *. destruct (IH (s + 1)) as (l & Hl & Hin); [lia..|].
    destruct (vget_in_range coaccess s) as [c Hc]; [pose proof (zlen_nonneg access); lia|].
    simpl. rewrite Hc, Hl. exists (if negb (a && c) then s :: l else l).
    split; [by destruct a, c|]. intros t.
    assert (t ∈ (if negb (a && c) then s :: l else l) ↔ (t = s ∧ a && c = false) ∨ t ∈ l) as ->.
    { destruct a, c; simpl; rewrite ?elem_of_cons; naive_solver. }
    rewrite Hin. destruct (decide (t = s)) as [->|Hne].
    + rewrite Z.sub_diag, Hc. change ((a :: access).[0]) with (Some a).
      pose proof (zlen_nonneg access). destruct a, c; simpl; naive_solver lia.
    + destruct (decide (s < t)) as [Hlt|]; [|naive_solver lia].
      assert ((a :: access).[t - s] = access.[t - (s + 1)]) as ->.
      { replace (t - s) with (Z.succ (t - (s + 1))) by lia. unfold vget.
        rewrite !decide_True by lia. by rewrite Z2Nat.inj_succ by lia. }
      naive_solver lia.
Qed.

Section correct.
Context `{TM : TimesMonoid W} {F : Type} `{!MutableFst W F} `{!MutableFstLaws W F}.
Implicit Types (x y : F) (f g : Fst W).

(** Deleting states, also none. *)
Lemma mDeleteStates_keep x ds :
  minv x → WellFormed (view x) → Forall (valid (view x)) ds →
  ∃ y, mDeleteStates x ds = Some y ∧ evolves x y (abs_keep_states (view x) (kept_states (NumStates (view x)) ds)).
Proof.
  intros Hx Hwf Hds. destruct (mDeleteStates_steps x ds Hx Hwf Hds) as (y & Hy & Hi & Hs).
  exists y. split; [done|]. eapply evolves_equiv; [by split|]. destruct ds as [|d ds]; [|done].
  simpl. rewrite <-(keep_all (view x) (view_tight x) Hwf) at 1. unfold kept_states.
  by rewrite filter_all by (intros s _; apply not_elem_of_nil).
Qed.

(** Raising two bits that are true. *)
Lemma trim_bits_sound p g :
  Sound p g → Holds g Accessible → Holds g CoAccessible →
  Sound ((p &&& (u64_not (kAccessible ||| kCoAccessible) ||| kError)) |||
         ((kAccessible ||| kCoAccessible) &&& (kAccessible ||| kCoAccessible))) g.
Proof.
  intros Hp Ha Hc t. specialize (Hp t). revert Hp.
  destruct t; bits; rewrite ?andb_true_r, ?orb_false_r, ?andb_false_r; naive_solver.
Qed.

(** The states [Connect] deletes. *)
Lemma connect_dead x :
  WellFormed (view x) → (Start (view x) = kNoStateId → NumStates (view x) = 0) →
  ∃ v access ds, DfsVisit (view x) scc_visitor AnyArcFilter (Some (NumStates (view x))) false
      (SccVisitor_new None (Some []) [] 0 (view x)) = Some v ∧ access_ v = Some access ∧
    dead_states access (coaccess_ v) 0 = Some ds ∧
    Forall (valid (view x)) ds ∧
    ∀ s, valid (view x) s → s ∉ ds ↔ rtc (edge (view x)) (Start (view x)) s ∧ coaccessible (view x) s.
Proof.
  intros Hwf Hst. destruct (decide (Start (view x) = kNoStateId)) as [Hno|Hv].
  - unfold DfsVisit. cbn [InitVisit scc_visitor]. rewrite Hno. simpl. eexists _, [], [].
    split_and!; [done..|]. intros s. unfold valid. rewrite (Hst Hno). lia.
  - assert (valid (view x) (Start (view x))) as Hs by by destruct Hwf as (_ & _ & [?|?]).
    destruct (scc_visit (view x) (Some (NumStates (view x))) None (Some []) [] 0 (view x) Hwf Hs)
      as (v & Hr & [_ Hacc [Hcl Hco] _ _] & _ & Ha); [by left|].
    destruct (proj2 Ha ltac:(eauto)) as [access Haccess]. destruct (Hacc access Haccess) as [Hal Hav].
    destruct (dead_states_spec access (coaccess_ v) 0) as (ds & Hds & Hin); [lia..|].
    exists v, access, ds. split_and!; [done..| |].
    + apply Forall_forall. intros s [Hs' _]%Hin. unfold valid. lia.
    + intros s Hs'. rewrite Hin, Z.sub_0_r, Z.add_0_l, Hal. unfold valid in Hs'.
      destruct (vget_in_range access s) as [b Hb]; [lia|]. destruct (vget_in_range (coaccess_ v) s) as [c Hc]; [lia|].
      rewrite Hb, Hc, <-(Hav s b Hb), <-(Hco s c Hc). destruct b, c; naive_solver.
Qed.

Lemma Connect_holds x :
  minv x → WellFormed (view x) → SoundFst (view x) →
  (Start (view x) = kNoStateId → NumStates (view x) = 0) →
  ∃ y kept, Connect x = Some y ∧
    leaves y (has (FstProperties (view x)) kError) (accepts (view x)) ∧
    StronglySorted Z.lt kept ∧
    (∀ s, s ∈ kept ↔ rtc (edge (view x)) (Start (view x)) s ∧ coaccessible (view x) s) ∧
    view y ≡ abs_keep_states (view x) kept ∧
    InputSymbols (view y) = InputSymbols (view x) ∧ OutputSymbols (view y) = OutputSymbols (view x) ∧
    Holds (view y) Accessible ∧ Holds (view y) CoAccessible ∧
    has (FstProperties (view y)) kAccessible = true ∧ has (FstProperties (view y)) kCoAccessible = true.
Proof.
  intros Hx Hwf Hs Hst. destruct (connect_dead x Hwf Hst) as (v & access & ds & Hv & Ha & Hds & Hvd & Hin).
  destruct (mDeleteStates_keep x ds Hx Hwf Hvd) as (y & Hy & [Hyi [Hyv Hi Ho He Hys]]).
  set (kept := kept_states (NumStates (view x)) ds) in *.
  assert (∀ s, s ∈ kept ↔ rtc (edge (view x)) (Start (view x)) s ∧ coaccessible (view x) s) as Hk.
  { intros s. unfold kept. rewrite elem_of_kept_states. split; [intros [Hv' ?]; by apply Hin|].
    intros [? Hc]. pose proof (coaccessible_valid _ _ Hc). split; [done|]. by apply Hin. }
  assert (NoDup kept) as Hnd by apply kept_NoDup, kept_states_sorted.
  assert (Forall (valid (view x)) kept) as Hkv.
  { apply Forall_forall. by intros s [? _]%elem_of_kept_states. }
  destruct (keep_trim (view x) kept Hnd Hkv Hk) as [Hacc Hco].
  set (z := mSetProperties y (kAccessible ||| kCoAccessible) (kAccessible ||| kCoAccessible)).
  assert (view z ≡ abs_keep_states (view x) kept) as Hzv by (unfold z; by rewrite mSetProperties_view).
  exists z, kept. split; [by unfold Connect; rewrite Hv; simpl; rewrite Ha; simpl; rewrite Hds; simpl; rewrite Hy|].
  split; [|split_and!].
  - split.
    + by apply mSetProperties_minv.
    + rewrite Hzv. by apply keep_wf.
    + apply (SoundFst_equiv _ _ Hzv). unfold z. rewrite mSetProperties_bits.
      rewrite <-Hyv. apply trim_bits_sound; [by apply Hys|by rewrite Hyv..].
    + intros Herr. unfold z. rewrite error_bit, mSetProperties_bits, <-error_bit.
      specialize (He Herr). revert He. rewrite !error_bit. bits. intros ->. done.
    + intros a b w. rewrite Hzv. apply keep_accepts; [done..|]. intros s ? ?. by apply Hk.
  - apply kept_states_sorted.
  - done.
  - done.
  - unfold z. by rewrite (proj1 (mSetProperties_symbols _ _ _)).
  - unfold z. by rewrite (proj2 (mSetProperties_symbols _ _ _)).
  - by rewrite Hzv.
  - by rewrite Hzv.
  - unfold z. rewrite mSetProperties_bits, (has_bit _ kAccessible 40) by done. bits. by rewrite ?orb_true_r.
  - unfold z. rewrite mSetProperties_bits, (has_bit _ kCoAccessible 42) by done. bits. by rewrite ?orb_true_r.
Qed.

(** C23: [Connect] on a well-formed machine with true property bits, and with a
start state if it has states at all, ends with exactly the states that are both
accessible and coaccessible, in their order.  The machine accepts the same pairs
with the same weights, its stored bits are true, and it is trim, as its bits
say. *)
Theorem Connect_correct x :
  minv x → WellFormed (view x) → SoundFst (view x) →
  (Start (view x) = kNoStateId → NumStates (view x) = 0) →
  ∃ y kept, Connect x = Some y ∧
    leaves y (has (FstProperties (view x)) kError) (accepts (view x)) ∧
    StronglySorted Z.lt kept ∧
    (∀ s, s ∈ kept ↔ rtc (edge (view x)) (Start (view x)) s ∧ coaccessible (view x) s) ∧
    view y ≡ abs_keep_states (view x) kept ∧
    InputSymbols (view y) = InputSymbols (view x) ∧ OutputSymbols (view y) = OutputSymbols (view x) ∧
    Holds (view y) Accessible ∧ Holds (view y) CoAccessible ∧
    has (FstProperties (view y)) kAccessible = true ∧ has (FstProperties (view y)) kCoAccessible = true.
Proof. apply Connect_holds. Qed.
End correct.

(** * Instances *)

Section witnesses.
Local Notation M := MinMaxWeight.

(** State 1 is final, state 2 leads nowhere, state 3 is not reached. *)
Definition dead_ends : list (mutation M) :=
  [MAddStates 4; MSetStart 0; MAddArc 0 (MkArc 5 6 One 2); MAddArc 0 (MkArc 1 2 four 1);
   MAddArc 3 (MkArc 1 1 One 1); MSetFinal 1 One].
Definition dead_end_fst : VectorFst M := default VectorFst_new (foldM mutate dead_ends VectorFst_new).

Lemma dead_end_ready :
  minv dead_end_fst ∧ WellFormed (vector_view dead_end_fst) ∧ SoundFst (vector_view dead_end_fst).
Proof.
  destruct (built_invariant _ (built_history dead_ends)) as [Hc Hs].
  split_and!; [done|by apply well_formedb_spec|done].
Qed.

Lemma Connect_correct_witness :
  let f := view dead_end_fst in
  ∃ y kept, Connect dead_end_fst = Some y ∧
    leaves y (has (FstProperties f) kError) (accepts f) ∧
    StronglySorted Z.lt kept ∧
    (∀ s, s ∈ kept ↔ rtc (edge f) (Start f) s ∧ coaccessible f s) ∧
    view y ≡ abs_keep_states f kept ∧
    InputSymbols (view y) = InputSymbols f ∧ OutputSymbols (view y) = OutputSymbols f ∧
    Holds (view y) Accessible ∧ Holds (view y) CoAccessible ∧
    has (FstProperties (view y)) kAccessible = true ∧ has (FstProperties (view y)) kCoAccessible = true.
Proof.
  destruct dead_end_ready as (H1 & H2 & H3). apply (Connect_correct dead_end_fst H1 H2 H3).
  by vm_compute.
Defined.

(** Without a start state the visit is empty, so that nothing is deleted; the
bits are raised all the same. *)
Lemma Connect_no_start :
  let x := (AddState (W:=M) VectorFst_new).1 in
  ∃ y, Connect x = Some y ∧ SoundFst (view x) ∧ ¬ SoundFst (view y).
Proof.
  set (x := (AddState VectorFst_new).1). exists (default x (Connect x)). split; [by vm_compute|]. split.
  - apply (built_invariant _ (built_history [MAddState])).
  - intros Hs. destruct (Hs CoAccessible) as [Hc _].
    assert (coaccessible (view (default x (Connect x))) 0) as (t & Hr & Ht & Hf); [by apply Hc; vm_compute|].
    assert (NumStates (view (default x (Connect x))) = 1) as E by by vm_compute.
    unfold valid in Ht. rewrite E in Ht. assert (t = 0) as -> by lia. by vm_compute in Hf.
Qed.

End witnesses.
