(* ===== verification/Condense.v ===== *)
(** Condensation (the function [Condense] of openfst/lib/connect.h): one state
for each strongly connected component, the arcs between components kept.  Proved
here: the machine it builds, that it is acyclic and topologically sorted, and
that its edges are those between components. *)
From S2P Require Import Prelude Weight FloatWeight Properties SymbolTable Fst VectorFst Mutation VectorSound.
From S2P Require Import MutableFst Rational RationalSpec Dfs Tarjan Scc.
Local Open Scope Z_scope.

Section condense.
Context `{MutableFst W F}.
Implicit Types (ifst : Fst W) (ofst : F).

(* connect.h:90-98 Condense *)
Definition condense_arc (scc : list Z) (c : Z) ofst (arc : Arc W) : option F :=
  nextc ← scc.[nextstate arc];
  if negb (nextc =? c) then mAddArc ofst c (set_nextstate nextc arc) else Some ofst.

(* connect.h:83-99 Condense *)
Definition condense_state ifst (scc : list Z) ofst (s : Z) : option F :=
  c ← scc.[s];
  let ofst := if s =? Start ifst then mSetStart ofst c else ofst in
  let weight := Final ifst s in
  ofst ← (if wneqb weight Zero then mSetFinal ofst c (Plus (Final (view ofst) c) weight) else Some ofst);
  foldM (condense_arc scc c) (Arcs ifst s) ofst.

(* connect.h:66-101 Condense *)
Definition Condense ifst (known : option Z) ofst (scc : list Z) : option (F * list Z) :=
  let ofst := mDeleteAllStates ofst in
  v ← DfsVisit ifst scc_visitor AnyArcFilter known false (SccVisitor_new (Some scc) None [] 0 ifst);
  scc ← scc_ v;
  match max_element scc with
  | None => Some (ofst, scc)
  | Some m =>
      let num_condensed_states := 1 + m in
      let ofst := foldl (λ o _, (mAddState o).1) ofst (seqZ 0 num_condensed_states) in
      ofst ← foldM (condense_state ifst scc) (seqZ 0 (zlen scc)) ofst;
      Some (mSetProperties ofst (kAcyclic ||| kInitialAcyclic) (kAcyclic ||| kInitialAcyclic), scc)
  end.
End condense.

(** * The machine it builds *)

Section abstract.
Context `{WeightOps W}.
Implicit Types (f g : Fst W).
Context (f : Fst W) (num : Z → Z) (n : Z).

Definition condensed_arcs (s : Z) : list (Arc W) :=
  omap (λ a, if num (nextstate a) =? num s then None else Some (set_nextstate (num (nextstate a)) a)) (Arcs f s).

Definition plus_final (c : Z) (w : W) (s : Z) : W :=
  if decide (num s = c ∧ wneqb (Final f s) Zero = true) then Plus w (Final f s) else w.

(** With [n] components, after the states [ss]. *)
Definition abs_condense (ss : list Z) : Fst W := {|
  Start := if decide (Start f ∈ ss) then num (Start f) else kNoStateId;
  NumStates := n;
  Final := λ c, if decide (0 ≤ c < n) then foldl (plus_final c) Zero ss else Zero;
  Arcs := λ c, if decide (0 ≤ c < n) then s ← ss; if decide (num s = c) then condensed_arcs s else [] else [];
  FstProperties := 0; InputSymbols := None; OutputSymbols := None |}.

Lemma abs_condense_arc_in ss c b :
  arc_in (abs_condense ss) c b ↔ 0 ≤ c < n ∧ ∃ s a, s ∈ ss ∧ num s = c ∧ a ∈ Arcs f s ∧
    num (nextstate a) ≠ c ∧ b = set_nextstate (num (nextstate a)) a.
Proof.
  unfold arc_in, valid. simpl. split.
  - intros [Hc Hb]. split; [done|]. rewrite decide_True in Hb by done.
    apply list_elem_of_bind in Hb as (s & Hb & Hs). case_decide as Hn; [|by apply not_elem_of_nil in Hb].
    unfold condensed_arcs in Hb. apply list_elem_of_omap in Hb as (a & Ha & Hb).
    destruct (Z.eqb_spec (num (nextstate a)) (num s)); simplify_eq. by exists s, a.
  - intros [Hc (s & a & Hs & Hn & Ha & Hne & ->)]. split; [done|]. rewrite decide_True by done.
    apply list_elem_of_bind. exists s. split; [|done]. rewrite decide_True by done.
    apply list_elem_of_omap. exists a. split; [done|]. by rewrite (proj2 (Z.eqb_neq _ _)) by congruence.
Qed.
End abstract.

Section correct.
Context `{WeightEq W} {F : Type} `{!MutableFst W F} `{!MutableFstLaws W F}.
Implicit Types (x y : F) (f g : Fst W).

Section loops.
Context (f : Fst W) (scc : list Z) (n : Z).
Context (Hlen : zlen scc = NumStates f) (Hrange : ∀ s c, scc.[s] = Some c → 0 ≤ c < n).
Notation num := (λ s, default 0 (scc.[s])).

Lemma num_get s : valid f s → scc.[s] = Some (num s) ∧ 0 ≤ num s < n.
Proof using Hlen Hrange.
  intros Hs. destruct (vget_in_range scc s) as [c Hc]; [unfold valid in Hs; lia|].
  rewrite Hc. simpl. split; [done|by eapply Hrange].
Qed.

(** Adding the arcs of one state that leave its component. *)
Lemma condense_arcs_evolves x y g s :
  evolves x y g → WellFormed f → valid f s → valid g (num s) →
  ∃ z, foldM (condense_arc scc (num s)) (Arcs f s) y = Some z ∧
    evolves x z (abs_set_arcs g (num s) (Arcs g (num s) ++ condensed_arcs f num s)).
Proof using Hlen Hrange.
  intros Hxy (_ & Hwf & _) Hs Hg. unfold condensed_arcs.
  set (out := omap _).
  destruct (foldM_total (condense_arc scc (num s))
    (λ done z, evolves x z (abs_set_arcs g (num s) (Arcs g (num s) ++ out done))) (Arcs f s) y)
    as (z & Hz & Hev); [| |by exists z].
  - eapply evolves_equiv; [done|]. unfold out. simpl. rewrite app_nil_r. split_and!; [done..|].
    intros c. simpl. by case_decide; subst.
  - intros done a todo z El Hz. unfold condense_arc.
    assert (valid f (nextstate a)) as [-> _]%num_get.
    { apply (Hwf s a Hs). rewrite El. apply elem_of_app. right. left. }
    simpl. unfold out. rewrite omap_app. simpl. destruct (Z.eqb_spec (num (nextstate a)) (num s)) as [E|Hne]; simpl.
    + exists z. split; [done|]. by rewrite app_nil_r.
    + destruct (evolves_add_arc x z _ (num s) (set_nextstate (num (nextstate a)) a) Hz Hg) as (z' & -> & Hz').
      exists z'. split; [done|]. eapply evolves_equiv; [exact Hz'|]. split_and!; [done..|].
      intros c. simpl. case_decide; [|done]. by rewrite decide_True, app_assoc by done.
Qed.

Lemma condense_state_evolves x y done s :
  evolves x y (abs_condense f num n done) → WellFormed f → valid f s → s ∉ done →
  ∃ z, condense_state f scc y s = Some z ∧ evolves x z (abs_condense f num n (done ++ [s])).
Proof using Hlen Hrange.
  intros Hxy Hwf Hs Hd. destruct (num_get s Hs) as [Hc Hr]. unfold condense_state. rewrite Hc. cbn [mbind option_bind].
  set (y1 := if s =? Start f then mSetStart y (num s) else y).
  set (g1 := if s =? Start f then abs_set_start (abs_condense f num n done) (num s) else abs_condense f num n done).
  assert (evolves x y1 g1) as H1.
  { subst y1 g1. destruct (s =? Start f); [by apply evolves_set_start|done]. }
  assert (Final g1 (num s) = foldl (plus_final f num (num s)) Zero done) as Hf.
  { subst g1. destruct (s =? Start f); simpl; by rewrite decide_True. }
  assert (∃ y2, (if wneqb (Final f s) Zero then mSetFinal y1 (num s) (Plus (Final (view y1) (num s)) (Final f s)) else Some y1) = Some y2 ∧
    evolves x y2 (abs_set_final g1 (num s) (foldl (plus_final f num (num s)) Zero (done ++ [s])))) as (y2 & -> & H2).
  { rewrite foldl_snoc. unfold plus_final at 1. rewrite <-Hf.
    assert (Final (view y1) (num s) = Final g1 (num s)) as -> by (by destruct H1 as [_ [(_ & _ & -> & _) _ _ _ _]]).
    destruct (wneqb (Final f s) Zero).
    - rewrite decide_True by done. apply evolves_set_final; [done|]. by subst g1; destruct (s =? Start f).
    - rewrite decide_False by naive_solver. exists y1. split; [done|]. eapply evolves_equiv; [done|].
      split_and!; [done..| |done]. intros c. simpl. by case_decide; subst. }
  cbn [mbind option_bind].
  destruct (condense_arcs_evolves x y2 _ s H2 Hwf Hs) as (z & -> & Hz); [by subst g1; destruct (s =? Start f)|].
  exists z. split; [done|]. eapply evolves_equiv; [exact Hz|]. split_and!.
  - subst g1. simpl. destruct (Z.eqb_spec s (Start f)) as [E|E]; simpl.
    + rewrite decide_True by (rewrite elem_of_snoc; auto). by rewrite E.
    + apply decide_ext. rewrite elem_of_snoc. naive_solver.
  - subst g1. by destruct (s =? Start f).
  - intros c. simpl. case_decide as E; [subst; by rewrite decide_True|].
    assert (Final g1 c = Final (abs_condense f num n done) c) as -> by (subst g1; by destruct (s =? Start f)).
    simpl. case_decide; [|done]. rewrite foldl_snoc. unfold plus_final at 2. by rewrite decide_False by naive_solver.
  - intros c. simpl. assert (∀ c, Arcs g1 c = Arcs (abs_condense f num n done) c) as Ha by (intros ?; subst g1; by destruct (s =? Start f)).
    rewrite !Ha. simpl. rewrite bind_app. simpl. case_decide as E.
    + subst c. rewrite !decide_True by done. by rewrite app_nil_r.
    + rewrite (decide_False (P := num s = c)) by congruence. by rewrite app_nil_r.
Qed.
End loops.
(** The states of the new machine. *)
Lemma condense_states_evolves x y f num (l : list Z) k :
  evolves x y (abs_condense f num k []) → 0 ≤ k →
  evolves x (foldl (λ o _, (mAddState o).1) y l) (abs_condense f num (k + zlen l) []).
Proof.
  revert y k. induction l as [|c l IH]; intros y k Hy Hk; cbn [foldl].
  - by rewrite zlen_nil, Z.add_0_r.
  - destruct (evolves_add_state x y _ Hy) as (z & -> & Hz). cbn [Datatypes.fst].
    rewrite zlen_cons, Z.add_assoc. apply IH; [|lia]. eapply evolves_equiv; [exact Hz|].
    split_and!; simpl; try done; intros d; repeat case_decide; try done; lia.
Qed.

(** The edges of the condensed machine lie between components and go upwards. *)
Lemma abs_condense_edge f (scc : list Z) n c d :
  zlen scc = NumStates f → (∀ s z, scc.[s] = Some z → 0 ≤ z < n) → WellFormed f →
  edge (abs_condense f (λ s, default 0 (scc.[s])) n (seqZ 0 (NumStates f))) c d ↔
  c ≠ d ∧ ∃ s t, edge f s t ∧ scc.[s] = Some c ∧ scc.[t] = Some d.
Proof.
  intros Hlen Hr (_ & Hwf & _). split.
  - intros (Hc & b & Hb & <-).
    destruct (proj1 (abs_condense_arc_in _ _ _ _ _ _) (conj Hc Hb)) as (_ & s & a & Hs & <- & Ha & Hne & ->).
    apply elem_of_seqZ in Hs. assert (valid f s) as Hvs by (unfold valid; lia).
    split; [by simpl; congruence|]. exists s, (nextstate a). split; [split; [done|by exists a]|].
    destruct (num_get f scc n Hlen Hr s Hvs) as [? _]. by destruct (num_get f scc n Hlen Hr _ (Hwf s a Hvs Ha)) as [? _].
  - intros (Hne & s & t & (Hvs & a & Ha & <-) & Hs & Ht).
    assert (arc_in (abs_condense f (λ s, default 0 (scc.[s])) n (seqZ 0 (NumStates f))) c (set_nextstate d a)) as [? ?].
    { apply abs_condense_arc_in. split; [by eapply Hr|]. exists s, a. rewrite Hs, Ht. simpl.
      split_and!; try done. apply elem_of_seqZ. unfold valid in Hvs. lia. }
    split; [done|]. by exists (set_nextstate d a).
Qed.

Lemma acyclic_bits_sound p g :
  Sound p g → Holds g TopSorted →
  Sound ((p &&& (u64_not (kAcyclic ||| kInitialAcyclic) ||| kError)) |||
         ((kAcyclic ||| kInitialAcyclic) &&& (kAcyclic ||| kInitialAcyclic))) g.
Proof.
  intros Hp Ht t. specialize (Hp t). pose proof (top_sorted_acyclic g Ht). pose proof (top_sorted_initial_acyclic g Ht).
  revert Hp. destruct t; bits; rewrite ?andb_true_r, ?orb_false_r, ?andb_false_r; naive_solver.
Qed.

(** The numbers of the components. *)
Lemma condense_scc f known scc0 :
  WellFormed f → valid f (Start f) → known_states f known →
  ∃ v scc n, DfsVisit f scc_visitor AnyArcFilter known false (SccVisitor_new (Some scc0) None [] 0 f) = Some v ∧
    scc_ v = Some scc ∧ zlen scc = NumStates f ∧ 0 < n ∧ max_element scc = Some (n - 1) ∧
    (∀ c, c ∈ scc ↔ 0 ≤ c < n) ∧
    (∀ s t c d, scc.[s] = Some c → scc.[t] = Some d → c = d ↔ rtc (edge f) s t ∧ rtc (edge f) t s) ∧
    (∀ s t c d, edge f s t → scc.[s] = Some c → scc.[t] = Some d → c ≤ d).
Proof.
  intros Hwf Hst Hk.
  destruct (scc_visit f known (Some scc0) None [] 0 f Hwf Hst Hk) as (v & Hv & [Hscc _ _ _ _] & Hptr & _).
  destruct (proj2 Hptr ltac:(eauto)) as [scc Hs]. destruct (Hscc scc Hs) as (Hlen & Hsame & Htopo & Hrange & Honto).
  exists v, scc, (nscc_ v). set (n := nscc_ v) in *.
  assert (∀ c, c ∈ scc ↔ 0 ≤ c < n) as Hin.
  { intros c. split; [intros [s Hc]%elem_of_vget; by eapply Hrange|].
    intros [s Hc]%Honto. by eapply vget_elem_of. }
  assert (max_element scc = Some (n - 1) ∧ 0 < n) as [Hmax Hn].
  { destruct (max_element scc) as [m|] eqn:Em.
    - apply max_element_spec in Em as [Hm Hle]. apply Hin in Hm.
      assert (n - 1 ≤ m) by (apply Hle, Hin; lia). split; [f_equal|]; lia.
    - destruct scc; [|done]. unfold valid in Hst. rewrite zlen_nil in Hlen. lia. }
  by split_and!.
Qed.

Lemma abs_condense_wf f scc n :
  zlen scc = NumStates f → (∀ s (z : Z), scc.[s] = Some z → 0 ≤ z < n) → WellFormed f → valid f (Start f) → 0 < n →
  WellFormed (abs_condense f (λ s, default 0 (scc.[s])) n (seqZ 0 (NumStates f))).
Proof.
  intros Hlen Hrange Hwf Hst Hn. split; [simpl; lia|]. split.
  - intros c b Hc Hb. destruct (proj1 (abs_condense_arc_in _ _ _ _ _ _) (conj Hc Hb)) as (_ & s & a & Hs' & <- & Ha & Hne & ->).
    apply elem_of_seqZ in Hs'. destruct Hwf as (_ & Hwa & _).
    apply (num_get f scc n Hlen Hrange). apply (Hwa s); [unfold valid; lia|done].
  - right. unfold valid. simpl. rewrite decide_True by (apply elem_of_seqZ; unfold valid in Hst; lia).
    by apply (num_get f scc n Hlen Hrange).
Qed.

(** C24: [Condense] of a well-formed machine with a start state ends and returns
in [scc] the component of each state: the same number for two states exactly if
each reaches the other, and every number below the number of components.  The
machine it writes has one state for each component, the arcs between components
with their labels and weights in the order of the states they left, the sums of
the final weights, and the component of the start as its start: its edges are
those between different components.  They only go upwards, so that it is acyclic
as its bits say; its stored bits are true and it is well formed. *)
Theorem Condense_correct f known x scc0 :
  WellFormed f → valid f (Start f) → known_states f known → minv x → SoundFst (view x) →
  ∃ y scc n, Condense f known x scc0 = Some (y, scc) ∧
    zlen scc = NumStates f ∧ (∀ c, c ∈ scc ↔ 0 ≤ c < n) ∧
    (∀ s t c d, scc.[s] = Some c → scc.[t] = Some d → c = d ↔ rtc (edge f) s t ∧ rtc (edge f) t s) ∧
    view y ≡ abs_condense f (λ s, default 0 (scc.[s])) n (seqZ 0 (NumStates f)) ∧
    (∀ c d, edge (view y) c d ↔ c ≠ d ∧ ∃ s t, edge f s t ∧ scc.[s] = Some c ∧ scc.[t] = Some d) ∧
    Holds (view y) TopSorted ∧ ¬ Holds (view y) Cyclic ∧
    has (FstProperties (view y)) kAcyclic = true ∧
    minv y ∧ WellFormed (view y) ∧ SoundFst (view y).
Proof.
  intros Hwf Hst Hk Hx Hsx.
  destruct (condense_scc f known scc0 Hwf Hst Hk) as (v & scc & n & Hv & Hs & Hlen & Hn & Hmax & Hin & Hsame & Htopo).
  set (num := λ s, default 0 (scc.[s])).
  assert (∀ s c, scc.[s] = Some c → 0 ≤ c < n) as Hrange by (intros s c Hc; apply Hin; by eapply vget_elem_of).
  destruct (mDeleteAllStates_steps x Hx) as [Hx0 Hs0].
  assert (evolves x (mDeleteAllStates x) (abs_condense f num 0 [])) as H0'.
  { eapply evolves_equiv; [by split|]. assert (∀ c, (@nil Z).[c] = None) as Hnil.
    { intros c. apply vget_None. unfold zlen; simpl; lia. }
    split_and!; simpl; [done|done|..];
      intros c; rewrite Hnil; by case_decide; [lia|]. }
  assert (1 + (n - 1) = n) as En by lia.
  pose proof (condense_states_evolves _ _ f num (seqZ 0 n) 0 H0' ltac:(lia)) as H1.
  rewrite zlen_seqZ, Z.add_0_l, Z.max_r in H1 by lia.
  destruct (foldM_total (condense_state f scc) (λ done z, evolves x z (abs_condense f num n done))
    (seqZ 0 (NumStates f)) (foldl (λ o _, (mAddState o).1) (mDeleteAllStates x) (seqZ 0 n)) H1)
    as (z & Hz & [Hzi [Hzv _ _ _ Hzs]]).
  { intros done s todo y [-> Hd]%seqZ_split Hy. eapply condense_state_evolves; try done.
    rewrite elem_of_seqZ. lia. }
  set (y := mSetProperties z (kAcyclic ||| kInitialAcyclic) (kAcyclic ||| kInitialAcyclic)).
  assert (view y ≡ abs_condense f num n (seqZ 0 (NumStates f))) as Hyv by (unfold y; by rewrite mSetProperties_view).
  pose proof (abs_condense_edge f scc n) as Hedge.
  assert (Holds (view y) TopSorted) as Ht.
  { intros c a Hc Ha. assert (edge (view y) c (nextstate a)) as He by (split; [done|by exists a]).
    rewrite Hyv in He. apply Hedge in He as (Hne & s & t & He & Hsc & Htc); try done.
    pose proof (Htopo _ _ _ _ He Hsc Htc). lia. }
  exists y, scc, n. split_and!; try done.
  - unfold Condense. rewrite Hv. cbn [mbind option_bind]. rewrite Hs. cbn [mbind option_bind]. rewrite Hmax, En, Hlen.
    by rewrite Hz.
  - intros c d. rewrite Hyv. by apply Hedge.
  - by apply top_sorted_acyclic.
  - unfold y. rewrite mSetProperties_bits, (has_bit _ kAcyclic 35) by done. bits. by rewrite ?orb_true_r.
  - by apply mSetProperties_minv.
  - rewrite Hyv. by apply abs_condense_wf.
  - apply (SoundFst_equiv _ _ Hyv). unfold y. rewrite mSetProperties_bits. rewrite <-Hyv.
    apply acyclic_bits_sound; [|done].
    unfold y. rewrite mSetProperties_view. by apply Hzs.
Qed.
End correct.

Section witnesses.
Local Notation M := MinMaxWeight.

Lemma Condense_correct_witness :
  let x := (AddState (W:=M) VectorFst_new).1 in
  ∃ y scc n, Condense loop_fst (Some 4) x [] = Some (y, scc) ∧
    zlen scc = 4 ∧ (∀ c, c ∈ scc ↔ 0 ≤ c < n) ∧
    (∀ s t c d, scc.[s] = Some c → scc.[t] = Some d →
       c = d ↔ rtc (edge loop_fst) s t ∧ rtc (edge loop_fst) t s) ∧
    view y ≡ abs_condense loop_fst (λ s, default 0 (scc.[s])) n (seqZ 0 4) ∧
    (∀ c d, edge (view y) c d ↔ c ≠ d ∧ ∃ s t, edge loop_fst s t ∧ scc.[s] = Some c ∧ scc.[t] = Some d) ∧
    Holds (view y) TopSorted ∧ ¬ Holds (view y) Cyclic ∧
    has (FstProperties (view y)) kAcyclic = true ∧
    minv y ∧ WellFormed (view y) ∧ SoundFst (view y).
Proof.
  destruct (built_invariant _ (built_history (W:=M) [MAddState])) as [Hc Hs].
  apply (Condense_correct loop_fst (Some 4)); [apply loop_fst_wf|by split|by left|done|done].
Defined.
End witnesses.
