(* ===== verification/TestProperties.v ===== *)
(** Computing property bits (openfst/lib/test-properties.h): [ComputeProperties]
with its depth-first visit and its pass over all arcs, and the functions that
use the stored bits when they can.  Proved here: every bit that is returned is
true of the machine, and every property that was asked for is known. *)
From S2P Require Import Prelude Weight FloatWeight Properties SymbolTable Fst VectorFst Mutation VectorSound.
From S2P Require Import Dfs Tarjan Scc.
From Stdlib Require Import Sorting.Sorted.
Local Open Scope Z_scope.

(* test-properties.h:64-66 ComputeProperties *)
Definition kDfsProps : Z :=
  kCyclic ||| kAcyclic ||| kInitialCyclic ||| kInitialAcyclic ||| kAccessible |||
  kNotAccessible ||| kCoAccessible ||| kNotCoAccessible.

(** [if (c) { comp_props |= on; comp_props &= ~off; }] *)
Definition turn (c : bool) (on off comp_props : Z) : Z :=
  if c then (comp_props ||| on) &&& u64_not off else comp_props.

Definition seen_label (labels : option (gset Z)) (l : Z) : bool :=
  match labels with Some labels => bool_decide (l ∈ labels) | None => false end.

(** The locals of the loop on the arcs of a state; [prev_arc] is [None] at the
first arc. *)

(* test-properties.h:86-99 ComputeProperties *)
Record arc_scan (W : Type) := MkScan {
  comp_props : Z;
  ilabels : option (gset Z);
  olabels : option (gset Z);
  prev_arc : option (Arc W);
}.
Arguments MkScan {_} _ _ _ _.
Arguments comp_props {_} _.
Arguments ilabels {_} _.
Arguments olabels {_} _.
Arguments prev_arc {_} _.

Section compute.
Context `{WeightOps W}.
Implicit Types (f : Fst W) (arc : Arc W).

(* test-properties.h:100-157 ComputeProperties *)
Definition scan_arc (scc : list Z) (s : Z) (r : arc_scan W) arc : option (arc_scan W) :=
  let p := turn (seen_label (ilabels r) (ilabel arc)) kNonIDeterministic kIDeterministic (comp_props r) in
  let p := turn (seen_label (olabels r) (olabel arc)) kNonODeterministic kODeterministic p in
  let p := turn (negb (ilabel arc =? olabel arc)) kNotAcceptor kAcceptor p in
  let p := turn ((ilabel arc =? 0) && (olabel arc =? 0)) kEpsilons kNoEpsilons p in
  let p := turn (ilabel arc =? 0) kIEpsilons kNoIEpsilons p in
  let p := turn (olabel arc =? 0) kOEpsilons kNoOEpsilons p in
  let p := turn (match prev_arc r with Some prev => ilabel arc <? ilabel prev | None => false end)
             kNotILabelSorted kILabelSorted p in
  let p := turn (match prev_arc r with Some prev => olabel arc <? olabel prev | None => false end)
             kNotOLabelSorted kOLabelSorted p in
  let weighted := wneqb (weight arc) One && wneqb (weight arc) Zero in
  let p := turn weighted kWeighted kUnweighted p in
  cycle ← (if weighted && has p kUnweightedCycles
           then c ← scc.[s]; d ← scc.[nextstate arc]; Some (c =? d) else Some false);
  let p := turn cycle kWeightedCycles kUnweightedCycles p in
  let p := turn (nextstate arc <=? s) kNotTopSorted kTopSorted p in
  let p := turn (negb (nextstate arc =? s + 1)) kNotString kString p in
  Some (MkScan p ((λ l, {[ilabel arc]} ∪ l) <$> ilabels r) ((λ l, {[olabel arc]} ∪ l) <$> olabels r) (Some arc)).

(* test-properties.h:89-176 ComputeProperties *)
Definition scan_state f (mask : Z) (scc : list Z) (acc : Z * Z) (s : Z) : option (Z * Z) :=
  let '(p, nfinal) := acc in
  let ilabels := if has mask (kIDeterministic ||| kNonIDeterministic) then Some ∅ else None in
  let olabels := if has mask (kODeterministic ||| kNonODeterministic) then Some ∅ else None in
  r ← foldM (scan_arc scc s) (Arcs f s) (MkScan p ilabels olabels None);
  let p := turn (0 <? nfinal) kNotString kString (comp_props r) in
  let final_weight := Final f s in
  if wneqb final_weight Zero then
    Some (turn (wneqb final_weight One) kWeighted kUnweighted p, nfinal + 1)
  else Some (turn (negb (zlen (Arcs f s) =? 1)) kNotString kString p, nfinal).

(* test-properties.h:52-184 ComputeProperties *)
Definition ComputeProperties f (known : option Z) (mask : Z) : option Z :=
  let fst_props := FstProperties f &&& kFstProperties in
  let p := fst_props &&& kBinaryProperties in
  '(scc, p) ← (if has mask (kDfsProps ||| kWeightedCycles ||| kUnweightedCycles)
               then v ← DfsVisit f scc_visitor AnyArcFilter known false (SccVisitor_new (Some []) None [] p f);
                    scc ← scc_ v; Some (scc, props_ v)
               else Some ([], p));
  if has mask (u64_not (kBinaryProperties ||| kDfsProps)) then
    let p := p ||| (kAcceptor ||| kNoEpsilons ||| kNoIEpsilons ||| kNoOEpsilons ||| kILabelSorted |||
                    kOLabelSorted ||| kUnweighted ||| kTopSorted ||| kString) in
    let p := if has mask (kIDeterministic ||| kNonIDeterministic) then p ||| kIDeterministic else p in
    let p := if has mask (kODeterministic ||| kNonODeterministic) then p ||| kODeterministic else p in
    let p := if has mask (kDfsProps ||| kWeightedCycles ||| kUnweightedCycles) then p ||| kUnweightedCycles else p in
    '(p, _) ← foldM (scan_state f mask scc) (seqZ 0 (NumStates f)) (p, 0);
    Some (turn (negb (Start f =? kNoStateId) && negb (Start f =? 0)) kNotString kString p)
  else Some p.

(** With the value of [known]; [None] stands for a result that is not asked for. *)

(* test-properties.h:188-201 ComputeOrUseStoredProperties *)
Definition ComputeOrUseStoredProperties f (known : option Z) (mask : Z) : option (Z * Z) :=
  let fst_props := FstProperties f &&& kFstProperties in
  let known_props := KnownProperties fst_props in
  if known_props &&& mask =? mask then Some (fst_props, known_props)
  else p ← ComputeProperties f known mask; Some (p, KnownProperties p).

(* test-properties.h:207-220 TestProperties *)
Definition TestProperties (fst_verify_properties : bool) f (known : option Z) (mask : Z) : option (Z * Z) :=
  if fst_verify_properties then p ← ComputeProperties f known mask; Some (p, KnownProperties p)
  else ComputeOrUseStoredProperties f known mask.

(* test-properties.h:226-236 CheckProperties *)
Definition CheckProperties (fst_verify_properties : bool) f (known : option Z) (check_mask test_mask : Z) : option Z :=
  let props := FstProperties f &&& kFstProperties in
  props ← (if fst_verify_properties then
             Datatypes.fst <$> TestProperties fst_verify_properties f known (check_mask ||| test_mask)
           else if negb (KnownProperties props &&& check_mask =? check_mask) then
             ComputeProperties f known (check_mask ||| test_mask)
           else Some props);
  Some (props &&& (check_mask ||| test_mask)).

(** [Properties] of a machine whose implementation stores its bits. *)

(* impl-to-fst.h:65-76 Properties *)
Definition Fst_Properties (fst_verify_properties : bool) (fst : VectorFst W) (mask : Z) (test : bool) :
    option (VectorFst W * Z) :=
  if test then
    '(testprops, knownprops) ← TestProperties fst_verify_properties (vector_view fst) (Some (zlen (states_ fst))) mask;
    Some (UpdateProperties fst testprops knownprops, testprops &&& mask)
  else Some (fst, properties_ fst &&& mask).
End compute.

(** * What the bits say during the pass *)

Section reading.

(** The value of a property until something in the machine turns it. *)
Definition default_value (t : trinary) : bool :=
  match t with Epsilons | IEpsilons | OEpsilons | Weighted | WeightedCycles => false | _ => true end.

Definition on_bit (t : trinary) : Z := if default_value t then neg_bit t else pos_bit t.
Definition off_bit (t : trinary) : Z := if default_value t then pos_bit t else neg_bit t.

(** The properties of [computed] have both their bits right, given that those
of [F] were turned; the others have none. *)
Definition tells_each (computed : trinary → bool) (p : Z) (F : trinary → Prop) : Prop :=
  ∀ t, if computed t then ∃ b, flag p t (xorb b (default_value t)) ∧ (b = true ↔ F t)
       else Z.testbit p (pos_bit t) = false ∧ Z.testbit p (neg_bit t) = false.

(** And the binary bits are those of [q]. *)
Context (q : Z).
Definition tells (computed : trinary → bool) (p : Z) (F : trinary → Prop) : Prop :=
  (∀ i, 0 ≤ i < 16 → Z.testbit p i = Z.testbit q i) ∧ tells_each computed p F.

Lemma tells_ext c p F G : tells c p F → (∀ t, c t = true → F t ↔ G t) → tells c p G.
Proof.
  intros [Hq Hp] HFG. split; [done|]. intros t. specialize (Hp t). destruct (c t) eqn:Hc; [|done].
  destruct Hp as (b & ? & Hb). exists b. split; [done|]. by rewrite Hb, HFG.
Qed.

Lemma bit_range t : 0 ≤ pos_bit t < 64 ∧ 0 ≤ neg_bit t < 64.
Proof. destruct t; vm_compute; split; split; congruence. Qed.

Lemma turn_testbit c on off p i :
  0 ≤ on → 0 ≤ off < 64 → on ≠ off → 0 ≤ i < 64 →
  Z.testbit (turn c (2 ^ on) (2 ^ off) p) i =
  if decide (i = on) then c || Z.testbit p i else if decide (i = off) then negb c && Z.testbit p i else Z.testbit p i.
Proof.
  intros Hon Hoff Hne Hi. unfold turn. destruct c; simpl; [|repeat case_decide; done].
  rewrite Z.land_spec, Z.lor_spec, u64_not_spec, !Z.pow2_bits_eqb by lia.
  destruct (Z.eqb_spec on i), (Z.eqb_spec off i); repeat case_decide; try lia;
    simpl; rewrite ?orb_true_r, ?orb_false_r, ?andb_true_r, ?andb_false_r; done.
Qed.

Lemma bits_distinct t u : (pos_bit t = pos_bit u ↔ t = u) ∧ (neg_bit t = neg_bit u ↔ t = u) ∧
  pos_bit t ≠ neg_bit u.
Proof.
  assert (trinary_index t = trinary_index u ↔ t = u) as Hi by (by destruct t, u).
  unfold pos_bit, neg_bit. rewrite <-Hi. lia.
Qed.

(** Turning one property. *)
Lemma turn_tells t0 c on off comp p F :
  on = 2 ^ on_bit t0 → off = 2 ^ off_bit t0 → tells comp p F → (c = true → comp t0 = true) →
  tells comp (turn c on off p) (λ t, F t ∨ (c = true ∧ t = t0)).
Proof.
  intros -> -> [Hq Hp] Hc. split.
  { intros i Hi. rewrite <-(Hq i Hi). assert (16 ≤ on_bit t0 < 64 ∧ 16 ≤ off_bit t0 < 64 ∧ on_bit t0 ≠ off_bit t0)
      as (? & ? & ?) by (destruct t0; vm_compute; repeat split; congruence).
    rewrite turn_testbit by lia. by rewrite !decide_False by lia. }
  intros t. specialize (Hp t).
  pose proof (bit_range t0) as [? ?]. pose proof (bit_range t) as [? ?].
  destruct (bits_distinct t t0) as (E1 & E2 & E3). destruct (bits_distinct t0 t) as (_ & _ & E4).
  assert (on_bit t0 ≠ off_bit t0 ∧ 0 ≤ on_bit t0 < 64 ∧ 0 ≤ off_bit t0 < 64) as (? & ? & ?).
  { destruct (bits_distinct t0 t0) as (_ & _ & ?). unfold on_bit, off_bit. destruct (default_value t0); lia. }
  unfold flag. rewrite !turn_testbit by lia.
  destruct (decide (t = t0)) as [->|Hne].
  - destruct c; simpl.
    + rewrite Hc in Hp |- * by done. destruct Hp as (b & [Hb1 Hb2] & Hb). exists true. split; [|naive_solver].
      unfold on_bit, off_bit in *. destruct (default_value t0); repeat case_decide; try lia; done.
    + unfold on_bit, off_bit in *. destruct (comp t0).
      * destruct Hp as (b & [Hb1 Hb2] & Hb). exists b. split; [|naive_solver].
        destruct (default_value t0); repeat case_decide; try lia; done.
      * destruct (default_value t0); repeat case_decide; try lia; done.
  - assert (pos_bit t ≠ on_bit t0 ∧ pos_bit t ≠ off_bit t0 ∧ neg_bit t ≠ on_bit t0 ∧ neg_bit t ≠ off_bit t0) as (?&?&?&?).
    { rewrite <-E1 in Hne. assert (neg_bit t ≠ neg_bit t0) by tauto.
      unfold on_bit, off_bit. destruct (default_value t0); repeat split; lia || congruence. }
    rewrite !decide_False by done. destruct (comp t); [|done].
    destruct Hp as (b & ? & Hb). exists b. split; [done|]. rewrite Hb. naive_solver.
Qed.

Lemma turned_eq (t : trinary) (P Q : Prop) : P ∨ (Q ∧ t = t) ↔ P ∨ Q.
Proof. tauto. Qed.

Lemma turned_ne (t t0 : trinary) (P Q : Prop) : t ≠ t0 → P ∨ (Q ∧ t = t0) ↔ P.
Proof. tauto. Qed.

(** A property that was not turned has its default value. *)
Lemma tells_has comp p F t :
  tells comp p F → comp t = true → Z.testbit p (off_bit t) = true ↔ ¬ F t.
Proof.
  intros [_ Hp] Hc. specialize (Hp t). rewrite Hc in Hp. destruct Hp as (b & [H1 H2] & Hb). rewrite <-Hb.
  unfold off_bit. destruct (default_value t); rewrite ?H1, ?H2; destruct b; naive_solver.
Qed.
End reading.

(** * What turns a property *)

Section pass.
Context `{WeightOps W}.
Context (f : Fst W) (scc : list Z) (q : Z).
Notation tells := (tells q).
Implicit Types (a : Arc W) (l k : list (Arc W)) (F : trinary → Prop).

(** Arc [a] of state [s], after the arcs [k] of that state. *)
Definition arc_turns (t : trinary) (s : Z) k a : Prop :=
  match t with
  | Acceptor => ilabel a ≠ olabel a
  | IDeterministic => ilabel a ∈ ilabel <$> k
  | ODeterministic => olabel a ∈ olabel <$> k
  | Epsilons => ilabel a = 0 ∧ olabel a = 0
  | IEpsilons => ilabel a = 0
  | OEpsilons => olabel a = 0
  | ILabelSorted => ∃ b, last k = Some b ∧ ilabel a < ilabel b
  | OLabelSorted => ∃ b, last k = Some b ∧ olabel a < olabel b
  | Weighted => nontrivial (weight a) = true
  | WeightedCycles => nontrivial (weight a) = true ∧ scc.[s] = scc.[nextstate a]
  | TopSorted => nextstate a ≤ s
  | StringFst => nextstate a ≠ s + 1
  | _ => False
  end.

(** The arcs [l] of state [s]. *)
Definition arcs_turn (t : trinary) (s : Z) l : Prop := ∃ k a l', l = k ++ a :: l' ∧ arc_turns t s k a.

(** A state itself. *)
Definition state_turns (t : trinary) (s : Z) : Prop :=
  match t with
  | Weighted => nontrivial (Final f s) = true
  | StringFst => (∃ u, u < s ∧ is_final f u) ∨ (¬ is_final f s ∧ zlen (Arcs f s) ≠ 1)
  | _ => False
  end.

Lemma arcs_turn_nil t s : ¬ arcs_turn t s [].
Proof. intros (k & a & l' & Hl & _). by destruct k. Qed.

Lemma arcs_turn_snoc t s l a : arcs_turn t s (l ++ [a]) ↔ arcs_turn t s l ∨ arc_turns t s l a.
Proof.
  split.
  - intros (k & b & l' & Hl & Hb). destruct l' as [|c l' _] using rev_ind.
    + apply app_inj_tail in Hl as [-> ->]. by right.
    + left. rewrite app_comm_cons, app_assoc in Hl. apply app_inj_tail in Hl as [-> ->]. by exists k, b, l'.
  - intros [(k & b & l' & -> & Hb)|Ha]; [|by exists l, a, []].
    exists k, b, (l' ++ [a]). split; [by rewrite <-app_assoc|done].
Qed.

(** The properties the pass works out. *)
Definition passed (t : trinary) : bool :=
  match t with Cyclic | InitialCyclic | Accessible | CoAccessible | IDeterministic | ODeterministic | WeightedCycles => false
  | _ => true end.

Section scan.
Context (comp : trinary → bool) (Hcomp : ∀ t, passed t = true → comp t = true).
Context (Hscc : comp WeightedCycles = true → zlen scc = NumStates f).

(** The set of labels seen, and whether it is kept. *)
Definition label_set (t : trinary) (lab : Arc W → Z) (labels : option (gset Z)) k : Prop :=
  if comp t then ∃ X, labels = Some X ∧ ∀ x, x ∈ X ↔ x ∈ lab <$> k else labels = None.

Lemma seen_label_spec t lab labels k x :
  label_set t lab labels k → seen_label labels x = true ↔ comp t = true ∧ x ∈ lab <$> k.
Proof using.
  unfold label_set. destruct (comp t); [|by intros ->; naive_solver].
  intros (X & -> & HX). simpl. rewrite bool_decide_eq_true, HX. naive_solver.
Qed.

Lemma label_set_snoc t lab labels k a :
  label_set t lab labels k → label_set t lab ((λ X, {[lab a]} ∪ X) <$> labels) (k ++ [a]).
Proof using.
  unfold label_set. destruct (comp t); [|by intros ->]. intros (X & -> & HX). eexists. split; [done|].
  intros x. rewrite fmap_app, elem_of_app, elem_of_union, elem_of_singleton, HX. simpl. rewrite list_elem_of_singleton. tauto.
Qed.

Definition scanning (s : Z) F k (r : arc_scan W) : Prop :=
  tells comp (comp_props r) (λ t, F t ∨ arcs_turn t s k) ∧
  label_set IDeterministic ilabel (ilabels r) k ∧ label_set ODeterministic olabel (olabels r) k ∧
  prev_arc r = last k.

Lemma sorted_turns (lab : Arc W → Z) (prev : option (Arc W)) x :
  (match prev with Some b => x <? lab b | None => false end) = true ↔ ∃ b, prev = Some b ∧ x < lab b.
Proof using. destruct prev as [b|]; [rewrite Z.ltb_lt|]; naive_solver. Qed.

(** Whether the arc closes a weighted cycle, which is looked at once only. *)
Lemma cycle_turns p F s k a :
  tells comp p F → valid f s → valid f (nextstate a) →
  ∃ c, (if nontrivial (weight a) && has p kUnweightedCycles
        then c ← scc.[s]; d ← scc.[nextstate a]; Some (c =? d) else Some false) = Some c ∧
    (c = true → comp WeightedCycles = true) ∧
    (comp WeightedCycles = true →
     F WeightedCycles ∨ c = true ↔ F WeightedCycles ∨ arc_turns WeightedCycles s k a).
Proof using Hscc.
  intros Hp Hs Ha. rewrite (has_bit _ kUnweightedCycles 47) by done.
  destruct (comp WeightedCycles) eqn:Hc.
  - pose proof (tells_has _ _ _ _ _ Hp Hc) as Hh. change (off_bit WeightedCycles) with 47 in Hh.
    destruct (vget_in_range scc s) as [c Hsc]; [rewrite Hscc by done; done|].
    destruct (vget_in_range scc (nextstate a)) as [d Hsd]; [rewrite Hscc by done; done|].
    rewrite Hsc, Hsd. cbn [mbind option_bind arc_turns]. rewrite Hsc, Hsd. destruct (nontrivial (weight a)); cbn [andb].
    + destruct (Z.testbit p 47).
      * exists (c =? d). split; [done|]. split; [done|]. intros _. rewrite Z.eqb_eq. naive_solver.
      * exists false. split_and!; [done..|]. intros _. assert (¬ ¬ F WeightedCycles) by naive_solver.
        destruct Hp as [_ Hp]. specialize (Hp WeightedCycles). rewrite Hc in Hp. destruct Hp as ([] & _ & Hb); naive_solver.
    + exists false. split_and!; [done..|]. naive_solver.
  - destruct Hp as [_ Hp]. specialize (Hp WeightedCycles). rewrite Hc in Hp. destruct Hp as [_ Hn]. change (neg_bit WeightedCycles) with 47 in Hn.
    rewrite Hn, andb_false_r. exists false. by split_and!.
Qed.

Lemma scan_arc_ok s F k r a :
  scanning s F k r → valid f s → valid f (nextstate a) →
  ∃ r', scan_arc scc s r a = Some r' ∧ scanning s F (k ++ [a]) r'.
Proof using Hcomp Hscc.
  intros (Hp & Hi & Ho & Hl) Hs Ha. unfold scan_arc.
  assert (wneqb (weight a) One && wneqb (weight a) Zero = nontrivial (weight a)) as -> by apply andb_comm.
  pose proof (seen_label_spec _ _ _ _ (ilabel a) Hi) as Hil. pose proof (seen_label_spec _ _ _ _ (olabel a) Ho) as Hol.
  eapply (turn_tells q IDeterministic (seen_label (ilabels r) (ilabel a)) kNonIDeterministic kIDeterministic) in Hp;
    [|done|done|by intros []%Hil].
  eapply (turn_tells q ODeterministic (seen_label (olabels r) (olabel a)) kNonODeterministic kODeterministic) in Hp;
    [|done|done|by intros []%Hol].
  eapply (turn_tells q Acceptor (negb (ilabel a =? olabel a)) kNotAcceptor kAcceptor) in Hp; [|done|done|by intros _; apply Hcomp].
  eapply (turn_tells q Epsilons ((ilabel a =? 0) && (olabel a =? 0)) kEpsilons kNoEpsilons) in Hp; [|done|done|by intros _; apply Hcomp].
  eapply (turn_tells q IEpsilons (ilabel a =? 0) kIEpsilons kNoIEpsilons) in Hp; [|done|done|by intros _; apply Hcomp].
  eapply (turn_tells q OEpsilons (olabel a =? 0) kOEpsilons kNoOEpsilons) in Hp; [|done|done|by intros _; apply Hcomp].
  eapply (turn_tells q ILabelSorted (match prev_arc r with Some b => ilabel a <? ilabel b | None => false end)
    kNotILabelSorted kILabelSorted) in Hp; [|done|done|by intros _; apply Hcomp].
  eapply (turn_tells q OLabelSorted (match prev_arc r with Some b => olabel a <? olabel b | None => false end)
    kNotOLabelSorted kOLabelSorted) in Hp; [|done|done|by intros _; apply Hcomp].
  eapply (turn_tells q Weighted (nontrivial (weight a)) kWeighted kUnweighted) in Hp; [|done|done|by intros _; apply Hcomp].
  destruct (cycle_turns _ _ s k a Hp Hs Ha) as (c & -> & Hc & Hcyc). cbn [mbind option_bind].
  eapply (turn_tells q WeightedCycles c kWeightedCycles kUnweightedCycles) in Hp; [|done|done|done].
  eapply (turn_tells q TopSorted (nextstate a <=? s) kNotTopSorted kTopSorted) in Hp; [|done|done|by intros _; apply Hcomp].
  eapply (turn_tells q StringFst (negb (nextstate a =? s + 1)) kNotString kString) in Hp; [|done|done|by intros _; apply Hcomp].
  eexists. split; [done|]. split; [|split_and!; [by apply label_set_snoc|by apply label_set_snoc|by rewrite last_snoc]].
  eapply tells_ext; [exact Hp|]. clear Hp. intros t Ht. rewrite arcs_turn_snoc. clear Hc.
  rewrite !sorted_turns, Hl, Hil, Hol, !negb_true_iff, andb_true_iff, !Z.eqb_eq, !Z.eqb_neq, Z.leb_le in *.
  destruct (decide (t = WeightedCycles)) as [->|Hne].
  - specialize (Hcyc Ht). repeat rewrite turned_ne in Hcyc by done. rewrite turned_eq. repeat rewrite turned_ne by done. rewrite Hcyc. clear. tauto.
  - clear Hcyc. destruct t; simpl; try done; rewrite ?turned_eq; repeat rewrite turned_ne by done; clear -Ht; tauto.
Qed.

(** The pass over all states. *)
Section states.
Context (mask : Z) (Hwf : WellFormed f).
Context (Hi : comp IDeterministic = has mask (kIDeterministic ||| kNonIDeterministic)).
Context (Ho : comp ODeterministic = has mask (kODeterministic ||| kNonODeterministic)).

Definition state_or_arcs_turn (t : trinary) (s : Z) : Prop := arcs_turn t s (Arcs f s) ∨ state_turns t s.

Definition passing F (n : Z) (acc : Z * Z) : Prop :=
  tells comp acc.1 (λ t, F t ∨ ∃ s, 0 ≤ s < n ∧ state_or_arcs_turn t s) ∧
  0 ≤ acc.2 ∧ (0 < acc.2 ↔ ∃ u, 0 ≤ u < n ∧ is_final f u).

Lemma scan_arcs_ok s F p l :
  tells comp p F → valid f s → (∀ a, a ∈ l → valid f (nextstate a)) →
  ∃ r, foldM (scan_arc scc s) l (MkScan p
      (if has mask (kIDeterministic ||| kNonIDeterministic) then Some ∅ else None)
      (if has mask (kODeterministic ||| kNonODeterministic) then Some ∅ else None) None) = Some r ∧
    scanning s F l r.
Proof using Hcomp Hscc Hi Ho.
  intros Hp Hs Hl. apply (foldM_total _ (scanning s F)).
  - assert (∀ t lab b, comp t = b → label_set t lab (if b then Some ∅ else None) []) as Hempty.
    { intros t lab b E. unfold label_set. rewrite E. destruct b; [|done]. exists ∅. split; [done|].
      intros x. simpl. by rewrite elem_of_empty, elem_of_nil. }
    split_and!; simpl; [|by apply Hempty|by apply Hempty|done].
    eapply tells_ext; [done|]. intros t _. pose proof (arcs_turn_nil t s). tauto.
  - intros k a l' r -> Hr. apply scan_arc_ok; [done..|]. apply Hl, elem_of_app. right. left.
Qed.

Lemma scan_state_ok F n acc :
  passing F n acc → valid f n →
  ∃ acc', scan_state f mask scc acc n = Some acc' ∧ passing F (n + 1) acc'.
Proof using Hcomp Hscc Hi Ho Hwf.
  destruct acc as [p nf]. intros (Hp & Hnf & Hfin) Hn. simpl in *. unfold scan_state.
  destruct (scan_arcs_ok n _ p (Arcs f n) Hp Hn) as (r & -> & Hr & _).
  { destruct Hwf as (_ & Ha & _). intros a. by apply Ha. }
  cbn [mbind option_bind].
  assert (∀ P : Z → Prop, (∃ s, 0 ≤ s < n + 1 ∧ P s) ↔ (∃ s, 0 ≤ s < n ∧ P s) ∨ P n) as Hsplit.
  { intros P. unfold valid in Hn. split.
    - intros (s & Hs & ?). destruct (decide (s = n)) as [->|]; [by right|left]. exists s. split; [lia|done].
    - intros [(s & ? & ?)|?]; [exists s|exists n]; (split; [lia|done]). }
  eapply (turn_tells q StringFst (0 <? nf) kNotString kString) in Hr; [|done|done|by intros _; apply Hcomp].
  assert ((∃ u, 0 ≤ u < n ∧ is_final f u) ↔ ∃ u, u < n ∧ is_final f u) as Hearlier.
  { split; intros (u & ? & Hu); exists u; (split; [|done]); [lia|]. destruct Hu as [[? ?] _]. lia. }
  rewrite Hearlier in Hfin. unfold state_or_arcs_turn.
  destruct (wneqb (Final f n) Zero) eqn:Hz.
  - assert (is_final f n) as Hf by (split; [done|]; by apply negb_true_iff).
    eapply (turn_tells q Weighted (wneqb (Final f n) One) kWeighted kUnweighted) in Hr; [|done|done|by intros _; apply Hcomp].
    eexists. split; [done|]. split_and!; simpl; [|lia|].
    + assert (∀ t, state_turns t n ↔ (wneqb (Final f n) One = true ∧ t = Weighted) ∨ ((∃ u, u < n ∧ is_final f u) ∧ t = StringFst)) as Hst.
      { intros []; simpl; unfold nontrivial; rewrite ?Hz; simpl; clear -Hf; naive_solver. }
      eapply tells_ext; [exact Hr|]. intros t _. rewrite (Hsplit (λ s, arcs_turn t s (Arcs f s) ∨ state_turns t s)), Z.ltb_lt, Hfin. cbv beta. rewrite Hst. clear. tauto.
    + rewrite Hsplit. split; [by right|lia].
  - assert (¬ is_final f n) as Hf by (intros [_ Hf]; unfold wneqb in Hz; by rewrite Hf in Hz).
    eapply (turn_tells q StringFst (negb (zlen (Arcs f n) =? 1)) kNotString kString) in Hr; [|done|done|by intros _; apply Hcomp].
    eexists. split; [done|]. split_and!; simpl; [|done|].
    + assert (∀ t, state_turns t n ↔ ((∃ u, u < n ∧ is_final f u) ∨ zlen (Arcs f n) ≠ 1) ∧ t = StringFst) as Hst.
      { intros []; simpl; unfold nontrivial; rewrite ?Hz; simpl; clear -Hf; naive_solver. }
      eapply tells_ext; [exact Hr|]. intros t _. rewrite (Hsplit (λ s, arcs_turn t s (Arcs f s) ∨ state_turns t s)), Z.ltb_lt, Hfin, negb_true_iff, Z.eqb_neq. cbv beta. rewrite Hst. clear. tauto.
    + rewrite Hsplit, Hearlier, Hfin. naive_solver.
Qed.

Lemma scan_states_ok F p :
  tells comp p F →
  ∃ p' nf, foldM (scan_state f mask scc) (seqZ 0 (NumStates f)) (p, 0) = Some (p', nf) ∧
    tells comp p' (λ t, F t ∨ ∃ s, valid f s ∧ state_or_arcs_turn t s).
Proof using Hcomp Hscc Hi Ho Hwf.
  intros Hp. pose proof Hwf as [HN _].
  destruct (foldM_total (scan_state f mask scc) (λ done, passing F (zlen done)) (seqZ 0 (NumStates f)) (p, 0))
    as ([p' nf] & H1 & H2 & _).
  - split_and!; simpl; [|lia|].
    + eapply tells_ext; [exact Hp|]. intros t _. change (zlen (@nil Z)) with 0. split; [by left|]. intros [?|(s & ? & _)]; [done|lia].
    + change (zlen (@nil Z)) with 0. split; [lia|]. intros (u & ? & _). lia.
  - intros done s todo acc [-> Hs]%seqZ_split Hacc.
    rewrite zlen_app, zlen_seqZ, Z.max_r in * by lia. by apply scan_state_ok.
  - rewrite zlen_seqZ, Z.max_r in H2 by lia. by exists p', nf.
Qed.
End states.
End scan.
End pass.

(** * What turned means *)

Section meaning.
Context `{WeightEq W}.
Context (f : Fst W) (scc : list Z).
Implicit Types (a : Arc W) (l k : list (Arc W)).
Notation arc_turns := (arc_turns scc).
Notation arcs_turn := (arcs_turn scc).

Lemma turns_none t s (P : list (Arc W) → Prop) l :
  P [] → (∀ l a, P (l ++ [a]) ↔ P l ∧ ¬ arc_turns t s l a) → P l ↔ ¬ arcs_turn t s l.
Proof.
  intros Hnil Hs. induction l as [|a l IH] using rev_ind.
  - pose proof (arcs_turn_nil scc t s). tauto.
  - rewrite arcs_turn_snoc, Hs, IH. tauto.
Qed.

Lemma turns_some t s (Q : Arc W → Prop) l :
  (∀ k a, arc_turns t s k a ↔ Q a) → arcs_turn t s l ↔ ∃ a, a ∈ l ∧ Q a.
Proof.
  intros HQ. split.
  - intros (k & a & l' & -> & Ha). exists a. split; [apply elem_of_app; right; left|by eapply HQ].
  - intros (a & (k & l' & ->)%list_elem_of_split & Ha). exists k, a, l'. split; [done|by apply HQ].
Qed.

Lemma sorted_none t s (lab : Arc W → Z) l :
  (∀ k a, arc_turns t s k a ↔ ∃ b, last k = Some b ∧ lab a < lab b) →
  Sorted Z.le (lab <$> l) ↔ ¬ arcs_turn t s l.
Proof.
  intros Ht. apply (turns_none t s (λ l, Sorted Z.le (lab <$> l))); [constructor|].
  intros k a. rewrite Ht, fmap_app. simpl. split.
  - intros Hs. split; [by eapply Sorted_app_l|]. intros (b & Hb & Hlt).
    pose proof (Sorted_snoc_last _ _ _ (lab b) Hs) as Hle. rewrite fmap_last, Hb in Hle. specialize (Hle eq_refl). lia.
  - intros [Hs Hn]. apply Sorted_snoc; [done|]. intros y Hy. rewrite fmap_last in Hy.
    apply fmap_Some in Hy as (b & Hb & ->). destruct (decide (lab b ≤ lab a)); [done|]. destruct Hn. exists b. split; [done|lia].
Qed.

Lemma nodup_none t s (lab : Arc W → Z) l :
  (∀ k a, arc_turns t s k a ↔ lab a ∈ lab <$> k) → NoDup (lab <$> l) ↔ ¬ arcs_turn t s l.
Proof.
  intros Ht. apply (turns_none t s (λ l, NoDup (lab <$> l))); [constructor|].
  intros k a. rewrite Ht, fmap_app, NoDup_app. simpl. split.
  - intros (? & Hn & _). split; [done|]. intros Hin. apply (Hn _ Hin). left.
  - intros [? Hn]. split_and!; [done| |by apply NoDup_singleton]. intros x Hx ->%list_elem_of_singleton. done.
Qed.

(** All that turns [t]. *)
Definition turned (t : trinary) : Prop :=
  (∃ s, valid f s ∧ state_or_arcs_turn f scc t s) ∨
  (Start f ≠ kNoStateId ∧ Start f ≠ 0 ∧ t = StringFst).

Lemma turned_iff t : t ≠ StringFst → turned t ↔ ∃ s, valid f s ∧ state_or_arcs_turn f scc t s.
Proof. unfold turned. naive_solver. Qed.

Lemma turned_arcs t : t ≠ StringFst → t ≠ Weighted → turned t ↔ ∃ s, valid f s ∧ arcs_turn t s (Arcs f s).
Proof.
  intros Hs Hw. rewrite turned_iff by done. unfold state_or_arcs_turn.
  assert (∀ s, ¬ state_turns f t s) as Hn by (intros s Hx; by destruct t).
  split; intros (s & ? & Ht); exists s; (split; [done|]); [|by left]. destruct Ht as [?|?]; [done|by destruct (Hn s)].
Qed.

Lemma turned_none t : t ≠ StringFst → t ≠ Weighted →
  (¬ turned t ↔ ∀ s, valid f s → ¬ arcs_turn t s (Arcs f s)).
Proof. intros Hs Hw. rewrite turned_arcs by done. split; [intros Hn s ? ?; apply Hn; by exists s|]. intros Hn (s & ? & ?). by apply (Hn s). Qed.

Lemma turned_some t (Q : Z → Arc W → Prop) : t ≠ StringFst → t ≠ Weighted →
  (∀ s k a, arc_turns t s k a ↔ Q s a) → turned t ↔ some_arc f Q.
Proof.
  intros Hs Hw HQ. rewrite turned_arcs by done. unfold some_arc. split.
  - intros (s & Hv & Ht). apply (turns_some t s (Q s)) in Ht as (a & ? & ?); [by exists s, a|done].
  - intros (s & a & Hv & ? & ?). exists s. split; [done|]. apply (turns_some t s (Q s)); [done|]. by exists a.
Qed.

Lemma all_none t (Q : Z → Arc W → Prop) : t ≠ StringFst → t ≠ Weighted →
  (∀ s k a, arc_turns t s k a ↔ ¬ Q s a) → (∀ s a, Decision (Q s a)) → all_arcs f Q ↔ ¬ turned t.
Proof.
  intros Hs Hw HQ HD. rewrite (turned_some t (λ s a, ¬ Q s a)) by done. unfold all_arcs, some_arc. split.
  - intros Ha (s & a & ? & ? & Hn). by apply Hn, Ha.
  - intros Hn s a ? ?. destruct (decide (Q s a)); [done|]. destruct Hn. by exists s, a.
Qed.

Lemma states_none t (P : list (Arc W) → Prop) : t ≠ StringFst → t ≠ Weighted →
  (∀ s, P (Arcs f s) ↔ ¬ arcs_turn t s (Arcs f s)) → (∀ s, valid f s → P (Arcs f s)) ↔ ¬ turned t.
Proof. intros Hs Hw HP. rewrite turned_none by done. by setoid_rewrite HP. Qed.

Lemma turned_weighted : Holds f Weighted ↔ turned Weighted.
Proof.
  rewrite turned_iff by done. unfold state_or_arcs_turn. simpl. unfold some_arc. split.
  - intros [(s & a & ? & ? & ?)|(s & ? & ?)]; exists s; (split; [done|]); [left|by right].
    apply (turns_some Weighted s (λ a, nontrivial (weight a) = true)); [done|]. by exists a.
  - intros (s & Hs & [Ha|?]); [left|right; by exists s].
    apply (turns_some Weighted s (λ a, nontrivial (weight a) = true)) in Ha as (a & ? & ?); [|done]. by exists s, a.
Qed.

Lemma turned_string :
  WellFormed f → (Start f = kNoStateId → NumStates f = 0) → Holds f StringFst ↔ ¬ turned StringFst.
Proof.
  intros (HN & Hwa & Hws) Hst. unfold turned, state_or_arcs_turn.
  assert (∀ s, valid f s → arcs_turn StringFst s (Arcs f s) ↔ ∃ a, a ∈ Arcs f s ∧ nextstate a ≠ s + 1) as Harcs.
  { intros s _. by apply turns_some. }
  split.
  - simpl. intros Hh [(s & Hv & Ht)|(Hno & Hne & _)].
    + destruct Hh as (_ & Hfin & Hlast & Hh); [unfold valid in Hv; lia|].
      assert (s = NumStates f - 1 ∨ 0 ≤ s < NumStates f - 1) as [->|Hs] by (unfold valid in Hv; lia).
      * destruct Ht as [Ht|[(u & Hu & Hf)|[Hf _]]]; [|by destruct (Hh u); [destruct Hf as [[? ?] _]; lia|]|done].
        apply Harcs in Ht as (a & Ha & _); [|done]. rewrite Hlast in Ha. by apply not_elem_of_nil in Ha.
      * destruct (Hh s Hs) as (Hnf & a & Ha & Hnext). rewrite Ha in Ht. destruct Ht as [Ht|[(u & Hu & Hf)|[_ Hl]]].
        -- rewrite <-Ha in Ht. apply Harcs in Ht as (b & Hb & Hne); [|done]. rewrite Ha in Hb. apply list_elem_of_singleton in Hb as ->. done.
        -- by destruct (Hh u); [destruct Hf as [[? ?] _]; lia|].
        -- done.
    + destruct Hws as [|Hv]; [done|]. destruct Hh as [? _]; [unfold valid in Hv; lia|done].
  - simpl. intros Hn HN'.
    assert (Start f = 0) as Hs0.
    { destruct (decide (Start f = 0)) as [|Hne]; [done|]. destruct Hn. right. split; [|done]. intros E. specialize (Hst E). lia. }
    assert (∀ s, valid f s → ∀ a, a ∈ Arcs f s → nextstate a = s + 1) as Hnext.
    { intros s Hv a Ha. destruct (decide (nextstate a = s + 1)) as [|Hne]; [done|]. destruct Hn. left.
      exists s. split; [done|]. left. apply Harcs; [done|]. by exists a. }
    assert (∀ s, valid f s → is_final f s ∨ zlen (Arcs f s) = 1) as Hone.
    { intros s Hv. destruct (weqb (Final f s) Zero) eqn:Hz; [right|by left].
      destruct (decide (zlen (Arcs f s) = 1)) as [|Hne]; [done|]. destruct Hn. left. exists s. split; [done|]. right. right.
      split; [|done]. intros [_ ?]. congruence. }
    assert (∀ s, 0 ≤ s < NumStates f - 1 → ¬ is_final f s) as Hnf.
    { intros s Hs Hf. destruct Hn. left. exists (s + 1). split; [unfold valid; lia|]. right. left. exists s. split; [lia|done]. }
    assert (valid f (NumStates f - 1)) as Hl by (unfold valid; lia).
    assert (Arcs f (NumStates f - 1) = []) as Hlast.
    { destruct (Arcs f (NumStates f - 1)) as [|a l] eqn:Ha; [done|].
      assert (a ∈ Arcs f (NumStates f - 1)) as Hin by (rewrite Ha; left).
      pose proof (Hwa _ a Hl Hin) as [_ Hlt]. rewrite (Hnext _ Hl a Hin) in Hlt. lia. }
    split_and!; [done| |done|].
    + destruct (Hone _ Hl) as [?|Hz]; [done|]. rewrite Hlast in Hz. done.
    + intros s Hs. split; [by apply Hnf|]. assert (valid f s) as Hv by (unfold valid; lia).
      destruct (Hone s Hv) as [Hf|Hz]; [by destruct (Hnf s Hs)|].
      destruct (Arcs f s) as [|a [|b l]] eqn:Ha; rewrite ?zlen_cons, ?zlen_nil in Hz; [done| |pose proof (zlen_nonneg l); lia].
      exists a. split; [done|]. apply (Hnext s Hv). rewrite Ha. left.
Qed.

Lemma turned_cycles :
  WellFormed f → zlen scc = NumStates f →
  (∀ s t x y, scc.[s] = Some x → scc.[t] = Some y → x = y ↔ rtc (edge f) s t ∧ rtc (edge f) t s) →
  Holds f WeightedCycles ↔ turned WeightedCycles.
Proof.
  intros (_ & Hwa & _) Hlen Hsame. symmetry.
  rewrite (turned_some _ (λ s a, nontrivial (weight a) = true ∧ scc.[s] = scc.[nextstate a])) by done. simpl. unfold some_arc.
  assert (∀ s a, valid f s → a ∈ Arcs f s → scc.[s] = scc.[nextstate a] ↔ rtc (edge f) (nextstate a) s) as Hiff.
  { intros s a Hs Ha. destruct (vget_in_range scc s) as [x Hx]; [by rewrite Hlen|].
    destruct (vget_in_range scc (nextstate a)) as [y Hy]; [rewrite Hlen; by apply (Hwa s)|].
    rewrite Hx, Hy. pose proof (Hsame _ _ _ _ Hx Hy) as Hs'. split.
    - intros [= E]. by apply Hs'.
    - intros Hr. f_equal. apply Hs'. split; [|done]. apply rtc_once. split; [done|by exists a]. }
  split; intros (s & a & Hs & Ha & Hw & Hr); exists s, a; (split_and!; [done..|]); by apply Hiff.
Qed.
End meaning.

(** * The computed bits *)

Lemma has_testbit m p i : 0 ≤ i → Z.testbit m i = true → Z.testbit p i = true → has p m = true.
Proof.
  intros Hi Hm Hp. unfold has. destruct (Z.eqb_spec (p &&& m) 0) as [E|]; [|done].
  assert (Z.testbit (p &&& m) i = false) as Hf by (by rewrite E, Z.bits_0).
  rewrite Z.land_spec, Hm, Hp in Hf. done.
Qed.

Definition needs_dfs (mask : Z) : bool := has mask (kDfsProps ||| kWeightedCycles ||| kUnweightedCycles).
Definition needs_pass (mask : Z) : bool := has mask (u64_not (kBinaryProperties ||| kDfsProps)).

Definition dfs_property (t : trinary) : bool :=
  match t with Cyclic | InitialCyclic | Accessible | CoAccessible => true | _ => false end.

(** The properties that are determined for a mask. *)
Definition computed (mask : Z) (t : trinary) : bool :=
  match t with
  | Cyclic | InitialCyclic | Accessible | CoAccessible => needs_dfs mask
  | IDeterministic => needs_pass mask && has mask (kIDeterministic ||| kNonIDeterministic)
  | ODeterministic => needs_pass mask && has mask (kODeterministic ||| kNonODeterministic)
  | WeightedCycles => needs_pass mask && needs_dfs mask
  | _ => needs_pass mask
  end.

Definition asked (mask : Z) (t : trinary) : Prop :=
  Z.testbit mask (pos_bit t) = true ∨ Z.testbit mask (neg_bit t) = true.

(** The properties asked for are among them. *)
Lemma asked_computed mask t : asked mask t → computed mask t = true.
Proof.
  assert (∀ m, (Z.testbit m (pos_bit t) && Z.testbit m (neg_bit t) = true)%bool → asked mask t → has mask m = true) as Hhas.
  { destruct (bit_range t). intros m [? ?]%andb_true_iff [Hb|Hb]; [apply (has_testbit m mask (pos_bit t))|apply (has_testbit m mask (neg_bit t))]; done || lia. }
  intros Ha. destruct t; simpl; unfold needs_dfs, needs_pass; rewrite ?andb_true_iff; repeat split; by apply Hhas.
Qed.

Section computing.
Context `{WeightEq W}.
Implicit Types (f : Fst W).

Definition base_props f : Z := FstProperties f &&& kFstProperties &&& kBinaryProperties.

Lemma base_bits f i : 0 ≤ i → Z.testbit (base_props f) i = Z.testbit (FstProperties f) i && (i <? 3).
Proof.
  intros Hi. unfold base_props. rewrite <-Z.land_assoc. change (kFstProperties &&& kBinaryProperties) with (Z.ones 3).
  rewrite Z.land_spec. destruct (Z.ltb_spec i 3); [by rewrite Z.ones_spec_low by lia|by rewrite Z.ones_spec_high by lia].
Qed.

(** What the visit leaves for the pass. *)
Record dfs_result f (mask : Z) (scc : list Z) (p : Z) : Prop := {
  dfs_other : ∀ i, 0 ≤ i < 64 → Z.testbit scc_mask i = false → Z.testbit p i = Z.testbit (base_props f) i;
  dfs_bits : needs_dfs mask = true → ∀ t, dfs_property t = true →
    (Z.testbit p (pos_bit t) = true ↔ Holds f t) ∧ (Z.testbit p (neg_bit t) = true ↔ ¬ Holds f t);
  dfs_none : needs_dfs mask = false → p = base_props f;
  dfs_len : needs_dfs mask = true → zlen scc = NumStates f;
  dfs_same : needs_dfs mask = true → ∀ s t x y, scc.[s] = Some x → scc.[t] = Some y →
    x = y ↔ rtc (edge f) s t ∧ rtc (edge f) t s;
}.

Lemma empty_dfs_property f t : NumStates f = 0 → dfs_property t = true → Holds f t ↔ default_value t = true ∧ t ≠ Cyclic ∧ t ≠ InitialCyclic.
Proof.
  intros Hn Ht. assert (∀ s, ¬ valid f s) as Hv by (unfold valid; lia).
  assert (∀ s, ¬ tc (edge f) s s) as Hc by (intros s (u & [Hs _] & _)%tc_first; exact (Hv s Hs)).
  destruct t; try done; simpl; naive_solver.
Qed.

Lemma visit_ok f known mask :
  WellFormed f → (Start f = kNoStateId → NumStates f = 0) → known_states f known →
  ∃ scc p, (if needs_dfs mask
            then v ← DfsVisit f scc_visitor AnyArcFilter known false (SccVisitor_new (Some []) None [] (base_props f) f);
                 scc ← scc_ v; Some (scc, props_ v)
            else Some ([], base_props f)) = Some (scc, p) ∧ dfs_result f mask scc p.
Proof.
  intros Hwf Hst Hk. destruct (needs_dfs mask) eqn:Hd; [|exists [], (base_props f); split; [done|]; split; by rewrite ?Hd].
  destruct (decide (Start f = kNoStateId)) as [Hno|Hv].
  - unfold DfsVisit. cbn [InitVisit scc_visitor]. rewrite Hno. cbn [Z.eqb kNoStateId Pos.eqb].
    eexists [], _. split; [done|]. cbn [props_ Scc_InitVisit SccVisitor_new].
    destruct (flags_init (base_props f) (base_props f)) as [F1 F2 F3 F4 Fo]; [done|].
    split; rewrite ?Hd; try done.
    + intros _ t Ht. rewrite (empty_dfs_property f t (Hst Hno) Ht).
      destruct F1 as [A1 B1], F2 as [A2 B2], F3 as [A3 B3], F4 as [A4 B4].
      destruct t; try done; rewrite ?A1, ?B1, ?A2, ?B2, ?A3, ?B3, ?A4, ?B4; simpl; naive_solver.
    + intros _. by rewrite Hst.
    + intros _ s t x y Hx%vget_range. unfold zlen in Hx. simpl in Hx. lia.
  - assert (valid f (Start f)) as Hs by by destruct Hwf as (_ & _ & [?|?]).
    destruct (scc_visit f known (Some []) None [] (base_props f) f Hwf Hs Hk) as (v & -> & [Hscc _ _ Hb Ho] & Hp & _).
    destruct (proj2 Hp ltac:(eauto)) as [scc Hsv]. cbn [mbind option_bind]. rewrite Hsv.
    exists scc, (props_ v). split; [done|]. destruct (Hscc scc Hsv) as (Hlen & Hsame & _).
    split; rewrite ?Hd; try done. intros _ t Ht. apply Hb. rewrite !elem_of_cons. destruct t; try done; tauto.
Qed.
(** The bits before the pass. *)
Definition pass_init (mask p : Z) : Z :=
  let p := p ||| (kAcceptor ||| kNoEpsilons ||| kNoIEpsilons ||| kNoOEpsilons ||| kILabelSorted |||
                  kOLabelSorted ||| kUnweighted ||| kTopSorted ||| kString) in
  let p := if has mask (kIDeterministic ||| kNonIDeterministic) then p ||| kIDeterministic else p in
  let p := if has mask (kODeterministic ||| kNonODeterministic) then p ||| kODeterministic else p in
  if needs_dfs mask then p ||| kUnweightedCycles else p.

(** A property of the visit that is false. *)
Definition visit_turned (p : Z) (t : trinary) : Prop := dfs_property t = true ∧ Z.testbit p (pos_bit t) = false.

Lemma visit_flag f mask scc p t :
  dfs_result f mask scc p → dfs_property t = true →
  if needs_dfs mask then ∃ b, flag p t (xorb b (default_value t)) ∧ (b = true ↔ visit_turned p t)
  else Z.testbit p (pos_bit t) = false ∧ Z.testbit p (neg_bit t) = false.
Proof.
  intros Hd Ht. destruct (needs_dfs mask) eqn:Hn.
  - destruct (dfs_bits _ _ _ _ Hd Hn t Ht) as [Hp Hq]. exists (negb (Z.testbit p (pos_bit t))).
    assert (default_value t = true) as -> by by destruct t. unfold flag, visit_turned.
    destruct (Z.testbit p (pos_bit t)), (Z.testbit p (neg_bit t)); simpl; naive_solver.
  - rewrite (dfs_none _ _ _ _ Hd Hn), !base_bits by (destruct (bit_range t); lia). destruct t; by rewrite !andb_false_r.
Qed.

Lemma visit_plain f mask scc p t :
  dfs_result f mask scc p → dfs_property t = false →
  Z.testbit p (pos_bit t) = false ∧ Z.testbit p (neg_bit t) = false.
Proof.
  intros Hd Ht. rewrite !(dfs_other _ _ _ _ Hd), !base_bits by (destruct (bit_range t); lia || by destruct t).
  destruct t; by rewrite !andb_false_r.
Qed.

Lemma visit_binary f mask scc p i :
  dfs_result f mask scc p → 0 ≤ i < 16 → Z.testbit p i = Z.testbit (base_props f) i.
Proof.
  intros Hd Hi. apply (dfs_other _ _ _ _ Hd); [lia|].
  change scc_mask with (Z.shiftl (Z.shiftr scc_mask 16) 16). by rewrite Z.shiftl_spec_low by lia.
Qed.

Lemma dfs_tells f mask scc p : dfs_result f mask scc p → needs_pass mask = false →
  tells (base_props f) (computed mask) p (visit_turned p).
Proof.
  intros Hd Hn. split; [intros i Hi; by eapply visit_binary|]. intros t.
  destruct (dfs_property t) eqn:Ht.
  - assert (computed mask t = needs_dfs mask) as -> by by destruct t. by eapply visit_flag.
  - assert (computed mask t = false) as -> by (destruct t; simpl; rewrite ?Hn; done). by eapply visit_plain.
Qed.

(** The bits the pass starts with, and those it leaves alone. *)
Lemma pass_init_bit mask p i :
  0 ≤ i →
  Z.testbit (pass_init mask p) i = Z.testbit p i ||
    Z.testbit (kAcceptor ||| kNoEpsilons ||| kNoIEpsilons ||| kNoOEpsilons ||| kILabelSorted |||
               kOLabelSorted ||| kUnweighted ||| kTopSorted ||| kString) i ||
    has mask (kIDeterministic ||| kNonIDeterministic) && (i =? 18) ||
    has mask (kODeterministic ||| kNonODeterministic) && (i =? 20) || needs_dfs mask && (i =? 47).
Proof.
  intros Hi. unfold pass_init. set (c := kAcceptor ||| _).
  change kIDeterministic with (2 ^ 18). change kODeterministic with (2 ^ 20). change kUnweightedCycles with (2 ^ 47).
  destruct (has mask (2 ^ 18 ||| _)), (has mask (2 ^ 20 ||| _)), (needs_dfs mask);
    rewrite ?Z.lor_spec, ?Z.pow2_bits_eqb, ?(Z.eqb_sym i) by lia; cbn [andb]; by rewrite ?orb_false_r, <-?orb_assoc.
Qed.

Lemma init_tells f mask scc p : dfs_result f mask scc p → needs_pass mask = true →
  tells (base_props f) (computed mask) (pass_init mask p) (visit_turned p).
Proof.
  intros Hd Hn. split.
  - intros i Hi. rewrite pass_init_bit by lia. rewrite (visit_binary f mask scc p i Hd Hi).
    rewrite !(proj2 (Z.eqb_neq i _)), !andb_false_r, !orb_false_r by lia.
    change (kAcceptor ||| kNoEpsilons ||| kNoIEpsilons ||| kNoOEpsilons ||| kILabelSorted |||
               kOLabelSorted ||| kUnweighted ||| kTopSorted ||| kString) with
      (Z.shiftl (Z.shiftr (kAcceptor ||| kNoEpsilons ||| kNoIEpsilons ||| kNoOEpsilons ||| kILabelSorted |||
               kOLabelSorted ||| kUnweighted ||| kTopSorted ||| kString) 16) 16).
    by rewrite Z.shiftl_spec_low, orb_false_r by lia.
  - intros t. destruct (dfs_property t) eqn:Ht.
    + assert (computed mask t = needs_dfs mask) as -> by by destruct t.
      pose proof (visit_flag f mask scc p t Hd Ht) as Hf. unfold flag in *.
      rewrite !pass_init_bit by (destruct (bit_range t); lia).
      destruct t; try done; simpl; rewrite ?andb_false_r, ?orb_false_r; exact Hf.
    + destruct (visit_plain f mask scc p t Hd Ht) as [Hp Hq].
      unfold flag. rewrite !pass_init_bit, Hp, Hq by (destruct (bit_range t); lia).
      assert (¬ visit_turned p t) as Hv by (unfold visit_turned; rewrite Ht; naive_solver).
      destruct t; try done; simpl; rewrite ?Hn, ?andb_false_r, ?andb_true_r, ?orb_false_r; simpl; try (by exists false; split; [done|naive_solver]).
      * destruct (has mask _); simpl; [|done]. exists false. split; [done|naive_solver].
      * destruct (has mask _); simpl; [|done]. exists false. split; [done|naive_solver].
      * destruct (needs_dfs mask); simpl; [|done]. exists false. split; [done|naive_solver].
Qed.

(** What the result says of each property that was determined. *)
Definition turned_right f (T : trinary → Prop) (t : trinary) : Prop :=
  Holds f t ↔ if default_value t then ¬ T t else T t.

Lemma turned_right_ext f (T U : trinary → Prop) t : (T t ↔ U t) → turned_right f T t → turned_right f U t.
Proof. unfold turned_right. intros HTU. destruct (default_value t); tauto. Qed.

Lemma turned_pass f mask scc p t :
  WellFormed f → (Start f = kNoStateId → NumStates f = 0) → dfs_result f mask scc p →
  dfs_property t = false → computed mask t = true → turned_right f (turned f scc) t.
Proof.
  intros Hwf Hst Hd Ht Hc. unfold turned_right. destruct t; try done; cbn [default_value].
  - apply (all_none f scc Acceptor (λ _ a, ilabel a = olabel a)); [done..|apply _].
  - apply (states_none f scc IDeterministic (λ l, NoDup (ilabel <$> l))); [done..|]. intros s. by apply nodup_none.
  - apply (states_none f scc ODeterministic (λ l, NoDup (olabel <$> l))); [done..|]. intros s. by apply nodup_none.
  - symmetry. by apply (turned_some f scc Epsilons (λ _ a, ilabel a = 0 ∧ olabel a = 0)).
  - symmetry. by apply (turned_some f scc IEpsilons (λ _ a, ilabel a = 0)).
  - symmetry. by apply (turned_some f scc OEpsilons (λ _ a, olabel a = 0)).
  - apply (states_none f scc ILabelSorted (λ l, Sorted Z.le (ilabel <$> l))); [done..|]. intros s. by apply sorted_none.
  - apply (states_none f scc OLabelSorted (λ l, Sorted Z.le (olabel <$> l))); [done..|]. intros s. by apply sorted_none.
  - apply turned_weighted.
  - apply (all_none f scc TopSorted (λ s a, s < nextstate a)); [done..| |intros; apply _].
    intros s k a. simpl. lia.
  - by apply turned_string.
  - simpl in Hc. apply andb_true_iff in Hc as [_ Hn].
    apply turned_cycles; [done|by eapply dfs_len|by eapply dfs_same].
Qed.

Lemma compute_tells f known mask :
  WellFormed f → (Start f = kNoStateId → NumStates f = 0) → known_states f known →
  ∃ p T, ComputeProperties f known mask = Some p ∧ tells (base_props f) (computed mask) p T ∧
    ∀ t, computed mask t = true → turned_right f T t.
Proof.
  intros Hwf Hst Hk. unfold ComputeProperties. fold (base_props f). fold (needs_dfs mask) (needs_pass mask).
  destruct (visit_ok f known mask Hwf Hst Hk) as (scc & p & -> & Hd). cbn [mbind option_bind].
  assert (∀ t T, dfs_property t = true → computed mask t = true → (T t ↔ visit_turned p t) → turned_right f T t) as Hdfs.
  { intros t T Ht Hc HT. unfold turned_right. assert (default_value t = true) as -> by by destruct t.
    assert (needs_dfs mask = true) as Hn by by destruct t.
    destruct (dfs_bits _ _ _ _ Hd Hn t Ht) as [<- _]. rewrite HT. unfold visit_turned.
    destruct (Z.testbit p (pos_bit t)); naive_solver. }
  destruct (needs_pass mask) eqn:Hp.
  - pose proof (init_tells f mask scc p Hd Hp) as Hi. fold (pass_init mask p).
    destruct (scan_states_ok f scc (base_props f) (computed mask)) with (mask := mask) (F := visit_turned p) (p := pass_init mask p)
      as (p' & nf & Hp' & Ht); [..|done|].
    + intros t Ht. by destruct t.
    + simpl. rewrite Hp. simpl. apply (dfs_len _ _ _ _ Hd).
    + done.
    + simpl. by rewrite Hp.
    + simpl. by rewrite Hp.
    + unfold pass_init in Hp' |- *. rewrite Hp'. cbn [mbind option_bind].
      eapply (turn_tells (base_props f) StringFst (negb (Start f =? kNoStateId) && negb (Start f =? 0)) kNotString kString) in Ht;
        [|done|done|by intros _; simpl].
      eexists _, _. split; [done|]. split; [exact Ht|]. intros t Hc.
      destruct (dfs_property t) eqn:Hdt.
      * apply (Hdfs t); [done|done|]. rewrite turned_ne by by destruct t. split; [|by left].
        intros [?|(s & _ & [(k & a & l & _ & ?)|?])]; [done|by destruct t..].
      * eapply turned_right_ext; [|by eapply turned_pass].
        unfold turned, visit_turned. rewrite Hdt, andb_true_iff, !negb_true_iff, !Z.eqb_neq. naive_solver.
  - exists p, (visit_turned p). split; [done|]. split; [by eapply dfs_tells|].
    intros t Hc. apply Hdfs; [|done|done]. destruct t; simpl in Hc; rewrite ?Hp in Hc; done.
Qed.
End computing.

Section results.
Context `{WeightEq W}.
Implicit Types (f : Fst W) (x : VectorFst W).

(** The bits of [p] answer for [t]. *)
Definition answers f (p : Z) (t : trinary) : Prop :=
  (Z.testbit p (pos_bit t) = true ↔ Holds f t) ∧ (Z.testbit p (neg_bit t) = true ↔ ¬ Holds f t).

Lemma compute_ok f known mask :
  WellFormed f → (Start f = kNoStateId → NumStates f = 0) → known_states f known →
  ∃ p, ComputeProperties f known mask = Some p ∧ Sound p f ∧
    (∀ t, if computed mask t then answers f p t
          else Z.testbit p (pos_bit t) = false ∧ Z.testbit p (neg_bit t) = false) ∧
    (∀ i, 0 ≤ i < 16 → Z.testbit p i = Z.testbit (base_props f) i).
Proof.
  intros Hwf Hst Hk. destruct (compute_tells f known mask Hwf Hst Hk) as (p & T & Hp & [Hb Ht] & Hr).
  assert (∀ t, if computed mask t then answers f p t
          else Z.testbit p (pos_bit t) = false ∧ Z.testbit p (neg_bit t) = false) as Ha.
  { intros t. specialize (Ht t). specialize (Hr t). destruct (computed mask t); [|done].
    destruct Ht as (b & [E1 E2] & HT). specialize (Hr eq_refl). unfold turned_right in Hr. unfold answers. rewrite E1, E2.
    destruct (default_value t), b; simpl; naive_solver. }
  exists p. split_and!; [done| |done|done]. intros t. specialize (Ha t).
  destruct (computed mask t); [destruct Ha as [-> ->]; done|destruct Ha as [-> ->]; done].
Qed.

Lemma known_bits p t :
  Z.testbit (KnownProperties p) (pos_bit t) = Z.testbit p (pos_bit t) || Z.testbit p (neg_bit t) ∧
  Z.testbit (KnownProperties p) (neg_bit t) = Z.testbit p (pos_bit t) || Z.testbit p (neg_bit t).
Proof.
  unfold KnownProperties, u64.
  split; destruct t; bit_const; rewrite !Z.lor_spec, Z.mod_pow2_bits_low, Z.shiftl_spec, Z.shiftr_spec, !Z.land_spec by lia;
    cbn [Z.sub Z.add Z.opp Z.pos_sub Pos.add Pos.succ Z.succ_double Z.pred_double Z.double Pos.pred_double];
    repeat match goal with |- context [Z.testbit ?c ?k] => is_const c;
      let v := eval vm_compute in (Z.testbit c k) in change (Z.testbit c k) with v end;
    rewrite ?andb_false_r, ?andb_true_r, ?orb_false_r; try done; apply orb_comm.
Qed.

(** A mask whose known bits are all there. *)
Lemma known_covers p mask t :
  KnownProperties p &&& mask = mask → asked mask t →
  Z.testbit p (pos_bit t) = true ∨ Z.testbit p (neg_bit t) = true.
Proof.
  intros Hm Ht. destruct (known_bits p t) as [E1 E2]. apply orb_true_iff.
  destruct Ht as [Hb|Hb]; rewrite <-Hm, Z.land_spec in Hb; apply andb_true_iff in Hb as [Hb _]; congruence.
Qed.

Lemma sound_answers f p t :
  Sound p f → Z.testbit p (pos_bit t) = true ∨ Z.testbit p (neg_bit t) = true → answers f p t.
Proof. intros Hs Hp. destruct (Hs t) as [H1 H2]. unfold answers. naive_solver. Qed.

(** The result of [TestProperties], and of what it uses. *)
Lemma test_ok verify f known mask :
  WellFormed f → (Start f = kNoStateId → NumStates f = 0) → known_states f known → SoundFst f →
  ∃ p, TestProperties verify f known mask = Some (p, KnownProperties p) ∧ Sound p f ∧
    (∀ t, asked mask t → answers f p t) ∧
    (∀ i, 0 ≤ i < 3 → Z.testbit p i = Z.testbit (FstProperties f) i).
Proof.
  intros Hwf Hst Hk Hs.
  destruct (compute_ok f known mask Hwf Hst Hk) as (p & Hp & Hsp & Ha & Hb).
  assert (∀ t, asked mask t → answers f p t) as Hasked.
  { intros t Ht%asked_computed. specialize (Ha t). by rewrite Ht in Ha. }
  assert (∀ i, 0 ≤ i < 3 → Z.testbit p i = Z.testbit (FstProperties f) i) as Hbin.
  { intros i Hi. rewrite Hb, base_bits by lia. rewrite (proj2 (Z.ltb_lt i 3)) by lia. apply andb_true_r. }
  unfold TestProperties, ComputeOrUseStoredProperties. rewrite Hp. cbn [mbind option_bind].
  destruct verify; [by exists p|]. destruct (Z.eqb_spec (KnownProperties (FstProperties f &&& kFstProperties) &&& mask) mask) as [E|];
    [|by exists p].
  exists (FstProperties f &&& kFstProperties). split; [done|].
  assert (Sound (FstProperties f &&& kFstProperties) f) as Hsf.
  { intros t. specialize (Hs t). revert Hs. destruct t; bits; by rewrite ?andb_true_r. }
  split; [done|]. split.
  - intros t Ht. apply sound_answers; [done|]. by eapply known_covers.
  - intros i Hi. rewrite Z.land_spec. replace (Z.testbit kFstProperties i) with true; [apply andb_true_r|].
    assert (i = 0 ∨ i = 1 ∨ i = 2) as [->|[->| ->]] by lia; done.
Qed.

(** ** The stored bits *)

Lemma update_bit x p m i : 0 ≤ i < 64 →
  Z.testbit (properties_ (UpdateProperties x p m)) i = Z.testbit (properties_ x) i ||
    Z.testbit p i && Z.testbit m i && negb (Z.testbit (KnownProperties (properties_ x &&& m)) i).
Proof.
  intros Hi. unfold UpdateProperties. set (d := p &&& (m &&& u64_not (KnownProperties (properties_ x &&& m)))).
  assert (properties_ (with_properties x (if negb (d =? 0) then properties_ x ||| d else properties_ x)) = properties_ x ||| d) as ->.
  { simpl. destruct (Z.eqb_spec d 0) as [->|]; simpl; [by rewrite Z.lor_0_r|done]. }
  unfold d. rewrite Z.lor_spec, !Z.land_spec, u64_not_spec by done. by rewrite andb_assoc.
Qed.

Lemma update_sound x p m f : Sound (properties_ x) f → Sound p f → Sound (properties_ (UpdateProperties x p m)) f.
Proof.
  intros Hx Hp t. destruct (bit_range t). rewrite !update_bit, !orb_true_iff, !andb_true_iff by done.
  destruct (Hx t), (Hp t). naive_solver.
Qed.

(** Discovered properties are stored. *)
Lemma update_answers x p f t :
  Sound (properties_ x) f → Sound p f → answers f p t →
  answers f (properties_ (UpdateProperties x p (KnownProperties p))) t.
Proof.
  intros Hx Hp Ha. apply sound_answers; [by apply update_sound|]. destruct (bit_range t).
  rewrite !update_bit by done. destruct (known_bits p t) as [K1 K2].
  destruct (known_bits (properties_ x &&& KnownProperties p) t) as [L1 L2]. rewrite K1, K2, L1, L2, !Z.land_spec, K1, K2.
  assert (Z.testbit p (pos_bit t) || Z.testbit p (neg_bit t) = true) as Hor.
  { destruct Ha as [A1 A2]. destruct (Z.testbit p (pos_bit t)), (Z.testbit p (neg_bit t)); naive_solver. }
  rewrite Hor, !andb_true_r. revert Hor.
  destruct (Z.testbit (properties_ x) (pos_bit t)), (Z.testbit (properties_ x) (neg_bit t)),
    (Z.testbit p (pos_bit t)), (Z.testbit p (neg_bit t)); simpl; auto.
Qed.

(** C25: [ComputeProperties] of a well-formed machine, with a start state if it
has states, ends for every mask without an access out of range.  Every bit of
the result is true of the machine; of each property one of whose bits is in the
mask, exactly one of the two bits is set, the one that is right; the binary bits
are the stored ones. *)
Theorem ComputeProperties_correct f known mask :
  WellFormed f → (Start f = kNoStateId → NumStates f = 0) → known_states f known →
  ∃ p, ComputeProperties f known mask = Some p ∧ Sound p f ∧
    (∀ t, asked mask t →
      (Z.testbit p (pos_bit t) = true ↔ Holds f t) ∧ (Z.testbit p (neg_bit t) = true ↔ ¬ Holds f t)) ∧
    (∀ i, 0 ≤ i < 3 → Z.testbit p i = Z.testbit (FstProperties f) i).
Proof.
  intros Hwf Hst Hk. destruct (compute_ok f known mask Hwf Hst Hk) as (p & Hp & Hsp & Ha & Hb).
  exists p. split_and!; [done..| |].
  - intros t Ht%asked_computed. specialize (Ha t). by rewrite Ht in Ha.
  - intros i Hi. rewrite Hb, base_bits by lia. rewrite (proj2 (Z.ltb_lt i 3)) by lia. apply andb_true_r.
Qed.

(** C26: [Properties] of a machine whose stored bits are true returns only bits
of the mask, all of them true; with the test it also answers for every property
of the mask, and stores what it found: the stored bits stay true and answer for
these properties from then on, with or without verification.  The machine
itself does not change. *)
Theorem Properties_correct verify x mask test :
  WellFormed (vector_view x) → (Start (vector_view x) = kNoStateId → NumStates (vector_view x) = 0) → SoundFst (vector_view x) →
  ∃ x' r, Fst_Properties verify x mask test = Some (x', r) ∧
    vector_view x' ≡ vector_view x ∧ SoundFst (vector_view x') ∧ Sound r (vector_view x) ∧
    (∀ i, Z.testbit mask i = false → Z.testbit r i = false) ∧
    (test = true → ∀ t, asked mask t →
      (Z.testbit mask (pos_bit t) = true → Z.testbit r (pos_bit t) = true ↔ Holds (vector_view x) t) ∧
      (Z.testbit mask (neg_bit t) = true → Z.testbit r (neg_bit t) = true ↔ ¬ Holds (vector_view x) t) ∧
      answers (vector_view x) (properties_ x') t).
Proof.
  intros Hwf Hst Hs. unfold Fst_Properties.
  assert (∀ p, Sound p (vector_view x) → Sound (p &&& mask) (vector_view x)) as Hmask.
  { intros p Hp t. rewrite !Z.land_spec, !andb_true_iff. destruct (Hp t). naive_solver. }
  assert (∀ p i, Z.testbit mask i = false → Z.testbit (p &&& mask) i = false) as Hout.
  { intros p i Hi. by rewrite Z.land_spec, Hi, andb_false_r. }
  destruct test; [|exists x, (properties_ x &&& mask); split_and!; by auto].
  destruct (test_ok verify (vector_view x) (Some (zlen (states_ x))) mask Hwf) as (p & -> & Hp & Ha & _);
    [done|by left|done|].
  cbn [mbind option_bind]. eexists _, _. split; [done|]. split_and!.
  - apply view_with_properties.
  - assert (vector_view (UpdateProperties x p (KnownProperties p)) ≡ vector_view x) as E by apply view_with_properties.
    unfold SoundFst. change (FstProperties (vector_view ?y)) with (properties_ y).
    rewrite E. by apply update_sound.
  - by apply Hmask.
  - by apply Hout.
  - intros _ t Ht. specialize (Ha t Ht). split_and!; [..|by apply update_answers];
      intros Hm; rewrite Z.land_spec, Hm, andb_true_r; apply Ha.
Qed.
End results.

(** * Instances *)

Section witnesses.
Local Notation M := MinMaxWeight.

Lemma ComputeProperties_correct_witness :
  ∃ p, ComputeProperties loop_fst (Some 4) kFstProperties = Some p ∧ Sound p loop_fst ∧
    (∀ t, asked kFstProperties t →
      (Z.testbit p (pos_bit t) = true ↔ Holds loop_fst t) ∧ (Z.testbit p (neg_bit t) = true ↔ ¬ Holds loop_fst t)) ∧
    (∀ i, 0 ≤ i < 3 → Z.testbit p i = Z.testbit (FstProperties loop_fst) i).
Proof.
  apply (ComputeProperties_correct loop_fst (Some 4) kFstProperties loop_fst_wf); [done|by left].
Defined.

Example loop_fst_properties :
  ComputeProperties loop_fst (Some 4) kFstProperties =
  Some (kExpanded ||| kNotAcceptor ||| kIDeterministic ||| kODeterministic ||| kNoEpsilons ||| kIEpsilons |||
        kOEpsilons ||| kILabelSorted ||| kOLabelSorted ||| kUnweighted ||| kCyclic ||| kInitialAcyclic |||
        kNotTopSorted ||| kAccessible ||| kNotCoAccessible ||| kNotString ||| kUnweightedCycles).
Proof. by vm_compute. Qed.

(** Two states, an arc and no bits known. *)
Definition unknown_history : list (mutation M) :=
  [MAddStates 2; MSetStart 0; MAddArc 0 (MkArc 1 2 One 1); MAddArc 0 (MkArc 1 3 One 1)].
Definition unknown_fst : VectorFst M :=
  with_properties (default VectorFst_new (foldM mutate unknown_history VectorFst_new)) 0.

Lemma Properties_correct_witness :
  let f := vector_view unknown_fst in
  ∃ x' r, Fst_Properties false unknown_fst kIDeterministic true = Some (x', r) ∧
    vector_view x' ≡ f ∧ SoundFst (vector_view x') ∧ Sound r f ∧
    (∀ i, Z.testbit kIDeterministic i = false → Z.testbit r i = false) ∧
    (true = true → ∀ t, asked kIDeterministic t →
      (Z.testbit kIDeterministic (pos_bit t) = true → Z.testbit r (pos_bit t) = true ↔ Holds f t) ∧
      (Z.testbit kIDeterministic (neg_bit t) = true → Z.testbit r (neg_bit t) = true ↔ ¬ Holds f t) ∧
      answers f (properties_ x') t).
Proof.
  apply (Properties_correct false unknown_fst kIDeterministic true);
    [by apply well_formedb_spec; vm_compute|by vm_compute|].
  intros t. change (FstProperties (vector_view unknown_fst)) with 0. by rewrite !Z.bits_0.
Defined.

(** Without a start state the visit leaves no component numbers, and the pass
reads one of them at the first weighted arc. *)
Example ComputeProperties_no_start :
  let two := MinMax (S754_finite false 2 0) in
  ComputeProperties (Build_Fst M kNoStateId 1 (λ _, Zero) (λ s, if s =? 0 then [MkArc 1 1 two 0] else []) kExpanded None None)
    (Some 1) kWeightedCycles = None.
Proof. by vm_compute. Qed.
End witnesses.
