(* ===== verification/StateSort.v ===== *)
(** Renumbering the states of a machine in place (openfst/lib/statesort.h): the
cycles of the permutation are followed, with the state that is about to be
overwritten kept aside.  Proved here: the loops end, the machine is the one with
its states in the new order, and the property bits that are kept are true. *)
From S2P Require Import Prelude Weight FloatWeight Properties SymbolTable Fst VectorFst Mutation VectorSound.
From S2P Require Import MutableFst Rational RationalSpec ArcMap Renumber.
From Stdlib Require Import Sorting.Sorted.
Local Open Scope Z_scope.

Section statesort.
Context `{MutableFst W F}.
Implicit Types (fst : F) (order : list Z) (done : list bool).

(* statesort.h:78-81 StateSort *)
Definition move_arc order (s2 : Z) fst (arc : Arc W) : option F :=
  nextstate' ← order.[nextstate arc]; mAddArc fst s2 (set_nextstate nextstate' arc).

(** One cycle of the permutation; [final2] and [arcsb] are what an earlier turn
left.  The first turn gets an empty [arcsb]: it reads the one an earlier cycle
left only when it is the last turn too, and then drops it. *)

(* statesort.h:66-83 StateSort *)
Fixpoint sort_cycle (fuel : nat) order fst done (s1 : Z) (final1 final2 : W) (arcsa arcsb : list (Arc W)) :
    option (F * list bool) :=
  done1 ← done.[s1];
  if done1 : bool then Some (fst, done) else
  match fuel with
  | O => None
  | S fuel =>
      s2 ← order.[s1];
      done2 ← done.[s2];
      let final2 := if negb done2 then Final (view fst) s2 else final2 in
      let arcsb := if negb done2 then Arcs (view fst) s2 else arcsb in
      fst ← mSetFinal fst s2 final1;
      fst ← mDeleteAllArcs fst s2;
      fst ← foldM (move_arc order s2) arcsa fst;
      done ← done.[s1 <- true];
      sort_cycle fuel order fst done s2 final2 final2 arcsb arcsa
  end.

(* statesort.h:54-84 StateSort *)
Definition sort_state order (acc : F * list bool) (s1 : Z) : option (F * list bool) :=
  let '(fst, done) := acc in
  done1 ← done.[s1];
  if done1 : bool then Some (fst, done)
  else sort_cycle (S (length order)) order fst done s1 (Final (view fst) s1) Zero (Arcs (view fst) s1) [].

(** An order of another length is an [FSTERROR] (fst_error_fatal is off, see Prelude). *)

(* statesort.h:38-86 StateSort *)
Definition StateSort fst order : option F :=
  if negb (zlen order =? NumStates (view fst)) then Some (mSetProperties fst kError kError) else
  if Start (view fst) =? kNoStateId then Some fst else
  let props := mProperties fst kStateSortProperties in
  let done := replicate (length order) false in
  start ← order.[Start (view fst)];
  let fst := mSetStart fst start in
  '(fst, _) ← foldM (sort_state order) (seqZ 0 (NumStates (view fst))) (fst, done);
  Some (mSetProperties fst props kFstProperties).
End statesort.

(** * A permutation and its inverse *)

Section permutation.
Context (n : Z) (order : list Z) (Hn : 0 ≤ n) (Hperm : order ≡ₚ seqZ 0 n).

Lemma order_nodup : NoDup order.
Proof using Hperm. rewrite Hperm. apply NoDup_seqZ. Qed.

Lemma order_len : zlen order = n.
Proof using Hn Hperm. unfold zlen. rewrite Hperm, length_seqZ. lia. Qed.

Lemma order_in p : p ∈ order ↔ 0 ≤ p < n.
Proof using Hperm. rewrite Hperm, elem_of_seqZ. lia. Qed.

Lemma order_get s : 0 ≤ s < n → ∃ p, order.[s] = Some p ∧ 0 ≤ p < n.
Proof using Hn Hperm.
  intros Hs. destruct (vget_in_range order s) as [p Hp]; [by rewrite order_len|].
  exists p. split; [done|]. by apply order_in, (vget_elem_of _ s).
Qed.

(** The state that comes to position [p]. *)
Definition came_from (p : Z) : Z := default (-1) (index_of order p).

Lemma came_from_iff s p : order.[s] = Some p ↔ 0 ≤ p < n ∧ came_from p = s.
Proof using Hperm.
  pose proof order_nodup as Hnd. unfold came_from. split.
  - intros Hs. split; [by apply order_in, (vget_elem_of _ s)|].
    by rewrite (proj2 (index_of_Some _ _ _ Hnd) Hs).
  - intros [Hp <-]. apply order_in in Hp as Hin. destruct (index_of order p) as [s|] eqn:Hi.
    + simpl. by apply index_of_Some in Hi.
    + by apply index_of_None in Hi.
Qed.

Lemma came_from_out p : ¬ 0 ≤ p < n → came_from p = -1.
Proof using Hperm. intros Hp. unfold came_from. rewrite (proj2 (index_of_None _ _)); [done|]. by rewrite order_in. Qed.

Lemma came_from_range p : 0 ≤ p < n → 0 ≤ came_from p < n.
Proof using Hn Hperm.
  intros Hp. destruct (proj2 (came_from_iff (came_from p) p)) as [_ _]; [done|].
  assert (order.[came_from p] = Some p) as Hs by by apply came_from_iff.
  apply vget_range in Hs. by rewrite order_len in Hs.
Qed.

(** The inverse permutation. *)
Definition inverse_order : list Z := came_from <$> seqZ 0 n.

Lemma inverse_get p s : inverse_order.[p] = Some s ↔ order.[s] = Some p.
Proof using Hn Hperm.
  unfold inverse_order. rewrite vget_fmap, came_from_iff. split.
  - intros (q & Hq & ->)%fmap_Some. apply vget_Some in Hq as [? Hq]. apply lookup_seqZ in Hq as [-> ?].
    split; [lia|]. f_equal. lia.
  - intros [Hp <-]. apply fmap_Some. exists p. split; [|done]. apply vget_Some. split; [lia|]. apply lookup_seqZ. lia.
Qed.

Lemma inverse_nodup : NoDup inverse_order.
Proof using Hn Hperm.
  apply NoDup_alt. intros i j s Hi Hj. rewrite <-vget_nat in Hi, Hj. apply inverse_get in Hi, Hj.
  rewrite Hi in Hj. injection Hj. lia.
Qed.

Lemma inverse_in s : s ∈ inverse_order ↔ 0 ≤ s < n.
Proof using Hn Hperm.
  split.
  - intros (p & Hp%inverse_get)%elem_of_vget. apply vget_range in Hp. by rewrite order_len in Hp.
  - intros Hs. destruct (order_get s Hs) as (p & Hp & _). eapply vget_elem_of. by apply inverse_get.
Qed.
End permutation.

(** * The machine with some states moved *)

Section moved.
Context `{WeightOps W}.
Implicit Types (f g : Fst W) (D : gset Z).

Definition renumbered (order : list Z) (a : Arc W) : Arc W := set_nextstate (default 0 (order.[nextstate a])) a.

(** The states of [D] are at their new place. *)
Definition abs_moved f (order : list Z) D : Fst W :=
  let from := came_from order in {|
  Start := default 0 (order.[Start f]);
  NumStates := NumStates f;
  Final := λ p, if decide (from p ∈ D) then Final f (from p) else Final f p;
  Arcs := λ p, if decide (from p ∈ D) then renumbered order <$> Arcs f (from p) else Arcs f p;
  FstProperties := 0; InputSymbols := None; OutputSymbols := None |}.
End moved.

Section loops.
Context `{WeightEq W} {F : Type} `{!MutableFst W F} `{!MutableFstLaws W F}.
Context (f : Fst W) (order : list Z) (Hwf : WellFormed f) (Htight : tight f) (Hperm : order ≡ₚ seqZ 0 (NumStates f)).
Implicit Types (x y z : F) (D : gset Z).
Notation from := (came_from order).
Notation n := (NumStates f).

Let Hn : 0 ≤ n := proj1 Hwf.

Lemma evolves_delete_arcs x y g s :
  evolves x y g → valid g s → ∃ z, mDeleteAllArcs y s = Some z ∧ evolves x z (abs_set_arcs g s []).
Proof using.
  intros Hxy Hs. pose proof Hxy as [Hy _].
  destruct (mDeleteAllArcs_steps y s Hy) as (z & Hz & ? & ?); [by eapply evolves_valid|].
  exists z. split; [done|].
  by eapply (evolves_trans x y z g (λ f, abs_set_arcs f s [])); [|split|apply _].
Qed.

(** Writing the arcs of a state at their new place. *)
Lemma move_arcs_evolves x y g s2 l :
  evolves x y g → valid g s2 → (∀ a, a ∈ l → 0 ≤ nextstate a < n) →
  ∃ z, foldM (move_arc order s2) l y = Some z ∧
    evolves x z (abs_set_arcs g s2 (Arcs g s2 ++ (renumbered order <$> l))).
Proof using Hperm Hwf.
  intros Hxy Hs Hl.
  destruct (foldM_total (move_arc order s2) (λ k z, evolves x z (abs_set_arcs g s2 (Arcs g s2 ++ (renumbered order <$> k)))) l y)
    as (z & Hz & Hev); [| |by exists z].
  - eapply evolves_equiv; [done|]. simpl. rewrite app_nil_r. split_and!; [done..|].
    intros c. simpl. by case_decide; subst.
  - intros k a l' z -> Hz. unfold move_arc.
    destruct (order_get n order Hn Hperm (nextstate a)) as (p & Hp & _); [apply Hl, elem_of_app; right; left|].
    rewrite Hp. cbn [mbind option_bind].
    destruct (evolves_add_arc x z _ s2 (set_nextstate p a) Hz Hs) as (z' & -> & Hz').
    exists z'. split; [done|]. eapply evolves_equiv; [exact Hz'|]. split_and!; [done..|].
    intros c. simpl. case_decide; [|done]. rewrite decide_True by done.
    rewrite fmap_app. unfold renumbered at 3. simpl. by rewrite Hp, app_assoc.
Qed.

(** One turn of the inner loop moves one state. *)
Lemma move_state x y D s1 s2 :
  evolves x y (abs_moved f order D) → order.[s1] = Some s2 → s1 ∉ D →
  ∃ y1 y2 y3, mSetFinal y s2 (Final f s1) = Some y1 ∧ mDeleteAllArcs y1 s2 = Some y2 ∧
    foldM (move_arc order s2) (Arcs f s1) y2 = Some y3 ∧ evolves x y3 (abs_moved f order ({[s1]} ∪ D)).
Proof using Hwf Hperm.
  clear Htight. intros Hxy Hs Hd. assert (0 ≤ s2 < n ∧ from s2 = s1) as [Hv Hf] by (by apply (came_from_iff n)).
  assert (valid f s1) as Hv1. { apply vget_range in Hs. by rewrite (order_len n) in Hs. }
  destruct (evolves_set_final x y _ s2 (Final f s1) Hxy Hv) as (y1 & H1 & Hy1).
  destruct (evolves_delete_arcs x y1 _ s2 Hy1 Hv) as (y2 & H2 & Hy2).
  destruct (move_arcs_evolves x y2 _ s2 (Arcs f s1) Hy2 Hv) as (y3 & H3 & Hy3).
  { intros a Ha. by apply (proj1 (proj2 Hwf) s1). }
  exists y1, y2, y3. split_and!; [done..|]. eapply evolves_equiv; [exact Hy3|].
  assert (∀ p, p ≠ s2 → from p ∈ {[s1]} ∪ D ↔ from p ∈ D) as Hother.
  { intros p Hp. rewrite elem_of_union, elem_of_singleton. split; [|by right]. intros [E|?]; [|done].
    assert (order.[s1] = Some p) as Hs'; [|congruence].
    apply (came_from_iff n order Hperm). split; [|done].
    destruct (decide (0 ≤ p < n)) as [|Hout]; [done|]. rewrite (came_from_out (NumStates f)) in E by done. destruct Hv1. lia. }
  split_and!; [done..| |]; intros p; simpl; case_decide as E.
  - subst. rewrite decide_True by set_solver. done.
  - apply decide_ext. by rewrite Hother.
  - subst. rewrite !decide_True, app_nil_l by set_solver. done.
  - rewrite ?decide_False by done. apply decide_ext. by rewrite Hother.
Qed.

(** The vector [done] holds the set [D], which is closed under [order] but for
the state [s1] that comes next. *)
Definition marks (done : list bool) D : Prop :=
  zlen done = n ∧ (∀ s, s ∈ D → valid f s) ∧ ∀ s, valid f s → done.[s] = Some (bool_decide (s ∈ D)).

Definition closed_but (s1 : Z) D : Prop := ∀ t p, t ∈ D → order.[t] = Some p → p ∈ D ∨ p = s1.
Definition closed D : Prop := ∀ t p, t ∈ D → order.[t] = Some p → p ∈ D.

Lemma marks_set done D s : marks done D → valid f s →
  ∃ done', done.[s <- true] = Some done' ∧ marks done' ({[s]} ∪ D).
Proof using.
  intros (Hl & Hd & Hm) Hs. eexists. split; [apply vset_is_Some; unfold valid in Hs; lia|].
  assert (done.[s <- true] = Some (<[Z.to_nat s := true]> done)) as E by (apply vset_is_Some; unfold valid in Hs; lia).
  split_and!; [by rewrite (vset_len _ _ _ _ E)| |].
  - intros t [->%elem_of_singleton|?]%elem_of_union; [done|by apply Hd].
  - intros t Ht. rewrite (vget_vset _ _ _ _ _ E). case_decide as Hst.
    + subst. by rewrite bool_decide_eq_true_2 by (apply elem_of_union; left; by apply elem_of_singleton).
    + rewrite (Hm t Ht). f_equal. apply bool_decide_ext. rewrite elem_of_union, elem_of_singleton. naive_solver.
Qed.

Lemma marks_size done D : marks done D → (size D ≤ Z.to_nat n)%nat.
Proof using.
  intros (_ & Hd & _). rewrite <-(length_seqZ 0 n), <-(size_list_to_set (C := gset Z) (seqZ 0 n)) by apply NoDup_seqZ.
  apply subseteq_size. intros s Hs%Hd. apply elem_of_list_to_set, elem_of_seqZ. unfold valid in Hs. lia.
Qed.

(** A state that was not overwritten yet. *)
Lemma moved_original y x D s : evolves x y (abs_moved f order D) → from s ∉ D →
  Final (view y) s = Final f s ∧ Arcs (view y) s = Arcs f s.
Proof using.
  intros [_ [(_ & _ & Hf & Ha) _ _ _ _]] Hs. rewrite Hf, Ha. simpl. by rewrite !decide_False by done.
Qed.

Lemma sort_cycle_ok x fuel y done D s1 final1 final2 arcsa arcsb :
  evolves x y (abs_moved f order D) → marks done D → valid f s1 → closed_but s1 D →
  (s1 ∉ D → final1 = Final f s1 ∧ arcsa = Arcs f s1) → (Z.to_nat n < size D + fuel)%nat →
  ∃ z done' D', sort_cycle fuel order y done s1 final1 final2 arcsa arcsb = Some (z, done') ∧
    evolves x z (abs_moved f order D') ∧ marks done' D' ∧ closed D' ∧ D ⊆ D' ∧ s1 ∈ D'.
Proof using Hwf Hperm.
  revert y done D s1 final1 final2 arcsa arcsb. induction fuel as [|fuel IH];
    intros y done D s1 final1 final2 arcsa arcsb Hy Hm Hs1 Hc Hcur Hfuel.
  - pose proof (marks_size done D Hm). lia.
  - cbn [sort_cycle]. rewrite (proj2 (proj2 Hm) s1 Hs1). cbn [mbind option_bind].
    case_bool_decide as Hd.
    + exists y, done, D. split_and!; try done. intros t p Ht Hp. destruct (Hc t p Ht Hp) as [?| ->]; done.
    + destruct (Hcur Hd) as [-> ->]. destruct (order_get n order Hn Hperm s1) as (s2 & Hs2 & Hv2); [done|].
      rewrite Hs2. cbn [mbind option_bind]. rewrite (proj2 (proj2 Hm) s2 Hv2). cbn [mbind option_bind].
      assert (from s2 = s1) as Hfrom by by apply (came_from_iff n order Hperm).
      destruct (moved_original y x D s2 Hy) as [HF HA]; [by rewrite Hfrom|].
      destruct (move_state x y D s1 s2 Hy Hs2 Hd) as (y1 & y2 & y3 & -> & H2 & H3 & Hy3).
      cbn [mbind option_bind]. rewrite H2. cbn [mbind option_bind]. rewrite H3. cbn [mbind option_bind].
      destruct (marks_set done D s1 Hm Hs1) as (done' & -> & Hm'). cbn [mbind option_bind].
      destruct (IH y3 done' ({[s1]} ∪ D) s2 (if negb (bool_decide (s2 ∈ D)) then Final (view y) s2 else final2)
        (if negb (bool_decide (s2 ∈ D)) then Final (view y) s2 else final2)
        (if negb (bool_decide (s2 ∈ D)) then Arcs (view y) s2 else arcsb) (Arcs f s1)) as (z & dn & D' & Hz & ? & ? & ? & Hsub & ?).
      * done.
      * done.
      * done.
      * intros t p [->%elem_of_singleton|Ht]%elem_of_union Hp; [right; congruence|].
        left. destruct (Hc t p Ht Hp) as [?| ->]; apply elem_of_union; [by right|left; by apply elem_of_singleton].
      * intros Hn2. rewrite bool_decide_eq_false_2 by (intros ?; apply Hn2, elem_of_union; by right). done.
      * rewrite size_union, size_singleton; [lia|]. intros t ->%elem_of_singleton. done.
      * exists z, dn, D'. split_and!; try done; [|apply Hsub, elem_of_union; left; by apply elem_of_singleton].
        intros t Ht. apply Hsub, elem_of_union. by right.
Qed.

(** The loop over the states, once the start is renumbered. *)
Lemma sort_states_ok x y :
  evolves x y (abs_moved f order ∅) →
  ∃ z done', foldM (sort_state order) (seqZ 0 n) (y, replicate (length order) false) = Some (z, done') ∧
    ∃ D, evolves x z (abs_moved f order D) ∧ ∀ s, s ∈ D ↔ valid f s.
Proof using Hwf Hperm.
  intros Hy.
  destruct (foldM_total (sort_state order) (λ todo acc, ∃ D, evolves x acc.1 (abs_moved f order D) ∧ marks acc.2 D ∧
    closed D ∧ ∀ s, s ∈ todo → s ∈ D) (seqZ 0 n) (y, replicate (length order) false)) as ([z dn] & Hz & D & Hev & Hm & _ & Hall).
  - exists ∅. split_and!; [done| |by intros ? ? ?%elem_of_empty|by intros ? ?%elem_of_nil].
    pose proof (order_len n order Hn Hperm) as Hl. split_and!; [by unfold zlen in *; simpl; rewrite length_replicate|by intros ? ?%elem_of_empty|].
    intros s Hs. rewrite bool_decide_eq_false_2 by apply not_elem_of_empty. simpl.
    unfold valid in Hs. apply vget_Some. split; [lia|]. apply lookup_replicate_2. unfold zlen in Hl. lia.
  - intros todo s rest [w dn] Hl (D & Hev & Hm & Hcl & Hall).
    apply seqZ_split in Hl as [_ Hs]. unfold sort_state. cbn [Datatypes.fst snd] in *. rewrite (proj2 (proj2 Hm) s Hs). cbn [mbind option_bind].
    case_bool_decide as Hd.
    + exists (w, dn). split; [done|]. exists D. split_and!; [done..|]. intros t [?| ->]%elem_of_snoc; auto.
    + destruct (sort_cycle_ok x (S (length order)) w dn D s (Final (view w) s) Zero (Arcs (view w) s) [])
        as (z & dn' & D' & Hz & ? & ? & ? & Hsub & ?).
      * done.
      * done.
      * done.
      * intros t p Ht Hp. left. by eapply Hcl.
      * intros _. apply (moved_original w x D s Hev). intros Hfs. apply Hd. apply (Hcl (from s) s Hfs).
        by apply (came_from_iff n order Hperm).
      * pose proof (order_len n order Hn Hperm) as Hlo. unfold zlen in Hlo. lia.
      * exists (z, dn'). split; [done|]. exists D'. split_and!; [done..|]. intros t [?| ->]%elem_of_snoc; [|done].
        by apply Hsub, Hall.
  - exists z, dn. split; [done|]. exists D. split; [done|]. intros s. split; [apply Hm|].
    intros Hs. apply Hall, elem_of_seqZ. unfold valid in Hs. lia.
Qed.
End loops.

(** * Machines with all the states, in another order *)

Section reordered.
Context `{WeightEq W}.
Context (f : Fst W) (kept : list Z) (Hwf : WellFormed f) (Hnd : NoDup kept) (Hvalid : Forall (valid f) kept).
Context (Hall : ∀ s, valid f s → s ∈ kept).
Notation g := (abs_keep_states f kept).

Lemma reordered_get s : valid f s → ∃ i, kept.[i] = Some s ∧ valid g i.
Proof using Hall.
  intros Hs. destruct (elem_of_vget kept s (Hall s Hs)) as [i Hi]. exists i. split; [done|by eapply vget_range].
Qed.

Lemma reordered_arc s a i : kept.[i] = Some s → valid f s → a ∈ Arcs f s →
  ∃ j, kept.[j] = Some (nextstate a) ∧ set_nextstate j a ∈ Arcs g i.
Proof using Hwf Hnd Hall.
  intros Hi Hs Ha. destruct (reordered_get (nextstate a)) as (j & Hj & _); [by apply (proj1 (proj2 Hwf) s)|].
  exists j. split; [done|]. by eapply keep_arc.
Qed.

Lemma reordered_all (P : Arc W → Prop) : (∀ t a, P (set_nextstate t a) ↔ P a) →
  all_arcs g (λ _, P) ↔ all_arcs f (λ _, P).
Proof using Hwf Hnd Hall Hvalid.
  intros HP. split.
  - intros Hg s a Hs Ha. destruct (reordered_get s Hs) as (i & Hi & Hvi).
    destruct (reordered_arc s a i Hi Hs Ha) as (j & _ & Hin). apply (HP j). by apply (Hg i).
  - intros Hf i b Hi Hb. destruct (keep_arc_in f kept Hnd Hvalid i b (conj Hi Hb)) as (s & a & _ & [Hs Ha] & _ & ->).
    apply HP. by apply (Hf s).
Qed.

Lemma reordered_some (P : Arc W → Prop) : (∀ t a, P (set_nextstate t a) ↔ P a) →
  some_arc g (λ _, P) ↔ some_arc f (λ _, P).
Proof using Hwf Hnd Hall Hvalid.
  intros HP. split.
  - intros (i & b & Hi & Hb & Hp). destruct (keep_arc_in f kept Hnd Hvalid i b (conj Hi Hb)) as (s & a & _ & [Hs Ha] & _ & Eb).
    exists s, a. split_and!; [done..|]. rewrite Eb in Hp. by apply HP in Hp.
  - intros (s & a & Hs & Ha & Hp). destruct (reordered_get s Hs) as (i & Hi & Hvi).
    destruct (reordered_arc s a i Hi Hs Ha) as (j & _ & Hin). exists i, (set_nextstate j a). split_and!; [done..|by apply HP].
Qed.

Lemma reordered_labels (lab : Arc W → Z) i s : (∀ t a, lab (set_nextstate t a) = lab a) →
  kept.[i] = Some s → lab <$> Arcs g i = lab <$> Arcs f s.
Proof using Hwf Hnd Hall Hvalid.
  intros Hl Hs. rewrite (kept_arcs f kept i s Hs). assert (valid f s) as Hv by by eapply kept_valid.
  pose proof (λ a, proj1 (proj2 Hwf) s a Hv) as Ha. induction (Arcs f s) as [|a l IH]; [done|]. simpl.
  destruct (reordered_get (nextstate a)) as (j & Hj & _); [apply Ha; left|].
  unfold renumber_arc at 1. rewrite (proj2 (index_of_Some _ _ _ Hnd) Hj). simpl. rewrite Hl. f_equal.
  apply IH. intros b Hb. apply Ha. by right.
Qed.

Lemma reordered_states (P : list Z → Prop) (lab : Arc W → Z) : (∀ t a, lab (set_nextstate t a) = lab a) →
  (∀ i, valid g i → P (lab <$> Arcs g i)) ↔ (∀ s, valid f s → P (lab <$> Arcs f s)).
Proof using Hwf Hnd Hall Hvalid.
  intros Hl. split.
  - intros Hg s Hs. destruct (reordered_get s Hs) as (i & Hi & Hvi). rewrite <-(reordered_labels lab i s) by done. by apply Hg.
  - intros Hf i Hi. destruct (kept_state f kept Hvalid i Hi) as (s & Hs & Hv). rewrite (reordered_labels lab i s) by done. by apply Hf.
Qed.

Lemma reordered_rtc i j s t : kept.[i] = Some s → kept.[j] = Some t → rtc (edge g) i j ↔ rtc (edge f) s t.
Proof using Hwf Hnd Hall Hvalid.
  intros Hi Hj. split.
  - intros Hr. destruct (keep_rtc f kept Hnd Hvalid i j s Hr Hi) as (t' & ? & ?). by simplify_eq.
  - intros Hr. destruct (keep_rtc_lift f kept Hnd Hvalid i s t Hr) as (j' & Hj' & ?); [|done|].
    + intros u _ Hut. apply Hall. inversion Hut as [|? ? ? [? _]]; subst; [by eapply kept_valid|done].
    + by rewrite (kept_inj kept Hnd j j' t).
Qed.

Lemma reordered_tc i s : kept.[i] = Some s → tc (edge g) i i ↔ tc (edge f) s s.
Proof using Hwf Hnd Hall Hvalid.
  intros Hi. split.
  - intros (s' & t' & ? & ? & ?)%(keep_tc f kept Hnd Hvalid). by simplify_eq.
  - intros (u & He & Hr)%tc_first.
    destruct (reordered_get u) as (j & Hj & _).
    { destruct He as (Hs & a & Ha & <-). by apply (proj1 (proj2 Hwf) s). }
    eapply tc_rtc_r; [apply tc_once; by eapply (keep_edge_iff f kept Hnd Hvalid i j s u)|].
    by eapply reordered_rtc.
Qed.

Lemma reordered_start i : index_of kept (Start f) = Some i → kept.[i] = Some (Start f).
Proof using Hnd. apply index_of_Some, Hnd. Qed.

(** The properties that do not depend on the order of the states. *)
Lemma reordered_holds t : valid f (Start f) → t ≠ TopSorted → t ≠ StringFst → Holds g t ↔ Holds f t.
Proof using Hwf Hnd Hall Hvalid.
  intros Hst Ht Hs. destruct (reordered_get (Start f) Hst) as (i0 & Hi0 & Hv0).
  assert (Start g = i0) as Es by (simpl; by rewrite (proj2 (index_of_Some _ _ _ Hnd) Hi0)).
  destruct t; try done; unfold Holds.
  - by apply reordered_all.
  - by apply (reordered_states NoDup ilabel).
  - by apply (reordered_states NoDup olabel).
  - by apply reordered_some.
  - by apply reordered_some.
  - by apply reordered_some.
  - by apply (reordered_states (Sorted Z.le) ilabel).
  - by apply (reordered_states (Sorted Z.le) olabel).
  - rewrite (reordered_some (λ a, nontrivial (weight a) = true)) by done. apply or_iff_compat_l. split.
    + intros (i & Hi & Hw). destruct (kept_state f kept Hvalid i Hi) as (s & Hks & ?). rewrite (kept_final f kept i s Hks) in Hw. by exists s.
    + intros (s & Hv & Hw). destruct (reordered_get s Hv) as (i & Hi & ?). exists i. by rewrite (kept_final f kept i s Hi).
  - split.
    + intros (i & Hc). assert (valid g i) as Hi by by apply tc_first in Hc as (? & [? _] & _).
      destruct (kept_state f kept Hvalid i Hi) as (s & Hks & ?). exists s. by eapply reordered_tc.
    + intros (s & Hc). assert (valid f s) as Hv by by apply tc_first in Hc as (? & [? _] & _).
      destruct (reordered_get s Hv) as (i & Hi & ?). exists i. by eapply reordered_tc.
  - rewrite Es. by apply reordered_tc.
  - rewrite Es. split.
    + intros Hg s Hv. destruct (reordered_get s Hv) as (i & Hi & ?). eapply (reordered_rtc i0 i); [done..|]. by apply Hg.
    + intros Hf i Hi. destruct (kept_state f kept Hvalid i Hi) as (s & Hks & ?). eapply (reordered_rtc i0 i); [done..|]. by apply Hf.
  - split.
    + intros Hg s Hv. destruct (reordered_get s Hv) as (i & Hi & Hvi). destruct (Hg i Hvi) as (j & Hr & Hf).
      destruct (kept_state f kept Hvalid j) as (u & Hku & ?); [apply Hf|]. exists u.
      split; [by eapply (reordered_rtc i j)|by eapply kept_is_final].
    + intros Hf i Hi. destruct (kept_state f kept Hvalid i Hi) as (s & Hks & Hv). destruct (Hf s Hv) as (u & Hr & Hfu).
      destruct (reordered_get u) as (j & Hj & ?); [apply Hfu|]. exists j.
      split; [by eapply (reordered_rtc i j)|by eapply kept_is_final].
  - split.
    + intros (i & b & Hi & Hb & Hw & Hr). destruct (keep_arc_in f kept Hnd Hvalid i b (conj Hi Hb)) as (s & a & Hks & [? ?] & Hn & Eb).
      exists s, a. split_and!; [done..|by rewrite Eb in Hw|by eapply (reordered_rtc (nextstate b) i)].
    + intros (s & a & Hv & Ha & Hw & Hr). destruct (reordered_get s Hv) as (i & Hi & Hvi).
      destruct (reordered_arc s a i Hi Hv Ha) as (j & Hj & Hin). exists i, (set_nextstate j a). split_and!; [done..|].
      simpl. by eapply reordered_rtc.
Qed.
End reordered.

(** * The result *)

Section correct.
Context `{TM : TimesMonoid W} {F : Type} `{!MutableFst W F} `{!MutableFstLaws W F}.
Implicit Types (x y : F) (f g : Fst W).

(** All states moved. *)
Lemma moved_all f order (D : gset Z) :
  WellFormed f → tight f → valid f (Start f) → order ≡ₚ seqZ 0 (NumStates f) → (∀ s, s ∈ D ↔ valid f s) →
  abs_moved f order D ≡ abs_keep_states f (inverse_order (NumStates f) order).
Proof.
  intros Hwf Ht Hst Hp HD. pose proof (proj1 Hwf) as Hn.
  pose proof (inverse_nodup _ _ Hn Hp) as Hnd. set (kept := inverse_order (NumStates f) order) in *.
  assert (∀ s p, index_of kept s = Some p ↔ order.[s] = Some p) as Hidx.
  { intros s p. rewrite index_of_Some by done. by apply inverse_get. }
  assert (∀ s, valid f s → ∃ p, order.[s] = Some p ∧ index_of kept s = Some p) as Hget.
  { intros s Hs. destruct (order_get _ _ Hn Hp s Hs) as (p & Hs' & _). exists p. split; [done|]. by apply Hidx. }
  assert (∀ p, valid f p → kept.[p] = Some (came_from order p) ∧ came_from order p ∈ D) as Hin.
  { intros p Hv. split; [apply inverse_get, (came_from_iff (NumStates f)); done|]. apply HD. by apply came_from_range. }
  assert (∀ p, ¬ valid f p → kept.[p] = None ∧ came_from order p ∉ D) as Hout.
  { intros p Hv. split.
    - apply vget_None. unfold kept, inverse_order. rewrite zlen_fmap, zlen_seqZ. unfold valid in Hv. lia.
    - rewrite (came_from_out (NumStates f)) by done. intros [? _]%HD. lia. }
  split_and!; simpl.
  - destruct (Hget _ Hst) as (p & -> & ->). done.
  - unfold kept, inverse_order. rewrite zlen_fmap, zlen_seqZ. lia.
  - intros p. destruct (decide (0 ≤ p < NumStates f)) as [Hv|Hv].
    + destruct (Hin p Hv) as [-> ?]. by rewrite decide_True.
    + destruct (Hout p Hv) as [-> ?]. rewrite decide_False by done. by apply Ht.
  - intros p. destruct (decide (0 ≤ p < NumStates f)) as [Hv|Hv].
    + destruct (Hin p Hv) as [-> HpD]. rewrite decide_True by done. simpl.
      apply HD in HpD. pose proof (λ a, proj1 (proj2 Hwf) _ a HpD) as Ha.
      induction (Arcs f (came_from order p)) as [|a l IH]; [done|]. simpl.
      destruct (Hget (nextstate a)) as (q & Hq & Hq'); [apply Ha; left|].
      unfold renumber_arc at 1. rewrite Hq'. unfold renumbered at 1. rewrite Hq. simpl. f_equal.
      apply IH. intros b Hb. apply Ha. by right.
    + destruct (Hout p Hv) as [-> ?]. rewrite decide_False by done. by apply Ht.
Qed.

(** What [StateSort] does, before its bits are looked at. *)
Lemma StateSort_runs x order :
  minv x → WellFormed (view x) → valid (view x) (Start (view x)) → order ≡ₚ seqZ 0 (NumStates (view x)) →
  ∃ y, StateSort x order = Some (mSetProperties y (mProperties x kStateSortProperties) kFstProperties) ∧
    evolves x y (abs_keep_states (view x) (inverse_order (NumStates (view x)) order)).
Proof.
  intros Hx Hwf Hst Hp. pose proof (order_len _ _ (proj1 Hwf) Hp) as Hl.
  destruct (order_get _ _ (proj1 Hwf) Hp _ Hst) as (p & Hs & _). unfold StateSort.
  rewrite Hl, Z.eqb_refl. cbn [negb].
  rewrite (proj2 (Z.eqb_neq (Start (view x)) kNoStateId)) by (unfold valid, kNoStateId in *; lia).
  rewrite Hs. cbn [mbind option_bind].
  assert (evolves x (mSetStart x p) (abs_moved (view x) order ∅)) as H1.
  { eapply evolves_equiv; [apply evolves_set_start; by apply evolves_refl|]. split_and!; simpl; [by rewrite Hs|done|..];
      intros s; by rewrite decide_False by apply not_elem_of_empty. }
  assert (NumStates (view (mSetStart x p)) = NumStates (view x)) as ->.
  { destruct H1 as [_ [(_ & -> & _) _ _ _ _]]. done. }
  destruct (sort_states_ok (view x) order Hwf Hp x _ H1) as (z & dn & -> & D & Hz & HD).
  cbn [mbind option_bind]. exists z. split; [done|]. eapply evolves_equiv; [exact Hz|].
  by apply moved_all; [done|apply view_tight|..].
Qed.

Lemma sort_bits_sound p f g :
  Sound p f → (∀ t, t ≠ TopSorted → t ≠ StringFst → Holds g t ↔ Holds f t) → Sound (p &&& kStateSortProperties) g.
Proof.
  intros Hp Hh t. destruct (decide (t = TopSorted)) as [->|H1]; [bits; by rewrite ?andb_false_r|].
  destruct (decide (t = StringFst)) as [->|H2]; [bits; by rewrite ?andb_false_r|].
  rewrite (Hh t) by done. specialize (Hp t). revert Hp. destruct t; bits; by rewrite ?andb_true_r.
Qed.

Lemma StateSort_leaves x order :
  minv x → WellFormed (view x) → SoundFst (view x) → valid (view x) (Start (view x)) →
  order ≡ₚ seqZ 0 (NumStates (view x)) →
  ∃ y kept, StateSort x order = Some y ∧
    leaves y (has (FstProperties (view x)) kError) (accepts (view x)) ∧
    InputSymbols (view y) = InputSymbols (view x) ∧ OutputSymbols (view y) = OutputSymbols (view x) ∧
    view y ≡ abs_keep_states (view x) kept ∧ NoDup kept ∧ Forall (valid (view x)) kept ∧
    ∀ s p, kept.[p] = Some s ↔ order.[s] = Some p.
Proof.
  intros Hx Hwf Hs Hv Hp. destruct (StateSort_runs x order Hx Hwf Hv Hp) as (y & Hr & Hy).
  pose proof (inverse_nodup _ _ (proj1 Hwf) Hp) as Hnd.
  pose proof (λ p s, inverse_get _ _ (proj1 Hwf) Hp p s) as Hinv.
  pose proof (inverse_in _ _ (proj1 Hwf) Hp) as Hin.
  set (kept := inverse_order (NumStates (view x)) order) in *.
  assert (Forall (valid (view x)) kept) as Hkv by (apply Forall_forall; intros s ?; by apply Hin).
  eexists _, kept. split; [exact Hr|]. split_and!; [|by rewrite (proj1 (mSetProperties_symbols _ _ _)); apply Hy
    |by rewrite (proj2 (mSetProperties_symbols _ _ _)); apply Hy|rewrite mSetProperties_view; apply Hy|done|done|done].
  eapply (leaves_stored x y _ _ (abs_keep_states (view x) kept)); [by left|done|by apply keep_wf| | |].
  - apply (sort_bits_sound (FstProperties (view x)) (view x)); [done|]. intros t ? ?. apply reordered_holds; try done.
    intros s ?. by apply Hin.
  - intros He. by left.
  - intros a b w. apply keep_accepts; [done..|]. intros s _ Hc. apply Hin. by apply coaccessible_valid.
Qed.

(** C30: [StateSort] with a permutation of the states ends, without an access
out of range, with the machine whose state [order[s]] is the state [s] of the
one it was given: the inverse permutation lists the old state of each new one.
It accepts the same pairs with the same weights; the bits that are stored are
true, and the error bit stays.  A machine without a start stays as it is, and an
order of another length raises the error bit and changes nothing else, where
[FSTERROR] does not end the program. *)
Theorem StateSort_correct x order :
  minv x → WellFormed (view x) → SoundFst (view x) →
  (zlen order ≠ NumStates (view x) → ∃ y, StateSort x order = Some y ∧ view y ≡ view x ∧
    has (FstProperties (view y)) kError = true) ∧
  (order ≡ₚ seqZ 0 (NumStates (view x)) → ∃ y, StateSort x order = Some y ∧
    leaves y (has (FstProperties (view x)) kError) (accepts (view x)) ∧
    InputSymbols (view y) = InputSymbols (view x) ∧ OutputSymbols (view y) = OutputSymbols (view x) ∧
    (Start (view x) = kNoStateId → y = x) ∧
    (Start (view x) ≠ kNoStateId → ∃ kept, view y ≡ abs_keep_states (view x) kept ∧
      ∀ s p, kept.[p] = Some s ↔ order.[s] = Some p)).
Proof.
  intros Hx Hwf Hs. split.
  - intros Hl. exists (mSetProperties x kError kError). unfold StateSort. rewrite (proj2 (Z.eqb_neq _ _) Hl). split; [done|].
    split; [apply mSetProperties_view|]. rewrite error_bit, mSetProperties_bits. by bits.
  - intros Hp. destruct (decide (Start (view x) = kNoStateId)) as [Hno|Hst].
    + exists x. unfold StateSort. rewrite (order_len _ _ (proj1 Hwf) Hp), Z.eqb_refl, Hno. split; [done|]. by split_and!; [split| | | |].
    + assert (valid (view x) (Start (view x))) as Hv by by destruct Hwf as (_ & _ & [?|?]).
      destruct (StateSort_leaves x order Hx Hwf Hs Hv Hp) as (y & kept & ? & ? & ? & ? & ? & _ & _ & ?).
      exists y. split_and!; [done..|]. intros _. by exists kept.
Qed.
End correct.

(** * An instance *)

Section witnesses.
Local Notation M := MinMaxWeight.

Definition unsorted : list (mutation M) :=
  [MAddStates 3; MSetStart 2; MAddArc 2 (MkArc 5 6 One 0); MAddArc 0 (MkArc 1 2 four 1);
   MAddArc 2 (MkArc 1 1 One 1); MSetFinal 1 One].
Definition unsorted_fst : VectorFst M := default VectorFst_new (foldM mutate unsorted VectorFst_new).

Lemma unsorted_ready : minv unsorted_fst ∧ WellFormed (view unsorted_fst) ∧ SoundFst (view unsorted_fst).
Proof.
  destruct (built_invariant _ (built_history unsorted)) as [Hc Hs].
  split_and!; [done|by apply well_formedb_spec|done].
Qed.

Lemma StateSort_correct_witness :
  let x := unsorted_fst in
  (zlen [1; 2; 0] ≠ NumStates (view x) → ∃ y, StateSort x [1; 2; 0] = Some y ∧ view y ≡ view x ∧
    has (FstProperties (view y)) kError = true) ∧
  (∃ y, StateSort x [1; 2; 0] = Some y ∧
    leaves y (has (FstProperties (view x)) kError) (accepts (view x)) ∧
    InputSymbols (view y) = InputSymbols (view x) ∧ OutputSymbols (view y) = OutputSymbols (view x) ∧
    (Start (view x) = kNoStateId → y = x) ∧
    (Start (view x) ≠ kNoStateId → ∃ kept, view y ≡ abs_keep_states (view x) kept ∧
      ∀ s p, kept.[p] = Some s ↔ [1; 2; 0].[s] = Some p)).
Proof.
  destruct unsorted_ready as (H1 & H2 & H3).
  destruct (StateSort_correct unsorted_fst [1; 2; 0] H1 H2 H3) as [Ha Hb]. split; [exact Ha|]. apply Hb.
  assert (seqZ 0 (NumStates (view unsorted_fst)) = [0; 1; 2]) as -> by by vm_compute.
  symmetry. apply (Permutation_middle [1; 2] [] 0).
Defined.
End witnesses.
