(* ===== verification/TopSort.v ===== *)
(** Topological sorting (openfst/lib/topsort.h): a depth-first visit that stops at
the first back arc, the order of the states by decreasing finish time, and the
sorted machine.  Proved here: the visit finds out whether the machine has a
cycle; if it has none the result has arcs to higher states only, and accepts
what it accepted. *)
From S2P Require Import Prelude Weight FloatWeight Properties SymbolTable Fst VectorFst Mutation VectorSound.
From S2P Require Import MutableFst Rational RationalSpec ArcMap Dfs Renumber StateSort.
Local Open Scope Z_scope.

(* topsort.h:72-77 TopOrderVisitor *)
Record TopOrderVisitor := MkTop {
  order_ : list Z;
  acyclic_ : bool;
  finish_ : list Z;  (* states in finish-time order *)
}.

(* topsort.h:45-48 InitVisit *)
Definition Top_InitVisit {W} (_ : Fst W) (v : TopOrderVisitor) : TopOrderVisitor := MkTop (order_ v) true [].

(* topsort.h:50-50 InitState *)
Definition Top_InitState (v : TopOrderVisitor) (_ _ : Z) : option (TopOrderVisitor * bool) := Some (v, true).

(* topsort.h:52-52 TreeArc *)
Definition Top_TreeArc {W} (v : TopOrderVisitor) (_ : Z) (_ : Arc W) : option (TopOrderVisitor * bool) := Some (v, true).

(* topsort.h:54-54 BackArc *)
Definition Top_BackArc {W} (v : TopOrderVisitor) (_ : Z) (_ : Arc W) : option (TopOrderVisitor * bool) :=
  Some (MkTop (order_ v) false (finish_ v), false).

(* topsort.h:56-56 ForwardOrCrossArc *)
Definition Top_ForwardOrCrossArc {W} (v : TopOrderVisitor) (_ : Z) (_ : Arc W) : option (TopOrderVisitor * bool) :=
  Some (v, true).

(* topsort.h:58-58 FinishState *)
Definition Top_FinishState {W} (v : TopOrderVisitor) (s _ : Z) (_ : option (Arc W)) : option TopOrderVisitor :=
  Some (MkTop (order_ v) (acyclic_ v) (finish_ v ++ [s])).

(* topsort.h:60-70 FinishVisit *)
Definition Top_FinishVisit (v : TopOrderVisitor) : option TopOrderVisitor :=
  if acyclic_ v then
    let size := zlen (finish_ v) in
    order ← foldM (λ order s, f ← (finish_ v).[size - s - 1]; order.[f <- s])
              (seqZ 0 size) (replicate (length (finish_ v)) kNoStateId);
    Some (MkTop order (acyclic_ v) (finish_ v))
  else Some v.

(* topsort.h:33-77 TopOrderVisitor *)
Definition top_order_visitor {W} : Visitor W TopOrderVisitor := {|
  InitVisit := Top_InitVisit;
  InitState := Top_InitState;
  TreeArc := Top_TreeArc;
  BackArc := Top_BackArc;
  ForwardOrCrossArc := Top_ForwardOrCrossArc;
  FinishState := Top_FinishState;
  FinishVisit := Top_FinishVisit;
|}.

(** [acyclic0] is what the uninitialised local holds. *)

(* topsort.h:89-103 TopSort *)
Definition TopSort `{MutableFst W F} (acyclic0 : bool) (fst : F) : option (F * bool) :=
  v ← DfsVisit (view fst) top_order_visitor AnyArcFilter (Some (NumStates (view fst))) false (MkTop [] acyclic0 []);
  if acyclic_ v then
    fst ← StateSort fst (order_ v);
    Some (mSetProperties fst (kAcyclic ||| kInitialAcyclic ||| kTopSorted) (kAcyclic ||| kInitialAcyclic ||| kTopSorted), true)
  else Some (mSetProperties fst (kCyclic ||| kNotTopSorted) (kCyclic ||| kNotTopSorted), false).

(** * The visit *)

Section visit.
Context `{WeightOps W}.
Context (fst : Fst W) (Hwf : WellFormed fst).
Implicit Types (B : gset Z) (st : list (Z * Z)) (v : TopOrderVisitor).

(** Every state on the stack reaches the top. *)
Lemma stack_reaches s i rest t :
  chained fst AnyArcFilter ((s, i) :: rest) → (∀ u j, (u, j) ∈ (s, i) :: rest → valid fst u) →
  t ∈ ((s, i) :: rest).*1 → rtc (edge fst) t s.
Proof using.
  revert s i. induction rest as [|[p j] rest IH]; intros s i Hc Hv Ht.
  - simpl in Ht. by apply list_elem_of_singleton in Ht as ->.
  - destruct Hc as [(a & Ha & _ & Hn) Hc]. csimpl in *. apply elem_of_cons in Ht as [->|Ht]; [done|].
    eapply rtc_r; [apply (IH p j Hc); [|done]|].
    + intros u k Hu. apply (Hv u k). by right.
    + split; [apply (Hv p j); right; left|]. exists a. split; [by eapply vget_elem_of|done].
Qed.

(** The finished states in the order they were finished: arcs lead back. *)
Definition finish_order B (finish : list Z) : Prop :=
  NoDup finish ∧ (∀ s, s ∈ finish ↔ s ∈ B) ∧ (∀ s t, s ∈ B → edge fst s t → t ∈ B) ∧
  ∀ i j s t, finish.[i] = Some s → finish.[j] = Some t → edge fst s t → j < i.

Definition top_rule_inv (root : Z) B st (go : bool) v : Prop :=
  acyclic_ v = go ∧
  if go then finish_order B (finish_ v) ∧
    ∀ s i k a, (s, i) ∈ st → k < i → (Arcs fst s).[k] = Some a → nextstate a ∈ B
  else Holds fst Cyclic.

Lemma finish_order_snoc B finish s :
  finish_order B finish → s ∉ B → (∀ t, edge fst s t → t ∈ B) → finish_order ({[s]} ∪ B) (finish ++ [s]).
Proof using.
  intros (Hnd & Hin & Hcl & Hord) Hs He.
  assert (s ∉ finish) as Hsf by by rewrite Hin.
  assert (∀ i x, (finish ++ [s]).[i] = Some x → (finish.[i] = Some x ∧ i < zlen finish) ∨ (x = s ∧ i = zlen finish)) as Hget.
  { intros i x Hi. pose proof (vget_range _ _ _ Hi) as Hr. rewrite zlen_app in Hr. change (zlen [s]) with 1 in Hr.
    rewrite vget_app in Hi. case_decide; [left; split; [done|lia]|right].
    replace (i - zlen finish) with 0 in Hi by lia. injection Hi as <-. split; [done|lia]. }
  split_and!.
  - apply NoDup_app. split_and!; [done| |apply NoDup_singleton]. intros x Hx ->%list_elem_of_singleton. done.
  - intros x. rewrite elem_of_snoc, Hin, elem_of_union, elem_of_singleton. tauto.
  - intros x y [->%elem_of_singleton|Hx]%elem_of_union Hxy; apply elem_of_union; right; [by apply He|by eapply Hcl].
  - intros i j x y [[Hi ?]|[-> ->]]%Hget [[Hj ?]|[-> ->]]%Hget Hxy; [by eapply Hord| |lia|].
    + exfalso. apply Hs. eapply Hcl; [|exact Hxy]. apply Hin. by eapply vget_elem_of.
    + exfalso. by apply Hs, He.
Qed.

Lemma top_rule v0 : visitor_rule fst top_order_visitor AnyArcFilter v0 top_rule_inv.
Proof using Hwf.
  split.
  - intros Hs. eexists _, true. split; [done|]. split; [done|]. split.
    + split_and!; simpl; [constructor| |by intros ? ? ?%elem_of_empty|by intros i j s t ?%vget_elem_of%elem_of_nil].
      intros s. by rewrite elem_of_nil, elem_of_empty.
    + intros s i k a [= -> ->]%list_elem_of_singleton Hk Ha%vget_range. lia.
  - intros root r B v Hv (Hg & Hf & Hd) HB Hr HrB. eexists _, true. split; [done|]. split; [done|]. split; [done|].
    intros s i k a [= -> ->]%list_elem_of_singleton Hk Ha%vget_range. lia.
  - intros root B s i rest a v Hv (Hg & Hf & Hd) Ha _ Hns. eexists _, true. split; [done|].
    eexists _, true. split; [done|]. split; [done|]. split; [done|].
    intros t j k b [[= -> ->]|Ht]%elem_of_cons Hk Hb; [apply vget_range in Hb; lia|]. by eapply Hd.
  - intros root B s i rest a v Hv (Hg & Hf & Hd) Ha _ Hin. eexists _, false. split; [done|]. split; [done|].
    exists (nextstate a). eapply tc_rtc_l; [|apply tc_once].
    + eapply stack_reaches; [apply Hv| |exact Hin]. intros u j Hu. by eapply (inv_stack_valid _ _ _ _ _ _ Hv).
    + split; [eapply (inv_stack_valid _ _ _ _ _ _ Hv); left|]. exists a. split; [by eapply vget_elem_of|done].
  - intros root B s i rest a v Hv (Hg & Hf & Hd) Ha _ Hin. eexists _, true. split; [done|]. split; [done|]. split; [done|].
    intros t j k b [[= -> ->]|Ht]%elem_of_cons Hk Hb; [|eapply Hd; [by right|done..]].
    destruct (decide (k = i)) as [->|]; [by simplify_eq|]. apply (Hd s i k b); [left|lia|done].
  - done.
  - intros root B s i rest go v Hv (Hg & HI) Hend. eexists. split; [done|]. split; [done|].
    destruct go; [|done]. destruct HI as [Hf Hd]. specialize (Hend eq_refl).
    assert (s ∉ B) as Hs.
    { intros Hin. apply (inv_disjoint _ _ _ _ _ _ Hv s Hin). left. }
    split.
    + apply finish_order_snoc; [done..|]. intros t (_ & a & (k & Hk)%elem_of_vget & <-).
      eapply (Hd s i k a); [left| |done]. apply vget_range in Hk. lia.
    + intros t j k a Ht Hk Ha. apply elem_of_union.
      destruct rest as [|[p jp] rest]; [by apply elem_of_nil in Ht|].
      apply elem_of_cons in Ht as [[= -> ->]|Ht].
      * destruct (decide (k = jp)) as [->|]; [left|right; apply (Hd p jp k a); [right; left|lia|done]].
        pose proof (inv_chained _ _ _ _ _ _ Hv) as [(b & Hb & _ & Hn) _]. simplify_eq. by apply elem_of_singleton.
      * right. eapply Hd; [by right; right|done..].
Qed.
End visit.

(** * The order *)

Section order.
Context (n : Z) (finish : list Z) (Hn : 0 ≤ n).
Context (Hnd : NoDup finish) (Hin : ∀ s, s ∈ finish ↔ 0 ≤ s < n).

Lemma finish_len : zlen finish = n.
Proof using Hn Hnd Hin.
  unfold zlen. assert (finish ≡ₚ seqZ 0 n) as ->; [|rewrite length_seqZ; lia].
  apply NoDup_Permutation; [done|apply NoDup_seqZ|]. intros s. rewrite Hin, elem_of_seqZ. lia.
Qed.

(** The state finished at position [i] gets the position from the end. *)
Lemma order_of_finish :
  ∃ order, foldM (λ order s, f ← finish.[n - s - 1]; order.[f <- s]) (seqZ 0 n)
      (replicate (length finish) kNoStateId) = Some order ∧
    order ≡ₚ seqZ 0 n ∧ ∀ i s, finish.[i] = Some s → order.[s] = Some (n - 1 - i).
Proof using Hn Hnd Hin.
  pose proof finish_len as Hl.
  assert (∀ i j s, finish.[i] = Some s → finish.[j] = Some s → i = j) as Hinj.
  { intros i j s [Hi Hi']%vget_Some [Hj Hj']%vget_Some.
    assert (Z.to_nat i = Z.to_nat j) by by eapply NoDup_lookup. lia. }
  destruct (foldM_total (λ order s, f ← finish.[n - s - 1]; order.[f <- s])
    (λ done order, zlen order = n ∧ ∀ i s, n - zlen done ≤ i → finish.[i] = Some s → order.[s] = Some (n - 1 - i))
    (seqZ 0 n) (replicate (length finish) kNoStateId)) as (order & Ho & Hlo & Hord).
  - split; [unfold zlen; rewrite length_replicate; exact Hl|]. change (zlen (@nil Z)) with 0.
    intros i s Hi ?%vget_range. lia.
  - intros done k todo order [-> Hk]%seqZ_split [Hlo Hord].
    rewrite zlen_seqZ, Z.max_r in Hord by lia.
    destruct (vget_in_range finish (n - k - 1)) as [f Hf]; [lia|]. rewrite Hf. cbn [mbind option_bind].
    assert (0 ≤ f < n) as Hfr by by apply Hin, (vget_elem_of _ (n - k - 1)).
    assert (order.[f <- k] = Some (<[Z.to_nat f := k]> order)) as E by (apply vset_is_Some; lia).
    eexists. split; [exact E|]. split; [by rewrite (vset_len _ _ _ _ E)|].
    intros i s Hi Hs. rewrite zlen_app, zlen_seqZ, Z.max_r in Hi by lia. change (zlen [k]) with 1 in Hi.
    rewrite (vget_vset _ _ _ _ _ E). case_decide as Hfs.
    + subst s. rewrite (Hinj i (n - k - 1) f) by done. f_equal. lia.
    + apply Hord; [|done]. destruct (decide (i = n - k - 1)) as [->|]; [congruence|lia].
  - rewrite zlen_seqZ, Z.max_r in Hord by lia. exists order. split; [done|].
    assert (∀ i s, finish.[i] = Some s → order.[s] = Some (n - 1 - i)) as Hget.
    { intros i s Hs. apply Hord; [|done]. apply vget_range in Hs. lia. }
    split; [|done].
    assert (∀ p, 0 ≤ p < n → ∃ s, finish.[n - 1 - p] = Some s ∧ order.[s] = Some p) as Hsurj.
    { intros p Hp. destruct (vget_in_range finish (n - 1 - p)) as [s Hs]; [lia|]. exists s. split; [done|].
      rewrite (Hget _ _ Hs). f_equal. lia. }
    assert (∀ s p, order.[s] = Some p → 0 ≤ p < n ∧ finish.[n - 1 - p] = Some s) as Hback.
    { intros s p Hs. pose proof (vget_range _ _ _ Hs) as Hr. rewrite Hlo in Hr.
      apply Hin, elem_of_vget in Hr as [i Hi]. pose proof (vget_range _ _ _ Hi) as Hir.
      rewrite (Hget i s Hi) in Hs. injection Hs as <-. split; [lia|]. by replace (n - 1 - (n - 1 - i)) with i by lia. }
    apply NoDup_Permutation; [|apply NoDup_seqZ|].
    + apply NoDup_alt. intros i j p Hi Hj. rewrite <-vget_nat in Hi, Hj.
      apply Hback in Hi as [_ Hi], Hj as [_ Hj]. rewrite Hi in Hj. injection Hj. lia.
    + intros p. rewrite elem_of_seqZ. split; [intros [s Hs]%elem_of_vget; apply Hback in Hs; lia|].
      intros Hp. destruct (Hsurj p) as (s & _ & Hs); [lia|]. by eapply vget_elem_of.
Qed.
End order.

(** * Sorting *)

Section correct.
Context `{TM : TimesMonoid W} {F : Type} `{!MutableFst W F} `{!MutableFstLaws W F}.
Implicit Types (x y : F) (f g : Fst W).

(** What the visit finds. *)
Lemma top_visit f v0 :
  WellFormed f → (Start f = kNoStateId → NumStates f = 0) →
  ∃ v, DfsVisit f top_order_visitor AnyArcFilter (Some (NumStates f)) false v0 = Some v ∧
    if acyclic_ v then order_ v ≡ₚ seqZ 0 (NumStates f) ∧
      ∀ s t p q, edge f s t → (order_ v).[s] = Some p → (order_ v).[t] = Some q → p < q
    else Holds f Cyclic.
Proof.
  intros Hwf Hst. destruct (decide (Start f = kNoStateId)) as [Hno|Hne].
  - unfold DfsVisit. rewrite Hno. eexists. split; [reflexivity|]. simpl. rewrite (Hst Hno). split; [done|].
    intros s t p q _ Hs%vget_range. unfold zlen in Hs. simpl in Hs. lia.
  - assert (valid f (Start f)) as Hv by by destruct Hwf as (_ & _ & [?|?]).
    destruct (DfsVisit_ok f top_order_visitor AnyArcFilter v0 _ (top_rule f Hwf v0) Hwf Hv (Some (NumStates f)) false)
      as (v & root & B & go & -> & Hi & [Hg HI] & _ & _ & Hall); [by left|].
    cbn [FinishVisit top_order_visitor]. unfold Top_FinishVisit. rewrite Hg. destruct go; [|by exists v; rewrite Hg].
    destruct HI as [(Hnd & Hin & _ & Hord) _].
    assert (∀ s, s ∈ finish_ v ↔ 0 ≤ s < NumStates f) as Hfin.
    { intros s. rewrite Hin. split; [apply (inv_black_valid _ _ _ _ _ _ Hi)|by apply Hall]. }
    pose proof (finish_len _ _ (proj1 Hwf) Hnd Hfin) as Hl.
    destruct (order_of_finish _ _ (proj1 Hwf) Hnd Hfin) as (order & Ho & Hperm & Hget). rewrite Hl, Ho. cbn [mbind option_bind].
    eexists. split; [done|]. simpl. split; [done|]. intros s t p q He Hp Hq.
    assert (valid f s ∧ valid f t) as [Hs Ht].
    { destruct He as (Hs & a & Ha & <-). split; [done|]. by apply (proj1 (proj2 Hwf) s). }
    apply Hfin, elem_of_vget in Hs as [i Hs], Ht as [j Ht]. rewrite (Hget i s Hs) in Hp. rewrite (Hget j t Ht) in Hq.
    pose proof (Hord i j s t Hs Ht He). simplify_eq. lia.
Qed.

(** Storing bits that are true. *)
Lemma raise_sound p q g : Sound p g → Sound q g → Sound ((p &&& (u64_not q ||| kError)) ||| (q &&& q)) g.
Proof.
  intros Hp Hq t. destruct (Hp t) as [P1 P2], (Hq t) as [Q1 Q2].
  rewrite Z.land_diag, !Z.lor_spec, !Z.land_spec, !orb_true_iff, !andb_true_iff. naive_solver.
Qed.

Lemma top_sorted_bits g : Holds g TopSorted → Sound (kAcyclic ||| kInitialAcyclic ||| kTopSorted) g.
Proof.
  intros Ht t. pose proof (top_sorted_acyclic g Ht). pose proof (top_sorted_initial_acyclic g Ht).
  destruct t; bits; naive_solver.
Qed.

Lemma cyclic_bits g : Holds g Cyclic → Sound (kCyclic ||| kNotTopSorted) g.
Proof.
  intros Hc t. assert (¬ Holds g TopSorted) by (intros Ht; by apply (top_sorted_acyclic g Ht)).
  destruct t; bits; naive_solver.
Qed.

Lemma leaves_raise y q err lang : leaves y err lang → Sound q (view y) → leaves (mSetProperties y q q) err lang.
Proof.
  intros [Hi Hwf Hs He Hl] Hq. assert (view (mSetProperties y q q) ≡ view y) as E by apply mSetProperties_view. split.
  - by apply mSetProperties_minv.
  - by rewrite E.
  - apply (SoundFst_equiv _ _ E). rewrite mSetProperties_bits. by apply raise_sound.
  - intros Ht. specialize (He Ht). revert He. rewrite !error_bit, mSetProperties_bits. bits. by intros ->.
  - intros a b w. rewrite E. apply Hl.
Qed.
(** The sorted machine has arcs to higher states only. *)
Lemma keep_top_sorted f kept order :
  NoDup kept → Forall (valid f) kept → (∀ s p, kept.[p] = Some s ↔ order.[s] = Some p) →
  (∀ s t p q, edge f s t → order.[s] = Some p → order.[t] = Some q → p < q) →
  Holds (abs_keep_states f kept) TopSorted.
Proof.
  intros Hnd Hv Hinv Hord i b Hi Hb.
  destruct (keep_arc_in f kept Hnd Hv i b (conj Hi Hb)) as (s & a & Hs & [Hvs Ha] & Hn & _).
  apply (Hord s (nextstate a)); [split; [done|by exists a]|by apply Hinv..].
Qed.

Lemma ordered_acyclic f order :
  WellFormed f → order ≡ₚ seqZ 0 (NumStates f) →
  (∀ s t p q, edge f s t → order.[s] = Some p → order.[t] = Some q → p < q) → ¬ Holds f Cyclic.
Proof.
  intros Hwf Hperm Hord (s & Hc).
  assert (∀ s t, tc (edge f) s t → ∀ p q, order.[s] = Some p → order.[t] = Some q → p < q) as Hup.
  { induction 1 as [u w He|u w t He Hr IH]; intros p q Hp Hq; [by eapply Hord|].
    assert (valid f w) as Hw by (destruct He as (Hu & a & Ha & <-); by apply (proj1 (proj2 Hwf) u)).
    destruct (order_get _ _ (proj1 Hwf) Hperm w Hw) as (r & Hr' & _).
    pose proof (Hord u w p r He Hp Hr'). pose proof (IH r q Hr' Hq). lia. }
  assert (valid f s) as Hs by by apply tc_first in Hc as (? & [? _] & _).
  destruct (order_get _ _ (proj1 Hwf) Hperm s Hs) as (p & Hp & _). pose proof (Hup s s Hc p p Hp Hp). lia.
Qed.

(** C31: [TopSort] on a well-formed machine with true property bits, and with a
start state if it has states, ends and returns whether the machine has no cycle.
If it has none, the states are renumbered so that every arc leads to a higher
state, and the machine accepts the same pairs with the same weights; otherwise
it stays as it is.  The bits that say so are stored, and all stored bits are
true. *)
Theorem TopSort_correct acyclic0 x :
  minv x → WellFormed (view x) → SoundFst (view x) →
  (Start (view x) = kNoStateId → NumStates (view x) = 0) →
  ∃ y b, TopSort acyclic0 x = Some (y, b) ∧ (b = true ↔ ¬ Holds (view x) Cyclic) ∧
    leaves y (has (FstProperties (view x)) kError) (accepts (view x)) ∧
    if b then Holds (view y) TopSorted ∧ has (FstProperties (view y)) kTopSorted = true ∧
      ∃ kept, kept ≡ₚ seqZ 0 (NumStates (view x)) ∧ view y ≡ abs_keep_states (view x) kept
    else view y ≡ view x ∧ has (FstProperties (view y)) kCyclic = true.
Proof.
  intros Hx Hwf Hs Hst. unfold TopSort.
  destruct (top_visit (view x) (MkTop [] acyclic0 []) Hwf Hst) as (v & -> & Hv). cbn [mbind option_bind].
  destruct (acyclic_ v).
  - destruct Hv as [Hperm Hord].
    assert (∃ y kept, StateSort x (order_ v) = Some y ∧ leaves y (has (FstProperties (view x)) kError) (accepts (view x)) ∧
      view y ≡ abs_keep_states (view x) kept ∧ kept ≡ₚ seqZ 0 (NumStates (view x)) ∧
      Holds (view y) TopSorted) as (y & kept & -> & Hl & Hy & Hk & Ht).
    { destruct (decide (Start (view x) = kNoStateId)) as [Hno|Hne].
      - exists x, (seqZ 0 (NumStates (view x))). unfold StateSort.
        rewrite (order_len _ _ (proj1 Hwf) Hperm), Z.eqb_refl, Hno. split; [done|]. split; [by split|].
        split; [by rewrite keep_all by (done || apply view_tight)|]. split; [done|].
        intros s a [? ?]. rewrite (Hst Hno) in *. lia.
      - assert (valid (view x) (Start (view x))) as Hvs by by destruct Hwf as (_ & _ & [?|?]).
        destruct (StateSort_leaves x (order_ v) Hx Hwf Hs Hvs Hperm) as (y & kept & Hr & Hl & _ & _ & Hy & Hnd & Hkv & Hinv).
        exists y, kept. split_and!; [done..| |].
        + apply NoDup_Permutation; [done|apply NoDup_seqZ|]. intros s. rewrite elem_of_seqZ. rewrite Forall_forall in Hkv. split.
          * intros Hin%Hkv. unfold valid in Hin. lia.
          * intros Hr'. destruct (order_get _ _ (proj1 Hwf) Hperm s) as (p & Hp & _); [lia|].
            eapply vget_elem_of. by apply Hinv.
        + rewrite Hy. by eapply keep_top_sorted. }
    cbn [mbind option_bind]. set (q := kAcyclic ||| kInitialAcyclic ||| kTopSorted).
    assert (view (mSetProperties y q q) ≡ view y) as E by apply mSetProperties_view.
    eexists _, true. split; [done|]. split_and!.
    + split; [|done]. intros _. exact (ordered_acyclic (view x) (order_ v) Hwf Hperm Hord).
    + apply leaves_raise; [done|by apply top_sorted_bits].
    + by rewrite E.
    + rewrite mSetProperties_bits, (has_bit _ kTopSorted 38) by done. unfold q. bits. by rewrite ?orb_true_r.
    + exists kept. split; [done|]. by rewrite E.
  - set (q := kCyclic ||| kNotTopSorted). eexists _, false. split; [done|]. split_and!.
    + split; [done|]. by intros [].
    + apply leaves_raise; [by split|by apply cyclic_bits].
    + apply mSetProperties_view.
    + rewrite mSetProperties_bits, (has_bit _ kCyclic 34) by done. unfold q. bits. by rewrite ?orb_true_r.
Qed.
End correct.

(** * Instances *)

Section witnesses.
Local Notation M := MinMaxWeight.

Lemma TopSort_correct_witness :
  let x := unsorted_fst in
  ∃ y b, TopSort false x = Some (y, b) ∧ (b = true ↔ ¬ Holds (view x) Cyclic) ∧
    leaves y (has (FstProperties (view x)) kError) (accepts (view x)) ∧
    if b then Holds (view y) TopSorted ∧ has (FstProperties (view y)) kTopSorted = true ∧
      ∃ kept, kept ≡ₚ seqZ 0 (NumStates (view x)) ∧ view y ≡ abs_keep_states (view x) kept
    else view y ≡ view x ∧ has (FstProperties (view y)) kCyclic = true.
Proof.
  destruct unsorted_ready as (H1 & H2 & H3). apply (TopSort_correct false unsorted_fst H1 H2 H3). by vm_compute.
Defined.

Example unsorted_sorted :
  (λ '(y, b), (Arcs (view y) <$> [0; 1; 2], Start (view y), b)) <$> TopSort false unsorted_fst =
  Some ([[MkArc 5 6 One 1; MkArc 1 1 One 2]; [MkArc 1 2 four 2]; []], 0, true).
Proof. by vm_compute. Qed.

(** Without a start state the order is empty, and sorting by it raises an error. *)
Example TopSort_no_start :
  (λ '(y, b), (has (FstProperties (view y)) kError, b)) <$> TopSort false (AddState (W:=M) VectorFst_new).1 =
  Some (true, true).
Proof. by vm_compute. Qed.
End witnesses.
