(* ===== verification/StateMap.v ===== *)
(** Mapping the arcs of a machine state by state (openfst/lib/state-map.h): the
loop that rewrites a machine in place, the one that writes another machine, and
the mappers that the library builds on them: arcs summed, made unique, or left
alone.  Proved here: both loops end without an access out of range and apply the
mapper to the arcs of each state. *)
From S2P Require Import Prelude Weight FloatWeight Properties SymbolTable Fst VectorFst Mutation VectorSound.
From S2P Require Import MutableFst Rational RationalSpec ArcMap.
From Stdlib Require Import Sorting.Sorted.
Local Open Scope Z_scope.

(** * The interface of a mapper *)

(** [map_Arcs] is [SetState] with the iteration over the mapped arcs; the
mapper reads the machine it was built from. *)

(* state-map.h:47-85 StateMapper *)
Record StateMapper (W : Type) := {
  map_Start : Fst W → Z;
  map_Final : Fst W → Z → W;
  map_Arcs : Fst W → Z → list (Arc W);
  map_InputSymbolsAction : MapSymbolsAction;
  map_OutputSymbolsAction : MapSymbolsAction;
  map_Properties : Z → Z;
}.
Arguments map_Start {_} _ _.
Arguments map_Final {_} _ _ _.
Arguments map_Arcs {_} _ _ _.
Arguments map_InputSymbolsAction {_} _.
Arguments map_OutputSymbolsAction {_} _.
Arguments map_Properties {_} _ _.

(** * The loops *)

Section state_map.
Context `{MutableFst W F}.
Implicit Types (fst : F) (mapper : StateMapper W).

(* state-map.h:114-121 StateMap *)
Definition map_state mapper fst (state : Z) : option F :=
  let arcs := map_Arcs mapper (view fst) state in
  fst ← mDeleteAllArcs fst state;
  fst ← foldM (λ fst a, mAddArc fst state a) arcs fst;
  mSetFinal fst state (map_Final mapper (view fst) state).

(* state-map.h:101-123 StateMap *)
Definition StateMap fst mapper : option F :=
  let fst := match map_InputSymbolsAction mapper with MAP_CLEAR_SYMBOLS => mSetInputSymbols fst None | _ => fst end in
  let fst := match map_OutputSymbolsAction mapper with MAP_CLEAR_SYMBOLS => mSetOutputSymbols fst None | _ => fst end in
  if Start (view fst) =? kNoStateId then Some fst else
  let props := mProperties fst kFstProperties in
  let fst := mSetStart fst (map_Start mapper (view fst)) in
  fst ← foldM (map_state mapper) (seqZ 0 (NumStates (view fst))) fst;
  Some (mSetProperties fst (map_Properties mapper props) kFstProperties).

(* state-map.h:161-168 StateMap *)
Definition copy_state mapper (ifst : Fst W) ofst (state : Z) : option F :=
  ofst ← foldM (λ ofst a, mAddArc ofst state a) (map_Arcs mapper ifst state) ofst;
  mSetFinal ofst state (map_Final mapper ifst state).

(* state-map.h:133-171 StateMap *)
Definition StateMap_to (ifst : Fst W) ofst mapper : option F :=
  let ofst := mDeleteAllStates ofst in
  let ofst := match map_InputSymbolsAction mapper with
    | MAP_COPY_SYMBOLS => mSetInputSymbols ofst (InputSymbols ifst)
    | MAP_CLEAR_SYMBOLS => mSetInputSymbols ofst None
    | MAP_NOOP_SYMBOLS => ofst end in
  let ofst := match map_OutputSymbolsAction mapper with
    | MAP_COPY_SYMBOLS => mSetOutputSymbols ofst (OutputSymbols ifst)
    | MAP_CLEAR_SYMBOLS => mSetOutputSymbols ofst None
    | MAP_NOOP_SYMBOLS => ofst end in
  let iprops := FstProperties ifst &&& kCopyProperties in
  if Start ifst =? kNoStateId then
    Some (if has iprops kError then mSetProperties ofst kError kError else ofst)
  else
  let ofst := foldl (λ ofst _, (mAddState ofst).1) ofst (seqZ 0 (NumStates ifst)) in
  let ofst := mSetStart ofst (map_Start mapper ifst) in
  ofst ← foldM (copy_state mapper ifst) (seqZ 0 (NumStates ifst)) ofst;
  let oprops := mProperties ofst kFstProperties in
  Some (mSetProperties ofst (map_Properties mapper iprops ||| oprops) kFstProperties).
End state_map.

(** * The mappers *)

Section mappers.
Context `{WeightOps W}.
Implicit Types (l : list (Arc W)) (a b : Arc W).

(** The mappers of the library keep the start and the final weights, and rewrite
the arcs of each state on their own. *)
Definition arcs_mapper (k : list (Arc W) → list (Arc W)) (props : Z → Z) : StateMapper W := {|
  map_Start := Start;
  map_Final := Final;
  map_Arcs := λ f s, k (Arcs f s);
  map_InputSymbolsAction := MAP_COPY_SYMBOLS;
  map_OutputSymbolsAction := MAP_COPY_SYMBOLS;
  map_Properties := props;
|}.

(* state-map.h:413-454 IdentityStateMapper *)
Definition IdentityStateMapper : StateMapper W := arcs_mapper (λ l, l) (λ props, props).

(** The labels and the destination of an arc, and their order as tuples. *)
Definition key a : Z * Z * Z := (ilabel a, olabel a, nextstate a).

(* state-map.h:519-524 operator() *)
Definition key_less a b : bool :=
  (ilabel a <? ilabel b) ||
  (negb (ilabel b <? ilabel a) && ((olabel a <? olabel b) ||
    (negb (olabel b <? olabel a) && (nextstate a <? nextstate b)))).

(* state-map.h:526-531 operator() *)
Definition key_eq a b : bool :=
  (ilabel a =? ilabel b) && (olabel a =? olabel b) && (nextstate a =? nextstate b).

(* state-map.h:602-607 operator() *)
Definition arc_eq a b : bool := key_eq a b && weqb (weight a) (weight b).

(** One turn of the loop over the sorted arcs; the arcs that are done come in
reverse, so that the last one is at hand. *)

(* state-map.h:489-494 SetState *)
Definition sum_arc (done : list (Arc W)) a : list (Arc W) :=
  match done with
  | last :: rest =>
      if key_eq a last then MkArc (ilabel last) (olabel last) (Plus (weight last) (weight a)) (nextstate last) :: rest
      else a :: done
  | [] => [a]
  end.

(* state-map.h:487-496 SetState *)
Definition sum_arcs l : list (Arc W) := reverse (foldl sum_arc [] l).

(** std::unique: an arc that equals the last one that was kept is dropped. *)
Definition unique_arc (done : list (Arc W)) a : list (Arc W) :=
  match done with
  | last :: _ => if arc_eq last a then done else a :: done
  | [] => [a]
  end.
Definition unique_arcs l : list (Arc W) := reverse (foldl unique_arc [] l).

(** The order that std::sort leaves among equivalent arcs is not specified: the
sort is a parameter. *)
Context (std_sort : (Arc W → Arc W → bool) → list (Arc W) → list (Arc W)).

(* state-map.h:456-540 ArcSumMapper *)
Definition ArcSumMapper : StateMapper W :=
  arcs_mapper (λ l, sum_arcs (std_sort key_less l))
    (λ props, props &&& kArcSortProperties &&& kDeleteArcsProperties &&& kWeightInvariantProperties).

(* state-map.h:542-616 ArcUniqueMapper *)
Definition ArcUniqueMapper : StateMapper W :=
  arcs_mapper (λ l, unique_arcs (std_sort key_less l))
    (λ props, props &&& kArcSortProperties &&& kDeleteArcsProperties).
End mappers.

(** * The machine with mapped arcs *)

Section mapped.
Context `{WeightOps W}.
Implicit Types (f g : Fst W) (k : list (Arc W) → list (Arc W)).

Definition abs_map_arcs f k : Fst W := {|
  Start := Start f; NumStates := NumStates f; Final := Final f; Arcs := λ s, k (Arcs f s);
  FstProperties := FstProperties f; InputSymbols := InputSymbols f; OutputSymbols := OutputSymbols f |}.

(** Only the states below [n] are mapped. *)
Definition abs_map_below f k (n : Z) : Fst W := {|
  Start := Start f; NumStates := NumStates f; Final := Final f;
  Arcs := λ s, if decide (0 ≤ s < n) then k (Arcs f s) else Arcs f s;
  FstProperties := FstProperties f; InputSymbols := InputSymbols f; OutputSymbols := OutputSymbols f |}.

(** Only the states below [n] are copied. *)
Definition abs_copied f k (n : Z) : Fst W := {|
  Start := Start f; NumStates := NumStates f;
  Final := λ s, if decide (0 ≤ s < n) then Final f s else Zero;
  Arcs := λ s, if decide (0 ≤ s < n) then k (Arcs f s) else [];
  FstProperties := FstProperties f; InputSymbols := InputSymbols f; OutputSymbols := OutputSymbols f |}.

Lemma map_below_all f k : tight f → k [] = [] → abs_map_below f k (NumStates f) ≡ abs_map_arcs f k.
Proof.
  intros Ht Hk. repeat split; simpl; try done. intros s. case_decide as Hs; [done|].
  destruct (Ht s Hs) as [_ ->]. done.
Qed.

Lemma copied_all f k : tight f → k [] = [] → abs_copied f k (NumStates f) ≡ abs_map_arcs f k.
Proof.
  intros Ht Hk. repeat split; simpl; try done; intros s; case_decide as Hs; try done;
    destruct (Ht s Hs) as [HF HA]; by rewrite ?HF, ?HA.
Qed.
End mapped.

Section loops.
Context `{MutableFstLaws W F}.
Implicit Types (x y z : F) (f g : Fst W) (k : list (Arc W) → list (Arc W)).

Lemma add_arcs_evolves x y g s l :
  evolves x y g → valid g s →
  ∃ z, foldM (λ z a, mAddArc z s a) l y = Some z ∧ evolves x z (abs_add_arcs g s l).
Proof.
  revert y g. induction l as [|a l IH]; intros y g Hxy Hs; simpl.
  - exists y. split; [done|]. eapply evolves_equiv; [done|]. by rewrite abs_add_arcs_nil.
  - destruct (evolves_add_arc x y g s a Hxy Hs) as (y' & -> & Hy'). simpl.
    destruct (IH y' _ Hy') as (z & Hz & Hxz); [done|].
    exists z. split; [done|]. eapply evolves_equiv; [done|]. apply abs_add_arcs_cons.
Qed.

Lemma evolves_delete_all x y g s :
  evolves x y g → valid g s → ∃ z, mDeleteAllArcs y s = Some z ∧ evolves x z (abs_set_arcs g s []).
Proof.
  intros Hxy Hs. pose proof Hxy as [Hy _].
  destruct (mDeleteAllArcs_steps y s Hy) as (z & Hz & ? & ?); [by eapply evolves_valid|].
  exists z. split; [done|]. by eapply (evolves_trans x y z g (λ f, abs_set_arcs f s [])); [|split|apply _].
Qed.

Lemma map_state_evolves x y f k props n :
  0 ≤ n < NumStates f → evolves x y (abs_map_below f k n) →
  ∃ z, map_state (arcs_mapper k props) y n = Some z ∧ evolves x z (abs_map_below f k (n + 1)).
Proof.
  intros Hn Hy. unfold map_state. simpl.
  rewrite (evolves_arcs x y _ n Hy). simpl. rewrite decide_False by lia.
  destruct (evolves_delete_all x y _ n Hy Hn) as (y1 & -> & Hy1). cbn [mbind option_bind].
  destruct (add_arcs_evolves x y1 _ n (k (Arcs f n)) Hy1 Hn) as (y2 & -> & Hy2). cbn [mbind option_bind].
  rewrite (evolves_final x y2 _ n Hy2). cbn [Final abs_add_arcs abs_set_arcs abs_map_below].
  destruct (evolves_set_final x y2 _ n (Final f n) Hy2 Hn) as (y3 & -> & Hy3).
  exists y3. split; [done|]. eapply evolves_equiv; [exact Hy3|].
  repeat split; simpl; try done; intros s.
  - case_decide; by subst.
  - repeat case_decide; subst; try done; lia.
Qed.

Lemma StateMap_arcs x k props :
  minv x → k [] = [] → Start (view x) ≠ kNoStateId →
  ∃ y, StateMap x (arcs_mapper k props) = Some (mSetProperties y (props (mProperties x kFstProperties)) kFstProperties) ∧
    evolves x y (abs_map_arcs (view x) k).
Proof.
  intros Hx Hk Hs. unfold StateMap. cbn [map_InputSymbolsAction map_OutputSymbolsAction arcs_mapper].
  rewrite (proj2 (Z.eqb_neq _ _) Hs). cbn [map_Start map_Properties arcs_mapper].
  set (x0 := mSetStart x _).
  assert (evolves x x0 (abs_map_below (view x) k 0)) as Hx0.
  { eapply evolves_equiv; [apply evolves_set_start; by apply evolves_refl|].
    repeat split; simpl; try done. intros s. by rewrite decide_False by lia. }
  assert (NumStates (view x0) = NumStates (view x)) as -> by by destruct Hx0 as [_ [(_ & -> & _) _ _ _ _]].
  destruct (foldM_total (map_state (arcs_mapper k props)) (λ done y, evolves x y (abs_map_below (view x) k (zlen done)))
    (seqZ 0 (NumStates (view x))) x0) as (y & Hy & Hxy).
  - done.
  - intros done n todo y [-> Hn]%seqZ_split Hxy. rewrite zlen_app, zlen_seqZ, Z.max_r in * by lia.
    change (zlen [n]) with 1. by apply map_state_evolves.
  - fold (@arcs_mapper W). rewrite Hy. exists y. split; [done|].
    rewrite zlen_seqZ, Z.max_r in Hxy by apply view_nonneg.
    eapply evolves_equiv; [exact Hxy|]. apply map_below_all; [apply view_tight|done].
Qed.

(** A machine without a start state stays as it is. *)
Lemma StateMap_no_start x k props :
  Start (view x) = kNoStateId → StateMap x (arcs_mapper k props) = Some x.
Proof. intros Hs. unfold StateMap. simpl. by rewrite Hs. Qed.
End loops.

Section copies.
Context `{MutableFstLaws W F}.
Implicit Types (x y z : F) (f g : Fst W) (k : list (Arc W) → list (Arc W)).

Lemma add_states_evolves x y g n :
  evolves x y g → 0 ≤ n →
  evolves x (foldl (λ z _, (mAddState z).1) y (seqZ 0 n)) (abs_add_states g n).
Proof.
  intros Hxy Hn. revert n Hn. refine (natlike_ind _ _ _).
  - eapply evolves_equiv; [exact Hxy|]. repeat split; simpl; try done. lia.
  - intros n Hn IH. change (Z.succ n) with (n + 1). rewrite <-seqZ_snoc by done. rewrite foldl_app. simpl.
    destruct (evolves_add_state x _ _ IH) as (z & -> & Hz). simpl.
    eapply evolves_equiv; [exact Hz|]. repeat split; simpl; try done. lia.
Qed.

Lemma copy_state_evolves x y f k props n :
  0 ≤ n < NumStates f → evolves x y (abs_copied f k n) →
  ∃ z, copy_state (arcs_mapper k props) f y n = Some z ∧ evolves x z (abs_copied f k (n + 1)).
Proof.
  intros Hn Hy. unfold copy_state. simpl.
  destruct (add_arcs_evolves x y _ n (k (Arcs f n)) Hy Hn) as (y2 & -> & Hy2). cbn [mbind option_bind].
  destruct (evolves_set_final x y2 _ n (Final f n) Hy2 Hn) as (y3 & -> & Hy3).
  exists y3. split; [done|]. eapply evolves_equiv; [exact Hy3|].
  repeat split; simpl; try done; intros s; repeat case_decide; subst; try done; lia.
Qed.

(** The machine that is written over, once the symbol tables are there. *)
Definition emptied x f : F :=
  mSetOutputSymbols (mSetInputSymbols (mDeleteAllStates x) (InputSymbols f)) (OutputSymbols f).

Lemma emptied_spec x f :
  minv x → let e := emptied x f in
  minv e ∧ view e ≡ abs_keep_states (view x) [] ∧
  InputSymbols (view e) = InputSymbols f ∧ OutputSymbols (view e) = OutputSymbols f ∧
  (SoundFst (view x) → SoundFst (view e)).
Proof.
  intros Hx. destruct (mDeleteAllStates_steps x Hx) as [Hx1 [Hv _ _ _ Hs]]. unfold emptied.
  set (x1 := mDeleteAllStates x) in *. set (x2 := mSetInputSymbols x1 _). simpl.
  destruct (mSetInputSymbols_rest x1 (InputSymbols f)) as (I2 & _ & P2). fold x2 in I2, P2.
  destruct (mSetOutputSymbols_rest x2 (OutputSymbols f)) as (I3 & O3 & P3).
  assert (view (mSetOutputSymbols x2 (OutputSymbols f)) ≡ view x1) as E.
  { etrans; [apply mSetOutputSymbols_view|apply mSetInputSymbols_view]. }
  split_and!; [by apply mSetOutputSymbols_minv, mSetInputSymbols_minv|by rewrite E|by rewrite I3|done|].
  intros Hsx. apply (SoundFst_equiv _ _ E). rewrite P3, P2. by apply Hs.
Qed.

Lemma StateMap_to_arcs f x k props :
  minv x → 0 ≤ NumStates f → tight f → k [] = [] → Start f ≠ kNoStateId →
  ∃ y, StateMap_to f x (arcs_mapper k props) =
      Some (mSetProperties y (props (FstProperties f &&& kCopyProperties) ||| mProperties y kFstProperties) kFstProperties) ∧
    evolves (emptied x f) y (abs_map_arcs f k).
Proof.
  intros Hx Hn Ht Hk Hs. unfold StateMap_to. cbn [map_InputSymbolsAction map_OutputSymbolsAction arcs_mapper].
  fold (emptied x f). rewrite (proj2 (Z.eqb_neq _ _) Hs). cbn [map_Start map_Properties arcs_mapper].
  destruct (emptied_spec x f Hx) as (He & Hv & _). set (e := emptied x f) in *.
  pose proof (add_states_evolves e e _ (NumStates f) (evolves_refl e He) Hn) as Hadd.
  apply (evolves_set_start e _ _ (Start f)) in Hadd.
  destruct (foldM_total (copy_state (arcs_mapper k props) f) (λ done y, evolves e y (abs_copied f k (zlen done)))
    (seqZ 0 (NumStates f)) (mSetStart (foldl (λ z _, (mAddState z).1) e (seqZ 0 (NumStates f))) (Start f))) as (y & Hy & Hxy).
  - eapply evolves_equiv; [exact Hadd|]. destruct Hv as (_ & HN & HF & HA).
    assert (∀ s, (@nil Z).[s] = None) as Hnil.
    { intros s. apply vget_None. change (zlen (@nil Z)) with 0. lia. }
    repeat split; simpl; try done; [rewrite HN; simpl; change (zlen (@nil Z)) with 0; lia|..]; intros s; change (zlen (@nil Z)) with 0;
      rewrite decide_False by lia; [rewrite HF|rewrite HA]; simpl; by rewrite Hnil.
  - intros done n todo y [-> Hr]%seqZ_split Hxy. rewrite zlen_app, zlen_seqZ, Z.max_r in * by lia.
    change (zlen [n]) with 1. by apply copy_state_evolves.
  - rewrite Hy. exists y. split; [done|].
    rewrite zlen_seqZ, Z.max_r in Hxy by done. eapply evolves_equiv; [exact Hxy|]. by apply copied_all.
Qed.
End copies.
