(* ===== verification/Reverse.v ===== *)
(** Reversal (openfst/lib/reverse.h): the machine with all arcs turned round, from a
new initial state or, where that is not asked for and not needed, from the final
state.  Proved here: the loop ends without an access out of range and leaves the
machine with the arcs turned round.  What that machine accepts is in ReverseSpec.v. *)
From S2P Require Import Prelude Weight FloatWeight Properties SymbolTable Fst VectorFst Mutation VectorSound.
From S2P Require Import MutableFst Rational RationalLang RationalSpec Dfs Tarjan Scc ArcMap StateMap.
Local Open Scope Z_scope.

(** * Weights turned round *)

(* weight.h:105-109 Reverse *)
Class ReverseWeight (W R : Type) := Reverse_ : W → R.

(** What the reverse of a weight promises, on members. *)
Class ReverseWeightLaws (W R : Type) `{WeightEq W} `{WeightEq R} `{!ReverseWeight W R} := {
  Reverse_proper : Proper ((≡) ==> (≡)) (Reverse_ : W → R);
  Reverse_member : ∀ a : W, Member a = true → Member (Reverse_ a : R) = true;
  Reverse_Zero : ∀ a : W, weqb (Reverse_ a : R) Zero = weqb a Zero;
  Reverse_One : ∀ a : W, weqb (Reverse_ a : R) One = weqb a One;
  Reverse_Times : ∀ a b : W, Member a = true → Member b = true →
    (Reverse_ (Times a b) : R) ≡ Times (Reverse_ b) (Reverse_ a);
}.
#[export] Existing Instance Reverse_proper.

(* float-weight.h:294-294 Reverse *)
#[export] Instance Tropical_Reverse : ReverseWeight TropicalWeight TropicalWeight := λ w, w.
(* float-weight.h:846-846 Reverse *)
#[export] Instance MinMax_Reverse : ReverseWeight MinMaxWeight MinMaxWeight := λ w, w.

(** * The operation *)

Section reverse.
Context `{WeightOps W} `{MutableFst R F} `{!ReverseWeight W R}.
Implicit Types (ifst : Fst W) (ofst : F).

(** The only final state, or none. *)

(* reverse.h:67-76 Reverse *)
Fixpoint single_final ifst (states : list Z) (ostart : Z) : Z :=
  match states with
  | [] => ostart
  | s :: states =>
      if weqb (Final ifst s) Zero then single_final ifst states ostart
      else if negb (ostart =? kNoStateId) then kNoStateId
      else single_final ifst states s
  end.

(** Whether a state has a cycle, by its component and its own arcs; and the bits that
the visit of the components computes. *)

(* reverse.h:78-91 Reverse *)
Definition in_cycle ifst (known : option Z) (ostart : Z) : option (bool * Z) :=
  v ← DfsVisit ifst scc_visitor AnyArcFilter known false (SccVisitor_new (Some []) None [] 0 ifst);
  scc ← scc_ v;
  c ← scc.[ostart];
  Some ((1 <? zlen (filter (λ d, d = c) scc)) || existsb (λ arc, nextstate arc =? ostart) (Arcs ifst ostart), props_ v).

(** The start of the result where no new state is needed for it, and the bits of the
operand and of the result that are known by then. *)

(* reverse.h:62-94 Reverse *)
Definition choose_start ifst (known : option Z) (require_superinitial : bool) : option (Z * Z * Z) :=
  if require_superinitial then Some (kNoStateId, 0, 0) else
  let ostart := single_final ifst (seqZ 0 (NumStates ifst)) kNoStateId in
  if negb (ostart =? kNoStateId) && wneqb (Final ifst ostart) One then
    '(cycle, dfs_iprops) ← in_cycle ifst known ostart;
    Some (if (cycle : bool) then (kNoStateId, dfs_iprops, 0) else (ostart, dfs_iprops, kInitialAcyclic))
  else Some (ostart, 0, 0).

(** States up to [s]. *)

(* reverse.h:102-102 Reverse *)
Definition add_states_to ofst (s : Z) : F :=
  foldl (λ ofst _, (mAddState ofst).1) ofst (seqZ (NumStates (view ofst)) (s + 1 - NumStates (view ofst))).

(* reverse.h:110-119 Reverse *)
Definition reverse_arc ifst (offset ostart os : Z) ofst (iarc : Arc W) : option F :=
  let nos := nextstate iarc + offset in
  let weight := Reverse_ (weight iarc) in
  let weight := if (offset =? 0) && (nos =? ostart) then Times (Reverse_ (Final ifst ostart)) weight else weight in
  let oarc := MkArc (ilabel iarc) (olabel iarc) weight os in
  mAddArc (add_states_to ofst nos) nos oarc.

(* reverse.h:99-121 Reverse *)
Definition reverse_state ifst (offset ostart : Z) ofst (s : Z) : option F :=
  let os := s + offset in
  let ofst := add_states_to ofst os in
  ofst ← (if s =? Start ifst then mSetFinal ofst os One else Some ofst);
  let weight := Final ifst s in
  ofst ← (if wneqb weight Zero && (offset =? 1) then mAddArc ofst 0 (MkArc 0 0 (Reverse_ weight) os) else Some ofst);
  foldM (reverse_arc ifst offset ostart os) (Arcs ifst s) ofst.

(* reverse.h:50-130 Reverse *)
Definition Reverse ifst (known : option Z) ofst (require_superinitial : bool) : option F :=
  let ofst := mDeleteAllStates ofst in
  let ofst := mSetInputSymbols ofst (InputSymbols ifst) in
  let ofst := mSetOutputSymbols ofst (OutputSymbols ifst) in
  '(ostart, dfs_iprops, dfs_oprops) ← choose_start ifst known require_superinitial;
  let '(ofst, ostart, offset) :=
    if ostart =? kNoStateId then let '(ofst, ostart) := mAddState ofst in (ofst, ostart, 1) else (ofst, ostart, 0) in
  ofst ← foldM (reverse_state ifst offset ostart) (seqZ 0 (NumStates ifst)) ofst;
  let ofst := mSetStart ofst ostart in
  ofst ← (if (offset =? 0) && (ostart =? Start ifst) then mSetFinal ofst ostart (Reverse_ (Final ifst ostart)) else Some ofst);
  let iprops := (FstProperties ifst &&& kCopyProperties) ||| dfs_iprops in
  let oprops := mProperties ofst kFstProperties ||| dfs_oprops in
  Some (mSetProperties ofst (ReverseProperties iprops (offset =? 1) ||| oprops) kFstProperties).
End reverse.

(** * The machine it builds *)

Section abstract.
Context `{WeightOps W} `{WeightOps R} `{!ReverseWeight W R}.
Context (f : Fst W) (offset ostart : Z).
Implicit Types (a : Arc W) (ps : list (Z * Arc W)) (done : list Z).

Definition turned_weight a : R :=
  if (offset =? 0) && (nextstate a + offset =? ostart) then Times (Reverse_ (Final f ostart)) (Reverse_ (weight a))
  else Reverse_ (weight a).

(** An arc, with the state it leaves. *)
Definition turned (p : Z * Arc W) : Arc R := MkArc (ilabel p.2) (olabel p.2) (turned_weight p.2) (p.1 + offset).

Definition final_arcs done : list (Arc R) :=
  omap (λ q, if wneqb (Final f q) Zero && (offset =? 1) then Some (MkArc 0 0 (Reverse_ (Final f q)) (q + offset)) else None) done.

Definition arcs_into ps (s : Z) : list (Arc R) :=
  omap (λ p, if nextstate p.2 + offset =? s then Some (turned p) else None) ps.

(** With [k] states, after the states [done] were seen and the arcs [ps] turned. *)
Definition abs_reversing (k : Z) done ps : Fst R := {|
  Start := kNoStateId;
  NumStates := k;
  Final := λ s, if decide (0 ≤ s < k ∧ s - offset ∈ done ∧ s - offset = Start f) then One else Zero;
  Arcs := λ s, if decide (0 ≤ s < k) then (if s =? 0 then final_arcs done else []) ++ arcs_into ps s else [];
  FstProperties := 0; InputSymbols := None; OutputSymbols := None |}.

Definition fits (k : Z) done ps : Prop :=
  offset ≤ k ∧ (∀ q, q ∈ done → 0 ≤ q ∧ q + offset < k) ∧ (∀ p, p ∈ ps → 0 ≤ nextstate p.2 ∧ nextstate p.2 + offset < k).

Lemma arcs_into_none ps (s : Z) : (∀ p, p ∈ ps → nextstate p.2 + offset ≠ s) → arcs_into ps s = [].
Proof.
  unfold arcs_into. induction ps as [|p ps IH]; intros Hps; [done|]. simpl.
  rewrite (proj2 (Z.eqb_neq _ _)) by (apply Hps; left). apply IH. intros q Hq. apply Hps. by right.
Qed.

(** The arcs of a machine, each with the state that it leaves. *)
Definition arcs_of (l : list Z) : list (Z * Arc W) := s ← l; (λ a, (s, a)) <$> Arcs f s.

Lemma elem_of_arcs_of l s a : (s, a) ∈ arcs_of l ↔ s ∈ l ∧ a ∈ Arcs f s.
Proof.
  unfold arcs_of. rewrite list_elem_of_bind. split.
  - intros (t & Hin & Ht). apply list_elem_of_fmap in Hin as (b & [= -> ->] & Hb). done.
  - intros [Hs Ha]. exists s. split; [|done]. apply list_elem_of_fmap. by exists a.
Qed.

Lemma arcs_of_snoc l s : arcs_of (l ++ [s]) = arcs_of l ++ ((λ a, (s, a)) <$> Arcs f s).
Proof. unfold arcs_of. rewrite bind_app. simpl. by rewrite app_nil_r. Qed.

(** The whole machine. *)
Definition abs_reverse : Fst R := {|
  Start := ostart;
  NumStates := NumStates f + offset;
  Final := λ s, if decide (valid f (s - offset) ∧ s - offset = Start f)
    then if (offset =? 0) && (ostart =? Start f) then Reverse_ (Final f ostart) else One else Zero;
  Arcs := λ s, if decide (0 ≤ s < NumStates f + offset)
    then (if s =? 0 then final_arcs (seqZ 0 (NumStates f)) else []) ++ arcs_into (arcs_of (seqZ 0 (NumStates f))) s else [];
  FstProperties := 0; InputSymbols := InputSymbols f; OutputSymbols := OutputSymbols f |}.
End abstract.

Section loops.
Context `{WeightEq W} `{WeightEq R} {F : Type} `{!MutableFst R F} `{!MutableFstLaws R F} `{!ReverseWeight W R}.
Context (f : Fst W) (offset ostart : Z) (Hwf : WellFormed f) (Hoff : offset = 0 ∨ offset = 1).
Implicit Types (x y : F) (a : Arc W) (ps : list (Z * Arc W)) (done : list Z).
Notation R_machine := (abs_reversing (R:=R) f offset ostart).
Notation fit := (fits offset).

Lemma add_states_to_evolves x y k done ps (s : Z) :
  evolves x y (R_machine k done ps) → fit k done ps → 0 ≤ s →
  evolves x (add_states_to y s) (R_machine (Z.max k (s + 1)) done ps) ∧ fit (Z.max k (s + 1)) done ps.
Proof.
  intros Hy (Hk & Hd & Hp) Hs. assert (0 ≤ k) as Hk0 by lia. split.
  2:{ split_and!; [lia|intros q Hq; specialize (Hd q Hq); lia|intros p Hin; specialize (Hp p Hin); lia]. }
  unfold add_states_to. assert (NumStates (view y) = k) as -> by by destruct Hy as [_ [(_ & -> & _) _ _ _ _]].
  assert (∀ m (l : list Z), length l = m → foldl (λ z _, (mAddState z).1) y l = foldl (λ z _, (mAddState z).1) y (seqZ 0 (Z.of_nat m))) as Hlen.
  { intros m l. revert m. induction l as [|i l IH] using rev_ind; intros m <-; [done|].
    rewrite length_app, foldl_app. simpl. rewrite Nat.add_1_r, Nat2Z.inj_succ, <-Z.add_1_r, <-seqZ_snoc, foldl_app by lia.
    simpl. by rewrite (IH (length l)). }
  rewrite (Hlen (Z.to_nat (s + 1 - k))) by apply length_seqZ. assert (Z.of_nat (Z.to_nat (s + 1 - k)) = Z.max 0 (s + 1 - k)) as -> by lia.
  eapply evolves_equiv; [apply add_states_evolves; [exact Hy|lia]|]. split_and!; simpl; [done|lia|..].
  - intros t. apply decide_ext. split; [intros (? & ?); split; [lia|done]|]. intros (? & Hin & ?). specialize (Hd _ Hin). split; [lia|done].
  - intros t. destruct (decide (0 ≤ t < k)); [rewrite !decide_True by lia; done|]. case_decide; [|done].
    rewrite arcs_into_none by (intros p Hin; specialize (Hp p Hin); lia).
    destruct (Z.eqb_spec t 0) as [->|]; [|done]. destruct done as [|q done]; [done|]. specialize (Hd q ltac:(left)). lia.
Qed.

Lemma reverse_arc_evolves x y k done ps (s : Z) a :
  evolves x y (R_machine k done ps) → fit k done ps → valid f s → a ∈ Arcs f s →
  ∃ z, reverse_arc f offset ostart (s + offset) y a = Some z ∧
    evolves x z (R_machine (Z.max k (nextstate a + offset + 1)) done (ps ++ [(s, a)])) ∧
    fit (Z.max k (nextstate a + offset + 1)) done (ps ++ [(s, a)]).
Proof using Hwf Hoff.
  intros Hy Hfit Hs Ha. assert (0 ≤ nextstate a) as Hn by by apply Hwf in Ha as [? _].
  destruct (add_states_to_evolves x y k done ps (nextstate a + offset) Hy Hfit) as [Hz Hfit2]; [lia|].
  set (k2 := Z.max k _) in *. unfold reverse_arc.
  destruct (evolves_add_arc x _ _ (nextstate a + offset) (turned f offset ostart (s, a)) Hz) as (z & Ez & Hz2).
  { unfold valid. simpl. lia. }
  exists z. split; [exact Ez|]. destruct Hfit2 as (A & B & C). split.
  - eapply evolves_equiv; [exact Hz2|]. split_and!; simpl; try done. intros t. unfold arcs_into. rewrite omap_app. simpl.
    destruct (Z.eqb_spec (nextstate a + offset) t) as [<-|Hne].
    + rewrite !decide_True by lia. simpl. by rewrite app_assoc.
    + rewrite (decide_False (P := t = nextstate a + offset)) by congruence. by rewrite app_nil_r.
  - split_and!; [done..|]. intros p [Hin| ->]%elem_of_snoc; [by apply C|]. simpl. lia.
Qed.

Lemma reverse_arcs_evolves x y k done (s : Z) l : ∀ ps,
  evolves x y (R_machine k done ps) → fit k done ps → valid f s → (∀ a, a ∈ l → a ∈ Arcs f s) → k ≤ NumStates f + offset →
  ∃ z k2, foldM (reverse_arc f offset ostart (s + offset)) l y = Some z ∧ k ≤ k2 ≤ NumStates f + offset ∧
    evolves x z (R_machine k2 done (ps ++ ((λ a, (s, a)) <$> l))) ∧ fit k2 done (ps ++ ((λ a, (s, a)) <$> l)).
Proof using Hwf Hoff.
  revert y k. induction l as [|a l IH]; intros y k ps Hy Hfit Hs Hl Hk.
  - exists y, k. cbn [fmap list_fmap]. rewrite app_nil_r. split_and!; [done|lia..|done|done].
  - destruct (reverse_arc_evolves x y k done ps s a Hy Hfit Hs) as (y2 & E2 & Hy2 & Hfit2); [apply Hl; left|].
    assert (nextstate a < NumStates f) as Hn by (apply (proj1 (proj2 Hwf) s); [done|apply Hl; left]).
    destruct (IH y2 _ _ Hy2 Hfit2 Hs) as (z & k2 & E & Hk2 & Hz); [intros b Hb; apply Hl; by right|lia|].
    exists z, k2. cbn [foldM]. rewrite E2. cbn [mbind option_bind]. split_and!; [done|lia..| |]; cbn [fmap list_fmap];
      rewrite <-app_assoc in Hz; apply Hz.
Qed.

Lemma reverse_state_evolves x y k done (s : Z) ps :
  evolves x y (R_machine k done ps) → fit k done ps → valid f s → s ∉ done → k ≤ NumStates f + offset →
  ∃ z k2, reverse_state f offset ostart y s = Some z ∧ s + offset < k2 ≤ NumStates f + offset ∧ k ≤ k2 ∧
    evolves x z (R_machine k2 (done ++ [s]) (ps ++ ((λ a, (s, a)) <$> Arcs f s))) ∧
    fit k2 (done ++ [s]) (ps ++ ((λ a, (s, a)) <$> Arcs f s)).
Proof using Hwf Hoff.
  intros Hy Hfit Hs Hd Hk. unfold reverse_state.
  destruct (add_states_to_evolves x y k done ps (s + offset) Hy Hfit) as [Hy1 (A & B & C)]; [unfold valid in Hs; lia|].
  set (k1 := Z.max k (s + offset + 1)) in *. set (y1 := add_states_to y (s + offset)) in *.
  assert (0 ≤ s + offset < k1) as Hr by (unfold valid in Hs; lia).
  assert (∃ y2 g, (if s =? Start f then mSetFinal y1 (s + offset) One else Some y1) = Some y2 ∧ evolves x y2 g ∧
    Start g = kNoStateId ∧ NumStates g = k1 ∧ (∀ t, Final g t = Final (R_machine k1 (done ++ [s]) ps) t) ∧
    (∀ t, Arcs g t = Arcs (R_machine k1 done ps) t)) as (y2 & g & -> & Hy2 & G1 & G2 & G3 & G4).
  { destruct (Z.eqb_spec s (Start f)) as [Es|Es].
    - destruct (evolves_set_final x y1 _ (s + offset) One Hy1 Hr) as (y2 & E2 & Hy2). exists y2. eexists. split; [done|]. split; [exact Hy2|].
      split_and!; simpl; try done. intros t. case_decide as Et; [subst t; rewrite decide_True; [done|]|].
      + replace (s + offset - offset) with s by lia. split; [done|]. split; [apply elem_of_app; right; by left|done].
      + apply decide_ext. rewrite elem_of_snoc. split; [tauto|]. intros (? & [?|?] & ?); [tauto|lia].
    - exists y1. eexists. split; [done|]. split; [exact Hy1|]. split_and!; simpl; try done. intros t. apply decide_ext. rewrite elem_of_snoc.
      split; [tauto|]. intros (? & [?|?] & ?); [tauto|congruence]. }
  cbn [mbind option_bind].
  assert (∃ y3, (if wneqb (Final f s) Zero && (offset =? 1) then mAddArc y2 0 (MkArc 0 0 (Reverse_ (Final f s)) (s + offset)) else Some y2) = Some y3 ∧
    evolves x y3 (R_machine k1 (done ++ [s]) ps)) as (y3 & -> & Hy3).
  { destruct (wneqb (Final f s) Zero && (offset =? 1)) eqn:Ef.
    - destruct (evolves_add_arc x y2 g 0 (MkArc 0 0 (Reverse_ (Final f s)) (s + offset)) Hy2) as (y3 & E3 & Hy3); [unfold valid; lia|].
      exists y3. split; [done|]. eapply evolves_equiv; [exact Hy3|]. split_and!; [exact G1|exact G2|exact G3|]. intros t.
      cbn [Arcs abs_add_arc abs_add_arcs abs_set_arcs abs_reversing]. rewrite !G4. cbn [Arcs abs_reversing]. case_decide as Et.
      + subst t. rewrite !decide_True by lia. cbn [Z.eqb]. unfold final_arcs. rewrite omap_app. simpl. rewrite Ef.
        assert (arcs_into f offset ostart ps 0 = []) as ->; [|by rewrite !app_nil_r].
        apply arcs_into_none. intros p Hp. apply andb_true_iff in Ef as [_ Ef%Z.eqb_eq]. specialize (C p Hp). lia.
      + case_decide; [|done]. by rewrite (proj2 (Z.eqb_neq _ _)) by lia.
    - exists y2. split; [done|]. eapply evolves_equiv; [exact Hy2|]. split_and!; [exact G1|exact G2|exact G3|]. intros t. rewrite G4. simpl.
      unfold final_arcs. rewrite omap_app. simpl. rewrite Ef. by rewrite app_nil_r. }
  cbn [mbind option_bind].
  assert (fit k1 (done ++ [s]) ps) as Hfit1.
  { split_and!; [done| |done]. intros q [Hq| ->]%elem_of_snoc; [by apply B|unfold valid in Hs; lia]. }
  destruct (reverse_arcs_evolves x y3 k1 (done ++ [s]) s (Arcs f s) ps Hy3 Hfit1 Hs) as (z & k2 & E & Hk2 & Hz & Hf2); [done|unfold valid in Hs; lia|].
  exists z, k2. split_and!; [done|lia..|done|done].
Qed.

Lemma reverse_states_evolves x y :
  evolves x y (R_machine offset [] []) → ∃ z, foldM (reverse_state f offset ostart) (seqZ 0 (NumStates f)) y = Some z ∧
    evolves x z (R_machine (NumStates f + offset) (seqZ 0 (NumStates f)) (arcs_of f (seqZ 0 (NumStates f)))).
Proof using Hwf Hoff.
  intros Hy. pose proof (proj1 Hwf) as Hn.
  destruct (foldM_total (reverse_state f offset ostart)
    (λ done z, ∃ k, zlen done + offset ≤ k ≤ NumStates f + offset ∧ evolves x z (R_machine k done (arcs_of f done)) ∧ fit k done (arcs_of f done))
    (seqZ 0 (NumStates f)) y) as (z & E & k & Hk & Hz & _).
  - exists offset. rewrite zlen_nil. split; [lia|]. split; [exact Hy|]. split_and!; [done|intros ? ?%not_elem_of_nil; done|intros ? ?%not_elem_of_nil; done].
  - intros done s todo z [-> Hs]%seqZ_split (k & Hk & Hz & Hfit). rewrite zlen_seqZ, Z.max_r in * by lia.
    destruct (reverse_state_evolves x z k (seqZ 0 s) s _ Hz Hfit) as (z2 & k2 & E & Hk2 & Hk3 & Hz2 & Hfit2);
      [unfold valid; lia|rewrite elem_of_seqZ; lia|lia|].
    exists z2. split; [exact E|]. exists k2. rewrite arcs_of_snoc, zlen_app, zlen_seqZ, Z.max_r by lia.
    change (zlen [s]) with 1. split_and!; [lia|lia|done|apply Hfit2..].
  - rewrite zlen_seqZ, Z.max_r in Hk by lia. exists z. split; [done|]. by replace (NumStates f + offset) with k by lia.
Qed.

End loops.

Section runs.
Context `{WeightEq W} `{WeightEq R} {F : Type} `{!MutableFst R F} `{!MutableFstLaws R F} `{!ReverseWeight W R}.
Context (f : Fst W) (Hwf : WellFormed f).
Implicit Types (x y : F).

(** What [Reverse] stores at the end. *)
Definition reverse_bits (offset iprops oprops : Z) : Z := ReverseProperties iprops (offset =? 1) ||| oprops.

Lemma Reverse_runs known x super (ostart0 ip op : Z) :
  minv x → choose_start f known super = Some (ostart0, ip, op) → ostart0 = kNoStateId ∨ valid f ostart0 →
  let offset := if ostart0 =? kNoStateId then 1 else 0 in
  let ostart := if ostart0 =? kNoStateId then 0 else ostart0 in
  ∃ y, Reverse f known x super = Some (mSetProperties y (reverse_bits offset ((FstProperties f &&& kCopyProperties) ||| ip)
        (mProperties y kFstProperties ||| op)) kFstProperties) ∧
    evolves (emptied x (abs_reverse (R:=R) f offset ostart)) y (abs_reverse f offset ostart).
Proof using Hwf.
  intros Hx Hc Hv offset ostart. unfold Reverse. rewrite Hc. cbn [mbind option_bind].
  set (g := abs_reverse f offset ostart). change (mSetOutputSymbols _ _) with (emptied x g).
  destruct (emptied_spec x g Hx) as (He & Hev & _). set (e := emptied x g) in *.
  assert (Hoff : offset = 0 ∨ offset = 1) by (unfold offset; destruct (_ =? _); auto).
  assert (∃ e2, (if ostart0 =? kNoStateId then let '(ofst, ostart) := mAddState e in (ofst, ostart, 1) else (e, ostart0, 0)) = (e2, ostart, offset) ∧
    evolves e e2 (abs_reversing f offset ostart offset [] [])) as (e2 & -> & He2).
  { pose proof Hev as (V1 & V2 & V3 & V4). assert (∀ s, (@nil Z).[s] = None) as Hnil by (intros s; apply vget_None; change (zlen (@nil Z)) with 0; lia).
    simpl in V1, V2. unfold offset, ostart. destruct (ostart0 =? kNoStateId).
    - destruct (evolves_add_state e e _ (evolves_refl e He)) as (e2 & -> & He2). exists e2. rewrite V2. split; [done|].
      eapply evolves_equiv; [exact He2|]. split_and!; simpl; [done|by rewrite V2|..]; intros s; rewrite ?V3, ?V4; simpl; rewrite Hnil; simpl.
      + rewrite decide_False; [done|]. intros (_ & Hin & _). by apply not_elem_of_nil in Hin.
      + case_decide; [|done]. by destruct (s =? 0).
    - exists e. split; [done|]. eapply evolves_equiv; [by apply evolves_refl|]. split_and!; simpl; [done|done|..]; intros s; rewrite ?V3, ?V4; simpl; rewrite Hnil; simpl.
      + rewrite decide_False by lia. done.
      + by rewrite decide_False by lia. }
  destruct (reverse_states_evolves f offset ostart Hwf Hoff e e2 He2) as (y & -> & Hy). cbn [mbind option_bind].
  apply (evolves_set_start e y _ ostart) in Hy. set (y1 := mSetStart y ostart) in *.
  assert (∃ y2, (if (offset =? 0) && (ostart =? Start f) then mSetFinal y1 ostart (Reverse_ (Final f ostart)) else Some y1) = Some y2 ∧ evolves e y2 g) as (y2 & -> & Hy2).
  { destruct ((offset =? 0) && (ostart =? Start f)) eqn:E.
    - apply andb_true_iff in E as [E1%Z.eqb_eq E2%Z.eqb_eq].
      assert (valid f ostart) as Hvo.
      { unfold offset, ostart in *. destruct (Z.eqb_spec ostart0 kNoStateId); [done|]. by destruct Hv. }
      destruct (evolves_set_final e y1 _ ostart (Reverse_ (Final f ostart)) Hy) as (y2 & -> & Hy2); [unfold valid in *; simpl; lia|].
      exists y2. split; [done|]. eapply evolves_equiv; [exact Hy2|]. split_and!; simpl; try done. intros s.
      rewrite E1, E2, !Z.eqb_refl, Z.sub_0_r. simpl. unfold valid in *. case_decide as Es.
      + subst s. rewrite decide_True by (rewrite <-E2; split; lia). by rewrite <-E2.
      + rewrite !decide_False; [done|..]; intros ?; lia.
    - exists y1. split; [done|]. eapply evolves_equiv; [exact Hy|]. split_and!; simpl; try done. intros s. rewrite E. apply decide_ext.
      rewrite elem_of_seqZ. unfold valid. lia. }
  cbn [mbind option_bind]. exists y2. split; [done|exact Hy2].
Qed.
End runs.
