(* ===== verification/ReverseSpec.v ===== *)
(** What a reversed machine means (openfst/lib/reverse.h), for any reversal of weights
that turns products round: it accepts the reversed strings with the reversed weights,
and the property bits stored for it are true.  And when the reversal needs a new
initial state. *)
From S2P Require Import Prelude Weight FloatWeight Properties SymbolTable Fst VectorFst Mutation VectorSound.
From S2P Require Import MutableFst Rational RationalLang RationalSpec Dfs Tarjan Scc ArcMap StateMap Reverse.
Local Open Scope Z_scope.

(** * What it means *)

(** Where the reversal may start. *)
Definition starts_at `{WeightOps W} (f : Fst W) (offset ostart : Z) : Prop :=
  offset = 1 ∧ ostart = 0 ∨
  offset = 0 ∧ is_final f ostart ∧ (∀ q, is_final f q → q = ostart) ∧
    (weqb (Final f ostart) One = true ∨ ¬ tc (edge f) ostart ostart).

Lemma path_inv `{WeightOps W} (f : Fst W) s p t : path f s p t →
  match p with [] => s = t | a :: p => valid f s ∧ a ∈ Arcs f s ∧ path f (nextstate a) p t end.
Proof. by destruct 1. Qed.

Lemma strings_eps {V : Type} (b : Arc V) q : ilabel b = 0 → olabel b = 0 → istring (b :: q) = istring q ∧ ostring (b :: q) = ostring q.
Proof. intros Ei Eo. unfold istring, ostring, labels. rewrite !fmap_cons, !filter_cons, Ei, Eo. by rewrite !decide_False by tauto. Qed.

Section meaning.
Context `{TimesMonoid W} `{TimesMonoid R} `{!ReverseWeight W R} `{!ReverseWeightLaws W R}.
Context (f : Fst W) (offset ostart : Z) (Hwf : WellFormed f) (Hmem : member_weights f) (Hst : starts_at f offset ostart).
Context (Hone : weqb (One : R) Zero = false).
Implicit Types (a : Arc W) (b : Arc R).
Notation g := (abs_reverse (R:=R) f offset ostart).
Notation turn := (turned (R:=R) f offset ostart).

Lemma offset_cases : offset = 0 ∨ offset = 1.
Proof using All. destruct Hst as [[? _]|[? _]]; auto. Qed.

Lemma reverse_valid s : valid f s → valid g (s + offset).
Proof using All. pose proof offset_cases. unfold valid. simpl. lia. Qed.

(** The transitions of the reversal. *)
Lemma reverse_arc_in u b :
  arc_in g u b ↔ (∃ s a, arc_in f s a ∧ u = nextstate a + offset ∧ b = turn (s, a)) ∨
    (offset = 1 ∧ u = 0 ∧ ∃ q, is_final f q ∧ b = MkArc 0 0 (Reverse_ (Final f q)) (q + offset)).
Proof using All.
  pose proof offset_cases as Ho. unfold arc_in. simpl. split.
  - intros [Hv Hb]. unfold valid in Hv. simpl in Hv. rewrite decide_True in Hb by done. apply elem_of_app in Hb as [Hb|Hb].
    + right. destruct (Z.eqb_spec u 0) as [->|]; [|by apply not_elem_of_nil in Hb].
      apply list_elem_of_omap in Hb as (q & Hq%elem_of_seqZ & Hb).
      destruct (weqb (Final f q) Zero) eqn:Ef; [done|]. simpl in Hb. destruct (Z.eqb_spec offset 1) as [E1|]; [|done].
      split; [done|]. split; [done|]. exists q. split; [|congruence]. split; [unfold valid; lia|done].
    + left. apply list_elem_of_omap in Hb as ([s a] & Hp & Hb). apply elem_of_arcs_of in Hp as [Hs%elem_of_seqZ Ha]. simpl in Hb.
      destruct (Z.eqb_spec (nextstate a + offset) u); [|done]. exists s, a. split; [split; [unfold valid; lia|done]|]. split; congruence.
  - intros [(s & a & [Hs Ha] & -> & ->)|(-> & -> & q & [Hq Hf] & ->)].
    + pose proof (proj1 (proj2 Hwf) s a Hs Ha) as Hn. split; [by apply reverse_valid|].
      rewrite decide_True by (apply reverse_valid in Hn; done). apply elem_of_app. right.
      apply list_elem_of_omap. exists (s, a). split; [apply elem_of_arcs_of; split; [|done]; apply elem_of_seqZ; unfold valid in Hs; lia|].
      simpl. by rewrite Z.eqb_refl.
    + unfold valid in Hq. split; [unfold valid; simpl; lia|]. rewrite decide_True by lia. apply elem_of_app. left. simpl.
      apply list_elem_of_omap. exists q. split; [apply elem_of_seqZ; lia|]. by rewrite Hf.
Qed.

Lemma reverse_final u : is_final g u ↔ valid f (u - offset) ∧ u - offset = Start f.
Proof using All.
  unfold is_final. simpl. split.
  - intros [Hv Hf]. case_decide as Hd; [done|]. by rewrite weqb_Zero_refl in Hf.
  - intros [Hv Es]. rewrite decide_True by done. split; [replace u with (u - offset + offset) by lia; by apply reverse_valid|].
    destruct ((offset =? 0) && (ostart =? Start f)) eqn:E; [|done]. rewrite Reverse_Zero.
    apply andb_true_iff in E as [E%Z.eqb_eq _]. destruct Hst as [[? _]|(_ & [_ Hf] & _)]; [lia|done].
Qed.

(** Weights are those of the arcs, but for arcs into a start that is on no cycle. *)
Lemma turned_weight_same a : member_weights f → (∃ s, arc_in f s a) →
  (offset = 0 → nextstate a = ostart → weqb (Final f ostart) One = true) →
  turned_weight (R:=R) f offset ostart a ≡ Reverse_ (weight a).
Proof using All.
  intros [Hma Hmf] (s & Hs & Ha) Hone'. unfold turned_weight. destruct ((offset =? 0) && (nextstate a + offset =? ostart)) eqn:E; [|done].
  apply andb_true_iff in E as [E1%Z.eqb_eq E2%Z.eqb_eq].
  assert (weqb (Final f ostart) One = true) as HF by (apply Hone'; lia).
  assert ((Reverse_ (Final f ostart) : R) ≡ One) as -> by (apply weight_equiv_weqb; by rewrite Reverse_One).
  apply Times_One_l, Reverse_member. by eapply Hma.
Qed.

(** A path, turned round. *)
Fixpoint turned_path (s : Z) (p : list (Arc W)) : list (Arc R) :=
  match p with [] => [] | a :: p => turned_path (nextstate a) p ++ [turn (s, a)] end.

Lemma turned_path_fwd s p t : path f s p t → path g (t + offset) (turned_path s p) (s + offset).
Proof using All.
  induction 1 as [s Hs|s a p t Hs Ha Hp IH]; simpl; [constructor; by apply reverse_valid|].
  assert (arc_in g (nextstate a + offset) (turn (s, a))) as [Hv Hin].
  { apply reverse_arc_in. left. exists s, a. done. }
  apply (path_snoc g _ _ _ (turn (s, a)) IH Hin). by apply reverse_valid.
Qed.

Lemma turned_path_snoc s p u a : path f s p u → turned_path s (p ++ [a]) = turn (u, a) :: turned_path s p.
Proof.
  revert s. induction p as [|c p IH]; intros s Hp; inversion Hp; subst; simpl; [done|]. by rewrite IH.
Qed.

Lemma turned_path_bwd u q v : path g u q v → valid f (u - offset) →
  ∃ p, path f (v - offset) p (u - offset) ∧ q = turned_path (v - offset) p.
Proof using All.
  induction 1 as [u Hu|u b q v Hu Hb Hp IH]; intros Hvu; [exists []; split; [by constructor|done]|].
  destruct (proj1 (reverse_arc_in u b) (conj Hu Hb)) as [(s & a & [Hs Ha] & Eu & ->)|(E1 & -> & _)]; [|unfold valid in Hvu; lia].
  simpl in *. replace (s + offset - offset) with s in IH by lia. destruct (IH Hs) as (p & Hpath & ->).
  replace (u - offset) with (nextstate a) by lia. exists (p ++ [a]). split.
  - apply path_snoc with s; [done|done|]. by eapply (proj1 (proj2 Hwf)).
  - by rewrite (turned_path_snoc _ _ s).
Qed.

Lemma turned_labels s p : istring (turned_path s p) = reverse (istring p) ∧ ostring (turned_path s p) = reverse (ostring p).
Proof.
  revert s. induction p as [|a p IH]; intros s; simpl; [done|]. rewrite istring_app, ostring_app.
  destruct (IH (nextstate a)) as [-> ->]. unfold istring, ostring, labels. rewrite !fmap_cons, !filter_cons. simpl.
  split; case_decide; rewrite ?reverse_cons, ?app_nil_r; done.
Qed.

Lemma turned_path_weight s p t v :
  path f s p t → Member v = true → (∀ a, a ∈ p → turned_weight (R:=R) f offset ostart a ≡ Reverse_ (weight a)) →
  path_weight (turned_path s p) v ≡ Times (Reverse_ (path_weight p One)) v.
Proof using All.
  intros Hp. revert v. induction Hp as [s Hs|s a p t Hs Ha Hp IH]; intros v Hv Hw; simpl.
  - assert ((Reverse_ (One : W) : R) ≡ One) as -> by (apply weight_equiv_weqb; rewrite Reverse_One; apply weqb_One_refl).
    by rewrite Times_One_l.
  - assert (Member (weight a) = true) as Hma by by eapply Hmem.
    assert (Member (path_weight p One) = true) as Hmp by (apply path_weight_member; [eapply (path_member f); [apply Hmem|exact Hp]|apply One_member]).
    assert (turned_weight (R:=R) f offset ostart a ≡ Reverse_ (weight a)) as Ew by (apply Hw; left).
    rewrite path_weight_app. simpl. rewrite IH.
    + rewrite Ew, Reverse_Times by done. rewrite Times_assoc by (done || by apply Reverse_member). done.
    + rewrite Ew. apply Times_member; [by apply Reverse_member|done].
    + intros c Hc. apply Hw. by right.
Qed.

(** What is accepted. *)
Lemma path_arcs s p t : path f s p t → ∀ a, a ∈ p → ∃ u, arc_in f u a ∧ rtc (edge f) (nextstate a) t.
Proof using All.
  induction 1 as [s Hs|s a p t Hs Ha Hp IH]; [by intros a ?%not_elem_of_nil|].
  intros b [->|Hb]%elem_of_cons; [|by apply IH]. exists s. split; [done|]. by eapply path_rtc.
Qed.


(** Where the start carries a final weight of its own, only the last arc of a path
enters it. *)
Lemma turned_last s p u a :
  offset = 0 → ¬ tc (edge f) ostart ostart → path f s (p ++ [a]) u → nextstate a = ostart →
  s ≠ ostart ∧ ∀ c, c ∈ p → nextstate c ≠ ostart.
Proof using All.
  intros E1 Hc Hp Ha. apply path_app_inv in Hp as (v & Hp & Hpa). inversion Hpa as [|? ? ? ? Hv Hin _]; subst u.
  assert (edge f v (nextstate a)) as He by (split; [done|by exists a]). rewrite Ha in He. split.
  - intros ->. apply Hc. eapply tc_rtc_l; [by eapply path_rtc|by apply tc_once].
  - intros b Hb Eb. apply Hc. destruct (path_arcs s p v Hp b Hb) as (w & _ & Hr). rewrite Eb in Hr. eapply tc_rtc_l; [exact Hr|by apply tc_once].
Qed.

(** The weight of a successful path. *)
Lemma turned_weights p t : path f (Start f) p t → is_final f t →
  (if decide (offset = 1) then Times (Reverse_ (Final f t)) (path_weight (turned_path (Start f) p) One)
   else path_weight (turned_path (Start f) p) (Final g (Start f + offset))) ≡ Reverse_ (path_weight p (Final f t)).
Proof using All.
  intros Hp Ht.
  assert (Member (Final f t) = true) as Hmt by (apply Hmem; by destruct Ht).
  assert (Forall (λ a, Member (weight a) = true) p) as Hmp by (eapply (path_member f); [apply Hmem|exact Hp]).
  assert (Member (path_weight p One) = true) as Hm1 by (apply path_weight_member; [done|apply One_member]).
  assert (path_weight p (Final f t) ≡ Times (path_weight p One) (Final f t)) as ->.
  { rewrite <-path_weight_Times by (done || apply One_member). by rewrite Times_One_l. }
  rewrite Reverse_Times by done.
  assert (∀ a, a ∈ p → ∃ u, arc_in f u a) as Hin by (intros a Ha; destruct (path_arcs _ p t Hp a Ha) as (u & ? & _); by exists u).
  destruct Hst as [[E1 E2]|(E1 & Hf & Hu & Hc)].
  { rewrite decide_True by done. rewrite (turned_path_weight _ p t One Hp (One_member)).
    - by rewrite Times_One_r by by apply Reverse_member.
    - intros a Ha. apply turned_weight_same; [done|by apply Hin|lia]. }
  rewrite decide_False by lia. assert (t = ostart) as -> by by apply Hu.
  assert (Member (Reverse_ (Final f ostart) : R) = true) as Hmr by by apply Reverse_member.
  assert (∃ v, Final g (Start f + offset) = v ∧ Member v = true ∧ (v = One ∧ ostart ≠ Start f ∨ v = Reverse_ (Final f ostart) ∧ ostart = Start f))
    as (v & -> & Hmv & Hv).
  { eexists. split; [done|]. simpl. rewrite decide_True by (rewrite E1, Z.add_0_r, Z.sub_0_r; split; [by eapply path_valid_l|done]).
    rewrite E1. cbn [andb Z.eqb]. destruct (Z.eqb_spec ostart (Start f)) as [|]; [auto|]. split; [apply One_member|auto]. }
  destruct (weqb (Final f ostart) One) eqn:EF.
  - assert ((Reverse_ (Final f ostart) : R) ≡ One) as EF' by (apply weight_equiv_weqb; by rewrite Reverse_One).
    rewrite (turned_path_weight _ p ostart _ Hp Hmv) by (intros a Ha; apply turned_weight_same; [done|by apply Hin|done]).
    assert (v ≡ One) as -> by (destruct Hv as [[-> _]|[-> _]]; [done|exact EF']).
    rewrite EF', Times_One_l, Times_One_r by by apply Reverse_member. done.
  - destruct Hc as [?|Hc]; [done|]. destruct p as [|a p _] using rev_ind.
    + assert (Start f = ostart) as Es by by inversion Hp. destruct Hv as [[_ ?]|[-> _]]; [congruence|]. simpl.
      assert ((Reverse_ (One : W) : R) ≡ One) as -> by (apply weight_equiv_weqb; rewrite Reverse_One; apply weqb_One_refl).
      by rewrite Times_One_r.
    + pose proof Hp as Hp'. apply path_app_inv in Hp' as (u & Hpu & Hpa). inversion Hpa as [|? ? ? ? _ _ Hn]; subst.
      assert (nextstate a = ostart) as Ea by by inversion Hn.
      destruct (turned_last _ p _ a E1 Hc Hp Ea) as [Hne Hrest]. destruct Hv as [[-> _]|[_ ?]]; [|congruence].
      rewrite (turned_path_snoc _ p u a Hpu). simpl. apply Forall_app in Hmp as [Hmp Hma]. apply Forall_inv in Hma.
      assert (Member (path_weight p One) = true) as Hmp1 by (apply path_weight_member; [done|apply One_member]).
      rewrite (turned_path_weight _ p u One Hpu (One_member)).
      2:{ intros b Hb. apply turned_weight_same; [done|apply Hin, elem_of_app; by left|]. intros _ Eb. by destruct (Hrest b Hb). }
      rewrite Times_One_r by by apply Reverse_member.
      assert (turned_weight (R:=R) f offset ostart a = Times (Reverse_ (Final f ostart)) (Reverse_ (weight a))) as ->.
      { unfold turned_weight. by rewrite E1, Ea, Z.add_0_r, !Z.eqb_refl. }
      assert (path_weight (p ++ [a]) One ≡ Times (path_weight p One) (weight a)) as ->.
      { rewrite path_weight_app. simpl. rewrite Times_One_r by done. rewrite <-path_weight_Times by (done || apply One_member). by rewrite Times_One_l. }
      rewrite Reverse_Times by done. rewrite Times_assoc; [done|done|by apply Reverse_member..].
Qed.

Lemma reverse_accepts x y w :
  valid f (Start f) → accepts g x y w ↔ ∃ v, accepts f (reverse x) (reverse y) v ∧ w ≡ Reverse_ v.
Proof using All.
  intros Hs. split.
  - intros (q & t & Hq & [Hvt Ht]%reverse_final & <- & <- & Hw). simpl in Hq.
    assert (∃ p u, path f (Start f) p u ∧ is_final f u ∧ istring q = istring (turned_path (Start f) p) ∧ ostring q = ostring (turned_path (Start f) p) ∧
      path_weight q (Final g t) ≡ Reverse_ (path_weight p (Final f u))) as (p & u & Hp & Hu & -> & -> & Hpw).
    { destruct Hst as [[E1 E2]|(E1 & Hf & _)].
      - apply (λ Hq, eq_ind ostart (λ s, path g s q t) Hq 0 E2) in Hq. apply path_inv in Hq. destruct q as [|b q']; [unfold valid in Hvt; lia|]. destruct Hq as (Hv0 & Hb & Hq').
        destruct (proj1 (reverse_arc_in 0 b) (conj Hv0 Hb)) as [(s & a & [Hsa Ha] & E0 & _)|(_ & _ & u & Hu & ->)].
        { pose proof (proj1 (proj2 Hwf) s a Hsa Ha) as [? _]. lia. }
        simpl in Hq'. destruct (turned_path_bwd _ _ _ Hq') as (p & Hp & ->); [replace (u + offset - offset) with u by lia; by destruct Hu|].
        replace (u + offset - offset) with u in Hp by lia. rewrite Ht in Hp |- *. exists p, u. split_and!; [done|done|by apply strings_eps|by apply strings_eps|].
        rewrite <-(turned_weights p u Hp Hu), decide_True by done. simpl. rewrite decide_True by done. rewrite E1. done.
      - destruct (turned_path_bwd _ _ _ Hq) as (p & Hp & ->); [rewrite E1, Z.sub_0_r; by destruct Hf|].
        replace (ostart - offset) with ostart in Hp by lia. rewrite Ht in Hp |- *. exists p, ostart. split_and!; [done|done|done|done|].
        rewrite <-(turned_weights p ostart Hp Hf), decide_False by lia. by replace (Start f + offset) with t by lia. }
    exists (path_weight p (Final f u)). split; [|by rewrite <-Hw].
    exists p, u. destruct (turned_labels (Start f) p) as [-> ->]. by rewrite !reverse_involutive.
  - intros (v & (p & u & Hp & Hu & Hi & Ho & Hv) & ->).
    assert (Reverse_ v ≡ (Reverse_ (path_weight p (Final f u)) : R)) as E by by rewrite Hv.
    pose proof (turned_path_fwd _ _ _ Hp) as Hq. pose proof (turned_weights p u Hp Hu) as Hpw.
    destruct (turned_labels (Start f) p) as [Ei Eo]. rewrite Hi, reverse_involutive in Ei. rewrite Ho, reverse_involutive in Eo.
    assert (is_final g (Start f + offset)) as Hfin by (apply reverse_final; replace (Start f + offset - offset) with (Start f) by lia; done).
    destruct Hst as [[E1 E2]|(E1 & Hf & Hall & _)].
    + rewrite decide_True in Hpw by done.
      set (b := MkArc 0 0 (Reverse_ (Final f u)) (u + offset) : Arc R).
      destruct (proj2 (reverse_arc_in 0 b)) as [Hv0 Hb]; [right; split_and!; [done|done|by exists u]|].
      destruct (strings_eps b (turned_path (Start f) p) eq_refl eq_refl) as [Eib Eob].
      exists (b :: turned_path (Start f) p), (Start f + offset). split_and!; [|done|by rewrite Eib|by rewrite Eob|].
      * refine (eq_ind_r (λ s, path g s _ _) _ E2). by econstructor.
      * rewrite E, <-Hpw. simpl. rewrite decide_True by (replace (Start f + offset - offset) with (Start f) by lia; done). by rewrite E1.
    + rewrite decide_False in Hpw by lia. exists (turned_path (Start f) p), (Start f + offset). split_and!; [|done|done|done|].
      * assert (u = ostart) as -> by by apply Hall. replace (ostart + offset) with ostart in Hq by lia. exact Hq.
      * by rewrite E, <-Hpw.
Qed.
(** ** Its property bits *)

Lemma reverse_edge u v : edge g u v ↔ (∃ s t, edge f s t ∧ u = t + offset ∧ v = s + offset) ∨
  (offset = 1 ∧ u = 0 ∧ ∃ q, is_final f q ∧ v = q + offset).
Proof using All.
  split.
  - intros (Hv & b & Hb & <-). destruct (proj1 (reverse_arc_in u b) (conj Hv Hb)) as [(s & a & [Hs Ha] & -> & ->)|(E & -> & q & Hq & ->)].
    + left. exists s, (nextstate a). split; [split; [done|by exists a]|done].
    + right. eauto.
  - intros [(s & t & [Hs (a & Ha & <-)] & -> & ->)|(E & -> & q & Hq & ->)].
    + destruct (proj2 (reverse_arc_in (nextstate a + offset) (turn (s, a)))) as [? ?]; [left; by exists s, a|].
      split; [done|]. by exists (turn (s, a)).
    + destruct (proj2 (reverse_arc_in 0 (MkArc 0 0 (Reverse_ (Final f q)) (q + offset)))) as [? ?]; [right; eauto|].
      split; [done|]. by eexists.
Qed.

Lemma reverse_rtc s t : valid f s → rtc (edge g) (s + offset) (t + offset) ↔ rtc (edge f) t s.
Proof using All.
  intros Hs. split.
  - remember (s + offset) as u eqn:Eu. remember (t + offset) as v eqn:Ev. intros Hr. revert s Hs Eu.
    induction Hr as [u|u w v He Hr IH]; intros s Hs Eu; [assert (s = t) as -> by lia; done|].
    apply reverse_edge in He as [(s' & t' & He & Eu' & ->)|(? & ? & _)]; [|unfold valid in Hs; lia].
    assert (t' = s) as -> by lia. eapply rtc_r; [|exact He]. apply IH; [done| |done]. by destruct He.
  - intros Hr. clear Hs. induction Hr as [t|t u s He Hr IH]; [done|]. eapply rtc_r; [exact IH|]. apply reverse_edge. left. by exists t, u.
Qed.

Lemma reverse_cyclic : Holds g Cyclic ↔ Holds f Cyclic.
Proof using All.
  split.
  - intros (u & Hu). apply tc_first in Hu as (v & He & Hr). apply reverse_edge in He as [(s & t & He & -> & ->)|(E & -> & q & [Hq _] & ->)].
    + pose proof He as [Hs _]. apply reverse_rtc in Hr; [|done]. exists t. eapply tc_rtc_l; [exact Hr|by apply tc_once].
    + replace 0 with (-1 + offset) in Hr by lia. apply reverse_rtc in Hr; [|done]. exfalso. inversion Hr as [E'|? ? ? [Hv _]]; unfold valid in *; lia.
  - intros (s & Hs). apply tc_first in Hs as (t & He & Hr). pose proof He as [Hv _]. exists (t + offset). apply tc_rtc_r with (s + offset).
    + apply tc_once, reverse_edge. left. by exists s, t.
    + apply reverse_rtc; done.
Qed.

Lemma nontrivial_Reverse (w : W) : nontrivial (Reverse_ w : R) = nontrivial w.
Proof using All. unfold nontrivial. by rewrite Reverse_Zero, Reverse_One. Qed.

Lemma nontrivial_equiv (v w : R) : v ≡ w → nontrivial v = nontrivial w.
Proof using All. intros E. unfold nontrivial. by rewrite E. Qed.

(** On a cycle an arc keeps its weight. *)
Lemma turned_cycle_weight s a : arc_in f s a → rtc (edge f) (nextstate a) s → nontrivial (turned_weight (R:=R) f offset ostart a) = nontrivial (weight a).
Proof using All.
  intros Ha Hr. rewrite (nontrivial_equiv _ (Reverse_ (weight a))), nontrivial_Reverse; [done|].
  apply turned_weight_same; [done|by exists s|]. intros E1 E2. destruct Hst as [[? _]|(_ & _ & _ & [?|Hc])]; [lia|done|].
  destruct Hc. rewrite <-E2. eapply tc_rtc_l; [exact Hr|]. apply tc_once. destruct Ha as [? ?]. split; [done|by exists a].
Qed.

Lemma reverse_weighted_cycles : Holds g WeightedCycles ↔ Holds f WeightedCycles.
Proof using All.
  split.
  - intros (u & b & Hu & Hb & Hw & Hr).
    destruct (proj1 (reverse_arc_in u b) (conj Hu Hb)) as [(s & a & Ha & -> & ->)|(E & -> & q & [Hq _] & ->)]; simpl in *.
    + pose proof Ha as [Hs Hin]. apply reverse_rtc in Hr; [|done]. exists s, a. split_and!; [done..| |done]. by rewrite (turned_cycle_weight s) in Hw.
    + replace 0 with (-1 + offset) in Hr by lia. apply reverse_rtc in Hr; [|done]. exfalso. inversion Hr as [E'|? ? ? [Hv _]]; unfold valid in *; lia.
  - intros (s & a & Hs & Ha & Hw & Hr). destruct (proj2 (reverse_arc_in (nextstate a + offset) (turn (s, a)))) as [Hv Hb]; [left; by exists s, a|].
    exists (nextstate a + offset), (turn (s, a)). split_and!; [done..| |].
    + simpl. by rewrite (turned_cycle_weight s).
    + simpl. apply reverse_rtc; done.
Qed.

(** Properties of one arc by its labels. *)
Lemma reverse_some_label (P : Z → Z → Prop) : some_arc f (λ _ a, P (ilabel a) (olabel a)) → some_arc g (λ _ b, P (ilabel b) (olabel b)).
Proof using All.
  intros (s & a & Hs & Ha & HP). destruct (proj2 (reverse_arc_in (nextstate a + offset) (turn (s, a)))) as [Hv Hb]; [left; by exists s, a|].
  by exists (nextstate a + offset), (turn (s, a)).
Qed.

Lemma reverse_acceptor : Holds g Acceptor ↔ Holds f Acceptor.
Proof using All.
  split.
  - intros Hg s a Hs Ha. destruct (proj2 (reverse_arc_in (nextstate a + offset) (turn (s, a)))) as [Hv Hb]; [left; by exists s, a|].
    exact (Hg _ _ Hv Hb).
  - intros Hf u b Hu Hb. destruct (proj1 (reverse_arc_in u b) (conj Hu Hb)) as [(s & a & [Hs Ha] & _ & ->)|(_ & _ & q & _ & ->)]; [|done].
    exact (Hf s a Hs Ha).
Qed.

Lemma reverse_weighted : (Holds g Weighted → Holds f Weighted) ∧ (offset = 1 → Holds f Weighted → Holds g Weighted).
Proof using All.
  split.
  - assert (∀ q, valid f q → nontrivial (Final f q) = true → Holds f Weighted) as Hfin by (intros q ? ?; right; by exists q).
    intros [(u & b & Hu & Hb & Hw)|(u & Hu & Hw)].
    + destruct (proj1 (reverse_arc_in u b) (conj Hu Hb)) as [(s & a & Ha & _ & ->)|(_ & _ & q & [Hq _] & ->)].
      * destruct (nontrivial (weight a)) eqn:Ea; [left; destruct Ha; by exists s, a|].
        destruct (decide (offset = 0 → nextstate a = ostart → weqb (Final f ostart) One = true)) as [Hc|Hc].
        -- simpl in Hw. by rewrite (nontrivial_equiv _ (Reverse_ (weight a))), nontrivial_Reverse, Ea in Hw by (apply turned_weight_same; [done|by exists s|done]).
        -- destruct Hst as [[? _]|(_ & [Hvo Hfo] & _)]; [exfalso; apply Hc; lia|]. apply (Hfin ostart Hvo). unfold nontrivial. rewrite Hfo. simpl.
           destruct (weqb (Final f ostart) One); [|done]. exfalso. by apply Hc.
      * simpl in Hw. apply (Hfin q Hq). by rewrite nontrivial_Reverse in Hw.
    + simpl in Hw. case_decide as Hd; [|by rewrite nontrivial_Zero in Hw]. destruct (_ && _) eqn:E; [|by rewrite nontrivial_One in Hw].
      rewrite nontrivial_Reverse in Hw. apply andb_true_iff in E as [E1%Z.eqb_eq E2%Z.eqb_eq].
      destruct Hst as [[? _]|(_ & [Hvo _] & _)]; [lia|]. by apply (Hfin ostart).
  - intros E [(s & a & Hs & Ha & Hw)|(q & Hq & Hw)]; left.
    + destruct (proj2 (reverse_arc_in (nextstate a + offset) (turn (s, a)))) as [Hv Hb]; [left; by exists s, a|].
      exists (nextstate a + offset), (turn (s, a)). split_and!; [done..|]. simpl.
      by rewrite (nontrivial_equiv _ (Reverse_ (weight a))), nontrivial_Reverse by (apply turned_weight_same; [done|by exists s|lia]).
    + assert (is_final f q) as Hf.
      { split; [done|]. unfold nontrivial in Hw. by destruct (weqb (Final f q) Zero). }
      destruct (proj2 (reverse_arc_in 0 (MkArc 0 0 (Reverse_ (Final f q)) (q + offset)))) as [Hv Hb]; [right; eauto|].
      exists 0, (MkArc 0 0 (Reverse_ (Final f q)) (q + offset)). split_and!; [done..|]. simpl. by rewrite nontrivial_Reverse.
Qed.

(** [ReverseProperties] is true of the reversal, where its argument is true of the
operand; so it is together with bits that are true of the result. *)
Lemma reverse_sound p q : Sound p f → Sound q g → Sound (ReverseProperties p (offset =? 1) ||| q) g.
Proof using All.
  intros Hp Hq t. specialize (Hp t). specialize (Hq t). pose proof reverse_weighted as [HW1 HW2]. pose proof reverse_acceptor as HA.
  pose proof reverse_cyclic as HC. pose proof reverse_weighted_cycles as HWC.
  pose proof (reverse_some_label (λ il ol, il = 0 ∧ ol = 0)) as HE. pose proof (reverse_some_label (λ il ol, il = 0)) as HI.
  pose proof (reverse_some_label (λ il ol, ol = 0)) as HO. unfold ReverseProperties.
  destruct (Z.eqb_spec offset 1) as [E|E]; [specialize (HW2 E)|clear HW2]; revert Hp Hq; destruct t; bits; rewrite ?andb_true_r, ?orb_false_r, ?andb_false_r;
    rewrite ?orb_true_iff; intros [Hp1 Hp2] [Hq1 Hq2]; split; try tauto; intros [?|?]; auto; tauto.
Qed.

Lemma reverse_wf : WellFormed g.
Proof using All.
  pose proof offset_cases as Ho. pose proof (proj1 Hwf) as Hn. split; [simpl; lia|]. split.
  - intros u b Hu Hb. destruct (proj1 (reverse_arc_in u b) (conj Hu Hb)) as [(s & a & [Hs Ha] & _ & ->)|(_ & _ & q & [Hq _] & ->)]; by apply reverse_valid.
  - right. simpl. destruct Hst as [[-> ->]|(-> & [Hv _] & _)]; unfold valid in *; simpl; lia.
Qed.
End meaning.

(** * Choosing the start *)

Section choose.
Context `{WeightOps W}.
Implicit Types (f : Fst W).

Lemma single_final_later f l (o : Z) : o ≠ kNoStateId →
  single_final f l o = if existsb (λ q, wneqb (Final f q) Zero) l then kNoStateId else o.
Proof.
  intros Ho. induction l as [|s l IH]; simpl; [done|].
  destruct (weqb (Final f s) Zero) eqn:Es; simpl; [done|]. by rewrite (proj2 (Z.eqb_neq o _) Ho).
Qed.

Lemma single_final_spec f l : NoDup l → (∀ q, q ∈ l → 0 ≤ q) →
  (∀ o, o ≠ kNoStateId → single_final f l kNoStateId = o ↔
    o ∈ l ∧ weqb (Final f o) Zero = false ∧ ∀ q, q ∈ l → weqb (Final f q) Zero = false → q = o).
Proof.
  induction l as [|s l IH]; intros Hnd Hpos o Ho; simpl.
  - split; [congruence|]. intros (Hin & _). by apply not_elem_of_nil in Hin.
  - apply NoDup_cons in Hnd as [Hs Hnd]. destruct (weqb (Final f s) Zero) eqn:Es.
    + rewrite IH; [|done| |done]; [|intros q Hq; apply Hpos; by right]. split.
      * intros (Hin & Hf & Hall). split_and!; [by right|done|]. intros q [->|Hq]%elem_of_cons Hfq; [congruence|by apply Hall].
      * intros (Hin & Hf & Hall). apply elem_of_cons in Hin as [->|Hin]; [congruence|]. split_and!; [done..|]. intros q Hq. apply Hall. by right.
    + cbn [negb Z.eqb kNoStateId Pos.eqb]. pose proof (Hpos s ltac:(left)) as Hs0. rewrite single_final_later by (unfold kNoStateId; lia).
      destruct (existsb _ l) eqn:Hd.
      * split; [congruence|]. intros (_ & _ & Hall). apply existsb_exists in Hd as (q & Hq%list_elem_of_In & Hf%negb_true_iff). assert (q = o) as -> by (apply Hall; [by right|done]).
        assert (s = o) as -> by (apply Hall; [left|done]). done.
      * split; [intros <-; split_and!; [left|done|]|intros (_ & _ & Hall); apply Hall; [left|done]].
        intros q [->|Hq]%elem_of_cons Hfq; [done|]. exfalso. apply not_true_iff_false in Hd. apply Hd. apply existsb_exists. exists q.
        split; [by apply list_elem_of_In|by rewrite Hfq].
Qed.
End choose.

Lemma count_more (l : list Z) i c : l.[i] = Some c → (1 <? zlen (filter (λ d, d = c) l)) = true ↔ ∃ j, j ≠ i ∧ l.[j] = Some c.
Proof.
  intros Hi. pose proof (vget_range _ _ _ Hi) as Hr. apply vget_Some in Hi as [Hi0 Hi]. set (n := Z.to_nat i) in *.
  rewrite <-(take_drop_middle l n c Hi) at 1. rewrite filter_app, filter_cons_True by done. rewrite zlen_app, zlen_cons.
  assert (∀ k : list Z, 0 < zlen (filter (λ d, d = c) k) ↔ c ∈ k) as Hk.
  { intros k. destruct (filter (λ d, d = c) k) as [|d k'] eqn:E.
    - split; [intros Hlt; by apply Z.lt_irrefl in Hlt|]. intros Hc. assert (c ∈ filter (λ d, d = c) k) as Hin by by apply list_elem_of_filter.
      rewrite E in Hin. by apply not_elem_of_nil in Hin.
    - rewrite zlen_cons. pose proof (zlen_nonneg k'). split; [|lia]. intros _. assert (d ∈ filter (λ d, d = c) k) as Hin by (rewrite E; left).
      by apply list_elem_of_filter in Hin as [-> ?]. }
  pose proof (Hk (take n l)) as H1. pose proof (Hk (drop (S n) l)) as H2.
  pose proof (zlen_nonneg (filter (λ d, d = c) (take n l))). pose proof (zlen_nonneg (filter (λ d, d = c) (drop (S n) l))).
  rewrite Z.ltb_lt. transitivity (c ∈ take n l ∨ c ∈ drop (S n) l); [split; [|intros [Hc|Hc]; [apply H1 in Hc|apply H2 in Hc]; lia]|].
  - intros Hlt. destruct (decide (0 < zlen (filter (λ d, d = c) (take n l)))); [left; tauto|right; apply H2; lia].
  - split.
    + intros [Hc|Hc]; apply list_elem_of_lookup in Hc as (k & Hc).
      * apply lookup_take_Some in Hc as [Hc Hlt]. exists (Z.of_nat k). rewrite vget_nat. split; [lia|done].
      * rewrite lookup_drop in Hc. exists (Z.of_nat (S n + k)). rewrite vget_nat. split; [lia|done].
    + intros (j & Hj & Hjc). apply vget_Some in Hjc as [Hj0 Hjc]. destruct (decide (j < i)).
      * left. apply list_elem_of_lookup. exists (Z.to_nat j). apply lookup_take_Some. split; [done|lia].
      * right. apply list_elem_of_lookup. exists (Z.to_nat j - S n)%nat. rewrite lookup_drop. by replace (S n + (Z.to_nat j - S n))%nat with (Z.to_nat j) by lia.
Qed.

Section chosen.
Context `{WeightEq W}.
Implicit Types (f : Fst W).

Lemma in_cycle_spec f known ostart : WellFormed f → valid f (Start f) → known_states f known → valid f ostart →
  ∃ b ip, in_cycle f known ostart = Some (b, ip) ∧ (b = true ↔ tc (edge f) ostart ostart) ∧ Sound ip f.
Proof.
  intros Hwf Hst Hk Ho.
  destruct (scc_visit f known (Some []) None [] 0 f Hwf Hst Hk) as (v & Hv & [Hscc _ _ Hbits Hrest] & Hptr & _).
  destruct (proj2 Hptr ltac:(eauto)) as [scc Hs]. destruct (Hscc scc Hs) as (Hlen & Hsame & _ & _ & _).
  unfold in_cycle. rewrite Hv. cbn [mbind option_bind]. rewrite Hs. cbn [mbind option_bind].
  destruct (vget_in_range scc ostart) as [c Hc]; [unfold valid in Ho; lia|]. rewrite Hc. cbn [mbind option_bind].
  eexists _, _. split; [done|]. split.
  - rewrite orb_true_iff, (count_more scc ostart c Hc), existsb_exists. split.
    + intros [(j & Hj & Hjc)|(a & Ha & Hn%Z.eqb_eq)].
      * destruct (proj1 (Hsame ostart j c c Hc Hjc) eq_refl) as [H1 H2]. inversion H1 as [|? u ? He Hr]; subst; [done|].
        eapply tc_rtc_r; [by apply tc_once|]. by etrans.
      * apply tc_once. split; [done|]. exists a. split; [by apply list_elem_of_In|done].
    + intros Htc. apply tc_first in Htc as (u & He & Hr). destruct (decide (u = ostart)) as [->|Hne].
      * right. destruct He as [_ (a & Ha & Hn)]. exists a. split; [by apply list_elem_of_In|by apply Z.eqb_eq].
      * left. exists u. split; [done|]. assert (valid f u) as Hu.
        { inversion Hr as [|? ? ? [? _]]; subst; done. }
        destruct (vget_in_range scc u) as [d Hd]; [unfold valid in Hu; lia|]. rewrite Hd. f_equal. symmetry.
        apply (Hsame ostart u c d Hc Hd). split; [by apply rtc_once|done].
  - intros t. specialize (Hbits t). specialize (Hrest (pos_bit t)) as Hr1. specialize (Hrest (neg_bit t)) as Hr2.
    destruct (decide (t ∈ [Cyclic; InitialCyclic; Accessible; CoAccessible])) as [Hin|Hout].
    + destruct (Hbits Hin) as [B1 B2]. split; [apply B1|apply B2].
    + destruct t; first [exfalso; apply Hout; by repeat constructor|
        rewrite Hr1, Hr2 by first [by vm_compute|split; by vm_compute]; by rewrite !Z.bits_0].
Qed.

Lemma choose_start_spec f known super :
  WellFormed f → super = true ∨ valid f (Start f) → known_states f known →
  ∃ ostart0 ip op, choose_start f known super = Some (ostart0, ip, op) ∧ Sound ip f ∧
    (ostart0 = kNoStateId ∧ op = 0 ∨ ostart0 ≠ kNoStateId ∧ starts_at f 0 ostart0 ∧ (op = 0 ∨ op = kInitialAcyclic ∧ ¬ tc (edge f) ostart0 ostart0)) ∧
    (super = true → ostart0 = kNoStateId) ∧ (super = false → ∀ o, starts_at f 0 o → ostart0 = o).
Proof.
  intros Hwf Hsup Hk. assert (Sound 0 f) as Hz by (intros t; by rewrite !Z.bits_0).
  unfold choose_start. destruct super; [exists kNoStateId, 0, 0; split_and!; [done|done|by left|done|done]|].
  destruct Hsup as [?|Hst]; [done|].
  assert (∀ o, o ≠ kNoStateId → single_final f (seqZ 0 (NumStates f)) kNoStateId = o ↔ is_final f o ∧ ∀ q, is_final f q → q = o) as Hsf.
  { intros o Ho. rewrite single_final_spec; [|apply NoDup_seqZ|intros q ?%elem_of_seqZ; lia|done]. unfold is_final, valid.
    rewrite elem_of_seqZ. split; [intros (H1 & H2 & H3)|intros ([H1 H2] & H3)].
    - split; [split; [lia|done]|]. intros q [Hq Hf]. apply H3; [apply elem_of_seqZ; lia|done].
    - split_and!; [lia..|done|]. intros q Hq%elem_of_seqZ Hf. apply H3. split; [lia|done]. }
  set (o := single_final _ _ _) in *. destruct (Z.eqb_spec o kNoStateId) as [Eo|Ho]; simpl.
  - exists o, 0, 0. split_and!; [done|done|by left|done|]. intros _ q [[? _]|(_ & Hf & Hu & _)]; [lia|].
    apply (Hsf q); [|done]. intros ->. destruct Hf as [Hv _]. unfold valid, kNoStateId in Hv. lia.
  - destruct (proj1 (Hsf o Ho) eq_refl) as [Hf Hu].
    assert (∀ q, starts_at f 0 q → o = q) as Huni by (intros q [[? _]|(_ & Hq & _)]; [lia|symmetry; by apply Hu]).
    destruct (weqb (Final f o) One) eqn:E1; simpl.
    + exists o, 0, 0. split_and!; [done|done| |done|done]. right. split_and!; [done| |by left]. right. split_and!; [done..|by left].
    + destruct (in_cycle_spec f known o Hwf Hst Hk (proj1 Hf)) as (b & ip & -> & Hb & Hip). cbn [mbind option_bind]. destruct b.
      * exists kNoStateId, ip, 0. split_and!; [done|done|by left|done|]. intros _ q Hq. pose proof (Huni q Hq) as <-.
        destruct Hq as [[? _]|(_ & _ & _ & [?|Hc])]; [lia|congruence|]. destruct Hc. by apply Hb.
      * assert (¬ tc (edge f) o o) as Hc by (intros Hc; by apply Hb in Hc).
        exists o, ip, kInitialAcyclic. split_and!; [done|done| |done|done]. right. split_and!; [done| |by right]. right. split_and!; [done..|by right].
Qed.
End chosen.

(** * The result *)

Section correct.
Context `{TimesMonoid W} `{TimesMonoid R} `{!ReverseWeight W R} `{!ReverseWeightLaws W R}.
Context {F : Type} `{!MutableFst R F} `{!MutableFstLaws R F} (Hone : weqb (One : R) Zero = false).
Implicit Types (f : Fst W) (x y : F).

(** The machine that it leaves; a start is not needed where a new one is asked for. *)
Lemma Reverse_holds f known x super :
  WellFormed f → member_weights f → SoundFst f → super = true ∨ valid f (Start f) → known_states f known → minv x → SoundFst (view x) →
  ∃ y offset ostart, Reverse f known x super = Some y ∧ starts_at f offset ostart ∧
    view y ≡ abs_reverse f offset ostart ∧
    leaves y (has (FstProperties f) kError) (accepts (abs_reverse (R:=R) f offset ostart)) ∧
    InputSymbols (view y) = InputSymbols f ∧ OutputSymbols (view y) = OutputSymbols f ∧
    (offset = 1 ↔ super = true ∨ ∀ o, ¬ starts_at f 0 o).
Proof using All.
  intros Hwf Hm Hs Hst Hk Hx Hsx.
  destruct (choose_start_spec f known super Hwf Hst Hk) as (o & ip & op & Hc & Hip & Ho & Hsup1 & Hsup2).
  assert (o = kNoStateId ∨ valid f o) as Hov by (destruct Ho as [[? _]|(_ & [[? _]|(_ & [? _] & _)] & _)]; [by left|lia|by right]).
  destruct (Reverse_runs f Hwf known x super o ip op Hx Hc Hov) as (y & Hy & Hev).
  set (offset := if o =? kNoStateId then 1 else 0) in *. set (ostart := if o =? kNoStateId then 0 else o) in *.
  assert (starts_at f offset ostart) as Hat.
  { unfold offset, ostart. destruct Ho as [[-> _]|(Hne & Hat & _)]; [by left|]. by rewrite (proj2 (Z.eqb_neq _ _) Hne). }
  set (g := abs_reverse (R:=R) f offset ostart) in *.
  destruct (emptied_spec x g Hx) as (He & _ & Ei & Eo & Hes). specialize (Hes Hsx).
  assert (Sound (FstProperties (view y)) g) as Hyg by by eapply evolves_sound.
  assert (Sound ((FstProperties f &&& kCopyProperties) ||| ip) f) as Hpf.
  { intros t. specialize (Hs t). specialize (Hip t). revert Hs Hip. destruct t; bits; rewrite ?andb_true_r, ?orb_true_iff; tauto. }
  assert (Sound (mProperties y kFstProperties ||| op) g) as Hqg.
  { intros t. specialize (Hyg t). unfold mProperties. destruct Ho as [[_ ->]|(Hne & _ & [->|[-> Hnc]])].
    1,2: revert Hyg; destruct t; bits; by rewrite ?orb_false_r.
    assert (¬ Holds g InitialCyclic) as Hni.
    { simpl. assert (offset = 0 ∧ ostart = o) as [E0 Eo0] by (unfold offset, ostart; by rewrite (proj2 (Z.eqb_neq _ _) Hne)).
      intros Htc. apply tc_first in Htc as (u & Hu & Hr). apply (reverse_edge f offset ostart Hwf Hm Hat Hone) in Hu as [(s & t' & Hst' & E1 & E2)|(? & _)]; [|lia].
      pose proof Hst' as [Hvs _]. replace ostart with (t' + offset) in Hr by lia. rewrite E2 in Hr.
      apply (reverse_rtc f offset ostart Hwf Hm Hat Hone) in Hr; [|done]. apply Hnc. replace o with t' by lia.
      eapply tc_rtc_l; [exact Hr|by apply tc_once]. }
    revert Hyg Hni. destruct t; bits; rewrite ?orb_false_r, ?orb_true_r; naive_solver. }
  eexists _, offset, ostart. split; [exact Hy|]. split; [exact Hat|]. split_and!.
  - rewrite mSetProperties_view. by destruct Hev as [_ [? _ _ _ _]].
  - eapply leaves_stored; [by left|exact Hev|by eapply (reverse_wf f offset ostart)|by eapply (reverse_sound f offset ostart)| |].
    + intros Herr. right. unfold reverse_bits, ReverseProperties. revert Herr. rewrite !error_bit.
      destruct (offset =? 1); bits; intros ->; done.
    + done.
  - rewrite (proj1 (mSetProperties_symbols _ _ _)), (steps_isymbols _ _ _ (proj2 Hev)). exact Ei.
  - rewrite (proj2 (mSetProperties_symbols _ _ _)), (steps_osymbols _ _ _ (proj2 Hev)). exact Eo.
  - split; [|intros [E|E]].
    + intros E. destruct super; [by left|right]. intros q Hq. pose proof (Hsup2 eq_refl q Hq) as E2.
      assert (0 ≤ q) by (destruct Hq as [[? _]|(_ & [[? _] _] & _)]; lia).
      unfold offset in E. rewrite (proj2 (Z.eqb_neq _ _)) in E by (unfold kNoStateId; lia). done.
    + unfold offset. by rewrite (Hsup1 E).
    + destruct Ho as [[-> _]|(_ & Hq & _)]; [done|]. by destruct (E o).
Qed.

(** C27: [Reverse] of a well-formed machine with true bits and a start state ends
without an access out of range.  The machine that it leaves is the operand with all
arcs turned round; it accepts the reversed strings, with the reversed weights, and no
more; it is well formed, its stored bits are true and it has the error bit if the
operand has.  Its start is a new state exactly where one was asked for or there is no
single final state with weight [One] or on no cycle. *)
Theorem Reverse_correct f known x super :
  WellFormed f → member_weights f → SoundFst f → valid f (Start f) → known_states f known → minv x → SoundFst (view x) →
  ∃ y offset ostart, Reverse f known x super = Some y ∧ starts_at f offset ostart ∧
    view y ≡ abs_reverse f offset ostart ∧
    leaves y (has (FstProperties f) kError) (λ a b w, ∃ v, accepts f (reverse a) (reverse b) v ∧ w ≡ Reverse_ v) ∧
    InputSymbols (view y) = InputSymbols f ∧ OutputSymbols (view y) = OutputSymbols f ∧
    (offset = 1 ↔ super = true ∨ ∀ o, ¬ starts_at f 0 o).
Proof using All.
  intros Hwf Hm Hs Hst Hk Hx Hsx.
  destruct (Reverse_holds f known x super Hwf Hm Hs (or_intror Hst) Hk Hx Hsx) as (y & offset & ostart & E & Hat & Hv & [L1 L2 L3 L4 L5] & Hrest).
  exists y, offset, ostart. split_and!; try done; [split; try done|apply Hrest..].
  intros a b w. rewrite L5. by apply (reverse_accepts f offset ostart Hwf Hm Hat Hone).
Qed.
End correct.

(** * An instance *)

#[export] Instance MinMax_reverse_laws : ReverseWeightLaws MinMaxWeight MinMaxWeight.
Proof.
  split; try done; [by intros a b ?|]. intros a b Ha Hb. apply Times_comm; done.
Qed.

Section witnesses.
Local Notation M := MinMaxWeight.

(** One final state with a weight of its own, on no cycle, and a cycle before it. *)
Definition reversible : list (mutation M) :=
  [MAddStates 2; MSetStart 0; MAddArc 0 (MkArc 1 2 four 0); MAddArc 0 (MkArc 3 4 One 1); MSetFinal 1 four].
Definition reversible_fst : VectorFst M := default VectorFst_new (foldM mutate reversible VectorFst_new).

Example reversed_machine :
  (λ y, (Start (view y), NumStates (view y), Arcs (view y) 0, Arcs (view y) 1, Final (view y) 0)) <$>
    Reverse (view reversible_fst) (Some 2) (VectorFst_new : VectorFst M) false =
  Some (1, 2, [MkArc 1 2 four 0], [MkArc 3 4 four 0], One).
Proof. by vm_compute. Qed.

Example reversed_superinitial :
  (λ y, (Start (view y), NumStates (view y), Arcs (view y) 0, Arcs (view y) 1, Arcs (view y) 2, Final (view y) 1)) <$>
    Reverse (view reversible_fst) (Some 2) (VectorFst_new : VectorFst M) true =
  Some (0, 3, [MkArc 0 0 four 2], [MkArc 1 2 four 1], [MkArc 3 4 One 1], One).
Proof. by vm_compute. Qed.

(** Without a start state the visit is empty, and the component of the final state is
read out of range. *)
Example Reverse_no_start :
  Reverse (view (default VectorFst_new (foldM mutate [MAddState; MSetFinal 0 four] VectorFst_new))) (Some 1) (VectorFst_new : VectorFst M) false = None.
Proof. by vm_compute. Qed.

Lemma Reverse_correct_witness :
  ∃ y offset ostart, Reverse (view reversible_fst) (Some 2) (VectorFst_new : VectorFst M) false = Some y ∧
    starts_at (view reversible_fst) offset ostart ∧
    view y ≡ abs_reverse (view reversible_fst) offset ostart ∧
    leaves y (has (FstProperties (view reversible_fst)) kError)
      (λ a b w, ∃ v, accepts (view reversible_fst) (reverse a) (reverse b) v ∧ w ≡ Reverse_ v) ∧
    InputSymbols (view y) = InputSymbols (view reversible_fst) ∧ OutputSymbols (view y) = OutputSymbols (view reversible_fst) ∧
    (offset = 1 ↔ false = true ∨ ∀ o, ¬ starts_at (view reversible_fst) 0 o).
Proof.
  destruct (built_invariant _ (built_history reversible)) as [Hc Hs]. destruct (built_invariant (W:=M) _ (built_history [])) as [Hc0 Hs0].
  assert (weqb (One : M) Zero = false) as Hone by done.
  apply (Reverse_correct (W:=M) (R:=M) (F:=VectorFst M) Hone (view reversible_fst) (Some 2) VectorFst_new false).
  - by apply well_formedb_spec.
  - by apply member_weightsb_spec.
  - exact Hs.
  - by vm_compute.
  - left. by vm_compute.
  - exact Hc0.
  - exact Hs0.
Defined.
End witnesses.
