(* ===== verification/ArcSort.v ===== *)
(** Sorting the arcs of each state (openfst/lib/arcsort.h): the mapper, the
comparisons by input and by output label, and the operation in place.  Proved
here: the sort is stable, it changes neither the language nor the bits that are
kept, and the result is sorted. *)
From S2P Require Import Prelude Weight FloatWeight Properties SymbolTable Fst VectorFst Mutation VectorSound.
From S2P Require Import MutableFst Rational RationalSpec ArcMap StateSort StateMap.
From Stdlib Require Import Sorting.Sorted.
Local Open Scope Z_scope.

(** * A stable sort *)

(** What std::stable_sort returns: the order of equivalent elements stays. *)
Section stable_sort.
Context {A : Type} (lt : A → A → bool).
Implicit Types (a b c : A) (l : list A).

Fixpoint insert_stable a l : list A :=
  match l with
  | [] => [a]
  | b :: l' => if lt b a then b :: insert_stable a l' else a :: l
  end.

Definition stable_sort l : list A := foldr insert_stable [] l.

Lemma insert_stable_perm a l : insert_stable a l ≡ₚ a :: l.
Proof. induction l as [|b l IH]; simpl; [done|]. destruct (lt b a); [|done]. rewrite IH. constructor. Qed.

Lemma stable_sort_perm l : stable_sort l ≡ₚ l.
Proof. induction l as [|a l IH]; simpl; [done|]. by rewrite insert_stable_perm, IH. Qed.

(** Elements that [lt] does not tell apart keep their order. *)
Lemma insert_stable_filter (P : A → Prop) `{∀ a, Decision (P a)} a l :
  (∀ b c, P b → P c → lt b c = false) → filter P (insert_stable a l) = filter P (a :: l).
Proof.
  intros HP. induction l as [|b l IH]; [done|]. cbn [insert_stable].
  destruct (lt b a) eqn:Hlt; [|done]. rewrite filter_cons, IH. rewrite !filter_cons.
  repeat case_decide; try done. by rewrite HP in Hlt.
Qed.

Lemma stable_sort_filter (P : A → Prop) `{∀ a, Decision (P a)} l :
  (∀ b c, P b → P c → lt b c = false) → filter P (stable_sort l) = filter P l.
Proof.
  intros HP. induction l as [|a l IH]; [done|]. simpl.
  rewrite insert_stable_filter by done. rewrite !filter_cons. by rewrite IH.
Qed.
End stable_sort.

(** The comparisons that the sort needs: strict weak orders. *)
Class WeakOrder {A} (lt : A → A → bool) := {
  weak_asym : ∀ a b, lt a b = true → lt b a = false;
  weak_trans : ∀ a b c, lt a b = false → lt b c = false → lt a c = false;
}.

Section sorted.
Context {A : Type} (lt : A → A → bool) `{!WeakOrder lt}.
Implicit Types (a b c : A) (l : list A).

Definition in_order l : Prop := StronglySorted (λ a b, lt b a = false) l.

Lemma insert_stable_sorted a l : in_order l → in_order (insert_stable lt a l).
Proof using All.
  unfold in_order. induction 1 as [|b l Hl IH Hb]; simpl; [by repeat constructor|].
  destruct (lt b a) eqn:Hlt; constructor.
  - done.
  - rewrite insert_stable_perm. constructor; [by apply weak_asym|done].
  - by constructor.
  - constructor; [done|]. eapply Forall_impl; [exact Hb|]. intros c Hc. exact (weak_trans c b a Hc Hlt).
Qed.

Lemma stable_sort_sorted l : in_order (stable_sort lt l).
Proof using All. induction l as [|a l IH]; simpl; [constructor|by apply insert_stable_sorted]. Qed.
End sorted.

(** * The operation *)

(** A comparison of arcs, with the properties of a machine sorted by it. *)
Record ArcCompare (W : Type) := { less : Arc W → Arc W → bool; compare_Properties : Z → Z }.
Arguments less {_} _ _ _.
Arguments compare_Properties {_} _ _.

Section arcsort.
Context {W : Type}.
Implicit Types (lhs rhs : Arc W).

(* arcsort.h:194-208 ILabelCompare *)
Definition ILabelCompare : ArcCompare W := {|
  less := λ lhs rhs, (ilabel lhs <? ilabel rhs) || (negb (ilabel rhs <? ilabel lhs) && (olabel lhs <? olabel rhs));
  compare_Properties := λ props, (props &&& kArcSortProperties) ||| kILabelSorted |||
    (if has props kAcceptor then kOLabelSorted else 0);
|}.

(* arcsort.h:213-227 OLabelCompare *)
Definition OLabelCompare : ArcCompare W := {|
  less := λ lhs rhs, (olabel lhs <? olabel rhs) || (negb (olabel rhs <? olabel lhs) && (ilabel lhs <? ilabel rhs));
  compare_Properties := λ props, (props &&& kArcSortProperties) ||| kOLabelSorted |||
    (if has props kAcceptor then kILabelSorted else 0);
|}.

(* arcsort.h:41-91 ArcSortMapper *)
Definition ArcSortMapper (comp : ArcCompare W) : StateMapper W :=
  arcs_mapper (stable_sort (less comp)) (compare_Properties comp).

(* arcsort.h:108-112 ArcSort *)
Definition ArcSort `{MutableFst W F} (fst : F) (comp : ArcCompare W) : option F :=
  StateMap fst (ArcSortMapper comp).
End arcsort.

(** * What a comparison promises *)

Class ArcCompareLaws `{WeightEq W} (comp : ArcCompare W) := {
  compare_order :: WeakOrder (less comp);
  compare_sound : ∀ p (f : Fst W), Sound p f →
    Sound (compare_Properties comp p) (abs_map_arcs f (stable_sort (less comp)));
  compare_error : ∀ p, has p kError = true → has (compare_Properties comp p) kError = true;
}.

(** ** Machines with the arcs in another order *)

Section permuted.
Context `{WeightEq W}.
Implicit Types (f g : Fst W).

Definition permuted f g : Prop :=
  Start g = Start f ∧ NumStates g = NumStates f ∧ (∀ s, Final g s = Final f s) ∧ ∀ s, Arcs g s ≡ₚ Arcs f s.

Lemma permuted_sym f g : permuted f g → permuted g f.
Proof. intros (?&?&Hf&Ha). split_and!; [done..| |]; intros s; by rewrite ?Hf, ?Ha. Qed.

Lemma permuted_valid f g s : permuted f g → valid g s ↔ valid f s.
Proof. intros (_&Hn&_). unfold valid. by rewrite Hn. Qed.

Lemma permuted_final f g s : permuted f g → is_final g s ↔ is_final f s.
Proof. intros Hp. unfold is_final. rewrite (permuted_valid f g) by done. by destruct Hp as (_&_&->&_). Qed.

Lemma permuted_same f g : permuted f g → arcs_same f g.
Proof. intros Hp s a. unfold arc_in. rewrite (permuted_valid f g) by done. destruct Hp as (_&_&_&Ha). by rewrite Ha. Qed.

Lemma permuted_rtc f g s t : permuted f g → rtc (edge f) s t → rtc (edge g) s t.
Proof. intros Hp. by apply arcs_incl_rtc, arcs_same_incl, permuted_same. Qed.

Lemma permuted_holds f g t :
  permuted f g → t ≠ ILabelSorted → t ≠ OLabelSorted → Holds f t → Holds g t.
Proof.
  intros Hp H1 H2. pose proof (permuted_same _ _ Hp) as Hs. pose proof Hp as (HS & HN & HF & HA).
  pose proof (λ s, permuted_valid f g s Hp) as HV.
  destruct t; try done; try (by apply (holds_same f g)); simpl.
  - intros Hd s Hv. rewrite HA. by apply Hd, HV.
  - intros Hd s Hv. rewrite HA. by apply Hd, HV.
  - intros [(s & a & Hv & Ha & Hw)|(s & Hv & Hw)]; [left; exists s, a|right; exists s].
    + by rewrite HA, HV.
    + by rewrite HF, HV.
  - intros Hc. rewrite HS. by eapply arcs_incl_tc, Hc; apply arcs_same_incl.
  - intros Hr s Hv. rewrite HS. eapply permuted_rtc; [done|]. by apply Hr, HV.
  - intros Hr s Hv. destruct (Hr s) as (u & Hu & Hf); [by apply HV|].
    exists u. split; [by eapply permuted_rtc|by apply (permuted_final f g)].
  - rewrite HS, HN. intros Hstr Hpos. destruct (Hstr Hpos) as (? & Hl & Hnil & Hrest). split_and!; [done| | |].
    + by apply (permuted_final f g).
    + apply Permutation_nil_r. by rewrite HA, Hnil.
    + intros s Hr. destruct (Hrest s Hr) as (Hnf & a & Ha & Hn). split; [by rewrite (permuted_final f g)|].
      exists a. split; [|done]. apply Permutation_singleton_r. by rewrite HA, Ha.
Qed.

Lemma permuted_path f g s p t : permuted f g → path f s p t → path g s p t.
Proof.
  intros Hp. pose proof Hp as (_ & _ & _ & HA). induction 1 as [s Hs|s a p t Hs Ha _ IH]; constructor; try done.
  - by apply (permuted_valid f g).
  - by apply (permuted_valid f g).
  - by rewrite HA.
Qed.

Lemma permuted_accepts f g x y w : permuted f g → accepts f x y w → accepts g x y w.
Proof.
  intros Hp (p & t & Hpath & Hf & ? & ? & Hw). pose proof Hp as (HS & _ & HF & _). exists p, t.
  rewrite HS, HF. split_and!; [by eapply permuted_path|by apply (permuted_final f g)|done..].
Qed.

Lemma permuted_wf f g : permuted f g → WellFormed f → WellFormed g.
Proof.
  intros Hp (Hn & Ha & Hs). pose proof Hp as (HS & HN & _ & HA). split_and!; [lia| |].
  - intros s a Hv Hin. rewrite HA in Hin. apply (permuted_valid f g); [done|].
    apply (Ha s); [by apply (permuted_valid f g)|done].
  - unfold wf_start. rewrite HS, (permuted_valid f g) by done. done.
Qed.
End permuted.

(** ** The comparisons by label *)

Section by_label.
Context `{WeightEq W}.
Implicit Types (f g : Fst W) (a b c : Arc W).

Ltac labels_lia := intros; simpl in *; lia.

#[export] Instance ilabel_weak_order : WeakOrder (less (ILabelCompare (W:=W))).
Proof. split; labels_lia. Qed.

#[export] Instance olabel_weak_order : WeakOrder (less (OLabelCompare (W:=W))).
Proof. split; labels_lia. Qed.

Lemma sort_permuted f (lt : Arc W → Arc W → bool) : permuted f (abs_map_arcs f (stable_sort lt)).
Proof. split_and!; simpl; try done. intros s. apply stable_sort_perm. Qed.

(** A list sorted by a comparison that refines [lab] is sorted by [lab]. *)
Lemma in_order_labels (lt : Arc W → Arc W → bool) (lab : Arc W → Z) l :
  (∀ a b, lt b a = false → lab a ≤ lab b) → in_order lt l → Sorted Z.le (lab <$> l).
Proof.
  intros Hlab Hl. apply StronglySorted_Sorted. induction Hl as [|a l Hl IH Ha]; simpl; constructor; [done|].
  apply Forall_fmap. eapply Forall_impl; [exact Ha|]. intros b Hb. by apply Hlab.
Qed.

(** The bits of a sorted machine: [t] says that it is sorted by [lab], [u] by
the other label. *)
Lemma sorted_sound p f (lt : Arc W → Arc W → bool) (lab lab' : Arc W → Z) (t u : trinary) bit bit' :
  state_property t = Some (λ l, Sorted Z.le (lab <$> l)) → state_property u = Some (λ l, Sorted Z.le (lab' <$> l)) →
  (t = ILabelSorted ∧ u = OLabelSorted ∨ t = OLabelSorted ∧ u = ILabelSorted) →
  bit = 2 ^ pos_bit t → bit' = 2 ^ pos_bit u → WeakOrder lt →
  (∀ a b, lt b a = false → lab a ≤ lab b) →
  (∀ a, ilabel a = olabel a → lab a = lab' a) →
  Sound p f →
  Sound ((p &&& kArcSortProperties) ||| bit ||| (if has p kAcceptor then bit' else 0))
    (abs_map_arcs f (stable_sort lt)).
Proof.
  intros Ht Hu Htu -> -> ? Hlab Hacc Hs v. set (g := abs_map_arcs f (stable_sort lt)).
  assert (permuted f g) as Hp by apply sort_permuted.
  assert (Holds g t) as Hg.
  { apply (holds_state _ _ _ Ht). intros s _. by apply (in_order_labels lt lab), stable_sort_sorted. }
  assert (has p kAcceptor = true → Holds g u) as Hg'.
  { intros Hb. apply (holds_state _ _ _ Hu). intros s Hv.
    assert (Holds g Acceptor) as Ha.
    { apply (permuted_holds f); [done..|]. apply (Hs Acceptor). change (pos_bit Acceptor) with 16. by rewrite <-(has_bit p kAcceptor 16). }
    replace (lab' <$> Arcs g s) with (lab <$> Arcs g s); [by apply (holds_state _ _ _ Ht)|].
    apply list_fmap_ext. intros i a Hi%list_elem_of_lookup_2. by apply Hacc, (Ha s). }
  assert (v ≠ ILabelSorted → v ≠ OLabelSorted → Holds g v ↔ Holds f v) as Hv.
  { intros ? ?. split; apply permuted_holds; [by apply permuted_sym|done..]. }
  set (q := (p &&& kArcSortProperties) ||| 2 ^ pos_bit t ||| (if has p kAcceptor then 2 ^ pos_bit u else 0)).
  destruct (decide (v = ILabelSorted ∨ v = OLabelSorted)) as [Hv'|Hv'].
  - assert (Z.testbit q (neg_bit v) = false) as ->.
    { subst q. rewrite !Z.lor_spec, Z.land_spec. destruct (has p kAcceptor), Htu as [[-> ->]|[-> ->]], Hv' as [->| ->];
        simpl; by rewrite ?andb_false_r. }
    split; [|done]. assert (v = t ∨ v = u) as [->| ->] by naive_solver; [done|].
    intros Hq. apply Hg'. revert Hq. subst q. rewrite !Z.lor_spec, Z.land_spec.
    destruct (has p kAcceptor); [done|]. destruct Htu as [[-> ->]|[-> ->]]; simpl; by rewrite ?andb_false_r.
  - rewrite Hv by tauto. assert (∀ i, i = pos_bit v ∨ i = neg_bit v → Z.testbit q i = Z.testbit p i) as Hq.
    { intros i Hi. subst q. rewrite !Z.lor_spec, Z.land_spec.
      assert (Z.testbit kArcSortProperties i = true) as -> by (destruct v, Hi as [->| ->]; tauto || done).
      rewrite andb_true_r. destruct (has p kAcceptor), Htu as [[-> ->]|[-> ->]], v, Hi as [->| ->];
        try tauto; simpl; by rewrite ?orb_false_r. }
    rewrite !Hq by auto. apply Hs.
Qed.

#[export] Instance ILabelCompare_laws : ArcCompareLaws (ILabelCompare (W:=W)).
Proof.
  split; [apply _| |].
  - intros p f Hs. eapply (sorted_sound p f _ ilabel olabel ILabelSorted OLabelSorted); try done; [by left|apply _|].
    labels_lia.
  - intros p. cbn [compare_Properties ILabelCompare]. rewrite !error_bit. destruct (has p kAcceptor); bits; by intros ->.
Qed.

#[export] Instance OLabelCompare_laws : ArcCompareLaws (OLabelCompare (W:=W)).
Proof.
  split; [apply _| |].
  - intros p f Hs. eapply (sorted_sound p f _ olabel ilabel OLabelSorted ILabelSorted); try done; [by right|apply _|].
    labels_lia.
  - intros p. cbn [compare_Properties OLabelCompare]. rewrite !error_bit. destruct (has p kAcceptor); bits; by intros ->.
Qed.
End by_label.

(** * The result *)

Section correct.
Context `{TM : TimesMonoid W} {F : Type} `{!MutableFst W F} `{!MutableFstLaws W F}.
Context (comp : ArcCompare W) `{!ArcCompareLaws comp}.
Implicit Types (x y : F).

Lemma map_error p : has p kError = true → has (p &&& kFstProperties) kError = true.
Proof. rewrite !error_bit. bits. done. Qed.

Lemma ArcSort_sorts x :
  minv x → WellFormed (view x) → SoundFst (view x) → Start (view x) ≠ kNoStateId →
  ∃ y, ArcSort x comp = Some y ∧ leaves y (has (FstProperties (view x)) kError) (accepts (view x)) ∧
    view y ≡ abs_map_arcs (view x) (stable_sort (less comp)) ∧
    InputSymbols (view y) = InputSymbols (view x) ∧ OutputSymbols (view y) = OutputSymbols (view x).
Proof.
  intros Hx Hwf Hs Hne. unfold ArcSort, ArcSortMapper. set (k := stable_sort (less comp)).
  destruct (StateMap_arcs x k (compare_Properties comp) Hx eq_refl Hne) as (y & -> & Hy).
  assert (permuted (view x) (abs_map_arcs (view x) k)) as Hp by apply sort_permuted.
  set (z := mSetProperties y _ kFstProperties).
  assert (view z ≡ abs_map_arcs (view x) k) as Hv.
  { etrans; [apply mSetProperties_view|]. by destruct Hy as [_ [? _ _ _ _]]. }
  assert (InputSymbols (view z) = InputSymbols (view y) ∧ OutputSymbols (view z) = OutputSymbols (view y)) as [Hi Ho]
    by apply mSetProperties_symbols.
  exists z. split; [done|]. split_and!; [|done|by rewrite Hi; apply Hy|by rewrite Ho; apply Hy].
  eapply leaves_stored; [by left|exact Hy|by eapply permuted_wf| | |].
  - apply compare_sound. intros t. specialize (Hs t). unfold mProperties. revert Hs. destruct t; bits; done.
  - intros He. right. by apply compare_error, map_error.
  - intros a b w. split; apply permuted_accepts; [by apply permuted_sym|done].
Qed.

(** C32: [ArcSort] of a well-formed machine with true property bits ends without
an access out of range.  The machine it leaves has the same start, final
weights, symbol tables and language, true bits and the error bit if it had it;
if there is a start state, the arcs of each state are those that it had, in the
order of the comparison, with arcs that the comparison does not tell apart in
the order they had. *)
Theorem ArcSort_correct x :
  minv x → WellFormed (view x) → SoundFst (view x) →
  ∃ y, ArcSort x comp = Some y ∧
    leaves y (has (FstProperties (view x)) kError) (accepts (view x)) ∧
    InputSymbols (view y) = InputSymbols (view x) ∧ OutputSymbols (view y) = OutputSymbols (view x) ∧
    Start (view y) = Start (view x) ∧ (∀ s, Final (view y) s = Final (view x) s) ∧
    (Start (view x) = kNoStateId → y = x) ∧
    (Start (view x) ≠ kNoStateId → ∀ s,
      Arcs (view y) s ≡ₚ Arcs (view x) s ∧ in_order (less comp) (Arcs (view y) s) ∧
      ∀ (P : Arc W → Prop) `{∀ a, Decision (P a)}, (∀ a b, P a → P b → less comp a b = false) →
        filter P (Arcs (view y) s) = filter P (Arcs (view x) s)).
Proof.
  intros Hx Hwf Hs. destruct (decide (Start (view x) = kNoStateId)) as [Hno|Hne].
  - exists x. split; [by apply StateMap_no_start|]. by split_and!; [split|..].
  - destruct (ArcSort_sorts x Hx Hwf Hs Hne) as (y & E & Hl & (HS & _ & HF & HA) & Hi & Ho). exists y. split_and!; [done..|].
    intros _ s. rewrite HA. simpl. split_and!; [apply stable_sort_perm|apply stable_sort_sorted, compare_order|].
    intros P ? HP. by apply stable_sort_filter.
Qed.
End correct.

(** * An instance *)

Section witnesses.
Local Notation M := MinMaxWeight.

Definition shuffled : list (mutation M) :=
  [MAddStates 2; MSetStart 0; MAddArc 0 (MkArc 5 6 One 0); MAddArc 0 (MkArc 1 2 four 1); MAddArc 0 (MkArc 5 6 four 1);
   MAddArc 0 (MkArc 5 3 One 1); MSetFinal 1 One].
Definition shuffled_fst : VectorFst M := default VectorFst_new (foldM mutate shuffled VectorFst_new).

Lemma ArcSort_correct_witness :
  let x := shuffled_fst in
  ∃ y, ArcSort x ILabelCompare = Some y ∧
    leaves y (has (FstProperties (view x)) kError) (accepts (view x)) ∧
    InputSymbols (view y) = InputSymbols (view x) ∧ OutputSymbols (view y) = OutputSymbols (view x) ∧
    Start (view y) = Start (view x) ∧ (∀ s, Final (view y) s = Final (view x) s) ∧
    (Start (view x) = kNoStateId → y = x) ∧
    (Start (view x) ≠ kNoStateId → ∀ s,
      Arcs (view y) s ≡ₚ Arcs (view x) s ∧ in_order (less ILabelCompare) (Arcs (view y) s) ∧
      ∀ (P : Arc M → Prop) `{∀ a, Decision (P a)}, (∀ a b, P a → P b → less ILabelCompare a b = false) →
        filter P (Arcs (view y) s) = filter P (Arcs (view x) s)).
Proof.
  destruct (built_invariant _ (built_history shuffled)) as [Hc Hs].
  apply (ArcSort_correct ILabelCompare shuffled_fst); [done|by apply well_formedb_spec|done].
Defined.

Example shuffled_sorted :
  (λ y, Arcs (vector_view y) 0) <$> ArcSort shuffled_fst ILabelCompare =
  Some [MkArc 1 2 four 1; MkArc 5 3 One 1; MkArc 5 6 One 0; MkArc 5 6 four 1].
Proof. by vm_compute. Qed.
End witnesses.
