(* ===== verification/Queue.v ===== *)
(** State queues (openfst/lib/queue.h): the disciplines that shortest-distance
algorithms visit states in.  Every queue is specified as a bag of states: what
goes in comes out, once.  Proved here: the trivial, FIFO, LIFO, shortest-first,
topological-order and state-order queues are bags, whatever order they use. *)
From S2P Require Import Prelude Weight Fst Heap.
Local Open Scope Z_scope.

(* queue.h:75-85 QueueType *)
Inductive QueueType :=
  | TRIVIAL_QUEUE | FIFO_QUEUE | LIFO_QUEUE | SHORTEST_FIRST_QUEUE | TOP_ORDER_QUEUE
  | STATE_ORDER_QUEUE | SCC_QUEUE | AUTO_QUEUE | OTHER_QUEUE.

#[export] Instance QueueType_eq_dec : EqDecision QueueType.
Proof. solve_decision. Defined.

(** * The interface *)

(** The shortest-first queues compare states by the distance vector of their
client, so that each operation gets its current value.  [Head] may change the
queue, and what is undefined in the source is [None]. *)

(* queue.h:90-120 QueueBase *)
Class StateQueue (W Q : Type) := {
  Head : list W → Q → option (Q * Z);
  Enqueue : list W → Q → Z → option Q;
  Dequeue : list W → Q → option Q;
  Update : list W → Q → Z → option Q;
  Empty : Q → option bool;
  Clear : Q → option Q;
}.

(** * The disciplines *)

(* queue.h:125-148 TrivialQueue *)
Record TrivialQueue := MkTrivial { trivial_front : Z }.

(* queue.h:125-148 TrivialQueue *)
#[export] Instance trivial_queue W : StateQueue W TrivialQueue := {|
  Head := λ _ q, Some (q, trivial_front q);
  Enqueue := λ _ q s, Some (MkTrivial s);
  Dequeue := λ _ q, Some (MkTrivial kNoStateId);
  Update := λ _ q s, Some q;
  Empty := λ q, Some (trivial_front q =? kNoStateId);
  Clear := λ q, Some (MkTrivial kNoStateId);
|}.

(** The front of the queue comes first. *)

(* queue.h:174-175 FifoQueue *)
Record FifoQueue := MkFifo { fifo_queue_ : list Z }.

(* queue.h:152-176 FifoQueue *)
#[export] Instance fifo_queue W : StateQueue W FifoQueue := {|
  Head := λ _ q, s ← head (fifo_queue_ q); Some (q, s);
  Enqueue := λ _ q s, Some (MkFifo (fifo_queue_ q ++ [s]));
  Dequeue := λ _ q, match fifo_queue_ q with [] => None | _ :: l => Some (MkFifo l) end;
  Update := λ _ q s, Some q;
  Empty := λ q, Some (bool_decide (fifo_queue_ q = []));
  Clear := λ q, Some (MkFifo []);
|}.

(** The back of the vector comes first. *)

(* queue.h:200-201 LifoQueue *)
Record LifoQueue := MkLifo { stack_ : list Z }.

(* queue.h:178-202 LifoQueue *)
#[export] Instance lifo_queue W : StateQueue W LifoQueue := {|
  Head := λ _ q, s ← head (stack_ q); Some (q, s);
  Enqueue := λ _ q s, Some (MkLifo (s :: stack_ q));
  Dequeue := λ _ q, match stack_ q with [] => None | _ :: l => Some (MkLifo l) end;
  Update := λ _ q s, Some q;
  Empty := λ q, Some (bool_decide (stack_ q = []));
  Clear := λ q, Some (MkLifo []);
|}.

Section shortest_first.
Context `{WeightOps W}.

(** Both indices are in range when the queue's client has stored a distance for
each state that it enqueues. *)

(* queue.h:268-284 StateWeightCompare *)
Definition StateWeightCompare (less : W → W → bool) (weights : list W) (s1 s2 : Z) : bool :=
  less (default Zero (weights.[s1])) (default Zero (weights.[s2])).

(* queue.h:259-261 ShortestFirstQueue *)
Record ShortestFirstQueue := MkShortest { heap_ : Heap Z; key_ : list Z }.

Context (less : W → W → bool) (update : bool).
Implicit Types (q : ShortestFirstQueue) (ds : list W) (s : Z).

(* queue.h:222-229 Enqueue *)
Definition Shortest_Enqueue ds q s : option ShortestFirstQueue :=
  '(h, k) ← Insert (StateWeightCompare less ds) (heap_ q) s;
  if update then
    key ← (vextend s kNoStateId (key_ q)).[s <- k];
    Some (MkShortest h key)
  else Some (MkShortest h (key_ q)).

(* queue.h:231-237 Dequeue *)
Definition Shortest_Dequeue ds q : option ShortestFirstQueue :=
  '(h, s) ← Pop (StateWeightCompare less ds) (heap_ q);
  if update then
    key ← (key_ q).[s <- kNoStateId];
    Some (MkShortest h key)
  else Some (MkShortest h (key_ q)).

(* queue.h:239-246 Update *)
Definition Shortest_Update ds q s : option ShortestFirstQueue :=
  if negb update then Some q else
  if zlen (key_ q) <=? s then Shortest_Enqueue ds q s else
  k ← (key_ q).[s];
  if k =? kNoStateId then Shortest_Enqueue ds q s else
  h ← Heap.Update (StateWeightCompare less ds) (heap_ q) k s;
  Some (MkShortest h (key_ q)).

(* queue.h:250-253 Clear *)
Definition Shortest_Clear q : ShortestFirstQueue :=
  MkShortest (Heap_Clear (heap_ q)) (if update then [] else key_ q).

(* queue.h:210-262 ShortestFirstQueue *)
Definition shortest_first_queue : StateQueue W ShortestFirstQueue := {|
  Head := λ _ q, s ← Top (heap_ q); Some (q, s);
  Enqueue := Shortest_Enqueue;
  Dequeue := Shortest_Dequeue;
  Update := Shortest_Update;
  Empty := λ q, Some (Heap_Empty (heap_ q));
  Clear := λ q, Some (Shortest_Clear q);
|}.

(* queue.h:216-217 ShortestFirstQueue *)
Definition ShortestFirstQueue_new : ShortestFirstQueue := MkShortest Heap_new [].
End shortest_first.

Section top_order.
(* queue.h:485-489 TopOrderQueue *)
Record TopOrderQueue := MkTopQueue {
  top_front : Z; top_back : Z; top_order : list Z; top_state : list Z; top_error : bool }.

Implicit Types (s : Z).

(* queue.h:448-453 TopOrderQueue *)
Definition TopOrderQueue_new (order : list Z) : TopOrderQueue :=
  MkTopQueue 0 kNoStateId order (replicate (length order) kNoStateId) false.

(** The two pointers of a queue over a range of positions, after [o] is added. *)

(* queue.h:460-466 Enqueue *)
Definition widen (front back o : Z) : Z * Z :=
  if front >? back then (o, o) else if o >? back then (front, o) else if o <? front then (o, back) else (front, back).

(* queue.h:459-468 Enqueue *)
Definition Top_Enqueue (q : TopOrderQueue) s : option TopOrderQueue :=
  o ← (top_order q).[s];
  let '(front, back) := widen (top_front q) (top_back q) o in
  state ← (top_state q).[o <- s];
  Some (MkTopQueue front back (top_order q) state (top_error q)).

(** The front pointer moves over free positions. *)

(* queue.h:472-472 Dequeue *)
Fixpoint skip_free {A} `{EqDecision A} (fuel : nat) (state : list A) (free : A) (front back : Z) : option Z :=
  if front <=? back then
    x ← state.[front];
    if decide (x = free) then
      match fuel with O => None | S fuel => skip_free fuel state free (front + 1) back end
    else Some front
  else Some front.

(* queue.h:470-473 Dequeue *)
Definition Top_Dequeue (q : TopOrderQueue) : option TopOrderQueue :=
  state ← (top_state q).[top_front q <- kNoStateId];
  front ← skip_free (S (length state)) state kNoStateId (top_front q) (top_back q);
  Some (MkTopQueue front (top_back q) (top_order q) state (top_error q)).

(* queue.h:479-483 Clear *)
Definition Top_Clear (q : TopOrderQueue) : option TopOrderQueue :=
  state ← foldM (λ state i, state.[i <- kNoStateId]) (seqZ (top_front q) (top_back q - top_front q + 1)) (top_state q);
  Some (MkTopQueue 0 kNoStateId (top_order q) state (top_error q)).

(* queue.h:422-490 TopOrderQueue *)
#[export] Instance top_order_queue W : StateQueue W TopOrderQueue := {|
  Head := λ _ q, s ← (top_state q).[top_front q]; Some (q, s);
  Enqueue := λ _, Top_Enqueue;
  Dequeue := λ _, Top_Dequeue;
  Update := λ _ q s, Some q;
  Empty := λ q, Some (top_front q >? top_back q);
  Clear := Top_Clear;
|}.

(* queue.h:533-536 StateOrderQueue *)
Record StateOrderQueue := MkStateQueue { state_front : Z; state_back : Z; state_enqueued : list bool }.

(* queue.h:499-500 StateOrderQueue *)
Definition StateOrderQueue_new : StateOrderQueue := MkStateQueue 0 kNoStateId [].

(* queue.h:506-516 Enqueue *)
Definition State_Enqueue (q : StateOrderQueue) s : option StateOrderQueue :=
  let '(front, back) := widen (state_front q) (state_back q) s in
  enqueued ← (vextend s false (state_enqueued q)).[s <- true];
  Some (MkStateQueue front back enqueued).

(* queue.h:518-521 Dequeue *)
Definition State_Dequeue (q : StateOrderQueue) : option StateOrderQueue :=
  enqueued ← (state_enqueued q).[state_front q <- false];
  front ← skip_free (S (length enqueued)) enqueued false (state_front q) (state_back q);
  Some (MkStateQueue front (state_back q) enqueued).

(* queue.h:527-531 Clear *)
Definition State_Clear (q : StateOrderQueue) : option StateOrderQueue :=
  enqueued ← foldM (λ enqueued i, enqueued.[i <- false])
    (seqZ (state_front q) (state_back q - state_front q + 1)) (state_enqueued q);
  Some (MkStateQueue 0 kNoStateId enqueued).

(* queue.h:494-537 StateOrderQueue *)
#[export] Instance state_order_queue W : StateQueue W StateOrderQueue := {|
  Head := λ _ q, Some (q, state_front q);
  Enqueue := λ _, State_Enqueue;
  Dequeue := λ _, State_Dequeue;
  Update := λ _ q s, Some q;
  Empty := λ q, Some (state_front q >? state_back q);
  Clear := State_Clear;
|}.
End top_order.

(** * The specification *)

(** The states that may be in a queue. *)
Class NonnegDom (dom : Z → Prop) := dom_nonneg : ∀ s, dom s → 0 ≤ s.

(** A queue that keeps a set of states: one that is in it comes out at some time,
and only once. *)
Class BagLaws {W Q} `{StateQueue W Q} (dom : Z → Prop) := {
  bag : Q → gset Z → Prop;
  bag_clear : ∀ q D, bag q D → ∃ q', Clear q = Some q' ∧ bag q' ∅;
  bag_empty : ∀ q D, bag q D → Empty q = Some (bool_decide (D = ∅));
  bag_pop : ∀ ds q D, bag q D → D ≠ ∅ →
    ∃ q1 s q2, Head ds q = Some (q1, s) ∧ Dequeue ds q1 = Some q2 ∧ s ∈ D ∧ bag q2 (D ∖ {[s]});
  bag_enqueue : ∀ ds q D s, bag q D → s ∉ D → dom s →
    ∃ q', Enqueue ds q s = Some q' ∧ bag q' ({[s]} ∪ D);
  bag_update : ∀ ds q D s, bag q D → s ∈ D → ∃ q', Update ds q s = Some q' ∧ bag q' D;
}.

Section lists.
Implicit Types (D : gset Z) (l : list Z).

(** A list without repetitions is a bag. *)
Definition listed l D : Prop := NoDup l ∧ ∀ s, s ∈ D ↔ s ∈ l.

Lemma listed_nil : listed [] ∅.
Proof. split; [constructor|]. set_solver. Qed.

Lemma listed_empty l D : listed l D → l = [] ↔ D = ∅.
Proof.
  intros [_ Hl]. split; [intros ->; set_solver|intros ->]. destruct l as [|s l]; [done|].
  destruct (not_elem_of_empty (C:=gset Z) s). apply Hl. left.
Qed.

Lemma listed_cons s l D : listed (s :: l) D → s ∈ D ∧ listed l (D ∖ {[s]}).
Proof.
  intros [Hnd Hl]. apply NoDup_cons in Hnd as [Hs Hnd]. split; [apply Hl; left|]. split; [done|].
  intros t. rewrite elem_of_difference, elem_of_singleton, Hl, elem_of_cons.
  split; [naive_solver|]. intros Ht. split; [by right|by intros ->].
Qed.

Lemma listed_add s l k D : listed l D → s ∉ D → k ≡ₚ s :: l → listed k ({[s]} ∪ D).
Proof.
  intros [Hnd Hl] Hs Hk. split.
  - rewrite Hk. constructor; [by rewrite <-Hl|done].
  - intros t. rewrite Hk, elem_of_union, elem_of_singleton, elem_of_cons, Hl. done.
Qed.

Context (W : Type) (dom : Z → Prop).

#[export] Program Instance fifo_bag : BagLaws (Q:=FifoQueue) (W:=W) dom := {| bag := λ q, listed (fifo_queue_ q) |}.
Next Obligation. intros q D _. eexists. split; [done|apply listed_nil]. Qed.
Next Obligation. intros q D Hq. simpl. f_equal. apply bool_decide_ext. by apply listed_empty. Qed.
Next Obligation.
  intros ds [l] D Hq HD. simpl in *. destruct l as [|s l]; [by rewrite <-(listed_empty [] D) in HD|].
  apply listed_cons in Hq as [? ?]. by exists (MkFifo (s :: l)), s, (MkFifo l).
Qed.
Next Obligation. intros ds q D s Hq Hs _. eexists. split; [done|]. simpl. eapply (listed_add s (fifo_queue_ q)); [done..|].
  by rewrite (Permutation_app_comm _ [s]).
Qed.
Next Obligation. intros ds q D s Hq _. by exists q. Qed.

#[export] Program Instance lifo_bag : BagLaws (Q:=LifoQueue) (W:=W) dom := {| bag := λ q, listed (stack_ q) |}.
Next Obligation. intros q D _. eexists. split; [done|apply listed_nil]. Qed.
Next Obligation. intros q D Hq. simpl. f_equal. apply bool_decide_ext. by apply listed_empty. Qed.
Next Obligation.
  intros ds [l] D Hq HD. simpl in *. destruct l as [|s l]; [by rewrite <-(listed_empty [] D) in HD|].
  apply listed_cons in Hq as [? ?]. by exists (MkLifo (s :: l)), s, (MkLifo l).
Qed.
Next Obligation. intros ds q D s Hq Hs _. eexists. split; [done|]. simpl. by apply (listed_add s (stack_ q)). Qed.
Next Obligation. intros ds q D s Hq _. by exists q. Qed.
End lists.

Section shortest_first_bag.
Context `{WeightOps W} (less : W → W → bool) (update : bool).
Implicit Types (q : ShortestFirstQueue) (D : gset Z) (s k : Z).

(** The heap holds every state of the bag under one key, which is in [key_]. *)
Record shortest_bag q D : Prop := {
  shortest_heap : indexed (heap_ q);
  shortest_in : ∀ s, s ∈ D ↔ ∃ k, live (heap_ q) k s;
  shortest_once : ∀ k k' s, live (heap_ q) k s → live (heap_ q) k' s → k = k';
  shortest_key : update = true → ∀ s k, live (heap_ q) k s → (key_ q).[s] = Some k;
  shortest_free : update = true → ∀ s k, (key_ q).[s] = Some k → k = kNoStateId ∨ live (heap_ q) k s;
}.

Lemma cleared_bag (key : list Z) h :
  indexed h → (update = true → key = []) → shortest_bag (MkShortest (Heap_Clear h) key) ∅.
Proof using.
  intros Hh Hk.
  assert (∀ k s, ¬ live (Heap_Clear h) k s) as Hn by (intros k s (i & Hi & _); simpl in Hi; lia).
  split; simpl.
  - split; simpl; try apply Hh. pose proof (zlen_nonneg (elements_ h)). lia.
  - intros s. split; [set_solver|]. by intros [k ?%Hn].
  - by intros k k' s ?%Hn.
  - by intros _ s k ?%Hn.
  - intros Hu s k Hs%vget_range. rewrite (Hk Hu) in Hs. change (zlen (@nil Z)) with 0 in Hs. lia.
Qed.

Lemma new_bag : shortest_bag ShortestFirstQueue_new ∅.
Proof using.
  apply (cleared_bag [] (MkHeap [] [] 0)); [|done]. split; simpl; try done.
  intros i v k Hi%vget_range. change (zlen (@nil (Z * Z))) with 0 in Hi. lia.
Qed.

Lemma shortest_enqueue_bag ds q D s :
  shortest_bag q D → s ∉ D → 0 ≤ s →
  ∃ q', Shortest_Enqueue less update ds q s = Some q' ∧ shortest_bag q' ({[s]} ∪ D).
Proof using.
  intros [Hh Hin Hone Hkey Hfree] Hs Hnn. unfold Shortest_Enqueue.
  destruct (Insert_content (StateWeightCompare less ds) (heap_ q) s Hh) as (h & k & -> & Hh' & Hk0 & Hfresh & Hl).
  cbn [mbind option_bind].
  assert (∀ k' t, live h k' t ↔ (k' = k ∧ t = s) ∨ live (heap_ q) k' t) as Hl'.
  { intros k' t. rewrite Hl. split; [naive_solver|]. intros [?|Ht]; [by left|]. right. split; [|done].
    intros ->. by apply (Hfresh t). }
  assert (∀ k', ¬ live (heap_ q) k' s) as Hnot by (intros k' ?; apply Hs, Hin; eauto).
  assert (∀ key, (update = true → key.[s] = Some k ∧ ∀ t, t ≠ s → key.[t] = (vextend s kNoStateId (key_ q)).[t]) →
    shortest_bag (MkShortest h key) ({[s]} ∪ D)) as Hbag.
  { intros key Hkeys. split; simpl.
    - done.
    - intros t. rewrite elem_of_union, elem_of_singleton, Hin. setoid_rewrite Hl'. naive_solver.
    - intros k1 k2 t [[-> ->]|H1]%Hl' [[-> Ht]|H2]%Hl'; [done|by apply Hnot in H2|subst; by apply Hnot in H1|by eapply Hone].
    - intros Hu t k1 [[-> ->]|H1]%Hl'; [by apply Hkeys|].
      destruct (Hkeys Hu) as [_ ->]; [|by intros ->; apply Hnot in H1]. apply vextend_old. by apply Hkey.
    - intros Hu t k1 Ht. destruct (decide (t = s)) as [->|Hne].
      + right. apply Hl'. left. destruct (Hkeys Hu) as [Hk _]. rewrite Hk in Ht. by injection Ht as <-.
      + rewrite (proj2 (Hkeys Hu) t Hne), vextend_get in Ht. case_decide; [left; congruence|].
        destruct (Hfree Hu t k1 Ht); [by left|right]. apply Hl'. by right. }
  destruct update; [|eexists; split; [done|]; by apply Hbag].
  assert (∃ key, (vextend s kNoStateId (key_ q)).[s <- k] = Some key) as [key Hset].
  { eexists. apply vset_is_Some. rewrite vextend_len. pose proof (zlen_nonneg (key_ q)). lia. }
  rewrite Hset. eexists. split; [done|]. apply Hbag. intros _. split; [by eapply vget_vset_eq|].
  intros t Ht. by rewrite (vget_vset_ne _ _ _ _ _ Hset).
Qed.

Lemma shortest_pop_bag ds q D :
  shortest_bag q D → D ≠ ∅ →
  ∃ s q', Top (heap_ q) = Some s ∧ Shortest_Dequeue less update ds q = Some q' ∧ s ∈ D ∧ shortest_bag q' (D ∖ {[s]}).
Proof using.
  intros [Hh Hin Hone Hkey Hfree] HD. unfold Shortest_Dequeue.
  assert (size_ (heap_ q) ≠ 0) as Hsz.
  { apply set_choose_L in HD as [t Ht]. apply Hin in Ht as (k & i & ? & _). lia. }
  destruct (Pop_content (StateWeightCompare less ds) (heap_ q) Hh Hsz) as (h & s & k & Htop & -> & Hs & Hh' & Hl).
  cbn [mbind option_bind].
  assert (∀ k' t, live h k' t ↔ t ≠ s ∧ live (heap_ q) k' t) as Hl'.
  { intros k' t. rewrite Hl. split; intros [Hne Ht]; (split; [|done]).
    - intros ->. apply Hne. by eapply Hone.
    - intros ->. apply Hne. exact (live_fun _ k t s Hh Ht Hs). }
  assert (∀ key, (update = true → key.[s] = Some kNoStateId ∧ ∀ t, t ≠ s → key.[t] = (key_ q).[t]) →
    shortest_bag (MkShortest h key) (D ∖ {[s]})) as Hbag.
  { intros key Hkeys. split; simpl.
    - done.
    - intros t. rewrite elem_of_difference, elem_of_singleton, Hin. setoid_rewrite Hl'. naive_solver.
    - intros k1 k2 t [? H1]%Hl' [_ H2]%Hl'. by eapply Hone.
    - intros Hu t k1 [Ht H1]%Hl'. rewrite (proj2 (Hkeys Hu) t Ht). by apply Hkey.
    - intros Hu t k1 Ht. destruct (decide (t = s)) as [->|Hne].
      + left. rewrite (proj1 (Hkeys Hu)) in Ht. congruence.
      + rewrite (proj2 (Hkeys Hu) t Hne) in Ht. destruct (Hfree Hu t k1 Ht); [by left|right]. by apply Hl'. }
  assert (s ∈ D) as HsD by (apply Hin; eauto).
  destruct update; [|by eexists s, _; split_and!; [..|apply Hbag]].
  assert (∃ key, (key_ q).[s <- kNoStateId] = Some key) as [key Hset].
  { eexists. apply vset_is_Some. by eapply vget_range, Hkey. }
  rewrite Hset. eexists s, _. split_and!; [done..|]. apply Hbag. intros _. split; [by eapply vget_vset_eq|].
  intros t Ht. by rewrite (vget_vset_ne _ _ _ _ _ Hset).
Qed.

Lemma shortest_update_bag ds q D s :
  shortest_bag q D → s ∈ D → ∃ q', Shortest_Update less update ds q s = Some q' ∧ shortest_bag q' D.
Proof using.
  intros Hq Hs. pose proof Hq as [Hh Hin Hone Hkey Hfree]. unfold Shortest_Update. destruct update; simpl; [|by exists q].
  apply Hin in Hs as [k Hk]. pose proof (Hkey eq_refl s k Hk) as Hsk.
  rewrite (proj2 (Z.leb_gt _ _)) by (apply vget_range in Hsk; lia). rewrite Hsk. cbn [mbind option_bind].
  assert (k ≠ kNoStateId) as Hnk.
  { destruct Hk as (i & _ & Hi). pose proof (indexed_pos _ Hh _ _ _ Hi) as Hr%vget_range. unfold kNoStateId. lia. }
  rewrite (proj2 (Z.eqb_neq _ _) Hnk).
  destruct (Update_content (StateWeightCompare less ds) (heap_ q) k s s Hh Hk) as (h & -> & Hh' & Hl).
  cbn [mbind option_bind].
  assert (∀ k' t, live h k' t ↔ live (heap_ q) k' t) as Hl'.
  { intros k' t. rewrite Hl. split; [intros [[-> ->]|[_ ?]]; done|]. intros Ht.
    destruct (decide (k' = k)) as [->|]; [left|by right]. split; [done|]. exact (live_fun _ k t s Hh Ht Hk). }
  eexists. split; [done|]. split; simpl; try done.
  - intros t. setoid_rewrite Hl'. apply Hin.
  - intros k1 k2 t. rewrite !Hl'. apply Hone.
  - intros Hu t k1. rewrite Hl'. by apply Hkey.
  - intros Hu t k1. rewrite Hl'. by apply Hfree.
Qed.

#[export] Program Instance shortest_first_bag (dom : Z → Prop) `{!NonnegDom dom} : BagLaws (H := shortest_first_queue less update) dom := {| bag := shortest_bag |}.
Next Obligation. intros dom ? q D [Hh _ _ _ _]. eexists. split; [done|]. apply cleared_bag; [done|by intros ->]. Qed.
Next Obligation.
  intros dom ? q D [Hh Hin _ _ _]. simpl. f_equal. unfold Heap_Empty. pose proof (indexed_size _ Hh).
  destruct (Z.eqb_spec (size_ (heap_ q)) 0) as [E|E]; symmetry; [apply bool_decide_eq_true_2|apply bool_decide_eq_false_2].
  - apply set_eq. intros s. split; [|set_solver]. intros (k & i & ? & _)%Hin. lia.
  - intros ->. destruct (value_in_range (heap_ q) 0 Hh) as (s & k & Hs); [lia|].
    destruct (not_elem_of_empty (C:=gset Z) s). apply Hin. exists k, 0. split; [lia|done].
Qed.
Next Obligation.
  intros dom ? ds q D Hq HD. destruct (shortest_pop_bag ds q D Hq HD) as (s & q' & Ht & ? & ? & ?).
  exists q, s, q'. simpl. by rewrite Ht.
Qed.
Next Obligation. intros dom ? ds q D s Hq Hs Hd. apply shortest_enqueue_bag; [done..|by apply dom_nonneg]. Qed.
Next Obligation. intros dom ? ds q D s. apply shortest_update_bag. Qed.
End shortest_first_bag.

(** ** Queues over a range of positions *)

Section window.
Context {A : Type} `{EqDecision A} (free : A).
Implicit Types (vec : list A) (front back o p : Z) (x : A).

(** What is not free is between the two pointers, and so is the front, unless
there is nothing. *)
Record window vec front back : Prop := {
  window_low : 0 ≤ front;
  window_high : back < zlen vec;
  window_out : ∀ p x, vec.[p] = Some x → x ≠ free → front ≤ p ≤ back;
  window_front : front ≤ back → ∃ x, vec.[front] = Some x ∧ x ≠ free;
}.

Lemma window_none vec : (∀ p x, vec.[p] = Some x → x = free) → window vec 0 (-1).
Proof using.
  intros Hn. pose proof (zlen_nonneg vec). split; [lia|lia| |lia]. intros p x Hp Hx. by apply Hn in Hp.
Qed.

Lemma window_empty vec front back :
  window vec front back → (front >? back) = true ↔ ∀ p x, vec.[p] = Some x → x = free.
Proof using EqDecision0.
  intros [? ? Hout Hf]. rewrite Z.gtb_ltb, Z.ltb_lt. split.
  - intros Hgt p x Hp. destruct (decide (x = free)) as [|Hx]; [done|]. pose proof (Hout p x Hp Hx). lia.
  - intros Hn. destruct (decide (front ≤ back)) as [Hle|]; [|lia]. destruct (Hf Hle) as (x & Hx & Hne).
    by apply Hn in Hx.
Qed.

Lemma window_extend vec front back s : window vec front back → window (vextend s free vec) front back.
Proof using.
  intros [? ? Hout Hf]. split; [done|rewrite vextend_len; lia| |].
  - intros p x. rewrite vextend_get. case_decide; [by intros [= <-]|apply Hout].
  - intros Hle. destruct (Hf Hle) as (x & Hx & ?). exists x. split; [by apply vextend_old|done].
Qed.

Lemma window_enqueue vec vec' front back o x :
  window vec front back → x ≠ free → vec.[o <- x] = Some vec' →
  window vec' (widen front back o).1 (widen front back o).2.
Proof using.
  intros [Hl Hh Hout Hf] Hx Hset. pose proof (vget_range _ _ _ (vget_vset_eq _ _ _ _ Hset)) as Ho.
  rewrite (vset_len _ _ _ _ Hset) in Ho.
  assert (∀ p y, vec'.[p] = Some y → y ≠ free → p = o ∨ front ≤ p ≤ back) as Hout'.
  { intros p y. rewrite (vget_vset _ _ _ _ _ Hset). case_decide; [by left|]. intros ? ?. right. by eapply Hout. }
  assert (∀ p, p = o ∨ (∃ y, vec.[p] = Some y ∧ y ≠ free) → ∃ y, vec'.[p] = Some y ∧ y ≠ free) as Hocc.
  { intros p Hp. rewrite (vget_vset _ _ _ _ _ Hset). case_decide; [by exists x|]. destruct Hp as [->|?]; done. }
  unfold widen. rewrite !Z.gtb_ltb. destruct (Z.ltb_spec back front); [|destruct (Z.ltb_spec back o); [|destruct (Z.ltb_spec o front)]];
    split; simpl; rewrite ?(vset_len _ _ _ _ Hset); try lia.
  all: try (intros p y Hp Hy; destruct (Hout' p y Hp Hy); lia).
  all: intros Hle; apply Hocc; auto.
Qed.

Lemma skip_free_window fuel vec front back :
  0 ≤ front → back < zlen vec → back - front < Z.of_nat fuel →
  (∀ p x, vec.[p] = Some x → x ≠ free → front ≤ p ≤ back) →
  ∃ front', skip_free fuel vec free front back = Some front' ∧ window vec front' back.
Proof using.
  revert front. induction fuel as [|fuel IH]; intros front Hl Hh Hfuel Hout; simpl;
    (destruct (Z.leb_spec front back) as [Hle|]; [|exists front; split; [done|split; by auto with lia]]).
  { lia. }
  destruct (vget_in_range vec front) as [x Hx]; [lia|]. rewrite Hx. cbn [mbind option_bind].
  case_decide as E; [|exists front; split; [done|split; by eauto with lia]].
  apply IH; [lia|lia|lia|]. intros p y Hp Hy. pose proof (Hout p y Hp Hy).
  assert (p ≠ front) by (intros ->; congruence). lia.
Qed.

Lemma window_dequeue vec vec' front back :
  window vec front back → front ≤ back → vec.[front <- free] = Some vec' →
  ∃ front', skip_free (S (length vec')) vec' free front back = Some front' ∧ window vec' front' back.
Proof using.
  intros [Hl Hh Hout Hf] Hle Hset. pose proof (vset_len _ _ _ _ Hset) as Hlen. apply skip_free_window; [done|lia| |].
  - unfold zlen in *. lia.
  - intros p x. rewrite (vget_vset _ _ _ _ _ Hset). case_decide; [by intros [= <-]|apply Hout].
Qed.

(** Clearing the positions between the pointers. *)
Lemma window_clear vec front back :
  window vec front back →
  ∃ vec', foldM (λ vec i, vec.[i <- free]) (seqZ front (back - front + 1)) vec = Some vec' ∧
    zlen vec' = zlen vec ∧ ∀ p x, vec'.[p] = Some x → x = free.
Proof using EqDecision0.
  intros [Hl Hh Hout _].
  destruct (foldM_total (λ vec i, vec.[i <- free]) (λ done vec', zlen vec' = zlen vec ∧
      ∀ p x, vec'.[p] = Some x → x = free ∨ vec.[p] = Some x ∧ p ∉ done)
    (seqZ front (back - front + 1)) vec) as (vec' & Hv & Hlen & Hall).
  - split; [done|]. intros p x ?. right. split; [done|apply not_elem_of_nil].
  - intros done i todo v Hs [Hlen Hall]. assert (i ∈ seqZ front (back - front + 1)) as Hi.
    { rewrite Hs. apply elem_of_app. right. left. }
    apply elem_of_seqZ in Hi. eexists. split; [apply vset_is_Some; lia|].
    assert (v.[i <- free] = Some (<[Z.to_nat i := free]> v)) as E by (apply vset_is_Some; lia).
    split; [by rewrite (vset_len _ _ _ _ E)|]. intros p x. rewrite (vget_vset _ _ _ _ _ E).
    case_decide as Hip; [intros [= <-]; by left|]. intros Hp. destruct (Hall p x Hp) as [|[? ?]]; [by left|right].
    split; [done|]. rewrite elem_of_snoc. naive_solver.
  - exists vec'. split_and!; [done..|]. intros p x Hp. destruct (Hall p x Hp) as [|[Hx Hn]]; [done|].
    destruct (decide (x = free)) as [|Hne]; [done|]. destruct Hn. apply elem_of_seqZ. pose proof (Hout p x Hx Hne). lia.
Qed.
End window.

Section order_bags.
Context (dom : Z → Prop).
Implicit Types (D : gset Z) (s o : Z).

(** An order gives each state of [dom] a position of its own. *)
Definition positions (order : list Z) : Prop :=
  (∀ s, dom s → ∃ o, order.[s] = Some o ∧ 0 ≤ o < zlen order) ∧
  ∀ s t o, dom s → dom t → order.[s] = Some o → order.[t] = Some o → s = t.

Record top_bag (q : TopOrderQueue) D : Prop := {
  top_len : zlen (top_state q) = zlen (top_order q);
  top_positions : positions (top_order q);
  top_window : window kNoStateId (top_state q) (top_front q) (top_back q);
  top_dom : ∀ s, s ∈ D → dom s;
  top_in : ∀ s, s ∈ D → ∃ o, (top_order q).[s] = Some o ∧ (top_state q).[o] = Some s;
  top_only : ∀ s o, (top_state q).[o] = Some s → s ≠ kNoStateId → s ∈ D ∧ (top_order q).[s] = Some o;
}.

Lemma top_cleared order state error :
  zlen state = zlen order → positions order → (∀ o s, state.[o] = Some s → s = kNoStateId) →
  top_bag (MkTopQueue 0 kNoStateId order state error) ∅.
Proof using.
  intros Hl Hp Hn. split; simpl; [done|done|by apply window_none|set_solver|set_solver|].
  intros s o Hs Hne. by apply Hn in Hs.
Qed.

Lemma top_new order : positions order → top_bag (TopOrderQueue_new order) ∅.
Proof using.
  intros Hp. apply top_cleared; [by unfold zlen; rewrite length_replicate|done|].
  intros o s [_ [? _]%lookup_replicate]%vget_Some. done.
Qed.

Lemma top_full (q : TopOrderQueue) D : top_bag q D → D ≠ ∅ → top_front q ≤ top_back q.
Proof using.
  intros [_ _ [_ _ Hout _] Hdom Hin _] HD. apply set_choose_L in HD as [s Hs]. destruct (Hin s Hs) as (o & Ho & Hso).
  destruct (decide (s = kNoStateId)) as [->|Hne]; [|pose proof (Hout o s Hso Hne); lia].
  apply vget_range in Ho. unfold kNoStateId in Ho. lia.
Qed.

#[export] Program Instance top_order_bag W : BagLaws (Q:=TopOrderQueue) (W:=W) dom := {| bag := top_bag |}.
Next Obligation.
  intros W q D [Hl Hp Hw _ _ _]. simpl. unfold Top_Clear.
  destruct (window_clear kNoStateId _ _ _ Hw) as (state & -> & Hlen & Hn). eexists. split; [done|].
  apply top_cleared; [congruence|done|by intros o s; apply Hn].
Qed.
Next Obligation.
  intros W q D Hq. simpl. f_equal. destruct (decide (D = ∅)) as [->|HD].
  - rewrite bool_decide_eq_true_2 by done. apply (window_empty kNoStateId (top_state q)); [apply Hq|].
    intros o s Hs. destruct (decide (s = kNoStateId)) as [|Hne]; [done|]. by destruct (top_only _ _ Hq s o Hs Hne).
  - rewrite bool_decide_eq_false_2 by done. pose proof (top_full q D Hq HD). rewrite Z.gtb_ltb. by apply Z.ltb_ge.
Qed.
Next Obligation.
  intros W ds q D Hq HD. pose proof (top_full q D Hq HD) as Hle. destruct Hq as [Hl Hp Hw Hdom Hin Honly]. simpl.
  destruct (window_front _ _ _ _ Hw Hle) as (s & Hs & Hne). destruct (Honly s _ Hs Hne) as [HsD Ho].
  unfold Top_Dequeue. assert (∃ state, (top_state q).[top_front q <- kNoStateId] = Some state) as [state Hset].
  { eexists. apply vset_is_Some. by eapply vget_range. }
  destruct (window_dequeue kNoStateId _ _ _ _ Hw Hle Hset) as (front & Hskip & Hw').
  exists q, s. eexists. rewrite Hs, Hset. cbn [mbind option_bind]. rewrite Hskip. cbn [mbind option_bind].
  split_and!; [done..|]. split; simpl.
  - by rewrite (vset_len _ _ _ _ Hset).
  - done.
  - done.
  - intros t [Ht _]%elem_of_difference. by apply Hdom.
  - intros t [Ht Hts]%elem_of_difference. destruct (Hin t Ht) as (o & Hto & Hst). exists o. split; [done|].
    rewrite (vget_vset_ne _ _ _ _ _ Hset); [done|]. intros <-. rewrite Hs in Hst. set_solver.
  - intros t o. rewrite (vget_vset _ _ _ _ _ Hset). case_decide as E; [by intros [= <-]|].
    intros Ht Hn. destruct (Honly t o Ht Hn) as [? ?]. split; [|done]. apply elem_of_difference. split; [done|].
    intros ->%elem_of_singleton. congruence.
Qed.
Next Obligation.
  intros W ds q D s [Hl Hp Hw Hdom Hin Honly] HsD Hs. simpl. unfold Top_Enqueue.
  destruct (proj1 Hp s Hs) as (o & Ho & Hr). rewrite Ho. cbn [mbind option_bind].
  assert (∃ state, (top_state q).[o <- s] = Some state) as [state Hset].
  { eexists. apply vset_is_Some. by rewrite Hl. }
  assert (s ≠ kNoStateId) as Hne by (apply vget_range in Ho; unfold kNoStateId; lia).
  pose proof (window_enqueue kNoStateId _ _ _ _ _ _ Hw Hne Hset) as Hw'.
  destruct (widen _ _ o) as [front back]. rewrite Hset. eexists. split; [done|]. split; simpl.
  - by rewrite (vset_len _ _ _ _ Hset).
  - done.
  - done.
  - intros t [->%elem_of_singleton|Ht]%elem_of_union; [done|by apply Hdom].
  - intros t [->%elem_of_singleton|Ht]%elem_of_union; [exists o; split; [done|by eapply vget_vset_eq]|].
    destruct (Hin t Ht) as (p & Hp' & Htp). exists p. split; [done|]. rewrite (vget_vset_ne _ _ _ _ _ Hset); [done|].
    intros <-. apply HsD. by rewrite (proj2 Hp s t o Hs (Hdom t Ht) Ho Hp').
  - intros t p. rewrite (vget_vset _ _ _ _ _ Hset). case_decide; [intros [= <-]; subst; set_solver|].
    intros Ht Hn. destruct (Honly t p Ht Hn). set_solver.
Qed.
Next Obligation. intros W ds q D s Hq _. by exists q. Qed.

Record state_bag (q : StateOrderQueue) D : Prop := {
  state_window : window false (state_enqueued q) (state_front q) (state_back q);
  state_in : ∀ s, s ∈ D ↔ (state_enqueued q).[s] = Some true;
}.

Lemma state_cleared enqueued : (∀ s b, enqueued.[s] = Some b → b = false) → state_bag (MkStateQueue 0 kNoStateId enqueued) ∅.
Proof using. intros Hn. split; simpl; [by apply window_none|]. intros s. split; [set_solver|by intros ?%Hn]. Qed.

Lemma state_new : state_bag StateOrderQueue_new ∅.
Proof using. apply state_cleared. intros s b Hs%vget_range. change (zlen (@nil bool)) with 0 in Hs. lia. Qed.

#[export] Program Instance state_order_bag W `{!NonnegDom dom} : BagLaws (Q:=StateOrderQueue) (W:=W) dom := {| bag := state_bag |}.
Next Obligation.
  intros W ? q D [Hw _]. simpl. unfold State_Clear.
  destruct (window_clear false _ _ _ Hw) as (enqueued & -> & _ & Hn). eexists. split; [done|]. by apply state_cleared.
Qed.
Next Obligation.
  intros W ? q D [Hw Hin]. simpl. f_equal. apply eq_bool_prop_intro. rewrite !Is_true_true, bool_decide_eq_true.
  rewrite (window_empty false _ _ _ Hw). split.
  - intros Hn. apply set_eq. intros s. split; [|set_solver]. intros Hs%Hin. by apply Hn in Hs.
  - intros -> p [] Hp; [|done]. apply Hin in Hp. set_solver.
Qed.
Next Obligation.
  intros W ? ds q D [Hw Hin] HD. simpl. apply set_choose_L in HD as [t Ht]. apply Hin in Ht.
  pose proof (window_out _ _ _ _ Hw _ _ Ht) as Hr. destruct (window_front _ _ _ _ Hw) as (b & Hb & Hne); [naive_solver lia|].
  destruct b; [|done]. unfold State_Dequeue.
  assert (∃ enqueued, (state_enqueued q).[state_front q <- false] = Some enqueued) as [enqueued Hset].
  { eexists. apply vset_is_Some. by eapply vget_range. }
  destruct (window_dequeue false _ _ _ _ Hw ltac:(naive_solver lia) Hset) as (front & Hskip & Hw').
  exists q, (state_front q). eexists. rewrite Hset. cbn [mbind option_bind]. rewrite Hskip. cbn [mbind option_bind].
  split_and!; [done|done|by apply Hin|]. split; simpl; [done|].
  intros s. rewrite (vget_vset _ _ _ _ _ Hset), elem_of_difference, elem_of_singleton, Hin. case_decide; naive_solver.
Qed.
Next Obligation.
  intros W ? ds q D s [Hw Hin] HsD Hs%dom_nonneg. simpl. unfold State_Enqueue.
  assert (∃ enqueued, (vextend s false (state_enqueued q)).[s <- true] = Some enqueued) as [enqueued Hset].
  { eexists. apply vset_is_Some. rewrite vextend_len. pose proof (zlen_nonneg (state_enqueued q)). lia. }
  assert (true ≠ false) as Htf by done.
  pose proof (window_enqueue false _ _ _ _ _ _ (window_extend _ _ _ _ s Hw) Htf Hset) as Hw'.
  destruct (widen _ _ s) as [front back]. rewrite Hset. eexists. split; [done|]. split; simpl; [done|].
  intros t. rewrite (vget_vset _ _ _ _ _ Hset), elem_of_union, elem_of_singleton, Hin, vextend_get.
  case_decide as E1; [naive_solver|]. case_decide as E2; [|naive_solver]. split; [|done]. intros [?|Ht]; [done|].
  apply vget_range in Ht. lia.
Qed.
Next Obligation. intros W ? ds q D s Hq _. by exists q. Qed.
End order_bags.
