(* ===== verification/AutoQueue.v ===== *)
(** The queue over strongly connected components and the automatic choice of a
queue for a machine (openfst/lib/queue.h).  Proved here: both are queues in the
sense of the interface, provided that states are enqueued along the arcs, and
the automatic choice ends with a queue that fits the machine. *)
From S2P Require Import Prelude Weight FloatWeight Properties Fst Mutation Heap Dfs Scc StateSort TopSort Queue.
Local Open Scope Z_scope.

(** * The queue over components *)

Section scc_queue.
Context {W Q : Type} `{StateQueue W Q}.

(** A component without a queue of its own has one state, kept in
[trivial_queue]. *)

(* queue.h:630-635 SccQueue *)
Record SccQueue := MkScc {
  queue_ : list (option Q); scc_numbers : list Z; scc_front : Z; scc_back : Z; scc_trivial : list Z }.

Implicit Types (q : SccQueue) (ds : list W) (s c : Z).

(* queue.h:549-555 SccQueue *)
Definition SccQueue_new (scc : list Z) (queue : list (option Q)) : SccQueue := MkScc queue scc 0 kNoStateId [].

(** Nothing is left in component [c]. *)

(* queue.h:561-564 Head *)
Definition component_empty q c : option bool :=
  component ← (queue_ q).[c];
  match component with
  | Some component => Empty component
  | None => Some (match (scc_trivial q).[c] with Some s => s =? kNoStateId | None => true end)
  end.

(* queue.h:560-566 Head *)
Fixpoint skip_components (fuel : nat) q (front : Z) : option Z :=
  if front <=? scc_back q then
    empty ← component_empty q front;
    if empty : bool then
      match fuel with O => None | S fuel => skip_components fuel q (front + 1) end
    else Some front
  else Some front.

(* queue.h:559-572 Head *)
Definition Scc_Head ds q : option (SccQueue * Z) :=
  front ← skip_components (S (length (queue_ q))) q (scc_front q);
  component ← (queue_ q).[front];
  match component with
  | Some component =>
      '(component, s) ← Head ds component;
      queue ← (queue_ q).[front <- Some component];
      Some (MkScc queue (scc_numbers q) front (scc_back q) (scc_trivial q), s)
  | None =>
      s ← (scc_trivial q).[front];
      Some (MkScc (queue_ q) (scc_numbers q) front (scc_back q) (scc_trivial q), s)
  end.

(* queue.h:574-590 Enqueue *)
Definition Scc_Enqueue ds q s : option SccQueue :=
  c ← (scc_numbers q).[s];
  let '(front, back) := widen (scc_front q) (scc_back q) c in
  component ← (queue_ q).[c];
  match component with
  | Some component =>
      component ← Enqueue ds component s;
      queue ← (queue_ q).[c <- Some component];
      Some (MkScc queue (scc_numbers q) front back (scc_trivial q))
  | None =>
      trivial ← (vextend c kNoStateId (scc_trivial q)).[c <- s];
      Some (MkScc (queue_ q) (scc_numbers q) front back trivial)
  end.

(* queue.h:592-598 Dequeue *)
Definition Scc_Dequeue ds q : option SccQueue :=
  component ← (queue_ q).[scc_front q];
  match component with
  | Some component =>
      component ← Dequeue ds component;
      queue ← (queue_ q).[scc_front q <- Some component];
      Some (MkScc queue (scc_numbers q) (scc_front q) (scc_back q) (scc_trivial q))
  | None =>
      if scc_front q <? zlen (scc_trivial q) then
        trivial ← (scc_trivial q).[scc_front q <- kNoStateId];
        Some (MkScc (queue_ q) (scc_numbers q) (scc_front q) (scc_back q) trivial)
      else Some q
  end.

(* queue.h:600-602 Update *)
Definition Scc_Update ds q s : option SccQueue :=
  c ← (scc_numbers q).[s];
  component ← (queue_ q).[c];
  match component with
  | Some component =>
      component ← Update ds component s;
      queue ← (queue_ q).[c <- Some component];
      Some (MkScc queue (scc_numbers q) (scc_front q) (scc_back q) (scc_trivial q))
  | None => Some q
  end.

(* queue.h:604-616 Empty *)
Definition Scc_Empty q : option bool :=
  if scc_front q <? scc_back q then Some false
  else if scc_front q >? scc_back q then Some true
  else component_empty q (scc_front q).

(* queue.h:619-625 Clear *)
Definition clear_component q (i : Z) : option SccQueue :=
  component ← (queue_ q).[i];
  match component with
  | Some component =>
      component ← Clear component;
      queue ← (queue_ q).[i <- Some component];
      Some (MkScc queue (scc_numbers q) (scc_front q) (scc_back q) (scc_trivial q))
  | None =>
      if i <? zlen (scc_trivial q) then
        trivial ← (scc_trivial q).[i <- kNoStateId];
        Some (MkScc (queue_ q) (scc_numbers q) (scc_front q) (scc_back q) trivial)
      else Some q
  end.

(* queue.h:618-628 Clear *)
Definition Scc_Clear q : option SccQueue :=
  q ← foldM clear_component (seqZ (scc_front q) (scc_back q - scc_front q + 1)) q;
  Some (MkScc (queue_ q) (scc_numbers q) 0 kNoStateId (scc_trivial q)).

(* queue.h:542-636 SccQueue *)
#[export] Instance scc_queue : StateQueue W SccQueue := {|
  Head := Scc_Head;
  Enqueue := Scc_Enqueue;
  Dequeue := Scc_Dequeue;
  Update := Scc_Update;
  Empty := Scc_Empty;
  Clear := Scc_Clear;
|}.
End scc_queue.
Arguments SccQueue : clear implicits.
Arguments MkScc {_} _ _ _ _ _.

(** * The automatic choice *)

(** The queues that the choice is made from. *)

(* queue.h:766-767 queue_ *)
Inductive BaseQueue :=
  | QFifo (q : FifoQueue) | QLifo (q : LifoQueue) | QShortest (q : ShortestFirstQueue)
  | QTopOrder (q : TopOrderQueue) | QStateOrder (q : StateOrderQueue).

(* queue.h:766-769 AutoQueue *)
Inductive AutoQueue := AutoBase (q : BaseQueue) | AutoScc (q : SccQueue BaseQueue).

Section auto_queue.
Context `{WeightOps W}.

(** Shortest-first queues in the components do not reorder on updates. *)
#[local] Instance base_shortest : StateQueue W ShortestFirstQueue := shortest_first_queue NaturalLess false.

(* queue.h:110-115 QueueBase *)
#[export] Instance base_queue : StateQueue W BaseQueue := {|
  Head := λ ds q, match q with
    | QFifo q => '(q, s) ← Head ds q; Some (QFifo q, s)
    | QLifo q => '(q, s) ← Head ds q; Some (QLifo q, s)
    | QShortest q => '(q, s) ← Head ds q; Some (QShortest q, s)
    | QTopOrder q => '(q, s) ← Head ds q; Some (QTopOrder q, s)
    | QStateOrder q => '(q, s) ← Head ds q; Some (QStateOrder q, s) end;
  Enqueue := λ ds q s, match q with
    | QFifo q => QFifo <$> Enqueue ds q s | QLifo q => QLifo <$> Enqueue ds q s
    | QShortest q => QShortest <$> Enqueue ds q s | QTopOrder q => QTopOrder <$> Enqueue ds q s
    | QStateOrder q => QStateOrder <$> Enqueue ds q s end;
  Dequeue := λ ds q, match q with
    | QFifo q => QFifo <$> Dequeue ds q | QLifo q => QLifo <$> Dequeue ds q
    | QShortest q => QShortest <$> Dequeue ds q | QTopOrder q => QTopOrder <$> Dequeue ds q
    | QStateOrder q => QStateOrder <$> Dequeue ds q end;
  Update := λ ds q s, match q with
    | QFifo q => QFifo <$> Update ds q s | QLifo q => QLifo <$> Update ds q s
    | QShortest q => QShortest <$> Update ds q s | QTopOrder q => QTopOrder <$> Update ds q s
    | QStateOrder q => QStateOrder <$> Update ds q s end;
  Empty := λ q, match q with
    | QFifo q => Empty (W:=W) q | QLifo q => Empty (W:=W) q | QShortest q => Empty (W:=W) q
    | QTopOrder q => Empty (W:=W) q | QStateOrder q => Empty (W:=W) q end;
  Clear := λ q, match q with
    | QFifo q => QFifo <$> Clear (W:=W) q | QLifo q => QLifo <$> Clear (W:=W) q
    | QShortest q => QShortest <$> Clear (W:=W) q | QTopOrder q => QTopOrder <$> Clear (W:=W) q
    | QStateOrder q => QStateOrder <$> Clear (W:=W) q end;
|}.

(* queue.h:746-756 Head *)
#[export] Instance auto_queue : StateQueue W AutoQueue := {|
  Head := λ ds q, match q with
    | AutoBase q => '(q, s) ← Head ds q; Some (AutoBase q, s)
    | AutoScc q => '(q, s) ← Head ds q; Some (AutoScc q, s) end;
  Enqueue := λ ds q s, match q with
    | AutoBase q => AutoBase <$> Enqueue ds q s | AutoScc q => AutoScc <$> Enqueue ds q s end;
  Dequeue := λ ds q, match q with
    | AutoBase q => AutoBase <$> Dequeue ds q | AutoScc q => AutoScc <$> Dequeue ds q end;
  Update := λ ds q s, match q with
    | AutoBase q => AutoBase <$> Update ds q s | AutoScc q => AutoScc <$> Update ds q s end;
  Empty := λ q, match q with
    | AutoBase q => Empty (W:=W) q | AutoScc q => Empty (W:=W) q end;
  Clear := λ q, match q with
    | AutoBase q => AutoBase <$> Clear (W:=W) q | AutoScc q => AutoScc <$> Clear (W:=W) q end;
|}.
End auto_queue.

Section choice.
Context `{WeightOps W}.
(** [Weight::Properties()]. *)
Context (wprops : Z).
Implicit Types (fst : Fst W) (arc : Arc W).

(* weight.h:155-156 IsIdempotent *)
Definition IsIdempotent : bool := has wprops kIdempotent.
(* weight.h:158-159 IsPath *)
Definition IsPath : bool := has wprops kPath.

(** A weight that is neither [Zero] nor [One], or a semiring where sums with
those change. *)

(* queue.h:804-805 SccQueueType *)
Definition weighted_arc arc : bool := negb IsIdempotent || (wneqb (weight arc) Zero && wneqb (weight arc) One).

(** The type of a component's queue after one more of its arcs. *)

(* queue.h:799-810 SccQueueType *)
Definition component_type (less : bool) (type : QueueType) arc : QueueType :=
  if negb IsPath then FIFO_QUEUE
  else if negb less || NaturalLess (weight arc) One then FIFO_QUEUE
  else match type with
    | TRIVIAL_QUEUE | LIFO_QUEUE => if weighted_arc arc then SHORTEST_FIRST_QUEUE else LIFO_QUEUE
    | _ => type end.

(* queue.h:795-816 SccQueueType *)
Definition scan_type_arc (less : bool) (scc : list Z) (filter : Arc W → bool) (state : Z)
    (acc : list QueueType * bool * bool) arc : option (list QueueType * bool * bool) :=
  let '(queue_type, all_trivial, unweighted) := acc in
  if negb (filter arc) then Some acc else
  c ← scc.[state];
  d ← scc.[nextstate arc];
  '(queue_type, all_trivial) ←
    (if c =? d then
       type ← queue_type.[c];
       let type := component_type less type arc in
       queue_type ← queue_type.[c <- type];
       Some (queue_type, if decide (type = TRIVIAL_QUEUE) then all_trivial else false)
     else Some (queue_type, all_trivial));
  Some (queue_type, all_trivial, if weighted_arc arc then false else unweighted).

(* queue.h:778-819 SccQueueType *)
Definition SccQueueType (less : bool) fst (scc : list Z) (nscc : Z) (filter : Arc W → bool) :
    option (list QueueType * bool * bool) :=
  foldM (λ acc state, foldM (scan_type_arc less scc filter state) (Arcs fst state) acc)
    (seqZ 0 (NumStates fst)) (replicate (Z.to_nat nscc) TRIVIAL_QUEUE, true, true).

(* queue.h:706-738 AutoQueue *)
Definition component_queue (type : QueueType) : option BaseQueue :=
  match type with
  | TRIVIAL_QUEUE => None
  | SHORTEST_FIRST_QUEUE => if IsPath then Some (QShortest ShortestFirstQueue_new) else None
  | LIFO_QUEUE => Some (QLifo (MkLifo []))
  | _ => Some (QFifo (MkFifo []))
  end.

(** [acyclic0] is what the uninitialised local holds, and [error_] is set if the
machine is not acyclic. *)

(* queue.h:430-445 TopOrderQueue *)
Definition TopOrderQueue_visit (acyclic0 : bool) fst (filter : Arc W → bool) : option TopOrderQueue :=
  v ← DfsVisit fst top_order_visitor filter (Some (NumStates fst)) false (MkTop [] acyclic0 []);
  let order := order_ v in
  Some (MkTopQueue 0 kNoStateId order (replicate (length order) kNoStateId) (negb (acyclic_ v))).

(** [distance] is whether a distance vector was given; [properties0] and
[acyclic0] are what uninitialised locals hold. *)

(* queue.h:648-742 AutoQueue *)
Definition AutoQueue_new (properties0 : Z) (acyclic0 : bool) fst (distance : bool) (filter : Arc W → bool) : option AutoQueue :=
  let props := FstProperties fst &&& (kAcyclic ||| kCyclic ||| kTopSorted ||| kUnweighted) in
  if has props kTopSorted || (Start fst =? kNoStateId) then
    Some (AutoBase (QStateOrder StateOrderQueue_new))
  else if has props kAcyclic then
    q ← TopOrderQueue_visit acyclic0 fst filter;
    Some (AutoBase (QTopOrder q))
  else if has props kUnweighted && IsIdempotent then
    Some (AutoBase (QLifo (MkLifo [])))
  else
    v ← DfsVisit fst scc_visitor filter (Some (NumStates fst)) false (SccVisitor_new (Some []) None [] properties0 fst);
    scc ← scc_ v;
    last ← max_element scc;
    let nscc := last + 1 in
    let less := IsPath && distance in
    '(queue_types, all_trivial, unweighted) ← SccQueueType less fst scc nscc filter;
    if unweighted : bool then Some (AutoBase (QLifo (MkLifo [])))
    else if all_trivial : bool then Some (AutoBase (QTopOrder (TopOrderQueue_new scc)))
    else Some (AutoScc (SccQueue_new scc (component_queue <$> queue_types))).
End choice.

(** * The specification *)

(** A bag that is filled along a relation: after the state [u] came out, the
states that go in are related to it, and a queue that was cleared gets one state
first. *)
Class QueueLaws {W Q} `{StateQueue W Q} (dom : Z → Prop) (R : relation Z) := {
  holds : Q → option Z → gset Z → Prop;
  queue_clear : ∀ q h D, holds q h D → ∃ q', Clear q = Some q' ∧ holds q' None ∅;
  queue_empty : ∀ q h D, holds q h D → Empty q = Some (bool_decide (D = ∅));
  queue_pop : ∀ ds q h D, holds q h D → D ≠ ∅ →
    ∃ q1 s q2, Head ds q = Some (q1, s) ∧ Dequeue ds q1 = Some q2 ∧ s ∈ D ∧ holds q2 (Some s) (D ∖ {[s]});
  queue_enqueue : ∀ ds q h D s, holds q h D → s ∉ D → dom s →
    (match h with None => D = ∅ | Some u => R u s end) →
    ∃ q', Enqueue ds q s = Some q' ∧ holds q' h ({[s]} ∪ D);
  queue_update : ∀ ds q h D s, holds q h D → s ∈ D → ∃ q', Update ds q s = Some q' ∧ holds q' h D;
}.

(** A bag can be filled in any order. *)
Section from_bag.
Context {W Q : Type} `{!StateQueue W Q} (dom : Z → Prop) `{!BagLaws (W:=W) (Q:=Q) dom} (R : relation Z).

#[local] Program Instance bag_queue : QueueLaws (Q:=Q) (W:=W) dom R := {| holds := λ q _, bag q |}.
Next Obligation. intros q h D. apply bag_clear. Qed.
Next Obligation. intros q h D. apply bag_empty. Qed.
Next Obligation. intros ds q h D. apply bag_pop. Qed.
Next Obligation. intros ds q h D s Hq Hs Hd _. by apply bag_enqueue. Qed.
Next Obligation. intros ds q h D s. apply bag_update. Qed.
End from_bag.

(** ** The queues of the automatic choice *)

Section base_laws.
Context `{WeightOps W} (dom : Z → Prop) `{!NonnegDom dom}.

Definition base_bag (q : BaseQueue) (D : gset Z) : Prop :=
  match q with
  | QFifo q => listed (fifo_queue_ q) D
  | QLifo q => listed (stack_ q) D
  | QShortest q => shortest_bag false q D
  | QTopOrder q => top_bag dom q D
  | QStateOrder q => state_bag q D
  end.

#[local] Existing Instance base_shortest.
#[local] Instance base_shortest_bag : BagLaws (Q:=ShortestFirstQueue) (W:=W) dom := shortest_first_bag NaturalLess false dom.

(** The bag of the queue that is inside. *)
Ltac inner q Hq :=
  destruct q as [q|q|q|q|q];
  match type of Hq with base_bag _ ?D => assert (bag (W:=W) (dom:=dom) q D) as Hb by exact Hq end; clear Hq.

(** A result [E] of the queue inside is the result of the whole. *)
Ltac outer E :=
  first [exact (f_equal (fmap (M:=option) QFifo) E)|exact (f_equal (fmap (M:=option) QLifo) E)
        |exact (f_equal (fmap (M:=option) QShortest) E)|exact (f_equal (fmap (M:=option) QTopOrder) E)
        |exact (f_equal (fmap (M:=option) QStateOrder) E)].
Ltac outer_head E :=
  match type of E with _ = Some (?q1, ?s) =>
    first [exact (f_equal (λ r, '(q, s) ← r; Some (QFifo q, s)) E)|exact (f_equal (λ r, '(q, s) ← r; Some (QLifo q, s)) E)
          |exact (f_equal (λ r, '(q, s) ← r; Some (QShortest q, s)) E)|exact (f_equal (λ r, '(q, s) ← r; Some (QTopOrder q, s)) E)
          |exact (f_equal (λ r, '(q, s) ← r; Some (QStateOrder q, s)) E)] end.

#[export] Program Instance base_queue_bag : BagLaws (Q:=BaseQueue) (W:=W) dom := {| bag := base_bag |}.
Next Obligation.
  intros q D Hq. inner q Hq; destruct (bag_clear q D Hb) as (q' & E & Hq'); (eexists; split; [outer E|exact Hq']).
Qed.
Next Obligation. intros q D Hq. inner q Hq; exact (bag_empty q D Hb). Qed.
Next Obligation.
  intros ds q D Hq HD. inner q Hq; destruct (bag_pop ds q D Hb HD) as (q1 & s & q2 & E1 & E2 & ? & Hq2);
    (eexists _, s, _; split_and!; [outer_head E1|outer E2|done|exact Hq2]).
Qed.
Next Obligation.
  intros ds q D s Hq Hs Hd. inner q Hq; destruct (bag_enqueue ds q D s Hb Hs Hd) as (q' & E & Hq');
    (eexists; split; [outer E|exact Hq']).
Qed.
Next Obligation.
  intros ds q D s Hq Hs. inner q Hq; destruct (bag_update ds q D s Hb Hs) as (q' & E & Hq');
    (eexists; split; [outer E|exact Hq']).
Qed.
End base_laws.

(** ** The queue over components *)

Section scc_laws.
Context {W Q : Type} `{!StateQueue W Q} (dom : Z → Prop) `{!NonnegDom dom} `{!BagLaws (W:=W) (Q:=Q) dom} (R : relation Z).
Implicit Types (q : SccQueue Q) (D : gset Z) (s t c d : Z).

(** The states of component [c]. *)
Definition part q c D : gset Z := filter (λ s, (scc_numbers q).[s] = Some c) D.

Lemma part_in q c D s : s ∈ part q c D ↔ (scc_numbers q).[s] = Some c ∧ s ∈ D.
Proof using. unfold part. by rewrite elem_of_filter. Qed.

(** What is where. *)
Record contents q D : Prop := {
  contents_dom : ∀ s, s ∈ D → dom s;
  contents_known : ∀ s, dom s → ∃ c, (scc_numbers q).[s] = Some c ∧ 0 ≤ c < zlen (queue_ q);
  contents_single : ∀ c s t, (queue_ q).[c] = Some None → dom s → dom t →
    (scc_numbers q).[s] = Some c → (scc_numbers q).[t] = Some c → s = t;
  contents_bag : ∀ c component, (queue_ q).[c] = Some (Some component) → bag component (part q c D);
  contents_trivial : ∀ c s, (queue_ q).[c] = Some None → s ≠ kNoStateId →
    (scc_trivial q).[c] = Some s ↔ s ∈ part q c D;
}.

(** The two pointers: everything is between them, and the back component is not
empty unless it is the front too. *)
Record pointers q (h : option Z) D : Prop := {
  pointers_low : 0 ≤ scc_front q;
  pointers_high : scc_back q < zlen (queue_ q);
  pointers_range : ∀ s c, s ∈ part q c D → scc_front q ≤ c ≤ scc_back q;
  pointers_back : scc_front q < scc_back q → part q (scc_back q) D ≠ ∅;
  pointers_last : match h with
    | None => D = ∅ → scc_back q < scc_front q
    | Some u => scc_front q ≤ scc_back q ∧ (scc_numbers q).[u] = Some (scc_front q) end;
}.

Record scc_holds q h D : Prop := {
  scc_contents : contents q D;
  scc_pointers : pointers q h D;
  scc_along : ∀ u s c d, R u s → (scc_numbers q).[u] = Some c → (scc_numbers q).[s] = Some d → c ≤ d;
}.

(** One component changed. *)
Lemma contents_change q q' D D' c :
  contents q D → scc_numbers q' = scc_numbers q → zlen (queue_ q') = zlen (queue_ q) →
  (∀ s, s ∈ D' → dom s) → (∀ d, d ≠ c → part q d D' = part q d D) →
  (∀ d, d ≠ c → (queue_ q').[d] = (queue_ q).[d]) → ((queue_ q').[c] = Some None → (queue_ q).[c] = Some None) →
  (∀ d s, d ≠ c → s ≠ kNoStateId → (scc_trivial q').[d] = Some s ↔ (scc_trivial q).[d] = Some s) →
  (∀ component, (queue_ q').[c] = Some (Some component) → bag component (part q c D')) →
  (∀ s, (queue_ q').[c] = Some None → s ≠ kNoStateId → (scc_trivial q').[c] = Some s ↔ s ∈ part q c D') →
  contents q' D'.
Proof using.
  intros [Hdom Hknown Hsingle Hbag Htriv] Hnum Hlen Hdom' Hpart Hqueue Hnone Htrivial Hc Hc'.
  assert (∀ d D, part q' d D = part q d D) as Hp by (intros d E; unfold part; by rewrite Hnum).
  split.
  - done.
  - intros s. rewrite Hnum, Hlen. apply Hknown.
  - intros d s t Hd. rewrite Hnum. apply Hsingle. destruct (decide (d = c)) as [->|]; [by apply Hnone|by rewrite <-Hqueue].
  - intros d component. rewrite Hp. destruct (decide (d = c)) as [->|]; [apply Hc|]. rewrite Hqueue, Hpart by done. apply Hbag.
  - intros d s. rewrite Hp. destruct (decide (d = c)) as [->|]; [apply Hc'|]. rewrite Hqueue, Hpart by done.
    intros Hd Hs. rewrite Htrivial by done. by apply Htriv.
Qed.

(** A change in a component with a queue of its own. *)
Lemma contents_component q D D' c component component' queue front back :
  contents q D → (queue_ q).[c] = Some (Some component) → (queue_ q).[c <- Some component'] = Some queue →
  (∀ s, s ∈ D' → dom s) → (∀ d, d ≠ c → part q d D' = part q d D) → bag component' (part q c D') →
  contents (MkScc queue (scc_numbers q) front back (scc_trivial q)) D'.
Proof using.
  intros Hq Hc Hset Hdom Hpart Hbag. pose proof (vget_vset_eq _ _ _ _ Hset) as Hc'.
  apply (contents_change q _ D D' c); simpl; try done.
  - by rewrite (vset_len _ _ _ _ Hset).
  - intros d Hd. by rewrite (vget_vset_ne _ _ _ _ _ Hset).
  - congruence.
  - intros k. rewrite Hc'. by intros [= <-].
  - intros s. by rewrite Hc'.
Qed.

(** A change in a component of one state. *)
Lemma contents_single_state q D D' c trivial front back :
  contents q D → (queue_ q).[c] = Some None →
  (∀ d s, d ≠ c → s ≠ kNoStateId → trivial.[d] = Some s ↔ (scc_trivial q).[d] = Some s) →
  (∀ s, s ∈ D' → dom s) → (∀ d, d ≠ c → part q d D' = part q d D) →
  (∀ s, s ≠ kNoStateId → trivial.[c] = Some s ↔ s ∈ part q c D') →
  contents (MkScc (queue_ q) (scc_numbers q) front back trivial) D'.
Proof using.
  intros Hq Hc Htriv Hdom Hpart Hc'. apply (contents_change q _ D D' c); simpl; try done.
  - intros k. by rewrite Hc.
  - intros s _. apply Hc'.
Qed.

Lemma state_not_none s : dom s → s ≠ kNoStateId.
Proof using NonnegDom0. intros Hs%dom_nonneg ->. unfold kNoStateId in Hs. lia. Qed.

Lemma component_empty_spec q D c :
  contents q D → 0 ≤ c < zlen (queue_ q) → component_empty q c = Some (bool_decide (part q c D = ∅)).
Proof using NonnegDom0.
  intros Hq Hc. unfold component_empty. destruct (vget_in_range _ _ Hc) as [[component|] Hk]; rewrite Hk; cbn [mbind option_bind].
  - by apply bag_empty, (contents_bag _ _ Hq).
  - pose proof (λ s, contents_trivial _ _ Hq c s Hk) as Ht. f_equal.
    destruct (decide (part q c D = ∅)) as [E|E].
    + rewrite bool_decide_eq_true_2 by done. destruct ((scc_trivial q).[c]) as [s|] eqn:Hs; [|done].
      apply Z.eqb_eq. destruct (decide (s = kNoStateId)) as [|Hne]; [done|]. pose proof (proj1 (Ht s Hne) eq_refl). set_solver.
    + rewrite bool_decide_eq_false_2 by done. apply set_choose_L in E as [s Hs].
      assert (s ≠ kNoStateId) as Hne by (apply state_not_none, (contents_dom _ _ Hq); by apply part_in in Hs as [_ ?]).
      apply Ht in Hs; [|done]. rewrite Hs. by apply Z.eqb_neq.
Qed.

Lemma skip_components_spec fuel q D front :
  contents q D → D ≠ ∅ → 0 ≤ front → scc_back q < zlen (queue_ q) → scc_back q - front < Z.of_nat fuel →
  (∀ s c, s ∈ part q c D → front ≤ c ≤ scc_back q) →
  ∃ front', skip_components fuel q front = Some front' ∧ front ≤ front' ≤ scc_back q ∧ part q front' D ≠ ∅ ∧
    ∀ s c, s ∈ part q c D → front' ≤ c ≤ scc_back q.
Proof using NonnegDom0.
  intros Hq HD. assert (∃ s c, s ∈ part q c D) as (s0 & c0 & Hs0).
  { apply set_choose_L in HD as [s Hs]. destruct (contents_known _ _ Hq s) as (c & Hc & _); [by eapply contents_dom|].
    exists s, c. by apply part_in. }
  revert front. induction fuel as [|fuel IH]; intros front Hl Hh Hfuel Hr; pose proof (Hr _ _ Hs0); simpl;
    rewrite (proj2 (Z.leb_le _ _)) by lia; [lia|].
  rewrite (component_empty_spec q D) by (done || lia). cbn [mbind option_bind]. case_bool_decide as E.
  - destruct (IH (front + 1)) as (f & ? & ? & ? & ?); [lia|lia|lia| |exists f; split_and!; by auto with lia].
    intros s c Hs. pose proof (Hr s c Hs). assert (c ≠ front) by (intros ->; set_solver). lia.
  - exists front. split_and!; done || lia.
Qed.

Lemma part_add q D s c d : (scc_numbers q).[s] = Some c → d ≠ c → part q d ({[s]} ∪ D) = part q d D.
Proof using. intros Hs Hd. apply set_eq. intros t. rewrite !part_in, elem_of_union, elem_of_singleton. naive_solver. Qed.

Lemma part_remove q D s c d : (scc_numbers q).[s] = Some c → d ≠ c → part q d (D ∖ {[s]}) = part q d D.
Proof using. intros Hs Hd. apply set_eq. intros t. rewrite !part_in, elem_of_difference, elem_of_singleton. naive_solver. Qed.

Lemma part_add_self q D s c : (scc_numbers q).[s] = Some c → part q c ({[s]} ∪ D) = {[s]} ∪ part q c D.
Proof using. intros Hs. apply set_eq. intros t. rewrite elem_of_union, !part_in, elem_of_union, elem_of_singleton. naive_solver. Qed.

Lemma part_remove_self q D s c : part q c (D ∖ {[s]}) = part q c D ∖ {[s]}.
Proof using. apply set_eq. intros t. rewrite elem_of_difference, !part_in, elem_of_difference, elem_of_singleton. naive_solver. Qed.

Lemma widen_spec front back o f b : widen front back o = (f, b) →
  (back < front ∧ f = o ∧ b = o) ∨ (front ≤ back ∧ f = front `min` o ∧ b = back `max` o).
Proof using.
  unfold widen. rewrite !Z.gtb_ltb. intros E.
  destruct (Z.ltb_spec back front), (Z.ltb_spec back o), (Z.ltb_spec o front); simplify_eq; lia.
Qed.

(** The pointers after [s] went into component [c]. *)
Lemma pointers_enqueue q q' h D s c :
  pointers q h D → (scc_numbers q).[s] = Some c → 0 ≤ c < zlen (queue_ q) →
  match h with None => scc_back q < scc_front q | Some u => scc_front q ≤ scc_back q ∧ scc_front q ≤ c end →
  widen (scc_front q) (scc_back q) c = (scc_front q', scc_back q') → scc_numbers q' = scc_numbers q →
  zlen (queue_ q') = zlen (queue_ q) → pointers q' h ({[s]} ∪ D).
Proof using NonnegDom0.
  intros [Hlow Hhigh Hrange Hback Hl0] Hsc Hcr Hh Hw%widen_spec Hn Hl.
  assert (∀ d D, part q' d D = part q d D) as Hpq by (intros d E; unfold part; by rewrite Hn).
  assert (part q c ({[s]} ∪ D) ≠ ∅) as Hcne by (rewrite part_add_self by done; set_solver).
  split; rewrite ?Hn, ?Hl.
  - lia.
  - lia.
  - intros t d. rewrite Hpq. intros Ht. destruct (decide (d = c)) as [->|Hd]; [lia|].
    rewrite (part_add q D s c) in Ht by done. apply Hrange in Ht. lia.
  - rewrite Hpq. intros Hlt. destruct (decide (scc_back q' = c)) as [->|Hd]; [done|].
    rewrite (part_add q D s c) by done. destruct h as [u|]; [|lia].
    assert (scc_back q' = scc_back q) as -> by lia. apply Hback. lia.
  - destruct h as [u|]; [|set_solver]. destruct Hl0 as [? ->]. split; [lia|]. f_equal. lia.
Qed.

Lemma scc_enqueue_ok ds q h D s :
  scc_holds q h D → s ∉ D → dom s → (match h with None => D = ∅ | Some u => R u s end) →
  ∃ q', Scc_Enqueue ds q s = Some q' ∧ scc_holds q' h ({[s]} ∪ D).
Proof using NonnegDom0.
  intros [Hc Hp Ha] HsD Hs Hh. unfold Scc_Enqueue.
  destruct (contents_known _ _ Hc s Hs) as (c & Hsc & Hcr). rewrite Hsc. cbn [mbind option_bind].
  pose proof (contents_dom _ _ Hc) as Hdom.
  assert (∀ t, t ∈ {[s]} ∪ D → dom t) as Hdom' by (intros t [->%elem_of_singleton|Ht]%elem_of_union; auto).
  assert (∀ d, d ≠ c → part q d ({[s]} ∪ D) = part q d D) as Hpart by (intros d; by apply part_add).
  assert (match h with None => scc_back q < scc_front q | Some u => scc_front q ≤ scc_back q ∧ scc_front q ≤ c end) as Hlast.
  { pose proof (pointers_last _ _ _ Hp) as Hl. destruct h as [u|]; [|by apply Hl]. destruct Hl as [? Hu]. split; [done|].
    by eapply Ha. }
  destruct (widen _ _ c) as [front back] eqn:Hw.
  destruct (vget_in_range _ _ Hcr) as [[component|] Hk]; rewrite Hk; cbn [mbind option_bind].
  - destruct (bag_enqueue ds component (part q c D) s) as (component' & -> & Hb);
      [by eapply contents_bag|by rewrite part_in; naive_solver|done|]. cbn [mbind option_bind].
    assert (∃ queue, (queue_ q).[c <- Some component'] = Some queue) as [queue Hset] by (eexists; by apply vset_is_Some).
    rewrite Hset. eexists. split; [done|]. split; [|eapply (pointers_enqueue q _ h D s c); simpl; try done; by rewrite (vset_len _ _ _ _ Hset)|exact Ha].
    eapply contents_component; [done..|]. by rewrite part_add_self.
  - assert (∃ trivial, (vextend c kNoStateId (scc_trivial q)).[c <- s] = Some trivial) as [trivial Hset].
    { eexists. apply vset_is_Some. rewrite vextend_len. pose proof (zlen_nonneg (scc_trivial q)). lia. }
    rewrite Hset. eexists. split; [done|]. split; [|eapply (pointers_enqueue q _ h D s c); simpl; done|exact Ha].
    eapply contents_single_state; [done..| | |done|].
    + intros d t Hd Ht. rewrite (vget_vset_ne _ _ _ _ _ Hset), vextend_get by done. case_decide as Hr; [|done].
      split; [congruence|]. intros Hg%vget_range. lia.
    + done.
    + intros t Ht. rewrite (vget_vset_eq _ _ _ _ Hset), part_in. split.
      * intros [= <-]. split; [done|set_solver].
      * intros [Htc HtD]. f_equal. eapply (contents_single _ _ Hc c); [done|done|by apply Hdom'|done|done].
Qed.

(** What is left of a component when a state was taken out of it. *)
Lemma scc_pop_ok ds q h D :
  scc_holds q h D → D ≠ ∅ →
  ∃ q1 s q2, Scc_Head ds q = Some (q1, s) ∧ Scc_Dequeue ds q1 = Some q2 ∧ s ∈ D ∧ scc_holds q2 (Some s) (D ∖ {[s]}).
Proof using NonnegDom0.
  intros [Hc Hp Ha] HD. unfold Scc_Head. pose proof (contents_dom _ _ Hc) as Hdom.
  destruct (skip_components_spec (S (length (queue_ q))) q D (scc_front q)) as (front & -> & Hfr & Hne & Hrange);
    [done|done|apply Hp|apply Hp|pose proof (pointers_low _ _ _ Hp); pose proof (pointers_high _ _ _ Hp); unfold zlen in *; lia
    |apply Hp|]. cbn [mbind option_bind].
  pose proof (pointers_low _ _ _ Hp) as Hlow. pose proof (pointers_high _ _ _ Hp) as Hhigh.
  assert (∀ s q2, s ∈ part q front D → scc_numbers q2 = scc_numbers q → zlen (queue_ q2) = zlen (queue_ q) →
    scc_front q2 = front → scc_back q2 = scc_back q → pointers q2 (Some s) (D ∖ {[s]})) as Hptr.
  { intros s q2 [Hsf HsD]%part_in Hn Hl Hf Hb.
    assert (∀ d D, part q2 d D = part q d D) as Hpq by (intros d E; unfold part; by rewrite Hn).
    split; rewrite ?Hn, ?Hl, ?Hf, ?Hb; [lia|lia| | |split; [lia|done]].
    - intros t d. rewrite Hpq, part_in. intros [Htd [Ht _]%elem_of_difference]. apply (Hrange t d). by apply part_in.
    - intros Hlt. rewrite Hpq, (part_remove q D s front) by (done || lia). apply (pointers_back _ _ _ Hp). lia. }
  assert (∀ s d, (scc_numbers q).[s] = Some front → d ≠ front → part q d (D ∖ {[s]}) = part q d D) as Hpart
    by (intros s d Hs; by apply part_remove).
  assert (∀ s t, t ∈ D ∖ {[s]} → dom t) as Hdom' by (intros s t [Ht _]%elem_of_difference; auto).
  destruct (vget_in_range (queue_ q) front) as [[component|] Hk]; [lia| |]; rewrite Hk; cbn [mbind option_bind].
  - destruct (bag_pop ds component (part q front D)) as (component1 & s & component2 & -> & E2 & Hs & Hb2);
      [by eapply contents_bag|done|]. cbn [mbind option_bind].
    assert (∃ queue, (queue_ q).[front <- Some component1] = Some queue) as [queue Hset] by (eexists; apply vset_is_Some; lia).
    assert (∃ queue2, queue.[front <- Some component2] = Some queue2) as [queue2 Hset2].
    { eexists. apply vset_is_Some. rewrite (vset_len _ _ _ _ Hset). lia. }
    rewrite Hset. cbn [mbind option_bind]. eexists _, s, (MkScc queue2 (scc_numbers q) front (scc_back q) (scc_trivial q)).
    split_and!; [done| |by apply part_in in Hs as [_ ?]|].
    + unfold Scc_Dequeue. cbn [queue_ scc_front]. rewrite (vget_vset_eq _ _ _ _ Hset). cbn [mbind option_bind].
      rewrite E2. cbn [mbind option_bind]. by rewrite Hset2.
    + split; [|apply Hptr; simpl; try done; by rewrite (vset_len _ _ _ _ Hset2), (vset_len _ _ _ _ Hset)|exact Ha].
      apply part_in in Hs as [Hsf HsD].
      apply (contents_change q _ D _ front); simpl; try done; [|by apply Hdom'|intros d; by apply Hpart| | | |].
      * by rewrite (vset_len _ _ _ _ Hset2), (vset_len _ _ _ _ Hset).
      * intros d Hd. by rewrite (vget_vset_ne _ _ _ _ _ Hset2), (vget_vset_ne _ _ _ _ _ Hset).
      * by rewrite (vget_vset_eq _ _ _ _ Hset2).
      * intros k. rewrite (vget_vset_eq _ _ _ _ Hset2), part_remove_self. by intros [= <-].
      * intros t. by rewrite (vget_vset_eq _ _ _ _ Hset2).
  - apply set_choose_L in Hne as [s Hs]. pose proof Hs as [Hsf HsD]%part_in.
    assert (s ≠ kNoStateId) as Hns by by apply state_not_none, Hdom.
    pose proof (proj2 (contents_trivial _ _ Hc front s Hk Hns) Hs) as Ht. rewrite Ht. cbn [mbind option_bind].
    assert (∃ trivial, (scc_trivial q).[front <- kNoStateId] = Some trivial) as [trivial Hset].
    { eexists. apply vset_is_Some. by eapply vget_range. }
    eexists _, s, (MkScc (queue_ q) (scc_numbers q) front (scc_back q) trivial). split_and!; [done| |done|].
    + unfold Scc_Dequeue. cbn [queue_ scc_front scc_trivial]. rewrite Hk. cbn [mbind option_bind].
      rewrite (proj2 (Z.ltb_lt _ _)) by (apply vget_range in Ht; lia). by rewrite Hset.
    + split; [|by apply Hptr|exact Ha]. eapply contents_single_state; [done..| |by apply Hdom'|intros d; by apply Hpart|].
      * intros d t Hd _. by rewrite (vget_vset_ne _ _ _ _ _ Hset).
      * intros t Hnt. rewrite (vget_vset_eq _ _ _ _ Hset), part_in, elem_of_difference, elem_of_singleton.
        split; [congruence|]. intros (Htf & HtD & Hts). destruct Hts.
        eapply (contents_single _ _ Hc front); [done|by apply Hdom|by apply Hdom|done|done].
Qed.

Lemma scc_update_ok ds q h D s :
  scc_holds q h D → s ∈ D → ∃ q', Scc_Update ds q s = Some q' ∧ scc_holds q' h D.
Proof using.
  intros [Hc Hp Ha] HsD. unfold Scc_Update. pose proof (contents_dom _ _ Hc) as Hdom.
  destruct (contents_known _ _ Hc s (Hdom s HsD)) as (c & Hsc & Hcr). rewrite Hsc. cbn [mbind option_bind].
  destruct (vget_in_range _ _ Hcr) as [[component|] Hk]; rewrite Hk; cbn [mbind option_bind]; [|by exists q].
  destruct (bag_update ds component (part q c D) s) as (component' & -> & Hb);
    [by eapply contents_bag|by apply part_in|]. cbn [mbind option_bind].
  assert (∃ queue, (queue_ q).[c <- Some component'] = Some queue) as [queue Hset] by (eexists; by apply vset_is_Some).
  rewrite Hset. eexists. split; [done|]. split; [by eapply contents_component| |exact Ha].
  destruct Hp as [? ? ? ? ?]. split; simpl; try done. by rewrite (vset_len _ _ _ _ Hset).
Qed.

Lemma scc_empty_ok q h D : scc_holds q h D → Scc_Empty q = Some (bool_decide (D = ∅)).
Proof using NonnegDom0.
  intros [Hc Hp _]. unfold Scc_Empty. pose proof Hp as [Hlow Hhigh Hrange Hback _].
  assert (∀ s, s ∈ D → ∃ c, s ∈ part q c D ∧ scc_front q ≤ c ≤ scc_back q) as Hin.
  { intros s Hs. destruct (contents_known _ _ Hc s) as (c & Hsc & _); [by eapply contents_dom|].
    assert (s ∈ part q c D) by by apply part_in. exists c. eauto. }
  rewrite Z.gtb_ltb. destruct (Z.ltb_spec (scc_front q) (scc_back q)) as [Hlt|Hge].
  - rewrite bool_decide_eq_false_2; [done|]. intros ->. apply (Hback Hlt). by apply set_eq; intros t; rewrite part_in; set_solver.
  - destruct (Z.ltb_spec (scc_back q) (scc_front q)).
    + rewrite bool_decide_eq_true_2; [done|]. apply set_eq. intros s. split; [|set_solver].
      intros (c & _ & ?)%Hin. lia.
    + rewrite (component_empty_spec q D) by (done || lia). f_equal. apply bool_decide_ext. split; [|intros ->].
      * intros E. apply set_eq. intros s. split; [|set_solver]. intros (c & Hs & ?)%Hin.
        assert (c = scc_front q) as -> by lia. set_solver.
      * apply set_eq. intros t. rewrite part_in. set_solver.
Qed.

Lemma scc_clear_ok q h D : scc_holds q h D → ∃ q', Scc_Clear q = Some q' ∧ scc_holds q' None ∅.
Proof using NonnegDom0.
  intros [Hc Hp Ha]. unfold Scc_Clear. pose proof Hp as [Hlow Hhigh Hrange _ _].
  set (range := seqZ (scc_front q) (scc_back q - scc_front q + 1)).
  destruct (foldM_total clear_component (λ done q', scc_numbers q' = scc_numbers q ∧ zlen (queue_ q') = zlen (queue_ q) ∧
      contents q' (filter (λ s, default kNoStateId ((scc_numbers q).[s]) ∉ done) D)) range q) as (q' & -> & Hn & Hl & Hcon).
  - split_and!; [done..|]. replace (filter _ D) with D; [done|]. apply set_eq. intros s. rewrite elem_of_filter.
    split; [|naive_solver]. intros Hs. split; [|done]. apply not_elem_of_nil.
  - intros done c todo q1 Hr (Hn & Hl & Hcon). assert (c ∈ range) as Hcr by (rewrite Hr; apply elem_of_app; right; left).
    apply elem_of_seqZ in Hcr. set (D1 := filter _ D) in Hcon. set (D2 := filter _ D).
    assert (∀ d, d ≠ c → part q1 d D2 = part q1 d D1) as Hpart.
    { intros d Hd. apply set_eq. intros s. subst D1 D2. rewrite !part_in, !elem_of_filter, Hn, elem_of_snoc.
      split; intros [Hs [Hall ?]]; rewrite Hs in *; simpl in *; naive_solver. }
    assert (part q1 c D2 = ∅) as Hempty.
    { apply set_eq. intros s. split; [|set_solver]. subst D2. rewrite part_in, elem_of_filter, Hn. intros [Hs [Hall _]].
      rewrite Hs in Hall. destruct Hall. apply elem_of_snoc. by right. }
    assert (∀ s, s ∈ D2 → dom s) as Hdom' by (intros s [_ Hs]%elem_of_filter; by apply (contents_dom _ _ Hc)).
    unfold clear_component. destruct (vget_in_range (queue_ q1) c) as [[component|] Hk]; [lia| |]; rewrite Hk; cbn [mbind option_bind].
    + destruct (bag_clear component (part q1 c D1)) as (component' & -> & Hb); [by eapply contents_bag|]. cbn [mbind option_bind].
      assert (∃ queue, (queue_ q1).[c <- Some component'] = Some queue) as [queue Hset] by (eexists; apply vset_is_Some; lia).
      rewrite Hset. eexists. split; [done|]. split_and!; [done|simpl; by rewrite (vset_len _ _ _ _ Hset)|].
      eapply contents_component; [done..|]. by rewrite Hempty.
    + destruct (Z.ltb_spec c (zlen (scc_trivial q1))) as [Hlt|Hge].
      * assert (∃ trivial, (scc_trivial q1).[c <- kNoStateId] = Some trivial) as [trivial Hset] by (eexists; apply vset_is_Some; lia).
        rewrite Hset. eexists. split; [done|]. split_and!; [done|done|].
        eapply contents_single_state; [done..| |done|done|].
        -- intros d t Hd _. by rewrite (vget_vset_ne _ _ _ _ _ Hset).
        -- intros t Ht. rewrite (vget_vset_eq _ _ _ _ Hset), Hempty. set_solver.
      * exists q1. split; [done|]. split_and!; [done|done|].
        destruct q1 as [queue numbers front back trivial]. eapply (contents_single_state (MkScc queue numbers front back trivial));
          [done..|].
        intros t Ht. rewrite Hempty. split; [|set_solver]. intros Hg%vget_range. simpl in Hge. lia.
  - cbn [mbind option_bind]. eexists. split; [done|]. replace (filter _ D) with (∅ : gset Z) in Hcon.
    2:{ apply set_eq. intros s. rewrite elem_of_filter. split; [set_solver|]. intros [Hall Hs].
        destruct (contents_known _ _ Hc s) as (c & Hsc & _); [by apply (contents_dom _ _ Hc)|].
        rewrite Hsc in Hall. destruct Hall. apply elem_of_seqZ. assert (s ∈ part q c D) as Hsp by by apply part_in. apply Hrange in Hsp. simpl. lia. }
    split; [by destruct Hcon|split; simpl; unfold kNoStateId; try lia|simpl; rewrite Hn; apply Ha].
    + pose proof (zlen_nonneg (queue_ q')). lia.
    + intros s c [_ ?]%part_in. set_solver.
Qed.

#[export] Program Instance scc_queue_laws : QueueLaws (Q:=SccQueue Q) (W:=W) dom R := {| holds := scc_holds |}.
Next Obligation. intros q h D. apply scc_clear_ok. Qed.
Next Obligation. intros q h D. apply scc_empty_ok. Qed.
Next Obligation. intros ds q h D. apply scc_pop_ok. Qed.
Next Obligation. intros ds q h D s. apply scc_enqueue_ok. Qed.
Next Obligation. intros ds q h D s. apply scc_update_ok. Qed.
End scc_laws.

(** ** The chosen queue *)

Section auto_laws.
Context `{WeightOps W} (dom : Z → Prop) `{!NonnegDom dom} (R : relation Z).

Definition auto_holds (q : AutoQueue) (h : option Z) (D : gset Z) : Prop :=
  match q with AutoBase q => base_bag dom q D | AutoScc q => scc_holds dom R q h D end.

Ltac inner_auto q Hq :=
  destruct q as [q|q]; match type of Hq with auto_holds _ ?h ?D =>
    first [assert (bag (W:=W) (dom:=dom) q D) as Hb by exact Hq|assert (holds (W:=W) (dom:=dom) (R:=R) q h D) as Hb by exact Hq] end;
  clear Hq.

#[export] Program Instance auto_queue_laws : QueueLaws (Q:=AutoQueue) (W:=W) dom R := {| holds := auto_holds |}.
Next Obligation.
  intros q h D Hq. inner_auto q Hq.
  - destruct (bag_clear q D Hb) as (q' & E & ?). exists (AutoBase q'). split; [exact (f_equal (fmap AutoBase) E)|done].
  - destruct (queue_clear q h D Hb) as (q' & E & ?). exists (AutoScc q'). split; [exact (f_equal (fmap AutoScc) E)|done].
Qed.
Next Obligation.
  intros q h D Hq. inner_auto q Hq; [exact (bag_empty q D Hb)|exact (queue_empty q h D Hb)].
Qed.
Next Obligation.
  intros ds q h D Hq HD. inner_auto q Hq.
  - destruct (bag_pop ds q D Hb HD) as (q1 & s & q2 & E1 & E2 & ? & ?).
    exists (AutoBase q1), s, (AutoBase q2). split_and!; [|exact (f_equal (fmap AutoBase) E2)|done|done].
    exact (f_equal (λ r, '(q, s) ← r; Some (AutoBase q, s)) E1).
  - destruct (queue_pop ds q h D Hb HD) as (q1 & s & q2 & E1 & E2 & ? & ?).
    exists (AutoScc q1), s, (AutoScc q2). split_and!; [|exact (f_equal (fmap AutoScc) E2)|done|done].
    exact (f_equal (λ r, '(q, s) ← r; Some (AutoScc q, s)) E1).
Qed.
Next Obligation.
  intros ds q h D s Hq Hs Hd Hh. inner_auto q Hq.
  - destruct (bag_enqueue ds q D s Hb Hs Hd) as (q' & E & ?). exists (AutoBase q'). split; [exact (f_equal (fmap AutoBase) E)|done].
  - destruct (queue_enqueue ds q h D s Hb Hs Hd Hh) as (q' & E & ?). exists (AutoScc q'). split; [exact (f_equal (fmap AutoScc) E)|done].
Qed.
Next Obligation.
  intros ds q h D s Hq Hs. inner_auto q Hq.
  - destruct (bag_update ds q D s Hb Hs) as (q' & E & ?). exists (AutoBase q'). split; [exact (f_equal (fmap AutoBase) E)|done].
  - destruct (queue_update ds q h D s Hb Hs) as (q' & E & ?). exists (AutoScc q'). split; [exact (f_equal (fmap AutoScc) E)|done].
Qed.
End auto_laws.

(** ** The choice *)

Section types.
Context `{WeightOps W} (wprops : Z) (less : bool) (f : Fst W) (scc : list Z) (nscc : Z).
Context (Hlen : ∀ s, valid f s → ∃ c, scc.[s] = Some c ∧ 0 ≤ c < nscc) (Hwf : WellFormed f).
Implicit Types (types : list QueueType).

(** An arc inside component [c]. *)
Definition inner_arc (c : Z) (s : Z) (a : Arc W) : Prop := scc.[s] = Some c ∧ scc.[nextstate a] = Some c.

(** The types after some arcs, given as [P s a]. *)
Record typed (P : Z → Arc W → Prop) types (all_trivial : bool) : Prop := {
  typed_len : zlen types = nscc;
  typed_trivial : ∀ c s a, types.[c] = Some TRIVIAL_QUEUE → P s a → ¬ inner_arc c s a;
  typed_path : ∀ c, types.[c] = Some SHORTEST_FIRST_QUEUE → IsPath wprops = true;
  typed_all : all_trivial = true → ∀ c t, types.[c] = Some t → t = TRIVIAL_QUEUE;
}.

Lemma component_type_not type a : component_type wprops less type a ≠ TRIVIAL_QUEUE.
Proof using.
  unfold component_type. destruct (IsPath wprops); simpl; [|done].
  destruct (negb less || _); [done|]. destruct type; try done; by destruct (weighted_arc _ _).
Qed.

Lemma component_type_path type a : component_type wprops less type a = SHORTEST_FIRST_QUEUE → IsPath wprops = true.
Proof using. unfold component_type. by destruct (IsPath wprops). Qed.

Lemma scan_type_arc_ok (P : Z → Arc W → Prop) types all_trivial unweighted s a :
  typed P types all_trivial → valid f s → a ∈ Arcs f s →
  ∃ types' all_trivial' unweighted', scan_type_arc wprops less scc AnyArcFilter s (types, all_trivial, unweighted) a =
    Some (types', all_trivial', unweighted') ∧ typed (λ t b, P t b ∨ (t = s ∧ b = a)) types' all_trivial'.
Proof using Hlen Hwf.
  intros [Hl Ht Hp Hall] Hs Ha. unfold scan_type_arc. simpl.
  destruct (Hlen s Hs) as (c & Hc & Hcr). destruct (Hlen (nextstate a)) as (d & Hd & Hdr); [by apply (proj1 (proj2 Hwf) s)|].
  rewrite Hc, Hd. cbn [mbind option_bind]. destruct (Z.eqb_spec c d) as [->|Hcd]; cbn [mbind option_bind].
  - destruct (vget_in_range types d) as [type Hty]; [lia|]. rewrite Hty. cbn [mbind option_bind].
    set (type' := component_type wprops less type a).
    assert (∃ types', types.[d <- type'] = Some types') as [types' Hset] by (eexists; apply vset_is_Some; lia).
    pose proof (component_type_not type a) as Hnot. fold type' in Hnot.
    rewrite Hset. cbn [mbind option_bind]. rewrite decide_False by done. eexists _, _, _. split; [done|]. split.
    + by rewrite (vset_len _ _ _ _ Hset).
    + intros e t b. rewrite (vget_vset _ _ _ _ _ Hset). case_decide as E; [congruence|].
      intros He [Hb|[-> ->]]; [by apply Ht|]. intros [? ?]. congruence.
    + intros e. rewrite (vget_vset _ _ _ _ _ Hset). case_decide; [|apply Hp]. intros [= E]. by eapply component_type_path.
    + done.
  - eexists _, _, _. split; [done|]. split; [done| |done|done].
    intros e t b He [Hb|[-> ->]]; [by apply Ht|]. intros [? ?]. congruence.
Qed.

Lemma SccQueueType_ok :
  0 ≤ nscc → ∃ types all_trivial unweighted, SccQueueType wprops less f scc nscc AnyArcFilter = Some (types, all_trivial, unweighted) ∧
    typed (λ s a, valid f s ∧ a ∈ Arcs f s) types all_trivial.
Proof using Hlen Hwf.
  intros Hn. unfold SccQueueType.
  destruct (foldM_total (λ acc state, foldM (scan_type_arc wprops less scc AnyArcFilter state) (Arcs f state) acc)
    (λ done acc, typed (λ s a, s ∈ done ∧ a ∈ Arcs f s) acc.1.1 acc.1.2)
    (seqZ 0 (NumStates f)) (replicate (Z.to_nat nscc) TRIVIAL_QUEUE, true, true)) as ([[types at'] un] & -> & Hty).
  - split; simpl; [unfold zlen; rewrite length_replicate; lia|by intros c s a _ [?%elem_of_nil _]| |].
    + by intros c [_ [? _]%lookup_replicate]%vget_Some.
    + by intros _ c t [_ [? _]%lookup_replicate]%vget_Some.
  - intros done s todo [[types at'] un] [_ Hs]%seqZ_split Hty. simpl in Hty.
    destruct (foldM_total (scan_type_arc wprops less scc AnyArcFilter s)
      (λ l acc, typed (λ t a, (t ∈ done ∧ a ∈ Arcs f t) ∨ (t = s ∧ a ∈ l)) acc.1.1 acc.1.2) (Arcs f s) (types, at', un))
      as ([[types' at''] un'] & Hf & Hty').
    + simpl. destruct Hty as [? Ht ? ?]. split; [done| |done|done]. intros c t b Hc [?|[_ ?%elem_of_nil]]; [by apply (Ht c t b)|done].
    + intros l a rest [[ty1 at1] un1] Hl Ht1. simpl in Ht1.
      destruct (scan_type_arc_ok _ ty1 at1 un1 s a Ht1) as (ty2 & at2 & un2 & H2 & Hty2); [done|rewrite Hl; apply elem_of_app; right; left|].
      exists (ty2, at2, un2). split; [done|]. simpl. destruct Hty2 as [? Ht ? ?]. split; [done| |done|done].
      intros c t b Hc Hb. apply (Ht c t b Hc). rewrite elem_of_snoc in Hb. naive_solver.
    + exists (types', at'', un'). split; [done|]. simpl in *. destruct Hty' as [? Ht ? ?]. split; [done| |done|done].
      intros c t b Hc [Hin Hb]. apply (Ht c t b Hc). rewrite elem_of_snoc in Hin. naive_solver.
  - exists types, at', un. split; [done|]. simpl in Hty. destruct Hty as [? Ht ? ?]. split; [done| |done|done].
    intros c s a Hc [Hs Ha]. apply (Ht c s a Hc). split; [|done]. apply elem_of_seqZ. unfold valid in Hs. lia.
Qed.
End types.

Section correct.
Context `{TM : TimesMonoid W} (wprops : Z).
Implicit Types (f : Fst W).

#[export] Instance valid_nonneg f : NonnegDom (valid f).
Proof. intros s Hs. unfold valid in Hs. lia. Qed.

(** A numbering of the states by which arcs do not go down, with each number in
use: without arcs inside a component it is an order of the states. *)
Lemma single_components f scc (c : Z) s t :
  WellFormed f →
  (∀ s t x y, scc.[s] = Some x → scc.[t] = Some y → x = y ↔ rtc (edge f) s t ∧ rtc (edge f) t s) →
  (∀ s a, valid f s → a ∈ Arcs f s → ¬ inner_arc scc c s a) → (∀ s, valid f s → is_Some (scc.[s])) →
  scc.[s] = Some c → scc.[t] = Some c → s = t.
Proof.
  intros (_ & Hwf & _) Heq Harc Hv Hs Ht. destruct (proj1 (Heq s t c c Hs Ht) eq_refl) as [Hst Hts].
  inversion Hst as [|? u ? Hsu Hut]; [done|subst]. exfalso. destruct Hsu as (Hvs & a & Ha & <-).
  apply (Harc s a); [done..|]. split; [done|].
  destruct (Hv (nextstate a)) as [d Hd]; [by apply (Hwf s)|]. rewrite Hd. f_equal. symmetry.
  apply (Heq s (nextstate a)); [done..|]. split; [|by etrans].
  apply rtc_once. split; [done|]. by exists a.
Qed.

Lemma used_numbers (l : list Z) n :
  (∀ s x, l.[s] = Some x → 0 ≤ x < n) → (∀ x, 0 ≤ x < n → ∃ s, l.[s] = Some x) → ∀ s x, l.[s] = Some x → x < zlen l.
Proof.
  intros Hr Hu s x Hx. apply Hr in Hx. assert (n ≤ zlen l); [|lia].
  assert (seqZ 0 n ⊆+ l) as Hsub%submseteq_length.
  { apply NoDup_submseteq; [apply NoDup_seqZ|]. intros y Hy%elem_of_seqZ. destruct (Hu y) as [t Ht]; [lia|].
    by eapply vget_elem_of. }
  rewrite length_seqZ in Hsub. unfold zlen. lia.
Qed.

(** The queue over the components. *)
Lemma new_scc_holds f scc types nscc at' :
  WellFormed f → zlen scc = NumStates f →
  (∀ s t x y, scc.[s] = Some x → scc.[t] = Some y → x = y ↔ rtc (edge f) s t ∧ rtc (edge f) t s) →
  (∀ s t x y, edge f s t → scc.[s] = Some x → scc.[t] = Some y → x ≤ y) →
  (∀ s, valid f s → ∃ c, scc.[s] = Some c ∧ 0 ≤ c < nscc) →
  typed wprops scc nscc (λ s a, valid f s ∧ a ∈ Arcs f s) types at' →
  scc_holds (valid f) (edge f) (SccQueue_new scc (component_queue wprops <$> types)) None ∅.
Proof.
  intros Hwf Hl Heq Hup Hin [Hlen Htriv Hpath _].
  assert (∀ c D, part (SccQueue_new scc (component_queue wprops <$> types)) c ∅ = D → D = ∅) as Hpart.
  { intros c D <-. apply set_eq. intros s. rewrite part_in. set_solver. }
  split; [split|split|]; simpl.
  - intros s ?%elem_of_empty. done.
  - intros s Hs. rewrite zlen_fmap, Hlen. by apply Hin.
  - intros c s t. rewrite vget_fmap. intros Hc _ _. apply fmap_Some in Hc as (type & Ht & Hnone).
    apply (single_components f); [done|done| |].
    + intros u a Hu Ha. apply (Htriv c); [|done]. rewrite Ht. f_equal.
      unfold component_queue in Hnone. destruct type; try done. by rewrite (Hpath c Ht) in Hnone.
    + intros u Hu. destruct (Hin u Hu) as (d & Hd & _). by exists d.
  - intros c component. rewrite vget_fmap. intros Hc. rewrite (Hpart c _ eq_refl).
    apply fmap_Some in Hc as (type & _ & Hcomp). unfold component_queue in Hcomp.
    destruct type; simplify_eq; try exact listed_nil. destruct (IsPath wprops); simplify_eq. exact (new_bag false).
  - intros c s _ Hs. rewrite (Hpart c _ eq_refl). split; [|set_solver]. intros Hg%vget_range.
    change (zlen (@nil Z)) with 0 in Hg. lia.
  - done.
  - pose proof (zlen_nonneg (component_queue wprops <$> types)). unfold kNoStateId. lia.
  - intros s c Hs. rewrite (Hpart c _ eq_refl) in Hs. set_solver.
  - unfold kNoStateId. lia.
  - done.
  - done.
Qed.

Lemma AutoQueue_new_holds properties0 acyclic0 f distance :
  WellFormed f → SoundFst f →
  ∃ q, AutoQueue_new wprops properties0 acyclic0 f distance AnyArcFilter = Some q ∧
    Empty (W:=W) q = Some true ∧ holds (W:=W) (dom:=valid f) (R:=edge f) q None ∅.
Proof.
  intros Hwf Hs. enough (∃ q, AutoQueue_new wprops properties0 acyclic0 f distance AnyArcFilter = Some q ∧
    auto_holds (valid f) (edge f) q None ∅) as (q & Hq & Hh).
  { assert (holds (W:=W) (dom:=valid f) (R:=edge f) q None ∅) as Hq' by exact Hh.
    pose proof (queue_empty q None ∅ Hq') as E. rewrite bool_decide_eq_true_2 in E by done. by exists q. }
  unfold AutoQueue_new. set (props := _ &&& _).
  assert (∀ b, Z.testbit (kAcyclic ||| kCyclic ||| kTopSorted ||| kUnweighted) b = true → Z.testbit props b = Z.testbit (FstProperties f) b) as Hb.
  { intros b Hb. subst props. by rewrite Z.land_spec, Hb, andb_true_r. }
  destruct (has props kTopSorted || (Start f =? kNoStateId)) eqn:Htop.
  { eexists. split; [done|]. apply state_new. }
  apply orb_false_iff in Htop as [_ Hst%Z.eqb_neq].
  assert (valid f (Start f)) as Hv by by destruct Hwf as (_ & _ & [?|?]).
  destruct (has props kAcyclic) eqn:Hac.
  { assert (¬ Holds f Cyclic) as Hnc.
    { apply (Hs Cyclic). change (neg_bit Cyclic) with 35. rewrite <-Hb by done. by rewrite <-(has_bit props kAcyclic 35). }
    unfold TopOrderQueue_visit. destruct (top_visit f (MkTop [] acyclic0 []) Hwf) as (v & -> & Hv'); [done|]. cbn [mbind option_bind].
    eexists. split; [done|]. destruct (acyclic_ v) eqn:Ev; [|done]. destruct Hv' as [Hperm _]. simpl.
    apply top_cleared; [by unfold zlen; rewrite length_replicate| |by intros o s [_ [? _]%lookup_replicate]%vget_Some].
    split.
    - intros s Hvs. destruct (order_get _ _ (proj1 Hwf) Hperm s Hvs) as (o & ? & ?). exists o. split; [done|].
      by rewrite (order_len _ _ (proj1 Hwf) Hperm).
    - intros s t o _ _ Hso Hto. assert (NoDup (order_ v)) as Hnd by by eapply order_nodup.
      apply vget_Some in Hso as [? Hso], Hto as [? Hto]. pose proof (NoDup_lookup _ _ _ _ Hnd Hso Hto). lia. }
  destruct (has props kUnweighted && IsIdempotent wprops); [eexists; split; [done|]; apply listed_nil|].
  destruct (scc_visit f (Some (NumStates f)) (Some []) None [] properties0 f Hwf Hv) as (v & -> & [Hr _ _ _ _] & Hsome & _); [by left|].
  cbn [mbind option_bind]. destruct (proj2 Hsome) as [scc Hscc]; [by eexists|]. rewrite Hscc. cbn [mbind option_bind].
  destruct (Hr scc Hscc) as (Hl & Heq & Hup & Hrange & Hused).
  assert (scc ≠ []) as Hne by (intros ->; change (zlen (@nil Z)) with 0 in Hl; unfold valid in Hv; lia).
  destruct (max_element scc) as [m|] eqn:Em; [|by destruct scc]. cbn [mbind option_bind].
  pose proof (proj2 (max_element_spec _ _ Em)) as Hm.
  assert (∀ s, valid f s → ∃ c, scc.[s] = Some c ∧ 0 ≤ c < m + 1) as Hin.
  { intros s Hvs. destruct (vget_in_range scc s) as [c Hc]; [unfold valid in Hvs; lia|]. exists c. split; [done|].
    pose proof (Hrange s c Hc). pose proof (Hm c (vget_elem_of _ _ _ Hc)). lia. }
  destruct (SccQueueType_ok wprops (IsPath wprops && distance) f scc (m + 1) Hin Hwf) as (types & at' & un & -> & Hty).
  { destruct (Hin _ Hv) as (c & _ & ?). lia. }
  cbn [mbind option_bind]. destruct un; [eexists; split; [done|]; apply listed_nil|].
  destruct at'; [|eexists; split; [done|]; by eapply new_scc_holds].
  eexists. split; [done|]. apply top_new. split.
  - intros s Hvs. destruct (Hin s Hvs) as (c & Hc & ?). exists c. split; [done|]. split; [lia|].
    by eapply used_numbers.
  - intros s t c _ _ Hsc Htc. eapply (single_components f scc c); [done|done| | |done|done].
    + intros u a Hu Ha. apply (typed_trivial _ _ _ _ _ _ Hty); [|done].
      assert (0 ≤ c < zlen types) as Hcr.
      { rewrite (typed_len _ _ _ _ _ _ Hty). pose proof (Hrange s c Hsc). pose proof (Hm c (vget_elem_of _ _ _ Hsc)). lia. }
      destruct (vget_in_range types c Hcr) as [type Ht]. rewrite Ht. f_equal. by eapply (typed_all _ _ _ _ _ _ Hty).
    + intros u Hu. destruct (Hin u Hu) as (d & Hd & _). by exists d.
Qed.
(** C33: The automatic choice of a queue, for a well-formed machine with true
property bits, ends without an access out of range, and the queue is empty and
keeps the promises of a queue for the states of the machine, as long as states
are enqueued along its arcs: what goes in comes out, once, in an order that is
its own, and no operation fails. *)
Theorem AutoQueue_correct properties0 acyclic0 f distance :
  WellFormed f → SoundFst f →
  ∃ q, AutoQueue_new wprops properties0 acyclic0 f distance AnyArcFilter = Some q ∧
    Empty (W:=W) q = Some true ∧ holds (W:=W) (dom:=valid f) (R:=edge f) q None ∅.
Proof. apply AutoQueue_new_holds. Qed.
End correct.

(** * An instance *)

Section witnesses.
Local Notation M := MinMaxWeight.

(* float-weight.h:848-850 Properties *)
Definition MinMaxProperties : Z := kLeftSemiring ||| kRightSemiring ||| kCommutative ||| kIdempotent ||| kPath.

Lemma loop_fst_sound : SoundFst loop_fst.
Proof. intros t. by destruct t. Qed.

Lemma AutoQueue_correct_witness :
  ∃ q, AutoQueue_new MinMaxProperties 7 false loop_fst true AnyArcFilter = Some q ∧
    Empty (W:=M) q = Some true ∧ holds (W:=M) (dom:=valid loop_fst) (R:=edge loop_fst) q None ∅.
Proof. apply (AutoQueue_correct MinMaxProperties 7 false loop_fst true loop_fst_wf loop_fst_sound). Defined.

(** Two of the arcs of a component that has a cycle with weights: a shortest-first
queue for it, and a state on its own before and after. *)
Definition weighted_loop : Fst M := {|
  Start := 0; NumStates := 4;
  Final := λ s, if s =? 3 then One else Zero;
  Arcs := λ s, match s with
    | 0 => [MkArc 1 1 One 1]
    | 1 => [MkArc 2 0 (MinMax (S754_finite false 4 0)) 2]
    | 2 => [MkArc 0 3 (MinMax (S754_finite false 3 0)) 1; MkArc 4 4 One 3]
    | _ => [] end;
  FstProperties := kExpanded; InputSymbols := None; OutputSymbols := None |}.

Example weighted_loop_queue :
  AutoQueue_new MinMaxProperties 0 false weighted_loop true AnyArcFilter =
  Some (AutoScc (MkScc [None; Some (QShortest ShortestFirstQueue_new); None] [0; 1; 1; 2] 0 (-1) [])).
Proof. by vm_compute. Qed.
End witnesses.
