(* ===== verification/Relaxation.v ===== *)
(** What relaxation along arcs computes, on functions from states to weights: sums
of weights of paths in an idempotent right semiring, the invariant of a
relaxation in any order, and a measure that every improvement decreases when no
cycle improves a path. *)
From stdpp Require Import functions.
From S2P Require Import Prelude Weight Properties Fst.
Local Open Scope Z_scope.

(** The laws are found through the class of semirings. *)
#[export] Hint Extern 1 (Member (Plus _ _) = true) => apply Plus_member : weight.
#[export] Hint Extern 1 (Member (Times _ _) = true) => apply Times_member : weight.

(** * Sums of sets of weights *)

Section sums.
Context `{RightSemiring W} `{!IdempotentWeight W}.
Implicit Types (x y z c : W) (l k : list W).

(** Adding [y] to [x] changes nothing. *)
Definition absorbs x y : Prop := Plus x y ≡ x.

#[global] Instance absorbs_proper : Proper ((≡) ==> (≡) ==> iff) absorbs.
Proof. intros x x' Hx y y' Hy. unfold absorbs. by rewrite Hx, Hy. Qed.

Definition wsum l : W := foldr Plus Zero l.
Abbreviation members l := (Forall (λ x, Member x = true) l).

Lemma wsum_member l : members l → Member (wsum l) = true.
Proof. induction 1; simpl; eauto with weight. Qed.

Lemma Plus_Zero_r x : Member x = true → Plus x Zero ≡ x.
Proof. intros Hx. rewrite Plus_comm by eauto with weight. by apply Plus_Zero_l. Qed.

Lemma absorbs_eq x y : absorbs x y → Plus x y ≡ x.
Proof. done. Qed.

Lemma absorbs_refl x : Member x = true → absorbs x x.
Proof. apply Plus_idemp. Qed.

Lemma absorbs_Zero x : Member x = true → absorbs x Zero.
Proof. apply Plus_Zero_r. Qed.

Lemma absorbs_grow x y z :
  Member x = true → Member y = true → Member z = true → absorbs x y → absorbs (Plus x z) y.
Proof.
  unfold absorbs. intros Hx Hy Hz Ha. rewrite <-Plus_assoc, (Plus_comm z y), Plus_assoc by eauto with weight.
  by rewrite Ha.
Qed.

Lemma absorbs_added x z : Member x = true → Member z = true → absorbs (Plus x z) z.
Proof. unfold absorbs. intros. rewrite <-Plus_assoc by done. by rewrite Plus_idemp. Qed.

Lemma absorbs_Plus x y z :
  Member x = true → Member y = true → Member z = true →
  absorbs x (Plus y z) ↔ absorbs x y ∧ absorbs x z.
Proof.
  intros Hx Hy Hz. split.
  - intros Ha. assert (x ≡ Plus x (Plus y z)) as E by (symmetry; exact Ha). split; rewrite E.
    + rewrite (Plus_comm y z), Plus_assoc by done. by apply absorbs_added; eauto with weight.
    + rewrite Plus_assoc by done. by apply absorbs_added; eauto with weight.
  - unfold absorbs. intros [Hay Haz]. rewrite Plus_assoc by done. by rewrite Hay.
Qed.

Lemma absorbs_trans x y z :
  Member x = true → Member y = true → Member z = true → absorbs x y → absorbs y z → absorbs x z.
Proof. intros Hx Hy Hz Hxy Hyz. unfold absorbs in Hyz. rewrite <-Hyz in Hxy. by apply absorbs_Plus in Hxy as [_ ?]. Qed.

Lemma absorbs_antisym x y : Member x = true → Member y = true → absorbs x y → absorbs y x → x ≡ y.
Proof. unfold absorbs. intros Hx Hy Hxy Hyx. by rewrite <-Hxy, Plus_comm, Hyx. Qed.

Lemma absorbs_Times x y c :
  Member x = true → Member y = true → Member c = true → absorbs x y → absorbs (Times x c) (Times y c).
Proof. unfold absorbs. intros Hx Hy Hc Ha. by rewrite <-Times_Plus_r, Ha. Qed.

Lemma absorbs_wsum x l :
  Member x = true → members l → absorbs x (wsum l) ↔ Forall (absorbs x) l.
Proof.
  intros Hx Hl. induction Hl as [|y l Hy Hl IH]; simpl.
  - split; [constructor|]. intros _. by apply absorbs_Zero.
  - rewrite absorbs_Plus, Forall_cons, IH by eauto using wsum_member with weight. done.
Qed.

Lemma wsum_app l k : members l → members k → wsum (l ++ k) ≡ Plus (wsum l) (wsum k).
Proof.
  intros Hl Hk. induction Hl as [|y l Hy Hl IH]; simpl.
  - by rewrite Plus_Zero_l by by apply wsum_member.
  - rewrite IH. apply Plus_assoc; eauto using wsum_member with weight.
Qed.

Lemma wsum_Times l c : members l → Member c = true → Times (wsum l) c ≡ wsum ((λ x, Times x c) <$> l).
Proof.
  intros Hl Hc. induction Hl as [|y l Hy Hl IH]; simpl; [by apply Times_Zero_l'|].
  rewrite Times_Plus_r by eauto using wsum_member with weight. by rewrite IH.
Qed.

(** [x] is the sum of the set [P]: a sum of some of its elements that no other
element changes.  There is at most one such weight. *)
Definition sum_of (P : W → Prop) x : Prop :=
  Member x = true ∧ (∃ l, Forall P l ∧ x ≡ wsum l) ∧ ∀ y, P y → absorbs x y.

Lemma sum_of_unique P x y : (∀ z, P z → Member z = true) → sum_of P x → sum_of P y → x ≡ y.
Proof.
  intros HP (Hx & (l & Hl & Hxl) & Hax) (Hy & (k & Hk & Hyk) & Hay).
  assert (absorbs x y) as Hxy.
  { rewrite Hyk. apply absorbs_wsum; [done| |]; by eapply Forall_impl. }
  assert (absorbs y x) as Hyx.
  { rewrite Hxl. apply absorbs_wsum; [done| |]; by eapply Forall_impl. }
  by apply absorbs_antisym.
Qed.
End sums.

(** A list of weights some of which change nothing. *)
Lemma wsum_filter `{RightSemiring W} `{!IdempotentWeight W} {A} (P : A → Prop) `{∀ x, Decision (P x)} (F : A → W) (l : list A) x :
  Member x = true → (∀ y, y ∈ l → Member (F y) = true) → (∀ y, y ∈ l → ¬ P y → absorbs x (F y)) →
  Plus x (wsum (F <$> l)) ≡ Plus x (wsum (F <$> filter P l)).
Proof.
  intros Hx. revert x Hx. induction l as [|y l IH]; intros x Hx Hm Ha; [done|].
  assert (Member (F y) = true) as Hy by (apply Hm; left).
  assert (∀ k, k ⊆ l → Member (wsum (F <$> k)) = true) as Hk.
  { intros k Hk. apply wsum_member, Forall_fmap, Forall_forall. intros z Hz. apply Hm. right. by apply Hk. }
  assert (filter P l ⊆ l) as Hf by (intros z; rewrite list_elem_of_filter; naive_solver).
  rewrite filter_cons, fmap_cons. change (wsum (F y :: ?k)) with (Plus (F y) (wsum k)).
  rewrite Plus_assoc by (done || by apply Hk).
  destruct (decide (P y)) as [Hp|Hp].
  - rewrite fmap_cons. change (wsum (F y :: ?k)) with (Plus (F y) (wsum k)).
    rewrite Plus_assoc by (done || by apply Hk). apply IH.
    + eauto with weight.
    + intros z Hz. apply Hm. by right.
    + intros z Hz Hn. apply absorbs_grow; eauto with weight; [apply Hm; by right|]. apply Ha; [by right|done].
  - rewrite (absorbs_eq x (F y)) by (apply Ha; [left|done]). apply IH; [done| |]; intros z Hz; [apply Hm|apply Ha]; by right.
Qed.

(** * Words of arcs *)

Section words.
Context {A : Type}.
Implicit Types (l : list A).

Fixpoint words l (n : nat) : list (list A) :=
  [] :: match n with O => [] | S n => x ← l; cons x <$> words l n end.

Lemma elem_of_words l n p : Forall (.∈ l) p → (length p ≤ n)%nat → p ∈ words l n.
Proof.
  revert n. induction p as [|x p IH]; intros n Hp Hn; [destruct n; left|].
  destruct n as [|n]; [simpl in Hn; lia|]. apply Forall_cons in Hp as [Hx Hp]. simpl in *. right.
  apply list_elem_of_bind. exists x. split; [|done]. apply list_elem_of_fmap. exists p. split; [done|].
  apply IH; [done|lia].
Qed.

Lemma words_elem l n p : p ∈ words l n → Forall (.∈ l) p.
Proof.
  revert p. induction n as [|n IH]; intros p; simpl; rewrite elem_of_cons; intros [->|Hp]; try constructor.
  - by apply not_elem_of_nil in Hp.
  - apply list_elem_of_bind in Hp as (x & (q & -> & Hq)%list_elem_of_fmap & Hx). constructor; eauto.
Qed.

Lemma filter_fewer (P Q : A → Prop) `{∀ x, Decision (P x)} `{∀ x, Decision (Q x)} l x :
  (∀ y, y ∈ l → Q y → P y) → x ∈ l → P x → ¬ Q x → (length (filter Q l) < length (filter P l))%nat.
Proof.
  intros Hpq Hx HP HQ.
  assert (∀ k, (∀ y, y ∈ k → Q y → P y) → (length (filter Q k) ≤ length (filter P k))%nat) as Hle.
  { intros k. induction k as [|y k IH]; intros Hk; [done|]. rewrite !filter_cons.
    assert (length (filter Q k) ≤ length (filter P k))%nat by (apply IH; intros; apply Hk; [by right|done]).
    pose proof (Hk y ltac:(left)). repeat case_decide; simpl; try lia. naive_solver. }
  apply list_elem_of_split in Hx as (k & k' & ->). rewrite !filter_app, !filter_cons, !length_app.
  rewrite decide_False, decide_True by done. simpl.
  pose proof (Hle k ltac:(set_solver)). pose proof (Hle k' ltac:(set_solver)). lia.
Qed.
End words.

Lemma sum_decreases (F G : Z → nat) l n :
  NoDup l → n ∈ l → (∀ s, s ≠ n → F s = G s) → (F n < G n)%nat →
  (sum_list (F <$> l) < sum_list (G <$> l))%nat.
Proof.
  intros Hnd Hn Hsame Hlt. apply list_elem_of_split in Hn as (k & k' & ->).
  apply NoDup_app in Hnd as (_ & Hk & [Hn Hk']%NoDup_cons).
  assert (∀ j : list Z, n ∉ j → F <$> j = G <$> j) as Heq.
  { intros j Hj. apply list_fmap_ext. intros i s Hs. apply Hsame. intros ->. by eapply Hj, list_elem_of_lookup_2. }
  rewrite !fmap_app, !fmap_cons. unfold sum_list. rewrite !(Heq k), !(Heq k') by (done || intros ?; by apply (Hk n); [|left]).
  clear -Hlt. change (sum_list_with id ?j) with (sum_list j). induction (G <$> k) as [|y j IH]; [simpl in *; lia|].
  rewrite <-!app_comm_cons. cbn [sum_list_with]. lia.
Qed.

(** * Relaxation *)

Section relaxation.
Context `{RightSemiring W} `{!IdempotentWeight W}.
Context (g : Fst W) (source : Z).
Implicit Types (s t n : Z) (x y : W) (a : Arc W) (p q r : list (Arc W)) (d rd e : Z → W) (D : gset Z).

(** The weight of a path, and the set of weights of the paths to a state. *)
Definition pw p : W := path_weight p One.
Definition path_weights s x : Prop := ∃ p, path g source p s ∧ x = pw p.

(** No cycle improves the path that it extends. *)
Definition cycles_absorbed : Prop :=
  ∀ p q s, path g source p s → path g s q s → absorbs (pw p) (pw (p ++ q)).

Lemma path_end s p t t' : path g s p t → path g s p t' → t = t'.
Proof. induction 1; inversion 1; subst; auto. Qed.

Lemma path_visited p s n :
  path g source p s → n ∈ source :: (nextstate <$> p) →
  ∃ q r, p = q ++ r ∧ path g source q n ∧ path g n r s.
Proof.
  intros Hp. rewrite elem_of_cons. intros [->|(a & -> & Ha)%list_elem_of_fmap].
  { exists [], p. split_and!; [done| |done]. constructor. by eapply path_valid_l. }
  apply list_elem_of_split in Ha as (q & r & ->). exists (q ++ [a]), r. split; [by rewrite <-app_assoc|].
  rewrite cons_middle, app_assoc in Hp. apply path_app_inv in Hp as (t & Hq & Hr).
  apply path_app_inv in Hq as Hq'. destruct Hq' as (u & _ & Ha). inversion Ha as [|? ? ? ? ? ? He]; subst.
  inversion He; subst. done.
Qed.

Lemma simple_length p s : path g source p s → NoDup (source :: (nextstate <$> p)) → (length p ≤ Z.to_nat (NumStates g))%nat.
Proof.
  intros Hp Hnd.
  assert (source :: (nextstate <$> p) ⊆+ seqZ 0 (NumStates g)) as Hsub%submseteq_length.
  { apply NoDup_submseteq; [done|]. intros n Hn. destruct (path_visited p s n Hp Hn) as (q & r & _ & Hq & _).
    apply path_valid_r in Hq. apply elem_of_seqZ. unfold valid in Hq. lia. }
  rewrite length_cons, length_fmap, length_seqZ in Hsub. lia.
Qed.

(** The paths without a repeated state are among these words. *)
Definition candidates : list (list (Arc W)) :=
  words (seqZ 0 (NumStates g) ≫= Arcs g) (Z.to_nat (NumStates g)).

Lemma simple_candidate p s : path g source p s → NoDup (source :: (nextstate <$> p)) → p ∈ candidates.
Proof.
  intros Hp Hnd. apply elem_of_words; [|by eapply simple_length]. clear Hnd.
  induction Hp as [|s a p t Hv Ha Hp IH]; constructor; [|done]. apply list_elem_of_bind. exists s.
  split; [done|]. apply elem_of_seqZ. unfold valid in Hv. lia.
Qed.

(** The measure of a distance: how many of them would change it. *)
Definition unabsorbed x : nat := length (filter (λ p, weqb (Plus x (pw p)) x = false) candidates).

(** Every visit takes a state from the queue, and what puts one back improves its
distance. *)
Definition measure d D : nat := sum_list ((λ s, unabsorbed (d s)) <$> seqZ 0 (NumStates g)) + size D.

Lemma measure_improve d D n x :
  valid g n → (unabsorbed x < unabsorbed (d n))%nat → (measure (<[n := x]> d) ({[n]} ∪ D) ≤ measure d D)%nat.
Proof.
  intros Hn Hr. unfold measure.
  assert (size ({[n]} ∪ D) ≤ 1 + size D)%nat.
  { rewrite size_union_alt, size_singleton. apply Nat.add_le_mono_l, subseteq_size. set_solver. }
  enough (sum_list ((λ s, unabsorbed ((<[n := x]> d) s)) <$> seqZ 0 (NumStates g)) <
    sum_list ((λ s, unabsorbed (d s)) <$> seqZ 0 (NumStates g)))%nat by lia.
  apply (sum_decreases _ _ _ n); [apply NoDup_seqZ|apply elem_of_seqZ; unfold valid in Hn; lia| |].
  - intros s Hs. by rewrite fn_lookup_insert_ne.
  - by rewrite fn_lookup_insert.
Qed.

Lemma measure_bound d D : (measure d D ≤ Z.to_nat (NumStates g) * length candidates + size D)%nat.
Proof.
  unfold measure. apply Nat.add_le_mono_r.
  assert (∀ l : list Z, (sum_list ((λ s, unabsorbed (d s)) <$> l) ≤ length l * length candidates)%nat) as Hl.
  { intros l. induction l as [|s l IH]; simpl; [lia|]. apply Nat.add_le_mono; [|done]. apply length_filter. }
  rewrite Hl, length_seqZ. done.
Qed.

Lemma measure_take d D s : s ∈ D → measure d D = S (measure d (D ∖ {[s]})).
Proof.
  intros Hs. assert (size D = 1 + size (D ∖ {[s]}))%nat as HsD; [|unfold measure; lia].
  rewrite <-(size_singleton (C:=gset Z) s), <-size_union by set_solver. f_equal. apply leibniz_equiv.
  intros t. rewrite elem_of_union, elem_of_difference, elem_of_singleton. destruct (decide (t = s)); naive_solver.
Qed.

Lemma absorbsb_false x p : Member x = true → Member (pw p) = true → weqb (Plus x (pw p)) x = false ↔ ¬ absorbs x (pw p).
Proof.
  intros Hx Hp. unfold absorbs. rewrite <-weqb_equiv by eauto with weight. by rewrite not_true_iff_false.
Qed.

Context (Hmem : all_arcs g (λ _ a, Member (weight a) = true)).

Lemma pw_member p s t : path g s p t → Member (pw p) = true.
Proof. intros Hp. apply path_weight_member; [by eapply path_member|eauto with weight]. Qed.

Lemma pw_snoc p a s t :
  path g s p t → Member (weight a) = true → pw (p ++ [a]) ≡ Times (pw p) (weight a).
Proof.
  intros Hp Ha. unfold pw. rewrite path_weight_app. simpl. rewrite Times_One_r by done.
  rewrite <-path_weight_Times by (eauto using path_member with weight). by rewrite Times_One_l.
Qed.

Lemma candidate_member p : p ∈ candidates → Member (pw p) = true.
Proof.
  intros Hp%words_elem. apply path_weight_member; [|eauto with weight]. eapply Forall_impl; [done|].
  intros a (s & Ha & Hs)%list_elem_of_bind. apply (Hmem s a); [|done]. apply elem_of_seqZ in Hs. unfold valid. lia.
Qed.

Lemma rank_decreases x y p :
  Member x = true → Member y = true → p ∈ candidates → ¬ absorbs x (pw p) → absorbs (Plus x y) (pw p) →
  (unabsorbed (Plus x y) < unabsorbed x)%nat.
Proof.
  intros Hx Hy Hp Hn Ha. pose proof (candidate_member p Hp). apply (filter_fewer _ _ _ p); [|done| |].
  - intros q Hq%candidate_member. rewrite !absorbsb_false by eauto with weight.
    intros Hn' Hq'. by apply Hn', absorbs_grow.
  - by apply absorbsb_false.
  - rewrite absorbsb_false by eauto with weight. by intros [].
Qed.

(** ** The invariant *)

Context (Hwf : WellFormed g) (Hcycles : cycles_absorbed).

(** A path without a repeated state, whose beginnings are taken into account. *)
Record reached d s p : Prop := {
  reached_path : path g source p s;
  reached_simple : NoDup (source :: (nextstate <$> p));
  reached_prefix : ∀ q r n, p = q ++ r → path g source q n → absorbs (d n) (pw q);
}.

(** Weights that every distance changes less and less. *)
Definition grows d d' : Prop :=
  ∀ s, Member (d' s) = true ∧ ∀ x, Member x = true → absorbs (d s) x → absorbs (d' s) x.

Lemma reached_grows d d' s p : grows d d' → reached d s p → reached d' s p.
Proof.
  intros Hg [Hp Hs Hpre]. split; [done..|]. intros q r n Hq Hn. apply Hg; [by eapply pw_member|by eapply Hpre].
Qed.

Lemma grows_insert d n x :
  (∀ s, Member (d s) = true) → Member x = true → grows d (<[n := Plus (d n) x]> d).
Proof.
  intros Hd Hx s. destruct (decide (s = n)) as [->|Hn].
  - rewrite fn_lookup_insert. split; [eauto with weight|]. intros y Hy. by apply absorbs_grow.
  - by rewrite fn_lookup_insert_ne.
Qed.

(** [d] are the distances, [rd] what was added since a state was last taken from
the queue, [e] what it had been before, and [D] the states in the queue; the arcs
in [open] have still to be relaxed. *)
Record relaxed (open : Z → Arc W → Prop) d rd e D : Prop := {
  rel_d : ∀ s, Member (d s) = true;
  rel_rd : ∀ s, Member (rd s) = true;
  rel_e : ∀ s, Member (e s) = true;
  rel_split : ∀ s, d s ≡ Plus (e s) (rd s);
  rel_arc : ∀ s a, valid g s → a ∈ Arcs g s → open s a ∨ absorbs (d (nextstate a)) (Times (e s) (weight a));
  rel_rest : ∀ s, s ∉ D → rd s ≡ Zero;
  rel_source : absorbs (d source) One;
  rel_sum : ∀ s, ∃ l, Forall (reached d s) l ∧ d s ≡ wsum (pw <$> l);
}.

Lemma reached_members d s l : Forall (reached d s) l → Forall (λ x, Member x = true) (pw <$> l).
Proof. intros Hl. apply Forall_fmap. eapply Forall_impl; [done|]. intros p [Hp _ _]. by eapply pw_member. Qed.

Lemma relaxed_init :
  valid g source →
  relaxed (λ _ _, False) (<[source := One]> (λ _, Zero)) (<[source := One]> (λ _, Zero)) (λ _, Zero) {[source]}.
Proof.
  intros Hsource.
  assert (∀ s, Member ((<[source := One]> (λ _, Zero)) s) = true) as Hm.
  { intros s. destruct (decide (s = source)) as [->|]; [rewrite fn_lookup_insert|rewrite fn_lookup_insert_ne by done];
      eauto with weight. }
  split; try done.
  - intros _. eauto with weight.
  - intros s. symmetry. by apply Plus_Zero_l.
  - intros s a Hs Ha. right. rewrite Times_Zero_l' by by eapply Hmem. by apply absorbs_Zero.
  - intros s Hs. rewrite fn_lookup_insert_ne by set_solver. done.
  - rewrite fn_lookup_insert. apply absorbs_refl. eauto with weight.
  - intros s. destruct (decide (s = source)) as [->|]; [rewrite fn_lookup_insert|rewrite fn_lookup_insert_ne by done].
    + exists [[]]. split; [|symmetry; apply Plus_Zero_r; eauto with weight]. constructor; [|constructor].
      split; [by constructor|apply NoDup_singleton|]. intros q r n Hq Hn. destruct q as [|]; [|done].
      inversion Hn; subst. rewrite fn_lookup_insert. apply absorbs_refl. eauto with weight.
    + exists []. split; [constructor|done].
Qed.

(** In the end every path is taken into account. *)
Lemma relaxed_final d rd e : valid g source → relaxed (λ _ _, False) d rd e ∅ → ∀ s, sum_of (path_weights s) (d s).
Proof.
  intros Hsource [Hd Hrd He Hsplit Harc Hrest Hone Hsum] s. split; [done|]. split.
  { destruct (Hsum s) as (l & Hl & Hds). exists (pw <$> l). split; [|done]. apply Forall_fmap.
    eapply Forall_impl; [done|]. intros p [Hp _ _]. by exists p. }
  intros x (p & Hp & ->). revert s Hp. induction p as [|a p IH] using rev_ind; intros s Hp.
  - inversion Hp; subst. done.
  - apply path_app_inv in Hp as (t & Hp & Ha). inversion Ha as [|? ? ? ? Ht Hin Hs]; subst.
    inversion Hs; subst. pose proof (Hmem t a Ht Hin) as Hwa. pose proof (pw_member p _ _ Hp) as Hpm.
    assert (d t ≡ e t) as Et by (rewrite Hsplit, Hrest by set_solver; by apply Plus_Zero_r).
    rewrite (pw_snoc p a _ _ Hp Hwa). apply (absorbs_trans _ (Times (d t) (weight a))); eauto with weight.
    + rewrite Et. by destruct (Harc t a Ht Hin).
    + apply absorbs_Times; auto.
Qed.

(** ** A state from the queue *)

(** What is known of the state [s] whose arcs are being relaxed: [rd0] is added
to [e0], along which they have been relaxed already. *)
Record opened d s (e0 rd0 d0 : W) : Prop := {
  opened_e : Member e0 = true;
  opened_rd : Member rd0 = true;
  opened_d : Member d0 = true;
  opened_split : d0 ≡ Plus e0 rd0;
  opened_before : ∀ a, a ∈ Arcs g s → absorbs (d (nextstate a)) (Times e0 (weight a));
  opened_sum : ∃ l, Forall (reached d s) l ∧ d0 ≡ wsum (pw <$> l);
}.

Definition arcs_of s (l : list (Arc W)) : Z → Arc W → Prop := λ t a, t = s ∧ a ∈ l.

Lemma relaxed_take d rd e D s :
  relaxed (λ _ _, False) d rd e D → valid g s →
  relaxed (arcs_of s (Arcs g s)) d (<[s := Zero]> rd) (<[s := d s]> e) (D ∖ {[s]}) ∧
  opened d s (e s) (rd s) (d s).
Proof.
  intros [Hd Hrd He Hsplit Harc Hrest Hone Hsum] Hs. split; split; try done.
  - intros t. destruct (decide (t = s)) as [->|]; [rewrite fn_lookup_insert|by rewrite fn_lookup_insert_ne].
    eauto with weight.
  - intros t. destruct (decide (t = s)) as [->|]; [by rewrite fn_lookup_insert|by rewrite fn_lookup_insert_ne].
  - intros t. destruct (decide (t = s)) as [->|]; [|by rewrite !fn_lookup_insert_ne].
    rewrite !fn_lookup_insert. by rewrite Plus_Zero_r.
  - intros t a Ht Ha. destruct (decide (t = s)) as [->|]; [by left|]. right.
    rewrite fn_lookup_insert_ne by done. by destruct (Harc t a Ht Ha).
  - intros t Ht. destruct (decide (t = s)) as [->|]; [by rewrite fn_lookup_insert|].
    rewrite fn_lookup_insert_ne by done. apply Hrest. set_solver.
  - intros a Ha. by destruct (Harc s a Hs Ha).
Qed.

Lemma opened_grows d d' s (e0 rd0 d0 : W) : grows d d' → valid g s → opened d s e0 rd0 d0 → opened d' s e0 rd0 d0.
Proof.
  intros Hg Hs [He Hrd Hd Hsplit Hbef (l & Hl & Hsum)]. split; [done..| |].
  - intros a Ha. apply Hg; [|by apply Hbef]. apply Times_member; [done|]. by eapply Hmem.
  - exists l. split; [|done]. eapply Forall_impl; [done|]. intros p. by apply reached_grows.
Qed.

(** ** An arc *)

Context (d rd e : Z → W) (D : gset Z) (s : Z) (e0 rd0 d0 : W) (a : Arc W) (todo : list (Arc W)).
Context (Hs : valid g s) (Ha : a ∈ Arcs g s).
Context (Hrel : relaxed (arcs_of s (a :: todo)) d rd e D) (Hopen : opened d s e0 rd0 d0) (He0 : e s = d0).

Lemma arc_weight : Member (weight a) = true.
Proof. by apply (Hmem s). Qed.

Lemma opened_Times : Times d0 (weight a) ≡ Plus (Times e0 (weight a)) (Times rd0 (weight a)).
Proof.
  pose proof arc_weight. rewrite (opened_split _ _ _ _ _ Hopen). by apply Times_Plus_r; [apply Hopen..|].
Qed.

(** The paths to [s] with one more arc. *)
Definition extended p : W := pw (p ++ [a]).

Lemma extended_member l : Forall (reached d s) l → Forall (λ p, Member (extended p) = true) l.
Proof.
  intros Hl. eapply Forall_impl; [done|]. intros p [Hp _ _]. unfold extended.
  pose proof arc_weight. rewrite (pw_snoc p a _ _ Hp) by done. pose proof (pw_member p _ _ Hp). eauto with weight.
Qed.

Lemma extended_sum l :
  Forall (reached d s) l → Times (wsum (pw <$> l)) (weight a) ≡ wsum (extended <$> l).
Proof.
  intros Hl. pose proof arc_weight as Hwa. rewrite wsum_Times by (done || by eapply reached_members).
  induction Hl as [|p l [Hp _ _] Hl IH]; simpl; [done|]. by rewrite IH, <-(pw_snoc p a _ _ Hp).
Qed.

Lemma absorbs_extended l x :
  Member x = true → Forall (reached d s) l → d0 ≡ wsum (pw <$> l) →
  absorbs x (Times d0 (weight a)) ↔ Forall (λ p, absorbs x (extended p)) l.
Proof.
  intros Hx Hl ->. rewrite extended_sum by done. rewrite absorbs_wsum, Forall_fmap; [done..|].
  apply Forall_fmap. by apply extended_member.
Qed.

(** A path that comes back to a state brings nothing new. *)
Lemma extended_cycle p :
  reached d s p → nextstate a ∈ source :: (nextstate <$> p) → absorbs (d (nextstate a)) (extended p).
Proof.
  intros Hr Hin. pose proof Hr as [Hp _ Hpre].
  destruct (path_visited p s _ Hp Hin) as (q & r & -> & Hq & Hr').
  assert (valid g (nextstate a)) as Hv by by eapply path_valid_r.
  assert (path g (nextstate a) (r ++ [a]) (nextstate a)) as Hc by by eapply path_snoc.
  unfold extended. rewrite <-app_assoc.
  apply (absorbs_trans _ (pw q)); [apply Hrel|by eapply pw_member| |by eapply Hpre|by eapply Hcycles].
  eapply pw_member. by eapply path_app.
Qed.

Lemma extended_path d' p : reached d' s p → path g source (p ++ [a]) (nextstate a).
Proof.
  intros [Hp _ _]. apply (path_snoc _ _ _ s); [done..|]. destruct Hwf as (_ & Hw & _). by apply (Hw s).
Qed.

Lemma extended_simple d' p :
  reached d' s p → nextstate a ∉ source :: (nextstate <$> p) → NoDup (source :: (nextstate <$> p ++ [a])).
Proof.
  intros [_ Hnd _] Hn. rewrite fmap_app, app_comm_cons. apply NoDup_app. split_and!; [done| |apply NoDup_singleton].
  intros n Hin ->%list_elem_of_singleton. done.
Qed.

Lemma extended_reached d' p :
  reached d' s p → nextstate a ∉ source :: (nextstate <$> p) → absorbs (d' (nextstate a)) (extended p) →
  reached d' (nextstate a) (p ++ [a]).
Proof.
  intros Hr Hn Hab. split; [by eapply extended_path|by eapply extended_simple|].
  intros q r n Hq Hqn. destruct r as [|b r _] using rev_ind.
  - rewrite app_nil_r in Hq. subst q. by rewrite (path_end _ _ _ _ Hqn (extended_path _ _ Hr)).
  - rewrite app_assoc in Hq. apply app_inj_tail in Hq as [-> ->]. by eapply (reached_prefix d').
Qed.

(** An arc that improves nothing. *)
Lemma relaxed_skip :
  absorbs (d (nextstate a)) (Times rd0 (weight a)) → relaxed (arcs_of s todo) d rd e D.
Proof.
  intros Hab. pose proof arc_weight. pose proof Hrel as [Hd Hrd He Hsplit Harc Hrest Hone Hsum]. split; try done.
  intros t b Ht Hb. destruct (Harc t b Ht Hb) as [[-> [->|?]%elem_of_cons]|?]; [right|by left|by right].
  pose proof Hopen as [? ? _ _ Hbef _]. rewrite He0, opened_Times. apply absorbs_Plus; eauto with weight.
Qed.

(** An arc that improves the distance of its target. *)
Context (l : list (list (Arc W))) (Hl : Forall (reached d s) l) (Hd0 : d0 ≡ wsum (pw <$> l)).
Definition new_paths := filter (λ p, nextstate a ∉ source :: (nextstate <$> p)) l.

Lemma relaxed_weight_member : Member (Times rd0 (weight a)) = true.
Proof. pose proof arc_weight. apply Times_member; [apply Hopen|done]. Qed.

Lemma improve_all : absorbs (Plus (d (nextstate a)) (Times rd0 (weight a))) (Times d0 (weight a)).
Proof.
  pose proof arc_weight. pose proof relaxed_weight_member. pose proof (rel_d _ _ _ _ _ Hrel) as Hd.
  pose proof Hopen as [He0m Hrd0m Hd0m _ Hbef _].
  rewrite opened_Times. apply absorbs_Plus; eauto with weight. split; [|by apply absorbs_added].
  apply absorbs_grow; eauto with weight.
Qed.

Lemma improve_sum :
  Plus (d (nextstate a)) (Times rd0 (weight a)) ≡ Plus (d (nextstate a)) (wsum (extended <$> new_paths)).
Proof.
  pose proof arc_weight. pose proof (rel_d _ _ _ _ _ Hrel) as Hd.
  pose proof Hopen as [He0m Hrd0m Hd0m _ Hbef _].
  unfold new_paths. rewrite <-wsum_filter; [|done| |].
  - rewrite <-extended_sum, <-Hd0, opened_Times, Plus_assoc by eauto with weight.
    by rewrite (absorbs_eq _ _ (Hbef a Ha)).
  - apply Forall_forall. by apply extended_member.
  - intros p Hp Hin. apply extended_cycle; [|by destruct (decide (nextstate a ∈ source :: (nextstate <$> p)))].
    rewrite Forall_forall in Hl. by apply Hl.
Qed.

Lemma improve_rank :
  ¬ absorbs (d (nextstate a)) (Times rd0 (weight a)) →
  (unabsorbed (Plus (d (nextstate a)) (Times rd0 (weight a))) < unabsorbed (d (nextstate a)))%nat.
Proof.
  intros Hn. pose proof arc_weight as Hwa. pose proof relaxed_weight_member as Hw.
  pose proof (rel_d _ _ _ _ _ Hrel) as Hd. pose proof Hopen as [He0m Hrd0m Hd0m _ Hbef _].
  pose proof (extended_member l Hl) as Hm.
  assert (¬ Forall (λ p, weqb (Plus (d (nextstate a)) (extended p)) (d (nextstate a)) = true) l) as Hex.
  { intros Hall. apply Hn. enough (absorbs (d (nextstate a)) (Times d0 (weight a))) as Hd0a.
    { rewrite opened_Times in Hd0a. apply absorbs_Plus in Hd0a as [_ ?]; eauto with weight. }
    apply (absorbs_extended l); [done..|]. eapply Forall_impl; [done|]. intros p. by right. }
  apply not_Forall_Exists in Hex; [|apply _]. apply Exists_exists in Hex as (p & Hp & Hpa).
  rewrite Forall_forall in Hl, Hm.
  assert (¬ absorbs (d (nextstate a)) (extended p)) as Hpa'.
  { intros Hab. apply Hpa. apply weqb_equiv; [|done]. apply Plus_member; [done|by apply Hm]. }
  assert (nextstate a ∉ source :: (nextstate <$> p)) as Hnew by (intros ?; apply Hpa', extended_cycle; [by apply Hl|done]).
  pose proof improve_all as Hall. apply (absorbs_extended l) in Hall; [|eauto with weight|by apply Forall_forall|done].
  rewrite Forall_forall in Hall.
  apply (rank_decreases _ _ (p ++ [a])); [done|done| |done|by apply Hall].
  apply (simple_candidate _ (nextstate a)); [by eapply extended_path, Hl|by eapply extended_simple; [apply Hl|]].
Qed.

Definition improved : Z → W := <[nextstate a := Plus (d (nextstate a)) (Times rd0 (weight a))]> d.

Lemma improved_grows : grows d improved.
Proof. apply grows_insert; [apply Hrel|apply relaxed_weight_member]. Qed.

Lemma improved_reached p : p ∈ l → nextstate a ∉ source :: (nextstate <$> p) → reached improved (nextstate a) (p ++ [a]).
Proof.
  intros Hp Hn. pose proof Hl as Hl'. rewrite Forall_forall in Hl'.
  apply extended_reached; [by eapply reached_grows, Hl'; [apply improved_grows|]|done|].
  unfold improved. rewrite fn_lookup_insert. pose proof improve_all as Hall.
  pose proof (rel_d _ _ _ _ _ Hrel) as Hd. pose proof relaxed_weight_member.
  apply (absorbs_extended l) in Hall; [|eauto with weight|done|done]. rewrite Forall_forall in Hall. by apply Hall.
Qed.

(** An arc that improves the distance of its target. *)
Lemma relaxed_improve :
  relaxed (arcs_of s todo) improved (<[nextstate a := Plus (rd (nextstate a)) (Times rd0 (weight a))]> rd) e
    ({[nextstate a]} ∪ D) ∧
  opened improved s e0 rd0 d0.
Proof.
  pose proof arc_weight as Hwa. pose proof Hrel as [Hd Hrd He Hsplit Harc Hrest Hone Hsum].
  pose proof improved_grows as Hg. pose proof relaxed_weight_member as Hw. set (n := nextstate a) in *.
  split; [|by eapply opened_grows]. split; [apply Hg| |done| | | | |].
  - intros t. destruct (decide (t = n)) as [->|]; [rewrite fn_lookup_insert|by rewrite fn_lookup_insert_ne].
    eauto with weight.
  - intros t. unfold improved. fold n. destruct (decide (t = n)) as [->|]; [|by rewrite !fn_lookup_insert_ne].
    rewrite !fn_lookup_insert, Hsplit. symmetry. by apply Plus_assoc.
  - intros t b Ht Hb. pose proof (Hmem t b Ht Hb).
    destruct (Harc t b Ht Hb) as [[-> [->|?]%elem_of_cons]|?]; [right|by left|right].
    + fold n. rewrite He0. unfold improved. fold n. rewrite fn_lookup_insert. apply improve_all.
    + apply Hg; eauto with weight.
  - intros t Ht. rewrite fn_lookup_insert_ne by set_solver. apply Hrest. set_solver.
  - apply Hg; [eauto with weight|done].
  - intros t. destruct (Hsum t) as (k & Hk & Hdk).
    assert (Forall (reached improved t) k) as Hk' by (eapply Forall_impl; [done|]; intros p; by apply reached_grows).
    unfold improved at 2. fold n. destruct (decide (t = n)) as [->|]; [|exists k; by rewrite fn_lookup_insert_ne].
    exists (k ++ ((λ p, p ++ [a]) <$> new_paths)). rewrite fn_lookup_insert.
    assert (Forall (reached improved n) ((λ p, p ++ [a]) <$> new_paths)) as Hnew.
    { apply Forall_fmap, Forall_forall. intros p [? ?]%list_elem_of_filter. by apply improved_reached. }
    split; [by apply Forall_app|]. etrans; [apply improve_sum|]. fold n. rewrite Hdk, fmap_app.
    rewrite wsum_app by (by eapply reached_members). by rewrite <-list_fmap_compose.
Qed.
End relaxation.
