(* ===== verification/DistanceSpec.v ===== *)
(** The shortest-distance algorithm of ShortestDistance.v follows the relaxation of
Relaxation.v: for an idempotent right semiring whose cycles improve no path, an
exact test for convergence and any queue that keeps its promises it ends, and the
distance of each state is the sum of the weights of all paths to it. *)
From stdpp Require Import functions.
From S2P Require Import Prelude Weight FloatWeight Properties Fst Mutation Heap Dfs Scc StateSort TopSort Queue AutoQueue ShortestDistance Relaxation.
Local Open Scope Z_scope.

(** The machine that an algorithm with an arc filter sees. *)
Definition filtered {W} (arc_filter : Arc W → bool) (f : Fst W) : Fst W := {|
  Start := Start f; NumStates := NumStates f; Final := Final f;
  Arcs := λ s, filter (λ a, arc_filter a = true) (Arcs f s);
  FstProperties := FstProperties f; InputSymbols := InputSymbols f; OutputSymbols := OutputSymbols f |}.

(** As many visits as there are states times words of arcs. *)
Definition max_visits {W} (arc_filter : Arc W → bool) (f : Fst W) : nat :=
  Z.to_nat (NumStates f) * length (candidates (filtered arc_filter f)) + 1.

(** ** Vectors *)

Lemma pushed_vextend {A} n (l : list A) (x : A) : l ++ replicate (Z.to_nat (n + 1 - zlen l)) x = vextend n x l.
Proof.
  unfold vextend, vresize. destruct (Z.leb_spec (zlen l) n).
  - rewrite resize_ge by (unfold zlen in *; lia). do 2 f_equal. unfold zlen in *. lia.
  - replace (Z.to_nat _) with O by lia. apply app_nil_r.
Qed.

Lemma vset_total {A} (l : list A) i x : 0 ≤ i < zlen l → ∃ l', l.[i <- x] = Some l'.
Proof. intros Hi. eexists. by apply vset_is_Some. Qed.

Lemma vextend_default {A} n (l : list A) (x : A) s : default x ((vextend n x l).[s]) = default x (l.[s]).
Proof.
  rewrite vextend_get. case_decide as Hs; [|done]. by rewrite (proj2 (vget_None l s)) by lia.
Qed.

Section refinement.
Context `{RightSemiring W} `{!IdempotentWeight W} {Q : Type} `{!StateQueue W Q}.
Context (opts : Options W) (f : Fst W) (source : Z).
Local Notation g := (filtered (arc_filter_ opts) f).
Local Notation SD := (ShortestDistanceState W Q).
Implicit Types (st : SD) (s n : Z) (x y : W) (D : gset Z) (d rd e : Z → W).

(** ** The vectors of the computation *)

Record represents st d rd D : Prop := {
  rep_adder : sum_ <$> adder_ st = distance_ st;
  rep_radder : zlen (radder_ st) = zlen (distance_ st);
  rep_enqueued : zlen (enqueued_ st) = zlen (distance_ st);
  rep_len : zlen (distance_ st) ≤ NumStates f;
  rep_d : ∀ s, d s = default Zero ((distance_ st).[s]);
  rep_rd : ∀ s, rd s = default Zero (sum_ <$> (radder_ st).[s]);
  rep_in : ∀ s, default false ((enqueued_ st).[s]) = bool_decide (s ∈ D);
  rep_valid : ∀ s, s ∈ D → valid f s;
  rep_ok : error_ st = false;
}.

(** What the vectors hold at an index in range. *)
Record entry st d rd D n : Prop := {
  entry_d : (distance_ st).[n] = Some (d n);
  entry_adder : (adder_ st).[n] = Some {| sum_ := d n |};
  entry_radder : (radder_ st).[n] = Some {| sum_ := rd n |};
  entry_in : (enqueued_ st).[n] = Some (bool_decide (n ∈ D));
}.

Lemma represents_entry st d rd D n : represents st d rd D → 0 ≤ n < zlen (distance_ st) → entry st d rd D n.
Proof.
  intros [Ha Hr He Hl Hd Hrd Hin Hv _] Hn. specialize (Hd n). specialize (Hrd n). specialize (Hin n).
  destruct (vget_in_range (distance_ st) n Hn) as [x Hx].
  destruct (vget_in_range (radder_ st) n) as [[y] Hy]; [lia|].
  destruct (vget_in_range (enqueued_ st) n) as [b Hb]; [lia|].
  rewrite Hx in Hd. rewrite Hy in Hrd. rewrite Hb in Hin. simpl in *. subst y x. split; [done| |done|by rewrite Hb, Hin].
  rewrite <-Ha, vget_fmap in Hx. by apply fmap_Some in Hx as ([z] & -> & ->).
Qed.

Lemma Ensure_represents st d rd D n :
  represents st d rd D → valid f n →
  represents (EnsureDistanceIndexIsValid n st) d rd D ∧ entry (EnsureDistanceIndexIsValid n st) d rd D n.
Proof.
  intros [Ha Hr He Hl Hd Hrd Hin Hv Hok] [Hn0 Hn].
  assert (zlen (adder_ st) = zlen (distance_ st)) as Hal by by rewrite <-Ha, zlen_fmap.
  assert (EnsureDistanceIndexIsValid n st = MkSD (vextend n Zero (distance_ st)) (vextend n Adder_new (adder_ st))
    (vextend n Adder_new (radder_ st)) (vextend n false (enqueued_ st)) (sources_ st) (source_id_ st) (state_queue_ st) (error_ st)) as E.
  { unfold EnsureDistanceIndexIsValid. by rewrite <-!pushed_vextend, Hal, Hr, He. }
  assert (represents (EnsureDistanceIndexIsValid n st) d rd D) as Hst'.
  { rewrite E. split; cbn -[vextend valid]; rewrite ?vextend_len; try done; try congruence.
    - unfold EnsureDistanceIndexIsValid in E. injection E as <- <- _ _. by rewrite fmap_app, Ha, fmap_replicate.
    - lia.
    - intros s. rewrite vextend_default. by apply Hd.
    - intros s. rewrite Hrd, !vextend_get, Hr. case_decide as Hs; [|done].
      by rewrite (proj2 (vget_None (radder_ st) s)) by lia.
    - intros s. by rewrite vextend_default. }
  split; [done|]. apply represents_entry; [done|]. rewrite E. cbn -[vextend]. rewrite vextend_len. lia.
Qed.

Lemma set_distance_represents st d rd D n x y :
  represents st d rd D → is_Some ((distance_ st).[n]) →
  ∃ st', set_distance n x {| sum_ := x |} {| sum_ := y |} st = Some st' ∧
    represents st' (<[n := x]> d) (<[n := y]> rd) D ∧ state_queue_ st' = state_queue_ st ∧
    zlen (distance_ st') = zlen (distance_ st).
Proof.
  intros [Ha Hr He Hl Hd Hrd Hin Hv Hok] Hn%vget_is_Some.
  assert (zlen (adder_ st) = zlen (distance_ st)) as Hal by by rewrite <-Ha, zlen_fmap.
  destruct (vset_total (distance_ st) n x) as [ds Hds]; [done|].
  destruct (vset_total (adder_ st) n {| sum_ := x |}) as [ads Hads]; [lia|].
  destruct (vset_total (radder_ st) n {| sum_ := y |}) as [rds Hrds]; [lia|].
  unfold set_distance. rewrite Hds, Hads, Hrds. eexists. split; [done|]. simpl.
  pose proof (vset_len _ _ _ _ Hds) as Lds. pose proof (vset_len _ _ _ _ Hrds) as Lrds.
  split; [|done]. split; simpl; try done; try lia.
  - apply vec_eq. intros i _. rewrite vget_fmap, (vget_vset _ _ _ i _ Hads), (vget_vset _ _ _ i _ Hds).
    case_decide; [done|]. by rewrite <-Ha, vget_fmap.
  - intros s. rewrite (vget_vset _ _ _ s _ Hds). case_decide as Hs; subst; [by rewrite fn_lookup_insert|].
    by rewrite fn_lookup_insert_ne.
  - intros s. rewrite (vget_vset _ _ _ s _ Hrds). case_decide as Hs; subst; [by rewrite fn_lookup_insert|].
    by rewrite fn_lookup_insert_ne.
Qed.

Lemma set_enqueued_represents st d rd D D' n (b : bool) :
  represents st d rd D → is_Some ((distance_ st).[n]) →
  (∀ s, s ∈ D' ↔ if decide (n = s) then b = true else s ∈ D) → valid f n →
  ∃ st', set_enqueued n b st = Some st' ∧ represents st' d rd D' ∧ state_queue_ st' = state_queue_ st ∧
    distance_ st' = distance_ st ∧ radder_ st' = radder_ st.
Proof.
  intros [Ha Hr He Hl Hd Hrd Hin Hv Hok] Hn%vget_is_Some HD Hvn.
  destruct (vset_total (enqueued_ st) n b) as [es Hes]; [lia|].
  unfold set_enqueued. rewrite Hes. eexists. split; [done|]. simpl.
  pose proof (vset_len _ _ _ _ Hes). split; [|done]. split; simpl; try done; try lia.
  - intros s. rewrite (vget_vset _ _ _ s _ Hes). specialize (HD s). case_decide; simpl.
    + symmetry. destruct b; [by apply bool_decide_eq_true_2, HD|]. apply bool_decide_eq_false_2. by intros ?%HD.
    + rewrite Hin. by apply bool_decide_ext.
  - intros s. rewrite HD. case_decide as Hs; subst; [done|]. apply Hv.
Qed.

Lemma decide_add D n s : s ∈ {[n]} ∪ D ↔ if decide (n = s) then true = true else s ∈ D.
Proof.
  rewrite elem_of_union, elem_of_singleton. case_decide as Hs; [subst; split; [done|by left]|].
  split; [intros [->|?]; done|by right].
Qed.

Lemma decide_remove D n s : s ∈ D ∖ {[n]} ↔ if decide (n = s) then false = true else s ∈ D.
Proof.
  rewrite elem_of_difference, elem_of_singleton. case_decide as Hs; [subst; split; [by intros [_ []]|done]|].
  split; [by intros []|]. intros ?. split; [done|congruence].
Qed.

Lemma with_queue_represents q st d rd D : represents st d rd D → represents (with_queue q st) d rd D.
Proof. intros []. by split. Qed.

(** ** The loops *)

Context (Hwf : WellFormed f) (Hmem : all_arcs f (λ _ a, Member (weight a) = true)).
Context (Hcycles : cycles_absorbed g source) `{!QueueLaws (W:=W) (Q:=Q) (valid f) (edge f)}.
Context (Hexact : ∀ x y, Member x = true → Member y = true → weight_equal_ opts x y = true ↔ x ≡ y).
Context (Hretain : retain_ opts = false) (Hfirst : first_path_ opts = false).

Lemma filtered_arc s a : a ∈ Arcs g s ↔ arc_filter_ opts a = true ∧ a ∈ Arcs f s.
Proof. simpl. by rewrite list_elem_of_filter. Qed.

Lemma filtered_wf : WellFormed g.
Proof. destruct Hwf as (Hn & Ha & Hs). split_and!; [done| |done]. intros s a Hv [_ Hin]%filtered_arc. by apply (Ha s). Qed.

Lemma filtered_member : all_arcs g (λ _ a, Member (weight a) = true).
Proof. intros s a Hv [_ Hin]%filtered_arc. by apply (Hmem s). Qed.

Local Notation measure := (measure g).

(** A computation between two arcs of state [s]. *)
Definition running st s (e0 rd0 d0 : W) (todo : list (Arc W)) (m : nat) : Prop :=
  ∃ d rd e D, represents st d rd D ∧ holds (dom:=valid f) (R:=edge f) (state_queue_ st) (Some s) D ∧
    relaxed g source (arcs_of s todo) d rd e D ∧ opened g source d s e0 rd0 d0 ∧ e s = d0 ∧ (measure d D ≤ m)%nat.

Lemma relax_arc_runs st s (e0 rd0 d0 : W) a todo m :
  running st s e0 rd0 d0 (a :: todo) m → valid f s → a ∈ Arcs f s → arc_filter_ opts a = true →
  ∃ st', relax_arc opts rd0 st a = Some (st', true) ∧ running st' s e0 rd0 d0 todo m.
Proof.
  intros (d & rd & e & D & Hst & Hq & Hrel & Hopen & He & Hm) Hs Ha Hf.
  assert (valid f (nextstate a)) as Hn by (destruct Hwf as (_ & Hw & _); by apply (Hw s)).
  destruct (Ensure_represents st d rd D (nextstate a) Hst Hn) as [Hst1 [E1 E2 E3 E4]].
  unfold relax_arc. rewrite Hf. cbn [negb]. unfold renew. rewrite Hretain. cbn [negb mbind option_bind].
  rewrite E1, E2, E3. cbn [mbind option_bind].
  assert (a ∈ Arcs g s) as Hag by by apply filtered_arc.
  pose proof Hopen as [_ _ _ _ _ (l & Hl & Hd0)].
  pose proof (relaxed_weight_member g source filtered_member d s e0 rd0 d0 a Hs Hag Hopen) as Hw.
  pose proof (rel_d _ _ _ _ _ _ _ Hrel (nextstate a)) as Hdn.
  destruct (weight_equal_ opts (d (nextstate a)) (Plus (d (nextstate a)) (Times rd0 (weight a)))) eqn:Heq.
  { apply Hexact in Heq; [|done|eauto with weight]. eexists. split; [done|]. exists d, rd, e, D. split_and!; [done|done| |done..].
    eapply relaxed_skip; [apply filtered_member|done..|]. unfold absorbs. by symmetry. }
  assert (¬ absorbs (d (nextstate a)) (Times rd0 (weight a))) as Hnab.
  { intros Hab. rewrite (proj2 (Hexact _ _ Hdn (Plus_member _ _ Hdn Hw))) in Heq; [done|]. by symmetry. }
  pose proof (improve_rank g source filtered_member filtered_wf Hcycles d rd e D s e0 rd0 d0 a todo Hs Hag Hrel Hopen l Hl Hd0 Hnab) as Hrank.
  destruct (relaxed_improve g source filtered_member filtered_wf Hcycles d rd e D s e0 rd0 d0 a todo Hs Hag Hrel Hopen He l Hl Hd0) as [Hrel' Hopen'].
  cbn [Adder_Add sum_].
  destruct (set_distance_represents _ d rd D (nextstate a) (Plus (d (nextstate a)) (Times rd0 (weight a)))
    (Plus (rd (nextstate a)) (Times rd0 (weight a))) Hst1) as (st2 & -> & Hst2 & Hq2 & Hlen2); [by rewrite E1|].
  cbn [mbind option_bind Adder_Sum sum_].
  pose proof (rel_d _ _ _ _ _ _ _ Hrel' (nextstate a)) as Hm1. unfold improved in Hm1. rewrite fn_lookup_insert in Hm1.
  pose proof (rel_rd _ _ _ _ _ _ _ Hrel' (nextstate a)) as Hm2. rewrite fn_lookup_insert in Hm2.
  rewrite Hm1, Hm2. cbn [negb orb].
  assert (0 ≤ nextstate a < zlen (distance_ st2)) as Hr2 by (rewrite Hlen2; by eapply vget_range).
  destruct (represents_entry _ _ _ _ _ Hst2 Hr2) as [_ _ _ ->]. cbn [mbind option_bind].
  change (state_queue_ st2 = state_queue_ st) in Hq2. rewrite Hq2.
  pose proof (measure_improve g d D (nextstate a) _ Hn Hrank) as Hm'.
  destruct (decide (nextstate a ∈ D)) as [Hin|Hnin].
  - rewrite bool_decide_eq_true_2 by done. cbn [negb].
    destruct (queue_update (distance_ st2) _ _ D (nextstate a) Hq Hin) as (q & -> & Hq'). cbn [mbind option_bind].
    assert ({[nextstate a]} ∪ D = D) as HD by set_solver. rewrite HD in Hrel', Hm'.
    eexists. split; [done|]. exists (improved d rd0 a), (<[nextstate a := Plus (rd (nextstate a)) (Times rd0 (weight a))]> rd), e, D.
    split_and!; [by apply with_queue_represents|done..|]. unfold improved. lia.
  - rewrite bool_decide_eq_false_2 by done. cbn [negb].
    destruct (queue_enqueue (distance_ st2) _ _ D (nextstate a) Hq Hnin Hn) as (q & -> & Hq').
    { split; [done|]. by exists a. }
    cbn [mbind option_bind].
    destruct (set_enqueued_represents (with_queue q st2) _ _ D ({[nextstate a]} ∪ D) (nextstate a) true
      (with_queue_represents q _ _ _ _ Hst2)) as (st3 & -> & Hst3 & Hq3 & _); [by apply vget_is_Some| |done|].
    { by apply decide_add. }
    cbn [mbind option_bind]. eexists. split; [done|].
    exists (improved d rd0 a), (<[nextstate a := Plus (rd (nextstate a)) (Times rd0 (weight a))]> rd), e, ({[nextstate a]} ∪ D).
    split_and!; [done|by rewrite Hq3|done..|]. unfold improved. lia.
Qed.

Lemma relax_arcs_runs s (e0 rd0 d0 : W) m l st :
  l ⊆ Arcs f s → valid f s → running st s e0 rd0 d0 (filter (λ a, arc_filter_ opts a = true) l) m →
  ∃ st', relax_arcs opts rd0 st l = Some (st', true) ∧ running st' s e0 rd0 d0 [] m.
Proof.
  intros Hl Hs. revert st. induction l as [|a l IH]; intros st Hrun; [by exists st|].
  rewrite filter_cons in Hrun. simpl. assert (a ∈ Arcs f s) as Ha by (apply Hl; left).
  assert (l ⊆ Arcs f s) as Hl' by (intros x Hx; apply Hl; by right).
  destruct (decide (arc_filter_ opts a = true)) as [Hf|Hf].
  - destruct (relax_arc_runs _ _ _ _ _ _ _ _ Hrun Hs Ha Hf) as (st1 & -> & Hst1). cbn [mbind option_bind].
    by apply IH.
  - unfold relax_arc. apply not_true_is_false in Hf. rewrite Hf. cbn [negb mbind option_bind]. by apply IH.
Qed.

Lemma reset_radder st d rd D n :
  represents st d rd D → is_Some ((distance_ st).[n]) →
  ∃ radder, (radder_ st).[n <- {| sum_ := Zero |}] = Some radder ∧
    represents (MkSD (distance_ st) (adder_ st) radder (enqueued_ st) (sources_ st) (source_id_ st) (state_queue_ st) (error_ st))
      d (<[n := Zero]> rd) D.
Proof.
  intros [Ha Hr He Hl Hd Hrd Hin Hv Hok] Hn%vget_is_Some.
  destruct (vset_total (radder_ st) n {| sum_ := Zero |}) as [rds Hrds]; [lia|]. exists rds. split; [done|].
  pose proof (vset_len _ _ _ _ Hrds). split; simpl; try done; [lia|].
  intros s. rewrite (vget_vset _ _ _ s _ Hrds). case_decide as Hs; subst; [by rewrite fn_lookup_insert|].
  by rewrite fn_lookup_insert_ne.
Qed.

(** The loop on the queue. *)
Definition pending st d D : Prop :=
  ∃ h rd e, represents st d rd D ∧ holds (dom:=valid f) (R:=edge f) (state_queue_ st) h D ∧
    relaxed g source (λ _ _, False) d rd e D.

Lemma visit_state_runs st d D :
  pending st d D → D ≠ ∅ →
  ∃ st' d' D', visit_state opts f st = Some (st', Continue) ∧ pending st' d' D' ∧ (measure d' D' < measure d D)%nat.
Proof.
  intros (h & rd & e & Hst & Hq & Hrel) HD.
  destruct (queue_pop (distance_ st) _ _ _ Hq HD) as (q1 & s & q2 & Hhead & Hdeq & Hs & Hq2).
  assert (valid f s) as Hv by by apply Hst.
  destruct (Ensure_represents (with_queue q2 st) d rd D s (with_queue_represents q2 _ _ _ _ Hst) Hv) as [Hst1 Hent].
  unfold visit_state. rewrite Hhead. cbn [mbind option_bind]. rewrite Hdeq. cbn [mbind option_bind].
  rewrite Hfirst. cbn [andb].
  destruct (set_enqueued_represents _ _ _ D (D ∖ {[s]}) s false Hst1) as (st2 & -> & Hst2 & Hq2' & Hd2 & Hr2);
    [by rewrite (entry_d _ _ _ _ _ Hent)|intros t; apply decide_remove|done|].
  cbn [mbind option_bind]. rewrite Hr2, (entry_radder _ _ _ _ _ Hent). cbn [mbind option_bind Adder_Reset Adder_Sum sum_].
  unfold Adder_Reset.
  destruct (reset_radder _ _ _ _ s Hst2) as (radder & Hrad & Hst3); [by rewrite Hd2, (entry_d _ _ _ _ _ Hent)|].
  rewrite <-Hr2, Hrad. cbn [mbind option_bind].
  destruct (relaxed_take g source filtered_member filtered_wf Hcycles d rd e D s Hrel Hv) as [Hrel' Hopen].
  destruct (relax_arcs_runs s (e s) (rd s) (d s) (measure d (D ∖ {[s]})) (Arcs f s) _ (reflexivity _) Hv
    ltac:(exists d, (<[s := Zero]> rd), (<[s := d s]> e), (D ∖ {[s]}); split_and!;
      [exact Hst3|by rewrite Hq2'|exact Hrel'|exact Hopen|by rewrite fn_lookup_insert|done])) as (st' & -> & Hrun).
  cbn [mbind option_bind]. destruct Hrun as (d' & rd' & e' & D' & Hst' & Hq' & Hrel'' & _ & _ & Hm).
  exists st', d', D'. split; [done|]. split.
  - exists (Some s), rd', e'. split_and!; [done..|]. destruct Hrel'' as [? ? ? ? Harc ? ? ?]. split; try done.
    intros t a Ht Ha. right. destruct (Harc t a Ht Ha) as [[_ []%not_elem_of_nil]|?]; done.
  - rewrite (measure_take _ _ _ s Hs). lia.
Qed.

Lemma distance_loop_runs fuel st d D :
  pending st d D → (measure d D ≤ fuel)%nat →
  ∃ st' d', distance_loop opts f fuel st = Some (finish f st') ∧ pending st' d' ∅.
Proof.
  revert st d D. induction fuel as [|fuel IH]; intros st d D Hp Hm; pose proof Hp as (h & rd & e & _ & Hq & _);
    cbn [distance_loop]; rewrite (queue_empty _ _ _ Hq); cbn [mbind option_bind].
  - assert (D = ∅) as -> by (apply leibniz_equiv, size_empty_inv; unfold measure in Hm; lia).
    rewrite bool_decide_eq_true_2 by done. by exists st, d.
  - case_bool_decide as HD; [subst; by exists st, d|].
    destruct (visit_state_runs st d D Hp HD) as (st1 & d1 & D1 & -> & Hp1 & Hm1). cbn [mbind option_bind].
    apply (IH st1 d1 D1); [done|lia].
Qed.

(** ** The whole computation *)

Lemma start_at_runs src st h D :
  error_ st = false → holds (dom:=valid f) (R:=edge f) (state_queue_ st) h D → valid f source →
  (if src =? kNoStateId then Start f else src) = source →
  ∃ st', start_at opts f src st = Some st' ∧ pending st' (<[source := One]> (λ _, Zero)) {[source]}.
Proof.
  intros Hok Hq Hs Hsrc. destruct (queue_clear _ _ _ Hq) as (q & Hclear & Hq').
  unfold start_at. rewrite Hclear. cbn [mbind option_bind]. rewrite Hretain, Hsrc.
  set (st0 := MkSD _ _ _ _ _ _ _ _).
  assert (represents st0 (λ _, Zero) (λ _, Zero) ∅) as Hst0.
  { split; try done.
    - change (0 ≤ NumStates f). unfold valid in Hs. lia.
    - intros s. unfold st0. simpl. by rewrite (proj2 (vget_None (@nil W) s)) by (change (zlen (@nil W)) with 0; lia).
    - intros s. unfold st0. simpl. by rewrite (proj2 (vget_None (@nil (Adder (W:=W))) s)) by (change (zlen (@nil (Adder (W:=W)))) with 0; lia).
    - intros s. unfold st0. simpl. rewrite (proj2 (vget_None (@nil bool) s)) by (change (zlen (@nil bool)) with 0; lia). done. }
  destruct (Ensure_represents st0 _ _ _ source Hst0 Hs) as [Hst1 Hent].
  cbn [mbind option_bind]. unfold Adder_Reset.
  destruct (set_distance_represents _ _ _ _ source One One Hst1) as (st2 & -> & Hst2 & Hq2 & Hl2);
    [by rewrite (entry_d _ _ _ _ _ Hent)|]. cbn [mbind option_bind].
  assert (is_Some ((distance_ st2).[source])) as Hin2.
  { apply vget_is_Some. rewrite Hl2. eapply vget_range, (entry_d _ _ _ _ _ Hent). }
  destruct (set_enqueued_represents st2 _ _ ∅ {[source]} source true Hst2 Hin2) as (st3 & -> & Hst3 & Hq3 & _); [|done|].
  { intros s. pose proof (decide_add ∅ source s) as Hd. by rewrite (right_id_L ∅ (∪)) in Hd. }
  cbn [mbind option_bind]. rewrite Hq3, Hq2. change (state_queue_ (EnsureDistanceIndexIsValid source st0)) with q.
  destruct (queue_enqueue (distance_ st3) q None ∅ source Hq') as (q' & -> & Hq''); [set_solver|done|done|].
  cbn [mbind option_bind]. eexists. split; [done|]. exists None, (<[source := One]> (λ _, Zero)), (λ _, Zero).
  split_and!; [by apply with_queue_represents| |by apply relaxed_init; [apply filtered_member|apply filtered_wf|..]].
  by rewrite (right_id_L ∅ (∪)) in Hq''.
Qed.

Lemma measure_start d : (measure d {[source]} ≤ max_visits (arc_filter_ opts) f)%nat.
Proof. rewrite measure_bound, size_singleton. done. Qed.

Lemma State_ShortestDistance_runs src st h D fuel :
  error_ st = false → holds (dom:=valid f) (R:=edge f) (state_queue_ st) h D → valid f source →
  (if src =? kNoStateId then Start f else src) = source → Start f ≠ kNoStateId →
  has (wprops opts) kRightSemiring = true → (max_visits (arc_filter_ opts) f ≤ fuel)%nat →
  ∃ st' d', State_ShortestDistance opts f fuel src st = Some (finish f st') ∧ pending st' d' ∅.
Proof.
  intros Hok Hq Hs Hsrc Hst Hw Hfuel. unfold State_ShortestDistance.
  rewrite (proj2 (Z.eqb_neq _ _) Hst), Hw, Hfirst. cbn [negb andb].
  destruct (start_at_runs src st h D Hok Hq Hs Hsrc) as (st1 & -> & Hp). cbn [mbind option_bind].
  eapply distance_loop_runs; [done|]. pose proof (measure_start (<[source := One]> (λ _, Zero))). lia.
Qed.

(** C34: The shortest-distance algorithm, from any source and with any arc filter,
for a right semiring that is idempotent, an exact test for convergence and a
machine in which no cycle improves a path: with any queue that keeps its promises
it ends within [max_visits] visits, without an access out of range, and the
distance of every state is the sum of the weights of all paths to it ([Zero] past
the end of the vector); on a machine with the error bit it returns one weight that
is no member. *)
Theorem ShortestDistance_correct src queue h D fuel :
  holds (W:=W) (dom:=valid f) (R:=edge f) queue h D → valid f source →
  (if src =? kNoStateId then Start f else src) = source → Start f ≠ kNoStateId →
  has (wprops opts) kRightSemiring = true → (max_visits (arc_filter_ opts) f ≤ fuel)%nat →
  ∃ distance, ShortestDistance_options opts f fuel src queue = Some distance ∧
    if has (FstProperties f) kError then distance = [NoWeight]
    else zlen distance ≤ NumStates f ∧
      ∀ s, sum_of (path_weights g source s) (default Zero (distance.[s])).
Proof.
  intros Hq Hs Hsrc Hst Hw Hfuel. unfold ShortestDistance_options.
  destruct (State_ShortestDistance_runs src (ShortestDistanceState_new queue) h D fuel) as (st & d & -> & Hp); [done..|].
  cbn [mbind option_bind]. destruct Hp as (h' & rd & e & Hst' & _ & Hrel).
  unfold finish. destruct (has (FstProperties f) kError); simpl; [by eexists|].
  rewrite (rep_ok _ _ _ _ Hst'). eexists. split; [done|]. split; [apply Hst'|]. intros s.
  rewrite <-(rep_d _ _ _ _ Hst'). apply (relaxed_final g source) with rd e; [apply filtered_member|apply filtered_wf|done..].
Qed.
End refinement.

(** ** Where no cycle improves a path *)

Section cycles.
Context `{RightSemiring W} `{!IdempotentWeight W} (f : Fst W) (source : Z).

(** A weight that is bounded by [One]: to multiply with a weight improves nothing. *)
Lemma bounded_cycles_absorbed :
  all_arcs f (λ _ a, Member (weight a) = true) →
  (∀ x y : W, Member x = true → Member y = true → absorbs x (Times x y)) → cycles_absorbed f source.
Proof.
  intros Hmem Hb p q s Hp Hq. unfold pw. rewrite path_weight_app.
  assert (path_weight q One ≡ Times One (path_weight q One)) as E.
  { symmetry. apply Times_One_l. by eapply pw_member. }
  rewrite E. rewrite path_weight_Times; [|by eapply path_member|eauto with weight|by eapply pw_member].
  apply Hb; by eapply pw_member.
Qed.

Lemma acyclic_cycles_absorbed :
  all_arcs f (λ _ a, Member (weight a) = true) → ¬ Holds f Cyclic → cycles_absorbed f source.
Proof.
  intros Hmem Hac p q s Hp Hq. destruct q as [|a q].
  - rewrite app_nil_r. apply absorbs_refl. by eapply pw_member.
  - destruct Hac. exists s. inversion Hq as [|? ? ? ? Hs Ha Hq']; subst. apply path_rtc in Hq'.
    eapply tc_rtc_r; [|done]. apply tc_once. split; [done|]. by exists a.
Qed.
End cycles.

(** ** A queue that is chosen for the machine *)

Section interfaces.
Context `{RightSemiring W} `{!IdempotentWeight W} (wprops : Z) (weight_equal : W → W → bool).
Context (Hexact : ∀ x y, Member x = true → Member y = true → weight_equal x y = true ↔ x ≡ y).
Context (Hright : has wprops kRightSemiring = true) (f : Fst W) (Hwf : WellFormed f) (Hsound : SoundFst f).
Context (Hmem : member_weights f) (Hok : has (FstProperties f) kError = false).
Context (Hcycles : cycles_absorbed f (Start f)).

Lemma any_path s p t : path (filtered AnyArcFilter f) s p t ↔ path f s p t.
Proof using.
  assert (∀ u, Arcs (filtered AnyArcFilter f) u = Arcs f u) as Ha.
  { intros u. simpl. by apply filter_all. }
  split; induction 1; constructor; try done; by rewrite ?Ha in *.
Qed.

Lemma any_path_weights s x : path_weights (filtered AnyArcFilter f) (Start f) s x ↔ path_weights f (Start f) s x.
Proof using. unfold path_weights. by setoid_rewrite any_path. Qed.

Lemma sum_of_ext (P P' : W → Prop) x : (∀ y, P y ↔ P' y) → sum_of P x → sum_of P' x.
Proof using.
  intros HP (Hx & (l & Hl & Hxl) & Ha). split; [done|]. split.
  - exists l. split; [|done]. eapply Forall_impl; [done|]. intros y. apply HP.
  - intros y Hy. by apply Ha, HP.
Qed.

Lemma forward_runs properties0 acyclic0 fuel :
  (max_visits AnyArcFilter f ≤ fuel)%nat →
  ∃ distance, ShortestDistance_forward wprops weight_equal properties0 acyclic0 fuel f = Some distance ∧
    zlen distance ≤ NumStates f ∧ ∀ s, sum_of (path_weights f (Start f) s) (default Zero (distance.[s])).
Proof.
  intros Hfuel. unfold ShortestDistance_forward.
  destruct (AutoQueue_new_holds wprops properties0 acyclic0 f true Hwf Hsound) as (q & -> & _ & Hq).
  cbn [mbind option_bind]. set (opts := MkOptions wprops weight_equal AnyArcFilter false false).
  destruct (decide (Start f = kNoStateId)) as [Hst|Hst].
  { unfold ShortestDistance_options, State_ShortestDistance. rewrite Hst, Hok. cbn. eexists. split; [done|].
    split; [apply Hwf|]. intros s. rewrite (proj2 (vget_None _ _)) by (change (zlen (@nil W)) with 0; lia).
    split; [apply Zero_member|]. split; [by exists []|]. intros x (p & Hp%path_valid_l & _).
    unfold valid, kNoStateId in Hp. lia. }
  assert (valid f (Start f)) as Hv by by destruct Hwf as (_ & _ & [?|?]).
  assert (cycles_absorbed (filtered (arc_filter_ opts) f) (Start f)) as Hc.
  { intros p c s Hp%any_path Hc%any_path. by eapply Hcycles. }
  unfold ShortestDistance_options.
  destruct (State_ShortestDistance_runs opts f (Start f) Hwf (proj1 Hmem) Hc Hexact eq_refl eq_refl kNoStateId
    (ShortestDistanceState_new q) None ∅ fuel eq_refl Hq Hv eq_refl Hst Hright Hfuel) as (st & d & -> & h & rd & e & Hst' & _ & Hrel).
  cbn [mbind option_bind]. unfold finish. rewrite Hok. simpl. rewrite (rep_ok _ _ _ _ _ Hst').
  eexists. split; [done|]. split; [apply Hst'|]. intros s. rewrite <-(rep_d _ _ _ _ _ Hst').
  eapply sum_of_ext; [apply any_path_weights|].
  eapply relaxed_final; [apply (filtered_member opts f (proj1 Hmem))|apply (filtered_wf opts f Hwf)|done..].
Qed.
(** ** The weight of a machine *)

Definition accepted_from (s : Z) (x : W) : Prop := ∃ i o, accepts_from f s i o x.
Local Notation accepted := (accepted_from (Start f)).

Lemma accepted_spec s x :
  accepted_from s x ↔ ∃ p t, path f s p t ∧ is_final f t ∧ Times (pw p) (Final f t) ≡ x.
Proof.
  assert (∀ p t, path f s p t → Times (pw p) (Final f t) ≡ path_weight p (Final f t)) as E.
  { intros p t Hp. unfold pw. pose proof (path_valid_r _ _ _ _ Hp) as Ht. destruct Hmem as [Hma Hmf].
    etrans; [symmetry; apply path_weight_Times; [by eapply path_member|eauto with weight|by apply Hmf]|].
    apply path_weight_proper, Times_One_l. by apply Hmf. }
  split.
  - intros (i & o & p & t & Hp & Ht & _ & _ & Hx). exists p, t. split_and!; [done..|]. by rewrite E.
  - intros (p & t & Hp & Ht & Hx). exists (istring p), (ostring p), p, t. split_and!; [done..|]. by rewrite <-E.
Qed.

(** One state of the sum. *)
Lemma final_sum s d :
  sum_of (path_weights f (Start f) s) d → valid f s →
  ∃ l, Forall accepted l ∧ Forall (λ x, Member x = true) l ∧ Times d (Final f s) ≡ wsum l.
Proof.
  intros (Hd & (l & Hl & Hdl) & _) Hs. pose proof (proj2 Hmem s Hs) as Hf.
  destruct (weqb (Final f s) Zero) eqn:Hz.
  { exists []. split_and!; [done|done|]. apply weight_equiv_weqb in Hz. rewrite Hz. by apply Times_Zero_r'. }
  assert (Forall (λ x, Member x = true) l) as Hm.
  { eapply Forall_impl; [done|]. intros x (p & Hp & ->). eapply pw_member; [apply Hmem|done]. }
  exists ((λ x, Times x (Final f s)) <$> l). split_and!.
  - apply Forall_fmap. eapply Forall_impl; [exact Hl|]. intros x (p & Hp & ->). apply accepted_spec. by exists p, s.
  - apply Forall_fmap. eapply Forall_impl; [exact Hm|]. intros x Hx. simpl. eauto with weight.
  - by rewrite Hdl, wsum_Times.
Qed.

Lemma sum_finals_runs distance :
  zlen distance ≤ NumStates f → (∀ s, sum_of (path_weights f (Start f) s) (default Zero (distance.[s]))) →
  ∃ w, sum_finals f distance = Some w ∧ sum_of accepted w.
Proof.
  intros Hlen Hsum. unfold sum_finals.
  assert (∀ s d, distance.[s] = Some d → sum_of (path_weights f (Start f) s) d ∧ valid f s) as Hget.
  { intros s d Hd. specialize (Hsum s). rewrite Hd in Hsum. split; [done|]. apply vget_range in Hd. unfold valid. lia. }
  set (I := λ (done : list Z) (a : Adder (W:=W)), (∃ l, Forall accepted l ∧ Forall (λ x, Member x = true) l ∧ sum_ a ≡ wsum l) ∧
    ∀ s d, s ∈ done → distance.[s] = Some d → absorbs (sum_ a) (Times d (Final f s))).
  edestruct (foldM_total (λ adder state, d ← distance.[state]; Some (Adder_Add adder (Times d (Final f state))).1) I) as (a & -> & HI).
  - split; [by exists []|]. intros s d []%not_elem_of_nil.
  - intros done s todo a Hl [(l & Hl1 & Hl2 & Hla) Hab].
    assert (s ∈ seqZ 0 (zlen distance)) as Hs by (rewrite Hl; apply elem_of_app; right; left).
    apply elem_of_seqZ in Hs. destruct (vget_in_range distance s) as [d Hd]; [lia|]. rewrite Hd. simpl.
    destruct (Hget s d Hd) as [Hsd Hv]. destruct (final_sum s d Hsd Hv) as (k & Hk1 & Hk2 & Hdk).
    eexists. split; [reflexivity|]. simpl.
    assert (Member (sum_ a) = true) as Ha by (rewrite Hla; by apply wsum_member).
    assert (∀ t x, distance.[t] = Some x → Member (Times x (Final f t)) = true) as Hm.
    { intros t x Hx. destruct (Hget t x Hx) as [[Hxm _] Ht]. pose proof (proj2 Hmem t Ht). eauto with weight. }
    split.
    + exists (l ++ k). split_and!; [by apply Forall_app|by apply Forall_app|]. simpl. by rewrite wsum_app, Hla, Hdk.
    + intros t x Ht Hx. simpl. apply elem_of_snoc in Ht as [Ht| ->].
      * apply absorbs_grow; eauto.
      * rewrite Hd in Hx. injection Hx as <-. apply absorbs_added; eauto.
  - destruct HI as [(l & Hl1 & Hl2 & Hla) Hab]. eexists. split; [done|]. unfold Adder_Sum.
    assert (Member (sum_ a) = true) as Ha by (rewrite Hla; by apply wsum_member).
    split; [done|]. split; [by exists l|].
    intros x (p & t & Hp & [Ht _] & Hx)%accepted_spec. rewrite <-Hx. clear x Hx. pose proof (proj2 Hmem t Ht) as Hf.
    pose proof (pw_member f (proj1 Hmem) _ _ _ Hp) as Hpm.
    specialize (Hsum t) as (Hd & _ & Habs). specialize (Habs (pw p) ltac:(by exists p)).
    destruct (distance.[t]) as [d|] eqn:Hdt; simpl in *.
    + apply (absorbs_trans _ (Times d (Final f t))); eauto with weight.
      * apply Hab; [|done]. apply elem_of_seqZ. apply vget_range in Hdt. lia.
      * by apply absorbs_Times.
    + assert (pw p ≡ Zero) as ->.
      { rewrite <-(Plus_Zero_l (pw p)) by done. by apply absorbs_eq. }
      rewrite Times_Zero_l' by done. by apply absorbs_Zero.
Qed.

(** C35: The weight of a machine is the sum of the weights of all string pairs that
it accepts, computed within the same bound with a queue that is chosen for the
machine, whatever the bits that are not known and the first value of the local
variables. *)
Theorem ShortestDistance_total_correct properties0 acyclic0 fuel :
  (max_visits AnyArcFilter f ≤ fuel)%nat →
  ∃ w, ShortestDistance_total wprops weight_equal properties0 acyclic0 fuel f = Some w ∧
    sum_of (λ x, ∃ i o, accepts f i o x) w.
Proof.
  intros Hfuel. destruct (forward_runs properties0 acyclic0 fuel Hfuel) as (distance & Hd & Hlen & Hsum).
  unfold ShortestDistance_total. rewrite Hd. cbn [mbind option_bind].
  destruct (sum_finals_runs distance Hlen Hsum) as (w & Hw & Ht). exists w. split; [|done].
  destruct distance as [|d [|d' distance]]; [done| |done].
  destruct (Hsum 0) as [Hm _]. change (default Zero ([d].[0])) with d in Hm. by rewrite Hm.
Qed.
End interfaces.

(** ** Instances *)

Section witnesses.
Local Notation M := MinMaxWeight.

Lemma fmin_fmax_absorb x y : x ≠ S754_nan → y ≠ S754_nan → rank (fmin x (fmax x y)) = rank x.
Proof. min_max_laws. Qed.

(** The larger of two weights improves neither of them. *)
Lemma minmax_absorbs (x y : M) : Member x = true → Member y = true → absorbs x (Times x y).
Proof.
  intros Hx Hy. pose proof (MinMaxTimes_closed _ _ Hx Hy). pose proof (proj1 (MinMaxMember_spec x) Hx).
  pose proof (proj1 (MinMaxMember_spec y) Hy).
  apply minmax_equiv; [by apply MinMaxMember_spec, MinMaxPlus_closed|done|].
  change (Plus ?a ?b) with (MinMaxPlus a b). rewrite MinMaxPlus_member by done.
  change (Times ?a ?b) with (MinMaxTimes a b). rewrite MinMaxTimes_member by done. by apply fmin_fmax_absorb.
Qed.

Lemma minmax_cycles_absorbed (f : Fst M) source :
  all_arcs f (λ _ a, Member (weight a) = true) → cycles_absorbed f source.
Proof. intros Hmem. by apply bounded_cycles_absorbed; [|apply minmax_absorbs]. Qed.

Lemma weqb_exact (x y : M) : Member x = true → Member y = true → weqb x y = true ↔ x ≡ y.
Proof. intros Hx _. by apply weqb_equiv. Qed.

Lemma weighted_loop_wf : WellFormed weighted_loop.
Proof. by apply well_formedb_spec. Qed.

Lemma weighted_loop_member : member_weights weighted_loop.
Proof. by apply member_weightsb_spec. Qed.

Lemma weighted_loop_sound : SoundFst weighted_loop.
Proof. intros t. by destruct t. Qed.

(** Only the arcs with an input label: the state after the loop is not reached. *)
Definition labelled (a : Arc M) : bool := negb (ilabel a =? 4).

Definition loop_options : Options M := MkOptions MinMaxProperties weqb labelled false false.

Lemma ShortestDistance_correct_witness :
  ∃ distance, ShortestDistance_options loop_options weighted_loop (max_visits labelled weighted_loop) 1 (MkFifo []) = Some distance ∧
    zlen distance ≤ 4 ∧ ∀ s, sum_of (path_weights (filtered labelled weighted_loop) 1 s) (default Zero (distance.[s])).
Proof.
  apply (ShortestDistance_correct loop_options weighted_loop 1 weighted_loop_wf (proj1 weighted_loop_member)
    (minmax_cycles_absorbed _ _ (filtered_member loop_options _ (proj1 weighted_loop_member)))
    (QueueLaws0:=bag_queue (W:=M) (valid weighted_loop) (edge weighted_loop)) weqb_exact eq_refl eq_refl 1 (MkFifo []) None ∅);
    [apply listed_nil|done..].
Defined.

Example weighted_loop_distances :
  ShortestDistance_options loop_options weighted_loop 8 1 (MkFifo []) =
  Some [Zero; One; MinMax (S754_finite false 4 0)].
Proof. by vm_compute. Qed.

Lemma ShortestDistance_total_correct_witness :
  ∃ w, ShortestDistance_total MinMaxProperties weqb 0 false (max_visits AnyArcFilter weighted_loop) weighted_loop = Some w ∧
    sum_of (λ x, ∃ i o, accepts weighted_loop i o x) w.
Proof.
  apply (ShortestDistance_total_correct MinMaxProperties weqb weqb_exact eq_refl weighted_loop weighted_loop_wf weighted_loop_sound
    weighted_loop_member eq_refl (minmax_cycles_absorbed _ _ (proj1 weighted_loop_member))). done.
Defined.

Example weighted_loop_weight :
  ShortestDistance_total MinMaxProperties weqb 0 false 8 weighted_loop = Some (MinMax (S754_finite false 4 0)).
Proof. by vm_compute. Qed.
End witnesses.
