(* ===== verification/ReverseDistance.v ===== *)
(** Shortest distances to the final states (openfst/lib/shortest-distance.h): the
distances of the reversed machine, turned round again, and with them the weight of a
machine where weights are no right semiring.  Proved here: each distance is the sum of
the weights of everything that is accepted from its state. *)
From S2P Require Import Prelude Weight FloatWeight Properties Fst VectorFst Mutation VectorSound MutableFst Rational RationalLang RationalSpec Dfs.
From S2P Require Import Queue AutoQueue ShortestDistance Relaxation DistanceSpec Reverse ReverseSpec.
Local Open Scope Z_scope.

(** * The operations *)

Section reverse_distance.
Context `{WeightOps W} `{WeightOps R} `{!ReverseWeight W R} `{!ReverseWeight R W}.
Context (wprops rprops : Z) (weight_equal : W → W → bool) (rweight_equal : R → R → bool).
Implicit Types (fst : Fst W).

(** With no distance at all the length less one wraps around. *)

(* shortest-distance.h:311-334 ShortestDistance *)
Definition ShortestDistance_reverse (properties0 : Z) (acyclic0 : bool) (fuel : nat) (known : option Z) fst : option (list W) :=
  rfst ← Reverse (R:=R) fst known (VectorFst_new : VectorFst R) true;
  rdistance ← ShortestDistance_forward rprops rweight_equal properties0 acyclic0 fuel (view rfst);
  let turn_back :=
    if zlen rdistance =? 0 then None
    else foldM (λ distance i, r ← rdistance.[i + 1]; Some (distance ++ [Reverse_ r])) (seqZ 0 (zlen rdistance - 1)) [] in
  match rdistance with
  | [r] => if Member r then turn_back else Some [NoWeight]
  | _ => turn_back
  end.

(* shortest-distance.h:339-364 ShortestDistance *)
Definition ShortestDistance_weight (properties0 : Z) (acyclic0 : bool) (fuel : nat) (known : option Z) fst : option W :=
  if has wprops kRightSemiring then ShortestDistance_total wprops weight_equal properties0 acyclic0 fuel fst else
  distance ← ShortestDistance_reverse properties0 acyclic0 fuel known fst;
  let state := Start fst in
  let weight :=
    if negb (state =? kNoStateId) && (state <? zlen distance) then distance.[state] else Some Zero in
  match distance with
  | [d] => if Member d then weight else Some NoWeight
  | _ => weight
  end.
End reverse_distance.

(** * No error is made by reversing *)

Section no_error.
Context `{WeightEq W} `{WeightEq R} `{!ReverseWeight W R}.
Implicit Types (x y : VectorFst R) (f : Fst W).

Definition fine x : Prop := has (properties_ x) kError = false.

Lemma SetProperties_fine x p : fine x → has p kError = false → fine (SetProperties x p).
Proof.
  unfold fine. rewrite !error_bit. change (properties_ (SetProperties x p)) with (properties_ x &&& kError ||| p). bits. by intros -> ->.
Qed.

Lemma SetStart_fine x s : fine x → fine (SetStart x s).
Proof. intros Hx. apply SetProperties_fine; [done|]. unfold fine in Hx. revert Hx. rewrite !error_bit. change (properties_ (Base_SetStart x s)) with (properties_ x).
  unfold SetStartProperties. destruct (has _ kAcyclic); bits; by intros ->. Qed.

Lemma AddState_fine x : fine x → fine (AddState x).1.
Proof. intros Hx. apply (SetProperties_fine (Base_AddState x).1); [done|]. unfold fine in Hx. revert Hx. rewrite !error_bit.
  unfold AddStateProperties. change (Z.testbit (properties_ x) 2 = false → Z.testbit (properties_ x &&& kAddStateProperties) 2 = false).
  bits. by intros ->. Qed.

Lemma SetFinal_fine x s w y : fine x → SetFinal x s w = Some y → fine y.
Proof.
  intros Hx E. unfold SetFinal in E. apply bind_Some in E as (old & _ & E). apply bind_Some in E as (z & Hz & [= <-]).
  destruct (on_state_rest _ _ _ _ Hz) as [_ Ez]. apply SetProperties_fine; unfold fine in *; [by rewrite Ez|]. revert Hx. rewrite !error_bit.
  unfold SetFinalProperties. destruct (_ && _), (_ && _); bits; by intros ->.
Qed.

Lemma AddArc_fine x s a y : fine x → AddArc x s a = Some y → fine y.
Proof.
  intros Hx E. destruct (AddArc_inv _ _ _ _ E) as (z & [_ Ez]%on_state_rest & _ & _ & ->).
  apply SetProperties_fine; unfold fine in *; [by rewrite Ez|]. revert Hx. rewrite !error_bit.
  cbv beta delta [AddArcProperties]. destruct (last _); bits; by intros ->.
Qed.

Lemma add_states_fine x s : fine x → fine (add_states_to x s).
Proof.
  unfold add_states_to. generalize (seqZ (NumStates (view x)) (s + 1 - NumStates (view x))). intros l. revert x.
  induction l as [|i l IH]; intros x Hx; [done|]. by apply IH, AddState_fine.
Qed.

Lemma foldM_fine {A} (op : VectorFst R → A → option (VectorFst R)) l : (∀ x a y, fine x → op x a = Some y → fine y) →
  ∀ x y, fine x → foldM op l x = Some y → fine y.
Proof.
  intros Hop. induction l as [|a l IH]; intros x y Hx E; [by injection E as <-|].
  cbn [foldM] in E. apply bind_Some in E as (z & Ez & E). by eapply IH; [eapply Hop|].
Qed.

Lemma reverse_state_fine f offset ostart x s y : fine x → reverse_state f offset ostart x s = Some y → fine y.
Proof.
  intros Hx E. unfold reverse_state in E. apply (add_states_fine x (s + offset)) in Hx. revert Hx E. generalize (add_states_to x (s + offset)). intros z Hz E.
  apply bind_Some in E as (z1 & E1 & E). apply bind_Some in E as (z2 & E2 & E).
  assert (fine z1) as Hf1 by (destruct (s =? Start f); [exact (SetFinal_fine _ _ _ _ Hz E1)|by injection E1 as <-]).
  assert (fine z2) as Hf2 by (destruct (_ && _); [exact (AddArc_fine _ _ _ _ Hf1 E2)|by injection E2 as <-]).
  eapply foldM_fine; [|exact Hf2|exact E]. intros u a v Hu Ea. unfold reverse_arc in Ea. eapply AddArc_fine; [|exact Ea]. by apply add_states_fine.
Qed.

Lemma SetPropertiesMask_fine x p m : fine x → has p kError = false → fine (SetPropertiesMask x p m).
Proof.
  unfold fine. rewrite !error_bit. unfold SetPropertiesMask. cbn [properties_ with_properties]. rewrite Z.lor_spec, !Z.land_spec. by intros -> ->.
Qed.

(** Reversal of a machine without an error makes none. *)
Lemma Reverse_fine f known y : has (FstProperties f) kError = false →
  Reverse f known (VectorFst_new : VectorFst R) true = Some y → fine y.
Proof.
  intros Hf E. unfold Reverse, choose_start in E. cbn [mbind option_bind] in E. rewrite Z.eqb_refl in E.
  set (e := mSetOutputSymbols _ _) in E. assert (fine (mAddState e).1) as Hf0 by by apply AddState_fine.
  destruct (mAddState e) as [e1 o]. cbn [fst] in Hf0. clearbody e.
  apply bind_Some in E as (z & Ez & E). pose proof (foldM_fine _ _ (reverse_state_fine f 1 o) _ _ Hf0 Ez) as Hz. clear Ez.
  apply (SetStart_fine z o) in Hz. change (1 =? 0) with false in E. cbn [andb] in E. injection E as <-.
  apply SetPropertiesMask_fine; [exact Hz|]. revert Hz Hf. unfold fine, ReverseProperties. rewrite !error_bit. change (1 =? 1) with true. cbn iota beta.
  unfold mProperties. change (FstProperties (view (SetStart z o))) with (properties_ (SetStart z o)).
  generalize (properties_ (SetStart z o)), (FstProperties f). intros P Q. bits. rewrite Z.bits_0. by intros -> ->.
Qed.
End no_error.

(** * What the distances are *)

(** Turning weights of the reversed machine round again: sums stay sums, and what was
turned round twice is what it was. *)
Class ReverseBackLaws (W R : Type) `{WeightEq W} `{WeightEq R} `{!ReverseWeight W R} `{!ReverseWeight R W} := {
  back_proper :: Proper ((≡) ==> (≡)) (Reverse_ : R → W);
  back_member : ∀ r : R, Member r = true → Member (Reverse_ r : W) = true;
  back_Zero : (Reverse_ (Zero : R) : W) ≡ Zero;
  back_Plus : ∀ r s : R, Member r = true → Member s = true → (Reverse_ (Plus r s) : W) ≡ Plus (Reverse_ r) (Reverse_ s);
  back_inverse : ∀ a : W, Member a = true → (Reverse_ (Reverse_ a : R) : W) ≡ a;
}.

Section back.
Context `{TimesMonoid W} `{!PlusMonoid W} `{RightSemiring R} `{!IdempotentWeight R} `{!ReverseWeight W R} `{!ReverseWeightLaws W R}.
Context `{!ReverseWeight R W} `{!ReverseBackLaws W R}.
Implicit Types (f : Fst W).

Lemma wsum_back (l : list R) : Forall (λ r, Member r = true) l → (Reverse_ (wsum l) : W) ≡ wsum (Reverse_ <$> l).
Proof.
  induction 1 as [|r l Hr Hl IH]; [apply back_Zero|]. cbn [wsum foldr fmap list_fmap].
  change (foldr Plus Zero ?k) with (wsum k). rewrite back_Plus by (done || by apply wsum_member). by rewrite IH.
Qed.

(** The sum of a set, turned round. *)
Lemma sum_of_back (P : R → Prop) (P' : W → Prop) d : sum_of P d → (∀ r, P r → Member r = true) →
  (∀ r, P r → P' (Reverse_ r)) → (∀ w, P' w → ∃ r, P r ∧ (Reverse_ r : W) ≡ w) → sum_of P' (Reverse_ d).
Proof.
  intros (Hd & (l & Hl & Hdl) & Ha) Hm Hto Hfrom. split; [by apply back_member|]. split.
  - exists (Reverse_ <$> l). split; [by apply Forall_fmap; eapply Forall_impl|]. rewrite Hdl. apply wsum_back.
    by eapply Forall_impl.
  - intros w (r & Hr & Hrw)%Hfrom. pose proof (Ha r Hr) as Hab. unfold absorbs in *. rewrite <-Hrw.
    rewrite <-back_Plus by auto. by rewrite Hab.
Qed.

Context (Hone : weqb (One : R) Zero = false).

(** The paths of the reversed machine from its new start. *)
Lemma reversed_weight f p s t : WellFormed f → member_weights f → path f s p t → is_final f t →
  path_weight (MkArc 0 0 (Reverse_ (Final f t)) (t + 1) :: turned_path (R:=R) f 1 0 s p) One ≡ Reverse_ (path_weight p (Final f t)).
Proof.
  intros Hwf Hm Hp Ht. pose proof (proj2 Hm t (proj1 Ht)) as Hmt.
  assert (Forall (λ a, Member (weight a) = true) p) as Hmp by (eapply (path_member f); [apply Hm|exact Hp]).
  assert (Member (path_weight p One) = true) as Hm1 by (apply path_weight_member; [done|apply One_member]).
  assert (path_weight p (Final f t) ≡ Times (path_weight p One) (Final f t)) as ->.
  { rewrite <-path_weight_Times by (done || apply One_member). by rewrite Times_One_l. }
  rewrite Reverse_Times by done. cbn [path_weight foldr weight].
  rewrite (turned_path_weight f 1 0 Hwf Hm ltac:(by left) Hone s p t One Hp One_member) by done.
  by rewrite Times_One_r by by apply Reverse_member.
Qed.

Lemma reversed_paths f s r : WellFormed f → member_weights f → valid f s → path_weights (abs_reverse (R:=R) f 1 0) 0 (s + 1) r →
  ∃ p t, path f s p t ∧ is_final f t ∧ r ≡ Reverse_ (path_weight p (Final f t)).
Proof.
  intros Hwf Hm Hs (q & Hq & ->). inversion Hq as [|? b q' ? Hv Hb Hq']; subst; [unfold valid in Hs; lia|].
  destruct (proj1 (reverse_arc_in f 1 0 Hwf Hm ltac:(by left) Hone 0 b) (conj Hv Hb)) as [(u & a & [Hu Ha] & E0 & _)|(_ & _ & t & Ht & ->)].
  { pose proof (proj1 (proj2 Hwf) u a Hu Ha) as [? _]. lia. }
  cbn [nextstate] in Hq'. destruct (turned_path_bwd f 1 0 Hwf Hm ltac:(by left) Hone _ _ _ Hq') as (p & Hp & ->).
  { replace (t + 1 - 1) with t by lia. apply Ht. }
  replace (s + 1 - 1) with s in * by lia. replace (t + 1 - 1) with t in Hp by lia.
  exists p, t. split_and!; [done|done|]. by apply reversed_weight.
Qed.

Lemma paths_reversed f s p t : WellFormed f → member_weights f → path f s p t → is_final f t →
  ∃ r, path_weights (abs_reverse (R:=R) f 1 0) 0 (s + 1) r ∧ r ≡ Reverse_ (path_weight p (Final f t)).
Proof.
  intros Hwf Hm Hp Ht. set (q := MkArc 0 0 (Reverse_ (Final f t)) (t + 1) :: turned_path (R:=R) f 1 0 s p).
  exists (path_weight q One). split; [|by apply reversed_weight]. exists q. split; [|done].
  destruct (proj2 (reverse_arc_in f 1 0 Hwf Hm ltac:(by left) Hone 0 (MkArc 0 0 (Reverse_ (Final f t)) (t + 1)))) as [Hv Hb]; [right; split_and!; [done|done|by exists t]|].
  apply path_cons; [done|done|]. by apply (turned_path_fwd f 1 0 Hwf Hm ltac:(by left) Hone).
Qed.
End back.

Section correct.
Context `{TimesMonoid W} `{!PlusMonoid W} `{RightSemiring R} `{!IdempotentWeight R} `{!ReverseWeight W R} `{!ReverseWeightLaws W R}.
Context `{!ReverseWeight R W} `{!ReverseBackLaws W R}.
Context (wprops rprops : Z) (weight_equal : W → W → bool) (rweight_equal : R → R → bool).
Context (Hone : weqb (One : R) Zero = false) (Hright : has rprops kRightSemiring = true).
Context (Hexact : ∀ x y : R, Member x = true → Member y = true → rweight_equal x y = true ↔ x ≡ y).
Context (f : Fst W) (Hwf : WellFormed f) (Hmem : member_weights f) (Hsound : SoundFst f) (Hok : has (FstProperties f) kError = false).
Context (known : option Z) (Hknown : known_states f known).
Notation g := (abs_reverse (R:=R) f 1 0).
Context (Hcycles : cycles_absorbed g 0).

Lemma turned_back (r : R) rest :
  foldM (λ (distance : list W) i, r ← (r :: rest).[i + 1]; Some (distance ++ [Reverse_ r])) (seqZ 0 (zlen (r :: rest) - 1)) [] = Some (Reverse_ <$> rest).
Proof using.
  edestruct (foldM_total (λ (distance : list W) i, r ← (r :: rest).[i + 1]; Some (distance ++ [Reverse_ r]))
    (λ done d, d = Reverse_ <$> take (length done) rest)) as (d & -> & ->); [done| |].
  - intros done i todo d [-> Hi]%seqZ_split ->. unfold zlen in Hi. cbn [length] in Hi.
    destruct (lookup_lt_is_Some_2 rest (Z.to_nat i)) as [x Hx]; [lia|].
    assert (rest.[i] = Some x) as Hi' by (unfold vget; by rewrite decide_True by lia).
    rewrite vget_cons_S, Hi' by lia. eexists. split; [reflexivity|]. rewrite length_app, length_seqZ. cbn [length]. rewrite Nat.add_1_r.
    by rewrite (take_S_r _ _ _ Hx), fmap_app.
  - rewrite length_seqZ. unfold zlen. cbn [length]. by rewrite take_ge by lia.
Qed.

Lemma max_visits_equiv (h k : Fst R) : h ≡ k → max_visits AnyArcFilter h = max_visits AnyArcFilter k.
Proof using.
  intros (_ & EN & _ & EA). unfold max_visits, candidates. cbn [NumStates Arcs filtered]. rewrite EN.
  assert ((seqZ 0 (NumStates k) ≫= λ s, filter (λ a, AnyArcFilter a = true) (Arcs h s)) = seqZ 0 (NumStates k) ≫= λ s, filter (λ a, AnyArcFilter a = true) (Arcs k s)) as E; [|by rewrite E].
  apply Forall_bind_ext, Forall_forall. intros s _. by rewrite EA.
Qed.

(** The machine that [Reverse] leaves when it is asked for a new initial state. *)
Lemma Reverse_super : ∃ y, Reverse f known (VectorFst_new : VectorFst R) true = Some y ∧ view y ≡ g ∧
  WellFormed (view y) ∧ SoundFst (view y) ∧ member_weights (view y) ∧ has (FstProperties (view y)) kError = false.
Proof using All.
  destruct (Reverse_holds (F:=VectorFst R) Hone f known VectorFst_new true Hwf Hmem Hsound (or_introl eq_refl) Hknown) as
    (y & offset & ostart & E & Hat & Hv & [L1 L2 L3 _ _] & _ & _ & Hoff).
  { apply (built_invariant (W:=R) _ (built_history [])). }
  { apply (built_invariant (W:=R) _ (built_history [])). }
  assert (offset = 1) as -> by (apply Hoff; by left). assert (ostart = 0) as -> by (destruct Hat as [[_ ?]|[? _]]; lia).
  exists y. split; [done|]. split; [done|]. split; [done|]. split; [done|]. split; [|by apply (Reverse_fine f known)].
  pose proof Hv as (_ & EN & EF & EA). split.
  - intros s a Hs Ha. rewrite EA in Ha. assert (arc_in g s a) as Hin by (split; [unfold valid in *; by rewrite <-EN|done]).
    apply (reverse_arc_in f 1 0 Hwf Hmem ltac:(by left) Hone) in Hin as [(u & b & [Hu Hb] & _ & ->)|(_ & _ & t & [Ht _] & ->)]; cbn.
    + unfold turned_weight. cbn. apply Reverse_member. by eapply Hmem.
    + apply Reverse_member. by apply Hmem.
  - intros s Hs. rewrite EF. cbn. case_decide; [apply One_member|apply Zero_member].
Qed.

Lemma accepted_from_spec s w : accepted_from f s w ↔ ∃ p t, path f s p t ∧ is_final f t ∧ path_weight p (Final f t) ≡ w.
Proof using.
  split.
  - intros (i & o & p & t & Hp & Ht & _ & _ & Hw). by exists p, t.
  - intros (p & t & Hp & Ht & Hw). by exists (istring p), (ostring p), p, t.
Qed.

(** One distance, turned round. *)
Lemma distance_back s d : valid f s → sum_of (path_weights g 0 (s + 1)) d → sum_of (accepted_from f s) (Reverse_ d).
Proof using All.
  intros Hs Hd. assert (∀ p t, path f s p t → is_final f t → Member (path_weight p (Final f t)) = true) as Hpm.
  { intros p t Hp Ht. apply path_weight_member; [eapply (path_member f); [apply Hmem|exact Hp]|by apply Hmem, Ht]. }
  eapply sum_of_back; [exact Hd|..].
  - intros r (p & t & Hp & Ht & ->)%reversed_paths; [by apply Reverse_member, Hpm|done..].
  - intros r (p & t & Hp & Ht & Hr)%reversed_paths; [|done..]. apply accepted_from_spec. exists p, t. split_and!; [done..|].
    rewrite Hr. symmetry. by apply back_inverse, Hpm.
  - intros w (p & t & Hp & Ht & Hw)%accepted_from_spec. destruct (paths_reversed Hone f s p t Hwf Hmem Hp Ht) as (r & Hr & Er).
    exists r. split; [done|]. rewrite Er, back_inverse by by apply Hpm. done.
Qed.

Lemma ShortestDistance_reverse_ok properties0 acyclic0 fuel : (max_visits AnyArcFilter g ≤ fuel)%nat →
  ∃ distance : list W, ShortestDistance_reverse rprops rweight_equal properties0 acyclic0 fuel known f = Some distance ∧
    zlen distance ≤ NumStates f ∧ (∀ d, d ∈ distance → Member d = true) ∧
    ∀ s, valid f s → sum_of (accepted_from f s) (default Zero (distance.[s])).
Proof using All.
  intros Hfuel. destruct Reverse_super as (y & E & Hv & Hywf & Hys & Hym & Hyok).
  pose proof Hv as (ES & EN & EF & EA). change (Start g) with 0 in ES.
  assert (∀ h k : Fst R, h ≡ k → ∀ s r, path_weights h 0 s r → path_weights k 0 s r) as Hpw.
  { intros h k Hhk s r (p & Hp & ->). exists p. split; [by eapply path_equiv|done]. }
  destruct (forward_runs rprops rweight_equal Hexact Hright (view y) Hywf Hys Hym Hyok) with (properties0:=properties0) (acyclic0:=acyclic0) (fuel:=fuel)
    as (rd & Erd & Hlen & Hsum).
  { rewrite ES. intros p c s Hp Hc. by eapply Hcycles; (eapply path_equiv; [exact Hv|]). }
  { by rewrite (max_visits_equiv _ g Hv). }
  unfold ShortestDistance_reverse. rewrite E. cbn [mbind option_bind]. rewrite Erd. cbn [mbind option_bind].
  destruct rd as [|r rest].
  { exfalso. destruct (Hsum 0) as (_ & _ & Hab). specialize (Hab One). rewrite ES in Hab. change (default Zero ((@nil R).[0])) with (Zero : R) in Hab.
    assert ((One : R) ≡ Zero) as E1; [|apply weqb_equiv in E1; [by rewrite E1 in Hone|apply One_member]].
    assert (absorbs Zero (One : R)) as Ha.
    { apply Hab. exists []. split; [|done]. constructor. unfold valid. rewrite EN. cbn [NumStates abs_reverse]. pose proof (proj1 Hwf). lia. }
    unfold absorbs in Ha. by rewrite Plus_Zero_l in Ha by apply One_member. }
  assert (∀ i d, (r :: rest).[i] = Some d → Member d = true) as Hm.
  { intros i d Hi. pose proof (Hsum i) as [Hd _]. by rewrite Hi in Hd. }
  rewrite (proj2 (Z.eqb_neq _ _)) by (unfold zlen; cbn; lia). rewrite turned_back. exists (Reverse_ <$> rest).
  split; [|split; [|split]].
  - destruct rest; [|done]. by rewrite (Hm 0 r eq_refl).
  - rewrite EN in Hlen. cbn [NumStates abs_reverse] in Hlen. unfold zlen in *. rewrite length_fmap. cbn [length] in Hlen. lia.
  - intros d (x & -> & Hx)%list_elem_of_fmap. apply back_member. apply elem_of_vget in Hx as [i Hi]. apply (Hm (i + 1)).
    rewrite vget_cons_S; [done|]. apply vget_range in Hi. lia.
  - intros s Hs. specialize (Hsum (s + 1)). rewrite ES in Hsum.
    assert (sum_of (path_weights g 0 (s + 1)) (default Zero ((r :: rest).[s + 1]))) as Hg.
    { eapply sum_of_ext; [|exact Hsum]. intros x. split; apply Hpw; [done|by symmetry]. }
    apply (distance_back s _ Hs) in Hg.
    rewrite vget_cons_S in Hg by apply Hs. rewrite vget_fmap. destruct (rest.[s]); cbn in *; [done|].
    destruct Hg as (_ & (l & Hl & El) & Ha). rewrite back_Zero in El. split; [apply Zero_member|]. split; [by exists l|].
    intros w Hw. specialize (Ha w Hw). unfold absorbs in *. by rewrite back_Zero in Ha.
Qed.

(** C36: The distances to the final states.  For a machine without an error, whose
reversal has no cycle that improves a path, the shortest distances in the reversal with
a queue that is chosen for it, turned round again, are there within the bound on the
number of visits: the distance of each state is the sum of the weights of everything that
is accepted from it.  Where weights are no right semiring, the weight of the machine is
taken from them, and is the sum of the weights of all string pairs that it accepts. *)
Theorem ReverseDistance_correct properties0 acyclic0 fuel : (max_visits AnyArcFilter g ≤ fuel)%nat →
  (∃ distance : list W, ShortestDistance_reverse rprops rweight_equal properties0 acyclic0 fuel known f = Some distance ∧
    zlen distance ≤ NumStates f ∧
    ∀ s, valid f s → sum_of (λ w, ∃ i o, accepts_from f s i o w) (default Zero (distance.[s]))) ∧
  (has wprops kRightSemiring = false →
    ∃ w : W, ShortestDistance_weight wprops rprops weight_equal rweight_equal properties0 acyclic0 fuel known f = Some w ∧
      sum_of (λ w, ∃ i o, accepts f i o w) w).
Proof using All.
  intros Hfuel. destruct (ShortestDistance_reverse_ok properties0 acyclic0 fuel Hfuel) as (distance & E & Hlen & Hm & Hsum).
  split; [by exists distance|]. intros Hnot. unfold ShortestDistance_weight. rewrite Hnot, E. cbn [mbind option_bind].
  set (weight := if negb (Start f =? kNoStateId) && (Start f <? zlen distance) then distance.[Start f] else Some Zero).
  assert (∃ w, weight = Some w ∧ sum_of (λ w, ∃ i o, accepts f i o w) w) as (w & Ew & Hw).
  { unfold weight. destruct (Z.eqb_spec (Start f) kNoStateId) as [Es|Es]; cbn [negb andb].
    - exists Zero. split; [done|]. split; [apply Zero_member|]. split; [by exists []|].
      intros w (i & o & p & t & Hp%path_valid_l & _). rewrite Es in Hp. unfold valid, kNoStateId in Hp. lia.
    - assert (valid f (Start f)) as Hv by by destruct Hwf as (_ & _ & [?|?]). specialize (Hsum (Start f) Hv).
      destruct (Z.ltb_spec (Start f) (zlen distance)) as [Hlt|Hge].
      + destruct (vget_in_range distance (Start f)) as [w Hw]; [unfold valid in Hv; lia|]. exists w. by rewrite Hw in Hsum |- *.
      + exists Zero. split; [done|]. by rewrite (proj2 (vget_None _ _)) in Hsum by lia. }
  exists w. split; [|done]. rewrite <-Ew. destruct distance as [|d [|d' distance]]; [done| |done].
  by rewrite (Hm d) by by left.
Qed.
End correct.

(** * An instance *)

#[export] Instance MinMax_reverse_back : ReverseBackLaws MinMaxWeight MinMaxWeight.
Proof. by split; try done; intros ? ? ?. Qed.

Section witnesses.
Local Notation M := MinMaxWeight.

(** Two ways from the start, a cycle, and a state that nothing is accepted from. *)
Definition ways : list (mutation M) :=
  [MAddStates 4; MSetStart 0; MAddArc 0 (MkArc 1 2 four 1); MAddArc 1 (MkArc 3 4 One 0); MAddArc 0 (MkArc 5 6 One 2);
   MAddArc 0 (MkArc 1 1 One 3); MSetFinal 1 One; MSetFinal 2 (MinMax (S754_finite false 7 0))].
Definition ways_fst : Fst M := vector_view (default VectorFst_new (foldM mutate ways VectorFst_new)).

Example ways_distances :
  ShortestDistance_reverse (R:=M) MinMaxProperties weqb 0 false 100 (Some 4) ways_fst =
    Some [four; One; MinMax (S754_finite false 7 0)] ∧
  ShortestDistance_weight (R:=M) (MinMaxProperties &&& u64_not kRightSemiring) MinMaxProperties weqb weqb 0 false 100 (Some 4) ways_fst = Some four.
Proof. split; by vm_compute. Qed.

Lemma ReverseDistance_witness :
  let fuel := max_visits AnyArcFilter (abs_reverse (R:=M) ways_fst 1 0) in
  (∃ distance : list M, ShortestDistance_reverse (R:=M) MinMaxProperties weqb 0 false fuel (Some 4) ways_fst = Some distance ∧
    zlen distance ≤ NumStates ways_fst ∧
    ∀ s, valid ways_fst s → sum_of (λ w, ∃ i o, accepts_from ways_fst s i o w) (default Zero (distance.[s]))) ∧
  (has (MinMaxProperties &&& u64_not kRightSemiring) kRightSemiring = false →
    ∃ w : M, ShortestDistance_weight (R:=M) (MinMaxProperties &&& u64_not kRightSemiring) MinMaxProperties weqb weqb 0 false fuel (Some 4) ways_fst = Some w ∧
      sum_of (λ w, ∃ i o, accepts ways_fst i o w) w).
Proof.
  destruct (built_invariant _ (built_history ways)) as [Hc Hs].
  assert (WellFormed ways_fst) as Hwf by by apply well_formedb_spec.
  assert (member_weights ways_fst) as Hm by by apply member_weightsb_spec.
  assert (weqb (One : M) Zero = false) as Hone by done.
  apply (ReverseDistance_correct (W:=M) (R:=M) (MinMaxProperties &&& u64_not kRightSemiring) MinMaxProperties weqb weqb Hone eq_refl weqb_exact
    ways_fst Hwf Hm Hs eq_refl (Some 4) (or_introl eq_refl)); [|done].
  apply minmax_cycles_absorbed. intros s a Hs' Ha.
  assert (arc_in (abs_reverse (R:=M) ways_fst 1 0) s a) as Hin by by split.
  apply (reverse_arc_in ways_fst 1 0 Hwf Hm ltac:(by left) Hone) in Hin as [(u & b & [Hu Hb] & _ & ->)|(_ & _ & t & [Ht _] & ->)];
    [by apply (proj1 Hm u b)|by apply (proj2 Hm)].
Defined.
End witnesses.
