(* ===== verification/PathTree.v ===== *)
(** The tree of best predecessors in a relaxation where one of two weights is always
their sum: every state whose distance was improved is traced back to the source
along transitions that account for its distance, and no relaxation closes a cycle. *)
From stdpp Require Import functions.
From S2P Require Import Prelude Weight Properties Fst Relaxation.
Local Open Scope Z_scope.

Section tree.
Context `{RightSemiring W} `{!IdempotentWeight W, !PathWeight W}.
Context (f : Fst W) (source : Z).
Implicit Types (s t n i : Z) (x y : W) (a : Arc W) (p q r : list (Arc W)) (d rd e : Z → W) (D : gset Z).
Implicit Types (par : Z → Z * Z).
Context (Hmem : all_arcs f (λ _ a, Member (weight a) = true)) (Hwf : WellFormed f) (Hcycles : cycles_absorbed f source).

(** [par n] is the state before [n] and the position of the transition. *)
Inductive traced par : Z → list (Arc W) → Prop :=
  | traced_source i : par source = (kNoStateId, i) → traced par source []
  | traced_arc n s i a p :
      par n = (s, i) → s ≠ kNoStateId → (Arcs f s).[i] = Some a → nextstate a = n →
      traced par s p → traced par n (p ++ [a]).

(** No distance is less than what its predecessor accounts for. *)
Record tree d par D : Prop := {
  tree_arc : ∀ n s i, par n = (s, i) → s ≠ kNoStateId →
    ∃ a, valid f s ∧ (Arcs f s).[i] = Some a ∧ nextstate a = n ∧ absorbs (Times (d s) (weight a)) (d n);
  tree_queue : ∀ s, s ∈ D → ∃ p, traced par s p;
}.

(** ** Traces *)

Lemma traced_unique par n p q : traced par n p → traced par n q → p = q.
Proof.
  intros Hp. revert q. induction Hp as [i Hi|n s i a p Hi Hs Ha Hn Hp IH]; intros q; inversion 1; subst; try done; try congruence.
  assert (s0 = s) as -> by congruence. assert (i0 = i) as -> by congruence.
  assert (a0 = a) as -> by congruence. f_equal. by apply IH.
Qed.

Lemma traced_prefix par s p n :
  traced par s p → n ∈ source :: (nextstate <$> p) → ∃ q, traced par n q ∧ (length q ≤ length p)%nat.
Proof.
  induction 1 as [i Hi|t s i a p Hi Hs Ha Ht Hp IH]; intros Hn.
  - apply list_elem_of_singleton in Hn as ->. exists []. split; [by econstructor|done].
  - rewrite fmap_app, app_comm_cons, elem_of_app in Hn. rewrite length_app. simpl. destruct Hn as [Hn|Hn].
    + destruct (IH Hn) as (q & ? & ?). exists q. split; [done|lia].
    + apply list_elem_of_singleton in Hn as ->. exists (p ++ [a]). rewrite length_app. simpl. split; [|lia].
      rewrite Ht. by econstructor.
Qed.

Lemma traced_simple par n p : traced par n p → NoDup (source :: (nextstate <$> p)).
Proof.
  induction 1 as [i Hi|n s i a p Hi Hs Ha Hn Hp IH]; [apply NoDup_singleton|].
  rewrite fmap_app, app_comm_cons. apply NoDup_app. split_and!; [done| |apply NoDup_singleton].
  intros t Ht ->%list_elem_of_singleton. destruct (traced_prefix _ _ _ _ Hp Ht) as (q & Hq & Hl).
  assert (traced par (nextstate a) (p ++ [a])) as Hpa by (rewrite Hn; by econstructor).
  rewrite (traced_unique _ _ _ _ Hq Hpa), length_app in Hl. simpl in Hl. lia.
Qed.

Lemma traced_path d par D n p : tree d par D → valid f source → traced par n p → path f source p n.
Proof.
  intros Ht Hv. induction 1 as [i Hi|n s i a p Hi Hs Ha Hn Hp IH]; [by constructor|].
  destruct (tree_arc _ _ _ Ht n s i Hi Hs) as (b & Hsv & Hb & _). assert (b = a) as -> by congruence.
  subst n. apply vget_elem_of in Ha. apply (path_snoc _ _ _ s); [done..|]. destruct Hwf as (_ & Hw & _). by apply (Hw s).
Qed.

(** A path that is traced is not longer than its state's distance. *)
Lemma traced_absorbs d par D n p :
  tree d par D → valid f source → (∀ s, Member (d s) = true) → absorbs One (d source) →
  traced par n p → absorbs (pw p) (d n).
Proof.
  intros Ht Hv Hd Hone. induction 1 as [i Hi|n s i a p Hi Hs Ha Hn Hp IH]; [done|].
  destruct (tree_arc _ _ _ Ht n s i Hi Hs) as (b & Hsv & Hb & _ & Hab). assert (b = a) as -> by congruence.
  apply vget_elem_of in Ha. pose proof (Hmem s a Hsv Ha) as Hw.
  pose proof (traced_path _ _ _ _ _ Ht Hv Hp) as Hpath. pose proof (pw_member f Hmem p _ _ Hpath) as Hpm.
  rewrite (pw_snoc f Hmem p a _ _ Hpath Hw).
  apply (absorbs_trans _ (Times (d s) (weight a))); eauto with weight. by apply absorbs_Times.
Qed.

(** ** No cycles *)

Lemma sum_cycle_absorbed d s c :
  (∃ l, Forall (reached f source d s) l ∧ d s ≡ wsum (pw <$> l)) → Member (d s) = true →
  path f s c s → absorbs (d s) (Times (d s) (pw c)).
Proof.
  intros (l & Hl & Hds) Hm Hc. pose proof (pw_member f Hmem c _ _ Hc) as Hcm.
  pose proof (reached_members f source Hmem d s l Hl) as Hlm.
  assert (Times (d s) (pw c) ≡ wsum ((λ x, Times x (pw c)) <$> (pw <$> l))) as ->.
  { rewrite Hds. by apply wsum_Times. }
  assert (Forall (λ x, absorbs (d s) x) (pw <$> l)) as Hab.
  { apply absorbs_wsum; [done..|]. rewrite <-Hds. by apply absorbs_refl. }
  rewrite Forall_forall in Hl. rewrite Forall_forall in Hlm. rewrite Forall_forall in Hab.
  apply absorbs_wsum; [done| |]; rewrite !Forall_fmap; apply Forall_forall; intros p Hp; simpl.
  - apply Times_member; [|done]. apply Hlm. by apply list_elem_of_fmap_2.
  - pose proof (reached_path _ _ _ _ _ (Hl p Hp)) as Hpath.
    assert (Times (pw p) (pw c) ≡ pw (p ++ c)) as ->.
    { unfold pw. rewrite path_weight_app.
      rewrite <-path_weight_Times by (eauto using path_member with weight).
      apply path_weight_proper, Times_One_l. done. }
    apply (absorbs_trans _ (pw p)); [done|..].
    + apply Hlm. by apply list_elem_of_fmap_2.
    + eapply pw_member; [done|]. by eapply path_app.
    + apply Hab. by apply list_elem_of_fmap_2.
    + by eapply Hcycles.
Qed.

(** ** One more predecessor *)

Section improve.
Context (d rd e : Z → W) (D : gset Z) par (s i : Z) (d0 : W) (a : Arc W) (todo : list (Arc W)).
Context (Hs : valid f s) (Ha : (Arcs f s).[i] = Some a) (Hsource : valid f source).
Context (Hrel : relaxed f source (arcs_of s (a :: todo)) d rd e D) (He : e s = d0).
Context (Htree : tree d par D) (p0 : list (Arc W)) (Hp0 : traced par s p0).
Context (Hnew : ¬ absorbs (d (nextstate a)) (Times d0 (weight a))).
Local Notation n := (nextstate a).
Local Notation par' := (<[n := (s, i)]> par).

Lemma step_weight : Member (weight a) = true.
Proof. apply (Hmem s); [done|by eapply vget_elem_of]. Qed.

Lemma step_d0 : Member d0 = true.
Proof. rewrite <-He. apply Hrel. Qed.

Lemma step_source : absorbs (d s) d0.
Proof.
  pose proof step_d0 as Hd0. rewrite (rel_split _ _ _ _ _ _ _ Hrel), He.
  apply absorbs_grow; [done|done|apply Hrel|by apply absorbs_refl].
Qed.

(** Either [n] lies on the trace, or the trace stays. *)
Lemma traced_through t p : traced par t p →
  (∃ q, path f n q t ∧ absorbs (Times (d n) (pw q)) (d t)) ∨ traced par' t p.
Proof.
  pose proof (rel_d _ _ _ _ _ _ _ Hrel) as Hd.
  assert (∀ u, u = n → valid f u → ∃ q, path f n q u ∧ absorbs (Times (d n) (pw q)) (d u)) as Hself.
  { intros u -> Hv. exists []. split; [by constructor|]. change (pw []) with (One : W).
    rewrite Times_One_r by done. by apply absorbs_refl. }
  assert (valid f n) as Hvn.
  { destruct Hwf as (_ & Hw & _). apply (Hw s); [done|by eapply vget_elem_of]. }
  induction 1 as [j Hj|t u j b p Hj Hu Hb Ht Hp IH].
  - destruct (decide (source = n)) as [E|E]; [left; by apply Hself|right]. econstructor. by rewrite fn_lookup_insert_ne.
  - destruct (decide (t = n)) as [E|E]; [left; apply Hself; congruence|].
    destruct (tree_arc _ _ _ Htree t u j Hj Hu) as (b' & Huv & Hb' & _ & Hab). assert (b' = b) as -> by congruence.
    pose proof (vget_elem_of _ _ _ Hb) as Hbin. pose proof (Hmem u b Huv Hbin) as Hbw.
    destruct IH as [(q & Hq & Hqa)|IH]; [left|right].
    + exists (q ++ [b]). rewrite <-Ht. assert (path f n (q ++ [b]) (nextstate b)) as Hqb.
      { apply (path_snoc _ _ _ u); [done..|]. destruct Hwf as (_ & Hw & _). by apply (Hw u). }
      split; [done|]. pose proof (pw_member f Hmem q _ _ Hq) as Hqm.
      rewrite (pw_snoc f Hmem q b _ _ Hq Hbw), Times_assoc by eauto with weight.
      rewrite Ht. apply (absorbs_trans _ (Times (d u) (weight b))); eauto 6 with weight.
      apply absorbs_Times; eauto with weight.
    + econstructor; [by rewrite fn_lookup_insert_ne|done..].
Qed.

Lemma no_cycle q : path f n q s → absorbs (Times (d n) (pw q)) (d s) → False.
Proof.
  intros Hq Hab. apply Hnew. pose proof (rel_d _ _ _ _ _ _ _ Hrel) as Hd.
  pose proof step_weight as Hw. pose proof step_d0 as Hd0. pose proof (pw_member f Hmem q _ _ Hq) as Hqm.
  assert (path f n (q ++ [a]) n) as Hc.
  { apply (path_snoc _ _ _ s); [done|by eapply vget_elem_of|by eapply path_valid_l]. }
  pose proof (sum_cycle_absorbed d n (q ++ [a]) (rel_sum _ _ _ _ _ _ _ Hrel n) (Hd n) Hc) as Hdn.
  rewrite (pw_snoc f Hmem q a _ _ Hq Hw), Times_assoc in Hdn by eauto with weight.
  apply (absorbs_trans _ (Times (d s) (weight a))); eauto with weight; [|by apply absorbs_Times; [| | |apply step_source]].
  eapply absorbs_trans; [done| | |exact Hdn|]; eauto with weight. apply absorbs_Times; eauto with weight.
Qed.

Lemma traced_stays : traced par' s p0.
Proof. destruct (traced_through s p0 Hp0) as [(q & Hq & Hab)|?]; [destruct (no_cycle q Hq Hab)|done]. Qed.

Lemma traced_new : traced par' n (p0 ++ [a]).
Proof.
  apply (traced_arc _ _ s i); [by rewrite fn_lookup_insert| |done|done|apply traced_stays].
  unfold valid, kNoStateId in *. lia.
Qed.

Lemma traced_other t p : traced par t p → ∃ p', traced par' t p'.
Proof.
  induction 1 as [j Hj|t u j b p Hj Hu Hb Ht Hp (p' & IH)].
  - destruct (decide (source = n)) as [E|E]; [rewrite E; by eexists; apply traced_new|].
    exists []. econstructor. by rewrite fn_lookup_insert_ne.
  - destruct (decide (t = n)) as [E|E]; [rewrite E; by eexists; apply traced_new|].
    exists (p' ++ [b]). econstructor; [by rewrite fn_lookup_insert_ne|done..].
Qed.

Lemma improved_value x : x ≡ Plus (d n) (Times d0 (weight a)) → x ≡ Times d0 (weight a).
Proof.
  intros ->. pose proof step_weight. pose proof step_d0.
  destruct (Plus_path (d n) (Times d0 (weight a))) as [E|E]; [apply Hrel|eauto with weight| |done].
  by destruct Hnew.
Qed.

Lemma tree_improve :
  tree (improved d d0 a) par' ({[n]} ∪ D).
Proof.
  pose proof (rel_d _ _ _ _ _ _ _ Hrel) as Hd. pose proof step_weight as Hw. pose proof step_d0 as Hd0.
  assert (grows d (improved d d0 a)) as Hg by (apply grows_insert; eauto with weight).
  assert (∀ u, absorbs (improved d d0 a u) (d u)) as Hle.
  { intros u. apply Hg; [done|]. by apply absorbs_refl. }
  assert (∀ u, Member (improved d d0 a u) = true) as Hdm by apply Hg.
  split.
  - intros t u j. destruct (decide (t = n)) as [->|Ht].
    + rewrite fn_lookup_insert. intros [= <- <-] _. exists a. split_and!; [done..|].
      unfold improved at 2. rewrite fn_lookup_insert, (improved_value _ (reflexivity _)).
      apply absorbs_Times; [apply Hdm|done..|]. apply (absorbs_trans _ (d s)); [apply Hdm|done..| |apply step_source]. apply Hle.
    + rewrite fn_lookup_insert_ne by done. intros Hj Hu.
      destruct (tree_arc _ _ _ Htree t u j Hj Hu) as (b & Huv & Hb & Hbt & Hab). exists b. split_and!; [done..|].
      assert (Member (weight b) = true) as Hbw by (apply (Hmem u); [done|by eapply vget_elem_of]).
      unfold improved at 2. rewrite fn_lookup_insert_ne by done.
      apply (absorbs_trans _ (Times (d u) (weight b))); eauto with weight. apply absorbs_Times; [apply Hdm|done..|apply Hle].
  - intros t. rewrite elem_of_union, elem_of_singleton. intros [->|Ht]; [eexists; apply traced_new|].
    destruct (tree_queue _ _ _ Htree t Ht) as (p & Hp). by eapply traced_other.
Qed.
End improve.
End tree.
