(* ===== verification/ShortestPath.v ===== *)
(** Single shortest paths (openfst/lib/shortest-path.h): the relaxation that
remembers for each state the transition by which its distance was last improved,
the construction of the path from these, and the interface that chooses a queue.
Proved in PathSpec.v: the result is one path of least weight. *)
From S2P Require Import Prelude Weight FloatWeight Properties SymbolTable Fst VectorFst Mutation VectorSound MutableFst Heap Dfs Scc StateSort TopSort Queue AutoQueue.
Local Open Scope Z_scope.

(* shortest-path.h:84-84 kNoArc *)
Definition kNoArc : Z := 2 ^ 64 - 1.

Section algorithm.
Context {W Q : Type} `{WeightOps W} `{!StateQueue W Q}.

(** What [SingleShortestPath] reads of its options, and the criterion to stop at
the first path, which depends on the type of the queue.  The arc filter and the
test for convergence are not among it. *)

(* shortest-path.h:47-80 ShortestPathOptions *)
Record PathOptions := MkPathOptions {
  source : Z;
  first_path : bool;
  FirstPath : Q → Z → W → W → bool;
}.

(* shortest-path.h:150-150 FirstPathSelect *)
Definition FirstPathSelect (queue : Q) (s : Z) (d f : W) : bool := weqb f (Plus d f).
(* shortest-path.h:163-165 FirstPathSelect *)
Definition FirstPathSelect_AStar (estimate : Z → W) (queue : Q) (s : Z) (d f : W) : bool :=
  weqb f (Plus (Times d (estimate s)) f).

(** The vectors, the queue, and the best final state so far. *)

(* shortest-path.h:186-203 SingleShortestPath *)
Record PathState := MkPath {
  distance : list W;
  parent : list (Z * Z);
  enqueued : list bool;
  state_queue : Q;
  f_parent : Z;
  f_distance : W;
  final_seen : bool;
}.

Implicit Types (st : PathState).

(* shortest-path.h:237-241 SingleShortestPath *)
Definition make_room (n : Z) st : PathState :=
  if zlen (distance st) <=? n then
    MkPath (vresize (n + 1) Zero (distance st)) (vresize (n + 1) (kNoStateId, kNoArc) (parent st))
      (vresize (n + 1) false (enqueued st)) (state_queue st) (f_parent st) (f_distance st) (final_seen st)
  else st.

Definition with_vectors (ds : list W) (ps : list (Z * Z)) (es : list bool) (q : Q) st : PathState :=
  MkPath ds ps es q (f_parent st) (f_distance st) (final_seen st).
Definition with_best (p : Z) (d : W) (seen : bool) st : PathState :=
  MkPath (distance st) (parent st) (enqueued st) (state_queue st) p d seen.

(** One arc of state [s], at [position], is relaxed; the flag is whether to go on. *)

(* shortest-path.h:236-254 SingleShortestPath *)
Definition relax (s : Z) (sd : W) (position : Z) (arc : Arc W) st : option (PathState * bool) :=
  let n := nextstate arc in
  let st := make_room n st in
  nd ← (distance st).[n];
  let w := Times sd (weight arc) in
  let plus := Plus nd w in
  if weqb nd plus then Some (st, true) else
  ds ← (distance st).[n <- plus];
  if negb (Member plus) then Some (with_vectors ds (parent st) (enqueued st) (state_queue st) st, false) else
  ps ← (parent st).[n <- (s, position)];
  e ← (enqueued st).[n];
  if negb e then
    q ← Enqueue ds (state_queue st) n;
    es ← (enqueued st).[n <- true];
    Some (with_vectors ds ps es q st, true)
  else
    q ← Update ds (state_queue st) n;
    Some (with_vectors ds ps (enqueued st) q st, true).

(* shortest-path.h:235-255 SingleShortestPath *)
Fixpoint relax_from (s : Z) (sd : W) (position : Z) (arcs : list (Arc W)) st : option (PathState * bool) :=
  match arcs with
  | [] => Some (st, true)
  | arc :: arcs =>
      '(st, go) ← relax s sd position arc st;
      if go : bool then relax_from s sd (position + 1) arcs st else Some (st, false)
  end.

Context (opts : PathOptions) (ifst : Fst W).

(** The best final state is compared with [s]; the flag is whether to go on. *)

(* shortest-path.h:226-234 SingleShortestPath *)
Definition see_final (s : Z) (sd : W) st : PathState * bool :=
  let final := Final ifst s in
  if wneqb final Zero then
    let plus := Plus (f_distance st) (Times sd final) in
    let st := if wneqb (f_distance st) plus then with_best s plus (final_seen st) st else st in
    if negb (Member (f_distance st)) then (st, false)
    else (with_best (f_parent st) (f_distance st) true st, true)
  else (st, true).

(** How the body of the loop ends. *)
Inductive outcome := Continue | Break | Return.

(* shortest-path.h:215-255 SingleShortestPath *)
Definition take_state st : option (PathState * outcome) :=
  '(q, s) ← Head (distance st) (state_queue st);
  q ← Dequeue (distance st) q;
  es ← (enqueued st).[s <- false];
  let st := with_vectors (distance st) (parent st) es q st in
  sd ← (distance st).[s];
  if first_path opts && final_seen st && FirstPath opts (state_queue st) s sd (f_distance st) then Some (st, Break) else
  let '(st, go) := see_final s sd st in
  if negb go then Some (st, Return) else
  '(st, go) ← relax_from s sd 0 (Arcs ifst s) st;
  Some (st, if go : bool then Continue else Return).

(** The flag is the value that is returned. *)

(* shortest-path.h:214-257 SingleShortestPath *)
Fixpoint path_loop (fuel : nat) st : option (PathState * bool) :=
  empty ← Empty (W:=W) (state_queue st);
  if empty : bool then Some (st, true) else
  match fuel with
  | O => None
  | S fuel =>
      '(st, out) ← take_state st;
      match out with
      | Continue => path_loop fuel st
      | Break => Some (st, true)
      | Return => Some (st, false)
      end
  end.

(* shortest-path.h:201-213 SingleShortestPath *)
Definition start_path (queue : Q) : option PathState :=
  let source := if source opts =? kNoStateId then Start ifst else source opts in
  q ← Clear (W:=W) queue;
  let st := MkPath (replicate (Z.to_nat source) Zero) (replicate (Z.to_nat source) (kNoStateId, kNoArc))
    (replicate (Z.to_nat source) false) q kNoStateId Zero false in
  let ds := distance st ++ [One] in
  q ← Enqueue ds q source;
  Some (with_vectors ds (parent st ++ [(kNoStateId, kNoArc)]) (enqueued st ++ [true]) q st).

(* shortest-path.h:185-258 SingleShortestPath *)
Definition SingleShortestPath (fuel : nat) (queue : Q) : option (PathState * bool) :=
  if Start ifst =? kNoStateId then Some (MkPath [] [] [] queue kNoStateId Zero false, true) else
  st ← start_path queue;
  path_loop fuel st.
End algorithm.
Arguments PathOptions : clear implicits.
Arguments PathState : clear implicits.

(** * The path *)

Section backtrace.
Context `{MutableFst W F}.
Implicit Types (x : F).

(** [s_p] is the state that was added last. *)

(* shortest-path.h:117-132 SingleShortestPathBacktrace *)
Fixpoint backtrace (fuel : nat) (ifst : Fst W) (ps : list (Z * Z)) (best : Z) (state d s_p : Z) x : option (F * Z) :=
  if state =? kNoStateId then Some (x, s_p) else
  match fuel with
  | O => None
  | S fuel =>
      let d_p := s_p in
      let '(x, s_p) := mAddState x in
      x ← (if d =? kNoStateId then mSetFinal x s_p (Final ifst best)
           else
             '(_, position) ← ps.[d];
             arc ← (Arcs ifst state).[position];
             mAddArc x s_p (set_nextstate d_p arc));
      '(next, _) ← ps.[state];
      backtrace fuel ifst ps best next state s_p x
  end.

(* shortest-path.h:109-138 SingleShortestPathBacktrace *)
Definition SingleShortestPathBacktrace (ifst : Fst W) (ps : list (Z * Z)) (best : Z) (ofst : F) : option F :=
  let x := mDeleteAllStates ofst in
  let x := mSetInputSymbols x (InputSymbols ifst) in
  let x := mSetOutputSymbols x (OutputSymbols ifst) in
  '(x, s_p) ← backtrace (S (length ps)) ifst ps best best kNoStateId kNoStateId x;
  let x := mSetStart x s_p in
  let x := if has (FstProperties ifst) kError then mSetProperties x kError kError else x in
  Some (mSetProperties x (ShortestPathProperties (mProperties x kFstProperties) true) kFstProperties).

(** The branch for one path. *)

(* shortest-path.h:469-479 ShortestPath *)
Definition ShortestPath_single {Q} `{!StateQueue W Q} (opts : PathOptions W Q) (fuel : nat) (ifst : Fst W)
    (queue : Q) (ofst : F) : option F :=
  '(st, ok) ← SingleShortestPath opts ifst fuel queue;
  if ok : bool then SingleShortestPathBacktrace ifst (parent st) (f_parent st) ofst
  else Some (mSetProperties ofst kError kError).

(** One path, with a queue that is chosen for the machine. *)

(* shortest-path.h:532-547 ShortestPath *)
Definition ShortestPath (wprops properties0 : Z) (acyclic0 first_path : bool) (fuel : nat) (ifst : Fst W)
    (ofst : F) : option F :=
  queue ← AutoQueue_new wprops properties0 acyclic0 ifst true AnyArcFilter;
  ShortestPath_single (MkPathOptions kNoStateId first_path FirstPathSelect) fuel ifst queue ofst.
End backtrace.
