(* ===== verification/PathSpec.v ===== *)
(** [SingleShortestPath] of ShortestPath.v follows the relaxation of Relaxation.v with
the tree of PathTree.v, and its backtrace builds the best path: for an idempotent
right semiring with the path property in which no cycle improves a path, with any
queue that keeps its promises, [ShortestPath] ends with a machine that accepts one
string pair of least weight. *)
From stdpp Require Import functions.
From S2P Require Import Prelude Weight FloatWeight Properties SymbolTable Fst VectorFst Mutation VectorSound MutableFst Rational RationalSpec ArcMap StateMap Heap Dfs Scc StateSort TopSort Queue AutoQueue ShortestDistance Relaxation DistanceSpec PathTree ShortestPath.
Local Open Scope Z_scope.

Section refinement.
Context `{RightSemiring W} `{!IdempotentWeight W, !PathWeight W} {Q : Type} `{!StateQueue W Q}.
Context (opts : PathOptions W Q) (f : Fst W) (src : Z).
Local Notation PS := (PathState W Q).
Local Notation none := (kNoStateId, kNoArc).
Implicit Types (st : PS) (s n t i : Z) (x y : W) (D : gset Z) (d rd e : Z → W) (par : Z → Z * Z) (p : list (Arc W)).

(** ** The vectors of the computation *)

Record represents st d par D : Prop := {
  rep_parent : zlen (parent st) = zlen (distance st);
  rep_enqueued : zlen (enqueued st) = zlen (distance st);
  rep_len : zlen (distance st) ≤ NumStates f;
  rep_source : src < zlen (distance st);
  rep_d : ∀ s, d s = default Zero ((distance st).[s]);
  rep_par : ∀ s, par s = default none ((parent st).[s]);
  rep_in : ∀ s, default false ((enqueued st).[s]) = bool_decide (s ∈ D);
  rep_valid : ∀ s, s ∈ D → valid f s;
}.

(** What the vectors hold at an index in range. *)
Record entry st d par D n : Prop := {
  entry_d : (distance st).[n] = Some (d n);
  entry_par : (parent st).[n] = Some (par n);
  entry_in : (enqueued st).[n] = Some (bool_decide (n ∈ D));
}.

Lemma path_represents_entry st d par D n : represents st d par D → 0 ≤ n < zlen (distance st) → entry st d par D n.
Proof.
  intros [Hp He Hl Hs Hd Hpar Hin Hv] Hn. specialize (Hd n). specialize (Hpar n). specialize (Hin n).
  destruct (vget_in_range (distance st) n Hn) as [x Hx].
  destruct (vget_in_range (parent st) n) as [y Hy]; [lia|].
  destruct (vget_in_range (enqueued st) n) as [b Hb]; [lia|].
  rewrite Hx in Hd. rewrite Hy in Hpar. rewrite Hb in Hin. simpl in *. by split; rewrite ?Hx, ?Hy, ?Hb; congruence.
Qed.

Lemma make_room_eq n st : zlen (parent st) = zlen (distance st) → zlen (enqueued st) = zlen (distance st) →
  make_room n st = with_vectors (vextend n Zero (distance st)) (vextend n none (parent st)) (vextend n false (enqueued st)) (state_queue st) st.
Proof. intros Hp He. unfold make_room, with_vectors, vextend. rewrite Hp, He. destruct (_ <=? _); [done|by destruct st]. Qed.

Lemma make_room_represents st d par D n :
  represents st d par D → valid f n → represents (make_room n st) d par D ∧ entry (make_room n st) d par D n.
Proof.
  intros [Hp He Hl Hs Hd Hpar Hin Hv] [Hn0 Hn]. rewrite make_room_eq by done.
  set (st' := with_vectors _ _ _ _ _).
  assert (represents st' d par D) as Hst.
  { split; cbn -[vextend valid]; rewrite ?vextend_len; try done; try lia; intros s; by rewrite vextend_default. }
  split; [done|]. apply path_represents_entry; [done|]. cbn -[vextend]. rewrite vextend_len. lia.
Qed.

Lemma with_best_represents st d par D s x b : represents st d par D → represents (with_best s x b st) d par D.
Proof. by intros [Hp He Hl Hs Hd Hpar Hin Hv]; split. Qed.

(** What the best final state is worth: [e] are the distances that were compared. *)
Record best st d e par : Prop := {
  best_member : Member (f_distance st) = true;
  best_all : ∀ t, is_final f t → absorbs (f_distance st) (Times (e t) (Final f t));
  best_state : f_parent st = kNoStateId ∧ f_distance st = Zero ∨
    is_final f (f_parent st) ∧ (∃ p, traced f src par (f_parent st) p) ∧
    absorbs (Times (d (f_parent st)) (Final f (f_parent st))) (f_distance st);
}.

(** ** The loops *)

Context (Hwf : WellFormed f) (Hmem : member_weights f) (Hcycles : cycles_absorbed f src) (Hsrc : valid f src).
Context `{!QueueLaws (W:=W) (Q:=Q) (valid f) (edge f)} (Hfirst : first_path opts = false).

Lemma opened_full d s (e0 rd0 d0 : W) : opened f src d s e0 rd0 d0 → opened f src d s e0 d0 d0.
Proof.
  intros [He Hrd Hd Hsplit Hbef Hsum]. split; try done. rewrite Hsplit, Plus_assoc by done. by rewrite Plus_idemp.
Qed.

(** A computation before the arc at position [i] of state [s]. *)
Definition running st s (e0 d0 : W) (todo : list (Arc W)) (m : nat) : Prop :=
  ∃ d rd e D par p0, represents st d par D ∧ holds (dom:=valid f) (R:=edge f) (state_queue st) (Some s) D ∧
    relaxed f src (arcs_of s todo) d rd e D ∧ opened f src d s e0 d0 d0 ∧ e s = d0 ∧ (measure f d D ≤ m)%nat ∧
    tree f src d par D ∧ traced f src par s p0 ∧ best st d e par.

Lemma best_improve st st' d e par s i D (d0 : W) a todo rd p0 :
  best st d e par → f_distance st' = f_distance st → f_parent st' = f_parent st →
  valid f s → (Arcs f s).[i] = Some a → relaxed f src (arcs_of s (a :: todo)) d rd e D → e s = d0 →
  tree f src d par D → traced f src par s p0 → ¬ absorbs (d (nextstate a)) (Times d0 (weight a)) →
  best st' (improved d d0 a) e (<[nextstate a := (s, i)]> par).
Proof.
  intros [Hb Hall Hst] Ed Ep Hs Ha Hrel He Htree Hp0 Hnew. split; rewrite ?Ed, ?Ep; try done.
  destruct Hst as [?|(Hf & (p & Hp) & Hab)]; [by left|right]. split; [done|]. split.
  - by eapply (traced_other f src (proj1 Hmem) Hwf Hcycles d rd e D par s i d0 a todo Hs Ha Hsrc Hrel He Htree p0 Hp0 Hnew).
  - pose proof (rel_d _ _ _ _ _ _ _ Hrel) as Hd.
    assert (Member (Times d0 (weight a)) = true) as Hw.
    { apply Times_member; [rewrite <-He; apply Hrel|]. apply (proj1 Hmem s); [done|by eapply vget_elem_of]. }
    assert (grows d (improved d d0 a)) as Hg by (apply grows_insert; eauto with weight).
    pose proof (proj2 Hmem (f_parent st) (proj1 Hf)) as Hfm. set (t := f_parent st) in *.
    assert (Member (improved d d0 a t) = true) as Hit by apply Hg.
    apply (absorbs_trans _ (Times (d t) (Final f t))); eauto with weight.
    apply absorbs_Times; [done..|]. apply Hg; [done|]. by apply absorbs_refl.
Qed.

Lemma relax_runs st s (e0 d0 : W) a i todo m :
  running st s e0 d0 (a :: todo) m → valid f s → (Arcs f s).[i] = Some a →
  ∃ st', relax s d0 i a st = Some (st', true) ∧ running st' s e0 d0 todo m.
Proof.
  intros (d & rd & e & D & par & p0 & Hst & Hq & Hrel & Hopen & He & Hm & Htree & Hp0 & Hbest) Hs Hi.
  pose proof (vget_elem_of _ _ _ Hi) as Ha. pose proof (proj1 Hmem) as Hma.
  assert (valid f (nextstate a)) as Hn by (destruct Hwf as (_ & Hw & _); by apply (Hw s)).
  destruct (make_room_represents st d par D (nextstate a) Hst Hn) as [Hst1 [E1 E2 E3]].
  assert (state_queue (make_room (nextstate a) st) = state_queue st ∧
    f_distance (make_room (nextstate a) st) = f_distance st ∧ f_parent (make_room (nextstate a) st) = f_parent st) as (Eq & Ed & Ep).
  { unfold make_room. by destruct (_ <=? _). }
  unfold relax. cbv zeta. rewrite E1. cbn [mbind option_bind].
  pose proof Hopen as [_ _ _ _ _ (l & Hl & Hd0)].
  pose proof (relaxed_weight_member f src Hma d s e0 d0 d0 a Hs Ha Hopen) as Hw.
  pose proof (rel_d _ _ _ _ _ _ _ Hrel (nextstate a)) as Hdn.
  assert (weqb (d (nextstate a)) (Plus (d (nextstate a)) (Times d0 (weight a))) = true ↔
    absorbs (d (nextstate a)) (Times d0 (weight a))) as Heq.
  { rewrite weqb_equiv by done. unfold absorbs. by split; intros E; symmetry. }
  destruct (weqb _ _) eqn:Eeq.
  { eexists. split; [done|]. exists d, rd, e, D, par, p0. rewrite Eq. split_and!; try done.
    - eapply relaxed_skip; [done..|]. by apply Heq.
    - destruct Hbest. by split; rewrite ?Ed, ?Ep. }
  assert (¬ absorbs (d (nextstate a)) (Times d0 (weight a))) as Hnab by by rewrite <-Heq.
  pose proof (improve_rank f src Hma Hwf Hcycles d rd e D s e0 d0 d0 a todo Hs Ha Hrel Hopen l Hl Hd0 Hnab) as Hrank.
  destruct (relaxed_improve f src Hma Hwf Hcycles d rd e D s e0 d0 d0 a todo Hs Ha Hrel Hopen He l Hl Hd0) as [Hrel' Hopen'].
  pose proof (measure_improve f d D (nextstate a) _ Hn Hrank) as Hm'.
  pose proof (tree_improve f src Hma Hwf Hcycles d rd e D par s i d0 a todo Hs Hi Hsrc Hrel He Htree p0 Hp0 Hnab) as Htree'.
  pose proof (traced_stays f src Hma Hwf Hcycles d rd e D par s i d0 a todo Hs Hi Hsrc Hrel He Htree p0 Hp0 Hnab) as Hp0'.
  pose proof (rel_d _ _ _ _ _ _ _ Hrel' (nextstate a)) as Hm1. unfold improved in Hm1. rewrite fn_lookup_insert in Hm1.
  set (n := nextstate a) in *. set (st1 := make_room n st) in *.
  pose proof (vget_range _ _ _ E1) as Hr. pose proof (rep_parent _ _ _ _ Hst1) as Hlp. pose proof (rep_enqueued _ _ _ _ Hst1) as Hle.
  destruct (vset_total (distance st1) n (Plus (d n) (Times d0 (weight a)))) as [ds Hds]; [done|].
  destruct (vset_total (parent st1) n (s, i)) as [ps Hps]; [lia|].
  rewrite Hds. cbn [mbind option_bind]. rewrite Hm1. cbn [negb]. rewrite Hps, E3. cbn [mbind option_bind]. rewrite Eq.
  assert (∀ es q D', zlen es = zlen (enqueued st1) → (∀ t, default false (es.[t]) = bool_decide (t ∈ D')) →
    (∀ t, t ∈ D' → valid f t) →
    represents (with_vectors ds ps es q st1) (improved d d0 a) (<[n := (s, i)]> par) D') as Hrep.
  { intros es q D' Hes Hin' Hv'. pose proof (vset_len _ _ _ _ Hds) as L1. pose proof (vset_len _ _ _ _ Hps) as L2.
    split; cbn -[valid]; try done; try lia.
    - rewrite L1. apply Hst1.
    - rewrite L1. apply Hst1.
    - intros t. rewrite (vget_vset _ _ _ t _ Hds). unfold improved. fold n.
      destruct (decide (n = t)) as [Hnt|Hnt]; [rewrite <-Hnt; by rewrite fn_lookup_insert|]. rewrite fn_lookup_insert_ne by done. apply Hst1.
    - intros t. rewrite (vget_vset _ _ _ t _ Hps).
      destruct (decide (n = t)) as [Hnt|Hnt]; [rewrite <-Hnt; by rewrite fn_lookup_insert|]. rewrite fn_lookup_insert_ne by done. apply Hst1. }
  destruct (decide (n ∈ D)) as [Hin|Hnin].
  - rewrite bool_decide_eq_true_2 by done. cbn [negb].
    destruct (queue_update ds _ _ D n Hq Hin) as (q & -> & Hq'). cbn [mbind option_bind].
    assert ({[n]} ∪ D = D) as HD by set_solver. rewrite HD in Hrel', Hm', Htree'.
    eexists. split; [done|]. exists (improved d d0 a), (<[n := Plus (rd n) (Times d0 (weight a))]> rd), e, D, (<[n := (s, i)]> par), p0.
    split_and!; [apply Hrep; [done|apply Hst1..]|done..|unfold improved; fold n; lia|done|done|].
    by eapply best_improve; [done|..].
  - rewrite bool_decide_eq_false_2 by done. cbn [negb].
    destruct (queue_enqueue ds _ _ D n Hq Hnin Hn) as (q & -> & Hq'); [split; [done|by exists a]|].
    cbn [mbind option_bind]. destruct (vset_total (enqueued st1) n true) as [es Hes]; [lia|]. rewrite Hes. cbn [mbind option_bind].
    eexists. split; [done|].
    exists (improved d d0 a), (<[n := Plus (rd n) (Times d0 (weight a))]> rd), e, ({[n]} ∪ D), (<[n := (s, i)]> par), p0.
    split_and!; [apply Hrep| done|done..|unfold improved; fold n; lia|done|done|].
    + by eapply vset_len.
    + intros t. rewrite (vget_vset _ _ _ t _ Hes). pose proof (decide_add D n t) as Hdt. case_decide as Hnt; simpl.
      * symmetry. by apply bool_decide_eq_true_2, Hdt.
      * rewrite (rep_in _ _ _ _ Hst1). apply bool_decide_ext. by rewrite Hdt.
    + intros t. rewrite elem_of_union, elem_of_singleton. intros [->|?]; [done|]. by apply Hst1.
    + by eapply best_improve; [done|..].
Qed.

Lemma relax_from_runs s (e0 d0 : W) m todo : ∀ done st,
  Arcs f s = done ++ todo → valid f s → running st s e0 d0 todo m →
  ∃ st', relax_from s d0 (zlen done) todo st = Some (st', true) ∧ running st' s e0 d0 [] m.
Proof.
  induction todo as [|a todo IH]; intros done st Hl Hs Hrun; [by exists st|]. simpl.
  assert ((Arcs f s).[zlen done] = Some a) as Ha.
  { rewrite Hl, vget_app, decide_False by lia. by rewrite Z.sub_diag. }
  destruct (relax_runs _ _ _ _ _ _ _ _ Hrun Hs Ha) as (st1 & -> & Hst1). cbn [mbind option_bind].
  destruct (IH (done ++ [a]) st1) as (st2 & E & Hst2); [by rewrite <-app_assoc|done|done|].
  rewrite zlen_app in E. exists st2. by split.
Qed.
(** ** A state from the queue *)

Lemma see_final_runs st d e par s p :
  best st d e par → valid f s → traced f src par s p → Member (d s) = true → (∀ t, Member (e t) = true) →
  ∃ st', see_final f s (d s) st = (st', true) ∧ best st' d (<[s := d s]> e) par ∧
    distance st' = distance st ∧ parent st' = parent st ∧ enqueued st' = enqueued st ∧ state_queue st' = state_queue st.
Proof.
  intros [Hb Hall Hst] Hs Hp Hd He. unfold see_final. destruct (wneqb (Final f s) Zero) eqn:Hz.
  2:{ eexists. split; [done|]. split; [|done]. split; try done. intros t Ht.
      destruct (decide (t = s)) as [->|]; [|rewrite fn_lookup_insert_ne by done; by apply Hall].
      destruct Ht as [_ Ht]. by rewrite Ht in Hz. }
  assert (is_final f s) as Hfin by by rewrite negb_true_iff in Hz.
  pose proof (proj2 Hmem s Hs) as Hfm. set (w := Times (d s) (Final f s)).
  assert (Member w = true) as Hw by (unfold w; eauto with weight).
  assert (∀ x, x ≡ Plus (f_distance st) w → ∀ t, is_final f t → absorbs x (Times (<[s := d s]> e t) (Final f t))) as Hx.
  { intros x Hx t Ht. pose proof (proj2 Hmem t (proj1 Ht)). rewrite Hx.
    destruct (decide (t = s)) as [->|]; [rewrite fn_lookup_insert; by apply absorbs_added|].
    rewrite fn_lookup_insert_ne by done. apply absorbs_grow; eauto with weight. }
  destruct (weqb (f_distance st) (Plus (f_distance st) w)) eqn:Heq; cbn [negb].
  - rewrite Hb. cbn [negb]. eexists. split; [done|]. split; [|done]. split; [done| |done].
    apply Hx. by apply weight_equiv_weqb.
  - cbn [f_distance with_best]. rewrite Plus_member by done. cbn [negb]. eexists. split; [done|]. split; [|done].
    split; cbn [f_distance f_parent with_best]; [eauto with weight|by apply Hx|right].
    split; [done|]. split; [by exists p|]. fold w. destruct (Plus_path (f_distance st) w Hb Hw) as [E|E].
    + rewrite (proj2 (weqb_equiv _ _ Hb)) in Heq; [done|by symmetry].
    + rewrite E. by apply absorbs_refl.
Qed.

Definition pending st d D : Prop :=
  ∃ h rd e par, represents st d par D ∧ holds (dom:=valid f) (R:=edge f) (state_queue st) h D ∧
    relaxed f src (λ _ _, False) d rd e D ∧ tree f src d par D ∧ best st d e par.

Lemma take_state_runs st d D :
  pending st d D → D ≠ ∅ →
  ∃ st' d' D', take_state opts f st = Some (st', Continue) ∧ pending st' d' D' ∧ (measure f d' D' < measure f d D)%nat.
Proof.
  intros (h & rd & e & par & Hst & Hq & Hrel & Htree & Hbest) HD.
  destruct (queue_pop (distance st) _ _ _ Hq HD) as (q1 & s & q2 & Hhead & Hdeq & Hs & Hq2).
  assert (valid f s) as Hv by by apply Hst.
  assert (0 ≤ s < zlen (distance st)) as Hr.
  { rewrite <-(rep_enqueued _ _ _ _ Hst). pose proof (rep_in _ _ _ _ Hst s) as Hin.
    rewrite bool_decide_eq_true_2 in Hin by done. destruct ((enqueued st).[s]) eqn:E; [by eapply vget_range|done]. }
  destruct (path_represents_entry _ _ _ _ _ Hst Hr) as [E1 E2 E3].
  destruct (vset_total (enqueued st) s false) as [es Hes]; [by eapply vget_range|].
  unfold take_state. rewrite Hhead. cbn [mbind option_bind]. rewrite Hdeq. cbn [mbind option_bind]. rewrite Hes.
  cbn [mbind option_bind]. cbv zeta. cbn [distance with_vectors]. rewrite E1. cbn [mbind option_bind]. rewrite Hfirst. cbn [andb].
  set (st1 := with_vectors _ _ _ _ _).
  destruct (tree_queue _ _ _ _ _ Htree s Hs) as (p0 & Hp0).
  destruct (relaxed_take f src (proj1 Hmem) Hwf Hcycles d rd e D s Hrel Hv) as [Hrel' Hopen].
  destruct (see_final_runs st1 d e par s p0) as (st2 & -> & Hbest2 & F1 & F2 & F3 & F4); [|done|done|apply Hrel|apply Hrel|].
  { by destruct Hbest. }
  cbn [negb].
  assert (represents st2 d par (D ∖ {[s]})) as Hst2.
  { pose proof (vset_len _ _ _ _ Hes) as L. destruct Hst as [Hlp Hle Hl Hsr Hd Hpar Hin Hvd].
    split; rewrite ?F1, ?F2, ?F3; cbn [st1 with_vectors distance parent enqueued]; try done; [lia| |].
    - intros t. rewrite (vget_vset _ _ _ t _ Hes). pose proof (decide_remove D s t) as Hdt.
      destruct (decide (s = t)); simpl.
      + symmetry. apply bool_decide_eq_false_2. by rewrite Hdt.
      + rewrite Hin. apply bool_decide_ext. by rewrite Hdt.
    - intros t [? _]%elem_of_difference. auto. }
  destruct (relax_from_runs s (e s) (d s) (measure f d (D ∖ {[s]})) (Arcs f s) [] st2 eq_refl Hv) as (st' & E' & Hrun).
  { exists d, (<[s := Zero]> rd), (<[s := d s]> e), (D ∖ {[s]}), par, p0.
    split_and!; [done|by rewrite F4|exact Hrel'|by eapply opened_full|by rewrite fn_lookup_insert|done| |done|done].
    destruct Htree as [Ht1 Ht2]. split; [done|]. intros t [? _]%elem_of_difference. auto. }
  change (zlen (@nil (Arc W))) with 0 in E'. rewrite E'. cbn [mbind option_bind].
  destruct Hrun as (d' & rd' & e' & D' & par' & p' & Hst' & Hq' & Hrel'' & _ & _ & Hm & Htree' & _ & Hbest').
  exists st', d', D'. split; [done|]. split; [|rewrite (measure_take _ _ _ s Hs); lia].
  exists (Some s), rd', e', par'. split_and!; [done..| |done|done].
  destruct Hrel'' as [? ? ? ? Harc ? ? ?]. split; try done.
  intros t a Ht Ha. right. destruct (Harc t a Ht Ha) as [[_ []%not_elem_of_nil]|?]; done.
Qed.

Lemma path_loop_runs fuel st d D :
  pending st d D → (measure f d D ≤ fuel)%nat →
  ∃ st' d', path_loop opts f fuel st = Some (st', true) ∧ pending st' d' ∅.
Proof.
  revert st d D. induction fuel as [|fuel IH]; intros st d D Hp Hm; pose proof Hp as (h & rd & e & par & _ & Hq & _);
    cbn [path_loop]; rewrite (queue_empty _ _ _ Hq); cbn [mbind option_bind].
  - assert (D = ∅) as -> by (apply leibniz_equiv, size_empty_inv; unfold measure in Hm; lia).
    rewrite bool_decide_eq_true_2 by done. by exists st, d.
  - case_bool_decide as HD; [subst; by exists st, d|].
    destruct (take_state_runs st d D Hp HD) as (st1 & d1 & D1 & -> & Hp1 & Hm1). cbn [mbind option_bind].
    apply (IH st1 d1 D1); [done|lia].
Qed.

Lemma start_path_runs queue h D :
  holds (dom:=valid f) (R:=edge f) queue h D → (if source opts =? kNoStateId then Start f else source opts) = src →
  ∃ st, start_path opts f queue = Some st ∧ pending st (<[src := One]> (λ _, Zero)) {[src]}.
Proof.
  intros Hq Hs. destruct (queue_clear _ _ _ Hq) as (q & Hclear & Hq').
  unfold start_path. rewrite Hs, Hclear. cbn [mbind option_bind]. cbv zeta. cbn [distance].
  destruct (queue_enqueue (replicate (Z.to_nat src) Zero ++ [One]) q None ∅ src Hq') as (q' & -> & Hq''); [set_solver|done|done|].
  cbn [mbind option_bind]. eexists. split; [done|].
  exists None, (<[src := One]> (λ _, Zero)), (λ _, Zero), (λ _, none).
  assert (∀ {A} (x : A), zlen (replicate (Z.to_nat src) x) = src) as Hlen.
  { intros A x. unfold zlen. rewrite length_replicate. unfold valid in Hsrc. lia. }
  assert (∀ {A} (x y : A) s, (replicate (Z.to_nat src) x ++ [y]).[s] = if decide (s = src) then Some y else if decide (0 ≤ s < src) then Some x else None) as Hget.
  { intros A x y s. rewrite vget_app, Hlen. destruct (decide (s = src)) as [->|Hne].
    - rewrite decide_False by lia. by rewrite Z.sub_diag.
    - destruct (decide (s < src)).
      + destruct (decide (0 ≤ s < src)); [|by rewrite (proj2 (vget_None _ s)) by lia].
        apply vget_Some. split; [lia|]. apply lookup_replicate_2. lia.
      + rewrite decide_False by lia. apply vget_None. change (zlen [y]) with 1. lia. }
  rewrite (right_id_L ∅ (∪)) in Hq''. split_and!; [|done|by apply relaxed_init; [apply Hmem|..]| |].
  - split; cbn -[valid]; rewrite ?zlen_app, ?Hlen; try done.
    + change (zlen [One]) with 1. unfold valid in Hsrc. lia.
    + change (zlen [One]) with 1. lia.
    + intros s. rewrite Hget. destruct (decide (s = src)) as [->|]; [by rewrite fn_lookup_insert|].
      rewrite fn_lookup_insert_ne by done. by destruct (decide _).
    + intros s. rewrite Hget. destruct (decide (s = src)); [done|]. by destruct (decide _).
    + intros s. rewrite Hget. destruct (decide (s = src)) as [->|].
      * symmetry. apply bool_decide_eq_true_2. set_solver.
      * rewrite bool_decide_eq_false_2 by set_solver. by destruct (decide _).
    + intros s ->%elem_of_singleton. done.
  - split; [intros n s i [= <- <-]; by destruct 1|]. intros s ->%elem_of_singleton. exists []. by econstructor.
  - split; cbn; [apply Zero_member| |by left]. intros t Ht. rewrite Times_Zero_l' by apply Hmem, Ht. apply absorbs_Zero, Zero_member.
Qed.
(** ** The best path *)

(** What the backtrace relies on. *)
Record found (ps : list (Z * Z)) (best : Z) par p : Prop := {
  found_par : ∀ s, par s = default none (ps.[s]);
  found_len : zlen ps ≤ NumStates f;
  found_source : src < zlen ps;
  found_traced : traced f src par best p;
  found_path : path f src p best;
  found_final : is_final f best;
  found_best : sum_of (accepted_from f src) (path_weight p (Final f best));
}.

Lemma source_distance d rd e : relaxed f src (λ _ _, False) d rd e ∅ → absorbs One (d src).
Proof.
  intros Hrel. destruct (rel_sum _ _ _ _ _ _ _ Hrel src) as (l & Hl & Hd). rewrite Hd.
  apply absorbs_wsum; [apply One_member|by eapply reached_members; [apply Hmem|]|]. apply Forall_fmap.
  eapply Forall_impl; [exact Hl|]. intros p [Hp _ _]. apply (Hcycles [] p src); [by constructor|done].
Qed.

Lemma best_found st d :
  pending st d ∅ →
  f_parent st = kNoStateId ∧ sum_of (accepted_from f src) Zero ∨
  f_parent st ≠ kNoStateId ∧ ∃ par p, found (parent st) (f_parent st) par p.
Proof.
  intros (h & rd & e & par & Hst & Hq & Hrel & Htree & [Hbm Hall Hbest]).
  pose proof (relaxed_final f src (proj1 Hmem) Hwf Hcycles d rd e Hsrc Hrel) as Hsum.
  assert (∀ s, e s ≡ d s) as He.
  { intros s. rewrite (rel_split _ _ _ _ _ _ _ Hrel), (rel_rest _ _ _ _ _ _ _ Hrel) by set_solver.
    symmetry. apply Plus_Zero_r, Hrel. }
  pose proof (rel_d _ _ _ _ _ _ _ Hrel) as Hd.
  assert (∀ x, accepted_from f src x → absorbs (f_distance st) x) as Habs.
  { intros x (p & t & Hp & Ht & Hx)%(accepted_spec f Hmem). rewrite <-Hx. pose proof (proj2 Hmem t (proj1 Ht)).
    pose proof (pw_member f (proj1 Hmem) p _ _ Hp).
    apply (absorbs_trans _ (Times (e t) (Final f t))); [done|rewrite He; eauto with weight|eauto with weight|by apply Hall|].
    rewrite He. apply absorbs_Times; [done..|]. apply (proj2 (proj2 (Hsum t))). by exists p. }
  destruct Hbest as [[-> Ed]|(Hf & (p & Hp) & Hab)]; [left|right].
  { split; [done|]. rewrite <-Ed. split; [done|]. split; [|done]. exists []. split; [constructor|]. by rewrite Ed. }
  set (t := f_parent st) in *. pose proof (proj2 Hmem t (proj1 Hf)) as Hfm.
  split; [destruct Hf as [[? _] _]; unfold kNoStateId in *; lia|].
  pose proof (traced_path f src Hwf d par ∅ t p Htree Hsrc Hp) as Hpath.
  pose proof (pw_member f (proj1 Hmem) p _ _ Hpath) as Hpm.
  assert (pw p ≡ d t) as Ep.
  { apply absorbs_antisym; [done|done| |].
    - eapply (traced_absorbs f src (proj1 Hmem) Hwf d par ∅); [done|done|done|by eapply source_distance|done].
    - apply (proj2 (proj2 (Hsum t))). by exists p. }
  assert (path_weight p (Final f t) ≡ Times (pw p) (Final f t)) as Ew.
  { pose proof (path_member f _ _ _ (proj1 Hmem) Hpath). unfold pw. rewrite <-path_weight_Times by eauto with weight.
    apply path_weight_proper. symmetry. by apply Times_One_l. }
  assert (path_weight p (Final f t) ≡ f_distance st) as Efd.
  { rewrite Ew. apply absorbs_antisym; [eauto with weight|done|by rewrite Ep|].
    rewrite Ep, <-He. by apply Hall. }
  exists par, p. split; [apply Hst|rewrite (rep_parent _ _ _ _ Hst); apply Hst|rewrite (rep_parent _ _ _ _ Hst); apply Hst|done..|].
  split; [by rewrite Efd|]. split; [|intros x Hx; rewrite Efd; by apply Habs].
  exists [path_weight p (Final f t)]. split; [|symmetry; apply Plus_Zero_r; by rewrite Efd]. constructor; [|constructor].
  exists (istring p), (ostring p). by exists p, t.
Qed.

(** As many visits as there are states times words of arcs. *)
Definition path_visits : nat := Z.to_nat (NumStates f) * length (candidates f) + 1.

Lemma SingleShortestPath_runs queue h D fuel :
  holds (dom:=valid f) (R:=edge f) queue h D → (if source opts =? kNoStateId then Start f else source opts) = src →
  Start f ≠ kNoStateId → (path_visits ≤ fuel)%nat →
  ∃ st d, SingleShortestPath opts f fuel queue = Some (st, true) ∧ pending st d ∅.
Proof.
  intros Hq Hs Hst Hfuel. unfold SingleShortestPath. rewrite (proj2 (Z.eqb_neq _ _) Hst).
  destruct (start_path_runs queue h D Hq Hs) as (st & -> & Hp). cbn [mbind option_bind].
  destruct (path_loop_runs fuel st _ _ Hp) as (st' & d' & -> & Hp').
  - pose proof (measure_bound f (<[src := One]> (λ _, Zero)) {[src]}) as Hm. rewrite size_singleton in Hm.
    unfold path_visits in Hfuel. lia.
  - by exists st', d'.
Qed.
End refinement.

(** * The machine of the path *)

Section chains.
Context `{TimesMonoid W}.
Implicit Types (g : Fst W) (s t : Z) (a : Arc W) (r p : list (Arc W)) (w v : W).

(** State [s + 1] has one transition, to [s]; the arcs [r] are in this order. *)
Definition chain_fst (start : Z) r w : Fst W := {|
  Start := start; NumStates := 1 + zlen r;
  Final := λ s, if decide (s = 0) then w else Zero;
  Arcs := λ s, match r.[s - 1] with Some a => [set_nextstate (s - 1) a] | None => [] end;
  FstProperties := 0; InputSymbols := None; OutputSymbols := None |}.

Lemma chain_edge start r w s t : edge (chain_fst start r w) s t ↔ 1 ≤ s ≤ zlen r ∧ t = s - 1.
Proof.
  unfold edge, valid. cbn [NumStates Arcs chain_fst]. split.
  - intros (_ & a & Ha & Ht). destruct (r.[s - 1]) as [b|] eqn:E; [|by apply not_elem_of_nil in Ha].
    apply list_elem_of_singleton in Ha as ->. apply vget_range in E. cbn in Ht. lia.
  - intros [Hs ->]. destruct (vget_in_range r (s - 1)) as [b ->]; [lia|]. split; [lia|].
    eexists. split; [left|done].
Qed.

Lemma chain_tc start r w s t : tc (edge (chain_fst start r w)) s t → t < s.
Proof. induction 1 as [s t [? ->]%chain_edge|s t u [? ->]%chain_edge _ IH]; lia. Qed.

Lemma chain_acyclic start r w : ¬ Holds (chain_fst start r w) Cyclic.
Proof. intros [s Hs%chain_tc]. lia. Qed.

Lemma chain_accessible r w : Holds (chain_fst (zlen r) r w) Accessible.
Proof.
  intros s Hs. unfold valid in Hs. cbn [NumStates Start chain_fst] in *.
  assert (∀ n, 0 ≤ n → n ≤ zlen r → rtc (edge (chain_fst (zlen r) r w)) (zlen r) (zlen r - n)) as Hr.
  { refine (natlike_ind _ _ _); [intros _; by rewrite Z.sub_0_r|]. intros n Hn IH Hle.
    eapply rtc_r; [apply IH; lia|]. apply chain_edge. lia. }
  replace s with (zlen r - (zlen r - s)) by lia. apply Hr; lia.
Qed.

Lemma path_chain_wf r w : WellFormed (chain_fst (zlen r) r w).
Proof.
  pose proof (zlen_nonneg r). split_and!; cbn [NumStates chain_fst]; [lia| |right; unfold valid; cbn; lia].
  intros s a Hs Ha. assert (edge (chain_fst (zlen r) r w) s (nextstate a)) as [? ->]%chain_edge by (split; [done|by exists a]).
  unfold valid in *. cbn in *. lia.
Qed.

(** One string pair is accepted, by the way from the start to state 0. *)
Lemma chain_accepts_from start r w (n : nat) i o v :
  weqb w Zero = false → (n ≤ length r)%nat →
  accepts_from (chain_fst start r w) (Z.of_nat n) i o v ↔
  istring (rev (take n r)) = i ∧ ostring (rev (take n r)) = o ∧ path_weight (rev (take n r)) w ≡ v.
Proof.
  intros Hw. set (c := chain_fst start r w). revert i o v. induction n as [|n IH]; intros i o v Hn.
  - assert (∀ p t, path c 0 p t ↔ p = [] ∧ t = 0) as Hp.
    { intros p t. split; [|intros [-> ->]; constructor; pose proof (zlen_nonneg r); unfold valid; cbn; lia].
      inversion 1 as [|? a q ? Hv Ha Hq]; subst; [done|].
      assert (edge c 0 (nextstate a)) as [? _]%chain_edge by (split; [done|by exists a]). lia. }
    split.
    + intros (p & t & [-> ->]%Hp & _ & <- & <- & Hv). done.
    + intros (<- & <- & Hv). exists [], 0. split_and!; [by apply Hp| |done..].
      split; [pose proof (zlen_nonneg r); unfold valid; cbn; lia|done].
  - destruct (lookup_lt_is_Some_2 r n ltac:(lia)) as [a Ha].
    assert (Arcs c (Z.of_nat (S n)) = [set_nextstate (Z.of_nat n) a]) as Harcs.
    { cbn [Arcs c chain_fst]. replace (Z.of_nat (S n) - 1) with (Z.of_nat n) by lia. by rewrite vget_nat, Ha. }
    rewrite (take_S_r _ _ _ Ha), rev_unit. rename IH into IH'. pose proof (λ i o v, IH' i o v ltac:(lia)) as IH. clear IH'.
    split.
    + intros (p & t & Hp & Ht & <- & <- & Hv). inversion Hp as [|? b q ? Hs Hb Hq]; subst.
      { destruct Ht as [_ Ht]. cbn [Final c chain_fst] in Ht. rewrite decide_False in Ht by lia. by rewrite weqb_Zero_refl in Ht. }
      rewrite Harcs in Hb. apply list_elem_of_singleton in Hb as ->. cbn [nextstate set_nextstate] in Hq.
      destruct (proj1 (IH (istring q) (ostring q) (path_weight q (Final c t)))) as (Ei & Eo & Ew).
      { by exists q, t. }
      change (istring (?a :: ?l)) with (istring ([a] ++ l)). change (ostring (?a :: ?l)) with (ostring ([a] ++ l)).
      rewrite !istring_app, !ostring_app, Ei, Eo. split_and!; [done..|]. cbn in Hv |- *. by rewrite Ew.
    + intros (Ei & Eo & Ew). destruct (proj2 (IH (istring (rev (take n r))) (ostring (rev (take n r))) (path_weight (rev (take n r)) w)))
        as (p & t & Hp & Ht & Epi & Epo & Epw); [done|].
      exists (set_nextstate (Z.of_nat n) a :: p), t. split; [|split; [done|]].
      { constructor; [unfold valid; cbn; unfold zlen; lia|rewrite Harcs; left|done]. }
      change (istring (?a :: ?l)) with (istring ([a] ++ l)) in *. change (ostring (?a :: ?l)) with (ostring ([a] ++ l)) in *.
      rewrite !istring_app, !ostring_app in *. rewrite Epi, Epo. split_and!; [done..|].
      change (Times (weight a) (path_weight p (Final c t)) ≡ v). by rewrite Epw.
Qed.

(** ** Building it *)

Context `{!MutableFst W F, !MutableFstLaws W F}.
Implicit Types (x y : F).

Lemma chain_start x y g (h : Fst W) w :
  g ≡ abs_keep_states h [] → evolves x y g →
  ∃ z z', mAddState y = (z, 0) ∧ mSetFinal z 0 w = Some z' ∧ evolves x z' (chain_fst kNoStateId [] w).
Proof.
  intros Hg Hy. destruct (evolves_add_state _ _ _ Hy) as (z & Hz & Hxz).
  assert (NumStates g = 0) as Hn by by destruct Hg as (_ & -> & _). rewrite Hn in Hz.
  destruct (evolves_set_final _ _ _ 0 w Hxz) as (z' & Hz' & Hxz'); [unfold valid; cbn; lia|].
  exists z, z'. split_and!; [done..|]. eapply evolves_equiv; [done|]. destruct Hg as (HS & HN & HF & HA).
  assert (∀ {A} i, (@nil A).[i] = None) as Hnil by (intros A i; apply vget_None; change (zlen (@nil A)) with 0; lia).
  split_and!; cbn.
  - by rewrite HS.
  - rewrite HN. done.
  - intros s. rewrite HF. cbn. by rewrite Hnil.
  - intros s. rewrite HA. cbn. by rewrite !Hnil.
Qed.

Lemma chain_grow x y r w a :
  evolves x y (chain_fst kNoStateId r w) →
  ∃ z z', mAddState y = (z, zlen r + 1) ∧ mAddArc z (zlen r + 1) (set_nextstate (zlen r) a) = Some z' ∧
    evolves x z' (chain_fst kNoStateId (r ++ [a]) w).
Proof.
  intros Hy. destruct (evolves_add_state _ _ _ Hy) as (z & Hz & Hxz). cbn [NumStates chain_fst] in Hz. pose proof (zlen_nonneg r).
  destruct (evolves_add_arc _ _ _ (zlen r + 1) (set_nextstate (zlen r) a) Hxz) as (z' & Hz' & Hxz'); [unfold valid; cbn; lia|].
  exists z, z'. rewrite Hz. split_and!; [f_equal; lia|done|]. eapply evolves_equiv; [done|]. split_and!; cbn; [done| |done|].
  - rewrite zlen_app. change (zlen [a]) with 1. lia.
  - intros s. rewrite vget_app. case_decide as Hs.
    + subst s. replace (zlen r + 1 - 1) with (zlen r) by lia. rewrite decide_False by lia. rewrite Z.sub_diag.
      by rewrite (proj2 (vget_None r (zlen r))) by lia.
    + case_decide as Hs'; [done|]. rewrite (proj2 (vget_None r (s - 1))) by lia.
      rewrite (proj2 (vget_None [a] _)); [done|]. change (zlen [a]) with 1. lia.
Qed.
End chains.

Section result.
Context `{RightSemiring W} `{!IdempotentWeight W, !PathWeight W} `{!MutableFst W F, !MutableFstLaws W F}.
Context (f : Fst W) (src : Z).
Implicit Types (x y z : F) (s n i : Z) (a b : Arc W) (r p : list (Arc W)) (ps : list (Z * Z)) (par : Z → Z * Z) (w : W).
Local Notation none := (kNoStateId, kNoArc).

(** ** The backtrace *)

Section loop.
Context (ps : list (Z * Z)) par (Hpar : ∀ s, par s = default none (ps.[s])) (Hsrc : 0 ≤ src < zlen ps) (best : Z).

Lemma parent_source i : par src = (kNoStateId, i) → ps.[src] = Some (kNoStateId, i).
Proof using Hpar Hsrc. rewrite Hpar. destruct (vget_in_range ps src Hsrc) as [q ->]. simpl. by intros ->. Qed.

Lemma parent_arc n s i : par n = (s, i) → s ≠ kNoStateId → ps.[n] = Some (s, i).
Proof using Hpar. rewrite Hpar. destruct (ps.[n]) as [q|]; simpl; [by intros ->|]. intros [= <- <-]. by destruct 1. Qed.

Lemma traced_short n p : traced f src par n p → (length p < length ps)%nat.
Proof using Hpar Hsrc.
  intros Hp. pose proof (traced_simple f src par n p Hp) as Hnd.
  assert (src :: (nextstate <$> p) ⊆+ seqZ 0 (zlen ps)) as Hsub%submseteq_length.
  { apply NoDup_submseteq; [done|]. clear Hnd. intros t Ht. apply elem_of_seqZ.
    induction Hp as [i Hi|u s i a p Hi Hs Ha Hn Hp IH]; [apply list_elem_of_singleton in Ht as ->; lia|].
    rewrite fmap_app, app_comm_cons, elem_of_app in Ht. destruct Ht as [Ht|Ht]; [auto|].
    apply list_elem_of_singleton in Ht as ->. pose proof (vget_range _ _ _ (parent_arc _ _ _ Hi Hs)) as Hr. cbn. rewrite Hn. lia. }
  rewrite length_cons, length_fmap, length_seqZ in Hsub. unfold zlen in Hsub. lia.
Qed.

Lemma backtrace_none fuel d s_p y : backtrace fuel f ps best kNoStateId d s_p y = Some (y, s_p).
Proof using. by destruct fuel. Qed.

Lemma backtrace_step fuel n d s_p y i b z z' nps :
  n ≠ kNoStateId → d ≠ kNoStateId → ps.[d] = Some (n, i) → (Arcs f n).[i] = Some b → ps.[n] = Some nps →
  mAddState y = (z, s_p + 1) → mAddArc z (s_p + 1) (set_nextstate s_p b) = Some z' →
  backtrace (S fuel) f ps best n d s_p y = backtrace fuel f ps best nps.1 n (s_p + 1) z'.
Proof using.
  intros Hn Hd Ed Eb En Ez Ez'. cbn [backtrace]. rewrite (proj2 (Z.eqb_neq _ _) Hn). cbv zeta. rewrite Ez.
  rewrite (proj2 (Z.eqb_neq _ _) Hd), Ed. cbn [mbind option_bind]. rewrite Eb. cbn [mbind option_bind]. rewrite Ez'.
  cbn [mbind option_bind]. rewrite En. cbn [mbind option_bind]. by destruct nps.
Qed.

Lemma backtrace_loop x w n p : traced f src par n p → ∀ d i b r y fuel,
  n ≠ kNoStateId → d ≠ kNoStateId → ps.[d] = Some (n, i) → (Arcs f n).[i] = Some b → (length p < fuel)%nat →
  evolves x y (chain_fst kNoStateId r w) →
  ∃ z, backtrace fuel f ps best n d (zlen r) y = Some (z, zlen (r ++ b :: rev p)) ∧
    evolves x z (chain_fst kNoStateId (r ++ b :: rev p) w).
Proof using Hpar Hsrc H0 H1 MutableFstLaws0.
  induction 1 as [j Hj|n s j a p Hj Hs Ha Hna Hp IH]; intros d i b r y fuel Hn Hd Ed Eb Hfuel Hy;
    (destruct fuel as [|fuel]; [lia|]); destruct (chain_grow x y r w b Hy) as (z & z' & Ez & Ez' & Hz').
  - exists z'. rewrite (backtrace_step _ _ _ _ _ _ _ _ _ _ Hn Hd Ed Eb (parent_source _ Hj) Ez Ez'). cbn [fst].
    rewrite backtrace_none. split; [|done]. simpl. by rewrite zlen_app.
  - rewrite (backtrace_step _ _ _ _ _ _ _ _ _ _ Hn Hd Ed Eb (parent_arc _ _ _ Hj Hs) Ez Ez'). cbn [fst].
    destruct (IH n j a (r ++ [b]) z' fuel) as (z'' & E & Hz''); try done.
    + by apply parent_arc.
    + rewrite length_app in Hfuel. simpl in Hfuel. lia.
    + rewrite zlen_app in E. change (zlen [b]) with 1 in E. exists z''. rewrite rev_unit, E.
      rewrite <-!app_assoc in *. done.
Qed.

Lemma backtrace_runs x g (h : Fst W) y p w :
  g ≡ abs_keep_states h [] → evolves x y g → traced f src par best p → best ≠ kNoStateId → w = Final f best →
  ∃ z, backtrace (S (length ps)) f ps best best kNoStateId kNoStateId y = Some (z, zlen (rev p)) ∧
    evolves x z (chain_fst kNoStateId (rev p) w).
Proof using Hpar Hsrc H0 H1 MutableFstLaws0.
  intros Hg Hy Hp Hb ->. destruct (chain_start x y g h (Final f best) Hg Hy) as (z & z' & Ez & Ez' & Hz').
  pose proof (traced_short best p Hp) as Hlen. cbn [backtrace]. rewrite (proj2 (Z.eqb_neq _ _) Hb). cbv zeta. rewrite Ez.
  rewrite (proj2 (Z.eqb_eq _ _) eq_refl), Ez'. cbn [mbind option_bind].
  pose proof parent_source as Hps. pose proof parent_arc as Hpa. pose proof (backtrace_loop x (Final f best)) as Hloop.
  inversion Hp as [j Hj|n s j a q Hj Hs Ha Hna Hq]; subst.
  - rewrite (Hps _ Hj). cbn [mbind option_bind]. exists z'. by destruct (length ps).
  - rewrite (Hpa _ _ _ Hj Hs). cbn [mbind option_bind].
    destruct (Hloop s q Hq (nextstate a) j a [] z' (length ps)) as (z'' & E & Hz''); try done.
    + by apply Hpa.
    + rewrite length_app in Hlen. simpl in Hlen. lia.
    + change (zlen (@nil (Arc W))) with 0 in E. rewrite rev_unit. by exists z''.
Qed.
End loop.

(** ** Its bits *)

Lemma shortest_path_bits g P (Q : Z) :
  Sound P g → (∀ k, Z.testbit Q k = true → Z.testbit P k = true) → ¬ Holds g Cyclic → Holds g Accessible →
  Sound ((P &&& (u64_not kFstProperties ||| kError)) ||| (ShortestPathProperties Q true &&& kFstProperties)) g.
Proof using.
  intros HP HQ Hc Ha.
  assert (¬ Holds g InitialCyclic) as Hi by (intros Hi; apply Hc; by eexists).
  assert (¬ Holds g WeightedCycles) as Hw.
  { intros (s & a & Hs & Hin & _ & Hr). apply Hc. exists s. eapply tc_rtc_r; [|exact Hr]. apply tc_once. split; [done|by exists a]. }
  intros t. specialize (HP t). pose proof (HQ (pos_bit t)) as Hp. pose proof (HQ (neg_bit t)) as Hn. revert HP Hp Hn.
  unfold ShortestPathProperties. destruct t; bits; rewrite ?andb_true_r, ?orb_false_r, ?andb_false_r, ?orb_true_r, ?orb_false_l; cbn [orb];
    intros [H1' H2'] Hp Hn; (split; intros Hb); first [exact Ha|exact Hc|exact Hi|exact Hw|by apply H1', Hp|by apply H2', Hn|
      by (destruct (orb_prop _ _ Hb) as [?|?]; [apply H1'|apply H1', Hp])|by (destruct (orb_prop _ _ Hb) as [?|?]; [apply H2'|apply H2', Hn])|idtac].
Qed.

(** What the two calls of [SetProperties] at the end do. *)
Definition finished (z : F) : F :=
  let x := if has (FstProperties f) kError then mSetProperties z kError kError else z in
  mSetProperties x (ShortestPathProperties (mProperties x kFstProperties) true) kFstProperties.

Lemma finished_spec z g : minv z → view z ≡ g → SoundFst (view z) → ¬ Holds g Cyclic → Holds g Accessible →
  let y := finished z in
  minv y ∧ view y ≡ g ∧ SoundFst (view y) ∧ InputSymbols (view y) = InputSymbols (view z) ∧
  OutputSymbols (view y) = OutputSymbols (view z) ∧
  (has (FstProperties f) kError = true → has (FstProperties (view y)) kError = true).
Proof.
  intros Hz Hv Hs Hc Ha. unfold finished. set (x := if has _ _ then _ else z).
  assert (minv x ∧ view x ≡ view z ∧ InputSymbols (view x) = InputSymbols (view z) ∧ OutputSymbols (view x) = OutputSymbols (view z) ∧
    SoundFst (view x) ∧ (has (FstProperties f) kError = true → has (FstProperties (view x)) kError = true))
    as (Hx & Hvx & Hi & Ho & Hsx & He).
  { unfold x. destruct (has (FstProperties f) kError) eqn:E; [|done].
    split_and!; [by apply mSetProperties_minv|apply mSetProperties_view|apply mSetProperties_symbols|apply mSetProperties_symbols| |].
    - apply (SoundFst_equiv _ _ (mSetProperties_view z _ _)). rewrite mSetProperties_bits. unfold SoundFst in Hs.
      intros t. specialize (Hs t). revert Hs. destruct t; bits; rewrite ?andb_true_r, ?orb_false_r; done.
    - intros _. rewrite mSetProperties_bits, error_bit. bits. by rewrite ?orb_true_r. }
  set (y := mSetProperties x _ _). assert (view y ≡ g) as Hvy by (unfold y; by rewrite mSetProperties_view, Hvx).
  cbv zeta. split_and!; [by apply mSetProperties_minv|done| | | |].
  - apply (SoundFst_equiv _ _ Hvy). unfold y. rewrite mSetProperties_bits. apply shortest_path_bits; [| |done..].
    + unfold SoundFst in Hsx. revert Hsx. generalize (FstProperties (view x)). intros P HP. by rewrite Hvx, Hv in HP.
    + intros k. unfold mProperties. rewrite Z.land_spec. by intros [? _]%andb_prop.
  - unfold y. by rewrite (proj1 (mSetProperties_symbols _ _ _)).
  - unfold y. by rewrite (proj2 (mSetProperties_symbols _ _ _)).
  - intros Hf. specialize (He Hf). unfold y. rewrite mSetProperties_bits. revert He. rewrite !error_bit.
    bits. intros ->. done.
Qed.

(** ** One path of least weight *)

Context (Hwf : WellFormed f) (Hmem : member_weights f) (Hcycles : cycles_absorbed f src) (Hsrc : valid f src).

Definition best_machine y : Prop :=
  minv y ∧ WellFormed (view y) ∧ SoundFst (view y) ∧
  InputSymbols (view y) = InputSymbols f ∧ OutputSymbols (view y) = OutputSymbols f ∧
  (has (FstProperties f) kError = true → has (FstProperties (view y)) kError = true) ∧
  ((∀ si so v, ¬ accepts (view y) si so v) ∧ sum_of (accepted_from f src) Zero ∨
   ∃ si so w, (∀ ti to v, accepts (view y) ti to v ↔ ti = si ∧ to = so ∧ v ≡ w) ∧
     accepts_from f src si so w ∧ sum_of (accepted_from f src) w).

Lemma Backtrace_found x ps best par p :
  minv x → SoundFst (view x) → best ≠ kNoStateId → found f src ps best par p →
  ∃ y, SingleShortestPathBacktrace f ps best x = Some y ∧ best_machine y.
Proof.
  intros Hx Hs Hb [Hpar Hlen Hps Hp Hpath Hfin Hbest]. destruct (emptied_spec x f Hx) as (He & Hv & Hei & Heo & Hes).
  unfold SingleShortestPathBacktrace. cbv zeta. fold (emptied x f). set (e := emptied x f) in *.
  assert (0 ≤ src < zlen ps) as Hsps by (unfold valid in Hsrc; lia).
  destruct (backtrace_runs ps par Hpar Hsps best e (view e) (view x) e p (Final f best) Hv (evolves_refl e He) Hp Hb eq_refl) as (z & Ez & Hz).
  rewrite Ez. cbn [mbind option_bind]. apply (evolves_set_start _ _ _ (zlen (rev p))) in Hz.
  set (c := chain_fst (zlen (rev p)) (rev p) (Final f best)).
  assert (evolves e (mSetStart z (zlen (rev p))) c) as [Hzi [Hzv Hzis Hzos Hze Hzs]] by (eapply evolves_equiv; [exact Hz|by split]).
  destruct (finished_spec _ c Hzi Hzv (Hzs (Hes Hs)) (chain_acyclic _ _ _) (chain_accessible _ _)) as (Hy & Hyv & Hys & Hyi & Hyo & Hye).
  exists (finished (mSetStart z (zlen (rev p)))). split; [done|]. split; [exact Hy|]. split; [rewrite Hyv; apply path_chain_wf|]. split; [exact Hys|].
  split; [by rewrite Hyi, Hzis|]. split; [by rewrite Hyo, Hzos|]. split; [exact Hye|]. right.
  exists (istring p), (ostring p), (path_weight p (Final f best)). split; [|split; [by exists p, best|done]].
  intros ti to v. rewrite Hyv. unfold accepts. cbn [Start c chain_fst]. unfold zlen.
  unfold c. rewrite chain_accepts_from by (done || apply Hfin). rewrite firstn_all, rev_involutive. naive_solver.
Qed.

Lemma Backtrace_none x ps :
  minv x → SoundFst (view x) → sum_of (accepted_from f src) Zero →
  ∃ y, SingleShortestPathBacktrace f ps kNoStateId x = Some y ∧ best_machine y.
Proof.
  intros Hx Hs Hsum. destruct (emptied_spec x f Hx) as (He & Hv & Hei & Heo & Hes).
  unfold SingleShortestPathBacktrace. cbv zeta. fold (emptied x f). set (e := emptied x f) in *.
  cbn [backtrace]. change (kNoStateId =? kNoStateId) with true. cbn [mbind option_bind].
  assert (NumStates (view e) = 0) as Hn by by destruct Hv as (_ & -> & _).
  destruct (mSetStart_steps e kNoStateId He) as [Hzi [Hzv Hzis Hzos Hze Hzs]]. set (z := mSetStart e kNoStateId) in *.
  set (c := abs_set_start (view e) kNoStateId) in *.
  assert (∀ s, ¬ valid c s) as Hnv by (intros s; unfold valid, c; cbn; lia).
  destruct (finished_spec z c Hzi Hzv (Hzs (Hes Hs))) as (Hy & Hyv & Hys & Hyi & Hyo & Hye).
  { intros [s Hs']. by inversion Hs' as [? ? [? _]|? ? ? [? _]]; subst; eapply Hnv. }
  { intros s []%Hnv. }
  exists (finished z). split; [done|]. split; [exact Hy|]. split.
  { rewrite Hyv. split_and!; [cbn; lia|intros s a []%Hnv|by left]. }
  split; [exact Hys|]. split; [by rewrite Hyi, Hzis|]. split; [by rewrite Hyo, Hzos|]. split; [exact Hye|]. left.
  split; [|done]. intros si so v. rewrite Hyv. intros (p & t & _ & [Ht _] & _). by eapply Hnv.
Qed.
End result.

(** ** The interfaces *)

Section interfaces.
Context `{RightSemiring W} `{!IdempotentWeight W, !PathWeight W} `{!MutableFst W F, !MutableFstLaws W F}.
Context (f : Fst W) (Hwf : WellFormed f) (Hmem : member_weights f).
Implicit Types (x y : F).

Lemma ShortestPath_single_runs {Q : Type} `{!StateQueue W Q} `{!QueueLaws (W:=W) (Q:=Q) (valid f) (edge f)}
    (opts : PathOptions W Q) src queue h D fuel x :
  cycles_absorbed f src → valid f src → (if source opts =? kNoStateId then Start f else source opts) = src →
  first_path opts = false → holds (W:=W) (dom:=valid f) (R:=edge f) queue h D → Start f ≠ kNoStateId →
  (path_visits f ≤ fuel)%nat → minv x → SoundFst (view x) →
  ∃ y, ShortestPath_single opts fuel f queue x = Some y ∧ best_machine f src y.
Proof.
  intros Hc Hv Hsrc Hfirst Hq Hst Hfuel Hx Hs. unfold ShortestPath_single.
  destruct (SingleShortestPath_runs opts f src Hwf Hmem Hc Hv Hfirst queue h D fuel Hq Hsrc Hst Hfuel) as (st & d & -> & Hp).
  cbn [mbind option_bind].
  destruct (best_found opts f src Hwf Hmem Hc Hv Hfirst st d Hp) as [[-> Hsum]|(Hb & par & p & Hf)].
  - by apply Backtrace_none.
  - by eapply Backtrace_found.
Qed.

(** C37: The shortest path.  Take a well-formed machine with true bits and members
as weights, in an idempotent right semiring with the path property, such that no
cycle improves a path.  [ShortestPath] for one path, with the queue that is chosen
for the machine, ends within [path_visits] visits and leaves, whatever machine it
writes over, a well-formed machine with true bits and the symbol tables and error
of its argument.  It accepts nothing, and then the sum of all weights that the
argument accepts is [Zero]; or it accepts one string pair, which the argument
accepts with the same weight, and no weight that the argument accepts is less. *)
Theorem ShortestPath_correct wprops properties0 acyclic0 fuel x :
  SoundFst f → cycles_absorbed f (Start f) → minv x → SoundFst (view x) → (path_visits f ≤ fuel)%nat →
  ∃ y, ShortestPath wprops properties0 acyclic0 false fuel f x = Some y ∧
    minv y ∧ WellFormed (view y) ∧ SoundFst (view y) ∧
    InputSymbols (view y) = InputSymbols f ∧ OutputSymbols (view y) = OutputSymbols f ∧
    (has (FstProperties f) kError = true → has (FstProperties (view y)) kError = true) ∧
    ((∀ si so v, ¬ accepts (view y) si so v) ∧ sum_of (λ v, ∃ ti to, accepts f ti to v) Zero ∨
     ∃ si so w, (∀ ti to v, accepts (view y) ti to v ↔ ti = si ∧ to = so ∧ v ≡ w) ∧
       accepts f si so w ∧ sum_of (λ v, ∃ ti to, accepts f ti to v) w).
Proof.
  intros Hsound Hc Hx Hs Hfuel. unfold ShortestPath.
  destruct (AutoQueue_new_holds wprops properties0 acyclic0 f true Hwf Hsound) as (q & -> & _ & Hq).
  cbn [mbind option_bind]. destruct (decide (Start f = kNoStateId)) as [Hst|Hst].
  - unfold ShortestPath_single, SingleShortestPath. rewrite Hst, Z.eqb_refl. cbn [mbind option_bind parent f_parent].
    apply (Backtrace_none f (Start f)); [done..|]. split; [apply Zero_member|]. split; [by exists []|].
    intros v (ti & to & p & t & Hp%path_valid_l & _). rewrite Hst in Hp. unfold valid, kNoStateId in Hp. lia.
  - assert (valid f (Start f)) as Hv by by destruct Hwf as (_ & _ & [?|?]).
    by eapply (ShortestPath_single_runs (MkPathOptions kNoStateId false FirstPathSelect) (Start f)).
Qed.
End interfaces.

(** ** An instance *)

Section witnesses.
Local Notation M := MinMaxWeight.

Lemma ShortestPath_correct_witness :
  ∃ y, ShortestPath (F:=VectorFst M) MinMaxProperties 0 false false (path_visits weighted_loop) weighted_loop VectorFst_new = Some y ∧
    minv y ∧ WellFormed (view y) ∧ SoundFst (view y) ∧
    InputSymbols (view y) = None ∧ OutputSymbols (view y) = None ∧
    (has (FstProperties weighted_loop) kError = true → has (FstProperties (view y)) kError = true) ∧
    ((∀ si so v, ¬ accepts (view y) si so v) ∧ sum_of (λ v, ∃ ti to, accepts weighted_loop ti to v) Zero ∨
     ∃ si so w, (∀ ti to v, accepts (view y) ti to v ↔ ti = si ∧ to = so ∧ v ≡ w) ∧
       accepts weighted_loop si so w ∧ sum_of (λ v, ∃ ti to, accepts weighted_loop ti to v) w).
Proof.
  destruct (built_invariant _ (built_history (W:=M) [])) as [Hc Hs].
  by apply (ShortestPath_correct weighted_loop weighted_loop_wf weighted_loop_member MinMaxProperties 0 false _ VectorFst_new
    weighted_loop_sound (minmax_cycles_absorbed _ _ (proj1 weighted_loop_member))).
Defined.

Definition path_of (first_path : bool) (f : Fst M) : option (Z * list (list (Arc M)) * M) :=
  y ← ShortestPath (F:=VectorFst M) MinMaxProperties 0 false first_path 20 f VectorFst_new;
  Some (Start (view y), Arcs (view y) <$> seqZ 0 (NumStates (view y)), Final (view y) 0).

Example weighted_loop_path :
  path_of false weighted_loop =
  Some (3, [[]; [MkArc 4 4 One 0]; [MkArc 2 0 (MinMax (S754_finite false 4 0)) 1]; [MkArc 1 1 One 2]], One).
Proof. by vm_compute. Qed.

(** To stop at the first path needs a shortest-first queue: in topological order
the path over state 3 is missed, as the comment on the option says. *)
Definition sorted_fan : Fst M := {|
  Start := 0; NumStates := 4;
  Final := λ s, if s =? 1 then MinMax (S754_finite false 5 0) else if s =? 3 then One else Zero;
  Arcs := λ s, if s =? 0 then [MkArc 1 1 One 1; MkArc 2 2 (MinMax (S754_finite false 6 0)) 2; MkArc 3 3 (MinMax (S754_finite false 1 0)) 3] else [];
  FstProperties := kExpanded ||| kTopSorted ||| kAcyclic; InputSymbols := None; OutputSymbols := None |}.

Example first_path_needs_order :
  path_of false sorted_fan = Some (1, [[]; [MkArc 3 3 (MinMax (S754_finite false 1 0)) 0]], One) ∧
  path_of true sorted_fan = Some (1, [[]; [MkArc 1 1 One 0]], MinMax (S754_finite false 5 0)).
Proof. by vm_compute. Qed.
End witnesses.
