(* ===== verification/Matcher.v ===== *)
(** Matchers (openfst/lib/matcher.h): given a state and a label, they enumerate the
arcs with that label on one side, epsilons and the implicit self-loop included.
The class [Matcher] is what composition calls, [MatcherLaws] what it relies on.
Proved here: [SortedMatcher], with its binary and its linear search, and
[HashMatcher], with its tables of positions, keep the promises. *)
From S2P Require Import Prelude Weight FloatWeight Properties Fst Mutation Dfs TestProperties.
From Stdlib Require Import Sorting.Sorted.
Local Open Scope Z_scope.

(* fst.h:194-200 MatchType *)
Inductive MatchType := MATCH_INPUT | MATCH_OUTPUT | MATCH_BOTH | MATCH_NONE | MATCH_UNKNOWN.

#[export] Instance MatchType_eq_dec : EqDecision MatchType.
Proof. solve_decision. Defined.

(* matcher.h:128-128 kRequireMatch *)
Definition kRequireMatch : Z := 1.
(* matcher.h:134-134 kRequirePriority *)
Definition kRequirePriority : Z := -1.

(** * The interface *)

(** [None] is an access out of range.  [Type] with a test computes property bits,
and so it may end with [None] too. *)

(* matcher.h:138-169 MatcherBase *)
Class Matcher (W M : Type) := {
  GetFst : M → Fst W;
  Type_ : M → bool → option MatchType;
  SetState : M → Z → option M;
  Find : M → Z → option (M * bool);
  Done : M → option bool;
  Value : M → option (Arc W);
  Next : M → option M;
  MatcherFinal : M → Z → W;
  Priority : M → Z → Z;
  MatcherProperties : M → Z → Z;
  Flags : M → Z;
}.

(** The loop of a client: [Find] and then [Done], [Value] and [Next]. *)
Section clients.
Context {W M A : Type} `{!Matcher W M} (step : A → Arc W → option A).

(* compose.h:380-389 MatchArc *)
Fixpoint each_match (fuel : nat) (m : M) (acc : A) : option (M * A) :=
  done ← Done m;
  if done : bool then Some (m, acc) else
  match fuel with
  | O => None
  | S fuel => a ← Value m; acc ← step acc a; m ← Next m; each_match fuel m acc
  end.

(* compose.h:376-391 MatchArc *)
Definition find_matches (fuel : nat) (m : M) (label : Z) (acc : A) : option (M * A) :=
  '(m, found) ← Find m label;
  if found : bool then each_match fuel m acc else Some (m, acc).
End clients.

(** The matches of several labels at several states, one after the other. *)
Definition queries {W M} `{!Matcher W M} (fuel : nat) (m : M) (qs : list (Z * Z)) : option (M * list (list (Arc W))) :=
  foldM (λ '(m, results) q,
    m ← SetState m q.1;
    '(m, l) ← find_matches (λ l a, Some (l ++ [a])) fuel m q.2 [];
    Some (m, results ++ [l])) qs (m, []).

Section sides.
Context `{WeightOps W}.
Implicit Types (f : Fst W) (a : Arc W).

(** The label of the side that is matched. *)
Definition side (mt : MatchType) a : Z := if decide (mt = MATCH_INPUT) then ilabel a else olabel a.

(** The self-loop that epsilon matches without reading a symbol. *)

(* matcher.h:197-214 SortedMatcher *)
Definition implicit_loop (mt : MatchType) (s : Z) : Arc W :=
  if decide (mt = MATCH_OUTPUT) then MkArc 0 kNoLabel One s else MkArc kNoLabel 0 One s.

(** What a label matches at a state, in order: [kNoLabel] matches the arcs with
epsilon alone. *)
Definition matches f (mt : MatchType) (s label : Z) : list (Arc W) :=
  (if label =? 0 then [implicit_loop mt s] else []) ++
  filter (λ a, side mt a = (if label =? kNoLabel then 0 else label)) (Arcs f s).

Definition sorted_property (mt : MatchType) : trinary :=
  if decide (mt = MATCH_INPUT) then ILabelSorted else OLabelSorted.
End sides.

(** ** What a matcher promises *)

(** [capable f mt]: side [mt] of [f] can be matched; [fresh m f mt]: [m] was made
for side [mt] of [f]; [ready m f mt]: it can match there; [placed m f mt s]: it is
at state [s]; [matching m f mt s l]: it has the arcs [l] still to return. *)
Class MatcherLaws {W M} `{WeightEq W} `{!Matcher W M} := {
  capable : Fst W → MatchType → Prop;
  fresh : M → Fst W → MatchType → Prop;
  ready : M → Fst W → MatchType → Prop;
  placed : M → Fst W → MatchType → Z → Prop;
  matching : M → Fst W → MatchType → Z → list (Arc W) → Prop;
  Type_fresh : ∀ m f mt test, fresh m f mt → WellFormed f → SoundFst f → (Start f = kNoStateId → NumStates f = 0) →
    ∃ t, Type_ m test = Some t ∧ (t = mt → ready m f mt ∧ capable f mt) ∧ (t = MATCH_NONE → ¬ capable f mt) ∧
      (t = mt ∨ t = MATCH_NONE ∨ t = MATCH_UNKNOWN ∧ test = false);
  fresh_fst : ∀ m f mt, fresh m f mt → GetFst m = f ∧ Flags m = 0 ∧ (∀ p, MatcherProperties m p = p) ∧
    ∀ s, MatcherFinal m s = Final f s;
  ready_keeps : ∀ m f mt, ready m f mt → GetFst m = f ∧ ∀ p, MatcherProperties m p = p;
  ready_priority : ∀ m f mt s, ready m f mt → Priority m s ≠ kRequirePriority;
  placed_ready : ∀ m f mt s, placed m f mt s → ready m f mt;
  matching_placed : ∀ m f mt s l, matching m f mt s l → placed m f mt s;
  ready_final : ∀ m f mt s, ready m f mt → MatcherFinal m s = Final f s;
  SetState_placed : ∀ m f mt s, ready m f mt → valid f s → ∃ m', SetState m s = Some m' ∧ placed m' f mt s;
  Find_matching : ∀ m f mt s label, placed m f mt s →
    ∃ m', Find m label = Some (m', bool_decide (matches f mt s label ≠ [])) ∧
      matching m' f mt s (matches f mt s label);
  Done_matching : ∀ m f mt s l, matching m f mt s l → Done m = Some (bool_decide (l = []));
  Next_matching : ∀ m f mt s a l, matching m f mt s (a :: l) →
    Value m = Some a ∧ ∃ m', Next m = Some m' ∧ matching m' f mt s l;
}.

(** ** What a client sees *)

Section client_laws.
Context {W M A : Type} `{WeightEq W} `{!Matcher W M} `{!MatcherLaws (M:=M)} (step : A → Arc W → option A).
Implicit Types (f : Fst W) (l : list (Arc W)).

Lemma each_match_ok m f mt s l fuel acc acc' :
  matching m f mt s l → (length l ≤ fuel)%nat → foldM step l acc = Some acc' →
  ∃ m', each_match step fuel m acc = Some (m', acc') ∧ placed m' f mt s.
Proof.
  revert m fuel acc. induction l as [|a l IH]; intros m fuel acc Hm Hf Hs.
  - exists m. destruct fuel; simpl; rewrite (Done_matching _ _ _ _ _ Hm); simpl in *; simplify_eq;
      (split; [done|by eapply matching_placed]).
  - destruct fuel as [|fuel]; [simpl in Hf; lia|]. simpl. rewrite (Done_matching _ _ _ _ _ Hm). cbn [mbind option_bind].
    rewrite bool_decide_eq_false_2 by done. destruct (Next_matching _ _ _ _ _ _ Hm) as (-> & m1 & Hn & Hm1).
    cbn [mbind option_bind]. simpl in Hs. apply bind_Some in Hs as (acc1 & Hacc & Hs). rewrite Hacc. cbn [mbind option_bind].
    rewrite Hn. cbn [mbind option_bind]. apply IH; [done|simpl in Hf; lia|done].
Qed.

Lemma matches_length f mt s label : (length (matches f mt s label) ≤ S (length (Arcs f s)))%nat.
Proof.
  unfold matches. rewrite length_app. pose proof (length_filter (λ a, side mt a = (if label =? kNoLabel then 0 else label)) (Arcs f s)).
  destruct (label =? 0); simpl; lia.
Qed.

Lemma find_matches_ok m f mt s label fuel acc acc' :
  placed m f mt s → (length (Arcs f s) < fuel)%nat → foldM step (matches f mt s label) acc = Some acc' →
  ∃ m', find_matches step fuel m label acc = Some (m', acc') ∧ placed m' f mt s.
Proof.
  intros Hm Hf Hs. unfold find_matches. destruct (Find_matching m f mt s label Hm) as (m1 & -> & Hm1).
  cbn [mbind option_bind]. case_bool_decide as Hne.
  - apply (each_match_ok m1 f mt s (matches f mt s label)); [done| |done]. pose proof (matches_length f mt s label). lia.
  - rewrite Hne in Hs, Hm1. simpl in Hs. simplify_eq. exists m1. split; [done|by eapply matching_placed].
Qed.
End client_laws.

Lemma foldM_collect {A} (l k : list A) : foldM (λ l a, Some (l ++ [a])) l k = Some (k ++ l).
Proof. revert k. induction l as [|a l IH]; intros k; simpl; [by rewrite app_nil_r|]. by rewrite IH, <-app_assoc. Qed.

Lemma queries_ok {W M} `{WeightEq W} `{!Matcher W M} `{!MatcherLaws (M:=M)} (m : M) (f : Fst W) mt fuel qs :
  ready m f mt → Forall (λ q, valid f q.1 ∧ (length (Arcs f q.1) < fuel)%nat) qs →
  ∃ m', queries fuel m qs = Some (m', (λ q, matches f mt q.1 q.2) <$> qs) ∧ ready m' f mt.
Proof.
  intros Hm Hqs. unfold queries.
  edestruct (foldM_total (λ '(m, results) q,
    m ← SetState m q.1; '(m, l) ← find_matches (λ l a, Some (l ++ [a])) fuel m q.2 []; Some (m, results ++ [l]))
    (λ done (acc : M * list (list (Arc W))), ready acc.1 f mt ∧ acc.2 = (λ q, matches f mt q.1 q.2) <$> done) qs (m, []))
    as ([m' r] & -> & Hm' & Hr); [done| |simpl in *; subst r; by exists m'].
  intros done q todo [m1 r] Hq [Hm1 Hr]. simpl in *.
  assert (q ∈ qs) as Hin by (rewrite Hq; apply elem_of_app; right; left). rewrite Forall_forall in Hqs.
  destruct (Hqs q Hin) as [Hv Hf]. destruct (SetState_placed m1 f mt q.1 Hm1 Hv) as (m2 & -> & Hm2). cbn [mbind option_bind].
  destruct (find_matches_ok (λ l a, Some (l ++ [a])) m2 f mt q.1 q.2 fuel [] _ Hm2 Hf (foldM_collect _ _)) as (m3 & -> & Hm3).
  cbn [mbind option_bind]. eexists. split; [done|]. simpl. split; [by eapply placed_ready|]. by rewrite fmap_app, Hr.
Qed.

(** * Matching on sorted labels *)

(** The arc iterator of the current state is its array and its position. *)

(* matcher.h:347-360 SortedMatcher *)
Record SortedMatcher (W : Type) := MkSorted {
  fst_ : Fst W;
  state_ : Z;
  aiter_ : option (list (Arc W) * Z);
  match_type_ : MatchType;
  binary_label_ : Z;
  match_label_ : Z;
  narcs_ : Z;
  loop_ : Arc W;
  current_loop_ : bool;
  exact_match_ : bool;
  matcher_error_ : bool;
}.
Arguments MkSorted {_}.
Arguments fst_ {_}.
Arguments state_ {_}.
Arguments aiter_ {_}.
Arguments match_type_ {_}.
Arguments binary_label_ {_}.
Arguments match_label_ {_}.
Arguments narcs_ {_}.
Arguments loop_ {_}.
Arguments current_loop_ {_}.
Arguments exact_match_ {_}.
Arguments matcher_error_ {_}.

Section sorted_matcher.
Context `{WeightOps W}.
Implicit Types (f : Fst W) (m : SortedMatcher W).

(** [current_loop_] and [exact_match_] are written by the first [Find] before they
are read. *)

(* matcher.h:197-220 SortedMatcher *)
Definition SortedMatcher_new f (match_type : MatchType) (binary_label : Z) : SortedMatcher W :=
  let loop := MkArc kNoLabel 0 One kNoStateId in
  let new mt loop error := MkSorted f kNoStateId None mt binary_label kNoLabel 0 loop false false error in
  match match_type with
  | MATCH_INPUT | MATCH_NONE => new match_type loop false
  | MATCH_OUTPUT => new match_type (MkArc 0 kNoLabel One kNoStateId) false
  | _ => new MATCH_NONE loop true
  end.

(** Properties of the machine, with or without a test; [verify] is the flag
fst_verify_properties and [known] what NumStatesIfKnown returns. *)

(* impl-to-fst.h:65-76 Properties *)
Definition AnyFst_Properties (verify : bool) f (known : option Z) (mask : Z) (test : bool) : option Z :=
  if test then p ← TestProperties verify f known mask; Some (p.1 &&& mask)
  else Some (FstProperties f &&& mask).

(* matcher.h:241-255 Type *)
Definition Sorted_Type (verify : bool) (known : option Z) m (test : bool) : option MatchType :=
  if decide (match_type_ m = MATCH_NONE) then Some MATCH_NONE else
  let true_prop := if decide (match_type_ m = MATCH_INPUT) then kILabelSorted else kOLabelSorted in
  let false_prop := if decide (match_type_ m = MATCH_INPUT) then kNotILabelSorted else kNotOLabelSorted in
  props ← AnyFst_Properties verify (fst_ m) known (true_prop ||| false_prop) test;
  Some (if has props true_prop then match_type_ m
        else if has props false_prop then MATCH_NONE else MATCH_UNKNOWN).

(* matcher.h:257-268 SetState *)
Definition Sorted_SetState m (s : Z) : SortedMatcher W :=
  if state_ m =? s then m else
  let error := if decide (match_type_ m = MATCH_NONE) then true else matcher_error_ m in
  let arcs := Arcs (fst_ m) s in
  MkSorted (fst_ m) s (Some (arcs, 0)) (match_type_ m) (binary_label_ m) (match_label_ m) (zlen arcs)
    (set_nextstate s (loop_ m)) (current_loop_ m) (exact_match_ m) error.

Definition with_position m (p : Z) : SortedMatcher W :=
  MkSorted (fst_ m) (state_ m) ((λ it, (it.1, p)) <$> aiter_ m) (match_type_ m) (binary_label_ m) (match_label_ m)
    (narcs_ m) (loop_ m) (current_loop_ m) (exact_match_ m) (matcher_error_ m).
Definition with_search m (label : Z) (loop exact : bool) : SortedMatcher W :=
  MkSorted (fst_ m) (state_ m) (aiter_ m) (match_type_ m) (binary_label_ m) label (narcs_ m) (loop_ m) loop exact (matcher_error_ m).

(* matcher.h:338-341 GetLabel *)
Definition label_at m (p : Z) : option Z := it ← aiter_ m; side (match_type_ m) <$> it.1.[p].

(** Each turn of the loop halves [size]. *)

(* matcher.h:374-382 BinarySearch *)
Fixpoint binary_loop (fuel : nat) m (high size : Z) : option Z :=
  if size <=? 1 then Some high else
  match fuel with
  | O => None
  | S fuel =>
      let half := size / 2 in
      let mid := high - half in
      label ← label_at m mid;
      binary_loop fuel m (if match_label_ m <=? label then mid else high) (size - half)
  end.

(* matcher.h:367-392 BinarySearch *)
Definition BinarySearch m : option (SortedMatcher W * bool) :=
  let size := narcs_ m in
  if size =? 0 then Some (m, false) else
  high ← binary_loop (Z.to_nat size) m (size - 1) size;
  label ← label_at m high;
  Some (if label =? match_label_ m then (with_position m high, true)
        else if label <? match_label_ m then (with_position m (high + 1), false)
        else (with_position m high, false)).

(** From position [p], with the rest of the arcs. *)

(* matcher.h:398-402 LinearSearch *)
Fixpoint linear_loop (mt : MatchType) (label p : Z) (rest : list (Arc W)) : Z * bool :=
  match rest with
  | [] => (p, false)
  | a :: rest =>
      if side mt a =? label then (p, true)
      else if label <? side mt a then (p, false)
      else linear_loop mt label (p + 1) rest
  end.

(* matcher.h:396-404 LinearSearch *)
Definition LinearSearch m : option (SortedMatcher W * bool) :=
  it ← aiter_ m;
  let '(p, found) := linear_loop (match_type_ m) (match_label_ m) 0 it.1 in
  Some (with_position m p, found).

(* matcher.h:408-419 Search *)
Definition Search m : option (SortedMatcher W * bool) :=
  _ ← aiter_ m;
  if binary_label_ m <=? match_label_ m then BinarySearch m else LinearSearch m.

(* matcher.h:270-284 Find *)
Definition Sorted_Find m (match_label : Z) : option (SortedMatcher W * bool) :=
  if matcher_error_ m then Some (with_search m kNoLabel false true, false) else
  let loop := match_label =? 0 in
  '(m, found) ← Search (with_search m (if match_label =? kNoLabel then 0 else match_label) loop true);
  Some (m, if found : bool then true else loop).

(* matcher.h:288-297 LowerBound *)
Definition LowerBound m (label : Z) : option (SortedMatcher W) :=
  if matcher_error_ m then Some (with_search m kNoLabel false false) else
  fst <$> Search (with_search m label false false).

(* matcher.h:301-309 Done *)
Definition Sorted_Done m : option bool :=
  if current_loop_ m then Some false else
  '(arcs, p) ← aiter_ m;
  if zlen arcs <=? p then Some true else
  if negb (exact_match_ m) then Some false else
  label ← label_at m p;
  Some (negb (label =? match_label_ m)).

(* matcher.h:311-315 Value *)
Definition Sorted_Value m : option (Arc W) :=
  if current_loop_ m then Some (loop_ m) else '(arcs, p) ← aiter_ m; arcs.[p].

(* matcher.h:317-323 Next *)
Definition Sorted_Next m : option (SortedMatcher W) :=
  if current_loop_ m then Some (with_search m (match_label_ m) false (exact_match_ m))
  else '(_, p) ← aiter_ m; Some (with_position m (p + 1)).

(* matcher.h:331-333 Properties *)
Definition Sorted_Properties m (inprops : Z) : Z := inprops ||| (if matcher_error_ m then kError else 0).

(* matcher.h:174-360 SortedMatcher *)
Definition sorted_matcher (verify : bool) (known : option Z) : Matcher W (SortedMatcher W) := {|
  GetFst := fst_;
  Type_ := Sorted_Type verify known;
  SetState := λ m s, Some (Sorted_SetState m s);
  Find := Sorted_Find;
  Done := Sorted_Done;
  Value := Sorted_Value;
  Next := Sorted_Next;
  MatcherFinal := λ m, Final (fst_ m);
  Priority := λ m s, zlen (Arcs (fst_ m) s);
  MatcherProperties := Sorted_Properties;
  Flags := λ _, 0;
|}.
End sorted_matcher.

(** * Matching by tables of positions *)

(** The tables of all states are shared; [label_table_] is the one of the current
state, which does not change any more. *)

(* matcher.h:528-543 HashMatcher *)
Record HashMatcher (W : Type) := MkHash {
  hash_fst : Fst W;
  hash_state : Z;
  hash_match_type : MatchType;
  hash_loop : Arc W;
  hash_current_loop : bool;
  hash_error : bool;
  hash_aiter : option (list (Arc W));
  state_table_ : gmap Z (gmap Z (list Z));
  label_table_ : gmap Z (list Z);
  current_label_matches_ : list Z;
}.
Arguments MkHash {_}.
Arguments hash_fst {_}.
Arguments hash_state {_}.
Arguments hash_match_type {_}.
Arguments hash_loop {_}.
Arguments hash_current_loop {_}.
Arguments hash_error {_}.
Arguments hash_aiter {_}.
Arguments state_table_ {_}.
Arguments label_table_ {_}.
Arguments current_label_matches_ {_}.

Section hash_matcher.
Context `{WeightOps W}.
Implicit Types (f : Fst W) (h : HashMatcher W).

(* matcher.h:443-463 HashMatcher *)
Definition HashMatcher_new f (match_type : MatchType) : HashMatcher W :=
  let loop := MkArc kNoLabel 0 One kNoStateId in
  let new mt loop error := MkHash f kNoStateId mt loop false error None ∅ ∅ [] in
  match match_type with
  | MATCH_INPUT | MATCH_NONE => new match_type loop false
  | MATCH_OUTPUT => new match_type (MkArc 0 kNoLabel One kNoStateId) false
  | _ => new MATCH_NONE loop true
  end.

(** The positions of each label, in order. *)

(* matcher.h:570-580 SetState *)
Definition label_table (mt : MatchType) (arcs : list (Arc W)) : gmap Z (list Z) :=
  foldl (λ table (p : Z * Arc W), <[side mt p.2 := default [] (table !! side mt p.2) ++ [p.1]]> table) ∅
    (zip (seqZ 0 (zlen arcs)) arcs).

(* matcher.h:545-582 SetState *)
Definition Hash_SetState h (s : Z) : HashMatcher W :=
  if hash_state h =? s then h else
  let error := if decide (hash_match_type h = MATCH_NONE) then true else hash_error h in
  let arcs := Arcs (hash_fst h) s in
  let table := match state_table_ h !! s with Some table => table | None => label_table (hash_match_type h) arcs end in
  MkHash (hash_fst h) s (hash_match_type h) (set_nextstate s (hash_loop h)) (hash_current_loop h) error (Some arcs)
    (<[s := table]> (state_table_ h)) table (current_label_matches_ h).

Definition with_matches h (loop : bool) (l : list Z) : HashMatcher W :=
  MkHash (hash_fst h) (hash_state h) (hash_match_type h) (hash_loop h) loop (hash_error h) (hash_aiter h)
    (state_table_ h) (label_table_ h) l.

(** Positions lists are not empty. *)

(* matcher.h:584-595 Search *)
Definition Hash_Search h (loop : bool) (match_label : Z) : option (HashMatcher W * bool) :=
  _ ← hash_aiter h;
  match label_table_ h !! match_label with
  | None => Some (with_matches h loop [], false)
  | Some l => _ ← l.[0]; Some (with_matches h loop l, true)
  end.

(* matcher.h:485-493 Find *)
Definition Hash_Find h (label : Z) : option (HashMatcher W * bool) :=
  if label =? 0 then '(h, _) ← Hash_Search h true label; Some (h, true)
  else Hash_Search h false (if label =? kNoLabel then 0 else label).

(* matcher.h:495-498 Done *)
Definition Hash_Done h : bool := negb (hash_current_loop h) && bool_decide (current_label_matches_ h = []).

(* matcher.h:500-504 Value *)
Definition Hash_Value h : option (Arc W) :=
  if hash_current_loop h then Some (hash_loop h) else
  p ← (current_label_matches_ h).[0]; arcs ← hash_aiter h; arcs.[p].

(* matcher.h:506-512 Next *)
Definition Hash_Next h : option (HashMatcher W) :=
  if hash_current_loop h then Some (with_matches h false (current_label_matches_ h))
  else match current_label_matches_ h with [] => None | _ :: l => Some (with_matches h false l) end.

(* matcher.h:421-594 HashMatcher *)
Definition hash_matcher : Matcher W (HashMatcher W) := {|
  GetFst := hash_fst;
  Type_ := λ h _, Some (hash_match_type h);
  SetState := λ h s, Some (Hash_SetState h s);
  Find := Hash_Find;
  Done := λ h, Some (Hash_Done h);
  Value := Hash_Value;
  Next := Hash_Next;
  MatcherFinal := λ h, Final (hash_fst h);
  Priority := λ h s, zlen (Arcs (hash_fst h) s);
  MatcherProperties := λ h inprops, inprops ||| (if hash_error h then kError else 0);
  Flags := λ _, 0;
|}.
End hash_matcher.

(** * The promises are kept *)

Section sorted_laws.
Context `{WeightEq W} (verify : bool) (known : option Z).
Implicit Types (f : Fst W) (m : SortedMatcher W) (l : list (Arc W)).

(** [current m p]: the matcher is at its state, and its iterator at position [p]. *)
Record current f mt s m (p : Z) : Prop := {
  current_fst : fst_ m = f;
  current_type : match_type_ m = mt;
  current_error : matcher_error_ m = false;
  current_state : state_ m = s;
  current_aiter : aiter_ m = Some (Arcs f s, p);
  current_position : 0 ≤ p;
  current_narcs : narcs_ m = zlen (Arcs f s);
  current_loop_arc : loop_ m = implicit_loop mt s;
}.

Lemma label_at_current f mt s m p i a :
  current f mt s m p → (Arcs f s).[i] = Some a → label_at m i = Some (side mt a).
Proof. intros [_ Ht _ _ Ha _ _ _] Hi. unfold label_at. rewrite Ha, Ht. simpl. by rewrite Hi. Qed.

Lemma with_position_current f mt s m p q : current f mt s m p → 0 ≤ q → current f mt s (with_position m q) q.
Proof. intros [] Hq. split; try done. simpl. by rewrite current_aiter0. Qed.

Lemma with_search_current f mt s m p label loop exact :
  current f mt s m p → current f mt s (with_search m label loop exact) p.
Proof. intros []. by split. Qed.

(** ** The two searches end at the lower bound *)

Definition lower_bound mt (label : Z) l (p : Z) : Prop :=
  0 ≤ p ≤ zlen l ∧ (∀ i a, l.[i] = Some a → i < p → side mt a < label) ∧ (∀ a, l.[p] = Some a → label ≤ side mt a).

Lemma vget_nil {A} i : (@nil A).[i] = None.
Proof. apply vget_None. change (zlen (@nil A)) with 0. lia. Qed.

Lemma StronglySorted_get {A} (R : relation A) (l : list A) i j x y :
  StronglySorted R l → i < j → l.[i] = Some x → l.[j] = Some y → R x y.
Proof.
  intros Hl Hij [Hi Hx]%vget_Some [Hj Hy]%vget_Some. revert Hx Hy. generalize (Z.to_nat i) (Z.to_nat j) (proj1 (Z2Nat.inj_lt i j Hi Hj) Hij).
  clear i j Hij Hi Hj. intros i j Hij. revert i j Hij. induction Hl as [|z l Hl IH Hz]; intros i j Hij Hx Hy; [done|].
  destruct j as [|j]; [lia|]. destruct i as [|i]; simpl in *.
  - simplify_eq. rewrite Forall_forall in Hz. apply Hz. by eapply list_elem_of_lookup_2.
  - apply (IH i j); [lia|done..].
Qed.

Lemma sorted_get mt l i j a b :
  Sorted Z.le (side mt <$> l) → i ≤ j → l.[i] = Some a → l.[j] = Some b → side mt a ≤ side mt b.
Proof.
  intros Hs%Sorted_le_strongly Hij Ha Hb. destruct (decide (i = j)) as [->|Hne]; [rewrite Ha in Hb; by simplify_eq|].
  apply (StronglySorted_get _ _ i j _ _ Hs); [lia|by rewrite vget_fmap, ?Ha, ?Hb..].
Qed.

Lemma binary_loop_ok f mt s m p fuel high size :
  current f mt s m p → Sorted Z.le (side mt <$> Arcs f s) → size ≤ Z.of_nat fuel →
  1 ≤ size → size - 1 ≤ high < zlen (Arcs f s) →
  (∀ i a, (Arcs f s).[i] = Some a → i < high - size + 1 → side mt a < match_label_ m) →
  (high = zlen (Arcs f s) - 1 ∨ ∃ a, (Arcs f s).[high] = Some a ∧ match_label_ m ≤ side mt a) →
  ∃ high', binary_loop fuel m high size = Some high' ∧ 0 ≤ high' < zlen (Arcs f s) ∧
    (∀ i a, (Arcs f s).[i] = Some a → i < high' → side mt a < match_label_ m) ∧
    (high' = zlen (Arcs f s) - 1 ∨ ∃ a, (Arcs f s).[high'] = Some a ∧ match_label_ m ≤ side mt a).
Proof.
  intros Hm Hs. revert high size. induction fuel as [|fuel IH]; intros high size Hf H1 Hr Hlow Hhigh; [lia|].
  cbn [binary_loop]. destruct (Z.leb_spec size 1) as [Hle|Hgt].
  { exists high. split_and!; [done|lia|lia| |done]. intros i a Ha Hi. apply (Hlow i a Ha). lia. }
  assert (1 ≤ size / 2 ∧ 2 * (size / 2) ≤ size) as [Hh1 Hh2].
  { split; [apply Z.div_le_lower_bound; lia|]. apply Z.mul_div_le. lia. }
  destruct (vget_in_range (Arcs f s) (high - size / 2)) as [a Ha]; [lia|].
  rewrite (label_at_current f mt s m p _ a Hm Ha). cbn [mbind option_bind].
  destruct (Z.leb_spec (match_label_ m) (side mt a)) as [Hge|Hlt]; apply IH; try lia.
  - intros i b Hb Hi. apply (Hlow i b Hb). lia.
  - right. by exists a.
  - intros i b Hb Hi. pose proof (sorted_get mt _ i (high - size / 2) b a Hs ltac:(lia) Hb Ha). lia.
  - done.
Qed.

Lemma BinarySearch_ok f mt s m p :
  current f mt s m p → Sorted Z.le (side mt <$> Arcs f s) →
  ∃ q, lower_bound mt (match_label_ m) (Arcs f s) q ∧
    (Arcs f s ≠ [] → BinarySearch m = Some (with_position m q, bool_decide (side mt <$> (Arcs f s).[q] = Some (match_label_ m)))) ∧
    (Arcs f s = [] → BinarySearch m = Some (m, false)).
Proof.
  intros Hm Hs. pose proof Hm as [_ _ _ _ _ _ Hn _]. unfold BinarySearch. rewrite Hn.
  destruct (Z.eqb_spec (zlen (Arcs f s)) 0) as [Hz|Hz].
  { exists 0. assert (Arcs f s = []) as E by (destruct (Arcs f s); [done|by rewrite zlen_cons in Hz; pose proof (zlen_nonneg l); lia]).
    rewrite E. split; [|done]. split; [done|]. by split; [intros i a|intros a]; rewrite vget_nil. }
  pose proof (zlen_nonneg (Arcs f s)).
  destruct (binary_loop_ok f mt s m p (Z.to_nat (zlen (Arcs f s))) (zlen (Arcs f s) - 1) (zlen (Arcs f s)) Hm Hs) as (h & -> & Hh & Hlow & Hhigh);
    [lia..| |by left|].
  { intros i a Hi%vget_range. lia. }
  destruct (vget_in_range (Arcs f s) h Hh) as [a Ha]. cbn [mbind option_bind].
  rewrite (label_at_current f mt s m p h a Hm Ha). cbn [mbind option_bind].
  assert (Arcs f s ≠ []) as Hne by (intros E; rewrite E in Hz; done).
  destruct (Z.eqb_spec (side mt a) (match_label_ m)) as [E|E].
  { exists h. split; [split; [lia|split; [done|]]|]. { intros b Hb. rewrite Ha in Hb. simplify_eq. lia. }
    split; [|done]. intros _. rewrite Ha. simpl. by rewrite bool_decide_eq_true_2 by congruence. }
  destruct (Z.ltb_spec (side mt a) (match_label_ m)) as [Hlt|Hge].
  - assert (h = zlen (Arcs f s) - 1) as ->. { destruct Hhigh as [->|(b & Hb & ?)]; [done|]. rewrite Ha in Hb. simplify_eq. lia. }
    exists (zlen (Arcs f s)). rewrite Z.sub_add. rewrite (proj2 (vget_None _ _)) by lia. split; [|done].
    split; [lia|]. split; [|by intros b Hb%vget_range; lia]. intros i b Hb Hi.
    pose proof (sorted_get mt _ i (zlen (Arcs f s) - 1) b a Hs ltac:(lia) Hb Ha). lia.
  - exists h. split; [split; [lia|split; [done|]]|]. { intros b Hb. rewrite Ha in Hb. simplify_eq. lia. }
    split; [|done]. intros _. rewrite Ha. simpl. rewrite bool_decide_eq_false_2; [done|]. intros [=]; lia.
Qed.
Lemma linear_loop_ok mt label l p :
  Sorted Z.le (side mt <$> l) →
  let r := linear_loop mt label p l in
  ∃ n, r.1 = p + n ∧ lower_bound mt label l n ∧ r.2 = bool_decide (side mt <$> l.[n] = Some label).
Proof.
  revert p. induction l as [|a l IH]; intros p Hs; simpl.
  { exists 0. split; [lia|]. split; [|done]. split; [done|]. by split; [intros i a|intros a]; rewrite vget_nil. }
  assert (∀ x, (a :: l).[0] = Some x → x = a) as Hhd by (intros x; by intros [= ->]).
  assert (∀ i x, (a :: l).[i] = Some x → i = 0 ∨ l.[i - 1] = Some x) as Hi.
  { intros i x Hi. destruct (decide (i = 0)) as [|Hne]; [by left|right]. apply vget_Some in Hi as [Hp Hi]. apply vget_Some.
    split; [lia|]. replace (Z.to_nat i) with (S (Z.to_nat (i - 1))) in Hi by lia. done. }
  assert (0 < zlen (a :: l)) as Hl by (rewrite zlen_cons; pose proof (zlen_nonneg l); lia).
  destruct (Z.eqb_spec (side mt a) label) as [E|E].
  { exists 0. split; [simpl; lia|]. split; [|by rewrite bool_decide_eq_true_2 by (simpl; congruence)].
    split; [lia|]. split; [|intros x ->%Hhd; lia]. intros i x Hx%vget_range ?. lia. }
  destruct (Z.ltb_spec label (side mt a)) as [Hlt|Hge].
  { exists 0. split; [simpl; lia|]. split; [|rewrite bool_decide_eq_false_2; [done|intros [=]; lia]].
    split; [lia|]. split; [|intros x ->%Hhd; lia]. intros i x Hx%vget_range ?. lia. }
  destruct (IH (p + 1)) as (n & Hn & (Hr & Hlow & Hup) & Hb); [by apply Sorted_inv in Hs as [? _]|].
  exists (n + 1). rewrite Hn. split; [lia|].
  assert ((a :: l).[n + 1] = l.[n]) as En.
  { unfold vget. rewrite !decide_True by lia. by replace (Z.to_nat (n + 1)) with (S (Z.to_nat n)) by lia. }
  rewrite En. split; [|done]. split; [rewrite zlen_cons; lia|]. split; [|by rewrite En].
  intros i x Hx Hin. destruct (Hi i x Hx) as [->|Hx']; [|by apply (Hlow _ _ Hx'); lia]. apply Hhd in Hx as ->. lia.
Qed.

Lemma Search_ok f mt s m p :
  current f mt s m p → Sorted Z.le (side mt <$> Arcs f s) →
  ∃ m' q, Search m = Some (m', bool_decide (side mt <$> (Arcs f s).[q] = Some (match_label_ m))) ∧
    current f mt s m' q ∧ match_label_ m' = match_label_ m ∧ current_loop_ m' = current_loop_ m ∧ exact_match_ m' = exact_match_ m ∧
    (∀ i a, (Arcs f s).[i] = Some a → i < q → side mt a < match_label_ m) ∧ (∀ a, (Arcs f s).[q] = Some a → match_label_ m ≤ side mt a).
Proof.
  intros Hm Hs. unfold Search. pose proof Hm as [_ Ht _ _ Ha Hp _ _]. rewrite Ha. cbn [mbind option_bind].
  destruct (binary_label_ m <=? match_label_ m).
  - destruct (BinarySearch_ok f mt s m p Hm Hs) as (q & (Hq & Hlow & Hup) & Hne & Hnil).
    destruct (decide (Arcs f s = [])) as [E|E].
    + exists m, p. rewrite (Hnil E), E, vget_nil. split_and!; try done. intros i a. by rewrite vget_nil.
    + exists (with_position m q), q. rewrite (Hne E). split_and!; try done. eapply with_position_current; [done|lia].
  - unfold LinearSearch. rewrite Ha, Ht. cbn [mbind option_bind].
    destruct (linear_loop_ok mt (match_label_ m) (Arcs f s) 0 Hs) as (q & Hq & (Hr & Hlow & Hup) & Hb).
    simpl. destruct (linear_loop mt (match_label_ m) 0 (Arcs f s)) as [x b]. simpl in *. subst x b.
    exists (with_position m q), q. split_and!; try done. eapply with_position_current; [done|lia].
Qed.

(** ** The laws *)

Record sorted_ready m f mt : Prop := {
  ready_fst : fst_ m = f;
  ready_type : match_type_ m = mt;
  ready_side : mt = MATCH_INPUT ∨ mt = MATCH_OUTPUT;
  ready_sorted : ∀ s, valid f s → Sorted Z.le (side mt <$> Arcs f s);
  ready_place : (state_ m = kNoStateId ∧ matcher_error_ m = false ∧ loop_ m = implicit_loop mt kNoStateId) ∨
    ∃ s p, valid f s ∧ current f mt s m p;
}.

Definition sorted_placed m f mt s : Prop := sorted_ready m f mt ∧ valid f s ∧ ∃ p, current f mt s m p.

(** The arcs still to come are a part of the array that begins at the position. *)
Definition sorted_matching m f mt s l : Prop :=
  sorted_ready m f mt ∧ valid f s ∧ exact_match_ m = true ∧ ∃ p l' r, current f mt s m p ∧ drop (Z.to_nat p) (Arcs f s) = l' ++ r ∧
    Forall (λ a, side mt a = match_label_ m) l' ∧ (∀ a, head r = Some a → side mt a ≠ match_label_ m) ∧
    l = (if current_loop_ m then [implicit_loop mt s] else []) ++ l'.

Lemma ready_error m f mt : sorted_ready m f mt → matcher_error_ m = false.
Proof. by intros [_ _ _ _ [(_ & ? & _)|(s & p & _ & [])]]. Qed.

Lemma filter_none {A} (P : A → Prop) `{∀ x, Decision (P x)} (k : list A) : (∀ x, x ∈ k → ¬ P x) → filter P k = [].
Proof.
  induction k as [|x k IH]; intros Hk; [done|]. rewrite filter_cons_False by (apply Hk; left).
  apply IH. intros y Hy. apply Hk. by right.
Qed.

Lemma split_equal mt label l :
  Sorted Z.le (side mt <$> l) → (∀ a, head l = Some a → label ≤ side mt a) →
  ∃ r, l = filter (λ a, side mt a = label) l ++ r ∧ ∀ a, head r = Some a → side mt a ≠ label.
Proof.
  intros Hs Hh. induction l as [|a l IH]; [by exists []|]. specialize (Hh a eq_refl).
  apply Sorted_inv in Hs as [Hs Hhd]. rewrite filter_cons. destruct (decide (side mt a = label)) as [E|E].
  - destruct IH as (r & Hr & Hn); [done| |]. { intros b Hb. destruct l as [|b' l]; [done|]. simplify_eq/=. by inversion Hhd. }
    exists r. split; [by rewrite <-app_comm_cons, <-Hr|done].
  - exists (a :: l). split; [|by intros b [= <-]]. rewrite filter_none; [done|].
    fold (fmap (side mt) l) in *. apply (Sorted_cons Hs) in Hhd as Hsl.
    apply Sorted_le_strongly, StronglySorted_inv in Hsl as [_ Hall]. intros b Hb Hlb.
    rewrite Forall_forall in Hall. specialize (Hall (side mt b) (list_elem_of_fmap_2 _ _ _ Hb)). lia.
Qed.

Lemma head_drop l q : 0 ≤ q → l.[q] = head (drop (Z.to_nat q) l).
Proof.
  intros Hq. unfold vget. rewrite decide_True by done. pose proof (lookup_drop l (Z.to_nat q) 0) as E.
  rewrite Nat.add_0_r in E. rewrite <-E. by destruct (drop _ _).
Qed.

Lemma ready_move m m' f mt s p :
  sorted_ready m f mt → valid f s → current f mt s m' p → sorted_ready m' f mt.
Proof. intros [_ _ Hside Hsort _] Hs Hm. pose proof Hm as [Hf Ht _ _ _ _ _ _]. split; try done. right. by exists s, p. Qed.

Lemma SetState_sorted m f mt s : sorted_ready m f mt → valid f s → sorted_placed (Sorted_SetState m s) f mt s.
Proof.
  intros Hr Hs. assert (∃ p, current f mt s (Sorted_SetState m s) p) as [p Hp].
  { pose proof Hr as [Hf Ht Hside Hsort Hplace]. unfold Sorted_SetState.
    assert (mt ≠ MATCH_NONE) as Hmt by (by destruct Hside as [->| ->]).
    destruct (Z.eqb_spec (state_ m) s) as [E|E].
    - destruct Hplace as [(E' & _ & _)|(t & p & _ & Hm)]; [unfold valid, kNoStateId in *; lia|].
      exists p. pose proof Hm as [_ _ _ Est _ _ _ _]. rewrite Est in E. by subst t.
    - exists 0. rewrite Ht, Hf, decide_False by done.
      destruct Hplace as [(E' & He & Hl)|(t & p & _ & Hm)].
      + split; simpl; try done. rewrite Hl. unfold implicit_loop. by case_decide.
      + destruct Hm as [_ _ He _ _ _ _ Hl]. split; simpl; try done. rewrite Hl. unfold implicit_loop. by case_decide. }
  split; [by eapply ready_move|]. split; [done|]. by exists p.
Qed.

Lemma Find_sorted m f mt s label :
  sorted_placed m f mt s →
  ∃ m', Sorted_Find m label = Some (m', bool_decide (matches f mt s label ≠ [])) ∧
    sorted_matching m' f mt s (matches f mt s label).
Proof.
  intros (Hr & Hs & p & Hm). unfold Sorted_Find. rewrite (current_error _ _ _ _ _ Hm).
  set (key := if label =? kNoLabel then 0 else label).
  pose proof (with_search_current f mt s m p key (label =? 0) true Hm) as Hm1.
  destruct (Search_ok f mt s _ p Hm1 (ready_sorted _ _ _ Hr s Hs)) as (m' & q & -> & Hm' & Hk & Hl & He & Hlow & Hup).
  cbn [mbind option_bind]. simpl in Hk, Hl, He, Hlow, Hup.
  pose proof (current_position _ _ _ _ _ Hm') as Hq.
  set (arcs := Arcs f s) in *.
  destruct (split_equal mt key (drop (Z.to_nat q) arcs)) as (r & Hd & Hnr).
  { rewrite fmap_drop. pose proof (ready_sorted _ _ _ Hr s Hs) as Hsort. fold arcs in Hsort.
    rewrite <-(take_drop (Z.to_nat q) (side mt <$> arcs)) in Hsort. by eapply Sorted_app_r. }
  { intros a Ha. apply Hup. by rewrite head_drop. }
  assert (filter (λ a, side mt a = key) arcs = filter (λ a, side mt a = key) (drop (Z.to_nat q) arcs)) as Efil.
  { rewrite <-(take_drop (Z.to_nat q) arcs) at 1. rewrite filter_app, (filter_none _ (take _ _)); [done|].
    intros a Ha Hka. apply list_elem_of_lookup in Ha as [i Hi]. apply lookup_take_Some in Hi as [Hi Hiq].
    specialize (Hlow (Z.of_nat i) a). rewrite vget_nat in Hlow. specialize (Hlow Hi ltac:(lia)). lia. }
  exists m'. split.
  - f_equal. f_equal. rewrite head_drop, Hd by done. unfold matches. fold arcs. fold key. rewrite Efil.
    destruct (label =? 0); simpl; [by case_bool_decide|].
    destruct (filter _ _) as [|a l'] eqn:El; simpl.
    + rewrite bool_decide_eq_false_2; [done|]. intros (a & Ha & Hka)%fmap_Some. by apply (Hnr a).
    + rewrite bool_decide_eq_true_2; [done|].
      assert (a ∈ filter (λ a, side mt a = key) (drop (Z.to_nat q) arcs)) as [-> _]%list_elem_of_filter by (rewrite El; left). done.
  - split; [by eapply ready_move|]. split; [done|]. split; [done|].
    exists q, (filter (λ a, side mt a = key) (drop (Z.to_nat q) arcs)), r. split_and!; [done|done| |by rewrite Hk|].
    + rewrite Hk. apply Forall_forall. by intros a [? _]%list_elem_of_filter.
    + unfold matches. fold arcs. fold key. rewrite Hl, Efil. done.
Qed.

Lemma Done_sorted m f mt s l : sorted_matching m f mt s l → Sorted_Done m = Some (bool_decide (l = [])).
Proof.
  intros (Hr & Hs & He & p & l' & r & Hm & Hd & Hl' & Hnr & ->). unfold Sorted_Done.
  destruct (current_loop_ m); [by rewrite bool_decide_eq_false_2|]. simpl.
  pose proof Hm as [_ _ _ _ Ha Hp _ _]. rewrite Ha. cbn [mbind option_bind].
  assert ((Arcs f s).[p] = head (l' ++ r)) as Eh by by rewrite head_drop, Hd.
  destruct (Z.leb_spec (zlen (Arcs f s)) p) as [Hle|Hlt].
  - rewrite (proj2 (vget_None _ _)) in Eh by lia. rewrite bool_decide_eq_true_2; [done|]. by destruct l'.
  - rewrite He. cbn [negb]. destruct (vget_in_range (Arcs f s) p) as [a Hpa]; [lia|].
    rewrite (label_at_current f mt s m p p a Hm Hpa). cbn [mbind option_bind]. f_equal. rewrite Hpa in Eh.
    destruct l' as [|b l']; simpl in Eh.
    + rewrite bool_decide_eq_true_2 by done. apply negb_true_iff, Z.eqb_neq. by apply Hnr.
    + injection Eh as ->. apply Forall_cons in Hl' as [-> _]. by rewrite Z.eqb_refl, bool_decide_eq_false_2.
Qed.

Lemma Next_sorted m f mt s a l : sorted_matching m f mt s (a :: l) →
  Sorted_Value m = Some a ∧ ∃ m', Sorted_Next m = Some m' ∧ sorted_matching m' f mt s l.
Proof.
  intros (Hr & Hs & He & p & l' & r & Hm & Hd & Hl' & Hnr & Hl). unfold Sorted_Value, Sorted_Next.
  pose proof Hm as [_ _ _ _ Ha Hp _ Hloop].
  destruct (current_loop_ m) eqn:Ec; simpl in Hl.
  - injection Hl as -> ->. rewrite Hloop. split; [done|]. eexists. split; [done|].
    pose proof (with_search_current f mt s m p (match_label_ m) false (exact_match_ m) Hm) as Hm'.
    split; [by eapply ready_move|]. split; [done|]. split; [done|]. by exists p, l', r.
  - subst l'. rewrite Ha. cbn [mbind option_bind]. rewrite head_drop, Hd by done. split; [done|].
    eexists. split; [done|]. apply Forall_cons in Hl' as [_ Hl'].
    pose proof (with_position_current f mt s m p (p + 1) Hm ltac:(lia)) as Hm'.
    split; [by eapply ready_move|]. split; [done|]. split; [done|]. exists (p + 1), l, r. split_and!; [done| |done|done|by simpl; rewrite Ec].
    replace (Z.to_nat (p + 1)) with (Z.to_nat p + 1)%nat by lia. by rewrite <-drop_drop, Hd.
Qed.

Definition sorted_fresh m f mt : Prop :=
  (mt = MATCH_INPUT ∨ mt = MATCH_OUTPUT) ∧ known_states f known ∧ ∃ binary_label, m = SortedMatcher_new f mt binary_label.

Lemma new_ready f mt bl :
  (mt = MATCH_INPUT ∨ mt = MATCH_OUTPUT) → Holds f (sorted_property mt) → sorted_ready (SortedMatcher_new f mt bl) f mt.
Proof.
  intros Hmt Hh. split; [by destruct Hmt as [->| ->]..|done| |left; by destruct Hmt as [->| ->]].
  intros s Hs. by destruct Hmt as [->| ->]; apply Hh.
Qed.

Lemma Type_sorted m f mt test :
  sorted_fresh m f mt → WellFormed f → SoundFst f → (Start f = kNoStateId → NumStates f = 0) →
  ∃ t, Sorted_Type verify known m test = Some t ∧ (t = mt → sorted_ready m f mt ∧ Holds f (sorted_property mt)) ∧
    (t = MATCH_NONE → ¬ Holds f (sorted_property mt)) ∧ (t = mt ∨ t = MATCH_NONE ∨ t = MATCH_UNKNOWN ∧ test = false).
Proof.
  intros (Hmt & Hk & bl & ->) Hwf Hs Hst. unfold Sorted_Type.
  assert (fst_ (SortedMatcher_new f mt bl) = f ∧ match_type_ (SortedMatcher_new f mt bl) = mt) as [-> ->] by by destruct Hmt as [->| ->].
  rewrite decide_False by by destruct Hmt as [->| ->].
  set (t := sorted_property mt).
  assert ((if decide (mt = MATCH_INPUT) then kILabelSorted else kOLabelSorted) = 2 ^ pos_bit t ∧
    (if decide (mt = MATCH_INPUT) then kNotILabelSorted else kNotOLabelSorted) = 2 ^ neg_bit t ∧ 0 ≤ pos_bit t ∧ 0 ≤ neg_bit t ∧
    pos_bit t ≠ neg_bit t) as (Ep & En & Hp0 & Hn0 & Hne) by by destruct Hmt as [->| ->].
  rewrite Ep, En. set (mask := _ ||| _).
  assert (∃ p, AnyFst_Properties verify f known mask test = Some (p &&& mask) ∧ Sound p f ∧
    (test = true → Z.testbit p (pos_bit t) = true ∨ Z.testbit p (neg_bit t) = true)) as (p & -> & Hsp & Ht).
  { unfold AnyFst_Properties. destruct test; [|by eexists]. 
    destruct (test_ok verify f known mask Hwf Hst Hk Hs) as (p & -> & Hp & Hans & _). cbn [mbind option_bind]. exists p.
    split; [done|]. split; [done|]. intros _. destruct (Hans t) as [H1 H2].
    { left. unfold mask. rewrite Z.lor_spec, Z.pow2_bits_true by done. done. }
    destruct (Z.testbit p (pos_bit t)) eqn:E1; [by left|right]. apply H2. intros Hh. by apply H1 in Hh. }
  cbn [mbind option_bind].
  rewrite !(has_bit _ _ (pos_bit t)), !(has_bit _ _ (neg_bit t)) by done. rewrite !Z.land_spec.
  assert (Z.testbit mask (pos_bit t) = true ∧ Z.testbit mask (neg_bit t) = true) as [-> ->].
  { unfold mask. rewrite !Z.lor_spec, !Z.pow2_bits_true by done. by rewrite orb_true_r. }
  rewrite !andb_true_r. eexists. split; [done|].
  destruct (Z.testbit p (pos_bit t)) eqn:E1.
  - assert (Holds f t) by by apply (Hsp t). split_and!; [|by destruct Hmt as [->| ->]|by left]. intros _. split; [by apply new_ready|done].
  - destruct (Z.testbit p (neg_bit t)) eqn:E2.
    + split_and!; [by destruct Hmt as [->| ->]| |by right; left]. intros _. by apply (Hsp t).
    + split_and!; [by destruct Hmt as [->| ->]|done|]. right; right. split; [done|]. destruct test; [|done]. by destruct Ht.
Qed.

#[local] Existing Instance sorted_matcher | 0.
#[export] Instance sorted_matcher_laws : MatcherLaws (M:=SortedMatcher W) (Matcher0:=sorted_matcher verify known).
Proof.
  refine {| capable := λ f mt, Holds f (sorted_property mt); fresh := sorted_fresh; ready := sorted_ready; placed := sorted_placed; matching := sorted_matching |}.
  - intros m f mt test. apply Type_sorted.
  - intros m f mt (Hmt & _ & bl & ->). destruct Hmt as [->| ->]; split_and!; try done; intros p; apply Z.lor_0_r.
  - intros m f mt Hr. split; [apply Hr|]. intros p. simpl. unfold Sorted_Properties. rewrite (ready_error m f mt Hr). apply Z.lor_0_r.
  - intros m f mt s _. simpl. pose proof (zlen_nonneg (Arcs (fst_ m) s)). unfold kRequirePriority. lia.
  - by intros m f mt s [? _].
  - intros m f mt s l (? & ? & _ & p & ? & ? & ? & _). split; [done|]. split; [done|]. by exists p.
  - intros m f mt s [<- _ _ _ _]. done.
  - intros m f mt s Hr Hs. eexists. split; [done|]. by apply SetState_sorted.
  - intros m f mt s label. apply Find_sorted.
  - intros m f mt s l. apply Done_sorted.
  - intros m f mt s a l. apply Next_sorted.
Defined.
End sorted_laws.

Section hash_laws.
Context `{WeightEq W}.
Implicit Types (f : Fst W) (h : HashMatcher W) (l : list (Arc W)).

(** ** The table of positions *)

Definition indexed_arcs l : list (Z * Arc W) := zip (seqZ 0 (zlen l)) l.
Definition positions mt (x : Z) l : list Z := (λ p, p.1) <$> filter (λ p : Z * Arc W, side mt p.2 = x) (indexed_arcs l).

Lemma label_table_lookup mt l x :
  label_table mt l !! x = match positions mt x l with [] => None | ps => Some ps end.
Proof.
  unfold label_table, positions, indexed_arcs. generalize (zip (seqZ 0 (zlen l)) l). intros zs.
  induction zs as [|[i a] zs IH] using rev_ind; [done|]. rewrite foldl_app, filter_app, fmap_app. simpl.
  set (table := foldl _ _ zs) in *. rewrite filter_cons, filter_nil. simpl.
  destruct (decide (side mt a = x)) as [<-|Hne].
  - rewrite lookup_insert, decide_True by done. rewrite IH. simpl. by destruct ((λ p, p.1) <$> _).
  - rewrite lookup_insert_ne by done. simpl. by rewrite app_nil_r.
Qed.

Lemma indexed_get l p : p ∈ indexed_arcs l → l.[p.1] = Some p.2.
Proof.
  intros (i & x & a & -> & Hx & Ha)%elem_of_lookup_zip_with. apply lookup_seqZ in Hx as [-> _]. simpl.
  by rewrite Z.add_0_l, vget_nat.
Qed.

Lemma indexed_snd l : (λ p, p.2) <$> indexed_arcs l = l.
Proof. apply snd_zip. rewrite length_seqZ. unfold zlen. lia. Qed.

(** The positions of a label hold the arcs with that label. *)
Lemma positions_arcs mt x l : Forall2 (λ p a, l.[p] = Some a) (positions mt x l) (filter (λ a, side mt a = x) l).
Proof.
  assert (∀ zs, (∀ p, p ∈ zs → l.[p.1] = Some p.2) →
    Forall2 (λ p a, l.[p] = Some a) ((λ p, p.1) <$> filter (λ p : Z * Arc W, side mt p.2 = x) zs)
      (filter (λ a, side mt a = x) ((λ p, p.2) <$> zs))) as Hz.
  { intros zs. induction zs as [|z zs IH]; intros Hzs; [constructor|]. rewrite fmap_cons, !filter_cons.
    assert (Forall2 (λ p a, l.[p] = Some a) ((λ p, p.1) <$> filter (λ p : Z * Arc W, side mt p.2 = x) zs)
      (filter (λ a, side mt a = x) ((λ p, p.2) <$> zs))) by (apply IH; intros p Hp; apply Hzs; by right).
    destruct (decide (side mt z.2 = x)); [|done]. rewrite fmap_cons. constructor; [|done]. apply Hzs. left. }
  specialize (Hz (indexed_arcs l) (indexed_get l)). by rewrite indexed_snd in Hz.
Qed.

(** ** The laws *)

Record hash_ready h f mt : Prop := {
  hready_fst : hash_fst h = f;
  hready_type : hash_match_type h = mt;
  hready_side : mt = MATCH_INPUT ∨ mt = MATCH_OUTPUT;
  hready_error : hash_error h = false;
  hready_loop : hash_loop h = implicit_loop mt (hash_state h);
  hready_tables : ∀ s table, state_table_ h !! s = Some table → table = label_table mt (Arcs f s);
  hready_place : hash_state h = kNoStateId ∨
    hash_aiter h = Some (Arcs f (hash_state h)) ∧ label_table_ h = label_table mt (Arcs f (hash_state h));
}.

Definition hash_placed h f mt s : Prop := hash_ready h f mt ∧ hash_state h = s ∧ valid f s.

Definition hash_matching h f mt s l : Prop :=
  hash_placed h f mt s ∧ ∃ l', Forall2 (λ p a, (Arcs f s).[p] = Some a) (current_label_matches_ h) l' ∧
    l = (if hash_current_loop h then [implicit_loop mt s] else []) ++ l'.

Lemma placed_aiter h f mt s : hash_placed h f mt s →
  hash_aiter h = Some (Arcs f s) ∧ label_table_ h = label_table mt (Arcs f s).
Proof. intros (Hr & <- & Hs). destruct (hready_place _ _ _ Hr) as [E|[-> ->]]; [|done]. unfold valid, kNoStateId in *. lia. Qed.

Lemma with_matches_placed h f mt s loop ps : hash_placed h f mt s → hash_placed (with_matches h loop ps) f mt s.
Proof. intros ([] & Hs & Hv). split; [by split|done]. Qed.

Lemma SetState_hash h f mt s : hash_ready h f mt → valid f s → hash_placed (Hash_SetState h s) f mt s.
Proof.
  intros Hr Hs. pose proof Hr as [Hf Ht Hside He Hl Htab Hp]. unfold Hash_SetState.
  destruct (Z.eqb_spec (hash_state h) s) as [E|E]; [done|]. split; [|done].
  assert (match state_table_ h !! s with Some table => table | None => label_table (hash_match_type h) (Arcs (hash_fst h) s) end =
    label_table mt (Arcs f s)) as Etab.
  { destruct (state_table_ h !! s) as [table|] eqn:Et; [by apply Htab|by rewrite Hf, Ht]. }
  rewrite Etab. split; simpl; try done.
  - rewrite Ht, decide_False; [done|]. by destruct Hside as [->| ->].
  - rewrite Hl. unfold implicit_loop. by case_decide.
  - intros t table. rewrite lookup_insert. case_decide; [intros [= <-]; by subst|]. apply Htab.
  - right. by rewrite Hf.
Qed.

Lemma Search_hash h f mt s loop label : hash_placed h f mt s →
  ∃ ps, Hash_Search h loop label = Some (with_matches h loop ps, bool_decide (filter (λ a, side mt a = label) (Arcs f s) ≠ [])) ∧
    Forall2 (λ p a, (Arcs f s).[p] = Some a) ps (filter (λ a, side mt a = label) (Arcs f s)).
Proof.
  intros Hh. destruct (placed_aiter _ _ _ _ Hh) as [Ha Ht]. unfold Hash_Search. rewrite Ha, Ht, label_table_lookup.
  cbn [mbind option_bind]. pose proof (positions_arcs mt label (Arcs f s)) as Hp.
  exists (positions mt label (Arcs f s)). split; [|done].
  destruct Hp as [|p a ps l' Hpa Hp]; [done|]. done.
Qed.

Lemma Find_hash h f mt s label : hash_placed h f mt s →
  ∃ h', Hash_Find h label = Some (h', bool_decide (matches f mt s label ≠ [])) ∧ hash_matching h' f mt s (matches f mt s label).
Proof.
  intros Hh. unfold Hash_Find, matches. destruct (Z.eqb_spec label 0) as [->|Hne].
  - destruct (Search_hash h f mt s true 0 Hh) as (ps & -> & Hps). cbn [mbind option_bind]. eexists. split; [done|].
    split; [by apply with_matches_placed|]. eexists. by split.
  - destruct (Search_hash h f mt s false (if label =? kNoLabel then 0 else label) Hh) as (ps & -> & Hps).
    eexists. split; [done|]. split; [by apply with_matches_placed|]. eexists. by split.
Qed.

#[local] Existing Instance hash_matcher | 0.
#[export] Instance hash_matcher_laws : MatcherLaws (M:=HashMatcher W) (Matcher0:=hash_matcher).
Proof.
  refine {| capable := λ _ _, True; fresh := λ h f mt, (mt = MATCH_INPUT ∨ mt = MATCH_OUTPUT) ∧ h = HashMatcher_new f mt;
    ready := hash_ready; placed := hash_placed; matching := hash_matching |}.
  - intros h f mt test [Hmt ->] _ _ _. exists mt. split; [by destruct Hmt as [->| ->]|]. split_and!; [|by destruct Hmt as [->| ->]|by left]. intros _. split; [|done].
    by destruct Hmt as [->| ->]; split; simpl; try done; auto.
  - intros h f mt [Hmt ->]. destruct Hmt as [->| ->]; split_and!; try done; intros p; apply Z.lor_0_r.
  - intros h f mt Hr. split; [apply Hr|]. intros p. simpl. rewrite (hready_error _ _ _ Hr). apply Z.lor_0_r.
  - intros h f mt s _. simpl. pose proof (zlen_nonneg (Arcs (hash_fst h) s)). unfold kRequirePriority. lia.
  - by intros h f mt s [? _].
  - by intros h f mt s l [? _].
  - by intros h f mt s [<- _ _ _ _ _ _].
  - intros h f mt s Hr Hs. eexists. split; [done|]. by apply SetState_hash.
  - intros h f mt s label. apply Find_hash.
  - intros h f mt s l (Hp & l' & Hl & ->). simpl. unfold Hash_Done. f_equal.
    destruct (hash_current_loop h); [done|]. simpl. apply bool_decide_ext. by destruct Hl.
  - intros h f mt s a l (Hp & l' & Hl & Hal). simpl. unfold Hash_Value, Hash_Next.
    destruct (hash_current_loop h) eqn:Ec; simpl in Hal.
    + injection Hal as -> ->. pose proof Hp as (Hr & <- & _). split; [by rewrite (hready_loop _ _ _ Hr)|].
      eexists. split; [done|]. split; [by apply with_matches_placed|]. by exists l'.
    + subst l'. destruct (placed_aiter _ _ _ _ Hp) as [-> _]. inversion Hl as [|p ? ps ? Hpa Hps]; subst.
      split; [done|]. eexists. split; [done|]. split; [by apply with_matches_placed|]. by exists l.
Defined.
End hash_laws.

(** * The property *)

Section theorems.
Context `{WeightEq W} (verify : bool) (known : option Z).
Implicit Types (f : Fst W).
#[local] Existing Instances sorted_matcher hash_matcher.

(** C38: Matchers.  A new [SortedMatcher] tells whether it can match: with a test
it says so exactly if the arcs of every state are sorted by the labels of its side,
and then, for any sequence of states and labels, it returns the arcs that match,
in order and each once, the implicit self-loop first where the label is epsilon,
without an access out of range.  A [HashMatcher] returns the same on any machine. *)
Theorem matchers_correct f mt binary_label fuel qs :
  mt = MATCH_INPUT ∨ mt = MATCH_OUTPUT → WellFormed f → SoundFst f → (Start f = kNoStateId → NumStates f = 0) →
  known_states f known → Forall (λ q, valid f q.1 ∧ (length (Arcs f q.1) < fuel)%nat) qs →
  (∃ t, Sorted_Type verify known (SortedMatcher_new f mt binary_label) true = Some t ∧
    (t = mt ∧ Holds f (sorted_property mt) ∨ t = MATCH_NONE ∧ ¬ Holds f (sorted_property mt)) ∧
    (t = mt → ∃ m, queries (Matcher0:=sorted_matcher verify known) fuel (SortedMatcher_new f mt binary_label) qs =
      Some (m, (λ q, matches f mt q.1 q.2) <$> qs))) ∧
  ∃ h, queries (M:=HashMatcher W) fuel (HashMatcher_new f mt) qs = Some (h, (λ q, matches f mt q.1 q.2) <$> qs).
Proof.
  intros Hmt Hwf Hs Hst Hk Hqs. split.
  - destruct (Type_sorted verify known (SortedMatcher_new f mt binary_label) f mt true) as (t & Ht & Hr & Hno & Hor); [|done..|].
    { split; [done|]. split; [done|]. by exists binary_label. }
    exists t. split; [done|]. split; [destruct Hor as [E|[E|[_ ?]]]; [left|right|done]; naive_solver|]. intros E. destruct (Hr E) as [Hr' _].
    destruct (queries_ok (Matcher0:=sorted_matcher verify known) (MatcherLaws0:=sorted_matcher_laws verify known) (SortedMatcher_new f mt binary_label) f mt fuel qs Hr' Hqs) as (m & Hm & _).
    by exists m.
  - destruct (queries_ok (M:=HashMatcher W) (MatcherLaws0:=hash_matcher_laws) (HashMatcher_new f mt) f mt fuel qs) as (h & Hh & _); [|done|by exists h].
    by destruct Hmt as [->| ->]; split; simpl; try done; auto.
Qed.
End theorems.

(** ** An instance *)

Section witnesses.
Local Notation M := MinMaxWeight.

(** Arcs sorted by input labels, epsilons included, but not by output labels. *)
Definition matched_fst : Fst M := {|
  Start := 0; NumStates := 1; Final := λ _, One;
  Arcs := λ s, if s =? 0 then [MkArc 0 5 One 0; MkArc 2 4 One 0; MkArc 2 3 One 0; MkArc 7 4 One 0] else [];
  FstProperties := kExpanded; InputSymbols := None; OutputSymbols := None |}.

Lemma matched_wf : WellFormed matched_fst.
Proof. by apply well_formedb_spec. Qed.

Lemma matched_sound : SoundFst matched_fst.
Proof. intros t. by destruct t. Qed.

Definition matched_queries : list (Z * Z) := [(0, 2); (0, 0); (0, 3); (0, kNoLabel); (0, 7)].

Lemma matched_bounds : Forall (λ q, valid matched_fst q.1 ∧ (length (Arcs matched_fst q.1) < 5)%nat) matched_queries.
Proof. repeat constructor; try by vm_compute. Qed.

Lemma matchers_correct_witness :
  (∃ t, Sorted_Type false (Some 1) (SortedMatcher_new matched_fst MATCH_INPUT 1) true = Some t ∧
    (t = MATCH_INPUT ∧ Holds matched_fst ILabelSorted ∨ t = MATCH_NONE ∧ ¬ Holds matched_fst ILabelSorted) ∧
    (t = MATCH_INPUT → ∃ m, queries (Matcher0:=sorted_matcher false (Some 1)) 5 (SortedMatcher_new matched_fst MATCH_INPUT 1) matched_queries =
      Some (m, (λ q, matches matched_fst MATCH_INPUT q.1 q.2) <$> matched_queries))) ∧
  ∃ h, queries (M:=HashMatcher M) (Matcher0:=hash_matcher) 5 (HashMatcher_new matched_fst MATCH_INPUT) matched_queries =
    Some (h, (λ q, matches matched_fst MATCH_INPUT q.1 q.2) <$> matched_queries).
Proof.
  apply (matchers_correct false (Some 1) matched_fst MATCH_INPUT 1 5 matched_queries); [by left|apply matched_wf|apply matched_sound|done|by left|apply matched_bounds].
Defined.

Example matched_input : Sorted_Type false (Some 1) (SortedMatcher_new matched_fst MATCH_INPUT 1) true = Some MATCH_INPUT.
Proof. by vm_compute. Qed.

Example matched_output : Sorted_Type false (Some 1) (SortedMatcher_new matched_fst MATCH_OUTPUT 1) true = Some MATCH_NONE.
Proof. by vm_compute. Qed.

Example matched_arcs :
  snd <$> queries (Matcher0:=sorted_matcher false (Some 1)) 5 (SortedMatcher_new matched_fst MATCH_INPUT 1) matched_queries =
  Some [[MkArc 2 4 One 0; MkArc 2 3 One 0]; [MkArc kNoLabel 0 One 0; MkArc 0 5 One 0]; []; [MkArc 0 5 One 0]; [MkArc 7 4 One 0]].
Proof. by vm_compute. Qed.
End witnesses.
