(* ===== verification/ComposeFilter.v ===== *)
(** Composition filters (openfst/lib/compose-filter.h, filter-state.h): of all ways
to interleave the epsilons of two paths they allow some.  The class
[ComposeFilter] is what composition calls.  Proved here, as instances of
[ComposeFilterLaws]: the trivial, sequence, alternate sequence, match and no-match
filters always leave a way for two paths that meet in the same string, although
the last four of them cut what cannot succeed; and as instances of [ExactFilter]:
the sequence, alternate sequence and match filters leave exactly one. *)
From S2P Require Import Prelude Weight FloatWeight Properties Fst VectorSound.
Local Open Scope Z_scope.

(** * The interface *)

(** A filter state, with the one that stands for none and the number of values of
its type. *)
Class FilterState (Fs : Type) := {
  NoState : Fs;
  filter_state_eq :: EqDecision Fs;
  filter_state_values : nat;
}.

(* filter-state.h:184-202 TrivialFilterState *)
#[export] Instance TrivialFilterState : FilterState bool := {| NoState := false; filter_state_values := 2 |}.
(* filter-state.h:62-86 CharFilterState *)
#[export] Instance CharFilterState : FilterState Z := {| NoState := kNoStateId; filter_state_values := 256 |}.

(* compose-filter.h:40-91 ComposeFilter *)
Class ComposeFilter (W Fs C : Type) := {
  filter_Start : C → Fs;
  filter_SetState : C → Z → Z → Fs → C;
  FilterArc : C → Arc W → Arc W → Fs * Arc W * Arc W;
  FilterFinal : C → W → W → W * W;
  filter_Properties : C → Z → Z;
}.

Section filters.
Context `{WeightOps W}.
Implicit Types (f : Fst W) (arc : Arc W) (s fs : Z).

(** What a filter asks of a state: only epsilons leave it, and it is not final; no
epsilons leave it. *)

(* compose-filter.h:248-251 alleps1_ *)
Definition alleps (lab : Arc W → Z) f (s : Z) : bool :=
  (zlen (Arcs f s) =? count_zero lab (Arcs f s)) && negb (wneqb (Final f s) Zero).
(* compose-filter.h:249-252 noeps1_ *)
Definition noeps (lab : Arc W → Z) f (s : Z) : bool := count_zero lab (Arcs f s) =? 0.

(** ** Filters without a state *)

(* compose-filter.h:95-97 NullComposeFilter *)
Record NullFilter := MkNull {}.
(* compose-filter.h:122-138 FilterArc *)
#[export] Instance null_filter : ComposeFilter W bool NullFilter := {|
  filter_Start := λ _, true;
  filter_SetState := λ c _ _ _, c;
  FilterArc := λ _ arc1 arc2, (negb ((olabel arc1 =? kNoLabel) || (ilabel arc2 =? kNoLabel)), arc1, arc2);
  FilterFinal := λ _ w1 w2, (w1, w2);
  filter_Properties := λ _ props, props;
|}.

(* compose-filter.h:157-159 TrivialComposeFilter *)
Record TrivialFilter := MkTrivialFilter {}.
(* compose-filter.h:186-198 FilterArc *)
#[export] Instance trivial_filter : ComposeFilter W bool TrivialFilter := {|
  filter_Start := λ _, true;
  filter_SetState := λ c _ _ _, c;
  FilterArc := λ _ arc1 arc2, (true, arc1, arc2);
  FilterFinal := λ _ w1 w2, (w1, w2);
  filter_Properties := λ _ props, props;
|}.

(* compose-filter.h:476-478 NoMatchComposeFilter *)
Record NoMatchFilter := MkNoMatch {}.
(* compose-filter.h:505-519 FilterArc *)
#[export] Instance no_match_filter : ComposeFilter W bool NoMatchFilter := {|
  filter_Start := λ _, true;
  filter_SetState := λ c _ _ _, c;
  FilterArc := λ _ arc1 arc2, (negb (olabel arc1 =? 0) || negb (ilabel arc2 =? 0), arc1, arc2);
  FilterFinal := λ _ w1 w2, (w1, w2);
  filter_Properties := λ _ props, props;
|}.

(** ** Epsilons of the first machine first *)

(* compose-filter.h:275-284 SequenceComposeFilter *)
Record SequenceFilter := MkSequence {
  seq_fst1 : Fst W; seq_s1 : Z; seq_s2 : Z; seq_fs : Z; alleps1_ : bool; noeps1_ : bool }.
Implicit Types (c : SequenceFilter).

(** The two flags are written by the first [SetState]. *)

(* compose-filter.h:222-229 SequenceComposeFilter *)
Definition SequenceFilter_new f1 : SequenceFilter := MkSequence f1 kNoStateId kNoStateId kNoStateId false false.

(* compose-filter.h:243-253 SetState *)
Definition Sequence_SetState c s1 s2 fs : SequenceFilter :=
  if (seq_s1 c =? s1) && (seq_s2 c =? s2) && (fs =? seq_fs c) then c else
  MkSequence (seq_fst1 c) s1 s2 fs (alleps olabel (seq_fst1 c) s1) (noeps olabel (seq_fst1 c) s1).

(* compose-filter.h:255-265 FilterArc *)
Definition Sequence_FilterArc (all no : bool) fs arc1 arc2 : Z :=
  if olabel arc1 =? kNoLabel then
    if all then kNoStateId else if no then 0 else 1
  else if ilabel arc2 =? kNoLabel then
    if negb (fs =? 0) then kNoStateId else 0
  else if olabel arc1 =? 0 then kNoStateId else 0.

(* compose-filter.h:241-273 FilterFinal *)
#[export] Instance sequence_filter : ComposeFilter W Z SequenceFilter := {|
  filter_Start := λ _, 0;
  filter_SetState := Sequence_SetState;
  FilterArc := λ c arc1 arc2, (Sequence_FilterArc (alleps1_ c) (noeps1_ c) (seq_fs c) arc1 arc2, arc1, arc2);
  FilterFinal := λ _ w1 w2, (w1, w2);
  filter_Properties := λ _ props, props;
|}.

(** ** Epsilons of the second machine first *)

(* compose-filter.h:355-364 AltSequenceComposeFilter *)
Record AltSequenceFilter := MkAlt {
  alt_fst2 : Fst W; alt_s1 : Z; alt_s2 : Z; alt_fs : Z; alt_alleps2 : bool; alt_noeps2 : bool }.
Implicit Types (b : AltSequenceFilter).

(* compose-filter.h:301-309 AltSequenceComposeFilter *)
Definition AltSequenceFilter_new f2 : AltSequenceFilter := MkAlt f2 kNoStateId kNoStateId kNoStateId false false.

(* compose-filter.h:323-333 SetState *)
Definition Alt_SetState b s1 s2 fs : AltSequenceFilter :=
  if (alt_s1 b =? s1) && (alt_s2 b =? s2) && (fs =? alt_fs b) then b else
  MkAlt (alt_fst2 b) s1 s2 fs (alleps ilabel (alt_fst2 b) s2) (noeps ilabel (alt_fst2 b) s2).

(* compose-filter.h:335-345 FilterArc *)
Definition Alt_FilterArc (all no : bool) fs arc1 arc2 : Z :=
  if ilabel arc2 =? kNoLabel then
    if all then kNoStateId else if no then 0 else 1
  else if olabel arc1 =? kNoLabel then
    if fs =? 1 then kNoStateId else 0
  else if olabel arc1 =? 0 then kNoStateId else 0.

(* compose-filter.h:321-353 FilterFinal *)
#[export] Instance alt_sequence_filter : ComposeFilter W Z AltSequenceFilter := {|
  filter_Start := λ _, 0;
  filter_SetState := Alt_SetState;
  FilterArc := λ b arc1 arc2, (Alt_FilterArc (alt_alleps2 b) (alt_noeps2 b) (alt_fs b) arc1 arc2, arc1, arc2);
  FilterFinal := λ _ w1 w2, (w1, w2);
  filter_Properties := λ _ props, props;
|}.

(** ** Epsilons matched with epsilons *)

(* compose-filter.h:451-463 MatchComposeFilter *)
Record MatchFilter := MkMatch {
  match_fst1 : Fst W; match_fst2 : Fst W; match_s1 : Z; match_s2 : Z; match_fs : Z;
  match_alleps1 : bool; match_alleps2 : bool; match_noeps1 : bool; match_noeps2 : bool }.
Implicit Types (m : MatchFilter).

(* compose-filter.h:382-391 MatchComposeFilter *)
Definition MatchFilter_new f1 f2 : MatchFilter := MkMatch f1 f2 kNoStateId kNoStateId kNoStateId false false false false.

(* compose-filter.h:404-419 SetState *)
Definition Match_SetState m s1 s2 fs : MatchFilter :=
  if (match_s1 m =? s1) && (match_s2 m =? s2) && (fs =? match_fs m) then m else
  MkMatch (match_fst1 m) (match_fst2 m) s1 s2 fs (alleps olabel (match_fst1 m) s1) (alleps ilabel (match_fst2 m) s2)
    (noeps olabel (match_fst1 m) s1) (noeps ilabel (match_fst2 m) s2).

(* compose-filter.h:421-441 FilterArc *)
Definition Match_FilterArc (all1 all2 no1 no2 : bool) fs arc1 arc2 : Z :=
  if ilabel arc2 =? kNoLabel then
    if fs =? 0 then (if no2 then 0 else if all2 then kNoStateId else 1)
    else if fs =? 1 then 1 else kNoStateId
  else if olabel arc1 =? kNoLabel then
    if fs =? 0 then (if no1 then 0 else if all1 then kNoStateId else 2)
    else if fs =? 2 then 2 else kNoStateId
  else if olabel arc1 =? 0 then
    if fs =? 0 then 0 else kNoStateId
  else 0.

(* compose-filter.h:402-449 FilterFinal *)
#[export] Instance match_filter : ComposeFilter W Z MatchFilter := {|
  filter_Start := λ _, 0;
  filter_SetState := Match_SetState;
  FilterArc := λ m arc1 arc2,
    (Match_FilterArc (match_alleps1 m) (match_alleps2 m) (match_noeps1 m) (match_noeps2 m) (match_fs m) arc1 arc2, arc1, arc2);
  FilterFinal := λ _ w1 w2, (w1, w2);
  filter_Properties := λ _ props, props;
|}.
End filters.
Arguments SequenceFilter : clear implicits.
Arguments AltSequenceFilter : clear implicits.
Arguments MatchFilter : clear implicits.

(** * Steps along two paths *)

Section moves.
Context `{WeightOps W}.
Implicit Types (f : Fst W) (a b : Arc W) (p q : list (Arc W)).

(** The arc of a side that stays where it is: it reads no symbol. *)
Definition loop1 (s1 : Z) : Arc W := MkArc 0 kNoLabel One s1.
Definition loop2 (s2 : Z) : Arc W := MkArc kNoLabel 0 One s2.

Inductive move (s1 s2 : Z) : list (Arc W) → list (Arc W) → Arc W → Arc W → list (Arc W) → list (Arc W) → Prop :=
  | move_first a p1 p2 : olabel a = 0 → move s1 s2 (a :: p1) p2 a (loop2 s2) p1 p2
  | move_second b p1 p2 : ilabel b = 0 → move s1 s2 p1 (b :: p2) (loop1 s1) b p1 p2
  | move_both a b p1 p2 : olabel a = ilabel b → move s1 s2 (a :: p1) (b :: p2) a b p1 p2.

(** Two successful paths that meet in the same string. *)
Record meets f1 f2 s1 s2 p1 p2 t1 t2 : Prop := {
  meets_path1 : path f1 s1 p1 t1;
  meets_path2 : path f2 s2 p2 t2;
  meets_final1 : is_final f1 t1;
  meets_final2 : is_final f2 t2;
  meets_string : ostring p1 = istring p2;
}.

(** Every label of the sides that meet is a symbol or epsilon. *)
Definition consuming f1 f2 : Prop :=
  all_arcs f1 (λ _ a, olabel a ≠ kNoLabel) ∧ all_arcs f2 (λ _ a, ilabel a ≠ kNoLabel).

Definition starts_eps (lab : Arc W → Z) p : bool := match p with a :: _ => lab a =? 0 | [] => false end.

Lemma labels_cons x l : labels (x :: l) = if x =? 0 then labels l else x :: labels l.
Proof. unfold labels. rewrite filter_cons. destruct (Z.eqb_spec x 0); by case_decide. Qed.

Lemma istring_cons a p : istring (a :: p) = if ilabel a =? 0 then istring p else ilabel a :: istring p.
Proof. apply labels_cons. Qed.

Lemma ostring_cons a p : ostring (a :: p) = if olabel a =? 0 then ostring p else olabel a :: ostring p.
Proof. apply labels_cons. Qed.

Lemma meets_move f1 f2 s1 s2 p1 p2 t1 t2 a1 a2 q1 q2 :
  meets f1 f2 s1 s2 p1 p2 t1 t2 → move s1 s2 p1 p2 a1 a2 q1 q2 →
  meets f1 f2 (nextstate a1) (nextstate a2) q1 q2 t1 t2.
Proof.
  intros [H1 H2 Hf1 Hf2 Hs] Hm. destruct Hm as [a p1 p2 Ha|b p1 p2 Hb|a b p1 p2 Hab].
  - split; try done; [by inversion H1|]. rewrite ostring_cons, Ha in Hs. done.
  - split; try done; [by inversion H2|]. rewrite istring_cons, Hb in Hs. done.
  - split; try done; [by inversion H1|by inversion H2|]. rewrite ostring_cons, istring_cons, Hab in Hs.
    destruct (ilabel b =? 0); congruence.
Qed.

(** Where both are past their epsilons they read the same symbol. *)
Lemma meets_both f1 f2 s1 s2 p1 p2 t1 t2 :
  meets f1 f2 s1 s2 p1 p2 t1 t2 → starts_eps olabel p1 = false → starts_eps ilabel p2 = false →
  p1 = [] ∧ p2 = [] ∨ ∃ a q1 b q2, p1 = a :: q1 ∧ p2 = b :: q2 ∧ olabel a = ilabel b ∧ olabel a ≠ 0.
Proof.
  intros [_ _ _ _ Hs] H1 H2. destruct p1 as [|a p1], p2 as [|b p2]; simpl in *; [by left|..].
  - by rewrite istring_cons, H2 in Hs.
  - by rewrite ostring_cons, H1 in Hs.
  - right. rewrite ostring_cons, istring_cons, H1, H2 in Hs. exists a, p1, b, p2. split_and!; [done..|by injection Hs|lia].
Qed.

Lemma starts_eps_true (lab : Arc W → Z) p : starts_eps lab p = true → ∃ a q, p = a :: q ∧ lab a = 0.
Proof. destruct p as [|a q]; [done|]. intros He%Z.eqb_eq. by exists a, q. Qed.

(** ** What the flags of the filters say *)

Lemma alleps_path lab f s p t : alleps lab f s = true → path f s p t → is_final f t → starts_eps lab p = true.
Proof.
  unfold alleps, count_zero. intros [He Hf]%andb_true_iff Hp Ht. destruct Hp as [s Hs|s a p t Hs Ha Hp].
  - destruct Ht as [_ Ht]. by rewrite Ht in Hf.
  - simpl. destruct (Z.eqb_spec (lab a) 0) as [|Hl]; [done|]. apply Z.eqb_eq in He. unfold zlen in He.
    pose proof (length_filter_lt (λ a, lab a = 0) (Arcs f s) a Ha Hl). lia.
Qed.

Lemma noeps_path lab f s p t : noeps lab f s = true → path f s p t → starts_eps lab p = false.
Proof.
  unfold noeps, count_zero. intros He%Z.eqb_eq Hp. destruct Hp as [s Hs|s a p t Hs Ha Hp]; [done|]. simpl.
  unfold zlen in He. destruct (filter (λ a, lab a = 0) (Arcs f s)) eqn:E; [|simpl in He; lia].
  destruct (Z.eqb_spec (lab a) 0) as [Hl|]; [|done]. exfalso. apply (not_elem_of_nil a). rewrite <-E.
  by apply list_elem_of_filter.
Qed.

(** What a filter can see of two paths that meet. *)
Record seen f1 f2 s1 s2 p1 p2 : Prop := {
  seen_all1 : alleps olabel f1 s1 = true → starts_eps olabel p1 = true;
  seen_no1 : noeps olabel f1 s1 = true → starts_eps olabel p1 = false;
  seen_all2 : alleps ilabel f2 s2 = true → starts_eps ilabel p2 = true;
  seen_no2 : noeps ilabel f2 s2 = true → starts_eps ilabel p2 = false;
}.

Lemma meets_seen f1 f2 s1 s2 p1 p2 t1 t2 : meets f1 f2 s1 s2 p1 p2 t1 t2 → seen f1 f2 s1 s2 p1 p2.
Proof. intros []. split; eauto using alleps_path, noeps_path. Qed.

(** The labels tell which side moves. *)
Inductive move_kind (s1 s2 : Z) p1 p2 a1 a2 q1 q2 : Prop :=
  | kind_first : olabel a1 = 0 → ilabel a2 = kNoLabel → starts_eps olabel p1 = true →
      p1 = a1 :: q1 → a2 = loop2 s2 → q2 = p2 → move_kind s1 s2 p1 p2 a1 a2 q1 q2
  | kind_second : olabel a1 = kNoLabel → ilabel a2 = 0 → starts_eps ilabel p2 = true →
      p2 = a2 :: q2 → a1 = loop1 s1 → q1 = p1 → move_kind s1 s2 p1 p2 a1 a2 q1 q2
  | kind_both : olabel a1 =? kNoLabel = false → ilabel a2 = olabel a1 → starts_eps olabel p1 = (olabel a1 =? 0) →
      starts_eps ilabel p2 = (olabel a1 =? 0) → p1 = a1 :: q1 → p2 = a2 :: q2 → move_kind s1 s2 p1 p2 a1 a2 q1 q2.

Lemma move_kind_of f1 f2 s1 s2 p1 p2 t1 t2 a1 a2 q1 q2 : consuming f1 f2 → meets f1 f2 s1 s2 p1 p2 t1 t2 →
  move s1 s2 p1 p2 a1 a2 q1 q2 → move_kind s1 s2 p1 p2 a1 a2 q1 q2.
Proof.
  intros [Hc _] [H1 _ _ _ _] Hm. destruct Hm as [a p1 p2 Ha|b p1 p2 Hb|a b p1 p2 Hab].
  - apply kind_first; simpl; try done; lia.
  - apply kind_second; simpl; try done; lia.
  - inversion H1; subst. apply kind_both; simpl; try done; [apply Z.eqb_neq; by eapply Hc|by rewrite Hab].
Qed.

Lemma move_same s1 s2 p1 p2 a1 a2 q1 q2 b1 b2 r1 r2 :
  move_kind s1 s2 p1 p2 a1 a2 q1 q2 → move_kind s1 s2 p1 p2 b1 b2 r1 r2 →
  (olabel a1 =? kNoLabel, ilabel a2 =? kNoLabel) = (olabel b1 =? kNoLabel, ilabel b2 =? kNoLabel) →
  a1 = b1 ∧ a2 = b2 ∧ q1 = r1 ∧ q2 = r2.
Proof.
  intros H1 H2 [= E1 E2]. destruct H1 as [L1 M1|L1 M1|L1 M1], H2 as [L2 M2|L2 M2|L2 M2]; subst;
    rewrite ?M1, ?M2, ?L1, ?L2 in E1; rewrite ?M1, ?M2, ?L1, ?L2 in E2; simpl in *; try discriminate; by simplify_eq.
Qed.

(** Where it goes on: a side that starts with an epsilon, or both together. *)
Lemma meets_cases f1 f2 s1 s2 p1 p2 t1 t2 :
  consuming f1 f2 → meets f1 f2 s1 s2 p1 p2 t1 t2 → p1 ≠ [] ∨ p2 ≠ [] →
  (starts_eps olabel p1 = true → ∃ a1 q1, move s1 s2 p1 p2 a1 (loop2 s2) q1 p2 ∧ olabel a1 = 0) ∧
  (starts_eps ilabel p2 = true → ∃ a2 q2, move s1 s2 p1 p2 (loop1 s1) a2 p1 q2 ∧ ilabel a2 = 0) ∧
  (starts_eps olabel p1 = starts_eps ilabel p2 → ∃ a1 a2 q1 q2, move s1 s2 p1 p2 a1 a2 q1 q2 ∧
    olabel a1 = ilabel a2 ∧ olabel a1 ≠ kNoLabel ∧ starts_eps olabel p1 = (olabel a1 =? 0)).
Proof.
  intros [Hc _] Hm Hne. split_and!.
  - intros (a & q & -> & Ha)%starts_eps_true. exists a, q. split; [by constructor|done].
  - intros (b & q & -> & Hb)%starts_eps_true. exists b, q. split; [by constructor|done].
  - intros E. destruct (starts_eps olabel p1) eqn:E1.
    + symmetry in E. apply starts_eps_true in E as (b & q2 & -> & Hb). apply starts_eps_true in E1 as (a & q1 & -> & Ha).
      exists a, b, q1, q2. unfold kNoLabel. split_and!; [constructor; lia|lia..].
    + destruct (meets_both _ _ _ _ _ _ _ _ Hm E1 (eq_sym E)) as [[-> ->]|(a & q1 & b & q2 & -> & -> & Hab & Ha)]; [by destruct Hne|].
      destruct Hm as [Hp _ _ _ _]. inversion Hp; subst. exists a, b, q1, q2.
      split_and!; [by constructor|done|by eapply Hc|]. simpl in E1. by rewrite E1.
Qed.
End moves.

(** * What a filter promises *)

(** [filter_for c f1 f2]: [c] filters for these machines; [filter_at]: it is at a
state of the composition; [next_state]: what it then answers; [room fs p1 p2]:
in filter state [fs] the two paths can be gone to their ends. *)
Class ComposeFilterLaws {W Fs C} `{WeightOps W} `{FilterState Fs} `{!ComposeFilter W Fs C} := {
  filter_for : C → Fst W → Fst W → Prop;
  filter_at : C → Fst W → Fst W → Z → Z → Fs → Prop;
  next_state : Fst W → Fst W → Z → Z → Fs → Arc W → Arc W → Fs;
  filter_states : list Fs;
  filter_states_length : (length filter_states ≤ filter_state_values)%nat;
  room : Fs → list (Arc W) → list (Arc W) → Prop;
  filter_at_for : ∀ c f1 f2 s1 s2 fs, filter_at c f1 f2 s1 s2 fs → filter_for c f1 f2;
  filter_SetState_at : ∀ c f1 f2 s1 s2 fs, filter_for c f1 f2 → valid f1 s1 → valid f2 s2 →
    filter_at (filter_SetState c s1 s2 fs) f1 f2 s1 s2 fs;
  FilterArc_at : ∀ c f1 f2 s1 s2 fs a1 a2, filter_at c f1 f2 s1 s2 fs →
    FilterArc c a1 a2 = (next_state f1 f2 s1 s2 fs a1 a2, a1, a2);
  FilterFinal_for : ∀ c f1 f2 w1 w2, filter_for c f1 f2 → FilterFinal c w1 w2 = (w1, w2);
  filter_Properties_for : ∀ c f1 f2 p, filter_for c f1 f2 → filter_Properties c p = p;
  filter_Start_state : ∀ c, filter_Start c ∈ filter_states;
  next_state_state : ∀ f1 f2 s1 s2 fs a1 a2, next_state f1 f2 s1 s2 fs a1 a2 ≠ NoState →
    next_state f1 f2 s1 s2 fs a1 a2 ∈ filter_states;
  room_start : ∀ c p1 p2, room (filter_Start c) p1 p2;
  room_move : ∀ f1 f2 s1 s2 fs p1 p2 t1 t2, consuming f1 f2 → meets f1 f2 s1 s2 p1 p2 t1 t2 →
    room fs p1 p2 → p1 ≠ [] ∨ p2 ≠ [] →
    ∃ a1 a2 q1 q2, move s1 s2 p1 p2 a1 a2 q1 q2 ∧
      next_state f1 f2 s1 s2 fs a1 a2 ≠ NoState ∧ room (next_state f1 f2 s1 s2 fs a1 a2) q1 q2;
}.

(** A filter that leaves one way alone: what is outside of the room stays outside,
and inside it [choice] tells from the epsilons the paths start with which sides
stay where they are. *)
Class ExactFilter {W Fs C} `{ComposeFilterLaws W Fs C} := {
  room_end : ∀ fs, fs ∈ filter_states → room fs [] [];
  room_back : ∀ f1 f2 s1 s2 fs p1 p2 t1 t2 a1 a2 q1 q2, fs ∈ filter_states →
    consuming f1 f2 → meets f1 f2 s1 s2 p1 p2 t1 t2 → move s1 s2 p1 p2 a1 a2 q1 q2 →
    next_state f1 f2 s1 s2 fs a1 a2 ≠ NoState → room (next_state f1 f2 s1 s2 fs a1 a2) q1 q2 → room fs p1 p2;
  choice : bool → bool → bool * bool;
  room_choice : ∀ f1 f2 s1 s2 fs p1 p2 t1 t2 a1 a2 q1 q2, fs ∈ filter_states →
    consuming f1 f2 → meets f1 f2 s1 s2 p1 p2 t1 t2 → room fs p1 p2 → move s1 s2 p1 p2 a1 a2 q1 q2 →
    next_state f1 f2 s1 s2 fs a1 a2 ≠ NoState → room (next_state f1 f2 s1 s2 fs a1 a2) q1 q2 →
    (olabel a1 =? kNoLabel, ilabel a2 =? kNoLabel) = choice (starts_eps olabel p1) (starts_eps ilabel p2);
}.

(** ** Ways along two paths *)

Section weaves.
Context `{WeightOps W} `{FilterState Fs} `{!ComposeFilter W Fs C} `{!ComposeFilterLaws}.
Implicit Types (f : Fst W) (a : Arc W) (p q : list (Arc W)) (ms : list (Arc W * Arc W)).

(** The steps of a way that the filter allows. *)
Inductive weave f1 f2 : Z → Z → Fs → list (Arc W) → list (Arc W) → list (Arc W * Arc W) → Prop :=
  | weave_nil s1 s2 fs : weave f1 f2 s1 s2 fs [] [] []
  | weave_cons s1 s2 fs p1 p2 a1 a2 q1 q2 ms :
      move s1 s2 p1 p2 a1 a2 q1 q2 → next_state f1 f2 s1 s2 fs a1 a2 ≠ NoState →
      weave f1 f2 (nextstate a1) (nextstate a2) (next_state f1 f2 s1 s2 fs a1 a2) q1 q2 ms →
      weave f1 f2 s1 s2 fs p1 p2 ((a1, a2) :: ms).

Lemma move_length s1 s2 p1 p2 a1 a2 q1 q2 :
  move s1 s2 p1 p2 a1 a2 q1 q2 → (length q1 + length q2 < length p1 + length p2)%nat.
Proof. destruct 1; simpl; lia. Qed.

Lemma weave_exists f1 f2 s1 s2 fs p1 p2 t1 t2 :
  consuming f1 f2 → meets f1 f2 s1 s2 p1 p2 t1 t2 → room fs p1 p2 → ∃ ms, weave f1 f2 s1 s2 fs p1 p2 ms.
Proof.
  intros Hc. remember (length p1 + length p2)%nat as n eqn:En. revert s1 s2 fs p1 p2 En.
  induction (lt_wf n) as [n _ IH]. intros s1 s2 fs p1 p2 -> Hm Hr.
  assert ((p1 = [] ∧ p2 = []) ∨ (p1 ≠ [] ∨ p2 ≠ [])) as [[-> ->]|Hne].
  { destruct p1; [destruct p2; [by left|]|]; right; [by right|by left]. }
  - exists []. constructor.
  - destruct (room_move f1 f2 s1 s2 fs p1 p2 t1 t2 Hc Hm Hr Hne) as (a1 & a2 & q1 & q2 & Hmv & Hns & Hq).
    destruct (IH (length q1 + length q2)%nat) with (s1:=nextstate a1) (s2:=nextstate a2)
      (fs:=next_state f1 f2 s1 s2 fs a1 a2) (p1:=q1) (p2:=q2) as [ms Hms];
      [by eapply move_length|done|by eapply meets_move|done|]. exists ((a1, a2) :: ms). by econstructor.
Qed.

Lemma weave_room `{!ExactFilter} f1 f2 s1 s2 fs p1 p2 t1 t2 ms : fs ∈ filter_states →
  consuming f1 f2 → meets f1 f2 s1 s2 p1 p2 t1 t2 → weave f1 f2 s1 s2 fs p1 p2 ms → room fs p1 p2.
Proof.
  intros Hf Hc Hm Hw. revert Hf Hm. induction Hw as [|s1 s2 fs p1 p2 a1 a2 q1 q2 ms Hmv Hns Hw IH]; intros Hf Hm.
  - by apply room_end.
  - eapply room_back; [done..|]. apply IH; [by apply next_state_state|by eapply meets_move].
Qed.

Lemma weave_unique `{!ExactFilter} f1 f2 s1 s2 fs p1 p2 t1 t2 ms ns : fs ∈ filter_states →
  consuming f1 f2 → meets f1 f2 s1 s2 p1 p2 t1 t2 →
  weave f1 f2 s1 s2 fs p1 p2 ms → weave f1 f2 s1 s2 fs p1 p2 ns → ms = ns.
Proof.
  intros Hf Hc Hm Hw. revert ns Hf Hm. induction Hw as [|s1 s2 fs p1 p2 a1 a2 q1 q2 ms Hmv Hns Hw IH]; intros ns Hf Hm Hn.
  - inversion Hn as [|? ? ? ? ? ? ? ? ? ? Hmv]; [done|]. inversion Hmv.
  - inversion Hn as [|? ? ? ? ? b1 b2 r1 r2 ns' Hmv' Hns' Hw']; subst; [by inversion Hmv|].
    pose proof (next_state_state _ _ _ _ _ _ _ Hns) as Hf1. pose proof (next_state_state _ _ _ _ _ _ _ Hns') as Hf2.
    pose proof (meets_move _ _ _ _ _ _ _ _ _ _ _ _ Hm Hmv) as Hm1. pose proof (meets_move _ _ _ _ _ _ _ _ _ _ _ _ Hm Hmv') as Hm2.
    pose proof (weave_room _ _ _ _ _ _ _ _ _ _ Hf1 Hc Hm1 Hw) as Hr1.
    pose proof (weave_room _ _ _ _ _ _ _ _ _ _ Hf2 Hc Hm2 Hw') as Hr2.
    assert (room fs p1 p2) as Hr by by eapply room_back.
    pose proof (room_choice _ _ _ _ _ _ _ _ _ _ _ _ _ Hf Hc Hm Hr Hmv Hns Hr1) as Hch.
    rewrite <-(room_choice _ _ _ _ _ _ _ _ _ _ _ _ _ Hf Hc Hm Hr Hmv' Hns' Hr2) in Hch.
    destruct (move_same _ _ _ _ _ _ _ _ _ _ _ _ (move_kind_of _ _ _ _ _ _ _ _ _ _ _ _ Hc Hm Hmv)
      (move_kind_of _ _ _ _ _ _ _ _ _ _ _ _ Hc Hm Hmv') Hch) as (<- & <- & <- & <-).
    f_equal. by apply IH.
Qed.

(** The same in terms of the calls. *)
Inductive way : C → Z → Z → Fs → list (Arc W) → list (Arc W) → list (Arc W * Arc W) → Prop :=
  | way_nil c s1 s2 fs : way c s1 s2 fs [] [] []
  | way_cons c s1 s2 fs p1 p2 a1 a2 q1 q2 fs' b1 b2 ms :
      move s1 s2 p1 p2 a1 a2 q1 q2 → FilterArc (filter_SetState c s1 s2 fs) a1 a2 = (fs', b1, b2) → fs' ≠ NoState →
      way (filter_SetState c s1 s2 fs) (nextstate b1) (nextstate b2) fs' q1 q2 ms →
      way c s1 s2 fs p1 p2 ((b1, b2) :: ms).

Lemma way_weave c f1 f2 s1 s2 fs p1 p2 t1 t2 ms :
  filter_for c f1 f2 → meets f1 f2 s1 s2 p1 p2 t1 t2 → way c s1 s2 fs p1 p2 ms ↔ weave f1 f2 s1 s2 fs p1 p2 ms.
Proof.
  revert c s1 s2 fs p1 p2. induction ms as [|[b1 b2] ms IH]; intros c s1 s2 fs p1 p2 Hc Hm.
  { split; inversion 1; subst; constructor. }
  assert (filter_at (filter_SetState c s1 s2 fs) f1 f2 s1 s2 fs) as Hat.
  { apply filter_SetState_at; [done|by eapply path_valid_l, Hm|by eapply path_valid_l, Hm]. }
  pose proof (filter_at_for _ _ _ _ _ _ Hat) as Hfor.
  split.
  - inversion 1 as [|? ? ? ? ? ? a1 a2 q1 q2 fs' ? ? ? Hmv Harc Hns Hw]; subst.
    rewrite (FilterArc_at _ _ _ _ _ _ _ _ Hat) in Harc. injection Harc as <- <- <-. econstructor; [done..|].
    eapply IH; [done|by eapply meets_move|done].
  - inversion 1 as [|? ? ? ? ? a1 a2 q1 q2 ? Hmv Hns Hw]; subst. econstructor; [done|by apply FilterArc_at|done|].
    eapply IH; [done|by eapply meets_move|done].
Qed.

Lemma way_exists c f1 f2 s1 s2 p1 p2 t1 t2 : filter_for c f1 f2 →
  consuming f1 f2 → meets f1 f2 s1 s2 p1 p2 t1 t2 → ∃ ms, way c s1 s2 (filter_Start c) p1 p2 ms.
Proof.
  intros Hf Hc Hm. destruct (weave_exists f1 f2 s1 s2 (filter_Start c) p1 p2 t1 t2 Hc Hm) as [ms Hms]; [apply room_start|].
  exists ms. by eapply way_weave.
Qed.

Lemma way_one `{!ExactFilter} c f1 f2 s1 s2 p1 p2 t1 t2 : filter_for c f1 f2 →
  consuming f1 f2 → meets f1 f2 s1 s2 p1 p2 t1 t2 → exists! ms, way c s1 s2 (filter_Start c) p1 p2 ms.
Proof.
  intros Hf Hc Hm. destruct (way_exists c f1 f2 s1 s2 p1 p2 t1 t2 Hf Hc Hm) as [ms Hms]. exists ms. split; [done|].
  intros ns Hns. eapply weave_unique; [apply (filter_Start_state c)|done..| |]; by eapply way_weave.
Qed.
End weaves.

(** * The filters keep their promises *)

Section filters_keep.
Context `{WeightEq W}.
Implicit Types (f : Fst W) (s : Z).

Definition any_filter_laws `{!ComposeFilter W bool C} (allow : Arc W → Arc W → bool) :
  (∀ c : C, filter_Start c = true) →
  (∀ (c : C) s1 s2 fs, filter_SetState c s1 s2 fs = c) →
  (∀ (c : C) a1 a2, FilterArc c a1 a2 = (allow a1 a2, a1, a2)) →
  (∀ (c : C) w1 w2, FilterFinal c w1 w2 = (w1, w2)) → (∀ (c : C) p, filter_Properties c p = p) →
  (∀ a1 a2, allow a1 a2 = false → olabel a1 = 0 ∧ ilabel a2 = 0) → ComposeFilterLaws (W:=W) (C:=C).
Proof.
  intros Hstart Hset Harc Hfin Hprops Hallow.
  refine {| filter_for := λ _ _ _, True; filter_at := λ _ _ _ _ _ _, True;
    next_state := λ _ _ _ _ _, allow; filter_states := [true]; room := λ fs _ _, fs = true |}; try done.
  - by apply Nat.leb_le.
  - intros c. rewrite Hstart. by left.
  - intros _ _ _ _ _ a1 a2. destruct (allow a1 a2); [by left|done].
  - intros f1 f2 s1 s2 fs p1 p2 t1 t2 Hc Hm -> Hne. destruct (meets_cases _ _ _ _ _ _ _ _ Hc Hm Hne) as (Hfirst & Hsecond & Hboth).
    assert (∀ a1 a2 q1 q2, move s1 s2 p1 p2 a1 a2 q1 q2 → ¬ (olabel a1 = 0 ∧ ilabel a2 = 0) →
      ∃ a1 a2 q1 q2, move s1 s2 p1 p2 a1 a2 q1 q2 ∧ allow a1 a2 ≠ NoState ∧ allow a1 a2 = true) as Hgo.
    { intros a1 a2 q1 q2 Hmv Hn. exists a1, a2, q1, q2. destruct (allow a1 a2) eqn:E; [done|]. by destruct Hn; apply Hallow. }
    destruct (starts_eps olabel p1) eqn:E1; [|destruct (starts_eps ilabel p2) eqn:E2].
    + destruct Hfirst as (a1 & q1 & Hmv & Ha); [done|]. eapply Hgo; [done|]. simpl. unfold kNoLabel. lia.
    + destruct Hsecond as (a2 & q2 & Hmv & Ha); [done|]. eapply Hgo; [done|]. simpl. unfold kNoLabel. lia.
    + destruct Hboth as (a1 & a2 & q1 & q2 & Hmv & Ha & Hn & Hz); [done|]. eapply Hgo; [done|]. lia.
Defined.

#[export] Instance trivial_filter_laws : ComposeFilterLaws (C:=TrivialFilter).
Proof. by apply (any_filter_laws (λ _ _, true)). Defined.

#[export] Instance no_match_filter_laws : ComposeFilterLaws (C:=NoMatchFilter).
Proof.
  apply (any_filter_laws (λ a1 a2, negb (olabel a1 =? 0) || negb (ilabel a2 =? 0))); try done. intros a1 a2. lia.
Defined.

(** ** Filters with flags *)

Definition sequence_next f1 (f2 : Fst W) s1 (s2 : Z) fs (a1 a2 : Arc W) : Z :=
  Sequence_FilterArc (alleps olabel f1 s1) (noeps olabel f1 s1) fs a1 a2.
Definition alt_next (f1 : Fst W) f2 (s1 : Z) s2 fs (a1 a2 : Arc W) : Z :=
  Alt_FilterArc (alleps ilabel f2 s2) (noeps ilabel f2 s2) fs a1 a2.
Definition match_next f1 f2 s1 s2 fs (a1 a2 : Arc W) : Z :=
  Match_FilterArc (alleps olabel f1 s1) (alleps ilabel f2 s2) (noeps olabel f1 s1) (noeps ilabel f2 s2) fs a1 a2.

Definition sequence_room (fs : Z) (p1 p2 : list (Arc W)) : Prop := fs = 0 ∨ fs = 1 ∧ starts_eps olabel p1 = false.
Definition alt_room (fs : Z) (p1 p2 : list (Arc W)) : Prop := fs = 0 ∨ fs = 1 ∧ starts_eps ilabel p2 = false.
Definition match_room (fs : Z) (p1 p2 : list (Arc W)) : Prop :=
  fs = 0 ∨ fs = 1 ∧ starts_eps ilabel p2 = false ∨ fs = 2 ∧ starts_eps olabel p1 = false.

(** ** Epsilons of the first machine first *)

Definition sequence_for (c : SequenceFilter W) f1 f2 : Prop :=
  seq_fst1 c = f1 ∧ (seq_s1 c = kNoStateId ∨
    alleps1_ c = alleps olabel f1 (seq_s1 c) ∧ noeps1_ c = noeps olabel f1 (seq_s1 c)).
Definition sequence_at (c : SequenceFilter W) f1 f2 s1 s2 fs : Prop :=
  sequence_for c f1 f2 ∧ valid f1 s1 ∧ seq_s1 c = s1 ∧ seq_fs c = fs.

(** The answers in terms of the flags. *)

Lemma sequence_answer f1 f2 s1 s2 fs p1 p2 a1 a2 q1 q2 : move_kind s1 s2 p1 p2 a1 a2 q1 q2 →
  sequence_next f1 f2 s1 s2 fs a1 a2 =
  if olabel a1 =? kNoLabel then
    if alleps olabel f1 s1 then kNoStateId else if noeps olabel f1 s1 then 0 else 1
  else if ilabel a2 =? kNoLabel then if negb (fs =? 0) then kNoStateId else 0
  else if starts_eps olabel p1 then kNoStateId else 0.
Proof.
  unfold sequence_next, Sequence_FilterArc. destruct 1 as [E1 E2 Ee|E1 E2 Ee|E1 E2 Ee]; rewrite ?E2, E1; try done.
  by rewrite Ee.
Qed.

#[export] Instance sequence_filter_laws : ComposeFilterLaws (C:=SequenceFilter W).
Proof.
  refine {| filter_for := sequence_for; filter_at := sequence_at; next_state := sequence_next;
    filter_states := [0; 1]; room := sequence_room |}.
  - by apply Nat.leb_le.
  - by intros c f1 f2 s1 s2 fs [? _].
  - intros c f1 f2 s1 s2 fs [Hf Hfl] Hs1 Hs2. simpl. unfold Sequence_SetState. case_match eqn:E.
    + apply andb_true_iff in E as [[E1%Z.eqb_eq _]%andb_true_iff E2%Z.eqb_eq]. done.
    + rewrite Hf. split; [|done]. split; [done|by right].
  - intros c f1 f2 s1 s2 fs a1 a2 ((Hf & Hfl) & Hv & <- & <-). simpl. unfold sequence_next.
    destruct Hfl as [E|[-> ->]]; [unfold valid, kNoStateId in *; lia|done].
  - done.
  - done.
  - intros c. simpl. set_solver.
  - intros f1 f2 s1 s2 fs a1 a2. unfold sequence_next, Sequence_FilterArc. rewrite !elem_of_cons.
    repeat case_match; naive_solver.
  - intros c p1 p2. by left.
  - intros f1 f2 s1 s2 fs p1 p2 t1 t2 Hc Hm Hr Hne. destruct (meets_cases _ _ _ _ _ _ _ _ Hc Hm Hne) as (Hfirst & Hsecond & Hboth).
    destruct (meets_seen _ _ _ _ _ _ _ _ Hm) as [A1 N1 A2 N2].
    assert (∀ a1 a2 q1 q2, move s1 s2 p1 p2 a1 a2 q1 q2 → move_kind s1 s2 p1 p2 a1 a2 q1 q2) as Hk by (intros; by eapply move_kind_of).
    destruct (starts_eps olabel p1) eqn:E1; [|destruct (starts_eps ilabel p2) eqn:E2].
    + destruct Hfirst as (a1 & q1 & Hmv & Ha); [done|]. exists a1, (loop2 s2), q1, p2. split; [done|].
      rewrite (sequence_answer _ _ _ _ _ _ _ _ _ _ _ (Hk _ _ _ _ Hmv)). unfold sequence_room in *. rewrite Ha. 
      destruct Hr as [->|[_ ?]]; [|congruence]. simpl. split; [done|]. by left.
    + destruct Hsecond as (a2 & q2 & Hmv & Ha); [done|]. exists (loop1 s1), a2, p1, q2. split; [done|].
      rewrite (sequence_answer _ _ _ _ _ _ _ _ _ _ _ (Hk _ _ _ _ Hmv)). unfold sequence_room in *.
      cbn [olabel loop1]. rewrite Z.eqb_refl. destruct (alleps olabel f1 s1); [by specialize (A1 eq_refl)|].
      by destruct (noeps olabel f1 s1); split; [|left| |right].
    + destruct Hboth as (a1 & a2 & q1 & q2 & Hmv & Ha & Hn & Hz); [congruence|]. exists a1, a2, q1, q2. split; [done|].
      rewrite (sequence_answer _ _ _ _ _ _ _ _ _ _ _ (Hk _ _ _ _ Hmv)). unfold sequence_room in *. rewrite <-Ha, E1.
      apply Z.eqb_neq in Hn as ->. split; [done|]. by left.
Defined.

#[export] Instance sequence_filter_exact : ExactFilter (C:=SequenceFilter W).
Proof.
  refine {| choice := λ e1 e2, (negb e1 && e2, e1) |}.
  - intros fs Hf. unfold room; simpl. unfold sequence_room. simpl in *. set_solver.
  - intros f1 f2 s1 s2 fs p1 p2 t1 t2 a1 a2 q1 q2 Hf Hc Hm Hmv. simpl. pose proof (move_kind_of _ _ _ _ _ _ _ _ _ _ _ _ Hc Hm Hmv) as Hk.
    rewrite (sequence_answer _ _ _ _ _ _ _ _ _ _ _ Hk). destruct (meets_seen _ _ _ _ _ _ _ _ Hm) as [A1 N1 A2 N2].
    assert (fs = 0 ∨ fs = 1) as [->| ->] by (simpl in Hf; set_solver); intros Hns Hr; [by left|right; split; [done|]].
    destruct Hk as [K1 K2 K3 K4 K5 K6|K1 K2 K3 K4 K5 K6|K1 K2 K3 K4 K5 K6]; rewrite ?K2, K1 in Hns, Hr; simpl in *; [done|..].
    + rewrite K6 in Hr. destruct (alleps olabel f1 s1); [done|]. destruct (noeps olabel f1 s1); [by apply N1|].
      by destruct Hr as [?|[_ ?]].
    + by destruct (starts_eps olabel p1).
  - intros f1 f2 s1 s2 fs p1 p2 t1 t2 a1 a2 q1 q2 Hf Hc Hm Hr Hmv. simpl. pose proof (move_kind_of _ _ _ _ _ _ _ _ _ _ _ _ Hc Hm Hmv) as Hk.
    rewrite (sequence_answer _ _ _ _ _ _ _ _ _ _ _ Hk). destruct (meets_seen _ _ _ _ _ _ _ _ Hm) as [A1 N1 A2 N2].
    intros Hns Hr'.
    destruct Hk as [K1 K2 K3 K4 K5 K6|K1 K2 K3 K4 K5 K6|K1 K2 K3 K4 K5 K6]; rewrite ?K2, K1 in Hns, Hr' |- *; simpl in *.
    + by rewrite K3.
    + rewrite K3, andb_true_r. destruct (starts_eps olabel p1) eqn:E1; [exfalso|done]. rewrite K6 in Hr'.
      destruct (alleps olabel f1 s1); [done|]. destruct (noeps olabel f1 s1); [by specialize (N1 eq_refl)|].
      destruct Hr' as [?|[_ ?]]; congruence.
    + destruct (starts_eps olabel p1) eqn:E1; [done|]. by rewrite K4, <-K3.
Defined.

(** ** Epsilons of the second machine first *)

Definition alt_for (c : AltSequenceFilter W) f1 f2 : Prop :=
  alt_fst2 c = f2 ∧ (alt_s2 c = kNoStateId ∨
    alt_alleps2 c = alleps ilabel f2 (alt_s2 c) ∧ alt_noeps2 c = noeps ilabel f2 (alt_s2 c)).
Definition alt_at (c : AltSequenceFilter W) f1 f2 s1 s2 fs : Prop :=
  alt_for c f1 f2 ∧ valid f2 s2 ∧ alt_s2 c = s2 ∧ alt_fs c = fs.

Lemma alt_answer f1 f2 s1 s2 fs p1 p2 a1 a2 q1 q2 : move_kind s1 s2 p1 p2 a1 a2 q1 q2 →
  alt_next f1 f2 s1 s2 fs a1 a2 =
  if ilabel a2 =? kNoLabel then
    if alleps ilabel f2 s2 then kNoStateId else if noeps ilabel f2 s2 then 0 else 1
  else if olabel a1 =? kNoLabel then if fs =? 1 then kNoStateId else 0
  else if starts_eps olabel p1 then kNoStateId else 0.
Proof.
  unfold alt_next, Alt_FilterArc. destruct 1 as [E1 E2 Ee|E1 E2 Ee|E1 E2 Ee]; rewrite ?E2, E1; try done.
  by rewrite Ee.
Qed.

#[export] Instance alt_filter_laws : ComposeFilterLaws (C:=AltSequenceFilter W).
Proof.
  refine {| filter_for := alt_for; filter_at := alt_at; next_state := alt_next;
    filter_states := [0; 1]; room := alt_room |}.
  - by apply Nat.leb_le.
  - by intros c f1 f2 s1 s2 fs [? _].
  - intros c f1 f2 s1 s2 fs [Hf Hfl] Hs1 Hs2. simpl. unfold Alt_SetState. case_match eqn:E.
    + by apply andb_true_iff in E as [[_ E1%Z.eqb_eq]%andb_true_iff E2%Z.eqb_eq].
    + rewrite Hf. split; [|done]. split; [done|by right].
  - intros c f1 f2 s1 s2 fs a1 a2 ((Hf & Hfl) & Hv & <- & <-). simpl. unfold alt_next.
    destruct Hfl as [E|[-> ->]]; [unfold valid, kNoStateId in *; lia|done].
  - done.
  - done.
  - intros c. simpl. set_solver.
  - intros f1 f2 s1 s2 fs a1 a2. unfold alt_next, Alt_FilterArc. rewrite !elem_of_cons.
    repeat case_match; naive_solver.
  - intros c p1 p2. by left.
  - intros f1 f2 s1 s2 fs p1 p2 t1 t2 Hc Hm Hr Hne. destruct (meets_cases _ _ _ _ _ _ _ _ Hc Hm Hne) as (Hfirst & Hsecond & Hboth).
    destruct (meets_seen _ _ _ _ _ _ _ _ Hm) as [A1 N1 A2 N2].
    assert (∀ a1 a2 q1 q2, move s1 s2 p1 p2 a1 a2 q1 q2 → move_kind s1 s2 p1 p2 a1 a2 q1 q2) as Hk by (intros; by eapply move_kind_of).
    unfold alt_room in *. destruct (starts_eps ilabel p2) eqn:E2; [|destruct (starts_eps olabel p1) eqn:E1].
    + destruct Hsecond as (a2 & q2 & Hmv & Ha); [done|]. exists (loop1 s1), a2, p1, q2. split; [done|].
      rewrite (alt_answer _ _ _ _ _ _ _ _ _ _ _ (Hk _ _ _ _ Hmv)), Ha.
      destruct Hr as [->|[_ ?]]; [|congruence]. simpl. split; [done|]. by left.
    + destruct Hfirst as (a1 & q1 & Hmv & Ha); [done|]. exists a1, (loop2 s2), q1, p2. split; [done|].
      rewrite (alt_answer _ _ _ _ _ _ _ _ _ _ _ (Hk _ _ _ _ Hmv)).
      cbn [ilabel loop2]. rewrite Z.eqb_refl. destruct (alleps ilabel f2 s2); [by specialize (A2 eq_refl)|].
      by destruct (noeps ilabel f2 s2); split; [|left| |right].
    + destruct Hboth as (a1 & a2 & q1 & q2 & Hmv & Ha & Hn & Hz); [congruence|]. exists a1, a2, q1, q2. split; [done|].
      rewrite (alt_answer _ _ _ _ _ _ _ _ _ _ _ (Hk _ _ _ _ Hmv)), <-Ha, E1.
      apply Z.eqb_neq in Hn as ->. split; [done|]. by left.
Defined.

#[export] Instance alt_filter_exact : ExactFilter (C:=AltSequenceFilter W).
Proof.
  refine {| choice := λ e1 e2, (e2, negb e2 && e1) |}.
  - intros fs Hf. unfold room; simpl. unfold alt_room. simpl in *. set_solver.
  - intros f1 f2 s1 s2 fs p1 p2 t1 t2 a1 a2 q1 q2 Hf Hc Hm Hmv. simpl. pose proof (move_kind_of _ _ _ _ _ _ _ _ _ _ _ _ Hc Hm Hmv) as Hk.
    rewrite (alt_answer _ _ _ _ _ _ _ _ _ _ _ Hk). destruct (meets_seen _ _ _ _ _ _ _ _ Hm) as [A1 N1 A2 N2].
    assert (fs = 0 ∨ fs = 1) as [->| ->] by (simpl in Hf; set_solver); intros Hns Hr; [by left|right; split; [done|]].
    destruct Hk as [K1 K2 K3 K4 K5 K6|K1 K2 K3 K4 K5 K6|K1 K2 K3 K4 K5 K6]; rewrite ?K2, K1 in Hns, Hr; simpl in *; [|done|].
    + rewrite K6 in Hr. destruct (alleps ilabel f2 s2); [done|]. destruct (noeps ilabel f2 s2); [by apply N2|].
      by destruct Hr as [?|[_ ?]].
    + rewrite K4, <-K3. by destruct (starts_eps olabel p1).
  - intros f1 f2 s1 s2 fs p1 p2 t1 t2 a1 a2 q1 q2 Hf Hc Hm Hr Hmv. simpl. pose proof (move_kind_of _ _ _ _ _ _ _ _ _ _ _ _ Hc Hm Hmv) as Hk.
    rewrite (alt_answer _ _ _ _ _ _ _ _ _ _ _ Hk). destruct (meets_seen _ _ _ _ _ _ _ _ Hm) as [A1 N1 A2 N2].
    intros Hns Hr'.
    destruct Hk as [K1 K2 K3 K4 K5 K6|K1 K2 K3 K4 K5 K6|K1 K2 K3 K4 K5 K6]; rewrite ?K2, K1 in Hns, Hr' |- *; simpl in *.
    + rewrite K3, andb_true_r. destruct (starts_eps ilabel p2) eqn:E2; [exfalso|done]. rewrite K6 in Hr'.
      destruct (alleps ilabel f2 s2); [done|]. destruct (noeps ilabel f2 s2); [by specialize (N2 eq_refl)|].
      destruct Hr' as [?|[_ ?]]; congruence.
    + by rewrite K3.
    + destruct (starts_eps olabel p1) eqn:E1; [done|]. by rewrite K4, <-K3.
Defined.

(** ** Epsilons matched with epsilons *)

Definition match_for (c : MatchFilter W) f1 f2 : Prop :=
  match_fst1 c = f1 ∧ match_fst2 c = f2 ∧ (match_s1 c = kNoStateId ∨
    match_alleps1 c = alleps olabel f1 (match_s1 c) ∧ match_noeps1 c = noeps olabel f1 (match_s1 c) ∧
    match_alleps2 c = alleps ilabel f2 (match_s2 c) ∧ match_noeps2 c = noeps ilabel f2 (match_s2 c)).
Definition match_at (c : MatchFilter W) f1 f2 s1 s2 fs : Prop :=
  match_for c f1 f2 ∧ valid f1 s1 ∧ match_s1 c = s1 ∧ match_s2 c = s2 ∧ match_fs c = fs.

Lemma match_answer f1 f2 s1 s2 fs p1 p2 a1 a2 q1 q2 : move_kind s1 s2 p1 p2 a1 a2 q1 q2 →
  match_next f1 f2 s1 s2 fs a1 a2 =
  if ilabel a2 =? kNoLabel then
    if fs =? 0 then (if noeps ilabel f2 s2 then 0 else if alleps ilabel f2 s2 then kNoStateId else 1)
    else if fs =? 1 then 1 else kNoStateId
  else if olabel a1 =? kNoLabel then
    if fs =? 0 then (if noeps olabel f1 s1 then 0 else if alleps olabel f1 s1 then kNoStateId else 2)
    else if fs =? 2 then 2 else kNoStateId
  else if starts_eps olabel p1 then if fs =? 0 then 0 else kNoStateId else 0.
Proof.
  unfold match_next, Match_FilterArc. destruct 1 as [E1 E2 Ee|E1 E2 Ee|E1 E2 Ee]; rewrite ?E2, E1; try done.
  by rewrite Ee.
Qed.

#[export] Instance match_filter_laws : ComposeFilterLaws (C:=MatchFilter W).
Proof.
  refine {| filter_for := match_for; filter_at := match_at; next_state := match_next;
    filter_states := [0; 1; 2]; room := match_room |}.
  - by apply Nat.leb_le.
  - by intros c f1 f2 s1 s2 fs [? _].
  - intros c f1 f2 s1 s2 fs (Hf1 & Hf2 & Hfl) Hs1 Hs2. simpl. unfold Match_SetState. case_match eqn:E.
    + by apply andb_true_iff in E as [[E1%Z.eqb_eq E2%Z.eqb_eq]%andb_true_iff E3%Z.eqb_eq].
    + rewrite Hf1, Hf2. split; [|done]. split; [done|]. split; [done|by right].
  - intros c f1 f2 s1 s2 fs a1 a2 ((Hf1 & Hf2 & Hfl) & Hv & <- & <- & <-). simpl. unfold match_next.
    destruct Hfl as [E|(-> & -> & -> & ->)]; [unfold valid, kNoStateId in *; lia|done].
  - done.
  - done.
  - intros c. simpl. set_solver.
  - intros f1 f2 s1 s2 fs a1 a2. unfold match_next, Match_FilterArc. rewrite !elem_of_cons.
    repeat case_match; naive_solver.
  - intros c p1 p2. by left.
  - intros f1 f2 s1 s2 fs p1 p2 t1 t2 Hc Hm Hr Hne. destruct (meets_cases _ _ _ _ _ _ _ _ Hc Hm Hne) as (Hfirst & Hsecond & Hboth).
    destruct (meets_seen _ _ _ _ _ _ _ _ Hm) as [A1 N1 A2 N2].
    assert (∀ a1 a2 q1 q2, move s1 s2 p1 p2 a1 a2 q1 q2 → move_kind s1 s2 p1 p2 a1 a2 q1 q2) as Hk by (intros; by eapply move_kind_of).
    unfold match_room in *. destruct (bool_decide (starts_eps olabel p1 = starts_eps ilabel p2)) eqn:E.
    + apply bool_decide_eq_true in E. destruct (Hboth E) as (a1 & a2 & q1 & q2 & Hmv & Ha & Hn & Hz). exists a1, a2, q1, q2. split; [done|].
      rewrite (match_answer _ _ _ _ _ _ _ _ _ _ _ (Hk _ _ _ _ Hmv)), <-Ha. apply Z.eqb_neq in Hn as ->.
      destruct (starts_eps olabel p1); [|by split; [|left]].
      destruct Hr as [->|[[_ ?]|[_ ?]]]; [by split; [|left]|congruence..].
    + apply bool_decide_eq_false in E. destruct (starts_eps olabel p1) eqn:E1.
      * destruct (starts_eps ilabel p2) eqn:E2; [done|]. destruct Hfirst as (a1 & q1 & Hmv & Ha); [done|].
        exists a1, (loop2 s2), q1, p2. split; [done|]. rewrite (match_answer _ _ _ _ _ _ _ _ _ _ _ (Hk _ _ _ _ Hmv)).
        cbn [ilabel loop2]. rewrite Z.eqb_refl. destruct Hr as [->|[[-> _]|[_ ?]]]; [|by split; [|right; left]|congruence].
        destruct (alleps ilabel f2 s2); [by specialize (A2 eq_refl)|].
        by destruct (noeps ilabel f2 s2); split; [|left| |right; left].
      * destruct (starts_eps ilabel p2) eqn:E2; [|done]. destruct Hsecond as (a2 & q2 & Hmv & Ha); [done|].
        exists (loop1 s1), a2, p1, q2. split; [done|]. rewrite (match_answer _ _ _ _ _ _ _ _ _ _ _ (Hk _ _ _ _ Hmv)), Ha.
        cbn [olabel loop1]. change (0 =? kNoLabel) with false. rewrite Z.eqb_refl. destruct Hr as [->|[[_ ?]|[-> _]]]; [|congruence|by split; [|right; right]].
        destruct (alleps olabel f1 s1); [by specialize (A1 eq_refl)|].
        by destruct (noeps olabel f1 s1); split; [|left| |right; right].
Defined.

#[export] Instance match_filter_exact : ExactFilter (C:=MatchFilter W).
Proof.
  refine {| choice := λ e1 e2, (e2 && negb e1, e1 && negb e2) |}.
  - intros fs Hf. unfold room; simpl. unfold match_room. simpl in *. set_solver.
  - intros f1 f2 s1 s2 fs p1 p2 t1 t2 a1 a2 q1 q2 Hf Hc Hm Hmv. simpl. pose proof (move_kind_of _ _ _ _ _ _ _ _ _ _ _ _ Hc Hm Hmv) as Hk.
    rewrite (match_answer _ _ _ _ _ _ _ _ _ _ _ Hk).
    assert (fs = 0 ∨ fs = 1 ∨ fs = 2) as Hfs by (simpl in Hf; set_solver). intros Hns Hr. unfold match_room.
    destruct Hk as [K1 K2 K3 K4 K5 K6|K1 K2 K3 K4 K5 K6|K1 K2 K3 K4 K5 K6]; rewrite ?K2, K1 in Hns, Hr;
      destruct Hfs as [->|[->| ->]]; simpl in *; try done; try (by left).
    + rewrite K6 in Hr. right; left. by destruct Hr as [?|[[_ ?]|[? _]]].
    + rewrite K6 in Hr. right; right. by destruct Hr as [?|[[? _]|[_ ?]]].
    + right; left. split; [done|]. rewrite K4, <-K3. by destruct (starts_eps olabel p1).
    + right; right. split; [done|]. by destruct (starts_eps olabel p1).
  - intros f1 f2 s1 s2 fs p1 p2 t1 t2 a1 a2 q1 q2 Hf Hc Hm Hr Hmv. simpl. pose proof (move_kind_of _ _ _ _ _ _ _ _ _ _ _ _ Hc Hm Hmv) as Hk.
    rewrite (match_answer _ _ _ _ _ _ _ _ _ _ _ Hk). destruct (meets_seen _ _ _ _ _ _ _ _ Hm) as [A1 N1 A2 N2].
    intros Hns Hr'. assert (fs = 0 ∨ fs = 1 ∨ fs = 2) as Hfs by (simpl in Hf; set_solver). unfold room in Hr; simpl in Hr. unfold match_room in *.
    destruct Hk as [K1 K2 K3 K4 K5 K6|K1 K2 K3 K4 K5 K6|K1 K2 K3 K4 K5 K6]; rewrite ?K2, K1 in Hns, Hr' |- *; simpl in *.
    + rewrite K3, andb_false_r. simpl. destruct (starts_eps ilabel p2) eqn:E2; [exfalso|done]. rewrite K6 in Hr'.
      destruct (noeps ilabel f2 s2); [by specialize (N2 eq_refl)|].
      destruct Hfs as [->|[->| ->]]; simpl in *; [|by destruct Hr as [?|[[_ ?]|[? _]]]|done].
      destruct (alleps ilabel f2 s2); [done|]. destruct Hr' as [?|[[_ ?]|[? _]]]; congruence.
    + rewrite K3, andb_false_r. simpl. destruct (starts_eps olabel p1) eqn:E1; [exfalso|done]. rewrite K6 in Hr'.
      destruct (noeps olabel f1 s1); [by specialize (N1 eq_refl)|].
      destruct Hfs as [->|[->| ->]]; simpl in *; [|done|by destruct Hr as [?|[[? _]|[_ ?]]]].
      destruct (alleps olabel f1 s1); [done|]. destruct Hr' as [?|[[? _]|[_ ?]]]; congruence.
    + rewrite K3, K4. by destruct (olabel a1 =? 0).
Defined.
End filters_keep.

(** * The property *)

Section theorem.
Context `{WeightEq W}.

(** C39: Composition filters.  Take two successful paths, of two machines without
[kNoLabel], that meet in the same string.  The sequence filter, the alternate
sequence filter and the match filter each allow exactly one way to go along both,
epsilons included, from their start state: no result is lost and none is doubled.
The trivial filter and the no-match filter allow at least one. *)
Theorem filters_correct (f1 f2 : Fst W) s1 s2 p1 p2 t1 t2 :
  consuming f1 f2 → meets f1 f2 s1 s2 p1 p2 t1 t2 →
  (exists! ms, way (SequenceFilter_new f1) s1 s2 0 p1 p2 ms) ∧
  (exists! ms, way (AltSequenceFilter_new f2) s1 s2 0 p1 p2 ms) ∧
  (exists! ms, way (MatchFilter_new f1 f2) s1 s2 0 p1 p2 ms) ∧
  (∃ ms, way MkTrivialFilter s1 s2 true p1 p2 ms) ∧
  (∃ ms, way MkNoMatch s1 s2 true p1 p2 ms).
Proof.
  intros Hc Hm. split_and!.
  - refine (way_one (SequenceFilter_new f1) f1 f2 s1 s2 p1 p2 t1 t2 _ Hc Hm). split; [done|by left].
  - refine (way_one (AltSequenceFilter_new f2) f1 f2 s1 s2 p1 p2 t1 t2 _ Hc Hm). split; [done|by left].
  - refine (way_one (MatchFilter_new f1 f2) f1 f2 s1 s2 p1 p2 t1 t2 _ Hc Hm). split; [done|]. split; [done|by left].
  - by refine (way_exists MkTrivialFilter f1 f2 s1 s2 p1 p2 t1 t2 _ Hc Hm).
  - by refine (way_exists MkNoMatch f1 f2 s1 s2 p1 p2 t1 t2 _ Hc Hm).
Qed.
End theorem.

(** ** An instance *)

Section witness.
Local Notation M := MinMaxWeight.

Definition chain (a b : Arc M) : Fst M := {|
  Start := 0; NumStates := 3; Final := λ s, if s =? 2 then One else Zero;
  Arcs := λ s, if s =? 0 then [a] else if s =? 1 then [b] else [];
  FstProperties := kExpanded; InputSymbols := None; OutputSymbols := None |}.

(** Both begin with an epsilon and go on with the symbol 5. *)
Definition chain1 : list (Arc M) := [MkArc 1 0 One 1; MkArc 2 5 One 2].
Definition chain2 : list (Arc M) := [MkArc 0 6 One 1; MkArc 5 7 One 2].
Definition chain_fst1 : Fst M := chain (MkArc 1 0 One 1) (MkArc 2 5 One 2).
Definition chain_fst2 : Fst M := chain (MkArc 0 6 One 1) (MkArc 5 7 One 2).

Lemma chains_meet : meets chain_fst1 chain_fst2 0 0 chain1 chain2 2 2.
Proof.
  split; [..|done].
  1-2: (econstructor; [done|by left|]; econstructor; [done|by left|]; by constructor).
  all: done.
Qed.

Lemma chains_consuming : consuming chain_fst1 chain_fst2.
Proof.
  split; intros s a Hs Ha; assert (s = 0 ∨ s = 1 ∨ s = 2) as [->|[->| ->]] by (unfold valid in Hs; simpl in Hs; lia);
    simpl in Ha; set_solver.
Qed.

Lemma filters_correct_witness :
  (exists! ms, way (SequenceFilter_new chain_fst1) 0 0 0 chain1 chain2 ms) ∧
  (exists! ms, way (AltSequenceFilter_new chain_fst2) 0 0 0 chain1 chain2 ms) ∧
  (exists! ms, way (MatchFilter_new chain_fst1 chain_fst2) 0 0 0 chain1 chain2 ms) ∧
  (∃ ms, way MkTrivialFilter 0 0 true chain1 chain2 ms) ∧ (∃ ms, way MkNoMatch 0 0 true chain1 chain2 ms).
Proof. apply (filters_correct chain_fst1 chain_fst2 0 0 chain1 chain2 2 2 chains_consuming chains_meet). Defined.

(** The match filter takes the two epsilons together, the sequence filter one after
the other. *)
Example chain_match : way (MatchFilter_new chain_fst1 chain_fst2) 0 0 0 chain1 chain2 (zip chain1 chain2).
Proof.
  econstructor; [by apply move_both|done|done|]. econstructor; [by apply move_both|done|done|]. constructor.
Qed.

Example chain_sequence : way (SequenceFilter_new chain_fst1) 0 0 0 chain1 chain2
  (zip [MkArc 1 0 One 1; loop1 1; MkArc 2 5 One 2] [loop2 0; MkArc 0 6 One 1; MkArc 5 7 One 2]).
Proof.
  econstructor; [by apply move_first|done|done|]. econstructor; [by apply move_second|done|done|].
  econstructor; [by apply move_both|done|done|]. constructor.
Qed.
End witness.
