(* ===== verification/Compose.v ===== *)
(** Composition (openfst/lib/compose.h, state-table.h, bi-table.h): the states of
the result are triples of a state of each machine and a filter state, numbered as
they are found; their arcs are matched, filtered and multiplied.  [ComposeFst] is
delayed; here it is expanded as a copy of it expands it, state after state. *)
From S2P Require Import Prelude Weight Properties SymbolTable Fst VectorFst VectorSound MutableFst Dfs TestProperties Connect Matcher ComposeFilter.
Local Open Scope Z_scope.

(** * State tables *)

Section table.
Context `{EqDecision T}.
Implicit Types (table : list T).

(** The keys of the hash set are the positions in [id2entry_], compared by the
entries there. *)

(* bi-table.h:174-187 FindId *)
Definition FindId table (entry : T) : list T * Z :=
  match list_find (λ x, x = entry) table with
  | Some (i, _) => (table, Z.of_nat i)
  | None => (table ++ [entry], zlen table)
  end.

(* bi-table.h:190-190 FindEntry *)
Definition FindEntry table (s : Z) : option T := table.[s].
End table.

(* state-table.h:247-278 DefaultComposeStateTuple *)
Record StateTuple (Fs : Type) := MkTuple { StateId1 : Z; StateId2 : Z; GetFilterState : Fs }.
Arguments MkTuple {_} _ _ _.
Arguments StateId1 {_} _.
Arguments StateId2 {_} _.
Arguments GetFilterState {_} _.

(* state-table.h:266-269 operator== *)
#[export] Instance StateTuple_eq_dec `{EqDecision Fs} : EqDecision (StateTuple Fs).
Proof. solve_decision. Defined.

(** * The machine *)

(* compose.h:453-461 StateTable *)
Record ComposeFstImpl (Fs C M1 M2 : Type) := MkCompose {
  filter_ : C;
  matcher1_ : M1;
  matcher2_ : M2;
  state_table_ : list (StateTuple Fs);
  compose_match_type_ : MatchType;
  compose_properties_ : Z;
  compose_isymbols_ : option SymbolTableImpl;
  compose_osymbols_ : option SymbolTableImpl;
}.
Arguments MkCompose {_ _ _ _} _ _ _ _ _ _ _ _.
Arguments filter_ {_ _ _ _} _.
Arguments matcher1_ {_ _ _ _} _.
Arguments matcher2_ {_ _ _ _} _.
Arguments state_table_ {_ _ _ _} _.
Arguments compose_match_type_ {_ _ _ _} _.
Arguments compose_properties_ {_ _ _ _} _.
Arguments compose_isymbols_ {_ _ _ _} _.
Arguments compose_osymbols_ {_ _ _ _} _.

Section compose.
Context {W Fs C M1 M2 : Type} `{WeightOps W} `{FilterState Fs} `{!ComposeFilter W Fs C} `{!Matcher W M1} `{!Matcher W M2}.
Implicit Types (impl : ComposeFstImpl Fs C M1 M2) (f : Fst W) (table : list (StateTuple Fs)).

(** ** The arcs of a state *)

(** The arcs so far are kept beside the state table. *)

(* compose.h:395-401 AddArc *)
Definition AddArc (acc : list (StateTuple Fs) * list (Arc W)) (arc1 arc2 : Arc W) (fs : Fs) : list (StateTuple Fs) * list (Arc W) :=
  let tuple := MkTuple (nextstate arc1) (nextstate arc2) fs in
  let '(table, s) := FindId acc.1 tuple in
  (table, acc.2 ++ [MkArc (ilabel arc1) (olabel arc2) (Times (weight arc1) (weight arc2)) s]).

(* compose.h:381-390 MatchArc *)
Definition match_step (filter : C) (arc : Arc W) (match_input : bool) (acc : list (StateTuple Fs) * list (Arc W)) (arca : Arc W) :=
  let '(fs, arc1, arc2) := if match_input then FilterArc filter arc arca else FilterArc filter arca arc in
  if decide (fs = NoState) then acc else AddArc acc arc1 arc2 fs.

(* compose.h:376-392 MatchArc *)
Definition MatchArc `{!Matcher W M} (filter : C) (fuel : nat) (matchera : M) (arc : Arc W) (match_input : bool)
    (acc : list (StateTuple Fs) * list (Arc W)) : option (M * (list (StateTuple Fs) * list (Arc W))) :=
  find_matches (λ acc arca, Some (match_step filter arc match_input acc arca)) fuel matchera
    (if match_input then olabel arc else ilabel arc) acc.

(* compose.h:360-373 OrderedExpand *)
Definition OrderedExpand `{!Matcher W M} (filter : C) (table : list (StateTuple Fs)) (sa : Z) (fstb : Fst W) (sb : Z)
    (matchera : M) (match_input : bool) : option (M * (list (StateTuple Fs) * list (Arc W))) :=
  let fuel := S (length (Arcs (GetFst matchera) sa)) in
  matchera ← SetState matchera sa;
  let loop := MkArc (if match_input then 0 else kNoLabel) (if match_input then kNoLabel else 0) One sb in
  foldM (λ '(matchera, acc) arc, MatchArc filter fuel matchera arc match_input acc) (loop :: Arcs fstb sb)
    (matchera, (table, [])).

(* compose.h:427-447 MatchInput *)
Definition MatchInput impl (s1 s2 : Z) : ComposeFstImpl Fs C M1 M2 * bool :=
  match compose_match_type_ impl with
  | MATCH_INPUT => (impl, true)
  | MATCH_OUTPUT => (impl, false)
  | _ =>
      let priority1 := Priority (matcher1_ impl) s1 in
      let priority2 := Priority (matcher2_ impl) s2 in
      if (priority1 =? kRequirePriority) && (priority2 =? kRequirePriority) then
        (MkCompose (filter_ impl) (matcher1_ impl) (matcher2_ impl) (state_table_ impl) (compose_match_type_ impl)
           (compose_properties_ impl ||| kError) (compose_isymbols_ impl) (compose_osymbols_ impl), true)
      else if priority1 =? kRequirePriority then (impl, false)
      else if priority2 =? kRequirePriority then (impl, true)
      else (impl, priority1 <=? priority2)
  end.

Definition with_filter impl (c : C) : ComposeFstImpl Fs C M1 M2 :=
  MkCompose c (matcher1_ impl) (matcher2_ impl) (state_table_ impl) (compose_match_type_ impl)
    (compose_properties_ impl) (compose_isymbols_ impl) (compose_osymbols_ impl).
Definition with_matching impl (m1 : M1) (m2 : M2) table : ComposeFstImpl Fs C M1 M2 :=
  MkCompose (filter_ impl) m1 m2 table (compose_match_type_ impl)
    (compose_properties_ impl) (compose_isymbols_ impl) (compose_osymbols_ impl).

(* compose.h:304-314 Expand *)
Definition Expand impl (s : Z) : option (ComposeFstImpl Fs C M1 M2 * list (Arc W)) :=
  tuple ← FindEntry (state_table_ impl) s;
  let s1 := StateId1 tuple in
  let s2 := StateId2 tuple in
  let impl := with_filter impl (filter_SetState (filter_ impl) s1 s2 (GetFilterState tuple)) in
  let '(impl, input) := MatchInput impl s1 s2 in
  if input : bool then
    '(m2, (table, arcs)) ← OrderedExpand (filter_ impl) (state_table_ impl) s2 (GetFst (matcher1_ impl)) s1 (matcher2_ impl) true;
    Some (with_matching impl (matcher1_ impl) m2 table, arcs)
  else
    '(m1, (table, arcs)) ← OrderedExpand (filter_ impl) (state_table_ impl) s1 (GetFst (matcher2_ impl)) s2 (matcher1_ impl) false;
    Some (with_matching impl m1 (matcher2_ impl) table, arcs).

(** ** The start state and the final weights *)

(* compose.h:403-411 ComputeStart *)
Definition ComputeStart impl : ComposeFstImpl Fs C M1 M2 * Z :=
  let s1 := Start (GetFst (matcher1_ impl)) in
  if s1 =? kNoStateId then (impl, kNoStateId) else
  let s2 := Start (GetFst (matcher2_ impl)) in
  if s2 =? kNoStateId then (impl, kNoStateId) else
  let '(table, s) := FindId (state_table_ impl) (MkTuple s1 s2 (filter_Start (filter_ impl))) in
  (with_matching impl (matcher1_ impl) (matcher2_ impl) table, s).

(* compose.h:413-424 ComputeFinal *)
Definition ComputeFinal impl (s : Z) : option (ComposeFstImpl Fs C M1 M2 * W) :=
  tuple ← FindEntry (state_table_ impl) s;
  let s1 := StateId1 tuple in
  let final1 := MatcherFinal (matcher1_ impl) s1 in
  if weqb final1 Zero then Some (impl, final1) else
  let s2 := StateId2 tuple in
  let final2 := MatcherFinal (matcher2_ impl) s2 in
  if weqb final2 Zero then Some (impl, final2) else
  let filter := filter_SetState (filter_ impl) s1 s2 (GetFilterState tuple) in
  let '(final1, final2) := FilterFinal filter final1 final2 in
  Some (with_filter impl filter, Times final1 final2).

(** ** Making it *)

(* compose.h:500-535 SetMatchType *)
Definition SetMatchType (m1 : M1) (m2 : M2) : option MatchType :=
  bad1 ← (if has (Flags m1) kRequireMatch then t ← Type_ m1 true; Some (bool_decide (t ≠ MATCH_OUTPUT)) else Some false);
  if bad1 : bool then Some MATCH_NONE else
  bad2 ← (if has (Flags m2) kRequireMatch then t ← Type_ m2 true; Some (bool_decide (t ≠ MATCH_INPUT)) else Some false);
  if bad2 : bool then Some MATCH_NONE else
  type1 ← Type_ m1 false;
  type2 ← Type_ m2 false;
  if decide (type1 = MATCH_OUTPUT ∧ type2 = MATCH_INPUT) then Some MATCH_BOTH else
  if decide (type1 = MATCH_OUTPUT) then Some MATCH_OUTPUT else
  if decide (type2 = MATCH_INPUT) then Some MATCH_INPUT else
  type1 ← Type_ m1 true;
  if decide (type1 = MATCH_OUTPUT) then Some MATCH_OUTPUT else
  type2 ← Type_ m2 true;
  if decide (type2 = MATCH_INPUT) then Some MATCH_INPUT else Some MATCH_NONE.

(** [compat] is the command-line flag of [CompatSymbols].  Arguments that are refused
are an [FSTERROR] (fst_error_fatal is off, see Prelude): the error bit is set. *)

(* compose.h:464-497 ComposeFstImpl *)
Definition ComposeFstImpl_new (compat : bool) f1 f2 (filter : C) (m1 : M1) (m2 : M2) : option (ComposeFstImpl Fs C M1 M2) :=
  let properties := if negb (CompatSymbols compat (InputSymbols f2) (OutputSymbols f1)) then kError else 0 in
  match_type ← SetMatchType m1 m2;
  let properties := if decide (match_type = MATCH_NONE) then properties ||| kError else properties in
  let mprops1 := MatcherProperties m1 (FstProperties f1 &&& kFstProperties) in
  let mprops2 := MatcherProperties m2 (FstProperties f2 &&& kFstProperties) in
  let cprops := filter_Properties filter (ComposeProperties mprops1 mprops2) in
  let properties := (properties &&& (u64_not kCopyProperties ||| kError)) ||| (cprops &&& kCopyProperties) in
  Some (MkCompose filter m1 m2 [] match_type properties (InputSymbols (GetFst m1)) (OutputSymbols (GetFst m2))).

(** [weight_properties] is what the weight class says of itself; [verify], [known1]
and [known2] are what [Properties] with a test depends on. *)

(* compose.h:647-664 CreateBase2 *)
Definition CreateBase2 (compat verify : bool) (known1 known2 : option Z) (weight_properties : Z) (allow_noncommute : bool)
    f1 f2 (filter : C) (m1 : M1) (m2 : M2) : option (ComposeFstImpl Fs C M1 M2) :=
  impl ← ComposeFstImpl_new compat f1 f2 filter m1 m2;
  if negb (has weight_properties kCommutative) && negb allow_noncommute then
    props1 ← AnyFst_Properties verify f1 known1 kUnweighted true;
    props2 ← AnyFst_Properties verify f2 known2 kUnweighted true;
    if negb (has props1 kUnweighted) && negb (has props2 kUnweighted) then
      Some (MkCompose (filter_ impl) (matcher1_ impl) (matcher2_ impl) (state_table_ impl) (compose_match_type_ impl)
        (compose_properties_ impl ||| kError) (compose_isymbols_ impl) (compose_osymbols_ impl))
    else Some impl
  else Some impl.

(* compose.h:290-300 Properties *)
Definition Compose_Properties impl : Z :=
  if has (FstProperties (GetFst (matcher1_ impl))) kError || has (FstProperties (GetFst (matcher2_ impl))) kError ||
     has (MatcherProperties (matcher1_ impl) 0) kError || has (MatcherProperties (matcher2_ impl) 0) kError ||
     has (filter_Properties (filter_ impl) 0) kError
  then compose_properties_ impl ||| kError else compose_properties_ impl.

(** ** Expanding it *)

(** The states in the order of their numbers, with final weight and arcs. *)

(* cache.h:1176-1199 CacheStateIterator *)
Fixpoint expand_states (fuel : nat) impl (s : Z) (states : list (W * list (Arc W))) :
    option (ComposeFstImpl Fs C M1 M2 * list (W * list (Arc W))) :=
  if zlen (state_table_ impl) <=? s then Some (impl, states) else
  match fuel with
  | O => None
  | S fuel =>
      '(impl, final) ← ComputeFinal impl s;
      '(impl, arcs) ← Expand impl s;
      expand_states fuel impl (s + 1) (states ++ [(final, arcs)])
  end.

(** A machine with an error has no start state, since [HasStart] takes it for
computed. *)

(* compose.h:187-193 Start *)
Definition ComposeFst (impl : ComposeFstImpl Fs C M1 M2) : option (Fst W) :=
  let '(impl, start) := if has (Compose_Properties impl) kError then (impl, kNoStateId) else ComputeStart impl in
  let fuel := (Z.to_nat (NumStates (GetFst (matcher1_ impl))) * Z.to_nat (NumStates (GetFst (matcher2_ impl))) * filter_state_values)%nat in
  '(impl, states) ← expand_states fuel impl 0 [];
  Some {| Start := start; NumStates := zlen states;
    Final := λ s, default Zero (fst <$> states.[s]); Arcs := λ s, default [] (snd <$> states.[s]);
    FstProperties := Compose_Properties impl;
    InputSymbols := compose_isymbols_ impl; OutputSymbols := compose_osymbols_ impl |}.
End compose.

(** * Composition of two machines *)

(** [Matcher] of two machines without matchers of their own is [SortedMatcher]. *)

(* lookahead-matcher.h:113-113 kInputLookAheadMatcher *)
Definition kInputLookAheadMatcher : Z := 0x10.
(* lookahead-matcher.h:116-116 kOutputLookAheadMatcher *)
Definition kOutputLookAheadMatcher : Z := 0x20.

(* lookahead-filter.h:43-60 LookAheadMatchType *)
Definition LookAheadMatchType {W M1 M2} `{!Matcher W M1} `{!Matcher W M2} (m1 : M1) (m2 : M2) : option MatchType :=
  type1 ← Type_ m1 false;
  type2 ← Type_ m2 false;
  if bool_decide (type1 = MATCH_OUTPUT) && has (Flags m1) kOutputLookAheadMatcher then Some MATCH_OUTPUT
  else if bool_decide (type2 = MATCH_INPUT) && has (Flags m2) kInputLookAheadMatcher then Some MATCH_INPUT
  else
    look1 ← (if has (Flags m1) kOutputLookAheadMatcher then t ← Type_ m1 true; Some (bool_decide (t = MATCH_OUTPUT)) else Some false);
    if look1 : bool then Some MATCH_OUTPUT else
    look2 ← (if has (Flags m2) kInputLookAheadMatcher then t ← Type_ m2 true; Some (bool_decide (t = MATCH_INPUT)) else Some false);
    if look2 : bool then Some MATCH_INPUT else Some MATCH_NONE.

(* compose.h:955-963 ComposeFilter *)
Inductive ComposeFilterType :=
  | AUTO_FILTER | NULL_FILTER | TRIVIAL_FILTER | SEQUENCE_FILTER | ALT_SEQUENCE_FILTER | MATCH_FILTER | NO_MATCH_FILTER.

(* compose.h:965-972 ComposeOptions *)
Record ComposeOptions := MkComposeOptions { connect : bool; filter_type : ComposeFilterType }.

Section machines.
Context `{WeightEq W} (compat verify : bool) (known1 known2 : option Z) (weight_properties : Z).
Implicit Types (f : Fst W).

(* compose.h:666-676 CreateBase1 *)
Definition compose_with {Fs C} `{FilterState Fs} `{!ComposeFilter W Fs C} f1 f2 (filter : C) : option (VectorFst W) :=
  impl ← CreateBase2 (Matcher0:=sorted_matcher verify known1) (Matcher1:=sorted_matcher verify known2)
    compat verify known1 known2 weight_properties false f1 f2 filter
    (SortedMatcher_new f1 MATCH_OUTPUT 1) (SortedMatcher_new f2 MATCH_INPUT 1);
  fst ← ComposeFst (Matcher0:=sorted_matcher verify known1) (Matcher1:=sorted_matcher verify known2) impl;
  VectorFst_copy fst.

(** Matchers that look ahead are not modelled: sorted matchers do not. *)

(* compose.h:678-701 CreateBase *)
Definition compose_auto f1 f2 : option (VectorFst W) :=
  look ← LookAheadMatchType (Matcher0:=sorted_matcher verify known1) (Matcher1:=sorted_matcher verify known2)
    (SortedMatcher_new f1 MATCH_OUTPUT 1) (SortedMatcher_new f2 MATCH_INPUT 1);
  if decide (look = MATCH_NONE) then compose_with f1 f2 (SequenceFilter_new f1) else None.

(* compose.h:1006-1057 Compose *)
Definition Compose f1 f2 (opts : ComposeOptions) : option (VectorFst W) :=
  ofst ← match filter_type opts with
    | AUTO_FILTER => compose_auto f1 f2
    | NULL_FILTER => compose_with f1 f2 MkNull
    | SEQUENCE_FILTER => compose_with f1 f2 (SequenceFilter_new f1)
    | ALT_SEQUENCE_FILTER => compose_with f1 f2 (AltSequenceFilter_new f2)
    | MATCH_FILTER => compose_with f1 f2 (MatchFilter_new f1 f2)
    | NO_MATCH_FILTER => compose_with f1 f2 MkNoMatch
    | TRIVIAL_FILTER => compose_with f1 f2 MkTrivialFilter
    end;
  if connect opts then Connect ofst else Some ofst.
End machines.
