(* ===== verification/Product.v ===== *)
(** The product of two machines: what a composition is, whatever matchers and
filter made it.  [composes table g] says that [g] has the triples of [table] as its
states and the allowed matches of each as its arcs.  Proved here: such a machine
accepts the composition of the languages, and the bits that [ComposeProperties]
computes are true of it. *)
From S2P Require Import Prelude Weight FloatWeight Properties Fst Mutation VectorSound Matcher ComposeFilter Compose.
Local Open Scope Z_scope.

(** Weights whose products are not [Zero] unless a factor is. *)
Class NoZeroDivisors (W : Type) `{WeightOps W} :=
  Times_nonzero : ∀ a b : W, Member a = true → Member b = true →
    weqb a Zero = false → weqb b Zero = false → weqb (Times a b) Zero = false.

#[export] Instance minmax_no_zero_divisors : NoZeroDivisors MinMaxWeight.
Proof.
  intros a b Ha Hb Hna Hnb. simpl. unfold MinMaxTimes. simpl in Ha, Hb. rewrite Ha, Hb. simpl. by case_match.
Qed.

Lemma Forall2_in_l {A B} (P : A → B → Prop) l k x : Forall2 P l k → x ∈ l → ∃ y, y ∈ k ∧ P x y.
Proof. induction 1; intros Hx; [by apply not_elem_of_nil in Hx|]. apply elem_of_cons in Hx as [->|Hx]; set_solver. Qed.

Lemma Forall2_in_r {A B} (P : A → B → Prop) l k y : Forall2 P l k → y ∈ k → ∃ x, x ∈ l ∧ P x y.
Proof. induction 1; intros Hy; [by apply not_elem_of_nil in Hy|]. apply elem_of_cons in Hy as [->|Hy]; set_solver. Qed.

(** * Matches of two states *)

Section pairs.
Context `{WeightOps W} (f1 f2 : Fst W).
Implicit Types (a b : Arc W) (p : Arc W * Arc W).

(** All matches, by the arcs of the first machine or by those of the second. *)
Definition product_pairs (input : bool) (s1 s2 : Z) : list (Arc W * Arc W) :=
  if input then a ← loop1 s1 :: Arcs f1 s1; pair a <$> matches f2 MATCH_INPUT s2 (olabel a)
  else b ← loop2 s2 :: Arcs f2 s2; (λ a, (a, b)) <$> matches f1 MATCH_OUTPUT s1 (ilabel b).

(** One of the sides stays, or the labels are the same. *)
Inductive pairing (s1 s2 : Z) : Arc W → Arc W → Prop :=
  | pair_first a : a ∈ Arcs f1 s1 → olabel a = 0 → pairing s1 s2 a (loop2 s2)
  | pair_second b : b ∈ Arcs f2 s2 → ilabel b = 0 → pairing s1 s2 (loop1 s1) b
  | pair_both a b : a ∈ Arcs f1 s1 → b ∈ Arcs f2 s2 → olabel a = ilabel b → pairing s1 s2 a b.

Lemma elem_of_matches f mt s label a : label ≠ kNoLabel →
  a ∈ matches f mt s label ↔ label = 0 ∧ a = implicit_loop mt s ∨ a ∈ Arcs f s ∧ side mt a = label.
Proof.
  intros Hn. unfold matches. rewrite elem_of_app, list_elem_of_filter. apply Z.eqb_neq in Hn as ->.
  destruct (Z.eqb_spec label 0); set_solver.
Qed.

Lemma elem_of_matches_eps f mt s a : a ∈ matches f mt s kNoLabel ↔ a ∈ Arcs f s ∧ side mt a = 0.
Proof. unfold matches. rewrite elem_of_app, list_elem_of_filter. simpl. set_solver. Qed.

Lemma elem_of_product_pairs input s1 s2 a b : consuming f1 f2 → valid f1 s1 → valid f2 s2 →
  (a, b) ∈ product_pairs input s1 s2 ↔ pairing s1 s2 a b.
Proof.
  intros [H1 H2] Hs1 Hs2. unfold product_pairs. destruct input.
  - rewrite list_elem_of_bind. setoid_rewrite list_elem_of_fmap. split.
    + intros (a' & (b' & [= <- <-] & Hb) & Ha). apply elem_of_cons in Ha as [->|Ha].
      * apply elem_of_matches_eps in Hb as [? ?]. by constructor.
      * apply elem_of_matches in Hb as [[Hl ->]|[Hb Hl]]; [by constructor|by constructor|by eapply H1].
    + destruct 1 as [a Ha Hl|b Hb Hl|a b Ha Hb Hl].
      * exists a. split; [|by right]. exists (loop2 s2). split; [done|]. rewrite Hl. by left.
      * exists (loop1 s1). split; [|by left]. exists b. split; [done|]. by apply elem_of_matches_eps.
      * exists a. split; [|by right]. exists b. split; [done|]. apply elem_of_matches; [by eapply H1|by right].
  - rewrite list_elem_of_bind. setoid_rewrite list_elem_of_fmap. split.
    + intros (b' & (a' & [= <- <-] & Ha) & Hb). apply elem_of_cons in Hb as [->|Hb].
      * apply elem_of_matches_eps in Ha as [? ?]. by constructor.
      * apply elem_of_matches in Ha as [[Hl ->]|[Ha Hl]]; [by constructor|by constructor|by eapply H2].
    + destruct 1 as [a Ha Hl|b Hb Hl|a b Ha Hb Hl].
      * exists (loop2 s2). split; [|by left]. exists a. split; [done|]. by apply elem_of_matches_eps.
      * exists b. split; [|by right]. exists (loop1 s1). split; [done|]. rewrite Hl. by left.
      * exists b. split; [|by right]. exists a. split; [done|]. apply elem_of_matches; [by eapply H2|by right].
Qed.
End pairs.

(** ** Determinism *)

Lemma filter_one {A} (lab : A → Z) (l : list A) x : NoDup (lab <$> l) → (length (filter (λ a, lab a = x) l) ≤ 1)%nat.
Proof.
  induction l as [|a l IH]; [simpl; lia|]. rewrite fmap_cons, NoDup_cons. intros [Ha Hl]. rewrite filter_cons.
  case_decide as E; [|by apply IH]. simpl. destruct (filter (λ a, lab a = x) l) as [|b k] eqn:Ek; [simpl; lia|].
  exfalso. apply Ha. assert (b ∈ filter (λ a, lab a = x) l) as [Hb Hin]%list_elem_of_filter by (rewrite Ek; by left).
  rewrite E, <-Hb. by apply list_elem_of_fmap_2.
Qed.

Lemma bind_one {A B} (m : A → list B) (l : list A) : (∀ a, a ∈ l → (length (m a) ≤ 1)%nat) →
  sublist (fst <$> (l ≫= λ a, pair a <$> m a)) l.
Proof.
  induction l as [|a l IH]; intros Hm; [done|]. simpl. rewrite fmap_app.
  assert (sublist (fst <$> (l ≫= λ a, pair a <$> m a)) l) as Hl by (apply IH; intros b Hb; apply Hm; by right).
  specialize (Hm a (list_elem_of_here _ _)). destruct (m a) as [|b [|b' k]]; simpl in *; [by apply sublist_cons|by apply sublist_skip|lia].
Qed.

Lemma NoDup_fmap_injective {A} (lab : A → Z) (l : list A) a b : NoDup (lab <$> l) → a ∈ l → b ∈ l → lab a = lab b → a = b.
Proof.
  induction l as [|c l IH]; intros Hl Ha Hb E; [by apply not_elem_of_nil in Ha|]. rewrite fmap_cons, NoDup_cons in Hl.
  destruct Hl as [Hc Hl]. apply elem_of_cons in Ha as [->|Ha], Hb as [->|Hb]; [done|..|by apply IH].
  - destruct Hc. rewrite E. by apply list_elem_of_fmap_2.
  - destruct Hc. rewrite <-E. by apply list_elem_of_fmap_2.
Qed.

Lemma fmap_bind_list {A B D} (f : B → D) (m : A → list B) (l : list A) : f <$> (l ≫= m) = l ≫= (λ x, f <$> m x).
Proof. induction l as [|x l IH]; [done|]. by rewrite !bind_cons, fmap_app, IH. Qed.

Section deterministic.
Context `{WeightOps W} (f1 f2 : Fst W) (s1 s2 : Z).
Hypothesis consuming12 : consuming f1 f2.
Hypothesis valid1 : valid f1 s1.
Hypothesis valid2 : valid f2 s2.
Hypothesis det1 : NoDup (ilabel <$> Arcs f1 s1).
Hypothesis det2 : NoDup (ilabel <$> Arcs f2 s2).
Hypothesis noeps2 : ∀ b, b ∈ Arcs f2 s2 → ilabel b ≠ 0.

Lemma no_eps_filter : filter (λ b, side MATCH_INPUT b = 0) (Arcs f2 s2) = [].
Proof. apply filter_none. apply noeps2. Qed.

Lemma pairs_first p input : p ∈ product_pairs f1 f2 input s1 s2 → p.1 ∈ Arcs f1 s1.
Proof.
  destruct p as [a b]. intros Hp%elem_of_product_pairs; [|done..]. destruct Hp as [a Ha|b Hb Hl|a b Ha]; [done| |done].
  by apply noeps2 in Hb.
Qed.

Lemma pairs_NoDup input : NoDup (fst <$> product_pairs f1 f2 input s1 s2).
Proof.
  assert (NoDup (Arcs f1 s1)) as Hd1 by by eapply NoDup_fmap_1.
  assert (NoDup (Arcs f2 s2)) as Hd2 by by eapply NoDup_fmap_1.
  unfold product_pairs. destruct input.
  - rewrite bind_cons, fmap_app. unfold matches at 1. simpl. rewrite no_eps_filter. simpl.
    eapply sublist_NoDup; [exact Hd1|]. apply bind_one. intros a Ha. unfold matches.
    destruct (Z.eqb_spec (olabel a) 0) as [->|Hn]; simpl; [by rewrite no_eps_filter|]. by apply filter_one.
  - rewrite fmap_bind_list. destruct consuming12 as [Hc1 Hc2].
    assert (∀ b, b ∈ loop2 s2 :: Arcs f2 s2 → ∀ a, a ∈ fst <$> ((λ a, (a, b)) <$> matches f1 MATCH_OUTPUT s1 (ilabel b)) →
      a ∈ Arcs f1 s1 ∧ (olabel a = if ilabel b =? kNoLabel then 0 else ilabel b)) as Hkey.
    { intros b Hb a Ha. rewrite <-list_fmap_compose, list_elem_of_fmap in Ha. destruct Ha as (a' & -> & Ha). simpl in *.
      unfold matches in Ha. rewrite elem_of_app, list_elem_of_filter in Ha. destruct Ha as [Ha|[Ha Hin]]; [|done].
      destruct (Z.eqb_spec (ilabel b) 0) as [E|]; [|by apply not_elem_of_nil in Ha]. exfalso.
      apply elem_of_cons in Hb as [->|Hb]; [done|]. by apply (noeps2 b). }
    apply NoDup_bind.
    + intros b c a Hb Hc' Hab Hac. destruct (Hkey b Hb a Hab) as [_ E1], (Hkey c Hc' a Hac) as [_ E2]. rewrite E1 in E2.
      apply elem_of_cons in Hb as [->|Hb], Hc' as [->|Hc']; [done|..].
      * pose proof (noeps2 c Hc'). pose proof (Hc2 s2 c valid2 Hc') as Hn%Z.eqb_neq. simpl in E2. rewrite Hn in E2. lia.
      * pose proof (noeps2 b Hb). pose proof (Hc2 s2 b valid2 Hb) as Hn%Z.eqb_neq. simpl in E2. rewrite Hn in E2. lia.
      * pose proof (Hc2 s2 b valid2 Hb) as Hn%Z.eqb_neq. pose proof (Hc2 s2 c valid2 Hc') as Hn'%Z.eqb_neq.
        rewrite Hn, Hn' in E2. by eapply (NoDup_fmap_injective ilabel).
    + intros b Hb. rewrite <-list_fmap_compose, list_fmap_id. unfold matches.
      destruct (Z.eqb_spec (ilabel b) 0) as [E|]; [|by apply NoDup_filter]. exfalso.
      apply elem_of_cons in Hb as [->|Hb]; [done|]. by apply (noeps2 b).
    + apply NoDup_cons. split; [|done]. intros Hl. by apply (Hc2 s2 _ valid2 Hl).
Qed.

Lemma pairs_det input (P : Arc W * Arc W → Prop) `{∀ p, Decision (P p)} :
  NoDup (ilabel <$> (fst <$> filter P (product_pairs f1 f2 input s1 s2))).
Proof.
  eapply (sublist_NoDup _ (ilabel <$> (fst <$> product_pairs f1 f2 input s1 s2))); [|do 2 apply fmap_sublist; apply sublist_filter].
  assert (fst <$> product_pairs f1 f2 input s1 s2 ⊆+ Arcs f1 s1) as [k Hk]%submseteq_Permutation.
  { apply NoDup_submseteq; [apply pairs_NoDup|]. intros a (p & -> & Hp)%list_elem_of_fmap. by eapply pairs_first. }
  pose proof det1 as Hd. rewrite Hk, fmap_app in Hd. by apply NoDup_app in Hd as [? _].
Qed.
End deterministic.

(** * What a composition is *)

Section product.
Context {Fs C} `{TM : TimesMonoid W} `{FilterState Fs} `{!ComposeFilter W Fs C} `{!ComposeFilterLaws (Fs:=Fs) (C:=C)}.
Context (f1 f2 : Fst W).
Implicit Types (g : Fst W) (table : list (StateTuple Fs)) (x : StateTuple Fs) (i j : Z).

Definition pair_final (s1 s2 : Z) : W :=
  if weqb (Final f1 s1) Zero then Final f1 s1 else
  if weqb (Final f2 s2) Zero then Final f2 s2 else Times (Final f1 s1) (Final f2 s2).

(** The matches that the filter allows. *)
Definition allowed (input : bool) x : list (Arc W * Arc W) :=
  filter (λ p, next_state f1 f2 (StateId1 x) (StateId2 x) (GetFilterState x) p.1 p.2 ≠ NoState)
    (product_pairs f1 f2 input (StateId1 x) (StateId2 x)).

(** The state a match leads to. *)
Definition target x (p : Arc W * Arc W) : StateTuple Fs :=
  MkTuple (nextstate p.1) (nextstate p.2) (next_state f1 f2 (StateId1 x) (StateId2 x) (GetFilterState x) p.1 p.2).

Record composed table x (p : Arc W * Arc W) (a : Arc W) : Prop := {
  composed_ilabel : ilabel a = ilabel p.1;
  composed_olabel : olabel a = olabel p.2;
  composed_weight : weight a = Times (weight p.1) (weight p.2);
  composed_target : table.[nextstate a] = Some (target x p);
}.

Definition tuple_ok x : Prop := valid f1 (StateId1 x) ∧ valid f2 (StateId2 x) ∧ GetFilterState x ∈ filter_states.

Record composes table g : Prop := {
  comp_states : NumStates g = zlen table;
  comp_tuples : Forall tuple_ok table;
  comp_final : ∀ i x, table.[i] = Some x → Final g i = pair_final (StateId1 x) (StateId2 x);
  comp_arcs : ∀ i x, table.[i] = Some x → ∃ input, Forall2 (composed table x) (allowed input x) (Arcs g i);
  comp_reached : ∀ j, 0 < j < zlen table → ∃ i a, 0 ≤ i < j ∧ a ∈ Arcs g i ∧ nextstate a = j;
}.

Section language.
Context `{!CommutativeWeight W, !NoZeroDivisors W} (table : list (StateTuple Fs)) (g : Fst W).
Context (Hg : composes table g) (Hc : consuming f1 f2) (Hw1 : wf_arcs f1) (Hw2 : wf_arcs f2).
Context (Hm1 : member_weights f1) (Hm2 : member_weights f2).

Lemma product_valid i : valid g i ↔ ∃ x, table.[i] = Some x.
Proof. unfold valid. rewrite (comp_states _ _ Hg), <-vget_is_Some. done. Qed.

Lemma tuple_valid i x : table.[i] = Some x → tuple_ok x.
Proof. intros Hx%vget_elem_of. pose proof (comp_tuples _ _ Hg) as Ht. rewrite Forall_forall in Ht. by apply Ht. Qed.

(** The arcs of a state, as matches and back. *)
Lemma product_arc i x a : table.[i] = Some x → a ∈ Arcs g i →
  ∃ p, pairing f1 f2 (StateId1 x) (StateId2 x) p.1 p.2 ∧ composed table x p a ∧
    next_state f1 f2 (StateId1 x) (StateId2 x) (GetFilterState x) p.1 p.2 ≠ NoState.
Proof.
  intros Hx Ha. destruct (comp_arcs _ _ Hg i x Hx) as [input Hall]. destruct (tuple_valid i x Hx) as (Hv1 & Hv2 & _).
  destruct (Forall2_in_r _ _ _ _ Hall Ha) as ([a1 a2] & Hp & Hpa). exists (a1, a2). unfold allowed in Hp.
  apply list_elem_of_filter in Hp as [Hns Hp]. split; [|done]. by apply (elem_of_product_pairs f1 f2 input).
Qed.

Lemma product_step i x a1 a2 : table.[i] = Some x → pairing f1 f2 (StateId1 x) (StateId2 x) a1 a2 →
  next_state f1 f2 (StateId1 x) (StateId2 x) (GetFilterState x) a1 a2 ≠ NoState →
  ∃ a, a ∈ Arcs g i ∧ composed table x (a1, a2) a.
Proof.
  intros Hx Hp Hns. destruct (comp_arcs _ _ Hg i x Hx) as [input Hall]. destruct (tuple_valid i x Hx) as (Hv1 & Hv2 & _).
  assert ((a1, a2) ∈ allowed input x) as Hin.
  { apply list_elem_of_filter. split; [done|]. by apply elem_of_product_pairs. }
  by apply (Forall2_in_l _ _ _ _ Hall Hin).
Qed.

(** ** Final weights and weights of paths *)

Lemma Times_shuffle (a b c d : W) : Member a = true → Member b = true → Member c = true → Member d = true →
  Times (Times a b) (Times c d) ≡ Times (Times a c) (Times b d).
Proof.
  intros Ha Hb Hc' Hd. rewrite <-(Times_assoc a b), (Times_assoc b c), (Times_comm b c), <-(Times_assoc c b), Times_assoc by eauto with weight.
  done.
Qed.

Lemma pair_final_zero s1 s2 : valid f1 s1 → valid f2 s2 →
  weqb (pair_final s1 s2) Zero = false ↔ weqb (Final f1 s1) Zero = false ∧ weqb (Final f2 s2) Zero = false.
Proof.
  intros Hv1 Hv2. unfold pair_final. destruct (weqb (Final f1 s1) Zero) eqn:E1; [naive_solver congruence|].
  destruct (weqb (Final f2 s2) Zero) eqn:E2; [naive_solver congruence|].
  rewrite Times_nonzero; [done|by apply Hm1|by apply Hm2|done..].
Qed.

Lemma product_final i x : table.[i] = Some x →
  is_final g i ↔ is_final f1 (StateId1 x) ∧ is_final f2 (StateId2 x).
Proof.
  intros Hx. destruct (tuple_valid i x Hx) as (Hv1 & Hv2 & _). unfold is_final. rewrite (comp_final _ _ Hg i x Hx), pair_final_zero by done.
  assert (valid g i) by (apply product_valid; by exists x). naive_solver.
Qed.

Lemma product_final_weight i x : table.[i] = Some x → is_final g i →
  Final g i = Times (Final f1 (StateId1 x)) (Final f2 (StateId2 x)).
Proof.
  intros Hx [[_ E1] [_ E2]]%(product_final i x Hx). rewrite (comp_final _ _ Hg i x Hx). unfold pair_final. by rewrite E1, E2.
Qed.

(** ** Paths *)

(** A path of the product, with a path of each machine. *)
Inductive splits : list (Arc W) → list (Arc W) → list (Arc W) → Prop :=
  | splits_nil : splits [] [] []
  | splits_first a c q p1 p2 : olabel a = 0 → ilabel c = ilabel a → olabel c = 0 →
      weight c = Times (weight a) One → splits q p1 p2 → splits (c :: q) (a :: p1) p2
  | splits_second b c q p1 p2 : ilabel b = 0 → ilabel c = 0 → olabel c = olabel b →
      weight c = Times One (weight b) → splits q p1 p2 → splits (c :: q) p1 (b :: p2)
  | splits_both a b c q p1 p2 : olabel a = ilabel b → ilabel c = ilabel a → olabel c = olabel b →
      weight c = Times (weight a) (weight b) → splits q p1 p2 → splits (c :: q) (a :: p1) (b :: p2).

Lemma splits_strings q p1 p2 : splits q p1 p2 → istring q = istring p1 ∧ ostring q = ostring p2 ∧ ostring p1 = istring p2.
Proof.
  induction 1 as [|a c q p1 p2 E1 E2 E3 E4 _ (I1 & I2 & I3)|b c q p1 p2 E1 E2 E3 E4 _ (I1 & I2 & I3)|a b c q p1 p2 E1 E2 E3 E4 _ (I1 & I2 & I3)];
    [done|..]; rewrite !istring_cons, !ostring_cons.
  - rewrite E2, E3, E1, I1, I2. done.
  - rewrite E2, E3, E1, I1, I2. done.
  - rewrite E2, E3, E1, I1, I2, I3. done.
Qed.

Lemma splits_weight q p1 p2 w1 w2 : splits q p1 p2 →
  Forall (λ a, Member (weight a) = true) p1 → Forall (λ a, Member (weight a) = true) p2 →
  Member w1 = true → Member w2 = true →
  path_weight q (Times w1 w2) ≡ Times (path_weight p1 w1) (path_weight p2 w2).
Proof.
  intros Hs G1 G2 Hw1' Hw2'. revert G1 G2.
  induction Hs as [|a c q p1 p2 E1 E2 E3 E4 _ IH|b c q p1 p2 E1 E2 E3 E4 _ IH|a b c q p1 p2 E1 E2 E3 E4 _ IH]; intros G1 G2.
  - done.
  - inversion G1; subst. simpl. rewrite IH, E4, Times_One_r, Times_assoc by eauto using path_weight_member. done.
  - inversion G2; subst. simpl. assert (Member (One : W) = true) by apply One_member.
    rewrite IH, E4, Times_shuffle, Times_One_l by eauto using path_weight_member. done.
  - inversion G1; inversion G2; subst. simpl. rewrite IH, E4, Times_shuffle by eauto using path_weight_member. done.
Qed.

Lemma path_splits i q j x : path g i q j → table.[i] = Some x →
  ∃ p1 p2 y, table.[j] = Some y ∧ path f1 (StateId1 x) p1 (StateId1 y) ∧ path f2 (StateId2 x) p2 (StateId2 y) ∧ splits q p1 p2.
Proof.
  intros Hp. revert x. induction Hp as [i Hi|i c q j Hi Hin Hp IH]; intros x Hx.
  - destruct (tuple_valid i x Hx) as (Hv1 & Hv2 & _). exists [], [], x. split; [done|]. split_and!; by constructor.
  - destruct (product_arc i x c Hx Hin) as ([a b] & Hpair & [E1 E2 E3 E4] & _). simpl in *.
    destruct (IH _ E4) as (p1 & p2 & y & Hy & Hp1 & Hp2 & Hs). destruct (tuple_valid i x Hx) as (Hv1 & Hv2 & _). simpl in Hp1, Hp2.
    destruct Hpair as [a Ha Hl|b Hb Hl|a b Ha Hb Hl].
    + exists (a :: p1), p2, y. split; [done|]. split; [by econstructor|]. split; [done|]. by constructor.
    + exists p1, (b :: p2), y. split; [done|]. split; [done|]. split; [by econstructor|]. by constructor.
    + exists (a :: p1), (b :: p2), y. split; [done|]. split; [by econstructor|]. split; [by econstructor|]. by constructor.
Qed.

Lemma weave_splits i s1 s2 fs p1 p2 t1 t2 ms : weave f1 f2 s1 s2 fs p1 p2 ms → table.[i] = Some (MkTuple s1 s2 fs) →
  path f1 s1 p1 t1 → path f2 s2 p2 t2 →
  ∃ q j fs', path g i q j ∧ table.[j] = Some (MkTuple t1 t2 fs') ∧ splits q p1 p2.
Proof.
  intros Hw. revert i. induction Hw as [s1 s2 fs|s1 s2 fs p1 p2 a1 a2 q1 q2 ms Hmv Hns Hw IH]; intros i Hx Hp1 Hp2.
  - inversion Hp1; inversion Hp2; subst. exists [], i, fs. split; [|split; [done|constructor]]. constructor.
    apply product_valid. by eexists.
  - assert (pairing f1 f2 s1 s2 a1 a2 ∧ path f1 (nextstate a1) q1 t1 ∧ path f2 (nextstate a2) q2 t2) as (Hpair & Hq1 & Hq2).
    { destruct Hmv; [inversion Hp1|inversion Hp2|inversion Hp1; inversion Hp2]; subst; split_and!; try done; by constructor. }
    destruct (product_step i _ a1 a2 Hx Hpair Hns) as (c & Hin & [E1 E2 E3 E4]). simpl in *.
    destruct (IH (nextstate c) E4 Hq1 Hq2) as (q & j & fs' & Hq & Hj & Hs). exists (c :: q), j, fs'.
    split; [econstructor; [apply product_valid; by eexists|done|done]|]. split; [done|].
    destruct Hmv as [a p1 p2 Ha|b p1 p2 Hb|a b p1 p2 Hab]; by constructor.
Qed.

(** The language of a state of the product, once every pair of paths has room. *)
Lemma product_accepts i s1 s2 fs u z w : table.[i] = Some (MkTuple s1 s2 fs) → (∀ p1 p2, room fs p1 p2) →
  accepts_from g i u z w ↔
  ∃ v w1 w2, accepts_from f1 s1 u v w1 ∧ accepts_from f2 s2 v z w2 ∧ w ≡ Times w1 w2.
Proof.
  intros Hx Hroom. split.
  - intros (q & j & Hq & Hj & <- & <- & Hw). destruct (path_splits i q j _ Hq Hx) as (p1 & p2 & y & Hy & Hp1 & Hp2 & Hs).
    destruct (splits_strings _ _ _ Hs) as (Hi & Ho & Hmeet). pose proof (product_final_weight j y Hy Hj) as Hf.
    destruct (proj1 (product_final j y Hy) Hj) as [Hf1 Hf2].
    exists (ostring p1), (path_weight p1 (Final f1 (StateId1 y))), (path_weight p2 (Final f2 (StateId2 y))). split_and!.
    + exists p1, (StateId1 y). by rewrite Hi.
    + exists p2, (StateId2 y). by rewrite Ho.
    + rewrite <-Hw, Hf. apply splits_weight; [done|by eapply path_member, Hp1; apply Hm1|by eapply path_member, Hp2; apply Hm2|..];
        [apply Hm1, Hf1|apply Hm2, Hf2].
  - intros (v & w1 & w2 & (p1 & t1 & Hp1 & Ht1 & <- & <- & Hw1') & (p2 & t2 & Hp2 & Ht2 & Hmeet & <- & Hw2') & ->).
    assert (meets f1 f2 s1 s2 p1 p2 t1 t2) as Hmeets by by split.
    destruct (weave_exists f1 f2 s1 s2 fs p1 p2 t1 t2 Hc Hmeets (Hroom p1 p2)) as [ms Hms].
    destruct (weave_splits i s1 s2 fs p1 p2 t1 t2 ms Hms Hx Hp1 Hp2) as (q & j & fs' & Hq & Hj & Hs).
    destruct (splits_strings _ _ _ Hs) as (Hi & Ho & _).
    assert (is_final g j) as Hfin by by apply (product_final j _ Hj).
    exists q, j. split_and!; [done..|]. rewrite (product_final_weight j _ Hj Hfin). simpl. rewrite <-Hw1', <-Hw2'.
    apply splits_weight; [done|by eapply path_member, Hp1; apply Hm1|by eapply path_member, Hp2; apply Hm2|apply Hm1, Ht1|apply Hm2, Ht2].
Qed.
End language.

(** ** The property bits *)

Section property_bits.
Context (table : list (StateTuple Fs)) (g : Fst W) (Hg : composes table g) (Hc : consuming f1 f2).
Context (Hstart : table = [] ∧ Start g = kNoStateId ∨
  Start g = 0 ∧ ∃ fs, table.[0] = Some (MkTuple (Start f1) (Start f2) fs)).

Lemma product_edge i j : edge g i j → ∃ x y, table.[i] = Some x ∧ table.[j] = Some y ∧
  rtc (edge f1) (StateId1 x) (StateId1 y) ∧ rtc (edge f2) (StateId2 x) (StateId2 y) ∧
  (tc (edge f1) (StateId1 x) (StateId1 y) ∨ tc (edge f2) (StateId2 x) (StateId2 y)).
Proof.
  intros [[x Hx]%(product_valid table g Hg) (c & Hin & <-)].
  destruct (product_arc table g Hg Hc i x c Hx Hin) as ([a b] & Hp & [_ _ _ Ht] & _).
  destruct (tuple_valid table g Hg i x Hx) as (Hv1 & Hv2 & _). exists x, (target x (a, b)). split; [done|]. split; [done|].
  unfold target; simpl in *. destruct Hp as [a Ha _|b Hb _|a b Ha Hb _]; simpl.
  - assert (edge f1 (StateId1 x) (nextstate a)) by (split; [done|by exists a]). split_and!; [by apply rtc_once|done|left; by apply tc_once].
  - assert (edge f2 (StateId2 x) (nextstate b)) by (split; [done|by exists b]). split_and!; [done|by apply rtc_once|right; by apply tc_once].
  - assert (edge f1 (StateId1 x) (nextstate a)) by (split; [done|by exists a]).
    assert (edge f2 (StateId2 x) (nextstate b)) by (split; [done|by exists b]). split_and!; [by apply rtc_once..|left; by apply tc_once].
Qed.

Lemma product_tc i j : tc (edge g) i j → ∃ x y, table.[i] = Some x ∧ table.[j] = Some y ∧
  rtc (edge f1) (StateId1 x) (StateId1 y) ∧ rtc (edge f2) (StateId2 x) (StateId2 y) ∧
  (tc (edge f1) (StateId1 x) (StateId1 y) ∨ tc (edge f2) (StateId2 x) (StateId2 y)).
Proof.
  induction 1 as [i j He|i j k He _ (y' & z & Hy' & Hz & Hr1 & Hr2 & _)]; [by apply product_edge|].
  destruct (product_edge i j He) as (x & y & Hx & Hy & Hx1 & Hx2 & Ht). assert (y' = y) as -> by congruence.
  exists x, z. split_and!; [done|done|by etrans|by etrans|].
  destruct Ht as [Ht|Ht]; [left|right]; by eapply tc_rtc_r.
Qed.

Lemma product_acyclic : ¬ Holds f1 Cyclic → ¬ Holds f2 Cyclic → ¬ Holds g Cyclic.
Proof.
  intros N1 N2 [i Hi]. destruct (product_tc i i Hi) as (x & y & Hx & Hy & _ & _ & Ht). assert (y = x) as -> by congruence.
  destruct Ht as [Ht|Ht]; [apply N1|apply N2]; by eexists.
Qed.

Lemma product_initial : ¬ Holds f1 InitialCyclic → ¬ Holds f2 InitialCyclic → ¬ Holds g InitialCyclic.
Proof.
  intros N1 N2 Hi. simpl in *. destruct (product_tc _ _ Hi) as (x & y & Hx & Hy & _ & _ & Ht).
  destruct Hstart as [[E _]|[E (fs & Hs)]]; [by rewrite E, vget_nil in Hx|]. rewrite E, Hs in Hx, Hy. injection Hx as <-. injection Hy as <-. simpl in Ht. naive_solver.
Qed.

Lemma product_accessible : Holds g Accessible.
Proof.
  destruct Hstart as [[E _]|[E _]].
  { intros s [Hs1 Hs2]. rewrite (comp_states _ _ Hg), E in Hs2. unfold zlen in Hs2. simpl in Hs2. lia. }
  simpl. rewrite E. intros s [Hs0 Hs]. rewrite (comp_states _ _ Hg) in Hs. revert Hs. 
  induction (Z.lt_wf 0 s) as [s _ IH]. intros Hs. destruct (decide (s = 0)) as [->|Hne]; [done|].
  destruct (comp_reached _ _ Hg s) as (i & a & Hi & Ha & <-); [lia|]. eapply rtc_r; [apply (IH i); lia|].
  split; [|by exists a]. split; [lia|]. rewrite (comp_states _ _ Hg). lia.
Qed.

(** What holds of the labels of the arcs. *)
Lemma product_labels (P Q1 Q2 : Arc W → Prop) : all_arcs f1 (λ _, Q1) → all_arcs f2 (λ _, Q2) →
  (∀ a c : Arc W, Q1 a → olabel a = 0 → ilabel c = ilabel a → olabel c = 0 → P c) →
  (∀ b c : Arc W, Q2 b → ilabel b = 0 → ilabel c = 0 → olabel c = olabel b → P c) →
  (∀ a b c : Arc W, Q1 a → Q2 b → olabel a = ilabel b → ilabel c = ilabel a → olabel c = olabel b → P c) →
  all_arcs g (λ _, P).
Proof.
  intros A1 A2 Hf Hs Hb i c [x Hx]%(product_valid table g Hg) Hin.
  destruct (product_arc table g Hg Hc i x c Hx Hin) as ([a b] & Hp & [E1 E2 _ _] & _). simpl in *.
  destruct (tuple_valid table g Hg i x Hx) as (Hv1 & Hv2 & _).
  destruct Hp as [a Ha Hl|b Hb' Hl|a b Ha Hb' Hl]; simpl in *; eauto.
Qed.

Lemma no_arc f (P : Arc W → Prop) : ¬ some_arc f (λ _, P) ↔ all_arcs f (λ _ a, ¬ P a).
Proof. unfold some_arc, all_arcs. naive_solver. Qed.

Lemma product_acceptor : Holds f1 Acceptor → Holds f2 Acceptor → Holds g Acceptor.
Proof. intros A1 A2. apply (product_labels (λ a, ilabel a = olabel a) _ _ A1 A2); intros; congruence. Qed.

Lemma product_no_iepsilons : ¬ Holds f1 IEpsilons → ¬ Holds f2 IEpsilons → ¬ Holds g IEpsilons.
Proof.
  simpl. rewrite !no_arc. intros A1 A2. apply (product_labels (λ a, ilabel a ≠ 0) _ _ A1 A2); intros; congruence.
Qed.

Lemma product_no_oepsilons : ¬ Holds f1 OEpsilons → ¬ Holds f2 OEpsilons → ¬ Holds g OEpsilons.
Proof.
  simpl. rewrite !no_arc. intros A1 A2. apply (product_labels (λ a, olabel a ≠ 0) _ _ A1 A2); intros; congruence.
Qed.

Lemma product_no_epsilons : Holds f1 Acceptor → Holds f2 Acceptor →
  ¬ Holds f1 Epsilons → ¬ Holds f2 Epsilons → ¬ Holds g Epsilons.
Proof.
  simpl. rewrite !no_arc. intros A1 A2 N1 N2.
  apply (product_labels _ (λ a, ilabel a = olabel a ∧ ¬ (ilabel a = 0 ∧ olabel a = 0))
    (λ a, ilabel a = olabel a ∧ ¬ (ilabel a = 0 ∧ olabel a = 0))); [intros s a Hs Ha; split; [by eapply A1|by eapply N1]|intros s a Hs Ha; split; [by eapply A2|by eapply N2]|..].
  - intros a c [E1 M1] E2 E3 E4 [E5 E6]. apply M1. split; congruence.
  - intros b c [E1 M1] E2 E3 E4 [E5 E6]. apply M1. split; congruence.
  - intros a b c [E1 M1] [E2 M2] E3 E4 E5 [E6 E7]. apply M1. split; congruence.
Qed.

Lemma product_det : Holds f1 IDeterministic → Holds f2 IDeterministic → ¬ Holds f2 IEpsilons → Holds g IDeterministic.
Proof.
  intros D1 D2 N i [x Hx]%(product_valid table g Hg). destruct (comp_arcs _ _ Hg i x Hx) as [input Hall].
  destruct (tuple_valid table g Hg i x Hx) as (Hv1 & Hv2 & _).
  assert (ilabel <$> Arcs g i = ilabel <$> (fst <$> allowed input x)) as ->.
  { clear -Hall. induction Hall as [|p a l k [E _ _ _] _ IH]; [done|]. rewrite !fmap_cons. by rewrite E, IH. }
  apply pairs_det; [done..|by apply D1|by apply D2|].
  intros b Hb E. apply N. by exists (StateId2 x), b.
Qed.

Lemma acceptor_det f : Holds f Acceptor → Holds f IDeterministic ↔ Holds f ODeterministic.
Proof.
  intros Ha. assert (∀ s, valid f s → olabel <$> Arcs f s = ilabel <$> Arcs f s) as E.
  { intros s Hs. apply list_fmap_ext. intros i a Hi%list_elem_of_lookup_2. symmetry. by eapply Ha. }
  simpl. split; intros Hd s Hs; [rewrite E by done|rewrite <-E by done]; by apply Hd.
Qed.

Lemma both_have p1 p2 k : 0 ≤ k → has (2 ^ k &&& p1) p2 = Z.testbit p1 k && Z.testbit p2 k.
Proof.
  intros Hk. rewrite Z.land_comm, land_pow2 by done. destruct (Z.testbit p1 k); [|done].
  by rewrite has_sym, (has_bit p2 (2 ^ k) k).
Qed.

Lemma ComposeProperties_sound p1 p2 : Sound p1 f1 → Sound p2 f2 → Sound (ComposeProperties p1 p2) g.
Proof.
  intros S1 S2 t. pose proof product_accessible as Hacc.
  destruct (S1 Acceptor) as [A1 _], (S2 Acceptor) as [A2 _], (S1 Epsilons) as [_ E1], (S2 Epsilons) as [_ E2],
    (S1 IEpsilons) as [_ I1], (S2 IEpsilons) as [_ I2], (S1 OEpsilons) as [_ O1], (S2 OEpsilons) as [_ O2],
    (S1 Cyclic) as [_ C1], (S2 Cyclic) as [_ C2], (S1 InitialCyclic) as [_ N1], (S2 InitialCyclic) as [_ N2],
    (S1 IDeterministic) as [D1 _], (S2 IDeterministic) as [D2 _], (S1 ODeterministic) as [D3 _], (S2 ODeterministic) as [D4 _].
  revert A1 A2 E1 E2 I1 I2 O1 O2 C1 C2 N1 N2 D1 D2 D3 D4. unfold ComposeProperties. change kNoIEpsilons with (2 ^ 25). rewrite !(both_have _ _ 25) by done.
  assert (Holds f1 Acceptor → Holds f2 Acceptor → Holds f1 ODeterministic → Holds f2 ODeterministic → ¬ Holds f2 IEpsilons →
    Holds g ODeterministic) as Hodet.
  { intros A1 A2 D1 D2 N. apply acceptor_det; [by apply product_acceptor|]. apply product_det; [by apply acceptor_det..|done]. }
  destruct t; bits; intros; (split; intros Hb; try discriminate);
    repeat match type of Hb with context [Z.testbit ?p ?k] => destruct (Z.testbit p k); cbn [andb orb negb] in Hb; try discriminate Hb end;
    repeat match goal with Hh : true = true → _ |- _ => specialize (Hh eq_refl) end;
    first [exact Hacc|by apply product_acceptor|by apply product_det|by apply Hodet|by apply product_no_epsilons|
      by apply product_no_iepsilons|by apply product_no_oepsilons|by apply product_acyclic|by apply product_initial].
Qed.
End property_bits.
End product.
