(* ===== verification/ComposeSpec.v ===== *)
(** What composition computes (openfst/lib/compose.h): the expansion of a delayed
composition ends and is a product in the sense of Product.v; [Compose] leaves the
composition of the two languages with true property bits, or an empty machine with
the error bit. *)
From S2P Require Import Prelude Weight FloatWeight Properties SymbolTable Fst VectorFst Mutation VectorSound MutableFst Rational RationalSpec.
From S2P Require Import Dfs TestProperties Connect Matcher ComposeFilter Compose Product.
Local Open Scope Z_scope.

(** * State tables *)

Section table.
Context `{EqDecision T}.
Implicit Types (table : list T).

Lemma prefix_get table table' i x : table `prefix_of` table' → table.[i] = Some x → table'.[i] = Some x.
Proof. intros [k ->]. apply vget_app_l. Qed.

Lemma prefix_zlen table table' : table `prefix_of` table' → zlen table ≤ zlen table'.
Proof. intros [k ->]. rewrite zlen_app. pose proof (zlen_nonneg k). lia. Qed.

Lemma FindId_spec table x : NoDup table → ∃ table' j, FindId table x = (table', j) ∧ table'.[j] = Some x ∧
  (table' = table ∨ table' = table ++ [x] ∧ j = zlen table) ∧ NoDup table'.
Proof.
  intros Hnd. unfold FindId. destruct (list_find (λ y, y = x) table) as [[i y]|] eqn:E.
  - apply list_find_Some in E as (Hi & -> & _). exists table, (Z.of_nat i). rewrite vget_nat. eauto.
  - exists (table ++ [x]), (zlen table). split; [done|]. split; [unfold zlen; by rewrite vget_nat, lookup_app_r, Nat.sub_diag by lia|].
    split; [by right|]. apply NoDup_app. split; [done|]. split; [|apply NoDup_singleton].
    apply list_find_None in E. rewrite Forall_forall in E. intros y Hy ->%list_elem_of_singleton. by apply (E x).
Qed.
End table.

Lemma foldM_pure {A B} (g : B → A → B) (l : list A) b : foldM (λ b a, Some (g b a)) l b = Some (foldl g b l).
Proof. revert b. induction l as [|a l IH]; intros b; [done|]. apply IH. Qed.

(** ** The bits of a new machine *)

Section new_bits.
Implicit Types (p q : Z) (b : bool).

Definition new_bits b q : Z := ((if b then kError else 0) &&& (u64_not kCopyProperties ||| kError)) ||| (q &&& kCopyProperties).

Lemma new_bits_sound `{WeightOps W} b q (f : Fst W) : Sound q f → Sound (new_bits b q) f.
Proof. intros Hs t. specialize (Hs t). revert Hs. unfold new_bits. destruct b, t; bits; done. Qed.

Lemma new_bits_error b q : has (new_bits b q) kError = b || has q kError.
Proof. unfold new_bits. rewrite !error_bit. destruct b; by bits. Qed.

Lemma ComposeProperties_error p q : has (ComposeProperties p q) kError = has p kError || has q kError.
Proof.
  rewrite !error_bit. unfold ComposeProperties. change kNoIEpsilons with (2 ^ 25). rewrite !(both_have _ _ 25) by done.
  bits. change (Z.testbit (2 ^ 25) 2) with false. by rewrite orb_false_r.
Qed.

Lemma fst_error p : has (p &&& kFstProperties) kError = has p kError.
Proof. rewrite !error_bit. by bits. Qed.

Lemma or_error_sound `{WeightOps W} p (f : Fst W) : Sound p f → Sound (p ||| kError) f.
Proof. intros Hs t. specialize (Hs t). revert Hs. destruct t; bits; done. Qed.

Lemma fst_bits_sound `{WeightOps W} p (f : Fst W) : Sound p f → Sound (p &&& kFstProperties) f.
Proof. intros Hs t. specialize (Hs t). revert Hs. destruct t; bits; done. Qed.

Lemma or_error p : has (p ||| kError) kError = true.
Proof. rewrite error_bit. by bits. Qed.
End new_bits.

Section expansion.
Context {Fs C M1 M2 : Type} `{TM : TimesMonoid W} `{FilterState Fs} `{!ComposeFilter W Fs C} `{!ComposeFilterLaws (Fs:=Fs) (C:=C)}.
Context `{!Matcher W M1} `{!Matcher W M2} `{!MatcherLaws (M:=M1)} `{!MatcherLaws (M:=M2)}.
Context (f1 f2 : Fst W).
Implicit Types (g : Fst W) (table : list (StateTuple Fs)) (x : StateTuple Fs) (p : Arc W * Arc W).

(** * Adding the matches of a state *)

Definition answer x p : Fs := next_state f1 f2 (StateId1 x) (StateId2 x) (GetFilterState x) p.1 p.2.

Definition add_pair x (acc : list (StateTuple Fs) * list (Arc W)) p : list (StateTuple Fs) * list (Arc W) :=
  if decide (answer x p = NoState) then acc else AddArc acc p.1 p.2 (answer x p).

Definition allowed_pairs x (ps : list (Arc W * Arc W)) : list (Arc W * Arc W) := filter (λ p, answer x p ≠ NoState) ps.

Lemma composed_prefix table table' x p a :
  table `prefix_of` table' → composed f1 f2 table x p a → composed f1 f2 table' x p a.
Proof. intros Hpre []. split; try done. by eapply prefix_get. Qed.

(** What a table has become, with the arcs that were added. *)
Record added x ps table table' (news : list (Arc W)) : Prop := {
  added_prefix : table `prefix_of` table';
  added_NoDup : NoDup table';
  added_arcs : Forall2 (composed f1 f2 table' x) (allowed_pairs x ps) news;
  added_tuples : ∀ y, y ∈ table' → y ∈ table ∨ ∃ p, p ∈ allowed_pairs x ps ∧ y = target f1 f2 x p;
  added_reached : ∀ j, zlen table ≤ j < zlen table' → ∃ a, a ∈ news ∧ nextstate a = j;
}.

Lemma add_pairs_ok x ps table arcs : NoDup table →
  ∃ table' news, foldl (add_pair x) (table, arcs) ps = (table', arcs ++ news) ∧ added x ps table table' news.
Proof.
  revert table arcs. induction ps as [|p ps IH]; intros table arcs Hnd.
  - exists table, []. rewrite app_nil_r. split; [done|]. split; [done|done|constructor|by left|lia].
  - simpl. unfold add_pair at 2. unfold allowed_pairs. case_decide as Hns.
    + destruct (IH table arcs Hnd) as (table' & news & E & [A1 A2 A3 A4 A5]). exists table', news. split; [done|].
      assert (allowed_pairs x (p :: ps) = allowed_pairs x ps) as E' by (apply filter_cons_False; naive_solver).
      split; rewrite ?E'; auto.
    + unfold AddArc. cbn [fst snd]. destruct (FindId_spec table (MkTuple (nextstate p.1) (nextstate p.2) (answer x p)) Hnd) as (t1 & j & -> & Hj & Ht & Hnd1).
      set (a := MkArc _ _ _ j). destruct (IH t1 (arcs ++ [a]) Hnd1) as (table' & news & E & [A1 A2 A3 A4 A5]).
      assert (allowed_pairs x (p :: ps) = p :: allowed_pairs x ps) as E' by by apply filter_cons_True.
      assert (table `prefix_of` t1) as Hpre by (destruct Ht as [->|[-> _]]; [done|by apply prefix_app_r]).
      exists table', (a :: news). rewrite <-app_assoc in E. split; [done|]. split; rewrite ?E'.
      * by etrans.
      * done.
      * constructor; [|done]. split; try done. by eapply prefix_get.
      * intros y [Hy|(q & Hq & ->)]%A4; [|right; exists q; split; [by right|done]].
        destruct Ht as [->|[-> _]]; [by left|]. apply elem_of_snoc in Hy as [Hy| ->]; [by left|right].
        exists p. split; [by left|done].
      * intros k Hk. destruct (decide (zlen t1 ≤ k)) as [Hk'|Hk'].
        -- destruct (A5 k) as (b & Hb & Eb); [lia|]. exists b. split; [by right|done].
        -- destruct Ht as [->|[-> ->]]; [lia|]. exists a. split; [by left|]. rewrite zlen_app, zlen_cons, zlen_nil in Hk'. simpl. lia.
Qed.

(** * Expanding a state *)

Definition pair_of (input : bool) (arc arca : Arc W) : Arc W * Arc W := if input then (arc, arca) else (arca, arc).
Definition loop_arc (input : bool) (sb : Z) : Arc W := MkArc (if input then 0 else kNoLabel) (if input then kNoLabel else 0) One sb.

Lemma match_step_eq c x input acc arc arca :
  filter_at c f1 f2 (StateId1 x) (StateId2 x) (GetFilterState x) →
  match_step c arc input acc arca = add_pair x acc (pair_of input arc arca).
Proof.
  intros Hc. unfold match_step, add_pair, answer, pair_of. destruct input; by rewrite (FilterArc_at _ _ _ _ _ _ _ _ Hc).
Qed.

Lemma OrderedExpand_ok `{!Matcher W M} `{!MatcherLaws (M:=M)} (m : M) f mt s c x table fstb sb input :
  filter_at c f1 f2 (StateId1 x) (StateId2 x) (GetFilterState x) → ready m f mt → valid f s →
  ∃ m', OrderedExpand c table s fstb sb m input =
      Some (m', foldl (add_pair x) (table, []) ((loop_arc input sb :: Arcs fstb sb) ≫=
        λ arc, pair_of input arc <$> matches f mt s (if input then olabel arc else ilabel arc))) ∧
    ready m' f mt.
Proof.
  intros Hc Hr Hs. unfold OrderedExpand. destruct (ready_keeps m f mt Hr) as [-> _].
  destruct (SetState_placed m f mt s Hr Hs) as (m1 & -> & Hm1). cbn [mbind option_bind].
  destruct (foldM_total (λ '(m, acc) arc, MatchArc c (S (length (Arcs f s))) m arc input acc)
    (λ done st, placed st.1 f mt s ∧ st.2 = foldl (add_pair x) (table, []) (done ≫=
        λ arc, pair_of input arc <$> matches f mt s (if input then olabel arc else ilabel arc)))
    (loop_arc input sb :: Arcs fstb sb) (m1, (table, []))) as ([m' acc] & E & Hm' & Eacc).
  - done.
  - intros done arc todo [m2 acc] _ [Hm2 Eacc]. simpl in *. unfold MatchArc.
    destruct (find_matches_ok (λ acc arca, Some (match_step c arc input acc arca)) m2 f mt s
      (if input then olabel arc else ilabel arc) (S (length (Arcs f s))) acc _ Hm2 ltac:(lia) (foldM_pure _ _ _)) as (m3 & E & Hm3).
    eexists. split; [exact E|]. split; [done|]. simpl. rewrite bind_app, foldl_app, <-Eacc, bind_singleton.
    generalize (matches f mt s (if input then olabel arc else ilabel arc)). intros l. clear E.
    revert acc Eacc. clear -Hc. intros acc _. revert acc. induction l as [|a l IH]; intros acc; [done|].
    simpl. rewrite (match_step_eq c x) by done. apply IH.
  - exists m'. simpl in Eacc. subst acc. split; [exact E|]. by eapply placed_ready.
Qed.

(** * The invariant of the implementation *)

Implicit Types (impl : ComposeFstImpl Fs C M1 M2).
Context (Hc12 : consuming f1 f2) (Hw1 : WellFormed f1) (Hw2 : WellFormed f2).

Definition serves {M} `{!Matcher W M} (m : M) (f : Fst W) : Prop :=
  GetFst m = f ∧ (∀ props, MatcherProperties m props = props) ∧ ∀ s, MatcherFinal m s = Final f s.

Lemma ready_serves `{!Matcher W M} `{!MatcherLaws (M:=M)} (m : M) f mt : ready m f mt → serves m f.
Proof. intros Hr. destruct (ready_keeps m f mt Hr) as [? ?]. split_and!; [done..|]. intros s. by eapply ready_final. Qed.

Record impl_ok impl : Prop := {
  impl_filter : filter_for (filter_ impl) f1 f2;
  impl_serves1 : serves (matcher1_ impl) f1;
  impl_serves2 : serves (matcher2_ impl) f2;
  impl_ready1 : compose_match_type_ impl ≠ MATCH_INPUT → ready (matcher1_ impl) f1 MATCH_OUTPUT;
  impl_ready2 : compose_match_type_ impl ≠ MATCH_OUTPUT → ready (matcher2_ impl) f2 MATCH_INPUT;
  impl_NoDup : NoDup (state_table_ impl);
  impl_tuples : Forall (tuple_ok f1 f2) (state_table_ impl);
}.

(** What an operation leaves alone. *)
Record same_frame impl impl' : Prop := {
  same_type : compose_match_type_ impl' = compose_match_type_ impl;
  same_properties : compose_properties_ impl' = compose_properties_ impl;
  same_isymbols : compose_isymbols_ impl' = compose_isymbols_ impl;
  same_osymbols : compose_osymbols_ impl' = compose_osymbols_ impl;
}.

Lemma impl_tuple impl i x : impl_ok impl → (state_table_ impl).[i] = Some x → tuple_ok f1 f2 x.
Proof. intros Hi Hx%vget_elem_of. pose proof (impl_tuples impl Hi) as Ht. rewrite Forall_forall in Ht. by apply Ht. Qed.

Lemma ComputeFinal_ok impl i x : impl_ok impl → (state_table_ impl).[i] = Some x →
  ∃ impl', ComputeFinal impl i = Some (impl', pair_final f1 f2 (StateId1 x) (StateId2 x)) ∧ impl_ok impl' ∧
    same_frame impl impl' ∧ state_table_ impl' = state_table_ impl.
Proof.
  intros Hi Hx. destruct (impl_tuple impl i x Hi Hx) as (Hv1 & Hv2 & _). destruct Hi as [Hf Hs1 Hs2 Hr1 Hr2 Hnd Ht].
  pose proof Hs1 as (_ & _ & F1). pose proof Hs2 as (_ & _ & F2).
  unfold ComputeFinal, FindEntry, pair_final. rewrite Hx. cbn [mbind option_bind]. rewrite F1, F2.
  destruct (weqb (Final f1 (StateId1 x)) Zero); [exists impl; split_and!; done|].
  destruct (weqb (Final f2 (StateId2 x)) Zero); [exists impl; split_and!; done|].
  pose proof (filter_SetState_at _ _ _ _ _ (GetFilterState x) Hf Hv1 Hv2) as Hat.
  rewrite (FilterFinal_for _ f1 f2) by by eapply filter_at_for. eexists. split; [done|]. split_and!; [|done..].
  split; try done. by eapply filter_at_for.
Qed.

(** The states that the allowed matches of a state lead to. *)
Lemma target_ok input x p : tuple_ok f1 f2 x → p ∈ allowed f1 f2 input x → tuple_ok f1 f2 (target f1 f2 x p).
Proof.
  intros (Hv1 & Hv2 & _) [Hns Hp]%list_elem_of_filter. destruct p as [a b]. apply elem_of_product_pairs in Hp; [|done..].
  destruct Hw1 as (_ & Ha1 & _), Hw2 as (_ & Ha2 & _). unfold target. split_and!; simpl; [..|by apply next_state_state].
  - destruct Hp as [a Ha _|b Hb _|a b Ha Hb _]; [by eapply Ha1|done|by eapply Ha1].
  - destruct Hp as [a Ha _|b Hb _|a b Ha Hb _]; [done|by eapply Ha2|by eapply Ha2].
Qed.

Lemma MatchInput_ok impl s1 s2 : impl_ok impl →
  ∃ input, MatchInput impl s1 s2 = (impl, input) ∧ compose_match_type_ impl ≠ (if input : bool then MATCH_OUTPUT else MATCH_INPUT).
Proof.
  intros [_ _ _ Hr1 Hr2 _ _]. unfold MatchInput. destruct (compose_match_type_ impl); try (eexists; by split).
  all: pose proof (ready_priority (M:=M1) _ _ _ s1 (Hr1 ltac:(done))) as P1%Z.eqb_neq;
    pose proof (ready_priority (M:=M2) _ _ _ s2 (Hr2 ltac:(done))) as P2%Z.eqb_neq; rewrite P1, P2;
    eexists; split; [done|by case_match].
Qed.

Lemma Expand_ok impl i x : impl_ok impl → (state_table_ impl).[i] = Some x →
  ∃ impl' input news, Expand impl i = Some (impl', news) ∧ impl_ok impl' ∧ same_frame impl impl' ∧
    added x (product_pairs f1 f2 input (StateId1 x) (StateId2 x)) (state_table_ impl) (state_table_ impl') news.
Proof.
  intros Hi Hx. pose proof (impl_tuple impl i x Hi Hx) as Hok. pose proof Hok as (Hv1 & Hv2 & _).
  unfold Expand, FindEntry. rewrite Hx. cbn [mbind option_bind].
  set (c := filter_SetState _ _ _ _). assert (filter_at c f1 f2 (StateId1 x) (StateId2 x) (GetFilterState x)) as Hat.
  { apply filter_SetState_at; [apply Hi|done|done]. }
  assert (impl_ok (with_filter impl c)) as Hi'. { destruct Hi. split; try done. by eapply filter_at_for. }
  destruct (MatchInput_ok _ (StateId1 x) (StateId2 x) Hi') as (input & -> & Hmt). simpl in Hmt.
  destruct Hi' as [Hf Hs1 Hs2 Hr1 Hr2 Hnd Ht]. simpl in *.
  destruct (add_pairs_ok x (product_pairs f1 f2 input (StateId1 x) (StateId2 x)) (state_table_ impl) [] Hnd) as (table' & news & E & Hadd).
  assert (Forall (tuple_ok f1 f2) table') as Ht'.
  { apply Forall_forall. intros y [Hy|(p & Hp & ->)]%(added_tuples _ _ _ _ _ Hadd); [|by eapply target_ok].
    rewrite Forall_forall in Ht. by apply Ht. }
  destruct input.
  - destruct (OrderedExpand_ok (matcher2_ impl) f2 MATCH_INPUT (StateId2 x) c x (state_table_ impl) f1 (StateId1 x) true Hat (Hr2 Hmt) Hv2)
      as (m2 & Em & Hm2). pose proof Hs1 as (G1 & _ & _). rewrite G1.
    change (foldl _ _ _) with (foldl (add_pair x) (state_table_ impl, []) (product_pairs f1 f2 true (StateId1 x) (StateId2 x))) in Em.
    rewrite E in Em. rewrite Em. cbn [mbind option_bind].
    eexists _, true, news. split; [done|]. split; [|by split]. split; try done; [by eapply ready_serves|apply Hadd].
  - destruct (OrderedExpand_ok (matcher1_ impl) f1 MATCH_OUTPUT (StateId1 x) c x (state_table_ impl) f2 (StateId2 x) false Hat (Hr1 Hmt) Hv1)
      as (m1 & Em & Hm1). pose proof Hs2 as (G2 & _ & _). rewrite G2.
    change (foldl _ _ _) with (foldl (add_pair x) (state_table_ impl, []) (product_pairs f1 f2 false (StateId1 x) (StateId2 x))) in Em.
    rewrite E in Em. rewrite Em. cbn [mbind option_bind].
    eexists _, false, news. split; [done|]. split; [|by split]. split; try done; [by eapply ready_serves|apply Hadd].
Qed.

(** * Expanding all states *)

Definition tuple_triple x : Z * Z * Fs := (StateId1 x, StateId2 x, GetFilterState x).

(** There are as many states as triples at most. *)
Lemma table_bound table : NoDup table → Forall (tuple_ok f1 f2) table →
  (length table ≤ Z.to_nat (NumStates f1) * Z.to_nat (NumStates f2) * filter_state_values)%nat.
Proof.
  intros Hnd Hok. rewrite <-(length_fmap tuple_triple).
  set (all := list_prod (list_prod (seqZ 0 (NumStates f1)) (seqZ 0 (NumStates f2))) filter_states).
  etrans; [apply (submseteq_length _ all)|].
  - apply NoDup_submseteq.
    + apply NoDup_fmap; [|done]. by intros [? ? ?] [? ? ?] [= -> -> ->].
    + intros z (x & -> & Hx)%list_elem_of_fmap. rewrite Forall_forall in Hok. destruct (Hok x Hx) as ([? ?] & [? ?] & Hf).
      apply list_elem_of_In, in_prod; [apply in_prod|]; apply list_elem_of_In; [apply elem_of_seqZ; lia..|done].
  - unfold all. rewrite !length_prod, !length_seqZ. apply Nat.mul_le_mono_l, filter_states_length.
Qed.

(** The states before [s] are expanded, and each state after the first was found
from one of them. *)
Record expanded impl (s : Z) (states : list (W * list (Arc W))) : Prop := {
  expanded_length : zlen states = s;
  expanded_found : s ≤ zlen (state_table_ impl);
  expanded_state : ∀ i x, i < s → (state_table_ impl).[i] = Some x → ∃ arcs input,
    states.[i] = Some (pair_final f1 f2 (StateId1 x) (StateId2 x), arcs) ∧
    Forall2 (composed f1 f2 (state_table_ impl) x) (allowed f1 f2 input x) arcs;
  expanded_reached : ∀ j, 0 < j < zlen (state_table_ impl) → ∃ i st a,
    0 ≤ i < j ∧ states.[i] = Some st ∧ a ∈ st.2 ∧ nextstate a = j;
}.

Lemma expanded_step impl impl' s states x input news : expanded impl s states → (state_table_ impl).[s] = Some x →
  added x (product_pairs f1 f2 input (StateId1 x) (StateId2 x)) (state_table_ impl) (state_table_ impl') news →
  expanded impl' (s + 1) (states ++ [(pair_final f1 f2 (StateId1 x) (StateId2 x), news)]).
Proof.
  intros [El Ef Es Er] Hx [A1 A2 A3 A4 A5]. pose proof (vget_range _ _ _ Hx) as Hs. pose proof (prefix_zlen _ _ A1) as Hle.
  assert ((states ++ [(pair_final f1 f2 (StateId1 x) (StateId2 x), news)]).[s] = Some (pair_final f1 f2 (StateId1 x) (StateId2 x), news)) as Hlast.
  { rewrite vget_app, decide_False by lia. by rewrite El, Z.sub_diag. }
  split.
  - rewrite zlen_app, zlen_cons, zlen_nil. lia.
  - lia.
  - intros i y Hi Hy. destruct (decide (i = s)) as [->|Hne].
    + rewrite (prefix_get _ _ _ _ A1 Hx) in Hy. injection Hy as <-. by exists news, input.
    + assert ((state_table_ impl).[i] = Some y) as Hy'.
      { pose proof (vget_range _ _ _ Hy). destruct (vget_in_range (state_table_ impl) i) as [z Hz]; [lia|].
        rewrite Hz. by rewrite (prefix_get _ _ _ _ A1 Hz) in Hy. }
      destruct (Es i y ltac:(lia) Hy') as (arcs & inp & Hst & Hall). exists arcs, inp. split; [by apply vget_app_l|].
      eapply Forall2_impl; [exact Hall|]. intros p a. by apply composed_prefix.
  - intros j Hj. destruct (decide (j < zlen (state_table_ impl))) as [Hlt|Hge].
    + destruct (Er j) as (i & st & a & Hi & Hst & Ha & E); [lia|]. exists i, st, a. split; [done|]. split; [by apply vget_app_l|done].
    + destruct (A5 j) as (a & Ha & E); [lia|]. eexists s, _, a. split; [lia|]. split; [exact Hlast|done].
Qed.

Lemma expand_states_ok fuel impl s states : impl_ok impl → expanded impl s states → 
  (Z.to_nat (NumStates f1) * Z.to_nat (NumStates f2) * filter_state_values ≤ Z.to_nat s + fuel)%nat →
  ∃ impl' states', expand_states fuel impl s states = Some (impl', states') ∧ impl_ok impl' ∧ same_frame impl impl' ∧
    state_table_ impl `prefix_of` state_table_ impl' ∧ expanded impl' (zlen (state_table_ impl')) states'.
Proof.
  revert impl s states. induction fuel as [|fuel IH]; intros impl s states Hi He Hfuel.
  all: pose proof (table_bound _ (impl_NoDup _ Hi) (impl_tuples _ Hi)) as Hb; pose proof (expanded_found _ _ _ He) as Hle;
    pose proof (zlen_nonneg states) as Hs; rewrite (expanded_length _ _ _ He) in Hs; simpl; destruct (Z.leb_spec (zlen (state_table_ impl)) s) as [Hd|Hd];
    [assert (s = zlen (state_table_ impl)) as -> by lia; exists impl, states; split_and!; done|].
  - unfold zlen in Hd. lia.
  - destruct (vget_in_range (state_table_ impl) s) as [x Hx]; [lia|].
    destruct (ComputeFinal_ok impl s x Hi Hx) as (impl1 & -> & Hi1 & [T1 P1 I1 O1] & Et). cbn [mbind option_bind].
    destruct (Expand_ok impl1 s x Hi1) as (impl2 & input & news & -> & Hi2 & [T2 P2 I2 O2] & Hadd); [by rewrite Et|].
    cbn [mbind option_bind]. rewrite Et in Hadd. pose proof (expanded_step impl impl2 s states x input news He Hx Hadd) as He2.
    destruct (IH impl2 (s + 1) _ Hi2 He2) as (impl' & states' & -> & Hi' & [T3 P3 I3 O3] & Hpre & He'); [lia|].
    exists impl', states'. split; [done|]. split; [done|]. split; [split; congruence|]. split; [|done].
    by etrans; [apply (added_prefix _ _ _ _ _ Hadd)|].
Qed.

(** * The machine that is expanded *)

Context (Hst1 : Start f1 = kNoStateId → NumStates f1 = 0) (Hst2 : Start f2 = kNoStateId → NumStates f2 = 0).

(** Where the product starts: nowhere, if one of the machines has no start. *)
Definition starts_right table g (c : C) : Prop :=
  if decide (Start f1 = kNoStateId ∨ Start f2 = kNoStateId) then table = [] ∧ Start g = kNoStateId
  else Start g = 0 ∧ table.[0] = Some (MkTuple (Start f1) (Start f2) (filter_Start c)).

Lemma ComputeStart_ok impl : impl_ok impl → state_table_ impl = [] →
  ∃ impl' start, ComputeStart impl = (impl', start) ∧ impl_ok impl' ∧ same_frame impl impl' ∧
    filter_ impl' = filter_ impl ∧ expanded impl' 0 [] ∧
    if decide (Start f1 = kNoStateId ∨ Start f2 = kNoStateId) then state_table_ impl' = [] ∧ start = kNoStateId
    else start = 0 ∧ state_table_ impl' = [MkTuple (Start f1) (Start f2) (filter_Start (filter_ impl))].
Proof.
  intros Hi Et. pose proof (impl_serves1 _ Hi) as (G1 & _ & _). pose proof (impl_serves2 _ Hi) as (G2 & _ & _).
  assert (∀ impl', zlen (state_table_ impl') ≤ 1 → expanded impl' 0 []) as He.
  { intros impl' Hl. split; [done|apply zlen_nonneg| |intros j; lia]. intros i x Hi' Hx. apply vget_range in Hx. lia. }
  unfold ComputeStart. rewrite G1, G2.
  destruct (Z.eqb_spec (Start f1) kNoStateId) as [E1|E1]; [|destruct (Z.eqb_spec (Start f2) kNoStateId) as [E2|E2]].
  - exists impl, kNoStateId. split; [done|]. split; [done|]. split; [done|]. split; [done|]. split; [apply He; by rewrite Et|].
    by rewrite decide_True by by left.
  - exists impl, kNoStateId. split; [done|]. split; [done|]. split; [done|]. split; [done|]. split; [apply He; by rewrite Et|].
    by rewrite decide_True by by right.
  - rewrite Et. simpl. eexists _, _. split; [done|]. split; [|split; [done|split; [done|split; [by apply He|by rewrite decide_False by naive_solver]]]].
    destruct Hi. split; try done; simpl.
    + apply NoDup_singleton.
    + constructor; [|done]. destruct Hw1 as (_ & _ & [?|?]), Hw2 as (_ & _ & [?|?]); try done.
      split_and!; [done|done|apply filter_Start_state].
Qed.

Lemma expanded_composes impl states props isyms osyms start : impl_ok impl → expanded impl (zlen (state_table_ impl)) states →
  let g := {| Start := start; NumStates := zlen states; Final := λ s, default Zero (fst <$> states.[s]);
    Arcs := λ s, default [] (snd <$> states.[s]); FstProperties := props; InputSymbols := isyms; OutputSymbols := osyms |} in
  composes f1 f2 (state_table_ impl) g ∧ tight g.
Proof.
  intros Hi [El _ Es Er] g. split.
  - split; simpl.
    + done.
    + apply Hi.
    + intros i x Hx. destruct (Es i x) as (arcs & input & -> & _); [by apply vget_range in Hx as [_ ?]|done|done].
    + intros i x Hx. destruct (Es i x) as (arcs & input & -> & Hall); [by apply vget_range in Hx as [_ ?]|done|]. by exists input.
    + intros j Hj. destruct (Er j Hj) as (i & st & a & Hij & Hst & Ha & E). exists i, a. rewrite Hst. done.
  - intros s Hs. simpl. assert (states.[s] = None) as ->; [|done]. apply vget_None. unfold valid in Hs. simpl in Hs. lia.
Qed.

Lemma expand_empty fuel impl : state_table_ impl = [] → expand_states fuel impl 0 [] = Some (impl, []).
Proof. intros Et. destruct fuel; simpl; by rewrite Et. Qed.

(** With an error nothing is expanded. *)
Lemma ComposeFst_error impl : state_table_ impl = [] → has (Compose_Properties impl) kError = true →
  ∃ g, ComposeFst impl = Some g ∧ NumStates g = 0 ∧ Start g = kNoStateId ∧ tight g ∧ FstProperties g = Compose_Properties impl ∧
    InputSymbols g = compose_isymbols_ impl ∧ OutputSymbols g = compose_osymbols_ impl.
Proof.
  intros Et He. unfold ComposeFst. rewrite He, (expand_empty _ _ Et). eexists. split; [done|]. split_and!; try done. intros s _. simpl. split; by rewrite vget_nil.
Qed.

Lemma ComposeFst_ok impl : impl_ok impl → state_table_ impl = [] → has (Compose_Properties impl) kError = false →
  ∃ g table, ComposeFst impl = Some g ∧ composes f1 f2 table g ∧ starts_right table g (filter_ impl) ∧ tight g ∧
    FstProperties g = Compose_Properties impl ∧
    InputSymbols g = compose_isymbols_ impl ∧ OutputSymbols g = compose_osymbols_ impl.
Proof.
  intros Hi Et He. unfold ComposeFst. rewrite He.
  destruct (ComputeStart_ok impl Hi Et) as (impl1 & start & -> & Hi1 & [T1 P1 I1 O1] & Ef & He1 & Hstart).
  pose proof (impl_serves1 _ Hi1) as (G1 & _ & _). pose proof (impl_serves2 _ Hi1) as (G2 & _ & _). rewrite G1, G2.
  destruct (expand_states_ok (Z.to_nat (NumStates f1) * Z.to_nat (NumStates f2) * filter_state_values) impl1 0 [] Hi1 He1)
    as (impl2 & states & Ex & Hi2 & [T2 P2 I2 O2] & Hpre & He2); [lia|]. rewrite Ex. cbn [mbind option_bind].
  eexists _, (state_table_ impl2). split; [done|]. simpl.
  destruct (expanded_composes impl2 states (Compose_Properties impl2) (compose_isymbols_ impl2) (compose_osymbols_ impl2) start Hi2 He2) as [Hg Ht].
  split; [exact Hg|]. split; [|split; [exact Ht|]].
  - unfold starts_right. case_decide as Hno.
    + destruct Hstart as [E ->]. split; [|done]. rewrite (expand_empty _ _ E) in Ex. by injection Ex as <- <-.
    + destruct Hstart as [-> E]. split; [done|]. eapply prefix_get; [exact Hpre|]. by rewrite E.
  - split_and!; [|congruence..]. unfold Compose_Properties.
    pose proof (impl_serves1 _ Hi) as (G1' & Q1' & _). pose proof (impl_serves2 _ Hi) as (G2' & Q2' & _).
    pose proof (impl_serves1 _ Hi2) as (G1'' & Q1'' & _). pose proof (impl_serves2 _ Hi2) as (G2'' & Q2'' & _).
    rewrite G1', G2', Q1', Q2', G1'', G2'', Q1'', Q2''.
    rewrite !(filter_Properties_for _ f1 f2) by apply Hi || apply Hi2. by rewrite P2, P1.
Qed.

(** ** What it accepts *)

Definition composition_language (u z : list Z) (w : W) : Prop :=
  ∃ v w1 w2, accepts f1 u v w1 ∧ accepts f2 v z w2 ∧ w ≡ Times w1 w2.

Lemma no_start_accepts f u v w : Start f = kNoStateId → ¬ accepts f u v w.
Proof. intros E (p & t & Hp & _). rewrite E in Hp. apply path_valid_l in Hp as [? _]. unfold kNoStateId in *. lia. Qed.

Lemma product_language `{!CommutativeWeight W, !NoZeroDivisors W} table g c :
  member_weights f1 → member_weights f2 → composes f1 f2 table g → starts_right table g c →
  ∀ u z w, accepts g u z w ↔ composition_language u z w.
Proof.
  intros Hm1 Hm2 Hg Hs u z w. unfold starts_right in Hs. case_decide as Hno.
  - destruct Hs as [_ E]. split; [by intros ?%no_start_accepts|]. intros (v & w1 & w2 & Ha1 & Ha2 & _).
    by destruct Hno as [En|En]; [destruct (no_start_accepts f1 u v w1 En)|destruct (no_start_accepts f2 v z w2 En)].
  - destruct Hs as [E Hx]. unfold accepts. rewrite E. eapply product_accepts; [done..|exact Hx|]. intros p1 p2. apply room_start.
Qed.

Lemma product_wf table g c : composes f1 f2 table g → starts_right table g c → WellFormed g.
Proof.
  intros Hg Hs. split_and!.
  - rewrite (comp_states _ _ _ _ Hg). apply zlen_nonneg.
  - intros i a [x Hx]%(product_valid _ _ _ _ Hg) Ha. destruct (product_arc _ _ _ _ Hg Hc12 i x a Hx Ha) as (p & _ & [_ _ _ Ht] & _).
    apply (product_valid _ _ _ _ Hg). by eexists.
  - unfold starts_right in Hs. case_decide; [by left; apply Hs|]. destruct Hs as [E Hx]. right. rewrite E.
    apply (product_valid _ _ _ _ Hg). by eexists.
Qed.

Lemma starts_right_bits table g c : starts_right table g c → table = [] ∧ Start g = kNoStateId ∨
  Start g = 0 ∧ ∃ fs, table.[0] = Some (MkTuple (Start f1) (Start f2) fs).
Proof. unfold starts_right. case_decide; [by left|]. intros [? ?]. right. split; [done|]. by eexists. Qed.

(** * Making the machine *)

Context (Hs1 : SoundFst f1) (Hs2 : SoundFst f2).

Lemma SetMatchType_ok (m1 : M1) (m2 : M2) : fresh m1 f1 MATCH_OUTPUT → fresh m2 f2 MATCH_INPUT →
  ∃ t, SetMatchType m1 m2 = Some t ∧
    (t ≠ MATCH_NONE → (t ≠ MATCH_INPUT → ready m1 f1 MATCH_OUTPUT) ∧ (t ≠ MATCH_OUTPUT → ready m2 f2 MATCH_INPUT)) ∧
    (t = MATCH_NONE ↔ ¬ capable (M:=M1) f1 MATCH_OUTPUT ∧ ¬ capable (M:=M2) f2 MATCH_INPUT).
Proof.
  intros Hf1 Hf2. destruct (fresh_fst _ _ _ Hf1) as (_ & Fl1 & _), (fresh_fst _ _ _ Hf2) as (_ & Fl2 & _).
  unfold SetMatchType. rewrite Fl1, Fl2. cbn [mbind option_bind].
  change (has 0 kRequireMatch) with false. cbn [mbind option_bind].
  destruct (Type_fresh m1 f1 MATCH_OUTPUT false Hf1 Hw1 Hs1 Hst1) as (t1 & -> & R1 & N1 & _).
  destruct (Type_fresh m2 f2 MATCH_INPUT false Hf2 Hw2 Hs2 Hst2) as (t2 & -> & R2 & N2 & _).
  destruct (Type_fresh m1 f1 MATCH_OUTPUT true Hf1 Hw1 Hs1 Hst1) as (t1' & -> & R1' & N1' & O1).
  destruct (Type_fresh m2 f2 MATCH_INPUT true Hf2 Hw2 Hs2 Hst2) as (t2' & -> & R2' & N2' & O2).
  cbn [mbind option_bind].
  case_decide as D1; [exists MATCH_BOTH; naive_solver|].
  case_decide as D2; [exists MATCH_OUTPUT; naive_solver|].
  case_decide as D3; [exists MATCH_INPUT; naive_solver|].
  case_decide as D4; [exists MATCH_OUTPUT; naive_solver|]. cbn [mbind option_bind].
  case_decide as D5; [exists MATCH_INPUT; naive_solver|].
  exists MATCH_NONE. split; [done|]. split; [done|]. split; [|done]. intros _.
  destruct O1 as [?|[?|[_ ?]]]; [done| |done]. destruct O2 as [?|[?|[_ ?]]]; [done| |done]. auto.
Qed.

(** What composition refuses: machines with an error, symbol tables that differ,
no side that can be matched, weights whose product depends on the order. *)
Definition refused (compat : bool) (weight_properties : Z) (allow_noncommute : bool) : Prop :=
  has (FstProperties f1) kError = true ∨ has (FstProperties f2) kError = true ∨
  CompatSymbols compat (InputSymbols f2) (OutputSymbols f1) = false ∨
  ¬ capable (M:=M1) f1 MATCH_OUTPUT ∧ ¬ capable (M:=M2) f2 MATCH_INPUT ∨
  has weight_properties kCommutative = false ∧ allow_noncommute = false ∧ Holds f1 Weighted ∧ Holds f2 Weighted.

Lemma unweighted_test verify f known : WellFormed f → (Start f = kNoStateId → NumStates f = 0) → SoundFst f → known_states f known →
  ∃ props, AnyFst_Properties verify f known kUnweighted true = Some props ∧ (has props kUnweighted = false ↔ Holds f Weighted).
Proof.
  intros Hwf Hst Hs Hk. unfold AnyFst_Properties.
  destruct (test_ok verify f known kUnweighted Hwf Hst Hk Hs) as (props & -> & _ & Hans & _). cbn [mbind option_bind].
  eexists. split; [done|]. destruct (Hans Weighted) as [Hp Hn]; [by right|]. rewrite (has_bit _ _ 33) by done.
  cbn [fst]. rewrite Z.land_spec. change (Z.testbit kUnweighted 33) with true. rewrite andb_true_r. change (neg_bit Weighted) with 33 in Hn.
  revert Hp Hn. generalize (Holds f Weighted). intros P. assert (false = true → False) by done. assert (true = false → False) by done.
  assert (true = true) by done. assert (false = false) by done.
  destruct (Z.testbit props (pos_bit Weighted)), (Z.testbit props 33); tauto.
Qed.

Lemma ComposeFstImpl_new_ok compat (c : C) (m1 : M1) (m2 : M2) :
  fresh m1 f1 MATCH_OUTPUT → fresh m2 f2 MATCH_INPUT → filter_for c f1 f2 →
  ∃ t, SetMatchType m1 m2 = Some t ∧ 
    ComposeFstImpl_new compat f1 f2 c m1 m2 = Some (MkCompose c m1 m2 [] t
      (new_bits (negb (CompatSymbols compat (InputSymbols f2) (OutputSymbols f1)) || bool_decide (t = MATCH_NONE))
        (ComposeProperties (FstProperties f1 &&& kFstProperties) (FstProperties f2 &&& kFstProperties)))
      (InputSymbols f1) (OutputSymbols f2)).
Proof.
  intros Hf1 Hf2 Hc. destruct (SetMatchType_ok m1 m2 Hf1 Hf2) as (t & Et & _). exists t. split; [done|].
  unfold ComposeFstImpl_new. rewrite Et. cbn [mbind option_bind].
  destruct (fresh_fst _ _ _ Hf1) as (-> & _ & Q1 & _), (fresh_fst _ _ _ Hf2) as (-> & _ & Q2 & _).
  rewrite Q1, Q2, (filter_Properties_for _ f1 f2) by done. do 2 f_equal. unfold new_bits. do 2 f_equal.
  destruct (CompatSymbols compat (InputSymbols f2) (OutputSymbols f1)); by case_decide as D; case_bool_decide.
Qed.

Lemma or_shuffle (P1 P2 P3 P4 P5 Q : Prop) : (P3 ↔ Q) → ((P1 ∨ P2) ∨ P3) ∨ P4 ∨ P5 ↔ P1 ∨ P2 ∨ P4 ∨ P5 ∨ Q.
Proof. tauto. Qed.

Lemma and_shuffle (P1 P2 P3 P4 : Prop) : (P1 ∧ P2) ∧ P3 ∧ P4 ↔ P1 ∧ P2 ∧ P3 ∧ P4.
Proof. tauto. Qed.

(** The machine is made; it has the error bit exactly if it is refused. *)
Lemma CreateBase2_ok compat verify known1 known2 weight_properties allow_noncommute (c : C) (m1 : M1) (m2 : M2) :
  fresh m1 f1 MATCH_OUTPUT → fresh m2 f2 MATCH_INPUT → filter_for c f1 f2 → known_states f1 known1 → known_states f2 known2 →
  ∃ impl, CreateBase2 compat verify known1 known2 weight_properties allow_noncommute f1 f2 c m1 m2 = Some impl ∧
    state_table_ impl = [] ∧ filter_ impl = c ∧
    compose_isymbols_ impl = InputSymbols f1 ∧ compose_osymbols_ impl = OutputSymbols f2 ∧
    (∀ g, Sound (ComposeProperties (FstProperties f1 &&& kFstProperties) (FstProperties f2 &&& kFstProperties)) g →
      Sound (Compose_Properties impl) g) ∧
    (has (Compose_Properties impl) kError = true ↔ refused compat weight_properties allow_noncommute) ∧
    (has (Compose_Properties impl) kError = false → impl_ok impl).
Proof.
  intros Hf1 Hf2 Hc Hk1 Hk2. destruct (ComposeFstImpl_new_ok compat c m1 m2 Hf1 Hf2 Hc) as (t & Et & En).
  destruct (SetMatchType_ok m1 m2 Hf1 Hf2) as (t' & Et' & Hready & Hnone). assert (t' = t) as -> by congruence.
  destruct (fresh_fst _ _ _ Hf1) as (G1 & _ & Q1 & F1), (fresh_fst _ _ _ Hf2) as (G2 & _ & Q2 & F2).
  unfold CreateBase2. rewrite En. cbn [mbind option_bind]. clear En Et'.
  set (bits := new_bits _ _). set (impl0 := MkCompose c m1 m2 [] t bits (InputSymbols f1) (OutputSymbols f2)).
  destruct (unweighted_test verify f1 known1 Hw1 Hst1 Hs1 Hk1) as (p1 & -> & U1).
  destruct (unweighted_test verify f2 known2 Hw2 Hst2 Hs2 Hk2) as (p2 & -> & U2). cbn [mbind option_bind].
  set (noncommute := negb (has weight_properties kCommutative) && negb allow_noncommute && (negb (has p1 kUnweighted) && negb (has p2 kUnweighted))).
  assert (∀ A (a b : A), (if negb (has weight_properties kCommutative) && negb allow_noncommute then
    (if negb (has p1 kUnweighted) && negb (has p2 kUnweighted) then a else b) else b) = if noncommute then a else b) as Eif.
  { intros A a b. unfold noncommute. by destruct (negb (has weight_properties kCommutative) && negb allow_noncommute). }
  rewrite Eif. clear Eif.
  set (impl := MkCompose c m1 m2 [] t (if noncommute then bits ||| kError else bits) (InputSymbols f1) (OutputSymbols f2) : ComposeFstImpl Fs C M1 M2).
  exists impl. split; [by destruct noncommute|]. split; [done|]. split; [done|]. split; [done|]. split; [done|].
  assert (Compose_Properties impl = if has (FstProperties f1) kError || has (FstProperties f2) kError
    then (if noncommute then bits ||| kError else bits) ||| kError else (if noncommute then bits ||| kError else bits)) as EP.
  { unfold Compose_Properties, impl; simpl. rewrite G1, G2, Q1, Q2, (filter_Properties_for _ f1 f2) by done. change (has 0 kError) with false.
    by rewrite !orb_false_r. }
  assert (has (Compose_Properties impl) kError = (has (FstProperties f1) kError || has (FstProperties f2) kError) || noncommute ||
    (negb (CompatSymbols compat (InputSymbols f2) (OutputSymbols f1)) || bool_decide (t = MATCH_NONE))) as EE.
  { rewrite EP. destruct (has (FstProperties f1) kError || has (FstProperties f2) kError) eqn:E12; [by rewrite or_error|].
    destruct noncommute; [by rewrite or_error|]. unfold bits. rewrite new_bits_error, ComposeProperties_error, !fst_error.
    apply orb_false_iff in E12 as [-> ->]. by rewrite !orb_false_r. }
  split; [|split].
  - intros g Hg. rewrite EP. assert (Sound bits g) as Hb by by apply new_bits_sound.
    destruct (has (FstProperties f1) kError || has (FstProperties f2) kError), noncommute;
      [exact (or_error_sound _ _ (or_error_sound _ _ Hb))|exact (or_error_sound _ _ Hb)..|exact Hb].
  - rewrite EE. unfold refused. rewrite !orb_true_iff, bool_decide_eq_true, negb_true_iff, Hnone. apply or_shuffle.
    unfold noncommute. rewrite !andb_true_iff, !negb_true_iff, U1, U2. apply and_shuffle.
  - rewrite EE. intros [[_ _]%orb_false_iff [_ H2]%orb_false_iff]%orb_false_iff.
    apply bool_decide_eq_false in H2. destruct (Hready H2) as [R1 R2].
    split; simpl; try done; try constructor; done.
Qed.
End expansion.

(** * The property *)

Section machines.
Context `{TM : TimesMonoid W} (compat verify : bool) (known1 known2 : option Z) (weight_properties : Z).
Implicit Types (y : VectorFst W).

(** What [Compose] refuses, with sorted matchers. *)
Definition refuses (f1 f2 : Fst W) : Prop :=
  has (FstProperties f1) kError = true ∨ has (FstProperties f2) kError = true ∨
  CompatSymbols compat (InputSymbols f2) (OutputSymbols f1) = false ∨
  ¬ Holds f1 OLabelSorted ∧ ¬ Holds f2 ILabelSorted ∨
  has weight_properties kCommutative = false ∧ Holds f1 Weighted ∧ Holds f2 Weighted.

(** What a composition is before and after it is trimmed. *)
Record composed_machine (f1 f2 : Fst W) y : Prop := {
  cm_inv : minv y;
  cm_wf : WellFormed (view y);
  cm_sound : SoundFst (view y);
  cm_start : Start (view y) = kNoStateId → NumStates (view y) = 0;
  cm_isymbols : InputSymbols (view y) = InputSymbols f1;
  cm_osymbols : OutputSymbols (view y) = OutputSymbols f2;
  cm_refused : refuses f1 f2 → NumStates (view y) = 0 ∧ has (FstProperties (view y)) kError = true;
  cm_language : ¬ refuses f1 f2 → ∀ u z w, accepts (view y) u z w ↔ composition_language f1 f2 u z w;
}.

Section pair.
Context `{!CommutativeWeight W, !NoZeroDivisors W} (f1 f2 : Fst W).
Context (Hw1 : WellFormed f1) (Hw2 : WellFormed f2) (Hs1 : SoundFst f1) (Hs2 : SoundFst f2).
Context (Hst1 : Start f1 = kNoStateId → NumStates f1 = 0) (Hst2 : Start f2 = kNoStateId → NumStates f2 = 0).
Context (Hk1 : known_states f1 known1) (Hk2 : known_states f2 known2).
Context (Hm1 : member_weights f1) (Hm2 : member_weights f2) (Hc : consuming f1 f2).

(** A copy of a delayed machine has its symbol tables and its error bit. *)
Lemma copied g : 0 ≤ NumStates g → tight g → SoundFst g → ∃ y, VectorFst_copy g = Some y ∧ minv y ∧ view y ≡ g ∧
  SoundFst (view y) ∧ InputSymbols (view y) = InputSymbols g ∧ OutputSymbols (view y) = OutputSymbols g ∧
  has (FstProperties (view y)) kError = has (FstProperties g) kError.
Proof.
  intros Hn Ht Hs. eexists. split; [apply VectorFst_copy_eq|]. pose proof (copy_view g _ Hn Ht (VectorFst_copy_eq g)) as Hv.
  split; [by apply (copy_counters g), VectorFst_copy_eq|]. split; [done|]. split; [by eapply Sound_copy|].
  split; [done|]. split; [done|]. rewrite !error_bit.
  change (Z.testbit (FstProperties g &&& kCopyProperties ||| kStaticProperties) 2 = Z.testbit (FstProperties g) 2). by bits.
Qed.

Lemma empty_composes `{FilterState Fs} `{!ComposeFilter W Fs C} `{!ComposeFilterLaws (Fs:=Fs) (C:=C)} g :
  NumStates g = 0 → composes f1 f2 ([] : list (StateTuple Fs)) g.
Proof.
  intros Hn. split; [done|constructor|..].
  - intros i x Hx. by rewrite vget_nil in Hx.
  - intros i x Hx. by rewrite vget_nil in Hx.
  - intros j Hj. unfold zlen in Hj. simpl in Hj. lia.
Qed.

Lemma compose_with_ok `{FilterState Fs} `{!ComposeFilter W Fs C} `{!ComposeFilterLaws (Fs:=Fs) (C:=C)} (c : C) :
  filter_for c f1 f2 →
  ∃ y, compose_with compat verify known1 known2 weight_properties f1 f2 c = Some y ∧ composed_machine f1 f2 y.
Proof.
  intros Hf. unfold compose_with.
  set (m1 := SortedMatcher_new f1 MATCH_OUTPUT 1). set (m2 := SortedMatcher_new f2 MATCH_INPUT 1).
  assert (fresh (Matcher0:=sorted_matcher verify known1) (MatcherLaws:=sorted_matcher_laws verify known1) m1 f1 MATCH_OUTPUT) as Hf1.
  { exact (conj (or_intror eq_refl) (conj Hk1 (ex_intro _ 1 eq_refl))). }
  assert (fresh (Matcher0:=sorted_matcher verify known2) (MatcherLaws:=sorted_matcher_laws verify known2) m2 f2 MATCH_INPUT) as Hf2.
  { exact (conj (or_introl eq_refl) (conj Hk2 (ex_intro _ 1 eq_refl))). }
  edestruct (CreateBase2_ok (Matcher0:=sorted_matcher verify known1) (MatcherLaws0:=sorted_matcher_laws verify known1)
    (Matcher1:=sorted_matcher verify known2) (MatcherLaws1:=sorted_matcher_laws verify known2) f1 f2)
    with (compat:=compat) (verify:=verify) (weight_properties:=weight_properties) (allow_noncommute:=false)
    as (impl & Ei & Et & Ef & Eis & Eos & Hsound & Herr & Hok); [done..|exact Hf1|exact Hf2|exact Hf|exact Hk1|exact Hk2|].
  rewrite Ei. cbn [mbind option_bind]. clear Ei.
  set (P := Compose_Properties (Matcher0:=sorted_matcher verify known1) (Matcher1:=sorted_matcher verify known2) impl) in *.
  assert (has P kError = true ↔ refuses f1 f2) as Hrefuses.
  { rewrite Herr. unfold refused, refuses. split.
    - intros [?|[?|[?|[?|(? & _ & ?)]]]]; [by left|by right; left|by right; right; left|by right; right; right; left|by right; right; right; right].
    - intros [?|[?|[?|[?|(? & ?)]]]]; [by left|by right; left|by right; right; left|by right; right; right; left|by right; right; right; right]. }
  assert (∀ (g : Fst W) (table : list (StateTuple Fs)), composes f1 f2 table g → (table = [] ∧ Start g = kNoStateId ∨
    Start g = 0 ∧ ∃ fs, table.[0] = Some (MkTuple (Start f1) (Start f2) fs)) → FstProperties g = P → SoundFst g) as Hbits.
  { intros g table Hg Hstart Ep. unfold SoundFst. rewrite Ep. apply Hsound.
    eapply (ComposeProperties_sound f1 f2 table g Hg Hc Hstart); by apply fst_bits_sound. }
  destruct (has P kError) eqn:E.
  - destruct (ComposeFst_error impl Et E) as (g & Eg & Hn & Hs & Ht & Ep & Eis' & Eos'). rewrite Eg. cbn [mbind option_bind].
    destruct (copied g) as (y & Ey & Hi & Hv & Hsy & Hiy & Hoy & Hey); [lia|done| |].
    { apply (Hbits g []); [by apply empty_composes|by left|done]. }
    exists y. split; [exact Ey|]. split; try done.
    + rewrite Hv. split_and!; [lia| |by left]. intros s a [? ?]. lia.
    + destruct Hv as (-> & -> & _). by rewrite Hn.
    + by rewrite Hiy, Eis'.
    + by rewrite Hoy, Eos'.
    + intros _. rewrite Hey, Ep. split; [|done]. by destruct Hv as (_ & -> & _).
    + intros Hno. by destruct Hno; apply Hrefuses.
  - destruct (ComposeFst_ok f1 f2 Hc Hw1 Hw2 impl (Hok eq_refl) Et E) as (g & table & Eg & Hg & Hstart & Ht & Ep & Eis' & Eos').
    rewrite Eg. cbn [mbind option_bind]. pose proof (product_wf f1 f2 Hc table g _ Hg Hstart) as Hwf.
    destruct (copied g) as (y & Ey & Hi & Hv & Hsy & Hiy & Hoy & Hey); [apply Hwf|done| |].
    { apply (Hbits g table Hg); [by eapply starts_right_bits|done]. }
    exists y. split; [exact Ey|]. split; try done.
    + by rewrite Hv.
    + destruct Hv as (-> & -> & _). rewrite (comp_states _ _ _ _ Hg). unfold starts_right in Hstart.
      case_decide; [by destruct Hstart as [-> _]|]. destruct Hstart as [-> _]. done.
    + by rewrite Hiy, Eis'.
    + by rewrite Hoy, Eos'.
    + intros Hr. by apply Hrefuses in Hr.
    + intros _ u z w. rewrite Hv. by eapply product_language.
Qed.

(** Sorted matchers do not look ahead. *)
Lemma compose_auto_eq : compose_auto compat verify known1 known2 weight_properties f1 f2 =
  compose_with compat verify known1 known2 weight_properties f1 f2 (SequenceFilter_new f1).
Proof.
  unfold compose_auto, LookAheadMatchType.
  destruct (Type_sorted verify known1 (SortedMatcher_new f1 MATCH_OUTPUT 1) f1 MATCH_OUTPUT false) as (t1 & E1 & _); [|done..|].
  { exact (conj (or_intror eq_refl) (conj Hk1 (ex_intro _ 1 eq_refl))). }
  destruct (Type_sorted verify known2 (SortedMatcher_new f2 MATCH_INPUT 1) f2 MATCH_INPUT false) as (t2 & E2 & _); [|done..|].
  { exact (conj (or_introl eq_refl) (conj Hk2 (ex_intro _ 1 eq_refl))). }
  cbn [Type_ Flags sorted_matcher]. rewrite E1, E2. cbn [mbind option_bind].
  change (has 0 kOutputLookAheadMatcher) with false. change (has 0 kInputLookAheadMatcher) with false. by rewrite !andb_false_r.
Qed.

Lemma connected y : composed_machine f1 f2 y →
  ∃ y', Connect y = Some y' ∧ composed_machine f1 f2 y' ∧ Holds (view y') Accessible ∧ Holds (view y') CoAccessible.
Proof.
  intros [Hi Hwf Hs Hst Hiy Hoy Hr Hl].
  destruct (Connect_holds y Hi Hwf Hs Hst) as (y' & kept & Hy & [Ii Iw Is Ie Il] & _ & Hk & Hv & Ei & Eo & Ha & Hca & _).
  exists y'. split; [done|]. split; [|done]. split; try done.
  - intros E. destruct Iw as (Hn & _). destruct (decide (NumStates (view y') = 0)) as [|Hne]; [done|].
    assert (rtc (edge (view y')) (Start (view y')) 0) as Hrtc by (apply Ha; unfold valid; lia).
    exfalso. rewrite E in Hrtc. inversion Hrtc as [|? ? ? [[? _] _]]; subst; unfold kNoStateId in *; lia.
  - by rewrite Ei.
  - by rewrite Eo.
  - intros Hno. destruct (Hr Hno) as [En Ee]. split; [|by apply Ie]. destruct Hv as (_ & -> & _). simpl.
    destruct kept as [|s kept]; [done|]. destruct (proj1 (Hk s)) as [_ Hc']; [by left|].
    apply coaccessible_valid in Hc' as [? ?]. lia.
  - intros Hno u z w. rewrite Il. by apply Hl.
Qed.

(** C40: Composition.  Take two well-formed machines with true bits and members
as weights, that have a start state if they have states and read no [kNoLabel]
where they meet.  With any filter but the null filter [Compose] ends: every
state is expanded once and no access is out of range.  Where [FSTERROR] does not end the
program, it refuses machines with an error, symbol
tables that do not match, two sides that are not sorted, and weights that do not
commute if both machines have some; then the result has no states and the error
bit.  Otherwise the result maps [u] to [z] with the weights [Times w1 w2] of the
ways through some [v]: [u] to [v] in the first machine, [v] to [z] in the second.
In both cases its bits are true and its symbol tables are the outer ones.  With
[connect] it is trim. *)
Theorem Compose_correct opts : filter_type opts ≠ NULL_FILTER →
  ∃ y, Compose compat verify known1 known2 weight_properties f1 f2 opts = Some y ∧
    minv y ∧ WellFormed (view y) ∧ SoundFst (view y) ∧
    InputSymbols (view y) = InputSymbols f1 ∧ OutputSymbols (view y) = OutputSymbols f2 ∧
    (refuses f1 f2 → NumStates (view y) = 0 ∧ has (FstProperties (view y)) kError = true) ∧
    (¬ refuses f1 f2 → ∀ u z w, accepts (view y) u z w ↔
      ∃ v w1 w2, accepts f1 u v w1 ∧ accepts f2 v z w2 ∧ w ≡ Times w1 w2) ∧
    (connect opts = true → Holds (view y) Accessible ∧ Holds (view y) CoAccessible).
Proof.
  intros Hnull. unfold Compose. rewrite compose_auto_eq.
  assert (∃ x, match filter_type opts with
    | AUTO_FILTER | SEQUENCE_FILTER => compose_with compat verify known1 known2 weight_properties f1 f2 (SequenceFilter_new f1)
    | NULL_FILTER => compose_with compat verify known1 known2 weight_properties f1 f2 MkNull
    | TRIVIAL_FILTER => compose_with compat verify known1 known2 weight_properties f1 f2 MkTrivialFilter
    | ALT_SEQUENCE_FILTER => compose_with compat verify known1 known2 weight_properties f1 f2 (AltSequenceFilter_new f2)
    | MATCH_FILTER => compose_with compat verify known1 known2 weight_properties f1 f2 (MatchFilter_new f1 f2)
    | NO_MATCH_FILTER => compose_with compat verify known1 known2 weight_properties f1 f2 MkNoMatch
    end = Some x ∧ composed_machine f1 f2 x) as (x & Ex & Hx).
  { destruct (filter_type opts); try done; apply compose_with_ok; try done; by (split; [done|]; try split; try done; left). }
  assert (∃ y, (if connect opts then Connect x else Some x) = Some y ∧ composed_machine f1 f2 y ∧
    (connect opts = true → Holds (view y) Accessible ∧ Holds (view y) CoAccessible)) as (y & Ey & [Hi Hwf Hs Hst Hiy Hoy Hr Hl] & Hcon).
  { destruct (connect opts); [|by exists x]. destruct (connected x Hx) as (y & ? & ? & ? & ?). by exists y. }
  exists y. split; [|done]. destruct (filter_type opts); rewrite Ex; exact Ey.
Qed.
End pair.
End machines.

(** ** An instance *)

Section witness.
Local Notation M := MinMaxWeight.

Lemma chain_wf (a b : Arc M) : nextstate a = 1 → nextstate b = 2 → WellFormed (chain a b).
Proof. intros Ha Hb. apply well_formedb_spec. unfold well_formedb, all_arcsb, validb. simpl. by rewrite Ha, Hb. Qed.

Lemma chain_members (a b : Arc M) : Member (weight a) = true → Member (weight b) = true → member_weights (chain a b).
Proof. intros Ha Hb. apply member_weightsb_spec. unfold member_weightsb, all_arcsb. simpl in *. by rewrite Ha, Hb. Qed.

Lemma chain_sound (a b : Arc M) : SoundFst (chain a b).
Proof. intros t. by destruct t. Qed.

Definition composition_of_chains (connect : bool) (type : ComposeFilterType) : option (VectorFst M) :=
  Compose true false (Some 3) (Some 3) (kSemiring ||| kCommutative) chain_fst1 chain_fst2 (MkComposeOptions connect type).

Lemma Compose_correct_witness :
  ∃ y, composition_of_chains true AUTO_FILTER = Some y ∧
    minv y ∧ WellFormed (view y) ∧ SoundFst (view y) ∧
    InputSymbols (view y) = None ∧ OutputSymbols (view y) = None ∧
    (refuses true (kSemiring ||| kCommutative) chain_fst1 chain_fst2 → NumStates (view y) = 0 ∧ has (FstProperties (view y)) kError = true) ∧
    (¬ refuses true (kSemiring ||| kCommutative) chain_fst1 chain_fst2 → ∀ u z w, accepts (view y) u z w ↔
      ∃ v w1 w2, accepts chain_fst1 u v w1 ∧ accepts chain_fst2 v z w2 ∧ w ≡ Times w1 w2) ∧
    (true = true → Holds (view y) Accessible ∧ Holds (view y) CoAccessible).
Proof.
  apply (Compose_correct true false (Some 3) (Some 3) (kSemiring ||| kCommutative) chain_fst1 chain_fst2); try done;
    first [by apply chain_wf|apply chain_sound|by left|by apply chain_members|apply chains_consuming].
Defined.

(** Each filter goes its own way through the two epsilons. *)
Example composition_states : (λ type, (λ y, NumStates (view y)) <$> composition_of_chains false type) <$>
  [AUTO_FILTER; ALT_SEQUENCE_FILTER; MATCH_FILTER; NO_MATCH_FILTER; TRIVIAL_FILTER; NULL_FILTER] =
  [Some 4; Some 4; Some 3; Some 5; Some 5; Some 3].
Proof. by vm_compute. Qed.

Example composition_arcs :
  (λ y, Arcs (view y) <$> seqZ 0 (NumStates (view y))) <$> composition_of_chains true MATCH_FILTER =
  Some [[MkArc 1 6 One 1]; [MkArc 2 7 One 2]; []].
Proof. by vm_compute. Qed.

(** With two arcs out of order on both sides there is nothing to match by. *)
Example composition_unsorted :
  let two := {| Start := 0; NumStates := 1; Final := λ _, One; Arcs := λ s, if s =? 0 then [MkArc 2 2 One 0; MkArc 1 1 One 0] else [];
    FstProperties := kExpanded; InputSymbols := None; OutputSymbols := None |} : Fst M in
  (λ y, (NumStates (view y), has (FstProperties (view y)) kError)) <$>
    Compose true false (Some 1) (Some 1) kCommutative two two (MkComposeOptions true AUTO_FILTER) = Some (0, true).
Proof. by vm_compute. Qed.
End witness.
