(* ===== verification/Minimize.v ===== *)
(** Minimization of unweighted acceptors (openfst/lib/minimize.h): Hopcroft's partition
refinement, driven by the arcs of the reversed machine, the refinement by height for
acyclic machines, the merging of the states of a class, and [AcceptorMinimize], which
chooses between the two.  Examples show what happens on machines that are not
deterministic, and on machines whose arcs are not sorted. *)
From stdpp Require Import gmap.
From S2P Require Import Prelude Weight FloatWeight Properties SymbolTable Fst VectorFst Mutation VectorSound.
From S2P Require Import MutableFst Rational RationalSpec Dfs ArcMap StateMap ArcSort Connect TestProperties Queue Reverse Partition.
Local Open Scope Z_scope.

(** * Hash values of weights *)

(* weight.h:73-73 Hash *)
Class HashWeight (W : Type) := Hash : W → Z.

(** The bytes of a binary floating-point number as an unsigned integer; which of the
NaNs a NaN is, is not in the model. *)

(* float-weight.h:129-138 Hash *)
Definition FloatHash (prec emax : Z) (x : spec_float) : Z :=
  let mantissa_bits := prec - 1 in
  let exponent_bits := Z.log2 emax + 1 in
  let sign (s : bool) := if s then Z.shiftl 1 (mantissa_bits + exponent_bits) else 0 in
  let exponent e := Z.shiftl e mantissa_bits in
  match x with
  | S754_zero s => sign s
  | S754_infinity s => sign s ||| exponent (2 ^ exponent_bits - 1)
  | S754_nan => exponent (2 ^ exponent_bits - 1) ||| Z.shiftl 1 (mantissa_bits - 1)
  | S754_finite s m e =>
      let m := Z.pos m in
      if m <? Z.shiftl 1 mantissa_bits then sign s ||| m
      else sign s ||| exponent (e + emax + prec - 2) ||| (m - Z.shiftl 1 mantissa_bits)
  end.

#[export] Instance tropical_hash {prec emax} : HashWeight (TropicalWeightTpl prec emax) :=
  λ w, FloatHash prec emax (tropical_value w).
#[export] Instance minmax_hash {prec emax} : HashWeight (MinMaxWeightTpl prec emax) :=
  λ w, FloatHash prec emax (minmax_value w).

Example hash_numbers :
  FloatHash 24 128 <$> [binary_normalize 24 128 1 0 false; binary_normalize 24 128 5 (-1) false; binary_normalize 24 128 (-3) (-148) false;
    PosInfinity; NegInfinity; S754_zero true] =
  [0x3f800000; 0x40200000; 0x80000006; 0x7f800000; 0xff800000; 0x80000000].
Proof. by vm_compute. Qed.

(** * Cyclic machines *)

Section cyclic.
Context `{WeightOps W} `{WeightOps R} `{!ReverseWeight W R} {Q} `{!StateQueue W Q}.
Implicit Types (f : Fst W) (P : Partition) (L : Q) (Tr : VectorFst R).

(** [std::priority_queue]: what [top] returns among equivalent elements is not
specified, so that taking the top off is a parameter. *)
Context (take_top : ∀ A, (A → A → bool) → list A → option (A * list A)).
(** The largest state number, and what sorting arcs needs. *)
Context (max_state : Z).

(** A label is an [int], the variables of the hash function are [size_t]s. *)

(* minimize.h:152-164 operator() *)
Definition StateILabelHasher f (s : Z) : Z :=
  (foldl (λ '(result, current_ilabel) arc,
     let this_ilabel := u64 (ilabel arc) in
     if negb (this_ilabel =? current_ilabel) then (u64 (7603 * result + this_ilabel), this_ilabel) else (result, current_ilabel))
   (433024223, u64 kNoLabel) (Arcs f s)).1.

(** The maps from hash values to classes, the classes of the states so far, and the
number of classes. *)
Record InitialClasses := MkInitial {
  hash_to_class_nonfinal : gmap Z Z;
  hash_to_class_final : gmap Z Z;
  state_to_initial_class : list Z;
  next_class : Z;
}.

(* minimize.h:207-216 PrePartition *)
Definition initial_class f (ic : InitialClasses) (s : Z) : InitialClasses :=
  let hash := StateILabelHasher f s in
  let final := wneqb (Final f s) Zero in
  match (if final then hash_to_class_final ic else hash_to_class_nonfinal ic) !! hash with
  | Some c => MkInitial (hash_to_class_nonfinal ic) (hash_to_class_final ic) (state_to_initial_class ic ++ [c]) (next_class ic)
  | None =>
      let c := next_class ic in
      if final then MkInitial (hash_to_class_nonfinal ic) (<[hash := c]> (hash_to_class_final ic)) (state_to_initial_class ic ++ [c]) (c + 1)
      else MkInitial (<[hash := c]> (hash_to_class_nonfinal ic)) (hash_to_class_final ic) (state_to_initial_class ic ++ [c]) (c + 1)
  end.

(* minimize.h:191-225 PrePartition *)
Definition PrePartition f P L : option (Partition * Q) :=
  let num_states := NumStates f in
  let ic := foldl (initial_class f) (MkInitial ∅ ∅ [] 0) (seqZ 0 num_states) in
  let P := AllocateClasses P (next_class ic) in
  P ← foldM (λ P s, c ← (state_to_initial_class ic).[s]; Add P s c) (seqZ 0 num_states) P;
  L ← foldM (Enqueue []) (seqZ 0 (next_class ic)) L;
  Some (P, L).

(* minimize.h:230-240 Initialize *)
Definition Cyclic_Initialize f L : option (Partition * Q * VectorFst R) :=
  Tr ← Reverse f (Some (NumStates f)) (VectorFst_new : VectorFst R) true;
  Tr ← ArcSort Tr ILabelCompare;
  let P := Initialize (MkPartition [] [] [] 0) (VF_NumStates Tr - 1) in
  '(P, L) ← PrePartition f P L;
  Some (P, L, Tr).

(** An arc iterator of the reversed machine is the list of arcs that it has left. *)

(* minimize.h:174-178 operator() *)
Definition ArcIterCompare (x y : list (Arc R)) : bool :=
  match x, y with
  | xarc :: _, yarc :: _ => ilabel yarc <? ilabel xarc
  | _, _ => false
  end.

(** What opens the queue, for the states of a class. *)

(* minimize.h:245-250 Split *)
Definition open_iterators Tr (states : list Z) : list (list (Arc R)) :=
  foldl (λ aiter_queue s, let arcs := Arcs (vector_view Tr) (s + 1) in
    if negb (zlen arcs =? 0) then arcs :: aiter_queue else aiter_queue) [] states.

(* minimize.h:243-269 Split *)
Fixpoint split_arcs (fuel : nat) P L (aiter_queue : list (list (Arc R))) (prev_label : Z) : option (Partition * Q) :=
  match aiter_queue with
  | [] => Some (P, L)
  | _ =>
      match fuel with
      | O => None
      | S fuel =>
          '(aiter, aiter_queue) ← take_top _ ArcIterCompare aiter_queue;
          match aiter with
          | [] => split_arcs fuel P L aiter_queue prev_label
          | arc :: aiter =>
              let from_state := nextstate arc - 1 in
              let from_label := ilabel arc in
              '(P, L) ← (if negb (prev_label =? from_label) then FinalizeSplit max_state (Some (Enqueue [])) P L else Some (P, L));
              from_class ← ClassId P from_state;
              size ← ClassSize P from_class;
              P ← (if 1 <? size then SplitOn P from_state else Some P);
              split_arcs fuel P L (match aiter with [] => aiter_queue | _ => aiter :: aiter_queue end) from_label
          end
      end
  end.

(** Enough turns: every iterator is taken once for each of its arcs. *)
Definition arcs_left (aiter_queue : list (list (Arc R))) : nat := length (concat aiter_queue).

(* minimize.h:242-270 Split *)
Definition Split Tr P L (C : Z) : option (Partition * Q) :=
  head ← PartitionIterator P C;
  states ← iterate (length (elements_ P)) P head;
  let aiter_queue := open_iterators Tr states in
  '(P, L) ← split_arcs (arcs_left aiter_queue) P L aiter_queue (-1);
  FinalizeSplit max_state (Some (Enqueue [])) P L.

(* minimize.h:272-279 Compute *)
Fixpoint Cyclic_Compute (fuel : nat) Tr P L : option Partition :=
  empty ← Empty L;
  if (empty : bool) then Some P else
  match fuel with
  | O => None
  | S fuel =>
      '(L, C) ← Head [] L;
      L ← Dequeue [] L;
      '(P, L) ← Split Tr P L C;
      Cyclic_Compute fuel Tr P L
  end.

(** Every class is taken from the queue once, and there are at most as many classes as
states. *)

(* minimize.h:132-135 CyclicMinimizer *)
Definition CyclicMinimizer f (L : Q) : option Partition :=
  '(P, L, Tr) ← Cyclic_Initialize f L;
  Cyclic_Compute (Z.to_nat (NumStates f)) Tr P L.
End cyclic.

(** * Acyclic machines *)

(* minimize.h:372-376 HeightVisitor *)
Record HeightVisitor := MkHeight { height_ : list Z; max_height_ : Z; num_states_ : Z }.

Section heights.
Context {W : Type}.
Implicit Types (v : HeightVisitor) (arc : Arc W).

(** New entries of the vector are -1. *)

(* minimize.h:334-339 InitState *)
Definition Height_InitState v (s root : Z) : option (HeightVisitor * bool) :=
  Some (MkHeight (vextend s (-1) (height_ v)) (max_height_ v) (if num_states_ v <=? s then s + 1 else num_states_ v), true).

(* minimize.h:348-353 ForwardOrCrossArc *)
Definition Height_ForwardOrCrossArc v (s : Z) arc : option (HeightVisitor * bool) :=
  t ← (height_ v).[nextstate arc];
  h ← (height_ v).[s];
  if h <? t + 1 then height ← (height_ v).[s <- t + 1]; Some (MkHeight height (max_height_ v) (num_states_ v), true)
  else Some (v, true).

(* minimize.h:356-363 FinishState *)
Definition Height_FinishState v (s parent : Z) (parent_arc : option (Arc W)) : option HeightVisitor :=
  hs ← (height_ v).[s];
  height ← (if hs =? -1 then (height_ v).[s <- 0] else Some (height_ v));
  hs ← height.[s];
  let h := hs + 1 in
  if 0 <=? parent then
    hp ← height.[parent];
    height ← (if hp <? h then height.[parent <- h] else Some height);
    Some (MkHeight height (if max_height_ v <? h then h else max_height_ v) (num_states_ v))
  else Some (MkHeight height (max_height_ v) (num_states_ v)).

(* minimize.h:322-377 HeightVisitor *)
Definition height_visitor : Visitor W HeightVisitor := {|
  InitVisit := λ _ v, v;
  InitState := Height_InitState;
  TreeArc := λ v _ _, Some (v, true);
  BackArc := λ v _ _, Some (v, true);
  ForwardOrCrossArc := Height_ForwardOrCrossArc;
  FinishState := Height_FinishState;
  FinishVisit := Some;
|}.
End heights.

Section acyclic.
Context `{WeightOps W} `{!HashWeight W}.
Implicit Types (f : Fst W) (P : Partition).

(* minimize.h:88-98 operator() *)
Fixpoint compare_arcs P (arcs1 arcs2 : list (Arc W)) : option bool :=
  match arcs1, arcs2 with
  | arc1 :: arcs1, arc2 :: arcs2 =>
      if ilabel arc1 <? ilabel arc2 then Some true else
      if ilabel arc2 <? ilabel arc1 then Some false else
      class1 ← ClassId P (nextstate arc1);
      class2 ← ClassId P (nextstate arc2);
      if class1 <? class2 then Some true else
      if class2 <? class1 then Some false else
      compare_arcs P arcs1 arcs2
  | _, _ => Some false
  end.

(* minimize.h:72-99 operator() *)
Definition StateComparator f P (x y : Z) : option bool :=
  let xfinal := Hash (Final f x) in
  let yfinal := Hash (Final f y) in
  if xfinal <? yfinal then Some true else
  if yfinal <? xfinal then Some false else
  let xnarcs := zlen (Arcs f x) in
  let ynarcs := zlen (Arcs f y) in
  if xnarcs <? ynarcs then Some true else
  if ynarcs <? xnarcs then Some false else
  compare_arcs P (Arcs f x) (Arcs f y).

(* minimize.h:382-391 Initialize *)
Definition Acyclic_Initialize f (known : option Z) : option Partition :=
  hvisitor ← DfsVisit f height_visitor AnyArcFilter known false (MkHeight [] 0 0);
  let P := Initialize (MkPartition [] [] [] 0) (num_states_ hvisitor) in
  let P := AllocateClasses P (max_height_ hvisitor + 1) in
  foldM (λ P s, h ← (height_ hvisitor).[s]; Add P s h) (seqZ 0 (zlen (height_ hvisitor))) P.

(** The map from states to classes, as the list of its entries: keys are compared by
[StateComparator], and are equal if neither is less. *)

(* minimize.h:395-396 Refine *)
Fixpoint find_equivalent f P (equiv_classes : list (Z * Z)) (s : Z) : option (option Z) :=
  match equiv_classes with
  | [] => Some None
  | (t, c) :: equiv_classes =>
      st ← StateComparator f P s t;
      ts ← StateComparator f P t s;
      if negb st && negb ts then Some (Some c) else find_equivalent f P equiv_classes s
  end.

(* minimize.h:404-410 Refine *)
Definition class_state f (acc : Partition * list (Z * Z)) (s : Z) : option (Partition * list (Z * Z)) :=
  let '(P, equiv_classes) := acc in
  found ← find_equivalent f P equiv_classes s;
  match found with
  | Some _ => Some (P, equiv_classes)
  | None => let '(P, c) := AddClass P in Some (P, equiv_classes ++ [(s, c)])
  end.

(** The iterator is moved on before the state that it stands on is moved. *)

(* minimize.h:412-421 Refine *)
Fixpoint move_states (fuel : nat) f P (equiv_classes : list (Z * Z)) (siter : Z) : option Partition :=
  if PI_Done siter then Some P else
  match fuel with
  | O => None
  | S fuel =>
      let s := siter in
      old_class ← ClassId P s;
      found ← find_equivalent f P equiv_classes s;
      let '(new_class, equiv_classes) := match found with Some c => (c, equiv_classes) | None => (0, equiv_classes ++ [(s, 0)]) end in
      siter ← PI_Next P siter;
      P ← (if negb (old_class =? new_class) then Move P s new_class else Some P);
      move_states fuel f P equiv_classes siter
  end.

(* minimize.h:400-422 Refine *)
Definition refine_height f P (h : Z) : option Partition :=
  head ← PartitionIterator P h;
  states ← iterate (length (elements_ P)) P head;
  match states with
  | [] => None
  | first :: rest =>
      '(P, equiv_classes) ← foldM (class_state f) rest (P, [(first, h)]);
      head ← PartitionIterator P h;
      move_states (length (elements_ P)) f P equiv_classes head
  end.

(* minimize.h:394-423 Refine *)
Definition Refine f P : option Partition := foldM (refine_height f) (seqZ 0 (NumClasses P)) P.

(* minimize.h:313-316 AcyclicMinimizer *)
Definition AcyclicMinimizer f (known : option Z) : option Partition :=
  P ← Acyclic_Initialize f known;
  Refine f P.
End acyclic.

(** * Merging *)

Section merge.
Context `{MutableFst W F}.
Implicit Types (P : Partition) (fst : F).

(** The states of a class, in the order of the iterator. *)
Definition class_states P (c : Z) : option (list Z) :=
  head ← PartitionIterator P c;
  iterate (length (elements_ P)) P head.

(* minimize.h:449-456 MergeStates *)
Definition merge_arc P (state_map : list Z) (c s : Z) fst (i : Z) : option F :=
  arc ← (Arcs (view fst) s).[i];
  class ← ClassId P (nextstate arc);
  t ← state_map.[class];
  m ← state_map.[c];
  let arc := set_nextstate t arc in
  if s =? m then mSetValue fst s i arc else mAddArc fst m arc.

(* minimize.h:445-457 MergeStates *)
Definition merge_state P (state_map : list Z) (c : Z) fst (s : Z) : option F :=
  foldM (merge_arc P state_map c s) (seqZ 0 (zlen (Arcs (view fst) s))) fst.

(* minimize.h:444-459 MergeStates *)
Definition merge_class P (state_map : list Z) fst (c : Z) : option F :=
  states ← class_states P c;
  foldM (merge_state P state_map c) states fst.

(* minimize.h:435-462 MergeStates *)
Definition MergeStates P fst : option F :=
  state_map ← foldM (λ state_map i, head ← PartitionIterator P i; Some (state_map ++ [head])) (seqZ 0 (NumClasses P)) [];
  fst ← foldM (merge_class P state_map) (seqZ 0 (NumClasses P)) fst;
  class ← ClassId P (Start (view fst));
  s ← state_map.[class];
  Connect (mSetStart fst s).
End merge.

(** * Acceptors *)

Section acceptors.
Context `{WeightOps W} `{WeightOps R} `{!ReverseWeight W R} `{!HashWeight W}.
Context (take_top : ∀ A, (A → A → bool) → list A → option (A * list A)).
Context (std_sort : (Arc W → Arc W → bool) → list (Arc W) → list (Arc W)).
Context (max_state : Z) (fst_verify_properties : bool).
Implicit Types (fst : VectorFst W) (P : Partition).

(* minimize.h:465-491 AcceptorMinimize *)
Definition AcceptorMinimize fst : option (VectorFst W) :=
  fst ← Connect fst;
  if Start (view fst) =? kNoStateId then Some fst else
  let revuz_props := kAcyclic ||| kIDeterministic in
  '(fst, props) ← Fst_Properties fst_verify_properties fst revuz_props true;
  fst ← (if props =? revuz_props then
      fst ← ArcSort fst ILabelCompare;
      P ← AcyclicMinimizer (view fst) (Some (NumStates (view fst)));
      MergeStates P fst
    else
      P ← CyclicMinimizer (R:=R) take_top max_state (view fst) (MkLifo []);
      MergeStates P fst);
  StateMap fst (ArcUniqueMapper std_sort).
End acceptors.

(** * What it does *)

(** One way to take the top off. *)
Fixpoint take_first {A} (less : A → A → bool) (l : list A) : option (A * list A) :=
  match l with
  | [] => None
  | x :: l =>
      match take_first less l with
      | None => Some (x, [])
      | Some (y, l') => if less x y then Some (y, x :: l') else Some (x, l)
      end
  end.

Section examples.
Local Notation M := MinMaxWeight.
Implicit Types (ms : list (mutation M)).

Definition build ms : VectorFst M := default VectorFst_new (foldM mutate ms VectorFst_new).
Definition minimized ms : option (VectorFst M) :=
  AcceptorMinimize (R:=M) (@take_first) (λ lt, stable_sort lt) 1000 false (build ms).
Definition transitions (x : VectorFst M) : list (list (Z * Z) * bool) :=
  (λ s, ((λ a, (ilabel a, nextstate a)) <$> Arcs (view x) s, wneqb (Final (view x) s) Zero)) <$> seqZ 0 (NumStates (view x)).
Definition arc (s l t : Z) : mutation M := MAddArc s (MkArc l l One t).

(** The states 1 and 2 have the same arcs. *)
Example minimize_cyclic :
  transitions <$> minimized [MAddStates 4; MSetStart 0; arc 0 1 1; arc 0 2 2; arc 1 1 3; arc 2 1 3; arc 3 1 0; MSetFinal 3 One] =
  Some [([(1, 1); (2, 1)], false); ([(1, 2)], false); ([(1, 0)], true)].
Proof. by vm_compute. Qed.

Example minimize_acyclic :
  transitions <$> minimized [MAddStates 4; MSetStart 0; arc 0 1 1; arc 0 2 2; arc 1 1 3; arc 2 1 3; MSetFinal 3 One] =
  Some [([(1, 1); (2, 1)], false); ([(1, 2)], false); ([], true)].
Proof. by vm_compute. Qed.

(** The states 1 and 2 accept the same, but list their arcs in different orders, so that
the hash values that are to depend on the set of labels differ: arcs are sorted only for
acyclic machines.  The result is not minimal. *)
Example minimize_unsorted :
  transitions <$> minimized [MAddStates 4; MSetStart 0; arc 0 1 1; arc 0 2 2; arc 1 1 3; arc 1 2 1; arc 2 2 2; arc 2 1 3; MSetFinal 3 One] =
  Some [([(1, 1); (2, 2)], false); ([(1, 3); (2, 1)], false); ([(1, 3); (2, 2)], false); ([], true)].
Proof. by vm_compute. Qed.

(** A machine with two arcs of one label that leave state 6.  States 5 and 6 are merged
though only 6 has the arc to 4: the result accepts 1 3 4 5 where the operand, from whose
start 1 leads to 5 alone, does not. *)
Definition two_ways : list (mutation M) :=
  [MAddStates 7; MSetStart 0; MSetFinal 2 One; arc 0 1 5; arc 0 2 6; arc 5 3 3; arc 6 3 3; arc 6 3 4; arc 3 4 2; arc 4 4 1; arc 1 5 2].

Example minimize_nondeterministic :
  transitions <$> minimized two_ways =
  Some [([(1, 5); (2, 5)], false); ([(5, 2)], false); ([], true); ([(4, 2)], false); ([(4, 1)], false); ([(3, 3); (3, 4)], false)].
Proof. by vm_compute. Qed.
End examples.
