(* ===== verification/Hopcroft.v ===== *)
(** Why partition refinement is right (for openfst/lib/minimize.h, [CyclicMinimizer]):
states of a deterministic machine with a map to classes, the classes that are still
to be split on, and what a split along the predecessors of a class keeps.  Once no
class is left, states of one class have their successors in the same classes. *)
From stdpp Require Import gmap.
From S2P Require Import Prelude Weight Properties SymbolTable Fst Mutation.
From S2P Require Import Partition PartitionSplit.
Local Open Scope Z_scope.

(** * Strings of labels *)

Section traces.
Context `{WeightOps W}.
Implicit Types (f g : Fst W) (a : Arc W).

(** [f] accepts the sequence [x] of input labels, epsilons included, from [s]. *)
Definition traces f (s : Z) (x : list Z) : Prop := ∃ p t, path f s p t ∧ is_final f t ∧ ilabel <$> p = x.

Definition same_traces f (s t : Z) : Prop := valid f s ∧ valid f t ∧ ∀ x, traces f s x ↔ traces f t x.

(** The state that label [l] leads to, where arcs are told apart by their labels. *)
Definition delta f (s l : Z) : option Z :=
  if decide (valid f s) then nextstate <$> head (filter (λ a, ilabel a = l) (Arcs f s)) else None.

Lemma delta_arc f s l t : delta f s l = Some t → ∃ a, arc_in f s a ∧ ilabel a = l ∧ nextstate a = t.
Proof.
  unfold delta. case_decide as Hs; [|done]. intros (a & Ha & ->)%fmap_Some. apply head_Some_elem_of in Ha.
  apply list_elem_of_filter in Ha as [Hl Ha]. by exists a.
Qed.

Lemma arc_delta f s a : Holds f IDeterministic → arc_in f s a → delta f s (ilabel a) = Some (nextstate a).
Proof.
  intros Hdet [Hs Ha]. unfold delta. rewrite decide_True by done. specialize (Hdet s Hs). revert Hdet Ha. generalize (Arcs f s) as l.
  induction l as [|b l IH]; intros Hnd Ha; [by apply not_elem_of_nil in Ha|]. rewrite filter_cons.
  rewrite fmap_cons in Hnd. apply NoDup_cons in Hnd as [Hb Hnd]. case_decide as Hl; simpl.
  - apply elem_of_cons in Ha as [->|Ha]; [done|]. destruct Hb. rewrite Hl. by apply list_elem_of_fmap_2.
  - apply elem_of_cons in Ha as [->|Ha]; [done|]. by apply IH.
Qed.

Lemma traces_nil f s : valid f s → traces f s [] ↔ is_final f s.
Proof.
  intros Hs. split.
  - intros (p & t & Hp & Ht & Hx). apply fmap_nil_inv in Hx as ->. inversion Hp; by subst.
  - intros Hf. exists [], s. split_and!; [by constructor|done|done].
Qed.

Lemma traces_cons f s l x : Holds f IDeterministic → traces f s (l :: x) ↔ ∃ t, delta f s l = Some t ∧ traces f t x.
Proof.
  intros Hdet. split.
  - intros (p & t & Hp & Ht & Hx). destruct p as [|a p]; [done|]. injection Hx as <- <-. inversion Hp; subst.
    exists (nextstate a). split; [by apply arc_delta|]. by exists p, t.
  - intros (u & Hu & p & t & Hp & Ht & <-). destruct (delta_arc _ _ _ _ Hu) as (a & [Hs Ha] & <- & <-).
    exists (a :: p), t. split_and!; [by constructor|done|done].
Qed.

(** Successors of states with the same traces have the same traces. *)
Lemma same_traces_step f s t l u : Holds f IDeterministic → wf_arcs f → (∀ v, valid f v → coaccessible f v) →
  same_traces f s t → delta f s l = Some u → ∃ v, delta f t l = Some v ∧ same_traces f u v.
Proof.
  intros Hdet Hwf Hco (Hs & Ht & Hst) Hu.
  assert (∀ s l u, delta f s l = Some u → valid f u) as Hv.
  { intros s' l' u' (a & [Hs' Ha] & _ & <-)%delta_arc. by eapply Hwf. }
  destruct (Hco u ltac:(by eapply Hv)) as (w & Hr & Hw). destruct (rtc_path f u w Hr (proj1 Hw)) as (p & Hp).
  assert (traces f s (l :: (ilabel <$> p))) as Htr by (apply traces_cons; [done|]; exists u; split; [done|by exists p, w]).
  apply Hst, traces_cons in Htr as (v & Hv' & _); [|done]. exists v. split; [done|]. split_and!; [by eapply Hv..|].
  intros x. transitivity (traces f s (l :: x)); [|rewrite Hst]; rewrite traces_cons by done; split.
  - intros Hx. by exists u.
  - intros (u' & Hu' & Hx). by simplify_eq.
  - intros (v'' & Hv'' & Hx). by simplify_eq.
  - intros Hx. by exists v.
Qed.

(** A map to classes of which states with the same finality and with successors in the
same classes are in the same class. *)
Lemma stable_traces f (cls : gmap Z Z) :
  Holds f IDeterministic → wf_arcs f → (∀ s, valid f s ↔ is_Some (cls !! s)) →
  (∀ s t, valid f s → valid f t → cls !! s = cls !! t → is_final f s → is_final f t) →
  (∀ s t l, valid f s → valid f t → cls !! s = cls !! t → (delta f s l ≫= λ u, cls !! u) = (delta f t l ≫= λ u, cls !! u)) →
  ∀ s t, valid f s → valid f t → cls !! s = cls !! t → ∀ x, traces f s x → traces f t x.
Proof.
  intros Hdet Hwf Hdom Hfin Hst s t Hs Ht E x. revert s t Hs Ht E. induction x as [|l x IH]; intros s t Hs Ht E.
  - rewrite !traces_nil by done. by apply Hfin.
  - rewrite !traces_cons by done. intros (u & Hu & Hx). specialize (Hst s t l Hs Ht E). rewrite Hu in Hst. simpl in Hst.
    assert (∀ s l u, delta f s l = Some u → valid f u) as Hv.
    { intros s' l' u' (a & [Hs' Ha] & _ & <-)%delta_arc. by eapply Hwf. }
    destruct (proj1 (Hdom u) ltac:(by eapply Hv)) as [c Hc]. rewrite Hc in Hst. symmetry in Hst. apply bind_Some in Hst as (v & Hv' & Hcv).
    exists v. split; [done|]. apply (IH u v); [by eapply Hv..|congruence|done].
Qed.
End traces.

(** * Classes that are still to be split on *)

Section refinement.
Context (next : Z → Z → option Z).
Implicit Types (cls : gmap Z Z) (pre : Z → Z → Prop) (l : Z).

Definition target cls (s l : Z) : option Z := next s l ≫= λ t, cls !! t.

(** Where the successors of two states of one class are in different classes, one of
these is still in [L], or [pre] tells the two states apart; [pre l] are the
predecessors by label [l] of the class that is being split on. *)
Definition pending cls (L : Z → Prop) pre : Prop :=
  ∀ s t l, is_Some (cls !! s) → cls !! s = cls !! t → target cls s l ≠ target cls t l →
    (∃ K, L K ∧ (target cls s l = Some K ∨ target cls t l = Some K)) ∨ ¬ (pre l s ↔ pre l t).

Context (cls : gmap Z Z) (Hnext : ∀ s l t, next s l = Some t → is_Some (cls !! t)).

(** A split keeps it, where the new classes are put in [L]. *)
Lemma pending_cut P P' cls' Y (L L' : Z → Prop) pre :
  cut_along P cls Y P' cls' → (∀ s c, cls !! s = Some c → c < NumClasses P) →
  (∀ K, L K → L' K) → (∀ s K, cls' !! s = Some K → NumClasses P ≤ K → L' K) →
  pending cls L pre → pending cls' L' pre.
Proof using Hnext.
  intros [Hdom Hsame Hold Hnew] Hlt HL Hnews Hp s t l Hs E Hne.
  assert (is_Some (cls !! s)) as Hs1 by by apply Hdom. assert (is_Some (cls !! t)) as Ht1 by (apply Hdom; by rewrite <-E).
  destruct (proj1 (Hsame s t Hs1 Ht1) E) as [E1 _].
  assert (∀ r K, target cls r l = Some K → ∃ K', target cls' r l = Some K' ∧ (L K → L' K')) as Hmove.
  { intros r K Hr. unfold target in *. apply bind_Some in Hr as (u & Hu & HK). rewrite Hu. simpl.
    destruct (proj2 (Hdom u) ltac:(by eexists)) as [K' HK']. exists K'. split; [done|]. intros HLK.
    destruct (decide (K' < NumClasses P)) as [Hlt'|]; [|apply (Hnews u); [done|lia]].
    pose proof (Hold u K' HK' Hlt') as HK2. apply HL. by simplify_eq. }
  destruct (decide (target cls s l = target cls t l)) as [Et|Et].
  - left. destruct (target cls s l) as [K|] eqn:Hts.
    2:{ destruct Hne. symmetry in Et. unfold target in *.
      assert (∀ r, (next r l ≫= λ u, cls !! u) = None → next r l = None) as Hnone.
      { intros r Hr. destruct (next r l) as [u|] eqn:Eu; [|done]. simpl in Hr. destruct (Hnext r l u Eu) as [? Hc]. congruence. }
      by rewrite (Hnone s Hts), (Hnone t Et). }
    symmetry in Et. unfold target in Hts, Et. apply bind_Some in Hts as (u & Hu & HKu). apply bind_Some in Et as (v & Hv & HKv).
    unfold target in *. rewrite Hu, Hv in *. simpl in *.
    destruct (proj2 (Hdom u) ltac:(by eexists)) as [c Hc]. destruct (proj2 (Hdom v) ltac:(by eexists)) as [d Hd]. rewrite Hc, Hd in *.
    destruct (decide (NumClasses P ≤ c)) as [|Hc1]; [exists c; split; [by apply (Hnews u)|by left]|].
    destruct (decide (NumClasses P ≤ d)) as [|Hd1]; [exists d; split; [by apply (Hnews v)|by right]|].
    exfalso. apply Hne. f_equal. pose proof (Hold u c Hc ltac:(lia)). pose proof (Hold v d Hd ltac:(lia)). congruence.
  - destruct (Hp s t l Hs1 E1 Et) as [(K & HK & HKst)|]; [left|by right].
    destruct HKst as [Hr|Hr]; destruct (Hmove _ _ Hr) as (K' & HK' & HL'); exists K'; (split; [by apply HL'|by auto]).
Qed.

(** Taking a class out of [L], to split on its states. *)
Lemma pending_take (L L' : Z → Prop) C pre :
  (∀ K, L K → K = C ∨ L' K) → (∀ s l, pre l s ↔ target cls s l = Some C) →
  pending cls L (λ _ _, True) → pending cls L' pre.
Proof using.
  intros HL Hpre Hp s t l Hs E Hne. destruct (Hp s t l Hs E Hne) as [(K & HK & Hor)|?]; [|tauto].
  destruct (HL K HK) as [->|HK']; [|left; by exists K]. right. rewrite !Hpre. intros Hiff. apply Hne.
  destruct Hor as [Ht|Ht]; apply Hiff in Ht as Ht'; congruence.
Qed.

(** When every class is split along [pre], it no longer counts. *)
Lemma pending_done (L : Z → Prop) pre :
  (∀ s t l, is_Some (cls !! s) → cls !! s = cls !! t → pre l s ↔ pre l t) →
  pending cls L pre → pending cls L (λ _ _, True).
Proof using.
  intros Hst Hp s t l Hs E Hne. destruct (Hp s t l Hs E Hne) as [?|Hpre]; [by left|]. destruct Hpre. by apply Hst.
Qed.

Lemma pending_end (L : Z → Prop) : (∀ K, ¬ L K) → pending cls L (λ _ _, True) →
  ∀ s t l, is_Some (cls !! s) → cls !! s = cls !! t → target cls s l = target cls t l.
Proof using.
  intros HL Hp s t l Hs E. destruct (decide (target cls s l = target cls t l)) as [|Hne]; [done|].
  destruct (Hp s t l Hs E Hne) as [(K & HK & _)|?]; [by destruct (HL K)|tauto].
Qed.
End refinement.

(** * What a refinement promises *)

(** The classes of [P] are unions of states that need not be told apart: what the
merging of states relies on, and what both algorithms ensure. *)
Record congruence `{WeightOps W} (f : Fst W) (P : Partition) (cls : gmap Z Z) : Prop := {
  cong_part : partitioned P cls ∅;
  cong_dom : ∀ s, is_Some (cls !! s) ↔ valid f s;
  cong_used : ∀ c, 0 ≤ c < NumClasses P → ∃ s, cls !! s = Some c;
  cong_final : ∀ s t, valid f s → cls !! s = cls !! t → is_final f s → is_final f t;
  cong_step : ∀ s t l, valid f s → cls !! s = cls !! t → target (delta f) cls s l = target (delta f) cls t l;
}.

Section congruent.
Context `{WeightOps W} (f : Fst W) (P : Partition) (cls : gmap Z Z) (HC : congruence f P cls).

Lemma cong_valid s t : valid f s → cls !! s = cls !! t → valid f t.
Proof using HC. intros Hs E. apply (cong_dom _ _ _ HC). rewrite <-E. by apply (cong_dom _ _ _ HC). Qed.

Lemma cong_class s : valid f s → ∃ c, cls !! s = Some c ∧ ClassId P s = Some c ∧ 0 ≤ c < NumClasses P.
Proof using HC.
  intros [c Hc]%(cong_dom _ _ _ HC). exists c. split; [done|]. by apply (partitioned_view P cls (cong_part _ _ _ HC)).
Qed.

Lemma cong_traces s t : Holds f IDeterministic → wf_arcs f → valid f s → cls !! s = cls !! t → same_traces f s t.
Proof using HC.
  intros Hdet Hwf Hs E. assert (valid f t) as Ht by by eapply cong_valid. split_and!; [done..|].
  assert (∀ s t, valid f s → valid f t → cls !! s = cls !! t → ∀ x, traces f s x → traces f t x) as Htr.
  { apply stable_traces; [done|done|intros r; symmetry; apply (cong_dom _ _ _ HC)| |].
    - intros r u Hr _. by apply (cong_final _ _ _ HC).
    - intros r u l Hr _. by apply (cong_step _ _ _ HC). }
  intros x. split; by apply Htr.
Qed.
End congruent.
