(* ===== verification/Cyclic.v ===== *)
(** Hopcroft's refinement as [CyclicMinimizer] runs it (openfst/lib/minimize.h): for a
deterministic machine, whatever the queue of classes and the order among equal labels,
it ends, and two states are in one class only if they accept the same; where the arcs
are sorted, exactly if they do. *)
From stdpp Require Import gmap.
From Stdlib Require Import Sorting.Sorted.
From S2P Require Import Prelude Weight FloatWeight Properties SymbolTable Fst VectorFst Mutation VectorSound.
From S2P Require Import MutableFst Rational RationalSpec ArcMap StateMap ArcSort Queue Reverse ReverseSpec Partition PartitionSplit Minimize Hopcroft.
Local Open Scope Z_scope.

(** What [std::priority_queue] promises of its top, for a strict weak order of its
elements. *)
Definition takes_top (take_top : ∀ A, (A → A → bool) → list A → option (A * list A)) : Prop :=
  ∀ A (less : A → A → bool) l, l ≠ [] →
    (∀ a b, a ∈ l → b ∈ l → less a b = true → less b a = false) →
    (∀ a b c, a ∈ l → b ∈ l → c ∈ l → less a b = false → less b c = false → less a c = false) →
    ∃ x l', take_top A less l = Some (x, l') ∧ l ≡ₚ x :: l' ∧ ∀ y, y ∈ l' → less x y = false.

Lemma take_first_top : takes_top (@take_first).
Proof.
  intros A less l Hne. induction l as [|x l IH]; [done|]. clear Hne. intros Hasym Htrans. simpl.
  destruct l as [|y l]; [exists x, []; by split_and!; [| |intros y ?%not_elem_of_nil]|].
  destruct IH as (z & l' & -> & Hperm & Hz); [done|intros; apply Hasym; by try right|intros a b c ? ? ?; apply Htrans; by right|].
  assert (z ∈ y :: l) as Hzl by (rewrite Hperm; left).
  destruct (less x z) eqn:E; [exists z, (x :: l')|exists x, (y :: l)]; (split; [done|]); split.
  - rewrite Hperm. apply Permutation_swap.
  - intros w [->|Hw]%elem_of_cons; [apply Hasym; [left|by right|done]|by apply Hz].
  - done.
  - intros w Hw. rewrite Hperm in Hw. apply elem_of_cons in Hw as [->|Hw]; [done|].
    apply (Htrans x z w); [left|by right| |done|by apply Hz]. right. rewrite Hperm. by right.
Qed.

Lemma elem_of_concat {A} (x : A) (ls : list (list A)) : x ∈ concat ls ↔ ∃ l, l ∈ ls ∧ x ∈ l.
Proof.
  rewrite list_elem_of_In, List.in_concat. by setoid_rewrite list_elem_of_In.
Qed.

(** * Splitting on a class *)

Section splitting.
Context `{WeightOps W} {R : Type} (f : Fst W).
Context {Q} `{!StateQueue W Q} `{!BagLaws (W:=W) (Q:=Q) (λ c, 0 ≤ c)}.
Context (next : Z → Z → option Z).
(** The arcs into the class, the classes that were taken before or are taken now, an
equivalence that no split may cut, and a property that classes have in common. *)
Context (All : list (Arc R)) (Dn : Z → Prop) (same : Z → Z → Prop) (fin : Z → Prop).
Implicit Types (P : Partition) (L : Q) (cls : gmap Z Z) (Y : gset Z) (D : list (Arc R)) (its : list (list (Arc R))) (b : Arc R).

Definition before (l s : Z) : Prop := ∃ b, b ∈ All ∧ ilabel b = l ∧ nextstate b = s + 1.
Definition big cls (s : Z) : Prop := ∃ t, t ≠ s ∧ cls !! t = cls !! s.

Context (Hnext : ∀ s l t, next s l = Some t → valid f t) (Hsrc : ∀ b, b ∈ All → valid f (nextstate b - 1)).
Context (Hsame : ∀ s t l, same s t → before l s → before l t) (Hsym : ∀ s t, same s t → same t s).

(** The class map of a partition, at any time. *)
Record classes P L cls : Prop := {
  classes_dom : ∀ s, is_Some (cls !! s) ↔ valid f s;
  classes_range : ∀ s c, cls !! s = Some c → 0 ≤ c < NumClasses P;
  classes_used : ∀ c, 0 ≤ c < NumClasses P → ∃ s, cls !! s = Some c;
  classes_bag : ∃ B, bag L B ∧ ∀ K, K ∈ B ↔ 0 ≤ K < NumClasses P ∧ ¬ Dn K;
  classes_done : ∀ K, Dn K → K < NumClasses P;
  classes_same : ∀ s t, same s t → cls !! s = cls !! t;
  classes_fin : ∀ s t, valid f s → cls !! s = cls !! t → fin s → fin t;
}.

(** The arcs [D] were taken, the iterators [its] are left, and [cur] is the label along
which elements are being marked. *)
Record splitting P L cls Y D its (cur : option Z) : Prop := {
  split_part : partitioned P cls Y;
  split_classes : classes P L cls;
  split_all : D ++ concat its ≡ₚ All;
  split_sorted : Forall (λ it, it ≠ [] ∧ Sorted Z.le (ilabel <$> it)) its;
  split_order : ∀ d r, d ∈ D → r ∈ concat its → ilabel d ≤ ilabel r;
  split_cur : ∀ l, cur = Some l → (∃ d, d ∈ D ∧ ilabel d = l) ∧ ∀ d, d ∈ D → ilabel d ≤ l;
  split_marked : ∀ s, s ∈ Y ↔ ∃ l, cur = Some l ∧ (∃ d, d ∈ D ∧ ilabel d = l ∧ nextstate d = s + 1) ∧ big cls s;
  split_stable : ∀ l s t, (∃ d, d ∈ D ∧ ilabel d = l) → cur ≠ Some l → valid f s → cls !! s = cls !! t → before l s ↔ before l t;
  split_pending : pending next cls (λ K, 0 ≤ K < NumClasses P ∧ ¬ Dn K) before;
}.

(** Enqueueing the new classes. *)
Lemma enqueue_bag L B (m k : Z) :
  bag L B → 0 ≤ m → (∀ K, K ∈ B → K < m) →
  ∃ L', foldM (Enqueue []) (seqZ m k) L = Some L' ∧ ∃ B', bag L' B' ∧ ∀ K, K ∈ B' ↔ K ∈ B ∨ m ≤ K < m + k.
Proof using BagLaws0.
  intros HB Hm Hlt. destruct (foldM_total (Enqueue (W:=W) []) (λ done L', ∃ B', bag L' B' ∧ ∀ K, K ∈ B' ↔ K ∈ B ∨ m ≤ K < m + zlen done)
    (seqZ m k) L) as (L' & HL & B' & HB' & Hin).
  - exists B. split; [done|]. intros K. change (zlen []) with 0. split; [auto|]. intros [?|?]; [done|lia].
  - intros done K todo L1 El (B1 & HB1 & Hin). assert (K = m + zlen done ∧ zlen done < k) as [-> Hd].
    { assert ((seqZ m k) !! length done = Some K) as HK by (rewrite El; by apply list_lookup_middle).
      apply lookup_seqZ in HK as [-> HK]. unfold zlen. lia. }
    pose proof (zlen_nonneg done). destruct (bag_enqueue [] L1 B1 (m + zlen done) HB1) as (L2 & HL2 & HB2); [|lia|].
    { rewrite Hin. intros [HK|?]; [apply Hlt in HK; lia|lia]. }
    exists L2. split; [done|]. eexists. split; [exact HB2|]. intros K'. rewrite elem_of_union, elem_of_singleton, Hin, zlen_app.
    change (zlen [m + zlen done]) with 1. split; [intros [->|[?|?]]; auto; right; lia|]. intros [?|?]; [auto|].
    destruct (decide (K' = m + zlen done)); [auto|]. right. right. lia.
  - exists L'. split; [done|]. exists B'. split; [done|]. intros K. rewrite Hin. unfold zlen. rewrite length_seqZ.
    split; (intros [?|?]; [auto|right; lia]).
Qed.

(** There are no more classes than states. *)
Lemma classes_few P L cls : 0 ≤ NumStates f → classes P L cls → NumClasses P ≤ NumStates f.
Proof using.
  intros Hn [Hdom Hr Hused _ _ _ _]. destruct (decide (NumClasses P ≤ NumStates f)) as [|Hlt]; [done|exfalso].
  assert (∃ h : Z → Z, ∀ c, 0 ≤ c < NumClasses P → cls !! h c = Some c) as (h & Hh).
  { exists (λ c, default 0 (head (filter (λ s, cls !! s = Some c) (seqZ 0 (NumStates f))))). intros c Hc.
    destruct (Hused c Hc) as (s & Hs). assert (s ∈ filter (λ s, cls !! s = Some c) (seqZ 0 (NumStates f))) as Hin.
    { apply list_elem_of_filter. split; [done|]. apply elem_of_seqZ. assert (valid f s) as [? ?] by (apply Hdom; by eexists). lia. }
    destruct (filter _ _) as [|t l] eqn:E; [by apply not_elem_of_nil in Hin|]. simpl.
    assert (t ∈ filter (λ s, cls !! s = Some c) (seqZ 0 (NumStates f))) as Ht by (rewrite E; left). by apply list_elem_of_filter in Ht as [? _]. }
  assert (NoDup (h <$> seqZ 0 (NumClasses P))) as Hnd.
  { apply NoDup_fmap_2_strong; [|apply NoDup_seqZ]. intros c d Hc%elem_of_seqZ Hd%elem_of_seqZ E.
    pose proof (Hh c ltac:(lia)). pose proof (Hh d ltac:(lia)). congruence. }
  assert (h <$> seqZ 0 (NumClasses P) ⊆+ seqZ 0 (NumStates f)) as Hsub%submseteq_length.
  { apply NoDup_submseteq; [done|]. intros s (c & -> & Hc%elem_of_seqZ)%list_elem_of_fmap. apply elem_of_seqZ.
    assert (valid f (h c)) as [? ?]; [|lia]. apply Hdom. exists c. apply Hh. lia. }
  rewrite length_fmap, !length_seqZ in Hsub. lia.
Qed.

(** What a split along [Y] leaves of the class map. *)
Lemma classes_cut P L cls Y P' cls' L' B' :
  classes P L cls → partitioned P' cls' ∅ → cut_along P cls Y P' cls' → NumClasses P ≤ NumClasses P' →
  (∀ s t, same s t → s ∈ Y ↔ t ∈ Y) →
  bag L' B' → (∀ K, K ∈ B' ↔ (0 ≤ K < NumClasses P ∧ ¬ Dn K) ∨ NumClasses P ≤ K < NumClasses P') →
  classes P' L' cls'.
Proof using Hsym.
  intros [Hdom Hr Hused _ Hd Hsm Hf] HP' [Adom Asame Aold Anew] Hle HY HB' Hin'.
  pose proof (partitioned_view P' cls' HP') as [V1 V2].
  assert (∀ s c, cls' !! s = Some c → 0 ≤ c < NumClasses P') as Hr' by (intros s c Hs; by apply V1 in Hs as [_ ?]).
  assert (∀ k c n, NumClasses P ≤ k < NumClasses P' → ClassSize P' c = Some n → 0 < n → 0 ≤ c < NumClasses P' → ∃ s, cls' !! s = Some c) as Hsz.
  { intros k c n _ Hn Hpos Hc. destruct (V2 c Hc) as (_ & l & _ & _ & _ & Hl & Hn'). assert (n = zlen l) as -> by congruence.
    destruct l as [|s l]; [done|]. exists s. apply Hl. left. }
  split.
  - intros s. by rewrite Adom, Hdom.
  - exact Hr'.
  - intros c Hc. destruct (decide (NumClasses P ≤ c)) as [Hnew|Hold].
    + destruct (Anew c ltac:(lia)) as (c1 & k1 & k2 & _ & Hk1 & _ & Hpos & _). apply (Hsz c c k1); [lia|done|lia|done].
    + destruct (Hused c ltac:(lia)) as (s & Hs). destruct (proj2 (Adom s) ltac:(by eexists)) as [k Hk]. destruct (decide (k < NumClasses P)).
      * exists s. pose proof (Aold s k Hk ltac:(done)). congruence.
      * destruct (Anew k) as (c1 & k1 & k2 & Hin & _ & Hn' & Hpos & Hle'); [apply Hr' in Hk; lia|].
        assert (c1 = c) as -> by (specialize (Hin s Hk); congruence). apply (Hsz k c k2); [apply Hr' in Hk; lia|done|lia|lia].
  - exists B'. split; [done|]. intros K. rewrite Hin'. split; [intros [[? ?]|HK]; [split; [lia|done]|]|].
    + assert (0 ≤ NumClasses P) by apply zlen_nonneg. split; [lia|]. intros HD. apply Hd in HD. lia.
    + intros [? ?]. destruct (decide (K < NumClasses P)); [left; split; [lia|done]|right; lia].
  - intros K HK. apply Hd in HK. lia.
  - intros s t Hst. destruct (decide (is_Some (cls !! s))) as [Hs|Hs].
    + apply Asame; [done| |split; [by apply Hsm|by apply HY]]. by rewrite <-(Hsm s t Hst).
    + assert (¬ is_Some (cls !! t)) as Ht by by rewrite <-(Hsm s t Hst).
      rewrite <-Adom in Hs, Ht. apply eq_None_not_Some in Hs, Ht. congruence.
  - intros s t Hs E. assert (is_Some (cls !! s)) as Hs1 by by apply Hdom.
    assert (is_Some (cls !! t)) as Ht1 by (apply Adom; rewrite <-E; by apply Adom). apply Hf; [done|]. by apply Asame.
Qed.

Lemma marked_before P L cls Y D its l :
  splitting P L cls Y D its (Some l) → (∀ r, r ∈ concat its → l ≠ ilabel r) → ∀ s, s ∈ Y ↔ before l s ∧ big cls s.
Proof using All.
  intros Hs Hrest s. rewrite (split_marked _ _ _ _ _ _ _ Hs). split.
  - intros (l' & [= <-] & (d & Hd & Hl & Hn) & Hb). split; [|done]. exists d. split_and!; [|done..].
    rewrite <-(split_all _ _ _ _ _ _ _ Hs). apply elem_of_app. by left.
  - intros [(d & Hd & Hl & Hn) Hb]. exists l. split; [done|]. split; [|done]. exists d. split_and!; [|done..].
    rewrite <-(split_all _ _ _ _ _ _ _ Hs) in Hd. apply elem_of_app in Hd as [|Hd]; [done|]. exfalso. specialize (Hrest d Hd). congruence.
Qed.

Lemma big_iff cls s t : cls !! s = cls !! t → s ≠ t → big cls s.
Proof using. intros E Hne. by exists t. Qed.

(** The end of a label. *)
Lemma finalize_splitting (max : Z) P L cls Y D its cur :
  splitting P L cls Y D its cur → (∀ r, r ∈ concat its → cur ≠ Some (ilabel r)) → yes_counter_ P < max →
  ∃ P' L' cls', FinalizeSplit max (Some (Enqueue [])) P L = Some (P', L') ∧ splitting P' L' cls' ∅ D its None ∧
    yes_counter_ P' = yes_counter_ P + 1.
Proof using All.
  intros Hs Hrest Hmax. pose proof Hs as [HP HC Hall Hsorted Hord Hcur Hmark Hstab Hpend].
  destruct (FinalizeSplit_ok max P cls Y HP Hmax) as (P' & cls' & HP' & Hcut & Hle & _ & Hctr & Hrun).
  pose proof HC as [Hdom Hr _ (B & HB & HinB) _ _ _]. assert (0 ≤ NumClasses P) as Hn0 by apply zlen_nonneg.
  destruct (enqueue_bag L B (NumClasses P) (NumClasses P' - NumClasses P) HB Hn0) as (L' & HL & B' & HB' & HinB');
    [intros K HK; apply HinB in HK; lia|].
  assert (∀ K, K ∈ B' ↔ (0 ≤ K < NumClasses P ∧ ¬ Dn K) ∨ NumClasses P ≤ K < NumClasses P') as Hin'.
  { intros K. rewrite HinB', HinB. split; (intros [?|?]; [by left|right; lia]). }
  assert (∀ s t, same s t → s ∈ Y → t ∈ Y) as Hms.
  { intros s t Hst HY. destruct (decide (s = t)) as [->|Hne]; [done|]. destruct cur as [l|]; [|by apply Hmark in HY as (? & ? & _)].
    assert (∀ r, r ∈ concat its → l ≠ ilabel r) as Hrest' by (intros r Hr' E; apply (Hrest r Hr'); by rewrite E).
    apply (marked_before _ _ _ _ _ _ _ Hs Hrest') in HY as [Hb _]. apply (marked_before _ _ _ _ _ _ _ Hs Hrest').
    split; [by eapply Hsame|]. apply (big_iff cls t s); [|done]. symmetry. by apply (classes_same _ _ _ HC). }
  assert (classes P' L' cls') as HC' by (eapply (classes_cut P L cls Y P' cls' L' B'); try done; intros s t Hst; split; apply Hms; auto).
  exists P', L', cls'. split; [|split; [|done]].
  { rewrite Hrun. unfold enqueue_all. by rewrite HL. }
  pose proof Hcut as [Adom Asame _ _].
  assert (∀ s t, valid f s → cls' !! s = cls' !! t → cls !! s = cls !! t ∧ (s ∈ Y ↔ t ∈ Y)) as Hback.
  { intros s t Hv E. apply Asame; [by apply Hdom| |done]. apply Adom. rewrite <-E. apply Adom. by apply Hdom. }
  split; try done.
  - intros s. split; [set_solver|]. by intros (l & ? & _).
  - intros l s t Hl _ Hv E. destruct (Hback s t Hv E) as [E1 HYst]. destruct (decide (cur = Some l)) as [->|Hne]; [|by apply Hstab].
    destruct (decide (s = t)) as [->|Hst]; [done|].
    assert (∀ r, r ∈ concat its → l ≠ ilabel r) as Hrest' by (intros r Hr' E'; apply (Hrest r Hr'); by rewrite E').
    rewrite !(marked_before _ _ _ _ _ _ _ Hs Hrest') in HYst. pose proof (big_iff cls s t E1 Hst). pose proof (big_iff cls t s (eq_sym E1) (not_eq_sym Hst)). tauto.
  - eapply (pending_cut next cls); [|exact Hcut| | | |exact Hpend].
    + intros s l t Ht. apply Hdom. by eapply Hnext.
    + intros s c Hc. apply Hr in Hc. lia.
    + intros K [HK HD]. split; [lia|done].
    + intros s K HK HKge. pose proof (classes_range _ _ _ HC' s K HK). split; [lia|]. intros HD. apply (classes_done _ _ _ HC) in HD. lia.
Qed.

(** An arc that is taken marks the state it comes from, unless that is alone in its
class. *)
Lemma mark_splitting P L cls Y D its its' cur b it :
  splitting P L cls Y D its cur → its ≡ₚ (b :: it) :: its' → (∀ r, r ∈ concat its → ilabel b ≤ ilabel r) →
  cur = Some (ilabel b) ∨ cur = None ∧ (∀ d, d ∈ D → ilabel d ≠ ilabel b) →
  ∃ from_class size P' Y', ClassId P (nextstate b - 1) = Some from_class ∧ ClassSize P from_class = Some size ∧
    (if 1 <? size then SplitOn P (nextstate b - 1) else Some P) = Some P' ∧
    splitting P' L cls Y' (D ++ [b]) (match it with [] => its' | _ => it :: its' end) (Some (ilabel b)) ∧ yes_counter_ P' = yes_counter_ P.
Proof using All Hsrc.
  intros Hs Hperm Hmin Hcur'. pose proof Hs as [HP HC Hall Hsorted Hord Hcur Hmark Hstab Hpend].
  set (s := nextstate b - 1).
  assert (concat its ≡ₚ b :: it ++ concat its') as Hcat by (rewrite Hperm; done).
  assert (b ∈ All) as HbA by (rewrite <-Hall, Hcat; apply elem_of_app; right; left).
  assert (is_Some (cls !! s)) as [c Hc] by (apply (classes_dom _ _ _ HC); by apply Hsrc).
  destruct (partitioned_class P cls Y s c HP Hc) as (x & Hx & Hxc & _).
  destruct (partitioned_size P cls Y s c HP Hc) as (size & Hsize & Hbig).
  assert (1 < size ↔ big cls s) as Hbig'.
  { rewrite Hbig. unfold big. rewrite Hc. done. }
  assert (∃ P' Y', (if 1 <? size then SplitOn P s else Some P) = Some P' ∧ partitioned P' cls Y' ∧ NumClasses P' = NumClasses P ∧
    yes_counter_ P' = yes_counter_ P ∧ ∀ e, e ∈ Y' ↔ e ∈ Y ∨ e = s ∧ big cls s) as (P' & Y' & EP & HP' & HN & Hctr & HY').
  { destruct (Z.ltb_spec 1 size) as [Hlt|Hle].
    - destruct (SplitOn_ok P cls Y s c HP Hc) as (P' & E & HP' & HN & _ & Hctr). exists P', ({[s]} ∪ Y). split_and!; [done..|].
      intros e. rewrite elem_of_union, elem_of_singleton. apply Hbig' in Hlt. tauto.
    - exists P, Y. split_and!; [done..|]. intros e. split; [auto|]. intros [?|[_ Hb]]; [done|]. apply Hbig' in Hb. lia. }
  exists c, size, P', Y'. split_and!; [unfold ClassId; by rewrite Hx; simpl; rewrite Hxc|done|done| |done].
  assert (concat (match it with [] => its' | _ => it :: its' end) = it ++ concat its') as Ecat by by destruct it.
  assert ((D ++ [b]) ++ it ++ concat its' ≡ₚ All) as Hall' by (rewrite <-Hall, Hcat, <-app_assoc; done).
  split; try done.
  - destruct HC as [A1 A2 A3 A4 A5 A6 A7]. split; rewrite ?HN; done.
  - by rewrite Ecat.
  - rewrite Hperm in Hsorted. apply Forall_cons in Hsorted as [[_ Hb] Hrest]. destruct it as [|a it]; [done|]. constructor; [|done].
    split; [done|]. by inversion Hb.
  - intros d r Hd Hr. rewrite Ecat in Hr. assert (r ∈ concat its) as Hr' by (rewrite Hcat; by right).
    apply elem_of_snoc in Hd as [Hd|Hd]; [by apply Hord|]. rewrite Hd. by apply Hmin.
  - intros l [= <-]. split; [exists b; split; [apply elem_of_app; right; left|done]|]. intros d [Hd| ->]%elem_of_snoc; [|done].
    apply Hord; [done|]. rewrite Hcat. left.
  - intros e. rewrite HY', Hmark. split.
    + intros [(l & -> & (d & Hd & Hl & Hn) & Hb)|[-> Hb]].
      * exists (ilabel b). split; [done|]. split; [|done]. exists d. destruct Hcur' as [[= <-]|[? _]]; [|done].
        split_and!; [apply elem_of_app; by left|done|done].
      * exists (ilabel b). split; [done|]. split; [|done]. exists b. split_and!; [apply elem_of_app; right; left|done|unfold s; lia].
    + intros (l & [= <-] & (d & [Hd| ->]%elem_of_snoc & Hl & Hn) & Hb).
      * left. destruct Hcur' as [->|[_ Hne]]; [|by destruct (Hne d Hd)]. exists (ilabel b). split; [done|]. split; [|done]. by exists d.
      * right. assert (e = s) as -> by (unfold s; lia). done.
  - intros l u v (d & [Hd| ->]%elem_of_snoc & Hl) Hne Hv E; [|congruence]. apply (Hstab l u v); [by exists d| |done|done].
    destruct Hcur' as [->|[-> _]]; done.
  - by rewrite HN.
Qed.

Context (take_top : ∀ A, (A → A → bool) → list A → option (A * list A)) (Htop : takes_top take_top).

(** The iterator that comes first has a smallest label. *)
Lemma take_iterator its : its ≠ [] → Forall (λ it, it ≠ [] ∧ Sorted Z.le (ilabel <$> it)) its →
  ∃ b it its', take_top _ ArcIterCompare its = Some (b :: it, its') ∧ its ≡ₚ (b :: it) :: its' ∧ ∀ r, r ∈ concat its → ilabel b ≤ ilabel r.
Proof using Htop.
  intros Hne Hf. rewrite Forall_forall in Hf.
  destruct (Htop _ (ArcIterCompare (R:=R)) its Hne) as (it & its' & E & Hperm & Htp).
  - intros [|a l] [|b k] _ _; simpl; lia || done.
  - intros [|a l] [|b k] [|c j] Ha Hb Hc; try (by destruct (Hf _ Ha)); try (by destruct (Hf _ Hb)); try (by destruct (Hf _ Hc)). simpl. lia.
  - assert (it ∈ its) as Hin by (rewrite Hperm; left). destruct (Hf it Hin) as [Hnil Hsort]. destruct it as [|b it]; [done|].
    exists b, it, its'. split; [done|]. split; [done|]. intros r Hr. apply elem_of_concat in Hr as (k & Hk & Hr).
    assert (∀ (a : Arc R) k, Sorted Z.le (ilabel <$> a :: k) → ∀ r, r ∈ a :: k → ilabel a ≤ ilabel r) as Hfirst.
    { intros a k' Hs r' Hr'. apply Sorted_StronglySorted in Hs; [|intros ? ? ?; lia]. rewrite fmap_cons in Hs.
      apply StronglySorted_inv in Hs as [_ Hs]. apply elem_of_cons in Hr' as [->|Hr']; [lia|]. rewrite Forall_forall in Hs.
      apply Hs. by apply list_elem_of_fmap_2. }
    pose proof Hk as Hk'. rewrite Hperm in Hk'. apply elem_of_cons in Hk' as [->|Hk']; [by apply (Hfirst b it)|].
    specialize (Htp k Hk'). destruct (Hf k Hk) as [Hnk Hsk]. destruct k as [|a k]; [done|]. simpl in Htp.
    pose proof (Hfirst a k Hsk r Hr). lia.
Qed.

Definition labels_of (l : list (Arc R)) : gset Z := list_to_set (ilabel <$> l).

Lemma elem_of_labels_of l (k : Z) : k ∈ labels_of l ↔ ∃ b, b ∈ l ∧ ilabel b = k.
Proof using.
  unfold labels_of. rewrite elem_of_list_to_set, list_elem_of_fmap. split; intros (b & ? & ?); exists b; done.
Qed.

(** The labels that no arc of [D] has. *)
Definition labels_left D : Z := Z.of_nat (size (labels_of All ∖ labels_of D)).

Lemma labels_left_nonneg D : 0 ≤ labels_left D.
Proof using. unfold labels_left. lia. Qed.

Lemma label_is_new D b : b ∈ All → (∀ d, d ∈ D → ilabel d ≠ ilabel b) →
  labels_left (D ++ [b]) + 1 = labels_left D.
Proof using.
  intros Hb Hne. unfold labels_left. assert (labels_of All ∖ labels_of D = {[ilabel b]} ∪ labels_of All ∖ labels_of (D ++ [b])) as ->.
  { apply set_eq. intros k. rewrite elem_of_union, elem_of_singleton, !elem_of_difference, !elem_of_labels_of. split.
    - intros [H1 H2]. destruct (decide (k = ilabel b)) as [|Hk]; [by left|right]. split; [done|].
      intros (d & [Hd| ->]%elem_of_snoc & Hl); [apply H2; by exists d|congruence].
    - intros [->|[H1 H2]].
      + split; [by exists b|]. intros (d & Hd & Hl). by apply (Hne d Hd).
      + split; [done|]. intros (d & Hd & Hl). apply H2. exists d. split; [apply elem_of_app; by left|done]. }
  pose proof (size_union (C:=gset Z) {[ilabel b]} (labels_of All ∖ labels_of (D ++ [b]))) as E. rewrite size_singleton in E.
  rewrite E; [lia|]. intros k. rewrite elem_of_singleton, elem_of_difference, !elem_of_labels_of.
  intros -> [_ Hn]. apply Hn. exists b. split; [apply elem_of_app; right; left|done].
Qed.

Lemma label_is_old D b d : d ∈ D → ilabel d = ilabel b → labels_left (D ++ [b]) = labels_left D.
Proof using.
  intros Hd Hl. unfold labels_left. do 2 f_equal. apply set_eq. intros k. rewrite !elem_of_difference, !elem_of_labels_of. split; intros [H1 H2]; (split; [done|]).
  - intros (e & He & Hk). apply H2. exists e. split; [apply elem_of_app; by left|done].
  - intros (e & [He| ->]%elem_of_snoc & Hk); apply H2; [by exists e|exists d; split; [done|congruence]].
Qed.

(** The loop over the arcs into the class. *)
Lemma split_arcs_ok (max : Z) fuel : ∀ P L cls Y D its cur (prev : Z),
  splitting P L cls Y D its cur → cur = Some prev ∨ cur = None ∧ D = [] → (arcs_left its ≤ fuel)%nat →
  yes_counter_ P + labels_left D < max →
  ∃ P' L' cls' Y' D' cur', split_arcs take_top max fuel P L its prev = Some (P', L') ∧ splitting P' L' cls' Y' D' [] cur' ∧
    yes_counter_ P' ≤ yes_counter_ P + labels_left D.
Proof using All Hnext Hsrc Hsame Hsym Htop.
  induction fuel as [|fuel IH]; intros P L cls Y D its cur prev Hs Hcur Hfuel Hmax; pose proof (split_sorted _ _ _ _ _ _ _ Hs) as Hsorted;
    pose proof (labels_left_nonneg D) as Hleft.
  { assert (its = []) as ->; [|exists P, L, cls, Y, D, cur; split; [done|split; [done|lia]]].
    destruct its as [|[|b it] its]; [done|by apply Forall_inv in Hsorted as [? _]|]. unfold arcs_left in Hfuel. simpl in Hfuel. lia. }
  destruct its as [|it0 its0] eqn:Eits; [exists P, L, cls, Y, D, cur; split; [done|split; [done|lia]]|]. rewrite <-Eits in *.
  destruct (take_iterator its) as (b & it & its' & Etop & Hperm & Hmin); [by rewrite Eits|done|].
  assert (split_arcs take_top max (S fuel) P L its prev =
    ('(P, L) ← (if negb (prev =? ilabel b) then FinalizeSplit max (Some (Enqueue [])) P L else Some (P, L));
     from_class ← ClassId P (nextstate b - 1); size ← ClassSize P from_class;
     P ← (if 1 <? size then SplitOn P (nextstate b - 1) else Some P);
     split_arcs take_top max fuel P L (match it with [] => its' | _ => it :: its' end) (ilabel b))) as ->.
  { rewrite Eits in *. cbn [split_arcs]. rewrite Etop. done. }
  assert (concat its ≡ₚ b :: it ++ concat its') as Hcat by (rewrite Hperm; done).
  assert (b ∈ All) as HbA by (rewrite <-(split_all _ _ _ _ _ _ _ Hs), Hcat; apply elem_of_app; right; left).
  assert (∀ d, d ∈ D → ilabel d ≤ ilabel b) as HDb.
  { intros d Hd. apply (split_order _ _ _ _ _ _ _ Hs d b Hd). rewrite Hcat. left. }
  assert (∃ P1 L1 cls1 Y1 cur1, (if negb (prev =? ilabel b) then FinalizeSplit max (Some (Enqueue [])) P L else Some (P, L)) = Some (P1, L1) ∧
    splitting P1 L1 cls1 Y1 D its cur1 ∧ (cur1 = Some (ilabel b) ∨ cur1 = None ∧ ∀ d, d ∈ D → ilabel d ≠ ilabel b) ∧
    yes_counter_ P1 + labels_left (D ++ [b]) ≤ yes_counter_ P + labels_left D)
    as (P1 & L1 & cls1 & Y1 & cur1 & -> & Hs1 & Hcur1 & Hctr1).
  { destruct (Z.eqb_spec prev (ilabel b)) as [E|Hne]; simpl.
    - exists P, L, cls, Y, cur. split; [done|]. split; [done|]. destruct Hcur as [->|[-> ->]].
      + split; [left; by rewrite E|]. destruct (proj1 (split_cur _ _ _ _ _ _ _ Hs prev eq_refl)) as (d & Hd & Hl).
        rewrite (label_is_old D b d) by (done || congruence). lia.
      + split; [right; split; [done|]; by intros d ?%not_elem_of_nil|]. pose proof (label_is_new [] b HbA ltac:(by intros d ?%not_elem_of_nil)). lia.
    - assert (∀ d, d ∈ D → ilabel d ≠ ilabel b) as Hnew.
      { intros d Hd E. destruct Hcur as [->|[_ ->]]; [|by apply not_elem_of_nil in Hd].
        destruct (split_cur _ _ _ _ _ _ _ Hs prev eq_refl) as [(d' & Hd' & Hl') Hle].
        pose proof (Hle d Hd). pose proof (HDb d' Hd'). lia. }
      destruct (finalize_splitting max P L cls Y D its cur Hs) as (P1 & L1 & cls1 & E1 & Hs1 & Hc1).
      + intros r Hr. destruct Hcur as [->|[-> _]]; [|done]. intros [= E]. pose proof (Hmin r Hr).
        destruct (split_cur _ _ _ _ _ _ _ Hs prev eq_refl) as [(d' & Hd' & Hl') Hle]. pose proof (HDb d' Hd'). lia.
      + lia.
      + exists P1, L1, cls1, ∅, None. split_and!; [done|done|by right|]. pose proof (label_is_new D b HbA Hnew). lia. }
  cbn [mbind option_bind].
  destruct (mark_splitting P1 L1 cls1 Y1 D its its' cur1 b it Hs1 Hperm Hmin Hcur1) as (c & size & P2 & Y2 & -> & E2 & E3 & Hs2 & Hctr2).
  cbn [mbind option_bind]. rewrite E2. cbn [mbind option_bind]. rewrite E3. cbn [mbind option_bind].
  destruct (IH P2 L1 cls1 Y2 (D ++ [b]) _ (Some (ilabel b)) (ilabel b) Hs2) as (P' & L' & cls' & Y' & D' & cur' & E & Hs' & Hctr'); [by left| |lia|].
  - assert (arcs_left (match it with [] => its' | _ => it :: its' end) = length (it ++ concat its')) as -> by by destruct it.
    unfold arcs_left in Hfuel. rewrite Hcat in Hfuel. simpl in Hfuel. lia.
  - exists P', L', cls', Y', D', cur'. split; [done|]. split; [done|]. lia.
Qed.
End splitting.
