(* ===== verification/CyclicSpec.v ===== *)
(** The whole of [CyclicMinimizer] (openfst/lib/minimize.h): from the first classes by
finality and hash values, over the splits on the classes in the queue, to classes of
which the states accept the same. *)
From stdpp Require Import gmap.
From Stdlib Require Import Sorting.Sorted.
From S2P Require Import Prelude Weight FloatWeight Properties SymbolTable Fst VectorFst Mutation VectorSound.
From S2P Require Import MutableFst Rational RationalSpec ArcMap StateMap ArcSort Queue Reverse ReverseSpec Partition PartitionSplit Minimize Hopcroft Cyclic.
Local Open Scope Z_scope.

(** * One class *)

Section one_class.
Context `{WeightOps W} `{WeightOps R} (f : Fst W).
Context {Q} `{!StateQueue W Q} `{!BagLaws (W:=W) (Q:=Q) (λ c, 0 ≤ c)}.
Context (take_top : ∀ A, (A → A → bool) → list A → option (A * list A)) (Htop : takes_top take_top).
Context (next : Z → Z → option Z) (same : Z → Z → Prop) (fin : Z → Prop) (Λ : gset Z) (Tr : VectorFst R).
Context (Hvalid : ∀ s l t, next s l = Some t → valid f s ∧ valid f t ∧ l ∈ Λ).
Context (Hsym : ∀ s t, same s t → same t s) (Hsame : ∀ s t l u, same s t → next s l = Some u → ∃ v, next t l = Some v ∧ same u v).
Context (Htr : ∀ t s l, valid f t → (∃ b, b ∈ Arcs (vector_view Tr) (t + 1) ∧ ilabel b = l ∧ nextstate b = s + 1) ↔ next s l = Some t).
Context (Hsorted : ∀ t, Sorted Z.le (ilabel <$> Arcs (vector_view Tr) (t + 1))).
Implicit Types (P : Partition) (L : Q) (cls : gmap Z Z) (states : list Z).

Lemma open_iterators_in states it :
  it ∈ open_iterators Tr states ↔ ∃ s, s ∈ states ∧ it = Arcs (vector_view Tr) (s + 1) ∧ it ≠ [].
Proof using All.
  unfold open_iterators. induction states as [|s states IH] using rev_ind.
  - cbn [foldl]. split; [by intros ?%not_elem_of_nil|]. intros (s & ?%not_elem_of_nil & _). done.
  - rewrite foldl_app. cbn [foldl]. cbv zeta in *. revert IH. generalize (foldl (λ (aiter_queue : list (list (Arc R))) (s : Z),
      if negb (zlen (Arcs (vector_view Tr) (s + 1)) =? 0) then Arcs (vector_view Tr) (s + 1) :: aiter_queue else aiter_queue) [] states).
    intros its IH.
    set (arcs := Arcs (vector_view Tr) (s + 1)).
    assert (zlen arcs = 0 ↔ arcs = []) as Hz.
    { destruct arcs as [|a l]; [done|]. rewrite zlen_cons. pose proof (zlen_nonneg l). split; [lia|done]. }
    assert (it ∈ (if negb (zlen arcs =? 0) then arcs :: its else its) ↔ (it = arcs ∧ arcs ≠ []) ∨ it ∈ its) as ->.
    { destruct (Z.eqb_spec (zlen arcs) 0); simpl; rewrite ?elem_of_cons; tauto. }
    rewrite IH. split.
    + intros [[-> Hne]|(t & Ht & E)]; [exists s; rewrite elem_of_snoc; auto|exists t; rewrite elem_of_snoc; auto].
    + intros (t & [Ht| ->]%elem_of_snoc & -> & Hne); [right; by exists t|by left].
Qed.

Lemma open_before (C : Z) cls states : (∀ t, is_Some (cls !! t) ↔ valid f t) → (∀ t, t ∈ states ↔ cls !! t = Some C) →
  ∀ l s, before (concat (open_iterators Tr states)) l s ↔ target next cls s l = Some C.
Proof using All.
  intros Hdom Hst l s. unfold before, target. setoid_rewrite elem_of_concat. split.
  - intros (b & (it & Hit & Hb) & Hl & Hn). apply open_iterators_in in Hit as (t & Ht & -> & _). apply Hst in Ht.
    assert (next s l = Some t) as -> by (apply Htr; [apply Hdom; by eexists|]; by exists b). done.
  - intros Ht. apply bind_Some in Ht as (t & Ht & Hc). destruct (proj2 (Htr t s l ltac:(by eapply Hvalid)) Ht) as (b & Hb & Hl & Hn).
    exists b. split; [|done]. exists (Arcs (vector_view Tr) (t + 1)). split; [|done]. apply open_iterators_in. exists t.
    split; [by apply Hst|]. split; [done|]. intros E. rewrite E in Hb. by apply not_elem_of_nil in Hb.
Qed.

(** Splitting on one class. *)
Lemma Split_ok (max : Z) P L cls (Dn : Z → Prop) (C : Z) :
  partitioned P cls ∅ → classes f Dn same fin P L cls → Dn C → 0 ≤ C < NumClasses P →
  pending next cls (λ K, 0 ≤ K < NumClasses P ∧ (¬ Dn K ∨ K = C)) (λ _ _, True) →
  yes_counter_ P + Z.of_nat (size Λ) < max →
  ∃ P' L' cls', Split take_top max Tr P L C = Some (P', L') ∧ partitioned P' cls' ∅ ∧ classes f Dn same fin P' L' cls' ∧
    pending next cls' (λ K, 0 ≤ K < NumClasses P' ∧ ¬ Dn K) (λ _ _, True) ∧
    yes_counter_ P' ≤ yes_counter_ P + Z.of_nat (size Λ) + 1.
Proof using All.
  intros HP HC HDC Hrange Hpend Hmax. pose proof (classes_dom _ _ _ _ _ _ _ HC) as Hdom.
  destruct (proj2 (partitioned_view P cls HP) C Hrange) as (head & states & Ehead & Eit & Hnd & Hst & _).
  unfold Split. rewrite Ehead. cbn [mbind option_bind]. rewrite Eit. cbn [mbind option_bind]. cbv zeta.
  set (its := open_iterators Tr states). set (All := concat its).
  assert (∀ l s, before All l s ↔ target next cls s l = Some C) as Hbefore by by apply open_before.
  assert (∀ b, b ∈ All → ∃ t, next (nextstate b - 1) (ilabel b) = Some t) as Harc.
  { intros b Hb. assert (target next cls (nextstate b - 1) (ilabel b) = Some C) as Ht.
    { apply Hbefore. exists b. split_and!; [done|done|lia]. }
    unfold target in Ht. apply bind_Some in Ht as (t & Ht & _). by exists t. }
  assert (Hv1 : ∀ s l t, next s l = Some t → valid f t) by (intros s l t Ht; by apply Hvalid in Ht as (_ & ? & _)).
  assert (Hsrc : ∀ b, b ∈ All → valid f (nextstate b - 1)) by (intros b Hb; destruct (Harc b Hb) as (t & Ht); by apply Hvalid in Ht as (? & _)).
  assert (Hsb : ∀ s t l, same s t → before All l s → before All l t).
  { intros s t l Hst' Hb. apply Hbefore in Hb. apply Hbefore. unfold target in *. apply bind_Some in Hb as (u & Hu & Hc).
    destruct (Hsame s t l u Hst' Hu) as (v & -> & Huv). simpl. rewrite <-Hc. symmetry. by apply (classes_same _ _ _ _ _ _ _ HC). }
  assert (splitting f next All Dn same fin P L cls ∅ [] its None) as Hs0.
  { split; try done.
    - apply Forall_forall. intros it Hit. apply open_iterators_in in Hit as (t & _ & -> & Hne). by split.
    - by intros d r ?%not_elem_of_nil.
    - intros s. split; [set_solver|]. by intros (l & ? & _).
    - by intros l s t (d & ?%not_elem_of_nil & _).
    - eapply (pending_take next cls _ _ C); [|intros ? ?; apply Hbefore|exact Hpend]. intros K [HK [?| ->]]; [by right|by left]. }
  assert (labels_left All [] ≤ Z.of_nat (size Λ)) as Hlab.
  { unfold labels_left. apply inj_le, subseteq_size. intros l. rewrite elem_of_difference, !elem_of_labels_of.
    intros [(b & Hb & <-) _]. destruct (Harc b Hb) as (t & Ht). by apply Hvalid in Ht as (_ & _ & ?). }
  destruct (split_arcs_ok f next All Dn same fin Hv1 Hsrc Hsb Hsym take_top Htop max (arcs_left its) P L cls ∅ [] its None (-1) Hs0)
    as (P1 & L1 & cls1 & Y1 & D & cur & -> & Hs1 & Hc1); [by right|done|lia|]. cbn [mbind option_bind].
  destruct (finalize_splitting f next All Dn same fin Hv1 Hsrc Hsb Hsym max P1 L1 cls1 Y1 D [] cur Hs1) as (P' & L' & cls' & E & Hs' & Hc');
    [by intros r ?%not_elem_of_nil|lia|].
  exists P', L', cls'. split; [done|]. pose proof Hs' as [HP' HC' Hall _ _ _ _ Hstab Hpend'].
  split; [done|]. split; [done|]. split; [|lia].
  eapply (pending_done next cls'); [|exact Hpend']. intros s t l Hs E'.
  rewrite app_nil_r in Hall. assert (valid f s) as Hvs by by apply (classes_dom _ _ _ _ _ _ _ HC').
  destruct (decide (l ∈ labels_of All)) as [Hl|Hl].
  - apply elem_of_labels_of in Hl as (b & Hb & Hl). apply (Hstab l s t); [|done|done|done]. exists b. by rewrite Hall.
  - rewrite elem_of_labels_of in Hl. split; intros (b & Hb & Hbl & _); destruct Hl; by exists b.
Qed.

(** ** All classes *)

Lemma range_size (D : gset Z) (n : Z) : 0 ≤ n → (∀ K, K ∈ D → 0 ≤ K < n) → Z.of_nat (size D) ≤ n.
Proof using.
  intros Hn HD. assert (D ⊆ list_to_set (seqZ 0 n)) as Hsub%subseteq_size.
  { intros K HK%HD. apply elem_of_list_to_set, elem_of_seqZ. lia. }
  rewrite size_list_to_set, length_seqZ in Hsub by apply NoDup_seqZ. lia.
Qed.

Lemma Compute_ok (max : Z) fuel : ∀ P L cls (D : gset Z),
  partitioned P cls ∅ → classes f (λ K, K ∈ D) same fin P L cls → 0 ≤ NumStates f → (∀ K, K ∈ D → 0 ≤ K) →
  pending next cls (λ K, 0 ≤ K < NumClasses P ∧ K ∉ D) (λ _ _, True) →
  NumStates f ≤ Z.of_nat (size D) + Z.of_nat fuel → yes_counter_ P + Z.of_nat fuel * (Z.of_nat (size Λ) + 1) ≤ max →
  ∃ P' L' cls' Dn, Cyclic_Compute take_top max fuel Tr P L = Some P' ∧ partitioned P' cls' ∅ ∧ classes f Dn same fin P' L' cls' ∧
    ∀ s t l, valid f s → cls' !! s = cls' !! t → target next cls' s l = target next cls' t l.
Proof using All.
  induction fuel as [|fuel IH]; intros P L cls D HP HC Hn HD Hpend Hfuel Hmax;
    pose proof (classes_bag _ _ _ _ _ _ _ HC) as (B & HB & HinB); cbn [Cyclic_Compute]; rewrite (bag_empty L B HB); cbn [mbind option_bind].
  - assert (B = ∅) as HB0.
    { apply set_eq. intros K. split; [|set_solver]. intros HK. apply HinB in HK as [HK HKD]. exfalso.
      pose proof (range_size ({[K]} ∪ D) (NumClasses P) ltac:(lia)) as Hsz. rewrite size_union, size_singleton in Hsz by set_solver.
      pose proof (classes_few f (λ K, K ∈ D) same fin P L cls Hn HC). apply not_elem_of_empty in HK || idtac.
      assert (∀ K', K' ∈ {[K]} ∪ D → 0 ≤ K' < NumClasses P) as Hin.
      { intros K' [->%elem_of_singleton|HK']%elem_of_union; [done|]. split; [by apply HD|by apply (classes_done _ _ _ _ _ _ _ HC)]. }
      specialize (Hsz Hin). lia. }
    rewrite bool_decide_eq_true_2 by done. exists P, L, cls, (λ K, K ∈ D). split_and!; [done..|].
    intros s t l Hs E. eapply (pending_end next cls); [|exact Hpend|by apply (classes_dom _ _ _ _ _ _ _ HC)|done].
    intros K HK. apply HinB in HK. rewrite HB0 in HK. set_solver.
  - case_bool_decide as HB0.
    + exists P, L, cls, (λ K, K ∈ D). split_and!; [done..|].
      intros s t l Hs E. eapply (pending_end next cls); [|exact Hpend|by apply (classes_dom _ _ _ _ _ _ _ HC)|done].
      intros K HK. apply HinB in HK. rewrite HB0 in HK. set_solver.
    + destruct (bag_pop [] L B HB HB0) as (L1 & C & L2 & -> & E2 & HCB & HB2). cbn [mbind option_bind]. rewrite E2. cbn [mbind option_bind].
      apply HinB in HCB as HCr. destruct HCr as [HCr HCD].
      assert (classes f (λ K, K ∈ {[C]} ∪ D) same fin P L2 cls) as HC2.
      { destruct HC as [A1 A2 A3 A4 A5 A6 A7]. split; try done.
        - exists (B ∖ {[C]}). split; [done|]. intros K. rewrite elem_of_difference, elem_of_singleton, HinB, elem_of_union, elem_of_singleton. tauto.
        - intros K [->%elem_of_singleton|HK]%elem_of_union; [lia|by apply A5]. }
      assert (Z.of_nat (size ({[C]} ∪ D)) = Z.of_nat (size D) + 1) as Hsz.
      { pose proof (size_union (C:=gset Z) {[C]} D) as E. rewrite E, size_singleton by set_solver. lia. }
      destruct (Split_ok max P L2 cls (λ K, K ∈ {[C]} ∪ D) C HP HC2) as (P3 & L3 & cls3 & -> & HP3 & HC3 & Hpend3 & Hc3).
      * set_solver.
      * done.
      * intros s t l Hs E Hne. destruct (Hpend s t l Hs E Hne) as [(K & [HK HKD] & Hor)|?]; [left|by right].
        exists K. split; [|done]. split; [done|]. destruct (decide (K = C)); [by right|left; set_solver].
      * nia.
      * cbn [mbind option_bind]. apply (IH P3 L3 cls3 ({[C]} ∪ D)); try done.
        -- intros K [->%elem_of_singleton|HK]%elem_of_union; [lia|by apply HD].
        -- lia.
        -- nia.
Qed.
End one_class.

(** * The reversed machine *)

Section transposed.
Context `{WeightEq W} `{WeightEq R} `{!ReverseWeight W R} (f : Fst W) (Hwf : WellFormed f) (Hdet : Holds f IDeterministic).
Implicit Types (Tr : VectorFst R).

(** The arcs of the sorted reversal, past its new initial state. *)
Lemma transposed : ∃ Tr0 Tr, Reverse f (Some (NumStates f)) (VectorFst_new : VectorFst R) true = Some Tr0 ∧
  ArcSort Tr0 ILabelCompare = Some Tr ∧ VF_NumStates Tr = NumStates f + 1 ∧
  (∀ t s l, valid f t → (∃ b, b ∈ Arcs (vector_view Tr) (t + 1) ∧ ilabel b = l ∧ nextstate b = s + 1) ↔ delta f s l = Some t) ∧
  ∀ t, Sorted Z.le (ilabel <$> Arcs (vector_view Tr) (t + 1)).
Proof using All.
  assert (minv (VectorFst_new : VectorFst R)) as H0' by (apply (built_invariant (W:=R) _ (built_history []))).
  destruct (Reverse_runs f Hwf (Some (NumStates f)) (VectorFst_new : VectorFst R) true kNoStateId 0 0 H0' eq_refl (or_introl eq_refl))
    as (y & Hy & Hev). simpl in Hev. set (g := abs_reverse (R:=R) f 1 0) in *.
  set (Tr0 := mSetProperties y _ kFstProperties) in Hy. exists Tr0.
  assert (view Tr0 ≡ g) as Hv0 by (unfold Tr0; rewrite mSetProperties_view; by destruct Hev as [_ [? _ _ _ _]]).
  assert (minv Tr0) as Hi0 by (apply mSetProperties_minv; by destruct Hev).
  pose proof Hv0 as (V1 & V2 & _ & V4).
  destruct (StateMap_arcs Tr0 (stable_sort (less (ILabelCompare (W:=R)))) (compare_Properties (ILabelCompare (W:=R))) Hi0 eq_refl) as (z & Hz & [_ [(S1 & S2 & _ & S4) _ _ _ _]]);
    [by rewrite V1|].
  eexists. split; [exact Hy|]. split; [exact Hz|].
  set (Tr := mSetProperties z _ kFstProperties).
  assert (view Tr ≡ view z) as (T1 & T2 & _ & T4) by (unfold Tr; by rewrite mSetProperties_view).
  assert (∀ t, Arcs (vector_view Tr) t = stable_sort (less (ILabelCompare (W:=R))) (Arcs g t)) as HA.
  { intros t. change (vector_view Tr) with (view Tr). rewrite T4, S4. exact (f_equal (stable_sort _) (V4 t)). }
  split; [|split].
  - change (NumStates (view Tr) = NumStates f + 1). rewrite T2, S2. exact V2.
  - intros t s l Ht. rewrite HA. setoid_rewrite stable_sort_perm. unfold valid in Ht. subst g. cbn [Arcs abs_reverse].
    rewrite decide_True by lia. rewrite (proj2 (Z.eqb_neq (t + 1) 0)) by lia. cbn [app]. split.
    + intros (b & Hb & Hl & Hn). apply list_elem_of_omap in Hb as ([s' a] & Hp & Hb). apply elem_of_arcs_of in Hp as [Hs'%elem_of_seqZ Ha].
      simpl in Hb. destruct (Z.eqb_spec (nextstate a + 1) (t + 1)) as [E|]; [|done]. injection Hb as <-. simpl in *.
      assert (s' = s) as -> by lia. rewrite <-Hl. replace t with (nextstate a) by lia. apply arc_delta; [done|]. split; [unfold valid; lia|done].
    + intros (a & [Hs Ha] & Hl & Hn)%delta_arc. exists (turned f 1 0 (s, a)). split; [|split; [done|done]].
      apply list_elem_of_omap. exists (s, a). split; [apply elem_of_arcs_of; split; [apply elem_of_seqZ; unfold valid in Hs; lia|done]|].
      simpl. by rewrite Hn, Z.eqb_refl.
  - intros t. rewrite HA. apply (in_order_labels (less ILabelCompare) ilabel); [|by apply stable_sort_sorted, ilabel_weak_order].
    intros a b. simpl. lia.
Qed.
End transposed.

(** * The first classes *)

Section first_classes.
Context `{WeightOps W} (f : Fst W).
Implicit Types (s t : Z).

Definition final_state s : bool := wneqb (Final f s) Zero.

(** After the states below [m]. *)
Record initial_ok (m : Z) (ic : InitialClasses) : Prop := {
  initial_len : zlen (state_to_initial_class ic) = m;
  initial_nonneg : 0 ≤ next_class ic;
  initial_range : ∀ s c, (state_to_initial_class ic).[s] = Some c → 0 ≤ c < next_class ic;
  initial_used : ∀ c, 0 ≤ c < next_class ic → ∃ s, (state_to_initial_class ic).[s] = Some c;
  initial_map : ∀ (b : bool) h c, (if b then hash_to_class_final ic else hash_to_class_nonfinal ic) !! h = Some c ↔
    ∃ s, (state_to_initial_class ic).[s] = Some c ∧ final_state s = b ∧ StateILabelHasher f s = h;
  initial_key : ∀ s t c, (state_to_initial_class ic).[s] = Some c → (state_to_initial_class ic).[t] = Some c → final_state s = final_state t;
}.

Lemma vget_snoc {A} (l : list A) x i y : (l ++ [x]).[i] = Some y ↔ l.[i] = Some y ∨ i = zlen l ∧ y = x.
Proof using.
  rewrite vget_app. case_decide as Hi.
  - split; [by left|]. intros [?|[-> _]]; [done|lia].
  - split.
    + intros Hy. pose proof (vget_range _ _ _ Hy) as Hr. change (zlen [x]) with 1 in Hr. right. replace (i - zlen l) with 0 in Hy by lia.
      injection Hy as <-. split; [lia|done].
    + intros [Hy%vget_range|[-> ->]]; [lia|]. by rewrite Z.sub_diag.
Qed.

Lemma initial_class_ok m ic : 0 ≤ m → initial_ok m ic → initial_ok (m + 1) (initial_class f ic m).
Proof using.
  intros Hm [Hlen Hnn Hr Hused Hmap Hkey]. unfold initial_class. set (b := wneqb (Final f m) Zero). set (h := StateILabelHasher f m).
  destruct ((if b then hash_to_class_final ic else hash_to_class_nonfinal ic) !! h) as [c|] eqn:E.
  - apply Hmap in E as (s & Hs & Hb & Hh). split; cbn [state_to_initial_class next_class hash_to_class_final hash_to_class_nonfinal].
    + rewrite zlen_app. change (zlen [c]) with 1. lia.
    + done.
    + intros t d [Ht|[_ ->]]%vget_snoc; by eapply Hr.
    + intros d (t & Ht)%Hused. exists t. apply vget_snoc. by left.
    + intros b' h' d. rewrite Hmap. split; intros (t & Ht & Hb' & Hh').
      * exists t. split; [apply vget_snoc; by left|done].
      * apply vget_snoc in Ht as [Ht|[-> ->]]; [by exists t|]. exists s. rewrite Hlen in *. split; [done|]. split; [by rewrite Hb|by rewrite Hh].
    + assert (∀ t, (state_to_initial_class ic).[t] = Some c → final_state t = b) as Hold by (intros t Ht; by rewrite (Hkey t s c)).
      intros t u d [Ht|[-> ->]]%vget_snoc [Hu|[-> Hd]]%vget_snoc; [by eapply Hkey|subst d|..]; rewrite ?Hlen.
      * by rewrite (Hold t).
      * by rewrite (Hold u).
      * done.
  - set (c := next_class ic) in *.
    assert (∀ ic', state_to_initial_class ic' = state_to_initial_class ic ++ [c] → next_class ic' = c + 1 →
      (if b then hash_to_class_final ic' else hash_to_class_nonfinal ic') = <[h := c]> (if b then hash_to_class_final ic else hash_to_class_nonfinal ic) →
      (if b then hash_to_class_nonfinal ic' else hash_to_class_final ic') = (if b then hash_to_class_nonfinal ic else hash_to_class_final ic) →
      initial_ok (m + 1) ic') as Hic.
    { intros ic' E1 E2 E3 E4. split; rewrite ?E1, ?E2.
      - rewrite zlen_app. change (zlen [c]) with 1. lia.
      - lia.
      - intros t d [Ht|[_ ->]]%vget_snoc; [apply Hr in Ht; lia|lia].
      - intros d Hd. destruct (decide (d = c)) as [->|Hne].
        + exists m. apply vget_snoc. right. split; [lia|done].
        + destruct (Hused d ltac:(lia)) as (t & Ht). exists t. apply vget_snoc. by left.
      - intros b' h' d.
        assert ((if b' then hash_to_class_final ic' else hash_to_class_nonfinal ic') !! h' = Some d ↔
          (b' = b ∧ h' = h ∧ d = c) ∨ (if b' then hash_to_class_final ic else hash_to_class_nonfinal ic) !! h' = Some d) as ->.
        { destruct (decide (b' = b)) as [->|Hb'].
          - rewrite E3. destruct (decide (h' = h)) as [->|Hh'].
            + rewrite lookup_insert_eq. split; [intros [= <-]; by left|]. intros [(_ & _ & ->)|Hd]; [done|congruence].
            + rewrite lookup_insert_ne by done. split; [by right|]. intros [(_ & ? & _)|?]; done.
          - assert ((if b' then hash_to_class_final ic' else hash_to_class_nonfinal ic') = (if b' then hash_to_class_final ic else hash_to_class_nonfinal ic)) as ->
              by (by destruct b, b'). split; [by right|]. intros [(? & _)|?]; done. }
        rewrite Hmap. split.
        + intros [(-> & -> & ->)|(t & Ht & ? & ?)]; [exists m; split; [apply vget_snoc; right; split; [lia|done]|done]|].
          exists t. split; [apply vget_snoc; by left|done].
        + intros (t & [Ht|[-> ->]]%vget_snoc & Hb' & Hh'); [right; by exists t|left]. rewrite Hlen in *. done.
      - intros t u d [Ht|[-> ->]]%vget_snoc [Hu|[-> Hd]]%vget_snoc; [by eapply Hkey| | |done]; [apply Hr in Ht|apply Hr in Hu]; lia. }
    destruct b; apply Hic; done.
Qed.

Lemma initial_classes_ok n : 0 ≤ n → initial_ok n (foldl (initial_class f) (MkInitial ∅ ∅ [] 0) (seqZ 0 n)).
Proof using.
  revert n. refine (natlike_ind _ _ _).
  - assert (∀ s, (@nil Z).[s] = None) as Hnil by (intros s; apply vget_None; change (zlen (@nil Z)) with 0; lia).
    split; simpl; try done.
    + intros s c. by rewrite Hnil.
    + lia.
    + intros b h c. split; [by destruct b|]. intros (s & Hs & _). by rewrite Hnil in Hs.
    + intros s t c Hs. by rewrite Hnil in Hs.
  - intros n Hn IH. change (Z.succ n) with (n + 1). rewrite <-seqZ_snoc, foldl_app by done. by apply initial_class_ok.
Qed.
End first_classes.

(** Adding the elements one after the other, each to its class in a vector. *)
Lemma add_vector (P : Partition) (l : list Z) (n : Z) : partitioned P ∅ ∅ → 0 ≤ n ≤ zlen l → n ≤ zlen (elements_ P) →
  (∀ s c, l.[s] = Some c → 0 ≤ c < NumClasses P) →
  ∃ (P' : Partition) (cls : gmap Z Z), foldM (λ P s, c ← l.[s]; Add P s c) (seqZ 0 n) P = Some P' ∧ partitioned P' cls ∅ ∧ NumClasses P' = NumClasses P ∧
    yes_counter_ P' = yes_counter_ P ∧ ∀ s, cls !! s = if decide (s < n) then l.[s] else None.
Proof.
  intros HP Hn Hel Hl.
  destruct (foldM_total (λ P s, c ← l.[s]; Add P s c) (λ done P', ∃ cls : gmap Z Z, partitioned P' cls ∅ ∧ NumClasses P' = NumClasses P ∧
    yes_counter_ P' = yes_counter_ P ∧ zlen (elements_ P') = zlen (elements_ P) ∧ ∀ s, cls !! s = if decide (s < zlen done) then l.[s] else None) (seqZ 0 n) P)
    as (P' & HP' & cls & Hcls & HN & HC & _ & Hlook).
  - exists ∅. split_and!; try done. intros s. rewrite lookup_empty. change (zlen []) with 0. case_decide; [|done].
    symmetry. apply vget_None. lia.
  - intros done s todo P1 El (cls & HP1 & HN & HC & HZ & Hlook). assert (s = zlen done ∧ zlen done < n) as [-> Hd].
    { assert ((seqZ 0 n) !! length done = Some s) as HK by (rewrite El; by apply list_lookup_middle).
      apply lookup_seqZ in HK as [-> HK]. unfold zlen. lia. }
    pose proof (zlen_nonneg done) as Hd0. destruct (vget_in_range l (zlen done) ltac:(lia)) as [c Hc]. rewrite Hc. cbn [mbind option_bind].
    destruct (Add_ok P1 cls ∅ (zlen done) c HP1) as (P2 & E2 & HP2 & N2 & Z2 & C2).
    + rewrite Hlook. by rewrite decide_False by lia.
    + set_solver.
    + lia.
    + rewrite HN. by eapply Hl.
    + exists P2. split; [done|]. exists (<[zlen done := c]> cls). split_and!; [done|congruence..|]. intros s. rewrite zlen_app.
      change (zlen [zlen done]) with 1. destruct (decide (s = zlen done)) as [->|Hne].
      * rewrite lookup_insert_eq. by rewrite decide_True by lia.
      * rewrite lookup_insert_ne by done. rewrite Hlook. repeat case_decide; try done; lia.
  - exists P', cls. split_and!; [done..|]. intros s. rewrite Hlook. unfold zlen. rewrite length_seqZ, Z2Nat.id by lia. done.
Qed.

Section initialize.
Context `{WeightEq W} `{WeightEq R} `{!ReverseWeight W R} (f : Fst W) (Hwf : WellFormed f) (Hdet : Holds f IDeterministic).
Context {Q} `{!StateQueue W Q} `{!BagLaws (W:=W) (Q:=Q) (λ c, 0 ≤ c)}.
Implicit Types (P : Partition) (L : Q) (cls : gmap Z Z) (Tr : VectorFst R).

(** Before the first split: classes by finality and hash value, all of them in the
queue, and the arcs of the sorted reversal. *)
Lemma Initialize_classes (same : Z → Z → Prop) L :
  bag L ∅ → (∀ s t, same s t → valid f s ∧ valid f t ∧ (is_final f s ↔ is_final f t) ∧ StateILabelHasher f s = StateILabelHasher f t) →
  ∃ P L' Tr cls, Cyclic_Initialize (R:=R) f L = Some (P, L', Tr) ∧ partitioned P cls ∅ ∧
    classes f (λ K, K ∈ (∅ : gset Z)) same (is_final f) P L' cls ∧ yes_counter_ P = 1 ∧
    (∀ t s l, valid f t → (∃ b, b ∈ Arcs (vector_view Tr) (t + 1) ∧ ilabel b = l ∧ nextstate b = s + 1) ↔ delta f s l = Some t) ∧
    ∀ t, Sorted Z.le (ilabel <$> Arcs (vector_view Tr) (t + 1)).
Proof using All.
  intros HL Hs. destruct (transposed (R:=R) f Hwf Hdet) as (Tr0 & Tr & E1 & E2 & EN & Htr & Hsort).
  unfold Cyclic_Initialize. rewrite E1. cbn [mbind option_bind]. rewrite E2. cbn [mbind option_bind]. cbv zeta.
  replace (VF_NumStates Tr - 1) with (NumStates f) by lia. unfold PrePartition. cbv zeta. destruct Hwf as (Hn & _).
  destruct (initial_classes_ok f (NumStates f) Hn) as [Hlen Hnn Hr Hused Hmap Hkey].
  set (ic := foldl (initial_class f) _ _) in *. set (l := state_to_initial_class ic) in *.
  destruct (Initialize_ok (MkPartition [] [] [] 0) (NumStates f) (next_class ic)) as (HP0 & N0 & Z0 & C0); [done..|].
  destruct (add_vector (AllocateClasses (Initialize (MkPartition [] [] [] 0) (NumStates f)) (next_class ic)) l (NumStates f) HP0)
    as (P & cls & -> & HP & HN & HC & Hlook); [lia|lia|by rewrite N0|]. cbn [mbind option_bind].
  destruct (enqueue_bag L ∅ 0 (next_class ic) HL) as (L' & -> & B & HB & HinB); [lia|set_solver|].
  cbn [mbind option_bind]. exists P, L', Tr, cls. rewrite N0 in HN.
  assert (∀ s, cls !! s = l.[s]) as Hcls.
  { intros s. rewrite Hlook. case_decide as Hlt; [done|]. symmetry. apply vget_None. lia. }
  assert (∀ s, is_Some (cls !! s) ↔ valid f s) as Hdom.
  { intros s. rewrite Hcls. unfold valid. split; [intros [c Hc%vget_range]; lia|]. intros Hv. apply vget_in_range. lia. }
  assert (∀ s, valid f s → final_state f s = true ↔ is_final f s) as Hfin.
  { intros s Hv. unfold final_state, is_final. rewrite negb_true_iff. tauto. }
  split_and!; [done|done| |congruence|done|done]. split.
  - exact Hdom.
  - intros s c. rewrite Hcls, HN. apply Hr.
  - intros c. rewrite HN. setoid_rewrite Hcls. apply Hused.
  - exists B. split; [done|]. intros K. rewrite HinB, HN. set_solver by lia.
  - set_solver.
  - intros s t (Hvs & Ht & Hf & Hh)%Hs. destruct (proj2 (Hdom s) Hvs) as [c Hc], (proj2 (Hdom t) Ht) as [d Hd].
    rewrite Hc, Hd. f_equal. rewrite Hcls in Hc, Hd.
    pose proof (proj2 (Hmap (final_state f s) (StateILabelHasher f s) c) ltac:(by exists s)) as Hm1. pose proof (proj2 (Hmap (final_state f t) (StateILabelHasher f t) d) ltac:(by exists t)) as Hm2.
    assert (final_state f s = final_state f t) as E by (rewrite <-!Hfin in Hf by done; by apply eq_true_iff_eq). rewrite E, Hh in Hm1. congruence.
  - intros s t Hvs E HFs. destruct (proj2 (Hdom s) Hvs) as [c Hc]. assert (valid f t) as Ht by (apply Hdom; rewrite <-E; by eexists).
    apply Hfin; [done|]. rewrite <-(Hkey s t c); [by apply Hfin|by rewrite <-Hcls|by rewrite <-Hcls, <-E].
Qed.
End initialize.

(** * States with the same traces *)

Section traced.
Context `{WeightOps W} (f : Fst W).

(** The hash value depends on the sequence of labels alone. *)
Lemma hash_labels s t : ilabel <$> Arcs f s = ilabel <$> Arcs f t → StateILabelHasher f s = StateILabelHasher f t.
Proof using.
  unfold StateILabelHasher. generalize (433024223, u64 kNoLabel) as acc. revert t. generalize (Arcs f s) as l. intros l t. generalize (Arcs f t) as k.
  induction l as [|a l IH]; intros [|b k] acc E; try done. injection E as E1 E2. cbn [foldl]. destruct acc. rewrite E1. by apply IH.
Qed.

Lemma label_delta s l : valid f s → l ∈ ilabel <$> Arcs f s ↔ is_Some (delta f s l).
Proof using.
  intros Hs. unfold delta. rewrite decide_True by done. rewrite list_elem_of_fmap, fmap_is_Some. split.
  - intros (a & -> & Ha). assert (a ∈ filter (λ b, ilabel b = ilabel a) (Arcs f s)) as Hin by by apply list_elem_of_filter.
    destruct (filter _ _); [by apply not_elem_of_nil in Hin|by eexists].
  - intros [a Ha%head_Some_elem_of]. apply list_elem_of_filter in Ha as [<- Ha]. by exists a.
Qed.

Context (Hwf : wf_arcs f) (Hdet : Holds f IDeterministic) (Hsort : Holds f ILabelSorted) (Hco : ∀ s, valid f s → coaccessible f s).

Lemma same_traces_sym s t : same_traces f s t → same_traces f t s.
Proof using. intros (? & ? & E). split_and!; [done..|]. intros x. by rewrite E. Qed.

Lemma same_traces_labels s t : same_traces f s t → ilabel <$> Arcs f s = ilabel <$> Arcs f t.
Proof using All.
  intros Hst. pose proof Hst as (Hs & Ht & _). apply (Sorted_unique Z.le); [by apply Hsort..|].
  apply NoDup_Permutation; [by apply Hdet..|]. intros l. rewrite !label_delta by done. split; intros [u Hu].
  - destruct (same_traces_step f s t l u Hdet Hwf Hco Hst Hu) as (v & Hv & _). by eexists.
  - destruct (same_traces_step f t s l u Hdet Hwf Hco (same_traces_sym s t Hst) Hu) as (v & Hv & _). by eexists.
Qed.
End traced.

(** * The minimizer *)

Section cyclic_minimizer.
Context `{WeightEq W} `{WeightEq R} `{!ReverseWeight W R} {Q} `{!StateQueue W Q} `{!BagLaws (W:=W) (Q:=Q) (λ c, 0 ≤ c)}.
Implicit Types (f : Fst W) (L : Q).

(** The input labels of a machine. *)
Definition input_labels f : gset Z := list_to_set (seqZ 0 (NumStates f) ≫= λ s, ilabel <$> Arcs f s).

Lemma delta_label f s l t : wf_arcs f → delta f s l = Some t → valid f s ∧ valid f t ∧ l ∈ input_labels f.
Proof using.
  intros Hwf (a & [Hs Ha] & <- & <-)%delta_arc. split_and!; [done|by eapply Hwf|]. apply elem_of_list_to_set, list_elem_of_bind.
  exists s. split; [by apply list_elem_of_fmap_2|]. apply elem_of_seqZ. unfold valid in Hs. lia.
Qed.

(** The relation that no class may cut: states with the same traces, where arcs are
sorted and states are coaccessible. *)
Definition alike f (s t : Z) : Prop :=
  valid f s ∧ s = t ∨ (Holds f ILabelSorted ∧ ∀ s, valid f s → coaccessible f s) ∧ same_traces f s t.

Lemma alike_sym f s t : alike f s t → alike f t s.
Proof using. intros [[Hs <-]|[HG Hst]]; [by left|right; split; [done|by apply same_traces_sym]]. Qed.

Lemma alike_start f s t : wf_arcs f → Holds f IDeterministic → alike f s t →
  valid f s ∧ valid f t ∧ (is_final f s ↔ is_final f t) ∧ StateILabelHasher f s = StateILabelHasher f t.
Proof using.
  intros Hwf Hdet [[Hs <-]|[[HS Hco] Hst]]; [done|]. pose proof Hst as (Hs & Ht & Htrs). split_and!; [done..| |].
  - rewrite <-!traces_nil by done. apply Htrs.
  - apply hash_labels. by apply same_traces_labels.
Qed.

Lemma alike_step f s t l u : wf_arcs f → Holds f IDeterministic → alike f s t → delta f s l = Some u → ∃ v, delta f t l = Some v ∧ alike f u v.
Proof using.
  intros Hwf Hdet [[Hs <-]|[[HS Hco] Hst]] Hu.
  - exists u. split; [done|]. left. split; [by eapply delta_label|done].
  - destruct (same_traces_step f s t l u Hdet Hwf Hco Hst Hu) as (v & Hv & Huv). exists v. split; [done|]. by right.
Qed.

(** The classes that the minimizer ends with. *)
Lemma CyclicMinimizer_classes (take_top : ∀ A, (A → A → bool) → list A → option (A * list A)) (max_state : Z) f L :
  WellFormed f → Holds f IDeterministic → bag L ∅ → takes_top take_top →
  1 + NumStates f * (Z.of_nat (size (input_labels f)) + 1) ≤ max_state →
  ∃ P cls, CyclicMinimizer (R:=R) take_top max_state f L = Some P ∧ congruence f P cls ∧
    ∀ s t, alike f s t → cls !! s = cls !! t.
Proof using All.
  intros Hwf Hdet HL Htop Hmax. pose proof Hwf as (Hn & Harcs & _).
  destruct (Initialize_classes (R:=R) f Hwf Hdet (alike f) L HL) as (P0 & L0 & Tr & cls0 & E0 & HP0 & HC0 & Hctr0 & Htr & Hsorted);
    [intros s t; by apply alike_start|].
  assert (∀ s l t, delta f s l = Some t → valid f s ∧ valid f t ∧ l ∈ input_labels f) as Hvalid by (intros s l t; by apply delta_label).
  assert (∀ s t l u, alike f s t → delta f s l = Some u → ∃ v, delta f t l = Some v ∧ alike f u v) as Hstep by (intros s t l u; by apply alike_step).
  assert (pending (delta f) cls0 (λ K, 0 ≤ K < NumClasses P0 ∧ K ∉ (∅ : gset Z)) (λ _ _, True)) as Hpend.
  { intros s t l Hs _ Hne. left.
    assert (∀ s K, target (delta f) cls0 s l = Some K → 0 ≤ K < NumClasses P0 ∧ K ∉ (∅ : gset Z)) as Hin.
    { intros r K (u & _ & HK)%bind_Some. split; [by eapply (classes_range _ _ _ _ _ _ _ HC0)|set_solver]. }
    destruct (target (delta f) cls0 s l) as [K|] eqn:Es; [exists K; split; [by eapply Hin|by left]|].
    destruct (target (delta f) cls0 t l) as [K|] eqn:Et; [exists K; split; [by eapply Hin|by right]|done]. }
  destruct (Compute_ok f take_top Htop (delta f) (alike f) (is_final f) (input_labels f) Tr Hvalid (alike_sym f) Hstep Htr Hsorted
    max_state (Z.to_nat (NumStates f)) P0 L0 cls0 ∅ HP0 HC0 Hn) as (P & L' & cls & Dn & E & HP & HC & Hst);
    [set_solver|done|rewrite size_empty; lia|rewrite Hctr0; lia|].
  exists P, cls. pose proof HC as [Hdom _ Hused _ _ Hsm Hfin]. split; [|split; [by split|done]].
  unfold CyclicMinimizer. rewrite E0. exact E.
Qed.

(** C29: Hopcroft's minimization of a deterministic acceptor ends without an error, for
any queue that holds each class once, and whatever a priority queue does among equal
labels: every state is then in one class, no class is empty, states of one class accept
the same sequences of labels; and if arcs are sorted by label and every state leads to a
final one, states that accept the same sequences are in one class. *)
Theorem CyclicMinimizer_correct (take_top : ∀ A, (A → A → bool) → list A → option (A * list A)) (max_state : Z) f L :
  WellFormed f → Holds f IDeterministic → bag L ∅ → takes_top take_top →
  1 + NumStates f * (Z.of_nat (size (input_labels f)) + 1) ≤ max_state →
  ∃ P, CyclicMinimizer (R:=R) take_top max_state f L = Some P ∧
    (∀ s, valid f s → ∃ c, ClassId P s = Some c ∧ 0 ≤ c < NumClasses P) ∧
    (∀ c, 0 ≤ c < NumClasses P → ∃ s, valid f s ∧ ClassId P s = Some c) ∧
    (∀ s t, valid f s → valid f t → ClassId P s = ClassId P t → same_traces f s t) ∧
    (Holds f ILabelSorted → (∀ s, valid f s → coaccessible f s) →
      ∀ s t, same_traces f s t → ClassId P s = ClassId P t).
Proof using All.
  intros Hwf Hdet HL Htop Hmax. pose proof Hwf as (_ & Harcs & _).
  destruct (CyclicMinimizer_classes take_top max_state f L Hwf Hdet HL Htop Hmax) as (P & cls & E & HC & Hal).
  exists P. assert (∀ s, valid f s → ClassId P s = cls !! s) as Hid.
  { intros s Hs. by destruct (cong_class f P cls HC s Hs) as (c & -> & -> & _). }
  split; [done|]. split; [|split; [|split]].
  - intros s Hs. destruct (cong_class f P cls HC s Hs) as (c & _ & Hc). by exists c.
  - intros c (s & Hs)%(cong_used _ _ _ HC). assert (valid f s) as Hv by (apply (cong_dom _ _ _ HC); by eexists).
    exists s. split; [done|]. by rewrite Hid.
  - intros s t Hs Ht Est. rewrite !Hid in Est by done. by eapply cong_traces.
  - intros HS Hco s t Hstr. pose proof Hstr as (Hs & Ht & _). rewrite !Hid by done. apply Hal. right. done.
Qed.
End cyclic_minimizer.

Section examples.
Local Notation M := MinMaxWeight.

(** Labels 1 and 2 both lead to a state from which only 1 leads on, to a final state
and from there back to the start. *)
Definition looping : list (mutation M) :=
  [MAddStates 4; MSetStart 0; arc 0 1 1; arc 0 2 2; arc 1 1 3; arc 2 1 3; arc 3 1 0; MSetFinal 3 One].
Definition loop_machine : Fst M := vector_view (build looping).

Example looping_classes :
  (λ P, ClassId P <$> [0; 1; 2; 3]) <$> CyclicMinimizer (R:=M) (@take_first) 100 loop_machine (MkLifo []) =
  Some (Some <$> [0; 1; 1; 2]).
Proof. by vm_compute. Qed.

Lemma loop_machine_deterministic : Holds loop_machine IDeterministic ∧ Holds loop_machine ILabelSorted.
Proof.
  assert (∀ s, valid loop_machine s → s = 0 ∨ s = 1 ∨ s = 2 ∨ s = 3) as Hs.
  { intros s Hs. assert (NumStates loop_machine = 4) as E by by vm_compute. unfold valid in Hs. lia. }
  split; intros s [-> |[-> |[-> | ->]]]%Hs; vm_compute; repeat constructor; try set_solver; done.
Qed.

Lemma CyclicMinimizer_witness :
  ∃ P, CyclicMinimizer (R:=M) (@take_first) 100 loop_machine (MkLifo []) = Some P ∧
    (∀ s, valid loop_machine s → ∃ c, ClassId P s = Some c ∧ 0 ≤ c < NumClasses P) ∧
    (∀ c, 0 ≤ c < NumClasses P → ∃ s, valid loop_machine s ∧ ClassId P s = Some c) ∧
    (∀ s t, valid loop_machine s → valid loop_machine t → ClassId P s = ClassId P t → same_traces loop_machine s t) ∧
    (Holds loop_machine ILabelSorted → (∀ s, valid loop_machine s → coaccessible loop_machine s) →
      ∀ s t, same_traces loop_machine s t → ClassId P s = ClassId P t).
Proof.
  apply (CyclicMinimizer_correct (R:=M) (@take_first) 100 loop_machine (MkLifo [])).
  - by apply well_formedb_spec.
  - apply loop_machine_deterministic.
  - split; [constructor|]. intros s. set_solver.
  - apply take_first_top.
  - by vm_compute.
Defined.
End examples.
