(* ===== verification/Merge.v ===== *)
(** Merging the states of a class (openfst/lib/minimize.h, [MergeStates]): every arc is
led to the first state of the class of its destination, which gets the arcs of all the
states of its class, one after the other and in place.  Proved here, for the classes
that both refinements ensure: the machine that is left has the same traces from a state
that stands for its class as before, an unweighted acceptor the same language, and if
only states with the same traces were in one class, it is minimal. *)
From stdpp Require Import gmap.
From S2P Require Import Prelude Weight FloatWeight Properties SymbolTable Fst VectorFst Mutation VectorSound.
From S2P Require Import MutableFst Rational RationalLang RationalSpec ArcMap Renumber Connect Partition PartitionSplit Minimize Hopcroft.
Local Open Scope Z_scope.

(** * The merged machine *)

Section merged.
Context `{WeightOps W}.
Implicit Types (f g : Fst W) (P : Partition) (cls : gmap Z Z) (a b : Arc W).

Definition members P (c : Z) : list Z := default [] (class_states P c).

(** The state that stands for the class of [s]. *)
Definition rep P cls (s : Z) : Z := default s (cls !! s ≫= PartitionIterator P).

Definition relab P cls a : Arc W := set_nextstate (rep P cls (nextstate a)) a.

(** When the classes below [n] are merged. *)
Definition merged_arcs f P cls (n s : Z) : list (Arc W) :=
  match cls !! s with
  | Some c => if decide (c < n ∧ rep P cls s = s) then members P c ≫= λ t, relab P cls <$> Arcs f t else Arcs f s
  | None => Arcs f s
  end.

Definition abs_merged f P cls (n : Z) : Fst W := {|
  Start := Start f; NumStates := NumStates f; Final := Final f; Arcs := merged_arcs f P cls n;
  FstProperties := FstProperties f; InputSymbols := InputSymbols f; OutputSymbols := OutputSymbols f |}.

Section classes.
Context (f : Fst W) (P : Partition) (cls : gmap Z Z) (HC : congruence f P cls).
Notation rp := (rep P cls).

Lemma iterate_head fuel (head s : Z) l : iterate fuel P head = Some (s :: l) → head = s.
Proof using.
  destruct fuel as [|fuel]; simpl; destruct (PI_Done head); try done.
  intros (n & _ & (l' & _ & E)%bind_Some)%bind_Some. congruence.
Qed.

(** The states of a class, of which the first stands for the others. *)
Lemma class_members c : 0 ≤ c < NumClasses P →
  ∃ m rest, class_states P c = Some (m :: rest) ∧ PartitionIterator P c = Some m ∧ NoDup (m :: rest) ∧
    (∀ s, s ∈ m :: rest ↔ cls !! s = Some c) ∧ ∀ s, cls !! s = Some c → rp s = m.
Proof using HC.
  intros Hc. destruct (proj2 (partitioned_view P cls (cong_part _ _ _ HC)) c Hc) as (head & l & Eh & El & Hnd & Hin & _).
  destruct (cong_used _ _ _ HC c Hc) as (s & Hs). destruct l as [|m rest]; [by apply Hin, not_elem_of_nil in Hs|].
  assert (head = m) as -> by by eapply iterate_head.
  exists m, rest. unfold class_states. rewrite Eh. split_and!; [done..|]. intros t Ht. unfold rep. by rewrite Ht; simpl; rewrite Eh.
Qed.

Lemma rep_class s : valid f s → cls !! rp s = cls !! s ∧ valid f (rp s) ∧ rp (rp s) = rp s.
Proof using HC.
  intros Hs. destruct (cong_class f P cls HC s Hs) as (c & Hc & _ & Hr). destruct (class_members c Hr) as (m & rest & _ & _ & _ & Hin & Hrep).
  assert (cls !! m = Some c) as Hm by (apply Hin; left). rewrite (Hrep s Hc), Hc, (Hrep m Hm). split_and!; [done| |done].
  apply (cong_dom _ _ _ HC). by eexists.
Qed.

Lemma rep_eq s t : valid f s → valid f t → rp s = rp t ↔ cls !! s = cls !! t.
Proof using HC.
  intros Hs Ht. split; [|intros E; unfold rep; rewrite E; destruct (cong_class f P cls HC t Ht) as (c & -> & _ & Hr)].
  - intros E. rewrite <-(proj1 (rep_class s Hs)), E. by apply rep_class.
  - destruct (class_members c Hr) as (m & _ & _ & Eh & _). simpl. by rewrite Eh.
Qed.

Lemma members_in c t : t ∈ members P c → 0 ≤ c < NumClasses P → cls !! t = Some c ∧ valid f t.
Proof using HC.
  intros Ht Hc. destruct (class_members c Hc) as (m & rest & E & _ & _ & Hin & _). unfold members in Ht. rewrite E in Ht. simpl in Ht.
  apply Hin in Ht. split; [done|]. apply (cong_dom _ _ _ HC). by eexists.
Qed.

Lemma member_of s c : cls !! s = Some c → s ∈ members P c.
Proof using HC.
  intros Hs. assert (0 ≤ c < NumClasses P) as Hc by (apply (partitioned_view P cls (cong_part _ _ _ HC)) in Hs; apply Hs).
  destruct (class_members c Hc) as (m & rest & E & _ & _ & Hin & _). unfold members. rewrite E. by apply Hin.
Qed.

Notation g := (abs_set_start (abs_merged f P cls (NumClasses P)) (rp (Start f))).

(** The arcs of a state that stands for its class are those of the class. *)
Lemma merged_arc s b : valid f s → rp s = s →
  b ∈ Arcs g s ↔ ∃ t a, valid f t ∧ cls !! t = cls !! s ∧ a ∈ Arcs f t ∧ b = relab P cls a.
Proof using HC.
  intros Hs Hr. simpl. unfold merged_arcs. destruct (cong_class f P cls HC s Hs) as (c & Hc & _ & Hcr). rewrite Hc.
  rewrite decide_True by (split; [lia|done]). rewrite list_elem_of_bind. split.
  - intros (t & Hb & Ht). apply list_elem_of_fmap in Hb as (a & -> & Ha). destruct (members_in c t Ht Hcr) as [Hct Hvt].
    by exists t, a.
  - intros (t & a & Ht & Hct & Ha & ->). exists t. split; [by apply list_elem_of_fmap_2|]. by apply member_of.
Qed.

Context (Hwf : wf_arcs f).

Lemma merged_wf : 0 ≤ NumStates f → valid f (Start f) → WellFormed g.
Proof using HC Hwf.
  intros Hn Hst. split; [done|]. split; [|right; by apply rep_class].
  intros s b Hs Hb. change (valid f s) in Hs. change (valid f (nextstate b)). destruct (decide (rp s = s)) as [Hr|Hr].
  - apply merged_arc in Hb as (t & a & Ht & _ & Ha & ->); [|done..]. cbn. apply rep_class. by eapply Hwf.
  - simpl in Hb. unfold merged_arcs in Hb. destruct (cls !! s); [rewrite decide_False in Hb by tauto|]; by eapply Hwf.
Qed.

(** ** Paths *)

Lemma merged_path s p t : path f s p t → path g (rp s) (relab P cls <$> p) (rp t).
Proof using HC Hwf.
  induction 1 as [s Hs|s a p t Hs Ha Hp IH]; [constructor; by apply rep_class|]. rewrite fmap_cons.
  destruct (rep_class s Hs) as (Hc & Hv & Hr). apply (path_cons g (rp s) (relab P cls a)); [done| |exact IH].
  apply merged_arc; [done..|]. exists s, a. done.
Qed.

Context (Hdet : Holds f IDeterministic).

(** A path of the merged machine, and one with the same input labels from any state of
the class that it starts in. *)
Lemma merged_path_inv u p v : path g u p v → ∀ s, valid f s → rp s = u →
  ∃ q t, path f s q t ∧ rp t = v ∧ Forall2 (λ a b, ilabel a = ilabel b ∧ (∃ r, arc_in f r b) ∧ ∃ r c, arc_in f r c ∧ same_labels c a) p q.
Proof using HC Hwf Hdet.
  induction 1 as [u Hu|u b p v Hu Hb Hp IH]; intros s Hs Er; [exists [], s; split_and!; [by constructor|done|constructor]|].
  change (valid f u) in Hu. destruct (rep_class s Hs) as (Hcu & _ & Hru). rewrite Er in Hcu, Hru.
  apply merged_arc in Hb as (r & a & Hr & Hcr & Ha & ->); [|done..].
  assert (valid f (nextstate a)) as Hna by by apply (Hwf r).
  assert (delta f r (ilabel a) = Some (nextstate a)) as Hd by by apply arc_delta; [|split].
  pose proof (cong_step _ _ _ HC r s (ilabel a) Hr ltac:(congruence)) as Hst. unfold target in Hst. rewrite Hd in Hst.
  destruct (cong_class f P cls HC (nextstate a) Hna) as (c & Hc & _). simpl in Hst. rewrite Hc in Hst. symmetry in Hst.
  apply bind_Some in Hst as (t & Ht & Hct). destruct (delta_arc _ _ _ _ Ht) as (b & Hb & Hl & <-).
  assert (valid f (nextstate b)) as Hnb by by apply (Hwf s); [|apply Hb].
  destruct (IH (nextstate b) Hnb) as (q & w & Hq & Ew & HF).
  { cbn. apply rep_eq; [done..|]. congruence. }
  exists (b :: q), w. split_and!; [by apply path_cons; [|apply Hb|]|done|]. constructor; [|done]. cbn. split; [done|]. split; [by exists s|]. exists r, a. done.
Qed.

Lemma rep_final s : valid f s → is_final f (rp s) ↔ is_final f s.
Proof using HC.
  intros Hs. destruct (rep_class s Hs) as (Hc & Hv & _). split; by apply (cong_final _ _ _ HC).
Qed.

Lemma merged_traces s x : valid f s → traces g (rp s) x ↔ traces f s x.
Proof using HC Hwf Hdet.
  intros Hs. split.
  - intros (p & v & Hp & Hv & <-). destruct (merged_path_inv _ p v Hp s Hs eq_refl) as (q & t & Hq & Et & HF).
    assert (valid f t) as Ht by by eapply path_valid_r.
    exists q, t. split_and!; [done|apply rep_final; [done|]; by rewrite Et|]. clear -HF. induction HF as [|a b p q [E _] _ IH]; [done|].
    rewrite !fmap_cons. by rewrite IH, E.
  - intros (p & t & Hp & Ht & <-). exists (relab P cls <$> p), (rp t). split_and!; [by apply merged_path|apply rep_final; [apply Ht|done]|].
    rewrite <-list_fmap_compose. done.
Qed.

(** ** Unweighted acceptors *)

Definition unweighted_acceptor : Prop :=
  (∀ s a, arc_in f s a → olabel a = ilabel a ∧ weight a = One) ∧ ∀ s, valid f s → Final f s = if weqb (Final f s) Zero then Zero else One.

Lemma merged_accepts x y w : unweighted_acceptor → valid f (Start f) → accepts g x y w ↔ accepts f x y w.
Proof using HC Hwf Hdet.
  intros [Harc Hfin] Hst. assert (∀ s t, valid f s → cls !! s = cls !! t → is_final f s → Final f t = Final f s) as Hsame.
  { intros s t Hs E Hf. pose proof (cong_final _ _ _ HC s t Hs E Hf) as [Ht Hft]. destruct Hf as [_ Hf].
    rewrite (Hfin s Hs), (Hfin t Ht). by rewrite Hf, Hft. }
  split.
  - intros (p & v & Hp & Hv & <- & <- & Hpw). destruct (merged_path_inv _ p v Hp (Start f) Hst eq_refl) as (q & t & Hq & Et & HF).
    assert (valid f t) as Ht by by eapply path_valid_r. assert (is_final f t) as Hft by (apply rep_final; [done|]; by rewrite Et).
    destruct (same_labels_strings p q) as (-> & -> & Hw).
    { eapply Forall2_impl; [exact HF|]. intros a b (E & (r' & Hb) & r & c & Hc & E1 & E2 & E3).
      destruct (Harc _ _ Hb) as [O1 W1], (Harc _ _ Hc) as [O2 W2]. split; [done|]. split; congruence. }
    exists q, t. split_and!; [done..|]. rewrite <-Hw. cbn [Final abs_set_start abs_merged] in Hpw. rewrite (Hsame t v) in Hpw; [done|done| |done].
    rewrite <-Et. symmetry. by apply rep_class.
  - intros (p & t & Hp & Ht & <- & <- & Hpw). pose proof (proj1 Ht) as Hvt. exists (relab P cls <$> p), (rp t).
    destruct (same_labels_strings (relab P cls <$> p) p) as (-> & -> & Hw).
    { clear. induction p as [|a p IH]; [constructor|]. rewrite fmap_cons. by constructor. }
    split_and!; [by apply merged_path|by apply rep_final|done|done|].
    rewrite Hw. cbn [Final abs_set_start abs_merged]. rewrite (Hsame t (rp t)); [done|done| |done]. symmetry. by apply rep_class.
Qed.
End classes.
End merged.

(** * The mutations *)

Section loops.
Context `{MutableFstLaws W F}.
Implicit Types (x y z : F) (f g : Fst W) (P : Partition) (cls : gmap Z Z) (a : Arc W) (state_map : list Z).

(** One state: its arcs are led to the first states of their classes in place, or are
added to those of the first state of its class. *)
Lemma merge_state_evolves x y g P cls state_map (c m s : Z) :
  evolves x y g → valid g s → valid g m → state_map.[c] = Some m →
  (∀ a, a ∈ Arcs g s → ∃ k, ClassId P (nextstate a) = Some k ∧ state_map.[k] = Some (rep P cls (nextstate a))) →
  ∃ z, merge_state P state_map c y s = Some z ∧
    evolves x z (abs_set_arcs g m ((if decide (s = m) then [] else Arcs g m) ++ (relab P cls <$> Arcs g s))).
Proof.
  intros Hxy Hs Hm Hc Ha. unfold merge_state. rewrite (evolves_arcs x y g s Hxy). set (l := Arcs g s) in *.
  set (before := if decide (s = m) then [] else Arcs g m).
  destruct (foldM_total (merge_arc P state_map c s) (λ done z, evolves x z (abs_set_arcs g m
      (before ++ (relab P cls <$> take (length done) l) ++ if decide (s = m) then drop (length done) l else []))) (seqZ 0 (zlen l)) y)
    as (z & Hz & Hxz).
  - eapply evolves_equiv; [exact Hxy|]. simpl. rewrite drop_0. unfold before, l.
    etrans; [symmetry; apply (abs_set_arcs_same g m)|]. case_decide as E; [by rewrite E|]. by rewrite app_nil_r.
  - intros done i todo z [-> Hi]%seqZ_split Hxz. rewrite length_app, length_seqZ in *.
    replace (Z.to_nat i + length [i])%nat with (S (Z.to_nat i)) by (simpl; lia).
    destruct (vget_in_range l i) as [a Hai]; [lia|]. pose proof Hai as [_ Hla]%vget_Some.
    assert (drop (Z.to_nat i) l = a :: drop (S (Z.to_nat i)) l) as Hdrop by by apply drop_S.
    assert (relab P cls <$> take (S (Z.to_nat i)) l = (relab P cls <$> take (Z.to_nat i) l) ++ [relab P cls a]) as Htake.
    { by rewrite (take_S_r _ _ _ Hla), fmap_app. }
    assert (zlen (relab P cls <$> take (Z.to_nat i) l) = i) as Hlen.
    { rewrite zlen_fmap. unfold zlen in *. rewrite length_take. lia. }
    destruct (Ha a) as (k & Hk & Hmk); [by eapply vget_elem_of|].
    unfold merge_arc. rewrite (evolves_arcs x z _ s Hxz). cbn [abs_set_arcs Arcs].
    assert ((if decide (s = m) then before ++ (relab P cls <$> take (Z.to_nat i) l) ++ (if decide (s = m) then drop (Z.to_nat i) l else []) else Arcs g s).[i] = Some a) as ->.
    { unfold before. case_decide as E; [|exact Hai]. cbn [app]. rewrite vget_app, decide_False, Hlen, Z.sub_diag, Hdrop by lia. done. }
    cbn [mbind option_bind]. rewrite Hk. cbn [mbind option_bind]. rewrite Hmk, Hc. cbn [mbind option_bind]. fold (relab P cls a).
    destruct (Z.eqb_spec s m) as [E|Hne].
    + subst s. unfold before in *. rewrite !decide_True in * by done. cbn [app] in *.
      destruct (evolves_set_value x z _ m i (relab P cls a) Hxz) as (z' & Ez & Hz').
      * done.
      * cbn [abs_set_arcs Arcs]. rewrite decide_True by done. rewrite zlen_app, Hlen, Hdrop, zlen_cons.
        pose proof (zlen_nonneg (drop (S (Z.to_nat i)) l)). lia.
      * exists z'. split; [exact Ez|]. eapply evolves_equiv; [exact Hz'|]. rewrite abs_set_arcs_twice.
        cbn [abs_set_arcs Arcs]. rewrite decide_True by done. rewrite Hdrop, Htake, <-app_assoc.
        rewrite insert_app_r_alt by (unfold zlen in Hlen; lia).
        replace (Z.to_nat i - length (relab P cls <$> take (Z.to_nat i) l))%nat with 0%nat by (unfold zlen in Hlen; lia). done.
    + rewrite !decide_False in * by done. rewrite app_nil_r in *.
      destruct (evolves_add_arc x z _ m (relab P cls a) Hxz Hm) as (z' & Ez & Hz').
      exists z'. split; [exact Ez|]. eapply evolves_equiv; [exact Hz'|]. unfold abs_add_arc. rewrite abs_set_arcs_twice.
      cbn [abs_set_arcs Arcs]. rewrite decide_True by done. by rewrite Htake, !app_assoc.
  - exists z. split; [exact Hz|]. eapply evolves_equiv; [exact Hxz|]. rewrite length_seqZ. unfold zlen. rewrite Nat2Z.id, take_ge, drop_ge by done.
    by case_decide; rewrite app_nil_r.
Qed.

(** All the states of a class. *)
Lemma merge_class_evolves x y g P cls state_map (c m : Z) (rest : list Z) :
  evolves x y g → class_states P c = Some (m :: rest) → NoDup (m :: rest) → state_map.[c] = Some m →
  (∀ s, s ∈ m :: rest → valid g s) →
  (∀ s a, s ∈ m :: rest → a ∈ Arcs g s → ∃ k, ClassId P (nextstate a) = Some k ∧ state_map.[k] = Some (rep P cls (nextstate a))) →
  ∃ z, merge_class P state_map y c = Some z ∧ evolves x z (abs_set_arcs g m ((m :: rest) ≫= λ s, relab P cls <$> Arcs g s)).
Proof.
  intros Hxy Hst [Hm Hnd]%NoDup_cons Hc Hv Ha. unfold merge_class. rewrite Hst. cbn [mbind option_bind foldM].
  destruct (merge_state_evolves x y g P cls state_map c m m Hxy) as (y1 & -> & Hy1); [apply Hv; left|apply Hv; left|done|intros a; apply Ha; left|].
  cbn [mbind option_bind]. rewrite decide_True in Hy1 by done. cbn [app] in Hy1.
  destruct (foldM_total (merge_state P state_map c) (λ done z, evolves x z (abs_set_arcs g m ((m :: done) ≫= λ s, relab P cls <$> Arcs g s))) rest y1)
    as (z & Hz & Hxz).
  - eapply evolves_equiv; [exact Hy1|]. cbn. by rewrite app_nil_r.
  - intros done s todo z El Hxz. assert (s ∈ rest) as Hsr by (rewrite El; set_solver).
    assert (s ≠ m) as Hne by (intros ->; done).
    assert (∀ l, Arcs (abs_set_arcs g m l) s = Arcs g s) as Hsame by (intros l; cbn; by rewrite decide_False).
    destruct (merge_state_evolves x z _ P cls state_map c m s Hxz) as (z' & Ez & Hz').
    + apply Hv. by right.
    + apply Hv. left.
    + done.
    + intros a. rewrite Hsame. apply Ha. by right.
    + exists z'. split; [exact Ez|]. eapply evolves_equiv; [exact Hz'|]. rewrite abs_set_arcs_twice, decide_False, Hsame by done.
      cbn [abs_set_arcs Arcs]. rewrite decide_True by done. rewrite app_comm_cons, bind_app. cbn [mbind list_bind]. by rewrite app_nil_r.
  - by exists z.
Qed.
End loops.

Section merging.
Context `{TM : TimesMonoid W} {F : Type} `{!MutableFst W F} `{!MutableFstLaws W F}.
Implicit Types (x y z : F) (f g : Fst W) (P : Partition) (cls : gmap Z Z).

(** The first states of the classes. *)
Lemma first_states f P cls : congruence f P cls →
  ∃ state_map, foldM (λ state_map i, head ← PartitionIterator P i; Some (state_map ++ [head])) (seqZ 0 (NumClasses P)) [] = Some state_map ∧
    (∀ c, 0 ≤ c < NumClasses P → state_map.[c] = PartitionIterator P c) ∧
    ∀ s, valid f s → ∃ c, ClassId P s = Some c ∧ state_map.[c] = Some (rep P cls s).
Proof.
  intros HC.
  destruct (foldM_total (λ state_map i, head ← PartitionIterator P i; Some (state_map ++ [head]))
    (λ done sm, zlen sm = zlen done ∧ ∀ c, 0 ≤ c < zlen done → sm.[c] = PartitionIterator P c) (seqZ 0 (NumClasses P)) [])
    as (sm & Esm & _ & Hsm).
  - split; [done|]. intros c. change (zlen []) with 0. lia.
  - intros done i todo sm [-> Hi]%seqZ_split [Hl Hsm]. rewrite zlen_seqZ, Z.max_r in * by lia.
    destruct (class_members f P cls HC i Hi) as (m & rest & _ & Em & _). rewrite Em. cbn [mbind option_bind].
    eexists. split; [done|]. rewrite !zlen_app, zlen_seqZ, Z.max_r by lia. change (zlen [i]) with 1. change (zlen [m]) with 1.
    split; [lia|]. intros c Hc. rewrite vget_app, Hl. case_decide as Hlt; [apply Hsm; lia|].
    replace c with i by lia. by rewrite Z.sub_diag, Em.
  - rewrite zlen_seqZ, Z.max_r in Hsm by apply zlen_nonneg. exists sm. split; [done|]. split; [done|].
    intros s Hs. destruct (cong_class f P cls HC s Hs) as (c & Hc & Hid & Hr). exists c. split; [done|].
    destruct (class_members f P cls HC c Hr) as (m & rest & _ & Em & _ & _ & Hrep). by rewrite (Hsm c Hr), Em, (Hrep s Hc).
Qed.

Lemma merged_next f P cls (n m : Z) (rest : list Z) : congruence f P cls → 0 ≤ n < NumClasses P → class_states P n = Some (m :: rest) →
  abs_set_arcs (abs_merged f P cls n) m ((m :: rest) ≫= λ s, relab P cls <$> merged_arcs f P cls n s) ≡ abs_merged f P cls (n + 1).
Proof.
  intros HC Hn Est. destruct (class_members f P cls HC n Hn) as (m' & rest' & Est' & _ & Hnd & Hin & Hrep).
  rewrite Est in Est'. injection Est' as <- <-.
  assert (∀ s, s ∈ m :: rest → merged_arcs f P cls n s = Arcs f s) as Harcs.
  { intros s Hs%Hin. unfold merged_arcs. rewrite Hs. by rewrite decide_False by lia. }
  assert (((m :: rest) ≫= λ s, relab P cls <$> merged_arcs f P cls n s) = (members P n ≫= λ s, relab P cls <$> Arcs f s)) as ->.
  { unfold members. rewrite Est. apply Forall_bind_ext, Forall_forall. intros s Hs. by rewrite Harcs. }
  assert (cls !! m = Some n) as Hm by (apply Hin; left).
  repeat split; simpl; try done. intros s. unfold merged_arcs. case_decide as E.
  - subst s. rewrite Hm, decide_True; [done|]. split; [lia|by apply Hrep].
  - destruct (cls !! s) as [c|] eqn:Hs; [|done]. destruct (decide (c = n)) as [->|Hc].
    + rewrite !decide_False; [done| |]; intros [Hlt Hr]; [|lia]. apply E. rewrite <-Hr. by apply Hrep.
    + apply decide_ext. split; (intros [? ?]; split; [lia|done]).
Qed.

Lemma merge_classes_evolves x P cls state_map : minv x → congruence (view x) P cls → wf_arcs (view x) →
  (∀ c, 0 ≤ c < NumClasses P → state_map.[c] = PartitionIterator P c) →
  (∀ s, valid (view x) s → ∃ c, ClassId P s = Some c ∧ state_map.[c] = Some (rep P cls s)) →
  ∃ z, foldM (merge_class P state_map) (seqZ 0 (NumClasses P)) x = Some z ∧ evolves x z (abs_merged (view x) P cls (NumClasses P)).
Proof.
  intros Hx HC Hwf Hfirst Hmap.
  destruct (foldM_total (merge_class P state_map) (λ done z, evolves x z (abs_merged (view x) P cls (zlen done))) (seqZ 0 (NumClasses P)) x)
    as (z & Hz & Hxz).
  - eapply evolves_equiv; [by apply evolves_refl|]. repeat split; simpl; try done. intros s. unfold merged_arcs.
    destruct (cls !! s) as [c|] eqn:Hs; [|done]. rewrite decide_False; [done|]. change (zlen []) with 0.
    apply (partitioned_view P cls (cong_part _ _ _ HC)) in Hs as [_ Hr]. lia.
  - intros done n todo z [-> Hn]%seqZ_split Hxz. rewrite zlen_app, zlen_seqZ, Z.max_r in * by lia. change (zlen [n]) with 1.
    destruct (class_members (view x) P cls HC n Hn) as (m & rest & Est & Em & Hnd & Hin & _).
    assert (∀ s, s ∈ m :: rest → valid (view x) s ∧ cls !! s = Some n) as Hval.
    { intros s Hs%Hin. split; [apply (cong_dom _ _ _ HC); by eexists|done]. }
    destruct (merge_class_evolves x z _ P cls state_map n m rest Hxz Est Hnd) as (z' & Ez & Hz').
    + by rewrite Hfirst.
    + intros s Hs. by apply Hval.
    + intros s a Hs Ha. destruct (Hval s Hs) as [Hvs Hcs]. simpl in Ha. unfold merged_arcs in Ha. rewrite Hcs in Ha.
      rewrite decide_False in Ha by lia. apply Hmap. by apply (Hwf s).
    + exists z'. split; [exact Ez|]. eapply evolves_equiv; [exact Hz'|]. by apply merged_next.
  - exists z. split; [done|]. by rewrite zlen_seqZ, Z.max_r in Hxz by apply zlen_nonneg.
Qed.

Lemma keep_states_equiv f g (kept : list Z) : f ≡ g → abs_keep_states f kept ≡ abs_keep_states g kept.
Proof.
  intros (E1 & E2 & E3 & E4). repeat split; simpl; [by rewrite E1| |]; intros s; destruct (kept.[s]); simpl; by rewrite ?E3, ?E4.
Qed.

Lemma useful_equiv f g (r s : Z) : f ≡ g → rtc (edge f) r s ∧ coaccessible f s ↔ rtc (edge g) r s ∧ coaccessible g s.
Proof.
  assert (∀ f g, f ≡ g → ∀ r s, rtc (edge f) r s → rtc (edge g) r s) as Hr.
  { intros f1 f2 E r' s'. apply rtc_subrel. intros u v. by rewrite E. }
  assert (∀ f g, f ≡ g → rtc (edge f) r s ∧ coaccessible f s → rtc (edge g) r s ∧ coaccessible g s) as Hd; [|intros E; split; by apply Hd].
  intros f1 f2 E [Ha (t & Ht & Hf)]. split; [by eapply Hr|]. exists t. split; [by eapply Hr|]. by rewrite <-E.
Qed.

(** What [MergeStates] leaves, before and after trimming. *)
Lemma MergeStates_ok x P cls :
  minv x → WellFormed (view x) → SoundFst (view x) → valid (view x) (Start (view x)) → congruence (view x) P cls →
  let g := abs_set_start (abs_merged (view x) P cls (NumClasses P)) (rep P cls (Start (view x))) in
  ∃ y kept, MergeStates P x = Some y ∧
    leaves y (has (FstProperties (view x)) kError) (accepts g) ∧
    NoDup kept ∧ Forall (valid g) kept ∧ (∀ s, s ∈ kept ↔ rtc (edge g) (Start g) s ∧ coaccessible g s) ∧
    view y ≡ abs_keep_states g kept ∧
    InputSymbols (view y) = InputSymbols (view x) ∧ OutputSymbols (view y) = OutputSymbols (view x) ∧
    Holds (view y) Accessible ∧ Holds (view y) CoAccessible.
Proof.
  intros Hx Hwf Hs Hst HC g. pose proof Hwf as (Hn & Harcs & _).
  destruct (first_states _ P cls HC) as (sm & Esm & Hfirst & Hmap).
  destruct (merge_classes_evolves x P cls sm Hx HC Harcs Hfirst Hmap) as (z & Ez & Hxz).
  destruct (Hmap (Start (view x)) Hst) as (c & Hc & Hsc).
  assert (Start (view z) = Start (view x)) as ES by by destruct Hxz as [_ [(-> & _) _ _ _ _]].
  apply (evolves_set_start x z _ (rep P cls (Start (view x)))) in Hxz. fold g in Hxz. destruct Hxz as [Hz [Hv Hi Ho He Hsd]].
  set (z' := mSetStart z (rep P cls (Start (view x)))) in *.
  assert (WellFormed g) as Hwg by by apply merged_wf.
  assert (WellFormed (view z')) as Hwz by by rewrite Hv.
  destruct (Connect_holds z' Hz Hwz (Hsd Hs)) as (y & kept & Ey & Hl & Hsort & Hk & Hvy & Hiy & Hoy & Hacc & Hco & _).
  - rewrite (proj1 Hv). intros E. destruct (rep_class (view x) P cls HC _ Hst) as (_ & Hr & _). unfold valid in Hr. simpl in E. rewrite E in Hr. unfold kNoStateId in Hr. lia.
  - exists y, kept.
    assert (∀ s, s ∈ kept ↔ rtc (edge g) (Start g) s ∧ coaccessible g s) as Hk'.
    { intros s. rewrite Hk, (proj1 Hv). by apply useful_equiv. }
    split_and!; [|..]; try done.
    + unfold MergeStates. rewrite Esm. cbn [mbind option_bind]. rewrite Ez. cbn [mbind option_bind]. rewrite ES, Hc. cbn [mbind option_bind].
      rewrite Hsc. exact Ey.
    + destruct Hl as [L1 L2 L3 L4 L5]. split; try done.
      * intros Herr. apply L4, He, Herr.
      * intros a b w. rewrite L5, Hv. done.
    + by apply kept_NoDup.
    + apply Forall_forall. intros s [_ Hc']%Hk'. by apply coaccessible_valid in Hc'.
    + etrans; [exact Hvy|]. by apply keep_states_equiv.
    + by rewrite Hiy, Hi.
    + by rewrite Hoy, Ho.
Qed.
End merging.
