(* ===== verification/Unique.v ===== *)
(** Taking out equal arcs (openfst/lib/state-map.h, [ArcUniqueMapper]): the arcs of each
state are sorted and of several equal ones the first is kept.  Proved here: the machine
accepts what it accepted, with true property bits, and is deterministic if arcs of one
label differed in nothing. *)
From stdpp Require Import list.
From Stdlib Require Import Sorting.Sorted.
From S2P Require Import Prelude Weight FloatWeight Properties SymbolTable Fst VectorFst Mutation VectorSound.
From S2P Require Import MutableFst Rational RationalLang RationalSpec ArcMap StateMap ArcSort Renumber.
Local Open Scope Z_scope.

(** What [std::sort] promises, for a strict weak order. *)
Definition sorts {A} (std_sort : (A → A → bool) → list A → list A) : Prop :=
  ∀ lt l, WeakOrder lt → std_sort lt l ≡ₚ l ∧ in_order lt (std_sort lt l).

Lemma stable_sort_sorts {A} : sorts (λ lt (l : list A), stable_sort lt l).
Proof. intros lt l Hlt. split; [apply stable_sort_perm|by apply stable_sort_sorted]. Qed.

(** * The list of arcs *)

Section lists.
Context `{WeightEq W}.
Implicit Types (a b : Arc W) (l r : list (Arc W)).

#[export] Instance key_order : WeakOrder (key_less (W:=W)).
Proof.
  split; unfold key_less.
  - intros a b. rewrite !orb_true_iff, !orb_false_iff, !andb_true_iff, !andb_false_iff, !negb_true_iff, !negb_false_iff. lia.
  - intros a b c. rewrite !orb_false_iff, !andb_false_iff, !negb_false_iff. lia.
Qed.

Lemma key_less_ilabel a b : key_less b a = false → ilabel a ≤ ilabel b.
Proof. unfold key_less. rewrite orb_false_iff. lia. Qed.

Lemma unique_arcs_snoc l a : unique_arcs (l ++ [a]) = reverse (unique_arc (reverse (unique_arcs l)) a).
Proof. unfold unique_arcs. by rewrite foldl_app, reverse_involutive. Qed.

Lemma unique_arcs_cases l a :
  (∃ k last, unique_arcs l = k ++ [last] ∧ arc_eq last a = true ∧ unique_arcs (l ++ [a]) = unique_arcs l) ∨
  (unique_arcs (l ++ [a]) = unique_arcs l ++ [a] ∧ ∀ k last, unique_arcs l = k ++ [last] → arc_eq last a = false).
Proof.
  rewrite unique_arcs_snoc. set (u := unique_arcs l). destruct u as [|last k _] using rev_ind.
  - right. split; [done|]. by intros [|? ?] ? ?.
  - rewrite reverse_snoc. simpl. destruct (arc_eq last a) eqn:E.
    + left. exists k, last. split_and!; [done..|]. by rewrite reverse_cons, reverse_involutive.
    + right. split; [by rewrite !reverse_cons, reverse_involutive|]. intros k' last' Ek. by apply app_inj_tail in Ek as [_ <-].
Qed.

Lemma unique_arcs_sublist l : unique_arcs l `sublist_of` l.
Proof.
  induction l as [|a l IH] using rev_ind; [done|]. destruct (unique_arcs_cases l a) as [(k & last & _ & _ & ->)|[-> _]].
  - etrans; [exact IH|]. by apply sublist_inserts_r.
  - by apply sublist_app.
Qed.

(** Every arc is there, or one that equals it. *)
Lemma unique_arcs_keep l a : a ∈ l → ∃ b, b ∈ unique_arcs l ∧ (b = a ∨ arc_eq b a = true).
Proof.
  induction l as [|c l IH] using rev_ind; [by intros ?%not_elem_of_nil|].
  destruct (unique_arcs_cases l c) as [(k & last & E & Heq & ->)|[-> _]]; intros [Ha| ->]%elem_of_snoc.
  - by apply IH.
  - exists last. rewrite E. split; [set_solver|by right].
  - destruct (IH Ha) as (b & Hb & Hba). exists b. split; [set_solver|done].
  - exists c. split; [set_solver|by left].
Qed.

(** Where arcs of one label differ in nothing, one of them is left. *)
Lemma unique_arcs_labels l : in_order key_less l →
  (∀ a b, a ∈ l → b ∈ l → ilabel a = ilabel b → arc_eq a b = true) → NoDup (ilabel <$> unique_arcs l).
Proof.
  intros Hl Heq.
  assert (NoDup (ilabel <$> unique_arcs l) ∧ ∀ k last, unique_arcs l = k ++ [last] → ∀ b, b ∈ k → ilabel b ≤ ilabel last) as [? _]; [|done].
  induction l as [|a l IH] using rev_ind; [split; [constructor|by intros [|? ?]]|].
  assert (in_order key_less l ∧ ∀ b, b ∈ l → key_less a b = false) as [Hl' Ha].
  { clear -Hl. induction l as [|c l IH]; [split; [constructor|set_solver]|]. apply StronglySorted_inv in Hl as [Hl Hc].
    destruct (IH Hl) as [IH1 IH2]. assert (∀ b, b ∈ l ++ [a] → key_less b c = false) as Hc' by by apply Forall_forall.
    split; [constructor; [done|]; apply Forall_forall; intros b Hb; apply Hc'; set_solver|].
    intros b [->|Hb]%elem_of_cons; [apply Hc'; set_solver|by apply IH2]. }
  destruct IH as [Hnd Hord]; [done|intros b c Hb Hc; apply Heq; set_solver|].
  destruct (unique_arcs_cases l a) as [(k & last & _ & _ & ->)|[E Hne]]; [done|]. rewrite E.
  assert (∀ b, b ∈ unique_arcs l → ilabel b ≤ ilabel a) as Hle.
  { intros b Hb. apply key_less_ilabel, Ha. by eapply sublist_subseteq; [apply unique_arcs_sublist|]. }
  split.
  - rewrite fmap_app. apply NoDup_app. split; [done|]. split; [|apply NoDup_singleton].
    intros x Hx ->%list_elem_of_singleton. apply list_elem_of_fmap in Hx as (b & Hab & Hb).
    destruct (unique_arcs l) as [|last k _] eqn:Eu using rev_ind; [by apply not_elem_of_nil in Hb|].
    assert (last ∈ l) as Hlast by (eapply sublist_subseteq; [apply unique_arcs_sublist|]; rewrite Eu; set_solver).
    pose proof (Hne k last eq_refl) as Hneq. rewrite Heq in Hneq; [done|set_solver..|].
    assert (ilabel b ≤ ilabel last) by (apply elem_of_snoc in Hb as [Hb| ->]; [by eapply Hord|lia]).
    assert (ilabel last ≤ ilabel a) by (apply Hle; set_solver).
    lia.
  - intros k' last' [<- <-]%app_inj_tail b Hb. by apply Hle.
Qed.
End lists.

(** * The machine *)

Section machines.
Context `{WeightEq W}.
Implicit Types (f g : Fst W).

(** Fewer arcs, in any order. *)
Lemma fewer_arcs_sound f g p :
  Start g = Start f → NumStates g = NumStates f → (∀ s, Final g s = Final f s) → (∀ s, Arcs g s ⊆+ Arcs f s) →
  Sound p f → Sound (p &&& kArcSortProperties &&& kDeleteArcsProperties) g.
Proof.
  intros ES EN EF EA Hs.
  assert (∀ s, valid g s ↔ valid f s) as Hv by (intros s; unfold valid; by rewrite EN).
  assert (arcs_incl g f) as E.
  { intros u a [Hu Ha]. split; [by apply Hv|]. by eapply elem_of_submseteq. }
  assert (∀ lab : Arc W → Z, (∀ s, valid f s → NoDup (lab <$> Arcs f s)) → ∀ s, valid g s → NoDup (lab <$> Arcs g s)) as Hnd.
  { intros lab Hd s Hs'%Hv. specialize (Hd s Hs'). pose proof (fmap_submseteq lab _ _ (EA s)) as Hsub.
    apply submseteq_Permutation in Hsub as (k & Hk). rewrite Hk in Hd. by apply NoDup_app in Hd as [? _]. }
  sound_cases Hs.
  all: try (eapply holds_antitone; [|exact E|exact Hp]; reflexivity).
  all: try (intros Hg; apply Hn; eapply holds_monotone; [|exact E|exact Hg]; reflexivity).
  all: try (first [exact (Hnd ilabel Hp)|exact (Hnd olabel Hp)]).
  - intros [(u & a & Hu & Ha & Hw)|(u & Hu & Hw)]; apply Hn; [left|right].
    + destruct (E u a (conj Hu Ha)). by exists u, a.
    + exists u. rewrite <-EF. by rewrite <-Hv.
  - intros Hg. apply Hn. by eapply initial_cyclic_mono; [|exact E|].
  - intros Hg. apply Hn. intros u Hu%Hv. rewrite <-ES. by eapply arcs_incl_rtc, Hg.
  - intros Hg. apply Hn. intros u Hu%Hv. destruct (Hg u Hu) as (v & Hr & [Hfv Hf]).
    exists v. split; [by eapply arcs_incl_rtc|]. split; [by apply Hv|by rewrite <-EF].
Qed.
End machines.

(** * The operation *)

Section correct.
Context `{TM : TimesMonoid W} {F : Type} `{!MutableFst W F} `{!MutableFstLaws W F}.
Implicit Types (x y : F) (f g : Fst W) (p q : list (Arc W)).

(** Arcs that differ in nothing that the path's labels and weight show. *)
Definition same_arc (a b : Arc W) : Prop := key a = key b ∧ weight a ≡ weight b.
Definition covers f g : Prop :=
  NumStates f = NumStates g ∧ (∀ s, Final f s = Final g s) ∧ ∀ s a, a ∈ Arcs f s → ∃ b, b ∈ Arcs g s ∧ same_arc a b.

Lemma covers_path f g s p t : covers f g → path f s p t → ∃ q, path g s q t ∧ Forall2 same_arc p q.
Proof.
  intros (EN & _ & HA) Hp. assert (∀ s, valid f s → valid g s) as Hv by (intros u; unfold valid; by rewrite EN).
  induction Hp as [s Hs|s a p t Hs Ha Hp (q & Hq & HF)]; [exists []; split; constructor; by apply Hv|].
  destruct (HA s a Ha) as (b & Hb & E). exists (b :: q). split; [|by constructor].
  apply path_cons; [by apply Hv|done|]. destruct E as [[= _ _ <-] _]. done.
Qed.

Lemma same_arc_strings p q : Forall2 same_arc p q →
  ilabel <$> p = ilabel <$> q ∧ istring p = istring q ∧ ostring p = ostring q ∧ ∀ w, path_weight p w ≡ path_weight q w.
Proof.
  intros HF. assert (ilabel <$> p = ilabel <$> q ∧ olabel <$> p = olabel <$> q ∧ ∀ w, path_weight p w ≡ path_weight q w) as (Hi & Ho & Hw).
  { induction HF as [|a b p q [[= E1 E2 _] Hw] _ (IH1 & IH2 & IH3)]; [done|]. rewrite !fmap_cons, E1, E2, IH1, IH2.
    split_and!; [done..|]. intros w. simpl. by rewrite Hw, IH3. }
  unfold istring, ostring. by rewrite Hi, Ho.
Qed.

Lemma covers_final f g s : covers f g → is_final f s → is_final g s.
Proof. intros (EN & EF & _). unfold is_final, valid. by rewrite EN, EF. Qed.

Lemma covers_accepts f g a b w : covers f g → Start f = Start g → accepts f a b w → accepts g a b w.
Proof.
  intros HC ES (p & t & Hp & Ht & <- & <- & Hw). destruct (covers_path f g _ p t HC Hp) as (q & Hq & HF).
  destruct (same_arc_strings p q HF) as (_ & -> & -> & Hpw). exists q, t. rewrite <-ES.
  split_and!; [done|by eapply covers_final|done..|]. destruct HC as (_ & EF & _). by rewrite <-EF, <-Hpw.
Qed.

Context (std_sort : (Arc W → Arc W → bool) → list (Arc W) → list (Arc W)) (Hsort : sorts std_sort).
Notation unique := (λ l, unique_arcs (std_sort key_less l)).

Lemma unique_submseteq l : unique l ⊆+ l.
Proof using All.
  destruct (Hsort key_less l key_order) as [Hp _]. rewrite <-Hp at 2. apply sublist_submseteq, unique_arcs_sublist.
Qed.

Lemma unique_covers f : covers f (abs_map_arcs f unique) ∧ covers (abs_map_arcs f unique) f.
Proof using All.
  split; (split; [done|]); (split; [done|]); intros s a Ha.
  - destruct (Hsort key_less (Arcs f s) key_order) as [Hp _]. rewrite <-Hp in Ha.
    destruct (unique_arcs_keep _ _ Ha) as (b & Hb & E). exists b. split; [exact Hb|]. destruct E as [->|E]; [done|].
    unfold arc_eq, key_eq in E. rewrite !andb_true_iff, !Z.eqb_eq in E. destruct E as [[[E1 E2] E3] Hw].
    unfold same_arc, key. split; [congruence|]. symmetry. by apply weight_equiv_weqb.
  - exists a. split; [|done]. by eapply elem_of_submseteq; [|apply unique_submseteq].
Qed.

Lemma ArcUnique_ok x :
  minv x → WellFormed (view x) → SoundFst (view x) → Start (view x) ≠ kNoStateId →
  ∃ y, StateMap x (ArcUniqueMapper std_sort) = Some y ∧
    leaves y (has (FstProperties (view x)) kError) (accepts (view x)) ∧ view y ≡ abs_map_arcs (view x) unique ∧
    InputSymbols (view y) = InputSymbols (view x) ∧ OutputSymbols (view y) = OutputSymbols (view x).
Proof using All.
  intros Hx Hwf Hs Hst.
  assert (unique [] = []) as Hnil by by apply submseteq_nil_r, unique_submseteq.
  destruct (StateMap_arcs x unique (λ props, props &&& kArcSortProperties &&& kDeleteArcsProperties) Hx Hnil Hst) as (y & Hy & Hxy).
  eexists. split; [exact Hy|]. set (z := mSetProperties y _ kFstProperties). set (g := abs_map_arcs (view x) unique) in *.
  assert (view z ≡ g) as Hv by (etrans; [apply mSetProperties_view|]; by destruct Hxy as [_ [? _ _ _ _]]).
  destruct (mSetProperties_symbols y (mProperties x kFstProperties &&& kArcSortProperties &&& kDeleteArcsProperties) kFstProperties) as [Hi Ho].
  fold z in Hi, Ho. destruct (unique_covers (view x)) as [C1 C2].
  split_and!; [|done|by rewrite Hi; apply Hxy|by rewrite Ho; apply Hxy].
  eapply leaves_stored; [by left|exact Hxy| | | |].
  - destruct Hwf as (Hn & Ha & Hstart). split; [done|]. split; [|done]. intros s a Hs' Hin. change (valid (view x) (nextstate a)).
    apply (Ha s); [done|]. by eapply elem_of_submseteq; [|apply unique_submseteq].
  - apply (fewer_arcs_sound (view x)); [done..|intros s; apply unique_submseteq|].
    intros t. specialize (Hs t). unfold mProperties. revert Hs. destruct t; bits; done.
  - auto.
  - intros a b w. split; by apply covers_accepts.
Qed.
End correct.
