(* ===== verification/Acyclic.v ===== *)
(** The refinement by height for acyclic machines (openfst/lib/minimize.h,
[AcyclicMinimizer]): the visit computes the length of a longest path from every state,
the classes start out as the heights, and each is split by what the arcs of its states
lead to, from the final end on.  Proved here: on a trimmed deterministic unweighted
acceptor with sorted arcs two states end in one class exactly if they accept the same. *)
From stdpp Require Import gmap.
From Stdlib Require Import Sorting.Sorted.
From S2P Require Import Prelude Weight FloatWeight Properties SymbolTable Fst VectorFst Mutation VectorSound.
From S2P Require Import MutableFst Rational Dfs Tarjan Scc TopSort Partition PartitionSplit Minimize Hopcroft CyclicSpec Merge.
Local Open Scope Z_scope.

(** * Moving elements out of a class that an iterator runs over *)

Lemma segment_unique (els : list Element) c1 c2 (p1 p2 head : Z) (l k : list Z) :
  segment els c1 p1 head l (-1) → segment els c2 p2 head k (-1) → (∀ e, e ∈ l ++ k → 0 ≤ e) → l = k.
Proof.
  revert p1 p2 head k. induction l as [|e l IH]; intros p1 p2 head k Hl Hk Hpos.
  - simpl in Hl. destruct k as [|e k]; [done|]. destruct Hk as [E _]. specialize (Hpos e ltac:(set_solver)). lia.
  - destruct Hl as (-> & x & Hx & _ & _ & Hl). destruct k as [|e' k].
    + simpl in Hk. specialize (Hpos e ltac:(set_solver)). lia.
    + destruct Hk as (<- & x' & Hx' & _ & _ & Hk). simplify_eq. f_equal. eapply IH; [done..|].
      intros i Hi. apply Hpos. set_solver.
Qed.

Lemma Move_rest P cls e c0 c (prev : Z) (todo : list Z) :
  partitioned P cls ∅ → cls !! e = Some c0 → 0 ≤ c < NumClasses P → c ≠ c0 → segment (elements_ P) c0 prev e (e :: todo) (-1) →
  ∃ siter prev' P', PI_Next P e = Some siter ∧ Move P e c = Some P' ∧ partitioned P' (<[e := c]> cls) ∅ ∧
    NumClasses P' = NumClasses P ∧ zlen (elements_ P') = zlen (elements_ P) ∧ segment (elements_ P') c0 prev' siter todo (-1).
Proof.
  intros HP He Hcl Hne Hseg. destruct (Move_ok P cls ∅ e c0 c HP He ltac:(set_solver) Hcl) as (P' & E & HP' & HN & HZ & _).
  pose proof HP as (nl & yl & Hcore & _ & Hn & _).
  destruct (unmarked_elem P cls ∅ nl yl e c0 Hcore Hn He ltac:(set_solver)) as (x & cx & l & k & Hx & Hxc & Hcx & El & Hnd & els & head & Ex & Hl & Hr1 & Hr2).
  exists (next_element x). unfold PI_Next. rewrite Hx.
  destruct Hseg as (_ & x' & Hx' & _ & _ & Htodo). rewrite Hx in Hx'. injection Hx' as <-.
  assert (todo = k) as ->.
  { pose proof (core_no _ _ _ _ Hcore _ cx Hcx) as Hlist. rewrite El in Hlist.
    pose proof (segment_nonneg _ _ _ _ _ _ Hlist) as Hpos. apply segment_app in Hlist as (m & _ & -> & y & Hy & _ & _ & Hk). rewrite Hx in Hy. injection Hy as <-.
    eapply (segment_unique _ _ _ _ _ _ _ _ Htodo Hk). intros i [Hi|Hi]%elem_of_app; [by eapply (segment_nonneg _ _ _ _ _ _ Htodo)|apply Hpos; set_solver]. }
  pose proof (core_no _ _ _ _ Hcore) as Hlists. pose proof (core_unique _ _ _ _ Hcore) as Huniq.
  assert (∀ i, i ∈ k → i ∈ nl c0) as Hkin by (intros i Hi; rewrite El; set_solver).
  assert (e ∉ k) as Hek by (apply NoDup_app in Hnd as [Hnd _]; apply NoDup_app in Hnd as (_ & _ & Hnd); by apply NoDup_cons in Hnd as [? _]).
  pose proof E as E0. unfold Move in E. rewrite Hx in E. cbn [mbind option_bind] in E. rewrite Hxc, Hcx in E. cbn [mbind option_bind] in E.
  rewrite Ex in E. cbn [mbind option_bind] in E. apply bind_Some in E as (cs & Hcs & E).
  unfold Add in E. cbn [elements_ classes_] in E. apply bind_Some in E as (z & Hz & E). apply bind_Some in E as (cc & Hcc & E).
  cbv zeta in E. apply bind_Some in E as (els1 & E1 & E). apply bind_Some in E as (cs2 & _ & E). apply bind_Some in E as (els2 & E2 & E).
  injection E as <-. cbn [elements_].
  rewrite (vget_vset_ne _ _ _ _ _ Hcs) in Hcc by congruence.
  assert (∀ i, i ∈ k → els1.[i] = els.[i]) as H1.
  { intros i Hi. destruct (Z.leb_spec 0 (no_head cc)) as [H0|]; [|by injection E1 as <-]. apply bind_Some in E1 as (y & _ & E1).
    apply (vget_vset_ne _ _ _ _ _ E1). intros Ei. apply Hne. symmetry. pose proof (Hlists c cc Hcc) as Hlc. pose proof (linked_head _ _ _ _ Hlc) as Hh.
    destruct (nl c) as [|m r] eqn:Enl; simpl in Hh; [lia|].
    eapply (Huniq _ _ i); apply elem_of_app; left; [by apply Hkin|]. rewrite Enl. assert (i = m) as -> by congruence. left. }
  unfold linked in Hl. apply segment_app in Hl as (m & Hl1 & Hl2). exists (default (-1) (last l)). eexists.
  split; [done|]. split; [exact E0|]. split; [done|]. split; [done|]. split; [done|].
  assert (m = next_element x) as ->.
  { destruct k as [|a k]; simpl in Htodo, Hl2; [congruence|]. destruct Htodo as [-> _], Hl2 as [-> _]. done. }
  eapply segment_frame; [|exact Hl2]. intros i Hi. rewrite (vget_vset_ne _ _ _ _ _ E2) by (by intros ->). by rewrite H1.
Qed.

(** The list of a class. *)
Lemma class_segment P cls c : partitioned P cls ∅ → 0 ≤ c < NumClasses P →
  ∃ head l, PartitionIterator P c = Some head ∧ segment (elements_ P) c (-1) head l (-1) ∧ NoDup l ∧
    (∀ e, e ∈ l ↔ cls !! e = Some c) ∧ (length l ≤ length (elements_ P))%nat.
Proof.
  intros (nl & yl & Hcore & _ & Hn & _) Hc. destruct (vget_in_range (classes_ P) c Hc) as [x Hx]. unfold PartitionIterator. rewrite Hx.
  pose proof (core_no _ _ _ _ Hcore c x Hx) as Hl. pose proof (core_nodup _ _ _ _ Hcore c) as Hnd. apply NoDup_app in Hnd as [Hnd _].
  exists (no_head x), (nl c). split_and!; [done|done|done| |by eapply linked_length]. intros e. rewrite Hn. set_solver.
Qed.

(** * What the comparison tells apart *)

Section compare.
Context `{WeightOps W} `{!HashWeight W} (f : Fst W).
Implicit Types (cls : gmap Z Z) (P : Partition) (a b : Arc W) (l k : list (Arc W)).

Definition like cls a b : Prop := ilabel a = ilabel b ∧ cls !! nextstate a = cls !! nextstate b.

(** States that have the same hash value of the final weight, and arcs with the same
labels to the same classes. *)
Definition eqv cls (s t : Z) : Prop := Hash (Final f s) = Hash (Final f t) ∧ Forall2 (like cls) (Arcs f s) (Arcs f t).

Lemma eqv_refl cls s : eqv cls s s.
Proof using. split; [done|]. by apply Forall_Forall2_diag, Forall_true. Qed.

Lemma eqv_sym cls s t : eqv cls s t → eqv cls t s.
Proof using. intros [E HF]. split; [done|]. apply Forall2_flip. eapply Forall2_impl; [exact HF|]. by intros a b [-> ->]. Qed.

Lemma eqv_trans cls s t u : eqv cls s t → eqv cls t u → eqv cls s u.
Proof using.
  intros [E HF] [E' HF']. split; [congruence|]. revert HF'. generalize (Arcs f u) as j. induction HF as [|a b l k [E1 E2] _ IH]; intros j HF'.
  - by apply Forall2_nil_inv_l in HF' as ->.
  - apply Forall2_cons_inv_l in HF' as (c & j' & [E3 E4] & HF' & ->). constructor; [split; congruence|by apply IH].
Qed.

Lemma eqv_change cls cls' s t : (∀ a, a ∈ Arcs f s ++ Arcs f t → cls' !! nextstate a = cls !! nextstate a) → eqv cls s t ↔ eqv cls' s t.
Proof using.
  assert (∀ cls cls' : gmap Z Z, (∀ a, a ∈ Arcs f s ++ Arcs f t → cls' !! nextstate a = cls !! nextstate a) → eqv cls s t → eqv cls' s t) as Hd.
  { intros cls1 cls2 Hc [E HF]. split; [done|]. revert Hc HF. generalize (Arcs f s) as l, (Arcs f t) as k. intros l k Hc HF.
    induction HF as [|a b l k [E1 E2] _ IH]; constructor.
    - split; [done|]. by rewrite !Hc by set_solver.
    - apply IH. intros c Hin. apply Hc. set_solver. }
  intros Hc. split; apply Hd; [done|]. intros a Ha. by rewrite Hc.
Qed.

Context (P : Partition) (cls : gmap Z Z) (HP : partitioned P cls ∅).

Lemma compare_arcs_ok l k : (∀ a, a ∈ l ++ k → is_Some (cls !! nextstate a)) →
  ∃ lt1 lt2, compare_arcs P l k = Some lt1 ∧ compare_arcs P k l = Some lt2 ∧
    (length l = length k → lt1 = false ∧ lt2 = false ↔ Forall2 (like cls) l k).
Proof using HP.
  pose proof (proj1 (partitioned_view P cls HP)) as HV. revert k. induction l as [|a l IH]; intros k Hin.
  { exists false, false. split_and!; [done|by destruct k|]. intros E. destruct k; [|done]. by split. }
  destruct k as [|b k]; [by exists false, false|]. simpl.
  destruct (Hin a ltac:(set_solver)) as [c Hc], (Hin b ltac:(set_solver)) as [d Hd].
  rewrite (proj1 (HV _ _ Hc)), (proj1 (HV _ _ Hd)). cbn [mbind option_bind].
  assert (∀ lt1 lt2 : bool, lt1 || lt2 = true → (S (length l) = S (length k) → lt1 = false ∧ lt2 = false ↔ Forall2 (like cls) (a :: l) (b :: k)) ↔
    (S (length l) = S (length k) → ¬ Forall2 (like cls) (a :: l) (b :: k))) as Hne by (intros [] []; naive_solver).
  assert (∀ lt1 lt2 : bool, lt1 || lt2 = true → (ilabel a ≠ ilabel b ∨ c ≠ d) →
    (S (length l) = S (length k) → lt1 = false ∧ lt2 = false ↔ Forall2 (like cls) (a :: l) (b :: k))) as Hdiff.
  { intros lt1 lt2 Hb Hor. apply Hne; [done|]. intros _ HF. apply Forall2_cons in HF as [[E1 E2] _]. destruct Hor; congruence. }
  destruct (Z.ltb_spec (ilabel a) (ilabel b)), (Z.ltb_spec (ilabel b) (ilabel a)); try lia;
    [by exists true, false; split_and!; [..|apply Hdiff; [done|left; lia]]|by exists false, true; split_and!; [..|apply Hdiff; [done|left; lia]]|].
  destruct (Z.ltb_spec c d), (Z.ltb_spec d c); try lia;
    [by exists true, false; split_and!; [..|apply Hdiff; [done|right; lia]]|by exists false, true; split_and!; [..|apply Hdiff; [done|right; lia]]|].
  destruct (IH k) as (lt1 & lt2 & E1 & E2 & Hiff); [intros e He; apply Hin; set_solver|].
  exists lt1, lt2. split_and!; [done..|]. intros [= El]. rewrite (Hiff El), Forall2_cons. assert (like cls a b); [|tauto].
  split; [lia|]. rewrite Hc, Hd. f_equal. lia.
Qed.

Lemma StateComparator_ok s t : (∀ a, a ∈ Arcs f s ++ Arcs f t → is_Some (cls !! nextstate a)) →
  ∃ lt1 lt2, StateComparator f P s t = Some lt1 ∧ StateComparator f P t s = Some lt2 ∧ (lt1 = false ∧ lt2 = false ↔ eqv cls s t).
Proof using HP.
  intros Hin. unfold StateComparator, eqv.
  assert (∀ (lt1 lt2 : bool) Q, lt1 || lt2 = true → ¬ Q → lt1 = false ∧ lt2 = false ↔ Q) as Hdiff by (intros [] []; naive_solver).
  destruct (Z.ltb_spec (Hash (Final f s)) (Hash (Final f t))), (Z.ltb_spec (Hash (Final f t)) (Hash (Final f s))); try lia;
    [by exists true, false; split_and!; [..|apply Hdiff; [done|lia]]|by exists false, true; split_and!; [..|apply Hdiff; [done|lia]]|].
  assert (Forall2 (like cls) (Arcs f s) (Arcs f t) → zlen (Arcs f s) = zlen (Arcs f t)) as Hlen.
  { intros HF%Forall2_length. unfold zlen. lia. }
  destruct (Z.ltb_spec (zlen (Arcs f s)) (zlen (Arcs f t))), (Z.ltb_spec (zlen (Arcs f t)) (zlen (Arcs f s))); try lia;
    [by exists true, false; split_and!; [..|apply Hdiff; [done|intros [_ HF%Hlen]; lia]]|by exists false, true; split_and!; [..|apply Hdiff; [done|intros [_ HF%Hlen]; lia]]|].
  destruct (compare_arcs_ok (Arcs f s) (Arcs f t) Hin) as (lt1 & lt2 & -> & -> & Hiff). exists lt1, lt2. split_and!; [done..|].
  rewrite Hiff by (unfold zlen in *; lia). split; [intros HF; split; [lia|done]|by intros [_ ?]].
Qed.

(** Looking up a state in the map from states to classes. *)
Lemma find_equivalent_ok (entries : list (Z * Z)) s :
  (∀ a, a ∈ Arcs f s → is_Some (cls !! nextstate a)) → (∀ t c a, (t, c) ∈ entries → a ∈ Arcs f t → is_Some (cls !! nextstate a)) →
  ∃ r, find_equivalent f P entries s = Some r ∧
    match r with Some c => ∃ t, (t, c) ∈ entries ∧ eqv cls s t | None => ∀ t c, (t, c) ∈ entries → ¬ eqv cls s t end.
Proof using HP.
  intros Hs He. induction entries as [|[t c] entries IH].
  { exists None. split; [done|]. by intros t c ?%not_elem_of_nil. }
  destruct (StateComparator_ok s t) as (lt1 & lt2 & E1 & E2 & Hiff).
  { intros a [Ha|Ha]%elem_of_app; [by apply Hs|]. apply (He t c a); [left|done]. }
  simpl. rewrite E1, E2. cbn [mbind option_bind]. destruct (negb lt1 && negb lt2) eqn:Hb.
  - exists (Some c). split; [done|]. exists t. split; [left|]. apply Hiff. by destruct lt1, lt2.
  - destruct IH as (r & -> & Hr); [intros t' c' a Ht; apply (He t' c'); by right|]. exists r. split; [done|].
    destruct r as [d|]; [destruct Hr as (u & Hu & Hsu); exists u; split; [by right|done]|].
    intros u d [[= -> ->]|Hu]%elem_of_cons; [|by eapply Hr]. rewrite <-Hiff. by destruct lt1, lt2; naive_solver.
Qed.
End compare.

(** * Splitting the states of one height *)

Section refine.
Context `{WeightOps W} `{!HashWeight W} (f : Fst W).
Context (P0 : Partition) (cls : gmap Z Z) (h : Z) (HP0 : partitioned P0 cls ∅) (Hh : 0 ≤ h < NumClasses P0).
(** Arcs lead out of the class. *)
Context (Harcs : ∀ s a, cls !! s = Some h → a ∈ Arcs f s → ∃ c, cls !! nextstate a = Some c ∧ c ≠ h).
Implicit Types (P : Partition) (entries : list (Z * Z)) (seen todo : list Z).

(** The map after the states [seen]: one of each kind, with the class itself or a new
one. *)
Record entries_ok P entries seen : Prop := {
  entries_part : partitioned P cls ∅;
  entries_len : zlen (elements_ P) = zlen (elements_ P0);
  entries_more : NumClasses P0 ≤ NumClasses P;
  entries_classes : entries.*2 = h :: seqZ (NumClasses P0) (NumClasses P - NumClasses P0);
  entries_keys : ∀ t c, (t, c) ∈ entries → cls !! t = Some h;
  entries_seen : ∀ s, s ∈ seen → ∃ t c, (t, c) ∈ entries ∧ eqv f cls s t;
  entries_differ : ∀ t c u d, (t, c) ∈ entries → (u, d) ∈ entries → eqv f cls t u → c = d;
}.

Lemma entries_range P entries seen t c : entries_ok P entries seen → (t, c) ∈ entries →
  (c = h ∨ NumClasses P0 ≤ c < NumClasses P) ∧ 0 ≤ c < NumClasses P.
Proof using Hh.
  intros HE Hin. assert (c ∈ entries.*2) as Hc by (apply list_elem_of_fmap; by exists (t, c)).
  pose proof (entries_more _ _ _ HE). rewrite (entries_classes _ _ _ HE) in Hc.
  apply elem_of_cons in Hc as [->|Hc%elem_of_seqZ]; lia.
Qed.

Lemma class_state_ok P entries seen s : entries_ok P entries seen → cls !! s = Some h →
  ∃ P' entries', class_state f (P, entries) s = Some (P', entries') ∧ entries_ok P' entries' (seen ++ [s]).
Proof using HP0 Harcs Hh.
  intros HE Hs. pose proof HE as [E1 E2 E3 E4 E5 E6 E7].
  destruct (find_equivalent_ok f P cls E1 entries s) as (r & Er & Hr).
  { intros a Ha. destruct (Harcs s a Hs Ha) as (c & -> & _). by eexists. }
  { intros t c a Ht Ha. destruct (Harcs t a (E5 t c Ht) Ha) as (d & -> & _). by eexists. }
  unfold class_state. rewrite Er. cbn [mbind option_bind]. destruct r as [c|].
  - exists P, entries. split; [done|]. split; try done.
    intros u [Hu| ->]%elem_of_snoc; [by apply E6|]. destruct Hr as (t & Ht & Hst). by exists t, c.
  - pose proof (AddClass_ok P cls ∅ E1) as HA. destruct (AddClass P) as [P' c] eqn:EA. destruct HA as (-> & HP' & HN & HZ & _).
    exists P', (entries ++ [(s, NumClasses P)]). split; [done|]. split; try done.
    + congruence.
    + lia.
    + rewrite fmap_app, E4, HN. cbn [fmap list_fmap app]. f_equal. replace (NumClasses P + 1 - NumClasses P0) with (NumClasses P - NumClasses P0 + 1) by lia.
      rewrite seqZ_app by lia. f_equal. rewrite seqZ_cons by lia. rewrite seqZ_nil by done. by replace (NumClasses P0 + (NumClasses P - NumClasses P0)) with (NumClasses P) by lia.
    + intros t c [Ht|[= -> ->]]%elem_of_snoc; [by eapply E5|done].
    + intros u [Hu| ->]%elem_of_snoc.
      * destruct (E6 u Hu) as (t & c & Ht & Hut). exists t, c. split; [set_solver|done].
      * exists s, (NumClasses P). split; [set_solver|apply eqv_refl].
    + intros t c u d [Ht|[= -> ->]]%elem_of_snoc [Hu|[= -> ->]]%elem_of_snoc Htu; [by eapply E7| | |done].
      * exfalso. by apply (Hr t c Ht), eqv_sym.
      * exfalso. by apply (Hr u d Hu).
Qed.

Lemma first_entries first : cls !! first = Some h → entries_ok P0 [(first, h)] [first].
Proof using HP0.
  intros Hf. split; try done.
  - by rewrite Z.sub_diag.
  - intros t c [= -> ->]%list_elem_of_singleton. done.
  - intros s ->%list_elem_of_singleton. exists first, h. split; [left|apply eqv_refl].
  - intros t c u d [= -> ->]%list_elem_of_singleton [= -> ->]%list_elem_of_singleton _. done.
Qed.

(** Where a state is sent. *)
Definition sent entries (s c : Z) : Prop := ∃ t, (t, c) ∈ entries ∧ eqv f cls s t.

Lemma sent_iff P entries seen s t c d : entries_ok P entries seen → sent entries s c → sent entries t d → c = d ↔ eqv f cls s t.
Proof using HP0 Hh.
  intros HE (u & Hu & Hsu) (v & Hv & Htv). split.
  - intros <-. assert (u = v) as <-; [|by eapply eqv_trans, eqv_sym].
    assert (NoDup entries.*2) as Hnd.
    { rewrite (entries_classes _ _ _ HE). constructor; [|apply NoDup_seqZ]. rewrite elem_of_seqZ. lia. }
    apply list_elem_of_lookup in Hu as (i & Hi), Hv as (j & Hj).
    assert (i = j) as <-; [|congruence]. apply (NoDup_lookup _ i j c Hnd); by rewrite list_lookup_fmap, ?Hi, ?Hj.
  - intros Hst. eapply (entries_differ _ _ _ HE); [done..|]. eapply eqv_trans; [by apply eqv_sym|]. by eapply eqv_trans.
Qed.

(** Along the moves. *)
Record moving P1 P (cls' : gmap Z Z) entries todo : Prop := {
  moving_part : partitioned P cls' ∅;
  moving_len : zlen (elements_ P) = zlen (elements_ P1);
  moving_classes : NumClasses P = NumClasses P1;
  moving_same : ∀ s, cls !! s ≠ Some h → cls' !! s = cls !! s;
  moving_todo : ∀ s, s ∈ todo → cls !! s = Some h ∧ cls' !! s = Some h;
  moving_done : ∀ s, cls !! s = Some h → s ∉ todo → ∃ c, cls' !! s = Some c ∧ sent entries s c;
}.

Lemma move_states_ok P1 entries seen (HE : entries_ok P1 entries seen) (Hall : ∀ s, cls !! s = Some h → s ∈ seen) todo :
  ∀ P cls' (fuel : nat) (prev siter : Z), moving P1 P cls' entries todo → segment (elements_ P) h prev siter todo (-1) → NoDup todo →
  (length todo ≤ fuel)%nat → ∃ P' cls'', move_states fuel f P entries siter = Some P' ∧ moving P1 P' cls'' entries [].
Proof using HP0 Harcs Hh.
  induction todo as [|s todo IH]; intros P cls' fuel prev siter HM Hseg Hnd Hfuel.
  { simpl in Hseg. subst siter. exists P, cls'. split; [by destruct fuel|done]. }
  pose proof HM as [M1 M2 M3 M4 M5 M6]. pose proof (segment_nonneg _ _ _ _ _ _ Hseg s ltac:(left)) as Hpos.
  pose proof Hseg as (-> & x & Hx & _ & _ & Hrest). destruct fuel as [|fuel]; [simpl in Hfuel; lia|]. simpl in Hfuel.
  apply NoDup_cons in Hnd as [Hst Hnd]. destruct (M5 s ltac:(left)) as [Hs Hs'].
  cbn [move_states]. unfold PI_Done. rewrite (proj2 (Z.ltb_ge s 0)) by done. cbv zeta.
  rewrite (proj1 (proj1 (partitioned_view P cls' M1) s h Hs')). cbn [mbind option_bind].
  assert (∀ t a, cls !! t = Some h → a ∈ Arcs f t → cls' !! nextstate a = cls !! nextstate a ∧ is_Some (cls' !! nextstate a)) as Hnext.
  { intros t a Ht Ha. destruct (Harcs t a Ht Ha) as (c & Hc & Hne). rewrite M4 by congruence. split; [done|by eexists]. }
  assert (∀ t c, (t, c) ∈ entries → eqv f cls' s t ↔ eqv f cls s t) as Heqv.
  { intros t c Ht. symmetry. apply eqv_change. intros a [Ha|Ha]%elem_of_app; [by apply (Hnext s)|].
    apply (Hnext t); [by eapply (entries_keys _ _ _ HE)|done]. }
  destruct (find_equivalent_ok f P cls' M1 entries s) as (r & Er & Hr).
  { intros a Ha. by apply (Hnext s). }
  { intros t c a Ht Ha. apply (Hnext t); [by eapply (entries_keys _ _ _ HE)|done]. }
  rewrite Er. cbn [mbind option_bind].
  assert (∃ c, r = Some c ∧ sent entries s c ∧ 0 ≤ c < NumClasses P) as (c & -> & Hsent & Hc).
  { destruct (entries_seen _ _ _ HE s (Hall s Hs)) as (t & c & Ht & Hst'). destruct r as [d|].
    - destruct Hr as (u & Hu & Hsu). exists d. split; [done|]. split; [exists u; split; [done|by apply (Heqv u d)]|].
      rewrite M3. by apply (entries_range _ _ _ u d HE).
    - exfalso. apply (Hr t c Ht). by apply (Heqv t c). }
  destruct (Z.eqb_spec h c) as [<-|Hne].
  - unfold PI_Next at 1. rewrite Hx. cbn [mbind option_bind negb]. apply (IH P cls' fuel s (next_element x)); [|done..|lia].
    split; try done; [intros t Ht; apply M5; by right|]. intros t Ht Hnt. destruct (decide (t = s)) as [->|Hts]; [by exists h|].
    apply M6; [done|]. by intros [->|?]%elem_of_cons.
  - destruct (Move_rest P cls' s h c prev todo M1 Hs' Hc) as (siter & prev' & P' & -> & E & HP' & HN & HZ & Hseg'); [congruence|done|].
    cbn [mbind option_bind negb]. rewrite E. cbn [mbind option_bind]. apply (IH P' (<[s := c]> cls') fuel prev' siter); [|done..|lia].
    split; try done; [congruence..| | |].
    + intros t Ht. rewrite lookup_insert_ne by congruence. by apply M4.
    + intros t Ht. rewrite lookup_insert_ne by (intros ->; done). apply M5. by right.
    + intros t Ht Hnt. destruct (decide (t = s)) as [->|Hts]; [exists c; by rewrite lookup_insert_eq|].
      rewrite lookup_insert_ne by done. apply M6; [done|]. by intros [->|?]%elem_of_cons.
Qed.

Lemma refine_height_ok : (∃ s, cls !! s = Some h) →
  ∃ P' cls', refine_height f P0 h = Some P' ∧ partitioned P' cls' ∅ ∧ NumClasses P0 ≤ NumClasses P' ∧
    zlen (elements_ P') = zlen (elements_ P0) ∧ (∀ s, cls !! s ≠ Some h → cls' !! s = cls !! s) ∧
    (∀ s, cls !! s = Some h → ∃ c, cls' !! s = Some c ∧ (c = h ∨ NumClasses P0 ≤ c < NumClasses P')) ∧
    (∀ s t, cls !! s = Some h → cls !! t = Some h → cls' !! s = cls' !! t ↔ eqv f cls s t) ∧
    ∀ c, c = h ∨ NumClasses P0 ≤ c < NumClasses P' → ∃ s, cls !! s = Some h ∧ cls' !! s = Some c.
Proof using HP0 Harcs Hh.
  intros (s0 & Hs0). destruct (class_segment P0 cls h HP0 Hh) as (head & l & Eh & Hseg & Hnd & Hin & Hlen).
  unfold refine_height. rewrite Eh. cbn [mbind option_bind]. rewrite (iterate_segment _ _ _ _ _ _ Hseg Hlen). cbn [mbind option_bind].
  destruct l as [|first rest]; [by apply Hin, not_elem_of_nil in Hs0|].
  destruct (foldM_total (class_state f) (λ done '(P, entries), entries_ok P entries (first :: done)) rest (P0, [(first, h)])) as ([P1 entries] & -> & HE).
  - apply first_entries, Hin. left.
  - intros done s todo [P entries] El HE. destruct (class_state_ok P entries (first :: done) s HE) as (P' & entries' & E & HE').
    { apply Hin. right. rewrite El. set_solver. }
    by exists (P', entries').
  - cbn [mbind option_bind]. pose proof HE as [E1 E2 E3 E4 E5 E6 E7].
    destruct (class_segment P1 cls h E1) as (head1 & l1 & Eh1 & Hseg1 & Hnd1 & Hin1 & Hlen1); [lia|].
    rewrite Eh1. cbn [mbind option_bind].
    destruct (move_states_ok P1 entries (first :: rest) HE (λ s, proj2 (Hin s)) l1 P1 cls (length (elements_ P1)) (-1) head1)
      as (P' & cls' & E & [M1 M2 M3 M4 M5 M6]); [|done..|].
    { split; try done.
      - intros s Hs. split; by apply Hin1.
      - intros s Hs Hns. by apply Hin1 in Hs. }
    assert (∀ s, cls !! s = Some h → ∃ c, cls' !! s = Some c ∧ sent entries s c) as Hsent.
    { intros s Hs. apply M6; [done|apply not_elem_of_nil]. }
    assert (∀ s c, sent entries s c → c = h ∨ NumClasses P0 ≤ c < NumClasses P1) as Hrange.
    { intros s c (t & Ht & _). by apply (entries_range _ _ _ t c HE). }
    exists P', cls'. rewrite M3. split_and!; [done..|congruence|done| | |].
    + intros s Hs. destruct (Hsent s Hs) as (c & Hc & Hsc). exists c. split; [done|]. by eapply Hrange.
    + intros s t Hs Ht. destruct (Hsent s Hs) as (c & -> & Hsc), (Hsent t Ht) as (d & -> & Htd).
      rewrite <-(sent_iff _ _ _ _ _ _ _ HE Hsc Htd). split; [by intros [=]|by intros ->].
    + intros c Hc. assert (c ∈ entries.*2) as Hcin by (rewrite E4; apply elem_of_cons; rewrite elem_of_seqZ; lia).
      apply list_elem_of_fmap in Hcin as ([t d] & -> & Ht). pose proof (E5 t d Ht) as Hth. exists t. split; [done|].
      destruct (Hsent t Hth) as (c' & Hc' & Hsc). rewrite Hc'. f_equal.
      assert (sent entries t d) as Htd by (exists t; split; [exact Ht|apply eqv_refl]).
      apply (sent_iff _ _ _ _ _ _ _ HE Hsc Htd), eqv_refl.
Qed.
End refine.

(** * All heights *)

(** The lengths of longest paths. *)
Record heights `{WeightOps W} (f : Fst W) (ht : Z → Z) : Prop := {
  heights_nonneg : ∀ s, valid f s → 0 ≤ ht s;
  heights_edge : ∀ s t, edge f s t → ht t < ht s;
  heights_step : ∀ s, valid f s → ht s = 0 ∨ ∃ t, edge f s t ∧ ht s = ht t + 1;
}.

Section levels.
Context `{WeightOps W} `{!HashWeight W} (f : Fst W) (Hwf : wf_arcs f) (ht : Z → Z) (HH : heights f ht) (N0 : Z).
Context (Hused : ∀ n, 0 ≤ n < N0 → ∃ s, valid f s ∧ ht s = n).
Implicit Types (P : Partition) (cls : gmap Z Z).

(** The heights below [n] are split. *)
Record by_height (n : Z) P cls : Prop := {
  level_part : partitioned P cls ∅;
  level_more : N0 ≤ NumClasses P;
  level_dom : ∀ s, is_Some (cls !! s) ↔ valid f s;
  level_above : ∀ s, valid f s → n ≤ ht s → cls !! s = Some (ht s);
  level_below : ∀ s, valid f s → ht s < n → ∃ c, cls !! s = Some c ∧ (c < n ∨ N0 ≤ c);
  level_eqv : ∀ s t, valid f s → valid f t → ht s < n → ht t < n → cls !! s = cls !! t ↔ ht s = ht t ∧ eqv f cls s t;
  level_used : ∀ c, 0 ≤ c < NumClasses P → ∃ s, cls !! s = Some c;
}.

Lemma arc_below s a : valid f s → a ∈ Arcs f s → valid f (nextstate a) ∧ ht (nextstate a) < ht s.
Proof using Hwf HH.
  intros Hs Ha. split; [by apply (Hwf s)|]. apply (heights_edge _ _ HH). split; [done|by exists a].
Qed.

Lemma level_class n P cls s : by_height n P cls → n < N0 → cls !! s = Some n ↔ valid f s ∧ ht s = n.
Proof using HH.
  intros HB Hn. split.
  - intros Hs. assert (valid f s) as Hv by (apply (level_dom _ _ _ HB); by eexists). split; [done|].
    destruct (Z.lt_ge_cases (ht s) n) as [Hlt|Hge].
    + destruct (level_below _ _ _ HB s Hv Hlt) as (c & Hc & Hor). simplify_eq. lia.
    + rewrite (level_above _ _ _ HB s Hv Hge) in Hs. by injection Hs.
  - intros [Hv E]. rewrite (level_above _ _ _ HB s Hv) by lia. by rewrite E.
Qed.

Lemma level_next n P cls : 0 ≤ n < N0 → by_height n P cls →
  ∃ P' cls', refine_height f P n = Some P' ∧ by_height (n + 1) P' cls'.
Proof using All.
  intros Hn HB. pose proof HB as [B1 B2 B3 B4 B5 B6 B7]. pose proof (λ s, level_class n P cls s HB ltac:(lia)) as Hcl.
  assert (∀ s a, cls !! s = Some n → a ∈ Arcs f s → ∃ c, cls !! nextstate a = Some c ∧ c ≠ n) as Harcs.
  { intros s a [Hv E]%Hcl Ha. destruct (arc_below s a Hv Ha) as [Hv' Hlt].
    destruct (B5 _ Hv' ltac:(lia)) as (c & Hc & Hor). exists c. split; [done|lia]. }
  destruct (refine_height_ok f P cls n B1) as (P' & cls' & E & HP' & HN & HZ & Hsame & Hmem & Heqv & Hnew); [lia|done| |].
  { destruct (Hused n Hn) as (s & Hs & Es). exists s. by apply Hcl. }
  exists P', cls'. split; [done|].
  assert (∀ s, valid f s → ht s ≠ n → cls' !! s = cls !! s) as Hold by (intros s Hs Hne; apply Hsame; rewrite Hcl; tauto).
  assert (∀ s, valid f s → ht s = n → ∃ c, cls' !! s = Some c ∧ (c = n ∨ NumClasses P ≤ c < NumClasses P')) as Hat by (intros s Hs Es; apply Hmem; by apply Hcl).
  assert (∀ s t, valid f s → valid f t → ht s ≤ n → ht t ≤ n → eqv f cls' s t ↔ eqv f cls s t) as Hch.
  { intros s t Hs Ht Hls Hlt. symmetry. apply eqv_change. intros a [Ha|Ha]%elem_of_app.
    - destruct (arc_below s a Hs Ha). apply Hold; [done|lia].
    - destruct (arc_below t a Ht Ha). apply Hold; [done|lia]. }
  assert (∀ s t, valid f s → valid f t → ht s = n → ht t < n → cls' !! s = cls' !! t → False) as Hmix.
  { intros s t Hs Ht Es Hlt Est. destruct (Hat s Hs Es) as (c & Hc & Hor). rewrite (Hold t) in Est by (done || lia).
    destruct (B5 t Ht Hlt) as (d & Hd & Hord). pose proof (proj1 (partitioned_view P cls B1) t d Hd) as [_ Hr].
    assert (c = d) by congruence. lia. }
  split.
  - done.
  - lia.
  - intros s. rewrite <-B3. destruct (decide (cls !! s = Some n)) as [Es|Es]; [|by rewrite Hsame].
    destruct (Hmem s Es) as (c & Hc & _). rewrite Es, Hc. by split.
  - intros s Hs Hle. rewrite Hold by (done || lia). apply B4; [done|lia].
  - intros s Hs Hlt. destruct (decide (ht s = n)) as [Es|Es].
    + destruct (Hat s Hs Es) as (c & Hc & Hor). exists c. split; [done|lia].
    + rewrite Hold by done. destruct (B5 s Hs ltac:(lia)) as (c & Hc & Hor). exists c. split; [done|lia].
  - intros s t Hs Ht Hls Hlt. rewrite Hch by (done || lia). destruct (decide (ht s = n)) as [Es|Es], (decide (ht t = n)) as [Et|Et].
    + rewrite Heqv by by apply Hcl. split; [intros ?; split; [lia|done]|by intros [_ ?]].
    + split; [|lia]. intros E'. exfalso. apply (Hmix s t); (done || lia).
    + split; [|lia]. intros E'. exfalso. apply (Hmix t s); (done || lia).
    + rewrite !Hold by done. apply B6; (done || lia).
  - intros c Hc. destruct (decide (c = n ∨ NumClasses P ≤ c < NumClasses P')) as [Hor|Hor].
    + destruct (Hnew c Hor) as (s & _ & Hs). by exists s.
    + destruct (B7 c ltac:(lia)) as (s & Hs). exists s. rewrite Hsame; [done|]. intros Es. simplify_eq. lia.
Qed.

Lemma Refine_ok P cls : 0 ≤ N0 → NumClasses P = N0 → by_height 0 P cls → ∃ P' cls', Refine f P = Some P' ∧ by_height N0 P' cls'.
Proof using All.
  intros HN EN HB. unfold Refine. rewrite EN.
  destruct (foldM_total (refine_height f) (λ done P', ∃ cls', by_height (zlen done) P' cls') (seqZ 0 N0) P) as (P' & HP' & cls' & HB').
  - exists cls. done.
  - intros done n todo P1 [-> Hn]%seqZ_split (cls1 & HB1). rewrite zlen_app, zlen_seqZ, Z.max_r in * by lia. change (zlen [n]) with 1.
    destruct (level_next n P1 cls1 ltac:(lia) HB1) as (P2 & cls2 & E & HB2). exists P2. split; [done|]. by exists cls2.
  - rewrite zlen_seqZ, Z.max_r in HB' by done. by exists P', cls'.
Qed.
End levels.

(** * The visit *)

Section heights_visit.
Context `{WeightOps W} (f : Fst W) (Hwf : WellFormed f) (Hacyc : ¬ Holds f Cyclic) (Hacc : Holds f Accessible).
Implicit Types (B : gset Z) (st rest : list (Z * Z)) (g : Z → Z) (v : HeightVisitor) (n mx : Z).

(** The heights of finished states are final; that of a state on the stack is the
greatest that its arcs so far ask for, or -1. *)
Record height_inv (root : Z) B st g n mx : Prop := {
  hi_root : root = Start f;
  hi_bound : n ≤ NumStates f;
  hi_seen : ∀ s, seen B st s → s < n;
  hi_new : ∀ s, ¬ seen B st s → g s = -1;
  hi_black : ∀ s, s ∈ B → 0 ≤ g s ∧ (∀ t, edge f s t → t ∈ B ∧ g t < g s) ∧ (g s = 0 ∨ ∃ t, edge f s t ∧ g s = g t + 1);
  hi_arcs : ∀ s i k a, (s, i) ∈ st → k < i → (Arcs f s).[k] = Some a → nextstate a ∈ B ∧ g (nextstate a) < g s;
  hi_grey : ∀ s, s ∈ st.*1 → g s = -1 ∨ ∃ t, t ∈ B ∧ edge f s t ∧ g s = g t + 1;
  hi_max : 0 ≤ mx;
  hi_black_max : ∀ s, s ∈ B → s ≠ root → g s + 1 ≤ mx;
  hi_seen_max : ∀ s, seen B st s → g s ≤ mx;
  hi_reached : mx = 0 ∨ ∃ s, seen B st s ∧ mx ≤ g s;
}.

(** The record stands for a function, which is -1 out of the vector. *)
Definition shows v g n mx : Prop :=
  zlen (height_ v) = n ∧ num_states_ v = n ∧ max_height_ v = mx ∧ ∀ s, default (-1) ((height_ v).[s]) = g s.

Lemma shows_get v g n mx s : shows v g n mx → 0 ≤ s < n → (height_ v).[s] = Some (g s).
Proof using.
  intros (Hl & _ & _ & Hg) Hs. destruct (vget_in_range (height_ v) s) as [x Hx]; [lia|]. specialize (Hg s). rewrite Hx in *. simpl in Hg. congruence.
Qed.

Lemma shows_set v g n mx s x mx' : shows v g n mx → 0 ≤ s < n →
  ∃ l, (height_ v).[s <- x] = Some l ∧ shows (MkHeight l mx' (num_states_ v)) (upd g s x) n mx'.
Proof using.
  intros (Hl & Hn & _ & Hg) Hs. destruct ((height_ v).[s <- x]) as [l|] eqn:E; [|by rewrite vset_is_Some in E by lia].
  exists l. split; [done|]. split_and!; simpl; [by rewrite (vset_len _ _ _ _ E)|done|done|]. intros t. rewrite (vget_vset _ _ _ t _ E).
  unfold upd. repeat case_decide; subst; try done; apply Hg.
Qed.

(** Entering a state. *)
Lemma height_discover root B st g n mx t v : shows v g n mx → height_inv root B st g n mx → valid f t → ¬ seen B st t →
  ∃ v', Height_InitState v t root = Some (v', true) ∧ shows v' g (Z.max n (t + 1)) mx ∧ height_inv root B ((t, 0) :: st) g (Z.max n (t + 1)) mx.
Proof using.
  intros (Hl & Hn & Hm & Hg) [I1 I2 I3 I4 I5 I6 I7 I8 I9 I10 I11] [Ht1 Ht2] Hns.
  assert (∀ s, seen B ((t, 0) :: st) s ↔ s = t ∨ seen B st s) as Hseen by (intros s; unfold seen; csimpl; rewrite elem_of_cons; tauto).
  eexists. split; [done|]. split.
  - split_and!; cbn [height_ num_states_ max_height_].
    + rewrite vextend_len. lia.
    + rewrite Hn. destruct (Z.leb_spec n t); lia.
    + done.
    + intros s. rewrite vextend_get. case_decide as Hs; [|apply Hg]. rewrite <-Hg. rewrite (proj2 (vget_None _ _)) by lia. done.
  - split; try done.
    + lia.
    + intros s [->|Hs%I3]%Hseen; lia.
    + intros s Hs. apply I4. by rewrite Hseen in Hs; tauto.
    + intros s i k a [[= -> ->]|Hs]%elem_of_cons Hk Ha; [apply vget_range in Ha; lia|by eapply I6].
    + intros s [->|Hs]%elem_of_cons; [left; by apply I4|by apply I7].
    + intros s [->|Hs]%Hseen; [rewrite (I4 t Hns); lia|by apply I10].
    + destruct I11 as [?|(s & Hs & ?)]; [by left|right; exists s; split; [apply Hseen; by right|done]].
Qed.

(** An arc to a finished state. *)
Lemma height_cross root B s i rest g n mx v a : shows v g n mx → height_inv root B ((s, i) :: rest) g n mx →
  visit_inv f AnyArcFilter root B ((s, i) :: rest) true → (Arcs f s).[i] = Some a → nextstate a ∈ B →
  ∃ v' g', Height_ForwardOrCrossArc v s a = Some (v', true) ∧ shows v' g' n mx ∧ height_inv root B ((s, i + 1) :: rest) g' n mx.
Proof using.
  intros Hv HI Hvis Ha HB. pose proof HI as [I1 I2 I3 I4 I5 I6 I7 I8 I9 I10 I11]. set (t := nextstate a) in *.
  destruct (inv_top_valid _ _ _ _ _ _ _ _ Hvis) as [Hs _].
  assert (s ∉ B) as HsB by (intros Hin; apply (inv_disjoint _ _ _ _ _ _ Hvis s Hin); left).
  assert (s ∉ rest.*1) as Hsr by (pose proof (inv_nodup _ _ _ _ _ _ Hvis) as Hnd; by apply NoDup_cons in Hnd as [? _]).
  assert (0 ≤ s < n) as Hsn by (split; [apply Hs|apply I3; right; left]).
  assert (0 ≤ t < n) as Htn by (split; [apply (inv_black_valid _ _ _ _ _ _ Hvis t HB)|apply I3; by left]).
  assert (edge f s t) as He by (split; [done|]; exists a; split; [by eapply vget_elem_of|done]).
  assert (t ≠ root) as Htr.
  { intros E. apply (inv_disjoint _ _ _ _ _ _ Hvis t HB). rewrite E. by eapply bottom_in. }
  assert (∃ v' g', Height_ForwardOrCrossArc v s a = Some (v', true) ∧ shows v' g' n mx ∧ g' = upd g s (Z.max (g s) (g t + 1))) as (v' & g' & E & Hv' & Eg).
  { unfold Height_ForwardOrCrossArc. fold t. rewrite (shows_get _ _ _ _ t Hv Htn), (shows_get _ _ _ _ s Hv Hsn). cbn [mbind option_bind].
    destruct (Z.ltb_spec (g s) (g t + 1)) as [Hlt|Hle].
    - destruct (shows_set v g n mx s (g t + 1) (max_height_ v) Hv Hsn) as (l & -> & Hl). cbn [mbind option_bind].
      pose proof Hv as (_ & _ & Em & _). rewrite Em in *. eexists _, _. split; [done|]. split; [exact Hl|]. by rewrite Z.max_r by lia.
    - exists v, (upd g s (Z.max (g s) (g t + 1))). split; [done|]. split; [|done]. destruct Hv as (V1 & V2 & V3 & V4). split_and!; [done..|].
      intros u. rewrite V4. unfold upd. case_decide as Eu; [|done]. subst u. lia. }
  exists v', g'. split; [done|]. split; [done|]. subst g'. set (x := Z.max (g s) (g t + 1)) in *.
  assert (∀ u, u ≠ s → upd g s x u = g u) as Hne by (intros u Hu; by apply upd_ne).
  assert (∀ u, u ∈ B → upd g s x u = g u) as HgB by (intros u Hu; apply Hne; by intros ->).
  assert (∀ u, seen B ((s, i + 1) :: rest) u ↔ seen B ((s, i) :: rest) u) as Hseen by (intros u; by apply (next_arc_seen B ((s, i) :: rest))).
  pose proof (I9 t HB Htr) as Htm. pose proof (I10 s ltac:(right; left)) as Hsm. pose proof (proj1 (I5 t HB)) as Ht0.
  assert (x ≤ mx ∧ g s ≤ x ∧ g t < x) as (Hxm & Hxs & Hxt) by (unfold x; lia).
  split; try done.
  - intros u Hu. rewrite Hseen in Hu. rewrite Hne; [by apply I4|]. intros ->. apply Hu. right. left.
  - intros u Hu. rewrite HgB by done. destruct (I5 u Hu) as (J1 & J2 & J3). split; [done|]. split.
    + intros w Hw. destruct (J2 w Hw). split; [done|]. by rewrite HgB.
    + destruct J3 as [?|(w & Hw & ?)]; [by left|right]. exists w. split; [done|]. rewrite HgB; [done|]. by apply J2.
  - intros u j k b [[= -> ->]|Hu]%elem_of_cons Hk Hb.
    + rewrite upd_eq. destruct (decide (k = i)) as [->|Hki].
      * assert (b = a) as -> by congruence. fold t. split; [done|]. rewrite HgB by done. lia.
      * destruct (I6 s i k b ltac:(left) ltac:(lia) Hb) as [? ?]. split; [done|]. rewrite HgB by done. lia.
    + assert (u ≠ s) as Hus by (intros ->; apply Hsr, list_elem_of_fmap; by exists (s, j)).
      destruct (I6 u j k b ltac:(by right) Hk Hb) as [? ?]. split; [done|]. by rewrite HgB, Hne.
  - intros u Hu. destruct (decide (u = s)) as [->|Hus].
    + rewrite upd_eq. destruct (decide (g s < g t + 1)) as [Hlt|Hge].
      * right. exists t. split_and!; [done|done|]. rewrite HgB by done. unfold x. lia.
      * destruct (I7 s ltac:(left)) as [?|(w & Hw & ? & ?)]; [lia|right].
        exists w. split_and!; [done|done|]. rewrite HgB by done. unfold x. lia.
    + rewrite Hne by done. destruct (I7 u) as [?|(w & Hw & ? & ?)]; [exact Hu|by left|right]. exists w. by rewrite HgB.
  - intros u Hu Hur. rewrite HgB by done. by apply I9.
  - intros u Hu%Hseen. destruct (decide (u = s)) as [->|]; [by rewrite upd_eq|]. rewrite Hne by done. by apply I10.
  - destruct I11 as [?|(u & Hu & ?)]; [by left|right]. exists u. split; [by apply Hseen|].
    destruct (decide (u = s)) as [->|]; [rewrite upd_eq; lia|by rewrite Hne].
Qed.

(** Leaving a state: the vector, then what it means. *)
Lemma finish_shows v g n mx s (p : Z) (pa : option (Arc W)) : shows v g n mx → 0 ≤ s < n → p < n → p ≠ s →
  let hs := if g s =? -1 then 0 else g s in
  ∃ v' g', Height_FinishState v s p pa = Some v' ∧ shows v' g' n (if 0 <=? p then Z.max mx (hs + 1) else mx) ∧
    ∀ u, g' u = if decide (u = s) then hs else if decide (u = p ∧ 0 ≤ p) then Z.max (g p) (hs + 1) else g u.
Proof using.
  intros Hv Hs Hp Hps hs. unfold Height_FinishState. rewrite (shows_get _ _ _ _ s Hv Hs). cbn [mbind option_bind].
  assert (∃ l g1, (if g s =? -1 then (height_ v).[s <- 0] else Some (height_ v)) = Some l ∧ shows (MkHeight l (max_height_ v) (num_states_ v)) g1 n mx ∧
    ∀ u, g1 u = if decide (u = s) then hs else g u) as (l & g1 & -> & Hl & Hg1).
  { pose proof Hv as (V1 & V2 & V3 & V4). rewrite V3. unfold hs. destruct (Z.eqb_spec (g s) (-1)) as [E|E].
    - destruct (shows_set v g n mx s 0 mx Hv Hs) as (l & -> & Hl). by exists l, (upd g s 0).
    - exists (height_ v), g. split; [done|]. split; [done|]. intros u. case_decide as Eu; [by rewrite Eu|done]. }
  cbn [mbind option_bind]. set (v1 := MkHeight l (max_height_ v) (num_states_ v)) in *.
  change l with (height_ v1). rewrite (shows_get _ _ _ _ s Hl Hs). cbn [mbind option_bind]. rewrite Hg1, decide_True by done. cbv zeta.
  pose proof Hl as (L1 & L2 & L3 & L4). change (max_height_ v) with (max_height_ v1). rewrite L3. change (num_states_ v) with (num_states_ v1).
  destruct (Z.leb_spec 0 p) as [Hp0|Hp0].
  - rewrite (shows_get _ _ _ _ p Hl) by lia. cbn [mbind option_bind]. rewrite Hg1, decide_False by done.
    destruct (Z.ltb_spec (g p) (hs + 1)) as [Hlt|Hge].
    + destruct (shows_set v1 g1 n mx p (hs + 1) (if mx <? hs + 1 then hs + 1 else mx) Hl) as (l2 & -> & Hl2); [lia|]. cbn [mbind option_bind].
      eexists _, _. split; [done|]. split.
      * replace (Z.max mx (hs + 1)) with (if mx <? hs + 1 then hs + 1 else mx) by (destruct (Z.ltb_spec mx (hs + 1)); lia). exact Hl2.
      * intros u. unfold upd. rewrite Hg1. repeat case_decide; subst; try done; try lia; tauto.
    + cbn [mbind option_bind]. eexists _, g1. split; [done|]. split.
      * replace (Z.max mx (hs + 1)) with (if mx <? hs + 1 then hs + 1 else mx) by (destruct (Z.ltb_spec mx (hs + 1)); lia). done.
      * intros u. rewrite Hg1. repeat case_decide; subst; try done; try lia. by rewrite Z.max_l by lia; destruct_and?; subst.
  - eexists _, g1. split; [done|]. split; [done|]. intros u. rewrite Hg1. repeat case_decide; subst; try done; lia.
Qed.

Lemma height_finish root B s i rest g n mx v : shows v g n mx → height_inv root B ((s, i) :: rest) g n mx →
  visit_inv f AnyArcFilter root B ((s, i) :: rest) true → i = zlen (Arcs f s) →
  ∃ v' g' mx', Height_FinishState v s (parent_of rest) (parent_arc f rest) = Some v' ∧ shows v' g' n mx' ∧
    height_inv root ({[s]} ∪ B) (next_arc rest) g' n mx'.
Proof using All.
  intros Hv HI Hvis Hend. pose proof HI as [I1 I2 I3 I4 I5 I6 I7 I8 I9 I10 I11].
  destruct (inv_top_valid _ _ _ _ _ _ _ _ Hvis) as [Hs _].
  assert (s ∉ B) as HsB by (intros Hin; apply (inv_disjoint _ _ _ _ _ _ Hvis s Hin); left).
  assert (s ∉ rest.*1) as Hsr by (pose proof (inv_nodup _ _ _ _ _ _ Hvis) as Hnd; by apply NoDup_cons in Hnd as [? _]).
  assert (∀ u, u ∈ B → u ∉ rest.*1) as HBr by (intros u Hu Hin; apply (inv_disjoint _ _ _ _ _ _ Hvis u Hu); by right).
  set (p := parent_of rest).
  assert (p ∈ rest.*1 ∨ p = -1 ∧ rest = []) as Hp by (unfold p; destruct rest as [|[q j] r]; [by right|left; left]).
  assert (p ∈ rest.*1 → 0 ≤ p < n) as Hpr.
  { intros Hin. split; [|apply I3; right; by right]. apply list_elem_of_fmap in Hin as ([q j] & -> & Hin). apply (inv_stack_valid _ _ _ _ _ _ Hvis q j). by right. }
  assert (p ≠ s) as Hps by (destruct Hp as [Hp|[-> _]]; [by intros E; rewrite E in Hp|destruct Hs; lia]).
  assert (0 ≤ s < n) as Hsn by (split; [apply Hs|apply I3; right; left]).
  set (hs := if g s =? -1 then 0 else g s) in *.
  destruct (finish_shows v g n mx s p (parent_arc f rest) Hv Hsn) as (v' & g' & E & Hv' & Hg'); [destruct Hp as [Hp|[-> _]]; [by apply Hpr|lia]|done|].
  fold hs in Hv', Hg'. exists v', g', (if 0 <=? p then Z.max mx (hs + 1) else mx). split; [exact E|]. split; [exact Hv'|].
  assert (0 ≤ hs ∧ g s ≤ hs ∧ hs ≤ mx) as (Hhs0 & Hgs & Hhm).
  { pose proof (I10 s ltac:(right; left)). unfold hs. destruct (Z.eqb_spec (g s) (-1)) as [E1|E1]; [lia|].
    destruct (I7 s ltac:(left)) as [?|(t & Ht & _ & ?)]; [done|]. pose proof (proj1 (I5 t Ht)). lia. }
  assert (g' s = hs) as Egs by (by rewrite Hg', decide_True).
  assert (∀ u, u ∈ B → g' u = g u) as HgB.
  { intros u Hu. rewrite Hg', decide_False by (by intros ->). apply decide_False. intros [-> Hp0]. destruct Hp as [Hp|[? _]]; [by apply (HBr p)|lia]. }
  assert (∀ u, u ≠ s → g u ≤ g' u) as Hup by (intros u Hu; rewrite Hg', decide_False by done; destruct (decide (u = p ∧ 0 ≤ p)) as [[-> _]|]; lia).
  assert (∀ u, seen ({[s]} ∪ B) (next_arc rest) u ↔ seen B ((s, i) :: rest) u) as Hseen.
  { intros u. rewrite next_arc_seen. unfold seen. csimpl. set_solver. }
  assert (∀ t, edge f s t → t ∈ B ∧ g t < hs) as Hes.
  { intros t (_ & a & (k & Hk)%elem_of_vget & <-). pose proof (vget_range _ _ _ Hk).
    destruct (I6 s i k a ltac:(left) ltac:(lia) Hk). split; [done|lia]. }
  assert (mx ≤ if 0 <=? p then Z.max mx (hs + 1) else mx) as Hmx by (destruct (0 <=? p); lia).
  assert (p ∈ rest.*1 → (if 0 <=? p then Z.max mx (hs + 1) else mx) = Z.max mx (hs + 1)) as Emx.
  { intros Hin. by rewrite (proj2 (Z.leb_le 0 p)) by (apply Hpr in Hin; lia). }
  split; try done; [intros u Hu%Hseen; by apply I3|..].
  - intros u Hu. rewrite Hseen in Hu. rewrite Hg', !decide_False; [by apply I4| |].
    + intros [-> Hp0]. apply Hu. right. destruct Hp as [Hp|[? _]]; [by right|lia].
    + intros ->. apply Hu. right. left.
  - intros u [->%elem_of_singleton|Hu]%elem_of_union.
    + rewrite Egs. split; [done|]. split.
      * intros t Ht. destruct (Hes t Ht) as [HtB Hlt]. split; [set_solver|]. by rewrite HgB.
      * destruct (decide (g s = -1)) as [E1|E1]; [left; unfold hs; by rewrite E1|].
        destruct (I7 s ltac:(left)) as [?|(t & HtB & Ht & Eg)]; [done|right]. exists t. split; [done|].
        rewrite HgB by done. unfold hs. by rewrite (proj2 (Z.eqb_neq _ _) E1).
    + rewrite HgB by done. destruct (I5 u Hu) as (J1 & J2 & J3). split; [done|]. split.
      * intros t Ht. destruct (J2 t Ht). split; [set_solver|]. by rewrite HgB.
      * destruct J3 as [?|(t & Ht & ?)]; [by left|right]. exists t. split; [done|]. rewrite HgB; [done|]. by apply J2.
  - intros u j k a Hu Hk Ha. destruct rest as [|[q jq] r]; [by apply not_elem_of_nil in Hu|]. simpl in p.
    assert (∀ b : Arc W, nextstate b ∈ B ∧ g (nextstate b) < g u → u ≠ s → nextstate b ∈ {[s]} ∪ B ∧ g' (nextstate b) < g' u) as Hmove.
    { intros b [Hb Hlt] Hus. split; [set_solver|]. rewrite HgB by done. specialize (Hup u Hus). lia. }
    apply elem_of_cons in Hu as [[= -> ->]|Hu].
    + destruct (decide (k = jq)) as [->|Hkj]; [|apply Hmove; [apply (I6 q jq k a); [right; left|lia|done]|intros ->; apply Hsr; left]].
      destruct (inv_chained _ _ _ _ _ _ Hvis) as [(b & Hb & _ & Hn) _]. assert (b = a) as -> by congruence. rewrite Hn, Egs. split; [set_solver|].
      assert (0 ≤ q) by (apply Hpr; left). rewrite (Hg' q), decide_False, decide_True by (done || (intros ->; apply Hsr; left)). lia.
    + apply Hmove; [apply (I6 u j k a); [by right; right|done..]|]. intros ->. apply Hsr. right. apply list_elem_of_fmap. by exists (s, j).
  - intros u Hu. rewrite next_arc_states in Hu. assert (u ≠ s) as Hus by by intros ->.
    rewrite Hg', decide_False by done. destruct (decide (u = p ∧ 0 ≤ p)) as [[-> Hp0]|Eu].
    + destruct (decide (g p < hs + 1)) as [Hlt|Hge].
      * right. exists s. split; [set_solver|]. rewrite Egs. split; [|lia].
        destruct rest as [|[q jq] r]; [by apply not_elem_of_nil in Hu|]. destruct (inv_chained _ _ _ _ _ _ Hvis) as [(b & Hb & _ & Hn) _].
        split; [apply (inv_stack_valid _ _ _ _ _ _ Hvis q jq); right; left|]. exists b. split; [by eapply vget_elem_of|done].
      * rewrite Z.max_l by lia. destruct (I7 p) as [?|(t & HtB & Ht & ?)]; [by right|lia|right]. exists t. rewrite HgB by done. set_solver.
    + destruct (I7 u) as [?|(t & HtB & Ht & ?)]; [by right|by left|right]. exists t. rewrite HgB by done. set_solver.
  - lia.
  - intros u [->%elem_of_singleton|Hu]%elem_of_union Hur; [|rewrite HgB by done; specialize (I9 u Hu Hur); lia].
    rewrite Egs. destruct Hp as [Hp|[_ Hnil]]; [rewrite Emx by done; lia|]. exfalso. apply Hur.
    apply (inv_bottom _ _ _ _ _ _ Hvis). by rewrite Hnil.
  - intros u Hu%Hseen. rewrite Hg'. destruct (decide (u = s)); [lia|]. destruct (decide (u = p ∧ 0 ≤ p)) as [[-> Hp0]|]; [|specialize (I10 u Hu); lia].
    rewrite (proj2 (Z.leb_le 0 p)) by done. specialize (I10 p Hu). lia.
  - destruct Hp as [Hp|[Ep _]].
    + rewrite Emx by done. right. destruct (Z.le_ge_cases (hs + 1) mx) as [Hle|Hle].
      * destruct I11 as [E0|(u & Hu & ?)]; [lia|]. exists u. split; [by apply Hseen|].
        destruct (decide (u = s)) as [->|Hus]; [lia|]. specialize (Hup u Hus). lia.
      * exists p. split; [apply Hseen; right; by right|]. pose proof (Hpr Hp). rewrite Hg', decide_False, decide_True by (done || lia). lia.
    + rewrite Ep. cbn. destruct I11 as [?|(u & Hu & ?)]; [by left|right]. exists u. split; [by apply Hseen|].
      destruct (decide (u = s)) as [->|Hus]; [lia|]. specialize (Hup u Hus). lia.
Qed.

Definition height_rule_inv (root : Z) B st (go : bool) v : Prop :=
  go = true ∧ ∃ g n mx, shows v g n mx ∧ height_inv root B st g n mx.

Lemma height_start v : shows v (λ _, -1) 0 0 → valid f (Start f) →
  ∃ v' n, Height_InitState v (Start f) (Start f) = Some (v', true) ∧ shows v' (λ _, -1) n 0 ∧ height_inv (Start f) ∅ [(Start f, 0)] (λ _, -1) n 0.
Proof using All.
  intros Hv [Hs1 Hs2]. pose proof Hv as (Hl & Hn & Hm & Hg). eexists _, (Start f + 1). split; [done|].
  assert (∀ s, seen ∅ [(Start f, 0)] s → s = Start f) as Hseen by (intros s [?|Hs]; [set_solver|by apply list_elem_of_singleton in Hs]).
  split.
  - split_and!; cbn [height_ num_states_ max_height_].
    + rewrite vextend_len. lia.
    + rewrite Hn. destruct (Z.leb_spec 0 (Start f)); lia.
    + done.
    + intros s. rewrite vextend_get. case_decide; [done|apply Hg].
  - split; try done; try lia.
    + intros s ->%Hseen. lia.
    + intros s i k a [= -> ->]%list_elem_of_singleton Hk Ha%vget_range. lia.
Qed.

Lemma height_rule : visitor_rule f height_visitor AnyArcFilter (MkHeight [] 0 0) height_rule_inv.
Proof using All.
  assert (0 ≤ NumStates f) as Hns by apply Hwf.
  split.
  - intros Hs. destruct (height_start (MkHeight [] 0 0)) as (v' & n & E & Hv' & HI); [|done|].
    { split_and!; [done..|]. intros s. unfold vget. cbn. by case_decide. }
    exists v', true. split; [exact E|]. split; [done|]. by eexists _, _, _.
  - intros root r B v Hvis (_ & g & n & mx & Hv & HI) HB Hr HrB. exfalso. apply HrB.
    assert (∀ s t, rtc (edge f) s t → s ∈ B → t ∈ B) as Hclosed.
    { induction 1 as [|s t u He _ IH]; [done|]. intros HsB. apply IH. by apply (hi_black _ _ _ _ _ _ HI s HsB). }
    by apply (Hclosed (Start f) r); [apply Hacc|].
  - intros root B s i rest a v Hvis (_ & g & n & mx & Hv & HI) Ha _ Hns'.
    assert (valid f (nextstate a)) as Ht by (apply (proj1 (proj2 Hwf) s); [by apply (inv_top_valid _ _ _ _ _ _ _ _ Hvis)|by eapply vget_elem_of]).
    destruct (height_discover root B ((s, i) :: rest) g n mx (nextstate a) v Hv HI Ht Hns') as (v' & E & Hv' & HI').
    exists v, true. split; [done|]. exists v', true. split; [exact E|]. split; [done|]. by eexists _, _, _.
  - intros root B s i rest a v Hvis (_ & g & n & mx & Hv & HI) Ha _ Hin. exfalso. apply Hacyc. exists (nextstate a).
    eapply tc_rtc_l; [|apply tc_once].
    + eapply stack_reaches; [apply Hvis| |exact Hin]. intros u j Hu. by eapply (inv_stack_valid _ _ _ _ _ _ Hvis).
    + split; [by apply (inv_top_valid _ _ _ _ _ _ _ _ Hvis)|]. exists a. split; [by eapply vget_elem_of|done].
  - intros root B s i rest a v Hvis (_ & g & n & mx & Hv & HI) Ha _ Hin.
    destruct (height_cross root B s i rest g n mx v a Hv HI Hvis Ha Hin) as (v' & g' & E & Hv' & HI').
    exists v', true. split; [exact E|]. split; [done|]. by exists g', n, mx.
  - done.
  - intros root B s i rest go v Hvis (-> & g & n & mx & Hv & HI) Hend.
    destruct (height_finish root B s i rest g n mx v Hv HI Hvis (Hend eq_refl)) as (v' & g' & mx' & E & Hv' & HI').
    exists v'. split; [exact E|]. split; [done|]. by exists g', n, mx'.
Qed.

(** What the visit leaves. *)
Lemma heights_visited : valid f (Start f) →
  ∃ v ht, DfsVisit f height_visitor AnyArcFilter (Some (NumStates f)) false (MkHeight [] 0 0) = Some v ∧
    heights f ht ∧ zlen (height_ v) = NumStates f ∧ num_states_ v = NumStates f ∧ (∀ s, valid f s → (height_ v).[s] = Some (ht s)) ∧
    (∀ s, valid f s → ht s ≤ max_height_ v) ∧ ∀ n, 0 ≤ n ≤ max_height_ v → ∃ s, valid f s ∧ ht s = n.
Proof using All.
  intros Hst. destruct (DfsVisit_ok f height_visitor AnyArcFilter (MkHeight [] 0 0) _ height_rule Hwf Hst (Some (NumStates f)) false)
    as (v & root & B & go & E & Hvis & (-> & g & n & mx & Hv & HI) & HsB & _ & Hall); [by left|].
  specialize (Hall eq_refl eq_refl). pose proof HI as [I1 I2 I3 I4 I5 I6 I7 I8 I9 I10 I11].
  assert (∀ s, s ∈ B → valid f s) as HB by apply (inv_black_valid _ _ _ _ _ _ Hvis).
  assert (n = NumStates f) as ->.
  { assert (0 ≤ NumStates f - 1 < NumStates f) as Hlast by (unfold valid in Hst; lia). pose proof (I3 (NumStates f - 1)) as Hl.
    assert (NumStates f - 1 < n) by (apply Hl; left; by apply Hall). lia. }
  assert (∀ s, valid f s → (height_ v).[s] = Some (g s)) as Hget by (intros s [? ?]; by eapply shows_get).
  assert (heights f g) as HH.
  { split.
    - intros s Hs. by apply (I5 s), Hall.
    - intros s t He. assert (s ∈ B) as Hs by (apply Hall, He). by apply (I5 s Hs).
    - intros s Hs. by apply (I5 s), Hall. }
  pose proof Hv as (Hl & Hn & Em & _). exists v, g. split; [exact E|]. split; [done|]. split; [done|]. split; [done|]. split; [done|]. rewrite Em. split.
  - intros s Hs. apply I10. left. by apply Hall.
  - assert (∃ s, valid f s ∧ g s = mx) as Htop.
    { destruct I11 as [->|(s & [Hs|Hs] & Hle)]; [exists (Start f)|exists s|by apply not_elem_of_nil in Hs].
      - split; [done|]. pose proof (heights_nonneg _ _ HH _ Hst). pose proof (I10 (Start f) ltac:(left; by apply Hall)). lia.
      - split; [by apply HB|]. pose proof (I10 s ltac:(by left)). lia. }
    assert (∀ k, 0 ≤ k → ∀ n, n = mx - k → 0 ≤ n → ∃ s, valid f s ∧ g s = n) as Hdown.
    { refine (natlike_ind _ _ _); [intros n -> _; by rewrite Z.sub_0_r|]. intros k Hk IH n -> Hn0.
      destruct (IH (mx - k) eq_refl) as (s & Hs & Es); [lia|]. destruct (heights_step _ _ HH s Hs) as [?|(t & Ht & Et)]; [lia|].
      exists t. split; [|lia]. destruct Ht as (_ & a & Ha & <-). by apply (proj1 (proj2 Hwf) s). }
    intros n Hn'. apply (Hdown (mx - n)); lia.
Qed.
End heights_visit.

(** * The minimizer *)

Section acyclic_minimizer.
Context `{WeightEq W} `{!HashWeight W} (f : Fst W).
Context (Hwf : WellFormed f) (Hst : valid f (Start f)) (Hacyc : ¬ Holds f Cyclic) (Hacc : Holds f Accessible) (Hco : Holds f CoAccessible).
Context (Hdet : Holds f IDeterministic) (Hsort : Holds f ILabelSorted) (Huw : unweighted_acceptor f) (Hhash : Hash (Zero : W) ≠ Hash One).
Implicit Types (P : Partition) (cls : gmap Z Z) (ht : Z → Z).

Lemma like_delta cls (l k : list (Arc W)) (lab : Z) : Forall2 (like cls) l k →
  (nextstate <$> head (filter (λ a, ilabel a = lab) l)) ≫= (λ u, cls !! u) = (nextstate <$> head (filter (λ a, ilabel a = lab) k)) ≫= (λ u, cls !! u).
Proof using.
  induction 1 as [|a b l k [E1 E2] _ IH]; [done|]. rewrite !filter_cons. rewrite E1. by case_decide.
Qed.

(** The height is the length of a longest trace. *)
Lemma height_trace ht s : heights f ht → valid f s → ∃ x, traces f s x ∧ zlen x = ht s.
Proof using Hwf Hco.
  intros HH Hs. pose proof (heights_nonneg _ _ HH s Hs) as Hn. revert s Hs Hn.
  assert (∀ n, 0 ≤ n → ∀ s, valid f s → ht s = n → ∃ x, traces f s x ∧ zlen x = ht s) as Hd; [|intros s Hs Hn; by apply (Hd (ht s))].
  refine (natlike_ind _ _ _).
  - intros s Hs E. exists []. split; [|done]. exists [], s. split_and!; [by constructor| |done].
    destruct (Hco s Hs) as (t & Hr & Ht). inversion Hr as [|? u ? He]; subst; [done|]. pose proof (heights_edge _ _ HH _ _ He).
    assert (valid f u) as Hu by (destruct He as (_ & a & Ha & <-); by apply (proj1 (proj2 Hwf) s)). pose proof (heights_nonneg _ _ HH u Hu). lia.
  - intros n Hn IH s Hs E. destruct (heights_step _ _ HH s Hs) as [?|(t & (_ & a & Ha & <-) & Et)]; [lia|].
    destruct (IH (nextstate a)) as (x & (p & v & Hp & Hv & <-) & Hx); [by apply (proj1 (proj2 Hwf) s)|lia|].
    exists (ilabel a :: (ilabel <$> p)). split; [|rewrite zlen_cons; lia]. exists (a :: p), v. split_and!; [by apply path_cons|done|done].
Qed.

Lemma trace_height ht s x : heights f ht → traces f s x → zlen x ≤ ht s.
Proof using.
  intros HH (p & v & Hp & _ & <-). rewrite zlen_fmap. induction Hp as [s Hs|s a p t Hs Ha Hp IH].
  - change (zlen []) with 0. by apply (heights_nonneg _ _ HH).
  - rewrite zlen_cons. assert (ht (nextstate a) < ht s); [|lia]. apply (heights_edge _ _ HH). split; [done|by exists a].
Qed.

Lemma same_height ht s t : heights f ht → same_traces f s t → ht s = ht t.
Proof using Hwf Hco.
  intros HH (Hs & Ht & Hst'). destruct (height_trace ht s HH Hs) as (x & Hx & Ex), (height_trace ht t HH Ht) as (y & Hy & Ey).
  apply Hst' in Hx. apply Hst' in Hy. pose proof (trace_height ht t x HH Hx). pose proof (trace_height ht s y HH Hy). lia.
Qed.

Lemma level_finals N ht P cls s t : by_height f ht N N P cls → (∀ s, valid f s → ht s < N) → valid f s → valid f t → cls !! s = cls !! t →
  ht s = ht t ∧ eqv f cls s t.
Proof using. intros HB HN Hs Ht E. apply (level_eqv _ _ _ _ _ _ HB); auto. Qed.

Lemma hash_final s t : valid f s → valid f t → Hash (Final f s) = Hash (Final f t) ↔ (is_final f s ↔ is_final f t).
Proof using Huw Hhash.
  intros Hs Ht. rewrite (proj2 Huw s Hs), (proj2 Huw t Ht). unfold is_final.
  destruct (weqb (Final f s) Zero), (weqb (Final f t) Zero); naive_solver.
Qed.

Lemma Forall2_like cls (l k : list (Arc W)) : ilabel <$> l = ilabel <$> k →
  (∀ a b, a ∈ l → b ∈ k → ilabel a = ilabel b → cls !! nextstate a = cls !! nextstate b) → Forall2 (like cls) l k.
Proof using.
  revert k. induction l as [|a l IH]; intros [|b k] E Hin; try done. injection E as E1 E2. constructor; [split; [done|apply Hin; [left|left|done]]|].
  apply IH; [done|]. intros c d Hc Hd. apply Hin; by right.
Qed.

(** States that accept the same are together. *)
Lemma level_traces N ht P cls : by_height f ht N N P cls → heights f ht → (∀ s, valid f s → ht s < N) →
  ∀ n, 0 ≤ n → ∀ s t, ht s < n → same_traces f s t → cls !! s = cls !! t.
Proof using All.
  intros HB HH HN. refine (natlike_ind _ _ _); [intros s t Hlt (Hs & _); pose proof (heights_nonneg _ _ HH s Hs); lia|].
  intros n Hn IH s t Hlt Hst'. pose proof Hst' as (Hs & Ht & Htr). apply (level_eqv _ _ _ _ _ _ HB); auto.
  split; [by eapply same_height|]. split.
  - apply hash_final; [done..|]. rewrite <-!traces_nil by done. apply Htr.
  - apply Forall2_like; [by apply same_traces_labels; [apply Hwf|..]|]. intros a b Ha Hb E.
    assert (delta f s (ilabel a) = Some (nextstate a)) as Hda by by apply arc_delta; [|split].
    assert (delta f t (ilabel b) = Some (nextstate b)) as Hdb by by apply arc_delta; [|split].
    destruct (same_traces_step f s t (ilabel a) (nextstate a) Hdet (proj1 (proj2 Hwf)) Hco Hst' Hda) as (v & Hv & Huv).
    rewrite E, Hdb in Hv. injection Hv as <-. apply IH; [|done].
    assert (ht (nextstate a) < ht s); [|lia]. apply (heights_edge _ _ HH). split; [done|by exists a].
Qed.

Lemma AcyclicMinimizer_ok :
  ∃ P cls, AcyclicMinimizer f (Some (NumStates f)) = Some P ∧ congruence f P cls ∧ ∀ s t, same_traces f s t → cls !! s = cls !! t.
Proof using All.
  destruct (heights_visited f Hwf Hacyc Hacc Hst) as (v & ht & E & HH & Hlen & Hnum & Hget & Hle & Hused).
  pose proof Hwf as (Hn & Harcs & _). set (N := max_height_ v + 1) in *.
  assert (0 ≤ max_height_ v) as Hm by (pose proof (heights_nonneg _ _ HH _ Hst); pose proof (Hle _ Hst); lia).
  destruct (Initialize_ok (MkPartition [] [] [] 0) (NumStates f) N) as (HP0 & N0 & Z0 & _); [done|done|lia|].
  destruct (add_vector (AllocateClasses (Initialize (MkPartition [] [] [] 0) (NumStates f)) N) (height_ v) (NumStates f) HP0)
    as (P1 & cls1 & E1 & HP1 & HN1 & _ & Hlook); [lia|lia| |].
  { intros s h Hh. rewrite N0. assert (valid f s) as Hs by (apply vget_range in Hh; unfold valid; lia). rewrite (Hget s Hs) in Hh. injection Hh as <-.
    pose proof (heights_nonneg _ _ HH s Hs). pose proof (Hle s Hs). lia. }
  assert (∀ s, valid f s → cls1 !! s = Some (ht s)) as Hcls1.
  { intros s Hs. rewrite Hlook, decide_True by apply Hs. by apply Hget. }
  destruct (Refine_ok f Harcs ht HH N ltac:(intros n Hn'; apply Hused; lia) P1 cls1) as (P & cls & E2 & HB); [lia|congruence| |].
  { split; try done.
    - lia.
    - intros s. split; [|intros Hs; rewrite Hcls1 by done; by eexists]. intros [c Hc]. rewrite Hlook in Hc. case_decide; [|done].
      apply vget_range in Hc. unfold valid. lia.
    - intros s Hs _. by apply Hcls1.
    - intros s Hs Hlt. pose proof (heights_nonneg _ _ HH s Hs). lia.
    - intros s t Hs _ Hlt. pose proof (heights_nonneg _ _ HH s Hs). lia.
    - intros c Hc. destruct (Hused c) as (s & Hs & <-); [lia|]. exists s. by apply Hcls1. }
  assert (∀ s, valid f s → ht s < N) as HN by (intros s Hs; specialize (Hle s Hs); lia).
  exists P, cls. split; [|split].
  - unfold AcyclicMinimizer, Acyclic_Initialize. rewrite E. cbn [mbind option_bind]. rewrite Hnum, Hlen. cbv zeta. fold N. rewrite E1. exact E2.
  - pose proof (level_dom _ _ _ _ _ _ HB) as Hdom. split.
    + apply HB.
    + exact Hdom.
    + apply HB.
    + intros s t Hs Est. assert (valid f t) as Ht by (apply Hdom; rewrite <-Est; by apply Hdom).
      destruct (level_finals N ht P cls s t HB HN Hs Ht Est) as [_ [Eh _]]. by apply hash_final in Eh as [? _].
    + intros s t l Hs Est. assert (valid f t) as Ht by (apply Hdom; rewrite <-Est; by apply Hdom).
      destruct (level_finals N ht P cls s t HB HN Hs Ht Est) as [_ [_ HF]]. unfold target, delta. rewrite !decide_True by done. by apply like_delta.
  - intros s t Hst'. pose proof Hst' as (Hs & _). apply (level_traces N ht P cls HB HH HN N); [lia|by apply HN|done].
Qed.
End acyclic_minimizer.
