(* ===== verification/MinimizeSpec.v ===== *)
(** [AcceptorMinimize] as a whole (openfst/lib/minimize.h): trimming, the choice between
the two refinements, merging, and taking out equal arcs.  Proved here: a deterministic
unweighted acceptor is left with the language that it had, deterministic, trimmed and,
if it was acyclic or its arcs were sorted, with no two states that accept the same, so
that no deterministic machine with the same traces has fewer states. *)
From stdpp Require Import gmap.
From Stdlib Require Import Sorting.Sorted.
From S2P Require Import Prelude Weight FloatWeight Properties SymbolTable Fst VectorFst Mutation VectorSound.
From S2P Require Import MutableFst Rational RationalLang RationalSpec Dfs ArcMap StateMap ArcSort Renumber Connect TestProperties Queue Reverse.
From S2P Require Import Partition PartitionSplit Minimize Hopcroft Cyclic CyclicSpec Merge Unique Acyclic.
Local Open Scope Z_scope.

(** * What the steps keep *)

Section kept.
Context `{TM : TimesMonoid W}.
Implicit Types (f g : Fst W) (a b : Arc W) (kept : list Z).

(** A deterministic acceptor with the weight One everywhere. *)
Record simple f : Prop := { simple_det : Holds f IDeterministic; simple_unweighted : unweighted_acceptor f }.

Lemma unweighted_equiv f g : f ≡ g → unweighted_acceptor f → unweighted_acceptor g.
Proof.
  intros (ES & EN & EF & EA) [H1 H2]. split.
  - intros s a [Hs Ha]. apply (H1 s a). unfold arc_in, valid in *. by rewrite EN, EA.
  - intros s Hs. rewrite <-EF. apply H2. unfold valid in *. by rewrite EN.
Qed.

Lemma simple_equiv f g : f ≡ g → simple f → simple g.
Proof. intros E [H1 H2]. split; [by apply (Holds_equiv f)|by apply (unweighted_equiv f)]. Qed.

Lemma keep_simple f kept : NoDup kept → Forall (valid f) kept → simple f → simple (abs_keep_states f kept).
Proof.
  intros Hnd Hv [Hdet [H1 H2]]. split.
  - intros i Hi. destruct (kept_state f kept Hv i Hi) as (s & Hs & Hvs). rewrite (kept_arcs f kept i s Hs).
    pose proof (keep_labels kept ilabel (Arcs f s) ltac:(done)) as Hsub%sublist_submseteq%submseteq_Permutation. destruct Hsub as (k & Hk).
    specialize (Hdet s Hvs). rewrite Hk in Hdet. by apply NoDup_app in Hdet as [? _].
  - split.
    + intros i b Hb. destruct (keep_arc_in f kept Hnd Hv i b Hb) as (s & a & _ & Ha & _ & ->). by apply (H1 s a).
    + intros i Hi. destruct (kept_state f kept Hv i Hi) as (s & Hs & Hvs). rewrite (kept_final f kept i s Hs). by apply H2.
Qed.

Lemma permuted_simple f g : permuted f g → simple f → simple g.
Proof.
  intros Hp [Hdet [H1 H2]]. pose proof Hp as (_ & EN & EF & EA). split; [by apply (permuted_holds f)|]. split.
  - intros s a [Hs Ha]. apply (H1 s a). split; [by apply (permuted_valid f g s Hp)|by rewrite <-EA].
  - intros s Hs. rewrite EF. apply H2. by apply (permuted_valid f g s Hp).
Qed.

(** Traces through renumbering and through machines that cover each other. *)
Lemma keep_traces f kept i s x : NoDup kept → Forall (valid f) kept →
  (∀ u, u ∈ kept ↔ rtc (edge f) (Start f) u ∧ coaccessible f u) → kept.[i] = Some s → traces (abs_keep_states f kept) i x ↔ traces f s x.
Proof.
  intros Hnd Hv Huse Hi. assert (∀ p q : list (Arc W), Forall2 same_labels q p → ilabel <$> q = ilabel <$> p) as Hlab.
  { induction 1 as [|a b p q (E & _) _ IH]; [done|]. by rewrite !fmap_cons, E, IH. }
  split.
  - intros (q & j & Hq & Hf & <-). destruct (keep_path_inv f kept Hnd Hv i q j Hq) as (s' & t & p & Hs & Ht & Hp & Hl). simplify_eq.
    exists p, t. split_and!; [done|by apply (kept_is_final f kept Hv j t)|]. symmetry. by apply Hlab.
  - intros (p & t & Hp & Hf & <-). destruct (keep_path f kept Hnd Hv s p t i Hp) as (j & q & Hj & Hq & Hl); [|done|].
    + intros u Hsu Hut. apply Huse. apply vget_elem_of, Huse in Hi as [Hr _]. split; [by etrans|]. by exists t.
    + exists q, j. split_and!; [done|by apply (kept_is_final f kept Hv j t)|by apply Hlab].
Qed.

Lemma covers_traces f g s x : covers f g → traces f s x → traces g s x.
Proof.
  intros HC (p & t & Hp & Ht & <-). destruct (covers_path f g s p t HC Hp) as (q & Hq & HF). exists q, t.
  split_and!; [done|by apply (covers_final f)|]. symmetry. by apply same_arc_strings.
Qed.

Lemma equiv_covers f g : f ≡ g → covers f g.
Proof. intros (_ & EN & EF & EA). split; [done|]. split; [done|]. intros s a Ha. exists a. by rewrite <-EA. Qed.

Lemma equiv_traces f g s x : f ≡ g → traces f s x ↔ traces g s x.
Proof. intros E. split; apply covers_traces, equiv_covers; [done|by symmetry]. Qed.

Lemma permuted_covers f g : permuted f g → covers f g.
Proof. intros (_ & EN & EF & EA). split; [done|]. split; [done|]. intros s a Ha. exists a. by rewrite EA. Qed.

(** The labels of what is left of a machine. *)
Lemma fewer_labels f g : WellFormed f → WellFormed g →
  (∀ i b, arc_in g i b → ∃ s a, arc_in f s a ∧ ilabel a = ilabel b) → Z.of_nat (size (input_labels g)) ≤ Z.of_nat (size (input_labels f)).
Proof.
  intros Hf Hg Hsub. apply inj_le, subseteq_size. intros l. unfold input_labels. rewrite !elem_of_list_to_set, !list_elem_of_bind.
  intros (i & Hl & Hi). apply list_elem_of_fmap in Hl as (b & -> & Hb). apply elem_of_seqZ in Hi.
  destruct (Hsub i b) as (s & a & [Hs Ha] & <-); [split; [unfold valid; lia|done]|]. exists s. split; [by apply list_elem_of_fmap_2|].
  apply elem_of_seqZ. unfold valid in Hs. lia.
Qed.
End kept.

(** * Merging, and taking out equal arcs *)

Section merging.
Context `{TM : TimesMonoid W} {F : Type} `{!MutableFst W F} `{!MutableFstLaws W F}.
Context (std_sort : (Arc W → Arc W → bool) → list (Arc W) → list (Arc W)) (Hsort : sorts std_sort).
Implicit Types (x y z : F) (f g : Fst W) (P : Partition) (cls : gmap Z Z).

Lemma arc_eq_same (a b : Arc W) : ilabel a = ilabel b → olabel a = ilabel a → olabel b = ilabel b → weight a = One → weight b = One →
  nextstate a = nextstate b → arc_eq a b = true.
Proof using TM.
  intros E1 E2 E3 E4 E5 E6. unfold arc_eq, key_eq. rewrite E2, E3, E1, E4, E5, E6, !Z.eqb_refl.
  by rewrite (weqb_member_refl One One_member).
Qed.

(** The states that are accessible in the merged machine stand for their classes. *)
Lemma merged_accessible f P cls u : congruence f P cls → wf_arcs f → valid f (Start f) →
  let g := abs_set_start (abs_merged f P cls (NumClasses P)) (rep P cls (Start f)) in
  rtc (edge g) (Start g) u → rep P cls u = u ∧ valid f u.
Proof using.
  intros HC Hwf Hst g Hr. change (Start g) with (rep P cls (Start f)) in Hr.
  assert (∀ s v, rtc (edge g) s v → rep P cls s = s ∧ valid f s → rep P cls v = v ∧ valid f v) as Hd.
  { induction 1 as [|s t v (Hs & b & Hb & <-) _ IH]; [done|]. intros [Hrs Hvs]. apply IH.
    apply (merged_arc f P cls HC s b Hvs Hrs) in Hb as (r & a & Hr' & _ & Ha & ->). cbn.
    by apply and_comm, (rep_class f P cls HC), (Hwf r). }
  apply (Hd _ _ Hr). destruct (rep_class f P cls HC (Start f) Hst) as (_ & ? & ?). done.
Qed.

(** The arcs of one label of a state that is left are equal. *)
Lemma merged_same_arc f P cls kept i a b : congruence f P cls → WellFormed f → valid f (Start f) → simple f →
  let g := abs_set_start (abs_merged f P cls (NumClasses P)) (rep P cls (Start f)) in
  NoDup kept → Forall (valid g) kept → (∀ s, s ∈ kept ↔ rtc (edge g) (Start g) s ∧ coaccessible g s) →
  arc_in (abs_keep_states g kept) i a → arc_in (abs_keep_states g kept) i b → ilabel a = ilabel b → arc_eq a b = true.
Proof using TM.
  intros HC Hwf Hst [Hdet [H1 H2]] g Hnd Hkv Huse Ha Hb E. pose proof Hwf as (_ & Harcs & _).
  destruct (keep_arc_in g kept Hnd Hkv i a Ha) as (s & a1 & Hs & [_ Ha1] & Hna & Ea), (keep_arc_in g kept Hnd Hkv i b Hb) as (s' & b1 & Hs' & [_ Hb1] & Hnb & Eb).
  assert (s' = s) as -> by congruence.
  destruct (merged_accessible f P cls s HC Harcs Hst) as [Hrep Hvs]; [apply Huse; by eapply vget_elem_of|].
  apply (merged_arc f P cls HC s a1 Hvs Hrep) in Ha1 as (t & a2 & Ht & Hct & Ha2 & ->).
  apply (merged_arc f P cls HC s b1 Hvs Hrep) in Hb1 as (u & b2 & Hu & Hcu & Hb2 & ->).
  destruct (H1 t a2 (conj Ht Ha2)) as [Oa Wa], (H1 u b2 (conj Hu Hb2)) as [Ob Wb]. rewrite Ea, Eb in E. cbn in E.
  assert (rep P cls (nextstate a2) = rep P cls (nextstate b2)) as Er.
  { apply (rep_eq f P cls HC); [by apply (Harcs t)|by apply (Harcs u)|].
    pose proof (cong_step _ _ _ HC t u (ilabel a2) Ht ltac:(congruence)) as Hstep. unfold target in Hstep.
    rewrite (arc_delta f t a2 Hdet (conj Ht Ha2)), E, (arc_delta f u b2 Hdet (conj Hu Hb2)) in Hstep. exact Hstep. }
  rewrite Ea, Eb. cbn in Hna, Hnb. rewrite Er in Hna. apply arc_eq_same; cbn; try done. by eapply (kept_inj kept Hnd).
Qed.

Lemma merge_unique_ok x P cls :
  minv x → WellFormed (view x) → SoundFst (view x) → valid (view x) (Start (view x)) → Holds (view x) CoAccessible → simple (view x) →
  congruence (view x) P cls →
  ∃ y z back, MergeStates P x = Some y ∧ StateMap y (ArcUniqueMapper std_sort) = Some z ∧
    leaves z (has (FstProperties (view x)) kError) (accepts (view x)) ∧
    InputSymbols (view z) = InputSymbols (view x) ∧ OutputSymbols (view z) = OutputSymbols (view x) ∧
    Holds (view z) Accessible ∧ Holds (view z) CoAccessible ∧ Holds (view z) IDeterministic ∧
    valid (view z) (Start (view z)) ∧ (∀ l, traces (view z) (Start (view z)) l ↔ traces (view x) (Start (view x)) l) ∧
    (∀ i, valid (view z) i → valid (view x) (back i) ∧ ∀ l, traces (view z) i l ↔ traces (view x) (back i) l) ∧
    ∀ i j, valid (view z) i → valid (view z) j → cls !! back i = cls !! back j → i = j.
Proof using All.
  intros Hx Hwf Hs Hst Hco Hsimple HC. set (f := view x) in *. pose proof Hwf as (_ & Harcs & _). pose proof Hsimple as [Hdet Huw].
  destruct (MergeStates_ok x P cls Hx Hwf Hs Hst HC) as (y & kept & Ey & Hl & Hnd & Hkv & Huse & Hvy & Hiy & Hoy & Hacc & Hcoy).
  fold f in Hl, Hkv, Huse, Hvy. set (g := abs_set_start (abs_merged f P cls (NumClasses P)) (rep P cls (Start f))) in *.
  assert (Start g ∈ kept) as [k Hk]%elem_of_vget.
  { apply Huse. split; [done|]. destruct (rep_class f P cls HC (Start f) Hst) as (_ & Hrs & _).
    destruct (Hco (Start f) Hst) as (t & Hr & Ht). destruct (rtc_path f (Start f) t Hr (proj1 Ht)) as (p & Hp).
    destruct (merged_traces f P cls HC Harcs Hdet (Start f) (ilabel <$> p) Hst) as [_ Htr].
    destruct Htr as (q & u & Hq & Hu & _); [by exists p, t|]. exists u. split; [by eapply path_rtc|done]. }
  assert (Start (view y) = k) as ESy.
  { rewrite (proj1 Hvy). cbn [Start abs_keep_states]. by rewrite (proj2 (index_of_Some kept (Start g) k Hnd) Hk). }
  assert (valid (view y) k) as Hvk by (rewrite Hvy; by eapply vget_range).
  destruct (ArcUnique_ok std_sort Hsort y) as (z & Ez & Hlz & Hvz & Hiz & Hoz); [apply Hl..| |].
  { rewrite ESy. unfold valid in Hvk. unfold kNoStateId. lia. }
  destruct (unique_covers std_sort Hsort (view y)) as [C1 C2]. set (h := abs_map_arcs (view y) _) in *.
  assert (∀ i l, traces (view z) i l ↔ traces (view y) i l) as Htz.
  { intros i l. rewrite (equiv_traces _ _ i l Hvz). split; by apply covers_traces. }
  assert (∀ i, valid (view z) i ↔ valid (view y) i) as Hvalz by (intros i; by rewrite Hvz).
  assert (∀ i, valid (view y) i → ∃ s, kept.[i] = Some s ∧ rep P cls s = s ∧ valid f s) as Hkept.
  { intros i Hi. rewrite Hvy in Hi. destruct (kept_state g kept Hkv i Hi) as (s & Hsi & _). exists s. split; [done|].
    apply merged_accessible; [done..|]. apply Huse. by eapply vget_elem_of. }
  set (back := λ i, default i (kept.[i])).
  assert (∀ i, valid (view y) i → valid f (back i) ∧ ∀ l, traces (view y) i l ↔ traces f (back i) l) as Hback.
  { intros i Hi. destruct (Hkept i Hi) as (s & Hsi & Hr & Hvs). unfold back. rewrite Hsi. cbn. split; [done|]. intros l.
    rewrite (equiv_traces _ _ i l Hvy), (keep_traces g kept i s l Hnd Hkv Huse Hsi). rewrite <-Hr at 1.
    by apply merged_traces. }
  exists y, z, back. split; [done|]. split; [done|].
  assert (Holds (view z) Accessible ∧ Holds (view z) CoAccessible) as [Haz Hcz].
  { assert (∀ s t, edge (view y) s t → edge (view z) s t) as He.
    { intros s t (Hvs & a & Ha & <-). split; [by apply Hvalz|]. destruct C1 as (_ & _ & C1). destruct (C1 s a Ha) as (b & Hb & En & _). injection En as _ _ En.
      exists b. split; [|done]. destruct Hvz as (_ & _ & _ & HA). by rewrite HA. }
    split; intros s Hvs%Hvalz.
    - rewrite (proj1 Hvz). eapply rtc_subrel; [|by apply Hacc]. exact He.
    - destruct (Hcoy s Hvs) as (t & Hr & Ht). exists t. split; [by eapply rtc_subrel; [exact He|]|]. rewrite Hvz. by apply (covers_final (view y)). }
  assert (Start (view z) = Start (view y)) as ESz by apply (proj1 Hvz).
  split_and!; try done.
  - destruct Hlz as [L1 L2 L3 L4 L5]. destruct Hl as [_ _ _ K4 K5]. split; try done.
    + intros Herr. apply L4, K4, Herr.
    + intros a b w. rewrite L5, K5. by apply merged_accepts.
  - by rewrite Hiz, Hiy.
  - by rewrite Hoz, Hoy.
  - intros i Hi. destruct Hvz as (_ & _ & _ & HA). rewrite HA. cbn. destruct (Hsort key_less (Arcs (view y) i) key_order) as [Hp Ho].
    apply unique_arcs_labels; [done|]. intros a b Ha Hb. rewrite Hp in Ha, Hb. apply Hvalz in Hi. rewrite Hvy in Hi.
    destruct Hvy as (_ & _ & _ & HAy). rewrite HAy in Ha, Hb. by eapply (merged_same_arc f P cls kept i a b).
  - rewrite ESz, ESy. by apply Hvalz.
  - intros l. rewrite ESz, Htz, ESy, (proj2 (Hback k Hvk)). unfold back. rewrite Hk. change (traces f (rep P cls (Start f)) l ↔ traces f (Start f) l).
    destruct (rep_class f P cls HC (Start f) Hst) as (Hc & Hv & _). by apply (cong_traces f P cls HC (rep P cls (Start f)) (Start f)).
  - intros i Hi%Hvalz. split; [by apply Hback|]. intros l. rewrite Htz. by apply Hback.
  - intros i j Hi%Hvalz Hj%Hvalz. destruct (Hkept i Hi) as (s & Hsi & Hri & Hvi), (Hkept j Hj) as (t & Htj & Hrj & Hvj).
    unfold back. rewrite Hsi, Htj. cbn. intros E. apply (rep_eq f P cls HC s t) in E; [|done..]. rewrite Hri, Hrj in E. subst t.
    by eapply (kept_inj kept Hnd).
Qed.
End merging.

(** * No smaller machine *)

Section fewest.
Context `{WeightOps W}.
Implicit Types (f g : Fst W) (l k : list Z).

Definition leads f (s : Z) l (t : Z) : Prop := ∃ p, path f s p t ∧ ilabel <$> p = l.

Lemma leads_unique f s l t u : Holds f IDeterministic → leads f s l t → leads f s l u → t = u.
Proof.
  intros Hdet (p & Hp & <-). revert u. induction Hp as [s Hs|s a p t Hs Ha Hp IH]; intros u (q & Hq & E).
  - apply fmap_nil_inv in E as ->. by inversion Hq.
  - destruct q as [|b q]; [done|]. rewrite !fmap_cons in E. injection E as E1 E2. inversion Hq as [|? ? ? ? ? Hb Hq']; subst.
    apply IH. assert (nextstate b = nextstate a) as <-; [|by exists q].
    pose proof (arc_delta f s a Hdet (conj Hs Ha)) as D1. pose proof (arc_delta f s b Hdet (conj Hs Hb)) as D2. congruence.
Qed.

Lemma traces_app f s l k : traces f s (l ++ k) ↔ ∃ t, leads f s l t ∧ traces f t k.
Proof.
  split.
  - intros (p & u & Hp & Hu & E). revert s p Hp E. induction l as [|x l IH]; intros s p Hp E.
    + exists s. split; [exists []; split; [constructor; by eapply path_valid_l|done]|]. by exists p, u.
    + destruct p as [|a p]; [done|]. cbn in E. injection E as <- E. inversion Hp as [|? ? ? ? Hs Ha Hp']; subst.
      destruct (IH _ _ Hp' E) as (t & (q & Hq & <-) & Ht). exists t. split; [|done]. exists (a :: q). split; [by apply path_cons|done].
  - intros (t & (p & Hp & <-) & q & u & Hq & Hu & <-). exists (p ++ q), u. split_and!; [by eapply path_app|done|by rewrite fmap_app].
Qed.

(** A trimmed machine with no two states that accept the same has the fewest states. *)
Lemma fewest_states f g : Holds f IDeterministic → Holds g IDeterministic → Holds f Accessible → Holds f CoAccessible →
  (∀ s t, same_traces f s t → s = t) → (∀ l, traces f (Start f) l ↔ traces g (Start g) l) → 0 ≤ NumStates g → NumStates f ≤ NumStates g.
Proof.
  intros Hf Hg Hacc Hco Hmin HL Hn. set (M := λ s t, ∃ l, leads f (Start f) l s ∧ leads g (Start g) l t).
  assert (∀ s, valid f s → ∃ t, M s t ∧ valid g t) as Htot.
  { intros s Hs. destruct (rtc_path f (Start f) s (Hacc s Hs) Hs) as (p & Hp). destruct (Hco s Hs) as (u & Hr & Hu).
    destruct (rtc_path f s u Hr (proj1 Hu)) as (q & Hq).
    assert (traces f (Start f) ((ilabel <$> p) ++ (ilabel <$> q))) as Htr.
    { apply traces_app. exists s. split; [by exists p|by exists q, u]. }
    apply HL, traces_app in Htr as (t & Ht & _). exists t. split; [exists (ilabel <$> p); split; [by exists p|done]|].
    destruct Ht as (q' & Hq' & _). by eapply path_valid_r. }
  assert (∀ s t k, M s t → traces f s k ↔ traces g t k) as Hsame.
  { intros s t k (l & Hs & Ht). split; intros Hk.
    - destruct (proj1 (traces_app g (Start g) l k)) as (t' & Ht' & Hk'); [apply HL, traces_app; by exists s|].
      by rewrite (leads_unique g (Start g) l t t').
    - destruct (proj1 (traces_app f (Start f) l k)) as (s' & Hs' & Hk'); [apply HL, traces_app; by exists t|].
      by rewrite (leads_unique f (Start f) l s s'). }
  assert (∀ ss, (∀ s, s ∈ ss → valid f s) → ∃ ts, Forall2 M ss ts ∧ ∀ t, t ∈ ts → valid g t) as Hlist.
  { induction ss as [|s ss IH]; intros Hss; [exists []; split; [done|by intros t ?%not_elem_of_nil]|].
    destruct IH as (ts & HF & Hv); [intros u Hu; apply Hss; by right|]. destruct (Htot s) as (t & Ht & Hvt); [apply Hss; left|].
    exists (t :: ts). split; [by constructor|]. intros u [->|Hu]%elem_of_cons; [done|by apply Hv]. }
  destruct (Hlist (seqZ 0 (NumStates f))) as (ts & HF & Hv); [intros s Hs%elem_of_seqZ; unfold valid; lia|].
  assert (NoDup ts) as Hnd.
  { apply NoDup_alt. intros i j t Hi Hj. pose proof (Forall2_lookup_r _ _ _ _ _ HF Hi) as (s & Hsi & Hs).
    pose proof (Forall2_lookup_r _ _ _ _ _ HF Hj) as (s' & Hsj & Hs'). apply lookup_seqZ in Hsi as [-> ?], Hsj as [-> ?].
    assert (0 + Z.of_nat i = 0 + Z.of_nat j); [|lia]. apply Hmin. split_and!; [unfold valid; lia..|]. intros k.
    by rewrite (Hsame _ _ k Hs), (Hsame _ _ k Hs'). }
  assert (ts ⊆+ seqZ 0 (NumStates g)) as Hsub%submseteq_length.
  { apply NoDup_submseteq; [done|]. intros t Ht%Hv. apply elem_of_seqZ. unfold valid in Ht. lia. }
  apply Forall2_length in HF. rewrite !length_seqZ in *. lia.
Qed.
End fewest.

(** * The choice of the algorithm *)

Section choice.
Context `{TM : TimesMonoid W}.
Implicit Types (x y : VectorFst W).

Lemma revuz_ok verify x : minv x → WellFormed (view x) → SoundFst (view x) → valid (view x) (Start (view x)) →
  ∃ y r, Fst_Properties verify x (kAcyclic ||| kIDeterministic) true = Some (y, r) ∧ evolves x y (view x) ∧
    (Holds (view x) IDeterministic → (r =? kAcyclic ||| kIDeterministic) = true ↔ ¬ Holds (view x) Cyclic).
Proof.
  intros Hx Hwf Hs Hst. set (mask := kAcyclic ||| kIDeterministic).
  destruct (test_ok verify (vector_view x) (Some (zlen (states_ x))) mask Hwf) as (p & E & Hp & Ha & _);
    [intros E; unfold valid in Hst; change (Start (vector_view x)) with (Start (view x)) in E; rewrite E in Hst; unfold kNoStateId in Hst; lia|by left|done|].
  unfold Fst_Properties. rewrite E. cbn [mbind option_bind]. set (y := UpdateProperties x p (KnownProperties p)). exists y, (p &&& mask).
  split; [done|]. split.
  - split; [exact Hx|]. split; [apply view_with_properties|done|done| |].
    + intros He. change (has (properties_ y) kError = true). change (has (properties_ x) kError = true) in He.
      rewrite error_bit in *. unfold y. rewrite update_bit by done. by rewrite He.
    + intros _. apply (SoundFst_equiv _ _ (view_with_properties _ _)). change (FstProperties (view y)) with (properties_ y).
      by apply update_sound.
  - intros Hdet. assert (Z.testbit p 18 = true) as H18.
    { apply (proj1 (Ha IDeterministic ltac:(by left))). exact Hdet. }
    destruct (Ha Cyclic ltac:(by right)) as [_ Hcyc]. change (neg_bit Cyclic) with 35 in Hcyc. rewrite <-Hcyc, Z.eqb_eq. split.
    + intros Em. assert (Z.testbit (p &&& mask) 35 = true) as Hb by by rewrite Em. by rewrite Z.land_spec, andb_true_iff in Hb; destruct Hb.
    + intros H35. apply Z.bits_inj'. intros i Hi. rewrite Z.land_spec. unfold mask. rewrite Z.lor_spec.
      change kAcyclic with (2 ^ 35). change kIDeterministic with (2 ^ 18).
      rewrite !Z.pow2_bits_eqb by lia. destruct (Z.eqb_spec 35 i) as [<-|]; [by rewrite H35|].
      destruct (Z.eqb_spec 18 i) as [<-|]; [by rewrite H18|]. apply andb_false_r.
Qed.

(** What the refinements start from. *)
Record trimmed x : Prop := {
  trimmed_inv : minv x;
  trimmed_wf : WellFormed (view x);
  trimmed_sound : SoundFst (view x);
  trimmed_start : valid (view x) (Start (view x));
  trimmed_accessible : Holds (view x) Accessible;
  trimmed_coaccessible : Holds (view x) CoAccessible;
  trimmed_simple : simple (view x);
}.

(** [y] is [x] with the arcs of each state in another order. *)
Definition reordered x y : Prop :=
  permuted (view x) (view y) ∧ leaves y (has (FstProperties (view x)) kError) (accepts (view x)) ∧
  InputSymbols (view y) = InputSymbols (view x) ∧ OutputSymbols (view y) = OutputSymbols (view x).

Lemma reordered_trimmed x y : trimmed x → reordered x y → trimmed y.
Proof.
  intros [T1 T2 T3 T4 T5 T6 T7] (Hp & [L1 L2 L3 _ _] & _). split; try done.
  - rewrite (proj1 Hp). by apply (permuted_valid (view x) (view y) _ Hp).
  - by apply (permuted_holds (view x)).
  - by apply (permuted_holds (view x)).
  - by apply (permuted_simple (view x)).
Qed.

Lemma evolves_reordered x y : trimmed x → evolves x y (view x) → reordered x y.
Proof.
  intros [T1 T2 T3 T4 T5 T6 T7] (Hm & [Hv Hi Ho He Hs]).
  assert (permuted (view x) (view y)) as Hp by (destruct Hv as (ES & EN & EF & EA); split_and!; [done..|]; intros s; by rewrite EA).
  split_and!; [done|split|done..]; [done|by apply (permuted_wf (view x))|by apply Hs|done|].
  intros a b w. split; apply permuted_accepts; [by apply permuted_sym|done].
Qed.

Lemma reordered_trans x y z : reordered x y → reordered y z → reordered x z.
Proof.
  intros (Hp & [L1 L2 L3 L4 L5] & Hi & Ho) (Hq & [K1 K2 K3 K4 K5] & Hj & Hk). split_and!; [|split|congruence..]; try done.
  - destruct Hp as (ES & EN & EF & EA), Hq as (ES' & EN' & EF' & EA'). split_and!; [congruence..| |]; intros s; [by rewrite EF'|by rewrite EA'].
  - intros He. apply K4, L4, He.
  - intros a b w. by rewrite K5, L5.
Qed.

Lemma sort_reordered x : trimmed x → ∃ y, ArcSort x ILabelCompare = Some y ∧ reordered x y ∧ Holds (view y) ILabelSorted.
Proof.
  intros [T1 T2 T3 T4 T5 T6 T7]. destruct (ArcSort_sorts ILabelCompare x T1 T2 T3) as (y & E & Hl & Hv & Hi & Ho).
  { unfold valid in T4. unfold kNoStateId. lia. }
  exists y. split; [done|]. destruct Hv as (ES & EN & EF & EA). split; [split_and!|].
  - split_and!; [done..|]. intros s. rewrite EA. apply stable_sort_perm.
  - done.
  - done.
  - done.
  - intros s _. rewrite EA. eapply (in_order_labels (less ILabelCompare)); [|apply stable_sort_sorted, compare_order].
    intros a b Hab. cbn in Hab. apply orb_false_iff in Hab as [Hab _]. by apply Z.ltb_ge in Hab.
Qed.

Context `{WeightEq R} `{!ReverseWeight W R} `{!HashWeight W}.
Context (take_top : ∀ A, (A → A → bool) → list A → option (A * list A)) (Htop : takes_top take_top).
Context (max_state : Z) (Hhash : Hash (Zero : W) ≠ Hash One).

(** The classes that the merge is given. *)
Lemma refinement_ok verify x : trimmed x → 1 + NumStates (view x) * (Z.of_nat (size (input_labels (view x))) + 1) ≤ max_state →
  ∃ y0 r y P cls, Fst_Properties verify x (kAcyclic ||| kIDeterministic) true = Some (y0, r) ∧
    (if r =? kAcyclic ||| kIDeterministic then
       fst ← ArcSort y0 ILabelCompare; P ← AcyclicMinimizer (view fst) (Some (NumStates (view fst))); MergeStates P fst
     else P ← CyclicMinimizer (R:=R) take_top max_state (view y0) (MkLifo []); MergeStates P y0) = MergeStates P y ∧
    reordered x y ∧ congruence (view y) P cls ∧
    (¬ Holds (view x) Cyclic ∨ Holds (view x) ILabelSorted → ∀ s t, same_traces (view y) s t → cls !! s = cls !! t).
Proof using All.
  intros Hx Hmax. pose proof Hx as [T1 T2 T3 T4 T5 T6 T7].
  destruct (revuz_ok verify x T1 T2 T3 T4) as (y0 & r & E0 & Hev & Hr). specialize (Hr (simple_det _ T7)).
  pose proof (evolves_reordered x y0 Hx Hev) as Hre0. pose proof (reordered_trimmed x y0 Hx Hre0) as Hy0.
  destruct (r =? kAcyclic ||| kIDeterministic) eqn:Er.
  - destruct (sort_reordered y0 Hy0) as (y & Ey & Hre1 & Hsorted). pose proof (reordered_trimmed y0 y Hy0 Hre1) as Hy.
    pose proof (reordered_trans _ _ _ Hre0 Hre1) as Hxy. pose proof Hy as [Y1 Y2 Y3 Y4 Y5 Y6 Y7].
    assert (¬ Holds (view y) Cyclic) as Hac.
    { intros Hc. apply (proj1 Hr eq_refl). apply (permuted_holds (view y)); [apply permuted_sym, Hxy|done..]. }
    destruct (AcyclicMinimizer_ok (view y) Y2 Y4 Hac Y5 Y6 (simple_det _ Y7) Hsorted (simple_unweighted _ Y7) Hhash) as (P & cls & EP & HC & Hsame).
    exists y0, r, y, P, cls. rewrite Er, Ey. cbn [mbind option_bind]. rewrite EP. split_and!; try done.
  - destruct (CyclicMinimizer_classes (R:=R) take_top max_state (view y0) (MkLifo []) (trimmed_wf _ Hy0) (simple_det _ (trimmed_simple _ Hy0)))
      as (P & cls & EP & HC & Hal); [split; [constructor|set_solver]|done| |].
    { destruct Hre0 as (Hp & _). pose proof Hp as (_ & EN & _ & EA). rewrite EN.
      pose proof (fewer_labels (view x) (view y0) T2 (trimmed_wf _ Hy0)) as Hlab.
      assert (Z.of_nat (size (input_labels (view y0))) ≤ Z.of_nat (size (input_labels (view x)))); [|pose proof (proj1 T2); nia].
      apply Hlab. intros i b [Hi Hb]. exists i, b. split; [|done]. split; [by apply (permuted_valid _ _ i Hp)|by rewrite <-EA]. }
    exists y0, r, y0, P, cls. rewrite Er, EP. split_and!; try done. intros [Hac|HS] s t Hst; [by apply Hr in Hac|]. apply Hal. right.
    split; [|done]. destruct Hev as [_ [Hv _ _ _ _]]. split; [by apply (Holds_equiv _ _ _ (symmetry Hv))|].
    apply (trimmed_coaccessible _ Hy0).
Qed.

Context (std_sort : (Arc W → Arc W → bool) → list (Arc W) → list (Arc W)) (Hstd : sorts std_sort).

(** What is left of a trimmed machine. *)
Lemma minimize_trimmed verify x : trimmed x → 1 + NumStates (view x) * (Z.of_nat (size (input_labels (view x))) + 1) ≤ max_state →
  ∃ (z y0 : VectorFst W) r, Fst_Properties verify x (kAcyclic ||| kIDeterministic) true = Some (y0, r) ∧
    (fst ← (if r =? kAcyclic ||| kIDeterministic then
       fst ← ArcSort y0 ILabelCompare; P ← AcyclicMinimizer (view fst) (Some (NumStates (view fst))); MergeStates P fst
     else P ← CyclicMinimizer (R:=R) take_top max_state (view y0) (MkLifo []); MergeStates P y0);
     StateMap fst (ArcUniqueMapper std_sort)) = Some z ∧
    leaves z (has (FstProperties (view x)) kError) (accepts (view x)) ∧
    InputSymbols (view z) = InputSymbols (view x) ∧ OutputSymbols (view z) = OutputSymbols (view x) ∧
    Holds (view z) Accessible ∧ Holds (view z) CoAccessible ∧ Holds (view z) IDeterministic ∧
    (∀ l, traces (view z) (Start (view z)) l ↔ traces (view x) (Start (view x)) l) ∧
    (¬ Holds (view x) Cyclic ∨ Holds (view x) ILabelSorted → ∀ s t, same_traces (view z) s t → s = t).
Proof using All.
  intros Hx Hmax. destruct (refinement_ok verify x Hx Hmax) as (y0 & r & y & P & cls & E0 & E & Hre & HC & Hsame).
  pose proof (reordered_trimmed x y Hx Hre) as [Y1 Y2 Y3 Y4 Y5 Y6 Y7]. destruct Hre as (Hp & [_ _ _ L4 L5] & Hi & Ho).
  destruct (merge_unique_ok std_sort Hstd y P cls Y1 Y2 Y3 Y4 Y6 Y7 HC)
    as (m & z & back & Em & Ez & [K1 K2 K3 K4 K5] & Hzi & Hzo & Hza & Hzc & Hzd & _ & Htr & Hback & Hinj).
  exists z, y0, r. split; [done|]. rewrite E, Em. split; [done|]. split_and!; [split|congruence|congruence|done|done|done| |].
  - done.
  - done.
  - done.
  - intros He. apply K4, L4, He.
  - intros a b w. by rewrite K5, L5.
  - intros l. rewrite Htr. rewrite (proj1 Hp). split; apply covers_traces, permuted_covers; [by apply permuted_sym|done].
  - intros Hc s t (Hs & Ht & Hst). apply (Hinj s t Hs Ht). destruct (Hback s Hs) as [Hbs Hts], (Hback t Ht) as [Hbt Htt].
    apply (Hsame Hc). split_and!; [done..|]. intros l. by rewrite <-Hts, <-Htt.
Qed.

(** [Connect] leaves a trimmed machine, or one without a state. *)
Lemma connect_trimmed x : minv x → WellFormed (view x) → SoundFst (view x) → (Start (view x) = kNoStateId → NumStates (view x) = 0) → simple (view x) →
  ∃ y, Connect x = Some y ∧ leaves y (has (FstProperties (view x)) kError) (accepts (view x)) ∧
    InputSymbols (view y) = InputSymbols (view x) ∧ OutputSymbols (view y) = OutputSymbols (view x) ∧
    (trimmed y ∨ Start (view y) = kNoStateId ∧ NumStates (view y) = 0) ∧
    (∀ l, traces (view y) (Start (view y)) l ↔ traces (view x) (Start (view x)) l) ∧
    NumStates (view y) ≤ NumStates (view x) ∧ Z.of_nat (size (input_labels (view y))) ≤ Z.of_nat (size (input_labels (view x))) ∧
    (Holds (view y) Cyclic → Holds (view x) Cyclic) ∧ (Holds (view x) ILabelSorted → Holds (view y) ILabelSorted).
Proof using TM.
  intros Hx Hwf Hs Hst Hsimple. set (f := view x) in *.
  destruct (Connect_holds x Hx Hwf Hs Hst) as (y & kept & E & Hl & Hk & Huse & Hv & Hi & Ho & Hacc & Hco & _). fold f in Hl, Huse, Hv, Hi, Ho.
  assert (NoDup kept) as Hnd by by apply kept_NoDup.
  assert (Forall (valid f) kept) as Hkv by (apply Forall_forall; intros s Hsk; by apply coaccessible_valid, Huse).
  set (g := abs_keep_states f kept) in *. pose proof Hl as [L1 L2 L3 L4 L5].
  exists y. split; [done|]. split; [done|]. split; [done|]. split; [done|]. split_and!.
  - destruct (decide (valid (view y) (Start (view y)))) as [Hvs|Hvs]; [left|right].
    + split; try done. apply (simple_equiv g); [by symmetry|]. by apply keep_simple.
    + assert (Start (view y) = kNoStateId) as Hno by (destruct L2 as (_ & _ & Hws); by destruct Hws).
      split; [done|]. destruct (decide (NumStates (view y) = 0)) as [|Hn]; [done|]. exfalso. pose proof (proj1 L2).
      assert (valid (view y) 0) as H00 by (unfold valid; lia). apply Hvs. pose proof (Hacc 0 H00) as Hr0. apply rtc_inv in Hr0 as [E0|(t & [Hvt _] & _)]; [by rewrite E0|done].
  - intros l. rewrite (equiv_traces _ _ _ l Hv), (proj1 Hv). cbn [Start abs_keep_states g].
    destruct (index_of kept (Start f)) as [k|] eqn:Ek; cbn.
    + apply index_of_Some in Ek; [|done]. by apply keep_traces.
    + split; intros (p & t & Hp & Ht & _).
      * pose proof (path_valid_l _ _ _ _ Hp) as Hv0. unfold valid, kNoStateId in Hv0. lia.
      * assert (Start f ∈ kept) as [k Hkk]%elem_of_vget.
        { apply Huse. split; [done|]. exists t. split; [by eapply path_rtc|done]. }
        apply index_of_Some in Hkk; [|done]. congruence.
  - rewrite (proj1 (proj2 Hv)). cbn. pose proof (proj1 Hwf).
    assert (kept ⊆+ seqZ 0 (NumStates f)) as Hsub%submseteq_length.
    { apply NoDup_submseteq; [done|]. intros s Hsk. apply elem_of_seqZ. pose proof (proj1 (Forall_forall _ _) Hkv s Hsk) as Hvs. unfold valid in Hvs. lia. }
    rewrite length_seqZ in Hsub. change (zlen kept ≤ NumStates f). unfold zlen. lia.
  - apply fewer_labels; [done|done|]. intros i b Hb.
    assert (arc_in g i b) as Hb' by (destruct Hv as (_ & EN & _ & EA); destruct Hb as [Hi' Hb]; split; [unfold valid in *; by rewrite <-EN|by rewrite <-EA]).
    destruct (keep_arc_in f kept Hnd Hkv i b Hb') as (s & a & _ & Ha & _ & ->). by exists s, a.
  - rewrite Hv. intros (i & Hc). destruct (keep_tc f kept Hnd Hkv i i Hc) as (s & t & Hs1 & Ht & Htc). simplify_eq. by exists s.
  - rewrite Hv. intros HS i Hi'. destruct (kept_state f kept Hkv i Hi') as (s & Hsi & Hvs). rewrite (kept_arcs f kept i s Hsi).
    eapply Sorted_le_sublist; [by apply keep_labels|by apply HS].
Qed.

(** C28: [AcceptorMinimize] of a deterministic acceptor without weights ends without an
access out of range and leaves a deterministic, trimmed machine with the language,
the symbol tables and the input strings that the operand had, true property bits
and the error bit if the operand had it.  If the operand is acyclic, or the arcs of
each of its states are sorted, then no two states that are left accept the same
strings, and no deterministic machine that accepts the strings of the operand has
fewer states.  The states of the tree of reversed arcs have to fit into a state
number, and [Hash] has to tell Zero from One. *)
Theorem AcceptorMinimize_correct verify x :
  minv x → WellFormed (view x) → SoundFst (view x) → (Start (view x) = kNoStateId → NumStates (view x) = 0) → simple (view x) →
  1 + NumStates (view x) * (Z.of_nat (size (input_labels (view x))) + 1) ≤ max_state →
  ∃ y : VectorFst W, AcceptorMinimize (R:=R) take_top std_sort max_state verify x = Some y ∧
    leaves y (has (FstProperties (view x)) kError) (accepts (view x)) ∧
    InputSymbols (view y) = InputSymbols (view x) ∧ OutputSymbols (view y) = OutputSymbols (view x) ∧
    Holds (view y) Accessible ∧ Holds (view y) CoAccessible ∧ Holds (view y) IDeterministic ∧
    (∀ l, traces (view y) (Start (view y)) l ↔ traces (view x) (Start (view x)) l) ∧
    (¬ Holds (view x) Cyclic ∨ Holds (view x) ILabelSorted →
      (∀ s t, same_traces (view y) s t → s = t) ∧
      ∀ g : Fst W, Holds g IDeterministic → 0 ≤ NumStates g → (∀ l, traces g (Start g) l ↔ traces (view x) (Start (view x)) l) →
        NumStates (view y) ≤ NumStates g).
Proof using All.
  intros Hx Hwf Hs Hst Hsimple Hmax. unfold AcceptorMinimize.
  destruct (connect_trimmed x Hx Hwf Hs Hst Hsimple) as (y & -> & [L1 L2 L3 L4 L5] & Hi & Ho & Hy & Htr & Hn & Hlab & Hcyc & Hsorted).
  cbn [mbind option_bind]. destruct Hy as [Hy|[Hno HN]].
  - rewrite (proj2 (Z.eqb_neq _ _)) by (pose proof (trimmed_start _ Hy) as Hv; unfold valid in Hv; unfold kNoStateId; lia).
    destruct (minimize_trimmed verify y Hy) as (z & y0 & r & -> & E & [K1 K2 K3 K4 K5] & Hzi & Hzo & Hza & Hzc & Hzd & Hzt & Hmin).
    { pose proof (proj1 L2). nia. }
    assert (¬ Holds (view x) Cyclic ∨ Holds (view x) ILabelSorted → ∀ s t, same_traces (view z) s t → s = t) as Hdist.
    { intros [Ha|HS]; apply Hmin; [left; tauto|right; tauto]. }
    exists z. split; [exact E|]. split_and!; [split|congruence|congruence|done|done|done| |]; [done|done|done|auto| | |].
    + intros a b w. by rewrite K5, L5.
    + intros l. by rewrite Hzt, Htr.
    + intros Hc. split; [by apply Hdist|]. intros g Hg Hgn Hl. apply (fewest_states (view z) g); try done; [by apply Hdist|].
      intros l. by rewrite Hzt, Htr, Hl.
  - rewrite Hno, Z.eqb_refl. exists y. split; [done|].
    assert (∀ s, ¬ valid (view y) s) as Hnv by (unfold valid; lia).
    split_and!; [by split|done|done|by intros s ?%Hnv..|done|]. intros _. split; [by intros s t (?%Hnv & _)|]. intros. lia.
Qed.
End choice.

(** * An instance *)

Section witness.
Local Notation M := MinMaxWeight.

(** The states 1 and 2 have the same arcs, and so the same traces. *)
Definition doubled : list (mutation M) :=
  [MAddStates 4; MSetStart 0; arc 0 1 1; arc 0 2 2; arc 1 1 3; arc 2 1 3; arc 3 1 0; MSetFinal 3 One].
Definition doubled_fst : VectorFst M := build doubled.

Lemma doubled_simple : simple (view doubled_fst) ∧ Holds (view doubled_fst) ILabelSorted.
Proof.
  assert (∀ s, valid (view doubled_fst) s → s = 0 ∨ s = 1 ∨ s = 2 ∨ s = 3) as Hs.
  { intros s Hs. assert (NumStates (view doubled_fst) = 4) as E by by vm_compute. unfold valid in Hs. lia. }
  split; [split; [|split]|].
  - intros s [-> |[-> |[-> | ->]]]%Hs; vm_compute; repeat constructor; set_solver.
  - intros s a [[-> |[-> |[-> | ->]]]%Hs Ha]; vm_compute in Ha; repeat (apply elem_of_cons in Ha as [->|Ha]; [done|]); by apply elem_of_nil in Ha.
  - intros s [-> |[-> |[-> | ->]]]%Hs; vm_compute; auto.
  - intros s [-> |[-> |[-> | ->]]]%Hs; vm_compute; repeat constructor; done.
Qed.

Lemma hash_one : Hash (Zero : M) ≠ Hash (One : M).
Proof. by vm_compute. Qed.

Lemma AcceptorMinimize_witness :
  let x := view doubled_fst in
  ∃ y : VectorFst M, AcceptorMinimize (R:=M) (@take_first) (λ lt, stable_sort lt) 1000 false doubled_fst = Some y ∧
    leaves y (has (FstProperties x) kError) (accepts x) ∧
    InputSymbols (view y) = InputSymbols x ∧ OutputSymbols (view y) = OutputSymbols x ∧
    Holds (view y) Accessible ∧ Holds (view y) CoAccessible ∧ Holds (view y) IDeterministic ∧
    (∀ l, traces (view y) (Start (view y)) l ↔ traces x (Start x) l) ∧
    (¬ Holds x Cyclic ∨ Holds x ILabelSorted →
      (∀ s t, same_traces (view y) s t → s = t) ∧
      ∀ g : Fst M, Holds g IDeterministic → 0 ≤ NumStates g → (∀ l, traces g (Start g) l ↔ traces x (Start x) l) →
        NumStates (view y) ≤ NumStates g).
Proof.
  destruct (built_invariant _ (built_history doubled)) as [Hc Hs].
  apply (AcceptorMinimize_correct (R:=M) (@take_first) take_first_top 1000 hash_one (λ lt, stable_sort lt) stable_sort_sorts false doubled_fst).
  - exact Hc.
  - by apply well_formedb_spec.
  - exact Hs.
  - by vm_compute.
  - apply doubled_simple.
  - by vm_compute.
Defined.

Example doubled_minimal : ∀ y : VectorFst M,
  AcceptorMinimize (R:=M) (@take_first) (λ lt, stable_sort lt) 1000 false doubled_fst = Some y → NumStates (view y) = 3.
Proof. intros y E. vm_compute in E. by injection E as <-. Qed.
End witness.
